(* ===== verification/_CoqProject ===== *)
-Q . S2P
Prelude.v
RustStr.v
RustIo.v
RustOrd.v
PatchParser.v
PatchParserFacts.v
PatchRoundTrip.v
SeekSequence.v
TextFile.v
FileUpdate.v
FileUpdateFacts.v
ApplyPatch.v
ApplyPatchFacts.v
MemFs.v
ApplyPatchSafety.v
PathConvention.v
Utf8.v
PathUri.v
PathUriFacts.v
PathText.v
FsPolicy.v
FsDeny.v
FsTransform.v
FsPolicyFacts.v
FsTransformFacts.v
FsProfile.v
FsWorkspace.v
FsDenyFacts.v
FsSample.v
Invocation.v
PatchTrace.v
PatchSafety.v
PatchProgress.v
StreamText.v
HiddenTag.v
Utf8Stream.v
TaggedLine.v
ExecPolicy.v
ExecPolicyFacts.v
PolicyParser.v
PolicyParserFacts.v
PolicyAmend.v
PolicyAmendFacts.v
HeadTailBuffer.v
Truncate.v
TurnDiff.v
ResponseItem.v
WorldState.v
ThreadItem.v
ThreadHistory.v
ThreadHistoryRuns.v
Rollout.v
Reconstruct.v
Normalize.v
RetainedContext.v
Guardian.v
ThreadSample.v
IpAddr.v
NetPolicy.v
NetGlobs.v
NetConfig.v
AuthPath.v
MitmHook.v
NetConfigFacts.v
NetState.v
NetRuntime.v
NetSample.v
NetRuntimeFacts.v
NetConnect.v
NetRuns.v
NetSpec.v
Orchestrator.v
ShellCommand.v
DangerousCommand.v
ShellCommandFacts.v
ExecApproval.v
ExecApprovalFacts.v
PolicyLoad.v
ExecTool.v
SafetySample.v
