(* ===== verification/Prelude.v ===== *)
(** * Codex Turnrail engine: a verification development

    Codex Turnrail is a desktop client with an engine in Rust under
    [src/engine/codex-rs]. This development models parts of the engine that
    decide what happens to a user's files and commands: the patch tool and its
    approval, the permissions of the file system, the execution policy and the
    approval of commands, the network proxy, the parsers of the assistant's
    streamed text, the record of a thread, its replay and its forks, the evidence
    retained for reviews, and the bookkeeping around them. Paths below are relative to that directory.

    ** The parts and how they interact

    - [apply-patch]: the model edits files by sending a patch. The patch is
      parsed, also while it streams in; its chunks are located in the files by
      a search in four passes; the edited files are written through the
      interface [ExecutorFileSystem], and a delta of the committed changes is
      returned. Before that, [invocation.rs] recognises the tool call and
      verifies the patch by a dry run.
    - [core/src/turn_diff_tracker.rs]: consumes those deltas and keeps the net
      change of a turn.
    - [execpolicy]: policies are Starlark files of prefix rules, network rules
      and host executables. A command is checked against them; approvals are
      saved by appending rule lines; an old kind of rule is migrated away.
    - [utils/path-uri], [protocol/src/permissions.rs], [protocol/src/models.rs],
      [sandboxing]: files are named by URIs; a policy of entries gives each path
      its access; a turn's profile, what the user granted and what an
      administrator denies are combined into the policy of a call.
    - [core/src/safety.rs], [core/src/tools]: a patch is approved when its paths
      may be written; the orchestrator asks for approvals, chooses the sandbox of
      the first attempt and tries again outside of it.
    - [shell-command], [core/src/exec_policy.rs], [exec_command]: the commands of
      a shell script are read from its syntax tree and judged by rules, and by a
      check for danger when there is no rule; the verdict is the approval the
      orchestrator acts on, and an approval may become a rule.
    - [network-proxy]: requests are matched against domain lists that the user
      may change within an administrator's constraints.
    - [utils/stream-parser]: text arrives in chunks of bytes; it is decoded,
      citations are hidden, plan blocks are split off.
    - [core/src/unified_exec/head_tail_buffer.rs], [utils/string] and
      [utils/output-truncation]: the output of commands is kept within a budget.
    - [core/src/context_manager/normalize.rs]: the history sent to the model
      has every call paired with its output.
    - [history], [app-server-protocol/src/protocol/thread_history.rs]: a thread is
      a rollout, a list of lines that is only appended to. A reducer turns the
      lines into the turns a client shows, and tells what each line changed.
      [core/src/thread_rollout_truncation.rs] cuts a rollout for a fork, and
      [core/src/session/rollout_reconstruction.rs] reads it backwards to resume a
      session, with the snapshots of [core/src/context/world_state]. A rollback is
      a line as well: each reader drops the turns it names.
    - [history/src/retained_context.rs], [guardian-context]: what the user
      instructed and answered is retained apart from the model's history, so that a
      compaction does not lose it; the guardian, which reviews actions, sees that
      and a bounded history of its own, of which a transcript is selected for each
      review.

    ** Files

    - [Prelude]: results of Rust functions ([res], with panics as values), the
      tactics, the hint databases, list lemmas. [RustStr]: strings and the
      methods of [str]. [RustIo]: I/O errors. [RustOrd]: the order of strings,
      the stable sort, [dedup]. [Utf8]: decoding and encoding.
    - [PatchParser] ([parser.rs], [streaming_parser.rs]), [PatchParserFacts],
      [PatchRoundTrip]: the parser is incremental, keeps its invariant in every
      reachable state, and reads back what is printed.
    - [SeekSequence] ([seek_sequence.rs]), [TextFile] ([text_file.rs]),
      [FileUpdate] ([file_update.rs]), [FileUpdateFacts]: locating and replacing
      lines; the two implementations of replacing agree.
    - [ApplyPatch] ([lib.rs]) in a state and error monad over the classes
      [PathUriOps], [ExecutorFileSystem] and [Writer]; [ApplyPatchFacts] proves
      against the laws of a file system ([LawfulFileSystem]) that a run refines
      the abstract effect of the hunks and that an exact delta replays and
      undoes; [MemFs] has an instance in memory and completeness on reliable
      file systems; [ApplyPatchSafety] shows that no input panics.
    - [Invocation] ([invocation.rs]): applying a verified patch does what it
      shows, and succeeds on a reliable file system.
    - [PatchTrace]: the text kept of a verified patch means the
      same, and applying it calls the file system only for its own paths.
    - [PathConvention], [PathUri] ([path-uri/src/lib.rs]) over the class [UrlLib]
      with its laws, [PathUriFacts]: containment is the prefix
      order of segments, the ancestors of a path end at its root. [PathText]
      ([lib.rs], [native_path.rs]): the spellings of paths.
    - [FsPolicy] ([permissions.rs], [permissions/target.rs]), [FsPolicyFacts]:
      the nearest entries decide; [FsWorkspace]: full-disk access,
      workspace roots and the configured writable roots. [FsDeny] (the matcher and validator of denied reads),
      [FsDenyFacts]. [FsTransform] ([policy_transforms.rs]), [FsTransformFacts]:
      intersections stay within the grant, merged grants are
      laid over one after the other. [FsProfile] (profiles, the choice of a
      sandbox). [FsSample]: URLs in memory, the
      laws they keep and the theorems at concrete policies.
    - [PatchSafety] ([safety.rs], [core/src/apply_patch.rs]):
      a patch approved without asking writes only where it may. [PatchProgress]:
      the throttled events of a streaming patch.
    - [Orchestrator] ([tools/orchestrator.rs], [tools/sandboxing.rs]) over the
      class [ToolHost]: a recording host shows what precedes
      an attempt outside of the sandbox.
    - [ShellCommand] ([bash.rs], [powershell.rs]) and [DangerousCommand] over the
      class [ShellGrammars], [ShellCommandFacts]: the two readings
      of a script agree; wrapping, as a description of its own says what [sudo], [env],
      [trap] and the shells run ([wraps]), hides no danger.
    - [ExecApproval] ([core/src/exec_policy.rs] with its submodules),
      [ExecApprovalFacts]: the strictest verdict, the effect of amendments.
      [PolicyLoad]: required rules hold in every policy a
      session reaches, but for a path that a rule names itself. [ExecTool] (the path of [exec_command]):
      the sandbox is left only with an approval or a rule for each command.
      [SafetySample]: the theorems at concrete patches, calls and requests.
    - [StreamText] (the trait as a class with its law), [HiddenTag],
      [Utf8Stream], [TaggedLine]: every parser gives the same result however its input
      is cut, and that result is the one of a reference reading.
    - [ExecPolicy] ([policy.rs], [rule.rs], [decision.rs],
      [executable_name.rs]), [ExecPolicyFacts]: what covers a command and what
      is decided; [PolicyParser] ([parser.rs]), [PolicyParserFacts]: the
      invariant of reachable policies and the examples of rules; [PolicyAmend]
      ([amend.rs], [sandbox_migration.rs]), [PolicyAmendFacts]:
      amendments only append, the migration runs once.
    - [HeadTailBuffer] ([head_tail_buffer.rs]): the buffer refines a summary of
      the whole stream. [Truncate] ([truncate.rs], [output-truncation]):
      where texts are cut, what is kept of content items.
    - [TurnDiff] ([turn_diff_tracker.rs]) takes the deltas of [ApplyPatch]:
      reachable trackers describe the change of the files since
      the turn began, and their diff is that change rendered anew, whatever was
      cached; the same for runs of [apply_patch], and a turn
      whose diff depends on the traversal order of a hash map.
    - [ResponseItem] ([protocol/src/models.rs], [history/src/lib.rs],
      [annotated_content.rs]): the items of the history. [Normalize]
      ([normalize.rs] and its callers): the index loops are
      list comprehensions, calls and outputs correspond afterwards.
    - [RetainedContext] ([retained_context.rs], [reconciled_retained_context.rs])
      over the class [RetainedSizes]: the families are bounded, an unmarked context
      is the one without bounds, a rollback forgets what was accepted later, after any
      recordings, and a
      completion accounts for each live message. [Guardian] ([history.rs],
      [cursor.rs], [profile.rs], [profile/window.rs]) over the class
      [Serialization]: the review history is bounded for each kind of item, a
      continued review misses nothing, and a transcript keeps every authorization
      with the rest in its limits.
    - [ThreadItem] (the items, turns and events of [v2/item.rs],
      [protocol.rs], [items.rs], and [item_builders.rs]) over the class
      [ThreadPayloads]; [ThreadHistory] ([thread_history.rs]); [ThreadHistoryRuns]:
      every handler is a sequence of four kinds of steps, so that the index of a
      turn's items agrees with a search, a rollback drops the last turns, and a
      client that applies the change sets of batches has the turns of the thread.
    - [WorldState] ([world_state/mod.rs]): merge patches lead from snapshot to
      snapshot. [Rollout] ([thread_rollout_truncation.rs], [event_mapping.rs],
      [contextual_user_message.rs]) over the class [EnvelopeReader]: a truncated
      rollout has the turns it was cut for, whatever rollbacks come later.
      [Reconstruct] ([rollout_reconstruction.rs]) over the class [UuidReader]: the
      early end of the scan loses nothing, turns rolled back leave no trace.
      [ThreadSample]: the theorems at concrete rollouts.
    - [IpAddr] (the parser and the ranges of addresses, [policy.rs]), [NetPolicy]
      ([policy.rs]): comparing patterns decides inclusion of
      their hosts; [NetGlobs]: what compiled lists match, from the laws of globs.
    - [NetConfig] ([config.rs]), [NetConfigFacts]: deny wins,
      listeners stay on loopback. [AuthPath] ([authorization_path.rs]): the paths
      with one interpretation. [MitmHook] ([mitm_hook.rs]): the
      first hook that matches, the errors of compilation.
    - [NetState] ([state.rs]): the check accepts exactly what
      satisfies the constraints, and building a state keeps them. [NetRuntime]
      ([runtime.rs], [network_policy.rs]), [NetRuntimeFacts]: when a host is
      allowed, what constraints mean for decisions. [NetConnect]
      ([connect_policy.rs]): no local address by another name. [NetRuns]: the
      sections under the lock as a step relation with its invariant. [NetSpec]
      ([network_proxy_spec.rs], [environment_policy.rs], [remote_config.rs],
      [network_policy_decision.rs]): where configurations come
      from. [NetSample]: concrete interfaces and a managed configuration on
      which the theorems of these files are tried.

    ** Conventions

    A [String] is the list of its characters, with byte lengths where the code
    counts bytes. [usize] values are [nat], or [N] with the saturation written
    out where the code saturates; an index out of range, a subtraction below
    zero and an [expect] on [None] are the value [Panic]. Loops that are not
    structural take fuel: the hidden tag loop the length of its input and one,
    which its progress makes enough (each round consumes a tag or stops), and
    UTF-8 scans the number of bytes, the ancestors of a URI its segments, the walk
    over a syntax tree its nodes ([drain_visits]), the detection of a shell the
    length of its path ([detect_shell_type_enough]), the eviction for the token
    budget the entries of its pool, and the recording of a review item two calls
    ([record_fuel_enough]). Code of other packages is a class of
    operations; what is relied on is a class of laws ([Lawful...]) with a
    concrete instance that shows the laws can hold.

    ** Not modelled

    The terminal user interface, the app server but for the thread history, the
    collection, composition and admission of the guardian's evidence, the
    sandboxes of the platforms and the command lines that start them, the
    functions on host paths (but for the subpaths of writable roots, [HostFiles]) and the
    older forms of policies, the sessions behind
    approvals and their caches, the management of processes, the servers and certificates of the network proxy and its
    credential broker, sessions and their tasks but for the replay of rollouts, the recording,
    compaction and rollback of the model's history (so that the items a resumed
    session starts with are not followed, only the metadata), the sections of the
    world state, the configuration loader, the Swift
    application: input and output, concurrency of the async
    runtime and large data types, of which only the functions above are taken.
    Starlark evaluation, JSON, the Tree-sitter parsers of bash and PowerShell, the
    parsing and percent-encoding of URLs, UUIDs, hashing and the
    text of unified diffs are the work of other packages and parameters here (the line
    diff of a turn is given 100 ms by the code, after which it may be coarser; the model
    has the one of a diff that ends in time); the
    order in which a hash map is traversed is an argument of each traversal. The
    revisions of the turn diff wrap at 64 bits; its theorems are about turns with
    fewer changes. The globs of [globset], the host parser of [url], HTTP headers
    and name lookups are interfaces; logging is left out. *)

From Stdlib Require Export Lia.
From stdpp Require Export prelude.

(** ** Outcomes of Rust functions

    A Rust function that returns [Result<A, E>] and may also panic (slice out
    of range, [usize] subtraction below zero, [expect] on [None]) is modelled
    by [res E A]: the panic is a value of its own, so that "never panics" is a
    statement about the model. *)

Inductive res (E A : Type) : Type :=
  | Ok (a : A)
  | Err (e : E)
  | Panic.
Arguments Ok {E A} a.
Arguments Err {E A} e.
Arguments Panic {E A}.

Definition res_bind {E A B} (m : res E A) (k : A → res E B) : res E B :=
  match m with
  | Ok a => k a
  | Err e => Err e
  | Panic => Panic
  end.

(** Rust's [Result::map_err]. *)
Definition map_err {E F A} (f : E → F) (m : res E A) : res F A :=
  match m with
  | Ok a => Ok a
  | Err e => Err (f e)
  | Panic => Panic
  end.

(** Rust's [Result::is_ok]. *)
Definition is_ok {E A} (m : res E A) : bool :=
  match m with Ok _ => true | _ => false end.

(** Rust's [Result::ok]. *)
Definition res_ok {E A} (m : res E A) : option A :=
  match m with Ok a => Some a | _ => None end.

(** Rust's [Option::ok_or]. *)
Definition ok_or {E A} (o : option A) (e : E) : res E A :=
  match o with Some a => Ok a | None => Err e end.

Definition panics {E A} (m : res E A) : bool :=
  match m with Panic => true | _ => false end.

(** The [?] operator: bind with early return of the error. *)
Declare Scope rust_scope.
Delimit Scope rust_scope with rust.
Notation "'let?' x := m 'in' k" := (res_bind m (λ x, k))
  (at level 10, x pattern, m at level 100, k at level 200) : rust_scope.
Open Scope rust_scope.

(** [usize] subtraction, which panics below zero (overflow checks on). *)
Definition checked_sub {E} (a b : nat) : res E nat :=
  if decide (b ≤ a) then Ok (a - b) else Panic.

(** Slicing [v[lo..hi]], which panics unless [lo <= hi <= v.len()]. *)
Definition slice {E A} (lo hi : nat) (v : list A) : res E (list A) :=
  if decide (lo ≤ hi ∧ hi ≤ length v) then Ok (take (hi - lo) (drop lo v)) else Panic.

(** [usize] on 64-bit targets where the code saturates; [u64] is the same. *)
Definition USIZE_MAX : N := (2 ^ 64 - 1)%N.
Definition sat_add (a b : N) : N := N.min (a + b) USIZE_MAX.
Definition sat_mul (a b : N) : N := N.min (a * b) USIZE_MAX.
(** [n.saturating_add(1)], on the numbers of the width. *)
Definition u64_succ (n : N) : N := if (n <? USIZE_MAX)%N then (n + 1)%N else n.
Lemma u64_succ_ge n : (n ≤ u64_succ n)%N.
Proof. unfold u64_succ. destruct (N.ltb_spec n USIZE_MAX); lia. Qed.

(** ** The development's tactics *)

(** Case analysis on the first scrutinee of a [match] or [if] found in the
    goal, remembering the equation. *)
Ltac case_goal :=
  match goal with
  | |- context [match ?x with _ => _ end] =>
      lazymatch x with
      | context [match _ with _ => _ end] => fail
      | _ => destruct x eqn:?
      end
  end.

(** The same for a hypothesis. *)
Ltac case_hyp H :=
  match type of H with
  | context [match ?x with _ => _ end] =>
      lazymatch x with
      | context [match _ with _ => _ end] => fail
      | _ => destruct x eqn:?
      end
  end.

(** Destruct boolean decisions into the propositions they decide. *)
Ltac bdec :=
  repeat match goal with
    | H : bool_decide _ = true |- _ => apply bool_decide_eq_true in H
    | H : bool_decide _ = false |- _ => apply bool_decide_eq_false in H
    | H : _ && _ = true |- _ => apply andb_true_iff in H as [? ?]
    | H : _ || _ = false |- _ => apply orb_false_iff in H as [? ?]
    | H : negb _ = true |- _ => apply negb_true_iff in H
    | H : negb _ = false |- _ => apply negb_false_iff in H
    end.

(** Finish an equation between [res] values after inversion. *)
Ltac res_inv :=
  repeat match goal with
    | H : Ok _ = Ok _ |- _ => injection H as H; try subst
    | H : Ok _ = Err _ |- _ => discriminate H
    | H : Err _ = Ok _ |- _ => discriminate H
    | H : Ok _ = Panic |- _ => discriminate H
    | H : Panic = Ok _ |- _ => discriminate H
    | H : Err _ = Panic |- _ => discriminate H
    | H : Panic = Err _ |- _ => discriminate H
    | H : Err _ = Err _ |- _ => injection H as H; try subst
    end.

(** Decide a closed decidable proposition by computation. *)
Ltac decide_now := apply (bool_decide_unpack _); vm_compute; exact I.

Create HintDb turnrail.
Create Rewrite HintDb turnrail.

(** ** Lemmas on [res] *)

Lemma res_bind_Ok {E A B} (m : res E A) (k : A → res E B) b :
  res_bind m k = Ok b ↔ ∃ a, m = Ok a ∧ k a = Ok b.
Proof.
  destruct m; simpl; split; try (intros (? & ? & _); discriminate); try done.
  - eauto.
  - by intros (? & [= <-] & ?).
Qed.

Lemma res_bind_assoc {E A B C} (m : res E A) (f : A → res E B) (g : B → res E C) :
  res_bind (res_bind m f) g = res_bind m (λ a, res_bind (f a) g).
Proof. by destruct m. Qed.

Lemma res_bind_no_panic {E A B} (m : res E A) (k : A → res E B) :
  m ≠ Panic → (∀ a, m = Ok a → k a ≠ Panic) → res_bind m k ≠ Panic.
Proof. destruct m; simpl; naive_solver. Qed.

Lemma checked_sub_ok {E} a b : b ≤ a → @checked_sub E a b = Ok (a - b).
Proof. intros H. unfold checked_sub. by rewrite decide_True. Qed.

Lemma slice_ok {E A} lo hi (v : list A) :
  lo ≤ hi → hi ≤ length v → @slice E A lo hi v = Ok (take (hi - lo) (drop lo v)).
Proof. intros ??. unfold slice. by rewrite decide_True. Qed.

#[export] Hint Resolve checked_sub_ok slice_ok : turnrail.

(** ** Lemmas on lists *)

(** [Vec::last]. *)
Lemma last_snoc_eq {A} (l : list A) x : last (l ++ [x]) = Some x.
Proof. apply last_snoc. Qed.

Lemma app_cons_middle {A} (l1 l2 : list A) x : l1 ++ x :: l2 = (l1 ++ [x]) ++ l2.
Proof. by rewrite <- app_assoc. Qed.

(** Replace the last element ([last_mut] followed by an assignment). *)
Fixpoint update_last {A} (f : A → A) (l : list A) : list A :=
  match l with
  | [] => []
  | [x] => [f x]
  | x :: l' => x :: update_last f l'
  end.

Lemma update_last_snoc {A} (f : A → A) l x : update_last f (l ++ [x]) = l ++ [f x].
Proof.
  induction l as [|y l IH]; [done|]. simpl.
  destruct (l ++ [x]) eqn:E; [by destruct l|]. by rewrite IH.
Qed.

Lemma update_last_nil {A} (f : A → A) : update_last f [] = [].
Proof. done. Qed.

Lemma last_Some_snoc {A} (l : list A) x : last l = Some x → ∃ l', l = l' ++ [x].
Proof. intros H. by apply last_Some in H. Qed.

Lemma snoc_inv {A} (l : list A) : l = [] ∨ ∃ l' x, l = l' ++ [x].
Proof. destruct l using rev_ind; eauto. Qed.

#[export] Hint Rewrite @update_last_snoc @last_snoc : turnrail.

(** [Iterator::map] with [collect::<Result<Vec<_>, _>>]. *)
Fixpoint collect {E A B} (f : A → res E B) (l : list A) : res E (list B) :=
  match l with
  | [] => Ok []
  | x :: l' => let? y := f x in let? ys := collect f l' in Ok (y :: ys)
  end.

Lemma collect_Ok {E A B} (f : A → res E B) l ys :
  collect f l = Ok ys ↔ Forall2 (λ x y, f x = Ok y) l ys.
Proof.
  revert ys. induction l as [|x l IH]; intros ys; simpl.
  - split; [intros [= <-]; constructor|]. by inversion 1.
  - rewrite res_bind_Ok. setoid_rewrite res_bind_Ok. setoid_rewrite IH. split.
    + intros (y & Hy & ys' & Hys & [= <-]). by constructor.
    + inversion 1; subst. eauto 10.
Qed.

Lemma map_err_Ok {E F A} (f : E → F) (m : res E A) a : map_err f m = Ok a ↔ m = Ok a.
Proof. destruct m; simpl; split; try done. all: by intros [= ->]. Qed.

(** [Iterator::find_map]. *)
Fixpoint find_map {A B} (f : A → option B) (l : list A) : option B :=
  match l with
  | [] => None
  | x :: l' => match f x with Some y => Some y | None => find_map f l' end
  end.

Lemma find_map_Some {A B} (f : A → option B) l y :
  find_map f l = Some y → ∃ x, x ∈ l ∧ f x = Some y.
Proof.
  induction l as [|x l IH]; simpl; [done|]. destruct (f x) eqn:E; [intros [= <-]|intros (z & ? & ?)%IH];
    eexists; (split; [|done]); by constructor.
Qed.

Lemma find_map_None {A B} (f : A → option B) l : find_map f l = None ↔ ∀ x, x ∈ l → f x = None.
Proof.
  induction l as [|x l IH]; simpl; [split; [by intros _ x ?%not_elem_of_nil|done]|].
  setoid_rewrite elem_of_cons. destruct (f x) eqn:E; [split; [done|intros H; by rewrite H in E; auto]|].
  rewrite IH. naive_solver.
Qed.

(** [Iterator::max_by_key], with the comparison of the keys: the last maximum. *)
Definition max_by {A} (gt : A → A → bool) (l : list A) : option A :=
  match l with
  | [] => None
  | x :: l' => Some (foldl (λ a b, if gt a b then a else b) x l')
  end.

Lemma max_by_None {A} (gt : A → A → bool) l : max_by gt l = None ↔ l = [].
Proof. by destruct l. Qed.

Lemma max_by_Some {A} (gt : A → A → bool) l m :
  (∀ a b c, gt b a = false → gt c b = false → gt c a = false) → (∀ a b, gt a b = true → gt b a = false) →
  max_by gt l = Some m → m ∈ l ∧ ∀ x, x ∈ l → gt x m = false.
Proof.
  intros Htr Has. destruct l as [|x l]; simpl; [done|]. intros [= <-].
  assert (Hirr : ∀ a, gt a a = false) by (intros a; destruct (gt a a) eqn:E; [|done]; specialize (Has a a E); congruence).
  revert x. induction l as [|y l IH]; intros x; simpl.
  - split; [by left|]. intros z ->%list_elem_of_singleton. apply Hirr.
  - destruct (gt x y) eqn:E; [destruct (IH x) as [Hin Hmax]|destruct (IH y) as [Hin Hmax]].
    + split; [apply elem_of_cons in Hin as [->|?]; [by left|by right; right]|].
      intros z [->|[->|Hz]%elem_of_cons]%elem_of_cons; [apply Hmax; by left| |apply Hmax; by right].
      apply (Htr _ x); [apply Hmax; by left|by apply Has].
    + split; [by right|].
      intros z [->|[->|Hz]%elem_of_cons]%elem_of_cons; [|apply Hmax; by left|apply Hmax; by right].
      apply (Htr _ y); [apply Hmax; by left|done].
Qed.

(** Folding an operation that may stop with an error. *)
Fixpoint foldM {E S X} (f : S → X → res E S) (s : S) (l : list X) : res E S :=
  match l with
  | [] => Ok s
  | x :: l' => let? s' := f s x in foldM f s' l'
  end.

Lemma foldM_app {E S X} (f : S → X → res E S) s l1 l2 :
  foldM f s (l1 ++ l2) = let? s' := foldM f s l1 in foldM f s' l2.
Proof.
  revert s. induction l1 as [|x l1 IH]; intros s; simpl; [done|].
  destruct (f s x); simpl; auto.
Qed.

Lemma foldM_cons {E S X} (f : S → X → res E S) s x l :
  foldM f s (x :: l) = let? s' := f s x in foldM f s' l.
Proof. done. Qed.

Lemma foldM_singleton {E S X} (f : S → X → res E S) s x : foldM f s [x] = f s x.
Proof. simpl. by destruct (f s x). Qed.

(** An invariant of every step is an invariant of the fold. *)
Lemma foldM_inv {E S X} (P : S → Prop) (f : S → X → res E S) s l s' :
  (∀ s x s', P s → f s x = Ok s' → P s') → P s → foldM f s l = Ok s' → P s'.
Proof.
  intros Hf. revert s. induction l as [|x l IH]; intros s HP; simpl.
  - intros [= <-]. done.
  - rewrite res_bind_Ok. intros (a & Ha & Hl). eapply IH, Hl. eauto.
Qed.

Lemma existsb_false_Forall {A} (f : A → bool) l : existsb f l = false ↔ Forall (λ x, f x = false) l.
Proof.
  induction l as [|x l IH]; simpl; [split; [constructor|done]|].
  rewrite orb_false_iff, IH, Forall_cons. done.
Qed.

Lemma foldl_ext {A B} (f g : A → B → A) a l : (∀ a b, f a b = g a b) → foldl f a l = foldl g a l.
Proof. intros He. revert a. induction l as [|b l IH]; intros a; simpl; [done|]. by rewrite He, IH. Qed.

Lemma map_fix {A} (f : A → A) (p : A → bool) l : (∀ x, p x = false → f x = x) → existsb p l = false → map f l = l.
Proof. intros Hf. induction l as [|x l IH]; simpl; [done|]. intros [Hx Hl]%orb_false_iff. by rewrite Hf, IH. Qed.

Lemma map_gone {A} (f : A → A) (p : A → bool) l : (∀ x, p (f x) = false) → existsb p (map f l) = false.
Proof. intros Hf. induction l as [|x l IH]; simpl; [done|]. by rewrite Hf. Qed.

Lemma filter_all {A} (Q : A → Prop) `{!∀ x, Decision (Q x)} (l : list A) : Forall Q l → filter Q l = l.
Proof. induction 1 as [|x l Hx _ IH]; [done|]. by rewrite filter_cons_True, IH. Qed.

Lemma filter_iff_in {A} (P Q : A → Prop) `{!∀ x, Decision (P x), !∀ x, Decision (Q x)} (l : list A) :
  (∀ x, x ∈ l → P x ↔ Q x) → filter P l = filter Q l.
Proof.
  induction l as [|x l IH]; [done|]. intros Hx. assert (filter P l = filter Q l) as E by (apply IH; intros; apply Hx; by right).
  specialize (Hx x ltac:(by left)). destruct (decide (P x)).
  - rewrite !filter_cons_True by tauto. by rewrite E.
  - rewrite !filter_cons_False by tauto. done.
Qed.

Lemma omap_NoDup_unique {A B} (f : A → option B) (l : list A) x y b :
  NoDup (omap f l) → x ∈ l → y ∈ l → f x = Some b → f y = Some b → x = y.
Proof.
  induction l as [|z l IH]; [by intros _ ?%not_elem_of_nil|]. simpl. intros Hnd Hx Hy Ex Ey.
  assert (Hl : NoDup (omap f l)) by (destruct (f z); [by apply NoDup_cons in Hnd as [_ ?]|done]).
  apply elem_of_cons in Hx as [->|Hx], Hy as [->|Hy]; [done| | |by apply IH].
  - rewrite Ex in Hnd. apply NoDup_cons in Hnd as [[] _]. apply list_elem_of_omap. eauto.
  - rewrite Ey in Hnd. apply NoDup_cons in Hnd as [[] _]. apply list_elem_of_omap. eauto.
Qed.

Lemma NoDup_omap_filter {A B} (f : A → option B) (Q : A → Prop) `{!∀ x, Decision (Q x)} (l : list A) :
  NoDup (omap f l) → NoDup (omap f (filter Q l)).
Proof.
  induction l as [|x l IH]; [done|]. simpl. intros Hnd.
  assert (Hl : NoDup (omap f l)) by (destruct (f x); [by apply NoDup_cons in Hnd as [_ ?]|done]).
  destruct (decide (Q x)); [rewrite filter_cons_True by done|rewrite filter_cons_False by done; by apply IH].
  simpl. destruct (f x) as [b|]; [|by apply IH]. apply NoDup_cons in Hnd as [Hn _]. constructor; [|by apply IH].
  intros (y & [_ Hy]%list_elem_of_filter & Ey)%list_elem_of_omap. apply Hn, list_elem_of_omap. eauto.
Qed.

Lemma NoDup_omap_tail {A B} (f : A → option B) x (l : list A) : NoDup (omap f (x :: l)) → NoDup (omap f l).
Proof. simpl. intros Hnd. destruct (f x); [by apply NoDup_cons in Hnd as [_ ?]|done]. Qed.

Lemma NoDup_snd {A B} (prs : list (A * B)) :
  NoDup prs.*1 → (∀ a a' b, (a, b) ∈ prs → (a', b) ∈ prs → a = a') → NoDup prs.*2.
Proof.
  induction prs as [|[a b] prs IH]; cbn [fmap list_fmap fst snd]; [constructor|].
  intros [Ha Hnd]%NoDup_cons Hinj. constructor.
  - intros ([a' b'] & -> & Hin)%list_elem_of_fmap. apply Ha, list_elem_of_fmap. exists (a', b'). split; [|done].
    eapply Hinj; [by left|by right].
  - apply IH; [done|]. intros x x' y Hx Hx'. eapply Hinj; by right.
Qed.
