(* ===== verification/RustStr.v ===== *)
(** * Rust strings

    A Rust [char] is a Unicode scalar value, modelled as an [N]; a [String] or
    [&str] is the list of its chars.  Byte offsets of the source ([find],
    [drain(..n)], slices) are taken at char boundaries in every function that
    is modelled, so they become char offsets here; where the code compares or
    reports a length in bytes, [str_len] (the UTF-8 length) is used.  [PathBuf]
    values of a patch are strings as well.

    The file holds the [str] methods of the standard library the engine uses
    and the lemmas the components share about them. *)

From S2P Require Import Prelude.
From Stdlib Require Import Ascii String.
From stdpp Require Export strings.
Open Scope list_scope.

Abbreviation char := N (only parsing).
Abbreviation str := (list N) (only parsing).

(** String literals of the source. *)
Definition lit (s : string) : str := map N_of_ascii (list_ascii_of_string s).
Arguments lit _%_string.

(** Char literals. *)
Definition c_lf : char := 10%N.
Definition c_cr : char := 13%N.
Definition c_sp : char := 32%N.
Definition c_plus : char := 43%N.
Definition c_minus : char := 45%N.
Definition c_dot : char := 46%N.
Definition c_slash : char := 47%N.
Definition c_colon : char := 58%N.
Definition c_backslash : char := 92%N.
Definition c_quote : char := 39%N.
Definition c_dquote : char := 34%N.

(** [char::len_utf8] and [str::len]. *)
Definition len_utf8 (c : char) : nat :=
  if (c <? 128)%N then 1 else if (c <? 2048)%N then 2 else if (c <? 65536)%N then 3 else 4.
Definition str_len (s : str) : nat := sum_list_with len_utf8 s.

(** [char::is_whitespace]: the Unicode [White_Space] property. *)
Definition is_whitespace (c : char) : bool :=
  ((9 <=? c) && (c <=? 13) || (c =? 32) || (c =? 133) || (c =? 160) || (c =? 5760)
   || (8192 <=? c) && (c <=? 8202) || (c =? 8232) || (c =? 8233) || (c =? 8239)
   || (c =? 8287) || (c =? 12288))%N.

(** [u8::is_ascii_digit], [is_ascii_alphabetic], [to_ascii_lowercase]. *)
Definition is_ascii_digit (c : char) : bool := ((48 <=? c) && (c <=? 57))%N.
Definition ascii_lower (c : char) : char :=
  if ((65 <=? c) && (c <=? 90))%N then (c + 32)%N else c.
Definition is_ascii_alphabetic (c : char) : bool :=
  ((65 <=? c) && (c <=? 90) || (97 <=? c) && (c <=? 122))%N.
Definition to_ascii_lowercase (s : str) : str := map ascii_lower s.
Definition eq_ignore_ascii_case (a b : str) : bool :=
  bool_decide (to_ascii_lowercase a = to_ascii_lowercase b).

(** [trim_start_matches], [trim_end_matches] on a predicate, and the whitespace
    versions. *)
Fixpoint drop_while (p : char → bool) (s : str) : str :=
  match s with
  | [] => []
  | c :: s' => if p c then drop_while p s' else s
  end.
Definition drop_while_end (p : char → bool) (s : str) : str := rev (drop_while p (rev s)).
Definition trim_start (s : str) : str := drop_while is_whitespace s.
Definition trim_end (s : str) : str := drop_while_end is_whitespace s.
Definition trim (s : str) : str := trim_end (trim_start s).
Definition trim_end_matches (c : char) (s : str) : str := drop_while_end (N.eqb c) s.

(** [strip_prefix], [strip_suffix], [starts_with], [ends_with]. *)
Fixpoint strip_prefix (p s : str) : option str :=
  match p, s with
  | [], _ => Some s
  | _ :: _, [] => None
  | a :: p', b :: s' => if (a =? b)%N then strip_prefix p' s' else None
  end.
Definition strip_suffix (p s : str) : option str :=
  (λ r, rev r) <$> strip_prefix (rev p) (rev s).
Definition starts_with (p s : str) : bool :=
  match strip_prefix p s with Some _ => true | None => false end.
Definition ends_with (p s : str) : bool :=
  match strip_suffix p s with Some _ => true | None => false end.

(** [str::find] of a substring: the least offset at which it occurs. *)
Fixpoint str_find (p s : str) : option nat :=
  if starts_with p s then Some 0
  else match s with
       | [] => None
       | _ :: s' => S <$> str_find p s'
       end.
Definition str_contains (p s : str) : bool :=
  match str_find p s with Some _ => true | None => false end.
Definition contains_char (c : char) (s : str) : bool := existsb (N.eqb c) s.
Definition count_char (c : char) (s : str) : nat := length (filter (λ d, c = d) s).

(** [split_once] and [rsplit_once] on a char. *)
Fixpoint split_once (c : char) (s : str) : option (str * str) :=
  match s with
  | [] => None
  | d :: s' => if (d =? c)%N then Some ([], s')
               else (λ '(a, b), (d :: a, b)) <$> split_once c s'
  end.
Definition rsplit_once (c : char) (s : str) : option (str * str) :=
  (λ '(a, b), (rev b, rev a)) <$> split_once c (rev s).

(** [split_once] on a string. *)
Definition split_once_str (sep s : str) : option (str * str) :=
  i ← str_find sep s; Some (take i s, drop (i + length sep) s).

(** [str::split(c)]: always at least one piece. *)
Fixpoint split_char (c : char) (s : str) : list str :=
  match s with
  | [] => [[]]
  | d :: s' =>
      if (d =? c)%N then [] :: split_char c s'
      else match split_char c s' with
           | [] => [[d]]
           | p :: ps => (d :: p) :: ps
           end
  end.

(** [str::split] with a predicate: always at least one piece. *)
Fixpoint split_by (f : char → bool) (s : str) : list str :=
  match s with
  | [] => [[]]
  | d :: s' =>
      if f d then [] :: split_by f s'
      else match split_by f s' with
           | [] => [[d]]
           | p :: ps => (d :: p) :: ps
           end
  end.

(** [replace('\\', "/")]. *)
Definition forward_slashes (s : str) : str :=
  map (λ c, if (c =? c_backslash)%N then 47%N else c) s.

(** [[T]::join] with a string separator. *)
Fixpoint join (sep : str) (l : list str) : str :=
  match l with
  | [] => []
  | [x] => x
  | x :: l' => x ++ sep ++ join sep l'
  end.

(** Drop one final ['\r'], as [str::lines] does for a line that ended in a line feed. *)
Definition strip_cr (l : str) : str := default l (strip_suffix [c_cr] l).

(** [str::lines]: the pieces between line feeds, without the final empty one;
    a piece that was ended by a line feed also loses a final ['\r']. *)
Fixpoint lines_of_pieces (ps : list str) : list str :=
  match ps with
  | [] => []
  | [p] => if bool_decide (p = []) then [] else [p]
  | p :: ps' => strip_cr p :: lines_of_pieces ps'
  end.
Definition str_lines (s : str) : list str := lines_of_pieces (split_char c_lf s).

(** ** [drop_while] and the trims *)

Lemma drop_while_app_all p a b : forallb p a = true → drop_while p (a ++ b) = drop_while p b.
Proof. induction a as [|c a IH]; simpl; [done|]. by intros [-> ?]%andb_true_iff; auto. Qed.

Lemma drop_while_suffix p s : ∃ a, s = a ++ drop_while p s ∧ forallb p a = true.
Proof.
  induction s as [|c s (a & Ha & Hp)]; simpl; [by exists []|].
  destruct (p c) eqn:E; [exists (c :: a) | exists []]; simpl; rewrite ?E; [|done].
  split; [by f_equal|done].
Qed.

Lemma drop_while_head p s c s' : drop_while p s = c :: s' → p c = false.
Proof.
  induction s as [|d s IH]; simpl; [done|]. destruct (p d) eqn:E; [auto|].
  by intros [= -> ->].
Qed.

Lemma drop_while_id p s : (∀ c s', s = c :: s' → p c = false) → drop_while p s = s.
Proof. destruct s as [|c s]; simpl; [done|]. intros H. by rewrite (H c s eq_refl). Qed.

Lemma drop_while_idemp p s : drop_while p (drop_while p s) = drop_while p s.
Proof. apply drop_while_id. intros c s'. apply drop_while_head. Qed.

Lemma drop_while_nil p s : drop_while p s = [] ↔ forallb p s = true.
Proof.
  split.
  - intros H. destruct (drop_while_suffix p s) as (a & Ha & Hp).
    rewrite H, app_nil_r in Ha. by subst.
  - intros H. rewrite <- (app_nil_r s). by rewrite drop_while_app_all.
Qed.

Lemma drop_while_app_stop p a b :
  forallb p a = false → drop_while p (a ++ b) = drop_while p a ++ b.
Proof.
  induction a as [|c a IH]; simpl; [done|]. destruct (p c); simpl; auto.
Qed.

Lemma drop_while_end_snoc_keep p s c : p c = false → drop_while_end p (s ++ [c]) = s ++ [c].
Proof.
  intros H. unfold drop_while_end. rewrite rev_app_distr. simpl. rewrite H. simpl.
  by rewrite rev_involutive.
Qed.

Lemma drop_while_end_snoc_drop p s c : p c = true → drop_while_end p (s ++ [c]) = drop_while_end p s.
Proof. intros H. unfold drop_while_end. rewrite rev_app_distr. simpl. by rewrite H. Qed.

Lemma drop_while_end_nil p : drop_while_end p [] = [].
Proof. done. Qed.

Lemma forallb_rev {A} (p : A → bool) l : forallb p (rev l) = forallb p l.
Proof.
  induction l as [|x l IH]; simpl; [done|]. rewrite forallb_app, IH. simpl.
  by rewrite andb_true_r, andb_comm.
Qed.

Lemma drop_while_end_idemp p s : drop_while_end p (drop_while_end p s) = drop_while_end p s.
Proof. unfold drop_while_end. by rewrite rev_involutive, drop_while_idemp. Qed.

Lemma drop_while_end_prefix p s : ∃ a, s = drop_while_end p s ++ a ∧ forallb p a = true.
Proof.
  destruct (drop_while_suffix p (rev s)) as (a & Ha & Hp). exists (rev a).
  rewrite forallb_rev. split; [|done]. unfold drop_while_end.
  rewrite <- rev_app_distr, <- Ha. by rewrite rev_involutive.
Qed.

Lemma drop_while_end_last p s c : last (drop_while_end p s) = Some c → p c = false.
Proof.
  unfold drop_while_end. intros (l' & H)%last_Some_snoc.
  apply (f_equal (@rev _)) in H. rewrite rev_involutive, rev_app_distr in H. simpl in H.
  by apply drop_while_head in H.
Qed.

(** Trimming at the two ends commutes. *)
Lemma drop_while_comm p s : drop_while_end p (drop_while p s) = drop_while p (drop_while_end p s).
Proof.
  destruct (forallb p s) eqn:E.
  - rewrite (proj2 (drop_while_nil p s) E). unfold drop_while_end.
    rewrite (proj2 (drop_while_nil p (rev s))); [done|]. by rewrite forallb_rev.
  - destruct (drop_while_end_prefix p s) as (t & Ht & Htp).
    assert (E' : forallb p (drop_while_end p s) = false).
    { rewrite Ht, forallb_app in E. by rewrite Htp, andb_true_r in E. }
    rewrite Ht at 1. rewrite drop_while_app_stop by done.
    unfold drop_while_end at 1. rewrite rev_app_distr, drop_while_app_all by by rewrite forallb_rev.
    rewrite drop_while_id; [by rewrite rev_involutive|].
    intros c s' H. apply (f_equal (@rev _)) in H. rewrite rev_involutive in H. simpl in H.
    apply (drop_while_end_last p s).
    destruct (drop_while_suffix p (drop_while_end p s)) as (a & Ha & _).
    rewrite Ha, H, app_assoc. apply last_snoc.
Qed.

Lemma trim_alt s : trim s = trim_start (trim_end s).
Proof. apply drop_while_comm. Qed.

Lemma trim_end_trim s : trim (trim_end s) = trim s.
Proof. rewrite !trim_alt. unfold trim_end. by rewrite drop_while_end_idemp. Qed.

Lemma trim_end_of_trim s : trim_end (trim s) = trim s.
Proof. unfold trim, trim_end. by rewrite drop_while_end_idemp. Qed.

Lemma trim_start_of_trim s : trim_start (trim s) = trim s.
Proof. rewrite trim_alt. apply drop_while_idemp. Qed.

Lemma trim_idemp s : trim (trim s) = trim s.
Proof. unfold trim at 1. by rewrite trim_start_of_trim, trim_end_of_trim. Qed.

(** A string with no whitespace at its ends is unchanged by the trims. *)
Definition tight (s : str) : bool :=
  match s, last s with
  | [], _ => true
  | c :: _, Some d => negb (is_whitespace c) && negb (is_whitespace d)
  | _ :: _, None => true
  end.

Lemma trim_end_tight s :
  (∀ d, last s = Some d → is_whitespace d = false) → trim_end s = s.
Proof.
  intros H. destruct (snoc_inv s) as [->|(l & x & ->)]; [done|].
  apply drop_while_end_snoc_keep, H, last_snoc.
Qed.

Lemma trim_tight s : tight s = true → trim s = s.
Proof.
  intros H. unfold trim. destruct s as [|c s]; [done|]. unfold tight in H.
  destruct (last (c :: s)) as [d|] eqn:E.
  - apply andb_true_iff in H as [Hc Hd]. apply negb_true_iff in Hc, Hd.
    unfold trim_start. simpl. rewrite Hc. apply trim_end_tight. rewrite E. by intros ? [= <-].
  - destruct (snoc_inv (c :: s)) as [?|(l & x & E2)]; [done|].
    rewrite E2, last_snoc in E. done.
Qed.

(** ** Prefixes and suffixes *)

Lemma strip_prefix_Some p s r : strip_prefix p s = Some r ↔ s = p ++ r.
Proof.
  revert s. induction p as [|a p IH]; intros s; simpl; [naive_solver|].
  destruct s as [|b s]; [naive_solver|].
  destruct (N.eqb_spec a b) as [->|]; [rewrite IH|]; naive_solver.
Qed.

Lemma strip_prefix_app p r : strip_prefix p (p ++ r) = Some r.
Proof. by apply strip_prefix_Some. Qed.

Lemma strip_prefix_None p s : strip_prefix p s = None ↔ ∀ r, s ≠ p ++ r.
Proof.
  destruct (strip_prefix p s) eqn:E.
  - apply strip_prefix_Some in E. naive_solver.
  - split; [|done]. intros _ r Hr. by rewrite (proj2 (strip_prefix_Some p s r) Hr) in E.
Qed.

Lemma strip_prefix_head_ne p t :
  (∀ a b, head p = Some a → head t = Some b → a ≠ b) → p ≠ [] → strip_prefix p t = None.
Proof.
  intros H Hp. destruct p as [|a p]; [done|]. destruct t as [|b t]; [done|]. simpl.
  destruct (N.eqb_spec a b); [|done]. by destruct (H a b eq_refl eq_refl).
Qed.

Lemma strip_suffix_Some p s r : strip_suffix p s = Some r ↔ s = r ++ p.
Proof.
  unfold strip_suffix. rewrite fmap_Some. split.
  - intros (x & Hx & ->). apply strip_prefix_Some in Hx.
    apply (f_equal (@rev _)) in Hx. by rewrite rev_involutive, rev_app_distr, rev_involutive in Hx.
  - intros ->. exists (rev r). rewrite rev_involutive, rev_app_distr. split; [|done].
    apply strip_prefix_app.
Qed.

Lemma strip_suffix_None p s : strip_suffix p s = None ↔ ∀ r, s ≠ r ++ p.
Proof.
  destruct (strip_suffix p s) eqn:E.
  - apply strip_suffix_Some in E. naive_solver.
  - split; [|done]. intros _ r Hr. by rewrite (proj2 (strip_suffix_Some p s r) Hr) in E.
Qed.

Lemma starts_with_true p s : starts_with p s = true ↔ ∃ r, s = p ++ r.
Proof.
  unfold starts_with. destruct (strip_prefix p s) eqn:E.
  - apply strip_prefix_Some in E. naive_solver.
  - rewrite strip_prefix_None in E. naive_solver.
Qed.

Lemma ends_with_true p s : ends_with p s = true ↔ ∃ r, s = r ++ p.
Proof.
  unfold ends_with. destruct (strip_suffix p s) eqn:E.
  - apply strip_suffix_Some in E. naive_solver.
  - rewrite strip_suffix_None in E. naive_solver.
Qed.

(** ** [find] *)

Lemma str_find_Some p s i :
  str_find p s = Some i →
  ∃ r, s = take i s ++ p ++ r ∧ i ≤ length s ∧
       ∀ j, j < i → starts_with p (drop j s) = false.
Proof.
  revert i. induction s as [|c s IH]; intros i; simpl.
  - destruct (starts_with p []) eqn:E; [|done]. intros [= <-].
    apply starts_with_true in E as [r Hr]. exists r. repeat split; [done|lia|lia].
  - destruct (starts_with p (c :: s)) eqn:E.
    + intros [= <-]. apply starts_with_true in E as [r Hr]. exists r.
      repeat split; [done|lia|lia].
    + intros (k & Hk & ->)%fmap_Some. destruct (IH _ Hk) as (r & Hr & Hl & Hj).
      exists r. simpl. repeat split; [by f_equal|lia|].
      intros [|j] Hlt; [done|]. apply Hj. lia.
Qed.

Lemma str_find_None p s :
  str_find p s = None ↔ ∀ j, j ≤ length s → starts_with p (drop j s) = false.
Proof.
  induction s as [|c s IH]; simpl.
  - destruct (starts_with p []) eqn:E; split; try done.
    + intros H. specialize (H 0 ltac:(lia)). simpl in H. by rewrite E in H.
    + intros _ j Hj. by replace j with 0 by lia.
  - destruct (starts_with p (c :: s)) eqn:E.
    + split; [done|]. intros H. specialize (H 0 ltac:(lia)). simpl in H. by rewrite E in H.
    + rewrite fmap_None, IH. split; intros H.
      * intros [|j] Hj; [done|]. apply H. lia.
      * intros j Hj. apply (H (S j)). lia.
Qed.

(** The specification of [find] characterises its result. *)
Lemma str_find_intro p s i :
  i ≤ length s → starts_with p (drop i s) = true →
  (∀ j, j < i → starts_with p (drop j s) = false) → str_find p s = Some i.
Proof.
  intros Hi Hp Hj. destruct (str_find p s) as [k|] eqn:E.
  - destruct (str_find_Some _ _ _ E) as (r & Hr & Hk & Hlt). f_equal.
    destruct (Nat.lt_trichotomy k i) as [H|[H|H]]; [|done|].
    + specialize (Hj k H). exfalso. rewrite Hr in Hj.
      rewrite drop_app_length' in Hj by (rewrite length_take; lia).
      assert (starts_with p (p ++ r) = true) by (apply starts_with_true; eauto). congruence.
    + specialize (Hlt i H). congruence.
  - rewrite str_find_None in E. rewrite E in Hp by lia. done.
Qed.

(** ** [split] and [join] *)

Lemma split_char_not_nil c s : split_char c s ≠ [].
Proof. destruct s as [|d s]; simpl; [done|]. destruct (d =? c)%N; [done|]. by case_match. Qed.

Lemma split_char_pieces c s : Forall (λ p, c ∉ p) (split_char c s).
Proof.
  induction s as [|d s IH]; simpl; [repeat constructor; set_solver|].
  destruct (N.eqb_spec d c) as [->|Hne]; [constructor; [set_solver|done]|].
  destruct (split_char c s) as [|p ps]; [repeat constructor; set_solver|].
  inversion_clear IH. constructor; [set_solver|done].
Qed.

Lemma join_cons2 sep x y l : join sep (x :: y :: l) = x ++ sep ++ join sep (y :: l).
Proof. done. Qed.

(** Joining the pieces gives the string back. *)
Lemma join_split c s : join [c] (split_char c s) = s.
Proof.
  induction s as [|d s IH]; [done|]. cbn [split_char].
  destruct (split_char c s) as [|p ps] eqn:E; [by apply split_char_not_nil in E|].
  destruct (N.eqb_spec d c) as [->|Hne].
  - rewrite join_cons2, IH. done.
  - destruct ps as [|q ps]; simpl in *; by rewrite IH.
Qed.

Lemma split_char_none c p : c ∉ p → split_char c p = [p].
Proof.
  induction p as [|d p IH]; simpl; [done|]. intros H.
  apply not_elem_of_cons in H as [H1 H2].
  destruct (N.eqb_spec d c); [congruence|]. by rewrite IH.
Qed.

Lemma split_char_app c p s : c ∉ p → split_char c (p ++ c :: s) = p :: split_char c s.
Proof.
  induction p as [|d p IH]; simpl; intros H; [by rewrite N.eqb_refl|].
  apply not_elem_of_cons in H as [H1 H2].
  destruct (N.eqb_spec d c); [congruence|]. by rewrite IH.
Qed.

(** Splitting what was joined gives the pieces back. *)
Lemma split_join c ps : ps ≠ [] → Forall (λ p, c ∉ p) ps → split_char c (join [c] ps) = ps.
Proof.
  intros Hne H. induction H as [|p ps Hp Hps IH]; [done|].
  destruct ps as [|q ps]; [by apply split_char_none|].
  rewrite join_cons2. change ([c] ++ join [c] (q :: ps)) with (c :: join [c] (q :: ps)).
  rewrite split_char_app by done. by rewrite IH.
Qed.

#[global] Arguments strip_prefix : simpl never.
#[global] Arguments starts_with : simpl never.
#[global] Arguments lit : simpl never.
