(* ===== verification/RustIo.v ===== *)
(** * I/O errors

    [std::io::Error] as its kind and its text, and [io::Result]. *)

From S2P Require Import Prelude RustStr.

(** [io::ErrorKind]: the kinds the code tests, and all others. *)
Inductive IoErrorKind := NotFound | InvalidInput | AlreadyExists | OtherKind (n : nat).
#[global] Instance io_error_kind_eq_dec : EqDecision IoErrorKind.
Proof. solve_decision. Defined.

Record IoErr := { io_kind : IoErrorKind; io_msg : str }.

Abbreviation io_result A := (IoErr + A)%type.

(** [err.kind() == k]. *)
Definition kind_is (k : IoErrorKind) (e : IoErr) : bool := bool_decide (io_kind e = k).

Lemma kind_is_true k e : io_kind e = k → kind_is k e = true.
Proof. intros H. by apply bool_decide_eq_true. Qed.
