(* ===== verification/RustOrd.v ===== *)
(** * Order, sorting and duplicates in Rust's standard library

    The order of strings and of vectors of strings, the stable sort of
    [slice::sort_by_key] and [Vec::dedup], with the facts about them that the
    components share. *)

From stdpp Require Import sorting.
From S2P Require Import Prelude RustStr.
Open Scope list_scope.

(** ** The order of strings and of [Vec<String>] *)

(** [Vec<String>]'s derived order: lexicographic, on strings the order of
    their characters (which is that of their UTF-8 bytes). *)
Fixpoint lex_le {A} (le eq : A → A → bool) (a b : list A) : bool :=
  match a, b with
  | [], _ => true
  | _ :: _, [] => false
  | x :: a, y :: b => if eq x y then lex_le le eq a b else le x y
  end.
Definition str_le (a b : str) : bool := lex_le N.leb N.eqb a b.
Definition strs_le (a b : list str) : bool := lex_le str_le (λ x y, bool_decide (x = y)) a b.
Definition strs_le_rel (a b : list str) : Prop := strs_le a b = true.
#[global] Instance strs_le_dec : RelDecision strs_le_rel.
Proof. intros a b. unfold strs_le_rel. apply _. Defined.

Section Lex.
Context {A : Type} (le eq : A → A → bool).
Hypothesis eq_spec : ∀ x y, eq x y = true ↔ x = y.
Hypothesis le_total : ∀ x y, le x y = true ∨ le y x = true.
Hypothesis le_trans : ∀ x y z, le x y = true → le y z = true → le x z = true.
Hypothesis le_antisym : ∀ x y, le x y = true → le y x = true → x = y.

Lemma lex_eq_dec x y : (eq x y = true ∧ x = y) ∨ (eq x y = false ∧ x ≠ y).
Proof.
  destruct (eq x y) eqn:E; [left|right]; (split; [done|]); [by apply eq_spec|].
  intros Hx%eq_spec. congruence.
Qed.

Lemma lex_le_refl a : lex_le le eq a a = true.
Proof. induction a as [|x a IH]; simpl; [done|]. by rewrite (proj2 (eq_spec x x)). Qed.

Lemma lex_le_total a b : lex_le le eq a b = true ∨ lex_le le eq b a = true.
Proof.
  revert b. induction a as [|x a IH]; intros [|y b]; simpl; try (by left); try by right.
  destruct (lex_eq_dec x y) as [[-> ->]|[-> Hne]]; [rewrite (proj2 (eq_spec _ _)) by done; apply IH|].
  destruct (lex_eq_dec y x) as [[_ ->]|[-> _]]; [done|]. apply le_total.
Qed.

Lemma lex_le_trans a b c :
  lex_le le eq a b = true → lex_le le eq b c = true → lex_le le eq a c = true.
Proof.
  revert b c. induction a as [|x a IH]; intros [|y b] [|z c]; simpl; try done.
  destruct (lex_eq_dec x y) as [[-> ->]|[-> Hxy]], (lex_eq_dec y z) as [[E ->]|[E Hyz]];
    rewrite ?E; try by eauto.
  - by destruct (lex_eq_dec x z) as [[_ ->]|[-> _]].
  - intros H1 H2. destruct (lex_eq_dec x z) as [[_ ->]|[-> _]]; [|by eauto].
    by destruct Hxy; apply le_antisym.
Qed.

Lemma lex_le_antisym a b : lex_le le eq a b = true → lex_le le eq b a = true → a = b.
Proof.
  revert b. induction a as [|x a IH]; intros [|y b]; simpl; try done.
  destruct (lex_eq_dec x y) as [[-> ->]|[-> Hne]].
  - rewrite (proj2 (eq_spec _ _)) by done. intros. f_equal. auto.
  - destruct (lex_eq_dec y x) as [[_ ->]|[-> _]]; [done|]. intros. by destruct Hne; apply le_antisym.
Qed.

End Lex.

Lemma N_eqb_spec x y : (x =? y)%N = true ↔ x = y.
Proof. apply N.eqb_eq. Qed.
Lemma N_leb_total x y : (x <=? y)%N = true ∨ (y <=? x)%N = true.
Proof. rewrite !N.leb_le. lia. Qed.
Lemma N_leb_trans x y z : (x <=? y)%N = true → (y <=? z)%N = true → (x <=? z)%N = true.
Proof. rewrite !N.leb_le. lia. Qed.
Lemma N_leb_antisym x y : (x <=? y)%N = true → (y <=? x)%N = true → x = y.
Proof. rewrite !N.leb_le. lia. Qed.
#[local] Hint Resolve N_eqb_spec N_leb_total N_leb_trans N_leb_antisym : core.

Lemma str_eqb_spec (x y : str) : bool_decide (x = y) = true ↔ x = y.
Proof. apply bool_decide_eq_true. Qed.
Lemma str_le_total x y : str_le x y = true ∨ str_le y x = true.
Proof. apply lex_le_total; eauto. Qed.
Lemma str_le_trans x y z : str_le x y = true → str_le y z = true → str_le x z = true.
Proof. apply lex_le_trans; eauto. Qed.
Lemma str_le_antisym x y : str_le x y = true → str_le y x = true → x = y.
Proof. apply lex_le_antisym; eauto. Qed.
#[local] Hint Resolve str_eqb_spec str_le_total str_le_trans str_le_antisym : core.

#[global] Instance strs_le_total : Total strs_le_rel.
Proof. intros a b. apply lex_le_total; eauto. Qed.
#[global] Instance strs_le_trans : Transitive strs_le_rel.
Proof. intros a b c. apply lex_le_trans; eauto. Qed.
#[global] Instance strs_le_antisym : AntiSymm eq strs_le_rel.
Proof. intros a b. apply lex_le_antisym; eauto. Qed.

(** ** The stable sort of [sort_by_key] *)

Section StableSort.
Context {A : Type} (le : A → A → bool).
Implicit Types (x y : A) (l : list A).

(** An element goes before the ones that are not less. *)
Fixpoint insert_stable x l : list A :=
  match l with
  | [] => [x]
  | y :: l' => if le x y then x :: l else y :: insert_stable x l'
  end.
Definition sort_stable l : list A := foldr insert_stable [] l.

Definition le_rel x y : Prop := le x y = true.

Lemma insert_stable_perm x l : insert_stable x l ≡ₚ x :: l.
Proof. induction l as [|y l IH]; simpl; [done|]. case_match; [done|]. rewrite IH. constructor. Qed.
Lemma sort_stable_perm l : sort_stable l ≡ₚ l.
Proof. induction l as [|x l IH]; simpl; [done|]. by rewrite insert_stable_perm, IH. Qed.

Lemma sort_stable_id l : StronglySorted le_rel l → sort_stable l = l.
Proof.
  induction 1 as [|x l Hs IH Hx]; simpl; [done|]. rewrite IH. destruct l as [|y l]; [done|].
  apply Forall_cons in Hx as [Hx _]. simpl. by rewrite Hx.
Qed.

Context (Htotal : ∀ x y, le x y = true ∨ le y x = true) (Htrans : ∀ x y z, le x y = true → le y z = true → le x z = true).

Lemma insert_stable_sorted x l : StronglySorted le_rel l → StronglySorted le_rel (insert_stable x l).
Proof.
  induction 1 as [|y l Hs IH Hy]; simpl; [repeat constructor|]. destruct (le x y) eqn:Hxy.
  - constructor; [by constructor|]. constructor; [done|]. eapply Forall_impl; [exact Hy|]. intros z. by apply Htrans.
  - constructor; [done|]. rewrite insert_stable_perm. constructor; [|done]. by destruct (Htotal x y) as [|]; [congruence|].
Qed.
Lemma sort_stable_sorted l : StronglySorted le_rel (sort_stable l).
Proof. induction l as [|x l IH]; [constructor|]. by apply insert_stable_sorted. Qed.

(** A sorted part that comes first stays in front. *)
Lemma sort_stable_app l l' :
  StronglySorted le_rel l → (∀ x y, x ∈ l → y ∈ l' → le x y = true) → sort_stable (l ++ l') = l ++ sort_stable l'.
Proof.
  induction 1 as [|x l Hs IH Hx]; intros Hl; simpl; [done|].
  rewrite IH by (intros; apply Hl; [by right|done]).
  destruct (l ++ sort_stable l') as [|y k] eqn:E; [done|]. simpl.
  assert (Hy : y ∈ l ++ sort_stable l') by (rewrite E; by left).
  apply elem_of_app in Hy as [Hy|Hy].
  - rewrite Forall_forall in Hx. by rewrite (Hx y Hy).
  - rewrite sort_stable_perm in Hy. rewrite (Hl x y); [done|by left|done].
Qed.
End StableSort.

(** The sort by a string. *)
Section SortByKey.
Context {A : Type} (key : A → str).
Implicit Types (x y : A) (l : list A).

Definition key_le x y : Prop := str_le (key x) (key y) = true.
#[global] Instance key_le_dec : RelDecision key_le.
Proof. intros x y. unfold key_le. apply _. Defined.

Definition sort_by_key l : list A := sort_stable (λ x y, str_le (key x) (key y)) l.

Lemma sort_by_key_perm l : sort_by_key l ≡ₚ l.
Proof. apply sort_stable_perm. Qed.

Lemma sort_by_key_sorted l : StronglySorted key_le (sort_by_key l).
Proof. apply (sort_stable_sorted (λ x y, str_le (key x) (key y))); intros *; [apply str_le_total|apply str_le_trans]. Qed.

End SortByKey.

(** ** [Vec::dedup] *)

Fixpoint dedup {A} `{!EqDecision A} (l : list A) : list A :=
  match l with
  | x :: ((y :: _) as l') => if decide (x = y) then dedup l' else x :: dedup l'
  | l => l
  end.

(** [dedup] of a sorted list. *)
Lemma elem_of_dedup {A} `{!EqDecision A} (l : list A) x : x ∈ dedup l ↔ x ∈ l.
Proof.
  induction l as [|y l IH]; [done|]. simpl. destruct l as [|z l']; [done|].
  destruct (decide (y = z)) as [->|Hne].
  - rewrite IH, !elem_of_cons. tauto.
  - rewrite (elem_of_cons (dedup _)), IH, (elem_of_cons (z :: l')). tauto.
Qed.

Lemma dedup_sorted {A} `{!EqDecision A} (R : relation A) `{!AntiSymm eq R} (l : list A) :
  StronglySorted R l → StronglySorted (λ x y, R x y ∧ x ≠ y) (dedup l).
Proof.
  induction 1 as [|x l Hs IH Hall]; [constructor|]. simpl. destruct l as [|y l]; [by repeat constructor|].
  destruct (decide (x = y)); [done|]. constructor; [done|].
  apply Forall_forall. intros z Hz. rewrite elem_of_dedup in Hz. rewrite Forall_forall in Hall.
  split; [by apply Hall|]. intros <-. inversion_clear Hs as [|?? Hs' Hy].
  apply elem_of_cons in Hz as [?|Hz]; [done|]. rewrite Forall_forall in Hy.
  apply n. apply (anti_symm R); [apply Hall; set_solver|by apply Hy].
Qed.

Lemma StronglySorted_sublist {A} (R : relation A) (l1 l2 : list A) :
  l1 `sublist_of` l2 → StronglySorted R l2 → StronglySorted R l1.
Proof.
  induction 1 as [|x l1 l2 Hs IH|x l1 l2 Hs IH]; [done| |]; intros [Hst Hx]%StronglySorted_inv.
  - constructor; [by apply IH|]. rewrite Forall_forall in Hx |- *. intros z Hz. apply Hx.
    by eapply elem_of_submseteq, sublist_submseteq.
  - by apply IH.
Qed.

Lemma dedup_sublist {A} `{!EqDecision A} (l : list A) : dedup l `sublist_of` l.
Proof.
  induction l as [|x l IH]; [done|]. simpl. destruct l as [|y l]; [done|]. case_decide; by constructor.
Qed.
