(* ===== verification/PatchParser.v ===== *)
(** * The apply_patch parser

    Models [apply-patch/src/parser.rs] (the patch data types, the boundary
    checks and [parse_patch]) and [apply-patch/src/streaming_parser.rs] (the
    incremental parser both callers share). *)

From S2P Require Import Prelude RustStr.
Open Scope list_scope.

(** ** Markers ([parser.rs], [streaming_parser.rs]) *)

Definition BEGIN_PATCH_MARKER : str := lit "*** Begin Patch".
Definition END_PATCH_MARKER : str := lit "*** End Patch".
Definition ADD_FILE_MARKER : str := lit "*** Add File: ".
Definition DELETE_FILE_MARKER : str := lit "*** Delete File: ".
Definition UPDATE_FILE_MARKER : str := lit "*** Update File: ".
Definition MOVE_TO_MARKER : str := lit "*** Move to: ".
Definition EOF_MARKER : str := lit "*** End of File".
Definition CHANGE_CONTEXT_MARKER : str := lit "@@ ".
Definition EMPTY_CHANGE_CONTEXT_MARKER : str := lit "@@".
Definition ENVIRONMENT_ID_MARKER : str := lit "*** Environment ID:".
Definition PARSE_IN_STRICT_MODE : bool := false.

(** ** Data *)

Inductive ParseError :=
  | InvalidPatchError (message : str)
  | InvalidHunkError (message : str) (line_number : nat).

Record UpdateFileChunk := {
  change_context : option str;
  old_lines : list str;
  new_lines : list str;
  context_line_indices : list (nat * nat);
  is_end_of_file : bool;
}.

(** [UpdateFileChunk::default()]. *)
Definition default_chunk : UpdateFileChunk :=
  {| change_context := None; old_lines := []; new_lines := [];
     context_line_indices := []; is_end_of_file := false |}.

Inductive Hunk :=
  | AddFile (path contents : str)
  | DeleteFile (path : str)
  | UpdateFile (path : str) (move_path : option str) (chunks : list UpdateFileChunk).

(** [Hunk::path]: the path affected, the move destination for a rename. *)
Definition hunk_path (h : Hunk) : str :=
  match h with
  | AddFile path _ => path
  | DeleteFile path => path
  | UpdateFile _ (Some path) _ => path
  | UpdateFile path None _ => path
  end.

(** The path [Hunk::resolve_path] joins to the working directory: the source
    file of an update, [Hunk::path] otherwise. *)
Definition hunk_source_path (h : Hunk) : str :=
  match h with
  | UpdateFile path _ _ => path
  | AddFile _ _ | DeleteFile _ => hunk_path h
  end.

Definition push_context_line (c : UpdateFileChunk) (line : str) : UpdateFileChunk :=
  {| change_context := change_context c;
     context_line_indices :=
       context_line_indices c ++ [(length (old_lines c), length (new_lines c))];
     old_lines := old_lines c ++ [line];
     new_lines := new_lines c ++ [line];
     is_end_of_file := is_end_of_file c |}.

(** [chunk.new_lines.push(line)] and [chunk.old_lines.push(line)]. *)
Definition push_new_line (c : UpdateFileChunk) (line : str) : UpdateFileChunk :=
  {| change_context := change_context c; old_lines := old_lines c;
     new_lines := new_lines c ++ [line];
     context_line_indices := context_line_indices c; is_end_of_file := is_end_of_file c |}.
Definition push_old_line (c : UpdateFileChunk) (line : str) : UpdateFileChunk :=
  {| change_context := change_context c; old_lines := old_lines c ++ [line];
     new_lines := new_lines c;
     context_line_indices := context_line_indices c; is_end_of_file := is_end_of_file c |}.
Definition set_end_of_file (c : UpdateFileChunk) : UpdateFileChunk :=
  {| change_context := change_context c; old_lines := old_lines c; new_lines := new_lines c;
     context_line_indices := context_line_indices c; is_end_of_file := true |}.

(** ** The streaming parser ([streaming_parser.rs]) *)

Inductive StreamingParserMode :=
  | NotStarted
  | StartedPatch
  | ModeAddFile
  | ModeDeleteFile
  | ModeUpdateFile (hunk_line_number : nat)
  | EndedPatch.

Record StreamingParserState := {
  mode : StreamingParserMode;
  hunks : list Hunk;
  environment_id : option str;
}.

Record StreamingPatchParser := {
  line_buffer : str;
  state : StreamingParserState;
  line_number : nat;
}.

Definition default_parser : StreamingPatchParser :=
  {| line_buffer := []; line_number := 0;
     state := {| mode := NotStarted; hunks := []; environment_id := None |} |}.

Definition with_state (p : StreamingPatchParser) (s : StreamingParserState) : StreamingPatchParser :=
  {| line_buffer := line_buffer p; state := s; line_number := line_number p |}.
Definition set_mode (p : StreamingPatchParser) (m : StreamingParserMode) : StreamingPatchParser :=
  with_state p {| mode := m; hunks := hunks (state p); environment_id := environment_id (state p) |}.
Definition set_hunks (p : StreamingPatchParser) (hs : list Hunk) : StreamingPatchParser :=
  with_state p {| mode := mode (state p); hunks := hs; environment_id := environment_id (state p) |}.
Definition set_environment_id (p : StreamingPatchParser) (e : str) : StreamingPatchParser :=
  with_state p {| mode := mode (state p); hunks := hunks (state p); environment_id := Some e |}.

(** Messages of the parse errors. *)
Definition msg_first_line : str := lit "The first line of the patch must be '*** Begin Patch'".
Definition msg_last_line : str := lit "The last line of the patch must be '*** End Patch'".
Definition msg_no_lines : str := lit "Update hunk does not contain any lines".
Definition msg_empty_update (path : str) : str :=
  lit "Update file hunk for path '" ++ path ++ lit "' is empty".
Definition msg_unexpected_line (line : str) : str :=
  lit "Unexpected line found in update hunk: '" ++ line
  ++ lit "'. Every line should start with ' ' (context line), '+' (added line), or '-' (removed line)".
Definition msg_expected_context (line : str) : str :=
  lit "Expected update hunk to start with a @@ context marker, got: '" ++ line ++ lit "'".
Definition msg_bad_header (trimmed : str) : str :=
  lit "'" ++ trimmed
  ++ lit "' is not a valid hunk header. Valid hunk headers: '*** Add File: {path}', '*** Delete File: {path}', '*** Update File: {path}'".
Definition msg_env_twice : str := lit "apply_patch environment_id cannot be specified more than once".
Definition msg_env_empty : str := lit "apply_patch environment_id cannot be empty".

(** [chunk.old_lines.is_empty() && chunk.new_lines.is_empty()]. *)
Definition chunk_is_empty (c : UpdateFileChunk) : bool :=
  bool_decide (old_lines c = []) && bool_decide (new_lines c = []).
Definition last_chunk_empty (chunks : list UpdateFileChunk) : bool :=
  match last chunks with Some c => chunk_is_empty c | None => false end.

Definition ensure_update_hunk_is_not_empty (p : StreamingPatchParser) (line : str)
    : res ParseError unit :=
  match last (hunks (state p)) with
  | Some (UpdateFile path _ chunks) =>
      match chunks, mode (state p) with
      | [], ModeUpdateFile hunk_line_number =>
          Err (InvalidHunkError (msg_empty_update path) hunk_line_number)
      | _, _ =>
          if last_chunk_empty chunks then
            if bool_decide (line = END_PATCH_MARKER)
            then Err (InvalidHunkError msg_no_lines (line_number p))
            else Err (InvalidHunkError (msg_unexpected_line line) (line_number p))
          else Ok tt
      end
  | _ => Ok tt
  end.

(** An error leaves the parser as it was, so only the success value carries
    the new parser; the [bool] is the method's own return value. *)
Definition handle_hunk_headers_and_end_patch (p : StreamingPatchParser) (trimmed : str)
    : res ParseError (StreamingPatchParser * bool) :=
  match match mode (state p) with
        | StartedPatch => strip_prefix ENVIRONMENT_ID_MARKER trimmed
        | _ => None
        end with
  | Some env =>
      if bool_decide (is_Some (environment_id (state p))) then Err (InvalidPatchError msg_env_twice)
      else if bool_decide (trim env = []) then Err (InvalidPatchError msg_env_empty)
      else Ok (set_environment_id p (trim env), true)
  | None =>
  if bool_decide (trimmed = END_PATCH_MARKER) then
    let? _ := ensure_update_hunk_is_not_empty p trimmed in
    Ok (set_mode p EndedPatch, true)
  else match strip_prefix ADD_FILE_MARKER trimmed with
  | Some path =>
      let? _ := ensure_update_hunk_is_not_empty p trimmed in
      Ok (set_mode (set_hunks p (hunks (state p) ++ [AddFile path []])) ModeAddFile, true)
  | None => match strip_prefix DELETE_FILE_MARKER trimmed with
  | Some path =>
      let? _ := ensure_update_hunk_is_not_empty p trimmed in
      Ok (set_mode (set_hunks p (hunks (state p) ++ [DeleteFile path])) ModeDeleteFile, true)
  | None => match strip_prefix UPDATE_FILE_MARKER trimmed with
  | Some path =>
      let? _ := ensure_update_hunk_is_not_empty p trimmed in
      Ok (set_mode (set_hunks p (hunks (state p) ++ [UpdateFile path None []]))
                   (ModeUpdateFile (line_number p)), true)
  | None => Ok (p, false)
  end end end end.

(** Write the move path and the chunks of the update hunk at the end of the
    list, and assign the mode again as every branch of the source does. *)
Definition set_last_update (p : StreamingPatchParser) (hunk_line_number : nat)
    (move_path : option str) (chunks : list UpdateFileChunk) : StreamingPatchParser :=
  set_mode
    (set_hunks p
       (update_last (λ h, match h with
                          | UpdateFile path _ _ => UpdateFile path move_path chunks
                          | _ => h
                          end) (hunks (state p))))
    (ModeUpdateFile hunk_line_number).

(** [if chunks.is_empty() { push default }; if let Some(c) = chunks.last_mut() { f c }]. *)
Definition push_to_last_chunk (f : UpdateFileChunk → UpdateFileChunk)
    (chunks : list UpdateFileChunk) : list UpdateFileChunk :=
  update_last f (match chunks with [] => [default_chunk] | _ => chunks end).

Definition is_context_marker (update_line : str) : bool :=
  bool_decide (update_line = EMPTY_CHANGE_CONTEXT_MARKER)
  || starts_with CHANGE_CONTEXT_MARKER update_line.

(** The body of [if let Some(UpdateFile { .. }) = self.state.hunks.last_mut()]. *)
Definition process_update_chunk_line (p : StreamingPatchParser) (hunk_line_number : nat)
    (move_path : option str) (chunks : list UpdateFileChunk) (line : str)
    : res ParseError StreamingPatchParser :=
  let update_line := trim_end line in
  let set := set_last_update p hunk_line_number move_path in
  let after_eof := match last chunks with Some c => is_end_of_file c | None => false end in
  if after_eof && bool_decide (update_line = []) then Ok p
  else if after_eof && negb (is_context_marker update_line) then
    Err (InvalidHunkError (msg_expected_context line) (line_number p))
  else match match chunks, move_path with
             | [], None => strip_prefix MOVE_TO_MARKER update_line
             | _, _ => None
             end with
  | Some move_to_path => Ok (set_last_update p hunk_line_number (Some move_to_path) chunks)
  | None =>
  if is_context_marker update_line && last_chunk_empty chunks then
    Err (InvalidHunkError (msg_unexpected_line line) (line_number p))
  else if bool_decide (update_line = EMPTY_CHANGE_CONTEXT_MARKER) then
    Ok (set (chunks ++ [default_chunk]))
  else match strip_prefix CHANGE_CONTEXT_MARKER update_line with
  | Some ctx =>
      Ok (set (chunks ++ [{| change_context := Some ctx; old_lines := []; new_lines := [];
                             context_line_indices := []; is_end_of_file := false |}]))
  | None =>
  if bool_decide (update_line = EOF_MARKER) then
    if last_chunk_empty chunks
    then Err (InvalidHunkError msg_no_lines (line_number p))
    else Ok (set (update_last set_end_of_file chunks))
  else match line with
  | [] => Ok (set (push_to_last_chunk (λ c, push_context_line c []) chunks))
  | c :: rest =>
      if (c =? c_sp)%N then Ok (set (push_to_last_chunk (λ k, push_context_line k rest) chunks))
      else if (c =? c_plus)%N then Ok (set (push_to_last_chunk (λ k, push_new_line k rest) chunks))
      else if (c =? c_minus)%N then Ok (set (push_to_last_chunk (λ k, push_old_line k rest) chunks))
      else if match last chunks with Some k => negb (chunk_is_empty k) | None => false end
      then Err (InvalidHunkError (msg_expected_context line) (line_number p))
      else Err (InvalidHunkError (msg_unexpected_line line) (line_number p))
  end end end.

Definition process_update_line (p : StreamingPatchParser) (hunk_line_number : nat) (line : str)
    : res ParseError StreamingPatchParser :=
  let? (p', handled) := handle_hunk_headers_and_end_patch p (trim_end line) in
  if handled : bool then Ok p'
  else match last (hunks (state p)) with
       | Some (UpdateFile _ move_path chunks) =>
           process_update_chunk_line p hunk_line_number move_path chunks line
       | _ => Err (InvalidHunkError (msg_unexpected_line line) (line_number p))
       end.

(** In the [AddFile] mode a ['+'] line extends the last hunk's contents. *)
Definition process_add_line (p : StreamingPatchParser) (line : str)
    : res ParseError StreamingPatchParser :=
  let? (p', handled) := handle_hunk_headers_and_end_patch p (trim line) in
  if handled : bool then Ok p'
  else match strip_prefix [c_plus] line, last (hunks (state p)) with
       | Some line_to_add, Some (AddFile path contents) =>
           Ok (set_hunks p (update_last (λ _, AddFile path (contents ++ line_to_add ++ [c_lf]))
                                        (hunks (state p))))
       | _, _ => Err (InvalidHunkError (msg_bad_header (trim line)) (line_number p))
       end.

Definition process_line (p : StreamingPatchParser) (line : str)
    : res ParseError StreamingPatchParser :=
  let trimmed := trim line in
  match mode (state p) with
  | NotStarted =>
      if bool_decide (trimmed = BEGIN_PATCH_MARKER) then Ok (set_mode p StartedPatch)
      else Err (InvalidPatchError msg_first_line)
  | StartedPatch | ModeDeleteFile =>
      let? (p', handled) := handle_hunk_headers_and_end_patch p trimmed in
      if handled : bool then Ok p'
      else Err (InvalidHunkError (msg_bad_header trimmed) (line_number p))
  | ModeAddFile => process_add_line p line
  | ModeUpdateFile hunk_line_number => process_update_line p hunk_line_number line
  | EndedPatch =>
      if bool_decide (trimmed = []) then Ok p else Err (InvalidPatchError msg_last_line)
  end.

(** Take the buffered line: clear the buffer and count the line. *)
Definition take_line (p : StreamingPatchParser) : StreamingPatchParser :=
  {| line_buffer := []; state := state p; line_number := S (line_number p) |}.
Definition push_char (p : StreamingPatchParser) (ch : char) : StreamingPatchParser :=
  {| line_buffer := line_buffer p ++ [ch]; state := state p; line_number := line_number p |}.

(** The loop of [push_delta]; the parser is returned on an error too, as the
    source leaves it. *)
Fixpoint push_chars (p : StreamingPatchParser) (delta : str)
    : StreamingPatchParser * res ParseError unit :=
  match delta with
  | [] => (p, Ok tt)
  | ch :: delta' =>
      if (ch =? c_lf)%N then
        match process_line (take_line p) (strip_cr (line_buffer p)) with
        | Ok p' => push_chars p' delta'
        | Err e => (take_line p, Err e)
        | Panic => (take_line p, Panic)
        end
      else push_chars (push_char p ch) delta'
  end.

Definition push_delta (p : StreamingPatchParser) (delta : str)
    : StreamingPatchParser * res ParseError (list Hunk) :=
  let '(p', r) := push_chars p delta in
  (p', let? _ := r in Ok (hunks (state p'))).

(** [finish] up to its final mode check: the unterminated last line. *)
Definition finish_line_buffer (p : StreamingPatchParser)
    : StreamingPatchParser * res ParseError unit :=
  match line_buffer p with
  | [] => (p, Ok tt)
  | line =>
      let p1 := take_line p in
      if bool_decide (trim line = END_PATCH_MARKER) then
        match ensure_update_hunk_is_not_empty p1 (trim line) with
        | Ok _ => (set_mode p1 EndedPatch, Ok tt)
        | Err e => (p1, Err e)
        | Panic => (p1, Panic)
        end
      else match process_line p1 line with
           | Ok p2 => (p2, Ok tt)
           | Err e => (p1, Err e)
           | Panic => (p1, Panic)
           end
  end.

Definition finish (p : StreamingPatchParser)
    : StreamingPatchParser * res ParseError (list Hunk) :=
  let '(p', r) := finish_line_buffer p in
  (p', let? _ := r in
       match mode (state p') with
       | EndedPatch => Ok (hunks (state p'))
       | _ => Err (InvalidPatchError msg_last_line)
       end).

(** ** Whole patches ([parser.rs]) *)

Record ApplyPatchArgs := {
  args_patch : str;
  args_hunks : list Hunk;
  args_workdir : option str;
  args_environment_id : option str;
}.

Inductive ParseMode := Strict | Lenient.

Definition check_start_and_end_lines_strict (first_line last_line : option str)
    : res ParseError unit :=
  match trim <$> first_line, trim <$> last_line with
  | Some first, Some last =>
      if bool_decide (first = BEGIN_PATCH_MARKER) && bool_decide (last = END_PATCH_MARKER)
      then Ok tt
      else if bool_decide (first = BEGIN_PATCH_MARKER)
      then Err (InvalidPatchError msg_last_line)
      else Err (InvalidPatchError msg_first_line)
  | Some first, None =>
      if bool_decide (first = BEGIN_PATCH_MARKER)
      then Err (InvalidPatchError msg_last_line)
      else Err (InvalidPatchError msg_first_line)
  | None, _ => Err (InvalidPatchError msg_last_line)
  end.

Definition check_patch_boundaries_strict (lines : list str) : res ParseError (list str) :=
  let? _ := check_start_and_end_lines_strict (head lines) (last lines) in Ok lines.

Definition is_heredoc_start (first : str) : bool :=
  bool_decide (first = lit "<<EOF") || bool_decide (first = lit "<<'EOF'")
  || bool_decide (first = lit "<<" ++ [c_dquote] ++ lit "EOF" ++ [c_dquote]).

Definition check_patch_boundaries_lenient (original_lines : list str) : res ParseError (list str) :=
  match check_patch_boundaries_strict original_lines with
  | Ok lines => Ok lines
  | Panic => Panic
  | Err original_parse_error =>
      match original_lines with
      | first :: (_ :: _) as rest =>
          match last rest with
          | Some last_line =>
              if is_heredoc_start first && ends_with (lit "EOF") last_line
                 && bool_decide (4 ≤ length original_lines)
              then let? inner_lines := slice 1 (length original_lines - 1) original_lines in
                   check_patch_boundaries_strict inner_lines
              else Err original_parse_error
          | None => Err original_parse_error
          end
      | _ => Err original_parse_error
      end
  end.

Definition parse_patch_text (patch : str) (m : ParseMode) : res ParseError ApplyPatchArgs :=
  let lines := str_lines (trim patch) in
  let? patch_lines := match m with
                      | Strict => check_patch_boundaries_strict lines
                      | Lenient => check_patch_boundaries_lenient lines
                      end in
  let patch := join [c_lf] patch_lines in
  let '(parser, r) := push_delta default_parser patch in
  let? _ := r in
  let '(parser, r) := finish parser in
  let? hs := r in
  Ok {| args_hunks := hs; args_patch := patch; args_workdir := None;
        args_environment_id := environment_id (state parser) |}.

Definition parse_patch (patch : str) : res ParseError ApplyPatchArgs :=
  parse_patch_text patch (if PARSE_IN_STRICT_MODE then Strict else Lenient).

#[global] Arguments BEGIN_PATCH_MARKER : simpl never.
#[global] Arguments END_PATCH_MARKER : simpl never.
#[global] Arguments ADD_FILE_MARKER : simpl never.
#[global] Arguments DELETE_FILE_MARKER : simpl never.
#[global] Arguments UPDATE_FILE_MARKER : simpl never.
#[global] Arguments MOVE_TO_MARKER : simpl never.
#[global] Arguments EOF_MARKER : simpl never.
#[global] Arguments CHANGE_CONTEXT_MARKER : simpl never.
#[global] Arguments EMPTY_CHANGE_CONTEXT_MARKER : simpl never.
#[global] Arguments ENVIRONMENT_ID_MARKER : simpl never.
