(* ===== verification/PatchParserFacts.v ===== *)
(** * Correctness of the apply_patch parser

    Chunk invariance of the streaming parser, its state invariant over every
    reachable state, well-formedness of parsed patches, and absence of panics. *)

From S2P Require Import Prelude RustStr PatchParser.
Open Scope list_scope.

(** ** Specifications *)

(** [indices_ok i j ixs old new]: the recorded context pairs increase strictly
    from [(i, j)] on and name equal lines of both sides. *)
Fixpoint indices_ok (i0 j0 : nat) (ixs : list (nat * nat)) (old new : list str) : Prop :=
  match ixs with
  | [] => True
  | (i, j) :: r =>
      i0 ≤ i ∧ j0 ≤ j ∧ (∃ l, old !! i = Some l ∧ new !! j = Some l)
      ∧ indices_ok (S i) (S j) r old new
  end.

Definition chunk_wf (c : UpdateFileChunk) : Prop :=
  indices_ok 0 0 (context_line_indices c) (old_lines c) (new_lines c).

Definition hunk_wf (h : Hunk) : Prop :=
  match h with UpdateFile _ _ chunks => Forall chunk_wf chunks | _ => True end.

(** A finished hunk: an update has chunks, and every chunk has lines. *)
Definition nonempty_chunk (c : UpdateFileChunk) : Prop := chunk_is_empty c = false.
Definition hunk_complete (h : Hunk) : Prop :=
  match h with
  | UpdateFile _ _ chunks => chunks ≠ [] ∧ Forall nonempty_chunk chunks
  | _ => True
  end.

(** The chunks of the update hunk in progress: all but the last have lines. *)
Definition chunks_in_progress (chunks : list UpdateFileChunk) : Prop :=
  chunks = [] ∨ ∃ cs c, chunks = cs ++ [c] ∧ Forall nonempty_chunk cs.

Definition mode_inv (p : StreamingPatchParser) : Prop :=
  match mode (state p) with
  | NotStarted | StartedPatch => hunks (state p) = []
  | ModeAddFile =>
      ∃ hs path contents, hunks (state p) = hs ++ [AddFile path contents] ∧ Forall hunk_complete hs
  | ModeDeleteFile =>
      ∃ hs path, hunks (state p) = hs ++ [DeleteFile path] ∧ Forall hunk_complete hs
  | ModeUpdateFile ln =>
      ln ≤ line_number p ∧
      ∃ hs path mv chunks, hunks (state p) = hs ++ [UpdateFile path mv chunks]
        ∧ Forall hunk_complete hs ∧ chunks_in_progress chunks
  | EndedPatch => Forall hunk_complete (hunks (state p))
  end.

Definition parser_inv (p : StreamingPatchParser) : Prop :=
  Forall hunk_wf (hunks (state p)) ∧ mode_inv p.

(** The operations a client can apply, in any order and also after errors. *)
Inductive parser_step : StreamingPatchParser → StreamingPatchParser → Prop :=
  | step_push p delta : parser_step p (push_delta p delta).1
  | step_finish p : parser_step p (finish p).1.

Definition reachable_parser : StreamingPatchParser → Prop := rtc parser_step default_parser.

(** ** Chunk well-formedness *)

Lemma indices_ok_mono i j ixs old new o n :
  indices_ok i j ixs old new → indices_ok i j ixs (old ++ o) (new ++ n).
Proof.
  revert i j. induction ixs as [|[a b] ixs IH]; intros i j; simpl; [done|].
  intros (? & ? & (l & Ho & Hn) & H). repeat split; eauto using lookup_app_l_Some.
Qed.

Lemma indices_ok_snoc i j ixs old new line :
  i ≤ length old → j ≤ length new → indices_ok i j ixs old new →
  indices_ok i j (ixs ++ [(length old, length new)]) (old ++ [line]) (new ++ [line]).
Proof.
  revert i j. induction ixs as [|[a b] ixs IH]; intros i j Hi Hj; simpl.
  - intros _. repeat split; [done|done|]. exists line. by rewrite !list_lookup_middle.
  - intros (? & ? & (l & Ho & Hn) & H). split; [done|]. split; [done|]. split.
    + eauto using lookup_app_l_Some.
    + apply IH; [by eapply lookup_lt_Some in Ho; lia|by eapply lookup_lt_Some in Hn; lia|done].
Qed.

Lemma chunk_wf_context c line : chunk_wf c → chunk_wf (push_context_line c line).
Proof. intros H. apply indices_ok_snoc; [lia|lia|done]. Qed.

Lemma chunk_wf_new c line : chunk_wf c → chunk_wf (push_new_line c line).
Proof.
  intros H. unfold chunk_wf. simpl. rewrite <- (app_nil_r (old_lines c)).
  by apply indices_ok_mono.
Qed.

Lemma chunk_wf_old c line : chunk_wf c → chunk_wf (push_old_line c line).
Proof.
  intros H. unfold chunk_wf. simpl. rewrite <- (app_nil_r (new_lines c)).
  by apply indices_ok_mono.
Qed.

Lemma chunk_wf_eof c : chunk_wf c → chunk_wf (set_end_of_file c).
Proof. done. Qed.

Lemma chunk_wf_fresh ctx :
  chunk_wf {| change_context := ctx; old_lines := []; new_lines := [];
              context_line_indices := []; is_end_of_file := false |}.
Proof. done. Qed.

#[export] Hint Resolve chunk_wf_context chunk_wf_new chunk_wf_old chunk_wf_eof chunk_wf_fresh
  : turnrail.

Lemma Forall_update_last {A} (P : A → Prop) f l :
  (∀ x, P x → P (f x)) → Forall P l → Forall P (update_last f l).
Proof.
  intros Hf H. destruct (snoc_inv l) as [->|(l' & x & ->)]; [done|].
  rewrite update_last_snoc. apply Forall_app in H as [? Hx]. apply Forall_app.
  split; [done|]. inversion_clear Hx. constructor; auto.
Qed.

Lemma push_to_last_chunk_wf f chunks :
  (∀ c, chunk_wf c → chunk_wf (f c)) → Forall chunk_wf chunks →
  Forall chunk_wf (push_to_last_chunk f chunks).
Proof.
  intros Hf H. unfold push_to_last_chunk.
  destruct chunks; [|by apply Forall_update_last]. repeat constructor. apply Hf, chunk_wf_fresh.
Qed.

Lemma push_to_last_in_progress f chunks :
  chunks_in_progress chunks → chunks_in_progress (push_to_last_chunk f chunks).
Proof.
  unfold push_to_last_chunk. intros [->|(cs & c & -> & Hcs)]; right.
  - exists [], (f default_chunk). split; [done|constructor].
  - destruct (cs ++ [c]) eqn:E; [by destruct cs|]. rewrite <- E, update_last_snoc. eauto.
Qed.

Lemma eof_in_progress chunks :
  chunks_in_progress chunks → chunks_in_progress (update_last set_end_of_file chunks).
Proof.
  intros [->|(cs & c & -> & Hcs)]; [by left|right]. rewrite update_last_snoc. eauto.
Qed.

(** A new chunk may be opened only when the one before has lines. *)
Lemma open_chunk_in_progress chunks c :
  chunks_in_progress chunks → last_chunk_empty chunks = false →
  chunks_in_progress (chunks ++ [c]).
Proof.
  intros [->|(cs & c' & -> & Hcs)] He; right; [by exists [], c|].
  unfold last_chunk_empty in He. rewrite last_snoc in He.
  exists (cs ++ [c']), c. split; [done|]. apply Forall_app. by repeat constructor.
Qed.

Lemma complete_of_in_progress path mv chunks :
  chunks_in_progress chunks → chunks ≠ [] → last_chunk_empty chunks = false →
  hunk_complete (UpdateFile path mv chunks).
Proof.
  intros [->|(cs & c & -> & Hcs)] Hne He; [done|].
  unfold last_chunk_empty in He. rewrite last_snoc in He. split; [done|].
  apply Forall_app. by repeat constructor.
Qed.

(** ** The parser invariant *)

(** The check made at every header and at the end marker completes the hunks. *)
Lemma ensure_complete p line :
  parser_inv p → mode (state p) ≠ NotStarted →
  ensure_update_hunk_is_not_empty p line = Ok tt → Forall hunk_complete (hunks (state p)).
Proof.
  unfold parser_inv, mode_inv, ensure_update_hunk_is_not_empty.
  intros [_ Hm] Hns H. destruct (mode (state p)); try done.
  - by rewrite Hm.
  - destruct Hm as (hs & ? & ? & -> & Hc). apply Forall_app. by repeat constructor.
  - destruct Hm as (hs & ? & -> & Hc). apply Forall_app. by repeat constructor.
  - destruct Hm as (_ & hs & path & mv & chunks & Hh & Hc & Hp).
    rewrite Hh, last_snoc in H. rewrite Hh. apply Forall_app. split; [done|].
    constructor; [|done]. destruct chunks as [|c cs]; [done|].
    destruct (last_chunk_empty (c :: cs)) eqn:E.
    + by destruct (bool_decide _).
    + by apply complete_of_in_progress.
Qed.

Lemma handle_unhandled p t p' :
  handle_hunk_headers_and_end_patch p t = Ok (p', false) → p' = p.
Proof.
  unfold handle_hunk_headers_and_end_patch, res_bind. intros H.
  repeat case_hyp H; by simplify_eq.
Qed.

Lemma handle_inv p t p' :
  parser_inv p → mode (state p) ≠ NotStarted → mode (state p) ≠ EndedPatch →
  handle_hunk_headers_and_end_patch p t = Ok (p', true) → parser_inv p'.
Proof.
  intros Hinv Hns Hne. unfold handle_hunk_headers_and_end_patch, res_bind.
  pose proof Hinv as [Hwf Hm].
  assert (Hens := λ u, ensure_complete p u Hinv Hns).
  assert (Henv : ∀ e, parser_inv (set_environment_id p e)) by (intros; by split).
  intros H.
  repeat match goal with u : unit |- _ => destruct u end.
  repeat case_hyp H; simplify_eq; try (by apply Henv);
    repeat match goal with u : unit |- _ => destruct u end;
    match goal with E : ensure_update_hunk_is_not_empty _ _ = _ |- _ => apply Hens in E end;
    (split; simpl; [try (apply Forall_app; split; [done|]); by repeat constructor|]);
    unfold mode_inv; simpl; eauto 10.
  all: split; [done|]; eexists _, _, _, _; split; [done|]; split; [done|]; by left.
Qed.

Lemma set_last_update_inv p ln path mv chunks hs mv' chunks' :
  hunks (state p) = hs ++ [UpdateFile path mv chunks] →
  Forall hunk_wf (hunks (state p)) → Forall hunk_complete hs → ln ≤ line_number p →
  Forall chunk_wf chunks' → chunks_in_progress chunks' →
  parser_inv (set_last_update p ln mv' chunks').
Proof.
  intros Hh Hwf Hc Hln Hcw Hip. unfold parser_inv, mode_inv. simpl.
  rewrite Hh in *. rewrite update_last_snoc. apply Forall_app in Hwf as [? _]. split.
  - apply Forall_app. by repeat constructor.
  - split; [done|]. eauto 10.
Qed.

Lemma process_update_chunk_line_inv p ln hs path mv chunks line p' :
  parser_inv p → hunks (state p) = hs ++ [UpdateFile path mv chunks] →
  mode (state p) = ModeUpdateFile ln →
  process_update_chunk_line p ln mv chunks line = Ok p' → parser_inv p'.
Proof.
  intros Hinv Hh Hmode. pose proof Hinv as [Hwf Hm]. unfold mode_inv in Hm. rewrite Hmode in Hm.
  destruct Hm as (Hln & hs' & path' & mv' & chunks' & Hh' & Hc & Hip).
  rewrite Hh in Hh'. apply app_inj_tail in Hh' as [<- [= <- <- <-]].
  assert (Hcw : Forall chunk_wf chunks).
  { rewrite Hh in Hwf. apply Forall_app in Hwf as [_ Hw]. by inversion_clear Hw. }
  assert (Hset := λ mv' chunks', set_last_update_inv p ln path mv chunks hs mv' chunks' Hh Hwf Hc Hln).
  assert (Hpush : ∀ f, (∀ c, chunk_wf c → chunk_wf (f c)) →
            parser_inv (set_last_update p ln mv (push_to_last_chunk f chunks))).
  { intros f Hf. apply Hset; [by apply push_to_last_chunk_wf|by apply push_to_last_in_progress]. }
  assert (Heof : parser_inv (set_last_update p ln mv (update_last set_end_of_file chunks))).
  { apply Hset; [apply Forall_update_last; auto with turnrail|by apply eof_in_progress]. }
  assert (Hmove : ∀ m, parser_inv (set_last_update p ln m chunks)) by (intros; by apply Hset).
  assert (Hopen : ∀ ctx, last_chunk_empty chunks = false →
    parser_inv (set_last_update p ln mv (chunks ++
      [{| change_context := ctx; old_lines := []; new_lines := [];
          context_line_indices := []; is_end_of_file := false |}]))).
  { intros ctx He. apply Hset; [apply Forall_app; by repeat constructor|].
    by apply open_chunk_in_progress. }
  clear Hset. unfold process_update_chunk_line. cbv zeta. intros H.
  destruct (last_chunk_empty chunks) eqn:El.
  - assert (Em : ∀ l, is_context_marker l = false →
        bool_decide (l = EMPTY_CHANGE_CONTEXT_MARKER) = false ∧ strip_prefix CHANGE_CONTEXT_MARKER l = None).
    { intros l [? E2]%orb_false_iff. split; [done|]. unfold starts_with in E2. by case_match. }
    specialize (Em (trim_end line)). destruct (is_context_marker (trim_end line)).
    + repeat case_hyp H; simplify_eq; auto with turnrail.
    + destruct (Em eq_refl) as [E1 E2]. rewrite E1, E2 in H.
      repeat case_hyp H; simplify_eq; auto with turnrail.
  - repeat case_hyp H; simplify_eq; auto with turnrail; exact (Hopen _ eq_refl).
Qed.

Lemma process_line_inv p line p' :
  parser_inv p → process_line p line = Ok p' → parser_inv p'.
Proof.
  intros Hinv. unfold process_line. cbv zeta.
  assert (Hh := λ t p', handle_inv p t p' Hinv).
  assert (Hd : ∀ t (k : res ParseError StreamingPatchParser),
    mode (state p) ≠ NotStarted → mode (state p) ≠ EndedPatch →
    (∀ q, k = Ok q → parser_inv q) →
    (let? (p', handled) := handle_hunk_headers_and_end_patch p t in
     if handled : bool then Ok p' else k) = Ok p' → parser_inv p').
  { intros t k H1 H2 Hk. rewrite res_bind_Ok. intros ([q [|]] & Hq & Hr).
    - injection Hr as <-. eauto.
    - eauto. }
  pose proof Hinv as [Hwf Hm]. unfold mode_inv in Hm.
  destruct (mode (state p)) as [| | | |ln|] eqn:Em.
  - destruct (bool_decide _); [|done]. intros [= <-]. by split.
  - eapply Hd; [done|done|]. by intros.
  - destruct Hm as (hs & path & contents & Eh & Hc).
    unfold process_add_line. eapply Hd; [done|done|]. intros q.
    rewrite Eh, last_snoc. destruct (strip_prefix _ _); [|done]. rewrite update_last_snoc.
    intros [= <-]. unfold parser_inv, mode_inv. simpl. rewrite Em.
    rewrite Eh in Hwf. apply Forall_app in Hwf as [??].
    split; [apply Forall_app; by repeat constructor|eauto].
  - eapply Hd; [done|done|]. by intros.
  - destruct Hm as (_ & hs & path & mv & chunks & Eh & _). unfold process_update_line.
    eapply Hd; [done|done|]. intros q. rewrite Eh, last_snoc.
    by eapply process_update_chunk_line_inv.
  - destruct (bool_decide _); [|done]. by intros [= <-].
Qed.

Lemma take_line_inv p : parser_inv p → parser_inv (take_line p).
Proof.
  intros [? Hm]. split; [done|]. unfold mode_inv in *. simpl.
  destruct (mode (state p)); try done. destruct Hm as [? Hm]. split; [lia|done].
Qed.

Lemma push_chars_inv p delta : parser_inv p → parser_inv (push_chars p delta).1.
Proof.
  revert p. induction delta as [|ch delta IH]; intros p Hp; simpl; [done|].
  destruct (ch =? c_lf)%N; [|by apply IH].
  destruct (process_line _ _) eqn:E; simpl; [|by apply take_line_inv..].
  apply IH. eapply process_line_inv, E. by apply take_line_inv.
Qed.

Lemma finish_line_buffer_inv p : parser_inv p → parser_inv (finish_line_buffer p).1.
Proof.
  intros Hp. unfold finish_line_buffer. destruct (line_buffer p) eqn:Eb; [done|].
  assert (Ht := take_line_inv p Hp). cbv zeta.
  destruct (bool_decide _) eqn:Et.
  - destruct (ensure_update_hunk_is_not_empty _ _) as [[]| |] eqn:E; simpl; [|done..].
    split; [by destruct Ht|]. unfold mode_inv. simpl.
    destruct (mode (state (take_line p))) eqn:Em;
      try (eapply ensure_complete in E; [done|done|by rewrite Em]).
    destruct Ht as [_ Ht]. unfold mode_inv in Ht. rewrite Em in Ht. simpl in Ht. by rewrite Ht.
  - destruct (process_line _ _) eqn:E; simpl; [|done..]. by eapply process_line_inv.
Qed.

Lemma push_delta_fst p d : (push_delta p d).1 = (push_chars p d).1.
Proof. unfold push_delta. by destruct (push_chars p d). Qed.

Lemma finish_fst p : (finish p).1 = (finish_line_buffer p).1.
Proof. unfold finish. by destruct (finish_line_buffer p). Qed.

Lemma default_parser_inv : parser_inv default_parser.
Proof. by split. Qed.

Lemma parser_step_inv p p' : parser_inv p → parser_step p p' → parser_inv p'.
Proof.
  intros H Hs. destruct Hs as [p d|p].
  - rewrite push_delta_fst. by apply push_chars_inv.
  - rewrite finish_fst. by apply finish_line_buffer_inv.
Qed.

Lemma reachable_inv p : reachable_parser p → parser_inv p.
Proof.
  unfold reachable_parser. generalize default_parser_inv. generalize default_parser.
  intros q Hq H. induction H; [done|]. eauto using parser_step_inv.
Qed.

Lemma finish_Ok p hs :
  (finish p).2 = Ok hs →
  mode (state (finish p).1) = EndedPatch ∧ hs = hunks (state (finish p).1).
Proof.
  unfold finish. destruct (finish_line_buffer p) as [p' r]. simpl.
  rewrite res_bind_Ok. intros (? & _ & H). by destruct (mode (state p')); simplify_eq.
Qed.

Lemma finish_complete p hs :
  parser_inv p → (finish p).2 = Ok hs → Forall hunk_complete hs ∧ Forall hunk_wf hs.
Proof.
  intros Hp [Hm ->]%finish_Ok. rewrite finish_fst in *.
  destruct (finish_line_buffer_inv p Hp) as [Hwf Hmi]. unfold mode_inv in Hmi.
  by rewrite Hm in Hmi.
Qed.

(** ** Whole patches *)

(** What a successful [parse_patch_text] did. *)
Lemma parse_patch_text_Ok patch m a :
  parse_patch_text patch m = Ok a →
  ∃ p, p = (push_chars default_parser (args_patch a)).1 ∧ (finish p).2 = Ok (args_hunks a).
Proof.
  unfold parse_patch_text, push_delta. rewrite res_bind_Ok. intros (ls & _ & H).
  destruct (push_chars default_parser (join [c_lf] ls)) as [p r] eqn:E.
  destruct r as [[]| |]; simpl in H; [|done..].
  destruct (finish p) as [p' r'] eqn:Ef. apply res_bind_Ok in H as (hs & -> & H).
  injection H as <-. simpl. exists p. by rewrite E, Ef.
Qed.

Lemma parse_patch_hunks_ok patch m a :
  parse_patch_text patch m = Ok a →
  Forall hunk_complete (args_hunks a) ∧ Forall hunk_wf (args_hunks a).
Proof.
  intros (p & -> & H)%parse_patch_text_Ok. eapply finish_complete, H.
  apply push_chars_inv, default_parser_inv.
Qed.

(** ** Absence of panics *)

Lemma ensure_no_panic p l : ensure_update_hunk_is_not_empty p l ≠ Panic.
Proof. unfold ensure_update_hunk_is_not_empty. by repeat case_goal. Qed.

Lemma handle_no_panic p t : handle_hunk_headers_and_end_patch p t ≠ Panic.
Proof.
  unfold handle_hunk_headers_and_end_patch. pose proof (ensure_no_panic p t).
  repeat case_goal; try done; by apply res_bind_no_panic.
Qed.

Lemma process_line_no_panic p line : process_line p line ≠ Panic.
Proof.
  unfold process_line, process_add_line, process_update_line, process_update_chunk_line. cbv zeta.
  destruct (mode (state p)); try (apply res_bind_no_panic; [apply handle_no_panic|intros [] _]);
    by repeat case_goal.
Qed.

Lemma push_chars_no_panic p delta : (push_chars p delta).2 ≠ Panic.
Proof.
  revert p. induction delta as [|ch delta IH]; intros p; simpl; [done|].
  destruct (ch =? c_lf)%N; [|apply IH].
  pose proof (process_line_no_panic (take_line p) (strip_cr (line_buffer p))).
  by destruct (process_line _ _).
Qed.

Lemma finish_no_panic p : (finish p).2 ≠ Panic.
Proof.
  unfold finish, finish_line_buffer. destruct (line_buffer p) as [|c l].
  { simpl. by destruct (mode (state p)). }
  pose proof (process_line_no_panic (take_line p) (c :: l)).
  pose proof (ensure_no_panic (take_line p) (trim (c :: l))).
  cbv zeta. destruct (bool_decide _); [destruct (ensure_update_hunk_is_not_empty _ _)
                                      |destruct (process_line _ _)]; simpl; try done;
    by case_goal.
Qed.

Lemma check_lenient_no_panic ls : check_patch_boundaries_lenient ls ≠ Panic.
Proof.
  assert (Hs : ∀ ls, check_patch_boundaries_strict ls ≠ Panic).
  { intros l. unfold check_patch_boundaries_strict, check_start_and_end_lines_strict.
    apply res_bind_no_panic; [|done]. by repeat case_goal. }
  unfold check_patch_boundaries_lenient. pose proof (Hs ls).
  destruct (check_patch_boundaries_strict ls); [done| |done].
  destruct ls as [|first [|x rest]]; [done..|]. destruct (last _); [|done].
  destruct (_ && _) eqn:E; [|done]. rewrite slice_ok by (simpl; lia). apply Hs.
Qed.

(** ** Properties *)

(** Feeding a patch to the streaming parser in pieces is the same as
    feeding it at once: the parser state, the hunks returned and the first
    error do not depend on how the text was cut. *)
Theorem push_delta_app p a b :
  push_delta p (a ++ b) =
  match push_delta p a with
  | (p', Ok _) => push_delta p' b
  | (p', Err e) => (p', Err e)
  | (p', Panic) => (p', Panic)
  end.
Proof.
  unfold push_delta. revert p. induction a as [|ch a IH]; intros p; simpl; [done|].
  destruct (ch =? c_lf)%N; [|apply IH]. by destruct (process_line _ _); simpl.
Qed.

(** In every state a client can reach by [push_delta] and [finish] calls,
    also after errors: the recorded context indices of every chunk are strictly
    increasing and name equal lines; hunks other than the one in progress are
    complete; the last hunk is of the kind the mode says. *)
Theorem reachable_parser_inv p : reachable_parser p → parser_inv p.
Proof. apply reachable_inv. Qed.

(** A patch that parses consists of complete, well-formed hunks: every
    update has at least one chunk, every chunk at least one line, and its
    context indices are strictly increasing and name equal lines. *)
Theorem parse_patch_complete patch a :
  parse_patch patch = Ok a →
  Forall hunk_complete (args_hunks a) ∧ Forall hunk_wf (args_hunks a).
Proof. apply parse_patch_hunks_ok. Qed.

(** Parsing never panics, whatever the text. *)
Lemma parse_patch_total patch : parse_patch patch ≠ Panic.
Proof.
  unfold parse_patch, parse_patch_text, push_delta. simpl.
  apply res_bind_no_panic; [apply check_lenient_no_panic|]. intros ls _.
  pose proof (push_chars_no_panic default_parser (join [c_lf] ls)).
  destruct (push_chars _ _) as [p [[]| |]]; simpl in *; [|done..].
  pose proof (finish_no_panic p). destruct (finish p) as [p' [hs| |]]; simpl in *; done.
Qed.

(** A patch cut inside its update hunk. *)
Definition cut_patch : str :=
  join [c_lf] [lit "*** Begin Patch"; lit "*** Update File: f"; lit "@@"; lit " a"; lit "-b"; []].

Lemma reachable_parser_inv_witness :
  ∃ p, p = (push_delta default_parser cut_patch).1 ∧ mode (state p) = ModeUpdateFile 2
    ∧ parser_inv p.
Proof.
  eexists. split; [reflexivity|]. split; [vm_compute; reflexivity|].
  apply (reachable_parser_inv (push_delta default_parser cut_patch).1).
  eapply rtc_l; [apply step_push|apply rtc_refl].
Defined.

Lemma parse_patch_complete_witness :
  ∃ a, parse_patch (cut_patch ++ END_PATCH_MARKER) = Ok a ∧ length (args_hunks a) = 1
    ∧ Forall hunk_complete (args_hunks a) ∧ Forall hunk_wf (args_hunks a).
Proof.
  eexists. split; [vm_compute; reflexivity|]. split; [reflexivity|].
  apply (parse_patch_complete (cut_patch ++ END_PATCH_MARKER)). vm_compute. reflexivity.
Defined.
