(* ===== verification/PatchRoundTrip.v ===== *)
(** * Printing and parsing patches

    A printer for the patch grammar documented at the top of
    [apply-patch/src/parser.rs], and the theorem that [parse_patch] reads back
    what it prints.  The printer is specification, not code of the repository:
    its input is the syntax of a patch ([HunkSrc]) and [hunk_of] says which
    [Hunk] the syntax denotes. *)

From S2P Require Import Prelude RustStr PatchParser PatchParserFacts.
Open Scope list_scope.

(** ** Patch syntax and its meaning *)

Inductive ChangeLine :=
  | CtxLine (s : str)
  | AddLine (s : str)
  | DelLine (s : str).

Record ChunkSrc := {
  src_context : option str;
  src_lines : list ChangeLine;
  src_eof : bool;
}.

Inductive HunkSrc :=
  | SrcAdd (path : str) (lines : list str)
  | SrcDelete (path : str)
  | SrcUpdate (path : str) (move_to : option str) (chunks : list ChunkSrc).

Definition old_side (ls : list ChangeLine) : list str :=
  omap (λ l, match l with CtxLine s | DelLine s => Some s | AddLine _ => None end) ls.
Definition new_side (ls : list ChangeLine) : list str :=
  omap (λ l, match l with CtxLine s | AddLine s => Some s | DelLine _ => None end) ls.

(** Positions of the context lines in the two sides. *)
Fixpoint context_positions (i j : nat) (ls : list ChangeLine) : list (nat * nat) :=
  match ls with
  | [] => []
  | CtxLine _ :: r => (i, j) :: context_positions (S i) (S j) r
  | AddLine _ :: r => context_positions i (S j) r
  | DelLine _ :: r => context_positions (S i) j r
  end.

Definition chunk_of (c : ChunkSrc) : UpdateFileChunk :=
  {| change_context := src_context c;
     old_lines := old_side (src_lines c);
     new_lines := new_side (src_lines c);
     context_line_indices := context_positions 0 0 (src_lines c);
     is_end_of_file := src_eof c |}.

Definition hunk_of (h : HunkSrc) : Hunk :=
  match h with
  | SrcAdd path ls => AddFile path (concat (map (λ l, l ++ [c_lf]) ls))
  | SrcDelete path => DeleteFile path
  | SrcUpdate path mv cs => UpdateFile path mv (map chunk_of cs)
  end.

(** ** The printer *)

Definition print_change (l : ChangeLine) : str :=
  match l with
  | CtxLine s => c_sp :: s
  | AddLine s => c_plus :: s
  | DelLine s => c_minus :: s
  end.

Definition print_context (ctx : option str) : str :=
  match ctx with
  | None => EMPTY_CHANGE_CONTEXT_MARKER
  | Some s => CHANGE_CONTEXT_MARKER ++ s
  end.

Definition print_chunk (c : ChunkSrc) : list str :=
  print_context (src_context c) :: map print_change (src_lines c)
  ++ (if src_eof c then [EOF_MARKER] else []).

Definition print_hunk (h : HunkSrc) : list str :=
  match h with
  | SrcAdd path ls => (ADD_FILE_MARKER ++ path) :: map (cons c_plus) ls
  | SrcDelete path => [DELETE_FILE_MARKER ++ path]
  | SrcUpdate path mv cs =>
      (UPDATE_FILE_MARKER ++ path)
      :: (match mv with Some m => [MOVE_TO_MARKER ++ m] | None => [] end)
      ++ concat (map print_chunk cs)
  end.

Definition print_environment (env : option str) : list str :=
  match env with Some e => [ENVIRONMENT_ID_MARKER ++ c_sp :: e] | None => [] end.

Definition print_lines (env : option str) (hs : list HunkSrc) : list str :=
  BEGIN_PATCH_MARKER :: print_environment env ++ concat (map print_hunk hs).

Definition print_patch (env : option str) (hs : list HunkSrc) : str :=
  join [c_lf] (print_lines env hs ++ [END_PATCH_MARKER]).

(** ** What can be printed *)

(** A text line: no line feed inside, no carriage return at its end. *)
Definition text_ok (s : str) : Prop := (c_lf ∉ s) ∧ last s ≠ Some c_cr.
(** A file name or context: a line that is not empty and does not end in whitespace. *)
Definition name_ok (s : str) : Prop :=
  (c_lf ∉ s) ∧ s ≠ [] ∧ ∀ d, last s = Some d → is_whitespace d = false.
(** An environment id has no whitespace at either end. *)
Definition env_ok (s : str) : Prop := name_ok s ∧ trim s = s.

Definition change_text (l : ChangeLine) : str :=
  match l with CtxLine s | AddLine s | DelLine s => s end.
Definition chunk_ok (c : ChunkSrc) : Prop :=
  (∀ s, src_context c = Some s → name_ok s) ∧ src_lines c ≠ []
  ∧ Forall (λ l, text_ok (change_text l)) (src_lines c).
Definition hunk_ok (h : HunkSrc) : Prop :=
  match h with
  | SrcAdd path ls => name_ok path ∧ Forall text_ok ls
  | SrcDelete path => name_ok path
  | SrcUpdate path mv cs =>
      name_ok path ∧ (∀ m, mv = Some m → name_ok m) ∧ cs ≠ [] ∧ Forall chunk_ok cs
  end.

(** ** Printed lines are kept by the line splitter *)

Definition line_ok (l : str) : Prop := (c_lf ∉ l) ∧ strip_cr l = l.

Lemma strip_cr_id l : last l ≠ Some c_cr → strip_cr l = l.
Proof.
  intros H. unfold strip_cr. destruct (strip_suffix [c_cr] l) eqn:E; [|done].
  apply strip_suffix_Some in E. subst. by rewrite last_snoc in H.
Qed.

Lemma name_line_ok m s : c_lf ∉ m → name_ok s → line_ok (m ++ s).
Proof.
  intros Hm (Hlf & Hne & Hl). split; [set_solver|]. apply strip_cr_id.
  destruct (snoc_inv s) as [->|(s' & x & ->)]; [done|]. rewrite app_assoc, last_snoc.
  specialize (Hl x (last_snoc _ _)). by intros [= ->].
Qed.

Lemma text_line_ok c s : c ≠ c_lf → c ≠ c_cr → text_ok s → line_ok (c :: s).
Proof.
  intros H1 H2 [Hlf Hl]. split; [set_solver|]. apply strip_cr_id.
  destruct s as [|d s]; [by intros [= ->]|done].
Qed.

Lemma trim_end_name m s : name_ok s → trim_end (m ++ s) = m ++ s.
Proof.
  intros (_ & Hne & Hl). apply trim_end_tight. intros d Hd.
  destruct (snoc_inv s) as [->|(s' & x & ->)]; [done|].
  rewrite app_assoc, last_snoc in Hd. injection Hd as ->. apply Hl, last_snoc.
Qed.

Lemma trim_start_head c s : is_whitespace c = false → trim_start (c :: s) = c :: s.
Proof. intros H. unfold trim_start. simpl. by rewrite H. Qed.

Lemma trim_name c m s : is_whitespace c = false → name_ok s → trim ((c :: m) ++ s) = (c :: m) ++ s.
Proof.
  intros Hc Hs. unfold trim. simpl app. rewrite trim_start_head by done.
  apply (trim_end_name (c :: m)), Hs.
Qed.

Lemma trim_end_head c s : trim_end (c :: s) = [] ∨ ∃ r, trim_end (c :: s) = c :: r.
Proof.
  destruct (drop_while_end_prefix is_whitespace (c :: s)) as (a & Ha & _).
  change (drop_while_end is_whitespace (c :: s)) with (trim_end (c :: s)) in Ha.
  destruct (trim_end (c :: s)) as [|d r]; [by left|]. right. simpl in Ha.
  injection Ha as <- _. eauto.
Qed.

Lemma trim_head c s : is_whitespace c = false → ∃ r, trim (c :: s) = c :: r.
Proof.
  intros Hc. unfold trim. rewrite trim_start_head by done.
  destruct (trim_end_head c s) as [E|]; [|done]. exfalso.
  destruct (drop_while_end_prefix is_whitespace (c :: s)) as (a & Ha & Hp).
  change (drop_while_end is_whitespace (c :: s)) with (trim_end (c :: s)) in Ha.
  rewrite E in Ha. simpl in Ha. subst a. simpl in Hp. by rewrite Hc in Hp.
Qed.

(** ** Runs of the parser over whole lines *)

Definition line_step (p : StreamingPatchParser) (l : str) : res ParseError StreamingPatchParser :=
  process_line (take_line p) l.

Definition with_buffer (p : StreamingPatchParser) (l : str) : StreamingPatchParser :=
  {| line_buffer := l; state := state p; line_number := line_number p |}.

Lemma handle_buffer p t p' b :
  handle_hunk_headers_and_end_patch p t = Ok (p', b) → line_buffer p' = line_buffer p.
Proof.
  unfold handle_hunk_headers_and_end_patch, res_bind. intros H.
  repeat case_hyp H; by simplify_eq.
Qed.

Lemma process_line_buffer p l p' : process_line p l = Ok p' → line_buffer p' = line_buffer p.
Proof.
  assert (Hd : ∀ t (k : res ParseError StreamingPatchParser),
    (∀ q, k = Ok q → line_buffer q = line_buffer p) →
    (let? (p', handled) := handle_hunk_headers_and_end_patch p t in
     if handled : bool then Ok p' else k) = Ok p' → line_buffer p' = line_buffer p).
  { intros t k Hk. rewrite res_bind_Ok. intros ([q [|]] & Hq & Hr); [|eauto].
    injection Hr as <-. by eapply handle_buffer. }
  unfold process_line, process_add_line, process_update_line. cbv zeta.
  destruct (mode (state p)); try (apply Hd; intros q); intros H;
    unfold process_update_chunk_line in H; cbv zeta in H; repeat case_hyp H; by simplify_eq.
Qed.

Lemma push_chars_line p l rest :
  c_lf ∉ l → push_chars p (l ++ rest) = push_chars (with_buffer p (line_buffer p ++ l)) rest.
Proof.
  revert p. induction l as [|c l IH]; intros p Hl; simpl.
  - rewrite app_nil_r. by destruct p.
  - apply not_elem_of_cons in Hl as [Hc Hl].
    destruct (N.eqb_spec c c_lf); [congruence|]. rewrite IH by done. simpl.
    unfold push_char, with_buffer. simpl. by rewrite <- app_assoc.
Qed.

(** The text of the lines, then an unterminated last line: the parser runs the
    lines and keeps the last one in its buffer. *)
Lemma push_chars_run p ls last p' :
  line_buffer p = [] → Forall line_ok ls → c_lf ∉ last → foldM line_step p ls = Ok p' →
  push_chars p (join [c_lf] (ls ++ [last])) = (with_buffer p' last, Ok tt)
  ∧ line_buffer p' = [].
Proof.
  intros Hb Hls Hlast. revert p Hb. induction Hls as [|l ls [Hl Hcr] Hls IH]; intros p Hb; simpl.
  - intros [= <-]. rewrite <- (app_nil_r last), push_chars_line, Hb by done.
    split; [|done]. simpl. by rewrite app_nil_r.
  - rewrite res_bind_Ok. intros (q & Hq & Hr).
    assert (Hqb := process_line_buffer _ _ _ Hq). simpl in Hqb.
    destruct (IH q Hqb Hr) as [IH1 IH2]. split; [|done].
    assert (E : ∃ x xs, ls ++ [last] = x :: xs) by (destruct ls; simpl; eauto).
    destruct E as (x & xs & E). rewrite E in *.
    change (l ++ [c_lf] ++ join [c_lf] (x :: xs)) with (l ++ c_lf :: join [c_lf] (x :: xs)).
    rewrite push_chars_line by done. cbn [push_chars]. rewrite N.eqb_refl, Hb. simpl.
    rewrite Hcr. unfold line_step in Hq.
    replace (take_line (with_buffer p l)) with (take_line p) by done. by rewrite Hq.
Qed.

(** ** Each printed hunk runs to the hunk it denotes *)

(** Between hunks: a header or the end marker is accepted. *)
Definition ready (p : StreamingPatchParser) : Prop :=
  match mode (state p) with NotStarted | EndedPatch => False | _ => True end
  ∧ ∀ line, ensure_update_hunk_is_not_empty p line = Ok tt.

Lemma header_not_env m s :
  m = ADD_FILE_MARKER ∨ m = DELETE_FILE_MARKER ∨ m = UPDATE_FILE_MARKER →
  strip_prefix ENVIRONMENT_ID_MARKER (m ++ s) = None.
Proof. by intros [->|[->| ->]]. Qed.

Lemma end_not_env : strip_prefix ENVIRONMENT_ID_MARKER END_PATCH_MARKER = None.
Proof. done. Qed.

(** A line that both trims leave alone goes through the header handler in
    every mode between the begin and the end marker. *)
Lemma header_step p t q :
  ready p → trim t = t → trim_end t = t →
  handle_hunk_headers_and_end_patch p t = Ok (q, true) → process_line p t = Ok q.
Proof.
  intros [Hm _] H1 H2 Hh.
  unfold process_line, process_add_line, process_update_line. cbv zeta.
  rewrite H1, H2. rewrite Hh. by destruct (mode (state p)).
Qed.

Lemma ready_take_line p : ready p → ready (take_line p).
Proof.
  intros [Hm He]. split; [done|]. intros line. specialize (He line).
  unfold ensure_update_hunk_is_not_empty in *. simpl.
  repeat (case_match; simplify_eq/=; try done).
Qed.

(** The state a header leads to. *)
Definition header_state (p : StreamingPatchParser) (h : HunkSrc) : StreamingPatchParser :=
  match h with
  | SrcAdd path _ => set_mode (set_hunks p (hunks (state p) ++ [AddFile path []])) ModeAddFile
  | SrcDelete path => set_mode (set_hunks p (hunks (state p) ++ [DeleteFile path])) ModeDeleteFile
  | SrcUpdate path _ _ =>
      set_mode (set_hunks p (hunks (state p) ++ [UpdateFile path None []]))
               (ModeUpdateFile (line_number p))
  end.
Definition header_marker (h : HunkSrc) : str :=
  match h with
  | SrcAdd _ _ => ADD_FILE_MARKER
  | SrcDelete _ => DELETE_FILE_MARKER
  | SrcUpdate _ _ _ => UPDATE_FILE_MARKER
  end.
Definition header_path (h : HunkSrc) : str :=
  match h with SrcAdd p _ | SrcDelete p | SrcUpdate p _ _ => p end.

Lemma handle_header p h :
  (∀ line, ensure_update_hunk_is_not_empty p line = Ok tt) →
  handle_hunk_headers_and_end_patch p (header_marker h ++ header_path h)
  = Ok (header_state p h, true).
Proof.
  intros He. unfold handle_hunk_headers_and_end_patch.
  assert (Henv : match mode (state p) with
                 | StartedPatch => strip_prefix ENVIRONMENT_ID_MARKER
                                     (header_marker h ++ header_path h)
                 | _ => None end = None).
  { destruct (mode (state p)); try done. apply header_not_env. destruct h; simpl; auto. }
  rewrite Henv, He. clear Henv.
  destruct h; unfold header_marker, header_path;
    (rewrite bool_decide_eq_false_2; [|by intros ?]); by rewrite ?strip_prefix_app.
Qed.

Lemma run_header p h :
  ready p → name_ok (header_path h) →
  line_step p (header_marker h ++ header_path h) = Ok (header_state (take_line p) h).
Proof.
  intros Hr%ready_take_line Hn. apply header_step; [done| |by apply trim_end_name|].
  - destruct h; by apply trim_name.
  - apply handle_header, Hr.
Qed.

(** Lines that do not start with an asterisk are not headers. *)
Lemma handle_not_star p t :
  mode (state p) ≠ StartedPatch → head t ≠ Some 42%N →
  handle_hunk_headers_and_end_patch p t = Ok (p, false).
Proof.
  intros Hm Ht. unfold handle_hunk_headers_and_end_patch.
  replace (match mode (state p) with StartedPatch => _ | _ => None end) with (@None str)
    by by destruct (mode (state p)).
  assert (Hs : ∀ m, head m = Some 42%N → strip_prefix m t = None).
  { intros m Hm'. apply strip_prefix_head_ne; [|by intros ->]. rewrite Hm'.
    intros a b [= <-] Hb <-. congruence. }
  rewrite bool_decide_eq_false_2 by (intros ->; by apply Ht).
  by rewrite !Hs.
Qed.

(** *** Added files *)

Lemma run_add_lines p hs path contents ls :
  mode (state p) = ModeAddFile → hunks (state p) = hs ++ [AddFile path contents] →
  ∃ p', foldM line_step p (map (cons c_plus) ls) = Ok p' ∧ mode (state p') = ModeAddFile
    ∧ hunks (state p') = hs ++ [AddFile path (contents ++ concat (map (λ l, l ++ [c_lf]) ls))]
    ∧ environment_id (state p') = environment_id (state p).
Proof.
  revert p contents. induction ls as [|l ls IH]; intros p contents Hm Hh; simpl.
  - exists p. rewrite app_nil_r. done.
  - unfold line_step at 1, process_line. simpl. rewrite Hm. unfold process_add_line.
    destruct (trim_head c_plus l) as [r Hr]; [done|].
    rewrite handle_not_star; [|by simpl; rewrite Hm|by rewrite Hr]. simpl.
    rewrite Hh, last_snoc. simpl. rewrite update_last_snoc.
    match goal with |- context [foldM _ ?q _] => destruct (IH q (contents ++ l ++ [c_lf])) as (p' & ? & ? & Hp' & ?) end;
      [done|done|].
    exists p'. repeat split; [done|done| |done]. rewrite Hp'. by rewrite <- !app_assoc.
Qed.

(** *** Updated files *)

(** The parser inside an update hunk with the given chunks. *)
Definition in_update (p : StreamingPatchParser) (hs : list Hunk) (path : str) (mv : option str)
    (chunks : list UpdateFileChunk) : Prop :=
  (∃ ln, mode (state p) = ModeUpdateFile ln)
  ∧ hunks (state p) = hs ++ [UpdateFile path mv chunks].

Lemma in_update_set p hs path mv chunks ln mv' chunks' :
  in_update p hs path mv chunks → in_update (set_last_update p ln mv' chunks') hs path mv' chunks'.
Proof.
  intros [_ Hh]. split; simpl; [eauto|]. by rewrite Hh, update_last_snoc.
Qed.

Definition apply_change (c : UpdateFileChunk) (l : ChangeLine) : UpdateFileChunk :=
  match l with
  | CtxLine s => push_context_line c s
  | AddLine s => push_new_line c s
  | DelLine s => push_old_line c s
  end.

Lemma trim_end_change_head l r :
  trim_end (print_change l) = r → head r ≠ Some 42%N ∧ r ≠ EMPTY_CHANGE_CONTEXT_MARKER
  ∧ starts_with CHANGE_CONTEXT_MARKER r = false ∧ r ≠ EOF_MARKER
  ∧ strip_prefix CHANGE_CONTEXT_MARKER r = None ∧ strip_prefix MOVE_TO_MARKER r = None.
Proof.
  intros <-. destruct l as [s|s|s]; simpl;
    match goal with |- context [trim_end (?c :: ?s)] => destruct (trim_end_head c s) as [->|(r & ->)] end;
    by repeat split.
Qed.

(** One change line extends the last chunk. *)
Lemma run_change p hs path mv cs c l :
  in_update p hs path mv (cs ++ [c]) → is_end_of_file c = false →
  ∃ p', line_step p (print_change l) = Ok p'
    ∧ in_update p' hs path mv (cs ++ [apply_change c l])
    ∧ environment_id (state p') = environment_id (state p).
Proof.
  intros [[ln Hm] Hh] He. unfold line_step, process_line. simpl. rewrite Hm.
  destruct (trim_end_change_head l _ eq_refl) as (H1 & H2 & H3 & H4 & H5 & H6).
  unfold process_update_line. rewrite handle_not_star; [|by simpl; rewrite Hm|done].
  simpl. rewrite Hh, last_snoc. unfold process_update_chunk_line. cbv zeta.
  rewrite last_snoc, He. simpl.
  replace (match cs ++ [c], mv with [], None => _ | _, _ => None end) with (@None str)
    by by destruct cs.
  unfold is_context_marker. rewrite (bool_decide_eq_false_2 _ H2), H3, H5. simpl.
  rewrite (bool_decide_eq_false_2 _ H4).
  assert (Hp : ∀ f, push_to_last_chunk f (cs ++ [c]) = cs ++ [f c]).
  { intros f. unfold push_to_last_chunk. destruct (cs ++ [c]) eqn:E; [by destruct cs|].
    by rewrite <- E, update_last_snoc. }
  assert (Hin : in_update (take_line p) hs path mv (cs ++ [c])) by (split; simpl; eauto).
  destruct l as [s|s|s]; simpl; rewrite Hp; eexists; (split; [reflexivity|]);
    (split; [by eapply in_update_set|done]).
Qed.

Lemma run_changes p hs path mv cs c ls :
  in_update p hs path mv (cs ++ [c]) → is_end_of_file c = false →
  ∃ p', foldM line_step p (map print_change ls) = Ok p'
    ∧ in_update p' hs path mv (cs ++ [foldl apply_change c ls])
    ∧ environment_id (state p') = environment_id (state p).
Proof.
  revert p c. induction ls as [|l ls IH]; intros p c Hin He; simpl; [eauto|].
  destruct (run_change p hs path mv cs c l Hin He) as (p1 & -> & Hin1 & E1). simpl.
  destruct (IH p1 (apply_change c l)) as (p2 & Hp2 & Hin2 & E2); [done|by destruct l|].
  exists p2. split; [done|]. split; [done|]. congruence.
Qed.

(** Folding the change lines over a fresh chunk gives the chunk they denote. *)
Lemma foldl_apply_change c ls :
  foldl apply_change c ls =
  {| change_context := change_context c;
     old_lines := old_lines c ++ old_side ls;
     new_lines := new_lines c ++ new_side ls;
     context_line_indices := context_line_indices c
        ++ context_positions (length (old_lines c)) (length (new_lines c)) ls;
     is_end_of_file := is_end_of_file c |}.
Proof.
  revert c. induction ls as [|l ls IH]; intros c; simpl.
  - rewrite !app_nil_r. by destruct c.
  - rewrite IH. destruct l as [s|s|s]; simpl; rewrite ?length_app, <- ?app_assoc; simpl;
      by rewrite ?Nat.add_1_r.
Qed.

Definition fresh_chunk (ctx : option str) : UpdateFileChunk :=
  {| change_context := ctx; old_lines := []; new_lines := [];
     context_line_indices := []; is_end_of_file := false |}.

Lemma trim_end_context ctx :
  (∀ s, ctx = Some s → name_ok s) → trim_end (print_context ctx) = print_context ctx.
Proof.
  destruct ctx as [s|]; intros H; [|done]. apply (trim_end_name CHANGE_CONTEXT_MARKER). auto.
Qed.

(** A context marker opens a chunk. *)
Lemma run_context p hs path mv chunks ctx :
  in_update p hs path mv chunks → (∀ s, ctx = Some s → name_ok s) →
  last_chunk_empty chunks = false →
  ∃ p', line_step p (print_context ctx) = Ok p'
    ∧ in_update p' hs path mv (chunks ++ [fresh_chunk ctx])
    ∧ environment_id (state p') = environment_id (state p).
Proof.
  intros [[ln Hm] Hh] Hctx He. unfold line_step, process_line. simpl. rewrite Hm.
  assert (Hcm : is_context_marker (print_context ctx) = true).
  { destruct ctx as [s|]; [|done]. unfold is_context_marker. apply orb_true_iff. right.
    apply starts_with_true. by exists s. }
  assert (Hmv : strip_prefix MOVE_TO_MARKER (print_context ctx) = None) by by destruct ctx.
  unfold process_update_line. rewrite trim_end_context by done.
  rewrite handle_not_star; [|by simpl; rewrite Hm|by destruct ctx].
  simpl. rewrite Hh, last_snoc. unfold process_update_chunk_line. cbv zeta.
  rewrite trim_end_context by done. rewrite Hcm, He, Hmv. simpl.
  rewrite (bool_decide_eq_false_2 (print_context ctx = [])) by by destruct ctx.
  rewrite !andb_false_r.
  replace (match chunks, mv with | [], None => None | _, _ => None end) with (@None str)
    by (destruct chunks, mv; done).
  assert (Hin : in_update (take_line p) hs path mv chunks) by (split; simpl; eauto).
  destruct ctx as [s|].
  - rewrite bool_decide_eq_false_2.
    + unfold print_context. rewrite strip_prefix_app. eexists. split; [done|].
      split; [by eapply in_update_set|done].
    + destruct (Hctx s eq_refl) as (_ & Hne & _). by destruct s.
  - rewrite bool_decide_eq_true_2 by done. eexists. split; [done|].
    split; [by eapply in_update_set|done].
Qed.

Lemma handle_eof_marker p :
  mode (state p) ≠ StartedPatch → handle_hunk_headers_and_end_patch p EOF_MARKER = Ok (p, false).
Proof.
  intros Hm. unfold handle_hunk_headers_and_end_patch.
  replace (match mode (state p) with StartedPatch => _ | _ => None end) with (@None str)
    by by destruct (mode (state p)).
  rewrite bool_decide_eq_false_2 by done. done.
Qed.

(** The end-of-file marker marks the last chunk. *)
Lemma run_eof p hs path mv cs c :
  in_update p hs path mv (cs ++ [c]) → is_end_of_file c = false → chunk_is_empty c = false →
  ∃ p', line_step p EOF_MARKER = Ok p'
    ∧ in_update p' hs path mv (cs ++ [set_end_of_file c])
    ∧ environment_id (state p') = environment_id (state p).
Proof.
  intros [[ln Hm] Hh] He Hne. unfold line_step, process_line. simpl. rewrite Hm.
  unfold process_update_line. change (trim_end EOF_MARKER) with EOF_MARKER.
  rewrite handle_eof_marker by by simpl; rewrite Hm.
  simpl. rewrite Hh, last_snoc. unfold process_update_chunk_line. cbv zeta.
  change (trim_end EOF_MARKER) with EOF_MARKER. unfold last_chunk_empty.
  rewrite last_snoc, He, Hne, update_last_snoc. simpl.
  change (is_context_marker EOF_MARKER) with false.
  change (strip_prefix MOVE_TO_MARKER EOF_MARKER) with (@None str).
  change (strip_prefix CHANGE_CONTEXT_MARKER EOF_MARKER) with (@None str).
  replace (match cs ++ [c], mv with [], None => None | _, _ => None end) with (@None str)
    by (destruct cs, mv; done).
  simpl. assert (Hin : in_update (take_line p) hs path mv (cs ++ [c])) by (split; simpl; eauto).
  eexists. split; [done|]. split; [by eapply in_update_set|done].
Qed.

Lemma sides_nonempty ls : ls ≠ [] → old_side ls ≠ [] ∨ new_side ls ≠ [].
Proof. destruct ls as [|[s|s|s] ls]; simpl; auto. Qed.

Lemma chunk_of_nonempty c : chunk_ok c → chunk_is_empty (chunk_of c) = false.
Proof.
  intros (_ & Hne & _). unfold chunk_is_empty. simpl. apply andb_false_iff.
  rewrite !bool_decide_eq_false. by apply sides_nonempty.
Qed.

Lemma run_chunk p hs path mv chunks c :
  in_update p hs path mv chunks → last_chunk_empty chunks = false → chunk_ok c →
  ∃ p', foldM line_step p (print_chunk c) = Ok p'
    ∧ in_update p' hs path mv (chunks ++ [chunk_of c])
    ∧ environment_id (state p') = environment_id (state p).
Proof.
  intros Hin He Hc. pose proof (chunk_of_nonempty c Hc) as Hne. destruct Hc as (Hctx & _ & _).
  unfold print_chunk. simpl.
  destruct (run_context p hs path mv chunks _ Hin Hctx He) as (p1 & -> & Hin1 & E1). simpl.
  rewrite foldM_app.
  destruct (run_changes p1 hs path mv chunks _ (src_lines c) Hin1) as (p2 & -> & Hin2 & E2); [done|].
  simpl. rewrite foldl_apply_change in Hin2. simpl in Hin2.
  destruct c as [ctx ls [|]]; simpl in *.
  - destruct (run_eof p2 hs path mv chunks _ Hin2) as (p3 & -> & Hin3 & E3); [done|done|].
    exists p3. split; [done|]. split; [done|]. congruence.
  - exists p2. split; [done|]. split; [done|]. congruence.
Qed.

Lemma run_chunks p hs path mv chunks cs :
  in_update p hs path mv chunks → last_chunk_empty chunks = false → Forall chunk_ok cs →
  ∃ p', foldM line_step p (concat (map print_chunk cs)) = Ok p'
    ∧ in_update p' hs path mv (chunks ++ map chunk_of cs)
    ∧ environment_id (state p') = environment_id (state p).
Proof.
  intros Hin He Hcs. revert p chunks Hin He. induction Hcs as [|c cs Hc Hcs IH];
    intros p chunks Hin He; [exists p; by rewrite app_nil_r|].
  rewrite map_cons, concat_cons, foldM_app.
  destruct (run_chunk p hs path mv chunks c Hin He Hc) as (p1 & -> & Hin1 & E1).
  destruct (IH p1 _ Hin1) as (p2 & Hp2 & Hin2 & E2).
  { unfold last_chunk_empty. rewrite last_snoc. by apply chunk_of_nonempty. }
  exists p2. simpl. split; [done|]. rewrite <- app_assoc in Hin2. split; [done|]. congruence.
Qed.

Lemma run_move p hs path m :
  in_update p hs path None [] → name_ok m →
  ∃ p', line_step p (MOVE_TO_MARKER ++ m) = Ok p' ∧ in_update p' hs path (Some m) []
    ∧ environment_id (state p') = environment_id (state p).
Proof.
  intros [[ln Hm] Hh] Hn.
  assert (Hd : handle_hunk_headers_and_end_patch (take_line p) (MOVE_TO_MARKER ++ m)
               = Ok (take_line p, false)).
  { unfold handle_hunk_headers_and_end_patch.
    change (mode (state (take_line p))) with (mode (state p)). rewrite Hm.
    by rewrite bool_decide_eq_false_2 by by intros ?. }
  assert (Ht : trim_end (MOVE_TO_MARKER ++ m) = MOVE_TO_MARKER ++ m) by by apply trim_end_name.
  assert (Hs := strip_prefix_app MOVE_TO_MARKER m).
  generalize dependent (MOVE_TO_MARKER ++ m). intros t Hd Ht Hs.
  unfold line_step, process_line. simpl. rewrite Hm.
  unfold process_update_line. rewrite Ht, Hd. simpl. rewrite Hh, last_snoc.
  unfold process_update_chunk_line. cbv zeta. rewrite Ht, Hs. simpl.
  assert (Hin : in_update (take_line p) hs path None []) by (split; simpl; eauto).
  eexists. split; [done|]. split; [by eapply in_update_set|done].
Qed.

Lemma ready_of_in_update p hs path mv chunks :
  in_update p hs path mv chunks → chunks ≠ [] → last_chunk_empty chunks = false → ready p.
Proof.
  intros [[ln Hm] Hh] Hne He. split; [by rewrite Hm|]. intros line.
  unfold ensure_update_hunk_is_not_empty. rewrite Hh, last_snoc, Hm, He. by destruct chunks.
Qed.

Lemma run_hunk p h :
  ready p → hunk_ok h →
  ∃ p', foldM line_step p (print_hunk h) = Ok p' ∧ ready p'
    ∧ hunks (state p') = hunks (state p) ++ [hunk_of h]
    ∧ environment_id (state p') = environment_id (state p).
Proof.
  intros Hr Hok.
  assert (Hhd : line_step p (header_marker h ++ header_path h) = Ok (header_state (take_line p) h)).
  { apply run_header; [done|]. destruct h; simpl in Hok; naive_solver. }
  destruct h as [path ls|path|path mv cs]; simpl in Hhd |- *; rewrite Hhd; simpl.
  - destruct (run_add_lines (header_state (take_line p) (SrcAdd path ls))
                (hunks (state p)) path [] ls) as (p' & Hp' & Hm & Hh & E); [done|done|].
    exists p'. repeat split; [done|by rewrite Hm| |done|done]. intros line.
    unfold ensure_update_hunk_is_not_empty. by rewrite Hh, last_snoc.
  - eexists. split; [done|]. split; [|done]. split; [done|]. intros line.
    unfold ensure_update_hunk_is_not_empty. simpl. by rewrite last_snoc.
  - destruct Hok as (Hn & Hmv & Hne & Hcs). rewrite foldM_app.
    set (q := header_state (take_line p) (SrcUpdate path mv cs)).
    assert (Hq : in_update q (hunks (state p)) path None []) by (split; simpl; eauto).
    assert (H1 : ∃ p1, foldM line_step q (match mv with Some m => [MOVE_TO_MARKER ++ m] | None => [] end) = Ok p1
              ∧ in_update p1 (hunks (state p)) path mv []
              ∧ environment_id (state p1) = environment_id (state p)).
    { destruct mv as [m|]; [|by exists q]. rewrite foldM_singleton.
      destruct (run_move q _ path m Hq (Hmv m eq_refl)) as (p1 & -> & ? & ?). by exists p1. }
    destruct H1 as (p1 & Hp1 & Hin1 & E1). unfold q in Hp1. simpl in Hp1. rewrite Hp1. simpl.
    destruct (run_chunks p1 _ path mv [] cs Hin1) as (p2 & Hp2 & Hin2 & E2); [done|done|].
    exists p2. split; [done|]. simpl in Hin2. split.
    + eapply ready_of_in_update; [done|by destruct cs|]. unfold last_chunk_empty.
      destruct (snoc_inv cs) as [->|(cs' & c & ->)]; [done|].
      rewrite map_app. simpl. rewrite last_snoc. apply chunk_of_nonempty.
      apply Forall_app in Hcs as [_ Hc]. by inversion_clear Hc.
    + destruct Hin2 as [_ ->]. split; [done|]. congruence.
Qed.

Lemma run_hunks p hs :
  ready p → Forall hunk_ok hs →
  ∃ p', foldM line_step p (concat (map print_hunk hs)) = Ok p' ∧ ready p'
    ∧ hunks (state p') = hunks (state p) ++ map hunk_of hs
    ∧ environment_id (state p') = environment_id (state p).
Proof.
  intros Hr Hhs. revert p Hr. induction Hhs as [|h hs Hh Hhs IH]; intros p Hr.
  { exists p. simpl. by rewrite app_nil_r. }
  rewrite map_cons, concat_cons, foldM_app.
  destruct (run_hunk p h Hr Hh) as (p1 & -> & Hr1 & Hh1 & E1).
  destruct (IH p1 Hr1) as (p2 & Hp2 & Hr2 & Hh2 & E2).
  exists p2. simpl. split; [done|]. split; [done|]. rewrite Hh2, Hh1, <- app_assoc.
  split; [done|]. congruence.
Qed.

Lemma run_environment p env :
  mode (state p) = StartedPatch → hunks (state p) = [] → environment_id (state p) = None →
  (∀ e, env = Some e → env_ok e) →
  ∃ p', foldM line_step p (print_environment env) = Ok p' ∧ ready p'
    ∧ hunks (state p') = [] ∧ environment_id (state p') = env.
Proof.
  intros Hm Hh He Henv.
  assert (Hready : ∀ q, mode (state q) = StartedPatch → hunks (state q) = [] → ready q).
  { intros q Hqm Hqh. split; [by rewrite Hqm|]. intros line.
    unfold ensure_update_hunk_is_not_empty. by rewrite Hqh. }
  destruct env as [e|]; [|exists p; auto].
  unfold print_environment. rewrite foldM_singleton.
  destruct (Henv e eq_refl) as [Hn Ht].
  assert (Htrim : trim (ENVIRONMENT_ID_MARKER ++ c_sp :: e) = ENVIRONMENT_ID_MARKER ++ c_sp :: e).
  { change (c_sp :: e) with ([c_sp] ++ e). rewrite app_assoc. by apply trim_name. }
  assert (Hs := strip_prefix_app ENVIRONMENT_ID_MARKER (c_sp :: e)).
  generalize dependent (ENVIRONMENT_ID_MARKER ++ c_sp :: e). intros t Htrim Hs.
  unfold line_step, process_line. simpl. rewrite Hm, Htrim.
  unfold handle_hunk_headers_and_end_patch. simpl. rewrite Hm, Hs, He.
  assert (Hte : trim (c_sp :: e) = e) by exact Ht.
  rewrite Hte, bool_decide_eq_false_2 by by intros [].
  rewrite bool_decide_eq_false_2 by by destruct Hn as (_ & ? & _).
  simpl. eexists. split; [done|]. split; [by apply Hready|]. done.
Qed.

Lemma run_print env hs :
  (∀ e, env = Some e → env_ok e) → Forall hunk_ok hs →
  ∃ p, foldM line_step default_parser (print_lines env hs) = Ok p ∧ ready p
    ∧ hunks (state p) = map hunk_of hs ∧ environment_id (state p) = env.
Proof.
  intros Henv Hhs. unfold print_lines. rewrite foldM_cons.
  assert (Hb : line_step default_parser BEGIN_PATCH_MARKER
               = Ok (set_mode (take_line default_parser) StartedPatch)) by done.
  rewrite Hb. simpl. rewrite foldM_app.
  destruct (run_environment (set_mode (take_line default_parser) StartedPatch) env)
    as (p1 & -> & Hr1 & Hh1 & E1); [done..|]. simpl.
  destruct (run_hunks p1 hs Hr1 Hhs) as (p2 & Hp2 & Hr2 & Hh2 & E2).
  exists p2. split; [done|]. split; [done|]. rewrite Hh2, Hh1. split; [done|]. congruence.
Qed.

(** ** The whole text *)

Lemma print_change_ok l : text_ok (change_text l) → line_ok (print_change l).
Proof. by destruct l; apply text_line_ok. Qed.

Lemma Forall_concat_map {A B} (P : B → Prop) (f : A → list B) (Q : A → Prop) l :
  (∀ x, Q x → Forall P (f x)) → Forall Q l → Forall P (concat (map f l)).
Proof. intros Hf. induction 1; simpl; [constructor|]. apply Forall_app. auto. Qed.

Lemma print_chunk_ok c : chunk_ok c → Forall line_ok (print_chunk c).
Proof.
  intros (Hctx & _ & Hls). unfold print_chunk. constructor.
  - destruct (src_context c) as [s|]; [|by split; [decide_now|]].
    apply (name_line_ok CHANGE_CONTEXT_MARKER); [decide_now|auto].
  - apply Forall_app. split.
    + apply Forall_map. eapply Forall_impl; [done|]. apply print_change_ok.
    + destruct (src_eof c); repeat constructor; decide_now.
Qed.

Lemma print_hunk_ok h : hunk_ok h → Forall line_ok (print_hunk h).
Proof.
  destruct h as [path ls|path|path mv cs]; unfold hunk_ok, print_hunk.
  - intros [Hn Hls]. constructor; [apply name_line_ok; [decide_now|done]|].
    apply Forall_map. eapply Forall_impl; [done|]. intros l Hl. by apply text_line_ok.
  - intros Hn. constructor; [apply name_line_ok; [decide_now|done]|done].
  - intros (Hn & Hmv & _ & Hcs). constructor; [apply name_line_ok; [decide_now|done]|].
    apply Forall_app. split.
    + destruct mv; constructor; [|done]. apply name_line_ok; [decide_now|auto].
    + eapply Forall_concat_map, Hcs. apply print_chunk_ok.
Qed.

Lemma print_lines_ok env hs :
  (∀ e, env = Some e → env_ok e) → Forall hunk_ok hs → Forall line_ok (print_lines env hs).
Proof.
  intros Henv Hhs. unfold print_lines. constructor; [split; decide_now|].
  apply Forall_app. split.
  - destruct env as [e|]; constructor; [|done].
    change (ENVIRONMENT_ID_MARKER ++ c_sp :: e) with (ENVIRONMENT_ID_MARKER ++ [c_sp] ++ e).
    rewrite app_assoc. apply name_line_ok; [decide_now|]. by apply Henv.
  - eapply Forall_concat_map, Hhs. apply print_hunk_ok.
Qed.

Lemma join_snoc_suffix sep ls x : ∃ r, join sep (ls ++ [x]) = r ++ x.
Proof.
  induction ls as [|l ls [r IH]]; [by exists []|].
  destruct ls as [|y ls].
  - exists (l ++ sep). simpl. by rewrite app_assoc.
  - change ((l :: y :: ls) ++ [x]) with (l :: y :: (ls ++ [x])). rewrite join_cons2.
    change (y :: (ls ++ [x])) with ((y :: ls) ++ [x]). rewrite IH.
    exists (l ++ sep ++ r). by rewrite !app_assoc.
Qed.

Lemma lines_of_pieces_id ls x :
  Forall (λ l, strip_cr l = l) ls → x ≠ [] → lines_of_pieces (ls ++ [x]) = ls ++ [x].
Proof.
  intros H Hx. induction H as [|l ls Hl Hls IH]; simpl; [by rewrite bool_decide_eq_false_2|].
  rewrite Hl, IH. by destruct ls.
Qed.

Lemma str_lines_join ls x :
  Forall line_ok ls → c_lf ∉ x → x ≠ [] → str_lines (join [c_lf] (ls ++ [x])) = ls ++ [x].
Proof.
  intros Hls Hlf Hx. unfold str_lines. rewrite split_join.
  - apply lines_of_pieces_id; [|done]. eapply Forall_impl; [done|]. by intros ? [].
  - by destruct ls.
  - apply Forall_app. split; [|by constructor]. eapply Forall_impl; [done|]. by intros ? [].
Qed.

Lemma trim_print_patch env hs : trim (print_patch env hs) = print_patch env hs.
Proof.
  unfold print_patch. apply trim_tight.
  destruct (join_snoc_suffix [c_lf] (print_lines env hs) END_PATCH_MARKER) as [r Hr].
  assert (Hh : ∃ s, join [c_lf] (print_lines env hs ++ [END_PATCH_MARKER]) = 42%N :: s).
  { unfold print_lines. simpl app.
    destruct (print_environment env ++ concat (map print_hunk hs)) as [|y ys];
      simpl app; rewrite join_cons2; by eexists. }
  destruct Hh as [s Hs].
  assert (Hl : last (42%N :: s) = Some 104%N).
  { rewrite <- Hs, Hr. change END_PATCH_MARKER with (lit "*** End Patc" ++ [104%N]).
    by rewrite app_assoc, last_snoc. }
  rewrite Hs. unfold tight. by rewrite Hl.
Qed.

Lemma finish_line_buffer_end p :
  line_buffer p ≠ [] → trim (line_buffer p) = END_PATCH_MARKER → ready (take_line p) →
  finish_line_buffer p = (set_mode (take_line p) EndedPatch, Ok tt).
Proof.
  intros Hne Ht [_ He]. unfold finish_line_buffer. destruct (line_buffer p); [done|].
  cbv zeta. rewrite bool_decide_eq_true_2 by done. by rewrite He.
Qed.

(** The parser state before the end marker, and what [finish] makes of it. *)
Lemma finish_end_marker p :
  ready p → finish (with_buffer p END_PATCH_MARKER)
  = (set_mode (take_line p) EndedPatch, Ok (hunks (state p))).
Proof.
  intros Hr%ready_take_line. unfold finish. by rewrite finish_line_buffer_end.
Qed.

(** C34. Parsing a printed patch gives back the hunks it was printed from, the
    environment id, and the patch text itself. *)
Theorem parse_print_roundtrip env hs :
  (∀ e, env = Some e → env_ok e) → Forall hunk_ok hs →
  parse_patch (print_patch env hs) =
  Ok {| args_patch := print_patch env hs; args_hunks := map hunk_of hs;
        args_workdir := None; args_environment_id := env |}.
Proof.
  intros Henv Hhs. unfold parse_patch. change PARSE_IN_STRICT_MODE with false.
  unfold parse_patch_text. cbv iota zeta. rewrite trim_print_patch.
  assert (Hsl : str_lines (print_patch env hs) = print_lines env hs ++ [END_PATCH_MARKER]).
  { apply str_lines_join; [by apply print_lines_ok|decide_now|done]. }
  rewrite Hsl.
  assert (Hc : check_patch_boundaries_lenient (print_lines env hs ++ [END_PATCH_MARKER])
               = Ok (print_lines env hs ++ [END_PATCH_MARKER])).
  { unfold check_patch_boundaries_lenient, check_patch_boundaries_strict. by rewrite last_snoc. }
  rewrite Hc. cbn [res_bind].
  destruct (run_print env hs Henv Hhs) as (p & Hp & Hr & Hh & E).
  destruct (push_chars_run default_parser (print_lines env hs) END_PATCH_MARKER p) as [Hpush _];
    [done|by apply print_lines_ok|decide_now|done|].
  unfold push_delta. rewrite Hpush. cbn [res_bind]. rewrite finish_end_marker by done.
  cbn [res_bind]. by rewrite Hh, <- E.
Qed.

(** A patch with every kind of hunk, printable by the hypotheses of the round trip. *)
Definition sample_hunks : list HunkSrc :=
  [SrcAdd (lit "new.txt") [lit "hello"; []];
   SrcDelete (lit "old.txt");
   SrcUpdate (lit "src/a.py") (Some (lit "src/b.py"))
     [{| src_context := Some (lit "def f():");
         src_lines := [CtxLine (lit "  x = 1"); DelLine (lit "  y = 2"); AddLine (lit "  y = 3")];
         src_eof := false |};
      {| src_context := None; src_lines := [CtxLine []; AddLine (lit "end")]; src_eof := true |}]].

Lemma text_ok_dec s : bool_decide (c_lf ∉ s) && bool_decide (last s ≠ Some c_cr) = true → text_ok s.
Proof. intros [H1 H2]%andb_true_iff. split; by eapply bool_decide_eq_true_1. Qed.

Lemma name_ok_dec s :
  bool_decide (c_lf ∉ s)
  && match last s with Some d => negb (is_whitespace d) | None => false end = true → name_ok s.
Proof.
  intros [H1 H2]%andb_true_iff. split; [by eapply bool_decide_eq_true_1|].
  destruct (last s) as [d|] eqn:E; [|done]. apply negb_true_iff in H2.
  split; [by intros ->|]. by intros ? [= <-].
Qed.

Lemma sample_hunks_ok : Forall hunk_ok sample_hunks.
Proof.
  assert (Hn : ∀ s, s ∈ [lit "new.txt"; lit "old.txt"; lit "src/a.py"; lit "src/b.py"; lit "def f():"] →
                    name_ok s).
  { intros s Hs. apply name_ok_dec.
    repeat (apply elem_of_cons in Hs as [->|Hs]; [vm_compute; reflexivity|]). by apply elem_of_nil in Hs. }
  assert (Ht : ∀ s, s ∈ [lit "hello"; []; lit "  x = 1"; lit "  y = 2"; lit "  y = 3"; lit "end"] →
                    text_ok s).
  { intros s Hs. apply text_ok_dec.
    repeat (apply elem_of_cons in Hs as [->|Hs]; [vm_compute; reflexivity|]). by apply elem_of_nil in Hs. }
  unfold sample_hunks. rewrite !Forall_cons, Forall_nil. unfold hunk_ok, chunk_ok; cbn [src_context src_lines].
  rewrite !Forall_cons, !Forall_nil. unfold chunk_ok. cbn [src_context src_lines change_text].
  rewrite !Forall_cons, !Forall_nil. cbn [change_text].
  split_and!; try done; try (intros ? [= <-]);
    first [apply Hn; decide_now | apply Ht; decide_now].
Qed.

Lemma parse_print_roundtrip_witness :
  parse_patch (print_patch (Some (lit "env-1")) sample_hunks) =
  Ok {| args_patch := print_patch (Some (lit "env-1")) sample_hunks;
        args_hunks := map hunk_of sample_hunks;
        args_workdir := None; args_environment_id := Some (lit "env-1") |}.
Proof.
  apply (parse_print_roundtrip (Some (lit "env-1")) sample_hunks); [|apply sample_hunks_ok].
  intros e [= <-]. split; [apply name_ok_dec|]; vm_compute; reflexivity.
Defined.
