(* ===== verification/SeekSequence.v ===== *)
(** * Locating patch lines in a file

    Models [apply-patch/src/seek_sequence.rs]: the search for a block of lines
    with decreasing strictness. *)

From S2P Require Import Prelude RustStr.
Open Scope list_scope.

(** [ApplyPatchFileUpdateMode] of [apply-patch/src/lib.rs]. *)
Inductive ApplyPatchFileUpdateMode :=
  | NormalizeToLf
  | PreserveLineEndings.

(** The char map of [normalise]. *)
Definition normalise_char (c : char) : char :=
  if bool_decide (c ∈ [8208; 8209; 8210; 8211; 8212; 8213; 8722]%N) then c_minus
  else if bool_decide (c ∈ [8216; 8217; 8218; 8219]%N) then c_quote
  else if bool_decide (c ∈ [8220; 8221; 8222; 8223]%N) then c_dquote
  else if bool_decide (c ∈ [160; 8194; 8195; 8196; 8197; 8198; 8199; 8200; 8201; 8202;
                            8239; 8287; 12288]%N) then c_sp
  else c.

Definition normalise (s : str) : str := map normalise_char (trim s).

(** [for i in lo..=hi { if test(i) { return Some(i) } }], [hi - lo + 1] rounds. *)
Fixpoint first_index (test : nat → bool) (i n : nat) : option nat :=
  match n with
  | 0 => None
  | S n' => if test i then Some i else first_index test (S i) n'
  end.

(** The inner loop of the lenient passes: compare the lines at [i] pairwise
    under a key; an index past the end of [lines] would be out of range. *)
Fixpoint match_lines (key : str → str) (lines pattern : list str) {struct pattern} : bool :=
  match pattern, lines with
  | [], _ => true
  | pat :: pattern', line :: lines' =>
      if bool_decide (key line = key pat) then match_lines key lines' pattern' else false
  | _ :: _, [] => false
  end.

Definition search_start_of (lines pattern : list str) (start : nat) (eof : bool)
    (m : ApplyPatchFileUpdateMode) : nat :=
  if eof && bool_decide (length pattern ≤ length lines) then
    let eof_start := length lines - length pattern in
    match m with
    | NormalizeToLf => eof_start
    | PreserveLineEndings => Nat.max eof_start start
    end
  else start.

Definition seek_sequence (lines pattern : list str) (start : nat) (eof : bool)
    (m : ApplyPatchFileUpdateMode) : option nat :=
  match pattern with
  | [] => Some start
  | _ =>
  if bool_decide (length lines < length pattern) then None
  else
    let search_start := search_start_of lines pattern start eof m in
    let rounds := S (length lines - length pattern) - search_start in
    let pass := λ test, first_index test search_start rounds in
    match pass (λ i, bool_decide (take (length pattern) (drop i lines) = pattern)) with
    | Some i => Some i
    | None => match pass (λ i, match_lines trim_end (drop i lines) pattern) with
    | Some i => Some i
    | None => match pass (λ i, match_lines trim (drop i lines) pattern) with
    | Some i => Some i
    | None => pass (λ i, match_lines normalise (drop i lines) pattern)
    end end end
  end.

(** ** Specification: match levels *)

(** The four passes, from the strictest on; a level compares lines by a key. *)
Definition level_key (level : nat) : str → str :=
  match level with 0 => λ s, s | 1 => trim_end | 2 => trim | _ => normalise end.

(** [pattern] occurs at [i] up to the key of the level. *)
Definition occurs_at (level : nat) (lines pattern : list str) (i : nat) : Prop :=
  i + length pattern ≤ length lines
  ∧ map (level_key level) (take (length pattern) (drop i lines)) = map (level_key level) pattern.

(** ** Lemmas *)

Lemma first_index_Some test i n k :
  first_index test i n = Some k ↔
  i ≤ k < i + n ∧ test k = true ∧ ∀ j, i ≤ j < k → test j = false.
Proof.
  revert i. induction n as [|n IH]; intros i; simpl; [split; [done|lia]|].
  destruct (test i) eqn:E.
  - split.
    + intros [= ->]. repeat split; [lia|lia|done|lia].
    + intros (Hk & Ht & Hj). f_equal. destruct (Nat.eq_dec i k); [done|].
      rewrite Hj in E by lia. done.
  - rewrite IH. split.
    + intros (Hk & Ht & Hj). repeat split; [lia|lia|done|]. intros j Hj'.
      destruct (Nat.eq_dec i j) as [->|]; [done|]. apply Hj. lia.
    + intros (Hk & Ht & Hj).
      assert (i ≠ k) by congruence. repeat split; [lia|lia|done|]. intros j Hj'. apply Hj. lia.
Qed.

Lemma first_index_None test i n :
  first_index test i n = None ↔ ∀ j, i ≤ j < i + n → test j = false.
Proof.
  revert i. induction n as [|n IH]; intros i; simpl; [split; [lia|done]|].
  destruct (test i) eqn:E.
  - split; [done|]. intros H. rewrite H in E by lia. done.
  - rewrite IH. split; intros H j Hj.
    + destruct (Nat.eq_dec i j) as [->|]; [done|]. apply H. lia.
    + apply H. lia.
Qed.

Lemma match_lines_true key lines pattern :
  match_lines key lines pattern = true ↔
  length pattern ≤ length lines ∧ map key (take (length pattern) lines) = map key pattern.
Proof.
  revert lines. induction pattern as [|p ps IH]; intros lines; simpl; [split; [intros _; split; [lia|done]|done]|].
  destruct lines as [|l ls]; simpl; [split; [done|lia]|].
  case_bool_decide as E.
  - rewrite IH. split; intros [H1 H2]; (split; [lia|]); [by rewrite E, H2|]. by injection H2.
  - split; [done|]. intros [_ [= ? _]]. done.
Qed.

(** The tests of the passes decide occurrence at their level. *)
Lemma pass_test_spec level lines pattern i :
  i + length pattern ≤ length lines →
  match_lines (level_key level) (drop i lines) pattern = true ↔ occurs_at level lines pattern i.
Proof.
  intros Hi. rewrite match_lines_true, length_drop. unfold occurs_at.
  split; intros [? ?]; (split; [lia|done]).
Qed.

Lemma exact_test_spec lines pattern i :
  i + length pattern ≤ length lines →
  take (length pattern) (drop i lines) = pattern ↔ occurs_at 0 lines pattern i.
Proof.
  intros Hi. unfold occurs_at. simpl. rewrite !map_id. split; [done|by intros []].
Qed.

(** A stricter match is a match at every more lenient level. *)
Lemma level_mono_step level a b :
  map (level_key level) a = map (level_key level) b →
  map (level_key (S level)) a = map (level_key (S level)) b.
Proof.
  assert (H : ∃ f, ∀ s, level_key (S level) s = f (level_key level s)).
  { destruct level as [|[|[|]]]; simpl.
    - by exists trim_end.
    - exists trim. intros s. by rewrite trim_end_trim.
    - by exists (map normalise_char).
    - by exists id. }
  destruct H as [f Hf]. intros H. apply (f_equal (map f)) in H. rewrite !map_map in H.
  rewrite (map_ext _ _ Hf a), (map_ext _ _ Hf b). done.
Qed.

Lemma occurs_at_mono level level' lines pattern i :
  level ≤ level' → occurs_at level lines pattern i → occurs_at level' lines pattern i.
Proof.
  induction 1 as [|l' _ IH]; [done|]. intros [H1 H2]%IH. split; [done|]. by apply level_mono_step.
Qed.

(** ** The search, pass by pass *)

Definition seek_pass (lines pattern : list str) (start level : nat) : option nat :=
  first_index (λ i, match_lines (level_key level) (drop i lines) pattern) start
              (S (length lines - length pattern) - start).

(** The exact pass compares slices, the others compare keys: same test. *)
Lemma first_index_ext f g i n :
  (∀ j, i ≤ j < i + n → f j = g j) → first_index f i n = first_index g i n.
Proof.
  revert i. induction n as [|n IH]; intros i H; simpl; [done|]. rewrite H by lia.
  rewrite IH; [done|]. intros j Hj. apply H. lia.
Qed.

Lemma exact_pass lines pattern start :
  length pattern ≤ length lines →
  first_index (λ i, bool_decide (take (length pattern) (drop i lines) = pattern)) start
              (S (length lines - length pattern) - start)
  = seek_pass lines pattern start 0.
Proof.
  intros Hl. apply first_index_ext. intros j Hj.
  apply eq_true_iff_eq. rewrite bool_decide_eq_true.
  rewrite exact_test_spec, (pass_test_spec 0) by lia. done.
Qed.

Lemma seek_sequence_passes lines pattern start eof m :
  pattern ≠ [] → length pattern ≤ length lines →
  let s := search_start_of lines pattern start eof m in
  seek_sequence lines pattern start eof m =
  match seek_pass lines pattern s 0 with
  | Some i => Some i
  | None => match seek_pass lines pattern s 1 with
            | Some i => Some i
            | None => match seek_pass lines pattern s 2 with
                      | Some i => Some i
                      | None => seek_pass lines pattern s 3
                      end
            end
  end.
Proof.
  intros Hne Hl s. unfold seek_sequence. destruct pattern as [|p ps]; [done|].
  rewrite bool_decide_eq_false_2 by lia. cbv zeta. by rewrite exact_pass.
Qed.

Lemma seek_pass_Some lines pattern s level i :
  length pattern ≤ length lines → seek_pass lines pattern s level = Some i →
  s ≤ i ∧ occurs_at level lines pattern i
  ∧ ∀ j, s ≤ j < i → ¬ occurs_at level lines pattern j.
Proof.
  intros Hl (Hi & Ht & Hj)%first_index_Some. split; [lia|]. split.
  - apply pass_test_spec; [lia|done].
  - intros j Hj' Ho. apply pass_test_spec in Ho; [|lia]. rewrite Hj in Ho by lia. done.
Qed.

Lemma seek_pass_None lines pattern s level :
  length pattern ≤ length lines → seek_pass lines pattern s level = None →
  ∀ j, s ≤ j → ¬ occurs_at level lines pattern j.
Proof.
  intros Hl Hn j Hj Ho. pose proof Ho as [Hb _].
  rewrite <- pass_test_spec in Ho by lia. unfold seek_pass in Hn. rewrite first_index_None in Hn.
  rewrite Hn in Ho by lia. done.
Qed.

(** The result names the strictest level that has a match in range, and the
    least index at that level. *)
Definition best_match (lines pattern : list str) (s : nat) (r : option nat) : Prop :=
  match r with
  | Some i =>
      ∃ level, level ≤ 3 ∧ s ≤ i ∧ occurs_at level lines pattern i
        ∧ (∀ j, s ≤ j < i → ¬ occurs_at level lines pattern j)
        ∧ (∀ level' j, level' < level → s ≤ j → ¬ occurs_at level' lines pattern j)
  | None => ∀ level j, level ≤ 3 → s ≤ j → ¬ occurs_at level lines pattern j
  end.

Lemma seek_sequence_best lines pattern start eof m :
  pattern ≠ [] →
  best_match lines pattern (search_start_of lines pattern start eof m)
             (seek_sequence lines pattern start eof m).
Proof.
  intros Hne. destruct (decide (length pattern ≤ length lines)) as [Hl|Hl].
  2:{ unfold seek_sequence. destruct pattern as [|p ps]; [done|].
      rewrite bool_decide_eq_true_2 by lia. intros level j _ _ [Hb _]. lia. }
  rewrite seek_sequence_passes by done. set (s := search_start_of _ _ _ _ _). simpl.
  assert (Hp := λ level i, seek_pass_Some lines pattern s level i Hl).
  assert (Hn := λ level, seek_pass_None lines pattern s level Hl).
  assert (Hlev : ∀ level, (∀ level', level' < level → seek_pass lines pattern s level' = None) →
    ∀ level' j, level' < level → s ≤ j → ¬ occurs_at level' lines pattern j).
  { intros level H level' j Hlt Hj. apply Hn; auto. }
  destruct (seek_pass lines pattern s 0) as [i|] eqn:E0.
  { exists 0. destruct (Hp _ _ E0) as (? & ? & ?). split_and!; [lia|done..|lia]. }
  destruct (seek_pass lines pattern s 1) as [i|] eqn:E1.
  { exists 1. destruct (Hp _ _ E1) as (? & ? & ?). split_and!; [lia|done..|].
    apply Hlev. intros [|?] ?; [done|lia]. }
  destruct (seek_pass lines pattern s 2) as [i|] eqn:E2.
  { exists 2. destruct (Hp _ _ E2) as (? & ? & ?). split_and!; [lia|done..|].
    apply Hlev. intros [|[|?]] ?; [done|done|lia]. }
  destruct (seek_pass lines pattern s 3) as [i|] eqn:E3.
  { exists 3. destruct (Hp _ _ E3) as (? & ? & ?). split_and!; [lia|done..|].
    apply Hlev. intros [|[|[|?]]] ?; [done|done|done|lia]. }
  intros level j Hlv Hj Ho. apply (Hn 3 E3 j Hj). by apply (occurs_at_mono level 3).
Qed.

(** Bounds used by the clients. *)
Lemma seek_sequence_bounds lines pattern start eof m i :
  seek_sequence lines pattern start eof m = Some i →
  (pattern = [] ∧ i = start)
  ∨ (search_start_of lines pattern start eof m ≤ i ∧ i + length pattern ≤ length lines).
Proof.
  intros H. destruct (decide (pattern = [])) as [->|Hne].
  { left. injection H as <-. done. }
  right. pose proof (seek_sequence_best lines pattern start eof m Hne) as Hb. rewrite H in Hb.
  destruct Hb as (level & _ & Hs & [Hl _] & _). done.
Qed.

Lemma seek_sequence_preserve_bounds lines pattern start eof i :
  start ≤ length lines →
  seek_sequence lines pattern start eof PreserveLineEndings = Some i →
  start ≤ i ∧ i + length pattern ≤ length lines.
Proof.
  intros Hs [[-> ->]|[H1 H2]]%seek_sequence_bounds; [simpl; lia|].
  split; [|done]. unfold search_start_of in H1. destruct (_ && _); simpl in H1; lia.
Qed.

(** ** Properties *)

(** A search for a non-empty block returns the least index, at the
    strictest of the four levels that has an occurrence at or after the search
    start; it fails exactly when no level has one. *)
Theorem seek_sequence_best_match lines pattern start eof m :
  pattern ≠ [] →
  best_match lines pattern (search_start_of lines pattern start eof m)
             (seek_sequence lines pattern start eof m).
Proof. apply seek_sequence_best. Qed.

Lemma seek_sequence_best_match_witness :
  best_match [lit "a"; lit " b "; lit "b"] [lit "b"]
    (search_start_of [lit "a"; lit " b "; lit "b"] [lit "b"] 0 false NormalizeToLf) (Some 2).
Proof.
  apply (seek_sequence_best_match [lit "a"; lit " b "; lit "b"] [lit "b"] 0 false NormalizeToLf).
  discriminate.
Defined.

(** With the end-of-file flag a non-empty block is only ever found at the
    very end of the file: when it does not match there, the search fails and
    the region from [start] on is not tried. *)
Theorem seek_sequence_eof_only_at_end lines pattern start m i :
  pattern ≠ [] → seek_sequence lines pattern start true m = Some i →
  i + length pattern = length lines.
Proof.
  intros Hne H. destruct (seek_sequence_bounds _ _ _ _ _ _ H) as [[? _]|[Hs Hl]]; [done|].
  unfold search_start_of in Hs. rewrite bool_decide_eq_true_2 in Hs by lia.
  destruct m; simpl in Hs; lia.
Qed.

Lemma seek_sequence_eof_only_at_end_witness :
  seek_sequence [lit "x"; lit "a"] [lit "a"] 0 true NormalizeToLf = Some 1
  ∧ 1 + length [lit "a"] = length [lit "x"; lit "a"].
Proof.
  split; [reflexivity|].
  apply (seek_sequence_eof_only_at_end [lit "x"; lit "a"] [lit "a"] 0 NormalizeToLf);
    [discriminate|reflexivity].
Defined.

(** The documented fall back to a search from [start] does not happen. *)
Example seek_sequence_eof_no_fallback :
  seek_sequence [lit "a"; lit "x"] [lit "a"] 0 true NormalizeToLf = None
  ∧ seek_sequence [lit "a"; lit "x"] [lit "a"] 0 false NormalizeToLf = Some 0.
Proof. split; reflexivity. Qed.
