(* ===== verification/TextFile.v ===== *)
(** * Source files with their line endings

    Models [apply-patch/src/text_file.rs] ([SourceFile]: parse a file into
    lines that keep their terminators, replace line ranges, print it back) and
    states replacement of line ranges as one forward splice. *)

From S2P Require Import Prelude RustStr.
Open Scope list_scope.

(** [(start_index, old_len, new_lines)]. *)
Definition Replacement : Type := nat * nat * list str.

Inductive LineEnding := Lf | CrLf | Cr.

Definition line_ending_str (e : LineEnding) : str :=
  match e with Lf => [c_lf] | CrLf => [c_cr; c_lf] | Cr => [c_cr] end.

Record SourceLine := { line_text : str; line_end : option LineEnding }.

Record SourceFile := { source_lines : list SourceLine; preferred_ending : LineEnding }.

(** The [while cursor < contents.len()] loop.  [cur] is the text since
    [line_start]; the source scans bytes, and the two bytes it looks for are
    chars of their own. *)
Fixpoint parse_source_lines (cur rest : str) : list SourceLine :=
  match rest with
  | [] => if bool_decide (cur = []) then [] else [{| line_text := cur; line_end := None |}]
  | c :: rest1 =>
      if (c =? c_cr)%N then
        match rest1 with
        | d :: rest2 =>
            if (d =? c_lf)%N then {| line_text := cur; line_end := Some CrLf |} :: parse_source_lines [] rest2
            else {| line_text := cur; line_end := Some Cr |} :: parse_source_lines [] rest1
        | [] => {| line_text := cur; line_end := Some Cr |} :: parse_source_lines [] rest1
        end
      else if (c =? c_lf)%N then
        {| line_text := cur; line_end := Some Lf |} :: parse_source_lines [] rest1
      else parse_source_lines (cur ++ [c]) rest1
  end.

(** [preferred_ending.get_or_insert(ending)] over the lines, then [unwrap_or]. *)
Definition first_ending (ls : list SourceLine) : LineEnding :=
  default Lf (head (omap line_end ls)).

Definition parse_source (contents : str) : SourceFile :=
  let ls := parse_source_lines [] contents in
  {| source_lines := ls; preferred_ending := first_ending ls |}.

Definition line_texts (f : SourceFile) : list str := map line_text (source_lines f).

(** The rebuild loop over the replacements; [src] is the rest of the source
    iterator, which stands at [source_index].  [take(start_idx - source_index)]
    needs [start_idx >= source_index]. *)
Fixpoint rebuild {E} (mk : str → SourceLine) (src : list SourceLine) (source_index : nat)
    (reps : list Replacement) : res E (list SourceLine) :=
  match reps with
  | [] => Ok src
  | (start_idx, old_len, new_segment) :: reps' =>
      let? n := checked_sub start_idx source_index in
      let? tail := rebuild mk (drop old_len (drop n src)) (start_idx + old_len) reps' in
      Ok (take n src ++ map mk new_segment ++ tail)
  end.

Definition fill_ending (e : LineEnding) (l : SourceLine) : SourceLine :=
  {| line_text := line_text l; line_end := Some (default e (line_end l)) |}.

Definition source_apply_replacements {E} (f : SourceFile) (reps : list Replacement)
    : res E SourceFile :=
  let e := preferred_ending f in
  let? new_lines := rebuild (λ text, {| line_text := text; line_end := Some e |})
                            (source_lines f) 0 reps in
  Ok {| source_lines := map (fill_ending e) new_lines; preferred_ending := e |}.

Definition print_line (l : SourceLine) : str :=
  line_text l ++ match line_end l with Some e => line_ending_str e | None => [] end.

Definition into_contents (f : SourceFile) : str := concat (map print_line (source_lines f)).

(** ** Specification: replacing ranges of a list *)

(** [ordered_from k len reps]: the ranges come in order from [k] on, do not
    overlap and stay within a list of length [len]. *)
Fixpoint ordered_from (k len : nat) (reps : list Replacement) : Prop :=
  match reps with
  | [] => True
  | (s, o, _) :: reps' => k ≤ s ∧ s + o ≤ len ∧ ordered_from (s + o) len reps'
  end.

(** The forward splice of ordered replacements into the tail [src] of a list
    that starts at index [k]. *)
Fixpoint splice {A} (mk : str → A) (src : list A) (k : nat) (reps : list Replacement) : list A :=
  match reps with
  | [] => src
  | (s, o, new) :: reps' =>
      take (s - k) src ++ map mk new ++ splice mk (drop o (drop (s - k) src)) (s + o) reps'
  end.

(** ** Lemmas *)

Lemma ordered_from_weaken k k' len reps :
  k' ≤ k → ordered_from k len reps → ordered_from k' len reps.
Proof. destruct reps as [|[[s o] n] reps]; simpl; [done|]. intros H (? & ? & ?). split_and!; [lia|done|done]. Qed.

Lemma ordered_from_app k len r1 r2 m :
  ordered_from k m r1 → k ≤ m → m ≤ len → ordered_from m len r2 → ordered_from k len (r1 ++ r2).
Proof.
  revert k. induction r1 as [|[[s o] n] r1 IH]; intros k; simpl.
  - intros _ Hk _ H. by eapply ordered_from_weaken.
  - intros (? & ? & H1) Hk Hm H2. split_and!; [done|lia|]. apply IH; [done|lia|done|done].
Qed.

Lemma ordered_from_len k len len' reps :
  len ≤ len' → ordered_from k len reps → ordered_from k len' reps.
Proof.
  revert k. induction reps as [|[[s o] n] reps IH]; intros k Hl; simpl; [done|].
  intros (? & ? & ?). split_and!; [done|lia|eauto].
Qed.

(** Mapping over a splice. *)
Lemma map_splice {A B} (f : A → B) (mk : str → A) src k reps :
  map f (splice mk src k reps) = splice (λ s, f (mk s)) (map f src) k reps.
Proof.
  revert src k. induction reps as [|[[s o] new] reps IH]; intros src k; simpl; [done|].
  rewrite !map_app, map_map, IH. by rewrite !skipn_map, firstn_map.
Qed.

Lemma rebuild_splice {E} mk src k reps :
  ordered_from k (k + length src) reps → @rebuild E mk src k reps = Ok (splice mk src k reps).
Proof.
  revert src k. induction reps as [|[[s o] new] reps IH]; intros src k; simpl; [done|].
  intros (Hk & Hl & Ho). rewrite checked_sub_ok by done. simpl.
  rewrite IH; [done|]. rewrite !length_drop.
  replace (s + o + (length src - (s - k) - o)) with (k + length src) by lia. done.
Qed.

(** *** Parsing and printing *)

Lemma concat_parse_source_lines cur rest :
  concat (map print_line (parse_source_lines cur rest)) = cur ++ rest.
Proof.
  remember (length rest) as n eqn:Hn. revert cur rest Hn.
  induction n as [n IH] using lt_wf_ind. intros cur rest ->.
  destruct rest as [|c rest1]; simpl.
  - case_bool_decide; subst; simpl; [done|]. unfold print_line. simpl. by rewrite !app_nil_r.
  - destruct (N.eqb_spec c c_cr) as [->|].
    + destruct rest1 as [|d rest2]; [unfold print_line; simpl; by rewrite !app_nil_r|]. destruct (N.eqb_spec d c_lf) as [->|].
      * simpl. rewrite (IH (length rest2)) by (simpl; lia). unfold print_line. simpl.
        by rewrite <- app_assoc.
      * cbn [map concat]. rewrite (IH (length (d :: rest2))) by (simpl; lia).
        unfold print_line. simpl. by rewrite <- app_assoc.
    + destruct (N.eqb_spec c c_lf) as [->|].
      * simpl. rewrite (IH (length rest1)) by (simpl; lia). unfold print_line. simpl.
        by rewrite <- app_assoc.
      * rewrite (IH (length rest1)) by (simpl; lia). by rewrite <- app_assoc.
Qed.

Definition no_break (s : str) : Prop := (c_lf ∉ s) ∧ c_cr ∉ s.

Lemma parse_source_lines_text cur rest :
  no_break cur → Forall (λ l, no_break (line_text l)) (parse_source_lines cur rest).
Proof.
  remember (length rest) as n eqn:Hn. revert cur rest Hn.
  induction n as [n IH] using lt_wf_ind. intros cur rest -> Hc.
  assert (H0 : no_break []) by (split; apply not_elem_of_nil).
  destruct rest as [|c rest1]; simpl.
  - case_bool_decide; [by apply Forall_nil|by apply Forall_singleton].
  - destruct (N.eqb_spec c c_cr) as [->|].
    + destruct rest1 as [|d rest2]; [by apply Forall_singleton|]. destruct (N.eqb_spec d c_lf);
        (constructor; [done|eapply IH; [|done|done]; simpl; lia]).
    + destruct (N.eqb_spec c c_lf); [constructor; [done|]|]; (eapply IH; [|done|]; [simpl; lia|]); [done|].
      destruct Hc. split; rewrite elem_of_app, list_elem_of_singleton; naive_solver.
Qed.

(** Only the last line of a parsed file can be unterminated, and then it is not empty. *)
Lemma parse_source_lines_ends cur rest ls l :
  parse_source_lines cur rest = ls ++ [l] → Forall (λ x, is_Some (line_end x)) ls.
Proof.
  remember (length rest) as n eqn:Hn. revert cur rest ls Hn.
  induction n as [n IH] using lt_wf_ind. intros cur rest ls ->.
  assert (Hcons : ∀ x r', length r' < length rest → is_Some (line_end x) →
    x :: parse_source_lines [] r' = ls ++ [l] → Forall (λ x, is_Some (line_end x)) ls).
  { intros x r' Hr Hx H. destruct ls as [|y ls]; [done|]. simpl in H. injection H as -> H.
    constructor; [done|]. by eapply IH. }
  destruct rest as [|c rest1]; simpl.
  - case_bool_decide; [by destruct ls|]. destruct ls as [|y [|? ?]]; by intros [=].
  - destruct (N.eqb_spec c c_cr).
    + destruct rest1 as [|d rest2]; [by apply (Hcons _ []); simpl; [lia|eauto]|].
      destruct (N.eqb_spec d c_lf); apply Hcons; simpl; eauto; lia.
    + destruct (N.eqb_spec c c_lf); [apply Hcons; simpl; eauto; lia|]. eapply IH; [|done]. simpl; lia.
Qed.

(** What replacing ordered ranges does to a source file. *)
Lemma source_apply_ordered {E} f reps :
  ordered_from 0 (length (source_lines f)) reps →
  @source_apply_replacements E f reps =
  Ok {| source_lines :=
          map (fill_ending (preferred_ending f))
              (splice (λ text, {| line_text := text; line_end := Some (preferred_ending f) |})
                      (source_lines f) 0 reps);
        preferred_ending := preferred_ending f |}.
Proof. intros H. unfold source_apply_replacements. by rewrite rebuild_splice. Qed.

Lemma splice_texts f reps e :
  map line_text (map (fill_ending e)
    (splice (λ text, {| line_text := text; line_end := Some e |}) (source_lines f) 0 reps))
  = splice id (line_texts f) 0 reps.
Proof.
  rewrite map_map. unfold line_texts, id.
  rewrite (map_splice (λ x, line_text (fill_ending e x))). simpl. done.
Qed.

(** ** Properties *)

(** Parsing a file into lines and printing it back loses nothing, whatever
    mixture of line endings it has. *)
Theorem source_file_roundtrip contents : into_contents (parse_source contents) = contents.
Proof. apply (concat_parse_source_lines []). Qed.

(** Replacing ordered, non-overlapping line ranges of a source file never
    panics; untouched lines keep their text and ending, inserted lines get the
    preferred ending, and every line of the result is terminated. *)
Theorem source_apply_replacements_spec E f reps :
  ordered_from 0 (length (source_lines f)) reps →
  ∃ f', @source_apply_replacements E f reps = Ok f'
    ∧ line_texts f' = splice id (line_texts f) 0 reps
    ∧ source_lines f' =
        map (fill_ending (preferred_ending f))
            (splice (λ text, {| line_text := text; line_end := Some (preferred_ending f) |})
                    (source_lines f) 0 reps)
    ∧ Forall (λ l, is_Some (line_end l)) (source_lines f').
Proof.
  intros H. eexists. split; [by apply source_apply_ordered|]. split; [apply splice_texts|].
  split; [done|]. apply Forall_map, Forall_true. intros l. simpl. eauto.
Qed.

Lemma source_apply_replacements_spec_witness :
  into_contents <$> res_ok (@source_apply_replacements unit
    (parse_source (lit "a" ++ [c_cr; c_lf] ++ lit "b" ++ [c_lf] ++ lit "c")) [(1, 1, [lit "x"; lit "y"])])
  = Some (lit "a" ++ [c_cr; c_lf] ++ lit "x" ++ [c_cr; c_lf] ++ lit "y" ++ [c_cr; c_lf]
          ++ lit "c" ++ [c_cr; c_lf]).
Proof.
  destruct (source_apply_replacements_spec unit
    (parse_source (lit "a" ++ [c_cr; c_lf] ++ lit "b" ++ [c_lf] ++ lit "c"))
    [(1, 1, [lit "x"; lit "y"])]) as (f' & -> & _ & Hl & _).
  - vm_compute. repeat split; lia.
  - destruct f' as [ls e]. unfold into_contents. simpl in *. rewrite Hl. reflexivity.
Defined.
