(* ===== verification/FileUpdate.v ===== *)
(** * Updating a file from patch chunks

    Models [apply-patch/src/file_update.rs]: [compute_replacements],
    [apply_replacements] and the text transformation of
    [derive_new_contents_from_chunks], in both update modes. *)

From S2P Require Export RustIo.
From S2P Require Import Prelude RustStr RustOrd PatchParser SeekSequence TextFile.
Open Scope list_scope.

(** ** Errors ([apply-patch/src/lib.rs])

    [PE] stands for [PathUriParseError], which wraps an error of the [url]
    package. *)

Inductive ApplyPatchError (PE : Type) :=
  | EParseError (e : ParseError)
  | EIoError (context : str) (source : IoErr)
  | EComputeReplacements (message : str)
  | EPathUri (e : PE)
  | EImplicitInvocation.
Arguments EParseError {PE} e.
Arguments EIoError {PE} context source.
Arguments EComputeReplacements {PE} message.
Arguments EPathUri {PE} e.
Arguments EImplicitInvocation {PE}.

Definition is_empty_str (s : str) : bool := bool_decide (s = []).
(** [v.last().is_some_and(String::is_empty)]. *)
Definition ends_empty (l : list str) : bool :=
  match last l with Some s => is_empty_str s | None => false end.

Definition msg_no_context (ctx_line path : str) : str :=
  lit "Failed to find context '" ++ ctx_line ++ lit "' in " ++ path.
Definition msg_no_lines_found (path : str) (old : list str) : str :=
  lit "Failed to find expected lines in " ++ path ++ lit ":" ++ [c_lf] ++ join [c_lf] old.

Section FileUpdate.
Context {PE : Type}.

(** The final [if] after the context loop. *)
Definition context_tail (start_idx plen : nat) (new_slice : list str) (old_start new_start : nat)
    : res (ApplyPatchError PE) (list Replacement) :=
  if bool_decide (old_start ≠ plen) || bool_decide (new_start ≠ length new_slice) then
    let? n := checked_sub plen old_start in
    let? seg := slice new_start (length new_slice) new_slice in
    Ok [(start_idx + old_start, n, seg)]
  else Ok [].

(** The loop over [chunk.context_line_indices]. *)
Fixpoint context_loop (start_idx plen : nat) (new_slice : list str) (old_start new_start : nat)
    (ixs : list (nat * nat)) : res (ApplyPatchError PE) (list Replacement) :=
  match ixs with
  | [] => context_tail start_idx plen new_slice old_start new_start
  | (old_context, new_context) :: ixs' =>
      if bool_decide (plen ≤ old_context) || bool_decide (length new_slice ≤ new_context)
      then context_tail start_idx plen new_slice old_start new_start
      else
        let? reps :=
          if bool_decide (old_start ≠ old_context) || bool_decide (new_start ≠ new_context) then
            let? n := checked_sub old_context old_start in
            let? seg := slice new_start new_context new_slice in
            Ok [(start_idx + old_start, n, seg)]
          else Ok [] in
        let? rest := context_loop start_idx plen new_slice (old_context + 1) (new_context + 1) ixs' in
        Ok (reps ++ rest)
  end.

Definition insertion_index (lines : list str) (m : ApplyPatchFileUpdateMode) : nat :=
  match m with
  | NormalizeToLf => if ends_empty lines then length lines - 1 else length lines
  | PreserveLineEndings => length lines
  end.

(** Find the old lines, retrying without a final empty line: the pattern, the
    new lines and the index found. *)
Definition locate_chunk (lines : list str) (m : ApplyPatchFileUpdateMode) (line_index : nat)
    (chunk : UpdateFileChunk) : list str * list str * option nat :=
  let pattern := old_lines chunk in
  let new_slice := new_lines chunk in
  let found := seek_sequence lines pattern line_index (is_end_of_file chunk) m in
  if bool_decide (found = None) && ends_empty pattern then
    let pattern := take (length pattern - 1) pattern in
    let new_slice := if ends_empty new_slice then take (length new_slice - 1) new_slice else new_slice in
    (pattern, new_slice, seek_sequence lines pattern line_index (is_end_of_file chunk) m)
  else (pattern, new_slice, found).

(** One round of the loop over the chunks; the state is [line_index] and the
    replacements collected so far. *)
Definition chunk_step (lines : list str) (path : str) (m : ApplyPatchFileUpdateMode)
    (st : nat * list Replacement) (chunk : UpdateFileChunk)
    : res (ApplyPatchError PE) (nat * list Replacement) :=
  let '(line_index, replacements) := st in
  let? line_index :=
    match change_context chunk with
    | Some ctx_line =>
        match seek_sequence lines [ctx_line] line_index false m with
        | Some idx => Ok (idx + 1)
        | None => Err (EComputeReplacements (msg_no_context ctx_line path))
        end
    | None => Ok line_index
    end in
  match old_lines chunk with
  | [] => Ok (line_index, replacements ++ [(insertion_index lines m, 0, new_lines chunk)])
  | _ =>
      let '(pattern, new_slice, found) := locate_chunk lines m line_index chunk in
      match found with
      | Some start_idx =>
          let? reps := match m with
                       | NormalizeToLf => Ok [(start_idx, length pattern, new_slice)]
                       | PreserveLineEndings =>
                           context_loop start_idx (length pattern) new_slice 0 0
                                        (context_line_indices chunk)
                       end in
          Ok (start_idx + length pattern, replacements ++ reps)
      | None => Err (EComputeReplacements (msg_no_lines_found path (old_lines chunk)))
      end
  end.

(** [sort_by_key(|(index, _, _)| *index)], a stable sort. *)
Definition starts_leb (r x : Replacement) : bool := bool_decide (r.1.1 ≤ x.1.1).
Definition sort_replacements (l : list Replacement) : list Replacement := sort_stable starts_leb l.

Definition compute_replacements (lines : list str) (path : str) (chunks : list UpdateFileChunk)
    (m : ApplyPatchFileUpdateMode) : res (ApplyPatchError PE) (list Replacement) :=
  let? st := foldM (chunk_step lines path m) (0, []) chunks in
  Ok (sort_replacements st.2).

(** [if start_idx < lines.len() { lines.remove(start_idx) }], [n] times. *)
Fixpoint remove_at (start_idx n : nat) (lines : list str) : list str :=
  match n with
  | 0 => lines
  | S n' => remove_at start_idx n' (if bool_decide (start_idx < length lines)
                                    then delete start_idx lines else lines)
  end.

(** [lines.insert(start_idx + offset, ..)] for each new line; [Vec::insert]
    panics past the end. *)
Fixpoint insert_lines (idx : nat) (new : list str) (lines : list str)
    : res (ApplyPatchError PE) (list str) :=
  match new with
  | [] => Ok lines
  | x :: new' =>
      if bool_decide (idx ≤ length lines)
      then insert_lines (S idx) new' (take idx lines ++ x :: drop idx lines)
      else Panic
  end.

Definition apply_replacement (lines : list str) (r : Replacement)
    : res (ApplyPatchError PE) (list str) :=
  let '(start_idx, old_len, new_segment) := r in
  insert_lines start_idx new_segment (remove_at start_idx old_len lines).

Definition apply_replacements (lines : list str) (reps : list Replacement)
    : res (ApplyPatchError PE) (list str) :=
  foldM apply_replacement lines (rev reps).

(** The text transformation of [derive_new_contents_from_chunks]. *)
Definition update_contents (m : ApplyPatchFileUpdateMode) (path_text : str)
    (chunks : list UpdateFileChunk) (original_contents : str) : res (ApplyPatchError PE) str :=
  match m with
  | NormalizeToLf =>
      let original_lines := split_char c_lf original_contents in
      let original_lines := if ends_empty original_lines
                            then take (length original_lines - 1) original_lines
                            else original_lines in
      let? reps := compute_replacements original_lines path_text chunks m in
      let? new_lines := apply_replacements original_lines reps in
      let new_lines := if ends_empty new_lines then new_lines else new_lines ++ [[]] in
      Ok (join [c_lf] new_lines)
  | PreserveLineEndings =>
      let source_file := parse_source original_contents in
      let original_lines := line_texts source_file in
      let? reps := compute_replacements original_lines path_text chunks m in
      let? source_file := source_apply_replacements source_file reps in
      Ok (into_contents source_file)
  end.

End FileUpdate.
