(* ===== verification/FileUpdateFacts.v ===== *)
(** * Correctness of file updates

    The replacements computed from a patch are ordered and disjoint, applying
    them is one forward splice in both implementations, and updating a file
    never panics. *)

From S2P Require Import Prelude RustStr RustOrd PatchParser PatchParserFacts SeekSequence TextFile FileUpdate.
Open Scope list_scope.

Section Facts.
Context {PE : Type}.
Implicit Types (lines : list str) (reps : list Replacement).
Local Abbreviation err := (ApplyPatchError PE).

Definition rep_start (r : Replacement) : nat := r.1.1.
Definition rep_end (r : Replacement) : nat := r.1.1 + r.1.2.

(** ** Applying ordered replacements from the back *)

Lemma remove_at_app a b c :
  remove_at (length a) (length b) (a ++ b ++ c) = a ++ c.
Proof.
  induction b as [|x b IH]; [done|]. cbn [length remove_at].
  rewrite bool_decide_eq_true_2 by (rewrite !length_app; simpl; lia).
  change ((x :: b) ++ c) with (x :: (b ++ c)). rewrite delete_middle. apply IH.
Qed.

Lemma insert_lines_app a new c :
  @insert_lines PE (length a) new (a ++ c) = Ok (a ++ new ++ c).
Proof.
  revert a. induction new as [|x new IH]; intros a; simpl; [done|].
  rewrite bool_decide_eq_true_2 by (rewrite length_app; lia).
  rewrite take_app_length, drop_app_length.
  specialize (IH (a ++ [x])). rewrite length_app, Nat.add_1_r, <- app_assoc in IH. simpl in IH.
  rewrite IH. by rewrite <- app_assoc.
Qed.

Lemma apply_replacement_app a b c new :
  @apply_replacement PE (a ++ b ++ c) (length a, length b, new) = Ok (a ++ new ++ c).
Proof. unfold apply_replacement. rewrite remove_at_app. apply insert_lines_app. Qed.

(** Applying the replacements in reverse order is the forward splice. *)
Lemma apply_replacements_from k lines reps :
  k ≤ length lines → ordered_from k (length lines) reps →
  foldM (@apply_replacement PE) lines (rev reps)
  = Ok (take k lines ++ splice id (drop k lines) k reps).
Proof.
  revert k. induction reps as [|[[s o] new] reps IH]; intros k Hk; simpl.
  - intros _. by rewrite take_drop.
  - intros (Hs & Ho & Hr). rewrite foldM_app, (IH (s + o)) by done. cbn [res_bind].
    rewrite foldM_singleton, !drop_drop.
    replace (k + (s - k + o)) with (s + o) by lia.
    set (X := splice id (drop (s + o) lines) (s + o) reps).
    assert (Hl1 : length (take s lines) = s) by (rewrite length_take; lia).
    assert (Hl2 : length (take o (drop s lines)) = o) by (rewrite length_take, length_drop; lia).
    assert (Ht : take (s + o) lines = take s lines ++ take o (drop s lines))
      by by rewrite take_take_drop.
    rewrite Ht, <- app_assoc.
    replace (s, o, new) with (length (take s lines), length (take o (drop s lines)), new)
      by by rewrite Hl1, Hl2.
    rewrite apply_replacement_app, map_id, (app_assoc (take k lines)), take_take_drop.
    by replace (k + (s - k)) with s by lia.
Qed.

Lemma apply_replacements_splice lines reps :
  ordered_from 0 (length lines) reps →
  @apply_replacements PE lines reps = Ok (splice id lines 0 reps).
Proof. intros H. unfold apply_replacements. by rewrite (apply_replacements_from 0) by (lia || done). Qed.

(** ** The context loop *)

Lemma context_tail_ok start_idx plen new_slice o n :
  o ≤ plen → n ≤ length new_slice →
  ∃ reps, @context_tail PE start_idx plen new_slice o n = Ok reps
    ∧ ordered_from (start_idx + o) (start_idx + plen) reps.
Proof.
  intros Ho Hn. unfold context_tail. destruct (_ || _); [|by exists []].
  rewrite checked_sub_ok, slice_ok by lia. simpl. eexists. split; [done|]. simpl. lia.
Qed.

Lemma context_loop_ok start_idx plen new_slice o n ixs old new :
  o ≤ plen → n ≤ length new_slice → indices_ok o n ixs old new →
  ∃ reps, @context_loop PE start_idx plen new_slice o n ixs = Ok reps
    ∧ ordered_from (start_idx + o) (start_idx + plen) reps.
Proof.
  revert o n. induction ixs as [|[oc nc] ixs IH]; intros o n Ho Hn; cbn [indices_ok context_loop].
  - intros _. by apply context_tail_ok.
  - intros (H1 & H2 & _ & H3). destruct (_ || _) eqn:Eb; [by apply context_tail_ok|].
    apply orb_false_iff in Eb as [Eb1 Eb2]. apply bool_decide_eq_false in Eb1, Eb2.
    destruct (IH (oc + 1) (nc + 1)) as (rest & Hrest & Hord); [lia|lia|by rewrite !Nat.add_1_r|].
    destruct (_ || _); rewrite ?checked_sub_ok, ?slice_ok by lia; simpl; rewrite Hrest; simpl;
      eexists; (split; [done|]).
    + simpl. split_and!; [lia|lia|]. eapply ordered_from_weaken, Hord. lia.
    + eapply ordered_from_weaken, Hord. lia.
Qed.

(** Splicing the chunk's replacements into a block that equals the old lines
    gives the new lines: the context lines that stay are the same on both
    sides. *)
Lemma context_tail_splice start_idx pattern new_slice o n reps :
  o ≤ length pattern → n ≤ length new_slice →
  @context_tail PE start_idx (length pattern) new_slice o n = Ok reps →
  splice id (drop o pattern) (start_idx + o) reps = drop n new_slice.
Proof.
  intros Ho Hn. unfold context_tail. destruct (_ || _) eqn:E.
  - rewrite checked_sub_ok, slice_ok by lia. simpl. intros [= <-]. simpl.
    replace (start_idx + o - (start_idx + o)) with 0 by lia. simpl.
    rewrite !drop_drop, (drop_ge pattern), app_nil_r by lia. rewrite map_id. apply take_ge.
    rewrite length_drop. lia.
  - apply orb_false_iff in E as [E1 E2]. apply bool_decide_eq_false in E1, E2.
    intros [= <-]. simpl. rewrite !drop_ge by lia. done.
Qed.

Lemma context_loop_splice start_idx pattern new_slice o n ixs old new reps :
  o ≤ length pattern → n ≤ length new_slice → indices_ok o n ixs old new →
  pattern `prefix_of` old → new_slice `prefix_of` new →
  @context_loop PE start_idx (length pattern) new_slice o n ixs = Ok reps →
  splice id (drop o pattern) (start_idx + o) reps = drop n new_slice.
Proof.
  intros Ho Hn Hix [po ->] [pn ->]. revert o n Ho Hn Hix reps.
  induction ixs as [|[oc nc] ixs IH]; intros o n Ho Hn; cbn [indices_ok context_loop].
  - intros _ reps. by apply context_tail_splice.
  - intros (H1 & H2 & (l & Hlo & Hln) & H3) reps.
    destruct (_ || _) eqn:Eb; [by apply context_tail_splice|].
    apply orb_false_iff in Eb as [Eb1 Eb2]. apply bool_decide_eq_false in Eb1, Eb2.
    rewrite lookup_app_l in Hlo, Hln by lia.
    destruct (context_loop_ok start_idx (length pattern) new_slice (oc + 1) (nc + 1) ixs _ _
      ltac:(lia) ltac:(lia) ltac:(rewrite !Nat.add_1_r; exact H3)) as (rest & Hrest & Hord).
    specialize (IH (oc + 1) (nc + 1) ltac:(lia) ltac:(lia) ltac:(rewrite !Nat.add_1_r; exact H3) _ Hrest).
    assert (Hdo : drop oc pattern = l :: drop (oc + 1) pattern)
      by (rewrite Nat.add_1_r; by apply drop_S).
    assert (Hdn : drop nc new_slice = l :: drop (nc + 1) new_slice)
      by (rewrite Nat.add_1_r; by apply drop_S).
    (* the kept context line in front of the rest of the replacements *)
    assert (Hkeep : splice id (drop oc pattern) (start_idx + oc) rest = drop nc new_slice).
    { rewrite Hdn, <- IH, Hdo. destruct rest as [|[[s' o'] new'] rest]; [done|].
      simpl in Hord. simpl. replace (s' - (start_idx + oc)) with (S (s' - (start_idx + (oc + 1)))) by lia.
      done. }
    destruct (bool_decide (o ≠ oc) || bool_decide (n ≠ nc)) eqn:E.
    + rewrite checked_sub_ok, slice_ok by lia. simpl. rewrite Hrest. intros [= <-]. simpl.
      replace (start_idx + o - (start_idx + o)) with 0 by lia. simpl.
      rewrite !drop_drop, map_id. replace (o + (0 + (oc - o))) with oc by lia.
      replace (start_idx + o + (oc - o)) with (start_idx + oc) by lia. rewrite Hkeep.
      replace (drop nc new_slice) with (drop (nc - n) (drop n new_slice))
        by (rewrite drop_drop; f_equal; lia).
      apply take_drop.
    + apply orb_false_iff in E as [E1 E2]. apply bool_decide_eq_false in E1, E2.
      assert (o = oc) as -> by lia. assert (n = nc) as -> by lia.
      simpl. rewrite Hrest. intros [= <-]. done.
Qed.

(** ** Sorting *)

(** [r] was collected before [y]: it ends before [y] starts, or it is an
    insertion at the end of the file. *)
Definition precedes (len : nat) (r y : Replacement) : Prop :=
  rep_end r ≤ rep_start y ∨ (rep_start r = len ∧ rep_end r = len).

Lemma ordered_from_Forall k len reps :
  ordered_from k len reps → Forall (λ r, k ≤ rep_start r ∧ rep_end r ≤ len) reps.
Proof.
  revert k. induction reps as [|[[s o] n] reps IH]; intros k; simpl; [done|].
  intros (H1 & H2 & H3). constructor; [done|]. eapply Forall_impl; [by apply IH|].
  simpl. intros y [? ?]. lia.
Qed.

Lemma insert_replacement_ordered k len r reps :
  k ≤ rep_start r → rep_end r ≤ len → ordered_from k len reps → Forall (precedes len r) reps →
  ordered_from k len (insert_stable starts_leb r reps).
Proof.
  intros Hk Hr Ho Hp. revert k Hk Ho. induction Hp as [|x reps Hx Hp IH]; intros k Hk Ho.
  - destruct r as [[s o] n]. simpl. done.
  - destruct r as [[s o] n], x as [[s' o'] n']. simpl in *.
    unfold precedes, rep_start, rep_end, starts_leb in *. simpl in *. destruct Ho as (H1 & H2 & H3).
    case_bool_decide as Hs; simpl.
    + split_and!; [done|done| |done|done]. destruct Hx as [?|[? ?]]; lia.
    + split_and!; [done|done|]. apply IH; [|done]. destruct Hx as [?|[? ?]]; lia.
Qed.

Lemma sort_replacements_Forall P reps : Forall P reps → Forall P (sort_replacements reps).
Proof. unfold sort_replacements. by rewrite sort_stable_perm. Qed.

Lemma sort_replacements_ordered len reps :
  Forall (λ r, rep_end r ≤ len) reps → ForallOrdPairs (precedes len) reps →
  ordered_from 0 len (sort_replacements reps).
Proof.
  intros He Ho. induction Ho as [|r reps Hr Ho IH]; simpl; [done|].
  inversion_clear He. apply insert_replacement_ordered; [unfold rep_start; lia|done|by apply IH|].
  by apply sort_replacements_Forall.
Qed.

Lemma ForallOrdPairs_app {A} (R : A → A → Prop) l1 l2 :
  ForallOrdPairs R l1 → ForallOrdPairs R l2 → Forall (λ x, Forall (R x) l2) l1 →
  ForallOrdPairs R (l1 ++ l2).
Proof.
  intros H1 H2 H. induction H1 as [|x l1 Hx H1 IH]; simpl; [done|].
  inversion_clear H. constructor; [by apply Forall_app|by apply IH].
Qed.

Lemma ordered_from_pairs k len reps :
  ordered_from k len reps → ForallOrdPairs (precedes len) reps.
Proof.
  revert k. induction reps as [|[[s o] n] reps IH]; intros k; simpl; [constructor|].
  intros (H1 & H2 & H3). constructor; [|by eapply IH].
  eapply Forall_impl; [by apply ordered_from_Forall|]. intros y [? ?]. left. done.
Qed.

(** ** The loop over the chunks *)

(** What keeps the replacements of the update mode apart: the legacy mode must
    not be given an end-of-file chunk, nor an insertion when the file's last
    line is empty; the other mode needs well-formed context indices. *)
Definition chunk_safe (m : ApplyPatchFileUpdateMode) lines (c : UpdateFileChunk) : Prop :=
  match m with
  | NormalizeToLf => is_end_of_file c = false ∧ (old_lines c = [] → ends_empty lines = false)
  | PreserveLineEndings => chunk_wf c
  end.

(** The invariant of the loop state. *)
Definition loop_inv (len : nat) (st : nat * list Replacement) : Prop :=
  st.1 ≤ len ∧ Forall (λ r, rep_end r ≤ len) st.2
  ∧ Forall (λ r, rep_end r ≤ st.1 ∨ (rep_start r = len ∧ rep_end r = len)) st.2
  ∧ ForallOrdPairs (precedes len) st.2.

Lemma loop_inv_skip len li li' reps :
  li ≤ li' → li' ≤ len → loop_inv len (li, reps) → loop_inv len (li', reps).
Proof.
  intros H1 H2 (_ & Ha & Hb & Hc). simpl in *. split_and!; [done|done| |done].
  eapply Forall_impl; [exact Hb|]. simpl. intros r [?|?]; [left; lia|by right].
Qed.

Lemma loop_inv_append len li reps new :
  loop_inv len (li, reps) → loop_inv len (li, reps ++ [(len, 0, new)]).
Proof.
  intros (Hl & Ha & Hb & Hc). simpl in *. split_and!; simpl; [done| | |].
  - apply Forall_app. split; [done|]. constructor; [unfold rep_end; simpl; lia|done].
  - apply Forall_app. split; [done|]. constructor; [|done]. right.
    unfold rep_end, rep_start. simpl. lia.
  - apply ForallOrdPairs_app; [done|by repeat constructor|].
    eapply Forall_impl; [exact Ha|]. simpl. intros r Hr. constructor; [|done].
    left. unfold rep_start. simpl. lia.
Qed.

Lemma loop_inv_located len li li' reps new :
  li ≤ li' → li' ≤ len → ordered_from li li' new →
  loop_inv len (li, reps) → loop_inv len (li', reps ++ new).
Proof.
  intros H1 H2 Ho (_ & Ha & Hb & Hc). simpl in *.
  pose proof (ordered_from_Forall _ _ _ Ho) as Hf. rewrite Forall_forall in Hf.
  split_and!; simpl; [done| | |].
  - apply Forall_app. split; [done|]. apply Forall_forall. intros r Hr. specialize (Hf r Hr). lia.
  - apply Forall_app. split.
    + eapply Forall_impl; [exact Hb|]. simpl. intros r [?|?]; [left; lia|by right].
    + apply Forall_forall. intros r Hr. specialize (Hf r Hr). left. lia.
  - apply ForallOrdPairs_app; [done| |].
    + eapply ordered_from_pairs, (ordered_from_len _ _ len); [|done]. done.
    + eapply Forall_impl; [exact Hb|]. simpl. intros r Hr. apply Forall_forall. intros y Hy.
      specialize (Hf y Hy). destruct Hr as [?|?]; [left; lia|by right].
Qed.

Lemma seek_bounds lines pattern start eof m i :
  start ≤ length lines → (m = NormalizeToLf → eof = false) →
  seek_sequence lines pattern start eof m = Some i →
  start ≤ i ∧ i + length pattern ≤ length lines.
Proof.
  intros Hs Hm [[-> ->]|[H1 H2]]%seek_sequence_bounds; [simpl; lia|].
  split; [|done]. unfold search_start_of in H1. destruct m.
  - by rewrite (Hm eq_refl) in H1.
  - destruct (_ && _); simpl in H1; lia.
Qed.

(** What the retry leaves of the two sides: prefixes of them. *)
Lemma locate_chunk_prefix lines m li c pattern new_slice found :
  locate_chunk lines m li c = (pattern, new_slice, found) →
  pattern `prefix_of` old_lines c ∧ new_slice `prefix_of` new_lines c
  ∧ found = seek_sequence lines pattern li (is_end_of_file c) m.
Proof.
  unfold locate_chunk. destruct (_ && _); [|by intros [= <- <- <-]].
  intros [= <- <- <-]. split_and!; [|destruct (ends_empty _)|done];
    try apply prefix_take; done.
Qed.

Lemma chunk_step_ok lines path m c st :
  chunk_safe m lines c → loop_inv (length lines) st →
  match @chunk_step PE lines path m st c with
  | Ok st' => loop_inv (length lines) st' ∧ st.1 ≤ st'.1
  | Err (EComputeReplacements _) => True
  | _ => False
  end.
Proof.
  intros Hsafe Hinv. destruct st as [li reps]. unfold chunk_step.
  (* the context line *)
  assert (Hctx : match (match change_context c with
      | Some ctx_line => match seek_sequence lines [ctx_line] li false m with
                         | Some idx => Ok (idx + 1)
                         | None => Err (EComputeReplacements (msg_no_context ctx_line path)) end
      | None => Ok li end) : res err nat with
      | Ok li' => loop_inv (length lines) (li', reps) ∧ li ≤ li'
      | Err (EComputeReplacements _) => True
      | _ => False end).
  { destruct (change_context c) as [ctx|]; [|done].
    destruct (seek_sequence _ _ _ _ _) as [idx|] eqn:E; [|done].
    apply seek_bounds in E; [|by destruct Hinv|done]. simpl in E.
    split; [|lia]. eapply loop_inv_skip, Hinv; lia. }
  destruct (match change_context c with Some _ => _ | None => _ end) as [li'|[]|]; simpl; try done.
  clear Hinv. destruct Hctx as [Hinv Hli].
  destruct (old_lines c) as [|o os] eqn:Eo.
  - split; [|done]. replace (insertion_index lines m) with (length lines); [by apply loop_inv_append|].
    destruct m; [|done]. simpl in *. destruct Hsafe as [_ Hs]. by rewrite Hs.
  - destruct (locate_chunk lines m li' c) as [[pattern new_slice] found] eqn:El.
    destruct (locate_chunk_prefix _ _ _ _ _ _ _ El) as (Hpo & Hpn & Hf).
    destruct found as [i|]; [|done]. symmetry in Hf.
    apply seek_bounds in Hf; [|by destruct Hinv|by destruct m; [destruct Hsafe|]].
    assert (Hloc : ∃ new, match m with
               | NormalizeToLf => Ok [(i, length pattern, new_slice)]
               | PreserveLineEndings =>
                   context_loop i (length pattern) new_slice 0 0 (context_line_indices c)
               end = (Ok new : res err _) ∧ ordered_from li' (i + length pattern) new).
    { destruct m; [eexists; split; [done|]; simpl; lia|].
      destruct (context_loop_ok i (length pattern) new_slice 0 0 (context_line_indices c)
                  (old_lines c) (new_lines c)) as (new & -> & Ho); [lia|lia|done|].
      exists new. split; [done|]. eapply ordered_from_weaken, Ho. lia. }
    destruct Hloc as (new & -> & Ho). simpl. split; [|lia].
    eapply loop_inv_located, Hinv; [lia|lia|done].
Qed.

Lemma chunks_ok lines path m cs st :
  Forall (chunk_safe m lines) cs → loop_inv (length lines) st →
  match foldM (@chunk_step PE lines path m) st cs with
  | Ok st' => loop_inv (length lines) st'
  | Err (EComputeReplacements _) => True
  | _ => False
  end.
Proof.
  intros Hs. revert st. induction Hs as [|c cs Hc Hs IH]; intros st Hinv; simpl; [done|].
  pose proof (chunk_step_ok lines path m c st Hc Hinv) as H.
  destruct (chunk_step _ _ _ _ _) as [st'|[]|]; simpl; try done. apply IH. apply H.
Qed.

Lemma loop_inv_init len : loop_inv len (0, []).
Proof. split_and!; simpl; [lia|done|done|constructor]. Qed.

(** The outcome of [compute_replacements]: ordered replacements or a
    replacement error, never a panic. *)
Lemma compute_replacements_outcome lines path cs m :
  Forall (chunk_safe m lines) cs →
  match @compute_replacements PE lines path cs m with
  | Ok reps => ordered_from 0 (length lines) reps
  | Err (EComputeReplacements _) => True
  | _ => False
  end.
Proof.
  intros Hs. unfold compute_replacements.
  pose proof (chunks_ok lines path m cs (0, []) Hs (loop_inv_init _)) as H.
  destruct (foldM _ _ _) as [st|[]|]; simpl; try done.
  destruct H as (_ & ? & _ & ?). by apply sort_replacements_ordered.
Qed.

(** ** Splices into a larger list *)

Lemma splice_app_r {A} (mk : str → A) src b k reps :
  ordered_from k (k + length src) reps → splice mk (src ++ b) k reps = splice mk src k reps ++ b.
Proof.
  revert src k. induction reps as [|[[s o] new] reps IH]; intros src k; simpl; [done|].
  intros (H1 & H2 & H3). rewrite take_app_le, !drop_app_le by (rewrite ?length_drop; lia). rewrite IH; [by rewrite !app_assoc|].
  rewrite !length_drop. replace (s + o + (length src - (s - k) - o)) with (k + length src) by lia. done.
Qed.

Lemma splice_app_l {A} (mk : str → A) a src k len reps :
  ordered_from (k + length a) len reps →
  splice mk (a ++ src) k reps = a ++ splice mk src (k + length a) reps.
Proof.
  destruct reps as [|[[s o] new] reps]; simpl; [done|]. intros (H1 & H2 & H3).
  rewrite take_app_ge, !drop_app_ge by lia.
  replace (s - k - length a) with (s - (k + length a)) by lia. by rewrite <- app_assoc.
Qed.

(** ** Trailing newline *)

Lemma concat_terminated ls :
  Forall (λ l, is_Some (line_end l)) ls →
  concat (map print_line ls) = []
  ∨ ∃ r c, concat (map print_line ls) = r ++ [c] ∧ (c = c_lf ∨ c = c_cr).
Proof.
  intros H. destruct (snoc_inv ls) as [->|(ls' & l & ->)]; [by left|]. right.
  apply Forall_app in H as [_ H]. inversion_clear H as [|? ? [e He] _].
  rewrite map_app, concat_app. simpl. rewrite app_nil_r. unfold print_line at 2. rewrite He.
  destruct e; simpl.
  - exists (concat (map print_line ls') ++ line_text l), c_lf. rewrite <- app_assoc. auto.
  - exists (concat (map print_line ls') ++ line_text l ++ [c_cr]), c_lf.
    rewrite <- !app_assoc. auto.
  - exists (concat (map print_line ls') ++ line_text l), c_cr. rewrite <- app_assoc. auto.
Qed.

Lemma join_terminated ls :
  ends_empty ls = true → join [c_lf] ls = [] ∨ ∃ r, join [c_lf] ls = r ++ [c_lf].
Proof.
  unfold ends_empty. intros H. destruct (snoc_inv ls) as [->|(ls' & l & ->)]; [by left|].
  rewrite last_snoc in H. apply bool_decide_eq_true in H as ->. clear.
  induction ls' as [|x ls' IH]; [by left|]. right.
  destruct ls' as [|y ls']; [by exists x|].
  change ((x :: y :: ls') ++ [[]]) with (x :: (y :: ls') ++ [[]]).
  change (x :: (y :: ls') ++ [[]]) with (x :: y :: (ls' ++ [[]])). rewrite join_cons2.
  change (y :: ls' ++ [[]]) with ((y :: ls') ++ [@nil N]).
  destruct IH as [->|[r ->]]; [by exists x|]. exists (x ++ [c_lf] ++ r). by rewrite <- !app_assoc.
Qed.

Lemma line_texts_length f : length (line_texts f) = length (source_lines f).
Proof. apply length_map. Qed.

End Facts.

(** ** Properties *)

(** For the hunks of a patch that parses, computing the replacements in
    the line-ending preserving mode either fails with a replacement error or
    gives replacements that are ordered, disjoint and inside the file, which is
    what [SourceFile::apply_replacements] relies on; it never panics. *)
Theorem parsed_chunks_replacements_ordered PE patch a path mv chunks lines name :
  parse_patch patch = Ok a → UpdateFile path mv chunks ∈ args_hunks a →
  match @compute_replacements PE lines name chunks PreserveLineEndings with
  | Ok reps => ordered_from 0 (length lines) reps
  | Err (EComputeReplacements _) => True
  | _ => False
  end.
Proof.
  intros [_ Hwf]%parse_patch_hunks_ok Hin. rewrite Forall_forall in Hwf.
  apply compute_replacements_outcome, (Hwf _ Hin).
Qed.

Definition sample_patch : str :=
  join [c_lf] [lit "*** Begin Patch"; lit "*** Update File: f"; lit "@@"; lit " a"; lit "-b";
               lit "+x"; lit " c"; lit "*** End Patch"].

Definition sample_chunk : UpdateFileChunk :=
  {| change_context := None; old_lines := [lit "a"; lit "b"; lit "c"];
     new_lines := [lit "a"; lit "x"; lit "c"]; context_line_indices := [(0, 0); (2, 2)];
     is_end_of_file := false |}.
Definition sample_args : ApplyPatchArgs :=
  {| args_patch := sample_patch; args_hunks := [UpdateFile (lit "f") None [sample_chunk]];
     args_workdir := None; args_environment_id := None |}.

Lemma sample_parses : parse_patch sample_patch = Ok sample_args.
Proof. vm_compute. reflexivity. Qed.

Lemma parsed_chunks_replacements_ordered_witness :
  @compute_replacements unit [lit "a"; lit "b"; lit "c"] [] [sample_chunk] PreserveLineEndings
    = Ok [(1, 1, [lit "x"])]
  ∧ ordered_from 0 3 [(1, 1, [lit "x"])].
Proof.
  assert (E : @compute_replacements unit [lit "a"; lit "b"; lit "c"] [] [sample_chunk]
                PreserveLineEndings = Ok [(1, 1, [lit "x"])]) by (vm_compute; reflexivity).
  pose proof (parsed_chunks_replacements_ordered unit sample_patch sample_args (lit "f") None
    [sample_chunk] [lit "a"; lit "b"; lit "c"] [] sample_parses (list_elem_of_here _ _)) as H.
  rewrite E in H. split; [exact E|exact H].
Defined.

(** The legacy in-place algorithm (replacements applied from the back by
    [remove] and [insert]) and the rebuild of [SourceFile] give the same line
    texts on ordered replacements, namely the forward splice; neither panics. *)
Theorem replacements_implementations_agree PE f reps :
  ordered_from 0 (length (source_lines f)) reps →
  ∃ f', @source_apply_replacements (ApplyPatchError PE) f reps = Ok f'
    ∧ @apply_replacements PE (line_texts f) reps = Ok (line_texts f')
    ∧ line_texts f' = splice id (line_texts f) 0 reps.
Proof.
  intros H. eexists. split; [by apply source_apply_ordered|].
  rewrite apply_replacements_splice by by rewrite line_texts_length.
  unfold line_texts at 2 3. simpl. by rewrite splice_texts.
Qed.

Lemma replacements_implementations_agree_witness :
  @apply_replacements unit [lit "a"; lit "b"] [(0, 1, [lit "x"; lit "y"]); (2, 0, [lit "z"])]
  = Ok [lit "x"; lit "y"; lit "b"; lit "z"].
Proof.
  destruct (replacements_implementations_agree unit (parse_source (lit "a" ++ [c_lf] ++ lit "b"))
    [(0, 1, [lit "x"; lit "y"]); (2, 0, [lit "z"])]) as (f' & _ & H1 & H2).
  - vm_compute. repeat split; lia.
  - rewrite H2 in H1. exact H1.
Defined.

(** In the preserving mode a chunk whose old lines were matched exactly is
    replaced by exactly its new lines, whatever context lines are kept in
    place: splicing its replacements into the file gives the file with the
    matched block exchanged. *)
Theorem chunk_exact_replacement PE a b pattern new_slice c reps :
  chunk_wf c → pattern `prefix_of` old_lines c → new_slice `prefix_of` new_lines c →
  @context_loop PE (length a) (length pattern) new_slice 0 0 (context_line_indices c) = Ok reps →
  splice id (a ++ pattern ++ b) 0 reps = a ++ new_slice ++ b.
Proof.
  intros Hwf Hp Hn Hl.
  destruct (context_loop_ok (PE := PE) (length a) (length pattern) new_slice 0 0 (context_line_indices c)
              (old_lines c) (new_lines c)) as (reps' & Hr & Ho); [lia|lia|done|].
  rewrite Hl in Hr. injection Hr as <-. rewrite Nat.add_0_r in Ho.
  rewrite (splice_app_l _ _ _ 0 _ _ Ho), splice_app_r by done. simpl. f_equal. f_equal.
  pose proof (context_loop_splice (PE := PE) (length a) pattern new_slice 0 0 _ _ _ reps
                ltac:(lia) ltac:(lia) Hwf Hp Hn Hl) as H.
  by rewrite Nat.add_0_r, !drop_0 in H.
Qed.

Lemma chunk_exact_replacement_witness :
  splice id ([lit "p"] ++ old_lines sample_chunk ++ [lit "q"]) 0 [(2, 1, [lit "x"])]
  = [lit "p"] ++ new_lines sample_chunk ++ [lit "q"].
Proof.
  apply (chunk_exact_replacement unit [lit "p"] [lit "q"] (old_lines sample_chunk)
           (new_lines sample_chunk) sample_chunk); try reflexivity.
  vm_compute. repeat split; try lia; eauto.
Defined.

(** Updating a file with the chunks of a patch that parses never panics in
    the preserving mode, and the new contents are the old file's lines with
    the computed ranges spliced, every line terminated. *)
Theorem update_contents_preserve PE patch a path mv chunks name contents :
  parse_patch patch = Ok a → UpdateFile path mv chunks ∈ args_hunks a →
  match @update_contents PE PreserveLineEndings name chunks contents with
  | Ok new =>
      ∃ reps, let f := parse_source contents in
        compute_replacements (line_texts f) name chunks PreserveLineEndings
          = (Ok reps : res (ApplyPatchError PE) _)
        ∧ ordered_from 0 (length (source_lines f)) reps
        ∧ new = concat (map print_line (map (fill_ending (preferred_ending f))
                  (splice (λ t, {| line_text := t; line_end := Some (preferred_ending f) |})
                          (source_lines f) 0 reps)))
  | Err (EComputeReplacements _) => True
  | _ => False
  end.
Proof.
  intros [_ Hwf]%parse_patch_hunks_ok Hin. rewrite Forall_forall in Hwf. specialize (Hwf _ Hin).
  unfold update_contents. cbv zeta.
  pose proof (compute_replacements_outcome (PE := PE) (line_texts (parse_source contents)) name chunks
                PreserveLineEndings Hwf) as H.
  destruct (compute_replacements _ _ _ _) as [reps|[]|] eqn:E; simpl; try done.
  rewrite line_texts_length in H. rewrite source_apply_ordered by done. simpl.
  exists reps. done.
Qed.

Lemma update_contents_preserve_witness :
  ∃ reps,
    @compute_replacements unit [lit "a"; lit "b"; lit "c"] [] [sample_chunk] PreserveLineEndings
      = Ok reps
    ∧ ordered_from 0 3 reps.
Proof.
  pose proof (update_contents_preserve unit sample_patch sample_args (lit "f") None
    [sample_chunk] [] (lit "a" ++ [c_cr; c_lf] ++ lit "b" ++ [c_lf] ++ lit "c")
    sample_parses (list_elem_of_here _ _)) as H.
  destruct (update_contents _ _ _ _) as [new|[]|] eqn:E; try done.
  destruct H as (reps & H1 & H2 & _). exists reps. split; [exact H1|exact H2].
Defined.

Example update_contents_preserve_example :
  @update_contents unit PreserveLineEndings [] [sample_chunk]
    (lit "a" ++ [c_cr; c_lf] ++ lit "b" ++ [c_lf] ++ lit "c")
  = Ok (lit "a" ++ [c_cr; c_lf] ++ lit "x" ++ [c_cr; c_lf] ++ lit "c" ++ [c_cr; c_lf]).
Proof. vm_compute. reflexivity. Qed.

(** The contents an update writes are empty or end in a line break, in
    both modes. *)
Theorem update_contents_terminated PE m name chunks contents new :
  @update_contents PE m name chunks contents = Ok new →
  new = [] ∨ ∃ r c, new = r ++ [c] ∧ (c = c_lf ∨ c = c_cr).
Proof.
  unfold update_contents. destruct m; cbv zeta; rewrite res_bind_Ok; intros (reps & _ & H).
  - apply res_bind_Ok in H as (ls & _ & [= <-]).
    assert (He : ends_empty (if ends_empty ls then ls else ls ++ [[]]) = true).
    { destruct (ends_empty ls) eqn:E; [done|]. unfold ends_empty. by rewrite last_snoc. }
    destruct (join_terminated _ He) as [->|[r ->]]; [by left|]. right. eauto.
  - apply res_bind_Ok in H as (f & Hf & [= <-]). unfold source_apply_replacements in Hf.
    apply res_bind_Ok in Hf as (ls & _ & [= <-]). unfold into_contents. simpl.
    apply concat_terminated, Forall_map, Forall_true. simpl. eauto.
Qed.

Lemma update_contents_terminated_witness :
  ∃ new, @update_contents unit NormalizeToLf [] [default_chunk] (lit "a") = Ok new
    ∧ (new = [] ∨ ∃ r c, new = r ++ [c] ∧ (c = c_lf ∨ c = c_cr)).
Proof.
  eexists. split; [vm_compute; reflexivity|].
  apply (update_contents_terminated unit NormalizeToLf [] [default_chunk] (lit "a")).
  vm_compute. reflexivity.
Defined.

(** ** The legacy mode can lose an edit

    In the [NormalizeToLf] mode an end-of-file chunk is located without regard
    to the chunks before it, and an insertion goes before a final empty line;
    the replacements can then overlap, and the one applied first is undone. *)

Definition overlap_chunks : list UpdateFileChunk :=
  [{| change_context := None; old_lines := [lit "a"; lit "b"]; new_lines := [lit "c"; lit "d"];
      context_line_indices := []; is_end_of_file := false |};
   {| change_context := None; old_lines := [lit "b"]; new_lines := [lit "e"];
      context_line_indices := []; is_end_of_file := true |}].

(** Two chunks of one update can claim the same line: the legacy mode then
    reports success but silently drops the second edit, where the preserving
    mode reports that the lines were not found. *)
Theorem legacy_eof_chunk_lost :
  @update_contents unit NormalizeToLf (lit "f") overlap_chunks
    (lit "a" ++ [c_lf] ++ lit "b" ++ [c_lf])
  = Ok (lit "c" ++ [c_lf] ++ lit "d" ++ [c_lf])
  ∧ @update_contents unit PreserveLineEndings (lit "f") overlap_chunks
    (lit "a" ++ [c_lf] ++ lit "b" ++ [c_lf])
  = Err (EComputeReplacements (msg_no_lines_found (lit "f") [lit "b"])).
Proof. split; vm_compute; reflexivity. Qed.

Definition blank_line_chunks : list UpdateFileChunk :=
  [{| change_context := None; old_lines := [lit "a"; []]; new_lines := [lit "b"; []];
      context_line_indices := [(1, 1)]; is_end_of_file := false |};
   {| change_context := None; old_lines := []; new_lines := [lit "x"];
      context_line_indices := []; is_end_of_file := false |}].

(** When the file's last line is blank and a chunk replaces it, a later
    insertion at the end falls inside the replaced range: the legacy mode
    silently drops the inserted line, the preserving mode appends it. *)
Theorem legacy_insertion_lost :
  @update_contents unit NormalizeToLf (lit "f") blank_line_chunks (lit "a" ++ [c_lf; c_lf])
  = Ok (lit "b" ++ [c_lf; c_lf])
  ∧ @update_contents unit PreserveLineEndings (lit "f") blank_line_chunks (lit "a" ++ [c_lf; c_lf])
  = Ok (lit "b" ++ [c_lf; c_lf] ++ lit "x" ++ [c_lf]).
Proof. split; vm_compute; reflexivity. Qed.
