(* ===== verification/ApplyPatch.v ===== *)
(** * Applying a patch to a file system

    Models [apply-patch/src/lib.rs]: the delta of committed changes, the
    application of every hunk through the [ExecutorFileSystem] interface, the
    error paths with their exactness bookkeeping, and the reports on stdout and
    stderr; and [derive_new_contents_from_chunks] of [file_update.rs]. *)

From stdpp Require Import gmap pretty.
From S2P Require Import Prelude RustStr PatchParser SeekSequence FileUpdate.
Open Scope list_scope.

(** ** Interfaces *)

(** The operations of [PathUri] (package [codex-utils-path-uri]) used here.
    [path_error_display] is the [Display] text of [PathUriParseError]. *)
Class PathUriOps (P PE : Type) := {
  path_join : P → str → PE + P;
  path_parent : P → option P;
  inferred_native_path_string : P → str;
  path_error_display : PE → str;
}.

Record FileMetadata := { is_directory : bool; is_file : bool; is_symlink : bool }.

(** The operations of the trait [ExecutorFileSystem] used here, in state
    passing style over the file system's state [W]. The first argument of every
    operation is the option [follow_symlinks]; the sandbox context, which the
    code hands through unchanged, belongs to the instance. [read_file_text]
    decodes UTF-8 and every write encodes a string, so files are read and
    written as text. *)
Class ExecutorFileSystem (P W : Type) := {
  read_file_text : bool → P → W → io_result str;
  get_metadata : bool → P → W → io_result FileMetadata;
  write_file : bool → P → str → W → io_result unit * W;
  create_directory : bool → P → W → io_result unit * W;
  remove : bool → P → W → io_result unit * W;
}.

(** [impl std::io::Write] for the two report streams: [writeln!]. *)
Class Writer (O : Type) := writeln : str → O → io_result unit * O.

(** ** Options, deltas and failures *)

Record ApplyPatchOptions := {
  update_file_mode : ApplyPatchFileUpdateMode;
  follow_symlinks : bool;
}.

Definition default_options : ApplyPatchOptions :=
  {| update_file_mode := NormalizeToLf; follow_symlinks := true |}.

(** [apply_patch_file_update_mode_from_env], given the variable's value. *)
Definition apply_patch_file_update_mode_from_env (var : option str) : ApplyPatchFileUpdateMode :=
  if bool_decide (var = Some (lit "1")) then PreserveLineEndings else NormalizeToLf.

Inductive AppliedPatchFileChange (P : Type) :=
  | ChAdd (content : str) (overwritten_content : option str)
  | ChDelete (content : str)
  | ChUpdate (move_path : option P) (old_content : str)
      (overwritten_move_content : option str) (new_content : str).
Arguments ChAdd {P} content overwritten_content.
Arguments ChDelete {P} content.
Arguments ChUpdate {P} move_path old_content overwritten_move_content new_content.

Record AppliedPatchChange (P : Type) := {
  change_path : P;
  change_of : AppliedPatchFileChange P;
}.
Arguments change_path {P} a.
Arguments change_of {P} a.
Arguments Build_AppliedPatchChange {P} _ _.

Record AppliedPatchDelta (P : Type) := {
  changes : list (AppliedPatchChange P);
  exact : bool;
}.
Arguments changes {P} a.
Arguments exact {P} a.
Arguments Build_AppliedPatchDelta {P} _ _.

(** [AppliedPatchDelta::empty], also its [Default]. *)
Definition delta_empty {P} : AppliedPatchDelta P := Build_AppliedPatchDelta [] true.

(** [AppliedPatchDelta::append]. *)
Definition delta_append {P} (d other : AppliedPatchDelta P) : AppliedPatchDelta P :=
  Build_AppliedPatchDelta (changes d ++ changes other) (exact d && exact other).

Record ApplyPatchFailure (P PE : Type) := {
  failure_error : ApplyPatchError PE;
  failure_delta : AppliedPatchDelta P;
}.
Arguments failure_error {P PE} a.
Arguments failure_delta {P PE} a.
Arguments Build_ApplyPatchFailure {P PE} _ _.

(** [ApplyPatchFailure::without_delta]. *)
Definition without_delta {P PE} (e : ApplyPatchError PE) : ApplyPatchFailure P PE :=
  Build_ApplyPatchFailure e delta_empty.

Record AffectedPaths := { added : list str; modified : list str; deleted : list str }.

(** [anyhow::Error]: the error it was made from, or a context over one. *)
Inductive AnyhowError (PE : Type) :=
  | AnyMsg (message : str)
  | AnyIo (e : IoErr)
  | AnyApply (e : ApplyPatchError PE)
  | AnyPath (e : PE)
  | AnyContext (context : str) (source : AnyhowError PE).
Arguments AnyMsg {PE} message.
Arguments AnyIo {PE} e.
Arguments AnyApply {PE} e.
Arguments AnyPath {PE} e.
Arguments AnyContext {PE} context source.

(** [AppliedPatch] of [file_update.rs]. *)
Record AppliedPatch := { original_contents : str; new_contents : str }.

Definition nat_str (n : nat) : str := lit (pretty n).

Definition display_parse_error (e : ParseError) : str :=
  match e with
  | InvalidPatchError m => lit "invalid patch: " ++ m
  | InvalidHunkError m n => lit "invalid hunk at line " ++ nat_str n ++ lit ", " ++ m
  end.

(** [io::ErrorKind::Other], the kind of [io::Error::other]. *)
Definition kind_other : IoErrorKind := OtherKind 0.

Section ApplyPatch.
Context {P PE W O : Type}.
Context `{PO : !PathUriOps P PE} `{FS : !ExecutorFileSystem P W} `{WR : !Writer O}.

(** ** Errors *)

Definition display_apply_patch_error (e : ApplyPatchError PE) : str :=
  match e with
  | EParseError e => display_parse_error e
  | EIoError context source => context ++ lit ": " ++ io_msg source
  | EComputeReplacements m => m
  | EPathUri e => path_error_display e
  | EImplicitInvocation =>
      lit "patch detected without explicit call to apply_patch. Rerun as [" ++ [c_dquote]
      ++ lit "apply_patch" ++ [c_dquote] ++ lit ", " ++ [c_dquote] ++ lit "<patch>" ++ [c_dquote]
      ++ lit "]"
  end.

(** [anyhow::Error]'s [to_string]: the outermost context only. *)
Definition any_to_string (e : AnyhowError PE) : str :=
  match e with
  | AnyMsg m => m
  | AnyIo e => io_msg e
  | AnyApply e => display_apply_patch_error e
  | AnyPath e => path_error_display e
  | AnyContext context _ => context
  end.

(** [error.downcast_ref::<std::io::Error>()], which also finds the error a
    context was attached to. *)
Fixpoint downcast_io (e : AnyhowError PE) : option IoErr :=
  match e with
  | AnyIo e => Some e
  | AnyContext _ e => downcast_io e
  | _ => None
  end.

(** [impl From<&std::io::Error> for ApplyPatchError]. *)
Definition from_io (e : IoErr) : ApplyPatchError PE := EIoError (lit "I/O error") e.

(** ** The application monad: the file system, the delta, and early return *)

Record ApplyState := { st_fs : W; st_delta : AppliedPatchDelta P }.

Definition AM (A : Type) : Type := ApplyState → res (AnyhowError PE) A * ApplyState.

Definition am_ret {A} (a : A) : AM A := λ s, (Ok a, s).
Definition am_bind {A B} (m : AM A) (k : A → AM B) : AM B := λ s,
  match m s with
  | (Ok a, s') => k a s'
  | (Err e, s') => (Err e, s')
  | (Panic, s') => (Panic, s')
  end.
Definition am_throw {A} (e : AnyhowError PE) : AM A := λ s, (Err e, s).
Definition am_lift {A} (r : res (ApplyPatchError PE) A) : AM A := λ s,
  match r with
  | Ok a => (Ok a, s)
  | Err e => (Err (AnyApply e), s)
  | Panic => (Panic, s)
  end.

Notation "'let*' x := m 'in' k" := (am_bind m (λ x, k))
  (at level 10, x pattern, m at level 100, k at level 200).

(** [delta.exact &= b]. *)
Definition and_exact (b : bool) : AM unit := λ s,
  (Ok tt, {| st_fs := st_fs s;
             st_delta := Build_AppliedPatchDelta (changes (st_delta s)) (exact (st_delta s) && b) |}).
(** [delta.changes.push(c)]. *)
Definition push_change (p : P) (c : AppliedPatchFileChange P) : AM unit := λ s,
  (Ok tt, {| st_fs := st_fs s;
             st_delta := Build_AppliedPatchDelta
                           (changes (st_delta s) ++ [Build_AppliedPatchChange p c])
                           (exact (st_delta s)) |}).
(** [delta.changes[i] = c], which panics out of range. *)
Definition set_change (i : nat) (p : P) (c : AppliedPatchFileChange P) : AM unit := λ s,
  if bool_decide (i < length (changes (st_delta s)))
  then (Ok tt, {| st_fs := st_fs s;
                  st_delta := Build_AppliedPatchDelta
                                (<[i := Build_AppliedPatchChange p c]> (changes (st_delta s)))
                                (exact (st_delta s)) |})
  else (Panic, s).
Definition changes_len : AM nat := λ s, (Ok (length (changes (st_delta s))), s).

(** Calls of the file system: a query, and an operation with effects. Their
    [io::Result] is handed to the caller, which decides what to do with it. *)
Definition fs_query {A} (q : W → io_result A) : AM (io_result A) := λ s, (Ok (q (st_fs s)), s).
Definition fs_call (op : W → io_result unit * W) : AM (io_result unit) := λ s,
  let '(r, w) := op (st_fs s) in (Ok r, {| st_fs := w; st_delta := st_delta s |}).

(** [?] and [.with_context(..)?] on an [io::Result]. *)
Definition am_io {A} (r : io_result A) : AM A :=
  match r with inr a => am_ret a | inl e => am_throw (AnyIo e) end.
Definition with_context {A} (context : str) (r : io_result A) : AM A :=
  match r with inr a => am_ret a | inl e => am_throw (AnyContext context (AnyIo e)) end.
(** [?] on [Result<_, PathUriParseError>]. *)
Definition am_path {A} (r : PE + A) : AM A :=
  match r with inr a => am_ret a | inl e => am_throw (AnyPath e) end.

(** The macro [try_write!]: a failed write makes the delta inexact. *)
Definition try_write {A} (m : AM A) : AM A := λ s,
  match m s with
  | (Err e, s') => (Err e, (and_exact false s').2)
  | r => r
  end.

(** ** Helpers of [apply_hunks_to_files] *)

Definition ensure_not_directory (follow : bool) (path : P) : AM (io_result unit) :=
  let* metadata := fs_query (get_metadata follow path) in
  match metadata with
  | inl e => am_ret (inl e)
  | inr metadata =>
      if is_directory metadata
      then am_ret (inl {| io_kind := InvalidInput; io_msg := lit "path is a directory" |})
      else am_ret (inr tt)
  end.

Definition remove_failure_was_side_effect_free (follow : bool) (path : P)
    (expected_content : option str) : AM bool :=
  match expected_content with
  | Some expected =>
      let* r := fs_query (read_file_text follow path) in
      am_ret match r with inr content => bool_decide (content = expected) | inl _ => false end
  | None => am_ret false
  end.

Definition note_existing_path_delta_support (follow : bool) (path : P) : AM unit :=
  let* r := fs_query (get_metadata follow path) in
  match r with
  | inr metadata =>
      if is_file metadata && negb (is_symlink metadata) then am_ret tt else and_exact false
  | inl source => if kind_is NotFound source then am_ret tt else and_exact false
  end.

Definition read_optional_file_text_for_delta (follow : bool) (path : P) : AM (option str) :=
  let* _ := note_existing_path_delta_support follow path in
  let* r := fs_query (read_file_text follow path) in
  match r with
  | inr content => am_ret (Some content)
  | inl source =>
      if kind_is NotFound source then am_ret None
      else let* _ := and_exact false in am_ret None
  end.

Definition msg_write (path : P) : str :=
  lit "Failed to write file " ++ inferred_native_path_string path.
Definition msg_parents (path : P) : str :=
  lit "Failed to create parent directories for " ++ inferred_native_path_string path.
Definition msg_delete (path : P) : str :=
  lit "Failed to delete file " ++ inferred_native_path_string path.
Definition msg_remove (path : P) : str :=
  lit "Failed to remove original " ++ inferred_native_path_string path.
Definition msg_read_update (path : P) : str :=
  lit "Failed to read file to update " ++ inferred_native_path_string path.

Definition write_file_with_missing_parent_retry (follow : bool) (path : P) (contents : str)
    : AM unit :=
  let* r := fs_call (write_file follow path contents) in
  match r with
  | inr _ => am_ret tt
  | inl err =>
      if kind_is NotFound err then
        let* _ := match path_parent path with
                  | Some parent =>
                      let* r := fs_call (create_directory follow parent) in
                      with_context (msg_parents path) r
                  | None => am_ret tt
                  end in
        let* r := fs_call (write_file follow path contents) in
        with_context (msg_write path) r
      else with_context (msg_write path) (inl err)
  end.

(** [derive_new_contents_from_chunks] of [file_update.rs], on the file system
    state [w]. *)
Definition derive_new_contents_from_chunks (path : P) (chunks : list UpdateFileChunk)
    (m : ApplyPatchFileUpdateMode) (follow : bool) (w : W) : res (ApplyPatchError PE) AppliedPatch :=
  match read_file_text follow path w with
  | inl err => Err (EIoError (msg_read_update path) err)
  | inr original =>
      let? new := update_contents m (inferred_native_path_string path) chunks original in
      Ok {| original_contents := original; new_contents := new |}
  end.

(** [Hunk::resolve_path]. *)
Definition resolve_path (h : Hunk) (cwd : P) : PE + P := path_join cwd (hunk_source_path h).

(** The removal of the file a hunk deletes or moves away: [ensure_not_directory],
    then [remove], whose failure is checked for side effects. *)
Definition remove_original (follow : bool) (context : str) (path : P) (expected : option str)
    : AM unit :=
  let* r := ensure_not_directory follow path in
  let* _ := with_context context r in
  let* r := fs_call (remove follow path) in
  match r with
  | inr _ => am_ret tt
  | inl e =>
      let* free := remove_failure_was_side_effect_free follow path expected in
      let* _ := and_exact free in
      with_context context (inl e)
  end.

(** ** The three branches of the loop *)

Definition apply_add (follow : bool) (path_uri : P) (contents : str) : AM unit :=
  let* overwritten_content := read_optional_file_text_for_delta follow path_uri in
  let* _ := try_write (write_file_with_missing_parent_retry follow path_uri contents) in
  push_change path_uri (ChAdd contents overwritten_content).

Definition apply_delete (follow : bool) (path_uri : P) : AM unit :=
  let* _ := note_existing_path_delta_support follow path_uri in
  let* r := fs_query (read_file_text follow path_uri) in
  let deleted_content := match r with inr c => Some c | inl _ => None end in
  let* _ := match deleted_content with Some _ => am_ret tt | None => and_exact false end in
  let* _ := remove_original follow (msg_delete path_uri) path_uri deleted_content in
  match deleted_content with
  | Some content => push_change path_uri (ChDelete content)
  | None => am_ret tt
  end.

Definition apply_update (opts : ApplyPatchOptions) (cwd path_uri : P) (move_path : option str)
    (chunks : list UpdateFileChunk) : AM unit :=
  let follow := follow_symlinks opts in
  let* _ := note_existing_path_delta_support follow path_uri in
  let* w := (λ s, (Ok (st_fs s), s)) in
  let* ap := am_lift (derive_new_contents_from_chunks path_uri chunks (update_file_mode opts)
                                                      follow w) in
  match move_path with
  | Some dest =>
      let* dest_uri := am_path (path_join cwd dest) in
      let* overwritten_move_content := read_optional_file_text_for_delta follow dest_uri in
      let* _ := try_write (write_file_with_missing_parent_retry follow dest_uri (new_contents ap)) in
      let* dest_write_change_index := changes_len in
      let* _ := push_change dest_uri (ChAdd (new_contents ap) overwritten_move_content) in
      let* _ := remove_original follow (msg_remove path_uri) path_uri (Some (original_contents ap)) in
      set_change dest_write_change_index path_uri
        (ChUpdate (Some dest_uri) (original_contents ap) overwritten_move_content (new_contents ap))
  | None =>
      let* _ := try_write
        (let* r := fs_call (write_file follow path_uri (new_contents ap)) in
         with_context (msg_write path_uri) r) in
      push_change path_uri (ChUpdate None (original_contents ap) None (new_contents ap))
  end.

(** One round of the loop over the hunks. *)
Definition apply_hunk (opts : ApplyPatchOptions) (cwd : P) (acc : AffectedPaths) (h : Hunk)
    : AM AffectedPaths :=
  let affected_path := hunk_path h in
  let* path_uri := am_path (resolve_path h cwd) in
  match h with
  | AddFile _ contents =>
      let* _ := apply_add (follow_symlinks opts) path_uri contents in
      am_ret {| added := added acc ++ [affected_path]; modified := modified acc;
                deleted := deleted acc |}
  | DeleteFile _ =>
      let* _ := apply_delete (follow_symlinks opts) path_uri in
      am_ret {| added := added acc; modified := modified acc;
                deleted := deleted acc ++ [affected_path] |}
  | UpdateFile _ move_path chunks =>
      let* _ := apply_update opts cwd path_uri move_path chunks in
      am_ret {| added := added acc; modified := modified acc ++ [affected_path];
                deleted := deleted acc |}
  end.

Fixpoint apply_hunk_loop (opts : ApplyPatchOptions) (cwd : P) (acc : AffectedPaths)
    (hunks : list Hunk) : AM AffectedPaths :=
  match hunks with
  | [] => am_ret acc
  | h :: hunks' => let* acc := apply_hunk opts cwd acc h in apply_hunk_loop opts cwd acc hunks'
  end.

Definition no_affected : AffectedPaths := {| added := []; modified := []; deleted := [] |}.

Definition apply_hunks_to_files (opts : ApplyPatchOptions) (cwd : P) (hunks : list Hunk)
    : AM AffectedPaths :=
  match hunks with
  | [] => am_throw (AnyMsg (lit "No files were modified."))
  | _ => apply_hunk_loop opts cwd no_affected hunks
  end.

(** ** Reports and entry points *)

Fixpoint write_lines (ls : list str) (o : O) : io_result unit * O :=
  match ls with
  | [] => (inr tt, o)
  | l :: ls' => let '(r, o') := writeln l o in
                match r with inl e => (inl e, o') | inr _ => write_lines ls' o' end
  end.

Definition summary_lines (a : AffectedPaths) : list str :=
  lit "Success. Updated the following files:"
    :: ((λ p, lit "A " ++ p) <$> added a) ++ ((λ p, lit "M " ++ p) <$> modified a)
    ++ ((λ p, lit "D " ++ p) <$> deleted a).

Definition print_summary (a : AffectedPaths) (out : O) : io_result unit * O :=
  write_lines (summary_lines a) out.

(** What a run leaves behind: the file system and the two report streams. *)
Record RunState := { run_fs : W; run_stdout : O; run_stderr : O }.

Abbreviation apply_result := (res (ApplyPatchFailure P PE) (AppliedPatchDelta P)).

Definition apply_hunks_with_options (opts : ApplyPatchOptions) (cwd : P) (hunks : list Hunk)
    (r : RunState) : apply_result * RunState :=
  let '(outcome, s) := apply_hunks_to_files opts cwd hunks
                         {| st_fs := run_fs r; st_delta := delta_empty |} in
  let delta := st_delta s in
  match outcome with
  | Ok affected_paths =>
      let '(p, out) := print_summary affected_paths (run_stdout r) in
      let r' := {| run_fs := st_fs s; run_stdout := out; run_stderr := run_stderr r |} in
      match p with
      | inl error => (Err (Build_ApplyPatchFailure (from_io error) delta), r')
      | inr _ => (Ok delta, r')
      end
  | Err error =>
      let msg := any_to_string error in
      let '(p, err) := writeln msg (run_stderr r) in
      let r' := {| run_fs := st_fs s; run_stdout := run_stdout r; run_stderr := err |} in
      match p with
      | inl e => (Err (Build_ApplyPatchFailure (from_io e) delta), r')
      | inr _ =>
          let error := match downcast_io error with
                       | Some io => from_io io
                       | None => EIoError msg {| io_kind := kind_other; io_msg := msg |}
                       end in
          (Err (Build_ApplyPatchFailure error delta), r')
      end
  | Panic => (Panic, {| run_fs := st_fs s; run_stdout := run_stdout r; run_stderr := run_stderr r |})
  end.

Definition parse_error_report (e : ParseError) : str :=
  match e with
  | InvalidPatchError message => lit "Invalid patch: " ++ message
  | InvalidHunkError message n => lit "Invalid patch hunk on line " ++ nat_str n ++ lit ": " ++ message
  end.

Definition apply_patch_with_options (opts : ApplyPatchOptions) (cwd : P) (patch : str)
    (r : RunState) : apply_result * RunState :=
  match parse_patch patch with
  | Ok source => apply_hunks_with_options opts cwd (args_hunks source) r
  | Err e =>
      let '(p, err) := writeln (parse_error_report e) (run_stderr r) in
      let r' := {| run_fs := run_fs r; run_stdout := run_stdout r; run_stderr := err |} in
      match p with
      | inl e => (Err (without_delta (from_io e)), r')
      | inr _ => (Err (without_delta (EParseError e)), r')
      end
  | Panic => (Panic, r)
  end.

(** [apply_patch] and [apply_hunks], with the default options. *)
Definition apply_patch (cwd : P) (patch : str) (r : RunState) : apply_result * RunState :=
  apply_patch_with_options default_options cwd patch r.
Definition apply_hunks (cwd : P) (hunks : list Hunk) (r : RunState) : apply_result * RunState :=
  apply_hunks_with_options default_options cwd hunks r.

End ApplyPatch.

Arguments ApplyState : clear implicits.
Arguments RunState : clear implicits.
Arguments AM : clear implicits.
