(* ===== verification/ApplyPatchFacts.v ===== *)
(** * Applying a patch: what the file system and the delta hold afterwards

    The laws of a file system whose paths name distinct text files, an abstract
    semantics of hunks on a finite map of files, and the theorems about
    [apply_hunks_to_files]: it refines that semantics, an exact delta replays
    and undoes the run whatever its outcome, and on a reliable file system
    every run the semantics allows succeeds. *)

From stdpp Require Import gmap pretty.
From S2P Require Import Prelude RustStr PatchParser SeekSequence FileUpdate ApplyPatch.
Open Scope list_scope.

(** ** The laws of a file system

    [files f w] is the text files of [w], as seen with the option
    [follow_symlinks = f]. The laws say that a path is its own file: they leave
    out links, and paths spelled in two ways. A write that fails may have left
    anything in its target, a removal that fails may still have removed it; the
    other files are unchanged. *)
Class LawfulFileSystem (P W : Type) `{Countable P} `{!ExecutorFileSystem P W} := {
  files : bool → W → gmap P str;
  files_read f p w c : read_file_text f p w = inr c ↔ files f w !! p = Some c;
  files_write f p c w w' : write_file f p c w = (inr tt, w') → files f w' = <[p := c]> (files f w);
  files_write_err f p c w e w' :
    write_file f p c w = (inl e, w') → delete p (files f w') = delete p (files f w);
  files_create f p w r w' : create_directory f p w = (r, w') → files f w' = files f w;
  files_remove f p w w' : remove f p w = (inr tt, w') → files f w' = delete p (files f w);
  files_remove_err f p w e w' :
    remove f p w = (inl e, w') → files f w' = files f w ∨ files f w' = delete p (files f w);
}.

(** ** Abstract semantics: hunks and recorded changes on a map of files *)

Section Semantics.
Context {P PE : Type} `{Countable P} `{!PathUriOps P PE}.

Definition inr_option {A B} (x : A + B) : option B := match x with inr b => Some b | inl _ => None end.

Definition update_effect (m : ApplyPatchFileUpdateMode) (cwd path : P) (move_path : option str)
    (chunks : list UpdateFileChunk) (fm : gmap P str) : option (gmap P str) :=
  old ← fm !! path;
  new ← res_ok (@update_contents PE m (inferred_native_path_string path) chunks old);
  match move_path with
  | None => Some (<[path := new]> fm)
  | Some dest => d ← inr_option (path_join cwd dest); Some (delete path (<[d := new]> fm))
  end.

(** [strict] asks that a deleted file be there. *)
Definition hunk_effect (strict : bool) (m : ApplyPatchFileUpdateMode) (cwd : P) (fm : gmap P str) (h : Hunk)
    : option (gmap P str) :=
  path ← inr_option (path_join cwd (hunk_source_path h));
  match h with
  | AddFile _ contents => Some (<[path := contents]> fm)
  | DeleteFile _ =>
      if strict && bool_decide (fm !! path = None) then None else Some (delete path fm)
  | UpdateFile _ move_path chunks => update_effect m cwd path move_path chunks fm
  end.

Fixpoint hunks_effect (strict : bool) (m : ApplyPatchFileUpdateMode) (cwd : P) (fm : gmap P str) (hs : list Hunk)
    : option (gmap P str) :=
  match hs with
  | [] => Some fm
  | h :: hs' => fm' ← hunk_effect strict m cwd fm h; hunks_effect strict m cwd fm' hs'
  end.

Definition affect (acc : AffectedPaths) (h : Hunk) : AffectedPaths :=
  match h with
  | AddFile p _ => {| added := added acc ++ [p]; modified := modified acc; deleted := deleted acc |}
  | DeleteFile p => {| added := added acc; modified := modified acc; deleted := deleted acc ++ [p] |}
  | UpdateFile _ _ _ =>
      {| added := added acc; modified := modified acc ++ [hunk_path h]; deleted := deleted acc |}
  end.

(** Replaying a recorded change, and taking it back. *)
Definition replay_change (fm : gmap P str) (c : AppliedPatchChange P) : gmap P str :=
  match change_of c with
  | ChAdd content _ => <[change_path c := content]> fm
  | ChDelete _ => delete (change_path c) fm
  | ChUpdate None _ _ new => <[change_path c := new]> fm
  | ChUpdate (Some dest) _ _ new => delete (change_path c) (<[dest := new]> fm)
  end.

Definition restore (p : P) (old : option str) (fm : gmap P str) : gmap P str :=
  match old with Some c => <[p := c]> fm | None => delete p fm end.

Definition undo_change (c : AppliedPatchChange P) (fm : gmap P str) : gmap P str :=
  match change_of c with
  | ChAdd _ old => restore (change_path c) old fm
  | ChDelete content => <[change_path c := content]> fm
  | ChUpdate None old _ _ => <[change_path c := old]> fm
  | ChUpdate (Some dest) old overwritten _ => restore dest overwritten (<[change_path c := old]> fm)
  end.

Definition replay (fm : gmap P str) (cs : list (AppliedPatchChange P)) : gmap P str :=
  foldl replay_change fm cs.
Definition undo (cs : list (AppliedPatchChange P)) (fm : gmap P str) : gmap P str :=
  foldr undo_change fm cs.

(** A change is faithful to the files it is made on when what it says it
    overwrote is what was there. *)
Definition faithful (fm : gmap P str) (c : AppliedPatchChange P) : Prop :=
  match change_of c with
  | ChAdd _ old => fm !! change_path c = old
  | ChDelete content => fm !! change_path c = Some content
  | ChUpdate None old _ _ => fm !! change_path c = Some old
  | ChUpdate (Some dest) old overwritten _ =>
      fm !! change_path c = Some old ∧ fm !! dest = overwritten
  end.

Lemma restore_id p (fm fm' : gmap P str) :
  delete p fm' = delete p fm → restore p (fm !! p) fm' = fm.
Proof.
  intros Hd. unfold restore. destruct (fm !! p) as [s|] eqn:E.
  - rewrite <- (insert_delete_id fm p s E), <- Hd. by rewrite insert_delete_eq.
  - rewrite Hd. by apply delete_id.
Qed.

Lemma insert_delete_same p c (fm fm' : gmap P str) :
  delete p fm' = delete p fm → <[p := c]> fm' = <[p := c]> fm.
Proof. intros Hd. by rewrite <- (insert_delete_eq fm'), Hd, insert_delete_eq. Qed.

(** Each change is faithful to what the ones before it left. *)
Fixpoint all_faithful (fm : gmap P str) (cs : list (AppliedPatchChange P)) : Prop :=
  match cs with
  | [] => True
  | c :: cs' => faithful fm c ∧ all_faithful (replay_change fm c) cs'
  end.

Lemma undo_replay_change fm c : faithful fm c → undo_change c (replay_change fm c) = fm.
Proof.
  unfold faithful, undo_change, replay_change. destruct c as [p []]; simpl.
  - intros <-. apply restore_id. by rewrite delete_insert_eq.
  - intros Hp. rewrite insert_delete_eq. by apply insert_id.
  - destruct move_path as [dest|]; simpl.
    + intros [Hp <-]. apply restore_id. rewrite insert_delete_eq.
      rewrite <- (insert_id fm p old_content Hp) at 2.
      destruct (decide (p = dest)) as [->|Hne].
      * by rewrite !delete_insert_eq.
      * rewrite !(delete_insert_ne _ dest p) by done. by rewrite delete_insert_eq.
    + intros Hp. rewrite insert_insert_eq. by apply insert_id.
Qed.

Lemma all_faithful_app fm cs1 cs2 :
  all_faithful fm (cs1 ++ cs2) ↔ all_faithful fm cs1 ∧ all_faithful (replay fm cs1) cs2.
Proof. revert fm. induction cs1 as [|c cs1 IH]; intros fm; simpl; [tauto|]. rewrite IH. tauto. Qed.

Lemma undo_replay fm cs : all_faithful fm cs → undo cs (replay fm cs) = fm.
Proof.
  revert fm. induction cs as [|c cs IH]; intros fm; simpl; [done|]. intros [Hc Hcs].
  rewrite IH by done. by apply undo_replay_change.
Qed.

End Semantics.

(** ** Weakest preconditions for the application monad *)

Section Facts.
Context {P PE W O : Type} `{Countable P} `{PO : !PathUriOps P PE}.
Context `{FS : !ExecutorFileSystem P W} `{LF : !LawfulFileSystem P W} `{WR : !Writer O}.
Implicit Types (s : ApplyState P W) (d : AppliedPatchDelta P) (fm : gmap P str).

(** [wp m Q E s]: run from [s], [m] ends in [Q] when it returns, and in [E]
    when it stops with an error or a panic. *)
Definition wp {A} (m : AM P PE W A) (Q : A → ApplyState P W → Prop) (E : ApplyState P W → Prop) s
    : Prop :=
  match m s with
  | (Ok a, s') => Q a s'
  | (_, s') => E s'
  end.

Lemma wp_bind {A B} (m : AM P PE W A) (k : A → AM P PE W B) Q E s :
  wp m (λ a s', wp (k a) Q E s') E s → wp (am_bind m k) Q E s.
Proof. unfold wp, am_bind. destruct (m s) as [[]]; done. Qed.

Lemma wp_mono {A} (m : AM P PE W A) Q Q' E E' s :
  wp m Q E s → (∀ a s', Q a s' → Q' a s') → (∀ s', E s' → E' s') → wp m Q' E' s.
Proof. unfold wp. destruct (m s) as [[]]; auto. Qed.

Lemma wp_ret {A} (a : A) (Q : A → ApplyState P W → Prop) E s :
  Q a s → wp (am_ret a) Q E s.
Proof. done. Qed.

(** The delta and the text files of a state. *)
Definition at_state (f : bool) d fm s : Prop := st_delta s = d ∧ files f (st_fs s) = fm.

Definition delta_and d (b : bool) : AppliedPatchDelta P :=
  Build_AppliedPatchDelta (changes d) (exact d && b).
Definition delta_push d (p : P) (c : AppliedPatchFileChange P) : AppliedPatchDelta P :=
  Build_AppliedPatchDelta (changes d ++ [Build_AppliedPatchChange p c]) (exact d).

Lemma delta_and_true d : delta_and d true = d.
Proof. destruct d. unfold delta_and. simpl. by rewrite andb_true_r. Qed.
Lemma delta_and_and d b b' : delta_and (delta_and d b) b' = delta_and d (b && b').
Proof. unfold delta_and. simpl. by rewrite andb_assoc. Qed.

Lemma wp_and_exact f d fm b Q E s :
  at_state f d fm s → (∀ s', at_state f (delta_and d b) fm s' → Q tt s') →
  wp (and_exact b) Q E s.
Proof. intros [<- <-] HQ. apply HQ. done. Qed.

Lemma wp_push_change f d fm p c (Q : unit → ApplyState P W → Prop) E s :
  at_state f d fm s → (∀ s', at_state f (delta_push d p c) fm s' → Q tt s') →
  wp (push_change p c) Q E s.
Proof. intros [<- <-] HQ. apply HQ. done. Qed.

Lemma wp_with_context {A} c (r : io_result A) Q E s :
  (∀ a, r = inr a → Q a s) → (∀ e, r = inl e → E s) → wp (with_context c r) Q E s.
Proof. unfold wp, with_context. destruct r; simpl; eauto. Qed.

Lemma wp_query {A} (q : W → io_result A) (Q : io_result A → ApplyState P W → Prop) E s :
  Q (q (st_fs s)) s → wp (fs_query q) Q E s.
Proof. done. Qed.

Lemma wp_note f p d fm (Q : unit → ApplyState P W → Prop) E s :
  at_state f d fm s → (∀ b s', at_state f (delta_and d b) fm s' → Q tt s') →
  wp (note_existing_path_delta_support f p) Q E s.
Proof.
  intros Hs HQ. apply wp_bind, wp_query.
  assert (Hret : wp (am_ret tt) Q E s).
  { apply wp_ret, (HQ true). by rewrite delta_and_true. }
  assert (Hand : wp (and_exact false) Q E s) by (eapply wp_and_exact; eauto).
  destruct (get_metadata f p (st_fs s)); case_goal; done.
Qed.

Lemma read_lookup f p w : inr_option (read_file_text f p w) = files f w !! p.
Proof.
  destruct (read_file_text f p w) as [e|c] eqn:E; simpl.
  - destruct (files f w !! p) eqn:E'; [|done]. apply files_read in E'. congruence.
  - symmetry. by apply files_read.
Qed.

Lemma wp_read_optional f p d fm (Q : option str → ApplyState P W → Prop) E s :
  at_state f d fm s →
  (∀ o b s', at_state f (delta_and d b) fm s' → (b = true → o = fm !! p) → Q o s') →
  wp (read_optional_file_text_for_delta f p) Q E s.
Proof.
  intros Hs HQ. apply wp_bind. apply (wp_note f p d fm); [done|]. clear s Hs. intros b s Hs.
  apply wp_bind, wp_query. pose proof (read_lookup f p (st_fs s)) as Hr.
  rewrite (proj2 Hs) in Hr.
  destruct (read_file_text f p (st_fs s)) as [e|c]; simpl in Hr.
  - case_goal.
    + by apply wp_ret, (HQ None b).
    + apply wp_bind. eapply wp_and_exact; [done|]. intros s' Hs'. apply wp_ret.
      rewrite delta_and_and in Hs'. apply (HQ None (b && false)); [done|]. by rewrite andb_false_r.
  - by apply wp_ret, (HQ (Some c) b).
Qed.

(** Computations that never panic. *)
Definition no_panic {A} (m : AM P PE W A) : Prop := ∀ s, (m s).1 ≠ Panic.

Lemma no_panic_bind {A B} (m : AM P PE W A) (k : A → AM P PE W B) :
  no_panic m → (∀ a, no_panic (k a)) → no_panic (am_bind m k).
Proof.
  intros Hm Hk s. unfold am_bind. specialize (Hm s). destruct (m s) as [[] s']; try done. apply Hk.
Qed.
Lemma no_panic_ret {A} (a : A) : no_panic (am_ret a).
Proof. done. Qed.
Lemma no_panic_throw {A} e : no_panic (A:=A) (am_throw e).
Proof. done. Qed.
Lemma no_panic_query {A} (q : W → io_result A) : no_panic (fs_query q).
Proof. done. Qed.
Lemma no_panic_call op : no_panic (fs_call op).
Proof. intros s. unfold fs_call. by destruct (op (st_fs s)). Qed.
Lemma no_panic_context {A} c (r : io_result A) : no_panic (with_context c r).
Proof. by destruct r. Qed.
Lemma no_panic_path {A} (r : PE + A) : no_panic (am_path r).
Proof. by destruct r. Qed.
Lemma no_panic_and b : no_panic (and_exact b).
Proof. done. Qed.
Lemma no_panic_push p c : no_panic (push_change p c).
Proof. done. Qed.
Lemma no_panic_try {A} (m : AM P PE W A) : no_panic m → no_panic (try_write m).
Proof. intros Hm s. unfold try_write. specialize (Hm s). by destruct (m s) as [[]]. Qed.

Hint Resolve no_panic_bind no_panic_ret no_panic_throw no_panic_query no_panic_call
  no_panic_context no_panic_path no_panic_and no_panic_push no_panic_try : turnrail.

Ltac no_panic_tac :=
  repeat first [ progress auto with turnrail | apply no_panic_bind; [|intros ?] | case_goal ].

Lemma write_retry_no_panic f p c : no_panic (write_file_with_missing_parent_retry f p c).
Proof. unfold write_file_with_missing_parent_retry. no_panic_tac. Qed.
Lemma note_no_panic f p : no_panic (note_existing_path_delta_support f p).
Proof. unfold note_existing_path_delta_support. no_panic_tac. Qed.
Hint Resolve note_no_panic write_retry_no_panic : turnrail.
Lemma read_optional_no_panic f p : no_panic (read_optional_file_text_for_delta f p).
Proof. unfold read_optional_file_text_for_delta. no_panic_tac. Qed.
Lemma remove_original_no_panic f c p o : no_panic (remove_original f c p o).
Proof.
  unfold remove_original, ensure_not_directory, remove_failure_was_side_effect_free. no_panic_tac.
Qed.
Hint Resolve read_optional_no_panic remove_original_no_panic : turnrail.

(** Both writes: a target written, or a failed attempt that made the delta
    inexact. *)
Definition wrote (f : bool) d fm p c (_ : unit) s : Prop := at_state f d (<[p := c]> fm) s.

Lemma wp_write_retry f p c d fm s :
  at_state f d fm s →
  wp (write_file_with_missing_parent_retry f p c) (wrote f d fm p c) (λ s', st_delta s' = d) s.
Proof.
  intros [Hd Hf]. apply wp_bind. unfold wp at 1, fs_call.
  destruct (write_file f p c (st_fs s)) as [[e|[]] w] eqn:Ew.
  - case_goal; [|done]. apply files_write_err in Ew. rewrite Hf in Ew. clear Hf. apply wp_bind.
    assert (Hwrite : ∀ s1, st_delta s1 = d → delete p (files f (st_fs s1)) = delete p fm →
      wp (am_bind (fs_call (write_file f p c)) (with_context (msg_write p)))
         (wrote f d fm p c) (λ s', st_delta s' = d) s1).
    { intros s1 Hd1 Hf1. apply wp_bind. unfold wp at 1, fs_call.
      destruct (write_file f p c (st_fs s1)) as [[e1|[]] w1] eqn:Ew1; [done|].
      split; [done|]. simpl. rewrite (files_write f p c _ _ Ew1). by apply insert_delete_same. }
    destruct (path_parent p) as [parent|].
    + apply wp_bind. unfold wp at 1, fs_call.
      destruct (create_directory f parent _) as [[e1|[]] w1] eqn:Ec; [done|].
      apply wp_ret, Hwrite; [done|]. simpl. by rewrite (files_create _ _ _ _ _ Ec).
    + by apply wp_ret, Hwrite.
  - split; [done|]. simpl. by rewrite (files_write f p c _ _ Ew), Hf.
Qed.

Lemma wp_try_write f p c d fm (m : AM P PE W unit) s :
  no_panic m →
  wp m (wrote f d fm p c) (λ s', st_delta s' = d) s →
  wp (try_write m) (wrote f d fm p c) (λ s', exact (st_delta s') = false) s.
Proof.
  intros Hm. specialize (Hm s). unfold wp, try_write. destruct (m s) as [[] s1]; simpl; try done.
  by rewrite andb_false_r.
Qed.


Lemma wp_write_or_inexact f p c d fm s :
  at_state f d fm s →
  wp (try_write (write_file_with_missing_parent_retry f p c)) (wrote f d fm p c)
     (λ s', exact (st_delta s') = false) s.
Proof. intros Hs. apply wp_try_write; [auto with turnrail|]. by apply wp_write_retry. Qed.

(** The removal of the original: a failure that leaves the delta exact left
    the files alone. *)
Lemma wp_remove_original f c p o d fm s :
  at_state f d fm s →
  wp (remove_original f c p o) (λ _, at_state f d (delete p fm))
     (λ s', ∃ b, st_delta s' = delta_and d b ∧ (b = true → files f (st_fs s') = fm)) s.
Proof.
  intros Hs. destruct (Hs) as [Hd Hf]. unfold remove_original.
  assert (HE : ∃ b, st_delta s = delta_and d b ∧ (b = true → files f (st_fs s) = fm)).
  { exists true. by rewrite delta_and_true. }
  apply wp_bind, wp_bind, wp_query.
  destruct (get_metadata f p (st_fs s)) as [e|md]; [apply wp_ret, wp_bind; done|].
  case_goal; apply wp_ret, wp_bind; [done|]. apply wp_ret, wp_bind. unfold wp at 1, fs_call.
  destruct (remove f p (st_fs s)) as [[e|[]] w] eqn:Er.
  - apply files_remove_err in Er. rewrite Hf in Er.
    apply wp_bind. unfold remove_failure_was_side_effect_free.
    destruct o as [x|]; simpl.
    + unfold wp, am_bind, fs_query; simpl. eexists. split; [by rewrite Hd|]. simpl.
      destruct (read_file_text f p w) as [|y] eqn:Ey; [done|].
      intros ->%bool_decide_eq_true. apply files_read in Ey.
      destruct Er as [Er|Er]; [done|]. rewrite Er in Ey. by rewrite lookup_delete_eq in Ey.
    + exists false. unfold wp; simpl. by rewrite Hd.
  - split; [done|]. simpl. by rewrite (files_remove _ _ _ _ Er), Hf.
Qed.

(** ** Exactness: what the delta promises *)

(** From the delta [d] and the files [fm] to [d'] and [fm']: if [d'] is exact,
    the changes it adds are faithful and lead from [fm] to [fm']. *)
Definition exact_step d fm d' fm' : Prop :=
  exact d' = true → exact d = true ∧ ∃ cs, changes d' = changes d ++ cs
    ∧ replay fm cs = fm' ∧ all_faithful fm cs.

Lemma exact_step_inexact d fm d' fm' : exact d' = false → exact_step d fm d' fm'.
Proof. intros H1 H2. congruence. Qed.

Lemma exact_step_and d fm b fm' :
  (b = true → fm' = fm) → exact_step d fm (delta_and d b) fm'.
Proof.
  intros Hb He. simpl in He. bdec. split; [done|]. exists []. rewrite app_nil_r.
  by rewrite (Hb ltac:(done)).
Qed.

Lemma exact_step_refl d fm : exact_step d fm d fm.
Proof. rewrite <- (delta_and_true d) at 2. by apply exact_step_and. Qed.

Lemma exact_step_trans d1 m1 d2 m2 d3 m3 :
  exact_step d1 m1 d2 m2 → exact_step d2 m2 d3 m3 → exact_step d1 m1 d3 m3.
Proof.
  intros H1 H2 (He2 & cs2 & Hc2 & Hr2 & Hu2)%H2. destruct (H1 He2) as (He1 & cs1 & Hc1 & Hr1 & Hu1).
  split; [done|]. exists (cs1 ++ cs2). rewrite all_faithful_app, Hr1.
  unfold replay in *. rewrite foldl_app, Hc2, Hc1, Hr1. by rewrite app_assoc.
Qed.

Lemma exact_step_push d fm b p c :
  (b = true → faithful fm (Build_AppliedPatchChange p c)) →
  exact_step d fm (delta_push (delta_and d b) p c)
             (replay_change fm (Build_AppliedPatchChange p c)).
Proof.
  intros Hb He. simpl in He. bdec. split; [done|]. eexists. split; [done|]. simpl.
  split; [done|]. split; [by apply Hb|done].
Qed.

Lemma exact_step_push_and d fm b b' p c fm' :
  (b = true → faithful fm (Build_AppliedPatchChange p c)) →
  (b' = true → fm' = replay_change fm (Build_AppliedPatchChange p c)) →
  exact_step d fm (delta_and (delta_push (delta_and d b) p c) b') fm'.
Proof.
  intros Hb Hb'. eapply exact_step_trans; [by apply exact_step_push|]. by apply exact_step_and.
Qed.

(** A branch of the loop: the effect on success, exactness in every case. *)
Definition branch {A} (f : bool) d fm (effect : A → option (gmap P str)) (m : AM P PE W A) s : Prop :=
  wp m (λ a s', effect a = Some (files f (st_fs s'))
                ∧ exact_step d fm (st_delta s') (files f (st_fs s')))
       (λ s', exact_step d fm (st_delta s') (files f (st_fs s'))) s.

Lemma apply_add_branch f p c d fm s :
  at_state f d fm s → branch f d fm (λ _, Some (<[p := c]> fm)) (apply_add f p c) s.
Proof.
  intros Hs. apply wp_bind. apply (wp_read_optional f p d fm); [done|].
  clear s Hs. intros o b s Hs Ho. apply wp_bind.
  eapply wp_mono; [by apply wp_write_or_inexact| |].
  - intros [] s' Hs'. eapply wp_push_change; [done|]. intros s'' [Hd'' Hf'']. split; [by rewrite Hf''|]. rewrite Hd'', Hf''.
    apply (exact_step_push d fm b p (ChAdd c o)). intros ->. by rewrite Ho.
  - intros s' He. by apply exact_step_inexact.
Qed.

Lemma apply_delete_branch f p d fm s :
  at_state f d fm s → branch f d fm (λ _, Some (delete p fm)) (apply_delete f p) s.
Proof.
  intros Hs. apply wp_bind. apply (wp_note f p d fm); [done|]. clear s Hs. intros b s Hs.
  apply wp_bind, wp_query. cbv zeta. fold (inr_option (read_file_text f p (st_fs s))).
  rewrite read_lookup, (proj2 Hs). apply wp_bind.
  destruct (fm !! p) as [x|] eqn:Ex.
  - apply wp_ret, wp_bind. eapply wp_mono; [by apply wp_remove_original| |].
    + intros [] s' Hs'. eapply wp_push_change; [done|]. intros s'' [Hd'' Hf'']. split; [by rewrite Hf''|]. rewrite Hd'', Hf''.
      by apply (exact_step_push d fm b p (ChDelete x)).
    + intros s' (b' & -> & Hb'). rewrite delta_and_and. apply exact_step_and.
      intros Hbb. bdec. auto.
  - eapply wp_and_exact; [done|]. clear s Hs. intros s Hs. apply wp_bind.
    rewrite delta_and_and, andb_false_r in Hs.
    eapply wp_mono; [by apply wp_remove_original| |].
    + intros [] s' [Hd' Hf']. split; [by rewrite Hf'|]. apply exact_step_inexact. rewrite Hd'. simpl.
      by rewrite andb_false_r.
    + intros s' (b' & -> & Hb'). apply exact_step_inexact. simpl. by rewrite andb_false_r.
Qed.

Lemma apply_update_move f p mv dest old new d b fm s :
  fm !! p = Some old → at_state f (delta_and d b) fm s →
  branch f d fm (λ _, Some (delete p (<[dest := new]> fm)))
    (am_bind (read_optional_file_text_for_delta f dest) (λ o,
     am_bind (try_write (write_file_with_missing_parent_retry f dest new)) (λ _,
     am_bind changes_len (λ i,
     am_bind (push_change dest (ChAdd new o)) (λ _,
     am_bind (remove_original f mv p (Some old)) (λ _,
     set_change i p (ChUpdate (Some dest) old o new))))))) s.
Proof.
  intros Hp Hs. apply wp_bind. eapply wp_read_optional; [done|].
  clear s Hs. intros o b' s Hs Ho. rewrite delta_and_and in Hs.
  set (bb := b && b') in *. assert (Hbb : bb = true → o = fm !! dest).
  { intros Hb. apply Ho. unfold bb in Hb. by bdec. }
  clearbody bb. apply wp_bind.
  eapply wp_mono; [by apply wp_write_or_inexact| |intros s' He; by apply exact_step_inexact].
  clear s Hs. intros [] s Hs. apply wp_bind. unfold wp at 1, changes_len.
  apply wp_bind. eapply wp_push_change; [done|]. intros s' Hs'. apply wp_bind.
  rewrite (proj1 Hs). clear s Hs.
  eapply wp_mono; [by apply wp_remove_original| |].
  - intros [] s [Hd Hf]. unfold wp, set_change. rewrite Hd. simpl.
    rewrite bool_decide_true by (rewrite length_app; simpl; lia). simpl. rewrite Hf.
    split; [done|]. rewrite insert_app_r_alt, Nat.sub_diag by done. simpl.
    apply (exact_step_push d fm bb p (ChUpdate (Some dest) old o new)).
    intros Hb. split; [done|]. symmetry. auto.
  - intros s (b'' & -> & Hb''). apply exact_step_push_and; [|done].
    intros Hb. symmetry. by apply Hbb.
Qed.

Lemma apply_update_branch opts cwd p mv chunks d fm s :
  let f := follow_symlinks opts in
  at_state f d fm s →
  branch f d fm (λ _, update_effect (update_file_mode opts) cwd p mv chunks fm)
         (apply_update opts cwd p mv chunks) s.
Proof.
  intros f Hs. unfold apply_update. cbv zeta. fold f. apply wp_bind. apply (wp_note f p d fm); [done|].
  clear s Hs. intros b s Hs. destruct (Hs) as [Hd Hf]. apply wp_bind. unfold wp at 1. cbv beta iota.
  assert (Hfail : exact_step d fm (st_delta s) (files f (st_fs s))).
  { rewrite Hd, Hf. by apply exact_step_and. }
  apply wp_bind. unfold wp at 1, am_lift, derive_new_contents_from_chunks.
  pose proof (read_lookup f p (st_fs s)) as Hr. rewrite Hf in Hr.
  destruct (read_file_text f p (st_fs s)) as [e|old]; simpl in Hr; [done|].
  unfold update_effect. rewrite <- Hr. simpl.
  destruct (update_contents _ _ _ old) as [new| |]; simpl; [|done..].
  destruct mv as [dest|].
  - apply wp_bind. unfold wp at 1. destruct (path_join cwd dest) as [e|dest_uri]; simpl; [done|].
    by apply apply_update_move with (b := b).
  - apply wp_bind. eapply wp_mono with (Q := wrote f (delta_and d b) fm p new).
    + apply wp_try_write; [by auto with turnrail|]. apply wp_bind. unfold wp at 1, fs_call.
      destruct (write_file f p new (st_fs s)) as [[e|[]] w] eqn:Ew; simpl; [done|].
      split; [done|]. simpl. by rewrite (files_write _ _ _ _ _ Ew), Hf.
    + intros [] s' Hs'. eapply wp_push_change; [done|]. intros s'' [Hd'' Hf''].
      split; [by rewrite Hf''|]. rewrite Hd'', Hf''.
      by apply (exact_step_push d fm b p (ChUpdate None old None new)).
    + intros s' He. by apply exact_step_inexact.
Qed.

Lemma apply_hunk_branch opts cwd acc h d fm s :
  let f := follow_symlinks opts in
  at_state f d fm s →
  wp (apply_hunk opts cwd acc h)
     (λ acc' s', acc' = affect acc h
                 ∧ hunk_effect false (update_file_mode opts) cwd fm h = Some (files f (st_fs s'))
                 ∧ exact_step d fm (st_delta s') (files f (st_fs s')))
     (λ s', exact_step d fm (st_delta s') (files f (st_fs s'))) s.
Proof.
  intros f Hs. unfold apply_hunk, resolve_path, hunk_effect. cbv zeta. apply wp_bind.
  unfold wp at 1, am_path. destruct (path_join cwd (hunk_source_path h)) as [e|p]; simpl.
  { destruct Hs as [-> ->]. apply exact_step_refl. }
  destruct h as [p0 c|p0|p0 mv chunks]; apply wp_bind.
  - eapply wp_mono; [by apply apply_add_branch| |done]. intros [] s' [H1 H2]. done.
  - eapply wp_mono; [by apply apply_delete_branch| |done]. intros [] s' [H1 H2]. done.
  - eapply wp_mono; [by apply apply_update_branch| |done]. intros [] s' [H1 H2]. done.
Qed.

Lemma apply_hunk_loop_branch opts cwd acc hs d fm s :
  let f := follow_symlinks opts in
  at_state f d fm s →
  wp (apply_hunk_loop opts cwd acc hs)
     (λ acc' s', acc' = foldl affect acc hs
                 ∧ hunks_effect false (update_file_mode opts) cwd fm hs = Some (files f (st_fs s'))
                 ∧ exact_step d fm (st_delta s') (files f (st_fs s')))
     (λ s', exact_step d fm (st_delta s') (files f (st_fs s'))) s.
Proof.
  intros f. revert acc d fm s. induction hs as [|h hs IH]; intros acc d fm s Hs; simpl.
  - destruct Hs as [<- <-]. by split_and!; [..|apply exact_step_refl].
  - apply wp_bind. eapply wp_mono; [by apply apply_hunk_branch| |done].
    intros acc' s' (-> & -> & He). simpl.
    eapply wp_mono; [by apply (IH _ (st_delta s') (files f (st_fs s')))| |].
    + intros a s'' (-> & ? & He'). split_and!; [done..|]. by eapply exact_step_trans.
    + intros s'' He'. by eapply exact_step_trans.
Qed.

(** ** Runs *)

Definition outcome_delta (r : res (ApplyPatchFailure P PE) (AppliedPatchDelta P))
    : option (AppliedPatchDelta P) :=
  match r with
  | Ok d => Some d
  | Err e => Some (failure_delta e)
  | Panic => None
  end.

Lemma apply_hunks_branch opts cwd hs s :
  let f := follow_symlinks opts in
  wp (apply_hunks_to_files opts cwd hs)
     (λ acc' s', hs ≠ [] ∧ acc' = foldl affect no_affected hs
                 ∧ hunks_effect false (update_file_mode opts) cwd (files f (st_fs s)) hs
                   = Some (files f (st_fs s'))
                 ∧ exact_step (st_delta s) (files f (st_fs s)) (st_delta s') (files f (st_fs s')))
     (λ s', exact_step (st_delta s) (files f (st_fs s)) (st_delta s') (files f (st_fs s'))) s.
Proof.
  intros f. destruct hs as [|h hs]; [apply exact_step_refl|].
  eapply wp_mono; [by apply (apply_hunk_loop_branch opts cwd no_affected (h :: hs))| |done].
  intros a s' (? & ? & ?). done.
Qed.

Lemma exact_step_empty fm d fm' :
  exact_step delta_empty fm d fm' → exact d = true →
  replay fm (changes d) = fm' ∧ undo (changes d) fm' = fm.
Proof. intros H1 (_ & cs & -> & <- & ?)%H1. split; [done|]. by apply undo_replay. Qed.

(** A run of the hunks, whatever its outcome. *)
Lemma apply_hunks_run opts cwd hs (r r' : RunState W O) res :
  let f := follow_symlinks opts in
  apply_hunks_with_options opts cwd hs r = (res, r') →
  match outcome_delta res with
  | Some d => exact_step delta_empty (files f (run_fs r)) d (files f (run_fs r'))
  | None => True
  end.
Proof.
  intros f. unfold apply_hunks_with_options.
  pose proof (apply_hunks_branch opts cwd hs {| st_fs := run_fs r; st_delta := delta_empty |}) as Hb.
  unfold wp in Hb. cbv zeta in Hb. destruct (apply_hunks_to_files _ _ _ _) as [[a|e|] s'].
  - destruct Hb as (_ & _ & _ & Hb). destruct (print_summary _ _) as [[] out].
    all: by intros [= <- <-].
  - destruct (writeln _ _) as [[] out]; by intros [= <- <-].
  - by intros [= <- <-].
Qed.

(** The same from the text of the patch. *)
Lemma apply_patch_run opts cwd patch (r r' : RunState W O) res :
  let f := follow_symlinks opts in
  apply_patch_with_options opts cwd patch r = (res, r') →
  match outcome_delta res with
  | Some d => exact_step delta_empty (files f (run_fs r)) d (files f (run_fs r'))
  | None => True
  end.
Proof.
  intros f. unfold apply_patch_with_options. destruct (parse_patch patch) as [a|e|] eqn:Ep.
  - by intros Hrun%apply_hunks_run.
  - destruct (writeln _ _) as [[] err]; intros [= <- <-]; apply exact_step_refl.
  - by intros [= <- <-].
Qed.

(** C1. Whatever the outcome of a run, success, error half way or a failed
    report, if the delta it returns is marked exact then replaying the delta's
    changes on the files before the run gives the files after it, and undoing
    them gives the files before it back. *)
Theorem apply_patch_delta_exact opts cwd patch (r r' : RunState W O) res d :
  apply_patch_with_options opts cwd patch r = (res, r') →
  outcome_delta res = Some d → exact d = true →
  let before := files (follow_symlinks opts) (run_fs r) in
  let after := files (follow_symlinks opts) (run_fs r') in
  replay before (changes d) = after ∧ undo (changes d) after = before.
Proof.
  intros Hrun%apply_patch_run Hd He. rewrite Hd in Hrun. by apply exact_step_empty.
Qed.

(** C2. A run that succeeds has parsed a patch with at least one hunk, has
    changed the files as the hunks say, one after the other, each on the files
    the ones before it left, and has printed the summary of exactly the paths
    the hunks name. *)
Theorem apply_patch_refines opts cwd patch (r r' : RunState W O) d :
  apply_patch_with_options opts cwd patch r = (Ok d, r') →
  ∃ a, parse_patch patch = Ok a ∧ args_hunks a ≠ []
    ∧ hunks_effect false (update_file_mode opts) cwd
        (files (follow_symlinks opts) (run_fs r)) (args_hunks a)
      = Some (files (follow_symlinks opts) (run_fs r'))
    ∧ print_summary (foldl affect no_affected (args_hunks a)) (run_stdout r)
      = (inr tt, run_stdout r')
    ∧ run_stderr r' = run_stderr r.
Proof.
  unfold apply_patch_with_options. destruct (parse_patch patch) as [a|e|] eqn:Ep; [|by case_goal; case_goal|done].
  unfold apply_hunks_with_options. intros Hrun. exists a. split; [done|].
  pose proof (apply_hunks_branch opts cwd (args_hunks a) {| st_fs := run_fs r; st_delta := delta_empty |})
    as Hb.
  unfold wp in Hb. cbv zeta in Hb. destruct (apply_hunks_to_files _ _ _ _) as [[af|e|] s'].
  - destruct Hb as (Hne & -> & Heff & _).
    destruct (print_summary _ _) as [[|[]] out] eqn:Eo; simplify_eq/=. done.
  - destruct (writeln _ _) as [[] out]; done.
  - done.
Qed.

(** A patch that does not parse changes no file: the run fails with the
    parse error and an empty exact delta, after one line on stderr (or fails to
    write that line). *)
Theorem apply_patch_parse_error opts cwd patch (r : RunState W O) e :
  parse_patch patch = Err e →
  ∃ err' r', apply_patch_with_options opts cwd patch r = (Err (without_delta err'), r')
    ∧ run_fs r' = run_fs r ∧ run_stdout r' = run_stdout r
    ∧ run_stderr r' = (writeln (parse_error_report e) (run_stderr r)).2
    ∧ ((writeln (parse_error_report e) (run_stderr r)).1 = inr tt → err' = EParseError e).
Proof.
  intros Ep. unfold apply_patch_with_options. rewrite Ep.
  destruct (writeln _ _) as [[e'|[]] o]; eexists _, _; by split_and!.
Qed.

(** Moving a file onto itself destroys it: whenever an update whose
    destination resolves to its own path succeeds, the file is gone. *)
Theorem move_onto_itself_deletes opts cwd acc acc' path dest chunks uri s s' :
  path_join cwd path = inr uri → path_join cwd dest = inr uri →
  apply_hunk opts cwd acc (UpdateFile path (Some dest) chunks) s = (Ok acc', s') →
  files (follow_symlinks opts) (st_fs s')
    = delete uri (files (follow_symlinks opts) (st_fs s))
  ∧ is_Some (files (follow_symlinks opts) (st_fs s) !! uri).
Proof.
  intros Hp Hd Hrun.
  pose proof (apply_hunk_branch opts cwd acc (UpdateFile path (Some dest) chunks) (st_delta s)
    (files (follow_symlinks opts) (st_fs s)) s ltac:(done)) as Hb.
  unfold wp in Hb. rewrite Hrun in Hb. destruct Hb as (_ & He & _). revert He.
  unfold hunk_effect. simpl. rewrite Hp. simpl. unfold update_effect. rewrite Hd.
  destruct (_ !! uri) as [old|]; simpl; [|done].
  destruct (res_ok _); simpl; [|done]. intros [= <-]. split; [|done]. by rewrite delete_insert_eq.
Qed.

End Facts.
