(* ===== verification/MemFs.v ===== *)
(** * Reliable file systems: every allowed patch is applied

    An [ExecutorFileSystem] is reliable when its operations fail only for the
    reason the caller can see: the file is missing, or the parent directory is
    and creating it helps. On such a file system every patch that the abstract
    semantics allows is applied, with an exact delta. An in-memory file system
    is shown to be lawful and reliable; the examples run on it. *)

From stdpp Require Import gmap pretty.
From S2P Require Import Prelude RustStr PatchParser SeekSequence FileUpdate.
From S2P Require Import ApplyPatch ApplyPatchFacts.
Open Scope list_scope.

Class ReliableFileSystem (P PE W : Type) `{Countable P} `{!PathUriOps P PE}
    `{!ExecutorFileSystem P W} `{!LawfulFileSystem P W} := {
  reliable_metadata f p w c : files f w !! p = Some c →
    get_metadata f p w = inr {| is_directory := false; is_file := true; is_symlink := false |};
  reliable_missing f p w : files f w !! p = None →
    (∃ e, read_file_text f p w = inl e ∧ io_kind e = NotFound)
    ∧ ∃ e, get_metadata f p w = inl e ∧ io_kind e = NotFound;
  reliable_write f p c w : is_Some (files f w !! p) → (write_file f p c w).1 = inr tt;
  reliable_write_new f p c w : (write_file f p c w).1 = inr tt
    ∨ ∃ e w' parent, write_file f p c w = (inl e, w') ∧ io_kind e = NotFound
        ∧ path_parent p = Some parent
        ∧ (create_directory f parent w').1 = inr tt
        ∧ (write_file f p c (create_directory f parent w').2).1 = inr tt;
  reliable_remove f p w : is_Some (files f w !! p) → (remove f p w).1 = inr tt;
}.

Section Reliable.
Context {P PE W : Type} `{Countable P} `{PO : !PathUriOps P PE}.
Context `{FS : !ExecutorFileSystem P W} `{LF : !LawfulFileSystem P W}.
Context `{RF : !ReliableFileSystem P PE W}.
Implicit Types (s : ApplyState P W) (d : AppliedPatchDelta P) (fm : gmap P str).

(** [m] returns from [s], in a state whose delta is as exact as it was. *)
Definition succeeds {A} (m : AM P PE W A) (Q : A → ApplyState P W → Prop) s : Prop :=
  wp m (λ a s', exact (st_delta s') = exact (st_delta s) ∧ Q a s') (λ _, False) s.

Lemma kind_is_not_found e : io_kind e = NotFound → kind_is NotFound e = true.
Proof. unfold kind_is. by intros ->. Qed.

Lemma note_reliable f p s : note_existing_path_delta_support (PE:=PE) f p s = (Ok tt, s).
Proof using RF.
  unfold note_existing_path_delta_support, am_bind, fs_query.
  destruct (files f (st_fs s) !! p) as [c|] eqn:E.
  - by rewrite (reliable_metadata _ _ _ _ E).
  - destruct (reliable_missing _ _ _ E) as (_ & e & -> & He).
    by rewrite (kind_is_not_found _ He).
Qed.

Lemma read_optional_reliable f p s :
  read_optional_file_text_for_delta (PE:=PE) f p s = (Ok (files f (st_fs s) !! p), s).
Proof using RF.
  unfold read_optional_file_text_for_delta, am_bind, fs_query. rewrite note_reliable.
  pose proof (read_lookup f p (st_fs s)) as Hr.
  destruct (files f (st_fs s) !! p) as [c|] eqn:E.
  - destruct (read_file_text f p (st_fs s)); by simplify_eq/=.
  - destruct (reliable_missing _ _ _ E) as ((e & -> & He) & _).
    by rewrite (kind_is_not_found _ He).
Qed.

Lemma write_retry_reliable f p c s :
  succeeds (write_file_with_missing_parent_retry f p c) (λ _ _, True) s.
Proof using RF.
  unfold succeeds, wp, write_file_with_missing_parent_retry, am_bind, fs_call.
  destruct (reliable_write_new f p c (st_fs s)) as [Hw|(e & w' & parent & -> & He & -> & Hc & Hw)].
  - destruct (write_file f p c (st_fs s)) as [? w]. simpl in Hw. by subst.
  - rewrite (kind_is_not_found _ He). simpl. unfold with_context.
    destruct (create_directory f parent w') as [? w1]. simpl in *. subst. simpl.
    destruct (write_file f p c w1) as [? w2]. simpl in *. by subst.
Qed.

Lemma try_write_succeeds {A} (m : AM P PE W A) Q s :
  succeeds m Q s → succeeds (try_write m) Q s.
Proof. unfold succeeds, wp, try_write. by destruct (m s) as [[] s']. Qed.

Lemma remove_original_reliable f ctx p o s :
  is_Some (files f (st_fs s) !! p) → succeeds (remove_original f ctx p o) (λ _ _, True) s.
Proof using RF.
  intros [c Hc]. unfold succeeds, wp, remove_original, ensure_not_directory, am_bind, fs_query, fs_call.
  rewrite (reliable_metadata _ _ _ _ Hc). simpl.
  pose proof (reliable_remove f p (st_fs s) ltac:(done)) as Hr.
  destruct (remove f p (st_fs s)) as [? w]. simpl in Hr. by subst.
Qed.

Lemma succeeds_bind {A B} (m : AM P PE W A) (k : A → AM P PE W B) Q R s :
  succeeds m R s → (∀ a s', R a s' → succeeds (k a) Q s') → succeeds (am_bind m k) Q s.
Proof.
  intros Hm Hk. apply wp_bind. eapply wp_mono; [done| |done].
  intros a s' [He Ha]. specialize (Hk a s' Ha). unfold succeeds in Hk. by rewrite He in Hk.
Qed.

Lemma succeeds_exact {A} (m : AM P PE W A) (Q : A → ApplyState P W → Prop) a s :
  m s = (Ok a, s) → Q a s → succeeds m Q s.
Proof. unfold succeeds, wp. by intros ->. Qed.

Lemma succeeds_and {A} (m : AM P PE W A) Q R E s :
  succeeds m Q s → wp m R E s → succeeds m (λ a s', Q a s' ∧ R a s') s.
Proof. unfold succeeds, wp. destruct (m s) as [[] s']; naive_solver. Qed.

Lemma push_change_succeeds p c s : succeeds (push_change p c) (λ _ _, True) s.
Proof. done. Qed.

Lemma write_succeeds f p c s :
  succeeds (try_write (write_file_with_missing_parent_retry f p c))
    (λ _ s', files f (st_fs s') = <[p := c]> (files f (st_fs s))) s.
Proof using RF.
  apply try_write_succeeds. eapply wp_mono.
  - eapply succeeds_and; [apply write_retry_reliable|].
    by apply (wp_write_retry f p c (st_delta s) (files f (st_fs s))).
  - intros a s' (? & _ & _ & ?). done.
  - done.
Qed.

Lemma apply_add_succeeds f p c s : succeeds (apply_add f p c) (λ _ _, True) s.
Proof using RF.
  eapply succeeds_bind with (R := λ _ _, True);
    [by eapply succeeds_exact; [apply read_optional_reliable|]|].
  intros o s1 _. eapply succeeds_bind; [apply write_succeeds|]. done.
Qed.

Lemma apply_delete_succeeds f p s :
  is_Some (files f (st_fs s) !! p) → succeeds (apply_delete f p) (λ _ _, True) s.
Proof using RF.
  intros Hp. unfold apply_delete.
  eapply succeeds_bind with (R := λ _ s', s' = s); [by eapply succeeds_exact; [apply note_reliable|]|].
  intros [] s1 ->. eapply succeeds_bind with (R := λ r s', r = read_file_text f p (st_fs s) ∧ s' = s);
    [done|].
  intros ? ? [-> ->]. pose proof (read_lookup f p (st_fs s)) as Hr. destruct Hp as [c Hc].
  rewrite Hc in Hr. destruct (read_file_text f p (st_fs s)) as [|c']; simplify_eq/=.
  eapply succeeds_bind with (R := λ _ s', s' = s); [done|]. intros [] ? ->.
  eapply succeeds_bind; [by apply remove_original_reliable|]. done.
Qed.

Lemma apply_update_succeeds opts cwd p mv chunks fm' s :
  update_effect (update_file_mode opts) cwd p mv chunks (files (follow_symlinks opts) (st_fs s))
  = Some fm' → succeeds (apply_update opts cwd p mv chunks) (λ _ _, True) s.
Proof using RF.
  set (f := follow_symlinks opts). intros Heff. unfold apply_update. cbv zeta. fold f.
  eapply succeeds_bind with (R := λ _ s', s' = s); [by eapply succeeds_exact; [apply note_reliable|]|].
  intros [] ? ->. eapply succeeds_bind with (R := λ w s', w = st_fs s ∧ s' = s); [done|].
  intros ? ? [-> ->]. unfold update_effect in Heff.
  pose proof (read_lookup f p (st_fs s)) as Hr.
  destruct (files f (st_fs s) !! p) as [old|] eqn:Hold; simpl in Heff; [|done].
  destruct (update_contents _ _ _ old) as [new| |] eqn:Hnew; simpl in Heff; [|done..].
  eapply succeeds_bind with (R := λ ap s', s' = s ∧ ap = {| original_contents := old; new_contents := new |}).
  { unfold succeeds, wp, am_lift, derive_new_contents_from_chunks.
    destruct (read_file_text f p (st_fs s)); simplify_eq/=. by rewrite Hnew. }
  intros ? ? [-> ->]. simpl. destruct mv as [dest|].
  - destruct (path_join cwd dest) as [e|d]; simpl in Heff; [done|].
    eapply succeeds_bind with (R := λ a s', a = d ∧ s' = s); [done|]. intros ? ? [-> ->].
    eapply succeeds_bind with (R := λ _ s', s' = s);
      [by eapply succeeds_exact; [apply read_optional_reliable|]|].
    intros o ? ->. eapply succeeds_bind; [apply write_succeeds|]. intros [] s1 Hs1.
    eapply succeeds_bind with (R := λ i s', i = length (changes (st_delta s1)) ∧ s' = s1); [done|].
    intros ? ? [-> ->].
    eapply succeeds_bind with (R := λ _ s', length (changes (st_delta s1)) < length (changes (st_delta s'))
                                            ∧ st_fs s' = st_fs s1).
    { split; [done|]. simpl. rewrite length_app. simpl. split; [lia|done]. }
    intros [] s2 [Hlt Hfs].
    eapply succeeds_bind.
    { eapply succeeds_and; [apply remove_original_reliable|apply wp_remove_original; done].
      rewrite Hfs, Hs1. destruct (decide (d = p)) as [->|]; [by rewrite lookup_insert_eq|].
      by rewrite lookup_insert_ne. }
    intros [] s3 (_ & Hd3 & _). unfold succeeds, wp, set_change. rewrite Hd3.
    by rewrite bool_decide_true.
  - eapply succeeds_bind with (R := λ _ _, True); [|done]. apply try_write_succeeds.
    unfold succeeds, wp, am_bind, fs_call.
    pose proof (reliable_write f p new (st_fs s) ltac:(by rewrite Hold)) as Hw.
    destruct (write_file f p new (st_fs s)) as [? w]. simpl in Hw. by subst.
Qed.

Lemma apply_hunk_succeeds opts cwd acc h fm' s :
  hunk_effect true (update_file_mode opts) cwd (files (follow_symlinks opts) (st_fs s)) h = Some fm' →
  succeeds (apply_hunk opts cwd acc h)
    (λ acc' s', acc' = affect acc h ∧ files (follow_symlinks opts) (st_fs s') = fm') s.
Proof using RF.
  intros Heff. eapply wp_mono with (Q := λ a s', exact (st_delta s') = exact (st_delta s) ∧ True ∧ _).
  - eapply succeeds_and; [|by apply apply_hunk_branch]. unfold apply_hunk, resolve_path. cbv zeta.
    unfold hunk_effect in Heff.
    destruct (path_join cwd (hunk_source_path h)) as [e|p] eqn:Ej; simpl in Heff; [done|].
    eapply succeeds_bind with (R := λ a s', a = p ∧ s' = s); [done|]. intros ? ? [-> ->].
    destruct h as [p0 c|p0|p0 mv chunks]; eapply succeeds_bind; try done.
    + apply apply_add_succeeds.
    + apply apply_delete_succeeds. case_match; [done|]. bdec. apply not_eq_None_Some. naive_solver.
    + by eapply apply_update_succeeds.
  - intros a s' (He & _ & -> & Heff' & _). split_and!; [done..|].
    revert Heff Heff'. unfold hunk_effect. destruct (inr_option _) as [p|]; simpl; [|done].
    destruct h; simpl; try case_match; congruence.
  - done.
Qed.

Lemma apply_hunk_loop_succeeds opts cwd acc hs fm' s :
  hunks_effect true (update_file_mode opts) cwd (files (follow_symlinks opts) (st_fs s)) hs = Some fm' →
  succeeds (apply_hunk_loop opts cwd acc hs)
    (λ acc' s', acc' = foldl affect acc hs ∧ files (follow_symlinks opts) (st_fs s') = fm') s.
Proof using RF.
  revert acc s. induction hs as [|h hs IH]; intros acc s Heff; simpl in *; [by simplify_eq|].
  destruct (hunk_effect _ _ _ _ h) as [fm1|] eqn:E1; simpl in Heff; [|done].
  eapply succeeds_bind; [by eapply apply_hunk_succeeds|].
  intros acc1 s1 [-> Hs1]. apply IH. by rewrite Hs1.
Qed.

Lemma apply_hunks_total opts cwd hs fm' (w : W) :
  hs ≠ [] →
  hunks_effect true (update_file_mode opts) cwd (files (follow_symlinks opts) w) hs = Some fm' →
  ∃ s', apply_hunks_to_files opts cwd hs {| st_fs := w; st_delta := delta_empty |}
        = (Ok (foldl affect no_affected hs), s')
    ∧ files (follow_symlinks opts) (st_fs s') = fm' ∧ exact (st_delta s') = true.
Proof using RF.
  intros Hne Heff. unfold apply_hunks_to_files. destruct hs as [|h hs]; [done|].
  pose proof (apply_hunk_loop_succeeds opts cwd no_affected (h :: hs) fm'
    {| st_fs := w; st_delta := delta_empty |} Heff) as Hs.
  unfold succeeds, wp in Hs. destruct (apply_hunk_loop _ _ _ _ _) as [[] s']; [|done..].
  destruct Hs as (He & -> & Hf). eauto.
Qed.

(** C13. On a reliable file system, every nonempty list of hunks the semantics
    allows is applied: the run returns, reports exactly the paths the hunks
    name, leaves exactly the files the semantics gives, and its delta is
    exact. *)
Theorem apply_hunks_complete opts cwd hs fm' (w : W) :
  hs ≠ [] →
  hunks_effect true (update_file_mode opts) cwd (files (follow_symlinks opts) w) hs = Some fm' →
  ∃ s', apply_hunks_to_files opts cwd hs {| st_fs := w; st_delta := delta_empty |}
        = (Ok (foldl affect no_affected hs), s')
    ∧ files (follow_symlinks opts) (st_fs s') = fm' ∧ exact (st_delta s') = true.
Proof using RF. apply apply_hunks_total. Qed.

End Reliable.

(** ** An in-memory file system

    Files and directories are kept apart; a file can be created only where its
    parent directory exists. *)

Record MemFs := { mem_files : gmap str str; mem_dirs : gset str }.

Definition not_found : IoErr := {| io_kind := NotFound; io_msg := lit "not found" |}.

#[global] Instance mem_path : PathUriOps str unit := {
  path_join cwd p := inr (cwd ++ [c_slash] ++ p);
  path_parent p := fst <$> rsplit_once c_slash p;
  inferred_native_path_string p := p;
  path_error_display _ := lit "bad path";
}.

#[global] Instance mem_fs : ExecutorFileSystem str MemFs := {
  read_file_text _ p w := match mem_files w !! p with Some c => inr c | None => inl not_found end;
  get_metadata _ p w :=
    match mem_files w !! p with
    | Some _ => inr {| is_directory := false; is_file := true; is_symlink := false |}
    | None => inl not_found
    end;
  write_file _ p c w :=
    if bool_decide (mem_files w !! p = None) &&
       match rsplit_once c_slash p with
       | Some (d, _) => bool_decide (d ∉ mem_dirs w)
       | None => false
       end
    then (inl not_found, w)
    else (inr tt, {| mem_files := <[p := c]> (mem_files w); mem_dirs := mem_dirs w |});
  create_directory _ p w := (inr tt, {| mem_files := mem_files w; mem_dirs := {[p]} ∪ mem_dirs w |});
  remove _ p w :=
    if bool_decide (mem_files w !! p = None) then (inl not_found, w)
    else (inr tt, {| mem_files := delete p (mem_files w); mem_dirs := mem_dirs w |});
}.

#[global] Instance mem_lawful : LawfulFileSystem str MemFs.
Proof.
  refine {| files := λ _ w, mem_files w |}; simpl; intros;
    repeat (case_match; simplify_eq/=); naive_solver.
Defined.

#[global] Instance mem_reliable : ReliableFileSystem str unit MemFs.
Proof.
  split; simpl; intros f p.
  - by intros w c ->.
  - intros w ->. split; by exists not_found.
  - intros c w [x ->]. done.
  - intros c w. destruct (rsplit_once c_slash p) as [[d ?]|] eqn:E; simpl; [|rewrite andb_false_r; by left].
    destruct (bool_decide (mem_files w !! p = None)); simpl; [|by left].
    destruct (decide (d ∈ mem_dirs w)).
    + left. by rewrite bool_decide_false by auto.
    + right. rewrite bool_decide_true by done. eexists _, _, d. split; [done|].
      repeat split. simpl. rewrite (bool_decide_false (d ∉ _)) by set_solver.
      by rewrite andb_false_r.
  - intros w [x ->]. done.
Defined.

(** A report stream that keeps its lines. *)
#[global] Instance mem_writer : Writer (list str) := λ l o, (inr tt, o ++ [l]).

(** ** Sample runs *)

Definition text (ls : list str) : str := join [c_lf] ls.
Definition demo_patch : str := text
  [lit "*** Begin Patch"; lit "*** Add File: d/new"; lit "+hi"; lit "*** Update File: a";
   lit "*** Move to: b"; lit "@@"; lit "-x"; lit "+y"; lit "*** Delete File: c"; lit "*** End Patch"].
Definition demo_fs : MemFs :=
  {| mem_files := <[lit "r/a" := text [lit "x"; []]]> (<[lit "r/c" := lit "z"]> ∅);
     mem_dirs := {[lit "r"]} |}.
Definition demo_run : RunState MemFs (list str) :=
  {| run_fs := demo_fs; run_stdout := []; run_stderr := [] |}.
Definition demo_result := apply_patch (lit "r") demo_patch demo_run.

(** The sample run: a file in a new directory, an update with a move, a
    deletion, and the summary of all three. *)
Example demo_result_eq :
  map_to_list (mem_files (run_fs demo_result.2))
    ≡ₚ [(lit "r/b", text [lit "y"; []]); (lit "r/d/new", text [lit "hi"; []])]
  ∧ run_stdout demo_result.2
    = [lit "Success. Updated the following files:"; lit "A d/new"; lit "M b"; lit "D c"].
Proof. split; [|vm_compute; reflexivity]. decide_now. Qed.

Lemma apply_patch_delta_exact_witness :
  ∃ d, outcome_delta demo_result.1 = Some d ∧ exact d = true
    ∧ replay (mem_files demo_fs) (changes d) = mem_files (run_fs demo_result.2)
    ∧ undo (changes d) (mem_files (run_fs demo_result.2)) = mem_files demo_fs.
Proof.
  destruct (outcome_delta demo_result.1) as [d|] eqn:E; [|vm_compute in E; discriminate].
  assert (He : exact d = true) by (vm_compute in E; injection E as <-; reflexivity).
  exists d. split; [done|]. split; [done|].
  exact (apply_patch_delta_exact default_options (lit "r") demo_patch demo_run demo_result.2
           demo_result.1 d (surjective_pairing _) E He).
Defined.

Lemma apply_patch_refines_witness :
  ∃ d a, apply_patch_with_options default_options (lit "r") demo_patch demo_run
         = (Ok d, demo_result.2)
    ∧ parse_patch demo_patch = Ok a
    ∧ hunks_effect (PE:=unit) false NormalizeToLf (lit "r") (mem_files demo_fs) (args_hunks a)
      = Some (mem_files (run_fs demo_result.2)).
Proof.
  destruct demo_result.1 as [d|e|] eqn:E; [|vm_compute in E; discriminate..].
  assert (Hrun : apply_patch_with_options default_options (lit "r") demo_patch demo_run
                 = (Ok d, demo_result.2)).
  { rewrite <- E. unfold demo_result, apply_patch. apply surjective_pairing. }
  destruct (apply_patch_refines default_options (lit "r") demo_patch demo_run demo_result.2 d Hrun)
    as (a & Hp & _ & Heff & _).
  exists d, a. exact (conj Hrun (conj Hp Heff)).
Defined.

Lemma apply_patch_parse_error_witness :
  ∃ e err' r', parse_patch (lit "x") = Err e
    ∧ apply_patch (lit "r") (lit "x") demo_run = (Err (without_delta err'), r')
    ∧ run_fs r' = demo_fs ∧ err' = EParseError e.
Proof.
  destruct (parse_patch (lit "x")) as [a|e|] eqn:E; [vm_compute in E; discriminate| |vm_compute in E; discriminate].
  destruct (apply_patch_parse_error default_options (lit "r") (lit "x") demo_run e E)
    as (err' & r' & Hr & Hfs & _ & _ & Herr).
  exists e, err', r'. split_and!; [done..|]. by apply Herr.
Defined.

Definition self_move : Hunk :=
  UpdateFile (lit "a") (Some (lit "a"))
    [{| change_context := None; old_lines := [lit "x"]; new_lines := [lit "y"];
        context_line_indices := []; is_end_of_file := false |}].

Lemma move_onto_itself_deletes_witness :
  ∃ acc' s', apply_hunk default_options (lit "r") no_affected self_move
               {| st_fs := demo_fs; st_delta := delta_empty |} = (Ok acc', s')
    ∧ mem_files (st_fs s') = delete (lit "r/a") (mem_files demo_fs)
    ∧ is_Some (mem_files demo_fs !! lit "r/a").
Proof.
  destruct (apply_hunk default_options (lit "r") no_affected self_move
              {| st_fs := demo_fs; st_delta := delta_empty |}) as [[acc'|e|] s'] eqn:E;
    [|vm_compute in E; discriminate..].
  exists acc', s'. split; [done|].
  exact (move_onto_itself_deletes default_options (lit "r") no_affected acc' (lit "a") (lit "a")
           _ (lit "r/a") {| st_fs := demo_fs; st_delta := delta_empty |} s' eq_refl eq_refl E).
Defined.

Lemma apply_hunks_complete_witness :
  ∃ fm' s', hunks_effect (PE:=unit) true NormalizeToLf (lit "r") (mem_files demo_fs)
              [AddFile (lit "q/n") (lit "1"); DeleteFile (lit "q/n")] = Some fm'
    ∧ apply_hunks_to_files default_options (lit "r")
        [AddFile (lit "q/n") (lit "1"); DeleteFile (lit "q/n")]
        {| st_fs := demo_fs; st_delta := delta_empty |}
      = (Ok {| added := [lit "q/n"]; modified := []; deleted := [lit "q/n"] |}, s')
    ∧ mem_files (st_fs s') = fm' ∧ exact (st_delta s') = true.
Proof.
  destruct (hunks_effect (PE:=unit) true NormalizeToLf (lit "r") (mem_files demo_fs)
              [AddFile (lit "q/n") (lit "1"); DeleteFile (lit "q/n")]) as [fm'|] eqn:E;
    [|vm_compute in E; discriminate].
  destruct (apply_hunks_complete default_options (lit "r")
              [AddFile (lit "q/n") (lit "1"); DeleteFile (lit "q/n")] fm' demo_fs ltac:(done) E)
    as (s' & Hs' & ?).
  exists fm', s'. split; [done|]. split; [exact Hs'|done].
Defined.
