(* ===== verification/ApplyPatchSafety.v ===== *)
(** * Absence of panics from the patch text to the file system

    [Vec::insert], slicing, indexing and [usize] subtraction can panic. For the
    chunks of a patch that parses none of them does, in either update mode, so
    that [apply_patch_with_options] never panics, whatever the patch, the files
    and the failures of the file system. *)

From stdpp Require Import gmap sorting.
From S2P Require Import Prelude RustStr RustOrd PatchParser PatchParserFacts SeekSequence TextFile.
From S2P Require Import FileUpdate FileUpdateFacts ApplyPatch ApplyPatchFacts MemFs.
Open Scope list_scope.

Section Safety.
Context {PE : Type}.
Abbreviation err := (ApplyPatchError PE).

(** ** Replacements applied from the last to the first *)

Lemma remove_at_length i n ls : i ≤ length ls → i ≤ length (remove_at i n ls).
Proof.
  revert ls. induction n as [|n IH]; intros ls Hi; simpl; [done|]. apply IH.
  destruct (bool_decide _) eqn:E; [|done]. bdec.
  destruct (lookup_lt_is_Some_2 ls i E) as [x Hx]. rewrite (length_delete ls i); [lia|done].
Qed.

Lemma insert_lines_fits i new ls :
  i ≤ length ls → ∃ ls', @insert_lines PE i new ls = Ok ls' ∧ i ≤ length ls'.
Proof.
  revert i ls. induction new as [|x new IH]; intros i ls Hi; simpl; [eauto|].
  rewrite bool_decide_true by done.
  destruct (IH (S i) (take i ls ++ x :: drop i ls)) as (ls' & -> & Hl).
  - rewrite length_app. simpl. rewrite length_take, length_drop. lia.
  - exists ls'. split; [done|lia].
Qed.

Definition starts_le (r1 r2 : Replacement) : Prop := rep_start r1 ≤ rep_start r2.

Lemma sort_replacements_sorted reps : StronglySorted starts_le (sort_replacements reps).
Proof.
  assert (H : StronglySorted (le_rel starts_leb) (sort_replacements reps)).
  { apply sort_stable_sorted; unfold starts_leb; intros *; rewrite !bool_decide_eq_true; lia. }
  induction H as [|r l _ IH Hr]; constructor; [done|]. eapply Forall_impl; [exact Hr|]. intros x. apply bool_decide_eq_true.
Qed.

(** The invariant of the reverse loop: the lines before the next start are
    still there. *)
Lemma apply_replacements_rev reps ls :
  StronglySorted (flip starts_le) reps → Forall (λ r, rep_start r ≤ length ls) reps →
  ∃ ls', foldM (@apply_replacement PE) ls reps = Ok ls'.
Proof.
  intros Hs. revert ls. induction Hs as [|[[i n] new] reps Hs IH Hx]; intros ls Hf; simpl; [eauto|].
  inversion_clear Hf as [|? ? Hi _]. unfold rep_start in Hi. simpl in Hi.
  destruct (insert_lines_fits i new (remove_at i n ls)) as (ls1 & -> & Hl);
    [by apply remove_at_length|]. simpl. apply IH.
  eapply Forall_impl; [exact Hx|]. unfold flip, starts_le, rep_start. simpl. intros; lia.
Qed.

Lemma StronglySorted_rev {A} (R : A → A → Prop) l :
  StronglySorted R l → StronglySorted (flip R) (rev l).
Proof.
  induction 1 as [|x l Hs IH Hx]; simpl; [constructor|].
  apply StronglySorted_app_2; [|done|by repeat constructor].
  intros y z Hy Hz. apply list_elem_of_singleton in Hz as ->.
  rewrite Forall_forall in Hx. apply Hx. by rewrite list_elem_of_In, <- in_rev, <- list_elem_of_In in Hy.
Qed.

Lemma apply_replacements_no_panic reps ls :
  Forall (λ r, rep_start r ≤ length ls) reps →
  ∃ ls', @apply_replacements PE ls (sort_replacements reps) = Ok ls'.
Proof.
  intros Hf. apply apply_replacements_rev.
  - apply StronglySorted_rev, sort_replacements_sorted.
  - apply Forall_rev, sort_replacements_Forall, Hf.
Qed.

(** ** The legacy loop: every start is inside the file *)

Definition starts_inside (len : nat) (st : nat * list Replacement) : Prop :=
  st.1 ≤ len ∧ Forall (λ r, rep_start r ≤ len) st.2.

Lemma seek_inside lines pattern start eof m i :
  start ≤ length lines → seek_sequence lines pattern start eof m = Some i →
  i + length pattern ≤ length lines.
Proof. intros Hs [[-> ->]|[_ ?]]%seek_sequence_bounds; simpl; [lia|done]. Qed.

Lemma legacy_step_inside lines path st c :
  starts_inside (length lines) st →
  match @chunk_step PE lines path NormalizeToLf st c with
  | Ok st' => starts_inside (length lines) st'
  | Err _ => True
  | Panic => False
  end.
Proof.
  destruct st as [li reps]. intros [Hli Hf]. simpl in Hli, Hf. unfold chunk_step.
  set (ctx := match change_context c with Some _ => _ | None => _ end).
  assert (Hctx : match ctx with Ok li' => li' ≤ length lines | Err _ => True | Panic => False end).
  { subst ctx. destruct (change_context c) as [l|]; [|done].
    destruct (seek_sequence lines [l] li false NormalizeToLf) as [idx|] eqn:E; [|done].
    apply seek_inside in E; done. }
  destruct ctx as [li'| |]; cbn [res_bind]; [|done..]. destruct (old_lines c) as [|o os] eqn:Eo.
  - split; [done|]. apply Forall_app. split; [done|]. constructor; [|done].
    unfold rep_start; simpl. destruct (ends_empty lines); lia.
  - destruct (locate_chunk lines NormalizeToLf li' c) as [[pattern new_slice] found] eqn:El.
    destruct (locate_chunk_prefix _ _ _ _ _ _ _ El) as (_ & _ & Hfound).
    destruct found as [i|]; [|done]. symmetry in Hfound. apply seek_inside in Hfound; [|done].
    split; [done|]. apply Forall_app. split; [done|]. constructor; [|done].
    unfold rep_start; simpl. lia.
Qed.

Lemma legacy_loop_inside lines path cs st :
  starts_inside (length lines) st →
  match foldM (@chunk_step PE lines path NormalizeToLf) st cs with
  | Ok st' => starts_inside (length lines) st'
  | Err _ => True
  | Panic => False
  end.
Proof.
  revert st. induction cs as [|c cs IH]; intros st Hst; simpl; [done|].
  pose proof (legacy_step_inside lines path st c Hst) as H.
  destruct (chunk_step _ _ _ _ _) as [st'| |]; simpl; [by apply IH|done..].
Qed.

Lemma legacy_update_no_panic name chunks contents :
  @update_contents PE NormalizeToLf name chunks contents ≠ Panic.
Proof.
  unfold update_contents. cbv zeta. set (lines := if ends_empty _ then _ else _).
  unfold compute_replacements.
  pose proof (legacy_loop_inside lines name chunks (0, []) ltac:(split; simpl; [lia|done])) as H.
  destruct (foldM _ _ chunks) as [st| |]; simpl; [|done..].
  destruct (apply_replacements_no_panic st.2 lines) as [ls ->]; [apply H|]. done.
Qed.

Lemma update_no_panic m name chunks contents :
  Forall chunk_wf chunks → @update_contents PE m name chunks contents ≠ Panic.
Proof.
  intros Hwf. destruct m; [apply legacy_update_no_panic|].
  unfold update_contents. cbv zeta.
  pose proof (compute_replacements_outcome (PE := PE) (line_texts (parse_source contents)) name chunks
                PreserveLineEndings Hwf) as H.
  destruct (compute_replacements _ _ _ _) as [reps|[]|]; simpl; try done.
  rewrite line_texts_length in H. by rewrite source_apply_ordered.
Qed.

End Safety.

(** ** The application of a patch *)

Section Application.
Context {P PE W O : Type} `{PO : !PathUriOps P PE} `{FS : !ExecutorFileSystem P W} `{WR : !Writer O}.

(** Computations that leave the recorded changes alone. *)
Definition keeps_changes {A} (m : AM P PE W A) : Prop :=
  ∀ s, changes (st_delta (m s).2) = changes (st_delta s).

Lemma keeps_bind {A B} (m : AM P PE W A) (k : A → AM P PE W B) :
  keeps_changes m → (∀ a, keeps_changes (k a)) → keeps_changes (am_bind m k).
Proof.
  intros Hm Hk s. unfold am_bind. specialize (Hm s). destruct (m s) as [[a| |] s']; simpl in *; [|done..].
  by rewrite Hk.
Qed.

Lemma remove_original_keeps f c p o : keeps_changes (remove_original f c p o).
Proof.
  assert (Hcall : ∀ op, keeps_changes (fs_call op)).
  { intros op s. unfold fs_call. by destruct (op (st_fs s)). }
  assert (Hctx : ∀ A c (r : io_result A), keeps_changes (with_context c r)) by (by intros ?? []).
  unfold remove_original, ensure_not_directory, remove_failure_was_side_effect_free.
  repeat first [ apply keeps_bind; [|intros ?] | case_goal | done | apply Hcall | apply Hctx ].
Qed.

Lemma no_panic_move f p dest ctx old new :
  no_panic (PE:=PE)
    (am_bind (read_optional_file_text_for_delta f dest) (λ o,
     am_bind (try_write (write_file_with_missing_parent_retry f dest new)) (λ _,
     am_bind changes_len (λ i,
     am_bind (push_change dest (ChAdd new o)) (λ _,
     am_bind (remove_original f ctx p (Some old)) (λ _,
     set_change i p (ChUpdate (Some dest) old o new))))))).
Proof.
  apply no_panic_bind; [apply read_optional_no_panic|intros o].
  apply no_panic_bind; [apply no_panic_try, write_retry_no_panic|intros _].
  intros s. unfold am_bind at 1, changes_len. unfold am_bind at 1, push_change.
  set (s1 := {| st_fs := _; st_delta := _ |}). unfold am_bind.
  pose proof (remove_original_keeps f ctx p (Some old) s1) as Hk.
  pose proof (remove_original_no_panic (PE:=PE) f ctx p (Some old) s1) as Hp.
  destruct (remove_original f ctx p (Some old) s1) as [[a| |] s2]; simpl in *; [|done..].
  unfold set_change. rewrite Hk. rewrite bool_decide_true; [done|]. rewrite length_app. simpl. lia.
Qed.

Lemma apply_update_no_panic opts cwd p mv chunks :
  Forall chunk_wf chunks → no_panic (PE:=PE) (W:=W) (apply_update opts cwd p mv chunks).
Proof.
  intros Hwf. unfold apply_update. apply no_panic_bind; [apply note_no_panic|intros _].
  apply no_panic_bind; [done|intros w]. apply no_panic_bind.
  { intros s. unfold am_lift, derive_new_contents_from_chunks.
    destruct (read_file_text _ _ _) as [e|old]; simpl; [done|].
    pose proof (update_no_panic (PE:=PE) (update_file_mode opts) (inferred_native_path_string p)
                  chunks old Hwf).
    by destruct (update_contents _ _ _ _). }
  intros ap. destruct mv as [dest|].
  - apply no_panic_bind; [apply no_panic_path|intros d]. apply no_panic_move.
  - apply no_panic_bind; [|intros _; apply no_panic_push]. apply no_panic_try.
    apply no_panic_bind; [apply no_panic_call|intros r; apply no_panic_context].
Qed.

Lemma apply_hunk_no_panic opts cwd acc h :
  hunk_wf h → no_panic (PE:=PE) (W:=W) (apply_hunk opts cwd acc h).
Proof.
  intros Hwf. unfold apply_hunk. apply no_panic_bind; [apply no_panic_path|intros p].
  destruct h as [q c|q|q mv chunks]; (apply no_panic_bind; [|intros _; apply no_panic_ret]).
  - apply no_panic_bind; [apply read_optional_no_panic|intros o].
    apply no_panic_bind; [apply no_panic_try, write_retry_no_panic|intros _; apply no_panic_push].
  - unfold apply_delete. apply no_panic_bind; [apply note_no_panic|intros _].
    apply no_panic_bind; [apply no_panic_query|intros r]. cbv zeta.
    apply no_panic_bind; [by destruct r|intros _].
    apply no_panic_bind; [apply remove_original_no_panic|intros _]. by destruct r.
  - by apply apply_update_no_panic.
Qed.

Lemma apply_hunk_loop_no_panic opts cwd acc hs :
  Forall hunk_wf hs → no_panic (PE:=PE) (W:=W) (apply_hunk_loop opts cwd acc hs).
Proof.
  intros Hwf. revert acc. induction Hwf as [|h hs Hh Hs IH]; intros acc; simpl; [done|].
  apply no_panic_bind; [by apply apply_hunk_no_panic|]. intros acc'. apply IH.
Qed.

(** Applying a patch never panics, whatever the patch text, the options,
    the files, and the failures of the file system or of the report streams:
    no slice, index, insertion or subtraction of the whole pipeline goes out of
    range. *)
Theorem apply_patch_no_panic opts cwd patch (r : RunState W O) :
  (apply_patch_with_options (PE:=PE) opts cwd patch r).1 ≠ Panic.
Proof.
  unfold apply_patch_with_options.
  destruct (parse_patch patch) as [a|e|] eqn:Ep.
  - apply parse_patch_hunks_ok in Ep as [_ Hwf]. unfold apply_hunks_with_options.
    assert (Hn : no_panic (PE:=PE) (W:=W) (apply_hunks_to_files opts cwd (args_hunks a))).
    { unfold apply_hunks_to_files. destruct (args_hunks a); [done|]. by apply apply_hunk_loop_no_panic. }
    specialize (Hn {| st_fs := run_fs r; st_delta := delta_empty |}).
    destruct (apply_hunks_to_files _ _ _ _) as [[af|e|] s']; [| |done].
    + by destruct (print_summary _ _) as [[] out].
    + by destruct (writeln _ _) as [[] out].
  - by destruct (writeln _ _) as [[] out].
  - by pose proof (parse_patch_total patch).
Qed.

End Application.
