(* ===== verification/PathConvention.v ===== *)
(** * Path conventions

    The two syntaxes of native paths, from [utils/path-uri/src/lib.rs] and
    [utils/absolute-path/src/lib.rs], and the inspection of path text that
    needs no path type: segments, home-relative paths, device prefixes. *)

From S2P Require Import Prelude RustStr.
Open Scope list_scope.

Inductive PathConvention := Posix | Windows.

#[global] Instance PathConvention_eq : EqDecision PathConvention.
Proof. solve_decision. Defined.

Definition is_separator (conv : PathConvention) (c : char) : bool :=
  match conv with
  | Posix => (c =? 47)%N
  | Windows => (c =? 47)%N || (c =? 92)%N
  end.

Definition path_segments (conv : PathConvention) (path : str) : list str :=
  split_by (is_separator conv) path.

Definition home_relative_suffix (conv : PathConvention) (path : str) : option str :=
  suffix ← strip_prefix [126%N] path;
  if bool_decide (suffix = []) || starts_with [c_slash] suffix
     || bool_decide (conv = Windows) && starts_with [c_backslash] suffix
  then Some suffix else None.

Definition is_windows_separator_char (c : char) : bool := (c =? 92)%N || (c =? 47)%N.

(** ** Device prefixes of Windows paths *)

Definition is_windows_drive_absolute_path (path : str) : bool :=
  match path with
  | d :: c :: s :: _ => is_ascii_alphabetic d && (c =? 58)%N && is_windows_separator_char s
  | _ => false
  end.

Definition normalize_windows_device_path (path : str) : option str :=
  match strip_prefix (lit "\\?\UNC\") path with
  | Some unc => Some (lit "\\" ++ unc)
  | None =>
  match strip_prefix (lit "\\.\UNC\") path with
  | Some unc => Some (lit "\\" ++ unc)
  | None =>
      let drive prefix := p ← strip_prefix prefix path;
                          if is_windows_drive_absolute_path p then Some p else None in
      match drive (lit "\\?\") with
      | Some p => Some p
      | None => drive (lit "\\.\")
      end
  end
  end.

(** ** UTF-16 ([str::encode_utf16], [u16::to_le_bytes], [String::from_utf16_lossy]) *)

Definition encode_utf16_char (c : char) : list N :=
  if (c <? 65536)%N then [c]
  else [55296 + (c - 65536) / 1024; 56320 + (c - 65536) mod 1024]%N.
Definition encode_utf16 (s : str) : list N := s ≫= encode_utf16_char.

Definition u16_le_bytes (u : N) : list N := [u mod 256; u / 256]%N.

(** [chunks_exact(2)] with [u16::from_le_bytes]: an odd byte at the end is left out. *)
Fixpoint u16s_of_le_bytes (bs : list N) : list N :=
  match bs with
  | a :: b :: bs' => (a + 256 * b)%N :: u16s_of_le_bytes bs'
  | _ => []
  end.

(** An unpaired surrogate becomes U+FFFD. *)
Fixpoint from_utf16_lossy (us : list N) : str :=
  match us with
  | [] => []
  | u :: us' =>
      if ((55296 <=? u) && (u <=? 56319))%N then
        match us' with
        | v :: us'' =>
            if ((56320 <=? v) && (v <=? 57343))%N
            then (65536 + (u - 55296) * 1024 + (v - 56320))%N :: from_utf16_lossy us''
            else 65533%N :: from_utf16_lossy us'
        | [] => [65533%N]
        end
      else if ((56320 <=? u) && (u <=? 57343))%N then 65533%N :: from_utf16_lossy us'
      else u :: from_utf16_lossy us'
  end.

Lemma u16s_le_bytes us :
  Forall (λ u, u < 65536)%N us → u16s_of_le_bytes (us ≫= u16_le_bytes) = us.
Proof.
  induction 1 as [|u us Hu _ IH]; [done|]. rewrite bind_cons. simpl. rewrite IH. f_equal.
  pose proof (N.div_mod u 256). lia.
Qed.
