(* ===== verification/Utf8.v ===== *)
(** * UTF-8

    The standard library's [str::from_utf8], with the error it reports
    ([valid_up_to] and [error_len]), and its encoding of strings; the decoder
    is incremental and decoding an encoded string gives it back. *)

From S2P Require Import Prelude RustStr.
Open Scope list_scope.

(** ** [std::str::from_utf8] *)

Abbreviation bytes := (list N).

Definition in_range (lo hi b : N) : bool := ((lo <=? b) && (b <=? hi))%N.
Definition is_cont (b : N) : bool := in_range 128 191 b.

Inductive decoded :=
  | DEnd
  | DChar (c : char) (len : nat)
  | DIncomplete
  | DInvalid (len : nat).

(** The second bytes allowed after the first byte of a long sequence. *)
Definition second_of_3 (b0 b1 : N) : bool :=
  if (b0 =? 224)%N then in_range 160 191 b1
  else if (b0 =? 237)%N then in_range 128 159 b1
  else is_cont b1.
Definition second_of_4 (b0 b1 : N) : bool :=
  if (b0 =? 240)%N then in_range 144 191 b1
  else if (b0 =? 244)%N then in_range 128 143 b1
  else is_cont b1.

Definition decode_char (bs : bytes) : decoded :=
  match bs with
  | [] => DEnd
  | b0 :: t =>
      if (b0 <? 128)%N then DChar b0 1
      else if in_range 194 223 b0 then
        match t with
        | [] => DIncomplete
        | b1 :: _ => if is_cont b1 then DChar ((b0 - 192) * 64 + (b1 - 128))%N 2 else DInvalid 1
        end
      else if in_range 224 239 b0 then
        match t with
        | [] => DIncomplete
        | b1 :: t =>
            if negb (second_of_3 b0 b1) then DInvalid 1
            else match t with
                 | [] => DIncomplete
                 | b2 :: _ =>
                     if is_cont b2
                     then DChar ((b0 - 224) * 4096 + (b1 - 128) * 64 + (b2 - 128))%N 3
                     else DInvalid 2
                 end
        end
      else if in_range 240 244 b0 then
        match t with
        | [] => DIncomplete
        | b1 :: t =>
            if negb (second_of_4 b0 b1) then DInvalid 1
            else match t with
                 | [] => DIncomplete
                 | b2 :: t =>
                     if negb (is_cont b2) then DInvalid 2
                     else match t with
                          | [] => DIncomplete
                          | b3 :: _ =>
                              if is_cont b3
                              then DChar ((b0 - 240) * 262144 + (b1 - 128) * 4096
                                          + (b2 - 128) * 64 + (b3 - 128))%N 4
                              else DInvalid 3
                          end
                 end
        end
      else DInvalid 1
  end.

(** The valid prefix, its length in bytes, and what stopped the decoding:
    nothing, or an error with its [error_len]. *)
Fixpoint utf8_scan (fuel : nat) (bs : bytes) : str * nat * option (option nat) :=
  match fuel with
  | 0 => ([], 0, None)
  | S fuel =>
      match decode_char bs with
      | DEnd => ([], 0, None)
      | DChar c n => let '(t, k, st) := utf8_scan fuel (drop n bs) in (c :: t, n + k, st)
      | DIncomplete => ([], 0, Some None)
      | DInvalid l => ([], 0, Some (Some l))
      end
  end.

Record Utf8Error := { valid_up_to : nat; error_len : option nat }.

Definition from_utf8 (bs : bytes) : res Utf8Error str :=
  match utf8_scan (S (length bs)) bs with
  | (t, _, None) => Ok t
  | (_, k, Some e) => Err {| valid_up_to := k; error_len := e |}
  end.

(** ** Encoding *)

(** [char]: a Unicode scalar value. *)
Definition is_scalar (c : char) : Prop := (c < 55296 ∨ 57344 ≤ c < 1114112)%N.

(** [char::encode_utf8] and [str::as_bytes]. *)
Definition encode_char (c : char) : bytes :=
  if (c <? 128)%N then [c]
  else if (c <? 2048)%N then [192 + c / 64; 128 + c mod 64]%N
  else if (c <? 65536)%N then [224 + c / 4096; 128 + c / 64 mod 64; 128 + c mod 64]%N
  else [240 + c / 262144; 128 + c / 4096 mod 64; 128 + c / 64 mod 64; 128 + c mod 64]%N.
Definition encode (t : str) : bytes := t ≫= encode_char.

(** ** The decoder is incremental *)

Lemma decode_char_app x y :
  match decode_char x with
  | DChar c n => decode_char (x ++ y) = DChar c n ∧ 0 < n ∧ n ≤ length x
  | DInvalid l => decode_char (x ++ y) = DInvalid l
  | DEnd => x = []
  | DIncomplete => 0 < length x
  end.
Proof.
  destruct x as [|b0 [|b1 [|b2 [|b3 x]]]]; simpl; try done;
    repeat case_match; simplify_eq/=; split_and?; done || lia.
Qed.

Lemma decode_incomplete_short x : decode_char x = DIncomplete → length x ≤ 3.
Proof.
  destruct x as [|b0 [|b1 [|b2 [|b3 x]]]]; simpl; try lia.
  intros H. repeat case_match; simplify_eq/=.
Qed.

Definition prepend (t : str) (k : nat) (r : str * nat * option (option nat))
    : str * nat * option (option nat) :=
  let '(t', k', st) := r in (t ++ t', k + k', st).

(** The scan with enough fuel. *)
Definition scan (x : bytes) : str * nat * option (option nat) := utf8_scan (S (length x)) x.

Lemma utf8_scan_fuel n x : length x < n → utf8_scan n x = scan x.
Proof.
  revert x. induction n as [n IH] using lt_wf_ind. intros x Hn. unfold scan.
  destruct n as [|n]; [lia|]. simpl. pose proof (decode_char_app x []) as Hd.
  destruct (decode_char x) as [|c k| |]; try done. destruct Hd as (_ & Hk & Hkl).
  assert (Hl : length (drop k x) < length x) by (rewrite length_drop; lia).
  rewrite (IH n) by lia. destruct (decide (length x = n)) as [->|].
  - by rewrite (IH n) by lia.
  - by rewrite (IH (length x)) by lia.
Qed.

Lemma scan_eq x :
  scan x = match decode_char x with
           | DEnd => ([], 0, None)
           | DChar c n => prepend [c] n (scan (drop n x))
           | DIncomplete => ([], 0, Some None)
           | DInvalid l => ([], 0, Some (Some l))
           end.
Proof.
  unfold scan at 1. simpl. pose proof (decode_char_app x []) as Hd.
  destruct (decode_char x) as [|c k| |]; try done. destruct Hd as (_ & Hk & Hkl).
  rewrite utf8_scan_fuel by (rewrite length_drop; lia). by destruct (scan (drop k x)) as [[t k'] st].
Qed.

Lemma prepend_prepend t1 k1 t2 k2 r : prepend t1 k1 (prepend t2 k2 r) = prepend (t1 ++ t2) (k1 + k2) r.
Proof. destruct r as [[t k] st]. simpl. by rewrite app_assoc, Nat.add_assoc. Qed.

(** Induction over a byte string, one code point at a time. *)
Lemma scan_ind (P : bytes → Prop) :
  (∀ x, (∀ c n, decode_char x = DChar c n → P (drop n x)) → P x) → ∀ x, P x.
Proof.
  intros Hstep x. remember (length x) as n eqn:En. revert x En.
  induction n as [n IH] using lt_wf_ind. intros x ->. apply Hstep. intros c k Hd.
  pose proof (decode_char_app x []) as Ha. rewrite Hd in Ha. destruct Ha as (_ & ? & ?).
  eapply IH; [|reflexivity]. rewrite length_drop. lia.
Qed.

(** What a scan leaves: nothing, the beginning of a code point, or an error
    that no further byte repairs. *)
Lemma scan_app x y :
  let '(t, k, st) := scan x in
  k ≤ length x ∧
  match st with
  | None => k = length x ∧ scan (x ++ y) = prepend t k (scan y)
  | Some None => scan (x ++ y) = prepend t k (scan (drop k x ++ y))
                 ∧ decode_char (drop k x) = DIncomplete
  | Some (Some _) => scan (x ++ y) = (t, k, st)
  end.
Proof.
  induction x as [x IH] using scan_ind. rewrite (scan_eq x). pose proof (decode_char_app x y) as Ha.
  destruct (decode_char x) as [|c n| |l] eqn:E; simpl.
  - subst. simpl. split_and!; [lia|done|]. by destruct (scan y) as [[? ?] ?].
  - destruct Ha as (Hxy & Hn & Hnl). specialize (IH c n eq_refl).
    destruct (scan (drop n x)) as [[t k] st]. simpl. destruct IH as [Hk IH].
    rewrite length_drop in Hk.
    assert (Hs : scan (x ++ y) = prepend [c] n (scan (drop n x ++ y))).
    { rewrite (scan_eq (x ++ y)), Hxy. by rewrite drop_app_le. }
    split; [lia|]. rewrite Hs. destruct st as [[l|]|].
    + by rewrite IH.
    + destruct IH as [-> Hd]. rewrite drop_drop in Hd. split; [|done].
      rewrite prepend_prepend, drop_drop. done.
    + destruct IH as [-> ->]. rewrite length_drop in *. split; [lia|]. by rewrite prepend_prepend.
  - split; [lia|]. rewrite drop_0. split; [|done]. by destruct (scan (x ++ y)) as [[? ?] ?].
  - split; [lia|]. by rewrite scan_eq, Ha.
Qed.

(** The valid prefix decodes to the same text. *)
Lemma scan_take x : let '(t, k, _) := scan x in scan (take k x) = (t, k, None).
Proof.
  induction x as [x IH] using scan_ind. rewrite (scan_eq x). pose proof (decode_char_app x []) as Ha.
  destruct (decode_char x) as [|c n| |l] eqn:E; simpl; try done.
  destruct Ha as (_ & Hn & Hnl). specialize (IH c n eq_refl).
  destruct (scan (drop n x)) as [[t k] st]. simpl.
  assert (Hd : decode_char (take (n + k) x) = DChar c n).
  { pose proof (decode_char_app (take (n + k) x) (drop (n + k) x)) as Hb. rewrite take_drop, E in Hb.
    destruct (decode_char (take (n + k) x)) as [|c' n'| |l'] eqn:Et.
    - apply (f_equal length) in Hb. rewrite length_take in Hb. simpl in Hb. lia.
    - destruct Hb as (Hb & _). by injection Hb as -> ->.
    - destruct n as [|n]; [lia|]. exfalso. revert E Et. clear IH. revert Hnl.
      destruct x as [|b0 [|b1 [|b2 [|b3 x]]]]; simpl; intros; repeat case_match; simplify_eq/=; try lia;
        destruct k; simplify_eq/=.
    - by destruct Hb. }
  rewrite scan_eq, Hd. rewrite <- (take_drop_commute x k n). rewrite IH. done.
Qed.

(** ** The round trip *)

Ltac range_tac :=
  repeat match goal with
    | |- context [N.ltb ?a ?b] => destruct (N.ltb_spec a b); try lia
    | |- context [N.leb ?a ?b] => destruct (N.leb_spec a b); try lia
    | |- context [N.eqb ?a ?b] => destruct (N.eqb_spec a b); try lia
    end.

(** The six-bit digits of a character. *)
Lemma digits c :
  ∃ a b d e, (c mod 64 = e ∧ c / 64 mod 64 = d ∧ c / 4096 mod 64 = b ∧ c / 262144 = a
    ∧ c / 64 = a * 4096 + b * 64 + d ∧ c / 4096 = a * 64 + b
    ∧ c = a * 262144 + b * 4096 + d * 64 + e ∧ b < 64 ∧ d < 64 ∧ e < 64)%N.
Proof.
  exists (c / 262144)%N, (c / 4096 mod 64)%N, (c / 64 mod 64)%N, (c mod 64)%N.
  pose proof (N.div_mod c 64 ltac:(lia)). pose proof (N.div_mod (c / 64) 64 ltac:(lia)).
  pose proof (N.div_mod (c / 4096) 64 ltac:(lia)).
  assert (c / 64 / 64 = c / 4096)%N as H2 by (by rewrite N.Div0.div_div).
  assert (c / 4096 / 64 = c / 262144)%N as H3 by (by rewrite N.Div0.div_div).
  rewrite H2 in *. rewrite H3 in *.
  pose proof (N.mod_lt c 64 ltac:(lia)). pose proof (N.mod_lt (c / 64) 64 ltac:(lia)).
  pose proof (N.mod_lt (c / 4096) 64 ltac:(lia)). split_and!; lia.
Qed.

Lemma decode_encode c r :
  is_scalar c → decode_char (encode_char c ++ r) = DChar c (length (encode_char c)).
Proof.
  intros Hc. unfold is_scalar in Hc. unfold encode_char.
  destruct (digits c) as (a & b & d & e & -> & -> & -> & -> & -> & -> & Hd & Hb & Hdd & He).
  destruct (N.ltb_spec c 128); [simpl; range_tac; done|].
  destruct (N.ltb_spec c 2048); [|destruct (N.ltb_spec c 65536)]; simpl;
    unfold second_of_3, second_of_4, is_cont, in_range; range_tac; simpl; f_equal; lia.
Qed.

Lemma scan_encode t r :
  Forall is_scalar t → scan (encode t ++ r) = prepend t (length (encode t)) (scan r).
Proof.
  induction 1 as [|c t Hc Ht IH]; simpl; [by destruct (scan r) as [[? ?] ?]|].
  rewrite <- app_assoc, scan_eq, decode_encode, drop_app_length by done.
  rewrite IH, prepend_prepend, length_app. done.
Qed.

(** ** [from_utf8] on whole strings *)

Lemma div64 q r : (r < 64)%N → ((q * 64 + r) / 64 = q)%N ∧ ((q * 64 + r) mod 64 = r)%N.
Proof.
  intros H. split; [symmetry; apply (N.div_unique _ _ _ r); lia|].
  symmetry. apply (N.mod_unique _ _ q); lia.
Qed.

(** The digits of a number given in base 64. *)
Lemma digits2 q d e :
  (d < 64)%N → (e < 64)%N →
  let c := ((q * 64 + d) * 64 + e)%N in
  (c / 64 = q * 64 + d ∧ c mod 64 = e ∧ c / 4096 = q ∧ c / 64 mod 64 = d)%N.
Proof.
  intros Hd He c. destruct (div64 (q * 64 + d) e He) as [E1 E2], (div64 q d Hd) as [E3 E4].
  assert (c / 4096 = q)%N by (replace 4096%N with (64 * 64)%N by done; rewrite <- N.Div0.div_div; unfold c; congruence).
  unfold c in *. rewrite E1. split_and!; done.
Qed.

Lemma in_range_true lo hi b : in_range lo hi b = true ↔ (lo ≤ b ≤ hi)%N.
Proof. unfold in_range. rewrite andb_true_iff, !N.leb_le. done. Qed.

Lemma second_of_3_bounds b0 b1 :
  second_of_3 b0 b1 = true →
  (128 ≤ b1 ≤ 191 ∧ (b0 = 224 → 160 ≤ b1) ∧ (b0 = 237 → b1 ≤ 159))%N.
Proof.
  unfold second_of_3, is_cont. destruct (N.eqb_spec b0 224); [|destruct (N.eqb_spec b0 237)];
    rewrite in_range_true; lia.
Qed.

Lemma second_of_4_bounds b0 b1 :
  second_of_4 b0 b1 = true →
  (128 ≤ b1 ≤ 191 ∧ (b0 = 240 → 144 ≤ b1) ∧ (b0 = 244 → b1 ≤ 143))%N.
Proof.
  unfold second_of_4, is_cont. destruct (N.eqb_spec b0 240); [|destruct (N.eqb_spec b0 244)];
    rewrite in_range_true; lia.
Qed.

(** What decodes is the encoding of what it decodes to. *)
Lemma decode_char_encode x c n :
  decode_char x = DChar c n → is_scalar c ∧ encode_char c = take n x.
Proof.
  destruct x as [|b0 x]; [done|]. unfold decode_char.
  destruct (N.ltb_spec b0 128) as [H0|H0].
  { intros [= <- <-]. unfold is_scalar, encode_char. range_tac. split; [lia|done]. }
  destruct (in_range 194 223 b0) eqn:R2; [|destruct (in_range 224 239 b0) eqn:R3;
    [|destruct (in_range 240 244 b0) eqn:R4; [|done]]].
  - destruct x as [|b1 x]; [done|]. destruct (is_cont b1) eqn:C1; [|done]. intros [= <- <-].
    apply in_range_true in R2, C1. destruct (div64 (b0 - 192) (b1 - 128)) as [Hd Hm]; [lia|].
    unfold is_scalar, encode_char. rewrite Hd, Hm. range_tac. split; [lia|]. simpl. repeat f_equal; lia.
  - destruct x as [|b1 x]; [done|]. destruct (second_of_3 b0 b1) eqn:C1; [|done]. simpl.
    destruct x as [|b2 x]; [done|]. destruct (is_cont b2) eqn:C2; [|done]. intros [= <- <-].
    apply in_range_true in R3, C2. apply second_of_3_bounds in C1.
    destruct (digits2 (b0 - 224) (b1 - 128) (b2 - 128)) as (E1 & E2 & E3 & E4); [lia..|].
    replace ((b0 - 224) * 4096 + (b1 - 128) * 64 + (b2 - 128))%N
      with (((b0 - 224) * 64 + (b1 - 128)) * 64 + (b2 - 128))%N by lia.
    unfold is_scalar, encode_char. rewrite E2, E3, E4. range_tac. split; [lia|]. simpl. repeat f_equal; lia.
  - destruct x as [|b1 x]; [done|]. destruct (second_of_4 b0 b1) eqn:C1; [|done]. simpl.
    destruct x as [|b2 x]; [done|]. destruct (is_cont b2) eqn:C2; [|done]. simpl.
    destruct x as [|b3 x]; [done|]. destruct (is_cont b3) eqn:C3; [|done]. intros [= <- <-].
    apply in_range_true in R4, C2, C3. apply second_of_4_bounds in C1.
    replace ((b0 - 240) * 262144 + (b1 - 128) * 4096 + (b2 - 128) * 64 + (b3 - 128))%N
      with ((((b0 - 240) * 64 + (b1 - 128)) * 64 + (b2 - 128)) * 64 + (b3 - 128))%N by lia.
    destruct (digits2 ((b0 - 240) * 64 + (b1 - 128)) (b2 - 128) (b3 - 128)) as (E1 & E2 & E3 & E4); [lia..|].
    destruct (div64 (b0 - 240) (b1 - 128)) as [E5 E6]; [lia|].
    unfold is_scalar, encode_char. rewrite E2, E3, E4, E6.
    replace 262144%N with (4096 * 64)%N by done. rewrite <- N.Div0.div_div, E3, E5.
    range_tac. split; [lia|]. simpl. repeat f_equal; lia.
Qed.

Lemma from_utf8_scan x s : from_utf8 x = Ok s ↔ scan x = (s, length x, None).
Proof.
  unfold from_utf8. fold (scan x). pose proof (scan_app x []) as H.
  destruct (scan x) as [[t k] [[l|]|]]; destruct H as [_ H]; split; try done.
  - destruct H as [-> _]. by intros [= ->].
  - by intros [= -> _].
Qed.

Lemma from_utf8_encode x s : from_utf8 x = Ok s → encode s = x ∧ Forall is_scalar s.
Proof.
  rewrite from_utf8_scan. revert s. induction x as [x IH] using scan_ind. intros s.
  rewrite scan_eq. pose proof (decode_char_app x []) as Ha.
  destruct (decode_char x) as [|c n| |l] eqn:E; [|..|done|done].
  - intros [= <- _]. by subst.
  - destruct Ha as (_ & Hn & Hl). destruct (scan (drop n x)) as [[t k] st] eqn:Es. simpl.
    intros [= <- Hk ->]. destruct (IH c n eq_refl t) as [He Hs].
    { rewrite Es. repeat f_equal. rewrite length_drop. lia. }
    destruct (decode_char_encode _ _ _ E) as [Hc Hec]. split; [|by constructor].
    change (encode_char c ++ encode t = x). rewrite Hec, He. by rewrite take_drop.
Qed.

Lemma from_utf8_app x s t :
  from_utf8 x = Ok s → Forall is_scalar t → from_utf8 (x ++ encode t) = Ok (s ++ t).
Proof.
  intros Hx%from_utf8_scan Ht. apply from_utf8_scan.
  pose proof (scan_app x (encode t)) as H. rewrite Hx in H. destruct H as (_ & _ & ->).
  pose proof (scan_encode t [] Ht) as He. rewrite app_nil_r in He. rewrite He. simpl.
  by rewrite app_nil_r, Nat.add_0_r, length_app.
Qed.

(** [str::len] counts the bytes. *)
Lemma length_encode s : length (encode s) = str_len s.
Proof.
  induction s as [|c s IH]; [done|]. change (length (encode_char c ++ encode s) = len_utf8 c + str_len s).
  rewrite length_app, IH. f_equal.
  unfold encode_char, len_utf8. repeat case_match; done.
Qed.

(** [String::from_utf8_lossy]: each invalid sequence becomes U+FFFD. *)
Fixpoint utf8_lossy (fuel : nat) (bs : bytes) : str :=
  match fuel with
  | 0 => []
  | S fuel =>
      match decode_char bs with
      | DEnd => []
      | DChar c n => c :: utf8_lossy fuel (drop n bs)
      | DIncomplete => [65533%N]
      | DInvalid l => 65533%N :: utf8_lossy fuel (drop l bs)
      end
  end.
Definition from_utf8_lossy (bs : bytes) : str := utf8_lossy (S (length bs)) bs.
