(* ===== verification/PathUri.v ===== *)
(** * File URIs

    Models [utils/path-uri/src/lib.rs], [absolute_path_normalization.rs] and
    [native_path_bytes.rs]: a [PathUri] is a validated [file:] URL, and paths of
    both conventions are compared, cut and joined on its segments without a
    look at the file system. The packages [url], [urlencoding] and [base64] are
    the class [UrlLib]; a [PathUri] is a value of its type [U] that went through
    [try_from]. The branches marked unreachable in the code are [Panic]. *)

From S2P Require Import Prelude RustStr Utf8 PathConvention.
Open Scope list_scope.

(** ** The packages

    [seg_*] are the methods of [PathSegmentsMut] on the URL they belong to,
    which exists for every [file:] URL. *)
Class UrlLib (U UE : Type) := {
  url_eq_dec :: EqDecision U;
  url_parse : str → UE + U;
  url_as_str : U → str;
  url_scheme : U → str;
  url_username : U → str;
  url_password : U → option str;
  url_port : U → option N;
  url_query : U → option str;
  url_fragment : U → option str;
  url_host_str : U → option str;
  url_path : U → str;
  url_path_segments : U → option (list str);
  url_set_host : option str → U → option U;
  url_set_path : str → U → U;
  seg_pop_if_empty : U → U;
  seg_pop : U → U;
  seg_push : str → U → U;
  seg_clear : U → U;
  (* urlencoding *)
  decode_binary : bytes → bytes;
  url_decode : str → option str;
  encode_binary : bytes → str;
  (* base64, URL-safe without padding *)
  base64_encode : bytes → str;
  base64_decode : str → option bytes;
}.

Definition FILE_SCHEME : str := lit "file".
Definition BAD_PATH_URI_PREFIX : str := lit "file:///%00/bad/path/".

Inductive PathUriParseError (UE : Type) :=
  | InvalidUri (e : UE)
  | UnsupportedScheme (scheme : str)
  | InvalidFileUriPath (path : str)
  | CredentialsNotAllowed
  | PortNotAllowed
  | QueryNotAllowed
  | FragmentNotAllowed
  | JoinPathMustBeDescendant (path : str).
Arguments InvalidUri {UE} e.
Arguments UnsupportedScheme {UE} scheme.
Arguments InvalidFileUriPath {UE} path.
Arguments CredentialsNotAllowed {UE}.
Arguments PortNotAllowed {UE}.
Arguments QueryNotAllowed {UE}.
Arguments FragmentNotAllowed {UE}.
Arguments JoinPathMustBeDescendant {UE} path.

(** A call whose error becomes [None] while a panic stays one. *)
Definition try_ok {E F A} (m : res E A) : res F (option A) :=
  match m with Ok a => Ok (Some a) | Err _ => Ok None | Panic => Panic end.

Definition non_empty (s : str) : bool := negb (bool_decide (s = [])).

(** A drive letter with its colon, as it stands or percent-encoded. *)
Definition is_windows_drive_uri_segment (segment : str) : bool :=
  match segment with
  | [d; c] => is_ascii_alphabetic d && (c =? 58)%N
  | [d; p; t; a] => is_ascii_alphabetic d && (p =? 37)%N && (t =? 51)%N && ((a =? 65)%N || (a =? 97)%N)
  | _ => false
  end.

Definition infer_opaque_path_convention (path_bytes : bytes) : option PathConvention :=
  if starts_with [47%N] path_bytes then Some Posix
  else if negb (bool_decide (length path_bytes mod 2 = 0)) then None
  else match u16s_of_le_bytes path_bytes with
       | first :: second :: _ =>
           let has_drive := is_ascii_alphabetic first && (second =? 58)%N in
           let has_unc_prefix := (first =? 92)%N && (second =? 92)%N in
           if has_drive || has_unc_prefix then Some Windows else None
       | _ => None
       end.

Section path_uri.
Context {U UE : Type} `{UL : !UrlLib U UE}.

Definition decode_bad_path_uri (url : U) : option bytes :=
  encoded_path ← strip_prefix BAD_PATH_URI_PREFIX (url_as_str url);
  if bool_decide (encoded_path = []) || contains_char c_slash encoded_path then None
  else path_bytes ← base64_decode encoded_path;
       if bool_decide (base64_encode path_bytes = encoded_path) then Some path_bytes else None.

(** ** Validation *)

Definition validate_common_known_uri (url : U) : res (PathUriParseError UE) unit :=
  if non_empty (url_username url) || bool_decide (url_password url ≠ None) then Err CredentialsNotAllowed
  else if bool_decide (url_port url ≠ None) then Err PortNotAllowed
  else if bool_decide (url_query url ≠ None) then Err QueryNotAllowed
  else if bool_decide (url_fragment url ≠ None) then Err FragmentNotAllowed
  else Ok ().

Definition validate_file_url (url : U) : res (PathUriParseError UE) unit :=
  let? _ := validate_common_known_uri url in
  if bool_decide (0%N ∈ decode_binary (encode (url_path url)))
     && bool_decide (decode_bad_path_uri url = None)
  then Err (InvalidFileUriPath (url_as_str url)) else Ok ().

Definition without_localhost_authority {E} (url : U) : res E U :=
  if bool_decide (url_host_str url = Some (lit "localhost")) then
    match url_set_host None url with Some url => Ok url | None => Panic end
  else Ok url.

Definition ascii_upper (c : char) : char := if ((97 <=? c) && (c <=? 122))%N then (c - 32)%N else c.
Definition is_ascii_uppercase (c : char) : bool := ((65 <=? c) && (c <=? 90))%N.

Definition with_normalized_windows_drive_letter (url : U) : U :=
  if bool_decide (url_host_str url ≠ None) then url
  else let rest := drop_while (N.eqb c_slash) (url_path url) in
       match rest with
       | [] => url
       | d :: tail =>
           let drive := default [] (head (split_char c_slash rest)) in
           if negb (is_windows_drive_uri_segment drive) || is_ascii_uppercase d then url
           else url_set_path
                  (take (length (url_path url) - length rest) (url_path url) ++ ascii_upper d :: tail) url
       end.

(** [TryFrom<Url>] *)
Definition path_uri_try_from (url : U) : res (PathUriParseError UE) U :=
  if negb (bool_decide (url_scheme url = FILE_SCHEME)) then Err (UnsupportedScheme (url_scheme url))
  else let? _ := validate_file_url url in
       let? url := without_localhost_authority url in
       Ok (with_normalized_windows_drive_letter url).

(** [PathUri::parse] *)
Definition path_uri_parse (uri : str) : res (PathUriParseError UE) U :=
  match url_parse uri with
  | inl e => Err (InvalidUri e)
  | inr url => path_uri_try_from url
  end.

Definition from_opaque_path_bytes {E} (path_bytes : bytes) : res E U :=
  match path_uri_parse (BAD_PATH_URI_PREFIX ++ base64_encode path_bytes) with
  | Ok uri => Ok uri
  | _ => Panic
  end.

Definition windows_opaque_path_uri {E} (path : str) : res E U :=
  from_opaque_path_bytes (encode_utf16 path ≫= u16_le_bytes).

(** ** Inspection *)

Definition opaque_fallback_bytes (u : U) : option bytes := decode_bad_path_uri u.
Definition is_opaque (u : U) : bool := bool_decide (opaque_fallback_bytes u ≠ None).
Definition encoded_path (u : U) : str := url_path u.
Definition decoded_path_bytes (u : U) : bytes := decode_binary (encode (encoded_path u)).

Definition infer_path_convention (u : U) : option PathConvention :=
  match opaque_fallback_bytes u with
  | Some path_bytes => infer_opaque_path_convention path_bytes
  | None =>
      if bool_decide (url_host_str u ≠ None) then Some Windows
      else
        let has_windows_drive :=
          match url_path_segments u with
          | Some segments => match List.find non_empty segments with
                             | Some segment => is_windows_drive_uri_segment segment
                             | None => false
                             end
          | None => false
          end in
        if has_windows_drive then Some Windows else Some Posix
  end.

Definition decode_uri_path (path : str) : str := default path (url_decode path).

(** A native separator among the bytes of a decoded segment. *)
Definition has_encoded_separator (conv : PathConvention) (segment : str) : bool :=
  existsb (λ b, (b =? 47)%N || bool_decide (conv = Windows) && (b =? 92)%N)
    (decode_binary (encode segment)).

Definition containment_path_segments (url : U) (conv : PathConvention) : option (list str) :=
  segments ← url_path_segments url;
  let segments := List.filter non_empty segments in
  if existsb (has_encoded_separator conv) segments then None else Some segments.

Definition windows_identity_path_bytes (u : U) : option bytes :=
  if negb (bool_decide (infer_path_convention u = Some Windows))
     || bool_decide (opaque_fallback_bytes u ≠ None) then None
  else segments ← url_path_segments u;
       if existsb (has_encoded_separator Windows) segments then None
       else Some (decode_binary (encode (url_path u))).

(** [PartialEq] *)
Definition path_uri_eqb (u v : U) : bool :=
  bool_decide (u = v)
  || match windows_identity_path_bytes u, windows_identity_path_bytes v with
     | Some path, Some other_path =>
         bool_decide (url_host_str u = url_host_str v) && eq_ignore_ascii_case path other_path
     | _, _ => false
     end.

Definition basename (u : U) : option str :=
  if bool_decide (decode_bad_path_uri u ≠ None) then None
  else segments ← url_path_segments u;
       decode_uri_path <$> List.find non_empty (rev segments).

Definition anchor_depth (conv : PathConvention) : nat := if decide (conv = Windows) then 1 else 0.

Definition segment_count (u : U) : nat :=
  from_option (λ segments, length (List.filter non_empty segments)) 0 (url_path_segments u).

Definition parent (u : U) : option U :=
  if bool_decide (decode_bad_path_uri u ≠ None) then None
  else conv ← infer_path_convention u;
       segments ← url_path_segments u;
       if bool_decide (length (List.filter non_empty segments) ≤ anchor_depth conv) then None
       else Some (seg_pop (seg_pop_if_empty u)).

(** [std::iter::successors]; each parent has fewer segments, so their number
    bounds the iteration. *)
Fixpoint ancestors_fuel (fuel : nat) (u : U) : list U :=
  u :: match fuel with
       | 0 => []
       | S fuel => match parent u with Some v => ancestors_fuel fuel v | None => [] end
       end.
Definition ancestors (u : U) : list U :=
  ancestors_fuel (from_option length 0 (url_path_segments u)) u.

Definition segment_matches (conv : PathConvention) (path base : str) : bool :=
  match conv with
  | Posix => bool_decide (decode_binary (encode path) = decode_binary (encode base))
  | Windows => eq_ignore_ascii_case path base
               || eq_ignore_ascii_case (decode_uri_path path) (decode_uri_path base)
  end.

Definition native_path_segments_start_with (path_segments base_segments : list str)
    (conv : PathConvention) : bool :=
  bool_decide (length base_segments ≤ length path_segments)
  && forallb (λ '(path, base), segment_matches conv path base) (zip path_segments base_segments).

(** [PathUri::starts_with] *)
Definition path_starts_with (u base : U) : bool :=
  if path_uri_eqb u base then true
  else if bool_decide (decode_bad_path_uri u ≠ None) || bool_decide (decode_bad_path_uri base ≠ None)
  then false
  else if negb (bool_decide (url_host_str u = url_host_str base)) then false
  else if negb (bool_decide (infer_path_convention u = infer_path_convention base)) then false
  else let conv := default Posix (infer_path_convention u) in
       match containment_path_segments u conv, containment_path_segments base conv with
       | Some path_segments, Some base_segments =>
           native_path_segments_start_with path_segments base_segments conv
       | _, _ => false
       end.

Definition lexical_depth (u : U) : option nat :=
  if bool_decide (decode_bad_path_uri u ≠ None) then None
  else conv ← infer_path_convention u;
       length <$> containment_path_segments u conv.

Definition overlaps (u v : U) : option bool :=
  if path_uri_eqb u v then Some true
  else _ ← lexical_depth u; _ ← lexical_depth v;
       Some (path_starts_with u v || path_starts_with v u).

Definition relative_path_from (u base : U) : option str :=
  if path_uri_eqb u base then Some []
  else if bool_decide (decode_bad_path_uri u ≠ None) || bool_decide (decode_bad_path_uri base ≠ None)
          || negb (bool_decide (url_host_str u = url_host_str base))
          || negb (bool_decide (infer_path_convention u = infer_path_convention base)) then None
  else conv ← infer_path_convention u;
       path_segments ← containment_path_segments u conv;
       base_segments ← containment_path_segments base conv;
       if negb (native_path_segments_start_with path_segments base_segments conv) then None
       else let separator := match conv with Posix => [c_slash] | Windows => [c_backslash] end in
            Some (join separator (map decode_uri_path (drop (length base_segments) path_segments))).

(** ** Parsing native paths *)

(** [PathSegmentsMut::extend] *)
Definition seg_extend (segments : list str) (url : U) : U := foldl (λ u s, seg_push s u) url segments.

(** One round of the loop of [path_uri_from_segments]: the normalized segments,
    their number and the trailing separator. *)
Definition normalize_segment (anchor : nat) (st : list str * nat * bool) (segment : str)
    : list str * nat * bool :=
  let '(normalized_segments, depth, _) := st in
  if bool_decide (segment = []) then (normalized_segments, depth, true)
  else if bool_decide (segment = lit ".") then (normalized_segments, depth, false)
  else if bool_decide (segment = lit "..") then
    if bool_decide (anchor < depth) then (removelast normalized_segments, depth - 1, false)
    else (normalized_segments, depth, false)
  else (normalized_segments ++ [segment], S depth, false).

Definition path_uri_from_segments {E} (conv : PathConvention) (host : option str)
    (segments : list str) : res E (option U) :=
  match url_parse (lit "file:///") with
  | inl _ => Ok None
  | inr url =>
      match match host with
            | Some host => url_set_host (Some host) url
            | None => Some url
            end with
      | None => Ok None
      | Some url =>
          let '(normalized_segments, depth, has_trailing_separator) :=
            foldl (normalize_segment (anchor_depth conv)) ([], 0, false) segments in
          let normalized_segments :=
            if has_trailing_separator
               || bool_decide (conv = Windows) && bool_decide (host = None)
                  && bool_decide (depth = anchor_depth conv)
            then normalized_segments ++ [[]] else normalized_segments in
          try_ok (path_uri_try_from (seg_extend normalized_segments (seg_clear url)))
      end
  end.

Definition contains_nul (s : str) : bool := contains_char 0%N s.

Definition parse_posix_path {E} (path : str) : res E (option U) :=
  match strip_prefix [c_slash] path with
  | None => Ok None
  | Some rest =>
      if contains_nul rest
      then let? uri := from_opaque_path_bytes (encode (c_slash :: rest)) in Ok (Some uri)
      else path_uri_from_segments Posix None (split_char c_slash rest)
  end.

Definition windows_pieces (s : str) : list str := split_by is_windows_separator_char s.

Definition is_dot_segment (s : str) : bool := bool_decide (s = lit ".") || bool_decide (s = lit "..").

(** [matches!(components.next(), None | Some("" | "." | ".."))] *)
Definition bad_component (c : option str) : bool :=
  match c with None => true | Some s => bool_decide (s = []) || is_dot_segment s end.

Definition uses_namespace (path : str) : bool :=
  match path with
  | first :: second :: namespace :: separator :: _ =>
      is_windows_separator_char first && is_windows_separator_char second
      && is_windows_separator_char separator && ((namespace =? 46)%N || (namespace =? 63)%N)
  | _ => false
  end.

Definition parse_unnormalized_windows_path {E} (path : str) : res E (option U) :=
  let opaque := let? uri := windows_opaque_path_uri path in Ok (Some uri) in
  if uses_namespace path || contains_nul path then opaque
  else if is_windows_drive_absolute_path path
  then path_uri_from_segments Windows None (take 2 path :: windows_pieces (drop 3 path))
  else match path with
       | first :: second :: rest =>
           if is_windows_separator_char first && is_windows_separator_char second then
             match windows_pieces rest with
             | host :: share :: components =>
                 if bool_decide (host = []) || bool_decide (share = []) then Ok None
                 else if is_dot_segment host || is_dot_segment share then opaque
                 else
                   let? uri := path_uri_from_segments Windows (Some host) (share :: components) in
                   match uri with
                   | Some uri =>
                       match url_host_str uri with
                       | Some parsed => if eq_ignore_ascii_case parsed host then Ok (Some uri) else opaque
                       | None => opaque
                       end
                   | None => opaque
                   end
             | _ => Ok None
             end
           else Ok None
       | _ => Ok None
       end.

Definition parse_windows_path {E} (path : str) : res E (option U) :=
  match normalize_windows_device_path path with
  | Some normalized_path =>
      let opaque := let? uri := windows_opaque_path_uri path in Ok (Some uri) in
      let unc := strip_prefix (lit "\\") normalized_path in
      if match unc with
         | Some unc_path =>
             let components := windows_pieces unc_path in
             bad_component (head components) || bad_component (head (tail components))
         | None => false
         end then opaque
      else
        let? uri := parse_unnormalized_windows_path normalized_path in
        match uri with
        | Some uri =>
            if bool_decide (infer_path_convention uri = Some Windows)
               && bool_decide (opaque_fallback_bytes uri = None)
               && (bool_decide (unc = None)
                   || match url_host_str uri with Some host => non_empty host | None => false end)
            then Ok (Some uri) else opaque
        | None => opaque
        end
  | None => parse_unnormalized_windows_path path
  end.

Definition from_absolute_native_path {E} (path : str) (conv : PathConvention) : res E (option U) :=
  let? uri := match conv with
              | Posix => parse_posix_path path
              | Windows => parse_windows_path path
              end in
  match uri with
  | None => Ok None
  | Some uri =>
      if negb (bool_decide (url_host_str uri = Some [])) && bool_decide (infer_path_convention uri = Some conv)
      then Ok (Some uri)
      else let? uri := match conv with
                       | Posix => from_opaque_path_bytes (encode path)
                       | Windows => windows_opaque_path_uri path
                       end in
           Ok (Some uri)
  end.

(** ** Joining *)

Definition is_drive_relative (path : str) : bool :=
  match path with d :: c :: _ => is_ascii_alphabetic d && (c =? 58)%N | _ => false end.

(** The URI is on the drive named by the first char of [path]. *)
Definition same_drive (u : U) (path : str) : bool :=
  match url_path_segments u with
  | Some segments =>
      match List.find non_empty segments with
      | Some segment =>
          is_windows_drive_uri_segment segment
          && eq_ignore_ascii_case (take 1 segment) (take 1 path)
      | None => false
      end
  | None => false
  end.

(** One component of the loop of [join]. *)
Definition join_component (anchor : nat) (st : U * nat) (component : str) : U * nat :=
  let '(url, depth) := st in
  if bool_decide (component = []) || bool_decide (component = lit ".") then (url, depth)
  else if bool_decide (component = lit "..") then
    if bool_decide (anchor < depth) then (seg_pop url, depth - 1) else (url, depth)
  else (seg_push component url, S depth).

Definition is_windows_root_relative (path : str) : bool :=
  match path with
  | c :: rest => is_windows_separator_char c
                 && negb (match rest with d :: _ => is_windows_separator_char d | [] => false end)
  | [] => false
  end.

Definition path_uri_join (u : U) (path : str) : res (PathUriParseError UE) U :=
  if contains_nul path then Err (InvalidFileUriPath path)
  else if bool_decide (path = []) then Ok u
  else
    let? conv := ok_or (infer_path_convention u) (InvalidFileUriPath (url_as_str u)) in
    let? absolute := from_absolute_native_path path conv in
    match absolute with
    | Some absolute => Ok absolute
    | None =>
        let? path := if bool_decide (conv = Windows) && is_drive_relative path then
                       if same_drive u path then Ok (drop 2 path) else Err (InvalidFileUriPath path)
                     else Ok path in
        if bool_decide (decode_bad_path_uri u ≠ None) then Err (InvalidFileUriPath (url_as_str u))
        else
          let depth := segment_count u in
          let anchor := anchor_depth conv in
          let url := seg_pop_if_empty u in
          let '(url, depth) :=
            if bool_decide (conv = Windows) && is_windows_root_relative path
            then (Nat.iter (depth - anchor) seg_pop url, Nat.min depth anchor) else (url, depth) in
          let path := match conv with Posix => path | Windows => forward_slashes path end in
          path_uri_try_from (fst (foldl (join_component anchor) (url, depth) (split_char c_slash path)))
    end.

Definition join_descendant (u : U) (path : str) : res (PathUriParseError UE) U :=
  let? descendant := path_uri_join u path in
  let windows := bool_decide (infer_path_convention u = Some Windows) in
  if starts_with [c_slash] path
     || windows && (starts_with [c_backslash] path
                    || existsb (contains_char c_colon) (path_segments Windows path))
     || negb (path_starts_with descendant u)
  then Err (JoinPathMustBeDescendant path) else Ok descendant.

(** One component of the loop of [join_native_bytes]. *)
Definition join_native_component (segments : list str) (component : bytes) : list str :=
  if bool_decide (component = []) || bool_decide (component = lit ".") then segments
  else if bool_decide (component = lit "..") then removelast segments
  else segments ++ [encode_binary component].

Definition join_native_bytes (u : U) (path : bytes) : res (PathUriParseError UE) U :=
  match from_utf8 path with
  | Ok path => path_uri_join u path
  | _ =>
      if negb (bool_decide (infer_path_convention u = Some Posix))
         || bool_decide (opaque_fallback_bytes u ≠ None) || bool_decide (0%N ∈ path)
      then Err (InvalidFileUriPath (url_as_str u))
      else
        let segments := if starts_with [47%N] path then []
                        else List.filter non_empty (split_char c_slash (encoded_path u)) in
        let segments := foldl join_native_component segments (split_char c_slash path) in
        let? uri := path_uri_try_from (url_set_path (c_slash :: join [c_slash] segments) u) in
        if negb (bool_decide (infer_path_convention uri = Some Posix))
        then Err (InvalidFileUriPath (url_as_str uri)) else Ok uri
  end.
End path_uri.
