(* ===== verification/PathUriFacts.v ===== *)
(** * File URIs: containment as prefixes

    The laws of [url] and [urlencoding] that path comparison relies on, and
    what they give: a URI with a lexical depth has a location, that is a
    convention, a host and a list of decoded segments, and one URI starts with
    another exactly when the segments do. *)

From S2P Require Import Prelude RustStr Utf8 PathConvention PathUri.
Open Scope list_scope.

(** ** Bytes and ASCII case *)

Lemma ascii_lower_high b : (128 ≤ b)%N → ascii_lower b = b.
Proof. intros H. unfold ascii_lower. destruct (_ && _) eqn:E; [|done]. apply andb_true_iff in E as [_ E%N.leb_le]. lia. Qed.

Lemma ascii_lower_low c : (c < 128)%N → (ascii_lower c < 128)%N.
Proof. intros H. unfold ascii_lower. destruct (_ && _) eqn:E; [|done]. apply andb_true_iff in E as [_ E%N.leb_le]. lia. Qed.

Lemma ascii_lower_ge c : (128 ≤ c)%N → (128 ≤ ascii_lower c)%N.
Proof. intros. by rewrite ascii_lower_high. Qed.

Lemma high_byte k q b : b = (k + q)%N → (b < 128)%N → (128 <=? k)%N = false.
Proof. intros -> ?. apply N.leb_gt. lia. Qed.

Lemma ascii_lower_app a b : to_ascii_lowercase (a ++ b) = to_ascii_lowercase a ++ to_ascii_lowercase b.
Proof. apply map_app. Qed.

Lemma lower_encode_char c : to_ascii_lowercase (encode_char c) = encode_char (ascii_lower c).
Proof.
  destruct (N.ltb_spec c 128) as [Hc|Hc].
  - unfold encode_char. rewrite (proj2 (N.ltb_lt c 128)) by done.
    by rewrite (proj2 (N.ltb_lt (ascii_lower c) 128)) by by apply ascii_lower_low.
  - rewrite ascii_lower_high by done. unfold encode_char.
    rewrite (proj2 (N.ltb_ge c 128)) by done.
    unfold to_ascii_lowercase.
    destruct (c <? 2048)%N; [|destruct (c <? 65536)%N]; cbn [map]; rewrite !ascii_lower_high; try done; try apply N.le_add_r; try (eapply N.le_trans; [|apply N.le_add_r]; done).
Qed.

Lemma lower_encode s : to_ascii_lowercase (encode s) = encode (to_ascii_lowercase s).
Proof.
  induction s as [|c s IH]; [done|]. unfold encode in *.
  change (to_ascii_lowercase (c :: s)) with (ascii_lower c :: to_ascii_lowercase s).
  by rewrite !bind_cons, ascii_lower_app, IH, lower_encode_char.
Qed.

Lemma encode_app a b : encode (a ++ b) = encode a ++ encode b.
Proof. unfold encode. apply bind_app. Qed.

Lemma scalar_lower c : is_scalar c → is_scalar (ascii_lower c).
Proof.
  unfold is_scalar, ascii_lower. destruct (_ && _) eqn:E; [|done]. apply andb_true_iff in E as [_ E%N.leb_le]. lia.
Qed.

Lemma encode_inj a b : Forall is_scalar a → Forall is_scalar b → encode a = encode b → a = b.
Proof.
  intros Ha Hb He. pose proof (scan_encode a [] Ha) as Sa. pose proof (scan_encode b [] Hb) as Sb.
  rewrite app_nil_r in Sa, Sb. rewrite He, Sb in Sa.
  change (scan []) with (([] : str), 0, @None (option nat)) in Sa. simpl in Sa.
  rewrite !app_nil_r in Sa. congruence.
Qed.

(** Bytes of an encoded string that are ASCII are chars of the string. *)
Lemma elem_encode b s : (b < 128)%N → b ∈ encode s → b ∈ s.
Proof.
  intros Hb. unfold encode. rewrite list_elem_of_bind. intros (c & Hc & Hs).
  unfold encode_char in Hc. destruct (N.ltb_spec c 128).
  { apply list_elem_of_singleton in Hc. by subst. }
  exfalso. destruct (c <? 2048)%N; [|destruct (c <? 65536)%N];
    repeat (apply elem_of_cons in Hc as [Hc|Hc]; [by apply high_byte in Hc|]); by apply not_elem_of_nil in Hc.
Qed.

(** ** The laws *)

Class LawfulUrl (U UE : Type) `{UL : !UrlLib U UE} := {
  path_segments_split u segs :
    url_path_segments u = Some segs → ∃ p, url_path u = c_slash :: p ∧ segs = split_char c_slash p;
  decode_nil a : decode_binary a = [] ↔ a = [];
  decode_slash a b : decode_binary (a ++ c_slash :: b) = decode_binary a ++ c_slash :: decode_binary b;
  decode_lower a b :
    to_ascii_lowercase a = to_ascii_lowercase b →
    to_ascii_lowercase (decode_binary a) = to_ascii_lowercase (decode_binary b);
  url_decode_spec s : url_decode s = res_ok (from_utf8 (decode_binary (encode s)));
}.

(** ** Locations *)

Section location.
Context {U UE : Type} `{UL : !UrlLib U UE}.
Implicit Types (u v : U).

(** The bytes of a segment, folded where the convention ignores case. *)
Definition norm_segment (conv : PathConvention) (s : str) : bytes :=
  match conv with
  | Posix => decode_binary (encode s)
  | Windows => to_ascii_lowercase (decode_binary (encode s))
  end.

Definition utf8_segment (s : str) : bool := is_ok (from_utf8 (decode_binary (encode s))).

(** Windows names are Unicode; a Windows URI with other bytes is compared by
    its spelling. *)
Definition is_clean u : bool :=
  match infer_path_convention u, url_path_segments u with
  | Some Windows, Some segs => forallb utf8_segment segs
  | _, _ => true
  end.

Definition location u : option (PathConvention * option str * list bytes) :=
  if bool_decide (decode_bad_path_uri u ≠ None) then None
  else conv ← infer_path_convention u;
       segs ← containment_path_segments u conv;
       Some (conv, url_host_str u, map (norm_segment conv) segs).

Lemma lexical_depth_location u : lexical_depth u = (λ l, length l.2) <$> location u.
Proof.
  unfold lexical_depth, location. case_bool_decide; [done|]. destruct (infer_path_convention u) as [c|]; [|done].
  simpl. destruct (containment_path_segments u c); simpl; [|done]. by rewrite length_map.
Qed.

Lemma location_convention u c h a : location u = Some (c, h, a) → infer_path_convention u = Some c.
Proof.
  unfold location. case_bool_decide; [done|]. destruct (infer_path_convention u) as [c'|]; [|done].
  simpl. destruct (containment_path_segments u c'); simpl; [|done]. by intros [= -> _ _].
Qed.

Context `{LU : !LawfulUrl U UE}.

Lemma utf8_segment_string s : utf8_segment s = true →
  ∃ t, url_decode s = Some t ∧ encode t = decode_binary (encode s) ∧ Forall is_scalar t.
Proof.
  unfold utf8_segment. rewrite url_decode_spec. destruct (from_utf8 _) as [t| |] eqn:E; [|done..].
  intros _. exists t. apply from_utf8_encode in E as [-> ?]. done.
Qed.

Lemma segment_matches_norm conv a b :
  (conv = Windows → utf8_segment a = true ∧ utf8_segment b = true) →
  segment_matches conv a b = true ↔ norm_segment conv a = norm_segment conv b.
Proof.
  intros Hu. destruct conv; simpl; [by rewrite bool_decide_eq_true|].
  destruct (Hu eq_refl) as [(x & Hx & Ex & Sx)%utf8_segment_string (y & Hy & Ey & Sy)%utf8_segment_string].
  unfold decode_uri_path, eq_ignore_ascii_case. rewrite Hx, Hy. simpl.
  rewrite orb_true_iff, !bool_decide_eq_true. split.
  - intros [H|H].
    + apply decode_lower. by rewrite !lower_encode, H.
    + by rewrite <- Ex, <- Ey, !lower_encode, H.
  - intros H. right. rewrite <- Ex, <- Ey, !lower_encode in H.
    apply encode_inj in H; [done| |]; apply Forall_map; eapply Forall_impl; eauto using scalar_lower.
Qed.

Lemma segments_start_with conv xs ys :
  (conv = Windows → forallb utf8_segment xs = true ∧ forallb utf8_segment ys = true) →
  native_path_segments_start_with xs ys conv = true ↔
  map (norm_segment conv) ys `prefix_of` map (norm_segment conv) xs.
Proof.
  unfold native_path_segments_start_with. revert ys.
  induction xs as [|x xs IH]; intros [|y ys] Hu; simpl.
  - split; [intros _; apply prefix_nil|done].
  - split; [done|]. by intros ?%prefix_nil_not.
  - split; [intros _; apply prefix_nil|done].
  - assert (E : bool_decide (S (length ys) ≤ S (length xs)) = bool_decide (length ys ≤ length xs))
      by (apply bool_decide_ext; lia).
    rewrite E, andb_assoc, (andb_comm (bool_decide _)), <- andb_assoc, andb_true_iff.
    rewrite IH by (intros Hc; destruct (Hu Hc) as [[_ ?]%andb_true_iff [_ ?]%andb_true_iff]; done).
    rewrite segment_matches_norm
      by (intros Hc; destruct (Hu Hc) as [[? _]%andb_true_iff [? _]%andb_true_iff]; done).
    split; [intros [-> ?]; by apply prefix_cons|].
    intros Hp. split; [by apply prefix_cons_inv_1 in Hp|by apply prefix_cons_inv_2 in Hp].
Qed.

(** ** Equal URIs are at the same location *)

Lemma encode_join ps : encode (join [c_slash] ps) = join [c_slash] (map encode ps).
Proof.
  induction ps as [|p [|q ps] IH]; [done|done|].
  change (join [c_slash] (p :: q :: ps)) with (p ++ [c_slash] ++ join [c_slash] (q :: ps)).
  rewrite !encode_app, IH. done.
Qed.

Lemma decode_join xs :
  xs ≠ [] → decode_binary (join [c_slash] xs) = join [c_slash] (map decode_binary xs).
Proof.
  induction xs as [|x [|y xs] IH]; [done|done|]. intros _.
  change (join [c_slash] (x :: y :: xs)) with (x ++ c_slash :: join [c_slash] (y :: xs)).
  by rewrite decode_slash, IH.
Qed.

Lemma lower_join xs :
  to_ascii_lowercase (join [c_slash] xs) = join [c_slash] (map to_ascii_lowercase xs).
Proof.
  induction xs as [|x [|y xs] IH]; [done|done|].
  change (join [c_slash] (x :: y :: xs)) with (x ++ [c_slash] ++ join [c_slash] (y :: xs)).
  rewrite !ascii_lower_app, IH. done.
Qed.

Lemma ascii_lower_slash c : ascii_lower c = c_slash → c = c_slash.
Proof.
  unfold ascii_lower, c_slash. destruct (_ && _) eqn:E; [|done].
  apply andb_true_iff in E as [E%N.leb_le _]. lia.
Qed.

Lemma no_separator_no_slash conv s :
  has_encoded_separator conv s = false → c_slash ∉ decode_binary (encode s).
Proof.
  unfold has_encoded_separator. rewrite existsb_false_Forall, Forall_forall. intros H Hin%H.
  by apply orb_false_iff in Hin as [? _].
Qed.

(** The folded segments can be read off the folded bytes of the path. *)
Lemma identity_segments u segs bs :
  url_path_segments u = Some segs → existsb (has_encoded_separator Windows) segs = false →
  decode_binary (encode (url_path u)) = bs →
  to_ascii_lowercase bs = c_slash :: join [c_slash] (map (norm_segment Windows) segs)
  ∧ Forall (λ x, c_slash ∉ x) (map (norm_segment Windows) segs) ∧ segs ≠ [].
Proof.
  intros Hs Hn <-. destruct (path_segments_split u segs Hs) as (q & -> & ->).
  pose proof (split_char_not_nil c_slash q) as Hne. split_and!; [| |done].
  - change (encode (c_slash :: q)) with ([] ++ c_slash :: encode q). rewrite decode_slash.
    rewrite (proj2 (decode_nil [])) by done. simpl. f_equal.
    rewrite <- (join_split c_slash q) at 1. rewrite encode_join, decode_join, lower_join.
    + by rewrite !map_map.
    + by destruct (split_char c_slash q).
  - apply existsb_false_Forall in Hn. apply Forall_map. eapply Forall_impl; [done|].
    intros s Hs'%no_separator_no_slash. simpl. intros (c & Hc & Hin)%list_elem_of_fmap.
    by rewrite <- (ascii_lower_slash c) in Hs'.
Qed.

Lemma norm_non_empty conv s : non_empty (norm_segment conv s) = non_empty s.
Proof.
  unfold non_empty. f_equal. apply bool_decide_ext.
  assert (Hd : decode_binary (encode s) = [] ↔ s = []).
  { rewrite decode_nil. destruct s as [|c s]; [done|]. split; [|done]. unfold encode. rewrite bind_cons.
    unfold encode_char. by repeat case_match. }
  destruct conv; simpl; [done|]. rewrite <- Hd. unfold to_ascii_lowercase. by destruct (decode_binary _).
Qed.

Lemma map_norm_filter conv segs :
  map (norm_segment conv) (List.filter non_empty segs) = List.filter non_empty (map (norm_segment conv) segs).
Proof.
  induction segs as [|s segs IH]; [done|]. simpl. rewrite norm_non_empty. destruct (non_empty s); simpl; by rewrite IH.
Qed.

Lemma path_uri_eqb_location u v lu lv :
  path_uri_eqb u v = true → location u = Some lu → location v = Some lv → lu = lv.
Proof.
  unfold path_uri_eqb. intros [->%bool_decide_eq_true|Hw]%orb_true_iff; [congruence|].
  unfold windows_identity_path_bytes in Hw.
  destruct (_ || _) eqn:Eu in Hw; [done|]. destruct (url_path_segments u) as [su|] eqn:Su; [|done].
  simpl in Hw. destruct (existsb _ su) eqn:Nu; [done|].
  destruct (_ || _) eqn:Ev in Hw; [done|]. destruct (url_path_segments v) as [sv|] eqn:Sv; [|done].
  simpl in Hw. destruct (existsb _ sv) eqn:Nv; [done|].
  apply orb_false_iff in Eu as [Eu _], Ev as [Ev _]. apply negb_false_iff, bool_decide_eq_true in Eu, Ev.
  apply andb_true_iff in Hw as [Hh Hp]. apply bool_decide_eq_true in Hh. unfold eq_ignore_ascii_case in Hp.
  apply bool_decide_eq_true in Hp.
  destruct (identity_segments u su _ Su Nu eq_refl) as (Pu & Fu & Neu).
  destruct (identity_segments v sv _ Sv Nv eq_refl) as (Pv & Fv & Nev).
  rewrite Pu, Pv in Hp. injection Hp as Hp.
  apply (f_equal (split_char c_slash)) in Hp.
  rewrite !split_join in Hp; try done; try (by destruct su); try (by destruct sv).
  unfold location, containment_path_segments. rewrite Eu, Ev, Su, Sv. simpl.
  case_bool_decide; [done|]. case_bool_decide; [done|].
  destruct (existsb _ (List.filter _ su)); [done|]. destruct (existsb _ (List.filter _ sv)); [done|].
  simpl. intros [= <-] [= <-]. by rewrite !map_norm_filter, Hp, Hh.
Qed.

(** ** Containment *)

Lemma clean_segments u c h a :
  is_clean u = true → location u = Some (c, h, a) →
  ∃ segs, containment_path_segments u c = Some segs ∧ a = map (norm_segment c) segs ∧ h = url_host_str u
    ∧ decode_bad_path_uri u = None ∧ infer_path_convention u = Some c
    ∧ (c = Windows → forallb utf8_segment segs = true).
Proof.
  unfold is_clean, location. intros Hc. case_bool_decide as Hb; [done|].
  destruct (infer_path_convention u) as [c'|] eqn:Ei; [|done]. simpl.
  destruct (containment_path_segments u c') as [segs|] eqn:Ec; simpl; [|done]. intros [= -> <- <-].
  exists segs. assert (decode_bad_path_uri u = None) by (by destruct (decode_bad_path_uri u); [destruct Hb|]).
  split_and!; try done.
  intros ->. unfold containment_path_segments in Ec. destruct (url_path_segments u) as [all|]; [|done].
  simpl in Ec. destruct (existsb _ _); [done|]. injection Ec as <-. apply forallb_forall.
  rewrite forallb_forall in Hc. intros x [Hx _]%filter_In. by apply Hc.
Qed.

Lemma path_starts_with_location u v c h a c' h' b :
  is_clean u = true → is_clean v = true →
  location u = Some (c, h, a) → location v = Some (c', h', b) →
  path_starts_with u v = true ↔ c = c' ∧ h = h' ∧ b `prefix_of` a.
Proof.
  intros Cu Cv Lu Lv. unfold path_starts_with. destruct (path_uri_eqb u v) eqn:E.
  { pose proof (path_uri_eqb_location _ _ _ _ E Lu Lv) as [= -> -> ->]. done. }
  apply clean_segments in Lu as (su & Hsu & -> & -> & -> & Hcu & Uu); [|done].
  apply clean_segments in Lv as (sv & Hsv & -> & -> & -> & Hcv & Uv); [|done].
  rewrite Hcu, Hcv. simpl.
  case_bool_decide as Hh; simpl; [|naive_solver].
  case_bool_decide as Hc; simpl; [|split; [done|]; by intros (-> & _)].
  injection Hc as <-. rewrite Hsu, Hsv, segments_start_with by auto. naive_solver.
Qed.
End location.

(** * File URIs: parents, roots and joins

    The laws of [PathSegmentsMut] and what they give for the lexical operations:
    the ancestors of a path end at its root after as many steps as it has
    segments, and joining resolves dots and dot-dots on the decoded segments. *)

(** Text of a component that is stored as it is: no dots, no characters that
    URLs drop, no drive letter. *)
Definition ordinary (s : str) : bool :=
  non_empty s && negb (is_dot_segment s) && negb (existsb (λ c, bool_decide (c ∈ [0; 9; 10; 13]%N)) s)
  && negb (match s with [d; c] => is_ascii_alphabetic d && ((c =? 58) || (c =? 124))%N | _ => false end)
  && forallb (λ c, bool_decide ((c < 55296)%N ∨ (57344 ≤ c < 1114112)%N)) s.

Definition popped (segs : list str) : list str :=
  match removelast segs with [] => [[]] | segs => segs end.
Definition popped_if_empty (segs : list str) : list str :=
  if bool_decide (1 < length segs) && bool_decide (last segs = Some []) then removelast segs else segs.
Definition pushed (segs : list str) (s : str) : list str :=
  if bool_decide (segs = [[]]) then [s] else segs ++ [s].

Class LawfulSegments (U UE : Type) `{UL : !UrlLib U UE} := {
  decode_plain a : 37%N ∉ a → decode_binary a = a;
  opaque_has_nul (u : U) s :
    strip_prefix BAD_PATH_URI_PREFIX (url_as_str u) = Some s →
    0%N ∈ decode_binary (encode (url_path u));
  pop_segments (u : U) segs : url_path_segments u = Some segs → url_path_segments (seg_pop u) = Some (popped segs);
  pop_if_empty_segments (u : U) segs :
    url_path_segments u = Some segs → url_path_segments (seg_pop_if_empty u) = Some (popped_if_empty segs);
  push_segments (u : U) segs s :
    url_path_segments u = Some segs → ordinary s = true →
    ∃ x, url_path_segments (seg_push s u) = Some (pushed segs x) ∧ decode_binary (encode x) = encode s;
  decode_drive x :
    is_windows_drive_uri_segment x = true → ∃ d, is_ascii_alphabetic d = true ∧ decode_binary (encode x) = [d; 58%N];
  parse_root :
    ∃ u : U, url_parse (lit "file:///") = inr u ∧ url_path_segments (seg_clear u) = Some [[]]
             ∧ url_host_str u = None ∧ url_scheme u = FILE_SCHEME;
  (* the edits touch the path only *)
  edit_host (u : U) : url_host_str (seg_pop u) = url_host_str u ∧ url_host_str (seg_pop_if_empty u) = url_host_str u
                ∧ url_host_str (seg_clear u) = url_host_str u
                ∧ ∀ s, ordinary s = true → url_host_str (seg_push s u) = url_host_str u;
  edit_scheme (u : U) : url_scheme (seg_pop u) = url_scheme u ∧ url_scheme (seg_pop_if_empty u) = url_scheme u
                ∧ url_scheme (seg_clear u) = url_scheme u
                ∧ ∀ s, ordinary s = true → url_scheme (seg_push s u) = url_scheme u;
  file_url_plain (u : U) : url_scheme u = FILE_SCHEME → url_host_str u = None →
                validate_common_known_uri u = Ok ();
}.

Section roots.
Context {U UE : Type} `{UL : !UrlLib U UE} `{LU : !LawfulUrl U UE} `{LS : !LawfulSegments U UE}.
Implicit Types (u v : U).

Definition nul_free u : Prop := 0%N ∉ decode_binary (encode (url_path u)).

Lemma nul_free_not_opaque u : nul_free u → decode_bad_path_uri u = None.
Proof.
  intros Hn. unfold decode_bad_path_uri. destruct (strip_prefix _ _) as [s|] eqn:E; [|done].
  exfalso. by eapply Hn, opaque_has_nul.
Qed.

Lemma nul_free_segments u segs :
  url_path_segments u = Some segs → nul_free u ↔ Forall (λ s, 0%N ∉ decode_binary (encode s)) segs.
Proof.
  intros Hs. unfold nul_free. destruct (path_segments_split u segs Hs) as (q & Hq & ->). rewrite Hq.
  change (encode (c_slash :: q)) with ([] ++ c_slash :: encode q). rewrite decode_slash.
  rewrite (proj2 (decode_nil [])) by done. rewrite <- (join_split c_slash q) at 1.
  pose proof (split_char_not_nil c_slash q) as Hne. rewrite encode_join, decode_join
    by (by destruct (split_char c_slash q)). simpl. rewrite not_elem_of_cons.
  assert (Hj : ∀ ps : list bytes, 0%N ∉ join [c_slash] ps ↔ Forall (λ x, 0%N ∉ x) ps).
  { induction ps as [|p [|p' ps] IH]; [split; [done|intros _ ?%not_elem_of_nil; done]|..].
    - simpl. by rewrite Forall_singleton.
    - change (join [c_slash] (p :: p' :: ps)) with (p ++ [c_slash] ++ join [c_slash] (p' :: ps)).
      rewrite !not_elem_of_app, IH, (Forall_cons _ p). assert (0%N ∉ [c_slash]) by (by intros ?%list_elem_of_singleton).
      tauto. }
  rewrite Hj, !Forall_map. unfold compose. split; [by intros [_ ?]|]. by intros ?.
Qed.

(** ** Parents *)

Lemma elem_of_removelast {A} (l : list A) x : x ∈ removelast l → x ∈ l.
Proof.
  induction l as [|y l IH]; [done|]. simpl. destruct l; [by intros ?%not_elem_of_nil|].
  intros [->|?]%elem_of_cons; [by left|right; by apply IH].
Qed.

Lemma elem_of_popped segs x : x ∈ popped segs → x ∈ segs ∨ x = [].
Proof.
  unfold popped. destruct (removelast segs) as [|y l] eqn:E.
  - intros ->%list_elem_of_singleton. by right.
  - rewrite <- E. intros ?%elem_of_removelast. by left.
Qed.

Lemma elem_of_popped_if_empty segs x : x ∈ popped_if_empty segs → x ∈ segs.
Proof. unfold popped_if_empty. destruct (_ && _); [apply elem_of_removelast|done]. Qed.

(** The non-empty segments lose at most the last one. *)
Lemma filter_popped segs :
  let a := List.filter non_empty segs in
  List.filter non_empty (popped segs) = a ∨ List.filter non_empty (popped segs) = removelast a.
Proof.
  simpl. destruct (snoc_inv segs) as [->|(l & x & ->)]; [by left|].
  unfold popped. rewrite removelast_last. rewrite List.filter_app. simpl.
  assert (Hl : List.filter non_empty (match l with [] => [[]] | _ => l end) = List.filter non_empty l) by (by destruct l).
  destruct (non_empty x); [right|left].
  - rewrite removelast_last. by destruct l.
  - rewrite app_nil_r. by destruct l.
Qed.

Lemma filter_popped_if_empty segs :
  List.filter non_empty (popped_if_empty segs) = List.filter non_empty segs.
Proof.
  unfold popped_if_empty. destruct (_ && _) eqn:E; [|done].
  apply andb_true_iff in E as [_ (l & ->)%bool_decide_eq_true%last_Some_snoc].
  rewrite removelast_last, List.filter_app. simpl. by rewrite app_nil_r.
Qed.

Definition first_segment (segs : list str) : option str := head (List.filter non_empty segs).

Lemma find_first segs : List.find non_empty segs = first_segment segs.
Proof. unfold first_segment. induction segs as [|x segs IH]; [done|]. simpl. by destruct (non_empty x). Qed.

(** The convention depends on the host and the first segment. *)
Lemma infer_convention u segs :
  decode_bad_path_uri u = None → url_path_segments u = Some segs →
  infer_path_convention u =
    Some (if bool_decide (url_host_str u ≠ None)
             || from_option is_windows_drive_uri_segment false (first_segment segs) then Windows else Posix).
Proof.
  intros Hb Hs. unfold infer_path_convention, opaque_fallback_bytes. rewrite Hb, Hs, find_first.
  destruct (bool_decide _); [done|]. simpl. destruct (first_segment segs) as [x|]; simpl; [|done].
  by destruct (is_windows_drive_uri_segment x).
Qed.

Definition parent_segments (segs : list str) : list str := popped (popped_if_empty segs).

Lemma parent_segments_filter segs :
  let a := List.filter non_empty segs in
  List.filter non_empty (parent_segments segs) = a ∨ List.filter non_empty (parent_segments segs) = removelast a.
Proof. unfold parent_segments. simpl. rewrite <- (filter_popped_if_empty segs). apply filter_popped. Qed.

(** What the lexical operations keep of a URI with segments [segs]. *)
Record at_segments (c : PathConvention) (h : option str) u (segs : list str) : Prop := {
  as_segments : url_path_segments u = Some segs;
  as_host : url_host_str u = h;
  as_conv : infer_path_convention u = Some c;
  as_nul : nul_free u;
  as_plain : existsb (has_encoded_separator c) (List.filter non_empty segs) = false;
}.

Lemma at_location c h u segs :
  at_segments c h u segs → location u = Some (c, h, map (norm_segment c) (List.filter non_empty segs)).
Proof.
  intros [Hs Hh Hc Hn Hp]. unfold location, containment_path_segments.
  rewrite (nul_free_not_opaque u Hn), Hc, Hs. simpl. by rewrite Hp, Hh.
Qed.

Lemma location_at c h u a :
  nul_free u → location u = Some (c, h, a) →
  ∃ segs, at_segments c h u segs ∧ a = map (norm_segment c) (List.filter non_empty segs).
Proof.
  intros Hn Hl. pose proof (location_convention _ _ _ _ Hl) as Hc.
  unfold location, containment_path_segments in Hl. rewrite (nul_free_not_opaque u Hn), Hc in Hl. simpl in Hl.
  destruct (url_path_segments u) as [segs|] eqn:Es; [|done]. simpl in Hl.
  destruct (existsb _ _) eqn:Ep; [done|]. injection Hl as <- <-. exists segs. done.
Qed.

Lemma existsb_sub {A} (f : A → bool) l l' : (∀ x, x ∈ l' → x ∈ l) → existsb f l = false → existsb f l' = false.
Proof.
  intros Hs. rewrite !existsb_false_Forall, !Forall_forall. auto.
Qed.

(** A parent is a step towards the root. *)
Lemma parent_step c h u segs :
  at_segments c h u segs →
  (parent u = None ∧ length (List.filter non_empty segs) ≤ anchor_depth c)
  ∨ ∃ v, parent u = Some v ∧ anchor_depth c < length (List.filter non_empty segs)
         ∧ at_segments c h v (parent_segments segs).
Proof.
  intros [Hs Hh Hc Hn Hp]. unfold parent. rewrite (nul_free_not_opaque u Hn), Hc, Hs. simpl.
  case_bool_decide as Hd; [by left|right]. eexists. split_and!; [done|lia|].
  set (v := seg_pop (seg_pop_if_empty u)).
  assert (Hsv : url_path_segments v = Some (parent_segments segs)).
  { apply pop_segments. by apply pop_if_empty_segments. }
  assert (Hhv : url_host_str v = h).
  { unfold v. destruct (edit_host (seg_pop_if_empty u)) as [-> _]. by destruct (edit_host u) as (_ & -> & _). }
  assert (Hnv : nul_free v).
  { apply (nul_free_segments v _ Hsv), Forall_forall. apply (nul_free_segments u segs Hs) in Hn.
    rewrite Forall_forall in Hn.
    intros x [Hx| ->]%elem_of_popped; [by apply Hn, elem_of_popped_if_empty|].
    change (encode []) with ([] : bytes). rewrite (proj2 (decode_nil [])) by done. by intros ?%not_elem_of_nil. }
  pose proof (parent_segments_filter segs) as Hf. simpl in Hf.
  assert (Hfirst : anchor_depth c = 1 → first_segment (parent_segments segs) = first_segment segs).
  { intros Ha. unfold first_segment. destruct Hf as [->| ->]; [done|].
    destruct (List.filter non_empty segs) as [|x [|y l]]; simpl in *; try done; lia. }
  split; [done|done| |done|].
  - rewrite (infer_convention u segs (nul_free_not_opaque u Hn) Hs) in Hc.
    rewrite (infer_convention v _ (nul_free_not_opaque v Hnv) Hsv), Hhv, <- Hh. injection Hc as <-.
    f_equal. unfold anchor_depth in *. destruct (bool_decide (url_host_str u ≠ None)); [done|]. simpl in *.
    unfold first_segment in *. destruct (head (List.filter non_empty segs)) as [x|] eqn:Ex; simpl in *.
    + destruct (is_windows_drive_uri_segment x) eqn:Ew; simpl in *.
      * rewrite Hfirst by done. simpl. by rewrite Ew.
      * destruct Hf as [->| ->]; [by rewrite Ex; simpl; rewrite Ew|].
        destruct (List.filter non_empty segs) as [|y [|z l]]; simpl in *; try done. injection Ex as ->.
        by rewrite Ew.
    + destruct Hf as [->| ->]; [by rewrite Ex|]. by destruct (List.filter non_empty segs).
  - eapply existsb_sub; [|exact Hp]. intros x Hx. destruct Hf as [Hf|Hf]; rewrite Hf in Hx; [done|].
    by apply elem_of_removelast.
Qed.

(** ** Roots *)

Lemma length_parent_segments segs :
  length (parent_segments segs) < length segs ∨ List.filter non_empty (parent_segments segs) = [].
Proof.
  unfold parent_segments. assert (Hle : length (popped_if_empty segs) ≤ length segs).
  { unfold popped_if_empty. destruct (_ && _); [|done]. destruct (snoc_inv segs) as [->|(l & x & ->)]; [done|].
    rewrite removelast_last, length_app. simpl. lia. }
  generalize dependent (popped_if_empty segs). intros l Hle. unfold popped.
  destruct (snoc_inv l) as [->|(l' & x & ->)]; [by right|]. rewrite removelast_last.
  destruct l' as [|y l']; [by right|]. left. rewrite length_app in Hle. simpl in *. lia.
Qed.

Lemma take_removelast {A} (l : list A) n : n < length l → take n (removelast l) = take n l.
Proof.
  destruct (snoc_inv l) as [->|(l' & x & ->)]; [done|]. rewrite removelast_last, length_app. simpl. intros Hn.
  by rewrite take_app_le by lia.
Qed.

Lemma ancestors_root n c h u segs :
  at_segments c h u segs →
  length segs ≤ n ∨ length (List.filter non_empty segs) ≤ anchor_depth c →
  ∃ r segs', last (ancestors_fuel n u) = Some r ∧ parent r = None ∧ at_segments c h r segs'
    ∧ List.filter non_empty segs' = take (anchor_depth c) (List.filter non_empty segs).
Proof.
  revert u segs. induction n as [|n IH]; intros u segs Hat Hn.
  - destruct (parent_step _ _ _ _ Hat) as [[Hp Hle]|(v & _ & Hlt & _)].
    + exists u, segs. by rewrite take_ge.
    + exfalso. destruct Hn as [Hn|Hn]; [|lia]. by destruct segs; simpl in *; lia.
  - simpl. destruct (parent_step _ _ _ _ Hat) as [[Hp Hle]|(v & Hp & Hlt & Hv)]; rewrite Hp.
    + exists u, segs. by rewrite take_ge.
    + destruct (IH v (parent_segments segs) Hv) as (r & segs' & Hl & Hr & Har & Hf).
      { destruct (length_parent_segments segs) as [Hs|Hs]; [|right; rewrite Hs; simpl; lia].
        destruct Hn; [left; lia|lia]. }
      exists r, segs'. split_and!; [|done|done|].
      * destruct (ancestors_fuel n v) as [|w l] eqn:Ea; [by destruct n|]. done.
      * rewrite Hf. destruct (parent_segments_filter segs) as [->| ->]; [done|]. by apply take_removelast.
Qed.

(** Every ancestor has a prefix of the segments. *)
Lemma ancestors_prefix n c h u segs v :
  at_segments c h u segs → v ∈ ancestors_fuel n u →
  ∃ segs', at_segments c h v segs' ∧ List.filter non_empty segs' `prefix_of` List.filter non_empty segs
    ∧ ∀ x, x ∈ segs' → x ∈ segs ∨ x = [].
Proof.
  revert u segs. induction n as [|n IH]; intros u segs Hat; simpl.
  { intros ->%list_elem_of_singleton. exists segs. split_and!; [done..|]. auto. }
  intros [->|Hv]%elem_of_cons; [exists segs; split_and!; [done..|auto]|].
  destruct (parent_step _ _ _ _ Hat) as [[Hp _]|(w & Hp & Hlt & Hw)]; rewrite Hp in Hv; [by apply not_elem_of_nil in Hv|].
  destruct (IH w _ Hw Hv) as (segs' & Hat' & Hpre & Hin). exists segs'. split_and!; [done| |].
  - etrans; [exact Hpre|]. destruct (parent_segments_filter segs) as [->| ->]; [done|].
    destruct (snoc_inv (List.filter non_empty segs)) as [->|(l & x & ->)]; [done|].
    rewrite removelast_last. by apply prefix_app_r.
  - intros x [Hx| ->]%Hin; [|by right]. apply elem_of_popped in Hx as [Hx| ->]; [|by right].
    left. by apply elem_of_popped_if_empty.
Qed.

Lemma clean_sub u v segs segs' c h :
  at_segments c h u segs → at_segments c h v segs' → (∀ x, x ∈ segs' → x ∈ segs ∨ x = []) →
  is_clean u = true → is_clean v = true.
Proof.
  intros Hu Hv Hin. unfold is_clean.
  rewrite (as_conv _ _ _ _ Hu), (as_conv _ _ _ _ Hv), (as_segments _ _ _ _ Hu), (as_segments _ _ _ _ Hv).
  destruct c; [done|]. rewrite !forallb_forall. intros H x [Hx| ->]%list_elem_of_In%Hin.
  - by apply H, list_elem_of_In.
  - unfold utf8_segment. change (encode []) with ([] : bytes). by rewrite (proj2 (decode_nil [])).
Qed.

Lemma file_root u c h a :
  nul_free u → is_clean u = true → location u = Some (c, h, a) →
  ∃ r, last (ancestors u) = Some r ∧ parent r = None ∧ nul_free r ∧ is_clean r = true
       ∧ infer_path_convention r = Some c ∧ location r = Some (c, h, take (anchor_depth c) a).
Proof.
  intros Hn Hc Hl. destruct (location_at c h u a Hn Hl) as (segs & Hat & ->).
  unfold ancestors. rewrite (as_segments _ _ _ _ Hat). simpl.
  destruct (ancestors_root (length segs) c h u segs Hat ltac:(by left)) as (r & segs' & Hr & Hp & Har & Hf).
  assert (Hin : r ∈ ancestors_fuel (length segs) u).
  { apply last_Some_snoc in Hr as (l & ->). apply elem_of_app. right. by left. }
  destruct (ancestors_prefix _ _ _ _ _ _ Hat Hin) as (segs2 & Hat2 & _ & Hsub).
  exists r. split_and!; [done|done|by apply Har|exact (clean_sub _ _ _ _ _ _ Hat Hat2 Hsub Hc)|by apply Har|].
  rewrite (at_location _ _ _ _ Har), Hf. by rewrite firstn_map.
Qed.

(** C38. The ancestors of a file URI end: after at most as many steps up as the
    path has segments the iteration reaches a URI without parent, which has the
    convention, the host and the anchor of the path (nothing on POSIX, the drive
    or the share on Windows), and the path starts with each of its ancestors. *)
Theorem ancestors_reach_root u c h a :
  nul_free u → is_clean u = true → location u = Some (c, h, a) →
  Forall (λ v, path_starts_with u v = true) (ancestors u)
  ∧ ∃ r, last (ancestors u) = Some r ∧ parent r = None
         ∧ location r = Some (c, h, take (anchor_depth c) a).
Proof.
  intros Hn Hc Hl. split.
  - apply Forall_forall. intros v Hv. destruct (location_at c h u a Hn Hl) as (segs & Hat & ->).
    destruct (ancestors_prefix _ _ _ _ _ _ Hat Hv) as (segs' & Hat' & Hpre & Hsub).
    apply (path_starts_with_location u v _ _ _ _ _ _ Hc (clean_sub _ _ _ _ _ _ Hat Hat' Hsub Hc) Hl (at_location _ _ _ _ Hat')).
    split_and!; [done..|]. destruct Hpre as [k ->]. rewrite map_app. by apply prefix_app_r.
  - destruct (file_root u c h a Hn Hc Hl) as (r & ? & ? & _ & _ & _ & ?). eauto.
Qed.

(** ** Joins *)

(** A component of path text, resolved against decoded segments. *)
Definition lex_step (segs : list bytes) (component : str) : list bytes :=
  if bool_decide (component = []) || bool_decide (component = lit ".") then segs
  else if bool_decide (component = lit "..") then removelast segs
  else segs ++ [encode component].

Definition plain_component (s : str) : bool := bool_decide (s = []) || is_dot_segment s || ordinary s.

(** No empty segment, except for the root itself. *)
Definition tidy (segs : list str) : Prop := segs = [[]] ∨ (segs ≠ [] ∧ Forall (λ x, non_empty x = true) segs).

Definition names (segs : list str) : list bytes := map (norm_segment Posix) (List.filter non_empty segs).

Lemma filter_non_empty_all segs : Forall (λ x, non_empty x = true) segs → List.filter non_empty segs = segs.
Proof. induction 1 as [|x l Hx _ IH]; [done|]. simpl. by rewrite Hx, IH. Qed.

Lemma ordinary_spec s :
  ordinary s = true →
  s ≠ [] ∧ is_dot_segment s = false ∧ (0%N ∉ s)
  ∧ (∀ d, is_ascii_alphabetic d = true → s ≠ [d; 58%N]) ∧ Forall is_scalar s.
Proof.
  unfold ordinary. intros [[[[H1 H2]%andb_true_iff H3]%andb_true_iff H4]%andb_true_iff H5]%andb_true_iff.
  split_and!.
  - by apply negb_true_iff, bool_decide_eq_false in H1.
  - by apply negb_true_iff in H2.
  - apply negb_true_iff, existsb_false_Forall in H3. rewrite Forall_forall in H3.
    intros H0%H3. apply bool_decide_eq_false in H0. by destruct H0; left.
  - intros d Hd ->. by rewrite Hd in H4.
  - rewrite forallb_forall in H5. apply Forall_forall. intros c Hc%list_elem_of_In%H5.
    by apply bool_decide_eq_true in Hc.
Qed.

Lemma drive_text d : is_ascii_alphabetic d = true → encode [d; 58%N] = [d; 58%N] ∧ Forall is_scalar [d; 58%N].
Proof.
  unfold is_ascii_alphabetic. intros Hd. assert (d < 128)%N.
  { apply orb_true_iff in Hd as [[_ ?%N.leb_le]%andb_true_iff|[_ ?%N.leb_le]%andb_true_iff]; lia. }
  split.
  - unfold encode. simpl. unfold encode_char. by rewrite (proj2 (N.ltb_lt d 128)).
  - repeat apply Forall_cons_2; [left; lia|left; lia|constructor].
Qed.

Lemma push_step u segs s :
  at_segments Posix None u segs → tidy segs → ordinary s = true → c_slash ∉ s →
  ∃ segs', at_segments Posix None (seg_push s u) segs' ∧ tidy segs' ∧ names segs' = names segs ++ [encode s].
Proof.
  intros [Hs Hh Hc Hn Hp] Ht Ho Hsl. destruct (ordinary_spec s Ho) as (Hne & _ & H0 & Hdr & Hsc).
  destruct (push_segments u segs s Hs Ho) as (x & Hx & Ex).
  assert (Hxne : non_empty x = true).
  { rewrite <- (norm_non_empty Posix). simpl. rewrite Ex. unfold non_empty. rewrite bool_decide_false; [done|].
    intros E. destruct s as [|c s']; [done|]. unfold encode in E. rewrite bind_cons in E.
    unfold encode_char in E. by repeat case_match. }
  assert (Hf : List.filter non_empty (pushed segs x) = List.filter non_empty segs ++ [x]).
  { unfold pushed. case_bool_decide as E.
    - rewrite E. simpl. by rewrite Hxne.
    - rewrite List.filter_app. simpl. by rewrite Hxne. }
  assert (Hnv : nul_free (seg_push s u)).
  { apply (nul_free_segments _ _ Hx), Forall_forall. apply (nul_free_segments u segs Hs) in Hn.
    rewrite Forall_forall in Hn. assert (Hx0 : 0%N ∉ decode_binary (encode x)).
    { rewrite Ex. intros Hin. by apply H0, elem_encode. }
    unfold pushed. case_bool_decide; intros y Hy.
    - by apply list_elem_of_singleton in Hy as ->.
    - apply elem_of_app in Hy as [Hy| ->%list_elem_of_singleton]; [by apply Hn|done]. }
  assert (Hhv : url_host_str (seg_push s u) = None) by (destruct (edit_host u) as (_ & _ & _ & E); by rewrite E).
  exists (pushed segs x). split_and!.
  - split; [done|done| |done|].
    + rewrite (infer_convention _ _ (nul_free_not_opaque _ Hnv) Hx), Hhv. simpl.
      rewrite (infer_convention u segs (nul_free_not_opaque u Hn) Hs), Hh in Hc. simpl in Hc.
      unfold first_segment in *. rewrite Hf.
      destruct (List.filter non_empty segs) as [|y l]; simpl in *; [|done].
      destruct (is_windows_drive_uri_segment x) eqn:Ew; [|done]. exfalso.
      destruct (decode_drive x Ew) as (d & Hd & E). rewrite Ex in E.
      destruct (drive_text d Hd) as [E' Hsd]. apply (Hdr d Hd), encode_inj; [done..|]. by rewrite E, E'.
    + rewrite Hf, existsb_app, Hp. simpl. rewrite orb_false_r. unfold has_encoded_separator. rewrite Ex.
      apply existsb_false_Forall, Forall_forall. intros b Hb. rewrite (bool_decide_false (Posix = Windows)) by done.
      simpl. rewrite orb_false_r. apply N.eqb_neq. intros ->. by apply Hsl, elem_encode.
  - right. unfold pushed. case_bool_decide as E; [split; [done|by repeat constructor]|].
    destruct Ht as [?|[? ?]]; [done|]. split; [by destruct segs|]. apply Forall_app. split; [done|]. by repeat constructor.
  - unfold names. rewrite Hf, map_app. simpl. by rewrite Ex.
Qed.

Lemma removelast_map {A B} (f : A → B) l : removelast (map f l) = map f (removelast l).
Proof. induction l as [|x [|y l] IH]; [done|done|]. change (f x :: removelast (map f (y :: l)) = f x :: map f (removelast (y :: l))). by rewrite IH. Qed.

Lemma pop_step u segs :
  at_segments Posix None u segs → tidy segs →
  at_segments Posix None (seg_pop u) (popped segs) ∧ tidy (popped segs) ∧ names (popped segs) = removelast (names segs).
Proof.
  intros [Hs Hh Hc Hn Hp] Ht.
  assert (Hf : List.filter non_empty (popped segs) = removelast (List.filter non_empty segs)).
  { destruct Ht as [->|[Hne Hall]]; [done|]. rewrite (filter_non_empty_all segs Hall). unfold popped.
    destruct (removelast segs) as [|y l] eqn:E; [done|]. rewrite <- E.
    apply filter_non_empty_all, Forall_forall. intros x ?%elem_of_removelast. rewrite Forall_forall in Hall. auto. }
  assert (Hnv : nul_free (seg_pop u)).
  { apply (nul_free_segments _ _ (pop_segments u segs Hs)), Forall_forall. apply (nul_free_segments u segs Hs) in Hn.
    rewrite Forall_forall in Hn. intros x [Hx| ->]%elem_of_popped; [by apply Hn|].
    change (encode []) with ([] : bytes). rewrite (proj2 (decode_nil [])) by done. by intros ?%not_elem_of_nil. }
  assert (Hhv : url_host_str (seg_pop u) = None) by (by destruct (edit_host u) as (-> & _)).
  split_and!; [split; [by apply pop_segments|done| |done|]| |].
  - rewrite (infer_convention _ _ (nul_free_not_opaque _ Hnv) (pop_segments u segs Hs)), Hhv. simpl.
    rewrite (infer_convention u segs (nul_free_not_opaque u Hn) Hs), Hh in Hc. simpl in Hc.
    unfold first_segment in *. rewrite Hf. by destruct (List.filter non_empty segs) as [|x [|y l]].
  - rewrite Hf. eapply existsb_sub; [|exact Hp]. apply elem_of_removelast.
  - destruct Ht as [->|[Hne Hall]]; [by left|]. unfold popped.
    destruct (removelast segs) as [|y l] eqn:E; [by left|right]. split; [done|]. rewrite <- E.
    apply Forall_forall. intros x ?%elem_of_removelast. rewrite Forall_forall in Hall. auto.
  - unfold names. by rewrite Hf, removelast_map.
Qed.

Lemma length_names segs : length (names segs) = length (List.filter non_empty segs).
Proof. apply length_map. Qed.

Lemma length_removelast {A} (l : list A) : length (removelast l) = length l - 1.
Proof. destruct (snoc_inv l) as [->|(k & x & ->)]; [done|]. rewrite removelast_last, length_app. simpl. lia. Qed.

(** The loop of [join]. *)
Lemma join_loop comps u segs :
  at_segments Posix None u segs → tidy segs → url_scheme u = FILE_SCHEME →
  Forall (λ s, plain_component s = true ∧ c_slash ∉ s) comps →
  ∃ v segs', foldl (join_component 0) (u, length (names segs)) comps = (v, length (names segs'))
    ∧ at_segments Posix None v segs' ∧ tidy segs' ∧ url_scheme v = FILE_SCHEME
    ∧ names segs' = foldl lex_step (names segs) comps.
Proof.
  revert u segs. induction comps as [|s comps IH]; intros u segs Hat Ht Hsch Hall; cbn [foldl]; [eauto 10|].
  apply Forall_cons in Hall as [[Hpl Hsl] Hall]. unfold lex_step at 2. unfold join_component at 2.
  destruct (bool_decide (s = []) || bool_decide (s = lit ".")) eqn:E1; [by apply IH|].
  destruct (bool_decide (s = lit "..")) eqn:E2.
  - destruct (pop_step u segs Hat Ht) as (Hat' & Ht' & Hn').
    destruct (decide (0 < length (names segs))) as [Hd|Hd];
      [rewrite (bool_decide_true (0 < _)) by done|rewrite (bool_decide_false (0 < _)) by done].
    + replace (length (names segs) - 1) with (length (names (popped segs)))
        by (by rewrite Hn', length_removelast).
      rewrite <- Hn'. apply IH; [done|done| |done]. by destruct (edit_scheme u) as (-> & _).
    + assert (names segs = []) as En by (by destruct (names segs); simpl in *; [|lia]).
      replace (removelast (names segs)) with (names segs) by (by rewrite En). by apply IH.
  - apply orb_false_iff in E1 as [E1 E3].
    assert (Ho : ordinary s = true).
    { unfold plain_component, is_dot_segment in Hpl. by rewrite E1, E3, E2 in Hpl. }
    destruct (push_step u segs s Hat Ht Ho Hsl) as (segs' & Hat' & Ht' & Hn').
    replace (S (length (names segs))) with (length (names segs'))
      by (rewrite Hn', length_app; simpl; lia).
    rewrite <- Hn'. apply IH; [done|done| |done]. destruct (edit_scheme u) as (_ & _ & _ & E). by rewrite E.
Qed.

(** A POSIX URL with a plain path is a valid path as it stands. *)
Lemma first_piece (q : str) :
  head (List.filter non_empty (split_char c_slash q)) =
  match drop_while (N.eqb c_slash) q with
  | [] => None
  | rest => head (split_char c_slash rest)
  end.
Proof.
  induction q as [|c q IH]; [done|].
  change (drop_while (N.eqb c_slash) (c :: q))
    with (if (c_slash =? c)%N then drop_while (N.eqb c_slash) q else c :: q).
  destruct (N.eqb_spec c_slash c) as [<-|Hne]; [exact IH|].
  assert (E : ∃ x l, split_char c_slash (c :: q) = (c :: x) :: l).
  { cbn [split_char]. rewrite (proj2 (N.eqb_neq c c_slash)) by congruence.
    destruct (split_char c_slash q); eauto. }
  destruct E as (x & l & E). by rewrite E.
Qed.

Lemma try_from_posix u segs :
  at_segments Posix None u segs → url_scheme u = FILE_SCHEME → path_uri_try_from u = Ok u.
Proof.
  intros [Hs Hh Hc Hn Hp] Hsch. unfold path_uri_try_from. rewrite bool_decide_true by done. simpl.
  unfold validate_file_url. rewrite file_url_plain by done. simpl.
  rewrite bool_decide_false by done. simpl. unfold without_localhost_authority. rewrite Hh. simpl.
  f_equal. unfold with_normalized_windows_drive_letter. rewrite Hh. simpl.
  rewrite (infer_convention u segs (nul_free_not_opaque u Hn) Hs), Hh in Hc. simpl in Hc.
  destruct (path_segments_split u segs Hs) as (q & Hq & ->). rewrite Hq. simpl.
  unfold first_segment in Hc. rewrite first_piece in Hc.
  destruct (drop_while (N.eqb c_slash) q) as [|d t] eqn:Ed; [done|].
  destruct (split_char c_slash (d :: t)) as [|x l]; [done|]. simpl in *.
  by destruct (is_windows_drive_uri_segment x).
Qed.

Lemma split_char_elem c s x : x ∈ split_char c s → c ∉ x.
Proof. pose proof (split_char_pieces c s) as H. rewrite Forall_forall in H. apply H. Qed.

(** Joining relative path text to a POSIX path resolves it lexically: the
    result is the location reached by going through the components, where an empty
    one and a dot stay, two dots go up unless at the root, and any other text goes
    down by exactly that name, whatever characters a URL gives a meaning to. *)
Theorem join_relative u segs path :
  at_segments Posix None u segs → tidy (popped_if_empty segs) → url_scheme u = FILE_SCHEME →
  path ≠ [] → starts_with [c_slash] path = false → contains_nul path = false →
  Forall (λ s, plain_component s = true) (split_char c_slash path) →
  ∃ v, path_uri_join u path = Ok v
       ∧ location v = Some (Posix, None, foldl lex_step (names segs) (split_char c_slash path)).
Proof.
  intros Hat Ht Hsch Hne Hsl Hnul Hall. unfold path_uri_join. rewrite Hnul, bool_decide_false by done.
  rewrite (as_conv _ _ _ _ Hat). simpl. unfold from_absolute_native_path, parse_posix_path.
  unfold starts_with in Hsl. destruct (strip_prefix [c_slash] path); [done|]. simpl.
  rewrite (nul_free_not_opaque u (as_nul _ _ _ _ Hat)). simpl.
  assert (Hat' : at_segments Posix None (seg_pop_if_empty u) (popped_if_empty segs)).
  { destruct Hat as [Hs Hh Hc Hn Hp]. pose proof (pop_if_empty_segments u segs Hs) as Hs'.
    assert (Hn' : nul_free (seg_pop_if_empty u)).
    { apply (nul_free_segments _ _ Hs'), Forall_forall. apply (nul_free_segments u segs Hs) in Hn.
      rewrite Forall_forall in Hn. intros x ?%elem_of_popped_if_empty. auto. }
    assert (Hh' : url_host_str (seg_pop_if_empty u) = None) by (by destruct (edit_host u) as (_ & -> & _)).
    split; [done|done| |done|by rewrite filter_popped_if_empty].
    rewrite (infer_convention _ _ (nul_free_not_opaque _ Hn') Hs'), Hh'.
    rewrite (infer_convention u segs (nul_free_not_opaque u Hn) Hs), Hh in Hc.
    unfold first_segment in *. by rewrite filter_popped_if_empty. }
  assert (Hcount : segment_count u = length (names (popped_if_empty segs))).
  { unfold segment_count. rewrite (as_segments _ _ _ _ Hat). simpl.
    by rewrite length_names, filter_popped_if_empty. }
  rewrite Hcount. change (anchor_depth Posix) with 0.
  destruct (join_loop (split_char c_slash path) _ _ Hat' Ht) as (v & segs' & Hf & Hv & _ & Hsv & Hnm).
  { by destruct (edit_scheme u) as (_ & -> & _). }
  { apply Forall_forall. rewrite Forall_forall in Hall. intros x Hx. split; [by apply Hall|by eapply split_char_elem]. }
  rewrite Hf. exists v. split; [by apply (try_from_posix v segs')|].
  rewrite (at_location _ _ _ _ Hv). change (map (norm_segment Posix) (List.filter non_empty segs')) with (names segs').
  rewrite Hnm. unfold names. by rewrite filter_popped_if_empty.
Qed.

Lemma normalize_loop comps ns t :
  Forall (λ s, ordinary s = true ∧ c_slash ∉ s) ns → Forall (λ s, plain_component s = true ∧ c_slash ∉ s) comps →
  ∃ ns' t', foldl (normalize_segment 0) (ns, length ns, t) comps = (ns', length ns', t')
    ∧ Forall (λ s, ordinary s = true ∧ c_slash ∉ s) ns'
    ∧ map encode ns' = foldl lex_step (map encode ns) comps
    ∧ (last comps ≠ Some [] → comps ≠ [] → t' = false).
Proof.
  revert ns t. induction comps as [|s comps IH]; intros ns t Hns Hall; cbn [foldl]; [by exists ns, t|].
  apply Forall_cons in Hall as [[Hpl Hsl] Hall]. unfold lex_step at 2. unfold normalize_segment at 2.
  assert (Hstep : ∀ ns1 t1, Forall (λ s, ordinary s = true ∧ c_slash ∉ s) ns1 → (t1 = true → s = []) →
    ∃ ns' t', foldl (normalize_segment 0) (ns1, length ns1, t1) comps = (ns', length ns', t')
      ∧ Forall (λ s, ordinary s = true ∧ c_slash ∉ s) ns'
      ∧ map encode ns' = foldl lex_step (map encode ns1) comps
      ∧ (last (s :: comps) ≠ Some [] → s :: comps ≠ [] → t' = false)).
  { intros ns1 t1 H1 Ht1. destruct (IH ns1 t1 H1 Hall) as (ns' & t' & Hf & H' & Hm & Hl).
    exists ns', t'. split_and!; [done..|]. intros Hne _. destruct comps as [|y comps]; [|by apply Hl].
    simpl in Hf. injection Hf as _ _ <-. destruct t1; [|done]. by rewrite (Ht1 eq_refl) in Hne. }
  destruct (bool_decide_reflect (s = [])) as [->|Hs]; [by apply Hstep|]. simpl orb.
  destruct (bool_decide_reflect (s = lit ".")) as [->|Hd]; [by apply Hstep|].
  destruct (bool_decide_reflect (s = lit "..")) as [->|Hdd].
  - rewrite removelast_map. destruct (decide (0 < length ns)) as [Hlt|Hlt].
    + rewrite bool_decide_true by done. rewrite <- length_removelast. apply Hstep; [|done].
      apply Forall_forall. intros x ?%elem_of_removelast. rewrite Forall_forall in Hns. auto.
    + rewrite bool_decide_false by done. assert (ns = []) as -> by (destruct ns; [done|simpl in *; lia]).
      by apply (Hstep []).
  - replace (map encode ns ++ [encode s]) with (map encode (ns ++ [s])) by apply map_app.
    replace (S (length ns)) with (length (ns ++ [s])) by (rewrite length_app; simpl; lia).
    apply Hstep; [|done]. apply Forall_app. split; [done|]. repeat constructor; [|done].
    unfold plain_component, is_dot_segment in Hpl. by rewrite !bool_decide_false in Hpl.
Qed.

Lemma extend_loop ns u segs :
  at_segments Posix None u segs → tidy segs → url_scheme u = FILE_SCHEME →
  Forall (λ s, ordinary s = true ∧ c_slash ∉ s) ns →
  ∃ segs', at_segments Posix None (seg_extend ns u) segs' ∧ url_scheme (seg_extend ns u) = FILE_SCHEME
    ∧ names segs' = names segs ++ map encode ns.
Proof.
  revert u segs. induction ns as [|s ns IH]; intros u segs Hat Ht Hsch Hall.
  { exists segs. split_and!; [done..|]. by rewrite app_nil_r. }
  apply Forall_cons in Hall as [[Ho Hsl] Hall]. destruct (push_step u segs s Hat Ht Ho Hsl) as (segs1 & H1 & T1 & N1).
  destruct (IH (seg_push s u) segs1 H1 T1) as (segs' & H' & S' & N'); [|done|].
  { destruct (edit_scheme u) as (_ & _ & _ & E). by rewrite E. }
  exists segs'. split_and!; [done..|]. rewrite N', N1, <- app_assoc. done.
Qed.

Lemma join_absolute u rest :
  infer_path_convention u = Some Posix → contains_nul rest = false →
  Forall (λ s, plain_component s = true) (split_char c_slash rest) → last (split_char c_slash rest) ≠ Some [] →
  ∃ v, path_uri_join u (c_slash :: rest) = Ok v ∧ infer_path_convention v = Some Posix ∧ nul_free v
       ∧ location v = Some (Posix, None, foldl lex_step [] (split_char c_slash rest)).
Proof.
  intros Hc Hnul Hall Hlast. unfold path_uri_join.
  assert (contains_nul (c_slash :: rest) = false) as -> by done. simpl. rewrite Hc. simpl.
  unfold from_absolute_native_path, parse_posix_path. change (c_slash :: rest) with ([c_slash] ++ rest).
  rewrite strip_prefix_app, Hnul.
  unfold path_uri_from_segments. destruct parse_root as (u0 & -> & Hs0 & Hh0 & Hsch0).
  change (anchor_depth Posix) with 0.
  destruct (normalize_loop (split_char c_slash rest) [] false) as (ns & t & Hf & Hns & Hm & Ht); [done| |].
  { apply Forall_forall. rewrite Forall_forall in Hall. intros x Hx. split; [by apply Hall|by eapply split_char_elem]. }
  simpl length in Hf. rewrite Hf, Ht by (done || apply split_char_not_nil). simpl.
  assert (Hclear : at_segments Posix None (seg_clear u0) [[]]).
  { assert (Hn : nul_free (seg_clear u0)).
    { apply (nul_free_segments _ _ Hs0). repeat constructor. change (encode []) with ([] : bytes).
      rewrite (proj2 (decode_nil [])) by done. by intros ?%not_elem_of_nil. }
    assert (Hh : url_host_str (seg_clear u0) = None) by (by destruct (edit_host u0) as (_ & _ & -> & _)).
    split; [done|done| |done|done]. by rewrite (infer_convention _ _ (nul_free_not_opaque _ Hn) Hs0), Hh. }
  destruct (extend_loop ns (seg_clear u0) [[]] Hclear) as (segs' & Hat & Hsch & Hnm);
    [by left|by destruct (edit_scheme u0) as (_ & _ & -> & _)|done|].
  rewrite (try_from_posix _ _ Hat Hsch). simpl. rewrite (as_conv _ _ _ _ Hat), (as_host _ _ _ _ Hat). simpl.
  exists (seg_extend ns (seg_clear u0)). split_and!; [done|by apply Hat|by apply Hat|].
  rewrite (at_location _ _ _ _ Hat). change (map (norm_segment Posix) (List.filter non_empty segs')) with (names segs').
  by rewrite Hnm, Hm.
Qed.
End roots.
