(* ===== verification/PathText.v ===== *)
(** * Path text

    Models [utils/path-uri/src/api_path_string.rs] and [config_path.rs]: native
    spellings of file URIs, the resolution of path text from clients and
    configuration files, and the checks that a path has one spelling only. A
    [LegacyAppPathString] is its string. *)

From S2P Require Import Prelude RustStr Utf8 PathConvention PathUri.
Open Scope list_scope.

Inductive LegacyAppPathStringError (UE : Type) :=
  | OpaqueFallback (path : str)
  | IncompatibleConvention (path : str) (convention : PathConvention)
  | InvalidNativePath (path : str) (convention : option PathConvention)
  | UnsupportedConfigPath (path : str) (convention : PathConvention)
  | MissingBaseConvention (cwd : str)
  | MissingHomeDirectory (path : str)
  | MismatchedConvention (path : str) (path_convention : PathConvention) (cwd : str)
      (convention : PathConvention)
  | PathUriError (e : PathUriParseError UE).
Arguments OpaqueFallback {UE} path.
Arguments IncompatibleConvention {UE} path convention.
Arguments InvalidNativePath {UE} path convention.
Arguments UnsupportedConfigPath {UE} path convention.
Arguments MissingBaseConvention {UE} cwd.
Arguments MissingHomeDirectory {UE} path.
Arguments MismatchedConvention {UE} path path_convention cwd convention.
Arguments PathUriError {UE} e.

(** ** Rendering *)

Definition is_windows_separator (u : N) : bool := (u =? 92)%N || (u =? 47)%N.

Definition render_windows_opaque_fallback (path_bytes : bytes) : option str :=
  if negb (bool_decide (length path_bytes mod 2 = 0)) then None
  else let path_wide := u16s_of_le_bytes path_bytes in
       let has_drive_root :=
         match path_wide with
         | drive :: colon :: separator :: _ =>
             is_ascii_alphabetic drive && (colon =? 58)%N && is_windows_separator separator
         | _ => false
         end in
       let has_namespace_or_unc_root :=
         match path_wide with
         | first :: second :: _ => is_windows_separator first && is_windows_separator second
         | _ => false
         end in
       if has_drive_root || has_namespace_or_unc_root then Some (from_utf16_lossy path_wide) else None.

Definition contains_glob_metacharacter (path : str) : bool :=
  existsb (λ c, bool_decide (c ∈ lit "*?[]{}")) path.

(** The spelling of absolute path text: a slash counts as POSIX. *)
Definition infer_absolute_path_convention (path : str) : option PathConvention :=
  if is_windows_drive_absolute_path path || starts_with (lit "\\") path then Some Windows
  else if starts_with [c_slash] path then Some Posix
  else None.

Section path_text.
Context {U UE : Type} `{UL : !UrlLib U UE}.
Abbreviation error := (LegacyAppPathStringError UE).

Definition render_opaque_fallback (path : U) (path_bytes : bytes) (conv : PathConvention)
    : res error str :=
  let rendered := match conv with
                  | Posix => if starts_with [47%N] path_bytes then Some (from_utf8_lossy path_bytes) else None
                  | Windows => render_windows_opaque_fallback path_bytes
                  end in
  ok_or rendered (OpaqueFallback (url_as_str path)).

Definition decode_native_segment (segment : str) : str :=
  from_utf8_lossy (decode_binary (encode segment)).

(** [path_segments]: unreachable without segments. *)
Definition native_segments (path : U) : res error (list str) :=
  match url_path_segments path with Some segments => Ok segments | None => Panic end.

Definition render_posix_path (path : U) : res error str :=
  if bool_decide (url_host_str path ≠ None) then Err (IncompatibleConvention (url_as_str path) Posix)
  else let? segments := native_segments path in
       Ok (segments ≫= λ segment, c_slash :: decode_native_segment segment).

Definition render_windows_path (path : U) : res error str :=
  let incompatible {A} : res error A := Err (IncompatibleConvention (url_as_str path) Windows) in
  let? segments := native_segments path in
  let? (rendered, segments) :=
    match segments with
    | [] => incompatible
    | first :: segments =>
        let first := decode_native_segment first in
        match url_host_str path with
        | Some host =>
            if bool_decide (first = []) then incompatible
            else Ok (lit "\\" ++ host ++ lit "\" ++ first, segments)
        | None =>
            match first with
            | [d; c] => if is_ascii_alphabetic d && (c =? 58)%N then Ok (first, segments) else incompatible
            | _ => incompatible
            end
        end
    end in
  let rendered := rendered ++ (segments ≫= λ segment, c_backslash :: decode_native_segment segment) in
  Ok (match rendered with
      | [_; c] => if (c =? 58)%N then rendered ++ lit "\" else rendered
      | _ => rendered
      end).

(** [LegacyAppPathString::from_path_uri] *)
Definition native_string (path : U) (conv : PathConvention) : res error str :=
  match opaque_fallback_bytes path with
  | Some path_bytes => render_opaque_fallback path path_bytes conv
  | None => match conv with Posix => render_posix_path path | Windows => render_windows_path path end
  end.

Definition inferred_native_string (u : U) : str :=
  default (url_as_str u) (conv ← infer_path_convention u; res_ok (native_string u conv)).

(** ** Resolution *)

(** [LegacyAppPathString::to_path_uri] *)
Definition to_path_uri (path : str) (conv : PathConvention) : res error U :=
  let? uri := from_absolute_native_path path conv in
  ok_or uri (InvalidNativePath path (Some conv)).

(** [TryFrom<LegacyAppPathString> for PathUri] *)
Definition path_uri_of_string (path : str) : res error U :=
  match infer_absolute_path_convention path with
  | None => Err (InvalidNativePath path None)
  | Some conv => to_path_uri path conv
  end.

Definition to_inferred_path_uri (path : str) : option U := res_ok (path_uri_of_string path).

Definition render_for_ui (path : str) : str :=
  from_option inferred_native_string path (to_inferred_path_uri path).

Definition trim_start_separators (is_windows : bool) (s : str) : str :=
  drop_while (λ c, (c =? 47)%N || is_windows && (c =? 92)%N) s.

Definition resolve_against (path : str) (cwd : U) (user_home_dir : option U) : res error U :=
  let? conv := ok_or (infer_path_convention cwd) (MissingBaseConvention (url_as_str cwd)) in
  let is_windows := bool_decide (conv = Windows) in
  match home_relative_suffix conv path with
  | Some suffix =>
      let? home := ok_or user_home_dir (MissingHomeDirectory path) in
      map_err PathUriError (path_uri_join home (trim_start_separators is_windows suffix))
  | None =>
      if is_windows && (starts_with (lit "//") path || starts_with (lit "\\") path)
      then to_path_uri path Windows
      else match infer_absolute_path_convention path with
           | Some path_convention =>
               if decide (path_convention = conv) then to_path_uri path conv
               else if bool_decide (path_convention = Posix) && is_windows
               then map_err PathUriError (path_uri_join cwd path)
               else Err (MismatchedConvention path path_convention (url_as_str cwd) conv)
           | None => map_err PathUriError (path_uri_join cwd path)
           end
  end.

(** ** Configuration paths *)

(** A colon in a component other than the one after a drive letter. *)
Definition has_windows_component_colon (native_input : str) : bool :=
  match path_segments Windows native_input with
  | [] => false
  | first :: rest =>
      contains_char c_colon (if is_drive_relative first then drop 2 first else first)
      || existsb (contains_char c_colon) rest
  end.

Definition mixed_home_separators (conv : PathConvention) (input : str) : bool :=
  match home_relative_suffix conv input with
  | Some suffix =>
      starts_with [c_slash] suffix && starts_with [c_backslash] (drop_while (N.eqb c_slash) suffix)
      || starts_with [c_backslash] suffix && starts_with [c_slash] (drop_while (N.eqb c_backslash) suffix)
  | None => false
  end.

Definition validate_config_path_text (input : str) (conv : PathConvention) : res error unit :=
  let native_input := default input (normalize_windows_device_path input) in
  let windows := bool_decide (conv = Windows) in
  let bare_windows_drive :=
    windows && match native_input with [d; c] => is_ascii_alphabetic d && (c =? 58)%N | _ => false end in
  if contains_nul input || windows && has_windows_component_colon native_input
     || windows && mixed_home_separators conv input || bare_windows_drive
  then Err (UnsupportedConfigPath input conv) else Ok ().

Definition validate_config_path (u : U) (conv : PathConvention) : res error unit :=
  if negb (bool_decide (infer_path_convention u = Some conv))
  then Err (IncompatibleConvention (url_as_str u) conv)
  else
    let bs := decoded_path_bytes u in
    if bool_decide (lexical_depth u = None) || bool_decide (0%N ∈ bs) || negb (is_ok (from_utf8 bs))
    then Err (PathUriError (InvalidFileUriPath (url_as_str u)))
    else let? text := native_string u conv in validate_config_path_text text conv.

Definition validate_glob_directory (u : U) (conv : PathConvention) : res error unit :=
  let? _ := validate_config_path u conv in
  let? path := native_string u conv in
  if contains_glob_metacharacter path || bool_decide (conv = Posix) && contains_char c_backslash path
  then Err (UnsupportedConfigPath path conv) else Ok ().

Definition to_config_path_string (u : U) (conv : PathConvention) : res error str :=
  let? rendered := native_string u conv in
  Ok (if bool_decide (url_host_str u ≠ None) && bool_decide (parent u = None)
      then rendered ++ lit "\" else rendered).

(** The checks on the directory that configuration text is resolved against. *)
Definition validate_config_base (base : U) (conv : PathConvention) (input : str) : res error unit :=
  let? _ := validate_config_path base conv in
  if contains_glob_metacharacter input then validate_glob_directory base conv else Ok ().

Definition resolve_config_path_uri (input : str) (conv : PathConvention) (base user_home_dir : option U)
    : res error U :=
  let? _ := validate_config_path_text input conv in
  let? resolved :=
    match home_relative_suffix conv input with
    | Some _ =>
        let? home := ok_or user_home_dir (MissingHomeDirectory input) in
        let? _ := validate_config_base home conv input in
        resolve_against input home (Some home)
    | None =>
        match to_path_uri input conv with
        | Ok absolute => Ok absolute
        | Err error =>
            let? base := ok_or base error in
            let? _ := validate_config_base base conv input in
            resolve_against input base None
        | Panic => Panic
        end
    end in
  let? _ := validate_config_path resolved conv in
  map_err PathUriError (path_uri_join resolved (lit ".")).

Definition resolve_config_path (input : str) (conv : PathConvention) (base user_home_dir : option U)
    : res error str :=
  let? uri := resolve_config_path_uri input conv base user_home_dir in
  to_config_path_string uri conv.
End path_text.
