(* ===== verification/FsPolicy.v ===== *)
(** * File system policies

    Models the part of [protocol/src/permissions.rs] that works on file URIs,
    with [permissions/target.rs], [deny_read_validator.rs] and
    [windows_glob.rs]: the entries of a policy, which access they give to a
    path, the protection of metadata directories and the matching of denied
    reads. The globs of the package [globset] are the class [DenyGlobLib];
    [native] is the convention of the host, and [cfg!(unix)] that it is POSIX.
    Error texts of globs are the values they are printed from. *)

From S2P Require Import Prelude RustStr Utf8 PathConvention PathUri PathText.
Open Scope list_scope.

(** ** Data *)

Definition PROTECTED_METADATA_PATH_NAMES : list str := [lit ".git"; lit ".agents"; lit ".codex"].

Definition is_protected_metadata_name (name : str) : bool :=
  existsb (λ metadata_name, bool_decide (name = metadata_name)) PROTECTED_METADATA_PATH_NAMES.

Inductive NetworkSandboxPolicy := NetRestricted | NetEnabled.

Definition network_is_enabled (p : NetworkSandboxPolicy) : bool :=
  match p with NetEnabled => true | NetRestricted => false end.

Inductive FileSystemAccessMode := Read | Write | Deny.

#[global] Instance FileSystemAccessMode_eq : EqDecision FileSystemAccessMode.
Proof. solve_decision. Defined.

(** The derived [Ord]: by precedence among entries for the same path. *)
Definition access_rank (a : FileSystemAccessMode) : nat :=
  match a with Read => 0 | Write => 1 | Deny => 2 end.

Definition can_read (a : FileSystemAccessMode) : bool := match a with Deny => false | _ => true end.
Definition can_write (a : FileSystemAccessMode) : bool := match a with Write => true | _ => false end.

Inductive FileSystemSpecialPath :=
  | SpRoot
  | SpMinimal
  | SpProjectRoots (subpath : option str)
  | SpTmpdir
  | SpSlashTmp
  | SpUnknown (path : str) (subpath : option str).

#[global] Instance FileSystemSpecialPath_eq : EqDecision FileSystemSpecialPath.
Proof. solve_decision. Defined.

Inductive FileSystemPath (U : Type) :=
  | FsPath (path : U)
  | FsGlobPattern (pattern : str)
  | FsSpecial (value : FileSystemSpecialPath).
Arguments FsPath {U} path.
Arguments FsGlobPattern {U} pattern.
Arguments FsSpecial {U} value.

Inductive MissingPathBehavior := Skip.

#[global] Instance MissingPathBehavior_eq : EqDecision MissingPathBehavior.
Proof. solve_decision. Defined.

Record FileSystemSandboxEntry (U : Type) := {
  entry_path : FileSystemPath U;
  entry_access : FileSystemAccessMode;
  missing_path_behavior : option MissingPathBehavior;
}.
Arguments entry_path {U} _.
Arguments entry_access {U} _.
Arguments missing_path_behavior {U} _.

Definition entry_new {U} (path : FileSystemPath U) (access : FileSystemAccessMode)
    : FileSystemSandboxEntry U :=
  {| entry_path := path; entry_access := access; missing_path_behavior := None |}.
Definition skip_missing_path {U} (path : FileSystemPath U) (access : FileSystemAccessMode)
    : FileSystemSandboxEntry U :=
  {| entry_path := path; entry_access := access; missing_path_behavior := Some Skip |}.
Definition skips_missing_path {U} (e : FileSystemSandboxEntry U) : bool :=
  bool_decide (missing_path_behavior e = Some Skip).

Inductive FileSystemSandboxKind := Restricted | Unrestricted | ExternalSandbox.

#[global] Instance FileSystemSandboxKind_eq : EqDecision FileSystemSandboxKind.
Proof. solve_decision. Defined.

Record FileSystemSandboxPolicy (U : Type) := {
  fs_kind : FileSystemSandboxKind;
  glob_scan_max_depth : option nat;
  fs_entries : list (FileSystemSandboxEntry U);
}.
Arguments fs_kind {U} _.
Arguments glob_scan_max_depth {U} _.
Arguments fs_entries {U} _.

Record FileSystemSandboxPolicyContext (U : Type) := {
  cx_cwd : U;
  workspace_roots : list U;
  user_home_dir : option U;
  temporary_directories : option (list U);
}.
Arguments cx_cwd {U} _.
Arguments workspace_roots {U} _.
Arguments user_home_dir {U} _.
Arguments temporary_directories {U} _.

Definition restricted {U} (entries : list (FileSystemSandboxEntry U)) : FileSystemSandboxPolicy U :=
  {| fs_kind := Restricted; glob_scan_max_depth := None; fs_entries := entries |}.
Definition unrestricted {U} : FileSystemSandboxPolicy U :=
  {| fs_kind := Unrestricted; glob_scan_max_depth := None; fs_entries := [] |}.
Definition external_sandbox {U} : FileSystemSandboxPolicy U :=
  {| fs_kind := ExternalSandbox; glob_scan_max_depth := None; fs_entries := [] |}.

Definition read_only_file_system_entries {U} : list (FileSystemSandboxEntry U) :=
  [entry_new (FsSpecial SpRoot) Read].
Definition read_only {U} : FileSystemSandboxPolicy U := restricted read_only_file_system_entries.

Definition with_entries {U} (p : FileSystemSandboxPolicy U) (entries : list (FileSystemSandboxEntry U))
    : FileSystemSandboxPolicy U :=
  {| fs_kind := fs_kind p; glob_scan_max_depth := glob_scan_max_depth p; fs_entries := entries |}.

Definition remove_skip_missing_path_entries {U} (p : FileSystemSandboxPolicy U)
    : FileSystemSandboxPolicy U :=
  with_entries p (List.filter (λ e, negb (skips_missing_path e)) (fs_entries p)).

Definition PROJECT_ROOTS_GLOB_PATTERN_PREFIX : str := lit "codex-project-roots://".
Definition project_roots_glob_pattern (subpath : str) : str :=
  PROJECT_ROOTS_GLOB_PATTERN_PREFIX ++ subpath.

Definition is_special {U} (v : FileSystemSpecialPath) (p : FileSystemPath U) : bool :=
  match p with FsSpecial v' => bool_decide (v' = v) | _ => false end.

(** [GlobBuilder] with [literal_separator] and [allow_unclosed_class] set; the
    arguments are [backslash_escape] and [case_insensitive]. *)
Class DenyGlobLib (G GE : Type) := {
  build_glob : bool → bool → str → GE + G;
  is_match_candidate : G → bytes → bool;
}.

Inductive DenyGlobError (UE GE : Type) :=
  | NoExecutorHome (pattern : str)
  | BadGlobDirectory (e : LegacyAppPathStringError UE)
  | UnresolvedGlob (pattern : str)
  | InvalidGlob (pattern : str) (e : GE).
Arguments NoExecutorHome {UE GE} pattern.
Arguments BadGlobDirectory {UE GE} e.
Arguments UnresolvedGlob {UE GE} pattern.
Arguments InvalidGlob {UE GE} pattern e.

Inductive InvalidDenyReadGlobBehavior := FailClosed | ReturnError.

Record PreparedReadDenyMatcher (U G : Type) := {
  denied_roots : list U;
  deny_read_matchers : list G;
  invalid_pattern : bool;
}.
Arguments denied_roots {U G} _.
Arguments deny_read_matchers {U G} _.
Arguments invalid_pattern {U G} _.

Section policy.
Context {U UE : Type} `{UL : !UrlLib U UE}.
Implicit Types (p : FileSystemSandboxPolicy U) (e : FileSystemSandboxEntry U) (path : U)
  (ctx : FileSystemSandboxPolicyContext U).

(** ** Equality of entries *)

Definition fs_path_eqb (a b : FileSystemPath U) : bool :=
  match a, b with
  | FsPath a, FsPath b => path_uri_eqb a b
  | FsGlobPattern a, FsGlobPattern b => bool_decide (a = b)
  | FsSpecial a, FsSpecial b => bool_decide (a = b)
  | _, _ => false
  end.

Definition entry_eqb (a b : FileSystemSandboxEntry U) : bool :=
  fs_path_eqb (entry_path a) (entry_path b) && bool_decide (entry_access a = entry_access b)
  && bool_decide (missing_path_behavior a = missing_path_behavior b).

(** [entries.contains(e)] *)
Definition contains_entry (es : list (FileSystemSandboxEntry U)) e : bool := existsb (entry_eqb e) es.

(** [if !entries.contains(&e) { entries.push(e) }] *)
Definition push_new (es : list (FileSystemSandboxEntry U)) e : list (FileSystemSandboxEntry U) :=
  if contains_entry es e then es else es ++ [e].

(** ** Resolution of entries *)

Definition file_system_root ctx : option U :=
  _ ← lexical_depth (cx_cwd ctx);
  last (ancestors (cx_cwd ctx)).

(** [root.join(subpath).ok()], or the root itself. *)
Definition join_subpath (root : U) (subpath : option str) : option U :=
  match subpath with
  | Some subpath => res_ok (path_uri_join root subpath)
  | None => Some root
  end.

Definition entry_targets ctx (path : FileSystemPath U) : list U :=
  match path with
  | FsPath path => [path]
  | FsGlobPattern _ => []
  | FsSpecial SpRoot => option_list (file_system_root ctx)
  | FsSpecial (SpProjectRoots subpath) =>
      omap (λ root, join_subpath root subpath) (workspace_roots ctx)
  | FsSpecial SpTmpdir => default [] (temporary_directories ctx)
  | FsSpecial SpSlashTmp =>
      if bool_decide (infer_path_convention (cx_cwd ctx) = Some Posix)
      then option_list (res_ok (path_uri_join (cx_cwd ctx) (lit "/tmp"))) else []
  | FsSpecial SpMinimal | FsSpecial (SpUnknown _ _) => []
  end.

Definition resolve_entry ctx e : list (U * FileSystemAccessMode) :=
  map (λ path, (path, entry_access e))
    (List.filter (λ path, bool_decide (infer_path_convention path = infer_path_convention (cx_cwd ctx)))
       (entry_targets ctx (entry_path e))).

Definition resolved_entries p ctx : list (U * FileSystemAccessMode) :=
  fs_entries p ≫= resolve_entry ctx.

(** ** Access *)

(** The fold of [resolve_access]: opaque roots are left out, a root without
    lexical depth stops it. *)
Fixpoint with_depths (es : list (U * FileSystemAccessMode))
    : option (list (U * FileSystemAccessMode * nat)) :=
  match es with
  | [] => Some []
  | (root, access) :: es' =>
      match lexical_depth root with
      | Some depth => cons (root, access, depth) <$> with_depths es'
      | None => if is_opaque root then with_depths es' else None
      end
  end.

Definition more_specific (a b : U * FileSystemAccessMode * nat) : bool :=
  let '(_, acc_a, depth_a) := a in let '(_, acc_b, depth_b) := b in
  bool_decide (depth_b < depth_a)
  || bool_decide (depth_a = depth_b) && bool_decide (access_rank acc_b < access_rank acc_a).

(** The convention of the context, when [path] can be compared with it. *)
Definition comparable_paths path ctx : option PathConvention :=
  conv ← infer_path_convention (cx_cwd ctx);
  if bool_decide (infer_path_convention path = Some conv) && bool_decide (lexical_depth path ≠ None)
     && bool_decide (lexical_depth (cx_cwd ctx) ≠ None)
  then Some conv else None.

Definition resolve_access p path ctx : FileSystemAccessMode :=
  match fs_kind p with
  | Unrestricted | ExternalSandbox => Write
  | Restricted =>
      match comparable_paths path ctx with
      | None => Deny
      | Some _ =>
          match with_depths (resolved_entries p ctx) with
          | None => Deny
          | Some entries =>
              match max_by more_specific
                      (List.filter (λ '(root, _, _), path_starts_with path root) entries) with
              | Some (_, access, _) => access
              | None => Deny
              end
          end
      end
  end.

Definition can_read_path p path ctx : bool := can_read (resolve_access p path ctx).

(** ** Full-disk access *)

Definition has_root_access p (predicate : FileSystemAccessMode → bool) : bool :=
  bool_decide (fs_kind p = Restricted)
  && existsb (λ e, is_special SpRoot (entry_path e) && predicate (entry_access e)) (fs_entries p).

Definition special_paths_share_target (l r : FileSystemSpecialPath) : bool :=
  match l, r with
  | SpRoot, SpRoot | SpMinimal, SpMinimal | SpTmpdir, SpTmpdir | SpSlashTmp, SpSlashTmp => true
  | SpProjectRoots l, SpProjectRoots r => bool_decide (l = r)
  | SpUnknown l lsub, SpUnknown r rsub =>
      bool_decide (l = r) && bool_decide (lsub = rsub)
  | _, _ => false
  end.

Definition special_path_matches_path_uri (value : FileSystemSpecialPath) path : bool :=
  match value with
  | SpRoot => bool_decide (lexical_depth path ≠ None) && bool_decide (parent path = None)
  | SpSlashTmp => bool_decide (infer_path_convention path = Some Posix)
                  && bool_decide (lexical_depth path = Some 1)
                  && bool_decide (basename path = Some (lit "tmp"))
  | _ => false
  end.

Definition file_system_paths_share_target (l r : FileSystemPath U) (conv : PathConvention) : bool :=
  match l, r with
  | FsPath l, FsPath r => path_uri_eqb l r
  | FsSpecial l, FsSpecial r => special_paths_share_target l r
  | FsPath path, FsSpecial value | FsSpecial value, FsPath path =>
      bool_decide (infer_path_convention path = Some conv) && special_path_matches_path_uri value path
  | FsGlobPattern l, FsGlobPattern r => bool_decide (l = r)
  | FsGlobPattern _, _ | _, FsGlobPattern _ => false
  end.

Definition has_same_target_write_override p e (conv : PathConvention) : bool :=
  existsb (λ candidate,
    can_write (entry_access candidate)
    && bool_decide (access_rank (entry_access e) < access_rank (entry_access candidate))
    && file_system_paths_share_target (entry_path candidate) (entry_path e) conv) (fs_entries p).

Definition narrows_write p (conv : PathConvention) e : bool :=
  if can_write (entry_access e) then false
  else match entry_path e with
       | FsPath _ => negb (has_same_target_write_override p e conv)
       | FsGlobPattern _ => true
       | FsSpecial SpRoot => bool_decide (entry_access e = Deny)
       | FsSpecial SpSlashTmp =>
           if bool_decide (conv = Windows) then false
           else negb (has_same_target_write_override p e conv)
       | FsSpecial SpMinimal | FsSpecial (SpUnknown _ _) => false
       | FsSpecial _ => negb (has_same_target_write_override p e conv)
       end.

Definition has_write_narrowing_entries p (conv : PathConvention) : bool :=
  bool_decide (fs_kind p = Restricted) && existsb (narrows_write p conv) (fs_entries p).

Definition has_full_disk_write_access_for_convention p (conv : option PathConvention) : bool :=
  match fs_kind p with
  | Unrestricted | ExternalSandbox => true
  | Restricted =>
      match conv with
      | Some conv => has_root_access p can_write && negb (has_write_narrowing_entries p conv)
      | None => false
      end
  end.

Definition has_full_disk_write_access_with_context p ctx : bool :=
  has_full_disk_write_access_for_convention p (infer_path_convention (cx_cwd ctx)).

Definition has_denied_read_restrictions (native : PathConvention) p : bool :=
  bool_decide (fs_kind p = Restricted)
  && existsb (λ e, bool_decide (entry_access e = Deny)
                   && negb (is_special SpSlashTmp (entry_path e) && negb (bool_decide (native = Posix))))
       (fs_entries p).

Definition has_full_disk_read_access (native : PathConvention) p : bool :=
  match fs_kind p with
  | Unrestricted | ExternalSandbox => true
  | Restricted => has_root_access p can_read && negb (has_denied_read_restrictions native p)
  end.

Definition has_full_disk_write_access (native : PathConvention) p : bool :=
  has_full_disk_write_access_for_convention p (Some native).

Definition include_platform_defaults (native : PathConvention) p : bool :=
  negb (has_full_disk_read_access native p) && bool_decide (fs_kind p = Restricted)
  && existsb (λ e, is_special SpMinimal (entry_path e) && can_read (entry_access e)) (fs_entries p).

(** ** Writing *)

Definition metadata_write_denial p path ctx : option str :=
  if negb (bool_decide (fs_kind p = Restricted)) then None
  else
    let entries := resolved_entries p ctx in
    match find_map (λ '(root, _), find_map (λ metadata_name,
              protected ← res_ok (join_descendant root metadata_name);
              if path_starts_with path protected then Some (protected, metadata_name) else None)
            PROTECTED_METADATA_PATH_NAMES)
            (List.filter (λ '(_, access), can_write access) entries) with
    | None => None
    | Some (protected, metadata_name) =>
        if existsb (λ '(root, access), can_write access && path_starts_with path root
                                       && path_starts_with root protected) entries
        then None else Some metadata_name
    end.

Definition can_write_path p path ctx : bool :=
  if negb (can_write (resolve_access p path ctx)) then false
  else has_full_disk_write_access_with_context p ctx
       || bool_decide (metadata_write_denial p path ctx = None).

Definition has_configured_writable_roots p ctx : bool :=
  negb (has_full_disk_write_access_with_context p ctx)
  && existsb (λ '(path, access), can_write access && can_write_path p path ctx) (resolved_entries p ctx).
End policy.
