(* ===== verification/FsDeny.v ===== *)
(** * Denied reads and workspace roots

    Models the matching of denied reads and the materialization of
    workspace-root entries in [protocol/src/permissions.rs],
    [permissions/target.rs], [permissions/deny_read_validator.rs] and
    [permissions/windows_glob.rs]. A [ReadDenyMatcher] for executor paths is its
    prepared matcher. *)

From S2P Require Import Prelude RustStr Utf8 PathConvention PathUri PathText FsPolicy.
Open Scope list_scope.

Inductive DenyReadViolation (U : Type) := MissingRequiredDeny | ReadablePath (path : U).
Arguments MissingRequiredDeny {U}.
Arguments ReadablePath {U} path.

Record DenyReadValidator (U G : Type) := {
  required_entries : list (FileSystemSandboxEntry U);
  required_matcher : option (PreparedReadDenyMatcher U G);
}.
Arguments required_entries {U G} _.
Arguments required_matcher {U G} _.

(** The errors of [try_new_with_context] and [validate_managed_deny_read]. *)
Inductive ManagedDenyError (UE GE : Type) :=
  | INVALID_PATH
  | TemporaryDirectoriesUnavailable
  | TemporaryDirectoriesUnsafe
  | SHADOWED
  | DenyGlob (e : DenyGlobError UE GE).
Arguments INVALID_PATH {UE GE}.
Arguments TemporaryDirectoriesUnavailable {UE GE}.
Arguments TemporaryDirectoriesUnsafe {UE GE}.
Arguments SHADOWED {UE GE}.
Arguments DenyGlob {UE GE} e.

Record WindowsDenyReadGlobScan := {
  scan_root : str;
  pattern_suffix : str;
  scan_max_depth : option nat;
}.

(** Position of the last char that satisfies [f]. *)
Definition rfind_by (f : char → bool) (s : str) : option nat :=
  match list_find (λ c, f c = true) (rev s) with
  | Some (i, _) => Some (length s - 1 - i)
  | None => None
  end.

Definition windows_deny_read_glob_scan (pattern : str) (configured_max_depth : option nat)
    : WindowsDenyReadGlobScan :=
  let first_glob := from_option fst (length pattern) (list_find (λ c, c ∈ lit "*?[") pattern) in
  let literal_prefix := take first_glob pattern in
  let '(root, pattern_suffix) :=
    match rfind_by is_windows_separator_char literal_prefix with
    | Some index =>
        let drive_root := bool_decide (0 < index)
                          && bool_decide (literal_prefix !! (index - 1) = Some c_colon) in
        let stop := if bool_decide (index = 0) || drive_root then index + 1 else index in
        (take stop literal_prefix, drop (index + 1) pattern)
    | None => (lit ".", pattern)
    end in
  let components := List.filter non_empty (path_segments Windows pattern_suffix) in
  let max_depth :=
    if bool_decide (lit "**" ∈ components) then configured_max_depth
    else Some (from_option (λ depth, Nat.min depth (length components)) (length components)
                 configured_max_depth) in
  {| scan_root := root; pattern_suffix := pattern_suffix; scan_max_depth := max_depth |}.

Section deny.
Context {U UE G GE : Type} `{UL : !UrlLib U UE} `{DG : !DenyGlobLib G GE}.
Implicit Types (p : FileSystemSandboxPolicy U) (e : FileSystemSandboxEntry U) (path : U)
  (ctx : FileSystemSandboxPolicyContext U).
Abbreviation glob_error := (DenyGlobError UE GE).

(** ** Globs *)

Definition home_relative_glob (is_windows : bool) (pattern : str) : option str :=
  match strip_prefix (lit "~/") pattern with
  | Some suffix => Some suffix
  | None => if is_windows then strip_prefix (lit "~\") pattern else None
  end.

Definition deny_read_glob ctx (pattern : str) : res glob_error str :=
  let is_windows := bool_decide (infer_path_convention (cx_cwd ctx) = Some Windows) in
  let? (root, pattern) :=
    match home_relative_glob is_windows pattern with
    | Some suffix =>
        let? home := ok_or (user_home_dir ctx) (NoExecutorHome pattern) in
        Ok (home, trim_start_separators is_windows suffix)
    | None => Ok (cx_cwd ctx, pattern)
    end in
  let conv := if is_windows then Windows else Posix in
  let? _ := match to_path_uri pattern conv : res (LegacyAppPathStringError UE) U with
            | Ok _ => Ok ()
            | Err _ => map_err BadGlobDirectory (validate_glob_directory root conv)
            | Panic => Panic
            end in
  let? path := map_err (λ _, UnresolvedGlob pattern) (path_uri_join root pattern) in
  Ok (inferred_native_string path).

Definition deny_glob_pattern e : option str :=
  if bool_decide (entry_access e = Deny)
  then match entry_path e with FsGlobPattern pattern => Some pattern | _ => None end
  else None.

Definition deny_read_globs p ctx : res glob_error (list str) :=
  collect (deny_read_glob ctx) (omap deny_glob_pattern (fs_entries p)).

Definition build_glob_matcher (pattern : str) (conv : PathConvention) : GE + G :=
  let pattern := match conv with Windows => forward_slashes pattern | Posix => pattern end in
  build_glob (bool_decide (conv = Posix)) (bool_decide (conv = Windows)) pattern.

(** The loop over the patterns: matchers so far, and whether one was invalid. *)
Fixpoint build_matchers (conv : PathConvention) (b : InvalidDenyReadGlobBehavior) (patterns : list str)
    : res glob_error (list G * bool) :=
  match patterns with
  | [] => Ok ([], false)
  | pattern :: patterns' =>
      match build_glob_matcher pattern conv with
      | inr matcher => let? (ms, inv) := build_matchers conv b patterns' in Ok (matcher :: ms, inv)
      | inl err =>
          match b with
          | FailClosed => let? (ms, _) := build_matchers conv b patterns' in Ok (ms, true)
          | ReturnError => Err (InvalidGlob pattern err)
          end
      end
  end.

Definition is_file_system_root ctx (root : U) : bool :=
  match file_system_root ctx with
  | Some r => path_starts_with root r && path_starts_with r root
  | None => false
  end.

Definition prepare_deny_read_matcher p ctx (b : InvalidDenyReadGlobBehavior)
    : res glob_error (PreparedReadDenyMatcher U G) :=
  let roots :=
    map fst (List.filter (λ '(root, access), bool_decide (access = Deny) && negb (is_file_system_root ctx root))
               (resolved_entries p ctx)) in
  let invalid := {| denied_roots := roots; deny_read_matchers := []; invalid_pattern := true |} in
  match infer_path_convention (cx_cwd ctx) with
  | None => Ok invalid
  | Some conv =>
      match deny_read_globs p ctx with
      | Ok patterns =>
          let? (ms, inv) := build_matchers conv b patterns in
          Ok {| denied_roots := roots; deny_read_matchers := ms; invalid_pattern := inv |}
      | Err err => match b with FailClosed => Ok invalid | ReturnError => Err err end
      | Panic => Panic
      end
  end.

(** The bytes of a path that globs are matched against. *)
Definition glob_candidate (conv : PathConvention) path : bytes :=
  match conv with
  | Posix => decoded_path_bytes path
  | Windows => encode (forward_slashes (inferred_native_string path))
  end.

Definition matches_prepared_read_deny path ctx (prepared : PreparedReadDenyMatcher U G) : bool :=
  match comparable_paths path ctx with
  | None => true
  | Some conv =>
      invalid_pattern prepared
      || existsb (λ root, path_starts_with path root) (denied_roots prepared)
      || existsb (λ matcher, is_match_candidate matcher (glob_candidate conv path))
           (deny_read_matchers prepared)
  end.

(** [ReadDenyMatcher::from_context], [is_read_denied_uri] *)
Definition read_deny_matcher p ctx : option (PreparedReadDenyMatcher U G) :=
  if existsb (λ e, bool_decide (entry_access e = Deny)) (fs_entries p)
  then res_ok (prepare_deny_read_matcher p ctx FailClosed) else None.

Definition is_read_denied_uri (matcher : PreparedReadDenyMatcher U G) path ctx : bool :=
  matches_prepared_read_deny path ctx matcher.

(** ** Mandatory denials *)

Definition has_context_read_denials p ctx : bool :=
  bool_decide (fs_kind p = Restricted)
  && existsb (λ e, bool_decide (entry_access e = Deny)
                   && negb (is_special SpSlashTmp (entry_path e)
                            && negb (bool_decide (infer_path_convention (cx_cwd ctx) = Some Posix))))
       (fs_entries p).

Definition deny_read_validator_new required ctx : res glob_error (DenyReadValidator U G) :=
  let? matcher := if has_context_read_denials required ctx
                  then let? m := prepare_deny_read_matcher required ctx ReturnError in Ok (Some m)
                  else Ok None in
  Ok {| required_entries := fs_entries required; required_matcher := matcher |}.

(** A readable concrete entry of the selected policy that the matcher denies. *)
Definition violating_path (v : DenyReadValidator U G) ctx e : option U :=
  if can_read (entry_access e) then
    match entry_path e with
    | FsPath path =>
        if bool_decide (infer_path_convention path = infer_path_convention (cx_cwd ctx)) then
          match required_matcher v with
          | Some matcher => if matches_prepared_read_deny path ctx matcher then Some path else None
          | None => None
          end
        else None
    | _ => None
    end
  else None.

Definition deny_read_validate (v : DenyReadValidator U G) selected ctx : res (DenyReadViolation U) unit :=
  let missing_required_deny :=
    existsb (λ e, negb (contains_entry (fs_entries selected) e)) (required_entries v) in
  match find_map (violating_path v ctx) (fs_entries selected) with
  | Some path => Err (ReadablePath path)
  | None => if missing_required_deny then Err MissingRequiredDeny else Ok ()
  end.

Definition validate_managed_deny_read selected required ctx : res (ManagedDenyError UE GE) unit :=
  let? v := map_err DenyGlob (deny_read_validator_new required ctx) in
  map_err (λ _, SHADOWED) (deny_read_validate v selected ctx).

Definition valid_context_path (conv : PathConvention) path : bool :=
  bool_decide (infer_path_convention path = Some conv) && bool_decide (lexical_depth path ≠ None).

Definition validate_context_entry ctx (conv : PathConvention) e : res (ManagedDenyError UE GE) unit :=
  match entry_path e with
  | FsPath path => if valid_context_path conv path then Ok () else Err INVALID_PATH
  | FsSpecial SpTmpdir =>
      let? directories := ok_or (temporary_directories ctx) TemporaryDirectoriesUnavailable in
      if existsb (λ path, negb (valid_context_path conv path)) directories
      then Err TemporaryDirectoriesUnsafe else Ok ()
  | FsSpecial (SpProjectRoots (Some subpath)) =>
      if existsb (λ root, negb (is_ok (path_uri_join root subpath))) (workspace_roots ctx)
      then Err INVALID_PATH else Ok ()
  | FsGlobPattern pattern =>
      if (starts_with (lit "~/") pattern || bool_decide (conv = Windows) && starts_with (lit "~\") pattern)
         && negb (match user_home_dir ctx with Some home => valid_context_path conv home | None => false end)
      then Err INVALID_PATH else Ok ()
  | _ => Ok ()
  end.

Definition validate_context_paths p ctx : res (ManagedDenyError UE GE) unit :=
  let? conv := ok_or (infer_path_convention (cx_cwd ctx)) INVALID_PATH in
  if negb (valid_context_path conv (cx_cwd ctx))
     || existsb (λ path, negb (valid_context_path conv path)) (workspace_roots ctx)
  then Err INVALID_PATH
  else let? _ := collect (validate_context_entry ctx conv) (fs_entries p) in Ok ().

(** [ReadDenyMatcher::try_new_with_context] *)
Definition try_new_with_context p ctx
    : res (ManagedDenyError UE GE) (option (PreparedReadDenyMatcher U G)) :=
  if negb (has_context_read_denials p ctx) then Ok None
  else let? _ := validate_context_paths p ctx in
       let? prepared := map_err DenyGlob (prepare_deny_read_matcher p ctx ReturnError) in
       Ok (Some prepared).
End deny.

Section materialize.
Context {U UE : Type} `{UL : !UrlLib U UE}.
Implicit Types (p : FileSystemSandboxPolicy U) (e : FileSystemSandboxEntry U) (root : U).

(** ** Workspace roots *)

Definition resolve_scoped_workspace_path root (subpath : str) : option U :=
  conv ← infer_path_convention root;
  let windows := bool_decide (conv = Windows) in
  if starts_with [c_slash] subpath || windows && starts_with [c_backslash] subpath
     || existsb is_dot_segment (path_segments conv subpath)
     || windows && existsb (contains_char c_colon) (path_segments conv subpath)
  then None
  else path ← res_ok (path_uri_join root subpath);
       if path_starts_with path root then Some path else None.

(** The subpath of an entry that is relative to the workspace roots, and
    whether it is a glob. *)
Definition project_roots_subpath (path : FileSystemPath U) : option (option str * bool) :=
  match path with
  | FsSpecial (SpProjectRoots subpath) => Some (subpath, false)
  | FsGlobPattern pattern =>
      match strip_prefix PROJECT_ROOTS_GLOB_PATTERN_PREFIX pattern with
      | Some suffix => Some (Some suffix, true)
      | None => None
      end
  | _ => None
  end.

(** A denial whose target may be outside of the workspace. *)
Definition unknown_home_denial (roots : list U) e (subpath : option str) : bool :=
  bool_decide (entry_access e = Deny)
  && match subpath with
     | Some subpath =>
         existsb (λ root, match infer_path_convention root with
                          | Some conv => bool_decide (home_relative_suffix conv subpath ≠ None)
                          | None => false
                          end) roots
     | None => false
     end.

Definition materialize_at e (subpath : option str) (is_glob : bool) root
    : option (FileSystemSandboxEntry U) :=
  let path :=
    if is_glob && match infer_path_convention root with
                  | None => true
                  | Some conv => negb (is_ok (validate_glob_directory root conv))
                  end then None
    else match subpath with
         | None => Some root
         | Some subpath => resolve_scoped_workspace_path root subpath
         end in
  let entry (path : FileSystemPath U) access :=
    {| entry_path := path; entry_access := access; missing_path_behavior := missing_path_behavior e |} in
  match path with
  | Some path =>
      Some (entry (if is_glob then FsGlobPattern (inferred_native_string path) else FsPath path)
              (entry_access e))
  | None => if can_write (entry_access e) then None else Some (entry (FsPath root) Deny)
  end.

Fixpoint materialize_entries (roots : list U) (es : list (FileSystemSandboxEntry U))
    : option (list (FileSystemSandboxEntry U)) :=
  match es with
  | [] => Some []
  | e :: es' =>
      match project_roots_subpath (entry_path e) with
      | None => cons e <$> materialize_entries roots es'
      | Some (subpath, is_glob) =>
          if unknown_home_denial roots e subpath then None
          else app (omap (materialize_at e subpath is_glob) roots) <$> materialize_entries roots es'
      end
  end.

Definition try_materialize_project_roots_with_path_uris p (roots : list U)
    : option (FileSystemSandboxPolicy U) :=
  with_entries p <$> materialize_entries roots (fs_entries p).

Definition materialize_project_roots_with_path_uris p (roots : list U) : FileSystemSandboxPolicy U :=
  default (restricted []) (try_materialize_project_roots_with_path_uris p roots).

Definition with_materialized_project_roots_for_path_uris p (roots : list U) : FileSystemSandboxPolicy U :=
  match try_materialize_project_roots_with_path_uris p roots with
  | None => restricted []
  | Some materialized => with_entries p (foldl push_new (fs_entries p) (fs_entries materialized))
  end.

(** ** Keeping denials *)

Definition deny_entries (es : list (FileSystemSandboxEntry U)) : list (FileSystemSandboxEntry U) :=
  List.filter (λ e, bool_decide (entry_access e = Deny)) es.

Definition preserve_deny_read_restrictions_from p (existing : FileSystemSandboxPolicy U)
    : FileSystemSandboxPolicy U :=
  let has_deny_read_entries := existsb (λ e, bool_decide (entry_access e = Deny)) (fs_entries existing) in
  let p := if bool_decide (fs_kind p = Unrestricted) && has_deny_read_entries
           then restricted [entry_new (FsSpecial SpRoot) Write] else p in
  if negb (bool_decide (fs_kind p = Restricted)) then p
  else {| fs_kind := fs_kind p;
          glob_scan_max_depth := match glob_scan_max_depth p with
                                 | Some d => Some d
                                 | None => glob_scan_max_depth existing
                                 end;
          fs_entries := foldl push_new (fs_entries p) (deny_entries (fs_entries existing)) |}.
End materialize.
