(* ===== verification/FsTransform.v ===== *)
(** * Additional permissions

    Models [sandboxing/src/policy_transforms.rs] and the permission types of
    [protocol/src/models.rs]: a command may ask for permissions beyond its
    policy; what was granted is cut down to what was requested, merged with
    earlier grants and laid over the policy of the turn. *)

From S2P Require Import Prelude RustStr Utf8 PathConvention PathUri PathText FsPolicy FsDeny.
Open Scope list_scope.

(** ** Data ([protocol/src/models.rs]) *)

Record FileSystemPermissions (U : Type) := {
  perm_entries : list (FileSystemSandboxEntry U);
  perm_glob_scan_max_depth : option nat;
}.
Arguments perm_entries {U} _.
Arguments perm_glob_scan_max_depth {U} _.

Record NetworkPermissions := { network_enabled : option bool }.

#[global] Instance NetworkPermissions_eq : EqDecision NetworkPermissions.
Proof. solve_decision. Defined.

Record AdditionalPermissionProfile (U : Type) := {
  ap_network : option NetworkPermissions;
  ap_file_system : option (FileSystemPermissions U);
}.
Arguments ap_network {U} _.
Arguments ap_file_system {U} _.

(** [NonZeroUsize::new] *)
Definition nonzero (n : nat) : option nat := if decide (n = 0) then None else Some n.

Definition permissions_is_empty {U} (fs : FileSystemPermissions U) : bool :=
  match perm_entries fs with [] => true | _ => false end.
Definition network_permissions_is_empty (n : NetworkPermissions) : bool :=
  bool_decide (network_enabled n = None).
Definition profile_is_empty {U} (p : AdditionalPermissionProfile U) : bool :=
  bool_decide (ap_network p = None) && match ap_file_system p with None => true | Some _ => false end.

(** [Option::filter] *)
Definition keep {A} (f : A → bool) (o : option A) : option A :=
  x ← o; if f x then Some x else None.

Definition from_paths {U} (read write : option (list U)) : FileSystemPermissions U :=
  {| perm_entries := map (λ path, entry_new (FsPath path) Read) (default [] read)
                     ++ map (λ path, entry_new (FsPath path) Write) (default [] write);
     perm_glob_scan_max_depth := None |}.

Definition policy_of_permissions {U} (fs : FileSystemPermissions U) : FileSystemSandboxPolicy U :=
  {| fs_kind := Restricted; glob_scan_max_depth := perm_glob_scan_max_depth fs;
     fs_entries := perm_entries fs |}.

Definition permissions_of_policy {U} (p : FileSystemSandboxPolicy U) : FileSystemPermissions U :=
  {| perm_entries := match fs_kind p with
                     | Restricted => fs_entries p
                     | Unrestricted | ExternalSandbox => [entry_new (FsSpecial SpRoot) Write]
                     end;
     perm_glob_scan_max_depth := glob_scan_max_depth p ≫= nonzero |}.

Inductive NormalizeError (U : Type) :=
  | GlobNotDeny
  | PathConventionMismatch (path cwd : U)
  | UnableToResolve (cwd : U).
Arguments GlobNotDeny {U}.
Arguments PathConventionMismatch {U} path cwd.
Arguments UnableToResolve {U} cwd.

Inductive GlobScanDepth := Bounded (depth : nat) | Unbounded.

Definition enabled_network : NetworkPermissions := {| network_enabled := Some true |}.

Section transform.
Context {U UE G GE : Type} `{UL : !UrlLib U UE} `{DG : !DenyGlobLib G GE}.
Implicit Types (p : FileSystemSandboxPolicy U) (e : FileSystemSandboxEntry U) (path : U)
  (es : list (FileSystemSandboxEntry U)) (ctx : FileSystemSandboxPolicyContext U)
  (ap : AdditionalPermissionProfile U).

(** ** Normalization *)

Definition is_glob e : bool := match entry_path e with FsGlobPattern _ => true | _ => false end.

Definition normalize_entry (acc : list (FileSystemSandboxEntry U)) e
    : res (NormalizeError U) (list (FileSystemSandboxEntry U)) :=
  if is_glob e && negb (bool_decide (entry_access e = Deny)) then Err GlobNotDeny
  else Ok (push_new acc e).

Definition normalize_additional_permissions ap : res (NormalizeError U) (AdditionalPermissionProfile U) :=
  let network := keep (λ n, negb (network_permissions_is_empty n)) (ap_network ap) in
  let? file_system :=
    match ap_file_system ap with
    | Some fs =>
        let? entries := foldM normalize_entry [] (perm_entries fs) in
        let fs := {| perm_entries := entries; perm_glob_scan_max_depth := perm_glob_scan_max_depth fs |} in
        Ok (keep (λ fs, negb (permissions_is_empty fs)) (Some fs))
    | None => Ok None
    end in
  Ok {| ap_network := network; ap_file_system := file_system |}.

(** A concrete path of an entry that does not fit the executor. *)
Definition misfit_path ctx e : option U :=
  match entry_path e with
  | FsPath path =>
      if bool_decide (infer_path_convention path = None)
         || negb (bool_decide (infer_path_convention path = infer_path_convention (cx_cwd ctx)))
         || negb (is_ok (path_uri_join path (lit ".")))
      then Some path else None
  | _ => None
  end.

Definition normalize_additional_permissions_with_context ap ctx
    : res (NormalizeError U) (AdditionalPermissionProfile U) :=
  let? normalized := normalize_additional_permissions ap in
  match ap_file_system normalized ≫= λ fs, find_map (misfit_path ctx) (perm_entries fs) with
  | Some path => Err (PathConventionMismatch path (cx_cwd ctx))
  | None => Ok normalized
  end.

(** ** Materialization *)

Definition resolve_permission_path (path : FileSystemPath U) ctx : option U :=
  match path with
  | FsPath path => Some path
  | FsGlobPattern _ => None
  | FsSpecial SpRoot => file_system_root ctx
  | FsSpecial (SpProjectRoots subpath) => root ← head (workspace_roots ctx); join_subpath root subpath
  | FsSpecial SpTmpdir => dirs ← temporary_directories ctx; head dirs
  | FsSpecial SpSlashTmp =>
      if bool_decide (infer_path_convention (cx_cwd ctx) = Some Posix)
      then res_ok (path_uri_join (cx_cwd ctx) (lit "/tmp")) else None
  | FsSpecial SpMinimal | FsSpecial (SpUnknown _ _) => None
  end.

Definition home_relative_permission_glob (is_windows : bool) (pattern : str) : option str :=
  match strip_prefix (lit "~/") pattern with
  | Some suffix => Some suffix
  | None => if bool_decide (pattern = lit "~") then Some []
            else if is_windows then strip_prefix (lit "~\") pattern else None
  end.

Definition with_path e (path : FileSystemPath U) : FileSystemSandboxEntry U :=
  {| entry_path := path; entry_access := entry_access e;
     missing_path_behavior := missing_path_behavior e |}.

Definition materialize_cwd_dependent_entry e ctx : option (FileSystemSandboxEntry U) :=
  match entry_path e with
  | FsGlobPattern pattern =>
      let is_windows := bool_decide (infer_path_convention (cx_cwd ctx) = Some Windows) in
      ' (root, pattern) ← match home_relative_permission_glob is_windows pattern with
                         | Some suffix => home ← user_home_dir ctx;
                                          Some (home, trim_start_separators is_windows suffix)
                         | None => Some (cx_cwd ctx, pattern)
                         end;
      path ← res_ok (path_uri_join root pattern);
      Some (with_path e (FsGlobPattern (inferred_native_string path)))
  | FsPath _ | FsSpecial _ => Some e
  end.

Definition materialized_path_entry e path : FileSystemSandboxEntry U := with_path e (FsPath path).

(** The context with one workspace root. *)
Definition root_context ctx (root : U) : FileSystemSandboxPolicyContext U :=
  {| cx_cwd := cx_cwd ctx; workspace_roots := [root]; user_home_dir := user_home_dir ctx;
     temporary_directories := temporary_directories ctx |}.

(** [None] when a denial cannot be resolved. *)
Definition materialize_context_entry ctx e : option (list (FileSystemSandboxEntry U)) :=
  let denies := bool_decide (entry_access e = Deny) in
  match entry_path e with
  | FsSpecial (SpProjectRoots _) =>
      let resolve root := resolve_permission_path (entry_path e) (root_context ctx root) in
      let resolved := map (materialized_path_entry e) (omap resolve (workspace_roots ctx)) in
      if denies && (existsb (λ root, bool_decide (resolve root = None)) (workspace_roots ctx)
                    || match resolved with [] => true | _ => false end)
      then None else Some resolved
  | FsSpecial SpTmpdir =>
      match temporary_directories ctx with
      | None => if denies then None else Some [e]
      | Some dirs => Some (map (materialized_path_entry e) dirs)
      end
  | FsSpecial SpRoot => _ ← resolve_permission_path (entry_path e) ctx; Some [e]
  | _ =>
      match materialize_cwd_dependent_entry e ctx with
      | Some e => Some [e]
      | None => if denies then None else Some []
      end
  end.

Fixpoint materialize_context_dependent_entries es ctx : option (list (FileSystemSandboxEntry U)) :=
  match es with
  | [] => Some []
  | e :: es' =>
      es1 ← materialize_context_entry ctx e;
      es2 ← materialize_context_dependent_entries es' ctx;
      Some (es1 ++ es2)
  end.

Definition materialize_additional_permissions_with_context ap ctx
    : res (NormalizeError U) (AdditionalPermissionProfile U) :=
  let? ap :=
    match ap_file_system ap with
    | Some fs =>
        let? entries := ok_or (materialize_context_dependent_entries (perm_entries fs) ctx)
                          (UnableToResolve (cx_cwd ctx)) in
        Ok {| ap_network := ap_network ap;
              ap_file_system := Some {| perm_entries := entries;
                                        perm_glob_scan_max_depth := perm_glob_scan_max_depth fs |} |}
    | None => Ok ap
    end in
  normalize_additional_permissions_with_context ap ctx.

(** ** Merging *)

Definition effective_glob_scan_depth es (depth : option nat) : option GlobScanDepth :=
  if existsb (λ e, bool_decide (entry_access e = Deny) && is_glob e) es
  then Some (match depth with Some depth => Bounded depth | None => Unbounded end) else None.

Definition merge_glob_scan_max_depth (left_entries : list (FileSystemSandboxEntry U))
    (left_depth : option nat) (right_entries : list (FileSystemSandboxEntry U))
    (right_depth : option nat) : option nat :=
  match effective_glob_scan_depth left_entries left_depth,
        effective_glob_scan_depth right_entries right_depth with
  | Some Unbounded, _ | _, Some Unbounded => None
  | Some (Bounded l), Some (Bounded r) => Some (Nat.max l r)
  | Some (Bounded depth), None | None, Some (Bounded depth) => Some depth
  | None, None => None
  end.

Definition merge_permission_entries (base permissions : list (FileSystemSandboxEntry U))
    : list (FileSystemSandboxEntry U) :=
  foldl push_new [] (base ++ permissions).

Definition merge_permission_profiles (base permissions : option (AdditionalPermissionProfile U))
    : option (AdditionalPermissionProfile U) :=
  match permissions with
  | None => base
  | Some permissions =>
      match base with
      | Some base =>
          let network :=
            if bool_decide (ap_network base = Some enabled_network)
               || bool_decide (ap_network permissions = Some enabled_network)
            then Some enabled_network else None in
          let file_system :=
            match ap_file_system base, ap_file_system permissions with
            | Some base, Some permissions =>
                keep (λ fs, negb (permissions_is_empty fs))
                  (Some {| perm_entries :=
                             merge_permission_entries (perm_entries base) (perm_entries permissions);
                           perm_glob_scan_max_depth :=
                             merge_glob_scan_max_depth (perm_entries base) (perm_glob_scan_max_depth base)
                               (perm_entries permissions) (perm_glob_scan_max_depth permissions)
                             ≫= nonzero |})
            | Some base, None => Some base
            | None, Some permissions => Some permissions
            | None, None => None
            end in
          keep (λ ap, negb (profile_is_empty ap))
            (Some {| ap_network := network; ap_file_system := file_system |})
      | None => keep (λ ap, negb (profile_is_empty ap)) (Some permissions)
      end
  end.

(** ** Intersection *)

Definition access_covers (requested granted : FileSystemAccessMode) : bool :=
  match granted with
  | Read => can_read requested
  | Write => can_write requested
  | Deny => false
  end.

Definition is_root_entry e : bool := is_special SpRoot (entry_path e).

Definition granted_file_system_entry_within_request (requested_entries : list (FileSystemSandboxEntry U))
    (requested_policy : FileSystemSandboxPolicy U) (matcher : option (PreparedReadDenyMatcher U G))
    (granted : FileSystemSandboxEntry U) ctx : bool :=
  let conv := infer_path_convention (cx_cwd ctx) in
  if negb (can_read (entry_access granted))
     || is_special SpSlashTmp (entry_path granted) && negb (bool_decide (conv = Some Posix))
  then false
  else if bool_decide (conv = Some Windows) && is_root_entry granted
          && negb (existsb (λ r, is_root_entry r && access_covers (entry_access r) (entry_access granted))
                     requested_entries)
  then false
  else match resolve_permission_path (entry_path granted) ctx with
       | Some path =>
           if negb (bool_decide (infer_path_convention path = conv))
              || match matcher with Some m => is_read_denied_uri m path ctx | None => false end
           then false
           else access_covers (resolve_access requested_policy path ctx) (entry_access granted)
       | None =>
           existsb (λ r, access_covers (entry_access r) (entry_access granted)
                         && fs_path_eqb (entry_path r) (entry_path granted)) requested_entries
       end.

Definition paths_overlap (l r : U) : bool := default true (overlaps l r).

Definition glob_static_prefix_path (pattern : str) ctx : option U :=
  let is_windows := bool_decide (infer_path_convention (cx_cwd ctx) = Some Windows) in
  match list_find (λ c, c ∈ lit "*?[]") pattern with
  | Some (0, _) => None
  | Some (index, _) =>
      let prefix := take index pattern in
      let wildcard_in_segment :=
        negb (ends_with [c_slash] prefix || is_windows && ends_with [c_backslash] prefix) in
      prefix ← res_ok (path_uri_join (cx_cwd ctx) prefix);
      if wildcard_in_segment then parent prefix else Some prefix
  | None => res_ok (path_uri_join (cx_cwd ctx) pattern)
  end.

(** A denial and one accepted grant may concern the same path. *)
Definition deny_constrains (deny : FileSystemSandboxEntry U) ctx (grant : FileSystemSandboxEntry U) : bool :=
  if is_root_entry grant then true
  else match resolve_permission_path (entry_path grant) ctx with
       | None => true
       | Some grant_path =>
           match match entry_path deny with
                 | FsGlobPattern pattern => glob_static_prefix_path pattern ctx
                 | FsPath _ | FsSpecial _ => resolve_permission_path (entry_path deny) ctx
                 end with
           | Some deny_path => paths_overlap deny_path grant_path
           | None => true
           end
       end.

Definition deny_entry_constrains_accepted_grant (deny : FileSystemSandboxEntry U)
    (accepted : list (FileSystemSandboxEntry U)) ctx : bool :=
  existsb (λ e, can_read (entry_access e) && deny_constrains deny ctx e) accepted.

(** The retained denials; the output gets those it does not have yet. *)
Definition retained_deny_entries (source accepted : list (FileSystemSandboxEntry U)) ctx
    : list (FileSystemSandboxEntry U) :=
  List.filter (λ e, deny_entry_constrains_accepted_grant e accepted ctx) (deny_entries source).

Definition intersect_file_system (requested granted : FileSystemPermissions U) ctx
    : option (FileSystemPermissions U) :=
  requested_entries ← materialize_context_dependent_entries (perm_entries requested) ctx;
  granted_entries ← materialize_context_dependent_entries (perm_entries granted) ctx;
  let requested_policy := restricted requested_entries in
  let matcher := read_deny_matcher requested_policy ctx in
  let accepted :=
    foldl push_new []
      (List.filter (λ e, granted_file_system_entry_within_request (perm_entries requested)
                           requested_policy matcher e ctx) granted_entries) in
  let requested_retained := retained_deny_entries requested_entries accepted ctx in
  let granted_retained := retained_deny_entries granted_entries accepted ctx in
  Some {| perm_entries := foldl push_new (foldl push_new accepted requested_retained) granted_retained;
          perm_glob_scan_max_depth :=
            merge_glob_scan_max_depth requested_retained (perm_glob_scan_max_depth requested)
              granted_retained (perm_glob_scan_max_depth granted) ≫= nonzero |}.

Definition no_permissions : FileSystemPermissions U :=
  {| perm_entries := []; perm_glob_scan_max_depth := None |}.

Definition intersect_permission_profiles_with_context (requested granted : AdditionalPermissionProfile U) ctx
    : AdditionalPermissionProfile U :=
  let file_system :=
    keep (λ fs, negb (permissions_is_empty fs))
      (requested_fs ← ap_file_system requested;
       intersect_file_system requested_fs (default no_permissions (ap_file_system granted)) ctx) in
  let network :=
    if bool_decide (ap_network requested = Some enabled_network)
       && bool_decide (ap_network granted = Some enabled_network)
    then Some enabled_network else None in
  {| ap_network := network; ap_file_system := file_system |}.

(** ** The effective policy *)

Definition merge_file_system_policy_with_additional_permissions p (fs : FileSystemPermissions U)
    : FileSystemSandboxPolicy U :=
  match fs_kind p with
  | Restricted =>
      {| fs_kind := Restricted;
         glob_scan_max_depth :=
           merge_glob_scan_max_depth (fs_entries p) (glob_scan_max_depth p) (perm_entries fs)
             (perm_glob_scan_max_depth fs);
         fs_entries := foldl push_new (fs_entries p) (perm_entries fs) |}
  | Unrestricted | ExternalSandbox => p
  end.

Definition effective_file_system_sandbox_policy p (additional : option (AdditionalPermissionProfile U))
    : FileSystemSandboxPolicy U :=
  match additional ≫= ap_file_system with
  | None => p
  | Some fs => if permissions_is_empty fs then p
               else merge_file_system_policy_with_additional_permissions p fs
  end.

Definition merge_network_access (base_network_access : bool) ap : bool :=
  base_network_access || default false (ap_network ap ≫= network_enabled).

Definition effective_network_sandbox_policy (network_policy : NetworkSandboxPolicy)
    (additional : option (AdditionalPermissionProfile U)) : NetworkSandboxPolicy :=
  match additional with
  | Some ap => if merge_network_access (network_is_enabled network_policy) ap then NetEnabled
               else NetRestricted
  | None => network_policy
  end.

Definition should_require_platform_sandbox (native : PathConvention) p
    (network_policy : NetworkSandboxPolicy) (has_managed_network_requirements : bool) : bool :=
  if has_managed_network_requirements then true
  else if negb (network_is_enabled network_policy)
  then negb (bool_decide (fs_kind p = ExternalSandbox))
  else match fs_kind p with
       | Restricted => negb (has_full_disk_write_access native p)
       | Unrestricted | ExternalSandbox => false
       end.
End transform.
