(* ===== verification/FsPolicyFacts.v ===== *)
(** * File system policies: the nearest entry decides

    The access a policy gives to a path is the one of its entries at the
    nearest ancestor that has any; among those a denial wins over a write and a
    write over a read. [decides] states it as a relation on located entries, in
    which the theorems about combined policies are proved; [nearest] computes
    it by walking up the path. *)

From S2P Require Import Prelude RustStr Utf8 PathConvention PathUri PathText PathUriFacts FsPolicy.
Open Scope list_scope.

(** ** Located entries *)

Abbreviation loc := (PathConvention * option str * list bytes)%type.

Definition above (l l0 : loc) : Prop := l.1 = l0.1 ∧ l.2 `prefix_of` l0.2.

#[global] Instance above_dec l l0 : Decision (above l l0).
Proof. unfold above. apply _. Defined.

Definition depth (l : loc) : nat := length l.2.

Lemma above_refl l : above l l.
Proof. by split. Qed.

Lemma above_trans l1 l2 l3 : above l1 l2 → above l2 l3 → above l1 l3.
Proof. intros [E1 P1] [E2 P2]. split; [congruence|by etrans]. Qed.

Lemma above_depth l l0 : above l l0 → depth l ≤ depth l0.
Proof. intros [_ H]. by apply prefix_length. Qed.

(** The ancestors of a path are ordered by their depth. *)
Lemma above_linear l1 l2 l0 : above l1 l0 → above l2 l0 → depth l1 ≤ depth l2 → above l1 l2.
Proof.
  intros [E1 P1] [E2 P2] Hd. split; [congruence|].
  destruct (prefix_weak_total _ _ _ P1 P2) as [?|H]; [done|].
  by rewrite (prefix_length_eq _ _ H Hd).
Qed.

Lemma above_depth_eq l1 l2 : above l1 l2 → depth l2 ≤ depth l1 → l1 = l2.
Proof.
  destruct l1 as [k1 s1], l2 as [k2 s2]. intros [E P] Hd. simpl in *. subst. f_equal.
  by apply prefix_length_eq.
Qed.

(** [a] outranks every entry of [es] that covers [l0], or none does. *)
Definition decides (es : list (loc * FileSystemAccessMode)) (l0 : loc) (a : FileSystemAccessMode) : Prop :=
  ((∀ l a', (l, a') ∈ es → ¬ above l l0) ∧ a = Deny)
  ∨ ∃ l, (l, a) ∈ es ∧ above l l0
         ∧ ∀ l' a', (l', a') ∈ es → above l' l0 →
             depth l' < depth l ∨ depth l' = depth l ∧ access_rank a' ≤ access_rank a.

Lemma access_rank_inj a b : access_rank a = access_rank b → a = b.
Proof. by destruct a, b. Qed.

Lemma decides_det es l0 a b : decides es l0 a → decides es l0 b → a = b.
Proof.
  intros [[Hn ->]|(l & Hl & Al & Ml)] [[Hn' ->]|(l' & Hl' & Al' & Ml')]; [done| | |].
  - by destruct (Hn l' b).
  - by destruct (Hn' l a).
  - apply access_rank_inj. specialize (Ml l' b Hl' Al'). specialize (Ml' l a Hl Al). lia.
Qed.

Lemma decides_set es es' l0 a : (∀ x, x ∈ es ↔ x ∈ es') → decides es l0 a → decides es' l0 a.
Proof. intros He. unfold decides. by setoid_rewrite He. Qed.

(** Denied when the deciding location has a denial. *)
Lemma decides_deny es l0 a l :
  decides es l0 a → (l, Deny) ∈ es → above l l0 →
  (∀ l' a', (l', a') ∈ es → above l' l0 → can_read a' = true → depth l' ≤ depth l) → a = Deny.
Proof.
  intros [[_ ->]|(m & Hm & Am & Mm)] Hl Al Hd; [done|]. specialize (Mm l Deny Hl Al) as Hr. simpl in Hr.
  destruct a; [..|done]; specialize (Hd m _ Hm Am eq_refl); simpl in Hr; lia.
Qed.

(** ** Walking up *)

(** The access of the entries at exactly one location. *)
Definition access_at (es : list (loc * FileSystemAccessMode)) (l : loc) : option FileSystemAccessMode :=
  if decide ((l, Deny) ∈ es) then Some Deny
  else if decide ((l, Write) ∈ es) then Some Write
  else if decide ((l, Read) ∈ es) then Some Read
  else None.

(** The walk from the location with the reversed segments [rs] to its root. *)
Fixpoint nearest (es : list (loc * FileSystemAccessMode)) (k : PathConvention * option str)
    (rs : list bytes) : option FileSystemAccessMode :=
  match access_at es (k, rev rs) with
  | Some a => Some a
  | None => match rs with [] => None | _ :: rs' => nearest es k rs' end
  end.

Lemma access_at_Some es l a :
  access_at es l = Some a → (l, a) ∈ es ∧ ∀ a', (l, a') ∈ es → access_rank a' ≤ access_rank a.
Proof.
  unfold access_at. repeat case_decide; intros [= <-]; (split; [done|]); intros [] ?; simpl; try lia; done.
Qed.

Lemma access_at_None es l a : access_at es l = None → (l, a) ∉ es.
Proof. unfold access_at. repeat case_decide; try done. by destruct a. Qed.

Lemma above_strict l l0 x s : l0 = (l0.1, s ++ [x]) → above l l0 → l ≠ l0 → above l (l0.1, s).
Proof.
  intros E [H1 H2] Hne. rewrite E in H2. simpl in H2. split; [done|]. simpl.
  destruct H2 as [t Ht]. destruct (snoc_inv t) as [->|(t' & y & ->)].
  - rewrite app_nil_r in Ht. destruct Hne. rewrite E. destruct l as [k sl]. simpl in *. by subst.
  - rewrite app_assoc in Ht. apply app_inj_tail in Ht as [-> _]. by apply prefix_app_r.
Qed.

Lemma nearest_decides es k rs : decides es (k, rev rs) (default Deny (nearest es k rs)).
Proof.
  assert (Hhere : ∀ rs a, access_at es (k, rev rs) = Some a → decides es (k, rev rs) a).
  { intros rs' a [Hin Hmax]%access_at_Some. right. exists (k, rev rs').
    split_and!; [done|apply above_refl|]. intros l' a' Hl' Al.
    destruct (decide (l' = (k, rev rs'))) as [->|Hne]; [right; by auto|].
    left. pose proof (above_depth _ _ Al). destruct (decide (depth l' = depth (k, rev rs'))); [|lia].
    destruct Hne. apply above_depth_eq; [done|lia]. }
  induction rs as [|x rs IH]; simpl.
  - destruct (access_at es (k, [])) eqn:E; [by apply (Hhere [])|]. left. split; [|done].
    intros l a Hl [E1 E2]. simpl in *. apply prefix_nil_inv in E2.
    apply (access_at_None _ _ a) in E. destruct l as [kl sl]. simpl in *. by subst.
  - destruct (access_at es (k, rev rs ++ [x])) eqn:E; [by apply (Hhere (x :: rs))|]. simpl in *.
    assert (Hup : ∀ l a, (l, a) ∈ es → above l (k, rev rs ++ [x]) → above l (k, rev rs)).
    { intros l a Hl Al. apply (above_strict _ (k, rev rs ++ [x]) x); [done|done|].
      intros ->. by apply (access_at_None _ _ a) in E. }
    assert (Hdn : ∀ l, above l (k, rev rs) → above l (k, rev rs ++ [x])).
    { intros l [? ?]. split; [done|]. simpl in *. by apply prefix_app_r. }
    destruct IH as [[Hn Hd]|(l & Hl & Al & Ml)]; [left|right].
    + split; [|done]. intros l a Hl Al. by eapply Hn, Hup.
    + exists l. split_and!; [done|by apply Hdn|]. intros l' a' Hl' Al'. apply Ml; [done|]. by eapply Hup.
Qed.

(** ** Access of a policy *)

Section access.
Context {U UE : Type} `{UL : !UrlLib U UE}.
Implicit Types (p : FileSystemSandboxPolicy U) (path : U) (ctx : FileSystemSandboxPolicyContext U)
  (rs : list (U * FileSystemAccessMode)).

Definition locate_all rs : list (loc * FileSystemAccessMode) :=
  omap (λ '(u, a), (λ l, (l, a)) <$> location u) rs.

Definition located p ctx : list (loc * FileSystemAccessMode) := locate_all (resolved_entries p ctx).

(** Roots that can be compared: located or opaque, and on Windows spelled in
    Unicode. *)
Definition orderly rs : bool :=
  forallb (λ '(u, _), is_clean u && (bool_decide (lexical_depth u ≠ None) || is_opaque u)) rs.

(** A path that is compared with the context, at location [l]. *)
Definition placed ctx path (l : loc) : Prop :=
  comparable_paths path ctx ≠ None ∧ is_clean path = true ∧ location path = Some l.

Lemma elem_of_locate_all rs l a :
  (l, a) ∈ locate_all rs ↔ ∃ u, (u, a) ∈ rs ∧ location u = Some l.
Proof.
  unfold locate_all. rewrite list_elem_of_omap. split.
  - intros ([u a'] & Hin & Hl). destruct (location u) eqn:E; simplify_eq/=. eauto.
  - intros (u & Hin & Hl). exists (u, a). by rewrite Hl.
Qed.

Lemma locate_all_app rs1 rs2 : locate_all (rs1 ++ rs2) = locate_all rs1 ++ locate_all rs2.
Proof. apply omap_app. Qed.

Lemma orderly_app rs1 rs2 : orderly (rs1 ++ rs2) = orderly rs1 && orderly rs2.
Proof. apply forallb_app. Qed.

Lemma orderly_elem rs u a :
  orderly rs = true → (u, a) ∈ rs →
  is_clean u = true ∧ (lexical_depth u ≠ None ∨ is_opaque u = true).
Proof.
  unfold orderly. rewrite forallb_forall. intros H Hin%list_elem_of_In%H.
  by apply andb_true_iff in Hin as [? [?%bool_decide_eq_true|?]%orb_true_iff]; auto.
Qed.

Lemma orderly_forall rs :
  (∀ u a, (u, a) ∈ rs → is_clean u = true ∧ (lexical_depth u ≠ None ∨ is_opaque u = true)) →
  orderly rs = true.
Proof.
  intros H. apply forallb_forall. intros [u a] [? Hd]%list_elem_of_In%H. apply andb_true_iff. split; [done|].
  apply orb_true_iff. destruct Hd; [left; by apply bool_decide_eq_true|by right].
Qed.

Lemma with_depths_Some rs :
  orderly rs = true →
  ∃ es, with_depths rs = Some es
    ∧ ∀ u a d, (u, a, d) ∈ es ↔ (u, a) ∈ rs ∧ lexical_depth u = Some d.
Proof.
  induction rs as [|[u a] rs IH]; simpl.
  - intros _. exists []. split; [done|]. intros. split; [by intros ?%not_elem_of_nil|by intros [?%not_elem_of_nil _]].
  - intros [[Hc Ho]%andb_true_iff (es & -> & Hes)%IH]%andb_true_iff. simpl.
    destruct (lexical_depth u) as [d|] eqn:Ed.
    + exists ((u, a, d) :: es). split; [done|]. intros u' a' d'. rewrite !elem_of_cons, Hes.
      split; [intros [[= -> -> ->]|[? ?]]; auto|].
      intros [[[= -> ->]|?] Hd]; [left; congruence|right; done].
    + rewrite bool_decide_false in Ho by (by intros []). simpl in Ho. rewrite Ho. exists es. split; [done|].
      intros u' a' d'. rewrite elem_of_cons, Hes. split; [intros [? ?]; auto|].
      intros [[[= -> ->]|?] Hd]; [congruence|done].
Qed.

Lemma more_specific_trans a b c :
  more_specific (U:=U) b a = false → more_specific c b = false → more_specific c a = false.
Proof.
  destruct a as [[? x] dx], b as [[? y] dy], c as [[? z] dz]. unfold more_specific.
  rewrite !orb_false_iff, !andb_false_iff, !bool_decide_eq_false. lia.
Qed.

Lemma more_specific_asym a b : more_specific (U:=U) a b = true → more_specific b a = false.
Proof.
  destruct a as [[? x] dx], b as [[? y] dy]. unfold more_specific.
  rewrite orb_true_iff, orb_false_iff, andb_true_iff, andb_false_iff, !bool_decide_eq_true,
    !bool_decide_eq_false. lia.
Qed.

Context `{LU : !LawfulUrl U UE}.

Lemma starts_with_above u v lu lv :
  is_clean u = true → is_clean v = true → location u = Some lu → location v = Some lv →
  path_starts_with u v = true ↔ above lv lu.
Proof.
  destruct lu as [[c h] a], lv as [[c' h'] b]. intros Cu Cv Lu Lv.
  rewrite (path_starts_with_location u v c h a c' h' b) by done. unfold above. simpl. naive_solver.
Qed.

(** The entry chosen by [resolve_access] decides. *)
Lemma resolve_access_decides p path ctx l0 :
  fs_kind p = Restricted → placed ctx path l0 → orderly (resolved_entries p ctx) = true →
  decides (located p ctx) l0 (resolve_access p path ctx).
Proof.
  intros Hk (Hcmp & Hcl & Hl0) Ho. unfold resolve_access. rewrite Hk.
  destruct (comparable_paths path ctx); [clear Hcmp|done].
  destruct (with_depths_Some _ Ho) as (es & -> & Hes).
  destruct (max_by more_specific _) as [[[u a] d]|] eqn:Em.
  - apply max_by_Some in Em as [Hin Hmax];
      [|intros x y z; apply more_specific_trans|apply more_specific_asym].
    rewrite list_elem_of_In, filter_In in Hin. destruct Hin as [[Hu Hd]%list_elem_of_In%Hes Hsw].
    rewrite lexical_depth_location in Hd. destruct (location u) as [l|] eqn:El; [|done]. injection Hd as <-.
    destruct (orderly_elem _ _ _ Ho Hu) as [Hclu _]. right. exists l. split_and!.
    + apply elem_of_locate_all. eauto.
    + by apply (starts_with_above path u l0 l).
    + intros l' a' (v & Hv & El')%elem_of_locate_all Hab. destruct (orderly_elem _ _ _ Ho Hv) as [Hclv _].
      assert (Hm : more_specific (v, a', depth l') (u, a, length l.2) = false).
      { apply Hmax. rewrite list_elem_of_In, filter_In. split.
        - apply list_elem_of_In, Hes. split; [done|]. by rewrite lexical_depth_location, El'.
        - by apply (starts_with_above path v l0 l'). }
      unfold more_specific in Hm. apply orb_false_iff in Hm as [H1%bool_decide_eq_false H2].
      apply andb_false_iff in H2. rewrite !bool_decide_eq_false in H2. unfold depth in *. lia.
  - apply max_by_None in Em. left. split; [|done]. intros l a (u & Hu & El)%elem_of_locate_all Hab.
    destruct (orderly_elem _ _ _ Ho Hu) as [Hclu _].
    assert (Hin : (u, a, depth l) ∈ ([] : list (U * FileSystemAccessMode * nat))).
    { rewrite <- Em, list_elem_of_In, filter_In. split.
      - apply list_elem_of_In, Hes. split; [done|]. by rewrite lexical_depth_location, El.
      - by apply (starts_with_above path u l0 l). }
    by apply not_elem_of_nil in Hin.
Qed.

(** C7. A restricted policy gives a path the access of its entries at the
    nearest ancestor that has entries: the choice of the entry with the greatest
    depth and, there, the greatest precedence is a walk from the path up to its
    root, where a denial wins over a write and a write over a read. Entry order
    and repetitions play no part. *)
Theorem resolve_access_nearest p path ctx k segs :
  fs_kind p = Restricted → placed ctx path (k, segs) → orderly (resolved_entries p ctx) = true →
  resolve_access p path ctx = default Deny (nearest (located p ctx) k (rev segs)).
Proof.
  intros Hk Hp Ho. eapply decides_det; [by eapply resolve_access_decides|].
  rewrite <- (rev_involutive segs) at 1. apply nearest_decides.
Qed.

(** Paths and roots that cannot be compared are denied. *)
Lemma resolve_access_fail_closed p path ctx :
  fs_kind p = Restricted →
  comparable_paths path ctx = None ∨ with_depths (resolved_entries p ctx) = None →
  resolve_access p path ctx = Deny.
Proof.
  intros Hk H. unfold resolve_access. rewrite Hk. destruct (comparable_paths path ctx); [|done].
  destruct H as [|H]; [done|]. by rewrite H.
Qed.
End access.
