(* ===== verification/FsTransformFacts.v ===== *)
(** * Additional permissions: what can be granted

    Entry lists are compared by their located entries, so that adding an entry
    that is already there changes nothing. The intersection of a request and a
    grant gives no path more than the grant and makes nothing readable that the
    request denies; an overlay changes the access of covered paths only, and
    wins over a denial only where it is more specific. *)

From S2P Require Import Prelude RustStr Utf8 PathConvention PathUri PathText PathUriFacts.
From S2P Require Import FsPolicy FsPolicyFacts FsDeny FsTransform.
From S2P Require Import PathUriFacts.
Open Scope list_scope.

(** Capabilities, as opposed to the precedence of [access_rank]. *)
Definition cap_le (a b : FileSystemAccessMode) : Prop :=
  match a, b with
  | Deny, _ | Read, Read | _, Write => True
  | _, _ => False
  end.

#[global] Instance cap_le_dec a b : Decision (cap_le a b).
Proof. destruct a, b; simpl; apply _. Defined.

#[global] Instance cap_le_preorder : PreOrder cap_le.
Proof. split; [by intros []|by intros [] [] []]. Qed.

Lemma cap_le_spec a b :
  cap_le a b ↔ (can_read a = true → can_read b = true) ∧ (can_write a = true → can_write b = true).
Proof. destruct a, b; simpl; naive_solver. Qed.

Section located.
Context {U UE : Type} `{UL : !UrlLib U UE} `{LU : !LawfulUrl U UE}.
Implicit Types (p : FileSystemSandboxPolicy U) (e : FileSystemSandboxEntry U) (path : U)
  (es : list (FileSystemSandboxEntry U)) (ctx : FileSystemSandboxPolicyContext U).

Definition resolve_entries ctx es : list (U * FileSystemAccessMode) := es ≫= resolve_entry ctx.
Definition located_entries ctx es : list (loc * FileSystemAccessMode) := locate_all (resolve_entries ctx es).

Lemma elem_of_resolve_entries ctx es u a :
  (u, a) ∈ resolve_entries ctx es ↔
  ∃ e, e ∈ es ∧ entry_access e = a ∧ u ∈ entry_targets ctx (entry_path e)
       ∧ infer_path_convention u = infer_path_convention (cx_cwd ctx).
Proof.
  unfold resolve_entries, resolve_entry. rewrite list_elem_of_bind. split.
  - intros (e & (v & [= -> ->] & Hv)%list_elem_of_fmap & He). exists e.
    rewrite list_elem_of_In, filter_In, bool_decide_eq_true, <- list_elem_of_In in Hv. naive_solver.
  - intros (e & He & <- & Hu & Hc). exists e. split; [|done]. apply list_elem_of_fmap. exists u. split; [done|].
    rewrite list_elem_of_In, filter_In, bool_decide_eq_true, <- list_elem_of_In. done.
Qed.

Lemma elem_of_located ctx es l a :
  (l, a) ∈ located_entries ctx es ↔
  ∃ e u, e ∈ es ∧ entry_access e = a ∧ u ∈ entry_targets ctx (entry_path e)
         ∧ infer_path_convention u = infer_path_convention (cx_cwd ctx) ∧ location u = Some l.
Proof.
  unfold located_entries. rewrite elem_of_locate_all. setoid_rewrite elem_of_resolve_entries. naive_solver.
Qed.

Lemma located_app ctx es1 es2 :
  located_entries ctx (es1 ++ es2) = located_entries ctx es1 ++ located_entries ctx es2.
Proof. unfold located_entries, resolve_entries. by rewrite bind_app, locate_all_app. Qed.

Lemma path_uri_eqb_refl u : path_uri_eqb u u = true.
Proof. unfold path_uri_eqb. by rewrite bool_decide_true. Qed.

Lemma path_uri_eqb_cases (u v : U) :
  path_uri_eqb u v = true → u = v ∨ ∃ lu lv, location u = Some lu ∧ location v = Some lv
    ∧ infer_path_convention u = Some Windows ∧ infer_path_convention v = Some Windows.
Proof.
  unfold path_uri_eqb. intros [->%bool_decide_eq_true|Hw]%orb_true_iff; [by left|right].
  assert (Hloc : ∀ w bs, windows_identity_path_bytes w = Some bs →
    ∃ l, location w = Some l ∧ infer_path_convention w = Some Windows).
  { intros w bs. unfold windows_identity_path_bytes, location. destruct (_ || _) eqn:E; [done|].
    apply orb_false_iff in E as [->%negb_false_iff%bool_decide_eq_true Eo].
    apply bool_decide_eq_false in Eo. change (opaque_fallback_bytes w) with (decode_bad_path_uri w) in Eo.
    rewrite bool_decide_false by done. simpl. unfold containment_path_segments.
    destruct (url_path_segments w) as [segs|]; [|done]. simpl. destruct (existsb _ segs) eqn:Es; [done|].
    intros _. destruct (existsb _ (List.filter non_empty segs)) eqn:Ef; [|eauto].
    apply existsb_exists in Ef as (x & [Hx _]%filter_In & Hs).
    rewrite (proj2 (existsb_exists _ _)) in Es; [done|eauto]. }
  destruct (windows_identity_path_bytes u) eqn:Eu; [|done]. destruct (windows_identity_path_bytes v) eqn:Ev; [|done].
  apply Hloc in Eu as (? & ? & ?), Ev as (? & ? & ?). eauto 10.
Qed.

Lemma path_uri_eqb_same (u v : U) :
  path_uri_eqb u v = true → location u = location v ∧ infer_path_convention u = infer_path_convention v.
Proof.
  intros He. destruct (path_uri_eqb_cases u v He) as [->|(lu & lv & Eu & Ev & Iu & Iv)]; [done|].
  rewrite Eu, Ev, Iu, Iv. by rewrite (path_uri_eqb_location u v lu lv).
Qed.

(** Equal entries give the same access to the same locations. *)
Lemma entry_eqb_located ctx e e' x :
  entry_eqb e e' = true → x ∈ located_entries ctx [e] → x ∈ located_entries ctx [e'].
Proof.
  destruct x as [l a]. unfold entry_eqb. intros [[Hp Ha%bool_decide_eq_true]%andb_true_iff _]%andb_true_iff.
  rewrite !elem_of_located. setoid_rewrite list_elem_of_singleton.
  intros (? & u & -> & <- & Hu & Hc & Hl). rewrite Ha. exists e'.
  destruct (entry_path e) as [v|pat|sp], (entry_path e') as [v'|pat'|sp']; simpl in Hp; try done.
  - exists v'. apply path_uri_eqb_same in Hp as [E1 E2]. apply list_elem_of_singleton in Hu as ->.
    split_and!; [done..|by left|congruence|congruence].
  - by apply not_elem_of_nil in Hu.
  - apply bool_decide_eq_true in Hp as ->. by exists u.
Qed.

Lemma located_push_new ctx es e x :
  x ∈ located_entries ctx (push_new es e) ↔ x ∈ located_entries ctx (es ++ [e]).
Proof.
  unfold push_new, contains_entry. destruct (existsb (entry_eqb e) es) eqn:E; [|done].
  rewrite located_app, elem_of_app. split; [by left|]. intros [?|Hx]; [done|].
  apply existsb_exists in E as (e' & Hin & He). eapply entry_eqb_located in Hx; [|done].
  apply list_elem_of_In, list_elem_of_split in Hin as (es1 & es2 & ->).
  rewrite located_app. apply elem_of_app. right.
  change (e' :: es2) with ([e'] ++ es2). rewrite located_app. apply elem_of_app. by left.
Qed.

Lemma located_fold_push ctx es es' x :
  x ∈ located_entries ctx (foldl push_new es es') ↔ x ∈ located_entries ctx es ∨ x ∈ located_entries ctx es'.
Proof.
  revert es. induction es' as [|e es' IH]; intros es; simpl.
  - split; [by left|]. by intros [?|?%not_elem_of_nil].
  - rewrite IH, located_push_new, located_app, elem_of_app.
    change (e :: es') with ([e] ++ es'). rewrite (located_app ctx [e] es'), elem_of_app. tauto.
Qed.

Lemma fold_push_elem es es' e : e ∈ foldl push_new es es' → e ∈ es ∨ e ∈ es'.
Proof.
  revert es. induction es' as [|e' es' IH]; intros es; simpl; [by left|]. intros [H|H]%IH; [|by right; right].
  unfold push_new in H. destruct (contains_entry es e'); [by left|].
  apply elem_of_app in H as [?| ->%list_elem_of_singleton]; [by left|right; by left].
Qed.
End located.

(** ** Materialization keeps the resolved entries *)

Section intersect.
Context {U UE G GE : Type} `{UL : !UrlLib U UE} `{LU : !LawfulUrl U UE} `{DG : !DenyGlobLib G GE}.
Implicit Types (p : FileSystemSandboxPolicy U) (e : FileSystemSandboxEntry U) (path : U)
  (es : list (FileSystemSandboxEntry U)) (ctx : FileSystemSandboxPolicyContext U)
  (requested granted result : FileSystemPermissions U).

Lemma resolve_entries_app ctx es1 es2 :
  resolve_entries ctx (es1 ++ es2) = resolve_entries ctx es1 ++ resolve_entries ctx es2.
Proof. apply bind_app. Qed.

Lemma resolve_materialized_paths ctx e us :
  resolve_entries ctx (map (materialized_path_entry e) us)
  = map (λ u, (u, entry_access e))
      (List.filter (λ u, bool_decide (infer_path_convention u = infer_path_convention (cx_cwd ctx))) us).
Proof.
  induction us as [|u us IH]; [done|]. simpl map. change (?x :: ?l) with ([x] ++ l) at 1.
  rewrite resolve_entries_app, IH. unfold resolve_entries, resolve_entry. simpl. by case_bool_decide.
Qed.

(** The entry resolves to at most one path, the one that permissions are
    compared by. *)
Definition single_target ctx e : Prop :=
  entry_targets ctx (entry_path e) = option_list (resolve_permission_path (entry_path e) ctx).

Lemma materialize_context_entry_spec ctx e ms :
  materialize_context_entry ctx e = Some ms →
  resolve_entries ctx ms = resolve_entry ctx e ∧ Forall (single_target ctx) ms
  ∧ Forall (λ m, entry_access m = entry_access e ∧ (is_glob m = true → is_glob e = true)
                 ∧ (is_root_entry m = true → is_root_entry e = true)) ms.
Proof.
  assert (Hone : ∀ e', resolve_entries ctx [e'] = resolve_entry ctx e').
  { intros e'. unfold resolve_entries. simpl. apply app_nil_r. }
  assert (Hpaths : ∀ us, Forall (single_target ctx) (map (materialized_path_entry e) us)
    ∧ Forall (λ m, entry_access m = entry_access e ∧ (is_glob m = true → is_glob e = true)
                   ∧ (is_root_entry m = true → is_root_entry e = true)) (map (materialized_path_entry e) us)).
  { intros us. split; apply Forall_map, Forall_true; done. }
  unfold materialize_context_entry. destruct (entry_path e) as [v|pat|[]] eqn:Ep.
  - unfold materialize_cwd_dependent_entry. rewrite Ep. intros [= <-]. rewrite Hone.
    split_and!; [done|..]; repeat constructor; try done. unfold single_target. by rewrite Ep.
  - destruct (materialize_cwd_dependent_entry e ctx) as [m|] eqn:Em.
    + intros [= <-]. unfold materialize_cwd_dependent_entry in Em. rewrite Ep in Em.
      apply bind_Some in Em as ([root pat'] & _ & Em). apply bind_Some in Em as (q & _ & [= <-]).
      rewrite Hone. unfold resolve_entry. rewrite Ep. simpl. split_and!; [done|..]; repeat constructor; try done.
      unfold is_glob. by rewrite Ep.
    + destruct (bool_decide _); [done|]. intros [= <-]. unfold resolve_entry. rewrite Ep. split_and!; done.
  - intros (r & Hr & [= <-])%bind_Some. rewrite Hone. split_and!; [done|..]; repeat constructor; try done.
    unfold single_target. by rewrite Ep.
  - unfold materialize_cwd_dependent_entry. rewrite Ep. intros [= <-]. rewrite Hone.
    split_and!; [done|..]; repeat constructor; try done. unfold single_target. by rewrite Ep.
  - destruct (_ && _); [done|]. intros [= <-]. split; [|apply Hpaths].
    rewrite resolve_materialized_paths. unfold resolve_entry. by rewrite Ep.
  - destruct (temporary_directories ctx) as [dirs|] eqn:Et.
    + intros [= <-]. split; [|apply Hpaths]. rewrite resolve_materialized_paths. unfold resolve_entry.
      rewrite Ep. simpl. by rewrite Et.
    + destruct (bool_decide _); [done|]. intros [= <-]. rewrite Hone.
      split_and!; [done|..]; repeat constructor; try done. unfold single_target. rewrite Ep. simpl. by rewrite Et.
  - unfold materialize_cwd_dependent_entry. rewrite Ep. intros [= <-]. rewrite Hone.
    split_and!; [done|..]; repeat constructor; try done. unfold single_target. rewrite Ep. simpl.
    by case_bool_decide.
  - unfold materialize_cwd_dependent_entry. rewrite Ep. intros [= <-]. rewrite Hone.
    split_and!; [done|..]; repeat constructor; try done. unfold single_target. by rewrite Ep.
Qed.

Lemma materialize_spec ctx es ms :
  materialize_context_dependent_entries es ctx = Some ms →
  resolve_entries ctx ms = resolve_entries ctx es ∧ Forall (single_target ctx) ms
  ∧ ∀ m, m ∈ ms → ∃ e, e ∈ es ∧ entry_access m = entry_access e ∧ (is_glob m = true → is_glob e = true)
                       ∧ (is_root_entry m = true → is_root_entry e = true).
Proof.
  revert ms. induction es as [|e es IH]; intros ms; simpl.
  { intros [= <-]. split_and!; [done..|]. by intros m ?%not_elem_of_nil. }
  intros (ms1 & H1 & (ms2 & H2 & [= <-])%bind_Some)%bind_Some.
  apply materialize_context_entry_spec in H1 as (E1 & F1 & A1). apply IH in H2 as (E2 & F2 & A2).
  split_and!; [rewrite resolve_entries_app, E1, E2; done|by apply Forall_app|].
  intros m [Hm|Hm]%elem_of_app.
  - rewrite Forall_forall in A1. exists e. split; [by left|]. by apply A1.
  - apply A2 in Hm as (e' & ? & ?). exists e'. split; [by right|done].
Qed.

(** ** Accepted grants and retained denials *)

Lemma placed_other ctx path l0 u l :
  placed ctx path l0 → is_clean u = true → infer_path_convention u = infer_path_convention (cx_cwd ctx) →
  location u = Some l → placed ctx u l.
Proof.
  intros (Hc & _ & _) Hcl Hi Hl. split_and!; [|done..]. unfold comparable_paths in *.
  destruct (infer_path_convention (cx_cwd ctx)) as [c|]; [simpl in *|done].
  rewrite Hi, (bool_decide_true (Some c = Some c)), (bool_decide_true (lexical_depth u ≠ None)) by
    (done || by rewrite lexical_depth_location, Hl).
  destruct (bool_decide (infer_path_convention path = Some c)); [|done].
  destruct (bool_decide (lexical_depth path ≠ None)); done.
Qed.

Definition accepts (req R : list (FileSystemSandboxEntry U)) ctx e : bool :=
  granted_file_system_entry_within_request (G:=G) req (restricted R)
    (read_deny_matcher (restricted R) ctx) e ctx.

Lemma resolved_restricted ctx es : resolved_entries (restricted es) ctx = resolve_entries ctx es.
Proof. done. Qed.

Lemma target_single ctx e u :
  single_target ctx e → u ∈ entry_targets ctx (entry_path e) → resolve_permission_path (entry_path e) ctx = Some u.
Proof.
  unfold single_target. intros ->. destruct (resolve_permission_path _ _); simpl.
  - by intros ->%list_elem_of_singleton.
  - by intros ?%not_elem_of_nil.
Qed.

Lemma accepts_target req R ctx e u :
  accepts req R ctx e = true → single_target ctx e → u ∈ entry_targets ctx (entry_path e) →
  (∀ m : PreparedReadDenyMatcher U G, read_deny_matcher (restricted R) ctx = Some m →
     is_read_denied_uri m u ctx = false)
  ∧ access_covers (resolve_access (restricted R) u ctx) (entry_access e) = true.
Proof.
  unfold accepts, granted_file_system_entry_within_request. intros Ha Hs Hu.
  rewrite (target_single _ _ _ Hs Hu) in Ha. destruct (_ || _) in Ha; [done|].
  destruct (_ && _) in Ha; [done|]. destruct (_ || _) eqn:E in Ha; [done|]. apply orb_false_iff in E as [_ E].
  split; [|done]. intros m Hm. by rewrite Hm in E.
Qed.

Lemma accepts_can_read req R ctx e : accepts req R ctx e = true → can_read (entry_access e) = true.
Proof.
  unfold accepts, granted_file_system_entry_within_request. destruct (can_read (entry_access e)); [done|].
  by simpl.
Qed.

Lemma access_covers_le b a : access_covers b a = true → cap_le a b ∧ a ≠ Deny.
Proof. by destruct a, b. Qed.

(** The request decides at an accepted location, and covers the grant. *)
Lemma accepted_decides req R Gm ctx path l0 l a :
  placed ctx path l0 → orderly (resolve_entries ctx R) = true → orderly (resolve_entries ctx Gm) = true →
  Forall (single_target ctx) Gm →
  (l, a) ∈ located_entries ctx (List.filter (accepts req R ctx) Gm) →
  can_read a = true ∧ ∃ b, decides (located_entries ctx R) l b ∧ cap_le a b.
Proof.
  intros Hp OR OG HG (e & u & He & <- & Hu & Hi & Hl)%elem_of_located.
  rewrite list_elem_of_In, filter_In, <- list_elem_of_In in He. destruct He as [He Ha].
  rewrite Forall_forall in HG.
  assert (Hin : (u, entry_access e) ∈ resolve_entries ctx Gm) by (apply elem_of_resolve_entries; eauto).
  destruct (orderly_elem _ _ _ OG Hin) as [Hcl _].
  destruct (accepts_target _ _ _ _ _ Ha (HG e He) Hu) as [_ Hcov%access_covers_le].
  split; [by eapply accepts_can_read|]. eexists. split; [|apply Hcov].
  apply (resolve_access_decides (restricted R)); [done| |done]. by eapply placed_other.
Qed.

Lemma paths_overlap_above u v lu lv l0 :
  is_clean u = true → is_clean v = true → location u = Some lu → location v = Some lv →
  above lu l0 → above lv l0 → paths_overlap u v = true.
Proof.
  intros Cu Cv Lu Lv Au Av. unfold paths_overlap, overlaps. destruct (path_uri_eqb u v); [done|].
  rewrite !lexical_depth_location, Lu, Lv. simpl. apply orb_true_iff.
  destruct (le_ge_dec (depth lu) (depth lv)) as [Hd|Hd].
  - right. apply (starts_with_above v u lv lu); [done..|]. by eapply above_linear.
  - left. apply (starts_with_above u v lu lv); [done..|]. eapply above_linear; [done..|lia].
Qed.

(** A denial that meets an accepted grant somewhere is retained. *)
Lemma deny_retained req R Gm src ctx l0 d l a :
  orderly (resolve_entries ctx Gm) = true → Forall (single_target ctx) Gm →
  orderly (resolve_entries ctx src) = true → Forall (single_target ctx) src →
  (d, Deny) ∈ located_entries ctx src → above d l0 →
  (l, a) ∈ located_entries ctx (List.filter (accepts req R ctx) Gm) → above l l0 →
  (d, Deny) ∈ located_entries ctx
    (retained_deny_entries src (foldl push_new [] (List.filter (accepts req R ctx) Gm)) ctx).
Proof.
  intros OG HG OS HS (ed & v & Hed & Hda & Hv & Hiv & Hlv)%elem_of_located Ad Hla Al.
  rewrite Forall_forall in HG, HS.
  assert (Hin : (v, Deny) ∈ resolve_entries ctx src) by (apply elem_of_resolve_entries; eauto).
  destruct (orderly_elem _ _ _ OS Hin) as [Hclv _].
  assert (Hla' : (l, a) ∈ located_entries ctx (foldl push_new [] (List.filter (accepts req R ctx) Gm)))
    by (apply located_fold_push; by right).
  apply elem_of_located in Hla' as (e & u & He & Hea & Hu & Hi & Hl).
  destruct (fold_push_elem _ _ _ He) as [?%not_elem_of_nil|He']; [done|].
  rewrite list_elem_of_In, filter_In, <- list_elem_of_In in He'. destruct He' as [HeG Hacc].
  assert (Hinu : (u, a) ∈ resolve_entries ctx Gm) by (apply elem_of_resolve_entries; eauto 10).
  destruct (orderly_elem _ _ _ OG Hinu) as [Hclu _].
  apply elem_of_located. exists ed, v. split_and!; try done.
  unfold retained_deny_entries, deny_entries. rewrite list_elem_of_In, !filter_In, <- list_elem_of_In.
  split; [split; [done|by apply bool_decide_eq_true]|].
  unfold deny_entry_constrains_accepted_grant. apply existsb_exists. exists e.
  split; [by apply list_elem_of_In|]. rewrite (accepts_can_read _ _ _ _ Hacc). simpl.
  unfold deny_constrains. destruct (is_root_entry e); [done|].
  rewrite (target_single _ _ _ (HG e HeG) Hu).
  assert (Hov : paths_overlap v u = true) by (by eapply paths_overlap_above).
  pose proof (target_single _ _ _ (HS ed Hed) Hv) as Hr.
  destruct (entry_path ed); [by rewrite Hr| |by rewrite Hr]. by apply not_elem_of_nil in Hv.
Qed.

Lemma intersect_entries requested granted ctx result :
  intersect_file_system (G:=G) requested granted ctx = Some result →
  ∃ R Gm, materialize_context_dependent_entries (perm_entries requested) ctx = Some R
    ∧ materialize_context_dependent_entries (perm_entries granted) ctx = Some Gm
    ∧ let acc := List.filter (accepts (perm_entries requested) R ctx) Gm in
      ∀ x, x ∈ located_entries ctx (perm_entries result) ↔
           x ∈ located_entries ctx acc
           ∨ x ∈ located_entries ctx (retained_deny_entries R (foldl push_new [] acc) ctx)
           ∨ x ∈ located_entries ctx (retained_deny_entries Gm (foldl push_new [] acc) ctx).
Proof.
  unfold intersect_file_system. intros (R & HR & (Gm & HG & [= <-])%bind_Some)%bind_Some.
  exists R, Gm. split_and!; [done..|]. simpl. intros x. rewrite !located_fold_push.
  split; [intros [[[?%not_elem_of_nil|?]|?]|?]; auto; done|]. intros [?|[?|?]]; auto.
Qed.

Lemma retained_elem ctx src acc l a :
  (l, a) ∈ located_entries ctx (retained_deny_entries src acc ctx) →
  a = Deny ∧ (l, Deny) ∈ located_entries ctx src.
Proof.
  intros (e & u & He & <- & Hu & Hi & Hl)%elem_of_located.
  unfold retained_deny_entries, deny_entries in He.
  rewrite list_elem_of_In, !filter_In, bool_decide_eq_true, <- list_elem_of_In in He.
  destruct He as [[He Hd] _]. split; [done|]. rewrite <- Hd. apply elem_of_located. eauto 10.
Qed.

(** ** The intersection *)

Lemma orderly_entries ctx es es' :
  orderly (resolve_entries ctx es) = true → (∀ e, e ∈ es' → e ∈ es) → orderly (resolve_entries ctx es') = true.
Proof.
  intros Ho Hsub. apply orderly_forall. intros u a (e & He & <- & Hu & Hi)%elem_of_resolve_entries.
  apply (orderly_elem _ _ (entry_access e) Ho), elem_of_resolve_entries. eauto 10.
Qed.

(** What the theorems below share: the located entries of the three policies. *)
Lemma intersect_setup requested granted ctx result path l0 :
  intersect_file_system (G:=G) requested granted ctx = Some result →
  orderly (resolved_entries (policy_of_permissions requested) ctx) = true →
  orderly (resolved_entries (policy_of_permissions granted) ctx) = true →
  placed ctx path l0 →
  ∃ R Gm, materialize_context_dependent_entries (perm_entries requested) ctx = Some R
    ∧ materialize_context_dependent_entries (perm_entries granted) ctx = Some Gm
    ∧ orderly (resolve_entries ctx R) = true ∧ orderly (resolve_entries ctx Gm) = true
    ∧ Forall (single_target ctx) R ∧ Forall (single_target ctx) Gm
    ∧ decides (located_entries ctx R) l0 (resolve_access (policy_of_permissions requested) path ctx)
    ∧ decides (located_entries ctx Gm) l0 (resolve_access (policy_of_permissions granted) path ctx)
    ∧ decides (located_entries ctx (perm_entries result)) l0
        (resolve_access (policy_of_permissions result) path ctx)
    ∧ let acc := List.filter (accepts (perm_entries requested) R ctx) Gm in
      ∀ x, x ∈ located_entries ctx (perm_entries result) ↔
           x ∈ located_entries ctx acc
           ∨ x ∈ located_entries ctx (retained_deny_entries R (foldl push_new [] acc) ctx)
           ∨ x ∈ located_entries ctx (retained_deny_entries Gm (foldl push_new [] acc) ctx).
Proof.
  intros Hi OR OG Hp. destruct (intersect_entries _ _ _ _ Hi) as (R & Gm & HR & HG & Hx).
  change (resolved_entries (policy_of_permissions ?x) ctx) with (resolve_entries ctx (perm_entries x)) in *.
  destruct (materialize_spec _ _ _ HR) as (ER & FR & _). destruct (materialize_spec _ _ _ HG) as (EG & FG & _).
  assert (OI : orderly (resolve_entries ctx (perm_entries result)) = true).
  { unfold intersect_file_system in Hi. rewrite HR, HG in Hi. simpl in Hi. injection Hi as <-. simpl.
    apply (orderly_entries ctx (Gm ++ R)); [rewrite resolve_entries_app, orderly_app, ER, EG, OR, OG; done|].
    intros e. rewrite elem_of_app. unfold retained_deny_entries, deny_entries.
    intros [[[?%not_elem_of_nil|H]%fold_push_elem|H]%fold_push_elem|H]%fold_push_elem; [done| | |];
      rewrite list_elem_of_In, ?filter_In, <- list_elem_of_In in H; tauto. }
  exists R, Gm. split_and!; try done; [by rewrite ER|by rewrite EG|..].
  - unfold located_entries. rewrite ER. by apply (resolve_access_decides (policy_of_permissions requested)).
  - unfold located_entries. rewrite EG. by apply (resolve_access_decides (policy_of_permissions granted)).
  - by apply (resolve_access_decides (policy_of_permissions result)).
Qed.

(** Where an accepted grant [l] wins, no denial of the request decides at a
    location below it. *)
Lemma no_request_deny req R Gm (I : list (loc * FileSystemAccessMode)) ctx path l0 l a m d :
  placed ctx path l0 → orderly (resolve_entries ctx R) = true → orderly (resolve_entries ctx Gm) = true →
  Forall (single_target ctx) R → Forall (single_target ctx) Gm →
  (∀ x, x ∈ located_entries ctx (retained_deny_entries R
          (foldl push_new [] (List.filter (accepts req R ctx) Gm)) ctx) → x ∈ I) →
  (l, a) ∈ located_entries ctx (List.filter (accepts req R ctx) Gm) →
  (∀ l' a', (l', a') ∈ I → above l' l0 → depth l' < depth l ∨ depth l' = depth l ∧ access_rank a' ≤ access_rank a) →
  above l m → above m l0 →
  (d, Deny) ∈ located_entries ctx R → above d m →
  ¬ ∀ l' a', (l', a') ∈ located_entries ctx R → above l' m →
      depth l' < depth d ∨ depth l' = depth d ∧ access_rank a' ≤ access_rank Deny.
Proof.
  intros Hp OR OG FR FG HI Hacc Ml Alm Am Hd Ad Md.
  destruct (accepted_decides _ _ _ _ _ _ _ _ Hp OR OG FG Hacc) as (Hra & b & Db & Hb).
  assert (Hret : (d, Deny) ∈ I).
  { apply HI. eapply (deny_retained _ _ _ _ _ l0 d l); try done; by eapply above_trans. }
  assert (Hdl : depth d < depth l).
  { destruct (Ml _ _ Hret ltac:(by eapply above_trans)) as [?|[? Hr]]; [done|]. simpl in Hr.
    by destruct a; simpl in *; [lia|lia|]. }
  assert (Adl : above d l) by (eapply above_linear; [done..|lia]).
  assert (b = Deny) as ->; [|by destruct a].
  eapply decides_det; [exact Db|]. right. exists d. split_and!; [done..|]. intros l' a' Hl' Al'.
  apply (Md l' a' Hl'). by eapply above_trans.
Qed.

(** Intersecting a grant with a request makes no path readable that the
    request itself denies: a denial of the request that meets an accepted grant is
    carried over, and a grant below it is not accepted. *)
Theorem intersect_reads_requested requested granted ctx result path l0 :
  intersect_file_system (G:=G) requested granted ctx = Some result →
  orderly (resolved_entries (policy_of_permissions requested) ctx) = true →
  orderly (resolved_entries (policy_of_permissions granted) ctx) = true →
  placed ctx path l0 →
  can_read_path (policy_of_permissions result) path ctx = true →
  can_read_path (policy_of_permissions requested) path ctx = true.
Proof.
  intros Hi OR OG Hp. unfold can_read_path.
  destruct (intersect_setup _ _ _ _ _ _ Hi OR OG Hp) as (R & Gm & _ & _ & OR' & OG' & FR & FG & DR & _ & DI & Hx).
  intros Hread. destruct DI as [[_ E]|(l & Hl & Al & Ml)]; [by rewrite E in Hread|].
  apply Hx in Hl as Hl'. destruct Hl' as [Hacc|[[E _]%retained_elem|[E _]%retained_elem]];
    [|by rewrite E in Hread..].
  destruct (accepted_decides _ _ _ _ _ _ _ _ Hp OR' OG' FG Hacc) as (_ & b & Db & Hb).
  destruct DR as [[Hn _]|(d & Hd & Ad & Md)].
  - exfalso. destruct Db as [[_ ->]|(r & Hr & Ar & _)];
      [by destruct (resolve_access (policy_of_permissions result) path ctx)|].
    eapply Hn; [done|]. by eapply above_trans.
  - destruct (resolve_access (policy_of_permissions requested) path ctx) eqn:Er; [done..|]. exfalso.
    eapply (no_request_deny _ R Gm (located_entries ctx (perm_entries result)) ctx path l0 l _ l0 d); try done.
    intros x Hxr. apply Hx. auto.
Qed.

(** Without globs a matcher denies what is below a denied root. *)
Lemma matcher_roots R ctx (m : PreparedReadDenyMatcher U G) u l :
  placed ctx u l → Forall (λ e, deny_glob_pattern e = None) R →
  read_deny_matcher (restricted R) ctx = Some m →
  is_read_denied_uri m u ctx
  = existsb (λ root, path_starts_with u root)
      (map fst (List.filter (λ '(root, access), bool_decide (access = Deny) && negb (is_file_system_root ctx root))
                  (resolve_entries ctx R))).
Proof.
  intros (Hc & _ & _) Hng. unfold read_deny_matcher. destruct (existsb _ _); [|done].
  unfold prepare_deny_read_matcher, deny_read_globs. simpl.
  assert (omap deny_glob_pattern R = []) as ->.
  { induction Hng as [|e R He _ IH]; [done|]. simpl. by rewrite He. }
  simpl. unfold comparable_paths in Hc.
  destruct (infer_path_convention (cx_cwd ctx)) eqn:Ei; [simpl in *|done]. intros [= <-].
  unfold is_read_denied_uri, matches_prepared_read_deny, comparable_paths. rewrite Ei. simpl.
  destruct (_ && _) eqn:E; [|done]. simpl. by rewrite orb_false_r.
Qed.

(** Why a grant that could be read is not accepted. *)
Lemma not_accepted req R ctx e u :
  accepts req R ctx e = false → single_target ctx e → u ∈ entry_targets ctx (entry_path e) →
  infer_path_convention u = infer_path_convention (cx_cwd ctx) → can_read (entry_access e) = true →
  (infer_path_convention (cx_cwd ctx) = Some Windows ∧ is_root_entry e = true)
  ∨ (∃ m : PreparedReadDenyMatcher U G, read_deny_matcher (restricted R) ctx = Some m
       ∧ is_read_denied_uri m u ctx = true)
  ∨ access_covers (resolve_access (restricted R) u ctx) (entry_access e) = false.
Proof.
  unfold accepts, granted_file_system_entry_within_request. intros Ha Hs Hu Hi Hr.
  rewrite (target_single _ _ _ Hs Hu), Hr, Hi in Ha. simpl in Ha.
  destruct (is_special SpSlashTmp (entry_path e) && _) eqn:E1 in Ha.
  { apply andb_true_iff in E1 as [E1 E2]. destruct (entry_path e) as [|?|v]; [done..|].
    apply bool_decide_eq_true in E1 as ->. simpl in Hu. apply negb_true_iff in E2. rewrite E2 in Hu.
    by apply not_elem_of_nil in Hu. }
  destruct (bool_decide (infer_path_convention (cx_cwd ctx) = Some Windows) && _ && _) eqn:E2 in Ha.
  { apply andb_true_iff in E2 as [[?%bool_decide_eq_true ?]%andb_true_iff _]. auto. }
  rewrite bool_decide_true in Ha by done. simpl in Ha.
  destruct (read_deny_matcher (restricted R) ctx) as [m|] eqn:Em; [|auto].
  destruct (is_read_denied_uri m u ctx) eqn:Ed; [eauto|auto].
Qed.

Lemma starts_with_located u v l :
  is_clean u = true → is_clean v = true → location u = Some l →
  lexical_depth v ≠ None ∨ is_opaque v = true →
  path_starts_with u v = true → ∃ d, location v = Some d ∧ above d l.
Proof.
  intros Cu Cv Lu Hv Hs. destruct (location v) as [d|] eqn:Lv.
  { exists d. split; [done|]. by apply (starts_with_above u v l d). }
  exfalso. unfold path_starts_with in Hs. destruct (path_uri_eqb u v) eqn:E.
  { apply path_uri_eqb_same in E as [E _]. congruence. }
  destruct Hv as [Hv|Hv]; [by rewrite lexical_depth_location, Lv in Hv|].
  unfold is_opaque in Hv. change (opaque_fallback_bytes v) with (decode_bad_path_uri v) in Hv.
  by rewrite Hv, orb_true_r in Hs.
Qed.

(** Where an accepted grant [l] wins, no denied root is above a location below it. *)
Lemma no_matcher_deny req R Gm (I : list (loc * FileSystemAccessMode)) ctx path l0 l a u m
    (mt : PreparedReadDenyMatcher U G) :
  placed ctx path l0 → orderly (resolve_entries ctx R) = true → orderly (resolve_entries ctx Gm) = true →
  Forall (single_target ctx) R → Forall (single_target ctx) Gm →
  Forall (λ e, deny_glob_pattern e = None) R →
  (∀ x, x ∈ located_entries ctx (retained_deny_entries R
          (foldl push_new [] (List.filter (accepts req R ctx) Gm)) ctx) → x ∈ I) →
  (l, a) ∈ located_entries ctx (List.filter (accepts req R ctx) Gm) →
  (∀ l' a', (l', a') ∈ I → above l' l0 → depth l' < depth l ∨ depth l' = depth l ∧ access_rank a' ≤ access_rank a) →
  above m l0 → above l l0 → placed ctx u m →
  read_deny_matcher (restricted R) ctx = Some mt → is_read_denied_uri mt u ctx = false.
Proof.
  intros Hp OR OG FR FG Hng HI Hacc Ml Am Al Hpu Hmt.
  destruct (is_read_denied_uri mt u ctx) eqn:Hden; [exfalso|done].
  rewrite (matcher_roots R ctx mt u m Hpu Hng Hmt) in Hden.
  apply existsb_exists in Hden as (v & ([v' x] & Ev & Hv)%in_map_iff & Hsw). simpl in Ev. subst v'.
  pose proof Hv as Hv'. apply filter_In in Hv' as [Hin%list_elem_of_In [->%bool_decide_eq_true _]%andb_true_iff].
  destruct (orderly_elem _ _ _ OR Hin) as [Clv Hlv]. destruct Hpu as (_ & Clu & Lu).
  destruct (starts_with_located _ _ _ Clu Clv Lu Hlv Hsw) as (d & Ld & Ad).
  assert (Hd : (d, Deny) ∈ located_entries ctx R) by (apply elem_of_locate_all; eauto).
  assert (Adl0 : above d l0) by (by eapply above_trans).
  assert (Hret : (d, Deny) ∈ I) by (apply HI; by eapply (deny_retained _ _ _ _ _ l0 d l)).
  destruct (accepted_decides _ _ _ _ _ _ _ _ Hp OR OG FG Hacc) as (Hra & _).
  assert (Hdl : depth d < depth l).
  { destruct (Ml _ _ Hret Adl0) as [?|[? Hr]]; [done|]. simpl in Hr. by destruct a; simpl in *; [lia|lia|]. }
  assert (Adl : above d l) by (eapply above_linear; [done..|lia]).
  apply elem_of_located in Hacc as (e & w & He & Hea & Hw & Hiw & Lw).
  rewrite list_elem_of_In, filter_In, <- list_elem_of_In in He. destruct He as [He Ha].
  rewrite Forall_forall in FG. destruct (accepts_target _ _ _ _ _ Ha (FG e He) Hw) as [Hnd _].
  assert (Hinw : (w, a) ∈ resolve_entries ctx Gm) by (apply elem_of_resolve_entries; eauto 10).
  destruct (orderly_elem _ _ _ OG Hinw) as [Clw _].
  assert (Hpw : placed ctx w l) by (by eapply placed_other).
  specialize (Hnd mt Hmt). rewrite (matcher_roots R ctx mt w l Hpw Hng Hmt) in Hnd.
  rewrite (proj2 (existsb_exists _ _)) in Hnd; [done|]. exists v.
  split; [apply in_map_iff; by exists (v, Deny)|]. by apply (starts_with_above w v l d).
Qed.

(** C17. Intersecting a grant with a request gives no path a capability that the
    grant does not give: the entries of the result are entries of the grant and
    denials, and an entry of the grant that narrows another one is dropped only
    where a denial of the request takes its place. This is so of paths and
    entries that can be compared with the context, if the request has no denial by a
    glob, which does not count among the entries, and, on Windows, the
    grant does not name the root. *)
Theorem intersect_within_grant requested granted ctx result path l0 :
  intersect_file_system (G:=G) requested granted ctx = Some result →
  orderly (resolved_entries (policy_of_permissions requested) ctx) = true →
  orderly (resolved_entries (policy_of_permissions granted) ctx) = true →
  Forall (λ e, is_glob e = false) (perm_entries requested) →
  (infer_path_convention (cx_cwd ctx) = Some Windows →
     Forall (λ e, is_root_entry e = false) (perm_entries granted)) →
  placed ctx path l0 →
  cap_le (resolve_access (policy_of_permissions result) path ctx)
         (resolve_access (policy_of_permissions granted) path ctx).
Proof.
  intros Hi OR OG Hng Hw Hp.
  destruct (intersect_setup _ _ _ _ _ _ Hi OR OG Hp)
    as (R & Gm & HR & HG & OR' & OG' & FR & FG & _ & DG' & DI & Hx).
  destruct DI as [[_ ->]|(l & Hl & Al & Ml)]; [done|]. apply Hx in Hl as Hl'.
  destruct Hl' as [Hacc|[[-> _]%retained_elem|[-> _]%retained_elem]]; [|done..].
  destruct (accepted_decides _ _ _ _ _ _ _ _ Hp OR' OG' FG Hacc) as (Hra & b & Db & Hb).
  set (a := resolve_access (policy_of_permissions result) path ctx) in *.
  set (g := resolve_access (policy_of_permissions granted) path ctx) in *.
  assert (HlG : (l, a) ∈ located_entries ctx Gm).
  { apply elem_of_located in Hacc as (e & u & He & Hrest). apply elem_of_located. exists e, u.
    rewrite list_elem_of_In, filter_In, <- list_elem_of_In in He. tauto. }
  destruct DG' as [[Hn _]|(m & Hm & Am & Mm)]; [by destruct (Hn l a)|].
  (* a denial of the grant would be retained *)
  destruct (decide (g = Deny)) as [Eg|Hgd].
  { exfalso. assert (Hret : (m, Deny) ∈ located_entries ctx (perm_entries result)).
    { apply Hx. right. right. rewrite Eg in Hm. by eapply (deny_retained _ _ _ _ _ l0 m l). }
    specialize (Ml _ _ Hret Am). specialize (Mm _ _ HlG Al). rewrite Eg in Mm. simpl in *.
    destruct a; simpl in *; try done; lia. }
  destruct (decide (cap_le a g)) as [?|Hbad]; [done|exfalso].
  assert (Ea : a = Write) by (by destruct a, g). assert (Eg : g = Read) by (by destruct a, g).
  rewrite Eg in *. specialize (Mm _ _ HlG Al) as Hlm. rewrite Ea in Hlm. simpl in Hlm.
  assert (Alm : above l m) by (eapply above_linear; [done..|lia]).
  apply elem_of_located in Hm as (e & u & He & Hea & Hu & Hiu & Hlu).
  assert (Hin : (u, Read) ∈ resolve_entries ctx Gm) by (apply elem_of_resolve_entries; eauto 10).
  destruct (orderly_elem _ _ _ OG' Hin) as [Hclu _].
  assert (Hpu : placed ctx u m) by (by eapply placed_other).
  destruct (accepts (perm_entries requested) R ctx e) eqn:Eacc.
  { assert (Hret : (m, Read) ∈ located_entries ctx (perm_entries result)).
    { apply Hx. left. apply elem_of_located. exists e, u. split_and!; [|done..].
      rewrite list_elem_of_In, filter_In, <- list_elem_of_In. done. }
    specialize (Ml _ _ Hret Am). rewrite Ea in Ml. simpl in Ml. lia. }
  rewrite Forall_forall in FG. apply not_accepted with (u := u) in Eacc as [[Ew Er]|[(mt & Hmt & Hden)|Hcov]];
    [| | |by apply FG|done|done|by rewrite Hea].
  - destruct (materialize_spec _ _ _ HG) as (_ & _ & Hmat). destruct (Hmat e He) as (e' & He' & _ & _ & Hroot).
    specialize (Hw Ew). rewrite Forall_forall in Hw. specialize (Hw e' He'). rewrite Hroot in Hw; done.
  - destruct (materialize_spec _ _ _ HR) as (_ & _ & Hmat).
    rewrite (no_matcher_deny (perm_entries requested) R Gm (located_entries ctx (perm_entries result))
               ctx path l0 l a u m mt) in Hden; try done; [by apply Forall_forall| |by intros x ?; apply Hx; auto].
    apply Forall_forall. intros r (e' & He' & _ & Hgl & _)%Hmat. rewrite Forall_forall in Hng.
    specialize (Hng e' He'). unfold deny_glob_pattern. unfold is_glob in Hng, Hgl.
    destruct (bool_decide _); [|done]. destruct (entry_path r); try done. by rewrite Hgl in Hng.
  - assert (Dm : decides (located_entries ctx R) m (resolve_access (restricted R) u ctx))
      by (by apply (resolve_access_decides (restricted R))).
    rewrite Hea in Hcov. assert (Ed : resolve_access (restricted R) u ctx = Deny)
      by (by destruct (resolve_access (restricted R) u ctx)).
    rewrite Ed in Dm. destruct Dm as [[Hn _]|(d & Hd & Ad & Md)].
    + rewrite Ea in Hb. destruct Db as [[_ ->]|(r & Hr & Ar & _)]; [done|].
      eapply Hn; [done|]. by eapply above_trans.
    + eapply (no_request_deny (perm_entries requested) R Gm (located_entries ctx (perm_entries result))
                ctx path l0 l a m d); try done; [by apply Forall_forall|]. intros x ?. apply Hx. auto.
Qed.
End intersect.

(** * Overlays, preserved denials and full-disk policies

    Laying additional permissions over a policy changes the access only where
    an additional entry is at least as specific as the entries of the policy;
    earlier grants and later ones are merged to the same effect. A policy with
    full-disk write access gives it to every POSIX path. A path inside protected
    metadata is written only through an entry inside it. *)

(** [l] is as specific as every entry of [es] that covers [l0]. *)
Definition outranks (es : list (loc * FileSystemAccessMode)) (l0 l : loc) (a : FileSystemAccessMode) : Prop :=
  ∀ l' a', (l', a') ∈ es → above l' l0 →
    depth l' < depth l ∨ depth l' = depth l ∧ access_rank a' ≤ access_rank a.

(** Two groups of entries: one of them decides. *)
Lemma decides_app es1 es2 l0 a :
  decides (es1 ++ es2) l0 a →
  decides es1 l0 a ∨ ∃ l, (l, a) ∈ es2 ∧ above l l0 ∧ outranks es1 l0 l a ∧ outranks es2 l0 l a.
Proof.
  intros [[Hn ->]|(l & Hl & Al & Ml)].
  - left. left. split; [|done]. intros l a' Hl. apply (Hn l a'), elem_of_app. by left.
  - assert (M : ∀ es, (∀ x, x ∈ es → x ∈ es1 ++ es2) → outranks es l0 l a).
    { intros es Hs l' a' Hl' Al'. apply Ml; [by apply Hs|done]. }
    apply elem_of_app in Hl as [Hl|Hl].
    + left. right. exists l. split_and!; [done..|]. apply (M es1). intros x Hx. apply elem_of_app. by left.
    + right. exists l. split_and!; [done..| |]; apply M; intros x Hx; apply elem_of_app; auto.
Qed.

Section overlay.
Context {U UE : Type} `{UL : !UrlLib U UE} `{LU : !LawfulUrl U UE}.
Implicit Types (p : FileSystemSandboxPolicy U) (e : FileSystemSandboxEntry U) (path : U)
  (es : list (FileSystemSandboxEntry U)) (ctx : FileSystemSandboxPolicyContext U)
  (fs : FileSystemPermissions U) (ap : AdditionalPermissionProfile U).

Lemma orderly_fold_push ctx es es' :
  orderly (resolve_entries ctx es) = true → orderly (resolve_entries ctx es') = true →
  orderly (resolve_entries ctx (foldl push_new es es')) = true.
Proof.
  intros H1 H2. apply (orderly_entries ctx (es ++ es')).
  - unfold resolve_entries in *. by rewrite bind_app, orderly_app, H1, H2.
  - intros e [?|?]%fold_push_elem; apply elem_of_app; auto.
Qed.

(** The effective policy decides as the entries of both. *)
Lemma effective_decides p ap fs path ctx l0 :
  fs_kind p = Restricted → ap_file_system ap = Some fs →
  orderly (resolved_entries p ctx) = true → orderly (resolve_entries ctx (perm_entries fs)) = true →
  placed ctx path l0 →
  decides (located p ctx ++ located_entries ctx (perm_entries fs)) l0
    (resolve_access (effective_file_system_sandbox_policy p (Some ap)) path ctx).
Proof.
  intros Hk Hfs Op Of Hp. unfold effective_file_system_sandbox_policy. simpl. rewrite Hfs.
  destruct (permissions_is_empty fs) eqn:E.
  - unfold permissions_is_empty in E. destruct (perm_entries fs); [|done].
    change (located_entries ctx []) with ([] : list (loc * FileSystemAccessMode)). rewrite app_nil_r.
    by apply resolve_access_decides.
  - unfold merge_file_system_policy_with_additional_permissions. rewrite Hk.
    eapply decides_set; [|apply resolve_access_decides; [done|exact Hp|by apply orderly_fold_push]].
    intros x. unfold located at 1. simpl.
    change (locate_all _) with (located_entries ctx (foldl push_new (fs_entries p) (perm_entries fs))).
    by rewrite located_fold_push, elem_of_app.
Qed.

(** Laying additional permissions over a policy changes the access of a path
    only through an additional entry that covers the path and is at least as
    specific as every entry of the policy that does (deeper, or at the same place
    and of no lower precedence). A denial of the policy therefore stays a denial
    unless the path lies below a deeper additional entry. *)
Theorem overlay_access p ap fs path ctx l0 :
  fs_kind p = Restricted → ap_file_system ap = Some fs →
  orderly (resolved_entries p ctx) = true → orderly (resolve_entries ctx (perm_entries fs)) = true →
  placed ctx path l0 →
  let access := resolve_access (effective_file_system_sandbox_policy p (Some ap)) path ctx in
  (access = resolve_access p path ctx
   ∨ ∃ l, (l, access) ∈ located_entries ctx (perm_entries fs) ∧ above l l0
          ∧ outranks (located p ctx) l0 l access)
  ∧ (∀ d, (d, Deny) ∈ located p ctx → above d l0 →
       (∀ l a, (l, a) ∈ located p ctx ++ located_entries ctx (perm_entries fs) →
          above l l0 → can_read a = true → depth l ≤ depth d) → access = Deny).
Proof.
  intros Hk Hfs Op Of Hp access.
  pose proof (effective_decides p ap fs path ctx l0 Hk Hfs Op Of Hp) as D. split.
  - destruct (decides_app _ _ _ _ D) as [D1|(l & Hl & Al & M & _)]; [left|right; eauto].
    eapply decides_det; [exact D1|]. by apply resolve_access_decides.
  - intros d Hd Ad Hmax. eapply (decides_deny _ _ _ d); [exact D| |done|].
    + apply elem_of_app. by left.
    + intros l' a' Hl' Al' Hr. by eapply Hmax.
Qed.

(** ** Merged grants *)

#[local] Arguments keep : simpl never.

(** The entries an overlay contributes. *)
Definition overlay_entries (o : option (AdditionalPermissionProfile U)) : list (FileSystemSandboxEntry U) :=
  from_option perm_entries [] (o ≫= ap_file_system).

(** A policy whose entries amount to those of [es]. *)
Definition amounts_to ctx p es : Prop :=
  fs_kind p = Restricted ∧ orderly (resolved_entries p ctx) = true
  ∧ ∀ x, x ∈ located p ctx ↔ x ∈ located_entries ctx es.

Lemma amounts_to_access p q es path ctx l0 :
  amounts_to ctx p es → amounts_to ctx q es → placed ctx path l0 →
  resolve_access p path ctx = resolve_access q path ctx.
Proof.
  intros (Kp & Op & Sp) (Kq & Oq & Sq) Hp. eapply decides_det; [by apply resolve_access_decides|].
  eapply decides_set; [|by apply resolve_access_decides]. intros x. by rewrite Sp, Sq.
Qed.

Lemma effective_amounts p o es ctx :
  amounts_to ctx p es → orderly (resolve_entries ctx (overlay_entries o)) = true →
  amounts_to ctx (effective_file_system_sandbox_policy p o) (es ++ overlay_entries o).
Proof.
  intros (Kp & Op & Sp) Oo. unfold effective_file_system_sandbox_policy, overlay_entries in *.
  destruct (o ≫= ap_file_system) as [fs|]; simpl in *; [|by rewrite app_nil_r].
  unfold permissions_is_empty, merge_file_system_policy_with_additional_permissions.
  destruct (perm_entries fs) as [|e fes]; [by rewrite app_nil_r|]. rewrite Kp. split_and!; [done| |].
  - by apply orderly_fold_push.
  - intros x. change (located _ ctx) with (located_entries ctx (foldl push_new (fs_entries p) (e :: fes))).
    rewrite located_fold_push, located_app, elem_of_app, <- Sp. done.
Qed.

Lemma overlay_keep ap :
  overlay_entries (keep (λ ap, negb (profile_is_empty ap)) (Some ap)) = overlay_entries (Some ap).
Proof.
  unfold keep, profile_is_empty, overlay_entries. simpl. destruct (bool_decide (ap_network ap = None)); simpl; [|done].
  by destruct (ap_file_system ap) eqn:E; simpl; rewrite ?E.
Qed.

Lemma entries_keep fs :
  from_option perm_entries [] (keep (λ fs, negb (permissions_is_empty fs)) (Some fs)) = perm_entries fs.
Proof. unfold keep, permissions_is_empty. simpl. by destruct (perm_entries fs) eqn:E; simpl; rewrite ?E. Qed.

Lemma overlay_merge base permissions :
  let es := overlay_entries (merge_permission_profiles base permissions) in
  es = merge_permission_entries (overlay_entries base) (overlay_entries permissions)
  ∨ overlay_entries permissions = [] ∧ es = overlay_entries base
  ∨ overlay_entries base = [] ∧ es = overlay_entries permissions.
Proof.
  destruct permissions as [a|]; [|by right; left]. destruct base as [b|]; simpl.
  2:{ right. right. split; [done|]. apply overlay_keep. }
  rewrite overlay_keep. unfold overlay_entries. simpl.
  destruct (ap_file_system b) as [fb|], (ap_file_system a) as [fa|]; simpl; auto.
  left. apply entries_keep.
Qed.

Lemma merge_overlay_entries base permissions ctx x :
  x ∈ located_entries ctx (overlay_entries (merge_permission_profiles base permissions))
  ↔ x ∈ located_entries ctx (overlay_entries base) ∨ x ∈ located_entries ctx (overlay_entries permissions).
Proof.
  assert (Hnil : x ∉ located_entries ctx []) by apply not_elem_of_nil.
  destruct (overlay_merge base permissions) as [->|[[E ->]|[E ->]]]; [|rewrite E; tauto..].
  unfold merge_permission_entries. rewrite located_fold_push, located_app, elem_of_app. tauto.
Qed.

Lemma overlay_merge_subset base permissions e :
  e ∈ overlay_entries (merge_permission_profiles base permissions) →
  e ∈ overlay_entries base ∨ e ∈ overlay_entries permissions.
Proof.
  destruct (overlay_merge base permissions) as [->|[[_ ->]|[_ ->]]]; [|auto..].
  unfold merge_permission_entries. intros [?%not_elem_of_nil|?%elem_of_app]%fold_push_elem; done.
Qed.

Definition grants_network (o : option (AdditionalPermissionProfile U)) : bool :=
  from_option (λ ap, default false (ap_network ap ≫= network_enabled)) false o.

Lemma effective_network_grants network o :
  effective_network_sandbox_policy network o
  = if network_is_enabled network || grants_network o then NetEnabled else NetRestricted.
Proof.
  unfold effective_network_sandbox_policy, merge_network_access. destruct o as [ap|]; simpl; [done|].
  rewrite orb_false_r. by destruct network.
Qed.

Lemma grants_network_merge base permissions :
  grants_network (merge_permission_profiles base permissions) = grants_network base || grants_network permissions.
Proof.
  assert (Hk : ∀ ap, grants_network (keep (λ ap, negb (profile_is_empty ap)) (Some ap)) = grants_network (Some ap)).
  { intros ap. unfold keep, profile_is_empty. simpl. destruct (bool_decide (ap_network ap = None)) eqn:E; simpl; [|done].
    apply bool_decide_eq_true in E. destruct (ap_file_system ap); [done|]. unfold grants_network. simpl. by rewrite E. }
  assert (He : ∀ ap : AdditionalPermissionProfile U,
    bool_decide (ap_network ap = Some enabled_network) = grants_network (Some ap)).
  { intros ap. unfold grants_network, enabled_network. simpl. destruct (ap_network ap) as [[[[]|]]|]; done. }
  destruct permissions as [a|]; [|by rewrite orb_false_r]. destruct base as [b|]; simpl; [|apply Hk].
  rewrite Hk, !He. unfold grants_network at 1. simpl. by destruct (_ || _).
Qed.

(** Merging an earlier grant with a later one and laying the result over a
    policy gives every path the access, and the turn the network, that laying
    them over it one after the other does. *)
Theorem merged_grants_overlay p (base permissions : option (AdditionalPermissionProfile U)) network path ctx l0 :
  fs_kind p = Restricted → orderly (resolved_entries p ctx) = true →
  orderly (resolve_entries ctx (overlay_entries base)) = true →
  orderly (resolve_entries ctx (overlay_entries permissions)) = true →
  placed ctx path l0 →
  resolve_access (effective_file_system_sandbox_policy p (merge_permission_profiles base permissions)) path ctx
    = resolve_access (effective_file_system_sandbox_policy
                        (effective_file_system_sandbox_policy p base) permissions) path ctx
  ∧ effective_network_sandbox_policy network (merge_permission_profiles base permissions)
    = effective_network_sandbox_policy (effective_network_sandbox_policy network base) permissions.
Proof.
  intros Hk Op Ob Oa Hp. split.
  - assert (A0 : amounts_to ctx p (fs_entries p)) by done.
    eapply (amounts_to_access _ _ (fs_entries p ++ overlay_entries base ++ overlay_entries permissions)); [| |done].
    + destruct (effective_amounts p (merge_permission_profiles base permissions) _ ctx A0) as (K & O & S).
      { apply (orderly_entries ctx (overlay_entries base ++ overlay_entries permissions)).
        - unfold resolve_entries in *. by rewrite bind_app, orderly_app, Ob, Oa.
        - intros e ?%overlay_merge_subset. by apply elem_of_app. }
      split_and!; [done..|]. intros x. by rewrite S, !located_app, !elem_of_app, merge_overlay_entries.
    + rewrite app_assoc. by apply effective_amounts, Oa; apply effective_amounts.
  - rewrite !effective_network_grants, grants_network_merge.
    destruct network, (grants_network base), (grants_network permissions); done.
Qed.
End overlay.
