(* ===== verification/FsProfile.v ===== *)
(** * Permission profiles

    Models the permission profile of [protocol/src/models.rs], the conversion
    between profiles and the policies they stand for, the workspace-write and
    read-only profiles, [effective_permission_profile] of
    [sandboxing/src/policy_transforms.rs] and the choice of a sandbox in
    [sandboxing/src/manager.rs]. A path of the host ([AbsolutePathBuf]) is named
    by the URI that stands for it; what [workspace_write] reads of the host's
    files is a [HostFiles]. *)

From S2P Require Import Prelude RustStr Utf8 PathConvention PathUri PathText FsPolicy FsDeny FsTransform.
From S2P Require Import PathUriFacts FsPolicyFacts.
Open Scope list_scope.

Inductive SandboxPermissions := UseDefault | RequireEscalated | WithAdditionalPermissions.

#[global] Instance SandboxPermissions_eq : EqDecision SandboxPermissions.
Proof. solve_decision. Defined.

Definition requires_escalated_permissions (s : SandboxPermissions) : bool :=
  match s with RequireEscalated => true | _ => false end.
Definition requests_sandbox_override (s : SandboxPermissions) : bool :=
  match s with UseDefault => false | _ => true end.
Definition uses_additional_permissions (s : SandboxPermissions) : bool :=
  match s with WithAdditionalPermissions => true | _ => false end.

Inductive SandboxEnforcement := EnManaged | EnDisabled | EnExternal.

#[global] Instance SandboxEnforcement_eq : EqDecision SandboxEnforcement.
Proof. solve_decision. Defined.

Inductive ManagedFileSystemPermissions (U : Type) :=
  | MfsRestricted (entries : list (FileSystemSandboxEntry U)) (glob_scan_max_depth : option nat)
  | MfsUnrestricted.
Arguments MfsRestricted {U} entries glob_scan_max_depth.
Arguments MfsUnrestricted {U}.

Inductive PermissionProfile (U : Type) :=
  | Managed (file_system : ManagedFileSystemPermissions U) (network : NetworkSandboxPolicy)
  | Disabled
  | External (network : NetworkSandboxPolicy).
Arguments Managed {U} file_system network.
Arguments Disabled {U}.
Arguments External {U} network.

(** What the program asks the host: the home directory and the file system. *)
Record HostFiles (U : Type) := {
  home_directory : option U;
  is_file : U → bool;
  is_dir : U → bool;
  path_exists : U → bool;
  read_to_string : U → option str
}.
Arguments home_directory {U} h.
Arguments is_file {U} h _.
Arguments is_dir {U} h _.
Arguments path_exists {U} h _.
Arguments read_to_string {U} h _.

Section profiles.
Context {U UE : Type} `{UL : !UrlLib U UE}.
Implicit Types (p : FileSystemSandboxPolicy U) (pr : PermissionProfile U) (host : HostFiles U)
  (es : list (FileSystemSandboxEntry U)).

(** ** Conversions *)

(** [None] is the [unreachable!] for external policies. *)
Definition from_sandbox_policy p : option (ManagedFileSystemPermissions U) :=
  match fs_kind p with
  | Restricted => Some (MfsRestricted (fs_entries p) (glob_scan_max_depth p ≫= nonzero))
  | Unrestricted => Some MfsUnrestricted
  | ExternalSandbox => None
  end.

Definition to_sandbox_policy (m : ManagedFileSystemPermissions U) : FileSystemSandboxPolicy U :=
  match m with
  | MfsRestricted entries depth =>
      {| fs_kind := Restricted; glob_scan_max_depth := depth; fs_entries := entries |}
  | MfsUnrestricted => unrestricted
  end.

Definition enforcement pr : SandboxEnforcement :=
  match pr with Managed _ _ => EnManaged | Disabled => EnDisabled | External _ => EnExternal end.

Definition file_system_sandbox_policy pr : FileSystemSandboxPolicy U :=
  match pr with
  | Managed file_system _ => to_sandbox_policy file_system
  | Disabled => unrestricted
  | External _ => external_sandbox
  end.

Definition network_sandbox_policy pr : NetworkSandboxPolicy :=
  match pr with Managed _ network | External network => network | Disabled => NetEnabled end.

Definition to_runtime_permissions pr : FileSystemSandboxPolicy U * NetworkSandboxPolicy :=
  (file_system_sandbox_policy pr, network_sandbox_policy pr).

Definition from_runtime_permissions_with_enforcement (enforcement : SandboxEnforcement) p
    (network : NetworkSandboxPolicy) : option (PermissionProfile U) :=
  match fs_kind p with
  | ExternalSandbox => Some (External network)
  | Unrestricted =>
      if bool_decide (enforcement = EnDisabled) then Some Disabled
      else (λ m, Managed m network) <$> from_sandbox_policy p
  | Restricted => (λ m, Managed m network) <$> from_sandbox_policy p
  end.

Definition from_runtime_permissions p (network : NetworkSandboxPolicy) : option (PermissionProfile U) :=
  let enforcement := match fs_kind p with
                     | Restricted | Unrestricted => EnManaged
                     | ExternalSandbox => EnExternal
                     end in
  from_runtime_permissions_with_enforcement enforcement p network.

(** ** Read-only profiles *)

Definition read_only_profile : option (PermissionProfile U) :=
  (λ m, Managed m NetRestricted) <$> from_sandbox_policy read_only.

Definition read_only_access (a : FileSystemAccessMode) : FileSystemAccessMode :=
  match a with Read | Write => Read | Deny => Deny end.

Definition read_only_entry (e : FileSystemSandboxEntry U) : FileSystemSandboxEntry U :=
  {| entry_path := entry_path e; entry_access := read_only_access (entry_access e);
     missing_path_behavior := missing_path_behavior e |}.

Definition intersect_with_read_only pr : option (PermissionProfile U) :=
  let file_system := file_system_sandbox_policy pr in
  match fs_kind file_system with
  | Restricted =>
      from_runtime_permissions
        (with_entries file_system (map read_only_entry (fs_entries file_system))) NetRestricted
  | Unrestricted => from_runtime_permissions read_only NetRestricted
  | ExternalSandbox => None
  end.

(** ** Workspace-write profiles *)

Definition append_default_read_only_entry_if_no_explicit_rule (native : PathConvention) es
    (path : FileSystemPath U) : list (FileSystemSandboxEntry U) :=
  if existsb (λ e, file_system_paths_share_target (entry_path e) path native) es then es
  else es ++ [skip_missing_path path Read].

Definition append_default_read_only_project_root_subpath_if_no_explicit_rule (native : PathConvention)
    es (subpath : str) : list (FileSystemSandboxEntry U) :=
  append_default_read_only_entry_if_no_explicit_rule native es
    (FsSpecial (SpProjectRoots (Some subpath))).

(** The path that [~] stands for; [None] when the text does not start with it. *)
Definition maybe_expand_home_directory (native : PathConvention) host (path : str) : option (res (PathUriParseError UE) U) :=
  rest ← strip_prefix (lit "~") path;
  home ← home_directory host;
  if bool_decide (rest = []) then Some (Ok home)
  else if starts_with [c_slash] rest then Some (path_uri_join home (drop_while (N.eqb c_slash) rest))
  else if bool_decide (native = Windows) && starts_with [c_backslash] rest
  then Some (path_uri_join home (drop_while (N.eqb c_backslash) rest))
  else None.

(** [None] stands for text that names no file of the host, as text with a NUL;
    on Windows also for text relative to the directory of another drive, which
    the code puts below the base's directories on that drive. *)
Definition resolve_path_against_base (native : PathConvention) host (path : str) (base_path : U) : option U :=
  res_ok (default (path_uri_join base_path path) (maybe_expand_home_directory native host path)).

Definition is_git_pointer_file host (path : U) : bool :=
  is_file host path && bool_decide (basename path = Some (lit ".git")).

Definition resolve_gitdir_from_file (native : PathConvention) host (dot_git : U) : option U :=
  contents ← read_to_string host dot_git;
  '(prefix, gitdir_raw) ← split_once c_colon (trim contents);
  if bool_decide (trim prefix = lit "gitdir") then
    let gitdir_raw := trim gitdir_raw in
    if bool_decide (gitdir_raw = []) then None
    else base ← parent dot_git;
         gitdir_path ← resolve_path_against_base native host gitdir_raw base;
         if path_exists host gitdir_path then Some gitdir_path else None
  else None.

Definition dedup_absolute_paths (paths : list U) : list U :=
  foldl (λ deduped path, if bool_decide (path ∈ deduped) then deduped else deduped ++ [path]) [] paths.

Definition host_join (root : U) (name : str) : list U := option_list (res_ok (path_uri_join root name)).

Definition default_read_only_subpaths_for_writable_root (native : PathConvention) host (writable_root : U)
    (protect_missing_dot_codex : bool) : list U :=
  dedup_absolute_paths
    ((top_level_git ← host_join writable_root (lit ".git");
      let top_level_git_is_file := is_file host top_level_git in
      if is_dir host top_level_git || top_level_git_is_file then
        (if top_level_git_is_file && is_git_pointer_file host top_level_git
         then option_list (resolve_gitdir_from_file native host top_level_git) else [])
        ++ [top_level_git]
      else [])
     ++ List.filter (is_dir host) (host_join writable_root (lit ".agents"))
     ++ List.filter (λ top_level_codex, protect_missing_dot_codex || is_dir host top_level_codex)
          (host_join writable_root (lit ".codex"))).

Definition append_default_read_only_path_if_no_explicit_rule (native : PathConvention) es (path : U)
    : list (FileSystemSandboxEntry U) :=
  append_default_read_only_entry_if_no_explicit_rule native es (FsPath path).

Definition workspace_write (native : PathConvention) host (writable_roots : list U)
    (exclude_tmpdir_env_var exclude_slash_tmp : bool) : FileSystemSandboxPolicy U :=
  let entries :=
    [entry_new (FsSpecial SpRoot) Read; entry_new (FsSpecial (SpProjectRoots None)) Write]
    ++ (if exclude_slash_tmp then [] else [entry_new (FsSpecial SpSlashTmp) Write])
    ++ (if exclude_tmpdir_env_var then [] else [entry_new (FsSpecial SpTmpdir) Write])
    ++ map (λ path, entry_new (FsPath path) Write) writable_roots in
  let entries :=
    foldl (append_default_read_only_project_root_subpath_if_no_explicit_rule native) entries
      [lit ".git"; lit ".agents"; lit ".codex"] in
  restricted
    (foldl (λ entries writable_root,
              foldl (append_default_read_only_path_if_no_explicit_rule native) entries
                (default_read_only_subpaths_for_writable_root native host writable_root false))
       entries writable_roots).

Definition workspace_write_with_path_uris (native : PathConvention) host (roots : list U)
    (exclude_tmpdir_env_var exclude_slash_tmp : bool) : FileSystemSandboxPolicy U :=
  with_materialized_project_roots_for_path_uris
    (workspace_write native host [] exclude_tmpdir_env_var exclude_slash_tmp) roots.

(** [PermissionProfile::workspace_write_with] *)
Definition workspace_write_with (native : PathConvention) host (writable_roots : list U)
    (network : NetworkSandboxPolicy) (exclude_tmpdir_env_var exclude_slash_tmp : bool)
    : option (PermissionProfile U) :=
  (λ m, Managed m network) <$>
    from_sandbox_policy (workspace_write native host writable_roots exclude_tmpdir_env_var exclude_slash_tmp).

(** [PermissionProfile::workspace_write_with_path_uris] *)
Definition workspace_write_profile (native : PathConvention) host (roots : list U)
    (network : NetworkSandboxPolicy) (exclude_tmpdir_env_var exclude_slash_tmp : bool)
    : option (PermissionProfile U) :=
  (λ m, Managed m network) <$>
    from_sandbox_policy (workspace_write_with_path_uris native host roots exclude_tmpdir_env_var exclude_slash_tmp).

Definition materialize_project_roots_with (materialize : FileSystemSandboxPolicy U → FileSystemSandboxPolicy U)
    pr : option (PermissionProfile U) :=
  match pr with
  | Managed file_system network =>
      (λ m, Managed m network) <$> from_sandbox_policy (materialize (to_sandbox_policy file_system))
  | Disabled => Some Disabled
  | External network => Some (External network)
  end.

(** [From<LegacyPermissionProfile>] *)
Definition profile_of_legacy (value : AdditionalPermissionProfile U) : PermissionProfile U :=
  Managed
    match ap_file_system value with
    | None => MfsRestricted [] None
    | Some permissions => MfsRestricted (perm_entries permissions) (perm_glob_scan_max_depth permissions)
    end
    (if default false (ap_network value ≫= network_enabled) then NetEnabled else NetRestricted).

(** ** Effective profiles and the choice of a sandbox *)

Definition effective_permission_profile pr (additional : option (AdditionalPermissionProfile U))
    : option (PermissionProfile U) :=
  let (file_system_policy, network_policy) := to_runtime_permissions pr in
  from_runtime_permissions_with_enforcement (enforcement pr)
    (effective_file_system_sandbox_policy file_system_policy additional)
    (effective_network_sandbox_policy network_policy additional).
End profiles.

Inductive SandboxType := SbNone | MacosSeatbelt | LinuxSeccomp | WindowsRestrictedToken | WindowsMxc.

#[global] Instance SandboxType_eq : EqDecision SandboxType.
Proof. solve_decision. Defined.

Inductive SandboxablePreference := PrefAuto | PrefRequire | PrefForbid.

Inductive WindowsSandboxLevel := WsDisabled | WsRestrictedToken | WsElevated.

#[global] Instance WindowsSandboxLevel_eq : EqDecision WindowsSandboxLevel.
Proof. solve_decision. Defined.

(** [cfg!(target_os = ...)] *)
Inductive TargetOs := OsMacos | OsLinux | OsWindows | OsOther.

Definition get_platform_sandbox (os : TargetOs) (windows_sandbox_enabled : bool) : option SandboxType :=
  match os with
  | OsMacos => Some MacosSeatbelt
  | OsLinux => Some LinuxSeccomp
  | OsWindows => if windows_sandbox_enabled then Some WindowsRestrictedToken else None
  | OsOther => None
  end.

(** [PathConvention::native()] *)
Definition native_convention (os : TargetOs) : PathConvention :=
  match os with OsWindows => Windows | _ => Posix end.

Definition should_sandbox {U UE} `{UrlLib U UE} (os : TargetOs) (permission_profile : PermissionProfile U)
    (pref : SandboxablePreference) (has_managed_network_requirements : bool) : bool :=
  match pref with
  | PrefForbid => false
  | PrefRequire => true
  | PrefAuto =>
      let (file_system_policy, network_policy) := to_runtime_permissions permission_profile in
      should_require_platform_sandbox (native_convention os) file_system_policy network_policy
        has_managed_network_requirements
  end.

Definition select_initial {U UE} `{UrlLib U UE} (os : TargetOs) (permission_profile : PermissionProfile U)
    (pref : SandboxablePreference) (windows_sandbox_level : WindowsSandboxLevel)
    (has_managed_network_requirements : bool) : SandboxType :=
  if negb (should_sandbox os permission_profile pref has_managed_network_requirements) then SbNone
  else default SbNone
         (get_platform_sandbox os (negb (bool_decide (windows_sandbox_level = WsDisabled)))).

(** * Permission profiles: round trips and read-only access

    A profile survives the trip through the policies it stands for, the
    combinations never meet the [unreachable!] of external policies, and the
    read-only version of a profile gives every path what the profile gave,
    less the right to write. *)

Section profile_facts.
Context {U UE : Type} `{UL : !UrlLib U UE}.
Implicit Types (p : FileSystemSandboxPolicy U) (pr : PermissionProfile U)
  (ctx : FileSystemSandboxPolicyContext U) (path : U).

(** The depth of a profile is a [NonZeroUsize]. *)
Definition profile_ok pr : Prop :=
  match pr with Managed (MfsRestricted _ depth) _ => depth ≠ Some 0 | _ => True end.

Lemma nonzero_bind (d : option nat) : d ≠ Some 0 → (d ≫= nonzero) = d.
Proof. destruct d as [n|]; [|done]. simpl. unfold nonzero. intros. destruct (decide (n = 0)); congruence. Qed.

Lemma from_runtime_kind enf p network pr :
  from_runtime_permissions_with_enforcement enf p network = Some pr →
  fs_kind (file_system_sandbox_policy pr) = fs_kind p.
Proof.
  unfold from_runtime_permissions_with_enforcement, from_sandbox_policy.
  destruct (fs_kind p) eqn:E; simpl; try case_bool_decide; intros [= <-]; simpl; done.
Qed.

Lemma from_runtime_entries enf p network pr :
  from_runtime_permissions_with_enforcement enf p network = Some pr → fs_kind p = Restricted →
  fs_entries (file_system_sandbox_policy pr) = fs_entries p.
Proof.
  intros H Hk. unfold from_runtime_permissions_with_enforcement, from_sandbox_policy in H. rewrite Hk in H.
  by injection H as <-.
Qed.

(** A profile is recovered from its enforcement and from the file system and
    network policies it stands for. *)
Theorem profile_roundtrip pr :
  profile_ok pr →
  from_runtime_permissions_with_enforcement (enforcement pr) (to_runtime_permissions pr).1
    (to_runtime_permissions pr).2 = Some pr.
Proof.
  destruct pr as [[es d|] n| |n]; simpl; intros Hok; try done.
  unfold from_runtime_permissions_with_enforcement, from_sandbox_policy. simpl. by rewrite nonzero_bind.
Qed.

(** Every policy is the policy of a profile, up to a scan depth of zero. *)
Lemma from_runtime_total enf p network :
  is_Some (from_runtime_permissions_with_enforcement enf p network).
Proof.
  unfold from_runtime_permissions_with_enforcement, from_sandbox_policy.
  destruct (fs_kind p); simpl; try case_bool_decide; eauto.
Qed.

Lemma effective_kind p additional : fs_kind (effective_file_system_sandbox_policy p additional) = fs_kind p.
Proof.
  unfold effective_file_system_sandbox_policy, merge_file_system_policy_with_additional_permissions.
  destruct (additional ≫= ap_file_system) as [fs|]; [|done]. destruct (permissions_is_empty fs); [done|].
  by destruct (fs_kind p) eqn:E.
Qed.

(** ** Access depends on the entries *)

Lemma resolve_access_ext p q path ctx :
  fs_kind p = fs_kind q → (fs_kind p = Restricted → fs_entries p = fs_entries q) →
  resolve_access p path ctx = resolve_access q path ctx.
Proof.
  intros Hk He. unfold resolve_access, resolved_entries. rewrite <- Hk. destruct (fs_kind p); [|done..].
  by rewrite He.
Qed.

(** ** Read-only access *)

Definition on_access (f : FileSystemAccessMode → FileSystemAccessMode) (x : U * FileSystemAccessMode)
    : U * FileSystemAccessMode := (x.1, f x.2).
Definition on_depth_access (f : FileSystemAccessMode → FileSystemAccessMode)
    (x : U * FileSystemAccessMode * nat) : U * FileSystemAccessMode * nat := (x.1.1, f x.1.2, x.2).

Lemma resolved_read_only p ctx :
  resolved_entries (with_entries p (map read_only_entry (fs_entries p))) ctx
  = map (on_access read_only_access) (resolved_entries p ctx).
Proof.
  unfold resolved_entries. simpl. induction (fs_entries p) as [|e es IH]; [done|].
  cbn [map]. rewrite !bind_cons, IH, map_app. f_equal. unfold resolve_entry. simpl. by rewrite map_map.
Qed.

Lemma with_depths_map f rs :
  with_depths (map (on_access f) rs) = map (on_depth_access f) <$> with_depths rs.
Proof.
  induction rs as [|[u a] rs IH]; [done|]. simpl. rewrite IH.
  destruct (lexical_depth u); [by destruct (with_depths rs)|]. by destruct (is_opaque u).
Qed.

Lemma filter_map_access f path es :
  List.filter (λ '(root, _, _), path_starts_with path root) (map (on_depth_access f) es)
  = map (on_depth_access f) (List.filter (λ '(root, _, _), path_starts_with path root) es).
Proof.
  induction es as [|[[u a] d] es IH]; [done|]. simpl. destruct (path_starts_with path u); simpl; by rewrite IH.
Qed.
(** The greatest entry still is greatest, up to its access, when an order of the
    accesses is kept. *)
Lemma max_by_access f es :
  (∀ a b, access_rank a ≤ access_rank b → access_rank (f a) ≤ access_rank (f b)) →
  (λ x, x.1.2) <$> max_by more_specific (map (on_depth_access f) es)
  = (λ x, f x.1.2) <$> max_by more_specific es.
Proof.
  intros Hf. destruct (max_by more_specific es) as [[[u a] d]|] eqn:E1;
    [|by apply max_by_None in E1 as ->].
  destruct (max_by more_specific (map _ es)) as [[[v b] e]|] eqn:E2.
  2:{ apply max_by_None in E2. destruct es; [|done]. done. }
  apply max_by_Some in E1 as [H1 M1]; [|intros ? ? ?; apply more_specific_trans|apply more_specific_asym].
  apply max_by_Some in E2 as [H2 M2]; [|intros ? ? ?; apply more_specific_trans|apply more_specific_asym].
  apply list_elem_of_fmap in H2 as ([[w c] e'] & [= -> -> ->] & Hw). simpl. f_equal.
  specialize (M1 _ Hw). specialize (M2 (on_depth_access f (u, a, d)) (list_elem_of_fmap_2 _ _ _ H1)).
  unfold more_specific, on_depth_access in M1, M2. simpl in M1, M2.
  apply orb_false_iff in M1 as [A1%bool_decide_eq_false B1], M2 as [A2%bool_decide_eq_false B2].
  apply andb_false_iff in B1, B2. rewrite !bool_decide_eq_false in B1, B2.
  apply access_rank_inj. pose proof (Hf c a). lia.
Qed.

Lemma read_only_access_mono a b :
  access_rank a ≤ access_rank b → access_rank (read_only_access a) ≤ access_rank (read_only_access b).
Proof. destruct a, b; simpl; lia. Qed.

Lemma resolve_access_read_only p path ctx :
  fs_kind p = Restricted →
  resolve_access (with_entries p (map read_only_entry (fs_entries p))) path ctx
  = read_only_access (resolve_access p path ctx).
Proof.
  intros Hk. unfold resolve_access. simpl. rewrite Hk, resolved_read_only, with_depths_map.
  destruct (comparable_paths path ctx); [|done]. destruct (with_depths _) as [es|]; simpl; [|done].
  rewrite filter_map_access. pose proof (max_by_access read_only_access
    (List.filter (λ '(root, _, _), path_starts_with path root) es) read_only_access_mono) as H.
  destruct (max_by _ (map _ _)) as [[[? ?] ?]|], (max_by _ (List.filter _ es)) as [[[? ?] ?]|]; simpl in *;
    congruence.
Qed.

(** The read-only version of a managed profile gives every path the access
    the profile gives it, with writing cut down to reading; denials stay denials,
    whatever the entries are, and the network is closed. *)
Theorem read_only_access_exact pr ro path ctx :
  intersect_with_read_only pr = Some ro → fs_kind (file_system_sandbox_policy pr) = Restricted →
  resolve_access (file_system_sandbox_policy ro) path ctx
    = read_only_access (resolve_access (file_system_sandbox_policy pr) path ctx)
  ∧ network_sandbox_policy ro = NetRestricted ∧ enforcement ro = EnManaged.
Proof.
  intros H Hk. unfold intersect_with_read_only in H. rewrite Hk in H.
  unfold from_runtime_permissions, from_runtime_permissions_with_enforcement, from_sandbox_policy in H.
  simpl in H. rewrite Hk in H. injection H as <-. split; [|done].
  rewrite <- resolve_access_read_only by done. by apply resolve_access_ext.
Qed.

(** Laying additional permissions over a profile always gives a profile: the
    effective profile exists, keeps the way its sandbox is enforced, and stands
    for the effective policies. *)
Theorem effective_profile_total pr additional :
  ∃ ep, effective_permission_profile pr additional = Some ep
    ∧ enforcement ep = enforcement pr
    ∧ (∀ path ctx, resolve_access (file_system_sandbox_policy ep) path ctx
         = resolve_access (effective_file_system_sandbox_policy (file_system_sandbox_policy pr) additional) path ctx)
    ∧ (enforcement pr ≠ EnDisabled →
       network_sandbox_policy ep = effective_network_sandbox_policy (network_sandbox_policy pr) additional).
Proof.
  unfold effective_permission_profile. cbn [to_runtime_permissions].
  destruct (from_runtime_total (enforcement pr)
    (effective_file_system_sandbox_policy (file_system_sandbox_policy pr) additional)
    (effective_network_sandbox_policy (network_sandbox_policy pr) additional)) as [ep Hep].
  exists ep. split; [done|]. split_and!.
  - unfold from_runtime_permissions_with_enforcement, from_sandbox_policy in Hep.
    rewrite effective_kind in Hep. by destruct pr as [[es d|] n| |n]; simpl in Hep; injection Hep as <-.
  - intros path ctx. apply resolve_access_ext; [by eapply from_runtime_kind|]. intros Hk.
    eapply from_runtime_entries; [done|]. by rewrite <- (from_runtime_kind _ _ _ _ Hep).
  - intros Hd. unfold from_runtime_permissions_with_enforcement, from_sandbox_policy in Hep.
    rewrite effective_kind in Hep. by destruct pr as [[es d|] n| |n]; simpl in Hep; injection Hep as <-.
Qed.
End profile_facts.
