(* ===== verification/FsWorkspace.v ===== *)
(** * Full-disk write access

    [has_full_disk_write_access_with_context] is a syntactic test of the
    entries. On POSIX it is sound: every path that can be compared is writable. *)

From S2P Require Import Prelude RustStr Utf8 PathConvention PathUri PathText PathUriFacts.
From S2P Require Import FsPolicy FsPolicyFacts FsDeny FsTransform FsTransformFacts.
From S2P Require Import FsProfile.
Open Scope list_scope.

Section full_disk.
Context {U UE : Type} `{UL : !UrlLib U UE} `{LU : !LawfulUrl U UE} `{LS : !LawfulSegments U UE}.
Implicit Types (p : FileSystemSandboxPolicy U) (e : FileSystemSandboxEntry U) (path u : U)
  (ctx : FileSystemSandboxPolicyContext U).

Lemma location_posix_host u h a : location u = Some (Posix, h, a) → h = None.
Proof.
  intros Hl. pose proof (location_convention _ _ _ _ Hl) as Hc. unfold location in Hl.
  destruct (bool_decide (decode_bad_path_uri u ≠ None)) eqn:Eb; [done|]. apply bool_decide_eq_false in Eb.
  rewrite Hc in Hl. simpl in Hl. unfold containment_path_segments in Hl.
  destruct (url_path_segments u) as [segs|] eqn:Es; [|done]. simpl in Hl. destruct (existsb _ _); [done|].
  injection Hl as <- _. rewrite (infer_convention u segs) in Hc;
    [|by destruct (decode_bad_path_uri u); [destruct Eb|]|done].
  destruct (bool_decide (url_host_str u ≠ None)) eqn:E; [done|]. apply bool_decide_eq_false in E.
  by destruct (url_host_str u); [destruct E|].
Qed.

Definition posix_root : loc := (Posix, None, []).
Definition posix_tmp : loc := (Posix, None, [lit "tmp"]).

Lemma posix_above_root l : l.1 = (Posix, None) → above posix_root l.
Proof. intros E. split; [by rewrite E|]. apply prefix_nil. Qed.

Lemma parentless_root u h a : location u = Some (Posix, h, a) → parent u = None → (Posix, h, a) = posix_root.
Proof.
  intros Hl. rewrite (location_posix_host _ _ _ Hl) in *. pose proof (location_convention _ _ _ _ Hl) as Hc.
  unfold location in Hl. unfold parent.
  destruct (bool_decide (decode_bad_path_uri u ≠ None)); [done|]. rewrite Hc in *. simpl in *.
  unfold containment_path_segments in Hl. destruct (url_path_segments u) as [segs|]; [|done]. simpl in *.
  destruct (existsb _ _); [done|]. injection Hl as _ <-. case_bool_decide as E; [|done]. intros _.
  change (anchor_depth Posix) with 0 in E. destruct (List.filter non_empty segs); [done|]. simpl in E. lia.
Qed.

Lemma decode_tmp s : decode_uri_path s = lit "tmp" → decode_binary (encode s) = lit "tmp".
Proof.
  unfold decode_uri_path. rewrite url_decode_spec. destruct (from_utf8 _) as [t| |] eqn:E; simpl.
  - intros ->. apply from_utf8_encode in E as [E _]. by rewrite <- E.
  - intros ->. apply decode_plain. vm_compute. intros H. repeat (apply elem_of_cons in H as [?|H]; [done|]).
    by apply not_elem_of_nil in H.
  - intros ->. apply decode_plain. vm_compute. intros H. repeat (apply elem_of_cons in H as [?|H]; [done|]).
    by apply not_elem_of_nil in H.
Qed.

Lemma tmp_location u h a :
  location u = Some (Posix, h, a) → lexical_depth u = Some 1 → basename u = Some (lit "tmp") →
  (Posix, h, a) = posix_tmp.
Proof.
  intros Hl Hd Hb. rewrite lexical_depth_location, Hl in Hd. simpl in Hd. injection Hd as Hd.
  rewrite (location_posix_host _ _ _ Hl) in *. unfold basename in Hb. unfold location in Hl.
  destruct (bool_decide (decode_bad_path_uri u ≠ None)); [done|].
  destruct (infer_path_convention u) as [c|]; [|done]. simpl in Hl. unfold containment_path_segments in Hl.
  destruct (url_path_segments u) as [segs|]; [|done]. simpl in *. destruct (existsb _ _); [done|].
  injection Hl as -> _ <-. rewrite length_map in Hd. rewrite find_first in Hb. unfold first_segment in Hb.
  rewrite filter_rev in Hb. destruct (List.filter non_empty segs) as [|x [|y l]]; try done. simpl in *.
  injection Hb as Hb. unfold posix_tmp. by rewrite (decode_tmp x Hb).
Qed.

(** A POSIX context whose special paths resolve. *)
Definition posix_context ctx : Prop :=
  nul_free (cx_cwd ctx) ∧ ∃ a, location (cx_cwd ctx) = Some (Posix, None, a).

Lemma posix_convention ctx : posix_context ctx → infer_path_convention (cx_cwd ctx) = Some Posix.
Proof. intros (_ & a & Hl). by eapply location_convention. Qed.

Lemma posix_clean u : infer_path_convention u = Some Posix → is_clean u = true.
Proof. unfold is_clean. by intros ->. Qed.

Lemma root_target ctx :
  posix_context ctx →
  ∃ r, entry_targets ctx (FsSpecial SpRoot) = [r] ∧ infer_path_convention r = Some Posix
       ∧ location r = Some posix_root.
Proof.
  intros Hc. pose proof (posix_convention ctx Hc) as Hp. destruct Hc as (Hn & a & Hl).
  destruct (file_root _ _ _ _ Hn (posix_clean _ Hp) Hl) as (r & Hr & _ & _ & _ & Hi & Hlr).
  exists r. simpl. unfold file_system_root. by rewrite lexical_depth_location, Hl, Hr.
Qed.

Lemma tmp_target ctx :
  posix_context ctx →
  ∃ t, entry_targets ctx (FsSpecial SpSlashTmp) = [t] ∧ infer_path_convention t = Some Posix
       ∧ location t = Some posix_tmp.
Proof.
  intros Hc. pose proof (posix_convention ctx Hc) as Hp.
  destruct (join_absolute (cx_cwd ctx) (lit "tmp") Hp) as (t & Ht & Hi & _ & Hl).
  { by vm_compute. } { repeat constructor. } { by vm_compute. }
  exists t. simpl. rewrite Hp, bool_decide_true by done. change (lit "/tmp") with (c_slash :: lit "tmp").
  rewrite Ht. split_and!; [done..|]. exact Hl.
Qed.

Definition entry_at ctx e (l : loc) : Prop :=
  ∃ u, u ∈ entry_targets ctx (entry_path e) ∧ infer_path_convention u = Some Posix ∧ location u = Some l.

Lemma matched_special ctx v w l c :
  posix_context ctx → infer_path_convention w = Some Posix →
  special_path_matches_path_uri v w = true → location w = Some l → entry_path c = FsSpecial v → entry_at ctx c l.
Proof.
  intros Hc Hi Hm Hl Ec. unfold entry_at. rewrite Ec. destruct l as [[c' h] a].
  pose proof (location_convention _ _ _ _ Hl) as Hi'. rewrite Hi in Hi'. injection Hi' as <-.
  destruct v; try done; simpl in Hm.
  - apply andb_true_iff in Hm as [_ Hm%bool_decide_eq_true].
    rewrite (parentless_root _ _ _ Hl Hm). destruct (root_target ctx Hc) as (r & -> & ? & ?). exists r. split_and!; [by left|done..].
  - apply andb_true_iff in Hm as [[_ Hd%bool_decide_eq_true]%andb_true_iff Hb%bool_decide_eq_true].
    rewrite (tmp_location _ _ _ Hl Hd Hb). destruct (tmp_target ctx Hc) as (t & -> & ? & ?). exists t. split_and!; [by left|done..].
Qed.

Lemma special_matched ctx v w l e :
  posix_context ctx → infer_path_convention w = Some Posix →
  special_path_matches_path_uri v w = true → lexical_depth w ≠ None →
  entry_path e = FsSpecial v → entry_at ctx e l → location w = Some l.
Proof.
  intros Hc Hi Hm Hd Ee (u & Hu & _ & Hl). rewrite Ee in Hu.
  rewrite lexical_depth_location in Hd. destruct (location w) as [[[c h] a]|] eqn:Hw; [clear Hd|done].
  pose proof (location_convention _ _ _ _ Hw) as Hi'. rewrite Hi in Hi'. injection Hi' as <-.
  destruct v; try done; simpl in Hm.
  - apply andb_true_iff in Hm as [_ Hm%bool_decide_eq_true]. rewrite (parentless_root _ _ _ Hw Hm).
    destruct (root_target ctx Hc) as (r & E & _ & Hr). rewrite E in Hu. apply list_elem_of_singleton in Hu. congruence.
  - apply andb_true_iff in Hm as [[_ Hd%bool_decide_eq_true]%andb_true_iff Hb%bool_decide_eq_true].
    rewrite (tmp_location _ _ _ Hw Hd Hb).
    destruct (tmp_target ctx Hc) as (t & E & _ & Ht). rewrite E in Hu. apply list_elem_of_singleton in Hu. congruence.
Qed.

Lemma special_share v v' : special_paths_share_target v v' = true → v = v'.
Proof.
  destruct v, v'; simpl; try done; [by intros ->%bool_decide_eq_true|].
  by intros [->%bool_decide_eq_true ->%bool_decide_eq_true]%andb_true_iff.
Qed.

(** Entries with the same target are at the same location. *)
Lemma share_target_at ctx c e l :
  posix_context ctx → file_system_paths_share_target (entry_path c) (entry_path e) Posix = true →
  entry_at ctx e l → entry_at ctx c l.
Proof.
  intros Hc Hs (u & Hu & Hi & Hl).
  destruct (entry_path c) as [w|pat|v] eqn:Ec, (entry_path e) as [w'|pat'|v'] eqn:Ee; simpl in Hs; try done.
  - apply list_elem_of_singleton in Hu as ->. apply path_uri_eqb_same in Hs as [E1 E2].
    exists w. rewrite Ec. split_and!; [by left|congruence..].
  - apply andb_true_iff in Hs as [Hcv%bool_decide_eq_true Hm]. exists w. rewrite Ec. split_and!; [by left|done|].
    eapply (special_matched ctx v' w l e); try done; [|by exists u; rewrite Ee].
    destruct v'; try done; simpl in Hm.
    + by apply andb_true_iff in Hm as [?%bool_decide_eq_true _].
    + apply andb_true_iff in Hm as [[_ ->%bool_decide_eq_true]%andb_true_iff _]. done.
  - by apply not_elem_of_nil in Hu.
  - apply andb_true_iff in Hs as [Hcv%bool_decide_eq_true Hm]. apply list_elem_of_singleton in Hu as ->.
    by eapply (matched_special ctx v w').
  - apply special_share in Hs as ->. exists u. by rewrite Ec.
Qed.

Lemma narrow_override p ctx e l :
  posix_context ctx → has_root_access p can_write = true → narrows_write p Posix e = false →
  entry_at ctx e l → entry_access e ≠ Write →
  entry_access e = Read ∧ ∃ c, c ∈ fs_entries p ∧ entry_access c = Write ∧ entry_at ctx c l.
Proof.
  intros Hc Hr Hnw He Ha.
  assert (Hover : has_same_target_write_override p e Posix = true →
    entry_access e = Read ∧ ∃ c, c ∈ fs_entries p ∧ entry_access c = Write ∧ entry_at ctx c l).
  { intros (c & Hin%list_elem_of_In & H)%existsb_exists.
    apply andb_true_iff in H as [[Hcw Hrk%bool_decide_eq_true]%andb_true_iff Hs].
    assert (Hcw' : entry_access c = Write) by (by destruct (entry_access c)).
    rewrite Hcw' in Hrk. split; [destruct (entry_access e); simpl in Hrk; [done|lia|lia]|].
    exists c. split_and!; [done..|]. by eapply share_target_at. }
  assert (Hw : can_write (entry_access e) = false) by (by destruct (entry_access e)).
  unfold narrows_write in Hnw. rewrite Hw in Hnw.
  destruct (entry_path e) as [w|pat|[]] eqn:Ee; try (by apply Hover, negb_false_iff); try done.
  - apply bool_decide_eq_false in Hnw. split; [by destruct (entry_access e)|].
    unfold has_root_access in Hr. apply andb_true_iff in Hr as [_ (c & Hin & [Hsp Hcw]%andb_true_iff)%existsb_exists].
    exists c. split_and!; [by apply list_elem_of_In|by destruct (entry_access c)|].
    destruct He as (u & Hu & ? & ?). exists u. destruct (entry_path c) as [| |v]; try done.
    apply bool_decide_eq_true in Hsp as ->. by rewrite Ee in Hu.
  - destruct He as (u & Hu & _). rewrite Ee in Hu. by apply not_elem_of_nil in Hu.
  - destruct He as (u & Hu & _). rewrite Ee in Hu. by apply not_elem_of_nil in Hu.
Qed.

(** Full-disk write access is what it says on POSIX: when the test of the
    entries succeeds, every path that can be compared with the context is
    writable. Entries that only read, deny or carve out a part are found, however
    they spell their path, unless a write entry for the same target overrides
    them. *)
Theorem full_disk_writes_everything p path ctx l0 :
  has_full_disk_write_access_with_context p ctx = true →
  posix_context ctx → orderly (resolved_entries p ctx) = true → placed ctx path l0 →
  resolve_access p path ctx = Write.
Proof.
  intros Hf Hc Ho Hp. pose proof (posix_convention ctx Hc) as Hpx.
  unfold has_full_disk_write_access_with_context, has_full_disk_write_access_for_convention in Hf.
  destruct (fs_kind p) eqn:Hk; [|unfold resolve_access; by rewrite Hk..].
  rewrite Hpx in Hf. apply andb_true_iff in Hf as [Hr Hn].
  unfold has_write_narrowing_entries in Hn. rewrite Hk, bool_decide_true in Hn by done. simpl in Hn.
  apply negb_true_iff in Hn. rewrite existsb_false_Forall, Forall_forall in Hn.
  pose proof (resolve_access_decides p path ctx l0 Hk Hp Ho) as D.
  assert (Hat : ∀ l a, (l, a) ∈ located p ctx ↔ ∃ e, e ∈ fs_entries p ∧ entry_access e = a ∧ entry_at ctx e l).
  { intros l a. change (located p ctx) with (located_entries ctx (fs_entries p)). rewrite elem_of_located, Hpx.
    unfold entry_at. naive_solver. }
  destruct D as [[Hnone _]|(l & Hl & Al & Ml)].
  - exfalso. apply andb_true_iff in Hr as [_ (c & Hin & [Hsp Hcw]%andb_true_iff)%existsb_exists].
    destruct (root_target ctx Hc) as (r & Er & Hi & Hlr).
    apply (Hnone posix_root (entry_access c)).
    + apply Hat. exists c. split_and!; [by apply list_elem_of_In|done|]. exists r.
      destruct (entry_path c) as [| |v]; try done. apply bool_decide_eq_true in Hsp as ->.
      rewrite Er. split_and!; [by left|done..].
    + apply posix_above_root. destruct Hp as (Hcmp & _ & Hlp). unfold comparable_paths in Hcmp. rewrite Hpx in Hcmp.
      simpl in Hcmp. destruct l0 as [[c0 h0] a0]. pose proof (location_convention _ _ _ _ Hlp) as Hi0.
      destruct (bool_decide (infer_path_convention path = Some Posix)) eqn:E; [|done].
      apply bool_decide_eq_true in E. rewrite E in Hi0. injection Hi0 as <-.
      by rewrite (location_posix_host _ _ _ Hlp).
  - destruct (decide (resolve_access p path ctx = Write)) as [|Hne]; [done|exfalso].
    apply Hat in Hl as (e & He & Hea & Hel).
    destruct (narrow_override p ctx e l Hc Hr (Hn e He) Hel) as (Hread & c & Hcin & Hcw & Hcl); [congruence|].
    destruct (Ml l Write) as [?|[_ Hrk]]; [apply Hat; eauto|done|lia|].
    rewrite <- Hea, Hread in Hrk. simpl in Hrk. lia.
Qed.
End full_disk.

(** * The workspace-write policy and protected metadata

    A path inside protected metadata of a writable root is written only when an
    entry names a place inside the metadata; the workspace-write policy writes
    below its roots only, and outside of their metadata. *)

Section metadata.
Context {U UE : Type} `{UL : !UrlLib U UE}.
Implicit Types (p : FileSystemSandboxPolicy U) (e : FileSystemSandboxEntry U) (path root : U)
  (ctx : FileSystemSandboxPolicyContext U).

(** [protected] is a metadata directory of a writable root of the policy, and
    holds [path]. *)
Definition in_metadata p ctx path (protected : U) : Prop :=
  ∃ root name, (root, Write) ∈ resolved_entries p ctx ∧ name ∈ PROTECTED_METADATA_PATH_NAMES
    ∧ join_descendant root name = Ok protected ∧ path_starts_with path protected = true.

(** A writable path starts with a root that the policy lets it write. *)
Lemma writable_root p path ctx :
  fs_kind p = Restricted → can_write (resolve_access p path ctx) = true →
  ∃ root, (root, Write) ∈ resolved_entries p ctx ∧ path_starts_with path root = true.
Proof.
  intros Hk. unfold resolve_access. rewrite Hk. destruct (comparable_paths path ctx); [|done].
  destruct (with_depths _) as [es|] eqn:Ed; [|done]. destruct (max_by _ _) as [[[u a] d]|] eqn:Em; [|done].
  apply max_by_Some in Em as [Hin _]; [|intros ? ? ?; apply more_specific_trans|apply more_specific_asym].
  rewrite list_elem_of_In, filter_In, <- list_elem_of_In in Hin. destruct Hin as [Hin Hs].
  assert (Hsub : (u, a) ∈ resolved_entries p ctx).
  { revert es Ed Hin. clear Hs. generalize (resolved_entries p ctx) as rs. intros rs. induction rs as [|[v b] rs IH]; intros es; simpl.
    - intros [= <-] ?%not_elem_of_nil. done.
    - destruct (lexical_depth v); simpl.
      + destruct (with_depths rs) as [es'|]; simpl; [|done]. intros [= <-] [[= <- <- <-]|H]%elem_of_cons; [by left|].
        right. by eapply IH.
      + destruct (is_opaque v); [|done]. intros He H. right. by eapply IH. }
  intros Hw. exists u. by destruct a.
Qed.

(** What lets a path inside metadata be written. *)
Lemma metadata_denial_None p path ctx protected :
  fs_kind p = Restricted → metadata_write_denial p path ctx = None → in_metadata p ctx path protected →
  ∃ protected' root, in_metadata p ctx path protected' ∧ (root, Write) ∈ resolved_entries p ctx
    ∧ path_starts_with path root = true ∧ path_starts_with root protected' = true.
Proof.
  intros Hk Hd (r & name & Hr & Hname & Hj & Hp). unfold metadata_write_denial in Hd.
  rewrite Hk, bool_decide_true in Hd by done. simpl negb in Hd. cbn iota zeta in Hd.
  destruct (find_map _ _) as [[protected' name']|] eqn:Ef.
  - apply find_map_Some in Ef as ([r' a'] & Hr' & Ef).
    rewrite list_elem_of_In, filter_In, <- list_elem_of_In in Hr'. destruct Hr' as [Hr' Hw].
    apply find_map_Some in Ef as (n & Hn & Ef). destruct (join_descendant r' n) as [pr| |] eqn:Ej; try done.
    simpl in Ef. destruct (path_starts_with path pr) eqn:Ep; [|done]. injection Ef as -> ->.
    destruct (existsb _ _) eqn:Ee; [|done]. apply existsb_exists in Ee as ([root a] & Hin & H).
    apply andb_true_iff in H as [[Ha H1]%andb_true_iff H2].
    exists protected', root. split_and!; [|destruct a; try done; by apply list_elem_of_In|done..].
    exists r', name'. split_and!; [by destruct a'|done..].
  - exfalso. assert (Hnone := proj1 (find_map_None _ _) Ef (r, Write)). cbn iota beta in Hnone.
    assert (Hin : (r, Write) ∈ List.filter (λ '(_, access), can_write access) (resolved_entries p ctx)).
    { by rewrite list_elem_of_In, filter_In, <- list_elem_of_In. }
    specialize (Hnone Hin). assert (H := proj1 (find_map_None _ _) Hnone name Hname). simpl in H.
    rewrite Hj in H. simpl in H. by rewrite Hp in H.
Qed.

(** Writing into protected metadata needs a rule about it: when a path lies in
    [.git], [.agents] or [.codex] of a writable root and the policy has no
    full-disk access, the path is writable only if it lies in such a directory
    inside of which an entry grants writing to a place above the path. *)
Theorem metadata_write_needs_rule p path ctx protected :
  fs_kind p = Restricted → has_full_disk_write_access_with_context p ctx = false →
  can_write_path p path ctx = true → in_metadata p ctx path protected →
  ∃ protected' root, in_metadata p ctx path protected' ∧ (root, Write) ∈ resolved_entries p ctx
    ∧ path_starts_with path root = true ∧ path_starts_with root protected' = true.
Proof.
  intros Hk Hf Hw. unfold can_write_path in Hw. rewrite Hf in Hw. destruct (can_write _); [|done]. simpl in Hw.
  apply bool_decide_eq_true in Hw. by apply metadata_denial_None.
Qed.

(** ** The workspace-write policy *)

(** The places below which the policy writes. *)
Definition workspace_places ctx (writable_roots roots : list U) (exclude_tmpdir_env_var exclude_slash_tmp : bool)
    : list U :=
  workspace_roots ctx ++ roots ++ writable_roots
  ++ (if exclude_slash_tmp then [] else entry_targets ctx (FsSpecial SpSlashTmp))
  ++ (if exclude_tmpdir_env_var then [] else entry_targets ctx (FsSpecial SpTmpdir)).

(** The three forms in which a workspace-write policy [base] is used: with its
    symbolic roots, with entries for concrete roots added, and with such entries
    in place of the symbolic ones. *)
Inductive workspace_form (base : FileSystemSandboxPolicy U) (roots : list U) : FileSystemSandboxPolicy U → Prop :=
  | form_symbolic : workspace_form base roots base
  | form_added : workspace_form base roots (with_materialized_project_roots_for_path_uris base roots)
  | form_replaced : workspace_form base roots (materialize_project_roots_with_path_uris base roots).

Lemma materialize_write roots es ms e :
  materialize_entries roots es = Some ms → e ∈ ms → entry_access e = Write →
  e ∈ es ∨ ∃ e' subpath is_glob root, e' ∈ es ∧ entry_access e' = Write ∧ root ∈ roots
    ∧ project_roots_subpath (entry_path e') = Some (subpath, is_glob)
    ∧ materialize_at e' subpath is_glob root = Some e.
Proof.
  revert ms. induction es as [|x es IH]; intros ms; simpl; [by intros [= <-] ?%not_elem_of_nil|].
  destruct (project_roots_subpath (entry_path x)) as [[subpath g]|] eqn:Es.
  - destruct (unknown_home_denial roots x subpath); [done|].
    destruct (materialize_entries roots es) as [ms'|]; simpl; [|done]. intros [= <-] [H|H]%elem_of_app Ha.
    + apply list_elem_of_omap in H as (root & Hr & Hm). right. exists x, subpath, g, root. split_and!; [by left| |done..].
      unfold materialize_at in Hm. destruct (if _ : bool then _ else _) in Hm.
      * by injection Hm as <-.
      * destruct (can_write _); [done|]. by injection Hm as <-.
    + destruct (IH ms' eq_refl H Ha) as [?|(e' & ? & ? & ? & ? & ?)]; [left; by right|right].
      do 4 eexists. split; [by right|done].
  - destruct (materialize_entries roots es) as [ms'|]; simpl; [|done]. intros [= <-] [->|H]%elem_of_cons Ha.
    + left. by left.
    + destruct (IH ms' eq_refl H Ha) as [?|(e' & ? & ? & ? & ? & ?)]; [left; by right|right].
      do 4 eexists. split; [by right|done].
Qed.

Lemma append_default_write native es target e :
  e ∈ append_default_read_only_entry_if_no_explicit_rule native es target → entry_access e = Write → e ∈ es.
Proof.
  unfold append_default_read_only_entry_if_no_explicit_rule. destruct (existsb _ _); [done|].
  intros [?|H%list_elem_of_singleton]%elem_of_app; [done|by subst e].
Qed.

Lemma foldl_write {A} (f : list (FileSystemSandboxEntry U) → A → list (FileSystemSandboxEntry U)) (xs : list A) es e :
  (∀ es x, e ∈ f es x → e ∈ es) → e ∈ foldl f es xs → e ∈ es.
Proof. intros Hf. revert es. induction xs as [|x xs IH]; intros es; simpl; [done|]. intros H. by apply (Hf es x), IH. Qed.

Lemma workspace_write_access native host wr a b e :
  e ∈ fs_entries (workspace_write native host wr a b) → entry_access e = Write →
  entry_path e = FsSpecial (SpProjectRoots None) ∨ (∃ u, u ∈ wr ∧ entry_path e = FsPath u)
  ∨ (entry_path e = FsSpecial SpSlashTmp ∧ b = false) ∨ (entry_path e = FsSpecial SpTmpdir ∧ a = false).
Proof.
  unfold workspace_write. cbn [restricted fs_entries]. intros He Ha.
  apply foldl_write in He; [|intros es r H; eapply foldl_write; [|exact H]; intros es' u H'; by eapply append_default_write].
  apply foldl_write in He; [|intros es u H; by eapply append_default_write].
  apply elem_of_app in He as [He|He].
  { apply elem_of_cons in He as [->|He]; [done|]. apply list_elem_of_singleton in He as ->. by left. }
  rewrite !elem_of_app in He. destruct He as [He|[He|He]].
  - destruct b; [by apply not_elem_of_nil in He|]. apply list_elem_of_singleton in He as ->. auto.
  - destruct a; [by apply not_elem_of_nil in He|]. apply list_elem_of_singleton in He as ->. auto.
  - apply list_elem_of_fmap in He as (u & -> & Hu). eauto.
Qed.

(** The write entries of the three forms. *)
Lemma workspace_form_access native host wr a b roots p e :
  workspace_form (workspace_write native host wr a b) roots p → e ∈ fs_entries p → entry_access e = Write →
  e ∈ fs_entries (workspace_write native host wr a b) ∨ ∃ root, root ∈ roots ∧ entry_path e = FsPath root.
Proof.
  assert (Hm : ∀ ms, materialize_entries roots (fs_entries (workspace_write native host wr a b)) = Some ms →
    e ∈ ms → entry_access e = Write →
    e ∈ fs_entries (workspace_write native host wr a b) ∨ ∃ root, root ∈ roots ∧ entry_path e = FsPath root).
  { intros ms Em He Ha.
    destruct (materialize_write _ _ _ _ Em He Ha) as [?|(e' & sub & g & r & He' & Ha' & Hr & Es & Hm)]; [by left|right].
    exists r. split; [done|].
    destruct (workspace_write_access _ _ _ _ _ _ He' Ha') as [E|[(u & _ & E)|[[E _]|[E _]]]]; rewrite E in Es; try done.
    injection Es as <- <-. unfold materialize_at in Hm. simpl in Hm. by injection Hm as <-. }
  unfold with_materialized_project_roots_for_path_uris, materialize_project_roots_with_path_uris,
    try_materialize_project_roots_with_path_uris. intros [| |] He Ha; [by left| |].
  - unfold with_materialized_project_roots_for_path_uris, try_materialize_project_roots_with_path_uris in He.
    destruct (materialize_entries roots _) as [ms|] eqn:Em; [|by apply not_elem_of_nil in He]. simpl in He.
    apply fold_push_elem in He as [He|He]; [by left|]. by eapply Hm.
  - unfold materialize_project_roots_with_path_uris, try_materialize_project_roots_with_path_uris in He.
    destruct (materialize_entries roots _) as [ms|] eqn:Em; [|by apply not_elem_of_nil in He]. by eapply Hm.
Qed.

Lemma workspace_form_target native host wr a b roots p u ctx :
  workspace_form (workspace_write native host wr a b) roots p → (u, Write) ∈ resolved_entries p ctx →
  u ∈ workspace_places ctx wr roots a b.
Proof.
  intros Hf. change (resolved_entries ?p ctx) with (resolve_entries ctx (fs_entries p)).
  intros (e & He & Ha & Hu & _)%elem_of_resolve_entries. unfold workspace_places. rewrite !elem_of_app.
  destruct (workspace_form_access _ _ _ _ _ _ _ _ Hf He Ha) as [Hin|(r & Hr & E)].
  - destruct (workspace_write_access _ _ _ _ _ _ Hin Ha) as [E|[(r & Hr & E)|[[E ->]|[E ->]]]]; rewrite E in Hu;
      [|apply list_elem_of_singleton in Hu as ->; tauto|tauto..].
    left. apply list_elem_of_omap in Hu as (r & Hr & [= <-]). done.
  - rewrite E in Hu. apply list_elem_of_singleton in Hu as ->. tauto.
Qed.

Lemma workspace_form_restricted native host wr a b roots p :
  workspace_form (workspace_write native host wr a b) roots p → fs_kind p = Restricted.
Proof.
  intros []; [done|..]; unfold with_materialized_project_roots_for_path_uris, materialize_project_roots_with_path_uris,
    try_materialize_project_roots_with_path_uris; by destruct (materialize_entries _ _).
Qed.

Lemma workspace_form_not_full native host wr a b roots p ctx :
  workspace_form (workspace_write native host wr a b) roots p → has_full_disk_write_access_with_context p ctx = false.
Proof.
  intros Hf. unfold has_full_disk_write_access_with_context, has_full_disk_write_access_for_convention.
  rewrite (workspace_form_restricted _ _ _ _ _ _ _ Hf). destruct (infer_path_convention (cx_cwd ctx)); [|done].
  destruct (has_root_access _ _) eqn:E; [exfalso|done]. unfold has_root_access in E.
  apply andb_true_iff in E as [_ (e & He%list_elem_of_In & [Hr Hw]%andb_true_iff)%existsb_exists].
  assert (Ha : entry_access e = Write) by (by destruct (entry_access e)).
  assert (Er : entry_path e = FsSpecial SpRoot).
  { destruct (entry_path e) as [| |v]; try done. by apply bool_decide_eq_true in Hr as ->. }
  destruct (workspace_form_access _ _ _ _ _ _ _ _ Hf He Ha) as [Hin|(r & _ & E)]; [|by rewrite Er in E].
  by destruct (workspace_write_access _ _ _ _ _ _ Hin Ha) as [E|[(u & _ & E)|[[E _]|[E _]]]]; rewrite Er in E.
Qed.

(** C33. The workspace-write policy confines writes, in each form in which it is
    used (with symbolic roots, or with concrete roots added or put in their
    place), whatever the host's files: a writable path lies below a workspace
    root of the policy or of the context, below a configured writable root, or
    below a temporary directory that is not excluded; and if it lies in protected
    metadata of one of these places, then another of them is inside such a
    directory and above the path. *)
Theorem workspace_write_confined native host writable_roots roots exclude_tmpdir exclude_slash p path ctx :
  workspace_form (workspace_write native host writable_roots exclude_tmpdir exclude_slash) roots p →
  let places := workspace_places ctx writable_roots roots exclude_tmpdir exclude_slash in
  can_write_path p path ctx = true →
  (∃ place, place ∈ places ∧ path_starts_with path place = true)
  ∧ (∀ protected, in_metadata p ctx path protected →
       ∃ place inner name protected', place ∈ places ∧ inner ∈ places
         ∧ name ∈ PROTECTED_METADATA_PATH_NAMES ∧ join_descendant place name = Ok protected'
         ∧ path_starts_with inner protected' = true ∧ path_starts_with path inner = true).
Proof.
  intros Hform places Hw. pose proof (workspace_form_restricted _ _ _ _ _ _ _ Hform) as Hk.
  pose proof (workspace_form_not_full _ _ _ _ _ _ _ ctx Hform) as Hf.
  assert (Ht : ∀ u, (u, Write) ∈ resolved_entries p ctx → u ∈ places)
    by (intros u; by eapply workspace_form_target).
  unfold can_write_path in Hw. rewrite Hf in Hw. destruct (can_write _) eqn:Ew; [|done]. simpl in Hw.
  apply bool_decide_eq_true in Hw. split.
  - destruct (writable_root p path ctx Hk Ew) as (u & Hu & Hs). exists u. auto.
  - intros protected Hin. destruct (metadata_denial_None p path ctx protected Hk Hw Hin)
      as (protected' & root & (place & name & Hp & Hn & Hj & _) & Hr & Hs & Hsp).
    exists place, root, name, protected'. auto 10.
Qed.

(** ** Materialized workspace roots *)

(** The entry names a place inside of each root. *)
Definition scoped (roots : list U) e : Prop :=
  match project_roots_subpath (entry_path e) with
  | Some (Some subpath, false) =>
      Forall (λ root, resolve_scoped_workspace_path root subpath ≠ None) roots
      ∧ unknown_home_denial roots e (Some subpath) = false
  | Some (None, _) | None => True
  | Some (Some _, true) => False
  end.

Lemma scoped_join root subpath path :
  resolve_scoped_workspace_path root subpath = Some path → path_uri_join root subpath = Ok path.
Proof.
  unfold resolve_scoped_workspace_path. destruct (infer_path_convention root); [|done]. simpl.
  destruct (_ || _); [done|]. destruct (path_uri_join root subpath); simpl; [|done..].
  destruct (path_starts_with _ _); [|done]. by intros [= ->].
Qed.

Lemma resolve_paths ctx e (us : list U) :
  map (with_path e) (map FsPath us) ≫= resolve_entry ctx
  = map (λ path, (path, entry_access e))
      (List.filter (λ path, bool_decide (infer_path_convention path = infer_path_convention (cx_cwd ctx))) us).
Proof.
  induction us as [|u us IH]; [done|]. cbn [map]. rewrite bind_cons, IH. unfold resolve_entry. simpl.
  by destruct (bool_decide _).
Qed.

Lemma materialize_entry_resolves roots ctx e subpath g :
  project_roots_subpath (entry_path e) = Some (subpath, g) → scoped roots e → workspace_roots ctx = roots →
  unknown_home_denial roots e subpath = false
  ∧ (omap (materialize_at e subpath g) roots ≫= resolve_entry ctx) = resolve_entry ctx e.
Proof.
  intros Hs Hsc Hw. unfold scoped in Hsc. rewrite Hs in Hsc.
  assert (Ep : entry_path e = FsSpecial (SpProjectRoots subpath) ∧ g = false ∨ (∃ pat, entry_path e = FsGlobPattern pat) ∧ g = true ∧ subpath ≠ None).
  { unfold project_roots_subpath in Hs. destruct (entry_path e) as [|pat|[]]; try done.
    - right. destruct (strip_prefix _ pat); [|done]. injection Hs as <- <-. eauto.
    - left. by injection Hs as <- <-. }
  destruct Ep as [[Ep ->]|[_ [-> Hne]]]; [|by destruct subpath]. split.
  { unfold unknown_home_denial. destruct subpath; [apply Hsc|]. by rewrite andb_false_r. }
  assert (Hm : omap (materialize_at e subpath false) roots = map (with_path e) (map FsPath (omap (λ root, join_subpath root subpath) roots))).
  { assert (Hall : Forall (λ root, materialize_at e subpath false root = (λ u, with_path e (FsPath u)) <$> join_subpath root subpath) roots).
    { apply Forall_forall. intros root Hr. unfold materialize_at. simpl. destruct subpath as [sub|]; [|done].
      destruct Hsc as [Hsc _]. rewrite Forall_forall in Hsc. specialize (Hsc root Hr).
      destruct (resolve_scoped_workspace_path root sub) as [path|] eqn:E; [|done].
      apply scoped_join in E. simpl. by rewrite E. }
    clear Hsc Hw. induction Hall as [|root roots Hr _ IH]; [done|]. simpl. rewrite Hr.
    destruct (join_subpath root subpath); simpl; [f_equal|]; exact IH. }
  rewrite Hm, resolve_paths. unfold resolve_entry. rewrite Ep. simpl. by rewrite Hw.
Qed.

(** Replacing the symbolic workspace-root entries by entries for the concrete
    roots changes no access, as long as every entry names a place inside of each
    root. *)
Theorem materialized_roots_same_access p roots path ctx :
  Forall (scoped roots) (fs_entries p) → workspace_roots ctx = roots →
  resolve_access (materialize_project_roots_with_path_uris p roots) path ctx = resolve_access p path ctx.
Proof.
  intros Hsc Hw. unfold materialize_project_roots_with_path_uris, try_materialize_project_roots_with_path_uris.
  assert (H : ∃ ms, materialize_entries roots (fs_entries p) = Some ms
                    ∧ ms ≫= resolve_entry ctx = fs_entries p ≫= resolve_entry ctx).
  { induction Hsc as [|e es He _ (ms & Hms & IH)]; [by exists []|]. simpl.
    destruct (project_roots_subpath (entry_path e)) as [[sub g]|] eqn:Es.
    - destruct (materialize_entry_resolves roots ctx e sub g Es He Hw) as [-> Hr]. rewrite Hms. simpl.
      eexists. split; [done|]. rewrite bind_app, Hr, IH; reflexivity.
    - rewrite Hms. simpl. eexists. split; [done|]. rewrite bind_cons, IH; reflexivity. }
  destruct H as (ms & -> & Hr). simpl. unfold resolve_access, resolved_entries. simpl. by rewrite Hr.
Qed.
End metadata.
