(* ===== verification/FsDenyFacts.v ===== *)
(** * Denied reads: what the matcher denies

    The prepared matcher denies a path exactly when a denied root other than the
    root of the file system is above it or one denied pattern matches it, and a
    pattern that cannot be resolved or compiled matches everything. Carrying
    denials over to another policy therefore never un-denies a path, and a policy
    that passes the validation of mandatory denials leaves what they deny
    unreadable. *)

From S2P Require Import Prelude RustStr Utf8 PathConvention PathUri PathText PathUriFacts.
From S2P Require Import FsPolicy FsPolicyFacts FsDeny FsTransform FsTransformFacts.
Open Scope list_scope.

Section deny_facts.
Context {U UE G GE : Type} `{UL : !UrlLib U UE} `{DG : !DenyGlobLib G GE}.
Implicit Types (p : FileSystemSandboxPolicy U) (e : FileSystemSandboxEntry U) (path : U)
  (ctx : FileSystemSandboxPolicyContext U) (m : PreparedReadDenyMatcher U G).

(** ** The matcher, pattern by pattern *)

Definition denies_root ctx path (x : U * FileSystemAccessMode) : bool :=
  bool_decide (x.2 = Deny) && negb (is_file_system_root ctx x.1) && path_starts_with path x.1.

Definition glob_text_denies (conv : PathConvention) path (text : str) : bool :=
  match build_glob_matcher (G:=G) (GE:=GE) text conv with
  | inr g => is_match_candidate g (glob_candidate conv path)
  | inl _ => true
  end.

Definition glob_denies ctx (conv : PathConvention) path (pattern : str) : bool :=
  match deny_read_glob (GE:=GE) ctx pattern with Ok text => glob_text_denies conv path text | _ => true end.

Definition denies_read p ctx (conv : PathConvention) path : bool :=
  existsb (denies_root ctx path) (resolved_entries p ctx)
  || existsb (glob_denies ctx conv path) (omap deny_glob_pattern (fs_entries p)).

Lemma build_matchers_denies conv path texts :
  ∃ ms inv, build_matchers (UE:=UE) (GE:=GE) conv FailClosed texts = Ok (ms, inv)
    ∧ inv || existsb (λ g, is_match_candidate g (glob_candidate conv path)) ms
      = existsb (glob_text_denies conv path) texts.
Proof.
  induction texts as [|t texts (ms & inv & IH & Hms)]; [by exists [], false|]. simpl. unfold glob_text_denies at 1.
  destruct (build_glob_matcher t conv) as [err|g]; rewrite IH; simpl; do 2 eexists; (split; [done|]); simpl.
  - done.
  - rewrite <- Hms. by destruct inv, (is_match_candidate _ _).
Qed.

Lemma existsb_denied_roots ctx path rs :
  existsb (λ root, path_starts_with path root)
    (map fst (List.filter (λ '(root, access), bool_decide (access = Deny) && negb (is_file_system_root ctx root)) rs))
  = existsb (denies_root ctx path) rs.
Proof.
  induction rs as [|[u a] rs IH]; [done|]. simpl. unfold denies_root at 1. simpl.
  destruct (bool_decide (a = Deny) && _); simpl; by rewrite IH.
Qed.

Lemma globs_denies ctx conv path patterns texts :
  collect (deny_read_glob (GE:=GE) ctx) patterns = Ok texts →
  existsb (glob_text_denies conv path) texts = existsb (glob_denies ctx conv path) patterns.
Proof.
  rewrite collect_Ok. induction 1 as [|x y xs ys Hxy _ IH]; [done|]. simpl. unfold glob_denies at 1.
  by rewrite Hxy, IH.
Qed.

Lemma globs_fail ctx conv path patterns err :
  collect (deny_read_glob (GE:=GE) ctx) patterns = Err err →
  existsb (glob_denies ctx conv path) patterns = true.
Proof.
  induction patterns as [|x xs IH]; simpl; [done|]. unfold glob_denies at 1.
  destruct (deny_read_glob ctx x); simpl; [|done..]. destruct (collect _ xs); simpl; [done| |done].
  intros [= ->]. rewrite IH by done. by rewrite orb_true_r.
Qed.

Lemma matcher_denies p ctx m path conv :
  read_deny_matcher p ctx = Some m → comparable_paths path ctx = Some conv →
  is_read_denied_uri m path ctx = denies_read p ctx conv path.
Proof.
  unfold read_deny_matcher. destruct (existsb _ _); [|done]. intros Hm Hc.
  unfold is_read_denied_uri, matches_prepared_read_deny, denies_read. rewrite Hc, <- existsb_denied_roots.
  unfold prepare_deny_read_matcher in Hm. pose proof Hc as Hc'. unfold comparable_paths in Hc'.
  destruct (infer_path_convention (cx_cwd ctx)) as [c|]; [|done]. simpl in Hc'.
  assert (c = conv) as -> by (destruct (_ && _); congruence). unfold deny_read_globs in Hm.
  destruct (collect _ _) as [texts|err|] eqn:Eg in Hm; [| |done].
  - destruct (build_matchers_denies conv path texts) as (ms & inv & Eb & Hd). rewrite Eb in Hm. injection Hm as <-.
    simpl. rewrite <- (globs_denies _ _ _ _ _ Eg), <- Hd. by destruct inv; rewrite ?orb_true_r.
  - injection Hm as <-. simpl. by rewrite (globs_fail _ _ _ _ _ Eg), orb_true_r.
Qed.

(** The matcher of denied reads fails closed and is otherwise exact: a path
    that cannot be compared is denied; any other is denied when a denied root, but
    for the root of the file system, is above it, or when one of the denied
    patterns matches it, where a pattern that cannot be resolved or compiled
    matches every path. *)
Theorem read_deny_matcher_exact p ctx m path :
  read_deny_matcher p ctx = Some m →
  is_read_denied_uri m path ctx
  = match comparable_paths path ctx with None => true | Some conv => denies_read p ctx conv path end.
Proof.
  intros Hm. destruct (comparable_paths path ctx) as [conv|] eqn:Hc; [by apply matcher_denies|].
  unfold is_read_denied_uri, matches_prepared_read_deny. by rewrite Hc.
Qed.

(** ** Keeping denials *)

Context `{LU : !LawfulUrl U UE}.

Lemma fold_push_keeps es es' e : e ∈ es → e ∈ foldl push_new es es'.
Proof.
  revert es. induction es' as [|x es' IH]; intros es He; simpl; [done|]. apply IH. unfold push_new.
  destruct (contains_entry es x); [done|]. apply elem_of_app. by left.
Qed.

Lemma fold_push_contains es es' e :
  e ∈ es' → ∃ e', e' ∈ foldl push_new es es' ∧ (e' = e ∨ entry_eqb e e' = true).
Proof.
  revert es. induction es' as [|x es' IH]; intros es; simpl; [by intros ?%not_elem_of_nil|].
  intros [->|He]%elem_of_cons; [|by apply IH].
  change (push_new es x) with (if contains_entry es x then es else es ++ [x]). destruct (contains_entry es x) eqn:Ec.
  - apply existsb_exists in Ec as (e' & Hin%list_elem_of_In & Heq). exists e'. split; [|by right]. by apply fold_push_keeps.
  - exists x. split; [|by left]. apply fold_push_keeps, elem_of_app. right. by left.
Qed.

(** On POSIX equal entries resolve to the same URIs. *)
Lemma entry_eqb_resolves ctx e e' u a :
  infer_path_convention (cx_cwd ctx) = Some Posix → entry_eqb e e' = true →
  (u, a) ∈ resolve_entry ctx e → (u, a) ∈ resolve_entry ctx e'.
Proof.
  intros Hp [[Hpath Ha%bool_decide_eq_true]%andb_true_iff _]%andb_true_iff. unfold resolve_entry.
  rewrite !list_elem_of_fmap, <- Ha. intros (v & [= -> ->] & Hv). exists v. split; [done|].
  rewrite list_elem_of_In, filter_In, bool_decide_eq_true, <- list_elem_of_In, Hp in Hv |- *.
  destruct Hv as [Hv Hi]. split; [|done].
  destruct (entry_path e), (entry_path e'); simpl in Hpath; try done.
  - apply list_elem_of_singleton in Hv as ->. destruct (path_uri_eqb_cases _ _ Hpath) as [->|(? & ? & _ & _ & Hw & _)]; [by left|congruence].
  - by apply bool_decide_eq_true in Hpath as ->.
Qed.

Lemma entry_eqb_glob e e' : entry_eqb e e' = true → deny_glob_pattern e = deny_glob_pattern e'.
Proof.
  intros [[Hpath Ha%bool_decide_eq_true]%andb_true_iff _]%andb_true_iff. unfold deny_glob_pattern. rewrite Ha.
  destruct (entry_path e), (entry_path e'); simpl in Hpath; try done. by apply bool_decide_eq_true in Hpath as ->.
Qed.

(** A policy that has the denials of another one denies what it denies. *)
Lemma denies_read_mono p q ctx conv path :
  infer_path_convention (cx_cwd ctx) = Some Posix →
  (∀ e, e ∈ fs_entries p → entry_access e = Deny →
     ∃ e', e' ∈ fs_entries q ∧ (e' = e ∨ entry_eqb e e' = true)) →
  denies_read p ctx conv path = true → denies_read q ctx conv path = true.
Proof.
  intros Hp Hsub. unfold denies_read. rewrite !orb_true_iff. intros [H|H]; [left|right].
  - apply existsb_exists in H as ([u a] & Hin%list_elem_of_In & Hd). apply existsb_exists. exists (u, a). split; [|done].
    unfold denies_root in Hd. simpl in Hd. apply andb_true_iff in Hd as [[->%bool_decide_eq_true _]%andb_true_iff _].
    unfold resolved_entries in *. apply list_elem_of_bind in Hin as (e & Hu & He).
    assert (Ha : entry_access e = Deny) by (unfold resolve_entry in Hu; by apply list_elem_of_fmap in Hu as (? & [= _ ->] & _)).
    destruct (Hsub e He Ha) as (e' & He' & Heq). apply list_elem_of_In, list_elem_of_bind. exists e'. split; [|done].
    destruct Heq as [->|Heq]; [done|]. by eapply entry_eqb_resolves.
  - apply existsb_exists in H as (pat & Hin%list_elem_of_In & Hd). apply existsb_exists. exists pat. split; [|done].
    apply list_elem_of_omap in Hin as (e & He & Hpat). apply list_elem_of_In, list_elem_of_omap.
    assert (Ha : entry_access e = Deny) by (unfold deny_glob_pattern in Hpat; by case_bool_decide).
    destruct (Hsub e He Ha) as (e' & He' & Heq). exists e'. split; [done|].
    destruct Heq as [->|Heq]; [done|]. by rewrite <- (entry_eqb_glob _ _ Heq).
Qed.

Lemma preserve_denials p existing e :
  fs_kind p ≠ ExternalSandbox → e ∈ fs_entries existing → entry_access e = Deny →
  ∃ e', e' ∈ fs_entries (preserve_deny_read_restrictions_from p existing) ∧ (e' = e ∨ entry_eqb e e' = true).
Proof.
  intros Hk He Ha. assert (Hd : e ∈ deny_entries (fs_entries existing)).
  { unfold deny_entries. by rewrite list_elem_of_In, filter_In, bool_decide_eq_true, <- list_elem_of_In. }
  assert (Hex : existsb (λ e, bool_decide (entry_access e = Deny)) (fs_entries existing) = true).
  { apply existsb_exists. exists e. split; [by apply list_elem_of_In|]. by apply bool_decide_eq_true. }
  unfold preserve_deny_read_restrictions_from. rewrite Hex.
  destruct (fs_kind p) eqn:E; [| |done]; simpl; rewrite ?E; simpl; by apply fold_push_contains.
Qed.

(** Replacing the allow side of a policy keeps its denials: on POSIX, after
    [preserve_deny_read_restrictions_from] every path whose reading the existing
    policy denied is still denied, by a root or by a pattern, unless the new
    policy leaves the file system to an external sandbox. *)
Theorem preserved_reads_stay_denied p existing ctx m m' path :
  fs_kind p ≠ ExternalSandbox → infer_path_convention (cx_cwd ctx) = Some Posix →
  read_deny_matcher existing ctx = Some m →
  read_deny_matcher (preserve_deny_read_restrictions_from p existing) ctx = Some m' →
  is_read_denied_uri m path ctx = true → is_read_denied_uri m' path ctx = true.
Proof.
  intros Hk Hp Hm Hm'. destruct (comparable_paths path ctx) as [conv|] eqn:Hc.
  - rewrite (matcher_denies _ _ _ _ _ Hm Hc), (matcher_denies _ _ _ _ _ Hm' Hc).
    apply denies_read_mono; [done|]. intros e He Ha. by apply preserve_denials.
  - intros _. unfold is_read_denied_uri, matches_prepared_read_deny. by rewrite Hc.
Qed.

(** ** Mandatory denials *)

(** [u] is a target of a readable entry that is not written as a path. *)
Definition symbolic_readable p ctx u : Prop :=
  ∃ e, e ∈ fs_entries p ∧ can_read (entry_access e) = true ∧ u ∈ entry_targets ctx (entry_path e)
       ∧ ∀ w, entry_path e ≠ FsPath w.

Lemma validated_entries selected required ctx :
  validate_managed_deny_read (G:=G) (GE:=GE) selected required ctx = Ok () →
  Forall (λ e, contains_entry (fs_entries selected) e = true) (fs_entries required)
  ∧ (has_context_read_denials required ctx = true →
     ∃ m, prepare_deny_read_matcher (GE:=GE) required ctx ReturnError = Ok m
       ∧ ∀ e w, e ∈ fs_entries selected → can_read (entry_access e) = true → entry_path e = FsPath w →
           infer_path_convention w = infer_path_convention (cx_cwd ctx) →
           matches_prepared_read_deny w ctx m = false).
Proof.
  unfold validate_managed_deny_read. intros H. apply res_bind_Ok in H as (v & Ev & H).
  apply map_err_Ok in Ev, H. unfold deny_read_validator_new in Ev. apply res_bind_Ok in Ev as (mo & Hmo & [= <-]).
  unfold deny_read_validate in H. destruct (find_map _ _) eqn:Ef; [done|]. simpl in H.
  destruct (existsb _ _) eqn:Ee in H; [done|]. clear H. split.
  - rewrite existsb_false_Forall in Ee. eapply Forall_impl; [exact Ee|]. intros e. simpl. by rewrite negb_false_iff.
  - intros Hc. rewrite Hc in Hmo. apply res_bind_Ok in Hmo as (m & Hm & [= <-]). exists m. split; [done|].
    intros e w He Hr Hp Hi. rewrite find_map_None in Ef. specialize (Ef e He). unfold violating_path in Ef.
    rewrite Hr, Hp, bool_decide_true in Ef by done. simpl in Ef. by destruct (matches_prepared_read_deny w ctx m).
Qed.

Lemma prepared_roots required ctx m d :
  prepare_deny_read_matcher (GE:=GE) required ctx ReturnError = Ok m →
  (d, Deny) ∈ resolved_entries required ctx → is_file_system_root ctx d = false → d ∈ denied_roots m.
Proof.
  intros Hm Hd Hr.
  assert (Hin : d ∈ map fst (List.filter (λ '(root, access), bool_decide (access = Deny) && negb (is_file_system_root ctx root))
                               (resolved_entries required ctx))).
  { apply list_elem_of_fmap. exists (d, Deny). split; [done|].
    rewrite list_elem_of_In, filter_In, <- list_elem_of_In, bool_decide_true, Hr by done. done. }
  unfold prepare_deny_read_matcher in Hm. destruct (infer_path_convention (cx_cwd ctx)); [|by injection Hm as <-].
  destruct (deny_read_globs _ _); [|done..]. apply res_bind_Ok in Hm as ([ms inv] & _ & [= <-]). done.
Qed.

(** C18. Mandatory denials hold: when a selected policy passes the validation
    against the required one, no path below a denied root of the required policy
    (other than the root of the file system) is readable under the selected
    policy, unless a readable entry that is not written as a path, a workspace
    root or temporary directory, lies inside the denied root. *)
Theorem managed_denials_unreadable selected required ctx d path l0 :
  validate_managed_deny_read (G:=G) (GE:=GE) selected required ctx = Ok () →
  fs_kind selected = Restricted → fs_kind required = Restricted →
  orderly (resolved_entries selected ctx) = true → orderly (resolved_entries required ctx) = true →
  (d, Deny) ∈ resolved_entries required ctx → is_file_system_root ctx d = false →
  (∀ u, symbolic_readable selected ctx u → path_starts_with u d = false) →
  placed ctx path l0 → path_starts_with path d = true →
  can_read_path selected path ctx = false.
Proof.
  intros Hv Ks Kr Os Or Hd Hroot Hsym Hp Hsw. destruct (validated_entries _ _ _ Hv) as [Hall Hread].
  pose proof Hd as Hd'. change (resolved_entries required ctx) with (resolve_entries ctx (fs_entries required)) in Hd'.
  apply elem_of_resolve_entries in Hd' as (r & Hr & Har & Hdr & Hdi).
  destruct (orderly_elem _ _ _ Or Hd) as [Cd Ld]. destruct Hp as (Hcmp & Cp & Lp).
  destruct (starts_with_located path d l0 Cp Cd Lp Ld Hsw) as (ld & Hld & Ad).
  assert (Hden : (ld, Deny) ∈ located selected ctx).
  { rewrite Forall_forall in Hall. specialize (Hall r Hr). apply existsb_exists in Hall as (e' & He'%list_elem_of_In & Heq).
    assert (Hx : (ld, Deny) ∈ located_entries ctx [r]).
    { apply elem_of_located. exists r, d. split_and!; [by left|done..]. }
    apply (entry_eqb_located ctx r e') in Hx; [|done]. apply elem_of_located in Hx as (e'' & u & E & Hrest).
    apply list_elem_of_singleton in E as ->.
    change (located selected ctx) with (located_entries ctx (fs_entries selected)). apply elem_of_located. eauto 10. }
  assert (Hc : has_context_read_denials required ctx = true).
  { unfold has_context_read_denials. rewrite Kr, bool_decide_true by done. simpl. apply existsb_exists.
    exists r. split; [by apply list_elem_of_In|]. rewrite Har, bool_decide_true by done. simpl.
    destruct (entry_path r) as [| |v]; try done. simpl. destruct v; try done. simpl in Hdr |- *.
    destruct (bool_decide (infer_path_convention (cx_cwd ctx) = Some Posix)); [done|by apply not_elem_of_nil in Hdr]. }
  destruct (Hread Hc) as (m & Hm & Hno). pose proof (prepared_roots _ _ _ _ Hm Hd Hroot) as Hin.
  pose proof (resolve_access_decides selected path ctx l0 Ks (conj Hcmp (conj Cp Lp)) Os) as D.
  unfold can_read_path. rewrite (decides_deny _ _ _ ld D Hden Ad); [done|].
  intros l a Hl Al Ha. destruct (decide (depth l ≤ depth ld)) as [?|Hlt]; [done|exfalso].
  change (located selected ctx) with (located_entries ctx (fs_entries selected)) in Hl.
  apply elem_of_located in Hl as (e & u & He & Hea & Hu & Hui & Hul).
  assert (Hure : (u, a) ∈ resolved_entries selected ctx).
  { change (resolved_entries selected ctx) with (resolve_entries ctx (fs_entries selected)).
    apply elem_of_resolve_entries. eauto 10. }
  destruct (orderly_elem _ _ _ Os Hure) as [Cu _].
  assert (Hud : path_starts_with u d = true).
  { apply (starts_with_above u d l ld); try done. eapply above_linear; [done..|lia]. }
  destruct (entry_path e) as [w|pat|sp] eqn:Ep; [|by apply not_elem_of_nil in Hu|].
  - apply list_elem_of_singleton in Hu as <-. rewrite <- Hea in Ha. specialize (Hno e u He Ha Ep Hui).
    unfold matches_prepared_read_deny in Hno. destruct (comparable_paths u ctx); [|done].
    apply orb_false_iff in Hno as [Hno _]. apply orb_false_iff in Hno as [_ Hno].
    rewrite (proj2 (existsb_exists _ _)) in Hno; [done|]. exists d. split; [by apply list_elem_of_In|done].
  - rewrite (Hsym u) in Hud; [done|]. exists e. rewrite Ep, Hea. split_and!; done.
Qed.
End deny_facts.
