(* ===== verification/FsSample.v ===== *)
(** * A concrete URL type

    File URLs as a host and percent-encoded segments, on which the theorems
    about paths and policies are tried: an instance of [UrlLib] that satisfies
    the laws. Percent coding is written out; hexadecimal digits take the place
    of base64, of which only the round trip matters. *)

From stdpp Require Import countable.
From stdpp Require Import gmap.
From S2P Require Import Prelude RustStr Utf8 PathConvention PathUri PathUriFacts FsPolicy.
From S2P Require Import PathText.
From S2P Require Import FsPolicyFacts FsDeny FsDenyFacts FsTransform FsTransformFacts.
From S2P Require Import FsWorkspace FsProfile.
Open Scope list_scope.

Record SUrl := { su_host : option str; su_segs : list str }.

#[global] Instance SUrl_eq : EqDecision SUrl.
Proof. solve_decision. Defined.

#[global] Instance SUrl_countable : Countable SUrl.
Proof.
  refine (inj_countable' (λ u, (su_host u, su_segs u)) (λ '(h, s), {| su_host := h; su_segs := s |}) _).
  by intros [].
Defined.

(** ** Percent coding *)

Definition hex_value (c : N) : option N :=
  if ((48 <=? c) && (c <=? 57))%N then Some (c - 48)%N
  else if ((65 <=? c) && (c <=? 70))%N then Some (c - 55)%N
  else if ((97 <=? c) && (c <=? 102))%N then Some (c - 87)%N
  else None.

Definition hex_digit (n : N) : N := if (n <? 10)%N then (48 + n)%N else (55 + n)%N.

Fixpoint pct_decode (bs : bytes) : bytes :=
  match bs with
  | [] => []
  | c :: bs' =>
      if (c =? 37)%N then
        match bs' with
        | x :: y :: rest =>
            match hex_value x, hex_value y with
            | Some a, Some b => (16 * a + b)%N :: pct_decode rest
            | _, _ => c :: pct_decode bs'
            end
        | _ => c :: pct_decode bs'
        end
      else c :: pct_decode bs'
  end.

Definition is_unreserved (c : N) : bool :=
  is_ascii_alphabetic c || is_ascii_digit c || bool_decide (c ∈ lit "-._~!$&'()*+,;=:@").

Definition pct_encode_byte (b : N) : str :=
  if is_unreserved b then [b] else [37; hex_digit (b / 16); hex_digit (b mod 16)]%N.
Definition pct_encode (bs : bytes) : str := bs ≫= pct_encode_byte.

(** ** The instance *)

Definition hex_encode (bs : bytes) : str := bs ≫= λ b, [hex_digit (b / 16); hex_digit (b mod 16)].
Fixpoint hex_decode (s : str) : option bytes :=
  match s with
  | [] => Some []
  | x :: y :: s' => a ← hex_value x; b ← hex_value y; bs ← hex_decode s'; Some ((16 * a + b)%N :: bs)
  | _ => None
  end.

Definition su_path (u : SUrl) : str := c_slash :: join [c_slash] (su_segs u).

Definition su_parse (s : str) : unit + SUrl :=
  match strip_prefix (lit "file://") s with
  | Some rest =>
      match split_char c_slash rest with
      | host :: segs =>
          inr {| su_host := if bool_decide (host = []) then None else Some host;
                 su_segs := match segs with [] => [[]] | _ => segs end |}
      | [] => inl ()
      end
  | None => inl ()
  end.

Definition su_with (u : SUrl) (segs : list str) : SUrl := {| su_host := su_host u; su_segs := segs |}.

Definition su_pop (u : SUrl) : SUrl :=
  su_with u (match removelast (su_segs u) with [] => [[]] | segs => segs end).

Definition su_push (s : str) (u : SUrl) : SUrl :=
  if bool_decide (s = lit ".") || bool_decide (s = lit "..") then u
  else su_with u (if bool_decide (su_segs u = [[]]) then [pct_encode (encode s)]
                  else su_segs u ++ [pct_encode (encode s)]).

(** Host and segments of a URL contain no slash, and there is at least one segment. *)
Definition su_wf (u : SUrl) : bool :=
  negb (bool_decide (c_slash ∈ default [] (su_host u))) && negb (bool_decide (su_segs u = [])) && forallb (λ s, negb (bool_decide (c_slash ∈ s))) (su_segs u).

#[global] Instance sample_url : UrlLib SUrl unit := {
  url_parse := su_parse;
  url_as_str u := if su_wf u then lit "file://" ++ default [] (su_host u) ++ su_path u else [];
  url_scheme _ := lit "file";
  url_username _ := [];
  url_password _ := None;
  url_port _ := None;
  url_query _ := None;
  url_fragment _ := None;
  url_host_str := su_host;
  url_path := su_path;
  url_path_segments u := if su_wf u then Some (su_segs u) else None;
  url_set_host h u := Some {| su_host := h; su_segs := su_segs u |};
  url_set_path p u := su_with u (split_char c_slash (drop 1 p));
  seg_pop_if_empty u := if bool_decide (1 < length (su_segs u)) && bool_decide (last (su_segs u) = Some [])
                        then su_with u (removelast (su_segs u)) else u;
  seg_pop := su_pop;
  seg_push := su_push;
  seg_clear u := su_with u [[]];
  decode_binary := pct_decode;
  url_decode s := res_ok (from_utf8 (pct_decode (encode s)));
  encode_binary := pct_encode;
  base64_encode := hex_encode;
  base64_decode := hex_decode;
}.

(** ** The laws *)

Lemma hex_slash : hex_value c_slash = None.
Proof. done. Qed.

(** One step of the decoder, with what is left to decode. *)
Definition pct_step (c : N) (bs : bytes) : N * bytes :=
  if (c =? 37)%N then
    match bs with
    | x :: y :: rest =>
        match hex_value x, hex_value y with
        | Some a, Some b => ((16 * a + b)%N, rest)
        | _, _ => (c, bs)
        end
    | _ => (c, bs)
    end
  else (c, bs).

Lemma pct_decode_cons c bs : pct_decode (c :: bs) = fst (pct_step c bs) :: pct_decode (snd (pct_step c bs)).
Proof. unfold pct_step. cbn [pct_decode]. by repeat case_match. Qed.

Lemma pct_step_length c bs : length (snd (pct_step c bs)) ≤ length bs.
Proof. unfold pct_step. repeat case_match; simpl; lia. Qed.

Lemma pct_step_slash c a b :
  pct_step c (a ++ c_slash :: b) = (fst (pct_step c a), snd (pct_step c a) ++ c_slash :: b).
Proof.
  unfold pct_step. destruct (c =? 37)%N; [|done]. destruct a as [|x [|y a]]; simpl.
  - by destruct b.
  - by destruct (hex_value x).
  - by destruct (hex_value x), (hex_value y).
Qed.

Lemma pct_decode_slash a b : pct_decode (a ++ c_slash :: b) = pct_decode a ++ c_slash :: pct_decode b.
Proof.
  induction a as [a IH] using (induction_ltof1 _ (@length N)). unfold ltof in IH.
  destruct a as [|c a]; [done|]. rewrite <- app_comm_cons, !pct_decode_cons, pct_step_slash. simpl.
  rewrite IH; [done|]. simpl. pose proof (pct_step_length c a). lia.
Qed.

Lemma hex_value_lower x : hex_value (ascii_lower x) = hex_value x.
Proof.
  unfold hex_value, ascii_lower. destruct ((65 <=? x) && (x <=? 90))%N eqn:E; [|done].
  apply andb_true_iff in E as [?%N.leb_le ?%N.leb_le].
  assert (H1 : ((48 <=? x) && (x <=? 57))%N = false) by (apply andb_false_iff; right; apply N.leb_gt; lia).
  assert (H2 : ((48 <=? x + 32) && (x + 32 <=? 57))%N = false) by (apply andb_false_iff; right; apply N.leb_gt; lia).
  assert (H3 : ((65 <=? x + 32) && (x + 32 <=? 70))%N = false) by (apply andb_false_iff; right; apply N.leb_gt; lia).
  rewrite H1, H2, H3. destruct (N.leb_spec x 70).
  - rewrite (proj2 (N.leb_le 97 (x + 32))), (proj2 (N.leb_le (x + 32) 102)), (proj2 (N.leb_le 65 x)) by lia.
    simpl. f_equal. lia.
  - rewrite (proj2 (N.leb_gt (x + 32) 102)) by lia. rewrite !andb_false_r.
    by rewrite (proj2 (N.leb_gt 97 x)) by lia.
Qed.

Lemma ascii_lower_twice x : ascii_lower (ascii_lower x) = ascii_lower x.
Proof.
  unfold ascii_lower. destruct ((65 <=? x) && (x <=? 90))%N eqn:Ex; [|by rewrite Ex].
  apply andb_true_iff in Ex as [?%N.leb_le ?%N.leb_le].
  by rewrite (proj2 (N.leb_gt (x + 32) 90)), andb_false_r by lia.
Qed.

Lemma ascii_lower_percent c : (ascii_lower c =? 37)%N = (c =? 37)%N.
Proof.
  unfold ascii_lower. destruct ((65 <=? c) && (c <=? 90))%N eqn:E; [|done].
  apply andb_true_iff in E as [?%N.leb_le _]. destruct (N.eqb_spec (c + 32) 37), (N.eqb_spec c 37); lia || done.
Qed.

Lemma pct_step_lower c a :
  ascii_lower (fst (pct_step (ascii_lower c) (to_ascii_lowercase a))) = ascii_lower (fst (pct_step c a))
  ∧ snd (pct_step (ascii_lower c) (to_ascii_lowercase a)) = to_ascii_lowercase (snd (pct_step c a)).
Proof.
  unfold pct_step. rewrite ascii_lower_percent. destruct (c =? 37)%N; [|simpl; by rewrite ascii_lower_twice].
  destruct a as [|x [|y a]]; [simpl; by rewrite ascii_lower_twice..|].
  change (to_ascii_lowercase (x :: y :: a)) with (ascii_lower x :: ascii_lower y :: to_ascii_lowercase a).
  cbv iota beta. rewrite !hex_value_lower.
  destruct (hex_value x), (hex_value y); simpl; by rewrite ?ascii_lower_twice.
Qed.

Lemma pct_decode_lower a :
  to_ascii_lowercase (pct_decode (to_ascii_lowercase a)) = to_ascii_lowercase (pct_decode a).
Proof.
  induction a as [a IH] using (induction_ltof1 _ (@length N)). unfold ltof in IH.
  destruct a as [|c a]; [done|].
  change (to_ascii_lowercase (c :: a)) with (ascii_lower c :: to_ascii_lowercase a).
  rewrite !pct_decode_cons. destruct (pct_step_lower c a) as [E1 E2].
  change (to_ascii_lowercase (?x :: ?l)) with (ascii_lower x :: to_ascii_lowercase l).
  rewrite E1, E2, IH; [done|]. simpl. pose proof (pct_step_length c a). lia.
Qed.

#[global] Instance sample_lawful : LawfulUrl SUrl unit.
Proof.
  split.
  - intros u segs. simpl. destruct (su_wf u) eqn:E; [|done]. intros [= <-]. exists (join [c_slash] (su_segs u)).
    split; [done|]. apply andb_true_iff in E as [[_ E1%negb_true_iff%bool_decide_eq_false]%andb_true_iff E2]. symmetry.
    apply split_join; [done|]. apply Forall_forall. rewrite forallb_forall in E2.
    intros x Hx%list_elem_of_In%E2. by apply negb_true_iff, bool_decide_eq_false in Hx.
  - intros [|c a]; [done|]. split; [|done]. change (decode_binary (c :: a)) with (pct_decode (c :: a)).
    by rewrite pct_decode_cons.
  - apply pct_decode_slash.
  - intros a b H. simpl. by rewrite <- (pct_decode_lower a), <- (pct_decode_lower b), H.
  - done.
Qed.

(** ** The laws of segments *)

Lemma hex_digit_value n : (n < 16)%N → hex_value (hex_digit n) = Some n.
Proof.
  intros Hn. assert (H : n ∈ [0;1;2;3;4;5;6;7;8;9;10;11;12;13;14;15]%N) by (rewrite !elem_of_cons; lia).
  repeat (apply elem_of_cons in H as [->|H]; [reflexivity|]). by apply not_elem_of_nil in H.
Qed.

Lemma pct_decode_encode bs : Forall (λ b, b < 256)%N bs → pct_decode (pct_encode bs) = bs.
Proof.
  unfold pct_encode. induction 1 as [|b bs Hb _ IH]; [done|]. rewrite bind_cons. unfold pct_encode_byte at 1.
  destruct (is_unreserved b) eqn:E.
  - simpl app. rewrite pct_decode_cons. unfold pct_step. destruct (N.eqb_spec b 37) as [->|_]; [done|]. simpl. by rewrite IH.
  - simpl app. rewrite pct_decode_cons. unfold pct_step.
    rewrite !hex_digit_value by (apply N.Div0.div_lt_upper_bound || apply N.mod_lt; lia). simpl. rewrite IH. f_equal.
    by rewrite <- N.div_mod'.
Qed.

Lemma encode_bytes s : Forall is_scalar s → Forall (λ b, b < 256)%N (encode s).
Proof.
  intros Hs. unfold encode. apply Forall_bind. eapply Forall_impl; [exact Hs|]. intros c Hc.
  assert (Hc' : (c < 1114112)%N) by (destruct Hc; lia).
  assert (Hm : ∀ x, (128 + x mod 64 < 256)%N) by (intros x; pose proof (N.mod_lt x 64 ltac:(done)); lia).
  assert (Hd : ∀ k q m, (c < q * m)%N → (q ≠ 0)%N → (k + m ≤ 256)%N → (k + c / q < 256)%N).
  { intros k q m Hlt Hq Hk. pose proof (N.Div0.div_lt_upper_bound c q m Hlt). lia. }
  unfold compose, encode_char. destruct (N.ltb_spec c 128); [|destruct (N.ltb_spec c 2048); [|destruct (N.ltb_spec c 65536)]];
    repeat apply Forall_cons_2; try apply Forall_nil_2; auto.
  - lia.
  - apply (Hd _ 64 32)%N; lia.
  - apply (Hd _ 4096 16)%N; lia.
  - apply (Hd _ 262144 5)%N; lia.
Qed.

Lemma encode_ascii_str s : Forall (λ c, c < 128)%N s → encode s = s.
Proof.
  induction 1 as [|c s Hc _ IH]; [done|]. unfold encode in *. rewrite bind_cons, IH. unfold encode_char.
  by rewrite (proj2 (N.ltb_lt c 128)).
Qed.

Lemma hex_digit_range n : (n < 16)%N → (hex_digit n < 128)%N ∧ hex_digit n ≠ c_slash.
Proof.
  intros Hn. unfold hex_digit, c_slash. destruct (N.ltb_spec n 10); split; lia.
Qed.

Lemma pct_encode_chars bs : Forall (λ b, b < 256)%N bs → Forall (λ c, (c < 128)%N ∧ c ≠ c_slash) (pct_encode bs).
Proof.
  intros Hbs. unfold pct_encode. apply Forall_bind. eapply Forall_impl; [exact Hbs|]. intros b Hb. simpl in Hb.
  unfold compose, pct_encode_byte. destruct (is_unreserved b) eqn:E.
  - apply Forall_singleton. unfold is_unreserved, is_ascii_alphabetic, is_ascii_digit in E.
    apply orb_true_iff in E as [[E|E]%orb_true_iff|E%bool_decide_eq_true].
    + apply orb_true_iff in E as [[?%N.leb_le ?%N.leb_le]%andb_true_iff|[?%N.leb_le ?%N.leb_le]%andb_true_iff];
        unfold c_slash; split; lia.
    + apply andb_true_iff in E as [?%N.leb_le ?%N.leb_le]. unfold c_slash; split; lia.
    + assert (Hp : Forall (λ c, (c < 128)%N ∧ c ≠ c_slash) (lit "-._~!$&'()*+,;=:@")) by decide_now.
      rewrite Forall_forall in Hp. by apply Hp.
  - repeat apply Forall_cons_2; [done| | |constructor]; apply hex_digit_range.
    + apply N.Div0.div_lt_upper_bound; lia.
    + apply N.mod_lt. done.
Qed.

Lemma su_wf_segs u segs : su_wf u = true → segs ≠ [] → Forall (λ s, c_slash ∉ s) segs → su_wf (su_with u segs) = true.
Proof.
  unfold su_wf. intros [[H1 _]%andb_true_iff _]%andb_true_iff Hne Hall. simpl. rewrite H1, bool_decide_false by done. simpl.
  apply forallb_forall. rewrite Forall_forall in Hall. intros x Hx%list_elem_of_In.
  apply negb_true_iff, bool_decide_eq_false. by apply Hall.
Qed.

Lemma su_wf_elem u : su_wf u = true → su_segs u ≠ [] ∧ Forall (λ s, c_slash ∉ s) (su_segs u).
Proof.
  unfold su_wf. intros [[_ H1]%andb_true_iff H2]%andb_true_iff. apply negb_true_iff, bool_decide_eq_false in H1.
  split; [done|]. apply Forall_forall. rewrite forallb_forall in H2. intros x Hx%list_elem_of_In%H2.
  by apply negb_true_iff, bool_decide_eq_false in Hx.
Qed.

Lemma sample_segments (u : SUrl) segs :
  url_path_segments u = Some segs ↔ su_wf u = true ∧ segs = su_segs u.
Proof. simpl. destruct (su_wf u); naive_solver. Qed.

#[global] Instance sample_segments_lawful : LawfulSegments SUrl unit.
Proof.
  split.
  - intros a Ha. simpl. induction a as [|c a IH]; [done|]. apply not_elem_of_cons in Ha as [Hc Ha].
    rewrite pct_decode_cons. unfold pct_step. rewrite (proj2 (N.eqb_neq c 37)) by congruence. simpl. by rewrite IH.
  - intros u s. simpl. destruct (su_wf u) eqn:E; [|done]. intros H. apply strip_prefix_Some in H.
    assert (Hh : default [] (su_host u) = []).
    { unfold su_wf in E. apply andb_true_iff in E as [[E _]%andb_true_iff _].
      apply negb_true_iff, bool_decide_eq_false in E. destruct (default [] (su_host u)) as [|c l]; [done|].
      apply (f_equal (drop 7)) in H. vm_compute in H. injection H as -> _. destruct E. by left. }
    rewrite Hh in H. change (0%N ∈ pct_decode (encode (su_path u))).
    assert (Hp : su_path u = lit "/%00/bad/path/" ++ s).
    { apply (f_equal (drop 7)) in H. exact H. }
    rewrite Hp, encode_app.
    change (encode (lit "/%00/bad/path/")) with (c_slash :: 37 :: 48 :: 48 :: lit "/bad/path/")%N.
    rewrite <- !app_comm_cons, !pct_decode_cons. right. by left.
  - intros u segs [Hw ->]%sample_segments. apply sample_segments. simpl. unfold su_pop. split; [|done].
    destruct (su_wf_elem u Hw) as [Hne Hall]. apply su_wf_segs; [done|by destruct (removelast (su_segs u))|].
    apply Forall_forall. intros x Hx. rewrite Forall_forall in Hall.
    apply (elem_of_popped (su_segs u)) in Hx as [Hx| ->]; [by apply Hall|]. by intros ?%not_elem_of_nil.
  - intros u segs [Hw ->]%sample_segments. apply sample_segments. simpl. unfold popped_if_empty.
    destruct (su_wf_elem u Hw) as [Hne Hall]. destruct (_ && _) eqn:E; [|done]. split; [|done].
    apply andb_true_iff in E as [Hlen%bool_decide_eq_true _]. apply su_wf_segs; [done| |].
    + by destruct (su_segs u) as [|? [|? ?]]; simpl in *; try lia.
    + apply Forall_forall. intros x ?%elem_of_removelast. rewrite Forall_forall in Hall. auto.
  - intros u segs s [Hw ->]%sample_segments Ho. destruct (ordinary_spec s Ho) as (_ & Hd & _ & _ & Hsc).
    destruct (su_wf_elem u Hw) as [Hne Hall]. exists (pct_encode (encode s)).
    pose proof (pct_encode_chars _ (encode_bytes s Hsc)) as Hch. split.
    + apply sample_segments. unfold is_dot_segment in Hd. simpl. unfold su_push. rewrite Hd. simpl. split; [|done].
      assert (Hx : c_slash ∉ pct_encode (encode s)).
      { rewrite Forall_forall in Hch. intros H%Hch. by destruct H. }
      apply su_wf_segs; [done|destruct (bool_decide (su_segs u = [[]])); [done|by intros [_ ?]%app_eq_nil]|].
      destruct (bool_decide (su_segs u = [[]])); [by apply Forall_singleton|]. apply Forall_app. split; [done|by apply Forall_singleton].
    + simpl. rewrite encode_ascii_str; [by apply pct_decode_encode, encode_bytes|].
      eapply Forall_impl; [exact Hch|]. naive_solver.
  - intros x. destruct x as [|d [|c [|t [|a [|? ?]]]]]; try done; simpl.
    + intros [Hd ->%N.eqb_eq]%andb_true_iff. exists d. split; [done|]. destruct (drive_text d Hd) as [E _].
      change (pct_decode (encode [d; 58%N]) = [d; 58%N]). rewrite E, pct_decode_cons. unfold pct_step.
      by destruct (N.eqb_spec d 37) as [->|].
    + intros [[[Hd ->%N.eqb_eq]%andb_true_iff ->%N.eqb_eq]%andb_true_iff Ha]%andb_true_iff. exists d. split; [done|].
      assert (Hd' : encode [d] = [d]).
      { destruct (drive_text d Hd) as [E _]. unfold encode in *. simpl in *. rewrite app_nil_r.
        unfold encode_char in *. by destruct (d <? 128)%N; [|destruct (d <? 2048)%N; [|destruct (d <? 65536)%N]]. }
      assert (E : encode [d; 37; 51; a]%N = d :: [37; 51; a]%N).
      { change ([d; 37; 51; a])%N with ([d] ++ [37; 51; a])%N. rewrite encode_app, Hd'.
        apply orb_true_iff in Ha as [->%N.eqb_eq| ->%N.eqb_eq]; done. }
      change (pct_decode (encode [d; 37; 51; a]%N) = [d; 58%N]).
      rewrite E, pct_decode_cons. unfold pct_step at 1 2. destruct (N.eqb_spec d 37) as [->|]; [done|]. simpl fst. simpl snd.
      apply orb_true_iff in Ha as [->%N.eqb_eq| ->%N.eqb_eq]; done.
  - exists {| su_host := None; su_segs := [[]] |}. split_and!; done.
  - intros u. split_and!; [done| |done|].
    + simpl. by destruct (_ && _).
    + intros s _. simpl. unfold su_push. by destruct (_ || _).
  - done.
  - done.
Qed.

(** * Paths and policies by example

    The theorems about paths and policies at concrete inputs over the sample
    URLs, and the examples behind the findings. *)

(** A glob that matches the bytes it is written with. *)
#[global] Instance literal_globs : DenyGlobLib str unit := {
  build_glob _ _ s := inr s;
  is_match_candidate g b := bool_decide (encode g = b);
}.

Definition at_path (segs : list str) : SUrl := {| su_host := None; su_segs := segs |}.
Definition u_root : SUrl := at_path [[]].
Definition u_w : SUrl := at_path [lit "w"].
Definition u_wa : SUrl := at_path [lit "w"; lit "a"].
Definition u_wab : SUrl := at_path [lit "w"; lit "a"; lit "b"].
Definition u_secret : SUrl := at_path [lit "secret"].
Definition u_key : SUrl := at_path [lit "secret"; lit "key"].
Definition u_git : SUrl := at_path [lit "w"; lit ".git"].

Definition s_ctx : FileSystemSandboxPolicyContext SUrl :=
  {| cx_cwd := u_w; workspace_roots := [u_w]; user_home_dir := None;
     temporary_directories := Some [at_path [lit "var"; lit "tmp"]] |}.

Definition on (u : SUrl) (a : FileSystemAccessMode) : FileSystemSandboxEntry SUrl := entry_new (FsPath u) a.
Definition perms (es : list (FileSystemSandboxEntry SUrl)) : FileSystemPermissions SUrl :=
  {| perm_entries := es; perm_glob_scan_max_depth := None |}.

Definition posix_loc (segs : list bytes) : loc := (Posix, None, segs).

(** Facts about samples are computed. *)
Ltac evaluate := vm_compute; (reflexivity || discriminate).

Lemma placed_sample u segs :
  bool_decide (comparable_paths u s_ctx ≠ None) && is_clean u && bool_decide (location u = Some (posix_loc segs)) = true →
  placed s_ctx u (posix_loc segs).
Proof.
  intros [[H1%bool_decide_eq_true H2]%andb_true_iff H3%bool_decide_eq_true]%andb_true_iff. done.
Qed.

Lemma placed_wab : placed s_ctx u_wab (posix_loc [lit "w"; lit "a"; lit "b"]).
Proof. apply placed_sample. evaluate. Qed.

Lemma nul_free_sample u : bool_decide (0%N ∉ decode_binary (encode (url_path u))) = true → nul_free u.
Proof. intros H. by apply bool_decide_eq_true in H. Qed.

(** ** Paths *)

Lemma ancestors_reach_root_witness :
  ∃ r, last (ancestors u_wab) = Some r ∧ parent r = None.
Proof.
  destruct (ancestors_reach_root u_wab Posix None [lit "w"; lit "a"; lit "b"]) as (_ & r & H1 & H2 & _);
    [apply nul_free_sample; evaluate|evaluate|evaluate|]. by exists r.
Defined.

Lemma at_wa : at_segments Posix None u_wa [lit "w"; lit "a"].
Proof. split; [evaluate|evaluate|evaluate|apply nul_free_sample; evaluate|evaluate]. Qed.

Lemma join_relative_witness :
  ∃ v, path_uri_join u_wa (lit "../x/./y") = Ok v ∧ location v = Some (posix_loc [lit "w"; lit "x"; lit "y"]).
Proof.
  destruct (join_relative u_wa [lit "w"; lit "a"] (lit "../x/./y")) as (v & Hv & Hl);
    [exact at_wa|right; split; [done|by repeat constructor]|evaluate|done|evaluate|evaluate|by repeat constructor|].
  exists v. split; [exact Hv|]. rewrite Hl. evaluate.
Defined.

(** ** Policies *)

Definition s_policy : FileSystemSandboxPolicy SUrl :=
  restricted [entry_new (FsSpecial SpRoot) Read; on u_w Write; on u_wa Deny; on u_wab Read].

Lemma resolve_access_nearest_witness : resolve_access s_policy u_wab s_ctx = Read.
Proof.
  rewrite (resolve_access_nearest s_policy u_wab s_ctx (Posix, None) [lit "w"; lit "a"; lit "b"]);
    [evaluate|done|exact placed_wab|evaluate].
Defined.

Definition s_requested : FileSystemPermissions SUrl := perms [on u_w Write; on u_wa Deny].
Definition s_granted : FileSystemPermissions SUrl := perms [on u_w Read; on u_wab Write; on u_secret Read].

Lemma intersect_reads_requested_witness :
  ∃ result, intersect_file_system (G:=str) s_requested s_granted s_ctx = Some result
    ∧ can_read_path (policy_of_permissions result) (at_path [lit "w"; lit "c"]) s_ctx = true
    ∧ can_read_path (policy_of_permissions s_requested) (at_path [lit "w"; lit "c"]) s_ctx = true.
Proof.
  destruct (intersect_file_system (G:=str) s_requested s_granted s_ctx) as [result|] eqn:E; [|by vm_compute in E].
  exists result. assert (Hr : can_read_path (policy_of_permissions result) (at_path [lit "w"; lit "c"]) s_ctx = true).
  { vm_compute in E. injection E as <-. evaluate. }
  split_and!; [done|done|].
  apply (intersect_reads_requested (G:=str) s_requested s_granted s_ctx result _ (posix_loc [lit "w"; lit "c"]));
    [done|evaluate|evaluate|apply placed_sample; evaluate|done].
Defined.

Lemma intersect_within_grant_witness :
  ∃ result, intersect_file_system (G:=str) s_requested s_granted s_ctx = Some result
    ∧ cap_le (resolve_access (policy_of_permissions result) u_wab s_ctx)
             (resolve_access (policy_of_permissions s_granted) u_wab s_ctx).
Proof.
  destruct (intersect_file_system (G:=str) s_requested s_granted s_ctx) as [result|] eqn:E; [|by vm_compute in E].
  exists result. split; [done|].
  apply (intersect_within_grant (G:=str) s_requested s_granted s_ctx result _ (posix_loc [lit "w"; lit "a"; lit "b"]));
    [done|evaluate|evaluate|by repeat constructor|by intros ?|exact placed_wab].
Defined.

Definition s_overlay : AdditionalPermissionProfile SUrl :=
  {| ap_network := Some enabled_network; ap_file_system := Some (perms [on u_wa Write; on u_wab Read]) |}.

Lemma overlay_access_witness :
  resolve_access (effective_file_system_sandbox_policy s_policy (Some s_overlay)) u_wa s_ctx = Deny.
Proof.
  destruct (overlay_access s_policy s_overlay (perms [on u_wa Write; on u_wab Read]) u_wa s_ctx
              (posix_loc [lit "w"; lit "a"])) as [_ H];
    [done|done|evaluate|evaluate|apply placed_sample; evaluate|].
  apply (H (posix_loc [lit "w"; lit "a"])).
  - apply elem_of_locate_all. exists u_wa. split; [|evaluate]. do 2 right. by left.
  - apply above_refl.
  - intros l a _ Ha _. apply above_depth in Ha. exact Ha.
Defined.

Lemma merged_grants_overlay_witness :
  resolve_access (effective_file_system_sandbox_policy s_policy
                    (merge_permission_profiles (Some s_overlay) (Some s_overlay))) u_wab s_ctx
  = resolve_access (effective_file_system_sandbox_policy
                      (effective_file_system_sandbox_policy s_policy (Some s_overlay)) (Some s_overlay)) u_wab s_ctx.
Proof.
  apply (merged_grants_overlay s_policy (Some s_overlay) (Some s_overlay) NetRestricted u_wab s_ctx
           (posix_loc [lit "w"; lit "a"; lit "b"])); [done|evaluate|evaluate|evaluate|exact placed_wab].
Defined.

Definition s_full : FileSystemSandboxPolicy SUrl :=
  restricted [entry_new (FsSpecial SpRoot) Write; on u_wa Read; on u_wa Write;
              entry_new (FsSpecial SpSlashTmp) Read; on (at_path [lit "tmp"]) Write].

Lemma full_disk_writes_everything_witness : resolve_access s_full u_wab s_ctx = Write.
Proof.
  apply (full_disk_writes_everything s_full u_wab s_ctx (posix_loc [lit "w"; lit "a"; lit "b"]));
    [evaluate| |evaluate|exact placed_wab].
  split; [apply nul_free_sample; evaluate|]. exists [lit "w"]. evaluate.
Defined.

Definition s_git : FileSystemSandboxPolicy SUrl :=
  restricted [on u_w Write; on (at_path [lit "w"; lit ".git"; lit "hooks"]) Write].
Definition u_hook : SUrl := at_path [lit "w"; lit ".git"; lit "hooks"; lit "x"].

Lemma metadata_write_needs_rule_witness :
  ∃ protected' root, in_metadata s_git s_ctx u_hook protected' ∧ path_starts_with root protected' = true.
Proof.
  destruct (metadata_write_needs_rule s_git u_hook s_ctx u_git) as (protected' & root & Hin & _ & _ & Hs);
    [done|evaluate|evaluate| |by exists protected', root].
  exists u_w, (lit ".git"). split_and!; [by left|by left|evaluate|evaluate].
Defined.

(** A host on which [/data/.git] is a file that points to [/srv/repo], and
    [/data/.codex] is a directory. *)
Definition data_host : HostFiles SUrl :=
  {| home_directory := Some (at_path [lit "home"]);
     is_file u := bool_decide (u = at_path [lit "data"; lit ".git"]);
     is_dir u := bool_decide (u = at_path [lit "data"; lit ".codex"]);
     path_exists u := bool_decide (u = at_path [lit "srv"; lit "repo"]);
     read_to_string u := Some (lit "gitdir: ../srv/repo ") |}.

Example writable_root_protection :
  default_read_only_subpaths_for_writable_root Posix data_host (at_path [lit "data"]) false
  = [at_path [lit "srv"; lit "repo"]; at_path [lit "data"; lit ".git"]; at_path [lit "data"; lit ".codex"]].
Proof. vm_compute. reflexivity. Qed.

Example writable_root_written :
  let p := workspace_write Posix data_host [at_path [lit "data"]] false false in
  can_write_path p (at_path [lit "data"; lit "x"]) s_ctx = true
  ∧ can_write_path p (at_path [lit "data"; lit ".git"; lit "x"]) s_ctx = false
  ∧ can_write_path p (at_path [lit "srv"; lit "repo"; lit "x"]) s_ctx = false.
Proof. split_and!; vm_compute; reflexivity. Qed.

Lemma workspace_write_confined_witness :
  ∃ place, place ∈ workspace_places s_ctx [at_path [lit "data"]] [u_w] false false
    ∧ path_starts_with (at_path [lit "data"; lit "x"]) place = true.
Proof.
  destruct (workspace_write_confined Posix data_host [at_path [lit "data"]] [u_w] false false
    (with_materialized_project_roots_for_path_uris (workspace_write Posix data_host [at_path [lit "data"]] false false) [u_w])
    (at_path [lit "data"; lit "x"]) s_ctx) as [H _]; [constructor|evaluate|exact H].
Defined.

Definition s_symbolic : FileSystemSandboxPolicy SUrl :=
  restricted [entry_new (FsSpecial (SpProjectRoots None)) Write;
              entry_new (FsSpecial (SpProjectRoots (Some (lit "a")))) Read].

Lemma materialized_roots_same_access_witness :
  resolve_access (materialize_project_roots_with_path_uris s_symbolic [u_w]) u_wab s_ctx
  = resolve_access s_symbolic u_wab s_ctx.
Proof.
  apply (materialized_roots_same_access s_symbolic [u_w] u_wab s_ctx); [|done].
  apply Forall_cons; split; [done|]. apply Forall_singleton. split; [|evaluate]. apply Forall_singleton. evaluate.
Defined.

(** ** Profiles *)

Definition s_profile : PermissionProfile SUrl := Managed (MfsRestricted (fs_entries s_policy) (Some 3)) NetEnabled.

Lemma profile_roundtrip_witness :
  from_runtime_permissions_with_enforcement (enforcement s_profile) (to_runtime_permissions s_profile).1
    (to_runtime_permissions s_profile).2 = Some s_profile.
Proof. apply (profile_roundtrip s_profile). done. Defined.

Lemma read_only_access_exact_witness :
  ∃ ro, intersect_with_read_only s_profile = Some ro
    ∧ resolve_access (file_system_sandbox_policy ro) u_w s_ctx = Read.
Proof.
  destruct (intersect_with_read_only s_profile) as [ro|] eqn:E; [|done]. exists ro. split; [done|].
  destruct (read_only_access_exact s_profile ro u_w s_ctx E eq_refl) as [-> _]. evaluate.
Defined.

(** ** Denials *)

Definition s_denials : FileSystemSandboxPolicy SUrl :=
  restricted [on u_secret Deny; entry_new (FsGlobPattern (lit "/w/x.env")) Deny].
Definition u_env : SUrl := at_path [lit "w"; lit "x.env"].

Lemma read_deny_matcher_exact_witness :
  ∃ m : PreparedReadDenyMatcher SUrl str, read_deny_matcher s_denials s_ctx = Some m
    ∧ is_read_denied_uri m u_env s_ctx = true.
Proof.
  destruct (read_deny_matcher (G:=str) s_denials s_ctx) as [m|] eqn:E; [|by vm_compute in E].
  exists m. split; [done|]. rewrite (read_deny_matcher_exact s_denials s_ctx m u_env E). evaluate.
Defined.

Lemma preserved_reads_stay_denied_witness :
  ∃ m' : PreparedReadDenyMatcher SUrl str,
    read_deny_matcher (preserve_deny_read_restrictions_from unrestricted s_denials) s_ctx = Some m'
    ∧ is_read_denied_uri m' u_env s_ctx = true.
Proof.
  destruct (read_deny_matcher (G:=str) s_denials s_ctx) as [m|] eqn:E; [|by vm_compute in E].
  destruct (read_deny_matcher (G:=str) (preserve_deny_read_restrictions_from unrestricted s_denials) s_ctx)
    as [m'|] eqn:E'; [|by vm_compute in E'].
  exists m'. split; [done|].
  apply (preserved_reads_stay_denied unrestricted s_denials s_ctx m m' u_env); [done|evaluate|done|done|].
  vm_compute in E. injection E as <-. evaluate.
Defined.

Definition s_selected : FileSystemSandboxPolicy SUrl :=
  restricted [entry_new (FsSpecial SpRoot) Read; on u_w Write; on u_secret Deny].
Definition s_required : FileSystemSandboxPolicy SUrl := restricted [on u_secret Deny].

Lemma managed_denials_unreadable_witness : can_read_path s_selected u_key s_ctx = false.
Proof.
  apply (managed_denials_unreadable (G:=str) (GE:=unit) s_selected s_required s_ctx u_secret u_key
           (posix_loc [lit "secret"; lit "key"]));
    [evaluate|done|done|evaluate|evaluate|by left|evaluate| |apply placed_sample; evaluate|evaluate].
  intros u (e & He & Hr & Hu & Hn).
  repeat (apply elem_of_cons in He as [->|He]; [try (by destruct (Hn _ eq_refl))|]); [|by apply not_elem_of_nil in He].
  vm_compute in Hu. apply list_elem_of_singleton in Hu as ->. evaluate.
Defined.

(** ** Findings *)

Definition u_deep : SUrl := at_path [lit "a"; lit ".git"; lit "b"; lit ".git"; lit "x"].
Definition nested_roots : list (FileSystemSandboxEntry SUrl) :=
  [on (at_path [lit "a"]) Write; on (at_path [lit "a"; lit ".git"; lit "b"]) Write].

(** Of the protected directories above a path only the first one is looked at, so
    that the protection of a nested metadata directory depends on the order of
    the entries. *)
Theorem metadata_denial_order_dependent :
  metadata_write_denial (restricted nested_roots) u_deep s_ctx = None
  ∧ metadata_write_denial (restricted (rev nested_roots)) u_deep s_ctx = Some (lit ".git").
Proof. split; evaluate. Qed.

(** A read entry that narrows a requested write is not part of the intersection
    with a grant of the whole directory. *)
Theorem intersection_drops_read_carve_out :
  ∃ result, intersect_file_system (G:=str) (perms [on u_w Write; on u_wa Read]) (perms [on u_w Write]) s_ctx = Some result
    ∧ can_write_path (policy_of_permissions (perms [on u_w Write; on u_wa Read])) u_wab s_ctx = false
    ∧ can_write_path (policy_of_permissions result) u_wab s_ctx = true.
Proof.
  destruct (intersect_file_system (G:=str) (perms [on u_w Write; on u_wa Read]) (perms [on u_w Write]) s_ctx)
    as [result|] eqn:E; [|by vm_compute in E].
  exists result. split; [done|]. vm_compute in E. injection E as <-. split; evaluate.
Qed.

(** Why [intersect_within_grant] asks for a request without glob denials: an entry
    of the grant that narrows another one is dropped where a glob of the request
    denies its path, and globs do not count in [resolve_access]. The path cannot be
    read, but among the entries alone it has more than the grant gives. *)
Theorem intersection_glob_denial_widens :
  ∃ result,
    intersect_file_system (G:=str) (perms [on u_w Write; entry_new (FsGlobPattern (lit "/w/a")) Deny])
      (perms [on u_w Write; on u_wa Read]) s_ctx = Some result
    ∧ resolve_access (policy_of_permissions (perms [on u_w Write; on u_wa Read])) u_wa s_ctx = Read
    ∧ resolve_access (policy_of_permissions result) u_wa s_ctx = Write
    ∧ (λ m, is_read_denied_uri (G:=str) m u_wa s_ctx) <$> read_deny_matcher (policy_of_permissions result) s_ctx = Some true.
Proof.
  destruct (intersect_file_system (G:=str) _ _ s_ctx) as [result|] eqn:E; [|by vm_compute in E].
  exists result. split; [done|]. vm_compute in E. injection E as <-. split_and!; evaluate.
Qed.

Definition win_ctx : FileSystemSandboxPolicyContext SUrl :=
  {| cx_cwd := at_path [lit "C:"; lit "w"]; workspace_roots := [at_path [lit "C:"; lit "w"]]; user_home_dir := None;
     temporary_directories := None |}.

(** On Windows a policy with write access to the full disk denies the paths of
    every drive but the one of the working directory. *)
Theorem full_disk_denies_other_drive :
  has_full_disk_write_access_with_context (restricted [entry_new (FsSpecial SpRoot) Write]) win_ctx = true
  ∧ resolve_access (restricted [entry_new (FsSpecial SpRoot) Write]) (at_path [lit "D:"; lit "x"]) win_ctx = Deny.
Proof. split; evaluate. Qed.

Definition outside_denial : FileSystemSandboxPolicy SUrl :=
  restricted [entry_new (FsSpecial SpRoot) Read; entry_new (FsSpecial (SpProjectRoots (Some (lit "../secret")))) Deny].

(** The denial of a path that leaves the workspace root is turned into a denial of
    the root, and what it denied becomes readable. *)
Theorem outside_denial_materialized_away :
  can_read_path outside_denial u_key s_ctx = false
  ∧ can_read_path (materialize_project_roots_with_path_uris outside_denial [u_w]) u_key s_ctx = true
  ∧ can_read_path (materialize_project_roots_with_path_uris outside_denial [u_w]) u_wa s_ctx = false.
Proof. split_and!; evaluate. Qed.
