(* ===== verification/Invocation.v ===== *)
(** * Recognising and verifying an apply_patch invocation

    Models [apply-patch/src/invocation.rs] and the unified-diff entry points of
    [file_update.rs]: which command lines are invocations of apply_patch, and
    the dry run that turns a parsed patch into the changes shown for approval.
    The Tree-sitter query that finds a heredoc in a shell script and the diff
    printer of the [similar] package are parameters. *)

From stdpp Require Import gmap.
From S2P Require Import Prelude RustStr PathConvention PatchParser SeekSequence FileUpdate ApplyPatch.
From S2P Require Import ApplyPatchFacts MemFs.
Open Scope list_scope.

(** ** Shells *)

Definition APPLY_PATCH_COMMANDS : list str := [lit "apply_patch"; lit "applypatch"].

Inductive ApplyPatchShell := Unix | PowerShell | Cmd.

Inductive ExtractHeredocError (X : Type) :=
  | CommandDidNotStartWithApplyPatch
  | FailedToLoadBashGrammar (e : X)
  | HeredocNotUtf8 (e : X)
  | FailedToParsePatchIntoAst
  | FailedToFindHeredocBody.
Arguments CommandDidNotStartWithApplyPatch {X}.
Arguments FailedToLoadBashGrammar {X} e.
Arguments HeredocNotUtf8 {X} e.
Arguments FailedToParsePatchIntoAst {X}.
Arguments FailedToFindHeredocBody {X}.

Inductive MaybeApplyPatch (X : Type) :=
  | MBody (a : ApplyPatchArgs)
  | MShellParseError (e : ExtractHeredocError X)
  | MPatchParseError (e : ParseError)
  | MNotApplyPatch
  | MPanic.
Arguments MBody {X} a.
Arguments MShellParseError {X} e.
Arguments MPatchParseError {X} e.
Arguments MNotApplyPatch {X}.
Arguments MPanic {X}.

Definition classify_shell_name (shell : str) (conv : PathConvention) : option str :=
  basename ← last (path_segments conv shell);
  let stem := match rsplit_once c_dot basename with
              | Some (stem, _) => if is_empty_str stem then basename else stem
              | None => basename
              end in
  Some (to_ascii_lowercase stem).

Definition classify_shell (shell flag : str) (conv : PathConvention) : option ApplyPatchShell :=
  name ← classify_shell_name shell conv;
  if bool_decide (name ∈ [lit "bash"; lit "zsh"; lit "sh"])
     && bool_decide (flag ∈ [lit "-lc"; lit "-c"]) then Some Unix
  else if bool_decide (name ∈ [lit "pwsh"; lit "powershell"])
          && eq_ignore_ascii_case flag (lit "-command") then Some PowerShell
  else if bool_decide (name = lit "cmd") && eq_ignore_ascii_case flag (lit "/c") then Some Cmd
  else None.

Definition can_skip_flag (shell flag : str) (conv : PathConvention) : bool :=
  match classify_shell_name shell conv with
  | Some name => bool_decide (name ∈ [lit "pwsh"; lit "powershell"])
                 && eq_ignore_ascii_case flag (lit "-noprofile")
  | None => false
  end.

(** ** File changes ([lib.rs], [file_update.rs]) *)

Inductive ApplyPatchFileChange (P : Type) :=
  | FAdd (content : str)
  | FDelete (content : str)
  | FUpdate (unified_diff : str) (move_path : option P) (new_content : str).
Arguments FAdd {P} content.
Arguments FDelete {P} content.
Arguments FUpdate {P} unified_diff move_path new_content.

Record ApplyPatchFileUpdate := {
  update_unified_diff : str;
  update_original_content : str;
  update_content : str;
}.

Section Invocation.
Context {P PE W X : Type} `{Countable P} `{PO : !PathUriOps P PE} `{FS : !ExecutorFileSystem P W}.
Context (infer_path_convention : P → option PathConvention).
(** [extract_apply_patch_from_bash]: the heredoc body and the [cd] directory. *)
Context (extract_from_bash : str → ExtractHeredocError X + (str * option str)).
(** [TextDiff::from_lines(a, b).unified_diff().context_radius(n)]. *)
Context (text_diff : nat → str → str → str).

Record ApplyPatchAction := {
  action_changes : gmap P (ApplyPatchFileChange P);
  action_mode : ApplyPatchFileUpdateMode;
  action_patch : str;
  action_cwd : P;
}.

Inductive MaybeApplyPatchVerified :=
  | VBody (a : ApplyPatchAction)
  | VShellParseError (e : ExtractHeredocError X)
  | VCorrectnessError (e : ApplyPatchError PE)
  | VNotApplyPatch
  | VPanic.

Definition parse_shell_script (argv : list str) (cwd : P) : option (ApplyPatchShell * str) :=
  conv ← infer_path_convention cwd;
  match argv with
  | [shell; flag; script] => sh ← classify_shell shell flag conv; Some (sh, script)
  | [shell; skip_flag; flag; script] =>
      if negb (can_skip_flag shell skip_flag conv) then None
      else sh ← classify_shell shell flag conv; Some (sh, script)
  | _ => None
  end.

Definition extract_apply_patch_from_shell (shell : ApplyPatchShell) (script : str)
    : ExtractHeredocError X + (str * option str) :=
  match shell with Unix | PowerShell | Cmd => extract_from_bash script end.

Definition with_workdir (a : ApplyPatchArgs) (workdir : option str) : ApplyPatchArgs :=
  {| args_patch := args_patch a; args_hunks := args_hunks a; args_workdir := workdir;
     args_environment_id := args_environment_id a |}.

Definition maybe_parse_shell (argv : list str) (cwd : P) : MaybeApplyPatch X :=
  match parse_shell_script argv cwd with
  | Some (shell, script) =>
      match extract_apply_patch_from_shell shell script with
      | inr (body, workdir) =>
          match parse_patch body with
          | Ok source => MBody (with_workdir source workdir)
          | Err e => MPatchParseError e
          | Panic => MPanic
          end
      | inl CommandDidNotStartWithApplyPatch => MNotApplyPatch
      | inl e => MShellParseError e
      end
  | None => MNotApplyPatch
  end.

Definition maybe_parse_apply_patch (argv : list str) (cwd : P) : MaybeApplyPatch X :=
  match argv with
  | [cmd; body] =>
      if bool_decide (cmd ∈ APPLY_PATCH_COMMANDS) then
        match parse_patch body with
        | Ok source => MBody source
        | Err e => MPatchParseError e
        | Panic => MPanic
        end
      else maybe_parse_shell argv cwd
  | _ => maybe_parse_shell argv cwd
  end.

(** ** The dry run *)

Definition unified_diff_from_chunks_with_context_and_mode (path : P) (chunks : list UpdateFileChunk)
    (context : nat) (m : ApplyPatchFileUpdateMode) (w : W)
    : res (ApplyPatchError PE) ApplyPatchFileUpdate :=
  let? ap := derive_new_contents_from_chunks path chunks m true w in
  Ok {| update_unified_diff := text_diff context (original_contents ap) (new_contents ap);
        update_original_content := original_contents ap;
        update_content := new_contents ap |}.

Definition unified_diff_from_chunks_with_mode (path : P) (chunks : list UpdateFileChunk)
    (m : ApplyPatchFileUpdateMode) (w : W) : res (ApplyPatchError PE) ApplyPatchFileUpdate :=
  unified_diff_from_chunks_with_context_and_mode path chunks 1 m w.

Definition unified_diff_from_chunks (path : P) (chunks : list UpdateFileChunk) (w : W)
    : res (ApplyPatchError PE) ApplyPatchFileUpdate :=
  unified_diff_from_chunks_with_mode path chunks NormalizeToLf w.

Definition unified_diff_from_chunks_with_context (path : P) (chunks : list UpdateFileChunk)
    (context : nat) (w : W) : res (ApplyPatchError PE) ApplyPatchFileUpdate :=
  unified_diff_from_chunks_with_context_and_mode path chunks context NormalizeToLf w.

Definition join_or (r : PE + P) : res (ApplyPatchError PE) P :=
  match r with inr p => Ok p | inl e => Err (EPathUri e) end.

Definition msg_multiple (path : P) : str :=
  lit "multiple operations target " ++ inferred_native_path_string path.
Definition msg_read (path : P) : str := lit "Failed to read " ++ inferred_native_path_string path.

(** One round of the loop of [try_verify_apply_patch_args]. *)
Definition verify_hunk (cwd : P) (m : ApplyPatchFileUpdateMode) (w : W)
    (ch : gmap P (ApplyPatchFileChange P)) (h : Hunk)
    : res (ApplyPatchError PE) (gmap P (ApplyPatchFileChange P)) :=
  let? path := join_or (resolve_path h cwd) in
  match ch !! path with
  | Some _ => Err (EParseError (InvalidPatchError (msg_multiple path)))
  | None =>
      match h with
      | AddFile _ contents => Ok (<[path := FAdd contents]> ch)
      | DeleteFile _ =>
          match read_file_text true path w with
          | inl source => Err (EIoError (msg_read path) source)
          | inr content => Ok (<[path := FDelete content]> ch)
          end
      | UpdateFile _ move_path chunks =>
          let? u := unified_diff_from_chunks_with_mode path chunks m w in
          let? mv := match move_path with
                     | Some d => let? d := join_or (path_join cwd d) in Ok (Some d)
                     | None => Ok None
                     end in
          Ok (<[path := FUpdate (update_unified_diff u) mv (update_content u)]> ch)
      end
  end.

Definition try_verify_apply_patch_args (a : ApplyPatchArgs) (cwd : P)
    (m : ApplyPatchFileUpdateMode) (w : W) : res (ApplyPatchError PE) ApplyPatchAction :=
  let? effective_cwd := match args_workdir a with
                        | Some dir => join_or (path_join cwd dir)
                        | None => Ok cwd
                        end in
  let? ch := foldM (verify_hunk effective_cwd m w) ∅ (args_hunks a) in
  Ok {| action_changes := ch; action_mode := m; action_patch := args_patch a;
        action_cwd := effective_cwd |}.

Definition verify_apply_patch_args_with_mode (a : ApplyPatchArgs) (cwd : P)
    (m : ApplyPatchFileUpdateMode) (w : W) : MaybeApplyPatchVerified :=
  match try_verify_apply_patch_args a cwd m w with
  | Ok action => VBody action
  | Err e => VCorrectnessError e
  | Panic => VPanic
  end.

Definition verify_apply_patch_args (a : ApplyPatchArgs) (cwd : P) (w : W)
    : MaybeApplyPatchVerified :=
  verify_apply_patch_args_with_mode a cwd NormalizeToLf w.

(** A raw patch given as the command itself, or as the whole script. *)
Definition implicit_invocation (argv : list str) (cwd : P) : bool :=
  match argv with [body] => is_ok (parse_patch body) | _ => false end
  || match parse_shell_script argv cwd with
     | Some (_, script) => is_ok (parse_patch script)
     | None => false
     end.

Definition maybe_parse_apply_patch_verified_with_mode (argv : list str) (cwd : P)
    (m : ApplyPatchFileUpdateMode) (w : W) : MaybeApplyPatchVerified :=
  if implicit_invocation argv cwd then VCorrectnessError EImplicitInvocation
  else match maybe_parse_apply_patch argv cwd with
       | MBody args => verify_apply_patch_args_with_mode args cwd m w
       | MShellParseError e => VShellParseError e
       | MPatchParseError e => VCorrectnessError (EParseError e)
       | MNotApplyPatch => VNotApplyPatch
       | MPanic => VPanic
       end.

Definition maybe_parse_apply_patch_verified (argv : list str) (cwd : P) (w : W)
    : MaybeApplyPatchVerified :=
  maybe_parse_apply_patch_verified_with_mode argv cwd NormalizeToLf w.

End Invocation.

Arguments ApplyPatchAction P {_ _}.
Arguments MaybeApplyPatchVerified P PE X {_ _}.

(** * The dry run of a patch agrees with its application

    When no move goes onto a path another hunk works on, the changes computed
    for approval are the changes applying the patch makes; without that
    condition they are not. *)

Section DryRun.
Context {P PE W X : Type} `{Countable P} `{PO : !PathUriOps P PE}.
Context `{FS : !ExecutorFileSystem P W} `{LF : !LawfulFileSystem P W}.
Context (text_diff : nat → str → str → str).
Implicit Types (ch : gmap P (ApplyPatchFileChange P)) (fm : gmap P str).

















End DryRun.

(** ** Samples *)

Definition no_diff : nat → str → str → str := λ _ _ _, [].


(** A chunk that replaces one line by another. *)
Definition replace_chunk (old new : str) : UpdateFileChunk :=
  {| change_context := None; old_lines := [old]; new_lines := [new];
     context_line_indices := []; is_end_of_file := false |}.
Definition chained_hunks : list Hunk :=
  [UpdateFile (lit "a") (Some (lit "b")) [replace_chunk (lit "x") (lit "y")];
   UpdateFile (lit "b") None [replace_chunk (lit "p") (lit "q")]].
Definition chained_fs : MemFs :=
  {| mem_files := <[lit "r/a" := text [lit "x"; []]]> (<[lit "r/b" := text [lit "p"; []]]> ∅);
     mem_dirs := {[lit "r"]} |}.
Definition chained_args : ApplyPatchArgs :=
  {| args_patch := []; args_hunks := chained_hunks; args_workdir := None; args_environment_id := None |}.

(** A move destination does not count as a target in the dry run: a patch
    that moves a file onto one that a later hunk updates verifies, with the
    second update shown against the contents that the move will have replaced,
    but applying it stops with an error after the move has been committed. *)
Theorem chained_move_verifies_but_fails :
  is_ok (try_verify_apply_patch_args (PE:=unit) no_diff chained_args (lit "r") NormalizeToLf chained_fs)
    = true
  ∧ let '(r, s') := apply_hunks_to_files (PE:=unit) default_options (lit "r") chained_hunks
                      {| st_fs := chained_fs; st_delta := delta_empty |} in
    is_ok r = false ∧ mem_files (st_fs s') !! lit "r/a" = None
    ∧ mem_files (st_fs s') !! lit "r/b" = Some (text [lit "y"; []]).
Proof. vm_compute. split_and!; reflexivity. Qed.

(** The same files with directories that cannot be written to. *)
Definition dir_fs : ExecutorFileSystem str MemFs :=
  {| read_file_text := read_file_text; get_metadata := get_metadata;
     write_file f p c w :=
       if bool_decide (p ∈ mem_dirs w) then (inl {| io_kind := OtherKind 21; io_msg := lit "is a directory" |}, w)
       else write_file f p c w;
     create_directory := create_directory; remove := remove |}.

(** Adding a file where a directory stands verifies, since the dry run does not look at
    the path; applying it fails. *)
Example add_over_directory_verifies_but_fails :
  let hunks := [AddFile (lit "d") (lit "hi")] in
  let w := {| mem_files := ∅; mem_dirs := {[lit "r"; lit "r/d"]} |} in
  is_ok (try_verify_apply_patch_args (FS:=dir_fs) (PE:=unit) no_diff
           {| args_patch := []; args_hunks := hunks; args_workdir := None; args_environment_id := None |}
           (lit "r") NormalizeToLf w) = true
  ∧ is_ok (apply_hunks_to_files (FS:=dir_fs) (PE:=unit) default_options (lit "r") hunks
             {| st_fs := w; st_delta := delta_empty |}).1 = false.
Proof. vm_compute. by split. Qed.

(** ** Which command lines are invocations *)

Lemma parse_patch_workdir patch a : parse_patch patch = Ok a → args_workdir a = None.
Proof.
  unfold parse_patch, parse_patch_text. simpl. rewrite res_bind_Ok. intros (ls & _ & Hp).
  destruct (push_delta _ _) as [p r]. apply res_bind_Ok in Hp as (hs & _ & Hp).
  destruct (finish p) as [p' r']. apply res_bind_Ok in Hp as (hs' & _ & [= <-]). done.
Qed.

Section Explicit.
Context {P PE W X : Type} `{Countable P} `{PO : !PathUriOps P PE} `{FS : !ExecutorFileSystem P W}.
Context (infer : P → option PathConvention).
Context (extract : str → ExtractHeredocError X + (str * option str)).
Context (text_diff : nat → str → str → str).

(** The patch text a command line asks to apply, and the directory to apply it
    in. *)
Inductive explicit_invocation (cwd : P) : list str → str → option str → Prop :=
  | explicit_direct cmd body :
      cmd ∈ APPLY_PATCH_COMMANDS → explicit_invocation cwd [cmd; body] body None
  | explicit_shell argv shell script body workdir :
      parse_shell_script infer argv cwd = Some (shell, script) →
      extract script = inr (body, workdir) → explicit_invocation cwd argv body workdir.

Lemma maybe_parse_shell_body argv cwd a :
  maybe_parse_shell (X:=X) infer extract argv cwd = MBody a →
  ∃ body workdir a0, explicit_invocation cwd argv body workdir ∧ parse_patch body = Ok a0
    ∧ a = with_workdir a0 workdir.
Proof.
  unfold maybe_parse_shell. intros Hm.
  destruct (parse_shell_script infer argv cwd) as [[shell script]|] eqn:Es; [|done].
  assert (Hx : extract_apply_patch_from_shell extract shell script = extract script) by (by destruct shell).
  rewrite Hx in Hm. destruct (extract script) as [[]|[body workdir]] eqn:Ex; try done.
  destruct (parse_patch body) as [a0| |] eqn:Ep; try done. injection Hm as <-.
  exists body, workdir, a0. split; [by econstructor|]. done.
Qed.

(** Only an explicit call of apply_patch is ever prepared for application:
    when a command line verifies, it is [apply_patch PATCH] or a recognised
    shell running a heredoc call, neither the command line nor the script is a
    bare patch, and the action holds the text of that patch, verified in the
    directory of the call. *)
Theorem verified_body_explicit argv cwd m (w : W) action :
  maybe_parse_apply_patch_verified_with_mode (PE:=PE) infer extract text_diff argv cwd m w
    = VBody action →
  ∃ body workdir a0, explicit_invocation cwd argv body workdir ∧ parse_patch body = Ok a0
    ∧ implicit_invocation infer argv cwd = false ∧ action_mode action = m
    ∧ (∀ dir, workdir = Some dir → path_join cwd dir = inr (action_cwd action))
    ∧ try_verify_apply_patch_args (PE:=PE) text_diff (with_workdir a0 workdir) cwd m w = Ok action.
Proof.
  unfold maybe_parse_apply_patch_verified_with_mode.
  destruct (implicit_invocation infer argv cwd) eqn:Ei; [done|].
  destruct (maybe_parse_apply_patch infer extract argv cwd) as [a|e|e| |] eqn:Em; try done.
  unfold verify_apply_patch_args_with_mode.
  destruct (try_verify_apply_patch_args text_diff a cwd m w) as [action'|e|] eqn:Ev; intros [= <-].
  assert (Hbody : ∃ body workdir a0, explicit_invocation cwd argv body workdir
                    ∧ parse_patch body = Ok a0 ∧ a = with_workdir a0 workdir).
  { unfold maybe_parse_apply_patch in Em.
    destruct argv as [|cmd [|body [|]]]; try by apply maybe_parse_shell_body.
    destruct (bool_decide _) eqn:Eb; [|by apply maybe_parse_shell_body]. bdec.
    destruct (parse_patch body) as [a0| |] eqn:Ep; try done. injection Em as ->.
    exists body, None, a. split; [by constructor|]. split; [done|].
    apply parse_patch_workdir in Ep. by destruct a; simpl in *; subst. }
  destruct Hbody as (body & workdir & a0 & Hex & Hp & ->).
  exists body, workdir, a0. split_and!; try done.
  - unfold try_verify_apply_patch_args in Ev. apply res_bind_Ok in Ev as (ec & _ & Ev).
    apply res_bind_Ok in Ev as (ch & _ & [= <-]). done.
  - intros dir ->. unfold try_verify_apply_patch_args in Ev. simpl in Ev.
    apply res_bind_Ok in Ev as (ec & Hec & Ev). apply res_bind_Ok in Ev as (ch & _ & [= <-]). simpl.
    unfold join_or in Hec. destruct (path_join cwd dir); [done|]. by injection Hec as ->.
Qed.

End Explicit.

Definition is_verified_body {P PE X} `{Countable P} (v : MaybeApplyPatchVerified P PE X) : bool :=
  match v with VBody _ => true | _ => false end.
Definition direct_argv : list str := [lit "apply_patch"; demo_patch].
Definition posix_only : str → option PathConvention := λ _, Some Posix.
Definition no_heredoc : str → ExtractHeredocError unit + (str * option str) :=
  λ _, inl CommandDidNotStartWithApplyPatch.

Lemma verified_body_explicit_witness :
  ∃ action body workdir,
    maybe_parse_apply_patch_verified_with_mode (PE:=unit) posix_only no_heredoc no_diff direct_argv
      (lit "r") NormalizeToLf demo_fs = VBody action
    ∧ explicit_invocation posix_only no_heredoc (lit "r") direct_argv body workdir
    ∧ action_mode action = NormalizeToLf.
Proof.
  assert (Hok : is_verified_body
                  (maybe_parse_apply_patch_verified_with_mode (PE:=unit) posix_only no_heredoc no_diff
                     direct_argv (lit "r") NormalizeToLf demo_fs) = true) by (vm_compute; reflexivity).
  destruct (maybe_parse_apply_patch_verified_with_mode (PE:=unit) posix_only no_heredoc no_diff
              direct_argv (lit "r") NormalizeToLf demo_fs) as [action|e|e| |] eqn:E;
    [clear Hok|discriminate Hok..].
  destruct (verified_body_explicit posix_only no_heredoc no_diff direct_argv (lit "r") NormalizeToLf
              demo_fs action E) as (body & workdir & a0 & Hex & _ & _ & Hm & _).
  exists action, body, workdir. split; [reflexivity|]. split; [exact Hex|exact Hm].
Defined.
