(* ===== verification/PatchTrace.v ===== *)
(** * Parsing a verified patch again

    The text of a verified patch is parsed a second time when it is applied
    ([core/src/tools/runtimes/apply_patch.rs]). Both the split into lines and the
    parser drop a carriage return from the end of a line, so the second parse can
    see lines that the first one did not; this file shows how far the two parses
    agree: they find the same operations on the same paths. *)

From S2P Require Import Prelude RustStr PatchParser PatchParserFacts PatchRoundTrip.
From S2P Require Import SeekSequence FileUpdate ApplyPatch.
Open Scope list_scope.

(** ** Lines up to a carriage return *)

Definition cr_rel (x y : str) : Prop := y = x ∨ x = y ++ [c_cr].

Lemma cr_rel_strip l : cr_rel l (strip_cr l).
Proof.
  unfold strip_cr. destruct (strip_suffix [c_cr] l) as [r|] eqn:E; simpl; [right|by left].
  by apply strip_suffix_Some in E.
Qed.

Lemma cr_rel_trim_end x y : cr_rel x y → trim_end x = trim_end y.
Proof. intros [->| ->]; [done|]. by apply drop_while_end_snoc_drop. Qed.

Lemma cr_rel_trim x y : cr_rel x y → trim x = trim y.
Proof. intros H. rewrite <- (trim_end_trim x), <- (trim_end_trim y). by rewrite (cr_rel_trim_end x y). Qed.

Lemma cr_rel_cons c x y : cr_rel (c :: x) y → c ≠ c_cr → ∃ y', y = c :: y' ∧ cr_rel x y'.
Proof.
  intros [->|E] Hc; [exists x; split; [done|by left]|]. destruct y as [|d y]; simpl in E; injection E as -> E.
  - done.
  - exists y. split; [done|by right].
Qed.

Lemma cr_rel_nil y : cr_rel [] y → y = [].
Proof. intros [->|E]; [done|]. by destruct y. Qed.

(** ** Parsers that agree on the operations and their paths *)

Definition chunk_sim (c c' : UpdateFileChunk) : Prop :=
  change_context c = change_context c' ∧ is_end_of_file c = is_end_of_file c'
  ∧ length (old_lines c) = length (old_lines c') ∧ length (new_lines c) = length (new_lines c').

Inductive hunk_sim : Hunk → Hunk → Prop :=
  | sim_add path c c' : hunk_sim (AddFile path c) (AddFile path c')
  | sim_delete path : hunk_sim (DeleteFile path) (DeleteFile path)
  | sim_update path mv cs cs' : Forall2 chunk_sim cs cs' → hunk_sim (UpdateFile path mv cs) (UpdateFile path mv cs').

Record parser_sim (p p' : StreamingPatchParser) : Prop := {
  sim_hunks : Forall2 hunk_sim (hunks (state p)) (hunks (state p'));
  sim_mode : mode (state p) = mode (state p');
  sim_env : environment_id (state p) = environment_id (state p');
  sim_line : line_number p = line_number p';
  sim_buffer : line_buffer p = line_buffer p';
}.

Lemma chunk_sim_refl c : chunk_sim c c.
Proof. done. Qed.

Lemma nil_length {A B} (l : list A) (l' : list B) : length l = length l' → (l = [] ↔ l' = []).
Proof. by destruct l, l'. Qed.

Lemma chunk_is_empty_sim c c' : chunk_sim c c' → chunk_is_empty c = chunk_is_empty c'.
Proof.
  intros (_ & _ & Ho & Hn). unfold chunk_is_empty. f_equal; apply bool_decide_ext; by apply nil_length.
Qed.

Lemma Forall2_last {A B} (R : A → B → Prop) l l' :
  Forall2 R l l' → option_Forall2 R (last l) (last l').
Proof.
  induction 1 as [|x y l l' Hxy Hl IH]; [constructor|].
  destruct Hl as [|x2 y2 l2 l2']; simpl; [by constructor|done].
Qed.

Lemma last_chunk_empty_sim cs cs' : Forall2 chunk_sim cs cs' → last_chunk_empty cs = last_chunk_empty cs'.
Proof.
  intros H%Forall2_last. unfold last_chunk_empty. destruct H as [c c' H|]; [by apply chunk_is_empty_sim|done].
Qed.

Lemma update_last_sim {A} (R : A → A → Prop) f f' l l' :
  (∀ x y, R x y → R (f x) (f' y)) → Forall2 R l l' → Forall2 R (update_last f l) (update_last f' l').
Proof.
  intros Hf. induction 1 as [|x y l l' Hxy Hl IH]; [constructor|].
  destruct Hl; simpl in *; [constructor; [by apply Hf|constructor]|by constructor].
Qed.

Lemma push_to_last_sim f f' cs cs' :
  (∀ x y, chunk_sim x y → chunk_sim (f x) (f' y)) → Forall2 chunk_sim cs cs' →
  Forall2 chunk_sim (push_to_last_chunk f cs) (push_to_last_chunk f' cs').
Proof.
  intros Hf H. unfold push_to_last_chunk. apply update_last_sim; [done|].
  destruct H; [by repeat constructor|by constructor].
Qed.

Lemma chunk_sim_push x y r r' :
  chunk_sim x y → chunk_sim (push_context_line x r) (push_context_line y r')
  ∧ chunk_sim (push_new_line x r) (push_new_line y r') ∧ chunk_sim (push_old_line x r) (push_old_line y r').
Proof.
  intros (? & ? & Ho & Hn). unfold chunk_sim. simpl. rewrite !length_app. simpl. auto 10 with lia.
Qed.

(** ** One line *)

Lemma ensure_sim p p' line :
  parser_sim p p' → ensure_update_hunk_is_not_empty p line = Ok tt →
  ensure_update_hunk_is_not_empty p' line = Ok tt.
Proof.
  intros [Hh Hm _ _ _]. unfold ensure_update_hunk_is_not_empty. rewrite <- Hm.
  apply Forall2_last in Hh. destruct Hh as [h h' Hh|]; [|done].
  destruct Hh as [| |path mv cs cs' Hcs]; try done. rewrite (last_chunk_empty_sim _ _ Hcs).
  destruct Hcs; repeat case_match; done.
Qed.

Lemma parser_sim_mode p p' m : parser_sim p p' → parser_sim (set_mode p m) (set_mode p' m).
Proof. by intros []. Qed.

Lemma parser_sim_push p p' h : parser_sim p p' → hunk_sim h h →
  parser_sim (set_hunks p (hunks (state p) ++ [h])) (set_hunks p' (hunks (state p') ++ [h])).
Proof. intros [] Hh. split; simpl; try done. apply Forall2_app; [done|by repeat constructor]. Qed.

Lemma handle_sim p p' t q b :
  parser_sim p p' → handle_hunk_headers_and_end_patch p t = Ok (q, b) →
  ∃ q', handle_hunk_headers_and_end_patch p' t = Ok (q', b) ∧ parser_sim q q'.
Proof.
  intros Hs. pose proof Hs as [Hh Hm He Hl Hb]. unfold handle_hunk_headers_and_end_patch. rewrite <- Hm, <- He, <- Hl.
  destruct (match mode (state p) with StartedPatch => _ | _ => _ end) as [env|].
  { destruct (bool_decide _); [done|]. destruct (bool_decide _); [done|]. intros [= <- <-]. eexists. split; [done|].
    by split. }
  assert (Hens : ∀ (k k' : StreamingPatchParser), parser_sim k k' →
    (let? _ := ensure_update_hunk_is_not_empty p t in Ok (k, true)) = Ok (q, b) →
    ∃ q', (let? _ := ensure_update_hunk_is_not_empty p' t in Ok (k', true)) = Ok (q', b) ∧ parser_sim q q').
  { intros k k' Hk H. apply res_bind_Ok in H as ([] & H & [= <- <-]). rewrite (ensure_sim _ _ _ Hs H). eauto. }
  destruct (bool_decide _); [apply Hens; by apply parser_sim_mode|].
  destruct (strip_prefix ADD_FILE_MARKER t).
  { apply Hens, parser_sim_mode, parser_sim_push; [done|constructor]. }
  destruct (strip_prefix DELETE_FILE_MARKER t).
  { apply Hens, parser_sim_mode, parser_sim_push; [done|constructor]. }
  destruct (strip_prefix UPDATE_FILE_MARKER t).
  { apply Hens, parser_sim_mode, parser_sim_push; [done|by constructor]. }
  intros [= <- <-]. eauto.
Qed.

Lemma set_last_update_sim p p' ln mv cs cs' :
  parser_sim p p' → Forall2 chunk_sim cs cs' →
  parser_sim (set_last_update p ln mv cs) (set_last_update p' ln mv cs').
Proof.
  intros [] Hcs. split; simpl; try done. apply update_last_sim; [|done].
  intros x y []; by constructor.
Qed.

Lemma chunk_line_sim p p' ln mv cs cs' l l' q :
  parser_sim p p' → Forall2 chunk_sim cs cs' → cr_rel l l' →
  process_update_chunk_line p ln mv cs l = Ok q →
  ∃ q', process_update_chunk_line p' ln mv cs' l' = Ok q' ∧ parser_sim q q'.
Proof.
  intros Hs Hcs Hl. pose proof (Forall2_last _ _ _ Hcs) as Hlast. unfold process_update_chunk_line.
  rewrite <- (cr_rel_trim_end _ _ Hl), <- (last_chunk_empty_sim _ _ Hcs).
  assert (Heof : match last cs with Some c => is_end_of_file c | None => false end
                 = match last cs' with Some c => is_end_of_file c | None => false end)
    by (destruct Hlast as [c c' (_ & ? & _)|]; done).
  rewrite <- Heof. destruct (_ && bool_decide (trim_end l = [])); [intros [= <-]; eauto|].
  destruct (_ && negb _); [done|].
  assert (Hmv : match cs, mv with [], None => strip_prefix MOVE_TO_MARKER (trim_end l) | _, _ => None end
                = match cs', mv with [], None => strip_prefix MOVE_TO_MARKER (trim_end l) | _, _ => None end)
    by (by destruct Hcs). rewrite <- Hmv.
  destruct (match cs, mv with [], None => _ | _, _ => None end) as [m|].
  { intros [= <-]. eexists. split; [done|]. by apply set_last_update_sim. }
  destruct (is_context_marker _ && _); [done|]. destruct (bool_decide _).
  { intros [= <-]. eexists. split; [done|]. apply set_last_update_sim; [done|]. apply Forall2_app; [done|by repeat constructor]. }
  destruct (strip_prefix CHANGE_CONTEXT_MARKER _).
  { intros [= <-]. eexists. split; [done|]. apply set_last_update_sim; [done|]. apply Forall2_app; [done|by repeat constructor]. }
  destruct (bool_decide (trim_end l = EOF_MARKER)).
  { destruct (last_chunk_empty cs); [done|]. intros [= <-]. eexists. split; [done|]. apply set_last_update_sim; [done|].
    apply update_last_sim; [|done]. intros x y (? & ? & ? & ?). done. }
  destruct l as [|c rest].
  { apply cr_rel_nil in Hl as ->. intros [= <-]. eexists. split; [done|]. apply set_last_update_sim; [done|].
    apply push_to_last_sim; [|done]. intros x y H. by apply chunk_sim_push. }
  assert (Hpush : ∀ f : UpdateFileChunk → str → UpdateFileChunk,
    (∀ x y r r', chunk_sim x y → chunk_sim (f x r) (f y r')) → ∀ r r',
    parser_sim (set_last_update p ln mv (push_to_last_chunk (λ k, f k r) cs))
               (set_last_update p' ln mv (push_to_last_chunk (λ k, f k r') cs'))).
  { intros f Hf r r'. apply set_last_update_sim; [done|]. apply push_to_last_sim; [|done]. auto. }
  destruct (decide (c = c_cr)) as [->|Hc].
  { change (c_cr =? c_sp)%N with false. change (c_cr =? c_plus)%N with false. change (c_cr =? c_minus)%N with false.
    intros H. exfalso. destruct (last cs) as [k|]; [destruct (negb _)|]; done. }
  apply cr_rel_cons in Hl as (rest' & -> & Hr); [|done].
  destruct (c =? c_sp)%N; [intros [= <-]; eexists; split; [done|]; apply (Hpush push_context_line); intros; by apply chunk_sim_push|].
  destruct (c =? c_plus)%N; [intros [= <-]; eexists; split; [done|]; apply (Hpush push_new_line); intros; by apply chunk_sim_push|].
  destruct (c =? c_minus)%N; [intros [= <-]; eexists; split; [done|]; apply (Hpush push_old_line); intros; by apply chunk_sim_push|].
  intros H. exfalso. destruct (last cs) as [k|]; [destruct (negb _)|]; done.
Qed.

Lemma process_line_sim p p' l l' q :
  parser_sim p p' → cr_rel l l' → process_line p l = Ok q →
  ∃ q', process_line p' l' = Ok q' ∧ parser_sim q q'.
Proof.
  intros Hs Hl. pose proof Hs as [Hh Hm _ _ _]. unfold process_line. rewrite <- (cr_rel_trim _ _ Hl), <- Hm.
  assert (Hhandle : ∀ t (k k' : res ParseError StreamingPatchParser),
    (k = Ok q → ∃ q', k' = Ok q' ∧ parser_sim q q') →
    (let? (p0, handled) := handle_hunk_headers_and_end_patch p t in if handled : bool then Ok p0 else k) = Ok q →
    ∃ q', (let? (p0, handled) := handle_hunk_headers_and_end_patch p' t in if handled : bool then Ok p0 else k') = Ok q'
          ∧ parser_sim q q').
  { intros t k k' Hk H. apply res_bind_Ok in H as ([p0 b] & H & Hr).
    destruct (handle_sim _ _ _ _ _ Hs H) as (p0' & -> & Hs0). simpl. destruct b; [|by apply Hk].
    injection Hr as <-. eauto. }
  destruct (mode (state p)) as [| | | |ln|]; cbv zeta.
  - destruct (bool_decide _); [|done]. intros [= <-]. eexists. split; [done|]. by apply parser_sim_mode.
  - by apply Hhandle.
  - unfold process_add_line. rewrite <- (cr_rel_trim _ _ Hl). apply Hhandle.
    destruct (strip_prefix [c_plus] l) as [x|] eqn:Ex; [|done]. apply strip_prefix_Some in Ex as ->.
    apply (cr_rel_cons c_plus) in Hl as (x' & -> & _); [|done].
    change (c_plus :: x') with ([c_plus] ++ x'). rewrite strip_prefix_app.
    apply Forall2_last in Hh as Hlast. destruct Hlast as [h h' Hlast|]; [|done].
    destruct Hlast; try done. intros [= <-]. eexists. split; [done|]. destruct Hs. split; simpl; try done.
    apply update_last_sim; [|done]. intros. constructor.
  - by apply Hhandle.
  - unfold process_update_line. rewrite <- (cr_rel_trim_end _ _ Hl). apply Hhandle.
    apply Forall2_last in Hh as Hlast. destruct Hlast as [h h' Hlast|]; [|done].
    destruct Hlast as [| |path mv cs cs' Hcs]; try done. by apply chunk_line_sim.
  - destruct (bool_decide _); [|done]. intros [= <-]. eauto.
Qed.

(** ** Whole texts *)

Definition strip_step (p : StreamingPatchParser) (l : str) : res ParseError StreamingPatchParser :=
  process_line (take_line p) (strip_cr l).

Lemma push_chars_cons p l rest :
  line_buffer p = [] → c_lf ∉ l →
  push_chars p (l ++ c_lf :: rest)
  = match strip_step p l with
    | Ok q => push_chars q rest
    | Err e => (take_line p, Err e)
    | Panic => (take_line p, Panic)
    end.
Proof.
  intros Hb Hl. rewrite push_chars_line by done. cbn [push_chars]. rewrite N.eqb_refl, Hb. done.
Qed.

Lemma push_chars_lines p ls x :
  line_buffer p = [] → Forall (λ l, c_lf ∉ l) ls → c_lf ∉ x →
  match foldM strip_step p ls with
  | Ok p' => push_chars p (join [c_lf] (ls ++ [x])) = (with_buffer p' x, Ok tt) ∧ line_buffer p' = []
  | _ => (push_chars p (join [c_lf] (ls ++ [x]))).2 ≠ Ok tt
  end.
Proof.
  intros Hb Hls Hx. revert p Hb. induction Hls as [|l ls Hl Hls IH]; intros p Hb.
  - simpl. rewrite <- (app_nil_r x), push_chars_line, Hb by done. simpl. by rewrite app_nil_r.
  - assert (E : join [c_lf] ((l :: ls) ++ [x]) = l ++ c_lf :: join [c_lf] (ls ++ [x])) by (by destruct ls).
    rewrite E, push_chars_cons by done. cbn [foldM].
    destruct (strip_step p l) as [q|e|] eqn:Eq; cbn [res_bind]; [|done..].
    apply IH. by rewrite (process_line_buffer _ _ _ Eq).
Qed.

Lemma run_sim p p' ls q :
  parser_sim p p' → foldM strip_step p ls = Ok q →
  ∃ q', foldM strip_step p' (map strip_cr ls) = Ok q' ∧ parser_sim q q'.
Proof.
  revert p p'. induction ls as [|l ls IH]; intros p p' Hs; cbn [foldM map].
  - intros [= <-]. eauto.
  - intros H. apply res_bind_Ok in H as (p1 & H1 & H).
    destruct (process_line_sim (take_line p) (take_line p') (strip_cr l) (strip_cr (strip_cr l)) p1) as (p1' & H1' & Hs1);
      [destruct Hs; split; simpl; congruence|apply cr_rel_strip|done|].
    unfold strip_step at 1. rewrite H1'. simpl. by eapply IH.
Qed.

Lemma lines_of_pieces_snoc ls x : x ≠ [] → lines_of_pieces (ls ++ [x]) = map strip_cr ls ++ [x].
Proof.
  intros Hx. induction ls as [|l ls IH]; simpl; [by rewrite bool_decide_eq_false_2|]. rewrite IH. by destruct ls.
Qed.

Lemma str_lines_text ls x :
  Forall (λ l, c_lf ∉ l) ls → c_lf ∉ x → x ≠ [] →
  str_lines (join [c_lf] (ls ++ [x])) = map strip_cr ls ++ [x].
Proof.
  intros Hls Hlf Hx. unfold str_lines. rewrite split_join; [by apply lines_of_pieces_snoc|by destruct ls|].
  apply Forall_app. split; [done|by constructor].
Qed.

Lemma trim_end_app a b : trim_end b ≠ [] → trim_end (a ++ b) = a ++ trim_end b.
Proof.
  intros Hne. destruct (drop_while_end_prefix is_whitespace b) as (w & Hb & Hw).
  change (drop_while_end is_whitespace b) with (trim_end b) in Hb.
  destruct (snoc_inv (trim_end b)) as [?|(b' & c & Eb)]; [done|].
  assert (Hc : is_whitespace c = false).
  { apply (drop_while_end_last is_whitespace b). change (drop_while_end is_whitespace b) with (trim_end b).
    by rewrite Eb, last_snoc. }
  rewrite Hb at 1. clear Hb Hne. induction w as [|d w IH] using rev_ind.
  - rewrite app_nil_r, Eb, app_assoc. by apply drop_while_end_snoc_keep.
  - rewrite forallb_app in Hw. apply andb_true_iff in Hw as [Hw Hd]. simpl in Hd. rewrite andb_true_r in Hd.
    rewrite !app_assoc. unfold trim_end at 1. rewrite drop_while_end_snoc_drop by done. rewrite <- !app_assoc. by apply IH.
Qed.

Lemma trim_start_app a b : trim_start a ≠ [] → trim_start (a ++ b) = trim_start a ++ b.
Proof.
  intros H. apply drop_while_app_stop. destruct (forallb is_whitespace a) eqn:E; [|done].
  by apply drop_while_nil in E.
Qed.

(** The lines of a parsed patch: the markers at both ends, and what the parser
    made of the lines between them. *)
Definition boundaries (first last : str) : Prop :=
  trim first = BEGIN_PATCH_MARKER ∧ trim last = END_PATCH_MARKER.

Lemma check_strict_lines ls ls' :
  check_patch_boundaries_strict ls = Ok ls' →
  ls' = ls ∧ ∃ first mid last, ls = first :: mid ++ [last] ∧ boundaries first last.
Proof.
  unfold check_patch_boundaries_strict, check_start_and_end_lines_strict. intros H.
  apply res_bind_Ok in H as ([] & H & [= <-]). split; [done|].
  destruct ls as [|first ls]; [done|]. simpl head in H. cbn [fmap option_fmap option_map] in H.
  destruct (last (first :: ls)) as [x|] eqn:El; simpl in H; [|by destruct (bool_decide _)].
  destruct (bool_decide (trim first = BEGIN_PATCH_MARKER)) eqn:E1; [|done]. apply bool_decide_eq_true in E1.
  destruct (bool_decide (trim x = END_PATCH_MARKER)) eqn:E2; [|done]. apply bool_decide_eq_true in E2.
  apply last_Some_snoc in El as (l & El). destruct l as [|y l]; simpl in El; injection El as -> El.
  - rewrite E1 in E2. done.
  - exists y, l, x. rewrite El. done.
Qed.

Lemma str_lines_no_lf s : Forall (λ l, c_lf ∉ l) (str_lines s).
Proof.
  unfold str_lines. pose proof (split_char_pieces c_lf s) as H.
  induction H as [|p ps Hp Hps IH]; [constructor|]. simpl. destruct ps as [|p' ps'].
  - case_bool_decide; constructor; [done|constructor].
  - constructor; [|done]. intros Hin. apply Hp. destruct (cr_rel_strip p) as [E|E]; [by rewrite <- E|].
    rewrite E. apply elem_of_app. by left.
Qed.

Lemma check_lenient_lines ls ls' :
  Forall (λ l, c_lf ∉ l) ls → check_patch_boundaries_lenient ls = Ok ls' →
  Forall (λ l, c_lf ∉ l) ls' ∧ ∃ first mid last, ls' = first :: mid ++ [last] ∧ boundaries first last.
Proof.
  intros Hls. unfold check_patch_boundaries_lenient.
  destruct (check_patch_boundaries_strict ls) as [l|e|] eqn:E; [| |done].
  - intros [= <-]. apply check_strict_lines in E as [-> ?]. done.
  - destruct ls as [|first rest]; [done|]. destruct rest as [|y rest]; [done|].
    destruct (last (y :: rest)); [|done]. destruct (_ && _); [|done]. intros H.
    apply res_bind_Ok in H as (inner & Hin & H). apply check_strict_lines in H as [-> ?]. split; [|done].
    unfold slice in Hin. case_decide; [|done]. injection Hin as <-. apply Forall_take. by inversion Hls.
Qed.

Lemma finish_marker p x :
  trim x = END_PATCH_MARKER → line_buffer p = [] →
  finish (with_buffer p x)
  = match ensure_update_hunk_is_not_empty (take_line p) END_PATCH_MARKER with
    | Ok _ => (set_mode (take_line p) EndedPatch, Ok (hunks (state p)))
    | Err e => (take_line p, Err e)
    | Panic => (take_line p, Panic)
    end.
Proof.
  intros Hx Hb. unfold finish, finish_line_buffer. simpl. destruct x as [|c x]; [by vm_compute in Hx|].
  rewrite Hx, bool_decide_true by done.
  change (take_line (with_buffer p (c :: x))) with (take_line p). by destruct (ensure_update_hunk_is_not_empty _ _) as [[]| |].
Qed.

(** What a successful parse of lines between the markers amounts to. *)
Definition parses (first : str) (mid : list str) (p : StreamingPatchParser) : Prop :=
  foldM strip_step default_parser (first :: mid) = Ok p ∧ line_buffer p = []
  ∧ ensure_update_hunk_is_not_empty (take_line p) END_PATCH_MARKER = Ok tt.

Definition args_of (text : str) (p : StreamingPatchParser) : ApplyPatchArgs :=
  {| args_patch := text; args_hunks := hunks (state p); args_workdir := None;
     args_environment_id := environment_id (state p) |}.

Lemma parse_lines first mid x :
  Forall (λ l, c_lf ∉ l) (first :: mid ++ [x]) → boundaries first x →
  ∀ a, (let text := join [c_lf] (first :: mid ++ [x]) in
        let '(parser, r) := push_delta default_parser text in
        let? _ := r in
        let '(parser, r) := finish parser in
        let? hs := r in
        Ok {| args_hunks := hs; args_patch := text; args_workdir := None;
              args_environment_id := environment_id (state parser) |}) = Ok a
    ↔ ∃ p, parses first mid p ∧ a = args_of (join [c_lf] (first :: mid ++ [x])) p.
Proof.
  intros Hlf [_ Hx] a. change (first :: mid ++ [x]) with ((first :: mid) ++ [x]) in *.
  apply Forall_app in Hlf as [Hlf Hx']. apply Forall_inv in Hx'.
  pose proof (push_chars_lines default_parser (first :: mid) x eq_refl Hlf Hx') as Hrun.
  cbv zeta. unfold push_delta, parses. destruct (foldM _ _ _) as [p| |].
  - destruct Hrun as [-> Hb]. cbn [res_bind]. rewrite finish_marker by done.
    destruct (ensure_update_hunk_is_not_empty _ _) as [[]| |] eqn:Ee; cbn [res_bind].
    + split; [intros [= <-]; exists p; split_and!; done|]. by intros (p' & ([= <-] & _ & _) & ->).
    + split; [done|]. intros (p' & ([= <-] & _ & ?) & _). congruence.
    + split; [done|]. intros (p' & ([= <-] & _ & ?) & _). congruence.
  - destruct (push_chars _ _) as [p r]. simpl in Hrun. destruct r as [[]| |]; simpl; [done|..]; split; try done; by intros (? & (? & _) & _).
  - destruct (push_chars _ _) as [p r]. simpl in Hrun. destruct r as [[]| |]; simpl; [done|..]; split; try done; by intros (? & (? & _) & _).
Qed.

Lemma join_snoc sep ls x : join sep (ls ++ [x]) = concat (map (λ l, l ++ sep) ls) ++ x.
Proof.
  induction ls as [|l ls IH]; [done|]. simpl concat. rewrite <- !app_assoc, <- IH. by destruct ls.
Qed.

Lemma trim_text first mid x :
  trim_start first ≠ [] → trim_end x ≠ [] →
  trim (join [c_lf] ((first :: mid) ++ [x])) = join [c_lf] ((trim_start first :: mid) ++ [trim_end x]).
Proof.
  intros Hf Hx. rewrite !join_snoc. unfold trim. cbn [map concat]. rewrite <- !app_assoc, trim_start_app by done.
  rewrite !app_assoc, trim_end_app by done. by rewrite <- !app_assoc.
Qed.

Lemma trim_of_start s : trim (trim_start s) = trim s.
Proof. unfold trim, trim_start. by rewrite drop_while_idemp. Qed.

Lemma no_lf_strip l : c_lf ∉ l → c_lf ∉ strip_cr l.
Proof. intros H Hin. apply H. destruct (cr_rel_strip l) as [E|E]; [by rewrite <- E|]. rewrite E. apply elem_of_app. by left. Qed.

Lemma first_step first p :
  trim first = BEGIN_PATCH_MARKER →
  strip_step default_parser first = Ok p ↔ p = set_mode (take_line default_parser) StartedPatch.
Proof.
  intros Hf. unfold strip_step, process_line. simpl. rewrite <- (cr_rel_trim _ _ (cr_rel_strip first)), Hf.
  rewrite bool_decide_true by done. naive_solver.
Qed.

Lemma parses_sim first mid p :
  trim first = BEGIN_PATCH_MARKER → parses first mid p →
  ∃ p', parses (strip_cr (trim_start first)) (map strip_cr mid) p' ∧ parser_sim p p'.
Proof.
  intros Hf (Hrun & Hb & He). cbn [foldM] in Hrun. apply res_bind_Ok in Hrun as (p1 & H1 & Hrun).
  apply (first_step first) in H1 as ->; [|done].
  destruct (run_sim (set_mode (take_line default_parser) StartedPatch) (set_mode (take_line default_parser) StartedPatch) mid p)  as (p' & Hrun' & Hs); [by repeat constructor|done|].
  exists p'. split; [|done]. split_and!.
  - assert (Hf' : trim (strip_cr (trim_start first)) = BEGIN_PATCH_MARKER)
      by (by rewrite <- (cr_rel_trim _ _ (cr_rel_strip _)), trim_of_start).
    cbn [foldM]. by rewrite (proj2 (first_step _ _ Hf') eq_refl).
  - by rewrite <- (sim_buffer _ _ Hs).
  - eapply ensure_sim; [|exact He]. destruct Hs. split; simpl; congruence.
Qed.

Lemma reparse patch a :
  parse_patch patch = Ok a →
  ∃ b, parse_patch (args_patch a) = Ok b ∧ Forall2 hunk_sim (args_hunks a) (args_hunks b)
    ∧ args_environment_id b = args_environment_id a.
Proof.
  unfold parse_patch. change PARSE_IN_STRICT_MODE with false. unfold parse_patch_text. cbv iota. intros H.
  apply res_bind_Ok in H as (ls & Hls & H).
  apply check_lenient_lines in Hls as (Hlf & first & mid & x & -> & Hb); [|apply str_lines_no_lf].
  apply (parse_lines first mid x Hlf Hb) in H as (p & Hp & ->). cbn [args_patch args_of args_hunks args_environment_id]. destruct Hb as [Hf Hx].
  destruct (parses_sim first mid p Hf Hp) as (p' & Hp' & Hs).
  assert (Hfs : trim_start first ≠ []).
  { intros E. unfold trim in Hf. rewrite E in Hf. by vm_compute in Hf. }
  assert (Hxe : trim_end x ≠ []).
  { intros E. rewrite <- trim_end_trim, E in Hx. by vm_compute in Hx. }
  rewrite app_comm_cons, trim_text by done. rewrite app_comm_cons in Hlf.
  apply Forall_app in Hlf as [Hlf Hlx]. apply Forall_inv in Hlx. apply Forall_cons in Hlf as [Hlf Hmid].
  assert (Hlf' : c_lf ∉ trim_start first).
  { destruct (drop_while_suffix is_whitespace first) as (w & Hw & _). intros Hin. apply Hlf. rewrite Hw. apply elem_of_app. by right. }
  assert (Hlx' : c_lf ∉ trim_end x).
  { destruct (drop_while_end_prefix is_whitespace x) as (w & Hw & _). intros Hin. apply Hlx. rewrite Hw. apply elem_of_app. by left. }
  rewrite str_lines_text by (done || by constructor).
  set (first' := strip_cr (trim_start first)). set (mid' := map strip_cr mid). set (x' := trim_end x).
  assert (Hb' : boundaries first' x').
  { split; [by unfold first'; rewrite <- (cr_rel_trim _ _ (cr_rel_strip _)), trim_of_start|by unfold x'; rewrite trim_end_trim]. }
  assert (Hc : check_patch_boundaries_lenient ((first' :: mid') ++ [x']) = Ok ((first' :: mid') ++ [x'])).
  { unfold check_patch_boundaries_lenient, check_patch_boundaries_strict, check_start_and_end_lines_strict.
    rewrite last_snoc. simpl. destruct Hb' as [-> ->]. done. }
  cbn [map]. fold first' mid'. rewrite Hc. cbn [res_bind].
  assert (Hlf2 : Forall (λ l, c_lf ∉ l) (first' :: mid' ++ [x'])).
  { constructor; [by apply no_lf_strip|]. apply Forall_app. split; [|by constructor].
    apply Forall_map. eapply Forall_impl; [exact Hmid|]. intros l. apply no_lf_strip. }
  exists (args_of (join [c_lf] (first' :: mid' ++ [x'])) p'). split_and!; [|apply Hs|symmetry; apply Hs].
  apply (parse_lines first' mid' x' Hlf2 Hb'). eauto.
Qed.

(** Applying a patch parses the verified text again; the second parse
    succeeds and finds the same operations: the same kinds of changes to the same
    paths with the same destinations, in the same order, for the same environment.
    Only trailing carriage returns of lines can differ. *)
Theorem reparse_same_operations patch a :
  parse_patch patch = Ok a →
  ∃ b, parse_patch (args_patch a) = Ok b ∧ Forall2 hunk_sim (args_hunks a) (args_hunks b)
    ∧ args_environment_id b = args_environment_id a.
Proof. apply reparse. Qed.

(** ** Samples *)

Definition cr_patch : str :=
  join [c_lf] [lit "*** Begin Patch"; lit "*** Add File: f"; lit "+x" ++ [c_cr; c_cr; c_cr]; lit "*** End Patch"].

Definition parsed (patch : str) : ApplyPatchArgs :=
  match parse_patch patch with Ok a => a | _ => args_of [] default_parser end.

Lemma reparse_same_operations_witness :
  ∃ a b, parse_patch cr_patch = Ok a ∧ parse_patch (args_patch a) = Ok b
    ∧ Forall2 hunk_sim (args_hunks a) (args_hunks b).
Proof.
  destruct (parse_patch cr_patch) as [a| |] eqn:E; [|by vm_compute in E..].
  destruct (reparse_same_operations cr_patch a E) as (b & Hb & Hs & _). exists a, b. done.
Defined.

(** The contents that are verified need not be those that are applied: every
    parse drops one carriage return of a line, so a line that ends with three of
    them is shown and approved with one and written with none. *)
Theorem reparse_drops_carriage_return :
  ∃ a b, parse_patch cr_patch = Ok a ∧ parse_patch (args_patch a) = Ok b
    ∧ args_hunks a = [AddFile (lit "f") (lit "x" ++ [c_cr; c_lf])]
    ∧ args_hunks b = [AddFile (lit "f") (lit "x" ++ [c_lf])].
Proof.
  exists (parsed cr_patch), (parsed (args_patch (parsed cr_patch))).
  split_and!; vm_compute; reflexivity.
Qed.

(** * What applying a patch touches

    A file system that records the calls that change it, over any file system.
    Whatever the underlying calls return, and whether the run succeeds or stops
    half way, applying hunks writes and removes only the paths the hunks name and
    creates only their parent directories. *)

Create HintDb confined.

Inductive FsOp (P : Type) := OpWrite (path : P) | OpMkdir (path : P) | OpRemove (path : P).
Arguments OpWrite {P} path.
Arguments OpMkdir {P} path.
Arguments OpRemove {P} path.

Section trace.
Context {P PE W O : Type} `{PO : !PathUriOps P PE} `{FS : !ExecutorFileSystem P W} `{WO : !Writer O}.

Abbreviation TW := (W * list (FsOp P))%type.

Definition recorded (op : FsOp P) (call : W → io_result unit * W) (w : TW) : io_result unit * TW :=
  let '(r, w') := call w.1 in (r, (w', w.2 ++ [op])).

#[local] Instance traced : ExecutorFileSystem P TW := {
  read_file_text f p w := read_file_text f p w.1;
  get_metadata f p w := get_metadata f p w.1;
  write_file f p c := recorded (OpWrite p) (write_file f p c);
  create_directory f p := recorded (OpMkdir p) (create_directory f p);
  remove f p := recorded (OpRemove p) (remove f p);
}.

(** ** Computations that call allowed operations only *)

Section confined.
Context (allowed : FsOp P → Prop).

Definition extends (w w' : TW) : Prop := ∃ t, w'.2 = w.2 ++ t ∧ Forall allowed t.

Definition confined {A} (m : AM P PE TW A) : Prop := ∀ s, extends (st_fs s) (st_fs (m s).2).

Lemma calls_refl w : extends w w.
Proof. exists []. by rewrite app_nil_r. Qed.

Lemma calls_trans w1 w2 w3 : extends w1 w2 → extends w2 w3 → extends w1 w3.
Proof. intros (t & E & H) (t' & E' & H'). exists (t ++ t'). rewrite E', E, app_assoc. split; [done|by apply Forall_app]. Qed.

Lemma confined_ret {A} (a : A) : confined (am_ret a).
Proof. intros s. apply calls_refl. Qed.
Lemma confined_throw {A} e : confined (A:=A) (am_throw e).
Proof. intros s. apply calls_refl. Qed.
Lemma confined_bind {A B} (m : AM P PE TW A) (k : A → AM P PE TW B) :
  confined m → (∀ a, confined (k a)) → confined (am_bind m k).
Proof.
  intros Hm Hk s. unfold am_bind. specialize (Hm s). destruct (m s) as [[a|e|] s']; simpl in *; [|done..].
  eapply calls_trans; [exact Hm|]. apply Hk.
Qed.
Lemma confined_query {A} (q : TW → io_result A) : confined (fs_query q).
Proof. intros s. apply calls_refl. Qed.
Lemma confined_and b : confined (and_exact b).
Proof. intros s. apply calls_refl. Qed.
Lemma confined_push p c : confined (push_change p c).
Proof. intros s. apply calls_refl. Qed.
Lemma confined_set i p c : confined (set_change i p c).
Proof. intros s. unfold set_change. case_bool_decide; apply calls_refl. Qed.
Lemma confined_len : confined changes_len.
Proof. intros s. apply calls_refl. Qed.
Lemma confined_state : confined (λ s, (Ok (st_fs s), s)).
Proof. intros s. apply calls_refl. Qed.
Lemma confined_lift {A} (r : res (ApplyPatchError PE) A) : confined (am_lift r).
Proof. intros s. destruct r; apply calls_refl. Qed.
Lemma confined_context {A} c (r : io_result A) : confined (with_context c r).
Proof. destruct r; [apply confined_throw|apply confined_ret]. Qed.
Lemma confined_path {A} (r : PE + A) : confined (am_path r).
Proof. destruct r; [apply confined_throw|apply confined_ret]. Qed.
Lemma confined_try {A} (m : AM P PE TW A) : confined m → confined (try_write m).
Proof. intros Hm s. unfold try_write. specialize (Hm s). by destruct (m s) as [[a|e|] s']. Qed.
Lemma confined_call op call : allowed op → confined (fs_call (recorded op call)).
Proof.
  intros Ha s. unfold fs_call, recorded. destruct (call (st_fs s).1) as [r w']. simpl. exists [op]. simpl.
  split; [done|by constructor].
Qed.
End confined.

#[local] Hint Resolve confined_ret confined_throw confined_bind confined_query confined_and confined_push
  confined_set confined_len confined_state confined_lift confined_context confined_path confined_try : confined.

Ltac confine :=
  repeat first
    [ progress intros
    | apply confined_bind
    | apply confined_try
    | apply confined_call
    | match goal with |- context [match ?x with _ => _ end] => destruct x eqn:? end
    | solve [eauto with confined] ].

(** ** The operations a hunk may call *)

(** The calls made to leave a file at [path], or none. *)
Definition writes (path : P) (op : FsOp P) : Prop :=
  op = OpWrite path ∨ op = OpRemove path ∨ ∃ d, op = OpMkdir d ∧ path_parent path = Some d.

(** The calls of one hunk: on its own path and on the destination of its move. *)
Definition hunk_calls (cwd : P) (h : Hunk) (op : FsOp P) : Prop :=
  (∃ path, resolve_path h cwd = inr path ∧ writes path op)
  ∨ (∃ path mv cs dest, h = UpdateFile path (Some mv) cs ∧ path_join cwd mv = inr dest ∧ writes dest op).

Lemma confined_mono (a b : FsOp P → Prop) {A} (m : AM P PE TW A) :
  (∀ op, a op → b op) → confined a m → confined b m.
Proof. intros H Hm s. destruct (Hm s) as (t & E & Ht). exists t. split; [done|]. by eapply Forall_impl. Qed.

Lemma note_confined a f p : confined a (note_existing_path_delta_support f p).
Proof. unfold note_existing_path_delta_support. confine. Qed.

Lemma read_optional_confined a f p : confined a (read_optional_file_text_for_delta f p).
Proof. unfold read_optional_file_text_for_delta. apply confined_bind; [apply note_confined|]. confine. Qed.

Lemma write_retry_confined f p c : confined (writes p) (write_file_with_missing_parent_retry f p c).
Proof.
  unfold write_file_with_missing_parent_retry. simpl. apply confined_bind; [apply confined_call; by left|].
  intros [err|]; [|apply confined_ret]. destruct (kind_is NotFound err); [|apply confined_throw].
  apply confined_bind.
  - destruct (path_parent p) as [d|] eqn:E; [|apply confined_ret].
    apply confined_bind; [apply confined_call; right; right; eauto|]. intros. apply confined_context.
  - intros _. apply confined_bind; [apply confined_call; by left|]. intros. apply confined_context.
Qed.

Lemma remove_original_confined f c p e : confined (writes p) (remove_original f c p e).
Proof.
  unfold remove_original, ensure_not_directory, remove_failure_was_side_effect_free. simpl.
  apply confined_bind; [apply confined_bind; [apply confined_query|]; confine|]. intros r.
  apply confined_bind; [apply confined_context|]. intros _.
  apply confined_bind; [apply confined_call; right; by left|]. confine.
Qed.

Lemma confined_bind_path allowed {A B} (r : PE + A) (k : A → AM P PE TW B) :
  (∀ a, r = inr a → confined allowed (k a)) → confined allowed (am_bind (am_path r) k).
Proof. intros Hk. destruct r as [e|a]; [intros s; apply calls_refl|]. intros s. by apply Hk. Qed.

Lemma apply_add_confined f p c : confined (writes p) (apply_add (PE:=PE) f p c).
Proof.
  unfold apply_add. apply confined_bind; [apply read_optional_confined|]. intros o.
  apply confined_bind; [apply confined_try, write_retry_confined|]. intros. apply confined_push.
Qed.

Lemma apply_delete_confined f p : confined (writes p) (apply_delete (PE:=PE) f p).
Proof.
  unfold apply_delete. apply confined_bind; [apply note_confined|]. intros _.
  apply confined_bind; [apply confined_query|]. intros r. cbv zeta.
  apply confined_bind; [destruct r; [apply confined_and|apply confined_ret]|]. intros _.
  apply confined_bind; [apply remove_original_confined|]. intros _.
  destruct r; [apply confined_ret|apply confined_push].
Qed.

Lemma apply_update_confined opts cwd p mv cs :
  confined (λ op, writes p op ∨ ∃ m dest, mv = Some m ∧ path_join cwd m = inr dest ∧ writes dest op)
    (apply_update (PE:=PE) opts cwd p mv cs).
Proof.
  unfold apply_update. apply confined_bind; [apply note_confined|]. intros _.
  apply confined_bind; [apply confined_state|]. intros w. apply confined_bind; [apply confined_lift|]. intros ap.
  destruct mv as [m|].
  - apply confined_bind_path. intros dest Hd.
    apply confined_bind; [apply read_optional_confined|]. intros o.
    apply confined_bind; [apply confined_try|].
    { eapply confined_mono; [|apply write_retry_confined]. intros op Hop. right. eauto 10. }
    intros _. apply confined_bind; [apply confined_len|]. intros n.
    apply confined_bind; [apply confined_push|]. intros _.
    apply confined_bind; [|intros _; apply confined_set].
    eapply confined_mono; [|apply remove_original_confined]. intros op Hop. by left.
  - apply confined_bind; [|intros _; apply confined_push]. apply confined_try. simpl.
    apply confined_bind; [apply confined_call; left; by left|]. intros. apply confined_context.
Qed.

Lemma apply_hunk_confined opts cwd acc h : confined (hunk_calls cwd h) (apply_hunk (PE:=PE) opts cwd acc h).
Proof.
  unfold apply_hunk. apply confined_bind_path. intros path Hr.
  assert (Hp : ∀ op, writes path op → hunk_calls cwd h op) by (intros op ?; left; eauto).
  destruct h as [q c|q|q mv cs]; (apply confined_bind; [|intros _; apply confined_ret]).
  - eapply confined_mono; [|apply apply_add_confined]. done.
  - eapply confined_mono; [|apply apply_delete_confined]. done.
  - eapply confined_mono; [|apply apply_update_confined].
    intros op [Hop|(m & dest & -> & Hd & Hop)]; [by apply Hp|]. right. eauto 10.
Qed.

Lemma apply_hunk_loop_confined opts cwd acc hs :
  confined (λ op, ∃ h, h ∈ hs ∧ hunk_calls cwd h op) (apply_hunk_loop (PE:=PE) opts cwd acc hs).
Proof.
  revert acc. induction hs as [|h hs IH]; intros acc; simpl; [apply confined_ret|].
  apply confined_bind.
  - eapply confined_mono; [|apply apply_hunk_confined]. intros op Hop. exists h. split; [by left|done].
  - intros acc'. eapply confined_mono; [|apply IH]. intros op (h' & Hh & Hop). exists h'. split; [by right|done].
Qed.

(** The calls of a whole run: those of the hunks of the text. *)
Lemma apply_patch_confined opts cwd patch (r r' : RunState TW O) res :
  apply_patch_with_options (PE:=PE) opts cwd patch r = (res, r') →
  extends (λ op, ∃ a h, parse_patch patch = Ok a ∧ h ∈ args_hunks a ∧ hunk_calls cwd h op)
    (run_fs r) (run_fs r').
Proof.
  unfold apply_patch_with_options. destruct (parse_patch patch) as [a|e|] eqn:Ea.
  - unfold apply_hunks_with_options.
    assert (Hc : confined (λ op, ∃ a' h, (Ok a : Prelude.res ParseError ApplyPatchArgs) = Ok a' ∧ h ∈ args_hunks a' ∧ hunk_calls cwd h op)
                   (apply_hunks_to_files (PE:=PE) opts cwd (args_hunks a))).
    { unfold apply_hunks_to_files. destruct (args_hunks a) as [|h hs] eqn:Eh; [apply confined_throw|].
      eapply confined_mono; [|apply apply_hunk_loop_confined]. intros op (h' & Hh & Hop). exists a, h'. by rewrite Eh. }
    specialize (Hc {| st_fs := run_fs r; st_delta := delta_empty |}).
    destruct (apply_hunks_to_files _ _ _ _) as [outcome s]. simpl in Hc.
    destruct outcome as [aff|err|].
    + destruct (print_summary aff (run_stdout r)) as [[e|] out]; intros [= _ <-]; exact Hc.
    + destruct (writeln _ _) as [[e|] err']; intros [= _ <-]; exact Hc.
    + intros [= _ <-]. exact Hc.
  - destruct (writeln _ _) as [[e'|] err']; intros [= _ <-]; apply calls_refl.
  - intros [= _ <-]. apply calls_refl.
Qed.
End trace.
