(* ===== verification/PatchSafety.v ===== *)
(** * Approving a patch

    Models [core/src/safety.rs], [core/src/apply_patch.rs] and the permission
    part of [core/src/tools/handlers/apply_patch.rs]: whether a verified patch is
    applied without asking, put to the user or rejected, the permissions asked
    for, and the changes shown. The keys of the [HashMap] of changes are compared as
    URLs (the code also identifies Windows spellings that differ in case only), and
    its unspecified iteration order is that of [map_to_list]. *)

From stdpp Require Import gmap sorting.
From stdpp Require Import gmap.
From S2P Require Import Prelude RustStr Utf8 PathConvention PathUri PathText FsPolicy FsDeny FsTransform FsProfile.
From S2P Require Import PatchParser SeekSequence FileUpdate ApplyPatch Invocation.
From S2P Require Import PatchParserFacts PatchRoundTrip PatchTrace.
From S2P Require Import PatchTrace.
Open Scope list_scope.

(** ** Approval policies ([protocol/src/protocol.rs]) *)

Record GranularApprovalConfig := {
  sandbox_approval : bool;
  rules : bool;
  skill_approval : bool;
  request_permissions : bool;
  mcp_elicitations : bool;
}.

Inductive AskForApproval := UnlessTrusted | OnRequest | Granular (c : GranularApprovalConfig) | Never.

(** ** Requirements ([core/src/tools/sandboxing.rs]) *)

Inductive ExecApprovalRequirement :=
  | Skip_ (bypass_sandbox : bool) (proposed_execpolicy_amendment : option (list str))
  | NeedsApproval (reason : option str) (proposed_execpolicy_amendment : option (list str))
  | Forbidden_ (reason : str).

Inductive FunctionCallError := RespondToModel (message : str) | Fatal (message : str).

(** ** Safety *)

Definition PATCH_REJECTED_OUTSIDE_PROJECT_REASON : str :=
  lit "writing outside of the project; rejected by user approval settings".
Definition PATCH_REJECTED_READ_ONLY_REASON : str :=
  lit "writing is blocked by read-only sandbox; rejected by user approval settings".

Inductive SafetyCheck := AutoApprove | AskUser | Reject (reason : str).

Inductive PatchSandboxRoute := ExecutorManaged | Platform (level : WindowsSandboxLevel).

Inductive FileChange :=
  | FcAdd (content : str)
  | FcDelete (content : str)
  | FcUpdate (unified_diff : str) (move_path : option str).

Record ApplyPatchRuntimeInvocation (U : Type) `{Countable U} := {
  ri_action : ApplyPatchAction U;
  auto_approved : bool;
  ri_exec_approval_requirement : ExecApprovalRequirement;
}.
Arguments ri_action {U _ _} _.
Arguments auto_approved {U _ _} _.
Arguments ri_exec_approval_requirement {U _ _} _.

Section safety.
Context {U UE : Type} `{UL : !UrlLib U UE} `{CU : !Countable U}.
Implicit Types (action : ApplyPatchAction U) (p : FileSystemSandboxPolicy U)
  (ctx : FileSystemSandboxPolicyContext U) (profile : PermissionProfile U).

Definition patch_rejection_reason profile p ctx : str :=
  let has_no_writable_roots := negb (has_configured_writable_roots p ctx) in
  match profile with
  | Managed _ _ =>
      if negb (has_full_disk_write_access_with_context p ctx) && has_no_writable_roots
      then PATCH_REJECTED_READ_ONLY_REASON else PATCH_REJECTED_OUTSIDE_PROJECT_REASON
  | Disabled | External _ => PATCH_REJECTED_OUTSIDE_PROJECT_REASON
  end.

Definition change_is_writable p ctx (x : U * ApplyPatchFileChange U) : bool :=
  let '(path, change) := x in
  match change with
  | FAdd _ | FDelete _ => can_write_path p path ctx
  | FUpdate _ move_path _ =>
      can_write_path p path ctx
      && match move_path with Some dest => can_write_path p dest ctx | None => true end
  end.

Definition is_write_patch_constrained_to_writable_paths action p ctx : bool :=
  if has_full_disk_write_access_with_context p ctx then true
  else forallb (change_is_writable p ctx) (map_to_list (action_changes action)).

Definition rejects_sandbox_approval (policy : AskForApproval) : bool :=
  match policy with
  | Never => true
  | Granular c => negb (sandbox_approval c)
  | UnlessTrusted | OnRequest => false
  end.

Definition sandbox_available (os : TargetOs) (route : PatchSandboxRoute) : bool :=
  match route with
  | ExecutorManaged => true
  | Platform level => bool_decide (get_platform_sandbox os (negb (bool_decide (level = WsDisabled))) ≠ None)
  end.

Definition assess_patch_safety (os : TargetOs) action (policy : AskForApproval) profile p ctx
    (route : PatchSandboxRoute) : SafetyCheck :=
  if bool_decide (action_changes action = ∅) then Reject (lit "empty patch")
  else match policy with
       | UnlessTrusted => AskUser
       | Never | OnRequest | Granular _ =>
           if is_write_patch_constrained_to_writable_paths action p ctx
              && (match profile with Disabled | External _ => true | Managed _ _ => false end
                  || sandbox_available os route)
           then AutoApprove
           else if rejects_sandbox_approval policy then Reject (patch_rejection_reason profile p ctx)
           else AskUser
       end.

Definition prepare_apply_patch (os : TargetOs) (policy : AskForApproval) profile p ctx
    (route : PatchSandboxRoute) action : res FunctionCallError (ApplyPatchRuntimeInvocation U) :=
  match assess_patch_safety os action policy profile p ctx route with
  | AutoApprove => Ok {| ri_action := action; auto_approved := true;
                         ri_exec_approval_requirement := Skip_ false None |}
  | AskUser => Ok {| ri_action := action; auto_approved := false;
                     ri_exec_approval_requirement := NeedsApproval None None |}
  | Reject reason => Err (RespondToModel (lit "patch rejected: " ++ reason))
  end.

(** ** The changes for display *)

Definition protocol_change (change : ApplyPatchFileChange U) : FileChange :=
  match change with
  | FAdd content => FcAdd content
  | FDelete content => FcDelete content
  | FUpdate unified_diff move_path _ => FcUpdate unified_diff (inferred_native_string <$> move_path)
  end.

Definition convert_apply_patch_to_protocol action : gmap str FileChange :=
  foldl (λ result '(path, change), <[inferred_native_string path := protocol_change change]> result) ∅
    (map_to_list (action_changes action)).

(** ** Permissions for the targets *)

Definition file_paths_for_action action : list U :=
  map_to_list (action_changes action) ≫= λ '(path, change),
    path :: match change with FUpdate _ (Some dest) _ => [dest] | _ => [] end.

(** The order of strings: by bytes, which is by scalar values. *)
Fixpoint str_le (a b : str) : bool :=
  match a, b with
  | [], _ => true
  | _, [] => false
  | x :: a, y :: b => (x <? y)%N || (x =? y)%N && str_le a b
  end.

(** [Vec::dedup]: an element equal to the last one kept is left out. *)
Fixpoint dedup_after (prev : U) (l : list U) : list U :=
  match l with
  | [] => []
  | x :: l' => if path_uri_eqb x prev then dedup_after prev l' else x :: dedup_after x l'
  end.
Definition dedup (l : list U) : list U :=
  match l with [] => [] | x :: l' => x :: dedup_after x l' end.

Definition url_le (a b : U) : Prop := str_le (url_as_str a) (url_as_str b) = true.
#[global] Instance url_le_dec : RelDecision url_le.
Proof. intros a b. unfold url_le. apply _. Defined.

(** The parent that the rules of the host recover for an opaque path. *)
Context (host_parent : U → option U).

Definition write_target (route : PatchSandboxRoute) (path : U) : U :=
  match parent path with
  | Some parent => parent
  | None => match route with
            | Platform _ => default path (host_parent path)
            | ExecutorManaged => path
            end
  end.

Definition write_permissions_for_paths (file_paths : list U) p ctx (route : PatchSandboxRoute)
    : option (AdditionalPermissionProfile U) :=
  let unwritable path := negb (can_write_path p path ctx) in
  let write_paths :=
    dedup (merge_sort url_le
             (List.filter unwritable (map (write_target route) (List.filter unwritable file_paths)))) in
  match write_paths with
  | [] => None
  | _ =>
      let permissions :=
        {| ap_network := None; ap_file_system := Some (from_paths (Some []) (Some write_paths)) |} in
      match route with
      | Platform _ => res_ok (normalize_additional_permissions permissions)
      | ExecutorManaged => res_ok (normalize_additional_permissions_with_context permissions ctx)
      end
  end.
End safety.

(** ** Environments *)

Definition require_environment_id (parsed_environment_id : option str) (allow_environment_id : bool)
    : res FunctionCallError (option str) :=
  match parsed_environment_id with
  | Some environment_id =>
      if allow_environment_id then Ok (Some environment_id)
      else Err (RespondToModel (lit "apply_patch environment selection is unavailable for this turn"))
  | None => Ok None
  end.

(** * Approved patches stay within the policy

    Composes the parser, the dry run, the safety check and the application of a
    patch with the file system policy. *)

Section approved.
Context {U UE PE W O : Type} `{UL : !UrlLib U UE} `{CU : !Countable U}.
Context `{PO : !PathUriOps U PE} `{FS : !ExecutorFileSystem U W} `{WO : !Writer O}.
Context (text_diff : nat → str → str → str).
Implicit Types (action : ApplyPatchAction U) (ch : gmap U (ApplyPatchFileChange U))
  (p : FileSystemSandboxPolicy U) (ctx : FileSystemSandboxPolicyContext U).

(** ** The dry run records every path *)

Definition records (cwd : U) ch (h : Hunk) : Prop :=
  ∃ path c, resolve_path h cwd = inr path ∧ ch !! path = Some c
    ∧ ∀ q mv cs, h = UpdateFile q (Some mv) cs →
        ∃ dest diff new, path_join cwd mv = inr dest ∧ c = FUpdate diff (Some dest) new.

Lemma verify_hunk_records cwd m (w : W) ch ch' h :
  verify_hunk text_diff cwd m w ch h = Ok ch' → records cwd ch' h ∧ ch ⊆ ch'.
Proof.
  unfold verify_hunk. intros H. apply res_bind_Ok in H as (path & Hp & H).
  unfold join_or in Hp. destruct (resolve_path h cwd) as [e|path'] eqn:Er; [done|]. injection Hp as ->.
  destruct (ch !! path) eqn:Ec; [done|].
  assert (Hins : ∀ c, ch' = <[path := c]> ch →
    (∀ q mv cs, h = UpdateFile q (Some mv) cs →
       ∃ dest diff new, path_join cwd mv = inr dest ∧ c = FUpdate diff (Some dest) new) →
    records cwd ch' h ∧ ch ⊆ ch').
  { intros c -> Hc. split; [|by apply insert_subseteq]. exists path, c. rewrite lookup_insert_eq. done. }
  destruct h as [q c|q|q mv cs].
  - injection H as <-. by eapply Hins.
  - destruct (read_file_text true path w); [done|]. injection H as <-. by eapply Hins.
  - apply res_bind_Ok in H as (u & _ & H). apply res_bind_Ok in H as (d & Hd & [= <-]). eapply Hins; [done|].
    intros q' mv' cs' [= <- -> <-]. apply res_bind_Ok in Hd as (dest & Hd & [= <-]).
    unfold join_or in Hd. destruct (path_join cwd mv') as [|dest'] eqn:Ej; [done|]. injection Hd as ->. eauto.
Qed.

Lemma verify_loop_records cwd m (w : W) hs ch ch' :
  foldM (verify_hunk text_diff cwd m w) ch hs = Ok ch' → ch ⊆ ch' ∧ ∀ h, h ∈ hs → records cwd ch' h.
Proof.
  revert ch. induction hs as [|h hs IH]; intros ch; cbn [foldM].
  - intros [= <-]. split; [done|]. by intros h ?%not_elem_of_nil.
  - intros H. apply res_bind_Ok in H as (ch1 & H1 & H). destruct (verify_hunk_records _ _ _ _ _ _ H1) as [Hr Hs].
    destruct (IH ch1 H) as [Hs' Hall]. split; [by etrans|]. intros h' [->|Hh]%elem_of_cons; [|by apply Hall].
    destruct Hr as (path & c & Hp & Hc & Hmv). exists path, c. split_and!; [done| |done]. by eapply lookup_weaken.
Qed.

(** ** Approval means every recorded path is writable *)

(** The policy lets the path be written. *)
Definition permitted p ctx (path : U) : bool :=
  has_full_disk_write_access_with_context p ctx || can_write_path p path ctx.

Lemma approved_changes os action policy profile p ctx route path c :
  assess_patch_safety os action policy profile p ctx route = AutoApprove →
  action_changes action !! path = Some c →
  permitted p ctx path = true ∧ ∀ diff dest new, c = FUpdate diff (Some dest) new → permitted p ctx dest = true.
Proof.
  unfold assess_patch_safety. case_bool_decide; [done|]. intros Ha Hl.
  assert (Hw : is_write_patch_constrained_to_writable_paths action p ctx = true).
  { destruct (is_write_patch_constrained_to_writable_paths action p ctx); [done|]. simpl in Ha.
    destruct policy; try done; by destruct (rejects_sandbox_approval _). }
  unfold is_write_patch_constrained_to_writable_paths, permitted in *.
  destruct (has_full_disk_write_access_with_context p ctx); [done|]. simpl.
  rewrite forallb_forall in Hw. specialize (Hw (path, c)).
  rewrite <- list_elem_of_In, elem_of_map_to_list in Hw. specialize (Hw Hl). simpl in Hw.
  destruct c as [?|?|diff [dest|] new]; try (split; [by rewrite ?andb_true_r in Hw|done]).
  - apply andb_true_iff in Hw as [Hp Hd]. split; [done|]. by intros ? ? ? [= _ <- _].
Qed.

(** A call on a path that may be written, or the creation of its parent. *)
Definition permitted_call p ctx (op : FsOp U) : Prop :=
  ∃ path, permitted p ctx path = true ∧ writes path op.

(** The same hunks up to contents have the same calls. *)
Lemma hunk_sim_calls cwd h h' op : hunk_sim h h' → hunk_calls (PE:=PE) cwd h' op → hunk_calls (PE:=PE) cwd h op.
Proof.
  intros Hs. unfold hunk_calls, resolve_path. destruct Hs as [path c c'|path|path mv cs cs' _]; simpl; try done.
  - intros [?|(q & m & cs & dest & ? & _)]; [by left|done].
  - intros [?|(q & m & cs0 & dest & [= <- -> <-] & ?)]; [by left|right]. eauto 10.
Qed.

Lemma records_permitted os action policy profile p ctx route h op :
  assess_patch_safety os action policy profile p ctx route = AutoApprove →
  records (action_cwd action) (action_changes action) h → hunk_calls (PE:=PE) (action_cwd action) h op →
  permitted_call p ctx op.
Proof.
  intros Ha (path & c & Hp & Hc & Hmv). destruct (approved_changes _ _ _ _ _ _ _ _ _ Ha Hc) as [Hw Hd].
  intros [(q & Hq & Hop)|(q & mv & cs & dest & -> & Hj & Hop)].
  - rewrite Hp in Hq. injection Hq as <-. by exists path.
  - destruct (Hmv q mv cs eq_refl) as (dest' & diff & new & Hj' & ->). rewrite Hj in Hj'. injection Hj' as <-.
    exists dest. split; [|done]. by eapply Hd.
Qed.

(** C3. A patch that is approved without asking stays within the policy: its text
    is parsed, verified in a dry run and found safe; when that text is parsed
    again and applied, to whatever file system and with whatever failures, every
    call that changes a file is a write or removal of a path the policy lets be
    written, and the only directories created are parents of such paths. *)
Theorem auto_approved_patch_confined os patch a workdir cwd m (w : W) action policy profile p ctx route
    opts (r r' : RunState (W * list (FsOp U)) O) res :
  parse_patch patch = Ok a →
  try_verify_apply_patch_args (PE:=PE) text_diff (with_workdir a workdir) cwd m w = Ok action →
  assess_patch_safety os action policy profile p ctx route = AutoApprove →
  apply_patch_with_options (PE:=PE) (FS:=traced) opts (action_cwd action) (action_patch action) r = (res, r') →
  ∃ calls, (run_fs r').2 = (run_fs r).2 ++ calls ∧ Forall (permitted_call p ctx) calls.
Proof.
  intros Hparse Hv Hs Happ. unfold try_verify_apply_patch_args in Hv.
  apply res_bind_Ok in Hv as (ecwd & _ & Hv). apply res_bind_Ok in Hv as (ch & Hf & [= <-]). simpl in *.
  destruct (verify_loop_records _ _ _ _ _ _ Hf) as [_ Hrec]. destruct (reparse patch a Hparse) as (b & Hb & Hsim & _).
  destruct (apply_patch_confined _ _ _ _ _ _ Happ) as (calls & Ec & Hcalls). exists calls. split; [done|].
  eapply Forall_impl; [exact Hcalls|]. intros op (b' & h' & Hb' & Hh' & Hop). simpl in Hb'.
  rewrite Hb in Hb'. injection Hb' as <-.
  apply list_elem_of_lookup in Hh' as (i & Hi). destruct (Forall2_lookup_r _ _ _ _ _ Hsim Hi) as (h & Hi' & Hhs).
  eapply (records_permitted os _ policy profile p ctx route h op Hs); simpl.
  - apply Hrec. by eapply list_elem_of_lookup_2.
  - by eapply hunk_sim_calls.
Qed.
End approved.
