(* ===== verification/PatchProgress.v ===== *)
(** * Progress of a patch while its arguments stream in

    Models [ApplyPatchArgumentDiffConsumer] of
    [core/src/tools/handlers/apply_patch.rs]: the changes parsed so far are sent
    to the client at most every 500 ms, the newest ones withheld until the next
    chance or the end. The clock is an argument, in milliseconds; the feature flag
    is on. *)

From stdpp Require Import gmap.
From S2P Require Import Prelude RustStr PatchParser SeekSequence FileUpdate ApplyPatch.
From S2P Require Import Utf8 PathConvention PathUri PathText FsPolicy FsDeny FsTransform FsProfile Invocation PatchSafety.
Open Scope list_scope.

Definition APPLY_PATCH_ARGUMENT_DIFF_BUFFER_INTERVAL : N := 500.

Record PatchApplyUpdatedEvent := { ev_call_id : str; ev_changes : gmap str FileChange }.

Record ApplyPatchArgumentDiffConsumer := {
  adc_parser : StreamingPatchParser;
  last_sent_at : option N;
  pending : option PatchApplyUpdatedEvent;
}.

Definition default_consumer : ApplyPatchArgumentDiffConsumer :=
  {| adc_parser := default_parser; last_sent_at := None; pending := None |}.

(** ** Changes for display *)

(** [str::push_str(prefix); push_str(line); push('\n')] *)
Definition progress_line (prefix line : str) : str := prefix ++ line ++ [c_lf].

Definition format_chunk (chunk : UpdateFileChunk) : str :=
  match change_context chunk with
  | Some context => progress_line (lit "@@ ") context
  | None => progress_line (lit "@@") []
  end
  ++ concat (map (progress_line (lit "-")) (old_lines chunk))
  ++ concat (map (progress_line (lit "+")) (new_lines chunk))
  ++ (if is_end_of_file chunk then progress_line (lit "*** End of File") [] else []).

Definition format_update_chunks_for_progress (chunks : list UpdateFileChunk) : str :=
  concat (map format_chunk chunks).

Definition hunk_progress (h : Hunk) : str * FileChange :=
  (hunk_source_path h,
   match h with
   | AddFile _ contents => FcAdd contents
   | DeleteFile _ => FcDelete []
   | UpdateFile _ move_path chunks => FcUpdate (format_update_chunks_for_progress chunks) move_path
   end).

Definition convert_apply_patch_hunks_to_protocol (hunks : list Hunk) : gmap str FileChange :=
  foldl (λ changes h, <[(hunk_progress h).1 := (hunk_progress h).2]> changes) ∅ hunks.

(** ** The consumer *)

Definition consume_push (now : N) (call_id delta : str) (c : ApplyPatchArgumentDiffConsumer)
    : ApplyPatchArgumentDiffConsumer * option PatchApplyUpdatedEvent :=
  let '(parser, r) := push_delta (adc_parser c) delta in
  let c := {| adc_parser := parser; last_sent_at := last_sent_at c; pending := pending c |} in
  match r with
  | Ok hunks =>
      match hunks with
      | [] => (c, None)
      | _ =>
          let event := {| ev_call_id := call_id;
                          ev_changes := convert_apply_patch_hunks_to_protocol hunks |} in
          let withhold := match last_sent_at c with
                          | Some sent => (now - sent <? APPLY_PATCH_ARGUMENT_DIFF_BUFFER_INTERVAL)%N
                          | None => false
                          end in
          if withhold
          then ({| adc_parser := parser; last_sent_at := last_sent_at c; pending := Some event |}, None)
          else ({| adc_parser := parser; last_sent_at := Some now; pending := None |}, Some event)
      end
  | _ => (c, None)
  end.

Definition finish_update_on_complete (now : N) (c : ApplyPatchArgumentDiffConsumer)
    : ApplyPatchArgumentDiffConsumer * res FunctionCallError (option PatchApplyUpdatedEvent) :=
  let '(parser, r) := finish (adc_parser c) in
  let c := {| adc_parser := parser; last_sent_at := last_sent_at c; pending := pending c |} in
  match r with
  | Ok _ =>
      ({| adc_parser := parser;
          last_sent_at := match pending c with Some _ => Some now | None => last_sent_at c end;
          pending := None |}, Ok (pending c))
  | Err e => (c, Err (RespondToModel (lit "failed to parse apply_patch: " ++ display_parse_error e)))
  | Panic => (c, Panic)
  end.

(** ** Runs: deltas with the times they arrive at, and what is sent when *)

Fixpoint consume_all (call_id : str) (ds : list (N * str)) (c : ApplyPatchArgumentDiffConsumer)
    : ApplyPatchArgumentDiffConsumer * list (N * PatchApplyUpdatedEvent) :=
  match ds with
  | [] => (c, [])
  | (now, delta) :: ds' =>
      let '(c, sent) := consume_push now call_id delta c in
      let '(c, rest) := consume_all call_id ds' c in
      (c, match sent with Some event => (now, event) :: rest | None => rest end)
  end.

(** The last non-empty state of the parse. *)
Fixpoint newest (ds : list (N * str)) (p : StreamingPatchParser) (seen : option (list Hunk)) : option (list Hunk) :=
  match ds with
  | [] => seen
  | (_, delta) :: ds' =>
      let '(p, r) := push_delta p delta in
      newest ds' p match r with Ok (h :: hs) => Some (h :: hs) | _ => seen end
  end.

(** What the client has seen or will be sent at the end. *)
Definition in_hand (c : ApplyPatchArgumentDiffConsumer) (seen : option PatchApplyUpdatedEvent)
    : option PatchApplyUpdatedEvent :=
  match pending c with Some event => Some event | None => seen end.

Definition event_of (call_id : str) (hs : list Hunk) : PatchApplyUpdatedEvent :=
  {| ev_call_id := call_id; ev_changes := convert_apply_patch_hunks_to_protocol hs |}.

Lemma consume_push_in_hand now call_id delta c c' sent seen hs :
  consume_push now call_id delta c = (c', sent) → in_hand c seen = event_of call_id <$> hs →
  adc_parser c' = (push_delta (adc_parser c) delta).1
  ∧ in_hand c' (match sent with Some e => Some e | None => seen end)
    = event_of call_id <$> match (push_delta (adc_parser c) delta).2 with Ok (h :: hs) => Some (h :: hs) | _ => hs end.
Proof.
  unfold consume_push, in_hand. destruct (push_delta (adc_parser c) delta) as [parser r]. simpl.
  intros H Hseen. destruct r as [[|h l]|e|]; try (injection H as <- <-; simpl; done).
  destruct (match last_sent_at c with Some _ => _ | None => _ end); injection H as <- <-; done.
Qed.

Lemma consume_all_in_hand call_id ds c c' sent seen hs :
  consume_all call_id ds c = (c', sent) → in_hand c seen = event_of call_id <$> hs →
  in_hand c' (match last sent with Some (_, e) => Some e | None => seen end)
  = event_of call_id <$> newest ds (adc_parser c) hs.
Proof.
  revert c sent seen hs. induction ds as [|[now delta] ds IH]; intros c sent seen hs; simpl.
  - by intros [= <- <-].
  - destruct (consume_push now call_id delta c) as [c1 s1] eqn:E1.
    destruct (consume_all call_id ds c1) as [c2 rest] eqn:E2. intros [= <- <-] Hseen.
    destruct (consume_push_in_hand _ _ _ _ _ _ _ _ E1 Hseen) as [Hp Hh].
    specialize (IH c1 rest _ _ E2 Hh). rewrite Hp in IH.
    destruct (push_delta (adc_parser c) delta) as [p1 r1]. simpl in *. rewrite <- IH. f_equal.
    destruct s1 as [e|]; [|done]. destruct rest as [|x rest]; [done|]. rewrite last_cons_cons.
    destruct (last (x :: rest)) as [[? ?]|] eqn:El; [done|]. by apply last_None in El.
Qed.

(** Events are sent at least the interval apart. *)
Definition spaced (from : option N) (ts : list N) : Prop :=
  ∀ i t t', (option_list from ++ ts) !! i = Some t → (option_list from ++ ts) !! S i = Some t' →
    (t + APPLY_PATCH_ARGUMENT_DIFF_BUFFER_INTERVAL <= t')%N.

Lemma consume_all_spaced call_id ds c c' sent :
  consume_all call_id ds c = (c', sent) → spaced (last_sent_at c) (map fst sent).
Proof.
  revert c sent. induction ds as [|[now delta] ds IH]; intros c sent; simpl.
  - intros [= <- <-] i t t'. by destruct (last_sent_at c), i.
  - destruct (consume_push now call_id delta c) as [c1 s1] eqn:E1.
    destruct (consume_all call_id ds c1) as [c2 rest] eqn:E2. intros [= <- <-]. specialize (IH c1 rest E2).
    unfold consume_push in E1. destruct (push_delta (adc_parser c) delta) as [p1 r1].
    destruct r1 as [[|h l]|e|]; try (injection E1 as <- <-; exact IH). simpl in E1.
    destruct (last_sent_at c) as [s|] eqn:Es; [destruct (_ <? _)%N eqn:Ew|]; injection E1 as <- <-; try exact IH.
    + simpl in IH |- *. unfold spaced in *. simpl in *. intros i t t'. destruct i as [|i]; simpl.
      * intros [= <-] [= <-]. apply N.ltb_ge in Ew.
        unfold APPLY_PATCH_ARGUMENT_DIFF_BUFFER_INTERVAL in *. lia.
      * apply IH.
Qed.

(** Progress is throttled and not lost: however the patch text is cut and
    whenever the pieces arrive, two updates are sent at least 500 ms apart, and the
    last one sent, with the one sent when the arguments are complete, shows the
    newest hunks that were parsed. *)
Theorem progress_throttled_not_lost call_id ds c sent now c' last_event :
  consume_all call_id ds default_consumer = (c, sent) →
  finish_update_on_complete now c = (c', Ok last_event) →
  spaced None (map fst sent)
  ∧ match last_event with Some e => Some e | None => snd <$> last sent end
    = event_of call_id <$> newest ds default_parser None
  ∧ pending c' = None.
Proof.
  intros Hc Hf. split; [exact (consume_all_spaced _ _ _ _ _ Hc)|].
  pose proof (consume_all_in_hand call_id ds default_consumer c sent None None Hc eq_refl) as Hh.
  unfold finish_update_on_complete in Hf. destruct (finish (adc_parser c)) as [p r].
  destruct r as [hs| |]; try done. simpl in Hf. injection Hf as <- <-. split; [|done].
  change default_parser with (adc_parser default_consumer). rewrite <- Hh. unfold in_hand. destruct (pending c); [done|]. by destruct (last sent) as [[? ?]|].
Qed.

(** ** Sample *)

Definition progress_deltas : list (N * str) :=
  [(0%N, lit "*** Begin Patch" ++ [c_lf] ++ lit "*** Add File: a" ++ [c_lf]);
   (100%N, lit "+x" ++ [c_lf]);
   (200%N, lit "*** Delete File: b" ++ [c_lf]);
   (700%N, lit "*** End Patch")].

Lemma progress_throttled_not_lost_witness :
  ∃ c sent c' last_event,
    consume_all (lit "call") progress_deltas default_consumer = (c, sent)
    ∧ finish_update_on_complete 900%N c = (c', Ok last_event)
    ∧ match last_event with Some e => Some e | None => snd <$> last sent end
      = event_of (lit "call") <$> newest progress_deltas default_parser None.
Proof.
  destruct (consume_all (lit "call") progress_deltas default_consumer) as [c sent] eqn:E.
  destruct (finish_update_on_complete 900%N c) as [c' r] eqn:Ef.
  assert (Hr : ∃ e, r = Ok e).
  { vm_compute in E. injection E as <- <-. vm_compute in Ef. injection Ef as <- <-. eauto. }
  destruct Hr as [e ->]. exists c, sent, c', e. split_and!; [done..|].
  by destruct (progress_throttled_not_lost _ _ _ _ _ _ _ E Ef) as (_ & H & _).
Defined.
