(* ===== verification/StreamText.v ===== *)
(** * Streaming text parsers: the interface

    Models [utils/stream-parser/src/stream_text.rs]: the chunk a parser emits,
    the trait [StreamTextParser], and the law its implementations are proved to
    satisfy and its clients rely on: the output does not depend on how the text
    was cut into chunks. *)

From S2P Require Import Prelude RustStr.
Open Scope list_scope.

Record StreamTextChunk (T : Type) := { visible_text : str; extracted : list T }.
Arguments visible_text {T} s.
Arguments extracted {T} s.
Arguments Build_StreamTextChunk {T} _ _.

(** [StreamTextChunk::default]. *)
Definition chunk_default {T} : StreamTextChunk T := Build_StreamTextChunk [] [].
(** [StreamTextChunk::is_empty]. *)
Definition stream_chunk_is_empty {T} (c : StreamTextChunk T) : bool :=
  match visible_text c, extracted c with [], [] => true | _, _ => false end.

(** One chunk after another: [push_str] on the text, [append] on the payloads. *)
Definition chunk_append {T} (a b : StreamTextChunk T) : StreamTextChunk T :=
  Build_StreamTextChunk (visible_text a ++ visible_text b) (extracted a ++ extracted b).

(** The trait. *)
Class StreamTextParser (S T : Type) := {
  push_str : S → str → StreamTextChunk T * S;
  finish_stream : S → StreamTextChunk T * S;
}.

(** The law. Payload lists are compared by an equivalence, because a parser may
    split one run of text over several payloads when the text arrives in
    pieces. [stream_wf] holds in every state a client can reach. *)
Class LawfulStreamParser (S T : Type) `{!StreamTextParser S T} := {
  payload_equiv : relation (list T);
  #[global] payload_equivalence :: Equivalence payload_equiv;
  #[global] payload_app_proper :: Proper (payload_equiv ==> payload_equiv ==> payload_equiv) app;
  stream_wf : S → Prop;
  push_wf s a : stream_wf s → stream_wf (push_str s a).2;
  push_empty s : stream_wf s → push_str s [] = (chunk_default, s);
  push_concat_state s a b : stream_wf s →
    (push_str s (a ++ b)).2 = (push_str (push_str s a).2 b).2;
  push_concat_visible s a b : stream_wf s →
    visible_text (push_str s (a ++ b)).1
    = visible_text (push_str s a).1 ++ visible_text (push_str (push_str s a).2 b).1;
  push_concat_extracted s a b : stream_wf s →
    payload_equiv (extracted (push_str s (a ++ b)).1)
      (extracted (push_str s a).1 ++ extracted (push_str (push_str s a).2 b).1);
}.

Section Feed.
Context {S T : Type} `{SP : !StreamTextParser S T} `{LP : !LawfulStreamParser S T}.

(** Equal text and equivalent payloads. *)
Definition chunk_equiv (a b : StreamTextChunk T) : Prop :=
  visible_text a = visible_text b ∧ payload_equiv (extracted a) (extracted b).

#[export] Instance chunk_equivalence : Equivalence chunk_equiv.
Proof.
  split.
  - intros c. by split.
  - intros c1 c2 [??]. by split.
  - intros c1 c2 c3 [??] [??]. split; [congruence|]. by etrans.
Qed.

#[export] Instance chunk_append_proper : Proper (chunk_equiv ==> chunk_equiv ==> chunk_equiv) chunk_append.
Proof. intros a1 a2 [Ha1 Ha2] b1 b2 [Hb1 Hb2]. split; simpl; [congruence|]. by rewrite Ha2, Hb2. Qed.

Lemma chunk_append_assoc (a b c : StreamTextChunk T) :
  chunk_append a (chunk_append b c) = chunk_append (chunk_append a b) c.
Proof. unfold chunk_append. simpl. by rewrite !app_assoc. Qed.
Lemma chunk_append_default_l (a : StreamTextChunk T) : chunk_append chunk_default a = a.
Proof. by destruct a. Qed.
Lemma chunk_append_default_r (a : StreamTextChunk T) : chunk_append a chunk_default = a.
Proof. unfold chunk_append. destruct a; simpl. by rewrite !app_nil_r. Qed.

Lemma push_concat s a b :
  stream_wf s →
  chunk_equiv (push_str s (a ++ b)).1
    (chunk_append (push_str s a).1 (push_str (push_str s a).2 b).1).
Proof. intros Hs. split; simpl; [by apply push_concat_visible|by apply push_concat_extracted]. Qed.

(** A client that feeds a list of chunks and collects the output. *)
Fixpoint feed (s : S) (chunks : list str) : StreamTextChunk T * S :=
  match chunks with
  | [] => (chunk_default, s)
  | c :: chunks' =>
      let '(o1, s1) := push_str s c in
      let '(o2, s2) := feed s1 chunks' in (chunk_append o1 o2, s2)
  end.

(** Feeding any pieces is feeding the whole text at once. *)
Lemma feed_concat s chunks :
  stream_wf s →
  (feed s chunks).2 = (push_str s (concat chunks)).2
  ∧ chunk_equiv (feed s chunks).1 (push_str s (concat chunks)).1.
Proof.
  revert s. induction chunks as [|c chunks IH]; intros s Hs; simpl.
  - by rewrite push_empty by done.
  - pose proof (push_wf s c Hs) as Hw. specialize (IH _ Hw).
    pose proof (push_concat_state s c (concat chunks) Hs) as H1.
    pose proof (push_concat s c (concat chunks) Hs) as H2.
    destruct (push_str s c) as [o1 s1]. simpl in *.
    destruct (feed s1 chunks) as [o2 s2]. simpl in *. destruct IH as [-> IH2].
    split; [by rewrite H1|]. by rewrite H2, IH2.
Qed.

(** The whole output of a stream: the chunks, then the final flush. *)
Definition run_stream (s : S) (chunks : list str) : StreamTextChunk T :=
  let '(o1, s1) := feed s chunks in chunk_append o1 (finish_stream s1).1.

Lemma run_stream_single s x :
  run_stream s [x] = chunk_append (push_str s x).1 (finish_stream (push_str s x).2).1.
Proof. unfold run_stream. simpl. destruct (push_str s x). by rewrite chunk_append_default_r. Qed.

Lemma run_stream_concat s chunks :
  stream_wf s → chunk_equiv (run_stream s chunks) (run_stream s [concat chunks]).
Proof.
  intros Hs. rewrite run_stream_single. unfold run_stream.
  destruct (feed_concat s chunks Hs) as [H1 H2]. destruct (feed s chunks) as [o1 s1]. simpl in *.
  by rewrite H1, H2.
Qed.

End Feed.
