(* ===== verification/HiddenTag.v ===== *)
(** * Inline hidden tags and citations

    Models [utils/stream-parser/src/inline_hidden_tag.rs] and [citation.rs].
    Strings are lists of characters: the byte offsets of the source all lie on
    character boundaries, and lengths are compared in bytes where the source
    does. The loop of [push_str] is a fuelled iteration of one round; the
    pending text plus one is enough fuel, as every further round consumes a
    delimiter. *)

From S2P Require Import Prelude RustStr StreamText.
Open Scope list_scope.

Record ExtractedInlineTag (T : Type) := { tag_of : T; tag_content : str }.
Arguments tag_of {T} e.
Arguments tag_content {T} e.
Arguments Build_ExtractedInlineTag {T} _ _.

Record InlineTagSpec (T : Type) := { spec_tag : T; spec_open : str; spec_close : str }.
Arguments spec_tag {T} i.
Arguments spec_open {T} i.
Arguments spec_close {T} i.
Arguments Build_InlineTagSpec {T} _ _ _.

Record ActiveTag (T : Type) := { active_name : T; active_close : str; active_content : str }.
Arguments active_name {T} a.
Arguments active_close {T} a.
Arguments active_content {T} a.
Arguments Build_ActiveTag {T} _ _ _.

Record InlineHiddenTagParser (T : Type) := {
  hp_specs : list (InlineTagSpec T);
  hp_pending : str;
  hp_active : option (ActiveTag T);
}.
Arguments hp_specs {T} i.
Arguments hp_pending {T} i.
Arguments hp_active {T} i.
Arguments Build_InlineHiddenTagParser {T} _ _ _.

(** [longest_suffix_prefix_len]: the longest proper prefix of [needle] that
    ends [s]. *)
Fixpoint suffix_prefix_from (k : nat) (s needle : str) : nat :=
  match k with
  | 0 => 0
  | S k' => if ends_with (take k needle) s then k else suffix_prefix_from k' s needle
  end.
Definition longest_suffix_prefix_len (s needle : str) : nat :=
  suffix_prefix_from (length s `min` (length needle - 1)) s needle.

Section HiddenTag.
Context {T : Type}.
Abbreviation spec := (InlineTagSpec T).
Abbreviation out_chunk := (StreamTextChunk (ExtractedInlineTag T)).

(** [InlineHiddenTagParser::new], with its assertions. *)
Definition hidden_new (specs : list spec) : res unit (InlineHiddenTagParser T) :=
  match specs with
  | [] => Panic
  | _ =>
      if forallb (λ s, negb (bool_decide (spec_open s = [])) && negb (bool_decide (spec_close s = [])))
                 specs
      then Ok (Build_InlineHiddenTagParser specs [] None)
      else Panic
  end.

(** [find_next_open]: the least position, then the longest delimiter, then the
    first specification. *)
Definition better_open (a b : nat * spec) : bool :=
  (a.1 <? b.1) || ((a.1 =? b.1) && (str_len (spec_open b.2) <=? str_len (spec_open a.2))).

Fixpoint find_next_open (specs : list spec) (pending : str) : option (nat * spec) :=
  match specs with
  | [] => None
  | s :: specs' =>
      match str_find (spec_open s) pending, find_next_open specs' pending with
      | Some pos, Some best => Some (if better_open (pos, s) best then (pos, s) else best)
      | Some pos, None => Some (pos, s)
      | None, r => r
      end
  end.

Definition max_open_prefix_suffix_len (specs : list spec) (pending : str) : nat :=
  foldr (λ s m, longest_suffix_prefix_len pending (spec_open s) `max` m) 0 specs.

(** One round of the loop of [push_str]: whether it goes on, what it emits,
    and the new pending text and active tag. *)
Definition hidden_step (specs : list spec) (pending : str) (active : option (ActiveTag T))
    : bool * out_chunk * str * option (ActiveTag T) :=
  match active with
  | Some a =>
      match str_find (active_close a) pending with
      | Some close_idx =>
          (true,
           Build_StreamTextChunk [] [Build_ExtractedInlineTag (active_name a)
                                       (active_content a ++ take close_idx pending)],
           drop (close_idx + length (active_close a)) pending, None)
      | None =>
          let keep := longest_suffix_prefix_len pending (active_close a) in
          let take_len := length pending - keep in
          (false, chunk_default, drop take_len pending,
           Some (Build_ActiveTag (active_name a) (active_close a)
                   (active_content a ++ take take_len pending)))
      end
  | None =>
      match find_next_open specs pending with
      | Some (open_idx, s) =>
          (true, Build_StreamTextChunk (take open_idx pending) [],
           drop (open_idx + length (spec_open s)) pending,
           Some (Build_ActiveTag (spec_tag s) (spec_close s) []))
      | None =>
          let keep := max_open_prefix_suffix_len specs pending in
          let take_len := length pending - keep in
          (false, Build_StreamTextChunk (take take_len pending) [], drop take_len pending, None)
      end
  end.

Fixpoint hidden_loop (fuel : nat) (specs : list spec) (pending : str) (active : option (ActiveTag T))
    (out : out_chunk) : out_chunk * str * option (ActiveTag T) :=
  match fuel with
  | 0 => (out, pending, active)
  | S fuel' =>
      let '(go, o, pending', active') := hidden_step specs pending active in
      if (go : bool) then hidden_loop fuel' specs pending' active' (chunk_append out o)
      else (chunk_append out o, pending', active')
  end.

Definition hidden_push_str (p : InlineHiddenTagParser T) (chunk : str)
    : out_chunk * InlineHiddenTagParser T :=
  let pending := hp_pending p ++ chunk in
  let '(out, pending', active') :=
    hidden_loop (S (length pending)) (hp_specs p) pending (hp_active p) chunk_default in
  (out, Build_InlineHiddenTagParser (hp_specs p) pending' active').

Definition hidden_finish (p : InlineHiddenTagParser T) : out_chunk * InlineHiddenTagParser T :=
  match hp_active p with
  | Some a =>
      (Build_StreamTextChunk [] [Build_ExtractedInlineTag (active_name a)
                                   (active_content a ++ hp_pending p)],
       Build_InlineHiddenTagParser (hp_specs p) [] None)
  | None =>
      (Build_StreamTextChunk (hp_pending p) [], Build_InlineHiddenTagParser (hp_specs p) [] None)
  end.

#[export] Instance hidden_stream_parser : StreamTextParser (InlineHiddenTagParser T) (ExtractedInlineTag T) :=
  { push_str := hidden_push_str; finish_stream := hidden_finish }.

End HiddenTag.

(** ** Citations ([citation.rs]) *)

Definition CITATION_OPEN : str := lit "<oai-mem-citation>".
Definition CITATION_CLOSE : str := lit "</oai-mem-citation>".

Record CitationStreamParser := { citation_inner : InlineHiddenTagParser unit }.

Definition citation_spec : InlineTagSpec unit := Build_InlineTagSpec tt CITATION_OPEN CITATION_CLOSE.

(** [CitationStreamParser::new]; the assertions of [InlineHiddenTagParser::new]
    hold of its one specification. *)
Definition citation_new : CitationStreamParser :=
  {| citation_inner := Build_InlineHiddenTagParser [citation_spec] [] None |}.

Definition citation_chunk (c : StreamTextChunk (ExtractedInlineTag unit)) : StreamTextChunk str :=
  Build_StreamTextChunk (visible_text c) (map tag_content (extracted c)).

#[export] Instance citation_stream_parser : StreamTextParser CitationStreamParser str := {
  push_str p chunk :=
    let '(inner, s) := push_str (citation_inner p) chunk in
    (citation_chunk inner, {| citation_inner := s |});
  finish_stream p :=
    let '(inner, s) := finish_stream (citation_inner p) in
    (citation_chunk inner, {| citation_inner := s |});
}.

Definition strip_citations (text : str) : str * list str :=
  let '(out, parser) := push_str citation_new text in
  let '(tail, _) := finish_stream parser in
  let out := chunk_append out tail in
  (visible_text out, extracted out).

(** * Hidden tags: the output does not depend on the chunks

    The parser of inline hidden tags is a lawful stream parser as long as no
    open delimiter occurs inside another one before its end; the citation
    parser, with its single delimiter, is one unconditionally. *)

(** ** Searching text that is still arriving *)

(** What has arrived may still become an occurrence of [n] at its start. *)
Definition compatible (s n : str) : Prop := s `prefix_of` n ∨ n `prefix_of` s.

(** No occurrence of [n] can start in [x], whatever follows [q]. *)
Definition dead (x q n : str) : Prop := ∀ i, i < length x → ¬ compatible (drop i (x ++ q)) n.

Lemma starts_with_prefix p s : starts_with p s = true ↔ p `prefix_of` s.
Proof. apply starts_with_true. Qed.

Lemma compatible_app s b n : compatible (s ++ b) n → compatible s n.
Proof.
  intros [H|H]; [left; by eapply prefix_app_l|].
  destruct (prefix_weak_total n s (s ++ b)); [done|by apply prefix_app_r|by right|by left].
Qed.

Lemma dead_app x q b n : dead x q n → dead x (q ++ b) n.
Proof.
  intros H i Hi Hc. apply (H i Hi). apply compatible_app with b.
  rewrite <- drop_app_le by (rewrite length_app; lia). by rewrite <- app_assoc.
Qed.

Lemma str_find_drop p s i :
  str_find p s = Some i →
  (∃ r, drop i s = p ++ r) ∧ i + length p ≤ length s
  ∧ ∀ j, j < i → starts_with p (drop j s) = false.
Proof.
  intros (r & Hr & Hi & Hj)%str_find_Some.
  assert (Hd : drop i s = p ++ r).
  { apply (app_inv_head (take i s)). by rewrite take_drop. }
  split_and!; [eauto| |done]. apply (f_equal length) in Hd. rewrite length_drop, length_app in Hd. lia.
Qed.

Lemma find_dead x q n :
  dead x q n → str_find n (x ++ q) = (λ i, length x + i) <$> str_find n q.
Proof.
  intros Hd. assert (Hx : ∀ j, j < length x → starts_with n (drop j (x ++ q)) = false).
  { intros j Hj. apply not_true_iff_false. rewrite starts_with_prefix. intros Hp. apply (Hd j Hj). by right. }
  destruct (str_find n q) as [i|] eqn:E; simpl.
  - destruct (str_find_drop _ _ _ E) as (Hr & Hi & Hlt). apply str_find_intro.
    + rewrite length_app. lia.
    + rewrite drop_app_add. by apply starts_with_true.
    + intros j Hj. destruct (decide (j < length x)) as [Hjx|Hjx]; [by apply Hx|].
      replace j with (length x + (j - length x)) by lia. rewrite drop_app_add. apply Hlt. lia.
  - apply str_find_None. rewrite str_find_None in E. intros j Hj.
    destruct (decide (j < length x)) as [Hjx|Hjx]; [by apply Hx|].
    replace j with (length x + (j - length x)) by lia. rewrite drop_app_add. apply E.
    rewrite length_app in Hj. lia.
Qed.

(** *** The kept suffix *)

Definition ends_in (k : nat) (s n : str) : Prop :=
  k < length n ∧ k ≤ length s ∧ drop (length s - k) s = take k n.

Lemma ends_with_ends_in k s n :
  k < length n → k ≤ length s → ends_with (take k n) s = true ↔ ends_in k s n.
Proof.
  intros Hn Hs. rewrite ends_with_true. unfold ends_in. split.
  - intros [r ->]. split_and!; [done|done|]. rewrite length_app, length_take. rewrite drop_app_length'; [done|lia].
  - intros (_ & _ & <-). exists (take (length s - k) s). by rewrite take_drop.
Qed.

Lemma suffix_prefix_from_spec k s n :
  k < length n ∨ k = 0 → k ≤ length s →
  let r := suffix_prefix_from k s n in
  r ≤ k ∧ (r ≠ 0 → ends_in r s n) ∧ ∀ j, j ≤ k → ends_in j s n → j ≤ r.
Proof.
  intros Hk Hs. induction k as [|k IH]; simpl.
  { split_and!; [lia|done|lia]. }
  destruct (ends_with _ s) eqn:E.
  - split_and!; [lia| |lia]. intros _. apply ends_with_ends_in; [lia|lia|done].
  - destruct IH as (H1 & H2 & H3); [lia|lia|]. split_and!; [lia|done|].
    intros j Hj He. destruct (decide (j = S k)) as [->|]; [|apply H3; [lia|done]].
    apply ends_with_ends_in in He; [congruence|lia|lia].
Qed.

Lemma keep_spec s n :
  n ≠ [] →
  let r := longest_suffix_prefix_len s n in
  ends_in r s n ∧ ∀ j, ends_in j s n → j ≤ r.
Proof.
  intros Hn. assert (Hl : length n ≠ 0) by (by destruct n).
  destruct (suffix_prefix_from_spec (length s `min` (length n - 1)) s n) as (H1 & H2 & H3); [lia|lia|].
  unfold longest_suffix_prefix_len. split.
  - destruct (decide (suffix_prefix_from (length s `min` (length n - 1)) s n = 0)) as [->|]; [|auto].
    split_and!; [lia|lia|]. rewrite Nat.sub_0_r, drop_all. done.
  - intros j Hj. apply H3; [|done]. destruct Hj as (? & ? & _). lia.
Qed.

Lemma keep_unique s n r :
  n ≠ [] → ends_in r s n → (∀ j, ends_in j s n → j ≤ r) → longest_suffix_prefix_len s n = r.
Proof.
  intros Hn Hr Hmax. destruct (keep_spec s n Hn) as [H1 H2].
  specialize (H2 r Hr). specialize (Hmax _ H1). lia.
Qed.

Lemma keep_le s n : n ≠ [] → longest_suffix_prefix_len s n ≤ length s.
Proof. intros Hn. destruct (keep_spec s n Hn) as [(_ & ? & _) _]. done. Qed.

Lemma ends_in_app k x q n : k ≤ length q → ends_in k (x ++ q) n ↔ ends_in k q n.
Proof.
  intros Hk. unfold ends_in. rewrite length_app.
  replace (length x + length q - k) with (length x + (length q - k)) by lia.
  rewrite drop_app_add. split; intros (?&?&?); split_and!; lia || done.
Qed.

Lemma keep_dead x q n :
  n ≠ [] → dead x q n →
  longest_suffix_prefix_len (x ++ q) n = longest_suffix_prefix_len q n.
Proof.
  intros Hn Hd. destruct (keep_spec q n Hn) as [H1 H2]. apply keep_unique; [done| |].
  - apply ends_in_app; [by apply keep_le|done].
  - intros j Hj. destruct (decide (j ≤ length q)) as [Hq|Hq].
    + apply H2, (ends_in_app j x q n Hq), Hj.
    + exfalso. destruct Hj as (Hj1 & Hj2 & Hj3). rewrite length_app in Hj2.
      apply (Hd (length (x ++ q) - j)); [rewrite length_app; lia|]. left.
      rewrite Hj3. apply prefix_take.
Qed.

(** Without an occurrence in [p], everything before the kept suffix is dead. *)
Lemma no_find_dead p n k :
  n ≠ [] → str_find n p = None → longest_suffix_prefix_len p n ≤ k → k ≤ length p →
  dead (take (length p - k) p) (drop (length p - k) p) n.
Proof.
  intros Hn Hf Hk Hkp i Hi. rewrite take_drop. rewrite length_take in Hi.
  rewrite str_find_None in Hf. specialize (Hf i ltac:(lia)).
  intros [[t Ht]|Hp]; [|by apply starts_with_prefix in Hp; congruence].
  assert (Hl : length n = length p - i + length t) by (by rewrite Ht, length_app, length_drop).
  destruct (decide (t = [])) as [->|Hte].
  - rewrite app_nil_r in Ht. assert (starts_with n (drop i p) = true); [|congruence].
    apply starts_with_true. exists []. by rewrite app_nil_r.
  - destruct (keep_spec p n Hn) as [_ Hmax].
    specialize (Hmax (length p - i)). cut (length p - i ≤ longest_suffix_prefix_len p n); [lia|].
    apply Hmax. assert (length t ≠ 0) by (by destruct t). split_and!; [lia|lia|].
    replace (length p - (length p - i)) with i by lia.
    rewrite Ht. rewrite take_app_length'; [done|]. by rewrite length_drop.
Qed.

Section Facts.
Context {T : Type}.
Implicit Types (specs : list (InlineTagSpec T)) (act : option (ActiveTag T)).
Abbreviation chunk := (StreamTextChunk (ExtractedInlineTag T)).

(** ** Delimiters *)

(** An open delimiter occurs inside another one only as its end: then no
    delimiter that is complete can still turn out to be part of an earlier,
    longer one. *)
Definition opens_apart specs : Prop :=
  ∀ s1 s2 a b, s1 ∈ specs → s2 ∈ specs → spec_open s2 = a ++ spec_open s1 ++ b → b = [].

Definition specs_ok specs : Prop :=
  Forall (λ s, spec_open s ≠ [] ∧ spec_close s ≠ []) specs ∧ opens_apart specs.
Definition active_ok act : Prop :=
  match act with Some a => active_close a ≠ [] | None => True end.

(** The delimiters being looked for. *)
Definition sought specs act : list str :=
  match act with Some a => [active_close a] | None => map spec_open specs end.
Definition all_dead specs act (x q : str) : Prop := ∀ n, n ∈ sought specs act → dead x q n.

(** Text that holds no delimiter is shown, or added to the active tag. *)
Definition absorb act (x : str) : option (ActiveTag T) :=
  (λ a, Build_ActiveTag (active_name a) (active_close a) (active_content a ++ x)) <$> act.
Definition emit act (x : str) : chunk :=
  match act with Some _ => chunk_default | None => Build_StreamTextChunk x [] end.

Lemma specs_ok_nonempty specs n : specs_ok specs → n ∈ map spec_open specs → n ≠ [].
Proof.
  intros [Hf _] (s & -> & Hs)%list_elem_of_fmap. rewrite Forall_forall in Hf. apply (Hf s Hs).
Qed.

Lemma sought_nonempty specs act n : specs_ok specs → active_ok act → n ∈ sought specs act → n ≠ [].
Proof.
  destruct act as [a|]; simpl; [|by intros ? _; apply specs_ok_nonempty].
  by intros _ Ha ->%list_elem_of_singleton.
Qed.

Lemma find_next_open_dead specs x q :
  all_dead specs None x q →
  find_next_open specs (x ++ q) = (λ '(i, s), (length x + i, s)) <$> find_next_open specs q.
Proof.
  unfold all_dead. simpl. induction specs as [|s specs IH]; intros Hd; simpl; [done|].
  rewrite find_dead by (apply Hd; constructor).
  rewrite IH by (intros n Hn; apply Hd; by constructor).
  destruct (str_find (spec_open s) q) as [i|], (find_next_open specs q) as [[j s']|]; simpl; try done.
  assert (Hb : better_open (length x + i, s) (length x + j, s') = better_open (i, s) (j, s')).
  { unfold better_open. simpl. f_equal; [|f_equal].
    - destruct (Nat.ltb_spec (length x + i) (length x + j)), (Nat.ltb_spec i j); lia || done.
    - destruct (Nat.eqb_spec (length x + i) (length x + j)), (Nat.eqb_spec i j); lia || done. }
  rewrite Hb. destruct (better_open (i, s) (j, s')); done.
Qed.

Lemma max_keep_dead specs x q :
  specs_ok specs → all_dead specs None x q →
  max_open_prefix_suffix_len specs (x ++ q) = max_open_prefix_suffix_len specs q.
Proof.
  unfold all_dead. simpl. intros [Hf _] Hd. induction Hf as [|s specs Hs Hf IH]; simpl; [done|].
  rewrite keep_dead; [|apply Hs|apply Hd; constructor].
  rewrite IH; [done|]. intros n Hn. apply Hd. by constructor.
Qed.

Lemma max_keep_le specs q : specs_ok specs → max_open_prefix_suffix_len specs q ≤ length q.
Proof.
  intros [Hf _]. induction Hf as [|s specs Hs Hf IH]; simpl; [lia|].
  pose proof (keep_le q (spec_open s) (proj1 Hs)). lia.
Qed.

Lemma max_keep_ge specs q s :
  s ∈ specs → longest_suffix_prefix_len q (spec_open s) ≤ max_open_prefix_suffix_len specs q.
Proof. induction 1; simpl; lia. Qed.

Lemma find_next_open_None specs q :
  find_next_open specs q = None ↔ ∀ s, s ∈ specs → str_find (spec_open s) q = None.
Proof.
  induction specs as [|s specs IH]; simpl; [split; [intros _ s Hs; by apply not_elem_of_nil in Hs|done]|].
  split.
  - destruct (str_find (spec_open s) q) as [i|] eqn:E, (find_next_open specs q); try done.
    intros _ s' [->|Hs']%elem_of_cons; [done|]. by apply IH.
  - intros Hall. rewrite (Hall s) by constructor. apply IH. intros s' Hs'. apply Hall. by constructor.
Qed.

(** ** One round on more text *)

Lemma step_dead specs act x q :
  specs_ok specs → active_ok act → all_dead specs act x q →
  hidden_step specs (x ++ q) act =
  let '(go, o, p, a) := hidden_step specs q (absorb act x) in (go, chunk_append (emit act x) o, p, a).
Proof.
  intros Hok Ha Hd. destruct act as [a|]; simpl.
  - assert (Hdc : dead x q (active_close a)) by (apply Hd; constructor).
    rewrite find_dead by done. destruct (str_find (active_close a) q) as [i|]; simpl.
    + unfold chunk_append. simpl. by rewrite take_app_add, <- Nat.add_assoc, drop_app_add, app_assoc.
    + rewrite keep_dead, length_app by done. pose proof (keep_le q (active_close a) Ha).
      replace (length x + length q - _) with
        (length x + (length q - longest_suffix_prefix_len q (active_close a))) by lia.
      rewrite drop_app_add, take_app_add, app_assoc. done.
  - rewrite find_next_open_dead by done. destruct (find_next_open specs q) as [[i s]|]; simpl.
    + unfold chunk_append. simpl. rewrite take_app_add, <- Nat.add_assoc, drop_app_add. done.
    + rewrite max_keep_dead, length_app by done. pose proof (max_keep_le specs q Hok).
      replace (length x + length q - _) with
        (length x + (length q - max_open_prefix_suffix_len specs q)) by lia.
      unfold chunk_append. simpl. by rewrite drop_app_add, take_app_add.
Qed.

(** A round that stops drains dead text. *)
Lemma step_break specs p act o r act' :
  specs_ok specs → active_ok act → hidden_step specs p act = (false, o, r, act') →
  ∃ x, p = x ++ r ∧ all_dead specs act x r ∧ o = emit act x ∧ act' = absorb act x.
Proof.
  intros Hok Ha. unfold hidden_step. destruct act as [a|].
  - destruct (str_find _ p) as [i|] eqn:E; [done|]. cbv zeta.
    pose proof (keep_le p (active_close a) Ha) as Hk. intros [= <- <- <-].
    exists (take (length p - longest_suffix_prefix_len p (active_close a)) p).
    split_and!; [by rewrite take_drop| |done|done].
    intros n ->%list_elem_of_singleton. by apply no_find_dead.
  - destruct (find_next_open specs p) as [[i s]|] eqn:E; [done|]. cbv zeta.
    pose proof (max_keep_le specs p Hok) as Hk. intros [= <- <- <-].
    exists (take (length p - max_open_prefix_suffix_len specs p) p).
    split_and!; [by rewrite take_drop| |done|done].
    intros n (s & -> & Hs)%list_elem_of_fmap. rewrite find_next_open_None in E.
    apply no_find_dead; [|by apply E|by apply max_keep_ge|done].
    destruct Hok as [Hf _]. rewrite Forall_forall in Hf. apply (Hf s Hs).
Qed.

(** ** An occurrence that is complete stays the first *)

Lemma starts_with_app_le n p b j :
  j + length n ≤ length p → starts_with n (drop j (p ++ b)) = starts_with n (drop j p).
Proof.
  intros Hl. rewrite drop_app_le by lia. apply eq_true_iff_eq. rewrite !starts_with_prefix. split.
  - intros H. destruct (prefix_weak_total n (drop j p) (drop j p ++ b)) as [?|[t Ht]];
      [done|by apply prefix_app_r|done|].
    assert (t = []) as ->; [|by rewrite app_nil_r in Ht; rewrite Ht].
    apply (f_equal length) in Ht. rewrite length_app, length_drop in Ht. destruct t; simpl in *; [done|lia].
  - intros H. by apply prefix_app_r.
Qed.

Lemma find_app n p b i : str_find n p = Some i → str_find n (p ++ b) = Some i.
Proof.
  intros (Hr & Hi & Hlt)%str_find_drop. apply str_find_intro.
  - rewrite length_app. lia.
  - rewrite starts_with_app_le by lia. by apply starts_with_true.
  - intros j Hj. rewrite starts_with_app_le by lia. by apply Hlt.
Qed.

Lemma find_app_new n p b j :
  str_find n p = None → str_find n (p ++ b) = Some j → length p < j + length n.
Proof.
  intros Hp (Hr & _ & _)%str_find_drop.
  destruct (decide (j + length n ≤ length p)) as [Hl|]; [exfalso|lia].
  apply starts_with_true in Hr. rewrite starts_with_app_le in Hr by done.
  rewrite str_find_None in Hp. rewrite Hp in Hr by lia. done.
Qed.

Definition beyond (k : nat) (o : option (nat * InlineTagSpec T)) : Prop :=
  match o with Some (j, _) => k < j | None => True end.
Definition same_up_to (k : nat) (x y : option (nat * InlineTagSpec T)) : Prop :=
  x = y ∨ beyond k x ∧ beyond k y.

Definition candidate (s : InlineTagSpec T) (p : str) : option (nat * InlineTagSpec T) :=
  (λ i, (i, s)) <$> str_find (spec_open s) p.
Definition combine_open (x y : option (nat * InlineTagSpec T)) : option (nat * InlineTagSpec T) :=
  match x, y with
  | Some a, Some b => Some (if better_open a b then a else b)
  | Some a, None => Some a
  | None, r => r
  end.

Lemma find_next_open_cons s specs p :
  find_next_open (s :: specs) p = combine_open (candidate s p) (find_next_open specs p).
Proof. simpl. unfold candidate. by destruct (str_find _ _), (find_next_open _ _). Qed.

Lemma combine_beyond k x y : beyond k x → beyond k y → beyond k (combine_open x y).
Proof.
  destruct x as [[i s]|], y as [[j t]|]; simpl; try done. by destruct (better_open _ _).
Qed.

Lemma combine_first k x y y' :
  ¬ beyond k x → beyond k y → beyond k y' → combine_open x y = combine_open x y'.
Proof.
  destruct x as [[i s]|]; simpl; [|done]. intros Hi Hy Hy'.
  assert (Hb : ∀ j t, k < j → better_open (i, s) (j, t) = true).
  { intros j t Hj. unfold better_open. simpl. rewrite (proj2 (Nat.ltb_lt i j)); [done|lia]. }
  destruct y as [[j t]|], y' as [[j' t']|]; simpl in *; rewrite ?Hb by done; done.
Qed.

Lemma combine_second k x x' y :
  beyond k x → beyond k x' → ¬ beyond k y → combine_open x y = combine_open x' y.
Proof.
  destruct y as [[i s]|]; simpl; [|done]. intros Hx Hx' Hi.
  assert (Hb : ∀ j t, k < j → better_open (j, t) (i, s) = false).
  { intros j t Hj. unfold better_open. simpl. rewrite (proj2 (Nat.ltb_ge j i)) by lia.
    rewrite (proj2 (Nat.eqb_neq j i)) by lia. done. }
  destruct x as [[j t]|], x' as [[j' t']|]; simpl in *; rewrite ?Hb by done; done.
Qed.

Lemma beyond_dec k o : beyond k o ∨ ¬ beyond k o.
Proof. destruct o as [[j s]|]; simpl; [lia|by left]. Qed.

Lemma combine_same k x x' y y' :
  same_up_to k x x' → same_up_to k y y' → same_up_to k (combine_open x y) (combine_open x' y').
Proof.
  intros [->|[Hx Hx']] [->|[Hy Hy']].
  - by left.
  - destruct (beyond_dec k x') as [Hb|Hb]; [right|left; by eapply combine_first].
    split; by apply combine_beyond.
  - destruct (beyond_dec k y') as [Hb|Hb]; [right|left; by eapply combine_second].
    split; by apply combine_beyond.
  - right. split; by apply combine_beyond.
Qed.

Lemma find_next_open_in specs p i s :
  find_next_open specs p = Some (i, s) → s ∈ specs ∧ str_find (spec_open s) p = Some i.
Proof.
  induction specs as [|s' specs IH]; [done|]. rewrite find_next_open_cons. unfold candidate.
  destruct (str_find (spec_open s') p) as [j|] eqn:E, (find_next_open specs p) as [[k t]|]; simpl; try done.
  - destruct (better_open _ _); intros [= -> ->]; [by split; [constructor|]|].
    destruct IH as [? ?]; [done|]. by split; [constructor|].
  - intros [= -> ->]. by split; [constructor|].
  - intros [= -> ->]. destruct IH as [? ?]; [done|]. by split; [constructor|].
Qed.

Lemma candidate_same specs p b s s' i :
  opens_apart specs → s ∈ specs → s' ∈ specs → str_find (spec_open s') p = Some i →
  same_up_to i (candidate s p) (candidate s (p ++ b)).
Proof.
  intros Hap Hs Hs' Hi. unfold candidate. destruct (str_find (spec_open s) p) as [j|] eqn:E.
  { left. by rewrite (find_app _ _ b _ E). }
  destruct (str_find (spec_open s) (p ++ b)) as [j|] eqn:E2; [|by left]. right. simpl. split; [done|].
  pose proof (find_app_new _ _ _ _ E E2) as Hj. destruct (decide (i < j)) as [|Hij]; [done|exfalso].
  apply (find_app _ _ b) in Hi as Hib.
  destruct (str_find_drop _ _ _ E2) as ([r Hr] & _ & _).
  destruct (str_find_drop _ _ _ Hib) as ([r' Hr'] & _ & _).
  destruct (str_find_drop _ _ _ Hi) as (_ & Hle & _).
  assert (Hd : drop (i - j) (spec_open s) ++ r = spec_open s' ++ r').
  { rewrite <- Hr', <- drop_app_le by lia. rewrite <- Hr, drop_drop. f_equal. lia. }
  set (m := i - j + length (spec_open s')).
  assert (Hm : drop (i - j) (spec_open s) = spec_open s' ++ drop m (spec_open s)).
  { rewrite <- (take_drop (length (spec_open s')) (drop (i - j) (spec_open s))), drop_drop. f_equal.
    apply (f_equal (take (length (spec_open s')))) in Hd. rewrite take_app_length in Hd.
    rewrite take_app_le in Hd by (rewrite length_drop; lia). done. }
  assert (Hnil : drop m (spec_open s) = []).
  { apply (Hap s' s (take (i - j) (spec_open s))); [done..|]. by rewrite <- Hm, take_drop. }
  apply (f_equal length) in Hnil. rewrite length_drop in Hnil. simpl in Hnil. lia.
Qed.

Lemma find_next_open_app specs p b i s :
  opens_apart specs → find_next_open specs p = Some (i, s) →
  find_next_open specs (p ++ b) = Some (i, s).
Proof.
  intros Hap Hf. destruct (find_next_open_in _ _ _ _ Hf) as [Hin Hi].
  assert (H : ∀ l, (∀ t, t ∈ l → t ∈ specs) →
    same_up_to i (find_next_open l p) (find_next_open l (p ++ b))).
  { induction l as [|t l IH]; intros Hl; [by left|]. rewrite !find_next_open_cons. apply combine_same.
    - eapply candidate_same; [done| |done|done]. apply Hl. constructor.
    - apply IH. intros t' Ht'. apply Hl. by constructor. }
  destruct (H specs ltac:(done)) as [<-|[Hb _]]; [done|]. rewrite Hf in Hb. simpl in Hb. lia.
Qed.

(** A round that goes on does the same on more text, and consumes some. *)
Lemma step_continue specs p b act o p' act' :
  specs_ok specs → active_ok act → hidden_step specs p act = (true, o, p', act') →
  hidden_step specs (p ++ b) act = (true, o, p' ++ b, act')
  ∧ length p' < length p ∧ active_ok act'.
Proof.
  intros [Hf Hap] Ha. unfold hidden_step. destruct act as [a|]; simpl in *.
  - destruct (str_find (active_close a) p) as [i|] eqn:E; [|done]. intros [= <- <- <-].
    destruct (str_find_drop _ _ _ E) as (_ & Hle & _). rewrite (find_app _ _ b _ E).
    rewrite drop_app_le, take_app_le by lia. rewrite length_drop.
    split_and!; [done| |done]. assert (length (active_close a) ≠ 0) by (by destruct (active_close a)). lia.
  - destruct (find_next_open specs p) as [[i s]|] eqn:E; [|done]. intros [= <- <- <-].
    rewrite (find_next_open_app _ _ b _ _ Hap E).
    destruct (find_next_open_in _ _ _ _ E) as [Hin Hi].
    destruct (str_find_drop _ _ _ Hi) as (_ & Hle & _).
    rewrite Forall_forall in Hf. destruct (Hf s Hin) as [Ho Hc].
    rewrite drop_app_le, take_app_le by lia. rewrite length_drop.
    split_and!; [done| |done]. assert (length (spec_open s) ≠ 0) by (by destruct (spec_open s)). lia.
Qed.

(** ** The loop *)

Definition hidden_run specs (p : str) act : chunk * str * option (ActiveTag T) :=
  hidden_loop (S (length p)) specs p act chunk_default.

Definition then_chunk (o : chunk) (r : chunk * str * option (ActiveTag T))
    : chunk * str * option (ActiveTag T) :=
  let '(o', p, a) := r in (chunk_append o o', p, a).

Lemma hidden_loop_out fuel specs p act out :
  hidden_loop fuel specs p act out = then_chunk out (hidden_loop fuel specs p act chunk_default).
Proof.
  revert p act out. induction fuel as [|fuel IH]; intros p act out; simpl.
  { by rewrite chunk_append_default_r. }
  destruct (hidden_step specs p act) as [[[go o] p'] act']. rewrite chunk_append_default_l.
  destruct go; [|done]. rewrite IH, (IH p' act' o).
  destruct (hidden_loop fuel specs p' act' chunk_default) as [[o' p''] a]. simpl.
  by rewrite chunk_append_assoc.
Qed.

(** The fuel is enough: more of it changes nothing. *)
Lemma hidden_loop_fuel specs p act out n :
  specs_ok specs → active_ok act → length p < n →
  hidden_loop n specs p act out = hidden_loop (S (length p)) specs p act out.
Proof.
  intros Hok. revert p act out. induction n as [n IH] using lt_wf_ind. intros p act out Ha Hn.
  destruct n as [|n]; [lia|]. simpl.
  destruct (hidden_step specs p act) as [[[go o] p'] act'] eqn:E. destruct go; [|done].
  destruct (step_continue specs p [] act o p' act' Hok Ha E) as (_ & Hl & Ha').
  rewrite (IH n) by (done || lia). symmetry.
  destruct (decide (length p = n)) as [->|]; [apply IH; done || lia|].
  apply IH; done || lia.
Qed.

Lemma hidden_run_eq specs p act :
  specs_ok specs → active_ok act →
  hidden_run specs p act =
  let '(go, o, p', act') := hidden_step specs p act in
  if (go : bool) then then_chunk o (hidden_run specs p' act') else (o, p', act').
Proof.
  intros Hok Ha. unfold hidden_run at 1. simpl.
  destruct (hidden_step specs p act) as [[[go o] p'] act'] eqn:E. rewrite chunk_append_default_l.
  destruct go; [|done]. destruct (step_continue specs p [] act o p' act' Hok Ha E) as (_ & Hl & Ha').
  rewrite hidden_loop_out. by rewrite hidden_loop_fuel.
Qed.

Lemma then_chunk_assoc (o1 o2 : chunk) r :
  then_chunk o1 (then_chunk o2 r) = then_chunk (chunk_append o1 o2) r.
Proof. destruct r as [[o p] a]. simpl. by rewrite chunk_append_assoc. Qed.

Lemma absorb_ok act x : active_ok act → active_ok (absorb act x).
Proof. by destruct act. Qed.

(** Dead text is emitted at once. *)
Lemma hidden_run_dead specs act x q :
  specs_ok specs → active_ok act → all_dead specs act x q →
  hidden_run specs (x ++ q) act = then_chunk (emit act x) (hidden_run specs q (absorb act x)).
Proof.
  intros Hok Ha Hd. rewrite !hidden_run_eq by auto using absorb_ok. rewrite step_dead by done.
  destruct (hidden_step specs q (absorb act x)) as [[[go o] p] a]. destruct go; [|done].
  by rewrite then_chunk_assoc.
Qed.

(** The run on [p ++ b] is the run on [p], then the run on what it kept and [b]. *)
Lemma hidden_run_app specs p b act :
  specs_ok specs → active_ok act →
  let '(o1, p1, a1) := hidden_run specs p act in
  hidden_run specs (p ++ b) act = then_chunk o1 (hidden_run specs (p1 ++ b) a1) ∧ active_ok a1.
Proof.
  intros Hok. revert act. remember (length p) as n eqn:En.
  revert p En. induction n as [n IH] using lt_wf_ind. intros p -> act Ha.
  rewrite (hidden_run_eq specs p) by done.
  destruct (hidden_step specs p act) as [[[go o] p'] act'] eqn:E. destruct go.
  - destruct (step_continue specs p b act o p' act' Hok Ha E) as (Eb & Hl & Ha').
    rewrite (hidden_run_eq specs (p ++ b)), Eb by done.
    specialize (IH _ Hl p' eq_refl act' Ha').
    destruct (hidden_run specs p' act') as [[o1 p1] a1]. simpl. destruct IH as [-> Ha1].
    by rewrite then_chunk_assoc.
  - destruct (step_break specs p act o p' act' Hok Ha E) as (x & -> & Hd & -> & ->).
    split; [|by apply absorb_ok]. rewrite <- app_assoc. apply hidden_run_dead; [done..|].
    intros m Hm. by apply dead_app, Hd.
Qed.

Lemma hidden_run_idle specs p act :
  specs_ok specs → active_ok act →
  let '(_, p1, a1) := hidden_run specs p act in hidden_run specs p1 a1 = (chunk_default, p1, a1).
Proof.
  intros Hok Ha. pose proof (hidden_run_app specs p [] act Hok Ha) as H.
  destruct (hidden_run specs p act) as [[o1 p1] a1] eqn:E. rewrite !app_nil_r in H.
  destruct H as [H _]. rewrite E in H. destruct (hidden_run specs p1 a1) as [[o2 p2] a2].
  simpl in H. injection H as Ho <- <-. repeat f_equal.
  destruct o1 as [v1 x1], o2 as [v2 x2]. unfold chunk_append in Ho. simpl in Ho.
  injection Ho as Hv Hx. apply (f_equal length) in Hv, Hx. rewrite length_app in Hv, Hx.
  destruct v2, x2; simpl in *; done || lia.
Qed.

(** ** The law *)

Definition hidden_wf (p : InlineHiddenTagParser T) : Prop :=
  specs_ok (hp_specs p) ∧ active_ok (hp_active p)
  ∧ hidden_run (hp_specs p) (hp_pending p) (hp_active p) = (chunk_default, hp_pending p, hp_active p).

Lemma hidden_push_run p c :
  hidden_push_str p c =
  let '(o, q, a) := hidden_run (hp_specs p) (hp_pending p ++ c) (hp_active p) in
  (o, Build_InlineHiddenTagParser (hp_specs p) q a).
Proof. done. Qed.

Lemma hidden_push_app p a b :
  specs_ok (hp_specs p) → active_ok (hp_active p) →
  hidden_push_str p (a ++ b) =
  let '(o1, p1) := hidden_push_str p a in
  let '(o2, p2) := hidden_push_str p1 b in (chunk_append o1 o2, p2).
Proof.
  intros Hok Ha. rewrite !hidden_push_run. rewrite app_assoc.
  pose proof (hidden_run_app (hp_specs p) (hp_pending p ++ a) b (hp_active p) Hok Ha) as H.
  destruct (hidden_run (hp_specs p) (hp_pending p ++ a) (hp_active p)) as [[o1 p1] a1].
  destruct H as [-> _]. rewrite hidden_push_run. simpl.
  by destruct (hidden_run (hp_specs p) (p1 ++ b) a1) as [[o2 p2] a2].
Qed.

Lemma hidden_push_wf p c : hidden_wf p → hidden_wf (hidden_push_str p c).2.
Proof.
  intros (Hok & Ha & _). rewrite hidden_push_run.
  pose proof (hidden_run_app (hp_specs p) (hp_pending p ++ c) [] (hp_active p) Hok Ha) as H.
  pose proof (hidden_run_idle (hp_specs p) (hp_pending p ++ c) (hp_active p) Hok Ha) as Hi.
  destruct (hidden_run _ (hp_pending p ++ c) _) as [[o q] a]. destruct H as [_ Ha'].
  by split_and!.
Qed.

(** ** Termination

    The loop of [push_str] as the code has it, without fuel: rounds until one
    says to stop, with the number of rounds that went on. *)
Inductive hidden_rounds (specs : list (InlineTagSpec T))
    : nat → str → option (ActiveTag T) → chunk → chunk * str * option (ActiveTag T) → Prop :=
  | rounds_stop p act out o p' act' :
      hidden_step specs p act = (false, o, p', act') →
      hidden_rounds specs 0 p act out (chunk_append out o, p', act')
  | rounds_go n p act out o p' act' r :
      hidden_step specs p act = (true, o, p', act') →
      hidden_rounds specs n p' act' (chunk_append out o) r → hidden_rounds specs (S n) p act out r.

Lemma hidden_loop_rounds specs p act out :
  specs_ok specs → active_ok act →
  ∃ n, n ≤ length p ∧ hidden_rounds specs n p act out (hidden_loop (S (length p)) specs p act out).
Proof.
  intros Hok. revert act out. remember (length p) as m eqn:Em. revert p Em.
  induction m as [m IH] using lt_wf_ind. intros p -> act out Ha. cbn [hidden_loop].
  destruct (hidden_step specs p act) as [[[go o] p'] act'] eqn:E. destruct go.
  - destruct (step_continue specs p [] act o p' act' Hok Ha E) as (_ & Hl & Ha').
    destruct (IH _ Hl p' eq_refl act' (chunk_append out o) Ha') as (n & Hn & Hr).
    rewrite <- (hidden_loop_fuel specs p' act' (chunk_append out o) (length p)) in Hr by done.
    exists (S n). split; [lia|]. by eapply rounds_go.
  - exists 0. split; [lia|]. by apply rounds_stop.
Qed.

(** The loop of [push_str] ends: whatever text is pending and whatever chunk
    arrives, after at most as many rounds as there are characters one stops, and
    what it leaves is the result; the fuel of the model never cuts it short. *)
Theorem hidden_push_terminates p c :
  hidden_wf p →
  let '(out, p') := hidden_push_str p c in
  ∃ n, n ≤ length (hp_pending p ++ c)
    ∧ hidden_rounds (hp_specs p) n (hp_pending p ++ c) (hp_active p) chunk_default
        (out, hp_pending p', hp_active p').
Proof.
  intros (Hok & Ha & _). unfold hidden_push_str.
  destruct (hidden_loop_rounds (hp_specs p) (hp_pending p ++ c) (hp_active p) chunk_default Hok Ha) as (n & Hn & Hr).
  destruct (hidden_loop _ _ _ _ _) as [[out q] a]. eauto.
Qed.

#[export] Instance hidden_lawful : LawfulStreamParser (InlineHiddenTagParser T) (ExtractedInlineTag T).
Proof.
  refine {| payload_equiv := (=); stream_wf := hidden_wf |}.
  - apply hidden_push_wf.
  - intros [specs q a] (_ & _ & Hi). change (push_str ?p ?c) with (hidden_push_str p c).
    rewrite hidden_push_run, app_nil_r. by rewrite Hi.
  - intros p a b (Hok & Ha & _). simpl. rewrite hidden_push_app by done.
    destruct (hidden_push_str p a) as [o1 p1]. simpl. by destruct (hidden_push_str p1 b).
  - intros p a b (Hok & Ha & _). simpl. rewrite hidden_push_app by done.
    destruct (hidden_push_str p a) as [o1 p1]. simpl. by destruct (hidden_push_str p1 b).
  - intros p a b (Hok & Ha & _). simpl. rewrite hidden_push_app by done.
    destruct (hidden_push_str p a) as [o1 p1]. simpl. by destruct (hidden_push_str p1 b).
Defined.

Lemma hidden_new_wf specs p : opens_apart specs → hidden_new specs = Ok p → hidden_wf p.
Proof.
  intros Hap. unfold hidden_new. destruct specs as [|s specs]; [done|].
  destruct (forallb _ _) eqn:E; [|done]. intros [= <-].
  assert (Hok : specs_ok (s :: specs)).
  { split; [|done]. apply Forall_forall. intros t Ht. rewrite forallb_forall in E.
    apply list_elem_of_In in Ht. specialize (E t Ht). by bdec. }
  split_and!; [done..|]. cbn [hp_specs hp_pending hp_active]. rewrite hidden_run_eq by done.
  destruct (hidden_step (s :: specs) [] None) as [[[go o] r] a] eqn:Es. destruct go.
  - destruct (step_continue (s :: specs) [] [] None o r a Hok I Es) as (_ & Hl & _). simpl in Hl. lia.
  - destruct (step_break (s :: specs) [] None o r a Hok I Es) as (x & Hx & _ & -> & ->).
    symmetry in Hx. by apply app_nil in Hx as [-> ->].
Qed.

(** C35. Whatever tags are configured, as long as no open delimiter occurs
    inside another before its end: splitting the stream into pieces in any way
    changes neither the visible text, nor the extracted tags, nor the parser's
    final state. *)
Theorem hidden_tags_chunk_invariant specs p chunks :
  opens_apart specs → hidden_new specs = Ok p →
  feed p chunks = push_str p (concat chunks).
Proof.
  intros Hap Hn. destruct (feed_concat (LP := hidden_lawful) p chunks (hidden_new_wf _ _ Hap Hn)) as [H1 [H2 H3]].
  destruct (feed p chunks) as [[v e] s], (push_str p (concat chunks)) as [[v' e'] s'].
  simpl in *. by subst.
Qed.

End Facts.

(** Without the condition the pieces matter: with delimiters [<a] and [<ab],
    the text [<ab] opens the second tag when it arrives at once, and the first
    one when it is cut before [b]. *)
Definition overlapping_specs : list (InlineTagSpec nat) :=
  [Build_InlineTagSpec 1 (lit "<a") (lit ">"); Build_InlineTagSpec 2 (lit "<ab") (lit ">")].
Example overlapping_specs_chunk_dependent :
  let p := Build_InlineHiddenTagParser overlapping_specs [] None in
  active_name <$> hp_active (feed p [lit "<ab"]).2 = Some 2
  ∧ active_name <$> hp_active (feed p [lit "<a"; lit "b"]).2 = Some 1.
Proof. split; vm_compute; reflexivity. Qed.

(** Two tags whose delimiters are apart, fed in pieces that cut them. *)
Definition apart_specs : list (InlineTagSpec nat) :=
  [Build_InlineTagSpec 1 (lit "<x>") (lit "</x>"); Build_InlineTagSpec 2 (lit "<y>") (lit "</y>")].

Lemma opens_apart_check {T} (specs : list (InlineTagSpec T)) :
  (∀ s1 s2, s1 ∈ specs → s2 ∈ specs → spec_open s1 = spec_open s2
     ∨ str_find (spec_open s1) (spec_open s2) = None) →
  opens_apart specs.
Proof.
  intros Hc s1 s2 a b H1 H2 Hs. destruct (Hc s1 s2 H1 H2) as [He|Hn].
  - apply (f_equal length) in Hs. rewrite !length_app, <- He in Hs. destruct b; [done|]. simpl in Hs. lia.
  - exfalso. rewrite str_find_None in Hn. specialize (Hn (length a)).
    rewrite Hs, drop_app_length in Hn. rewrite length_app in Hn.
    specialize (Hn ltac:(lia)). apply not_true_iff_false in Hn. apply Hn, starts_with_true. eauto.
Qed.

Lemma hidden_tags_chunk_invariant_witness :
  ∃ p, hidden_new apart_specs = Ok p
    ∧ feed p [lit "a<"; lit "x>b</"; lit "x><y>"] = push_str p (lit "a<x>b</x><y>").
Proof.
  eexists. split; [reflexivity|].
  apply (hidden_tags_chunk_invariant apart_specs _ [lit "a<"; lit "x>b</"; lit "x><y>"]); [|reflexivity].
  apply opens_apart_check. intros s1 s2 [->|[->|[]%not_elem_of_nil]%elem_of_cons]%elem_of_cons
    [->|[->|[]%not_elem_of_nil]%elem_of_cons]%elem_of_cons; vm_compute; auto.
Defined.

(** ** Citations *)

Lemma citation_specs_ok : specs_ok [citation_spec].
Proof.
  split; [by repeat constructor|]. apply opens_apart_check.
  intros s1 s2 ->%list_elem_of_singleton ->%list_elem_of_singleton. by left.
Qed.

Definition citation_wf (p : CitationStreamParser) : Prop := hidden_wf (citation_inner p).

#[export] Instance citation_lawful : LawfulStreamParser CitationStreamParser str.
Proof.
  refine {| payload_equiv := (=); stream_wf := citation_wf |}.
  - intros [p] a Hp. unfold citation_wf in *. simpl in *.
    pose proof (hidden_push_wf p a Hp) as H. by destruct (hidden_push_str p a).
  - intros [p] Hp. pose proof (push_empty (LawfulStreamParser:=hidden_lawful) p Hp) as H.
    change (hidden_push_str p [] = (chunk_default, p)) in H. simpl. by rewrite H.
  - intros [p] a b (Hok & Ha & _). simpl. rewrite hidden_push_app by done.
    destruct (hidden_push_str p a) as [o1 p1]. simpl. by destruct (hidden_push_str p1 b).
  - intros [p] a b (Hok & Ha & _). simpl. rewrite hidden_push_app by done.
    destruct (hidden_push_str p a) as [o1 p1]. simpl. by destruct (hidden_push_str p1 b).
  - intros [p] a b (Hok & Ha & _). simpl. rewrite hidden_push_app by done.
    destruct (hidden_push_str p a) as [o1 p1]. simpl. destruct (hidden_push_str p1 b). simpl.
    by rewrite map_app.
Defined.

Lemma citation_new_wf : citation_wf citation_new.
Proof. apply (hidden_new_wf [citation_spec]); [apply citation_specs_ok|reflexivity]. Qed.

(** The meaning of a text with citations, read from the left: the first open
    tag, then the first close tag after it, and so on; an unclosed citation
    runs to the end. [fuel] bounds the number of citations. *)
Fixpoint citations_of (fuel : nat) (text : str) : str * list str :=
  match fuel with
  | 0 => (text, [])
  | S fuel =>
      match str_find CITATION_OPEN text with
      | None => (text, [])
      | Some i =>
          let rest := drop (i + length CITATION_OPEN) text in
          match str_find CITATION_CLOSE rest with
          | None => (take i text, [rest])
          | Some j =>
              let '(v, cs) := citations_of fuel (drop (j + length CITATION_CLOSE) rest) in
              (take i text ++ v, take j rest :: cs)
          end
      end
  end.

(** A run on [p], then the final flush. *)
Definition run_and_finish (p : str) (act : option (ActiveTag unit)) : StreamTextChunk str :=
  let '(o, q, a) := hidden_run [citation_spec] p act in
  citation_chunk (chunk_append o (hidden_finish (Build_InlineHiddenTagParser [citation_spec] q a)).1).

Lemma citation_chunk_append a b :
  citation_chunk (chunk_append a b) = chunk_append (citation_chunk a) (citation_chunk b).
Proof. unfold citation_chunk, chunk_append. simpl. by rewrite map_app. Qed.

Lemma run_and_finish_eq p act :
  active_ok act →
  run_and_finish p act =
  let '(go, o, p', act') := hidden_step [citation_spec] p act in
  chunk_append (citation_chunk o)
    (if (go : bool) then run_and_finish p' act'
     else citation_chunk (hidden_finish (Build_InlineHiddenTagParser [citation_spec] p' act')).1).
Proof.
  intros Ha. unfold run_and_finish. rewrite hidden_run_eq by (done || apply citation_specs_ok).
  destruct (hidden_step _ p act) as [[[go o] p'] act']. destruct go.
  - destruct (hidden_run _ p' act') as [[o1 p1] a1]. simpl. by rewrite <- citation_chunk_append, chunk_append_assoc.
  - by rewrite citation_chunk_append.
Qed.

Lemma run_and_finish_citations fuel p :
  length p < fuel →
  run_and_finish p None = let '(v, cs) := citations_of fuel p in Build_StreamTextChunk v cs.
Proof.
  revert p. induction fuel as [|fuel IH]; intros p Hl; [lia|].
  rewrite run_and_finish_eq by done. cbn [citations_of]. unfold hidden_step at 1.
  cbn [find_next_open citation_spec spec_open].
  destruct (str_find CITATION_OPEN p) as [i|] eqn:Ei.
  - rewrite run_and_finish_eq by done. unfold hidden_step at 1. cbv zeta.
    cbn [active_close].
    change (spec_close citation_spec) with CITATION_CLOSE.
    change (spec_open citation_spec) with CITATION_OPEN.
    destruct (str_find_drop _ _ _ Ei) as (_ & Hi & _).
    set (rest := drop _ p).
    destruct (str_find CITATION_CLOSE rest) as [j|] eqn:Ej.
    + rewrite IH; [|unfold rest; rewrite !length_drop; change (length CITATION_OPEN) with 18 in *; lia].
      destruct (citations_of fuel _) as [v cs]. done.
    + unfold chunk_append, citation_chunk. simpl. rewrite app_nil_r. by rewrite take_drop.
  - cbv zeta. unfold chunk_append, citation_chunk. simpl. by rewrite take_drop.
Qed.

Lemma citation_run_correct chunks :
  let text := concat chunks in
  let '(v, cs) := citations_of (S (length text)) text in
  run_stream citation_new chunks = Build_StreamTextChunk v cs
  ∧ strip_citations text = (v, cs).
Proof.
  intros text. pose proof (run_and_finish_citations (S (length text)) text ltac:(lia)) as H.
  destruct (citations_of (S (length text)) text) as [v cs].
  assert (Hs : chunk_append (push_str citation_new text).1
                 (finish_stream (push_str citation_new text).2).1 = Build_StreamTextChunk v cs).
  { rewrite <- H. unfold run_and_finish, citation_new, push_str, citation_stream_parser, push_str,
      hidden_stream_parser. cbn [citation_inner]. rewrite hidden_push_run. cbn [hp_specs hp_pending hp_active app].
    destruct (hidden_run [citation_spec] text None) as [[o q] a]. simpl.
    rewrite citation_chunk_append. by destruct (hidden_finish _). }
  split.
  - destruct (run_stream_concat (LP:=citation_lawful) citation_new chunks citation_new_wf) as [H1 H2].
    rewrite run_stream_single in H1, H2. change (concat chunks) with text in H1, H2.
    rewrite Hs in H1, H2. simpl in *.
    destruct (run_stream citation_new chunks). simpl in *. by subst.
  - unfold strip_citations. destruct (push_str citation_new text) as [o p]. cbn [fst snd] in Hs.
    destruct (finish_stream p) as [t q]. cbn [fst] in Hs. by rewrite Hs.
Qed.

(** Streaming citations is reading them from the whole text: for every way
    of cutting a text into chunks, the visible text and the citations that a
    stream of the chunks yields, the final flush included, are those of the
    left-to-right reading of the text, and [strip_citations] computes them. *)
Theorem citations_stream_correct chunks :
  let text := concat chunks in
  let '(v, cs) := citations_of (S (length text)) text in
  run_stream citation_new chunks = Build_StreamTextChunk v cs
  ∧ strip_citations text = (v, cs).
Proof. apply citation_run_correct. Qed.

Lemma hidden_push_terminates_witness :
  hidden_wf (citation_inner citation_new)
  ∧ let '(out, p') := hidden_push_str (citation_inner citation_new) (lit "a<oai-mem-citation>b") in
    ∃ n, n ≤ 20 ∧ hidden_rounds [citation_spec] n (lit "a<oai-mem-citation>b") None chunk_default
                    (out, hp_pending p', hp_active p').
Proof.
  split; [exact citation_new_wf|].
  exact (hidden_push_terminates (citation_inner citation_new) (lit "a<oai-mem-citation>b") citation_new_wf).
Defined.
