(* ===== verification/Utf8Stream.v ===== *)
(** * Decoding a byte stream into text

    Models [utils/stream-parser/src/utf8_stream.rs]: the wrapper that feeds a
    [StreamTextParser] from raw bytes and holds back an unfinished code point. *)

From S2P Require Import Prelude RustStr Utf8 StreamText.
From S2P Require Import HiddenTag.
Open Scope list_scope.

(** ** The parser *)

Inductive Utf8StreamParserError :=
  | InvalidUtf8 (valid_up_to error_len : nat)
  | IncompleteUtf8AtEof.

Record Utf8StreamParser (S : Type) := { utf8_inner : S; pending_utf8 : bytes }.
Arguments utf8_inner {S} u.
Arguments pending_utf8 {S} u.
Arguments Build_Utf8StreamParser {S} _ _.

Section Utf8.
Context {S T : Type} `{SP : !StreamTextParser S T}.

Definition utf8_new (inner : S) : Utf8StreamParser S := Build_Utf8StreamParser inner [].

Definition push_bytes (p : Utf8StreamParser S) (chunk : bytes)
    : res Utf8StreamParserError (StreamTextChunk T) * Utf8StreamParser S :=
  let pending := pending_utf8 p ++ chunk in
  match from_utf8 pending with
  | Ok text =>
      let '(out, inner) := push_str (utf8_inner p) text in
      (Ok out, Build_Utf8StreamParser inner [])
  | Err err =>
      match error_len err with
      | Some l => (Err (InvalidUtf8 (valid_up_to err) l), p)
      | None =>
          if bool_decide (valid_up_to err = 0)
          then (Ok chunk_default, Build_Utf8StreamParser (utf8_inner p) pending)
          else
            match from_utf8 (take (valid_up_to err) pending) with
            | Ok text =>
                let '(out, inner) := push_str (utf8_inner p) text in
                (Ok out, Build_Utf8StreamParser inner (drop (valid_up_to err) pending))
            | Err prefix_err =>
                (Err (InvalidUtf8 (valid_up_to prefix_err) (default 0 (error_len prefix_err))), p)
            | Panic => (Panic, p)
            end
      end
  | Panic => (Panic, p)
  end.

(** The first check of [finish], shared with [into_inner]. *)
Definition check_pending (pending : bytes) : res Utf8StreamParserError unit :=
  match pending with
  | [] => Ok tt
  | _ =>
      match from_utf8 pending with
      | Ok _ => Ok tt
      | Err err =>
          match error_len err with
          | Some l => Err (InvalidUtf8 (valid_up_to err) l)
          | None => Err IncompleteUtf8AtEof
          end
      | Panic => Panic
      end
  end.

Definition utf8_finish (p : Utf8StreamParser S)
    : res Utf8StreamParserError (StreamTextChunk T) * Utf8StreamParser S :=
  match check_pending (pending_utf8 p) with
  | Err e => (Err e, p)
  | Panic => (Panic, p)
  | Ok _ =>
      let flush (out : StreamTextChunk T) (inner : S) (pending : bytes) :=
        let '(tail, inner) := finish_stream inner in
        (Ok (chunk_append out tail), Build_Utf8StreamParser inner pending) in
      match pending_utf8 p with
      | [] => flush chunk_default (utf8_inner p) []
      | pending =>
          match from_utf8 pending with
          | Ok text => let '(out, inner) := push_str (utf8_inner p) text in flush out inner []
          | Err err => (Err (InvalidUtf8 (valid_up_to err) (default 0 (error_len err))), p)
          | Panic => (Panic, p)
          end
      end
  end.

Definition into_inner (p : Utf8StreamParser S) : res Utf8StreamParserError S :=
  let? _ := check_pending (pending_utf8 p) in Ok (utf8_inner p).

Definition into_inner_lossy (p : Utf8StreamParser S) : S := utf8_inner p.

End Utf8.

(** * Decoding a byte stream: what the wrapper promises

    Cutting a byte stream anywhere, inside code points too, changes nothing; an
    invalid chunk is rolled back whole; only the beginning of one code point is
    ever held back. All of it for any inner parser that keeps the law of
    [StreamText]. *)

(** ** The parser *)

Section Stream.
Context {S T : Type} `{SP : !StreamTextParser S T} `{LP : !LawfulStreamParser S T}.
Implicit Types (p : Utf8StreamParser S).

(** [push_bytes] in terms of the scan; the error branch for the valid prefix
    cannot be reached. *)
Lemma push_bytes_scan p c :
  push_bytes p c =
  let x := pending_utf8 p ++ c in
  let '(t, k, st) := scan x in
  match st with
  | Some (Some l) => (Err (InvalidUtf8 k l), p)
  | Some None =>
      if bool_decide (k = 0) then (Ok chunk_default, Build_Utf8StreamParser (utf8_inner p) x)
      else let '(out, inner) := push_str (utf8_inner p) t in
           (Ok out, Build_Utf8StreamParser inner (drop k x))
  | None => let '(out, inner) := push_str (utf8_inner p) t in (Ok out, Build_Utf8StreamParser inner [])
  end.
Proof.
  unfold push_bytes, from_utf8. cbv zeta. set (x := pending_utf8 p ++ c). fold (scan x).
  pose proof (scan_take x) as Ht. destruct (scan x) as [[t k] [[l|]|]]; try done.
  cbn [error_len valid_up_to]. destruct (bool_decide (k = 0)); [done|].
  fold (scan (take k x)). by rewrite Ht.
Qed.

(** The output of two pushes against the output of one. *)
Definition agrees (r : res Utf8StreamParserError (StreamTextChunk T)) (o : StreamTextChunk T) : Prop :=
  match r with Ok o' => chunk_equiv o' o | _ => False end.

Lemma push_twice s t1 t2 :
  stream_wf s →
  let '(o1, s1) := push_str s t1 in
  let '(o2, s2) := push_str s1 t2 in
  let '(o, s') := push_str s (t1 ++ t2) in
  chunk_equiv o (chunk_append o1 o2) ∧ s' = s2 ∧ stream_wf s1.
Proof.
  intros Hs. pose proof (push_concat s t1 t2 Hs) as H1. pose proof (push_concat_state s t1 t2 Hs) as H2.
  pose proof (push_wf s t1 Hs) as H3.
  destruct (push_str s t1) as [o1 s1]. simpl in *. destruct (push_str s1 t2) as [o2 s2].
  destruct (push_str s (t1 ++ t2)) as [o s']. done.
Qed.

(** What one push does to the inner parser and to the pending bytes, without
    the case of an empty valid prefix: pushing no text does nothing. *)
Lemma push_bytes_ok p c o p' :
  stream_wf (utf8_inner p) → push_bytes p c = (Ok o, p') →
  let '(t, k, st) := scan (pending_utf8 p ++ c) in
  push_str (utf8_inner p) t = (o, utf8_inner p')
  ∧ pending_utf8 p' = drop k (pending_utf8 p ++ c)
  ∧ (st = None ∨ st = Some None).
Proof.
  intros Hw. rewrite push_bytes_scan. cbv zeta. pose proof (scan_app (pending_utf8 p ++ c) []) as Ha.
  destruct (scan (pending_utf8 p ++ c)) as [[t k] [[l|]|]] eqn:E; [done| |].
  - destruct (bool_decide (k = 0)) eqn:Ek; bdec.
    + intros [= <- <-]. subst k. simpl. rewrite drop_0.
      assert (t = []) as ->; [|by rewrite push_empty; auto].
      pose proof (decode_char_app (pending_utf8 p ++ c) []) as Hd.
      rewrite scan_eq in E. destruct (decode_char _) as [|ch n| |] eqn:Ed; simplify_eq/=; [|done].
      destruct (scan (drop n _)) as [[? ?] ?]. injection E. lia.
    + destruct (push_str _ t) as [o' i]. intros [= <- <-]. auto.
  - destruct Ha as (_ & -> & _). destruct (push_str _ t) as [o' i]. intros [= <- <-].
    simpl. rewrite drop_all. auto.
Qed.

Lemma push_bytes_intro p c t k st :
  stream_wf (utf8_inner p) → scan (pending_utf8 p ++ c) = (t, k, st) → st = None ∨ st = Some None →
  push_bytes p c = (Ok (push_str (utf8_inner p) t).1,
                    Build_Utf8StreamParser (push_str (utf8_inner p) t).2 (drop k (pending_utf8 p ++ c))).
Proof.
  intros Hw E Hst. destruct (push_bytes p c) as [[o|e|] p'] eqn:Ep.
  - pose proof (push_bytes_ok p c o p' Hw Ep) as H. rewrite E in H. destruct H as (-> & Hp & _).
    simpl. destruct p'. simpl in *. by rewrite Hp.
  - rewrite push_bytes_scan in Ep. cbv zeta in Ep. rewrite E in Ep. destruct Hst as [-> | ->]; [|destruct (bool_decide _)]; try done;
      by destruct (push_str _ t).
  - rewrite push_bytes_scan in Ep. cbv zeta in Ep. rewrite E in Ep. destruct Hst as [-> | ->]; [|destruct (bool_decide _)]; try done;
      by destruct (push_str _ t).
Qed.

Lemma push_bytes_err p c t k l :
  scan (pending_utf8 p ++ c) = (t, k, Some (Some l)) → push_bytes p c = (Err (InvalidUtf8 k l), p).
Proof. intros E. rewrite push_bytes_scan. cbv zeta. by rewrite E. Qed.

Lemma error_status (st : option (option nat)) :
  (∃ l, st = Some (Some l)) ∨ st = None ∨ st = Some None.
Proof. destruct st as [[l|]|]; eauto. Qed.

Lemma push_bytes_cut p a b :
  stream_wf (utf8_inner p) →
  match push_bytes p a with
  | (Ok o1, p1) =>
      match push_bytes p1 b with
      | (Ok o2, p2) => ∃ o, push_bytes p (a ++ b) = (Ok o, p2) ∧ chunk_equiv o (chunk_append o1 o2)
      | (Err _, p2) => p2 = p1 ∧ ∃ e, push_bytes p (a ++ b) = (Err e, p)
      | (Panic, _) => False
      end
  | (Err e, p1) => p1 = p ∧ push_bytes p (a ++ b) = (Err e, p)
  | (Panic, _) => False
  end.
Proof.
  intros Hw. pose proof (scan_app (pending_utf8 p ++ a) b) as Hs. rewrite <- app_assoc in Hs.
  destruct (scan (pending_utf8 p ++ a)) as [[t1 k1] st1] eqn:E1. destruct Hs as [Hk1 Hs].
  destruct (error_status st1) as [[l ->]|Hst1].
  { rewrite (push_bytes_err p a _ _ _ E1). by rewrite (push_bytes_err p (a ++ b) _ _ _ Hs). }
  rewrite (push_bytes_intro p a _ _ _ Hw E1 Hst1).
  assert (Hs2 : scan (pending_utf8 p ++ a ++ b)
                = prepend t1 k1 (scan (drop k1 (pending_utf8 p ++ a) ++ b))).
  { destruct st1 as [[l|]|]; [naive_solver|apply Hs|]. destruct Hs as [-> ->].
    by rewrite drop_all. }
  set (p1 := Build_Utf8StreamParser _ _).
  assert (Hp1 : pending_utf8 p1 ++ b = drop k1 (pending_utf8 p ++ a) ++ b) by done.
  rewrite <- Hp1 in Hs2.
  assert (Hw1 : stream_wf (utf8_inner p1)) by (by apply push_wf).
  destruct (scan (pending_utf8 p1 ++ b)) as [[t2 k2] st2] eqn:E2. simpl in Hs2.
  destruct (error_status st2) as [[l ->]|Hst2].
  { rewrite (push_bytes_err p1 b _ _ _ E2), (push_bytes_err p (a ++ b) _ _ _ Hs2). eauto. }
  rewrite (push_bytes_intro p1 b _ _ _ Hw1 E2 Hst2).
  rewrite (push_bytes_intro p (a ++ b) _ _ _ Hw Hs2 Hst2).
  pose proof (push_concat_state (utf8_inner p) t1 t2 Hw) as Hst.
  pose proof (push_concat (utf8_inner p) t1 t2 Hw) as Hout.
  eexists. split; [|exact Hout]. f_equal. rewrite Hst. f_equal.
  rewrite Hp1, app_assoc, <- drop_drop. f_equal. by rewrite drop_app_le.
Qed.

(** Cutting the bytes in two, anywhere: if both pieces are accepted then so
    is their concatenation, with the same final state and the same output; if a
    piece is rejected then so is the concatenation, and every rejection leaves
    the parser as it was before the rejected push. *)
Theorem push_bytes_app p a b :
  stream_wf (utf8_inner p) →
  match push_bytes p a with
  | (Ok o1, p1) =>
      match push_bytes p1 b with
      | (Ok o2, p2) => ∃ o, push_bytes p (a ++ b) = (Ok o, p2) ∧ chunk_equiv o (chunk_append o1 o2)
      | (Err _, p2) => p2 = p1 ∧ ∃ e, push_bytes p (a ++ b) = (Err e, p)
      | (Panic, _) => False
      end
  | (Err e, p1) => p1 = p ∧ push_bytes p (a ++ b) = (Err e, p)
  | (Panic, _) => False
  end.
Proof. apply push_bytes_cut. Qed.

(** Feeding pieces until one is rejected. *)
Fixpoint feed_bytes p (pieces : list bytes)
    : res Utf8StreamParserError (StreamTextChunk T) * Utf8StreamParser S :=
  match pieces with
  | [] => (Ok chunk_default, p)
  | c :: pieces =>
      match push_bytes p c with
      | (Ok o1, p1) =>
          match feed_bytes p1 pieces with
          | (Ok o2, p2) => (Ok (chunk_append o1 o2), p2)
          | r => r
          end
      | r => r
      end
  end.

Lemma push_bytes_ok_wf p c o p' :
  stream_wf (utf8_inner p) → push_bytes p c = (Ok o, p') → stream_wf (utf8_inner p').
Proof.
  intros Hw Hp. pose proof (push_bytes_ok p c o p' Hw Hp) as H.
  destruct (scan _) as [[t k] st]. destruct H as (Hi & _).
  pose proof (push_wf (utf8_inner p) t Hw) as H. by rewrite Hi in H.
Qed.

Lemma feed_bytes_concat p pieces o p' :
  stream_wf (utf8_inner p) → decode_char (pending_utf8 p) = DEnd ∨ decode_char (pending_utf8 p) = DIncomplete →
  push_bytes p (concat pieces) = (Ok o, p') →
  ∃ o', feed_bytes p pieces = (Ok o', p') ∧ chunk_equiv o' o.
Proof.
  revert p o. induction pieces as [|c pieces IH]; intros p o Hw Hd Hp; simpl in *.
  - exists chunk_default. pose proof (push_bytes_ok p [] o p' Hw Hp) as H.
    rewrite app_nil_r, scan_eq in H.
    assert (Hs : match decode_char (pending_utf8 p) with
                 | DEnd => ([], 0, None) | DChar c n => prepend [c] n (scan (drop n (pending_utf8 p)))
                 | DIncomplete => ([], 0, Some None) | DInvalid l => ([], 0, Some (Some l)) end.1 = ([], 0))
      by (by destruct Hd as [-> | ->]).
    destruct (match decode_char (pending_utf8 p) with DEnd => _ | _ => _ end) as [[t k] st].
    simpl in Hs. injection Hs as -> ->. rewrite push_empty in H by done.
    destruct H as ([= <- Hi] & Hpe & _). rewrite drop_0 in Hpe.
    destruct p, p'. simpl in *. by subst.
  - pose proof (push_bytes_cut p c (concat pieces) Hw) as H.
    destruct (push_bytes p c) as [[o1|e|] p1] eqn:E1; [|destruct H as [_ H]; congruence|done].
    pose proof (push_bytes_ok_wf p c o1 p1 Hw E1) as Hw1.
    destruct (push_bytes p1 (concat pieces)) as [[o2|e|] p2] eqn:E2;
      [|destruct H as (_ & e' & H); congruence|done].
    destruct H as (o12 & H & Ho). rewrite Hp in H. injection H as <- <-.
    destruct (IH p1 o2 Hw1) as (o' & -> & Ho'); [|done|].
    + pose proof (push_bytes_ok p c o1 p1 Hw E1) as Hk. pose proof (scan_app (pending_utf8 p ++ c) []) as Hs.
      destruct (scan (pending_utf8 p ++ c)) as [[t k] st]. destruct Hk as (_ & -> & [-> | ->]).
      * left. destruct Hs as (_ & -> & _). by rewrite drop_all.
      * right. apply Hs.
    + eexists. split; [done|]. by rewrite Ho, Ho'.
Qed.

(** Text sent as UTF-8 arrives as text: for every text of Unicode scalar
    values and every way of cutting its encoding into pieces, inside code
    points too, no piece is rejected, nothing is held back at the end, and the
    inner parser ends in the state, and yields the output, of the text pushed
    at once. *)
Theorem utf8_stream_decodes (s : S) t pieces :
  stream_wf s → Forall is_scalar t → concat pieces = encode t →
  ∃ o, feed_bytes (utf8_new s) pieces = (Ok o, utf8_new (push_str s t).2)
    ∧ chunk_equiv o (push_str s t).1.
Proof.
  intros Hw Ht Hc. apply feed_bytes_concat; [done|by left|]. rewrite Hc.
  pose proof (scan_encode t [] Ht) as Hs. rewrite app_nil_r in Hs.
  rewrite (push_bytes_intro (utf8_new s) (encode t) t (length (encode t)) None);
    [|done| |by left].
  - unfold utf8_new. simpl. by rewrite drop_all.
  - simpl. rewrite Hs. simpl. by rewrite app_nil_r, Nat.add_0_r.
Qed.

(** The states a client can reach. *)
Inductive utf8_step : Utf8StreamParser S → Utf8StreamParser S → Prop :=
  | utf8_step_push p c : utf8_step p (push_bytes p c).2
  | utf8_step_finish p : utf8_step p (utf8_finish p).2.

Definition pending_ok (pending : bytes) : Prop :=
  pending = [] ∨ decode_char pending = DIncomplete.

Lemma pending_ok_check pending :
  pending_ok pending →
  from_utf8 pending = match pending with [] => Ok [] | _ => Err {| valid_up_to := 0; error_len := None |} end.
Proof.
  intros [->|Hd]; [done|]. unfold from_utf8. fold (scan pending). rewrite scan_eq, Hd.
  by destruct pending.
Qed.

Lemma utf8_step_pending p p' : utf8_step p p' → pending_ok (pending_utf8 p) → pending_ok (pending_utf8 p').
Proof.
  intros [q c|q] Hok.
  - rewrite push_bytes_scan. cbv zeta. pose proof (scan_app (pending_utf8 q ++ c) []) as Hs.
    destruct (scan _) as [[t k] [[l|]|]]; [done| |].
    + destruct (bool_decide (k = 0)) eqn:Ek; bdec.
      * subst k. right. simpl. destruct Hs as (_ & _ & Hs). by rewrite drop_0 in Hs.
      * destruct (push_str _ t). right. apply Hs.
    + destruct (push_str _ t). by left.
  - unfold utf8_finish, check_pending. rewrite (pending_ok_check _ Hok).
    destruct (pending_utf8 q) as [|b bs] eqn:E; simpl; [|by rewrite E].
    destruct (finish_stream _). by left.
Qed.

(** Only the beginning of a code point is ever held back: in every state a
    client can reach by pushes and finishes, rejected ones included, at most
    three bytes are pending, and [finish] and [into_inner] fail, if they do,
    with the incomplete-code-point error and never with invalid UTF-8. *)
Theorem utf8_pending_bounded (s : S) p :
  rtc utf8_step (utf8_new s) p →
  length (pending_utf8 p) ≤ 3
  ∧ (∀ e p', utf8_finish p = (Err e, p') → e = IncompleteUtf8AtEof ∧ p' = p ∧ pending_utf8 p ≠ [])
  ∧ (∀ e, into_inner p = Err e → e = IncompleteUtf8AtEof)
  ∧ (pending_utf8 p = [] → is_ok (utf8_finish p).1 = true).
Proof.
  intros Hr. assert (Hok : pending_ok (pending_utf8 p)).
  { assert (H : pending_ok (pending_utf8 (utf8_new s))) by (by left). revert H.
    induction Hr as [|x y z Hxy _ IH]; [done|]. intros H. by apply IH, (utf8_step_pending x). }
  split_and!.
  - destruct Hok as [->|H]; [simpl; lia|by apply decode_incomplete_short].
  - unfold utf8_finish, check_pending. rewrite (pending_ok_check _ Hok).
    destruct (pending_utf8 p) as [|b bs]; simpl; [by destruct (finish_stream _)|].
    by intros e p' [= <- <-].
  - unfold into_inner, check_pending. rewrite (pending_ok_check _ Hok).
    destruct (pending_utf8 p); simpl; [done|]. by intros e [= <-].
  - intros He. unfold utf8_finish, check_pending. rewrite He. simpl. by destruct (finish_stream _).
Qed.

End Stream.

(** ** The citation parser behind the wrapper *)

Definition euro_text : str := [8364%N] ++ lit "<oai-mem-citation>" ++ [233%N].

Lemma push_bytes_app_witness :
  ∃ o1 p1 o2 p2 o, push_bytes (utf8_new citation_new) [226; 130]%N = (Ok o1, p1)
    ∧ push_bytes p1 [172]%N = (Ok o2, p2)
    ∧ push_bytes (utf8_new citation_new) [226; 130; 172]%N = (Ok o, p2)
    ∧ chunk_equiv o (chunk_append o1 o2).
Proof.
  pose proof (push_bytes_app (LP:=citation_lawful) (utf8_new citation_new) [226; 130]%N [172]%N
                citation_new_wf) as H.
  destruct (push_bytes (utf8_new citation_new) [226; 130]%N) as [[o1|e|] p1] eqn:E1;
    [|vm_compute in E1; discriminate..].
  destruct (push_bytes p1 [172]%N) as [[o2|e|] p2] eqn:E2;
    [|vm_compute in E1; injection E1 as <- <-; vm_compute in E2; discriminate..].
  destruct H as (o & Ho & Heq). exists o1, p1, o2, p2, o. exact (conj eq_refl (conj E2 (conj Ho Heq))).
Defined.

Lemma utf8_stream_decodes_witness :
  ∃ o, feed_bytes (utf8_new citation_new) (map (λ b, [b]) (encode euro_text))
       = (Ok o, utf8_new (push_str citation_new euro_text).2)
    ∧ visible_text o = [8364%N].
Proof.
  destruct (utf8_stream_decodes (LP:=citation_lawful) citation_new euro_text
              (map (λ b, [b]) (encode euro_text)) citation_new_wf) as (o & Ho & [Hv _]).
  - repeat constructor; unfold is_scalar; lia.
  - reflexivity.
  - exists o. split; [exact Ho|]. rewrite Hv. reflexivity.
Defined.

Lemma utf8_pending_bounded_witness :
  ∃ p, p = (push_bytes (utf8_new citation_new) [240; 159; 146]%N).2
    ∧ length (pending_utf8 p) = 3 ∧ length (pending_utf8 p) ≤ 3.
Proof.
  eexists. split; [reflexivity|]. split; [reflexivity|].
  apply (utf8_pending_bounded citation_new (push_bytes (utf8_new citation_new) [240; 159; 146]%N).2).
  eapply rtc_l; [apply utf8_step_push|apply rtc_refl].
Defined.
