(* ===== verification/TaggedLine.v ===== *)
(** * Tags that stand alone on a line, proposed plans, assistant text

    Models [utils/stream-parser/src/tagged_line_parser.rs], [proposed_plan.rs]
    and [assistant_text.rs]. *)

From S2P Require Import Prelude RustStr StreamText HiddenTag.
From S2P Require Import HiddenTag.
Open Scope list_scope.

(** ** [tagged_line_parser.rs] *)

Record TagSpec (T : Type) := { line_open : str; line_close : str; line_tag : T }.
Arguments line_open {T} t.
Arguments line_close {T} t.
Arguments line_tag {T} t.
Arguments Build_TagSpec {T} _ _ _.

Inductive TaggedLineSegment (T : Type) :=
  | Normal (text : str)
  | TagStart (tag : T)
  | TagDelta (tag : T) (text : str)
  | TagEnd (tag : T).
Arguments Normal {T} text.
Arguments TagStart {T} tag.
Arguments TagDelta {T} tag text.
Arguments TagEnd {T} tag.

Record TaggedLineParser (T : Type) := {
  line_specs : list (TagSpec T);
  active_tag : option T;
  detect_tag : bool;
  line_buffer : str;
}.
Arguments line_specs {T} t.
Arguments active_tag {T} t.
Arguments detect_tag {T} t.
Arguments line_buffer {T} t.
Arguments Build_TaggedLineParser {T} _ _ _ _.

Section TaggedLine.
Context {T : Type} `{!EqDecision T}.
Abbreviation segments := (list (TaggedLineSegment T)).

Definition tagged_new (specs : list (TagSpec T)) : TaggedLineParser T :=
  Build_TaggedLineParser specs None true [].

Definition is_tag_prefix (specs : list (TagSpec T)) (slug : str) : bool :=
  let slug := trim_end slug in
  existsb (λ spec, starts_with slug (line_open spec) || starts_with slug (line_close spec)) specs.

Definition match_open (specs : list (TagSpec T)) (slug : str) : option T :=
  line_tag <$> find (λ spec, bool_decide (line_open spec = slug)) specs.
Definition match_close (specs : list (TagSpec T)) (slug : str) : option T :=
  line_tag <$> find (λ spec, bool_decide (line_close spec = slug)) specs.

(** [push_segment]: text is merged with text of the same kind before it. *)
Definition push_segment (segs : segments) (seg : TaggedLineSegment T) : segments :=
  match seg with
  | Normal delta =>
      match delta with
      | [] => segs
      | _ => match last segs with
             | Some (Normal existing) => update_last (λ _, Normal (existing ++ delta)) segs
             | _ => segs ++ [Normal delta]
             end
      end
  | TagDelta tag delta =>
      match delta with
      | [] => segs
      | _ => match last segs with
             | Some (TagDelta existing_tag existing) =>
                 if decide (existing_tag = tag)
                 then update_last (λ _, TagDelta tag (existing ++ delta)) segs
                 else segs ++ [TagDelta tag delta]
             | _ => segs ++ [TagDelta tag delta]
             end
      end
  | TagStart tag => segs ++ [TagStart tag]
  | TagEnd tag => segs ++ [TagEnd tag]
  end.

Definition push_text (active : option T) (text : str) (segs : segments) : segments :=
  match active with
  | Some tag => push_segment segs (TagDelta tag text)
  | None => push_segment segs (Normal text)
  end.

Definition strip_lf (line : str) : str := default line (strip_suffix [c_lf] line).

(** The classification that [finish_line] and [finish] share: the segments
    and the active tag after a buffered line. *)
Definition classify_line (specs : list (TagSpec T)) (active : option T) (line : str) (segs : segments)
    : segments * option T :=
  let slug := trim_end (trim_start (strip_lf line)) in
  match match_open specs slug, active with
  | Some tag, None => (push_segment segs (TagStart tag), Some tag)
  | _, _ =>
      match match_close specs slug with
      | Some tag =>
          if decide (active = Some tag) then (push_segment segs (TagEnd tag), None)
          else (push_text active line segs, active)
      | None => (push_text active line segs, active)
      end
  end.

Definition finish_line (p : TaggedLineParser T) (segs : segments) : TaggedLineParser T * segments :=
  let '(segs, active) := classify_line (line_specs p) (active_tag p) (line_buffer p) segs in
  (Build_TaggedLineParser (line_specs p) active true [], segs).

(** One character of [parse]; [run] is the text not yet pushed. *)
Definition parse_char (st : TaggedLineParser T * str * segments) (ch : char)
    : TaggedLineParser T * str * segments :=
  let '(p, run, segs) := st in
  if detect_tag p then
    let segs := match run with [] => segs | _ => push_text (active_tag p) run segs end in
    let buf := line_buffer p ++ [ch] in
    if (ch =? c_lf)%N then
      let '(p, segs) := finish_line (Build_TaggedLineParser (line_specs p) (active_tag p) true buf) segs in
      (p, [], segs)
    else
      let slug := trim_start buf in
      if bool_decide (slug = []) || is_tag_prefix (line_specs p) slug
      then (Build_TaggedLineParser (line_specs p) (active_tag p) true buf, [], segs)
      else (Build_TaggedLineParser (line_specs p) (active_tag p) false [], [],
            push_text (active_tag p) buf segs)
  else
    let run := run ++ [ch] in
    if (ch =? c_lf)%N
    then (Build_TaggedLineParser (line_specs p) (active_tag p) true (line_buffer p), [],
          push_text (active_tag p) run segs)
    else (p, run, segs).

Definition tagged_parse (p : TaggedLineParser T) (delta : str) : segments * TaggedLineParser T :=
  let '(p, run, segs) := foldl parse_char (p, [], []) delta in
  (match run with [] => segs | _ => push_text (active_tag p) run segs end, p).

Definition tagged_finish (p : TaggedLineParser T) : segments * TaggedLineParser T :=
  let '(segs, active) := match line_buffer p with
                         | [] => ([], active_tag p)
                         | line => classify_line (line_specs p) (active_tag p) line []
                         end in
  let segs := match active with Some tag => push_segment segs (TagEnd tag) | None => segs end in
  (segs, Build_TaggedLineParser (line_specs p) None true []).

End TaggedLine.

(** ** [proposed_plan.rs] *)

Definition OPEN_TAG : str := lit "<proposed_plan>".
Definition CLOSE_TAG : str := lit "</proposed_plan>".

Inductive ProposedPlanSegment :=
  | PlanNormal (text : str)
  | ProposedPlanStart
  | ProposedPlanDelta (text : str)
  | ProposedPlanEnd.

Record ProposedPlanParser := { plan_parser : TaggedLineParser unit }.

Definition plan_spec : TagSpec unit := Build_TagSpec OPEN_TAG CLOSE_TAG tt.

Definition plan_new : ProposedPlanParser := {| plan_parser := tagged_new [plan_spec] |}.

Definition map_segment (s : TaggedLineSegment unit) : ProposedPlanSegment :=
  match s with
  | Normal text => PlanNormal text
  | TagStart _ => ProposedPlanStart
  | TagDelta _ text => ProposedPlanDelta text
  | TagEnd _ => ProposedPlanEnd
  end.

Definition visible_of (s : ProposedPlanSegment) : str :=
  match s with PlanNormal text => text | _ => [] end.

Definition map_segments (segs : list (TaggedLineSegment unit)) : StreamTextChunk ProposedPlanSegment :=
  let mapped := map map_segment segs in
  Build_StreamTextChunk (concat (map visible_of mapped)) mapped.

#[export] Instance plan_stream_parser : StreamTextParser ProposedPlanParser ProposedPlanSegment := {
  push_str p chunk :=
    let '(segs, q) := tagged_parse (plan_parser p) chunk in (map_segments segs, {| plan_parser := q |});
  finish_stream p :=
    let '(segs, q) := tagged_finish (plan_parser p) in (map_segments segs, {| plan_parser := q |});
}.

Definition strip_proposed_plan_blocks (text : str) : str :=
  let '(out, p) := push_str plan_new text in
  visible_text out ++ visible_text (finish_stream p).1.

(** The loop of [extract_proposed_plan_text]: the text of the last plan block,
    and whether there was one. *)
Definition plan_text_step (st : str * bool) (seg : ProposedPlanSegment) : str * bool :=
  match seg with
  | ProposedPlanStart => ([], true)
  | ProposedPlanDelta delta => (st.1 ++ delta, st.2)
  | ProposedPlanEnd | PlanNormal _ => st
  end.

Definition extract_proposed_plan_text (text : str) : option str :=
  let '(out, p) := push_str plan_new text in
  let '(plan_text, saw_plan_block) :=
    foldl plan_text_step ([], false) (extracted out ++ extracted (finish_stream p).1) in
  if (saw_plan_block : bool) then Some plan_text else None.

(** ** [assistant_text.rs] *)

Record AssistantTextChunk := {
  assistant_visible : str;
  citations : list str;
  plan_segments : list ProposedPlanSegment;
}.

Definition assistant_chunk_is_empty (c : AssistantTextChunk) : bool :=
  match assistant_visible c, citations c, plan_segments c with [], [], [] => true | _, _, _ => false end.

Record AssistantTextStreamParser := {
  plan_mode : bool;
  citation_parser : CitationStreamParser;
  assistant_plan : ProposedPlanParser;
}.

Definition assistant_new (plan_mode : bool) : AssistantTextStreamParser :=
  {| plan_mode := plan_mode; citation_parser := citation_new; assistant_plan := plan_new |}.

Definition parse_visible_text (p : AssistantTextStreamParser) (visible : str)
    : AssistantTextChunk * ProposedPlanParser :=
  if negb (plan_mode p)
  then ({| assistant_visible := visible; citations := []; plan_segments := [] |}, assistant_plan p)
  else
    let '(plan_chunk, plan) := push_str (assistant_plan p) visible in
    ({| assistant_visible := visible_text plan_chunk; citations := [];
        plan_segments := extracted plan_chunk |}, plan).

Definition assistant_push_str (p : AssistantTextStreamParser) (chunk : str)
    : AssistantTextChunk * AssistantTextStreamParser :=
  let '(citation_chunk, citations) := push_str (citation_parser p) chunk in
  let '(out, plan) := parse_visible_text p (visible_text citation_chunk) in
  ({| assistant_visible := assistant_visible out; citations := extracted citation_chunk;
      plan_segments := plan_segments out |},
   {| plan_mode := plan_mode p; citation_parser := citations; assistant_plan := plan |}).

Definition assistant_finish (p : AssistantTextStreamParser)
    : AssistantTextChunk * AssistantTextStreamParser :=
  let '(citation_chunk, citations) := finish_stream (citation_parser p) in
  let '(out, plan) := parse_visible_text p (visible_text citation_chunk) in
  let '(tail, plan) := if plan_mode p then finish_stream plan else (chunk_default, plan) in
  ({| assistant_visible := assistant_visible out ++ visible_text tail;
      citations := extracted citation_chunk;
      plan_segments := plan_segments out ++ extracted tail |},
   {| plan_mode := plan_mode p; citation_parser := citations; assistant_plan := plan |}).

(** * Tagged lines and plans: the stream against the lines of the text

    The line parser emits, character by character, what a reading of the whole
    text line by line gives, whatever the chunks; the plan parser keeps the law
    of [StreamText] up to how text is split over segments; a plan written
    between its tag lines is extracted as it is. *)

(** ** Events: segments, one character at a time *)

Inductive event (T : Type) := EText (c : char) | EStart (t : T) | EDelta (t : T) (c : char) | EEnd (t : T).
Arguments EText {T} c.
Arguments EStart {T} t.
Arguments EDelta {T} t c.
Arguments EEnd {T} t.

Section Facts.
Context {T : Type} `{!EqDecision T}.
Implicit Types (p : TaggedLineParser T) (segs : list (TaggedLineSegment T)) (act : option T).

Definition events_of (s : TaggedLineSegment T) : list (event T) :=
  match s with
  | Normal text => map EText text
  | TagStart tag => [EStart tag]
  | TagDelta tag text => map (EDelta tag) text
  | TagEnd tag => [EEnd tag]
  end.
Definition flat segs : list (event T) := segs ≫= events_of.

Definition text_events act (text : str) : list (event T) :=
  match act with Some tag => map (EDelta tag) text | None => map EText text end.

Lemma text_events_app act a b : text_events act (a ++ b) = text_events act a ++ text_events act b.
Proof. destruct act; apply map_app. Qed.

Lemma flat_app a b : flat (a ++ b) = flat a ++ flat b.
Proof. apply bind_app. Qed.

Lemma flat_push_segment segs s : flat (push_segment segs s) = flat segs ++ events_of s.
Proof.
  assert (Hadd : ∀ s, flat (segs ++ [s]) = flat segs ++ events_of s).
  { intros s'. rewrite flat_app. simpl. by rewrite app_nil_r. }
  destruct s as [d|t|t d|t]; simpl; try apply Hadd.
  - destruct d as [|c d]; [by rewrite app_nil_r|].
    destruct (snoc_inv segs) as [->|(l & x & ->)]; [apply Hadd|]. rewrite last_snoc.
    destruct x; try apply Hadd. rewrite update_last_snoc, !flat_app. simpl.
    rewrite !app_nil_r, map_app, <- app_assoc. done.
  - destruct d as [|c d]; [by rewrite app_nil_r|].
    destruct (snoc_inv segs) as [->|(l & x & ->)]; [apply Hadd|]. rewrite last_snoc.
    destruct x; try apply Hadd. destruct (decide (tag = t)) as [->|]; [|apply Hadd].
    rewrite update_last_snoc, !flat_app. simpl. rewrite !app_nil_r, map_app, <- app_assoc. done.
Qed.

Lemma flat_push_text act text segs : flat (push_text act text segs) = flat segs ++ text_events act text.
Proof. destruct act; apply flat_push_segment. Qed.

#[local] Arguments push_segment : simpl never.
#[local] Arguments push_text : simpl never.

(** The events and the new active tag of one line. *)
Definition line_events (specs : list (TagSpec T)) act (line : str) : list (event T) * option T :=
  let '(segs, act) := classify_line specs act line [] in (flat segs, act).

Lemma classify_line_flat specs act line segs :
  let '(segs', act') := classify_line specs act line segs in
  (flat segs', act') = (flat segs ++ (line_events specs act line).1, (line_events specs act line).2).
Proof.
  unfold line_events, classify_line. cbv zeta.
  repeat case_match; simplify_eq; simpl; rewrite ?flat_push_segment, ?flat_push_text; simpl;
    rewrite ?flat_push_segment, ?flat_push_text; done.
Qed.

(** ** The parser as a machine without the local [run] *)

Definition flush (p : TaggedLineParser T) (run : str) segs : list (TaggedLineSegment T) :=
  match run with [] => segs | _ => push_text (active_tag p) run segs end.

Definition next p (ch : char) : TaggedLineParser T := (parse_char (p, [], []) ch).1.1.
Definition step_events p (ch : char) : list (event T) :=
  let '(p', run, segs) := parse_char (p, [], []) ch in flat (flush p' run segs).

Lemma flat_flush p run segs : flat (flush p run segs) = flat segs ++ text_events (active_tag p) run.
Proof.
  unfold flush. destruct run; [|apply flat_push_text]. destruct (active_tag p); simpl; by rewrite app_nil_r.
Qed.

Lemma parse_char_events p run segs ch :
  (detect_tag p = true → run = []) →
  let '(p', run', segs') := parse_char (p, run, segs) ch in
  p' = next p ch ∧ (detect_tag p' = true → run' = [])
  ∧ flat (flush p' run' segs') = flat (flush p run segs) ++ step_events p ch.
Proof.
  intros Hrun. unfold step_events, next, parse_char. destruct (detect_tag p) eqn:Ed.
  - rewrite Hrun by done. simpl. destruct (ch =? c_lf)%N.
    + unfold finish_line. simpl.
      pose proof (classify_line_flat (line_specs p) (active_tag p) (line_buffer p ++ [ch]) segs) as H1.
      pose proof (classify_line_flat (line_specs p) (active_tag p) (line_buffer p ++ [ch]) []) as H2.
      destruct (classify_line _ _ _ segs) as [segs1 a1], (classify_line _ _ _ []) as [segs2 a2].
      injection H1 as Hs1 ->. injection H2 as Hs2 ->. simpl. split_and!; [done..|].
      by rewrite Hs1, Hs2.
    + destruct (bool_decide _ || _); simpl; split_and!; try done; rewrite ?app_nil_r, ?flat_push_text; done.
  - destruct (ch =? c_lf)%N; simpl.
    + split_and!; [done..|]. rewrite !flat_push_text, flat_flush, text_events_app. simpl.
      by rewrite app_assoc.
    + split_and!; [done|by rewrite Ed|]. rewrite !flat_flush, flat_push_text, text_events_app, app_assoc. done.
Qed.

Fixpoint all_events p (text : str) : list (event T) :=
  match text with
  | [] => []
  | ch :: text => step_events p ch ++ all_events (next p ch) text
  end.

Lemma parse_events p text :
  let '(segs, q) := tagged_parse p text in flat segs = all_events p text ∧ q = foldl next p text.
Proof.
  unfold tagged_parse.
  assert (H : ∀ text p run segs, (detect_tag p = true → run = []) →
    let '(q, run', segs') := foldl parse_char (p, run, segs) text in
    q = foldl next p text ∧ flat (flush q run' segs') = flat (flush p run segs) ++ all_events p text).
  { clear p text. induction text as [|ch text IH]; intros p run segs Hr; cbn [foldl all_events];
      [by rewrite app_nil_r|].
    pose proof (parse_char_events p run segs ch Hr) as Hc.
    destruct (parse_char (p, run, segs) ch) as [[p1 run1] segs1]. destruct Hc as (-> & Hr1 & Hf).
    specialize (IH (next p ch) run1 segs1 Hr1).
    destruct (foldl parse_char _ text) as [[q run'] segs']. destruct IH as [-> ->].
    split; [done|]. by rewrite Hf, app_assoc. }
  specialize (H text p [] [] ltac:(done)).
  destruct (foldl parse_char (p, [], []) text) as [[q run] segs]. destruct H as [-> H]. split; [|done].
  exact H.
Qed.

Lemma all_events_app p a b : all_events p (a ++ b) = all_events p a ++ all_events (foldl next p a) b.
Proof. revert p. induction a as [|c a IH]; intros p; simpl; [done|]. by rewrite IH, app_assoc. Qed.

(** ** A line, character by character *)

(** Whether a text can still turn out to be a tag line. *)
Definition maybe_tag (specs : list (TagSpec T)) (x : str) : bool :=
  bool_decide (trim_start x = []) || is_tag_prefix specs (trim_start x).

Lemma trim_end_app_prefix s y :
  trim_end (s ++ y) = trim_end s ∨ s `prefix_of` trim_end (s ++ y).
Proof.
  destruct (drop_while_end_prefix is_whitespace (s ++ y)) as (w & Hw & Hp).
  change (drop_while_end is_whitespace (s ++ y)) with (trim_end (s ++ y)) in Hw.
  destruct (prefix_weak_total s (trim_end (s ++ y)) (s ++ y)) as [H|[u Hu]];
    [by apply prefix_app_r|by exists w|by right|left].
  assert (Hid : trim_end (trim_end (s ++ y)) = trim_end (s ++ y)) by apply drop_while_end_idemp.
  set (e := trim_end (s ++ y)) in *. clearbody e. subst s.
  rewrite <- app_assoc in Hw. apply app_inv_head in Hw. rewrite <- Hw, forallb_app in Hp. bdec.
  rewrite <- Hid at 1. unfold trim_end, drop_while_end. rewrite rev_app_distr.
  rewrite (drop_while_app_all is_whitespace (rev u)); [done|]. by rewrite forallb_rev.
Qed.

Lemma trim_end_is_prefix s : trim_end s `prefix_of` s.
Proof. destruct (drop_while_end_prefix is_whitespace s) as (w & Hw & _). by exists w. Qed.

(** A text that cannot be a tag line any more is none, whatever follows. *)
Lemma not_tag_trim specs x y :
  maybe_tag specs x = false →
  match_open specs (trim (x ++ y)) = None ∧ match_close specs (trim (x ++ y)) = None.
Proof.
  intros [Hne Hp]%orb_false_iff. bdec.
  assert (Hx : trim_start (x ++ y) = trim_start x ++ y).
  { apply drop_while_app_stop. apply not_true_iff_false. intros Ht. by apply Hne, drop_while_nil. }
  assert (Hpre : trim_end (trim_start x) `prefix_of` trim (x ++ y)).
  { unfold trim. rewrite Hx. destruct (trim_end_app_prefix (trim_start x) y) as [->|H]; [done|].
    by etrans; [apply trim_end_is_prefix|]. }
  assert (Hno : ∀ spec, spec ∈ specs → line_open spec ≠ trim (x ++ y) ∧ line_close spec ≠ trim (x ++ y)).
  { intros spec Hs. unfold is_tag_prefix in Hp. apply not_true_iff_false in Hp.
    split; intros He; apply Hp, existsb_exists; exists spec; (split; [by apply list_elem_of_In|]);
      apply orb_true_iff; [left|right]; apply starts_with_prefix; by rewrite He. }
  unfold match_open, match_close. split.
  - destruct (find _ specs) as [spec|] eqn:Ef; [|done]. apply find_some in Ef as [Hi He].
    apply list_elem_of_In in Hi. bdec. by destruct (Hno spec Hi).
  - destruct (find _ specs) as [spec|] eqn:Ef; [|done]. apply find_some in Ef as [Hi He].
    apply list_elem_of_In in Hi. bdec. by destruct (Hno spec Hi).
Qed.

Definition no_lf (l : str) : Prop := c_lf ∉ l.

Lemma no_lf_app a b : no_lf (a ++ b) ↔ no_lf a ∧ no_lf b.
Proof. unfold no_lf. rewrite elem_of_app. tauto. Qed.
Lemma no_lf_cons c l : no_lf (c :: l) ↔ (c =? c_lf)%N = false ∧ no_lf l.
Proof.
  unfold no_lf. rewrite elem_of_cons, N.eqb_neq. split; [|naive_solver].
  intros H. split; [intros ->; apply H; by left|tauto].
Qed.

Lemma strip_lf_line l : no_lf l → strip_lf l = l ∧ strip_lf (l ++ [c_lf]) = l.
Proof.
  intros Hl. unfold strip_lf. split.
  - destruct (strip_suffix [c_lf] l) as [r|] eqn:E; [|done]. apply strip_suffix_Some in E.
    exfalso. apply Hl. rewrite E. set_solver.
  - by rewrite (proj2 (strip_suffix_Some [c_lf] (l ++ [c_lf]) l) eq_refl).
Qed.

(** A line that is not a tag line is text, with or without its line break. *)
Lemma not_tag_line specs act x y :
  maybe_tag specs x = false → no_lf (x ++ y) →
  line_events specs act (x ++ y) = (text_events act (x ++ y), act)
  ∧ line_events specs act (x ++ y ++ [c_lf]) = (text_events act (x ++ y ++ [c_lf]), act).
Proof.
  intros Hm Hl. destruct (not_tag_trim specs x y Hm) as [Ho Hc].
  destruct (strip_lf_line _ Hl) as [Hs1 Hs2]. rewrite <- app_assoc in Hs2.
  unfold line_events, classify_line. rewrite Hs1, Hs2. cbv zeta.
  change (trim_end (trim_start (x ++ y))) with (trim (x ++ y)). rewrite Ho, Hc.
  by rewrite !flat_push_text.
Qed.

(** The parser inside a line: still collecting it, or passing it on. *)
Definition collecting specs act (buf : str) := Build_TaggedLineParser (T:=T) specs act true buf.
Definition passing specs act := Build_TaggedLineParser (T:=T) specs act false [].

Lemma pass_text specs act l :
  no_lf l → foldl next (passing specs act) l = passing specs act
            ∧ all_events (passing specs act) l = text_events act l.
Proof.
  induction l as [|c l IH]; intros Hl; [by destruct act|]. apply no_lf_cons in Hl as [Hc Hl].
  assert (Hn : next (passing specs act) c = passing specs act).
  { unfold next, parse_char. simpl. by rewrite Hc. }
  assert (He : step_events (passing specs act) c = text_events act [c]).
  { unfold step_events, parse_char. simpl. rewrite Hc. apply flat_push_text. }
  simpl. rewrite Hn, He. destruct (IH Hl) as [-> ->].
  split; [done|]. by rewrite <- text_events_app.
Qed.

Lemma collect_text specs act buf l :
  no_lf (buf ++ l) →
  (foldl next (collecting specs act buf) l = collecting specs act (buf ++ l)
   ∧ all_events (collecting specs act buf) l = [])
  ∨ (foldl next (collecting specs act buf) l = passing specs act
     ∧ all_events (collecting specs act buf) l = text_events act (buf ++ l)
     ∧ ∃ x y, buf ++ l = x ++ y ∧ maybe_tag specs x = false).
Proof.
  revert buf. induction l as [|c l IH]; intros buf Hl; [left; by rewrite app_nil_r|].
  destruct (proj1 (no_lf_app _ _) Hl) as [_ [Hc Hll]%no_lf_cons].
  rewrite (cons_middle c buf l), app_assoc in Hl |- *. cbn [foldl all_events].
  destruct (maybe_tag specs (buf ++ [c])) eqn:Em.
  - assert (Hn : next (collecting specs act buf) c = collecting specs act (buf ++ [c])).
    { unfold next, parse_char. simpl. rewrite Hc. unfold maybe_tag in Em. by rewrite Em. }
    assert (He : step_events (collecting specs act buf) c = []).
    { unfold step_events, parse_char. simpl. rewrite Hc. unfold maybe_tag in Em. by rewrite Em. }
    rewrite Hn, He. by apply IH.
  - right. assert (Hn : next (collecting specs act buf) c = passing specs act).
    { unfold next, parse_char. simpl. rewrite Hc. unfold maybe_tag in Em. by rewrite Em. }
    assert (He : step_events (collecting specs act buf) c = text_events act (buf ++ [c])).
    { unfold step_events, parse_char. simpl. rewrite Hc. unfold maybe_tag in Em. rewrite Em.
      apply flat_push_text. }
    rewrite Hn, He. destruct (pass_text specs act l Hll) as [-> ->].
    split_and!; [done|symmetry; apply text_events_app|]. exists (buf ++ [c]), l. done.
Qed.

(** A terminated line from the start of a line. *)
Lemma whole_line specs act l :
  no_lf l →
  let '(evs, act') := line_events specs act (l ++ [c_lf]) in
  all_events (collecting specs act []) (l ++ [c_lf]) = evs
  ∧ foldl next (collecting specs act []) (l ++ [c_lf]) = collecting specs act' [].
Proof.
  intros Hl. rewrite all_events_app, foldl_app.
  destruct (collect_text specs act [] l Hl) as [[-> ->]|(-> & -> & x & y & Hxy & Hm)]; simpl in *.
  - unfold step_events, next, parse_char, finish_line. simpl.
    unfold line_events. destruct (classify_line specs act (l ++ [c_lf]) []) as [segs act']. simpl.
    by rewrite app_nil_r.
  - subst l. destruct (not_tag_line specs act x y Hm Hl) as [_ Hln]. rewrite app_assoc in Hln.
    rewrite Hln. unfold step_events, next, parse_char. simpl.
    rewrite flat_push_text, app_nil_r, (text_events_app act (x ++ y)). done.
Qed.

(** The end of a stream: an open tag is closed. *)
Definition close_events act : list (event T) := match act with Some tag => [EEnd tag] | None => [] end.

Lemma finish_events p :
  flat (tagged_finish p).1
  = (let '(evs, act) := match line_buffer p with
                        | [] => ([], active_tag p)
                        | line => line_events (line_specs p) (active_tag p) line
                        end in evs ++ close_events act).
Proof.
  unfold tagged_finish, line_events. destruct (line_buffer p) as [|c b].
  - by destruct (active_tag p).
  - destruct (classify_line _ _ _ []) as [segs [tag|]]; simpl; [by rewrite flat_push_segment|].
    by rewrite app_nil_r.
Qed.

(** An unterminated last line, and the end of the stream. *)
Lemma last_line specs act l :
  no_lf l → l ≠ [] →
  let '(evs, act') := line_events specs act l in
  all_events (collecting specs act []) l
    ++ flat (tagged_finish (foldl next (collecting specs act []) l)).1 = evs ++ close_events act'.
Proof.
  intros Hl Hne. rewrite finish_events.
  destruct (collect_text specs act [] l Hl) as [[-> ->]|(-> & -> & x & y & Hxy & Hm)]; simpl in *.
  - destruct l as [|c l]; [done|]. by destruct (line_events specs act (c :: l)).
  - subst l. destruct (not_tag_line specs act x y Hm Hl) as [-> _]. done.
Qed.

(** ** The whole text *)

(** [split_inclusive('\n')]. *)
Fixpoint lines_inclusive (text : str) : list str :=
  match text with
  | [] => []
  | c :: text =>
      if (c =? c_lf)%N then [c] :: lines_inclusive text
      else match lines_inclusive text with
           | [] => [[c]]
           | l :: ls => (c :: l) :: ls
           end
  end.

Fixpoint read_lines (specs : list (TagSpec T)) act (ls : list str) : list (event T) :=
  match ls with
  | [] => close_events act
  | l :: ls => let '(evs, act') := line_events specs act l in evs ++ read_lines specs act' ls
  end.

Lemma lines_inclusive_split text :
  (no_lf text ∧ lines_inclusive text = match text with [] => [] | _ => [text] end)
  ∨ ∃ l rest, text = l ++ [c_lf] ++ rest ∧ no_lf l
      ∧ lines_inclusive text = (l ++ [c_lf]) :: lines_inclusive rest.
Proof.
  induction text as [|c text IH]; [left; split; [by apply not_elem_of_nil|done]|]. simpl.
  destruct (N.eqb_spec c c_lf) as [->|Hc].
  { right. exists [], text. split_and!; [done|by apply not_elem_of_nil|done]. }
  destruct IH as [[Hl ->]|(l & rest & -> & Hl & ->)].
  - left. split; [by apply no_lf_cons; rewrite N.eqb_neq|]. by destruct text.
  - right. exists (c :: l), rest. split_and!; [done|by apply no_lf_cons; rewrite N.eqb_neq|done].
Qed.

Lemma run_lines specs act text :
  all_events (collecting specs act []) text
    ++ flat (tagged_finish (foldl next (collecting specs act []) text)).1
  = read_lines specs act (lines_inclusive text).
Proof.
  remember (length text) as n eqn:En. revert text act En.
  induction n as [n IH] using lt_wf_ind. intros text act ->.
  destruct (lines_inclusive_split text) as [[Hl ->]|(l & rest & -> & Hl & ->)].
  - destruct text as [|c text].
    + rewrite finish_events. done.
    + cbn [read_lines]. pose proof (last_line specs act (c :: text) Hl ltac:(done)) as H.
      by destruct (line_events specs act (c :: text)).
  - rewrite app_assoc, all_events_app, (foldl_app _ (l ++ [c_lf]) rest). cbn [read_lines].
    pose proof (whole_line specs act l Hl) as H.
    destruct (line_events specs act (l ++ [c_lf])) as [evs act']. destruct H as [-> ->].
    rewrite <- app_assoc. f_equal. eapply IH; [|reflexivity]. rewrite !length_app. simpl. lia.
Qed.

End Facts.

(** ** Proposed plans *)

Definition plan_events_of (s : ProposedPlanSegment) : list (event unit) :=
  match s with
  | PlanNormal text => map EText text
  | ProposedPlanStart => [EStart tt]
  | ProposedPlanDelta text => map (EDelta tt) text
  | ProposedPlanEnd => [EEnd tt]
  end.
Definition plan_events (segs : list ProposedPlanSegment) : list (event unit) := segs ≫= plan_events_of.

(** The visible text and the plan text of a list of events. *)
Fixpoint shown (evs : list (event unit)) : str :=
  match evs with
  | [] => []
  | EText c :: evs => c :: shown evs
  | _ :: evs => shown evs
  end.
Definition plan_event_step (st : str * bool) (e : event unit) : str * bool :=
  match e with
  | EStart _ => ([], true)
  | EDelta _ c => (st.1 ++ [c], st.2)
  | EText _ | EEnd _ => st
  end.

Lemma shown_app a b : shown (a ++ b) = shown a ++ shown b.
Proof. induction a as [|[] a IH]; simpl; by rewrite ?IH. Qed.
Lemma shown_text l : shown (map EText l) = l.
Proof. induction l as [|c l IH]; simpl; by rewrite ?IH. Qed.
Lemma shown_delta l : shown (map (EDelta tt) l) = [].
Proof. by induction l. Qed.

Lemma map_segments_events segs :
  plan_events (extracted (map_segments segs)) = flat segs
  ∧ visible_text (map_segments segs) = shown (flat segs).
Proof.
  unfold map_segments. simpl. induction segs as [|s segs [IH1 IH2]]; [done|]. simpl.
  unfold plan_events in *. simpl. rewrite IH1, IH2, shown_app. split; [by destruct s as [|[]|[]|[]]|].
  f_equal. destruct s as [|[]|[]|[]]; simpl; [by rewrite shown_text|done|by rewrite shown_delta|done].
Qed.

Lemma plan_push_events p text :
  let '(out, q) := push_str p text in
  plan_events (extracted out) = all_events (plan_parser p) text
  ∧ visible_text out = shown (all_events (plan_parser p) text)
  ∧ plan_parser q = foldl next (plan_parser p) text.
Proof.
  simpl. pose proof (parse_events (plan_parser p) text) as H.
  destruct (tagged_parse (plan_parser p) text) as [segs q]. destruct H as [<- ->].
  destruct (map_segments_events segs) as [H1 H2]. by rewrite H1, H2.
Qed.

Lemma plan_push_twice p a b :
  (push_str p (a ++ b)).2 = (push_str (push_str p a).2 b).2
  ∧ visible_text (push_str p (a ++ b)).1
    = visible_text (push_str p a).1 ++ visible_text (push_str (push_str p a).2 b).1
  ∧ plan_events (extracted (push_str p (a ++ b)).1)
    = plan_events (extracted (push_str p a).1) ++ plan_events (extracted (push_str (push_str p a).2 b).1).
Proof.
  pose proof (plan_push_events p (a ++ b)) as H. pose proof (plan_push_events p a) as Ha.
  destruct (push_str p a) as [oa pa]. cbn [fst snd]. pose proof (plan_push_events pa b) as Hb.
  destruct (push_str pa b) as [ob pb], (push_str p (a ++ b)) as [o q]. cbn [fst snd].
  destruct H as (-> & -> & H), Ha as (-> & -> & Ha), Hb as (-> & -> & Hb).
  rewrite Ha, all_events_app, shown_app. split_and!; [|done..].
  rewrite Ha, <- foldl_app, <- H in Hb. destruct pb, q. simpl in *. by subst.
Qed.

Definition plan_equiv (a b : list ProposedPlanSegment) : Prop := plan_events a = plan_events b.

#[export] Instance plan_lawful : LawfulStreamParser ProposedPlanParser ProposedPlanSegment.
Proof.
  refine {| payload_equiv := plan_equiv; stream_wf := λ _, True |}.
  - split; [done|by intros a b H|]. intros a b c H1 H2. unfold plan_equiv in *. congruence.
  - intros a1 a2 Ha b1 b2 Hb. unfold plan_equiv, plan_events in *. by rewrite !bind_app, Ha, Hb.
  - done.
  - by intros [p] _.
  - intros p a b _. apply (plan_push_twice p a b).
  - intros p a b _. apply (plan_push_twice p a b).
  - intros p a b _. unfold plan_equiv, plan_events. rewrite bind_app. apply (plan_push_twice p a b).
Defined.

Lemma plan_run_events chunks :
  let out := run_stream plan_new chunks in
  plan_events (extracted out) = read_lines [plan_spec] None (lines_inclusive (concat chunks))
  ∧ visible_text out = shown (plan_events (extracted out)).
Proof.
  destruct (run_stream_concat (LP:=plan_lawful) plan_new chunks I) as [H1 H2].
  cbv zeta. rewrite H1. unfold payload_equiv, plan_lawful, plan_equiv in H2. rewrite H2. clear H1 H2.
  rewrite run_stream_single. pose proof (plan_push_events plan_new (concat chunks)) as H.
  destruct (push_str plan_new (concat chunks)) as [out q]. destruct H as (He & Hv & Hq).
  simpl. destruct (tagged_finish (plan_parser q)) as [segs q'] eqn:Ef. simpl.
  destruct (map_segments_events segs) as [Hs1 Hs2]. unfold map_segments in Hs1, Hs2. simpl in Hs1, Hs2.
  unfold plan_events in *. rewrite bind_app, He, Hs1, Hv, Hs2, shown_app. split; [|done].
  rewrite <- run_lines. f_equal. unfold plan_new, tagged_new in Hq. simpl in Hq.
  change (Build_TaggedLineParser [plan_spec] None true []) with (collecting [plan_spec] None []) in Hq.
  by rewrite <- Hq, Ef.
Qed.

(** Plan blocks are found line by line: for every way of cutting a text
    into chunks, the events of the stream, final flush included (text,
    plan starts, plan text, plan ends, in order), are those of reading the
    whole text line by line with an unclosed plan closed at the end, and the
    visible text is exactly the text outside plans. *)
Theorem plan_stream_reads_lines chunks :
  let out := run_stream plan_new chunks in
  plan_events (extracted out) = read_lines [plan_spec] None (lines_inclusive (concat chunks))
  ∧ visible_text out = shown (read_lines [plan_spec] None (lines_inclusive (concat chunks))).
Proof.
  pose proof (plan_run_events chunks) as H. cbv zeta in *. destruct H as [H1 H2].
  split; [done|]. by rewrite H2, H1.
Qed.

Lemma plan_text_events segs st :
  foldl plan_text_step st segs = foldl plan_event_step st (plan_events segs).
Proof.
  revert st. induction segs as [|s segs IH]; intros st; [done|]. unfold plan_events in *. simpl.
  rewrite foldl_app, IH. f_equal. destruct s as [t| |t|]; simpl; try done.
  - induction t as [|c t IHt] in st |- *; simpl; auto.
  - induction t as [|c t IHt] in st |- *; simpl; [rewrite app_nil_r; by destruct st|].
    rewrite <- IHt. simpl. by rewrite <- app_assoc.
Qed.

Lemma strip_and_extract text :
  strip_proposed_plan_blocks text = shown (read_lines [plan_spec] None (lines_inclusive text))
  ∧ extract_proposed_plan_text text
    = (let '(plan, saw) := foldl plan_event_step ([], false)
                             (read_lines [plan_spec] None (lines_inclusive text)) in
       if (saw : bool) then Some plan else None).
Proof.
  destruct (plan_run_events [text]) as [H1 H2]. rewrite run_stream_single in H1, H2.
  simpl concat in H1, H2. rewrite app_nil_r in H1.
  unfold strip_proposed_plan_blocks, extract_proposed_plan_text.
  destruct (push_str plan_new text) as [out q]. cbn [fst snd] in H1, H2.
  rewrite plan_text_events. unfold chunk_append in H1, H2. cbn [visible_text extracted] in H1, H2.
  rewrite H1. split; [|done]. by rewrite H2, H1.
Qed.

(** Lines that are no tags. *)
Definition plain_line (l : str) : Prop := trim (strip_lf l) ≠ OPEN_TAG ∧ trim (strip_lf l) ≠ CLOSE_TAG.
Definition plain (text : str) : Prop := Forall plain_line (lines_inclusive text).
Definition ends_lines (text : str) : Prop := text = [] ∨ ∃ t, text = t ++ [c_lf].

Lemma plain_line_events act l :
  plain_line l → line_events [plan_spec] act l = (text_events act l, act).
Proof.
  intros [Ho Hc]. unfold line_events, classify_line. cbv zeta.
  change (trim_end (trim_start (strip_lf l))) with (trim (strip_lf l)).
  unfold match_open, match_close, plan_spec. simpl.
  rewrite !bool_decide_false by done. simpl. by rewrite flat_push_text.
Qed.

Lemma read_plain act ls rest :
  Forall plain_line ls →
  read_lines [plan_spec] act (ls ++ rest) = text_events act (concat ls) ++ read_lines [plan_spec] act rest.
Proof.
  induction 1 as [|l ls Hl Hls IH]; simpl; [by destruct act|].
  by rewrite plain_line_events, IH, text_events_app, app_assoc.
Qed.

Lemma lines_inclusive_concat text : concat (lines_inclusive text) = text.
Proof.
  induction text as [|c text IH]; [done|]. simpl. destruct (c =? c_lf)%N; [simpl; by rewrite IH|].
  rewrite <- IH at 2. by destruct (lines_inclusive text).
Qed.

Lemma lines_inclusive_app a b : ends_lines a → lines_inclusive (a ++ b) = lines_inclusive a ++ lines_inclusive b.
Proof.
  intros [->|[t ->]]; [done|]. induction t as [|c t IH]; simpl; [done|]. rewrite IH.
  destruct (c =? c_lf)%N; [done|]. destruct (lines_inclusive (t ++ [c_lf])) eqn:E; [|done].
  apply (f_equal (@concat _)) in E. rewrite lines_inclusive_concat in E. by destruct t.
Qed.

Lemma tag_line_lines l : no_lf l → lines_inclusive (l ++ [c_lf]) = [l ++ [c_lf]].
Proof.
  intros Hl. induction l as [|c l IH]; [done|]. apply no_lf_cons in Hl as [Hc Hl].
  simpl. by rewrite Hc, (IH Hl).
Qed.

Lemma open_line_events l :
  no_lf l → trim l = OPEN_TAG → line_events [plan_spec] None (l ++ [c_lf]) = ([EStart tt], Some tt).
Proof.
  intros Hl Ht. unfold line_events, classify_line. cbv zeta. rewrite (proj2 (strip_lf_line l Hl)).
  change (trim_end (trim_start l)) with (trim l). rewrite Ht. done.
Qed.

Lemma close_line_events l :
  no_lf l → trim l = CLOSE_TAG → line_events [plan_spec] (Some tt) (l ++ [c_lf]) = ([EEnd tt], None).
Proof.
  intros Hl Ht. unfold line_events, classify_line. cbv zeta. rewrite (proj2 (strip_lf_line l Hl)).
  change (trim_end (trim_start l)) with (trim l). rewrite Ht. done.
Qed.

Lemma fold_text st l : foldl plan_event_step st (map EText l) = st.
Proof. by induction l. Qed.
Lemma fold_delta st l : foldl plan_event_step st (map (EDelta tt) l) = (st.1 ++ l, st.2).
Proof.
  revert st. induction l as [|c l IH]; intros st; simpl; [rewrite app_nil_r; by destruct st|].
  rewrite IH. simpl. by rewrite <- app_assoc.
Qed.

(** A plan written between its tag lines comes out as it was written: the
    text before and after the block is what remains visible, and the lines
    between the tags are the extracted plan, whatever the indentation of the
    tag lines. *)
Theorem plan_block_roundtrip pre open_line body close_line post :
  plain pre → ends_lines pre → no_lf open_line → trim open_line = OPEN_TAG →
  plain body → ends_lines body → no_lf close_line → trim close_line = CLOSE_TAG → plain post →
  let text := pre ++ (open_line ++ [c_lf]) ++ body ++ (close_line ++ [c_lf]) ++ post in
  strip_proposed_plan_blocks text = pre ++ post ∧ extract_proposed_plan_text text = Some body.
Proof.
  intros Hpre Hpe Ho Hot Hb Hbe Hc Hct Hpost. cbv zeta.
  destruct (strip_and_extract (pre ++ (open_line ++ [c_lf]) ++ body ++ (close_line ++ [c_lf]) ++ post))
    as [-> ->].
  assert (He : read_lines [plan_spec] None
            (lines_inclusive (pre ++ (open_line ++ [c_lf]) ++ body ++ (close_line ++ [c_lf]) ++ post))
          = map EText pre ++ [EStart tt] ++ map (EDelta tt) body ++ [EEnd tt] ++ map EText post).
  { rewrite lines_inclusive_app by done. rewrite read_plain by done. rewrite lines_inclusive_concat.
    rewrite (lines_inclusive_app (open_line ++ [c_lf])) by (right; eauto).
    rewrite tag_line_lines by done. cbn [app read_lines]. rewrite open_line_events by done.
    rewrite lines_inclusive_app by done. rewrite read_plain by done. rewrite lines_inclusive_concat.
    rewrite (lines_inclusive_app (close_line ++ [c_lf])) by (right; eauto).
    rewrite tag_line_lines by done. cbn [app read_lines]. rewrite close_line_events by done.
    rewrite <- (app_nil_r (lines_inclusive post)), read_plain by done.
    rewrite lines_inclusive_concat. simpl. by rewrite app_nil_r. }
  rewrite He. rewrite !shown_app, !shown_text, shown_delta, !foldl_app, !fold_text, fold_delta. done.
Qed.

Lemma plan_block_roundtrip_witness :
  let pre := lit "intro" ++ [c_lf] in
  let body := lit "- step" ++ [c_lf; c_lf] in
  let text := pre ++ (lit "  <proposed_plan> " ++ [c_lf]) ++ body ++ (CLOSE_TAG ++ [c_lf]) ++ lit "end" in
  strip_proposed_plan_blocks text = pre ++ lit "end" ∧ extract_proposed_plan_text text = Some body.
Proof.
  assert (Hlf : ∀ l, forallb (λ c, negb (c =? c_lf)%N) l = true → no_lf l).
  { intros l Hl Hin. rewrite forallb_forall in Hl. apply list_elem_of_In in Hin.
    by specialize (Hl _ Hin). }
  assert (Hplain : ∀ l, Forall plain_line (lines_inclusive l) → plain l) by done.
  apply (plan_block_roundtrip (lit "intro" ++ [c_lf]) (lit "  <proposed_plan> ")
           (lit "- step" ++ [c_lf; c_lf]) CLOSE_TAG (lit "end")).
  - apply Hplain. repeat constructor; vm_compute; discriminate.
  - right. by exists (lit "intro").
  - by apply Hlf.
  - reflexivity.
  - apply Hplain. repeat constructor; vm_compute; discriminate.
  - right. by exists (lit "- step" ++ [c_lf]).
  - by apply Hlf.
  - reflexivity.
  - apply Hplain. repeat constructor; vm_compute; discriminate.
Defined.

(** ** Assistant text *)

(** A client of the assistant parser: the output of the chunks and the end. *)
Fixpoint assistant_run (p : AssistantTextStreamParser) (chunks : list str) : AssistantTextChunk :=
  match chunks with
  | [] => (assistant_finish p).1
  | c :: chunks =>
      let '(o1, p1) := assistant_push_str p c in
      let o2 := assistant_run p1 chunks in
      {| assistant_visible := assistant_visible o1 ++ assistant_visible o2;
         citations := citations o1 ++ citations o2;
         plan_segments := plan_segments o1 ++ plan_segments o2 |}
  end.

(** The visible texts that the citation parser hands on, one per chunk and one
    for the final flush. *)
Fixpoint citation_texts (s : CitationStreamParser) (chunks : list str) : list str :=
  match chunks with
  | [] => [visible_text (finish_stream s).1]
  | c :: chunks => visible_text (push_str s c).1 :: citation_texts (push_str s c).2 chunks
  end.

Lemma citation_texts_concat s chunks : concat (citation_texts s chunks) = visible_text (run_stream s chunks).
Proof.
  revert s. induction chunks as [|c chunks IH]; intros s; [unfold run_stream; cbn; by rewrite app_nil_r|].
  cbn [citation_texts concat]. rewrite IH. unfold run_stream. cbn [feed].
  destruct (push_str s c) as [o1 s1]. cbn [fst snd]. destruct (feed s1 chunks) as [o2 s2].
  cbn [visible_text chunk_append]. by rewrite <- app_assoc.
Qed.

Lemma assistant_run_parts m s q chunks :
  let o := assistant_run {| plan_mode := m; citation_parser := s; assistant_plan := q |} chunks in
  citations o = extracted (run_stream s chunks)
  ∧ (m = false → assistant_visible o = concat (citation_texts s chunks) ∧ plan_segments o = [])
  ∧ (m = true → assistant_visible o = visible_text (run_stream q (citation_texts s chunks))
                ∧ plan_segments o = extracted (run_stream q (citation_texts s chunks))).
Proof.
  revert s q. induction chunks as [|c chunks IH]; intros s q; cbv zeta.
  - cbn [assistant_run citation_texts]. unfold assistant_finish, run_stream, parse_visible_text.
    cbn [feed citation_parser plan_mode assistant_plan]. destruct (finish_stream s) as [oc s'].
    destruct m; cbn [negb fst].
    + destruct (push_str q (visible_text oc)) as [op q']. destruct (finish_stream q') as [ot q''].
      cbn. by rewrite !app_nil_r.
    + cbn. by rewrite !app_nil_r.
  - cbn [assistant_run citation_texts]. unfold assistant_push_str, parse_visible_text.
    cbn [citation_parser plan_mode assistant_plan]. unfold run_stream. cbn [feed].
    destruct (push_str s c) as [oc s1] eqn:Ec. cbn [fst snd]. destruct m; cbn [negb].
    + destruct (push_str q (visible_text oc)) as [op q1] eqn:Eq. specialize (IH s1 q1).
      cbv zeta in IH. destruct IH as (IHc & _ & IHp). destruct (IHp eq_refl) as [IHv IHs]. clear IHp.
      unfold run_stream in IHc, IHv, IHs. cbn. rewrite IHc, IHv, IHs.
      destruct (feed s1 chunks) as [o2 s2]. cbn.
      destruct (feed q1 (citation_texts s1 chunks)) as [o3 q3]. cbn.
      by rewrite <- !app_assoc.
    + specialize (IH s1 q). cbv zeta in IH. destruct IH as (IHc & IHv & _).
      destruct (IHv eq_refl) as [IHv1 IHv2]. clear IHv. unfold run_stream in IHc. cbn.
      rewrite IHc, IHv1, IHv2. destruct (feed s1 chunks) as [o2 s2]. cbn. by rewrite <- app_assoc.
Qed.

(** C36. Assistant text: for every way of cutting the text into chunks, the
    citations are those of the whole text; outside plan mode the visible text
    is the text without citations; in plan mode the text without citations is
    read line by line, the plan segments are its events and the visible text is
    what lies outside plans. *)
Theorem assistant_text_correct (m : bool) chunks :
  let text := concat chunks in
  let '(v, cs) := citations_of (S (length text)) text in
  let o := assistant_run (assistant_new m) chunks in
  let evs := read_lines [plan_spec] None (lines_inclusive v) in
  citations o = cs
  ∧ if m then assistant_visible o = shown evs ∧ plan_events (plan_segments o) = evs
    else assistant_visible o = v ∧ plan_segments o = [].
Proof.
  intros text. pose proof (citation_run_correct chunks) as Hc. cbv zeta in Hc. fold text in Hc.
  destruct (citations_of (S (length text)) text) as [v cs]. destruct Hc as [Hc _]. cbv zeta.
  pose proof (assistant_run_parts m citation_new plan_new chunks) as H. cbv zeta in H.
  fold (assistant_new m) in H. destruct H as (H1 & H2 & H3). rewrite Hc in H1.
  pose proof (citation_texts_concat citation_new chunks) as Ht. rewrite Hc in Ht. simpl in Ht.
  split; [done|]. destruct m.
  2:{ destruct (H2 eq_refl) as [-> ->]. by rewrite Ht. }
  - destruct (H3 eq_refl) as [-> ->]. pose proof (plan_run_events (citation_texts citation_new chunks)) as Hp.
    cbv zeta in Hp. destruct Hp as [Hp1 Hp2]. rewrite Ht in Hp1. split; [by rewrite Hp2, Hp1|done].
Qed.
