(* ===== verification/ExecPolicy.v ===== *)
(** * The execution policy: rules, matching, evaluation

    Models [execpolicy/src]: [decision.rs], [rule.rs], [policy.rs] and
    [executable_name.rs]. The one implementation of the trait [Rule] is
    [PrefixRule], which stands for [RuleRef]. *)

From stdpp Require Import gmap sorting.
From S2P Require Import Prelude RustStr RustOrd.
Open Scope list_scope.

(** ** Errors ([error.rs]) and decisions ([decision.rs]) *)

Inductive PolicyError (Loc : Type) :=
  | InvalidDecision (raw : str)
  | InvalidPattern (message : str)
  | InvalidExample (message : str)
  | InvalidRule (message : str)
  | ExampleDidNotMatch (rules examples : list str) (location : option Loc)
  | ExampleDidMatch (rule example : str) (location : option Loc).
Arguments InvalidDecision {Loc} raw.
Arguments InvalidPattern {Loc} message.
Arguments InvalidExample {Loc} message.
Arguments InvalidRule {Loc} message.
Arguments ExampleDidNotMatch {Loc} rules examples location.
Arguments ExampleDidMatch {Loc} rule example location.

(** [Error::with_location]: only a missing location is filled in. *)
Definition with_location {Loc} (e : PolicyError Loc) (l : Loc) : PolicyError Loc :=
  match e with
  | ExampleDidNotMatch rules examples None => ExampleDidNotMatch rules examples (Some l)
  | ExampleDidMatch rule example None => ExampleDidMatch rule example (Some l)
  | e => e
  end.

Inductive Decision := Allow | Prompt | Forbidden.
#[global] Instance decision_eq_dec : EqDecision Decision.
Proof. solve_decision. Defined.

(** The derived [Ord]: the order of the constructors. *)
Definition severity (d : Decision) : nat :=
  match d with Allow => 0 | Prompt => 1 | Forbidden => 2 end.
Definition decision_max (a b : Decision) : Decision := if severity a <=? severity b then b else a.

Definition decision_parse {Loc} (raw : str) : res (PolicyError Loc) Decision :=
  if bool_decide (raw = lit "allow") then Ok Allow
  else if bool_decide (raw = lit "prompt") then Ok Prompt
  else if bool_decide (raw = lit "forbidden") then Ok Forbidden
  else Err (InvalidDecision raw).

(** ** Rules ([rule.rs]) *)

Inductive PatternToken := Single (s : str) | Alts (alternatives : list str).

Definition token_matches (p : PatternToken) (token : str) : bool :=
  match p with
  | Single expected => bool_decide (expected = token)
  | Alts alternatives => existsb (λ alt, bool_decide (alt = token)) alternatives
  end.

Definition token_alternatives (p : PatternToken) : list str :=
  match p with Single expected => [expected] | Alts alternatives => alternatives end.

Record PrefixPattern := { pattern_first : str; pattern_rest : list PatternToken }.

Definition matches_prefix (p : PrefixPattern) (cmd : list str) : option (list str) :=
  let pattern_length := length (pattern_rest p) + 1 in
  match cmd with
  | [] => None
  | first :: args =>
      if bool_decide (length cmd < pattern_length) || negb (bool_decide (first = pattern_first p))
      then None
      else if forallb (λ '(t, c), token_matches t c)
                (zip (pattern_rest p) (take (pattern_length - 1) args))
      then Some (take pattern_length cmd)
      else None
  end.

Record PrefixRule := {
  pattern : PrefixPattern;
  rule_decision : Decision;
  rule_justification : option str;
}.

Inductive NetworkRuleProtocol := Http | Https | Socks5Tcp | Socks5Udp.

Definition protocol_parse {Loc} (raw : str) : res (PolicyError Loc) NetworkRuleProtocol :=
  if bool_decide (raw = lit "http") then Ok Http
  else if bool_decide (raw ∈ [lit "https"; lit "https_connect"; lit "http-connect"]) then Ok Https
  else if bool_decide (raw = lit "socks5_tcp") then Ok Socks5Tcp
  else if bool_decide (raw = lit "socks5_udp") then Ok Socks5Udp
  else Err (InvalidRule (lit "network_rule protocol must be one of http, https, socks5_tcp, socks5_udp (got "
                         ++ raw ++ lit ")")).

Definition as_policy_string (p : NetworkRuleProtocol) : str :=
  match p with
  | Http => lit "http"
  | Https => lit "https"
  | Socks5Tcp => lit "socks5_tcp"
  | Socks5Udp => lit "socks5_udp"
  end.

Record NetworkRule := {
  net_host : str;
  net_protocol : NetworkRuleProtocol;
  net_decision : Decision;
  net_justification : option str;
}.

Definition all_digits (s : str) : bool := negb (bool_decide (s = [])) && forallb is_ascii_digit s.

Definition c_star : char := 42%N.

(** The part of [normalize_network_rule_host] that takes off brackets and a
    port. *)
Definition strip_port {Loc} (raw host : str) : res (PolicyError Loc) str :=
  match strip_prefix (lit "[") host with
  | Some stripped =>
      match split_once 93%N stripped with
      | None => Err (InvalidRule (lit "network_rule host has an invalid bracketed IPv6 literal"))
      | Some (inside, rest) =>
          let port_ok := match strip_prefix [c_colon] rest with
                         | Some port => all_digits port
                         | None => false
                         end in
          if negb (bool_decide (rest = [])) && negb port_ok
          then Err (InvalidRule (lit "network_rule host contains an unsupported suffix: " ++ raw))
          else Ok inside
      end
  | None =>
      match rsplit_once c_colon host with
      | Some (candidate, port) =>
          if bool_decide (count_char c_colon host = 1) && negb (bool_decide (candidate = []))
             && all_digits port
          then Ok candidate else Ok host
      | None => Ok host
      end
  end.

Definition normalize_network_rule_host {Loc} (raw : str) : res (PolicyError Loc) str :=
  let host := trim raw in
  if bool_decide (host = []) then Err (InvalidRule (lit "network_rule host cannot be empty"))
  else if str_contains (lit "://") host || contains_char 47%N host || contains_char 63%N host
          || contains_char 35%N host
  then Err (InvalidRule (lit "network_rule host must be a hostname or IP literal (without scheme or path)"))
  else
    let? host := strip_port raw host in
    let normalized := to_ascii_lowercase (trim (trim_end_matches c_dot host)) in
    if bool_decide (normalized = []) then Err (InvalidRule (lit "network_rule host cannot be empty"))
    else if contains_char c_star normalized
    then Err (InvalidRule (lit "network_rule host must be a specific host; wildcards are not allowed"))
    else if existsb is_whitespace normalized
    then Err (InvalidRule (lit "network_rule host cannot contain whitespace"))
    else Ok normalized.

(** ** Executable names ([executable_name.rs]) *)

Definition WINDOWS_EXECUTABLE_SUFFIXES : list str := [lit ".exe"; lit ".cmd"; lit ".bat"; lit ".com"].

(** [executable_lookup_key]; the flag is [cfg(windows)]. *)
Definition executable_lookup_key (windows : bool) (raw : str) : str :=
  if windows then
    let raw := to_ascii_lowercase raw in
    match find (λ suffix, ends_with suffix raw) WINDOWS_EXECUTABLE_SUFFIXES with
    | Some suffix => take (length raw - length suffix) raw
    | None => raw
    end
  else raw.

(** Absolute paths of the host (package [codex-utils-absolute-path] and
    [std::path]): parsing, and the final component when it is text. *)
Class HostPaths (AP : Type) := {
  host_path_eq_dec :: EqDecision AP;
  absolute_path : str → option AP;
  path_file_name : AP → option str;
}.

Record MatchOptions := { resolve_host_executables : bool }.
Definition default_match_options : MatchOptions := {| resolve_host_executables := false |}.

(** ** Policies ([policy.rs]) *)

Inductive RuleMatch (AP : Type) :=
  | PrefixRuleMatch (matched_prefix : list str) (decision : Decision)
      (resolved_program : option AP) (justification : option str)
  | HeuristicsRuleMatch (command : list str) (decision : Decision).
Arguments PrefixRuleMatch {AP} matched_prefix decision resolved_program justification.
Arguments HeuristicsRuleMatch {AP} command decision.

Definition match_decision {AP} (m : RuleMatch AP) : Decision :=
  match m with PrefixRuleMatch _ d _ _ => d | HeuristicsRuleMatch _ d => d end.

Definition with_resolved_program {AP} (m : RuleMatch AP) (p : AP) : RuleMatch AP :=
  match m with
  | PrefixRuleMatch pre d _ j => PrefixRuleMatch pre d (Some p) j
  | other => other
  end.

(** [Rule::matches] for [PrefixRule]. *)
Definition rule_matches {AP} (r : PrefixRule) (cmd : list str) : option (RuleMatch AP) :=
  (λ pre, PrefixRuleMatch pre (rule_decision r) None (rule_justification r))
    <$> matches_prefix (pattern r) cmd.

Record Evaluation (AP : Type) := { eval_decision : Decision; matched_rules : list (RuleMatch AP) }.
Arguments eval_decision {AP} e.
Arguments matched_rules {AP} e.
Arguments Build_Evaluation {AP} _ _.

Definition is_match {AP} (e : Evaluation AP) : bool :=
  existsb (λ m, match m with HeuristicsRuleMatch _ _ => false | _ => true end) (matched_rules e).

(** [Evaluation::from_matches], which panics without matches. *)
Definition from_matches {AP} (ms : list (RuleMatch AP)) : res unit (Evaluation AP) :=
  match map match_decision ms with
  | [] => Panic
  | d :: ds => Ok (Build_Evaluation (foldl decision_max d ds) ms)
  end.

(** [MultiMap::insert]. *)
Definition multi_insert {V} (m : gmap str (list V)) (k : str) (v : V) : gmap str (list V) :=
  <[k := default [] (m !! k) ++ [v]]> m.

Section Policy.
Context {AP : Type} `{HP : !HostPaths AP} (windows : bool).

Record Policy := {
  rules_by_program : gmap str (list PrefixRule);
  network_rules : list NetworkRule;
  host_executables_by_name : gmap str (list AP);
}.

Definition executable_path_lookup_key (p : AP) : option str :=
  executable_lookup_key windows <$> path_file_name p.

Definition policy_new (rules : gmap str (list PrefixRule)) : Policy :=
  {| rules_by_program := rules; network_rules := []; host_executables_by_name := ∅ |}.
Definition policy_empty : Policy := policy_new ∅.

Definition render_pattern_token (t : PatternToken) : str :=
  match t with
  | Single value => value
  | Alts alternatives => lit "[" ++ join (lit "|") alternatives ++ lit "]"
  end.

Definition rule_prefix (r : PrefixRule) : list str :=
  pattern_first (pattern r) :: map render_pattern_token (pattern_rest (pattern r)).

Definition get_allowed_prefixes (p : Policy) : list (list str) :=
  let rules := concat (map snd (map_to_list (rules_by_program p))) in
  dedup (merge_sort strs_le_rel
           (map rule_prefix (filter (λ r, rule_decision r = Allow) rules))).

Definition add_prefix_rule {Loc} (p : Policy) (prefix : list str) (d : Decision)
    : res (PolicyError Loc) Policy :=
  match prefix with
  | [] => Err (InvalidPattern (lit "prefix cannot be empty"))
  | first_token :: rest =>
      let rule := {| pattern := {| pattern_first := first_token; pattern_rest := map Single rest |};
                     rule_decision := d; rule_justification := None |} in
      Ok {| rules_by_program := multi_insert (rules_by_program p) first_token rule;
            network_rules := network_rules p;
            host_executables_by_name := host_executables_by_name p |}
  end.

(** The check of a justification, shared with the parser and the amendment. *)
Definition blank_justification (j : option str) : bool :=
  match j with Some raw => bool_decide (trim raw = []) | None => false end.

Definition add_network_rule {Loc} (p : Policy) (host : str) (protocol : NetworkRuleProtocol)
    (d : Decision) (justification : option str) : res (PolicyError Loc) Policy :=
  let? host := normalize_network_rule_host host in
  if blank_justification justification
  then Err (InvalidRule (lit "justification cannot be empty"))
  else Ok {| rules_by_program := rules_by_program p;
             network_rules := network_rules p
               ++ [{| net_host := host; net_protocol := protocol; net_decision := d;
                      net_justification := justification |}];
             host_executables_by_name := host_executables_by_name p |}.

Definition set_host_executable_paths (p : Policy) (name : str) (paths : list AP) : Policy :=
  {| rules_by_program := rules_by_program p; network_rules := network_rules p;
     host_executables_by_name := <[name := paths]> (host_executables_by_name p) |}.

(** [merge_overlay]: the overlay's rules are inserted one by one after the
    base's; its host executables replace the base's of the same name. *)
Definition merge_overlay (p overlay : Policy) : Policy :=
  {| rules_by_program :=
       map_fold (λ program rules acc, foldl (λ acc r, multi_insert acc program r) acc rules)
         (rules_by_program p) (rules_by_program overlay);
     network_rules := network_rules p ++ network_rules overlay;
     host_executables_by_name := host_executables_by_name overlay ∪ host_executables_by_name p |}.

Definition upsert_domain (entries : list str) (host : str) : list str :=
  filter (λ e, e ≠ host) entries ++ [host].

Definition network_step (st : list str * list str) (r : NetworkRule) : list str * list str :=
  let '(allowed, denied) := st in
  match net_decision r with
  | Allow => (upsert_domain allowed (net_host r), filter (λ e, e ≠ net_host r) denied)
  | Forbidden => (filter (λ e, e ≠ net_host r) allowed, upsert_domain denied (net_host r))
  | Prompt => st
  end.

Definition compiled_network_domains (p : Policy) : list str * list str :=
  foldl network_step ([], []) (network_rules p).

Definition match_exact_rules (p : Policy) (cmd : list str) : option (list (RuleMatch AP)) :=
  match cmd with
  | [] => None
  | first :: _ =>
      Some match rules_by_program p !! first with
           | Some rules => omap (λ r, rule_matches r cmd) rules
           | None => []
           end
  end.

Definition match_host_executable_rules (p : Policy) (cmd : list str) : list (RuleMatch AP) :=
  match cmd with
  | [] => []
  | first :: args =>
      match absolute_path first with
      | None => []
      | Some program =>
          match executable_path_lookup_key program with
          | None => []
          | Some basename =>
              match rules_by_program p !! basename with
              | None => []
              | Some rules =>
                  match host_executables_by_name p !! basename with
                  | Some paths =>
                      if negb (bool_decide (program ∈ paths)) then []
                      else map (λ m, with_resolved_program m program)
                             (omap (λ r, rule_matches r (basename :: args)) rules)
                  | None => map (λ m, with_resolved_program m program)
                              (omap (λ r, rule_matches r (basename :: args)) rules)
                  end
              end
          end
      end
  end.

Definition nonempty {A} (o : option (list A)) : option (list A) :=
  match o with Some (x :: l) => Some (x :: l) | _ => None end.

Definition matches_for_command_with_options (p : Policy) (cmd : list str)
    (heuristics_fallback : option (list str → Decision)) (options : MatchOptions)
    : list (RuleMatch AP) :=
  let matched_rules :=
    match nonempty (match_exact_rules p cmd) with
    | Some ms => ms
    | None =>
        default [] (nonempty (if resolve_host_executables options
                              then Some (match_host_executable_rules p cmd) else None))
    end in
  match matched_rules, heuristics_fallback with
  | [], Some f => [HeuristicsRuleMatch cmd (f cmd)]
  | _, _ => matched_rules
  end.

Definition matches_for_command (p : Policy) (cmd : list str)
    (heuristics_fallback : option (list str → Decision)) : list (RuleMatch AP) :=
  matches_for_command_with_options p cmd heuristics_fallback default_match_options.

Definition check_with_options (p : Policy) (cmd : list str) (f : list str → Decision)
    (options : MatchOptions) : res unit (Evaluation AP) :=
  from_matches (matches_for_command_with_options p cmd (Some f) options).

Definition check (p : Policy) (cmd : list str) (f : list str → Decision) : res unit (Evaluation AP) :=
  check_with_options p cmd f default_match_options.

Definition check_multiple_with_options (p : Policy) (cmds : list (list str)) (f : list str → Decision)
    (options : MatchOptions) : res unit (Evaluation AP) :=
  from_matches (cmds ≫= λ cmd, matches_for_command_with_options p cmd (Some f) options).

Definition check_multiple (p : Policy) (cmds : list (list str)) (f : list str → Decision)
    : res unit (Evaluation AP) :=
  check_multiple_with_options p cmds f default_match_options.

End Policy.

Arguments Policy AP : clear implicits.
