(* ===== verification/ExecPolicyFacts.v ===== *)
(** * Facts about the execution policy

    What a prefix pattern matches, what a check decides and why, how the
    operations on a policy change the rules that cover a command, the list of
    allowed prefixes, the compiled network domains and the normal form of
    network hosts. *)

From stdpp Require Import gmap sorting.
From S2P Require Import Prelude RustStr RustOrd ExecPolicy.
Open Scope list_scope.

(** ** Tokens and patterns *)

Lemma token_matches_true t c : token_matches t c = true ↔ c ∈ token_alternatives t.
Proof.
  destruct t as [s|alts]; simpl.
  - rewrite bool_decide_eq_true, list_elem_of_singleton. naive_solver.
  - rewrite existsb_exists. split.
    + intros (x & Hx & ->%bool_decide_eq_true). by apply list_elem_of_In.
    + intros Hc. exists c. rewrite bool_decide_eq_true. by rewrite <- list_elem_of_In.
Qed.

(** The commands a pattern covers: its first token, then one accepted word for
    each further token. *)
Definition pattern_accepts (p : PrefixPattern) (pre : list str) : Prop :=
  ∃ args, pre = pattern_first p :: args
          ∧ Forall2 (λ t c, c ∈ token_alternatives t) (pattern_rest p) args.

Lemma pattern_accepts_length p pre :
  pattern_accepts p pre → length pre = S (length (pattern_rest p)).
Proof. intros (args & -> & H). simpl. f_equal. symmetry. by eapply Forall2_length. Qed.

Lemma forallb_zip_Forall2 (ts : list PatternToken) (cs : list str) :
  length ts = length cs →
  forallb (λ '(t, c), token_matches t c) (zip ts cs) = true
  ↔ Forall2 (λ t c, c ∈ token_alternatives t) ts cs.
Proof.
  revert cs. induction ts as [|t ts IH]; intros [|c cs] Hl; try discriminate Hl; cbn.
  - split; [constructor|done].
  - rewrite andb_true_iff, token_matches_true, IH by (simpl in Hl; lia).
    split; [intros []; by constructor|]. by inversion 1.
Qed.

Lemma matches_prefix_Some p cmd pre :
  matches_prefix p cmd = Some pre ↔ pattern_accepts p pre ∧ pre `prefix_of` cmd.
Proof.
  unfold matches_prefix. destruct cmd as [|first args].
  { split; [done|]. intros [(a & -> & _) [k Hk]]. discriminate Hk. }
  rewrite Nat.add_sub. set (n := length (pattern_rest p)).
  replace (n + 1) with (S n) by lia. cbn [length take].
  split.
  - destruct (_ || _) eqn:E; [done|]. apply orb_false_iff in E as [E1 E2]. bdec. subst first.
    destruct (forallb _ _) eqn:F; [|done]. intros [= <-].
    apply forallb_zip_Forall2 in F; [|rewrite length_take; subst n; lia].
    split; [by exists (take n args)|]. exists (drop n args). simpl. by rewrite take_drop.
  - intros [(a & -> & Ha) [k Hk]]. injection Hk as -> ->.
    assert (Hl : n = length a) by (subst n; by eapply Forall2_length).
    rewrite take_app_length' by done.
    rewrite bool_decide_eq_false_2 by (rewrite length_app; lia).
    rewrite bool_decide_eq_true_2 by done. simpl.
    rewrite (proj2 (forallb_zip_Forall2 _ _ ltac:(done))) by done. done.
Qed.

(** A pattern matches at most one prefix of a command, and a longer command
    still matches. *)
Lemma matches_prefix_app p cmd more pre :
  matches_prefix p cmd = Some pre → matches_prefix p (cmd ++ more) = Some pre.
Proof.
  rewrite !matches_prefix_Some. intros [H Hp]. split; [done|]. by apply prefix_app_r.
Qed.

(** ** Decisions *)

Lemma severity_inj a b : severity a = severity b → a = b.
Proof. by destruct a, b. Qed.

Lemma decision_max_cases a b :
  (decision_max a b = a ∧ severity b ≤ severity a) ∨ (decision_max a b = b ∧ severity a ≤ severity b).
Proof.
  unfold decision_max. destruct (Nat.leb_spec (severity a) (severity b)); [right|left]; split; lia || done.
Qed.

Lemma foldl_decision_max ds d :
  foldl decision_max d ds ∈ d :: ds
  ∧ Forall (λ x, severity x ≤ severity (foldl decision_max d ds)) (d :: ds).
Proof.
  revert d. induction ds as [|x ds IH]; intros d; simpl.
  { split; [set_solver|]. repeat constructor. }
  destruct (IH (decision_max d x)) as [Hin Hall]. inversion_clear Hall as [|?? Hd Hds].
  destruct (decision_max_cases d x) as [[E Hle]|[E Hle]]; rewrite E in *.
  - split; [set_solver|]. repeat constructor; [done|lia|done].
  - split; [set_solver|]. repeat constructor; [lia|done|done].
Qed.

(** [d] is the strictest decision of the list [ds]. *)
Definition strictest (d : Decision) (ds : list Decision) : Prop :=
  d ∈ ds ∧ Forall (λ x, severity x ≤ severity d) ds.

Lemma strictest_unique d d' ds : strictest d ds → strictest d' ds → d = d'.
Proof.
  intros [H1 H2] [H1' H2']. rewrite Forall_forall in H2, H2'.
  apply severity_inj. specialize (H2 _ H1'). specialize (H2' _ H1). lia.
Qed.

Lemma strictest_app a b l k :
  strictest a l → strictest b k → strictest (decision_max a b) (l ++ k).
Proof.
  unfold strictest. rewrite elem_of_app, Forall_app. intros [Ha Hl] [Hb Hk].
  destruct (decision_max_cases a b) as [[-> ?]|[-> ?]]; (split; [tauto|split]); try done;
    eapply Forall_impl; try done; simpl; intros; lia.
Qed.

Lemma from_matches_ok {AP} (ms : list (RuleMatch AP)) :
  ms ≠ [] → ∃ d, from_matches ms = Ok (Build_Evaluation d ms) ∧ strictest d (map match_decision ms).
Proof.
  intros H. unfold from_matches. destruct ms as [|m ms]; [done|]. simpl.
  eexists. split; [done|]. apply foldl_decision_max.
Qed.

Lemma from_matches_Ok_inv {AP} (ms : list (RuleMatch AP)) e :
  from_matches ms = Ok e → matched_rules e = ms ∧ strictest (eval_decision e) (map match_decision ms).
Proof.
  intros H. destruct ms as [|m ms]; [done|].
  destruct (from_matches_ok (m :: ms)) as (d & E & Hd); [done|].
  rewrite H in E. by injection E as ->.
Qed.

(** ** The multimap *)

Lemma multi_insert_eq {V} (m : gmap str (list V)) k v :
  multi_insert m k v !! k = Some (default [] (m !! k) ++ [v]).
Proof. apply lookup_insert_eq. Qed.

Lemma multi_insert_ne {V} (m : gmap str (list V)) k k' v :
  k ≠ k' → multi_insert m k v !! k' = m !! k'.
Proof. apply lookup_insert_ne. Qed.

Definition rules_at {V} (m : gmap str (list V)) (k : str) : list V := default [] (m !! k).

Lemma rules_at_insert {V} (m : gmap str (list V)) k k' v :
  rules_at (multi_insert m k v) k' = rules_at m k' ++ (if decide (k = k') then [v] else []).
Proof.
  unfold rules_at. destruct (decide (k = k')) as [->|Hne].
  - by rewrite multi_insert_eq.
  - by rewrite multi_insert_ne, app_nil_r.
Qed.

Lemma rules_at_inserts {V} (m : gmap str (list V)) k k' vs :
  rules_at (foldl (λ acc v, multi_insert acc k v) m vs) k'
  = rules_at m k' ++ (if decide (k = k') then vs else []).
Proof.
  revert m. induction vs as [|v vs IH]; intros m; simpl.
  - destruct (decide _); by rewrite app_nil_r.
  - rewrite IH, rules_at_insert, <- app_assoc. by destruct (decide _).
Qed.

Lemma rules_at_merge {V} (m o : gmap str (list V)) k :
  rules_at (map_fold (λ k vs acc, foldl (λ acc v, multi_insert acc k v) acc vs) m o) k
  = rules_at m k ++ rules_at o k.
Proof.
  induction o as [|k' vs o Ho Hf IH] using map_first_key_ind.
  - rewrite map_fold_empty. unfold rules_at at 3. by rewrite lookup_empty, app_nil_r.
  - rewrite map_fold_insert_first_key by done. rewrite rules_at_inserts, IH, <- app_assoc. f_equal.
    unfold rules_at. destruct (decide (k' = k)) as [->|Hne].
    + by rewrite lookup_insert_eq, Ho.
    + by rewrite lookup_insert_ne, app_nil_r by done.
Qed.

(** ** What covers a command *)

Section Check.
Context {AP : Type} `{HP : !HostPaths AP} (windows : bool).
Implicit Types (p o : Policy AP) (r : PrefixRule) (cmd : list str) (f : list str → Decision).

(** A rule of the policy, kept under the command's first word, whose pattern
    accepts a prefix of the command. *)
Definition covers p r cmd : Prop :=
  ∃ first args, cmd = first :: args ∧ r ∈ rules_at (rules_by_program p) first
                ∧ ∃ pre, pattern_accepts (pattern r) pre ∧ pre `prefix_of` cmd.

Lemma match_exact_rules_alt p first args :
  match_exact_rules p (first :: args)
  = Some (omap (λ r, rule_matches r (first :: args)) (rules_at (rules_by_program p) first)).
Proof. simpl. unfold rules_at. by destruct (rules_by_program p !! first). Qed.

Lemma rule_matches_Some r cmd (m : RuleMatch AP) :
  rule_matches r cmd = Some m ↔
  ∃ pre, pattern_accepts (pattern r) pre ∧ pre `prefix_of` cmd
         ∧ m = PrefixRuleMatch pre (rule_decision r) None (rule_justification r).
Proof.
  unfold rule_matches. rewrite fmap_Some. setoid_rewrite matches_prefix_Some. naive_solver.
Qed.

(** The exact matches are those of the covering rules, in their order. *)
Lemma exact_matches p cmd ms m :
  match_exact_rules p cmd = Some ms →
  m ∈ ms ↔ ∃ r pre, covers p r cmd ∧ pattern_accepts (pattern r) pre ∧ pre `prefix_of` cmd
                   ∧ m = PrefixRuleMatch pre (rule_decision r) None (rule_justification r).
Proof.
  destruct cmd as [|first args]; [done|]. rewrite match_exact_rules_alt. intros [= <-].
  rewrite list_elem_of_omap. setoid_rewrite rule_matches_Some. unfold covers. split.
  - intros (r & Hr & pre & Ha & Hp & ->). exists r, pre. repeat split; [|done..].
    exists first, args. eauto.
  - intros (r & pre & (? & ? & [= <- <-] & Hr & _) & Ha & Hp & ->). exists r. naive_solver.
Qed.

Lemma exact_decisions p cmd ms d :
  match_exact_rules p cmd = Some ms →
  d ∈ map match_decision ms ↔ ∃ r, covers p r cmd ∧ rule_decision r = d.
Proof.
  intros H. rewrite list_elem_of_fmap. setoid_rewrite (exact_matches p cmd ms); [|done]. split.
  - intros (m & -> & r & pre & Hc & _ & _ & ->). by exists r.
  - intros (r & Hc & <-). destruct Hc as (first & args & -> & Hr & pre & Ha & Hp).
    eexists. split; [|exists r, pre; repeat split; [exists first, args; eauto|done..]]. done.
Qed.

Lemma covers_nil p r : ¬ covers p r [].
Proof. by intros (? & ? & ? & _). Qed.

Lemma no_exact_match p cmd :
  nonempty (match_exact_rules p cmd) = None ↔ ∀ r, ¬ covers p r cmd.
Proof.
  destruct cmd as [|first args].
  { split; [intros _ r; apply covers_nil|done]. }
  destruct (match_exact_rules p (first :: args)) as [ms|] eqn:E; [|by rewrite match_exact_rules_alt in E].
  destruct ms as [|m ms]; simpl.
  - split; [|done]. intros _ r Hr.
    assert (H : rule_decision r ∈ map match_decision (@nil (RuleMatch AP))).
    { apply (exact_decisions p (first :: args)); [done|]. by exists r. }
    by apply not_elem_of_nil in H.
  - split; [done|]. intros H. exfalso.
    assert (Hm : match_decision m ∈ map match_decision (m :: ms)) by (simpl; set_solver).
    apply (exact_decisions p (first :: args) _ _ E) in Hm as (r & Hr & _). by apply (H r).
Qed.

Lemma nonempty_Some {A} (o : option (list A)) l : nonempty o = Some l ↔ o = Some l ∧ l ≠ [].
Proof. destruct o as [[|x l']|]; simpl; naive_solver. Qed.

Lemma nonempty_None {A} (o : option (list A)) : nonempty o = None ↔ o = None ∨ o = Some [].
Proof. destruct o as [[|x l']|]; simpl; naive_solver. Qed.

(** The matches of a command: the exact ones when there are some, otherwise
    those of its resolved program when asked for, otherwise the heuristics. *)
Lemma matches_cases p cmd fb options :
  let ms := matches_for_command_with_options windows p cmd fb options in
  (match_exact_rules p cmd = Some ms ∧ ms ≠ [])
  ∨ ((∀ r, ¬ covers p r cmd) ∧ resolve_host_executables options = true
     ∧ ms = match_host_executable_rules windows p cmd ∧ ms ≠ [])
  ∨ ((∀ r, ¬ covers p r cmd)
     ∧ (resolve_host_executables options = false ∨ match_host_executable_rules windows p cmd = [])
     ∧ ms = match fb with Some f => [HeuristicsRuleMatch cmd (f cmd)] | None => [] end).
Proof.
  unfold matches_for_command_with_options.
  destruct (nonempty (match_exact_rules p cmd)) as [ms|] eqn:E; cbn zeta.
  - apply nonempty_Some in E as [E Hne]. left. destruct ms; [done|]. done.
  - rewrite no_exact_match in E. right.
    destruct (nonempty (if resolve_host_executables options then _ else _)) as [ms|] eqn:E2; simpl.
    + apply nonempty_Some in E2 as [E2 Hne]. left.
      destruct (resolve_host_executables options); [|done]. injection E2 as E2.
      destruct ms; [done|]. done.
    + apply nonempty_None in E2. right. split; [done|]. split.
      * destruct (resolve_host_executables options); [right|by left]. naive_solver.
      * by destruct fb.
Qed.

(** The matches of the rules of a resolved program. *)
Lemma elem_of_host_matches p cmd m :
  m ∈ match_host_executable_rules windows p cmd ↔
  ∃ first args program basename r pre,
    cmd = first :: args ∧ absolute_path first = Some program
    ∧ executable_path_lookup_key windows program = Some basename
    ∧ (∀ paths, host_executables_by_name p !! basename = Some paths → program ∈ paths)
    ∧ r ∈ rules_at (rules_by_program p) basename
    ∧ pattern_accepts (pattern r) pre ∧ pre `prefix_of` (basename :: args)
    ∧ m = PrefixRuleMatch pre (rule_decision r) (Some program) (rule_justification r).
Proof.
  unfold match_host_executable_rules. destruct cmd as [|first args].
  { split; [by intros ?%not_elem_of_nil|]. by intros (? & ? & ? & ? & ? & ? & ? & _). }
  destruct (absolute_path first) as [program|] eqn:Ea.
  2: { split; [by intros ?%not_elem_of_nil|].
       intros (? & ? & ? & ? & ? & ? & [= <- <-] & ? & _). congruence. }
  destruct (executable_path_lookup_key windows program) as [basename|] eqn:Eb.
  2: { split; [by intros ?%not_elem_of_nil|].
       intros (? & ? & ? & ? & ? & ? & [= <- <-] & ? & ? & _). congruence. }
  set (found := map (λ m, with_resolved_program m program)
    (omap (λ r, rule_matches r (basename :: args)) (rules_at (rules_by_program p) basename))).
  assert (Hf : m ∈ found ↔ ∃ r pre, r ∈ rules_at (rules_by_program p) basename
      ∧ pattern_accepts (pattern r) pre ∧ pre `prefix_of` (basename :: args)
      ∧ m = PrefixRuleMatch pre (rule_decision r) (Some program) (rule_justification r)).
  { unfold found. rewrite list_elem_of_fmap. setoid_rewrite list_elem_of_omap.
    setoid_rewrite rule_matches_Some. split.
    - intros (? & -> & r & Hr & pre & ? & ? & ->). by exists r, pre.
    - intros (r & pre & ? & ? & ? & ->). eexists. split; [|by exists r; eauto]. done. }
  trans (m ∈ found ∧ ∀ paths, host_executables_by_name p !! basename = Some paths → program ∈ paths).
  - unfold found, rules_at. destruct (rules_by_program p !! basename) as [rules|]; simpl;
      [|split; [by intros ?%not_elem_of_nil|by intros [?%not_elem_of_nil _]]].
    destruct (host_executables_by_name p !! basename) as [paths|]; [|naive_solver].
    destruct (bool_decide_reflect (program ∈ paths)); simpl; [naive_solver|].
    split; [by intros ?%not_elem_of_nil|]. intros [_ H]. by specialize (H _ eq_refl).
  - rewrite Hf. split.
    + intros ((r & pre & ?) & ?). exists first, args, program, basename, r, pre. naive_solver.
    + intros (? & ? & program' & basename' & r & pre & [= <- <-] & Ea' & Eb' & ? & ?).
      assert (program' = program) as -> by congruence. assert (basename' = basename) as -> by congruence.
      eauto.
Qed.

Lemma matches_nonempty p cmd f options :
  matches_for_command_with_options windows p cmd (Some f) options ≠ [].
Proof.
  destruct (matches_cases p cmd (Some f) options) as [[_ ?]|[(_ & _ & _ & ?)|(_ & _ & ->)]]; done.
Qed.

Lemma check_total p cmd f options :
  ∃ e, check_with_options windows p cmd f options = Ok e
       ∧ matched_rules e = matches_for_command_with_options windows p cmd (Some f) options
       ∧ strictest (eval_decision e) (map match_decision (matched_rules e)).
Proof.
  unfold check_with_options.
  destruct (from_matches_ok _ (matches_nonempty p cmd f options)) as (d & E & Hd).
  eexists. split; [exact E|]. done.
Qed.

(** Of several commands each one is checked, and the strictest decision of
    all counts; without commands there is nothing to decide. *)
Lemma strictest_concat (dss : list (list Decision)) (ds : list Decision) d :
  Forall2 strictest ds dss → strictest d (mjoin dss) → strictest d ds.
Proof.
  intros H [Hin Hall]. rewrite Forall_forall in Hall. split.
  - apply list_elem_of_join in Hin as (l & Hd & Hl).
    apply list_elem_of_lookup in Hl as [i Hi].
    destruct (Forall2_lookup_r _ _ _ _ _ H Hi) as (d' & Hd' & Hin' & Hle).
    assert (d' = d) as <-; [|by eapply list_elem_of_lookup_2].
    rewrite Forall_forall in Hle. apply severity_inj.
    enough (severity d' ≤ severity d) by (specialize (Hle _ Hd); lia).
    apply Hall, list_elem_of_join. exists l. split; [done|]. by eapply list_elem_of_lookup_2.
  - apply Forall_forall. intros d' Hd'. apply list_elem_of_lookup in Hd' as [i Hi].
    destruct (Forall2_lookup_l _ _ _ _ _ H Hi) as (l & Hl & Hin' & _).
    apply Hall, list_elem_of_join. exists l. split; [done|]. by eapply list_elem_of_lookup_2.
Qed.

(** Coverage under the operations on policies. *)
Lemma covers_merge p o r cmd : covers (merge_overlay p o) r cmd ↔ covers p r cmd ∨ covers o r cmd.
Proof.
  unfold covers. simpl. setoid_rewrite rules_at_merge. setoid_rewrite elem_of_app. naive_solver.
Qed.

Definition literal_rule (first : str) (rest : list str) (d : Decision) : PrefixRule :=
  {| pattern := {| pattern_first := first; pattern_rest := map Single rest |};
     rule_decision := d; rule_justification := None |}.

Lemma literal_accepts first rest d pre :
  pattern_accepts (pattern (literal_rule first rest d)) pre ↔ pre = first :: rest.
Proof.
  unfold pattern_accepts. simpl. split.
  - intros (args & -> & H). f_equal. apply Forall2_fmap_l in H.
    induction H as [|x y l k Hx _ IH]; [done|]. simpl in Hx.
    apply list_elem_of_singleton in Hx. by subst.
  - intros ->. exists rest. split; [done|]. apply Forall2_fmap_l.
    induction rest; constructor; [|done]. simpl. by apply list_elem_of_singleton.
Qed.

(** The evaluation of a policy in terms of the rules that cover the command. *)
Definition evaluates p cmd f (e : Evaluation AP) : Prop :=
  (∀ r, covers p r cmd → severity (rule_decision r) ≤ severity (eval_decision e))
  ∧ ((∃ r, covers p r cmd ∧ eval_decision e = rule_decision r ∧ is_match e = true)
     ∨ ((∀ r, ¬ covers p r cmd) ∧ eval_decision e = f cmd ∧ is_match e = false)).

Lemma exact_is_match p cmd ms d :
  match_exact_rules p cmd = Some ms → is_match (Build_Evaluation d ms) = bool_decide (ms ≠ []).
Proof.
  intros E. unfold is_match. simpl. destruct ms as [|m ms]; [done|]. simpl.
  assert (H : m ∈ m :: ms) by set_solver.
  apply (exact_matches p cmd _ _ E) in H as (r & pre & _ & _ & _ & ->). done.
Qed.

Lemma check_evaluates p cmd f : ∃ e, check windows p cmd f = Ok e ∧ evaluates p cmd f e.
Proof.
  unfold check. destruct (check_total p cmd f default_match_options) as ([d ms] & E & Hms & Hd).
  exists (Build_Evaluation d ms). split; [done|]. simpl in Hms, Hd. subst ms.
  destruct (matches_cases p cmd (Some f) default_match_options) as [[Hex Hne]|[(_ & ? & _)|(Hno & _ & Hh)]];
    [|done|].
  - destruct Hd as [Hin Hall]. rewrite Forall_forall in Hall. split.
    + intros r Hr. apply Hall, (exact_decisions p cmd _ _ Hex). by exists r.
    + left. apply (exact_decisions p cmd _ _ Hex) in Hin as (r & Hr & <-).
      exists r. split_and!; [done..|]. rewrite (exact_is_match p cmd) by done.
      by apply bool_decide_eq_true.
  - rewrite Hh in *. destruct Hd as [Hin _]. simpl in Hin. apply list_elem_of_singleton in Hin as ->.
    split; [intros r Hr; by apply Hno in Hr|]. right. done.
Qed.

(** The exact matches as a list, and what a check makes of them. *)
Definition exact_rules p cmd : list (RuleMatch AP) := default [] (match_exact_rules p cmd).

Lemma exact_rules_merge p o cmd :
  exact_rules (merge_overlay p o) cmd = exact_rules p cmd ++ exact_rules o cmd.
Proof.
  unfold exact_rules. destruct cmd as [|first args]; [done|]. rewrite !match_exact_rules_alt. simpl.
  by rewrite rules_at_merge, omap_app.
Qed.

Lemma check_exact p cmd f e :
  check windows p cmd f = Ok e →
  (exact_rules p cmd ≠ [] ∧ strictest (eval_decision e) (map match_decision (exact_rules p cmd))
     ∧ is_match e = true)
  ∨ (exact_rules p cmd = [] ∧ eval_decision e = f cmd ∧ is_match e = false).
Proof.
  unfold check. intros H. destruct (check_total p cmd f default_match_options) as (e' & E & Hms & Hd).
  rewrite H in E. injection E as <-. destruct e as [d ms]. simpl in *. subst ms.
  destruct (matches_cases p cmd (Some f) default_match_options) as [[Hex Hne]|[(_ & ? & _)|(Hno & _ & Hh)]];
    [|done|].
  - left. unfold exact_rules. rewrite Hex. simpl. split_and!; [done..|].
    rewrite (exact_is_match p cmd) by done. by apply bool_decide_eq_true.
  - right. rewrite Hh in *. destruct Hd as [Hin _]. simpl in Hin. apply list_elem_of_singleton in Hin as ->.
    split_and!; [|done..]. unfold exact_rules. apply no_exact_match in Hno.
    apply nonempty_None in Hno as [->| ->]; done.
Qed.

Lemma evaluates_inv p cmd f e : check windows p cmd f = Ok e → evaluates p cmd f e.
Proof.
  intros H. destruct (check_evaluates p cmd f) as (e' & E & He'). rewrite H in E.
  by injection E as ->.
Qed.

Lemma evaluates_match p cmd f e :
  evaluates p cmd f e → is_match e = true ↔ ∃ r, covers p r cmd.
Proof. intros [_ [(r & ? & ? & ->)|(H & ? & ->)]]; naive_solver. Qed.

End Check.

(** ** What a check decides *)

Section Theorems.
Context {AP : Type} `{HP : !HostPaths AP} (windows : bool).
Implicit Types (p o : Policy AP) (r : PrefixRule) (cmd : list str) (f : list str → Decision).

(** A check never fails: a command covered by rules of the policy gets the
    strictest of their decisions, and only a command no rule covers gets the
    decision of the heuristics. *)
Theorem check_decides p cmd f :
  ∃ e, check windows p cmd f = Ok e
    ∧ (∀ r, covers p r cmd → severity (rule_decision r) ≤ severity (eval_decision e))
    ∧ ((∃ r, covers p r cmd ∧ eval_decision e = rule_decision r ∧ is_match e = true)
       ∨ ((∀ r, ¬ covers p r cmd) ∧ eval_decision e = f cmd ∧ is_match e = false)).
Proof. apply check_evaluates. Qed.

(** Checking several commands checks each of them: the matches are theirs
    in order and the decision is the strictest of theirs. It panics exactly
    when there is no command. *)
Theorem check_multiple_aggregates p cmds f options :
  match check_multiple_with_options windows p cmds f options with
  | Ok e =>
      cmds ≠ [] ∧
      ∃ es, Forall2 (λ cmd e, check_with_options windows p cmd f options = Ok e) cmds es
            ∧ matched_rules e = es ≫= matched_rules
            ∧ strictest (eval_decision e) (map eval_decision es)
  | Err _ => False
  | Panic => cmds = []
  end.
Proof.
  unfold check_multiple_with_options.
  set (M cmd := matches_for_command_with_options windows p cmd (Some f) options).
  destruct cmds as [|cmd0 cmds0]; [done|]. remember (cmd0 :: cmds0) as cmds eqn:Ec.
  destruct (from_matches_ok (cmds ≫= M)) as (d & E & Hd).
  { subst cmds. cbn. intros H. apply app_nil in H as [H _]. by apply matches_nonempty in H. }
  rewrite E. split; [by subst|]. clear Ec cmd0 cmds0.
  assert (∃ es, Forall2 (λ cmd e, check_with_options windows p cmd f options = Ok e) cmds es
      ∧ cmds ≫= M = es ≫= matched_rules
      ∧ Forall2 strictest (map eval_decision es) (map (map match_decision ∘ matched_rules) es))
    as (es & Hes & Hm & Hs).
  { clear E Hd. induction cmds as [|cmd cmds (es & Hes & Hm & Hs)]; [by exists []|].
    destruct (check_total windows p cmd f options) as (e & He & Hme & Hde).
    exists (e :: es). split_and!; [by constructor| |by constructor].
    cbn. by rewrite Hm, Hme. }
  exists es. split_and!; [done..|]. simpl.
  apply strictest_concat with (map (map match_decision ∘ matched_rules) es); [done|].
  rewrite Hm in Hd. clear -Hd. replace (mjoin _) with (map match_decision (es ≫= matched_rules)); [done|].
  clear Hd. induction es as [|e es IH]; [done|]. cbn. rewrite map_app. f_equal. apply IH.
Qed.

(** An overlay can add decisions but never relax one: under the merged
    policy a command is decided by the strictest of what the two policies
    decide by rules, and by the heuristics only when neither has a rule for
    it. Network rules are appended and host executables of the overlay
    replace those of the same name. *)
Theorem merge_overlay_strictest p o cmd f ep eo em :
  check windows p cmd f = Ok ep → check windows o cmd f = Ok eo →
  check windows (merge_overlay p o) cmd f = Ok em →
  is_match em = is_match ep || is_match eo
  ∧ eval_decision em = (if is_match ep then
                          if is_match eo then decision_max (eval_decision ep) (eval_decision eo)
                          else eval_decision ep
                        else eval_decision eo)
  ∧ network_rules (merge_overlay p o) = network_rules p ++ network_rules o
  ∧ ∀ name, host_executables_by_name (merge_overlay p o) !! name
            = match host_executables_by_name o !! name with
              | Some paths => Some paths
              | None => host_executables_by_name p !! name
              end.
Proof.
  intros Hp%check_exact Ho%check_exact Hm%check_exact. rewrite exact_rules_merge in Hm.
  split_and!; [| |done|].
  - destruct Hp as [(? & _ & ->)|(Ep & _ & ->)], Ho as [(? & _ & ->)|(Eo & _ & ->)],
      Hm as [(Hne & _ & ->)|(Em & _ & ->)]; try done; try by apply app_nil in Em as [? ?].
    by rewrite Ep, Eo in Hne.
  - destruct Hm as [(_ & Sm & _)|([Ep' Eo']%app_nil & Dm & _)];
      destruct Hp as [(? & Sp & Ip)|(Ep & Dp & Ip)], Ho as [(? & So & Io)|(Eo & Do & Io)];
      rewrite ?Ip, ?Io; try congruence; rewrite ?Ep, ?Eo, ?app_nil_r in Sm;
      try by destruct Sm as [?%not_elem_of_nil].
    + rewrite map_app in Sm. eapply strictest_unique; [done|]. by apply strictest_app.
    + by eapply strictest_unique.
    + by eapply strictest_unique.
  - intros name. simpl. rewrite lookup_union. destruct (host_executables_by_name o !! name), (host_executables_by_name p !! name); done.
Qed.

(** Adding a prefix rule makes exactly the commands that start with the
    prefix covered by the new rule, and leaves every other coverage as it is;
    only the empty prefix is refused. *)
Theorem add_prefix_rule_covers {Loc} p prefix d :
  match add_prefix_rule (Loc := Loc) p prefix d with
  | Ok p' =>
      (∃ first rest, prefix = first :: rest
        ∧ ∀ r cmd, covers p' r cmd ↔
            covers p r cmd ∨ (r = literal_rule first rest d ∧ prefix `prefix_of` cmd))
      ∧ network_rules p' = network_rules p
      ∧ host_executables_by_name p' = host_executables_by_name p
  | Err e => prefix = [] ∧ e = InvalidPattern (lit "prefix cannot be empty")
  | Panic => False
  end.
Proof.
  destruct prefix as [|first rest]; simpl; [done|]. split; [|done].
  exists first, rest. split; [done|]. intros r cmd. unfold covers. simpl.
  setoid_rewrite rules_at_insert. setoid_rewrite elem_of_app. split.
  - intros (c & args & -> & [Hr|Hr] & pre & Ha & Hp); [left; naive_solver|].
    destruct (decide (first = c)); [|by apply not_elem_of_nil in Hr].
    apply list_elem_of_singleton in Hr as ->. right. split; [done|].
    apply literal_accepts in Ha as ->. done.
  - intros [(c & args & -> & Hr & H)|(-> & [k ->])].
    + exists c, args. eauto.
    + exists first, (rest ++ k). split_and!; [done| |].
      * right. rewrite decide_True by done. apply list_elem_of_singleton. done.
      * exists (first :: rest). split; [by apply literal_accepts|by exists k].
Qed.

(** A command given by absolute path is matched against the rules of its
    basename only when this is asked for, no rule covers the command itself,
    and the path is one of those listed for the basename, if any are listed;
    every such match names the path and comes from a rule that covers the
    command with the basename as its first word. *)
Theorem host_match_listed p cmd fb options m program :
  m ∈ matches_for_command_with_options windows p cmd fb options →
  (∃ pre d j, m = PrefixRuleMatch pre d (Some program) j) →
  resolve_host_executables options = true
  ∧ (∀ r, ¬ covers p r cmd)
  ∧ ∃ first args basename r,
      cmd = first :: args ∧ absolute_path first = Some program
      ∧ executable_path_lookup_key windows program = Some basename
      ∧ (∀ paths, host_executables_by_name p !! basename = Some paths → program ∈ paths)
      ∧ covers p r (basename :: args) ∧ match_decision m = rule_decision r.
Proof.
  intros Hm (pre & d & j & ->).
  destruct (matches_cases windows p cmd fb options) as [[E _]|[(Hno & Hres & E & _)|(_ & _ & E)]].
  - apply (exact_matches p cmd _ _ E) in Hm as (r & pre' & _ & _ & _ & [=]).
  - split; [done|]. split; [done|]. rewrite E in Hm.
    apply elem_of_host_matches in Hm as (first & args & program' & basename & r & pre' & -> & Ea & Eb & Hl & Hr & Ha & Hp & [= -> -> -> ->]).
    exists first, args, basename, r. split_and!; [done..| |done]. exists basename, args. eauto.
  - rewrite E in Hm. destruct fb; [|by apply not_elem_of_nil in Hm].
    apply list_elem_of_singleton in Hm as [=].
Qed.

End Theorems.

(** ** The compiled network domains *)

Section Network.
Context {AP : Type}.
Implicit Types (p : Policy AP) (h : str).

(** The decision that counts for a host: that of its last rule that does not
    say [Prompt]. *)
Fixpoint last_verdict (rules : list NetworkRule) h : option Decision :=
  match rules with
  | [] => None
  | r :: rules =>
      match last_verdict rules h with
      | Some d => Some d
      | None => if bool_decide (net_host r = h) && negb (bool_decide (net_decision r = Prompt))
                then Some (net_decision r) else None
      end
  end.

Lemma last_verdict_snoc rules r h :
  last_verdict (rules ++ [r]) h
  = if bool_decide (net_host r = h) && negb (bool_decide (net_decision r = Prompt))
    then Some (net_decision r) else last_verdict rules h.
Proof.
  induction rules as [|r' rules IH]; simpl; [done|]. rewrite IH.
  by destruct (bool_decide (net_host r = h) && _).
Qed.

Lemma elem_of_upsert e l h : e ∈ upsert_domain l h ↔ e = h ∨ e ∈ l.
Proof.
  unfold upsert_domain. rewrite elem_of_app, list_elem_of_filter, list_elem_of_singleton.
  destruct (decide (e = h)); naive_solver.
Qed.

Lemma NoDup_upsert l h : NoDup l → NoDup (upsert_domain l h).
Proof.
  intros H. apply NoDup_app. split_and!.
  - by apply NoDup_filter.
  - intros e He ->%list_elem_of_singleton. apply list_elem_of_filter in He. naive_solver.
  - apply NoDup_singleton.
Qed.

Lemma network_fold rules :
  let '(allowed, denied) := foldl network_step ([], []) rules in
  NoDup allowed ∧ NoDup denied
  ∧ ∀ h, (h ∈ allowed ↔ last_verdict rules h = Some Allow)
         ∧ (h ∈ denied ↔ last_verdict rules h = Some Forbidden).
Proof.
  induction rules as [|r rules IH] using rev_ind; simpl.
  { split_and!; [apply NoDup_nil_2..|]. intros h. rewrite elem_of_nil. naive_solver. }
  rewrite foldl_app. simpl. destruct (foldl network_step ([], []) rules) as [allowed denied].
  destruct IH as (Ha & Hd & IH). unfold network_step.
  destruct (net_decision r) eqn:Er; (split_and!; [by auto using NoDup_upsert, NoDup_filter..|]);
    intros h; specialize (IH h) as [IHa IHd]; rewrite last_verdict_snoc, Er; simpl;
    rewrite ?elem_of_upsert, ?list_elem_of_filter; case_bool_decide; naive_solver.
Qed.

(** The compiled domains are two lists without duplicates in which a host
    is allowed, or denied, exactly when the last rule for it that does not
    prompt allows, or forbids, it; so no host is in both. *)
Theorem compiled_domains_last_rule p :
  let '(allowed, denied) := compiled_network_domains p in
  NoDup allowed ∧ NoDup denied
  ∧ (∀ h, h ∈ allowed ↔ last_verdict (network_rules p) h = Some Allow)
  ∧ (∀ h, h ∈ denied ↔ last_verdict (network_rules p) h = Some Forbidden)
  ∧ (∀ h, ¬ (h ∈ allowed ∧ h ∈ denied)).
Proof.
  pose proof (network_fold (network_rules p)) as H. unfold compiled_network_domains.
  destruct (foldl _ _ _) as [allowed denied]. destruct H as (Ha & Hd & H).
  split_and!; [done|done|apply H|apply H|]. intros h [H1 H2]. apply H in H1, H2. congruence.
Qed.

End Network.

(** The allowed prefixes are sorted without duplicates, and they are
    exactly the renderings of the policy's rules that allow, whatever the order
    in which the map is traversed. *)
Theorem allowed_prefixes_sorted {AP} (p : Policy AP) :
  StronglySorted (λ a b, strs_le_rel a b ∧ a ≠ b) (get_allowed_prefixes p)
  ∧ ∀ prefix, prefix ∈ get_allowed_prefixes p ↔
      ∃ program r, r ∈ rules_at (rules_by_program p) program
                   ∧ rule_decision r = Allow ∧ prefix = rule_prefix r.
Proof.
  unfold get_allowed_prefixes. split.
  - apply dedup_sorted; [apply _|]. apply (StronglySorted_merge_sort strs_le_rel).
  - intros prefix. rewrite elem_of_dedup, merge_sort_Permutation, list_elem_of_fmap.
    setoid_rewrite list_elem_of_filter. split.
    + intros (r & -> & Hd & Hr). apply list_elem_of_In, in_concat in Hr as (rules & Hin & Hr).
      apply list_elem_of_In in Hin, Hr. apply list_elem_of_fmap in Hin as ([program rules'] & -> & Hin).
      simpl in Hr. apply elem_of_map_to_list in Hin. exists program, r. unfold rules_at. by rewrite Hin.
    + intros (program & r & Hr & Hd & ->). exists r. split_and!; [done..|].
      unfold rules_at in Hr. destruct (rules_by_program p !! program) as [rules|] eqn:E;
        [|by apply not_elem_of_nil in Hr].
      apply list_elem_of_In, in_concat. exists rules. rewrite <- !list_elem_of_In. split; [|done].
      apply list_elem_of_fmap. exists (program, rules). split; [done|]. by apply elem_of_map_to_list.
Qed.

(** ** The normal form of network hosts *)

Lemma forallb_true_Forall {A} (f : A → bool) l : forallb f l = true ↔ Forall (λ x, f x = true) l.
Proof. rewrite forallb_forall, Forall_forall. by setoid_rewrite list_elem_of_In. Qed.

Lemma contains_char_true c s : contains_char c s = true ↔ c ∈ s.
Proof.
  unfold contains_char. rewrite existsb_exists. setoid_rewrite <- list_elem_of_In.
  setoid_rewrite N.eqb_eq. naive_solver.
Qed.

Lemma contains_char_false c s : contains_char c s = false ↔ c ∉ s.
Proof. rewrite <- not_true_iff_false, contains_char_true. done. Qed.

Lemma str_contains_elem p s c : str_contains p s = true → c ∈ p → c ∈ s.
Proof.
  unfold str_contains. destruct (str_find p s) as [i|] eqn:E; [|done]. intros _ Hc.
  apply str_find_Some in E as (r & -> & _). set_solver.
Qed.

Lemma drop_while_incl p s c : c ∈ drop_while p s → c ∈ s.
Proof. destruct (drop_while_suffix p s) as (a & Ha & _). rewrite Ha at 2. set_solver. Qed.

Lemma drop_while_end_incl p s c : c ∈ drop_while_end p s → c ∈ s.
Proof. destruct (drop_while_end_prefix p s) as (a & Ha & _). rewrite Ha at 2. set_solver. Qed.

Lemma trim_incl s c : c ∈ trim s → c ∈ s.
Proof. intros H. by apply drop_while_end_incl, drop_while_incl in H. Qed.

Lemma split_once_Some c s a b : split_once c s = Some (a, b) → s = a ++ c :: b ∧ c ∉ a.
Proof.
  revert a. induction s as [|d s IH]; simpl; [done|]. intros a.
  destruct (N.eqb_spec d c) as [->|Hne].
  - intros [= <- <-]. split; [done|]. apply not_elem_of_nil.
  - intros ([a' b'] & E & [= -> ->])%fmap_Some. destruct (IH _ E) as [-> Hc].
    split; [done|]. rewrite not_elem_of_cons. done.
Qed.

Lemma rsplit_once_Some c s a b : rsplit_once c s = Some (a, b) → s = a ++ c :: b ∧ c ∉ b.
Proof.
  unfold rsplit_once. intros ([b' a'] & E & [= -> ->])%fmap_Some.
  apply split_once_Some in E as [E Hc]. apply (f_equal (@rev _)) in E.
  rewrite rev_involutive, rev_app_distr in E. simpl in E. rewrite <- app_assoc in E. simpl in E.
  split; [done|]. intros H. apply Hc. rewrite list_elem_of_In in *. by apply in_rev.
Qed.

Lemma strip_port_incl {Loc} raw host host' c :
  strip_port (Loc := Loc) raw host = Ok host' → c ∈ host' → c ∈ host.
Proof.
  unfold strip_port. destruct (strip_prefix (lit "[") host) as [stripped|] eqn:E.
  - apply strip_prefix_Some in E as ->.
    destruct (split_once 93%N stripped) as [[inside rest]|] eqn:E; [|done].
    apply split_once_Some in E as [-> _]. destruct (_ && _); [done|]. intros [= ->]. set_solver.
  - destruct (rsplit_once c_colon host) as [[candidate port]|] eqn:E2; [|by intros [= ->]].
    apply rsplit_once_Some in E2 as [-> _]. destruct (_ && _); intros [= ->]; set_solver.
Qed.

Lemma ascii_lower_fix c : ascii_lower (ascii_lower c) = ascii_lower c.
Proof. unfold ascii_lower. repeat case_match; try done; bdec; rewrite ?N.leb_le, ?andb_false_iff, ?N.leb_gt in *; lia. Qed.

Lemma ascii_lower_special c d : (d < 65)%N → ascii_lower c = d → c = d.
Proof.
  unfold ascii_lower. destruct (_ && _) eqn:E; [|done]. bdec. rewrite N.leb_le in *. lia.
Qed.

(** A character of a normalised host. *)
Definition host_char (c : char) : Prop :=
  is_whitespace c = false ∧ ascii_lower c = c
  ∧ c ∉ [c_star; 47%N; 63%N; 35%N].

(** What the normalisation leaves alone: no bracket in front, no final dot,
    and not exactly one colon. *)
Definition settled_host (h : str) : Prop :=
  head h ≠ Some 91%N ∧ last h ≠ Some c_dot ∧ count_char c_colon h ≠ 1.

Lemma normalize_output {Loc} raw h :
  normalize_network_rule_host (Loc := Loc) raw = Ok h → h ≠ [] ∧ Forall host_char h.
Proof.
  unfold normalize_network_rule_host. case_bool_decide; [done|].
  destruct (_ || _) eqn:E; [done|]. bdec.
  rewrite res_bind_Ok. intros (host & Hs & E').
  case_bool_decide as Hne; [done|]. destruct (contains_char c_star _) eqn:Est; [done|].
  destruct (existsb is_whitespace _) eqn:Ew; [done|]. injection E' as <-.
  split; [done|]. apply contains_char_false in Est. apply existsb_false_Forall in Ew.
  rewrite Forall_forall in Ew. apply Forall_forall. intros c Hc.
  pose proof (Ew _ Hc) as Hw. apply list_elem_of_fmap in Hc as Hc'.
  destruct Hc' as (d & -> & Hd). split_and!; [done|apply ascii_lower_fix|].
  apply trim_incl, drop_while_end_incl in Hd. eapply strip_port_incl in Hd; [|done].
  repeat match goal with H : contains_char _ _ = false |- _ => apply contains_char_false in H end.
  rewrite !not_elem_of_cons. split_and!; [by intros E; rewrite E in Hc| | | |apply not_elem_of_nil];
    intros Ed; apply ascii_lower_special in Ed; [|done| |done| |done]; by subst.
Qed.

Lemma host_chars_ends h : h ≠ [] → Forall host_char h → tight h = true.
Proof.
  intros Hne H. destruct h as [|c h]; [done|]. unfold tight.
  destruct (last (c :: h)) as [d|] eqn:E; [|done].
  apply last_Some_elem_of in E. rewrite Forall_forall in H.
  destruct (H d E) as [-> _]. destruct (H c ltac:(set_solver)) as [-> _]. done.
Qed.

Lemma normalize_settled {Loc} h :
  h ≠ [] → Forall host_char h → settled_host h → normalize_network_rule_host (Loc := Loc) h = Ok h.
Proof.
  intros Hne H (Hb & Hd & Hc). unfold normalize_network_rule_host.
  pose proof (trim_tight h (host_chars_ends h Hne H)) as Ht. rewrite Ht.
  assert (Hno : ∀ c, c ∈ [c_star; 47%N; 63%N; 35%N] → c ∉ h).
  { intros c Hin Hch. rewrite Forall_forall in H. by destruct (H c Hch) as (_ & _ & ?). }
  rewrite bool_decide_eq_false_2 by done.
  assert (∀ c, c ∈ [c_star; 47%N; 63%N; 35%N] → contains_char c h = false) as Hcc.
  { intros. apply contains_char_false. by apply Hno. }
  rewrite !Hcc by set_solver.
  replace (str_contains (lit "://") h) with false; [simpl|].
  2: { symmetry. apply not_true_iff_false. intros Hs.
       apply (str_contains_elem _ _ 47%N) in Hs; [|vm_compute; set_solver]. revert Hs. apply Hno. set_solver. }
  assert (strip_port (Loc := Loc) h h = Ok h) as ->.
  { unfold strip_port. destruct (strip_prefix (lit "[") h) as [r|] eqn:E.
    { apply strip_prefix_Some in E as ->. done. }
    destruct (rsplit_once c_colon h) as [[a b]|]; [|done].
    rewrite (bool_decide_eq_false_2 (count_char c_colon h = 1)) by done. done. }
  simpl. unfold trim_end_matches.
  assert (drop_while_end (N.eqb c_dot) h = h) as ->.
  { destruct (snoc_inv h) as [->|(l & x & ->)]; [done|]. apply drop_while_end_snoc_keep.
    apply N.eqb_neq. intros <-. by rewrite last_snoc in Hd. }
  rewrite Ht.
  assert (to_ascii_lowercase h = h) as ->.
  { unfold to_ascii_lowercase. clear -H. induction H as [|c h (_ & Hc & _) _ IH]; [done|].
    simpl. by rewrite Hc, IH. }
  rewrite bool_decide_eq_false_2 by done. rewrite Hcc by set_solver.
  assert (existsb is_whitespace h = false) as ->; [|done].
  apply existsb_false_Forall. eapply Forall_impl; [exact H|]. by intros c [? _].
Qed.

(** A host that is accepted has a normal form that is not empty, in lower
    case, without whitespace, wildcards and the characters of schemes and
    paths; normalising it again changes nothing, provided it does not start
    with a bracket, end in a dot or hold exactly one colon. *)
Theorem normalize_host_canonical {Loc} raw h :
  normalize_network_rule_host (Loc := Loc) raw = Ok h →
  h ≠ [] ∧ Forall host_char h
  ∧ (settled_host h → normalize_network_rule_host (Loc := Loc) h = Ok h).
Proof.
  intros H. destruct (normalize_output raw h H) as [Hne Hch].
  split_and!; [done..|]. by apply normalize_settled.
Qed.

Lemma normalize_host_canonical_witness :
  normalize_network_rule_host (Loc := unit) (lit " API.Example.com.:443 ") = Ok (lit "api.example.com")
  ∧ lit "api.example.com" ≠ [] ∧ Forall host_char (lit "api.example.com")
  ∧ (settled_host (lit "api.example.com") →
     normalize_network_rule_host (Loc := unit) (lit "api.example.com") = Ok (lit "api.example.com")).
Proof.
  split; [vm_compute; reflexivity|].
  apply (normalize_host_canonical (lit " API.Example.com.:443 ") (lit "api.example.com")).
  vm_compute. reflexivity.
Defined.

(** The proviso is needed: a bracketed name keeps what looks like a port, and
    a second normalisation takes it off. *)
Lemma normalize_bracketed_port :
  normalize_network_rule_host (Loc := unit) (lit "[db:5432]") = Ok (lit "db:5432")
  ∧ normalize_network_rule_host (Loc := unit) (lit "db:5432") = Ok (lit "db").
Proof. split; vm_compute; reflexivity. Qed.

(** ** The theorems at concrete policies *)

(** Absolute paths of a Unix host as text: [~] is the home directory, a relative
    path is below the current directory, here [/w], and dots are taken out. *)
Definition unix_component (acc : list str) (component : str) : list str :=
  if bool_decide (component = []) || bool_decide (component = lit ".") then acc
  else if bool_decide (component = lit "..") then removelast acc else acc ++ [component].
Definition unix_absolutize (s : str) : str :=
  lit "/" ++ join (lit "/") (foldl unix_component [] (split_char 47%N s)).

Definition unix_host_paths : HostPaths str := {|
  host_path_eq_dec := _;
  absolute_path s :=
    Some (unix_absolutize
      (if bool_decide (s = lit "~") || starts_with (lit "~/") s then lit "/home/" ++ drop 1 s
       else if starts_with (lit "/") s then s else lit "/w/" ++ s));
  path_file_name s := match rsplit_once 47%N s with
                      | Some (_, name) => if bool_decide (name = []) then None else Some name
                      | None => None
                      end;
|}.

Definition sample_policy : Policy str :=
  {| rules_by_program := {[ lit "git" := [literal_rule (lit "git") [] Allow] ]};
     network_rules := []; host_executables_by_name := {[ lit "git" := [lit "/usr/bin/git"] ]} |}.
Definition sample_overlay : Policy str :=
  {| rules_by_program := {[ lit "git" := [literal_rule (lit "git") [lit "push"] Forbidden] ]};
     network_rules := []; host_executables_by_name := ∅ |}.

Lemma merge_overlay_strictest_witness :
  let push := [lit "git"; lit "push"; lit "origin"] in
  let e d ms := Build_Evaluation (AP := str) d ms in
  let m pre d := PrefixRuleMatch (AP := str) pre d None None in
  let ep := e Allow [m [lit "git"] Allow] in
  let eo := e Forbidden [m [lit "git"; lit "push"] Forbidden] in
  let em := e Forbidden [m [lit "git"] Allow; m [lit "git"; lit "push"] Forbidden] in
  is_match em = is_match ep || is_match eo
  ∧ eval_decision em = (if is_match ep then
                          if is_match eo then decision_max (eval_decision ep) (eval_decision eo)
                          else eval_decision ep
                        else eval_decision eo)
  ∧ network_rules (merge_overlay sample_policy sample_overlay)
    = network_rules sample_policy ++ network_rules sample_overlay
  ∧ ∀ name, host_executables_by_name (merge_overlay sample_policy sample_overlay) !! name
            = match host_executables_by_name sample_overlay !! name with
              | Some paths => Some paths
              | None => host_executables_by_name sample_policy !! name
              end.
Proof.
  apply (merge_overlay_strictest (HP := unix_host_paths) false sample_policy sample_overlay
           [lit "git"; lit "push"; lit "origin"] (λ _, Prompt)); vm_compute; reflexivity.
Defined.

Lemma host_match_listed_witness :
  let cmd := [lit "/usr/bin/git"; lit "status"] in
  let options := {| resolve_host_executables := true |} in
  let m := PrefixRuleMatch [lit "git"] Allow (Some (lit "/usr/bin/git")) None in
  resolve_host_executables options = true
  ∧ (∀ r, ¬ covers sample_policy r cmd)
  ∧ ∃ first args basename r,
      cmd = first :: args ∧ absolute_path (HostPaths := unix_host_paths) first = Some (lit "/usr/bin/git")
      ∧ executable_path_lookup_key (HP := unix_host_paths) false (lit "/usr/bin/git") = Some basename
      ∧ (∀ paths, host_executables_by_name sample_policy !! basename = Some paths → lit "/usr/bin/git" ∈ paths)
      ∧ covers sample_policy r (basename :: args) ∧ match_decision m = rule_decision r.
Proof.
  apply (host_match_listed (HP := unix_host_paths) false sample_policy
           [lit "/usr/bin/git"; lit "status"] None {| resolve_host_executables := true |}
           (PrefixRuleMatch [lit "git"] Allow (Some (lit "/usr/bin/git")) None) (lit "/usr/bin/git")).
  - apply list_elem_of_lookup. exists 0. vm_compute. reflexivity.
  - exists [lit "git"], Allow, None. reflexivity.
Defined.
