(* ===== verification/PolicyParser.v ===== *)
(** * The policy parser

    Models [execpolicy/src/parser.rs] and the example checks of [rule.rs]. A
    policy file is a Starlark module; parsing and evaluating it is the work of
    the package [starlark]. What the engine sees of an evaluation is the
    sequence of calls of its three built-in functions, each with its argument
    values, so an evaluation is a list of calls and possibly an error of the
    evaluator after them; a built-in that fails ends the evaluation. *)

From stdpp Require Import gmap.
From S2P Require Import Prelude RustStr ExecPolicy.
Open Scope list_scope.

(** ** Values of Starlark *)

Inductive Value :=
  | VStr (s : str)
  | VList (items : list Value)
  | VOther (type_name : str).

(** [Value::get_type], [Value::unpack_str] and [ListRef::from_value]. *)
Definition get_type (v : Value) : str :=
  match v with VStr _ => lit "string" | VList _ => lit "list" | VOther t => t end.
Definition unpack_str (v : Value) : option str :=
  match v with VStr s => Some s | _ => None end.

(** What the parser uses of other packages: [shlex], the paths of the standard
    library, the text of errors and of derived [Debug] implementations. *)
Class ParserEnv (AP : Type) := {
  shlex_split : str → option (list str);
  try_join : list str → option str;
  path_is_absolute : str → bool;
  path_components : str → nat;
  raw_file_name : str → option str;
  absolute_path_error : str → str;
  rule_debug : PrefixRule → str;
  rule_match_debug : RuleMatch AP → str;
}.

Section Parser.
Context {AP : Type} `{HP : !HostPaths AP} `{PE : !ParserEnv AP} {Loc SE Ast : Type} (windows : bool).

#[local] Existing Instance host_path_eq_dec.
Abbreviation error := (PolicyError Loc).

(** ** Patterns and examples *)

Definition alternative_str (v : Value) : res error str :=
  ok_or (unpack_str v) (InvalidPattern (lit "pattern alternative must be a string (got "
                                        ++ get_type v ++ lit ")")).

Definition parse_pattern_token (v : Value) : res error PatternToken :=
  match v with
  | VStr s => Ok (Single s)
  | VList items =>
      let? tokens := collect alternative_str items in
      match tokens with
      | [] => Err (InvalidPattern (lit "pattern alternatives cannot be empty"))
      | [single] => Ok (Single single)
      | _ => Ok (Alts tokens)
      end
  | VOther _ =>
      Err (InvalidPattern (lit "pattern element must be a string or list of strings (got "
                           ++ get_type v ++ lit ")"))
  end.

Definition parse_pattern (pattern : list Value) : res error (list PatternToken) :=
  let? tokens := collect parse_pattern_token pattern in
  match tokens with
  | [] => Err (InvalidPattern (lit "pattern cannot be empty"))
  | _ => Ok tokens
  end.

Definition parse_string_example (raw : str) : res error (list str) :=
  match shlex_split raw with
  | None => Err (InvalidExample (lit "example string has invalid shell syntax"))
  | Some [] => Err (InvalidExample (lit "example cannot be an empty string"))
  | Some tokens => Ok tokens
  end.

Definition example_token (v : Value) : res error str :=
  ok_or (unpack_str v) (InvalidExample (lit "example tokens must be strings (got "
                                        ++ get_type v ++ lit ")")).

Definition parse_list_example (items : list Value) : res error (list str) :=
  let? tokens := collect example_token items in
  match tokens with
  | [] => Err (InvalidExample (lit "example cannot be an empty list"))
  | _ => Ok tokens
  end.

Definition parse_example (v : Value) : res error (list str) :=
  match v with
  | VStr raw => parse_string_example raw
  | VList items => parse_list_example items
  | VOther _ => Err (InvalidExample (lit "example must be a string or list of strings (got "
                                     ++ get_type v ++ lit ")"))
  end.

Definition parse_examples (examples : list Value) : res error (list (list str)) :=
  collect parse_example examples.

(** ** Names, paths, decisions *)

Definition parse_literal_absolute_path (raw : str) : res error AP :=
  if negb (path_is_absolute raw)
  then Err (InvalidRule (lit "host_executable paths must be absolute (got " ++ raw ++ lit ")"))
  else ok_or (absolute_path raw)
         (InvalidRule (lit "invalid absolute path `" ++ raw ++ lit "`: " ++ absolute_path_error raw)).

Definition validate_host_executable_name (name : str) : res error unit :=
  if bool_decide (name = []) then Err (InvalidRule (lit "host_executable name cannot be empty"))
  else if negb (path_components name =? 1) || negb (bool_decide (raw_file_name name = Some name))
  then Err (InvalidRule (lit "host_executable name must be a bare executable name (got "
                         ++ name ++ lit ")"))
  else Ok tt.

Definition parse_network_rule_decision (raw : str) : res error Decision :=
  if bool_decide (raw = lit "deny") then Ok Forbidden else decision_parse raw.

Definition parse_justification (j : option str) : res error (option str) :=
  if blank_justification j then Err (InvalidRule (lit "justification cannot be empty")) else Ok j.

(** ** The builder *)

Record PendingExampleValidation := {
  pending_rules : list PrefixRule;
  pending_matches : list (list str);
  pending_not_matches : list (list str);
  pending_location : option Loc;
}.

Record PolicyBuilder := {
  b_rules_by_program : gmap str (list PrefixRule);
  b_network_rules : list NetworkRule;
  b_host_executables_by_name : gmap str (list AP);
  pending_example_validations : list PendingExampleValidation;
}.

Definition builder_new : PolicyBuilder :=
  {| b_rules_by_program := ∅; b_network_rules := []; b_host_executables_by_name := ∅;
     pending_example_validations := [] |}.

Definition add_rule (b : PolicyBuilder) (r : PrefixRule) : PolicyBuilder :=
  {| b_rules_by_program := multi_insert (b_rules_by_program b) (pattern_first (pattern r)) r;
     b_network_rules := b_network_rules b;
     b_host_executables_by_name := b_host_executables_by_name b;
     pending_example_validations := pending_example_validations b |}.

Definition builder_add_network_rule (b : PolicyBuilder) (r : NetworkRule) : PolicyBuilder :=
  {| b_rules_by_program := b_rules_by_program b;
     b_network_rules := b_network_rules b ++ [r];
     b_host_executables_by_name := b_host_executables_by_name b;
     pending_example_validations := pending_example_validations b |}.

Definition add_host_executable (b : PolicyBuilder) (name : str) (paths : list AP) : PolicyBuilder :=
  {| b_rules_by_program := b_rules_by_program b;
     b_network_rules := b_network_rules b;
     b_host_executables_by_name := <[name := paths]> (b_host_executables_by_name b);
     pending_example_validations := pending_example_validations b |}.

Definition add_pending_example_validation (b : PolicyBuilder) (v : PendingExampleValidation)
    : PolicyBuilder :=
  {| b_rules_by_program := b_rules_by_program b;
     b_network_rules := b_network_rules b;
     b_host_executables_by_name := b_host_executables_by_name b;
     pending_example_validations := pending_example_validations b ++ [v] |}.

Definition builder_build (b : PolicyBuilder) : Policy AP :=
  {| rules_by_program := b_rules_by_program b; network_rules := b_network_rules b;
     host_executables_by_name := b_host_executables_by_name b |}.

(** ** The checks of examples ([rule.rs]) *)

Definition example_options : MatchOptions := {| resolve_host_executables := true |}.

Definition example_matches (policy : Policy AP) (example : list str) : list (RuleMatch AP) :=
  matches_for_command_with_options windows policy example None example_options.

Definition render_example (example : list str) : str :=
  default (lit "unable to render example") (try_join example).

Definition validate_match_examples (policy : Policy AP) (rules : list PrefixRule)
    (matches : list (list str)) : res error unit :=
  let unmatched_examples :=
    map render_example (filter (λ example, example_matches policy example = []) matches) in
  match unmatched_examples with
  | [] => Ok tt
  | _ => Err (ExampleDidNotMatch (map rule_debug rules) unmatched_examples None)
  end.

Fixpoint validate_not_match_examples (policy : Policy AP) (not_matches : list (list str))
    : res error unit :=
  match not_matches with
  | [] => Ok tt
  | example :: rest =>
      match example_matches policy example with
      | m :: _ => Err (ExampleDidMatch (rule_match_debug m) (render_example example) None)
      | [] => validate_not_match_examples policy rest
      end
  end.

Definition attach_validation_location (e : error) (location : option Loc) : error :=
  match location with Some l => with_location e l | None => e end.

(** The policy a validation is checked against: its own rules and all the host
    executables. *)
Definition validation_policy (b : PolicyBuilder) (v : PendingExampleValidation) : Policy AP :=
  {| rules_by_program :=
       foldl (λ m r, multi_insert m (pattern_first (pattern r)) r) ∅ (pending_rules v);
     network_rules := [];
     host_executables_by_name := b_host_executables_by_name b |}.

Definition validate_pending (b : PolicyBuilder) (v : PendingExampleValidation) : res error unit :=
  let policy := validation_policy b v in
  let attach e := attach_validation_location e (pending_location v) in
  let? _ := map_err attach (validate_not_match_examples policy (pending_not_matches v)) in
  map_err attach (validate_match_examples policy (pending_rules v) (pending_matches v)).

(** [&self.pending_example_validations[start..]] panics when [start] is too large. *)
Definition validate_pending_examples_from (b : PolicyBuilder) (start : nat) : res error unit :=
  if start <=? length (pending_example_validations b)
  then foldM (λ _ v, validate_pending b v) tt (drop start (pending_example_validations b))
  else Panic.

(** ** The built-in functions *)

Inductive Call :=
  | CallPrefixRule (pattern : list Value) (decision : option str)
      (matches not_matches : option (list Value)) (justification : option str)
      (location : option Loc)
  | CallNetworkRule (host protocol decision : str) (justification : option str)
  | CallHostExecutable (name : str) (paths : list Value).

(** The rules of one call: one for each alternative of the first token. *)
Definition expand_rules (first : PatternToken) (rest : list PatternToken) (d : Decision)
    (j : option str) : list PrefixRule :=
  map (λ head, {| pattern := {| pattern_first := head; pattern_rest := rest |};
                  rule_decision := d; rule_justification := j |})
    (token_alternatives first).

(** [Option::map(parse_examples).transpose()?.unwrap_or_default()]. *)
Definition optional_examples (o : option (list Value)) : res error (list (list str)) :=
  match o with Some l => parse_examples l | None => Ok [] end.

Definition prefix_rule (b : PolicyBuilder) (pattern : list Value) (decision : option str)
    (matches not_matches : option (list Value)) (justification : option str)
    (location : option Loc) : res error PolicyBuilder :=
  let? decision := match decision with Some raw => decision_parse raw | None => Ok Allow end in
  let? justification := parse_justification justification in
  let? pattern_tokens := parse_pattern pattern in
  let? matches := optional_examples matches in
  let? not_matches := optional_examples not_matches in
  match pattern_tokens with
  | [] => Err (InvalidPattern (lit "pattern cannot be empty"))
  | first_token :: rest =>
      let rules := expand_rules first_token rest decision justification in
      Ok (foldl add_rule
            (add_pending_example_validation b
               {| pending_rules := rules; pending_matches := matches;
                  pending_not_matches := not_matches; pending_location := location |})
            rules)
  end.

Definition network_rule (b : PolicyBuilder) (host protocol decision : str)
    (justification : option str) : res error PolicyBuilder :=
  let? protocol := protocol_parse protocol in
  let? decision := parse_network_rule_decision decision in
  let? justification := parse_justification justification in
  let? host := normalize_network_rule_host host in
  Ok (builder_add_network_rule b
        {| net_host := host; net_protocol := protocol; net_decision := decision;
           net_justification := justification |}).

(** One round of the loop of [host_executable] over its paths. *)
Definition host_path_step (name : str) (parsed : list AP) (v : Value) : res error (list AP) :=
  let basename_error raw :=
    InvalidRule (lit "host_executable path `" ++ raw ++ lit "` must have basename `"
                 ++ name ++ lit "`") in
  let? raw := ok_or (unpack_str v)
                (InvalidRule (lit "host_executable paths must be strings (got "
                              ++ get_type v ++ lit ")")) in
  let? path := parse_literal_absolute_path raw in
  match executable_path_lookup_key windows path with
  | None => Err (basename_error raw)
  | Some path_name =>
      if negb (bool_decide (path_name = executable_lookup_key windows name))
      then Err (basename_error raw)
      else Ok (if bool_decide (path ∈ parsed) then parsed else parsed ++ [path])
  end.

Definition host_executable (b : PolicyBuilder) (name : str) (paths : list Value)
    : res error PolicyBuilder :=
  let? _ := validate_host_executable_name name in
  let? parsed_paths := foldM (host_path_step name) [] paths in
  Ok (add_host_executable b (executable_lookup_key windows name) parsed_paths).

Definition run_call (b : PolicyBuilder) (c : Call) : res error PolicyBuilder :=
  match c with
  | CallPrefixRule pattern decision matches not_matches justification location =>
      prefix_rule b pattern decision matches not_matches justification location
  | CallNetworkRule host protocol decision justification =>
      network_rule b host protocol decision justification
  | CallHostExecutable name paths => host_executable b name paths
  end.

(** ** Parsing a policy *)

(** [Error]: what the two constructions [Error::Starlark] carry, an error of
    the evaluator or one of a built-in function, and the other variants. *)
Inductive PolicyParseError :=
  | Starlark (e : SE)
  | StarlarkBuiltin (e : error)
  | PolicyErr (e : error).

(** Running the calls of a module: the builder is shared, so it keeps what the
    calls before a failing one did. *)
Fixpoint run_calls (b : PolicyBuilder) (calls : list Call) (stop : option SE)
    : PolicyBuilder * res PolicyParseError unit :=
  match calls with
  | [] => (b, match stop with Some e => Err (Starlark e) | None => Ok tt end)
  | c :: calls =>
      match run_call b c with
      | Ok b' => run_calls b' calls stop
      | Err e => (b, Err (StarlarkBuiltin e))
      | Panic => (b, Panic)
      end
  end.

(** [AstModule::parse] and the calls an evaluation makes, of the package
    [starlark]. *)
Variable ast_parse : str → str → res SE Ast.
Variable ast_calls : Ast → list Call * option SE.

Definition parse (b : PolicyBuilder) (policy_identifier policy_file_contents : str)
    : PolicyBuilder * res PolicyParseError unit :=
  let pending_validation_count := length (pending_example_validations b) in
  match ast_parse policy_identifier policy_file_contents with
  | Err e => (b, Err (Starlark e))
  | Panic => (b, Panic)
  | Ok ast =>
      let '(calls, stop) := ast_calls ast in
      match run_calls b calls stop with
      | (b, Ok _) => (b, map_err PolicyErr (validate_pending_examples_from b pending_validation_count))
      | failed => failed
      end
  end.

End Parser.

Arguments PolicyBuilder AP Loc : clear implicits.
Arguments PendingExampleValidation Loc : clear implicits.
Arguments Call Loc : clear implicits.
Arguments PolicyParseError Loc SE : clear implicits.
