(* ===== verification/PolicyParserFacts.v ===== *)
(** * Facts about the policy parser

    The invariant of the policy builder in every state the parser can reach,
    the commands a [prefix_rule] call covers, and what a successful parse
    guarantees about the examples of its rules. *)

From stdpp Require Import gmap.
From S2P Require Import Prelude RustStr ExecPolicy ExecPolicyFacts PolicyParser.
Open Scope list_scope.

Section Facts.
Context {AP : Type} `{HP : !HostPaths AP} `{PE : !ParserEnv AP} {Loc SE Ast : Type} (windows : bool).
Abbreviation error := (PolicyError Loc).
Abbreviation builder := (PolicyBuilder AP Loc).
#[local] Existing Instance host_path_eq_dec.

(** ** [collect] *)

Lemma collect_no_panic {A B} (f : A → res error B) l :
  (∀ x, f x ≠ Panic) → collect f l ≠ Panic.
Proof.
  intros Hf. induction l as [|x l IH]; simpl; [done|].
  apply res_bind_no_panic; [done|]. intros y _. by apply res_bind_no_panic.
Qed.

Lemma ok_or_no_panic {E A} (o : option A) (e : E) : ok_or o e ≠ Panic.
Proof. by destruct o. Qed.

(** ** Well-formed policies *)

Definition good_justification (j : option str) : Prop := blank_justification j = false.

(** A token has an alternative, and a token of one alternative is [Single]. *)
Definition token_ok (t : PatternToken) : Prop :=
  match t with Single _ => True | Alts alts => 2 ≤ length alts end.

Definition rule_ok (program : str) (r : PrefixRule) : Prop :=
  pattern_first (pattern r) = program ∧ Forall token_ok (pattern_rest (pattern r))
  ∧ good_justification (rule_justification r).

Definition network_rule_ok (r : NetworkRule) : Prop :=
  net_host r ≠ [] ∧ Forall host_char (net_host r) ∧ good_justification (net_justification r).

Definition host_entry_ok (name : str) (paths : list AP) : Prop :=
  NoDup paths ∧ Forall (λ path, executable_path_lookup_key windows path = Some name) paths.

(** Every rule is kept under its own first word, every network rule has a
    normalised host, and the paths listed for a name are distinct and have
    that name. *)
Record policy_ok (p : Policy AP) : Prop := {
  ok_rules : ∀ program r, r ∈ rules_at (rules_by_program p) program → rule_ok program r;
  ok_network : Forall network_rule_ok (network_rules p);
  ok_hosts : ∀ name paths, host_executables_by_name p !! name = Some paths → host_entry_ok name paths;
}.

(** The recorded examples are commands, and their rules are in the policy. *)
Definition validation_ok (b : builder) (v : PendingExampleValidation Loc) : Prop :=
  Forall (λ r, r ∈ rules_at (b_rules_by_program b) (pattern_first (pattern r))) (pending_rules v).

Record builder_ok (b : builder) : Prop := {
  ok_policy : policy_ok (builder_build b);
  ok_pending : Forall (validation_ok b) (pending_example_validations b);
}.

(** ** The results of the parsing functions *)

Lemma parse_pattern_token_ok v t : parse_pattern_token (Loc := Loc) v = Ok t → token_ok t.
Proof.
  destruct v as [s|items|ty]; simpl; [by intros [= <-]| |done].
  rewrite res_bind_Ok. intros (ts & _ & H). destruct ts as [|a [|b ts]]; [done|by injection H as <-|].
  injection H as <-. simpl. lia.
Qed.

Lemma parse_pattern_Ok vs ts :
  parse_pattern (Loc := Loc) vs = Ok ts → ts ≠ [] ∧ Forall token_ok ts.
Proof.
  unfold parse_pattern. rewrite res_bind_Ok. intros (ts' & H%collect_Ok & E).
  destruct ts' as [|t ts']; [done|]. injection E as <-. split; [done|].
  clear -H. induction H as [|v t1 vs ts Hv _ IH]; constructor; eauto using parse_pattern_token_ok.
Qed.

Lemma parse_justification_Ok j j' :
  parse_justification (Loc := Loc) j = Ok j' → j' = j ∧ good_justification j.
Proof.
  unfold parse_justification, good_justification. destruct (blank_justification j); [done|].
  by intros [= <-].
Qed.

Lemma expand_rules_ok first rest d j r :
  Forall token_ok rest → good_justification j → r ∈ expand_rules first rest d j →
  rule_ok (pattern_first (pattern r)) r.
Proof.
  intros Hrest Hj (head & -> & _)%list_elem_of_fmap. done.
Qed.

Lemma add_rules_lookup (b : builder) rs program :
  rules_at (b_rules_by_program (foldl add_rule b rs)) program
  = rules_at (b_rules_by_program b) program
    ++ filter (λ r, pattern_first (pattern r) = program) rs.
Proof.
  revert b. induction rs as [|r rs IH]; intros b; simpl; [by rewrite app_nil_r|].
  rewrite IH. simpl. rewrite rules_at_insert, <- app_assoc. f_equal.
  rewrite filter_cons. by destruct (decide _).
Qed.

Lemma add_rules_frame (b : builder) rs :
  b_network_rules (foldl add_rule b rs) = b_network_rules b
  ∧ b_host_executables_by_name (foldl add_rule b rs) = b_host_executables_by_name b
  ∧ pending_example_validations (foldl add_rule b rs) = pending_example_validations b.
Proof. revert b. induction rs as [|r rs IH]; intros b; simpl; [done|]. by destruct (IH (add_rule b r)) as (-> & -> & ->). Qed.

(** What a successful [prefix_rule] call has done. *)
Lemma prefix_rule_inv (b b' : builder) pat decision ms nms j loc :
  prefix_rule b pat decision ms nms j loc = Ok b' →
  ∃ first rest d matches not_matches,
    parse_pattern (Loc := Loc) pat = Ok (first :: rest)
    ∧ match decision with Some raw => decision_parse (Loc := Loc) raw | None => Ok Allow end = Ok d
    ∧ optional_examples (Loc := Loc) ms = Ok matches
    ∧ optional_examples (Loc := Loc) nms = Ok not_matches
    ∧ Forall token_ok rest ∧ good_justification j
    ∧ b' = foldl add_rule
             (add_pending_example_validation b
                {| pending_rules := expand_rules first rest d j; pending_matches := matches;
                   pending_not_matches := not_matches; pending_location := loc |})
             (expand_rules first rest d j).
Proof.
  unfold prefix_rule. rewrite res_bind_Ok. intros (d & Hd & H).
  rewrite res_bind_Ok in H. destruct H as (j' & [-> Hj]%parse_justification_Ok & H).
  rewrite res_bind_Ok in H. destruct H as (ts & Hts & H).
  rewrite res_bind_Ok in H. destruct H as (ms' & Hms & H).
  rewrite res_bind_Ok in H. destruct H as (nms' & Hnms & H).
  destruct ts as [|t ts]; [done|]. injection H as <-.
  apply parse_pattern_Ok in Hts as HT. destruct HT as [_ [_ Hrest]%Forall_cons].
  exists t, ts, d, ms', nms'. done.
Qed.

(** ** The invariant *)

Lemma good_justification_none : good_justification None.
Proof. done. Qed.

Lemma policy_ok_empty : policy_ok policy_empty.
Proof.
  split; simpl.
  - intros program r. unfold rules_at. rewrite lookup_empty. by intros ?%not_elem_of_nil.
  - constructor.
  - intros name paths. by rewrite lookup_empty.
Qed.

Lemma builder_ok_new : builder_ok builder_new.
Proof. split; [apply policy_ok_empty|constructor]. Qed.

(** Adding rules that are well formed keeps a policy well formed. *)
Lemma policy_ok_rules (p p' : Policy AP) :
  policy_ok p → network_rules p' = network_rules p →
  host_executables_by_name p' = host_executables_by_name p →
  (∀ program r, r ∈ rules_at (rules_by_program p') program →
     r ∈ rules_at (rules_by_program p) program ∨ rule_ok program r) →
  policy_ok p'.
Proof.
  intros [Hr Hn Hh] En Eh H. split; [|by rewrite En|by rewrite Eh].
  intros program r [?|?]%H; eauto.
Qed.

Lemma validation_ok_mono (b b' : builder) v :
  (∀ program r, r ∈ rules_at (b_rules_by_program b) program →
     r ∈ rules_at (b_rules_by_program b') program) →
  validation_ok b v → validation_ok b' v.
Proof. intros H Hv. eapply Forall_impl; [exact Hv|]. eauto. Qed.

Lemma prefix_rule_ok (b b' : builder) pat decision ms nms j loc :
  prefix_rule b pat decision ms nms j loc = Ok b' → builder_ok b → builder_ok b'.
Proof.
  intros (first & rest & d & ms' & nms' & _ & _ & _ & _ & Hrest & Hj & ->)%prefix_rule_inv [Hp Hv].
  set (rs := expand_rules first rest d j). set (b1 := add_pending_example_validation b _).
  destruct (add_rules_frame b1 rs) as (En & Eh & Ev).
  assert (Hat : ∀ program, rules_at (b_rules_by_program (foldl add_rule b1 rs)) program
      = rules_at (b_rules_by_program b) program ++ filter (λ r, pattern_first (pattern r) = program) rs).
  { intros. by rewrite add_rules_lookup. }
  split.
  - apply (policy_ok_rules (builder_build b)); [done|done|done|]. intros program r. simpl.
    rewrite Hat, elem_of_app, list_elem_of_filter. intros [?|[<- Hr]]; [by left|right].
    by eapply expand_rules_ok.
  - rewrite Ev. simpl. apply Forall_app. split; [|constructor; [|constructor]].
    + eapply Forall_impl; [exact Hv|]. intros v. apply validation_ok_mono.
      intros program r Hr. rewrite Hat. set_solver.
    + apply Forall_forall. intros r Hr. simpl in Hr. rewrite Hat, elem_of_app. right.
      by apply list_elem_of_filter.
Qed.

Lemma network_rule_builder_ok (b b' : builder) host protocol decision j :
  network_rule b host protocol decision j = Ok b' → builder_ok b → builder_ok b'.
Proof.
  unfold network_rule. rewrite res_bind_Ok. intros (pr & _ & H).
  rewrite res_bind_Ok in H. destruct H as (d & _ & H).
  rewrite res_bind_Ok in H. destruct H as (j' & [-> Hj]%parse_justification_Ok & H).
  rewrite res_bind_Ok in H. destruct H as (h & [Hne Hch]%normalize_output & [= <-]).
  intros [[Hr Hn Hh] Hv]. split; [split; [exact Hr| |exact Hh]|exact Hv].
  simpl. apply Forall_app. split; [done|]. by repeat constructor.
Qed.

Lemma host_path_step_ok name parsed v parsed' :
  host_path_step (Loc := Loc) windows name parsed v = Ok parsed' →
  host_entry_ok (executable_lookup_key windows name) parsed →
  host_entry_ok (executable_lookup_key windows name) parsed'.
Proof.
  unfold host_path_step. rewrite res_bind_Ok. intros (raw & _ & H).
  rewrite res_bind_Ok in H. destruct H as (path & _ & H).
  destruct (executable_path_lookup_key windows path) as [key|] eqn:Ek; [|done].
  destruct (negb _) eqn:E; [done|]. bdec. subst key. injection H as <-. intros [Hnd Hall].
  case_bool_decide as Hin; [done|]. split.
  - apply NoDup_app. split_and!; [done| |apply NoDup_singleton].
    intros x Hx ->%list_elem_of_singleton. done.
  - apply Forall_app. by repeat constructor.
Qed.

Lemma host_executable_ok (b b' : builder) name paths :
  host_executable windows b name paths = Ok b' → builder_ok b → builder_ok b'.
Proof.
  unfold host_executable. rewrite res_bind_Ok. intros (_ & _ & H).
  rewrite res_bind_Ok in H. destruct H as (parsed & Hp & [= <-]). intros [[Hr Hn Hh] Hv].
  split; [split; [exact Hr|exact Hn|]|exact Hv]. simpl. intros name' paths'.
  destruct (decide (executable_lookup_key windows name = name')) as [<-|Hne].
  - rewrite lookup_insert_eq. intros [= <-].
    apply (foldM_inv (host_entry_ok (executable_lookup_key windows name)) _ _ _ _
             (λ s x s' Hs Hx, host_path_step_ok name s x s' Hx Hs)
             (conj (NoDup_nil_2) (Forall_nil_2 _)) Hp).
  - rewrite lookup_insert_ne by done. apply Hh.
Qed.

Lemma run_call_ok (b b' : builder) c : run_call windows b c = Ok b' → builder_ok b → builder_ok b'.
Proof.
  destruct c; simpl; eauto using prefix_rule_ok, network_rule_builder_ok, host_executable_ok.
Qed.

Lemma run_calls_ok (b : builder) calls (stop : option SE) :
  builder_ok b → builder_ok (run_calls windows b calls stop).1.
Proof.
  revert b. induction calls as [|c calls IH]; intros b Hb; simpl; [done|].
  destruct (run_call windows b c) eqn:E; simpl; eauto using run_call_ok.
Qed.

(** ** The commands of a [prefix_rule] call *)

Lemma expand_accepts first rest d j pre :
  (∃ r, r ∈ expand_rules first rest d j ∧ pattern_accepts (pattern r) pre)
  ↔ Forall2 (λ t c, c ∈ token_alternatives t) (first :: rest) pre.
Proof.
  unfold expand_rules. setoid_rewrite list_elem_of_fmap. split.
  - intros (r & (head & -> & Hh) & args & -> & H). by constructor.
  - intros (c & args & Hc & Ha & ->)%Forall2_cons_inv_l. eexists. split; [by exists c|]. by exists args.
Qed.

(** A [prefix_rule] call covers exactly the commands that start with a word
    its first element accepts, followed by words its further elements accept;
    the rules it adds carry its decision, and nothing else changes coverage. *)
Theorem prefix_rule_covers (b b' : builder) pat decision ms nms j loc :
  prefix_rule b pat decision ms nms j loc = Ok b' →
  ∃ first rest d,
    parse_pattern (Loc := Loc) pat = Ok (first :: rest)
    ∧ match decision with Some raw => decision_parse (Loc := Loc) raw | None => Ok Allow end = Ok d
    ∧ (∀ r, r ∈ expand_rules first rest d j → rule_decision r = d)
    ∧ (∀ r cmd, covers (builder_build b') r cmd ↔
         covers (builder_build b) r cmd
         ∨ r ∈ expand_rules first rest d j
           ∧ ∃ pre, pattern_accepts (pattern r) pre ∧ pre `prefix_of` cmd)
    ∧ ∀ cmd, (∃ r, r ∈ expand_rules first rest d j ∧ covers (builder_build b') r cmd) ↔
        ∃ pre, Forall2 (λ t c, c ∈ token_alternatives t) (first :: rest) pre ∧ pre `prefix_of` cmd.
Proof.
  intros (first & rest & d & ms' & nms' & Hp & Hd & _ & _ & _ & _ & ->)%prefix_rule_inv.
  exists first, rest, d. split; [done|]. split; [done|].
  set (rs := expand_rules first rest d j). set (b1 := add_pending_example_validation b _).
  assert (Hc : ∀ r cmd, covers (builder_build (foldl add_rule b1 rs)) r cmd ↔
      covers (builder_build b) r cmd
      ∨ r ∈ rs ∧ ∃ pre, pattern_accepts (pattern r) pre ∧ pre `prefix_of` cmd).
  { intros r cmd. unfold covers. simpl. setoid_rewrite add_rules_lookup.
    setoid_rewrite elem_of_app. setoid_rewrite list_elem_of_filter. simpl. split.
    - intros (c & args & -> & [?|[_ ?]] & ?); [left; exists c, args|right]; tauto.
    - intros [(c & args & ? & ? & ?)|[Hr (pre & (args & -> & Ha) & Hpre)]]; [exists c, args; tauto|].
      destruct Hpre as [k ->]. eexists _, (args ++ k). split; [done|]. split; [by right|].
      eexists. split; [by exists args|]. by exists k. }
  split_and!; [by intros r (head & -> & _)%list_elem_of_fmap|done|].
  intros cmd. setoid_rewrite Hc. setoid_rewrite <- (expand_accepts first rest d j). fold rs. split.
  - intros (r & Hr & [(c & args & -> & _ & pre & Ha & Hpre)|(_ & pre & Ha & Hpre)]); eauto.
  - intros (pre & (r & Hr & Ha) & Hpre). exists r. split; [done|]. right. eauto.
Qed.

Variable ast_parse : str → str → res SE Ast.
Variable ast_calls : Ast → list (Call Loc) * option SE.

Lemma parse_builder_ok (b : builder) id contents :
  builder_ok b → builder_ok (parse windows ast_parse ast_calls b id contents).1.
Proof.
  intros Hb. unfold parse. destruct (ast_parse id contents) as [ast|e|]; [|done|done].
  destruct (ast_calls ast) as [calls stop]. pose proof (run_calls_ok b calls stop Hb) as H.
  destruct (run_calls windows b calls stop) as [b' [u|e|]]; done.
Qed.

(** ** Policies the program can hold *)

(** Builders after any number of parses, failed ones included. *)
Inductive reachable_builder : builder → Prop :=
  | reach_new : reachable_builder builder_new
  | reach_parse b id contents :
      reachable_builder b → reachable_builder (parse windows ast_parse ast_calls b id contents).1.

(** Policies built from them and changed by the operations of [Policy]. *)
Inductive reachable_policy : Policy AP → Prop :=
  | reach_empty : reachable_policy policy_empty
  | reach_build b : reachable_builder b → reachable_policy (builder_build b)
  | reach_prefix_rule p prefix d p' :
      reachable_policy p → add_prefix_rule (Loc := Loc) p prefix d = Ok p' → reachable_policy p'
  | reach_network_rule p host protocol d j p' :
      reachable_policy p → add_network_rule (Loc := Loc) p host protocol d j = Ok p' →
      reachable_policy p'
  | reach_merge p o : reachable_policy p → reachable_policy o → reachable_policy (merge_overlay p o).

Lemma reachable_builder_ok b : reachable_builder b → builder_ok b.
Proof. induction 1; auto using builder_ok_new, parse_builder_ok. Qed.

Lemma add_prefix_rule_ok (p p' : Policy AP) prefix d :
  add_prefix_rule (Loc := Loc) p prefix d = Ok p' → policy_ok p → policy_ok p'.
Proof.
  destruct prefix as [|first rest]; [done|]. intros [= <-] H.
  apply (policy_ok_rules p); [done|done|done|]. intros program r. simpl.
  rewrite rules_at_insert, elem_of_app. intros [?|Hr]; [by left|right].
  destruct (decide (first = program)) as [<-|]; [|by apply not_elem_of_nil in Hr].
  apply list_elem_of_singleton in Hr as ->. split_and!; [done| |done]. simpl.
  apply Forall_fmap, Forall_true. done.
Qed.

Lemma add_network_rule_ok (p p' : Policy AP) host protocol d j :
  add_network_rule (Loc := Loc) p host protocol d j = Ok p' → policy_ok p → policy_ok p'.
Proof.
  unfold add_network_rule. rewrite res_bind_Ok. intros (h & [Hne Hch]%normalize_output & H).
  destruct (blank_justification j) eqn:Ej; [done|]. injection H as <-. intros [Hr Hn Hh].
  split; [done| |done]. simpl. apply Forall_app. split; [done|]. by repeat constructor.
Qed.

Lemma merge_overlay_ok (p o : Policy AP) : policy_ok p → policy_ok o → policy_ok (merge_overlay p o).
Proof.
  intros [Pr Pn Ph] [Or On Oh]. split; simpl.
  - intros program r. rewrite rules_at_merge, elem_of_app. naive_solver.
  - by apply Forall_app.
  - intros name paths. rewrite lookup_union_Some_raw. naive_solver.
Qed.

(** Every policy the program can build, from policy files that parsed or
    failed half way and by amending and merging, is well formed: rules are kept
    under their own first word and have no empty alternatives, network hosts
    are normalised, justifications are not blank, and the paths of a host
    executable are distinct and bear its name. *)
Theorem reachable_policy_ok p : reachable_policy p → policy_ok p.
Proof.
  induction 1; eauto using policy_ok_empty, add_prefix_rule_ok, add_network_rule_ok, merge_overlay_ok.
  by apply ok_policy, reachable_builder_ok.
Qed.

(** ** Examples *)

(** The policy grows: rules are only added and host executables are the same. *)
Lemma example_matches_mono (p q : Policy AP) ex :
  (∀ k r, r ∈ rules_at (rules_by_program p) k → r ∈ rules_at (rules_by_program q) k) →
  host_executables_by_name q = host_executables_by_name p →
  example_matches windows p ex ≠ [] → example_matches windows q ex ≠ [].
Proof.
  intros Hr Hh Hp Hq. unfold example_matches in *.
  assert (Hno : ∀ r, ¬ covers q r ex).
  { destruct (matches_cases windows q ex None example_options) as [[_ H]|[(H & _)|(H & _)]]; done. }
  assert (Hhost : match_host_executable_rules windows q ex = []).
  { destruct (matches_cases windows q ex None example_options)
      as [[_ H]|[(_ & _ & _ & H)|(_ & [?|H] & _)]]; done. }
  assert (Hcov : ∀ r, ¬ covers p r ex) by (intros r (c & args & -> & ? & ?); apply (Hno r); exists c, args; eauto).
  destruct (matches_cases windows p ex None example_options) as [[E H]|[(_ & _ & E & H)|(_ & _ & E)]].
  - assert (En : nonempty (match_exact_rules p ex) = None) by by apply no_exact_match.
    rewrite E in En. apply nonempty_None in En as [?|[=]]; done.
  - destruct (match_host_executable_rules windows p ex) as [|m ms] eqn:Em; [by rewrite E in H|].
    assert (Hm : m ∈ match_host_executable_rules windows p ex) by (rewrite Em; set_solver).
    apply elem_of_host_matches in Hm as (c & args & prog & base & r & pre & -> & ? & ? & Hl & Hin & ? & ? & ->).
    refine (not_elem_of_nil (PrefixRuleMatch pre (rule_decision r) (Some prog) (rule_justification r)) _).
    rewrite <- Hhost. apply elem_of_host_matches. exists c, args, prog, base, r, pre.
    rewrite Hh. split_and!; auto.
  - by rewrite E in Hp.
Qed.

Lemma no_example_match (p : Policy AP) ex r : example_matches windows p ex = [] → ¬ covers p r ex.
Proof.
  unfold example_matches. intros H.
  destruct (matches_cases windows p ex None example_options) as [[_ ?]|[(? & _)|(? & _)]]; done.
Qed.

Lemma validate_match_Ok policy rules ms :
  validate_match_examples (Loc := Loc) windows policy rules ms = Ok tt →
  Forall (λ ex, example_matches windows policy ex ≠ []) ms.
Proof.
  unfold validate_match_examples. destruct (map render_example _) as [|x l] eqn:E; [|done]. intros _.
  apply fmap_nil_inv in E. apply Forall_forall. intros ex Hex Hm.
  refine (not_elem_of_nil ex _). rewrite <- E. by apply list_elem_of_filter.
Qed.

Lemma validate_not_match_Ok policy nms :
  validate_not_match_examples (Loc := Loc) windows policy nms = Ok tt →
  Forall (λ ex, example_matches windows policy ex = []) nms.
Proof.
  induction nms as [|ex nms IH]; simpl; [constructor|].
  destruct (example_matches windows policy ex) eqn:E; [|done]. intros H. constructor; auto.
Qed.

Lemma foldM_unit_Ok {E X} (f : unit → X → res E unit) l u v :
  foldM f u l = Ok v → Forall (λ x, f tt x = Ok tt) l.
Proof.
  revert u. induction l as [|x l IH]; intros []; simpl; [constructor|].
  rewrite res_bind_Ok. intros ([] & Hx & Hl). constructor; eauto.
Qed.

Lemma validation_policy_rules (b : builder) v k r :
  r ∈ rules_at (rules_by_program (validation_policy b v)) k ↔
  r ∈ pending_rules v ∧ pattern_first (pattern r) = k.
Proof.
  unfold validation_policy. simpl.
  enough (∀ m rs, r ∈ rules_at (foldl (λ m r, multi_insert m (pattern_first (pattern r)) r) m rs) k
      ↔ r ∈ rules_at m k ∨ (r ∈ rs ∧ pattern_first (pattern r) = k)) as ->.
  { unfold rules_at. rewrite lookup_empty. simpl. rewrite elem_of_nil. tauto. }
  intros m rs. revert m. induction rs as [|r' rs IH]; intros m; simpl.
  - rewrite elem_of_nil. tauto.
  - rewrite IH, rules_at_insert, elem_of_app, elem_of_cons. destruct (decide _) as [<-|Hne].
    + rewrite list_elem_of_singleton. naive_solver.
    + rewrite elem_of_nil. naive_solver.
Qed.

(** A validation that passed. *)
Lemma validate_pending_Ok (b : builder) v :
  validation_ok b v → validate_pending windows b v = Ok tt →
  Forall (λ ex, example_matches windows (builder_build b) ex ≠ []) (pending_matches v)
  ∧ Forall (λ ex, ∀ r pre, r ∈ pending_rules v → pattern_accepts (pattern r) pre →
              ¬ pre `prefix_of` ex) (pending_not_matches v).
Proof.
  intros Hv. unfold validate_pending. rewrite res_bind_Ok.
  intros ([] & Hn%map_err_Ok%validate_not_match_Ok & Hm%map_err_Ok%validate_match_Ok). split.
  - eapply Forall_impl; [exact Hm|]. intros ex. apply example_matches_mono; [|done].
    intros k r [Hr <-]%validation_policy_rules. by apply (proj1 (Forall_forall _ _) Hv).
  - eapply Forall_impl; [exact Hn|]. simpl. intros ex Hex r pre Hr Ha Hpre.
    apply (no_example_match _ _ r Hex). pose proof Ha as (args & -> & _). destruct Hpre as [k ->].
    exists (pattern_first (pattern r)), (args ++ k). split; [done|].
    split; [by apply validation_policy_rules|]. eexists. split; [done|]. by exists k.
Qed.

(** What a run of calls leaves pending. *)
Definition call_recorded (vs : list (PendingExampleValidation Loc)) (c : Call Loc) : Prop :=
  match c with
  | CallPrefixRule pat decision ms nms j loc =>
      ∃ v first rest d, v ∈ vs ∧ parse_pattern (Loc := Loc) pat = Ok (first :: rest)
        ∧ optional_examples (Loc := Loc) ms = Ok (pending_matches v)
        ∧ optional_examples (Loc := Loc) nms = Ok (pending_not_matches v)
        ∧ pending_rules v = expand_rules first rest d j
  | _ => True
  end.

Lemma run_call_recorded (b b' : builder) c :
  run_call windows b c = Ok b' →
  ∃ vs, pending_example_validations b' = pending_example_validations b ++ vs ∧ call_recorded vs c.
Proof.
  destruct c as [pat decision ms nms j loc|host pr d j|name paths]; simpl; intros H.
  - apply prefix_rule_inv in H as (first & rest & d & ms' & nms' & Hp & _ & Hms & Hnms & _ & _ & ->).
    destruct (add_rules_frame (add_pending_example_validation b
      {| pending_rules := expand_rules first rest d j; pending_matches := ms';
         pending_not_matches := nms'; pending_location := loc |}) (expand_rules first rest d j)) as (_ & _ & ->).
    eexists. split; [done|]. eexists _, first, rest, d. split; [by apply list_elem_of_singleton|]. done.
  - exists []. rewrite app_nil_r. split; [|done]. revert H. unfold network_rule.
    rewrite res_bind_Ok. intros (? & _ & H). rewrite res_bind_Ok in H. destruct H as (? & _ & H).
    rewrite res_bind_Ok in H. destruct H as (? & _ & H). rewrite res_bind_Ok in H.
    by destruct H as (? & _ & [= <-]).
  - exists []. rewrite app_nil_r. split; [|done]. revert H. unfold host_executable.
    rewrite res_bind_Ok. intros (? & _ & H). rewrite res_bind_Ok in H. by destruct H as (? & _ & [= <-]).
Qed.

Lemma call_recorded_mono vs ws c : vs ⊆ ws → call_recorded vs c → call_recorded ws c.
Proof. destruct c; simpl; [|done..]. intros H (v & first & rest & d & ? & ?). exists v, first, rest, d. auto. Qed.

Lemma run_calls_recorded (b b' : builder) calls (stop : option SE) u :
  run_calls windows b calls stop = (b', Ok u) →
  stop = None
  ∧ ∃ vs, pending_example_validations b' = pending_example_validations b ++ vs
          ∧ Forall (call_recorded vs) calls.
Proof.
  revert b. induction calls as [|c calls IH]; intros b; simpl.
  - destruct stop; [done|]. intros [= <- _]. split; [done|]. exists []. by rewrite app_nil_r.
  - destruct (run_call windows b c) as [b1|e|] eqn:E; [|done|done].
    intros H. destruct (IH _ H) as (-> & ws & Ew & Hw). split; [done|].
    destruct (run_call_recorded _ _ _ E) as (vs & Ev & Hv). exists (vs ++ ws).
    rewrite Ew, Ev, app_assoc. split; [done|]. constructor.
    + eapply call_recorded_mono; [|done]. set_solver.
    + eapply Forall_impl; [exact Hw|]. intros c'. apply call_recorded_mono. set_solver.
Qed.

(** When a policy file parses, its evaluation ended without error and every
    [prefix_rule] call's examples hold: each example to match is matched by a
    rule of the resulting policy, directly or through its resolved program, and
    no example not to match starts with words the call's pattern accepts. *)
Theorem parse_examples_hold (b b' : builder) id contents :
  builder_ok b → parse windows ast_parse ast_calls b id contents = (b', Ok tt) →
  ∃ ast calls, ast_parse id contents = Ok ast ∧ ast_calls ast = (calls, None)
    ∧ ∀ pat decision ms nms j loc, CallPrefixRule pat decision ms nms j loc ∈ calls →
      ∃ first rest matches not_matches,
        parse_pattern (Loc := Loc) pat = Ok (first :: rest)
        ∧ optional_examples (Loc := Loc) ms = Ok matches
        ∧ optional_examples (Loc := Loc) nms = Ok not_matches
        ∧ (∀ ex, ex ∈ matches → example_matches windows (builder_build b') ex ≠ [])
        ∧ ∀ ex pre, ex ∈ not_matches →
            Forall2 (λ t c, c ∈ token_alternatives t) (first :: rest) pre → ¬ pre `prefix_of` ex.
Proof.
  intros Hb H. pose proof (parse_builder_ok b id contents Hb) as Hb'. rewrite H in Hb'. simpl in Hb'.
  unfold parse in H. destruct (ast_parse id contents) as [ast|e|] eqn:Ea; [|done|done].
  destruct (ast_calls ast) as [calls stop] eqn:Ec.
  destruct (run_calls windows b calls stop) as [b1 [u|e|]] eqn:Er; [|done|done].
  injection H as -> Hval%map_err_Ok. unfold validate_pending_examples_from in Hval.
  destruct (_ <=? _); [|done]. apply foldM_unit_Ok in Hval.
  destruct (run_calls_recorded _ _ _ _ _ Er) as (-> & vs & Ev & Hvs).
  exists ast, calls. split; [done|]. split; [done|]. intros pat decision ms nms j loc Hc.
  rewrite Forall_forall in Hvs. destruct (Hvs _ Hc) as (v & first & rest & d & Hv & Hp & Hms & Hnms & Hrs).
  rewrite Ev, drop_app_length in Hval. rewrite Forall_forall in Hval. specialize (Hval v Hv). simpl in Hval.
  destruct (validate_pending_Ok b' v) as [H1 H2]; [|done|].
  { pose proof (ok_pending _ Hb') as Hok. rewrite Forall_forall in Hok. apply Hok. rewrite Ev. set_solver. }
  exists first, rest, (pending_matches v), (pending_not_matches v).
  rewrite Forall_forall in H1, H2. split_and!; [done..|].
  intros ex pre Hex Ha. apply (expand_accepts first rest d j) in Ha as (r & Hr & Ha).
  eapply H2; [done| |done]. by rewrite Hrs.
Qed.

End Facts.

(** ** The theorems at concrete policies *)

(** The functions of other packages, for text without quoting. *)
Definition sample_env : ParserEnv str := {|
  shlex_split s := Some (filter (λ w, w ≠ []) (split_char c_sp s));
  try_join words := Some (join [c_sp] words);
  path_is_absolute := starts_with (lit "/");
  path_components s := length (filter (λ w, w ≠ []) (split_char 47%N s));
  raw_file_name s := last (filter (λ w, w ≠ []) (split_char 47%N s));
  absolute_path_error _ := lit "not absolute";
  rule_debug r := pattern_first (pattern r);
  rule_match_debug _ := lit "match";
|}.

Definition sample_pattern : list Value := [VStr (lit "git"); VList [VStr (lit "push"); VStr (lit "fetch")]].
Definition sample_prefix_call : Call unit :=
  CallPrefixRule sample_pattern (Some (lit "prompt")) (Some [VStr (lit "git push origin")])
    (Some [VStr (lit "git status")]) None None.
Definition sample_calls : list (Call unit) :=
  [CallHostExecutable (lit "git") [VStr (lit "/usr/bin/git")]; sample_prefix_call;
   CallNetworkRule (lit "API.Example.com:443") (lit "https") (lit "deny") None].

Definition sample_parse (b : PolicyBuilder str unit) (id contents : str)
    : PolicyBuilder str unit * res (PolicyParseError unit unit) unit :=
  parse (HP := unix_host_paths) (PE := sample_env) false (λ _ contents, Ok contents)
    (λ _, (sample_calls, None)) b id contents.

Definition sample_builder : PolicyBuilder str unit := (sample_parse builder_new [] []).1.

Lemma reachable_policy_ok_witness :
  reachable_policy (HP := unix_host_paths) (PE := sample_env) (Loc := unit) (SE := unit) false
    (λ _ contents, Ok contents) (λ _, (sample_calls, None)) (builder_build sample_builder)
  ∧ policy_ok (HP := unix_host_paths) false (builder_build sample_builder).
Proof.
  assert (H : reachable_policy (HP := unix_host_paths) (PE := sample_env) (Loc := unit) (SE := unit) false
    (λ _ contents, Ok contents) (λ _, (sample_calls, None)) (builder_build sample_builder)).
  { apply reach_build. unfold sample_builder, sample_parse. apply reach_parse. apply reach_new. }
  split; [exact H|].
  exact (reachable_policy_ok (HP := unix_host_paths) (PE := sample_env) false
    (λ _ contents, Ok contents) (λ _, (sample_calls, None)) (builder_build sample_builder) H).
Defined.

Definition sample_prefix_result : res (PolicyError unit) (PolicyBuilder str unit) :=
  prefix_rule builder_new (PE := sample_env) sample_pattern (Some (lit "prompt")) None None None None.

Lemma prefix_rule_covers_witness :
  match sample_prefix_result with
  | Ok b' =>
    ∃ first rest d,
    parse_pattern (Loc := unit) sample_pattern = Ok (first :: rest)
    ∧ decision_parse (Loc := unit) (lit "prompt") = Ok d
    ∧ (∀ r, r ∈ expand_rules first rest d None → rule_decision r = d)
    ∧ (∀ r cmd, covers (builder_build b') r cmd ↔
         covers (builder_build (Loc := unit) (AP := str) builder_new) r cmd
         ∨ r ∈ expand_rules first rest d None
           ∧ ∃ pre, pattern_accepts (pattern r) pre ∧ pre `prefix_of` cmd)
    ∧ ∀ cmd, (∃ r, r ∈ expand_rules first rest d None ∧ covers (builder_build b') r cmd) ↔
        ∃ pre, Forall2 (λ t c, c ∈ token_alternatives t) (first :: rest) pre ∧ pre `prefix_of` cmd
  | _ => False
  end.
Proof.
  assert (Hok : is_ok sample_prefix_result = true) by (vm_compute; reflexivity).
  destruct sample_prefix_result as [b'|e|] eqn:E; [|discriminate Hok|discriminate Hok].
  exact (prefix_rule_covers (PE := sample_env) builder_new b' sample_pattern (Some (lit "prompt"))
    None None None None E).
Defined.

Lemma parse_examples_hold_witness :
  ∃ ast calls, ([] : str) = ast ∧ sample_calls = calls
    ∧ ∀ pat decision ms nms j loc, CallPrefixRule pat decision ms nms j loc ∈ calls →
      ∃ first rest matches not_matches,
        parse_pattern (Loc := unit) pat = Ok (first :: rest)
        ∧ optional_examples (PE := sample_env) (Loc := unit) ms = Ok matches
        ∧ optional_examples (PE := sample_env) (Loc := unit) nms = Ok not_matches
        ∧ (∀ ex, ex ∈ matches →
             example_matches (HP := unix_host_paths) false (builder_build sample_builder) ex ≠ [])
        ∧ ∀ ex pre, ex ∈ not_matches →
            Forall2 (λ t c, c ∈ token_alternatives t) (first :: rest) pre → ¬ pre `prefix_of` ex.
Proof.
  assert (Hok : (sample_parse builder_new [] []).2 = Ok tt) by (vm_compute; reflexivity).
  destruct (parse_examples_hold (HP := unix_host_paths) (PE := sample_env) (SE := unit) false
    (λ _ contents, Ok contents) (λ _, (sample_calls, None)) builder_new sample_builder [] []
    (builder_ok_new (HP := unix_host_paths) false))
    as (ast & calls & Ha & Hc & H).
  { change (sample_parse builder_new [] [] = (sample_builder, Ok tt)). unfold sample_builder.
    rewrite <- Hok. apply surjective_pairing. }
  exists ast, calls. injection Ha as Ha. injection Hc as Hc. split; [exact Ha|]. split; [exact Hc|]. exact H.
Defined.
