(* ===== verification/PolicyAmend.v ===== *)
(** * Amending and migrating policy files

    Models [execpolicy/src/amend.rs], which appends one rule line to a policy
    file under a lock, and [execpolicy/src/sandbox_migration.rs], which removes
    banned allow rules once. The files are reached through an interface, in
    state-passing style over the state [W] of the file system; JSON is the work
    of the package [serde_json]. *)

From S2P Require Import Prelude RustStr RustIo Utf8 ExecPolicy.
Open Scope list_scope.

(** ** Interfaces *)

(** The file operations the two files use. A file is named by its path; the
    code holds one handle at a time, so a handle is its path as well.
    [read_from_start] is a read to the end of a handle at offset 0,
    [write_at_start] a [write_all] there, [temp_file] is
    [NamedTempFile::new_in]. *)
Class PolicyFs (W : Type) := {
  dir_of : str → option str;
  join_path : str → str → str;
  create_dir : str → W → io_result unit * W;
  create_dir_all : str → W → io_result unit * W;
  open_append : str → W → io_result unit * W;
  open_read_write : str → W → io_result unit * W;
  lock_file : str → W → io_result unit * W;
  seek_start : str → W → io_result unit * W;
  read_from_start : str → W → io_result bytes;
  append_all : str → bytes → W → io_result unit * W;
  write_at_start : str → bytes → W → io_result unit * W;
  set_len : str → nat → W → io_result unit * W;
  try_exists : str → W → io_result bool;
  temp_file : str → W → io_result str * W;
  persist_noclobber : str → str → W → io_result unit * W;
}.

(** [serde_json::to_string] of a string, and [serde_json::from_str] of a list
    of strings. *)
Class Json (JE : Type) := {
  json_to_string : str → JE + str;
  json_from_str : str → option (list str);
}.

(** ** Errors ([AmendError]) *)

Inductive AmendError (JE : Type) :=
  | EmptyPrefix
  | InvalidNetworkRule (message : str)
  | MissingParent (path : str)
  | CreatePolicyDir (dir : str) (source : IoErr)
  | SerializePrefix (source : JE)
  | SerializeNetworkRule (source : JE)
  | OpenPolicyFile (path : str) (source : IoErr)
  | WritePolicyFile (path : str) (source : IoErr)
  | LockPolicyFile (path : str) (source : IoErr)
  | SeekPolicyFile (path : str) (source : IoErr)
  | ReadPolicyFile (path : str) (source : IoErr)
  | PolicyMetadata (path : str) (source : IoErr).
Arguments EmptyPrefix {JE}.
Arguments InvalidNetworkRule {JE} message.
Arguments MissingParent {JE} path.
Arguments CreatePolicyDir {JE} dir source.
Arguments SerializePrefix {JE} source.
Arguments SerializeNetworkRule {JE} source.
Arguments OpenPolicyFile {JE} path source.
Arguments WritePolicyFile {JE} path source.
Arguments LockPolicyFile {JE} path source.
Arguments SeekPolicyFile {JE} path source.
Arguments ReadPolicyFile {JE} path source.
Arguments PolicyMetadata {JE} path source.

(** The [Display] text of the errors [normalize_network_rule_host] returns,
    which are all of the variant [InvalidRule]; the others carry the [Debug]
    text of lists, an argument here. *)
Definition display_policy_error {Loc} (debug_list : list str → str) (e : PolicyError Loc) : str :=
  match e with
  | InvalidDecision raw => lit "invalid decision: " ++ raw
  | InvalidPattern m => lit "invalid pattern element: " ++ m
  | InvalidExample m => lit "invalid example: " ++ m
  | InvalidRule m => lit "invalid rule: " ++ m
  | ExampleDidNotMatch rules examples _ =>
      lit "expected every example to match at least one rule. rules: " ++ debug_list rules
      ++ lit "; unmatched examples: " ++ debug_list examples
  | ExampleDidMatch rule example _ =>
      lit "expected example to not match rule `" ++ rule ++ lit "`: " ++ example
  end.

Section Amend.
Context {W JE : Type} `{FS : !PolicyFs W} `{JS : !Json JE}.

(** ** The file monad: the file system, a result and early return *)

Definition FM (E A : Type) : Type := W → res E A * W.
Definition fm_ret {E A} (a : A) : FM E A := λ w, (Ok a, w).
Definition fm_err {E A} (e : E) : FM E A := λ w, (Err e, w).
Definition fm_bind {E A B} (m : FM E A) (k : A → FM E B) : FM E B := λ w,
  match m w with
  | (Ok a, w') => k a w'
  | (Err e, w') => (Err e, w')
  | (Panic, w') => (Panic, w')
  end.
(** A file operation whose error is mapped. *)
Definition fm_io {E A} (op : W → io_result A * W) (f : IoErr → E) : FM E A := λ w,
  match op w with
  | (inr a, w') => (Ok a, w')
  | (inl e, w') => (Err (f e), w')
  end.
Definition fm_lift {E A} (r : res E A) : FM E A := λ w, (r, w).

Notation "'let*' x := m 'in' k" := (fm_bind m (λ x, k))
  (at level 10, x pattern, m at level 100, k at level 200).

Definition invalid_data : IoErr :=
  {| io_kind := OtherKind 1; io_msg := lit "stream did not contain valid UTF-8" |}.

(** [Read::read_to_string], and [tokio::fs::read_to_string]. *)
Definition read_to_string (path : str) (w : W) : io_result str * W :=
  (match read_from_start path w with
   | inl e => inl e
   | inr bs => match from_utf8 bs with Ok s => inr s | _ => inl invalid_data end
   end, w).

(** ** [amend.rs] *)

Definition append_locked_line (path line : str) : FM (AmendError JE) unit :=
  let* _ := fm_io (open_append path) (OpenPolicyFile path) in
  let* _ := fm_io (lock_file path) (LockPolicyFile path) in
  let* _ := fm_io (seek_start path) (SeekPolicyFile path) in
  let* contents := fm_io (read_to_string path) (ReadPolicyFile path) in
  if existsb (λ existing, bool_decide (existing = line)) (str_lines contents) then fm_ret tt
  else
    let* _ := if negb (bool_decide (contents = [])) && negb (ends_with [c_lf] contents)
              then fm_io (append_all path (encode [c_lf])) (WritePolicyFile path)
              else fm_ret tt in
    fm_io (append_all path (encode (line ++ [c_lf]))) (WritePolicyFile path).

Definition append_rule_line (path rule : str) : FM (AmendError JE) unit :=
  match dir_of path with
  | None => fm_err (MissingParent path)
  | Some dir => λ w,
      match create_dir dir w with
      | (inl e, w') => if kind_is AlreadyExists e then append_locked_line path rule w'
                       else (Err (CreatePolicyDir dir e), w')
      | (inr _, w') => append_locked_line path rule w'
      end
  end.

Definition json_or {E} (f : JE → E) (s : str) : res E str :=
  match json_to_string s with inl e => Err (f e) | inr t => Ok t end.

Fixpoint json_all {E} (f : JE → E) (l : list str) : res E (list str) :=
  match l with
  | [] => Ok []
  | s :: l' => let? t := json_or f s in let? ts := json_all f l' in Ok (t :: ts)
  end.

Definition dquoted (s : str) : str := [c_dquote] ++ s ++ [c_dquote].

(** The line of an allow rule, given the JSON of its words. *)
Definition prefix_rule_text (tokens : list str) : str :=
  lit "prefix_rule(pattern=" ++ (lit "[" ++ join (lit ", ") tokens ++ lit "]")
  ++ (lit ", decision=" ++ dquoted (lit "allow") ++ lit ")").

Definition blocking_append_allow_prefix_rule (path : str) (prefix : list str)
    : FM (AmendError JE) unit :=
  if bool_decide (prefix = []) then fm_err EmptyPrefix
  else
    let* tokens := fm_lift (json_all SerializePrefix prefix) in
    append_rule_line path (prefix_rule_text tokens).

Definition decision_policy_string (d : Decision) : str :=
  match d with Allow => lit "allow" | Prompt => lit "prompt" | Forbidden => lit "deny" end.

Definition network_rule_text (debug_list : list str → str) (host : str)
    (protocol : NetworkRuleProtocol) (d : Decision) (justification : option str)
    : res (AmendError JE) str :=
  let? host := map_err (λ e : PolicyError unit, InvalidNetworkRule (display_policy_error debug_list e))
                 (normalize_network_rule_host host) in
  if blank_justification justification
  then Err (InvalidNetworkRule (lit "justification cannot be empty"))
  else
    let? host := json_or SerializeNetworkRule host in
    let? protocol := json_or SerializeNetworkRule (as_policy_string protocol) in
    let? decision := json_or SerializeNetworkRule (decision_policy_string d) in
    let args := [lit "host=" ++ host; lit "protocol=" ++ protocol; lit "decision=" ++ decision] in
    let? args := match justification with
                 | Some j => let? j := json_or SerializeNetworkRule j in
                             Ok (args ++ [lit "justification=" ++ j])
                 | None => Ok args
                 end in
    Ok (lit "network_rule(" ++ join (lit ", ") args ++ lit ")").

Definition blocking_append_network_rule (debug_list : list str → str) (path host : str)
    (protocol : NetworkRuleProtocol) (d : Decision) (justification : option str)
    : FM (AmendError JE) unit :=
  let* rule := fm_lift (network_rule_text debug_list host protocol d justification) in
  append_rule_line path rule.

(** ** [sandbox_migration.rs] *)

Definition MIGRATION_MARKER_FILENAME : str := lit ".sandbox_migration".

Definition lower_all (tokens : list str) : list str := map to_ascii_lowercase tokens.

Definition strip_suffix_or (suffix line : str) : str := default line (strip_suffix suffix line).

(** The text between the two fixed parts of an allow rule's line. *)
Definition allow_rule_pattern (line : str) : option str :=
  let line := strip_suffix_or [c_cr] (strip_suffix_or [c_lf] line) in
  match strip_prefix (lit "prefix_rule(pattern=") line with
  | None => None
  | Some rest => strip_suffix (lit ", decision=" ++ dquoted (lit "allow") ++ lit ")") rest
  end.

Definition should_remove_rule (line : str) (banned : list (list str)) : bool :=
  match allow_rule_pattern line with
  | None => false
  | Some pattern =>
      match json_from_str pattern with
      | None => false
      | Some prefix => bool_decide (lower_all prefix ∈ banned)
      end
  end.

(** [str::split_inclusive('\n')]. *)
Fixpoint split_inclusive (s : str) : list str :=
  match s with
  | [] => []
  | c :: s' =>
      if (c =? c_lf)%N then [c] :: split_inclusive s'
      else match split_inclusive s' with
           | [] => [[c]]
           | l :: ls => (c :: l) :: ls
           end
  end.

Definition strip_banned_allow_rules (contents : str) (banned_prefixes : list (list str)) : str :=
  let banned := map lower_all banned_prefixes in
  concat (filter (λ line, should_remove_rule line banned = false) (split_inclusive contents)).

Definition clean_rules_file (path : str) (banned : list (list str)) : FM IoErr unit := λ w,
  match read_to_string path w with
  | (inl e, w) => if kind_is NotFound e then (Ok tt, w) else (Err e, w)
  | (inr contents, w) =>
      if bool_decide (strip_banned_allow_rules contents banned = contents) then (Ok tt, w)
      else
        match open_read_write path w with
        | (inl e, w) => if kind_is NotFound e then (Ok tt, w) else (Err e, w)
        | (inr _, w) =>
            (let* contents := fm_io (read_to_string path) id in
             let retained := strip_banned_allow_rules contents banned in
             if bool_decide (retained = contents) then fm_ret tt
             else
               let* _ := fm_io (seek_start path) id in
               let* _ := fm_io (write_at_start path (encode retained)) id in
               let* _ := fm_io (set_len path (str_len retained)) id in
               fm_ret tt) w
        end
  end.

Definition write_migration_marker (codex_home marker_path : str) : FM IoErr unit :=
  let* _ := fm_io (create_dir_all codex_home) id in
  let* marker := fm_io (temp_file codex_home) id in
  let* _ := fm_io (append_all marker (encode (lit "v1" ++ [c_lf]))) id in
  λ w, match persist_noclobber marker marker_path w with
       | (inr _, w) => (Ok tt, w)
       | (inl e, w) => if kind_is AlreadyExists e then (Ok tt, w) else (Err e, w)
       end.

Definition prefix_rule_migration (codex_home policy_path : str) (banned : list (list str))
    : FM IoErr unit :=
  let marker_path := join_path codex_home MIGRATION_MARKER_FILENAME in
  let* done := fm_io (λ w, (try_exists marker_path w, w)) id in
  if done : bool then fm_ret tt
  else
    let* _ := clean_rules_file policy_path banned in
    write_migration_marker codex_home marker_path.

End Amend.
