(* ===== verification/PolicyAmendFacts.v ===== *)
(** * Facts about amending and migrating policy files

    Appending a rule line only ever extends the file, adds the line once and
    keeps every other line; the migration removes the banned allow rules,
    which are the lines the amendment writes, and runs once. For any file
    system and any JSON library that keep the laws stated here. The laws speak
    of one process: a lock is granted at once and nobody else writes. *)

From stdpp Require Import gmap.
From S2P Require Import Prelude RustStr RustIo Utf8 ExecPolicy ExecPolicyFacts PolicyParser PolicyAmend.
Open Scope list_scope.

(** ** Lines *)

(** Induction over the lines of a string. *)
Lemma line_ind (P : str → Prop) :
  (∀ p, c_lf ∉ p → P p) → (∀ p s, c_lf ∉ p → P s → P (p ++ c_lf :: s)) → ∀ s, P s.
Proof.
  intros Hp Hs s. remember (length s) as n eqn:En. revert s En.
  induction n as [n IH] using lt_wf_ind. intros s ->.
  destruct (decide (c_lf ∈ s)) as [Hin|]; [|by apply Hp].
  apply list_elem_of_split_l in Hin as (p & r & -> & Hno). apply Hs; [done|].
  eapply IH; [|done]. rewrite length_app. simpl. lia.
Qed.

Lemma str_lines_none p : c_lf ∉ p → str_lines p = if bool_decide (p = []) then [] else [p].
Proof. intros H. unfold str_lines. by rewrite split_char_none. Qed.

Lemma str_lines_cons p s : c_lf ∉ p → str_lines (p ++ c_lf :: s) = strip_cr p :: str_lines s.
Proof.
  intros H. unfold str_lines. rewrite split_char_app by done. simpl.
  by destruct (split_char c_lf s) eqn:E; [apply split_char_not_nil in E|].
Qed.

Lemma ends_with_lf_app p s : ends_with [c_lf] (p ++ c_lf :: s) = bool_decide (s = []) || ends_with [c_lf] s.
Proof.
  apply eq_bool_prop_intro. rewrite orb_True, bool_decide_spec, !Is_true_true, !ends_with_true. split.
  - intros [r E]. destruct (snoc_inv s) as [->|(s' & x & ->)]; [by left|right].
    rewrite app_cons_middle, app_assoc in E. apply app_inj_tail in E as [_ ->]. by exists s'.
  - intros [->|[r ->]]; [by exists p|]. exists (p ++ c_lf :: r). by rewrite <- app_assoc.
Qed.

(** What goes in front of an appended line. *)
Definition line_gap (old : str) : str :=
  if negb (bool_decide (old = [])) && negb (ends_with [c_lf] old) then [c_lf] else [].

Lemma line_gap_cons p s : line_gap (p ++ c_lf :: s) = line_gap s.
Proof.
  unfold line_gap. rewrite ends_with_lf_app.
  rewrite (bool_decide_eq_false_2 (p ++ c_lf :: s = [])); [|by destruct p].
  by destruct (bool_decide (s = [])).
Qed.

(** A line of the file: no line feed in it and no carriage return at its end. *)
Definition plain_line (l : str) : Prop := (c_lf ∉ l) ∧ (last l ≠ Some c_cr).

Lemma strip_cr_plain l : last l ≠ Some c_cr → strip_cr l = l.
Proof.
  intros H. unfold strip_cr. destruct (strip_suffix [c_cr] l) as [r|] eqn:E; [|done].
  apply strip_suffix_Some in E as ->. by rewrite last_snoc in H.
Qed.

Lemma ends_with_lf_in p : c_lf ∉ p → ends_with [c_lf] p = false.
Proof.
  intros H. apply not_true_iff_false. rewrite ends_with_true. intros [r ->]. apply H. set_solver.
Qed.

Lemma str_lines_append old line :
  plain_line line →
  line ∈ str_lines (old ++ line_gap old ++ line ++ [c_lf])
  ∧ (last old ≠ Some c_cr →
     str_lines (old ++ line_gap old ++ line ++ [c_lf]) = str_lines old ++ [line]).
Proof.
  intros [Hlf Hcr]. assert (Hl : str_lines (line ++ [c_lf]) = [line]).
  { rewrite (str_lines_cons line []) by done. by rewrite strip_cr_plain. }
  induction old as [p Hp|p s Hp [IH1 IH2]] using line_ind.
  - unfold line_gap. rewrite ends_with_lf_in by done. rewrite (str_lines_none p) by done.
    case_bool_decide as E; [subst p; simpl; rewrite Hl; split; [set_solver|done]|].
    simpl. rewrite str_lines_cons, Hl by done. split; [set_solver|]. intros Hcp. by rewrite strip_cr_plain.
  - rewrite line_gap_cons. set (t := line_gap s ++ line ++ [c_lf]) in *.
    rewrite <- app_assoc. change ((c_lf :: s) ++ t) with (c_lf :: (s ++ t)). rewrite !str_lines_cons by done.
    split; [set_solver|]. intros Hlast. simpl. f_equal. apply IH2. intros E. apply Hlast.
    destruct (snoc_inv s) as [->|(s' & x & ->)]; [done|].
    rewrite app_cons_middle, app_assoc, last_snoc. by rewrite last_snoc in E.
Qed.

(** ** [split_inclusive] *)

Lemma split_inclusive_none p : c_lf ∉ p → split_inclusive p = if bool_decide (p = []) then [] else [p].
Proof.
  induction p as [|c p IH]; [done|]. intros [Hc Hp]%not_elem_of_cons. simpl.
  destruct (N.eqb_spec c c_lf); [congruence|]. rewrite IH by done. by case_bool_decide; subst.
Qed.

Lemma split_inclusive_cons p s :
  c_lf ∉ p → split_inclusive (p ++ c_lf :: s) = (p ++ [c_lf]) :: split_inclusive s.
Proof.
  induction p as [|c p IH]; intros H; [done|]. apply not_elem_of_cons in H as [Hc Hp]. simpl.
  destruct (N.eqb_spec c c_lf); [congruence|]. by rewrite IH.
Qed.

Lemma concat_split_inclusive s : concat (split_inclusive s) = s.
Proof.
  induction s as [p Hp|p s Hp IH] using line_ind.
  - rewrite split_inclusive_none by done. case_bool_decide; subst; simpl; by rewrite ?app_nil_r.
  - rewrite split_inclusive_cons by done. simpl. by rewrite IH, <- app_assoc.
Qed.

Lemma split_inclusive_app old t :
  line_gap old = [] → split_inclusive (old ++ t) = split_inclusive old ++ split_inclusive t.
Proof.
  induction old as [p Hp|p s Hp IH] using line_ind.
  - unfold line_gap. rewrite ends_with_lf_in by done. case_bool_decide; by subst.
  - rewrite line_gap_cons. intros H. rewrite <- app_assoc.
    change ((c_lf :: s) ++ t) with (c_lf :: (s ++ t)). rewrite !split_inclusive_cons by done.
    simpl. by rewrite IH.
Qed.

(** Splitting what is left after dropping some pieces gives the pieces left. *)
Lemma split_inclusive_filter (Q : str → Prop) `{!∀ l, base.Decision (Q l)} s :
  split_inclusive (concat (filter Q (split_inclusive s))) = filter Q (split_inclusive s).
Proof.
  induction s as [p Hp|p s Hp IH] using line_ind.
  - rewrite (split_inclusive_none p) by done. case_bool_decide as E; [done|].
    rewrite filter_cons. destruct (decide (Q p)); [|done]. simpl. rewrite app_nil_r.
    rewrite split_inclusive_none by done. by rewrite bool_decide_eq_false_2.
  - rewrite (split_inclusive_cons p s) by done. rewrite filter_cons. destruct (decide (Q (p ++ [c_lf]))); [|done].
    simpl. rewrite <- app_assoc. simpl. by rewrite split_inclusive_cons, IH.
Qed.

(** ** The laws of the interfaces *)

(** What the operations do to the contents of files; only the operations that
    succeed promise their effect, a failed append may have written a part. *)
Class LawfulPolicyFs (W : Type) `{FS : !PolicyFs W} := {
  file_at : str → W → option bytes;
  create_dir_files q d w : file_at q (create_dir d w).2 = file_at q w;
  create_dir_all_files q d w : file_at q (create_dir_all d w).2 = file_at q w;
  open_append_files p w :
    let w' := (open_append p w).2 in
    (∀ q, q ≠ p → file_at q w' = file_at q w)
    ∧ default [] (file_at p w') = default [] (file_at p w);
  open_read_write_files q p w : file_at q (open_read_write p w).2 = file_at q w;
  lock_files q p w : file_at q (lock_file p w).2 = file_at q w;
  seek_files q p w : file_at q (seek_start p w).2 = file_at q w;
  read_files p w bs : read_from_start p w = inr bs → file_at p w = Some bs;
  read_not_found p w e : read_from_start p w = inl e → io_kind e = NotFound → file_at p w = None;
  open_not_found p w e w' :
    open_read_write p w = (inl e, w') → io_kind e = NotFound → file_at p w = None;
  append_files p bs w :
    let '(r, w') := append_all p bs w in
    (∀ q, q ≠ p → file_at q w' = file_at q w)
    ∧ match r with
      | inr _ => default [] (file_at p w') = default [] (file_at p w) ++ bs
      | inl _ => ∃ k, default [] (file_at p w') = default [] (file_at p w) ++ take k bs
      end;
  write_files p bs w old :
    let '(r, w') := write_at_start p bs w in
    file_at p w = Some old →
    (∀ q, q ≠ p → file_at q w' = file_at q w)
    ∧ ∀ u, r = inr u → file_at p w' = Some (bs ++ drop (length bs) old);
  set_len_files p n w old :
    let '(r, w') := set_len p n w in
    file_at p w = Some old → n ≤ length old →
    (∀ q, q ≠ p → file_at q w' = file_at q w)
    ∧ ∀ u, r = inr u → file_at p w' = Some (take n old);
  try_exists_files p w b : try_exists p w = inr b → b = bool_decide (file_at p w ≠ None);
  temp_file_files d w :
    let '(r, w') := temp_file d w in
    ∀ t, r = inr t →
      file_at t w = None ∧ t ≠ join_path d MIGRATION_MARKER_FILENAME
      ∧ ∀ q, q ≠ t → file_at q w' = file_at q w;
  persist_files t p w :
    let '(r, w') := persist_noclobber t p w in
    (∀ q, q ≠ t → q ≠ p → file_at q w' = file_at q w)
    ∧ match r with
      | inr _ => file_at p w = None ∧ file_at p w' ≠ None
      | inl e => io_kind e = AlreadyExists → p ≠ t → file_at p w ≠ None ∧ file_at p w' = file_at p w
      end;
}.

(** JSON text of a string is one line, and an array of such texts reads back
    as the strings. *)
Class LawfulJson (JE : Type) `{JS : !Json JE} := {
  json_text s t : json_to_string s = inr t → Forall is_scalar t ∧ (c_lf ∉ t) ∧ (c_cr ∉ t);
  json_array l ts :
    Forall2 (λ s t, json_to_string s = inr t) l ts →
    json_from_str (lit "[" ++ join (lit ", ") ts ++ lit "]") = Some l;
}.

(** ** Appending a line *)

Section Amend.
Context {W JE : Type} `{FS : !PolicyFs W} `{JS : !Json JE} `{LF : !LawfulPolicyFs W}.
Implicit Types (w : W) (path line : str).

Definition content path w : bytes := default [] (file_at path w).
Definition same_elsewhere path w w' : Prop := ∀ q, q ≠ path → file_at q w' = file_at q w.

(** An operation that at most extends the file. *)
Definition extends path w w' : Prop :=
  same_elsewhere path w w' ∧ content path w `prefix_of` content path w'.

Lemma extends_refl path w : extends path w w.
Proof. by split. Qed.

Lemma extends_trans path w1 w2 w3 : extends path w1 w2 → extends path w2 w3 → extends path w1 w3.
Proof.
  intros [A1 B1] [A2 B2]. split; [|by etrans]. intros q Hq. by rewrite A2, A1.
Qed.

Lemma extends_same path w w' : (∀ q, file_at q w' = file_at q w) → extends path w w'.
Proof. intros H. split; [by intros q _|]. unfold content. by rewrite H. Qed.

(** Triples of the file monad: [m] at most extends the file, never panics,
    and establishes [Q] of the states before and after when it succeeds. *)
Definition appends {E A} path (m : FM E A) (Q : W → A → W → Prop) : Prop := ∀ w,
  let '(r, w') := m w in
  extends path w w' ∧ match r with Ok a => Q w a w' | Err _ => True | Panic => False end.

Definition same_content {A} path : W → A → W → Prop := λ w _ w', content path w' = content path w.

Lemma appends_bind {E A B} path (m : FM E A) (k : A → FM E B) Q R :
  appends path m Q → (∀ a, appends path (k a) (λ w1 b w2, ∀ w0, Q w0 a w1 → R w0 b w2)) →
  appends path (fm_bind m k) R.
Proof.
  intros Hm Hk w. unfold fm_bind. specialize (Hm w). destruct (m w) as [[a|e|] w1]; [|done|done].
  destruct Hm as [He Hq]. specialize (Hk a w1). destruct (k a w1) as [r w2]. destruct Hk as [He2 Hr].
  split; [by eapply extends_trans|]. destruct r; auto.
Qed.

Lemma appends_ret {E A} path (a : A) : appends path (fm_ret (E := E) a) (λ w b w', b = a ∧ w' = w).
Proof. intros w. split; [apply extends_refl|done]. Qed.

Lemma appends_weaken {E A} path (m : FM E A) (Q R : W → A → W → Prop) :
  appends path m Q → (∀ w a w', Q w a w' → R w a w') → appends path m R.
Proof.
  intros Hm H w. specialize (Hm w). destruct (m w) as [r w']. destruct Hm as [? Hr]. split; [done|].
  destruct r; auto.
Qed.

Lemma appends_io_same {E A} path (op : W → io_result A * W) (f : IoErr → E) :
  (∀ w q, file_at q (op w).2 = file_at q w) → appends path (fm_io op f) (same_content path).
Proof.
  intros H w. unfold fm_io. specialize (H w). destruct (op w) as [[e|a] w']; simpl in H;
    (split; [by apply extends_same|]); [done|]. unfold same_content, content. by rewrite H.
Qed.

Lemma appends_open {E} path (f : IoErr → E) :
  appends path (fm_io (open_append path) f) (same_content path).
Proof.
  intros w. unfold fm_io. pose proof (open_append_files path w) as H.
  destruct (open_append path w) as [[e|u] w1]; simpl in H; destruct H as [Ho Hc];
    (split; [split; [done|]|]; unfold same_content, content; by rewrite ?Hc).
Qed.

Lemma appends_read {E} path (f : IoErr → E) :
  appends path (fm_io (read_to_string path) f)
    (λ w s w', w' = w ∧ from_utf8 (content path w) = Ok s).
Proof.
  intros w. unfold fm_io, read_to_string. destruct (read_from_start path w) as [e|bs] eqn:Er.
  { split; [apply extends_refl|done]. }
  apply read_files in Er. unfold content. rewrite Er. simpl.
  destruct (from_utf8 bs); (split; [apply extends_refl|done]).
Qed.

Lemma appends_append {E} path bs (f : IoErr → E) :
  appends path (fm_io (append_all path bs) f) (λ w _ w', content path w' = content path w ++ bs).
Proof.
  intros w. unfold fm_io. pose proof (append_files path bs w) as H.
  destruct (append_all path bs w) as [[e|u] w']; destruct H as [Ho Hc]; unfold content.
  - split; [split; [done|]|done]. unfold content. destruct Hc as [k ->]. by apply prefix_app_r.
  - split; [split; [done|]|done]. unfold content. rewrite Hc. by apply prefix_app_r.
Qed.

(** Before the line is looked for, the file is opened, locked and read. *)
Definition appended old line : str :=
  if bool_decide (line ∈ str_lines old) then [] else line_gap old ++ line ++ [c_lf].

Lemma existsb_elem line ls :
  existsb (λ existing, bool_decide (existing = line)) ls = bool_decide (line ∈ ls).
Proof.
  apply eq_bool_prop_intro. rewrite bool_decide_spec, Is_true_true, existsb_exists.
  setoid_rewrite <- list_elem_of_In. setoid_rewrite bool_decide_eq_true. naive_solver.
Qed.

(** On success the line has been appended, unless it was there. *)
Definition line_appended path line : W → unit → W → Prop := λ w _ w',
  ∃ old, from_utf8 (content path w) = Ok old
         ∧ content path w' = content path w ++ encode (appended old line).

Lemma append_gap path contents :
  appends path
    (if negb (bool_decide (contents = [])) && negb (ends_with [c_lf] contents)
     then fm_io (append_all path (encode [c_lf])) (WritePolicyFile (JE := JE) path)
     else fm_ret tt)
    (λ w _ w', content path w' = content path w ++ encode (line_gap contents)).
Proof.
  unfold line_gap. destruct (_ && _); [apply appends_append|].
  eapply appends_weaken; [apply appends_ret|]. intros w [] w' [_ ->]. by rewrite app_nil_r.
Qed.

Lemma append_locked_line_effect path line :
  appends path (append_locked_line (JE := JE) path line) (line_appended path line).
Proof.
  unfold append_locked_line.
  eapply appends_bind; [apply appends_open|intros u1]. eapply appends_bind.
  { apply appends_io_same. intros. apply lock_files. } intros u2. eapply appends_bind.
  { apply appends_io_same. intros. apply seek_files. } intros u3.
  eapply appends_bind; [apply appends_read|intros old]. rewrite existsb_elem.
  case_bool_decide as Hin.
  - eapply appends_weaken; [apply appends_ret|]. unfold same_content.
    intros w [] w' [_ ->] w0 [-> Hu] w1 H1 w2 H2 w3 H3. exists old.
    rewrite <- H3, <- H2, <- H1. split; [done|]. unfold appended.
    rewrite bool_decide_eq_true_2 by done. by rewrite app_nil_r.
  - eapply appends_bind; [apply append_gap|intros u4].
    eapply appends_weaken; [apply appends_append|]. unfold same_content.
    intros w [] w' Hw w0 Hgap w1 [-> Hu] w2 H2 w3 H3 w4 H4. exists old.
    rewrite <- H4, <- H3, <- H2. split; [done|]. rewrite Hw, Hgap. unfold appended.
    rewrite bool_decide_eq_false_2 by done. unfold encode.
    by rewrite (bind_app encode_char (line_gap old)), app_assoc.
Qed.

Lemma append_rule_line_effect path line :
  appends path (append_rule_line (JE := JE) path line) (line_appended path line).
Proof.
  intros w. unfold append_rule_line.
  destruct (dir_of path) as [dir|]; [|split; [apply extends_refl|done]].
  pose proof (λ q, create_dir_files q dir w) as Hd.
  destruct (create_dir dir w) as [[e|u] w1]; simpl in Hd;
    [destruct (kind_is AlreadyExists e); [|split; [by apply extends_same|done]]|];
    pose proof (append_locked_line_effect path line w1) as H;
    destruct (append_locked_line path line w1) as [r w2]; destruct H as [He Hr];
    (split; [eapply extends_trans; [by apply extends_same|done]|]); unfold line_appended in *;
    assert (content path w1 = content path w) as <- by (unfold content; by rewrite Hd); done.
Qed.

(** ** The rule lines *)

Context `{LJ : !LawfulJson JE}.

Lemma json_all_Ok {E} (f : JE → E) l ts :
  json_all f l = Ok ts → Forall2 (λ s t, json_to_string s = inr t) l ts.
Proof.
  revert ts. induction l as [|s l IH]; intros ts; simpl; [by intros [= <-]|].
  rewrite res_bind_Ok. intros (t & Ht & H). rewrite res_bind_Ok in H. destruct H as (ts' & Hts & [= <-]).
  constructor; [|by apply IH]. unfold json_or in Ht. destruct (json_to_string s); [done|]. by injection Ht as ->.
Qed.

(** Text without line breaks. *)
Definition line_text (t : str) : Prop := Forall (λ c, is_scalar c ∧ c ≠ c_lf ∧ c ≠ c_cr) t.

Lemma line_text_app a b : line_text (a ++ b) ↔ line_text a ∧ line_text b.
Proof. apply Forall_app. Qed.

Lemma line_text_json s t : json_to_string s = inr t → line_text t.
Proof.
  intros (Hs & Hlf & Hcr)%json_text. apply Forall_forall. intros c Hc. rewrite Forall_forall in Hs.
  split_and!; [by apply Hs|by intros ->..].
Qed.

Lemma line_text_join sep ts : line_text sep → Forall line_text ts → line_text (join sep ts).
Proof.
  intros Hsep H. induction H as [|t ts Ht _ IH]; [constructor|]. destruct ts as [|t' ts]; [done|].
  rewrite join_cons2, !line_text_app. done.
Qed.

(** ASCII text is checked by computation. *)
Definition line_char (c : char) : bool := (c <? 128)%N && negb (c =? c_lf)%N && negb (c =? c_cr)%N.
Lemma line_text_ascii t : forallb line_char t = true → line_text t.
Proof.
  intros H. apply Forall_forall. intros c Hc. apply list_elem_of_In in Hc.
  rewrite forallb_forall in H. specialize (H c Hc). unfold line_char in H. bdec.
  rewrite N.ltb_lt in *. rewrite N.eqb_neq in *. split_and!; [left; lia|done..].
Qed.

Lemma line_text_scalar t : line_text t → Forall is_scalar t.
Proof. intros H. eapply Forall_impl; [exact H|]. by intros c [? _]. Qed.

Lemma line_text_plain t : line_text t → plain_line t.
Proof.
  unfold line_text. rewrite Forall_forall. intros H. split.
  - intros Hin. by destruct (H _ Hin) as (_ & ? & _).
  - intros E. apply last_Some_elem_of in E. by destruct (H _ E) as (_ & _ & ?).
Qed.

Lemma line_text_tokens {E} (f : JE → E) prefix tokens :
  json_all f prefix = Ok tokens → Forall line_text tokens.
Proof.
  intros H%json_all_Ok. induction H as [|s t l ts Hs _ IH]; constructor; [|done]. by eapply line_text_json.
Qed.

Lemma prefix_rule_text_line {E} (f : JE → E) prefix tokens :
  json_all f prefix = Ok tokens → line_text (prefix_rule_text tokens).
Proof.
  intros H. unfold prefix_rule_text. rewrite !line_text_app.
  split_and!; try (by apply line_text_ascii; vm_compute).
  apply line_text_join; [by apply line_text_ascii; vm_compute|]. by eapply line_text_tokens.
Qed.

Lemma scalar_appended old line : line_text line → Forall is_scalar (appended old line).
Proof.
  intros H%line_text_scalar. unfold appended, line_gap. destruct (bool_decide _); [constructor|].
  assert (is_scalar c_lf) by (left; done).
  apply Forall_app. split; [destruct (_ && _); repeat constructor; done|].
  apply Forall_app. by repeat constructor.
Qed.

(** The new text of the file, given that a line has been appended. *)
Lemma line_appended_text path line w w' :
  line_text line → line_appended path line w tt w' →
  ∃ old, from_utf8 (content path w) = Ok old
    ∧ from_utf8 (content path w') = Ok (old ++ appended old line)
    ∧ line ∈ str_lines (old ++ appended old line)
    ∧ (last old ≠ Some c_cr →
       str_lines (old ++ appended old line)
       = str_lines old ++ (if bool_decide (line ∈ str_lines old) then [] else [line])).
Proof.
  intros Hl (old & Hold & Hc). exists old. split; [done|]. split.
  { rewrite Hc. apply from_utf8_app; [done|by apply scalar_appended]. }
  destruct (str_lines_append old line (line_text_plain _ Hl)) as [Hin Heq]. unfold appended.
  case_bool_decide; [by rewrite !app_nil_r|done].
Qed.

(** Saving an allow rule for a command prefix only ever appends to the
    policy file: other files and the text that was there are untouched however
    the operation ends, and when it succeeds the file has the line of the rule,
    added once at the end if it was not there, with all lines before it kept. *)
Theorem amend_prefix_rule_effect path prefix w :
  let '(r, w') := blocking_append_allow_prefix_rule path prefix w in
  same_elsewhere path w w'
  ∧ content path w `prefix_of` content path w'
  ∧ match r with
    | Ok _ =>
        prefix ≠ [] ∧
        ∃ tokens old new,
          json_all (SerializePrefix (JE := JE)) prefix = Ok tokens
          ∧ from_utf8 (content path w) = Ok old ∧ from_utf8 (content path w') = Ok new
          ∧ new = old ++ appended old (prefix_rule_text tokens)
          ∧ prefix_rule_text tokens ∈ str_lines new
          ∧ (last old ≠ Some c_cr →
             str_lines new = str_lines old
               ++ (if bool_decide (prefix_rule_text tokens ∈ str_lines old) then []
                   else [prefix_rule_text tokens]))
    | Err _ => True
    | Panic => False
    end.
Proof.
  unfold blocking_append_allow_prefix_rule, fm_bind, fm_lift, fm_err.
  case_bool_decide as Hne; [by split|].
  destruct (json_all SerializePrefix prefix) as [tokens|e|] eqn:Ej; [|by split|].
  - pose proof (append_rule_line_effect path (prefix_rule_text tokens) w) as H.
    destruct (append_rule_line path (prefix_rule_text tokens) w) as [r w']. destruct H as [[Hs Hp] Hr].
    split_and!; [done..|]. destruct r as [u|e|]; [|done|done]. split; [done|].
    destruct u. destruct (line_appended_text _ _ _ _ (prefix_rule_text_line _ _ _ Ej) Hr)
      as (old & Ho & Hn & Hin & Hl). exists tokens, old, (old ++ appended old (prefix_rule_text tokens)). done.
  - exfalso. clear -Ej. revert Ej. induction prefix as [|s l IH]; simpl; [done|].
    unfold json_or. destruct (json_to_string s); [done|]. simpl. destruct (json_all SerializePrefix l); [done|done|].
    by intros _; apply IH.
Qed.

(** Saving the same rule again changes no file. *)
Theorem amend_prefix_rule_idempotent path prefix w w1 w2 :
  blocking_append_allow_prefix_rule (JE := JE) path prefix w = (Ok tt, w1) →
  blocking_append_allow_prefix_rule (JE := JE) path prefix w1 = (Ok tt, w2) →
  ∀ q, content q w2 = content q w1.
Proof.
  unfold blocking_append_allow_prefix_rule, fm_bind, fm_lift, fm_err.
  case_bool_decide as Hne; [done|].
  destruct (json_all SerializePrefix prefix) as [tokens|e|] eqn:Ej; [|done|done]. intros H1 H2.
  pose proof (append_rule_line_effect path (prefix_rule_text tokens) w) as E1.
  pose proof (append_rule_line_effect path (prefix_rule_text tokens) w1) as E2.
  rewrite H1 in E1. rewrite H2 in E2. destruct E1 as [_ E1], E2 as [[Hs _] (old & Ho & Hc)].
  destruct (line_appended_text _ _ _ _ (prefix_rule_text_line _ _ _ Ej) E1) as (old0 & _ & Hn & Hin & _).
  intros q. destruct (decide (q = path)) as [->|Hq]; [|unfold content; by rewrite Hs].
  rewrite Hc. rewrite Ho in Hn. injection Hn as ->. unfold appended at 1.
  by rewrite bool_decide_eq_true_2, app_nil_r by done.
Qed.

End Amend.

(** ** Network rules: what is in force and what is read back *)

Lemma protocol_roundtrip {Loc} protocol :
  protocol_parse (Loc := Loc) (as_policy_string protocol) = Ok protocol.
Proof. by destruct protocol. Qed.

Lemma decision_roundtrip {Loc} d :
  parse_network_rule_decision (Loc := Loc) (decision_policy_string d) = Ok d.
Proof. by destruct d. Qed.

(** The network rule put in force when an amendment is saved is the rule a
    later parse makes of the saved arguments, provided the normal form of its
    host is one that normalising leaves alone. *)
Theorem amended_network_rule_reloads {AP Loc} (p p' : Policy AP) (b : PolicyBuilder AP Loc)
    host protocol d j h :
  add_network_rule (Loc := Loc) p host protocol d j = Ok p' →
  normalize_network_rule_host (Loc := Loc) host = Ok h → settled_host h →
  ∃ rule b', network_rules p' = network_rules p ++ [rule]
    ∧ network_rule b h (as_policy_string protocol) (decision_policy_string d) j = Ok b'
    ∧ b_network_rules b' = b_network_rules b ++ [rule].
Proof.
  unfold add_network_rule. intros H Hh Hset. rewrite Hh in H. simpl in H.
  destruct (blank_justification j) eqn:Ej; [done|]. injection H as <-.
  destruct (normalize_output host h Hh) as [Hne Hch].
  eexists _, _. split; [done|]. unfold network_rule, parse_justification.
  rewrite protocol_roundtrip, decision_roundtrip, Ej. simpl. rewrite normalize_settled by done. done.
Qed.

Lemma amended_network_rule_reloads_witness :
  let rule := {| net_host := lit "api.github.com"; net_protocol := Https; net_decision := Forbidden;
                 net_justification := None |} in
  ∃ rule' b', network_rules (AP := str)
      {| rules_by_program := ∅; network_rules := [rule]; host_executables_by_name := ∅ |}
      = network_rules (AP := str) policy_empty ++ [rule']
    ∧ network_rule (AP := str) (Loc := unit) builder_new (lit "api.github.com") (as_policy_string Https)
        (decision_policy_string Forbidden) None = Ok b'
    ∧ b_network_rules b' = b_network_rules (AP := str) (Loc := unit) builder_new ++ [rule'].
Proof.
  intros rule. apply (amended_network_rule_reloads policy_empty _ builder_new
    (lit "Api.GitHub.com") Https Forbidden None (lit "api.github.com")).
  - vm_compute. reflexivity.
  - vm_compute. reflexivity.
  - split; [|split]; vm_compute; discriminate.
Defined.

(** Without the proviso the two differ: the rule in force is for ["db:5432"],
    the one read back for ["db"]. *)
Lemma bracketed_host_reloads_differently :
  (network_rules <$> res_ok (add_network_rule (AP := str) (Loc := unit) policy_empty
     (lit "[db:5432]") Https Allow None))
    = Some [{| net_host := lit "db:5432"; net_protocol := Https; net_decision := Allow;
               net_justification := None |}]
  ∧ (b_network_rules <$> res_ok (network_rule (AP := str) (Loc := unit) builder_new
       (lit "db:5432") (lit "https") (lit "allow") None))
    = Some [{| net_host := lit "db"; net_protocol := Https; net_decision := Allow;
               net_justification := None |}].
Proof. split; vm_compute; reflexivity. Qed.

(** ** The migration *)

Section Migration.
Context {W JE : Type} `{FS : !PolicyFs W} `{JS : !Json JE} `{LF : !LawfulPolicyFs W} `{LJ : !LawfulJson JE}.
Implicit Types (w : W) (path line : str) (banned : list (list str)).

Definition kept banned line : Prop := should_remove_rule line (map lower_all banned) = false.
#[global] Instance kept_dec banned line : base.Decision (kept banned line).
Proof. unfold kept. apply _. Defined.

Lemma strip_lines contents banned :
  split_inclusive (strip_banned_allow_rules contents banned)
  = filter (kept banned) (split_inclusive contents).
Proof. apply (split_inclusive_filter (kept banned)). Qed.

Lemma strip_idemp contents banned :
  strip_banned_allow_rules (strip_banned_allow_rules contents banned) banned
  = strip_banned_allow_rules contents banned.
Proof.
  unfold strip_banned_allow_rules at 1. rewrite strip_lines, list_filter_filter.
  unfold strip_banned_allow_rules. f_equal. apply list_filter_iff. unfold kept. tauto.
Qed.

(** The line the amendment writes for a prefix is one the migration reads. *)
Lemma amended_line_pattern tokens :
  allow_rule_pattern (prefix_rule_text tokens ++ [c_lf])
  = Some (lit "[" ++ join (lit ", ") tokens ++ lit "]").
Proof.
  unfold allow_rule_pattern, strip_suffix_or.
  rewrite (proj2 (strip_suffix_Some [c_lf] (prefix_rule_text tokens ++ [c_lf]) (prefix_rule_text tokens)) eq_refl).
  cbn [from_option id]. unfold prefix_rule_text. set (pat := lit "[" ++ join (lit ", ") tokens ++ lit "]").
  set (front := lit "prefix_rule(pattern="). set (back := lit ", decision=" ++ dquoted (lit "allow") ++ lit ")").
  replace (strip_suffix [c_cr] (front ++ pat ++ back)) with (@None str).
  - cbn [from_option id]. rewrite strip_prefix_app. by apply strip_suffix_Some.
  - symmetry. apply strip_suffix_None. intros r E.
    assert (last (front ++ pat ++ back) = Some 41%N) as Hl.
    { replace (front ++ pat ++ back) with ((front ++ pat ++ lit ", decision=" ++ dquoted (lit "allow")) ++ [41%N]).
      - apply last_snoc.
      - unfold back. by rewrite <- !app_assoc. }
    by rewrite E, last_snoc in Hl.
Qed.

Lemma amended_line_removed {E} (f : JE → E) prefix tokens banned :
  json_all f prefix = Ok tokens →
  should_remove_rule (prefix_rule_text tokens ++ [c_lf]) banned = bool_decide (lower_all prefix ∈ banned).
Proof.
  intros H%json_all_Ok. unfold should_remove_rule. rewrite amended_line_pattern.
  by rewrite (json_array _ _ H).
Qed.

(** The migration keeps the lines of a policy in order and drops exactly
    those it recognises as banned, so doing it twice is doing it once; and a
    rule saved at the end of a policy is dropped exactly when its prefix is
    banned, up to the case of ASCII letters. *)
Theorem strip_removes_saved_rules {E} (f : JE → E) old prefix tokens banned :
  json_all f prefix = Ok tokens → line_gap old = [] →
  strip_banned_allow_rules (old ++ prefix_rule_text tokens ++ [c_lf]) banned
  = strip_banned_allow_rules old banned
    ++ (if bool_decide (lower_all prefix ∈ map lower_all banned) then []
        else prefix_rule_text tokens ++ [c_lf])
  ∧ split_inclusive (strip_banned_allow_rules old banned)
    = filter (kept banned) (split_inclusive old)
  ∧ strip_banned_allow_rules (strip_banned_allow_rules old banned) banned
    = strip_banned_allow_rules old banned.
Proof.
  intros Hj Hg. split_and!; [|apply strip_lines|apply strip_idemp].
  destruct (line_text_plain _ (prefix_rule_text_line _ _ _ Hj)) as [Hlf _].
  unfold strip_banned_allow_rules. rewrite split_inclusive_app by done.
  rewrite (split_inclusive_cons (prefix_rule_text tokens) []) by done.
  rewrite filter_app, concat_app. f_equal. rewrite filter_cons.
  rewrite (amended_line_removed _ _ _ _ Hj). simpl.
  case_bool_decide; (destruct (decide _); [|try done]); simpl; rewrite ?app_nil_r; done.
Qed.

(** ** The migration runs once *)

Lemma rewrite_file path w bs retained :
  file_at path w = Some bs → length retained ≤ length bs →
  ∀ w1 w2 u v, write_at_start path retained w = (inr u, w1) →
  set_len path (length retained) w1 = (inr v, w2) →
  same_elsewhere path w w2 ∧ file_at path w2 = Some retained.
Proof.
  intros Hf Hl w1 w2 u v Hw Hs.
  pose proof (write_files path retained w bs) as H1. rewrite Hw in H1. destruct (H1 Hf) as [S1 F1].
  specialize (F1 u eq_refl).
  pose proof (set_len_files path (length retained) w1 (retained ++ drop (length retained) bs)) as H2.
  rewrite Hs in H2.
  destruct (H2 F1) as [S2 F2]; [rewrite length_app; lia|]. specialize (F2 v eq_refl).
  split; [intros q Hq; by rewrite S2, S1|]. by rewrite F2, take_app_length.
Qed.

Lemma str_len_app a b : str_len (a ++ b) = str_len a + str_len b.
Proof. unfold str_len. by rewrite sum_list_with_app. Qed.

Lemma strip_shorter contents banned :
  length (encode (strip_banned_allow_rules contents banned)) ≤ length (encode contents).
Proof.
  rewrite !length_encode. unfold strip_banned_allow_rules.
  rewrite <- (concat_split_inclusive contents) at 2. induction (split_inclusive contents) as [|l ls IH]; [done|].
  rewrite filter_cons. simpl. rewrite str_len_app. destruct (decide _); simpl; rewrite ?str_len_app; lia.
Qed.

Lemma clean_rules_effect path banned w w' bs :
  file_at path w = Some bs → clean_rules_file path banned w = (Ok tt, w') →
  same_elsewhere path w w'
  ∧ ∃ text, from_utf8 bs = Ok text ∧ file_at path w' = Some (encode (strip_banned_allow_rules text banned)).
Proof.
  intros Hf. unfold clean_rules_file, read_to_string.
  destruct (read_from_start path w) as [e|bs'] eqn:Er.
  { unfold kind_is. case_bool_decide as Hk; [|done].
    by rewrite (read_not_found _ _ _ Er Hk) in Hf. }
  apply read_files in Er. assert (bs' = bs) as -> by congruence. clear Er.
  destruct (from_utf8 bs) as [text|e|] eqn:Eu.
  2-3: unfold kind_is; case_bool_decide; done.
  pose proof (proj1 (from_utf8_encode _ _ Eu)) as Henc.
  case_bool_decide as Hs.
  { intros [= <-]. split; [done|]. exists text. by rewrite Hs, Henc. }
  pose proof (λ q, open_read_write_files q path w) as Ho. pose proof (open_not_found path w) as Hn.
  destruct (open_read_write path w) as [[e|u] w1]; simpl in Ho.
  { unfold kind_is. case_bool_decide as Hk; [|done]. by rewrite (Hn e w1 eq_refl Hk) in Hf. }
  unfold fm_bind, fm_io, read_to_string. destruct (read_from_start path w1) as [e|bs'] eqn:Er; [done|].
  apply read_files in Er. rewrite Ho, Hf in Er. injection Er as <-. rewrite Eu.
  rewrite bool_decide_eq_false_2 by done.
  pose proof (λ q, seek_files q path w1) as Hk. destruct (seek_start path w1) as [[e|u2] w2]; [done|].
  simpl in Hk. set (retained := strip_banned_allow_rules text banned) in *.
  destruct (write_at_start path (encode retained) w2) as [[e|u3] w3] eqn:Ew; [done|].
  destruct (set_len path (str_len retained) w3) as [[e|u4] w4] eqn:El; [done|]. intros [= <-].
  rewrite <- length_encode in El.
  assert (Hf2 : file_at path w2 = Some bs) by (by rewrite Hk, Ho).
  assert (Hl : length (encode retained) ≤ length bs) by (rewrite <- Henc; apply strip_shorter).
  destruct (rewrite_file path w2 bs (encode retained) Hf2 Hl _ _ _ _ Ew El) as [S F].
  split; [intros q Hq; by rewrite S, Hk, Ho by done|]. by exists text.
Qed.

Lemma marker_effect home path w w' :
  let marker := join_path home MIGRATION_MARKER_FILENAME in
  path ≠ marker → file_at path w ≠ None → write_migration_marker home marker w = (Ok tt, w') →
  file_at marker w' ≠ None ∧ file_at path w' = file_at path w.
Proof.
  intros marker Hne Hf. unfold write_migration_marker, fm_bind, fm_io.
  pose proof (λ q, create_dir_all_files q home w) as H1.
  destruct (create_dir_all home w) as [[e|u1] w1]; [done|]. simpl in H1.
  pose proof (temp_file_files home w1) as H2. destruct (temp_file home w1) as [[e|t] w2]; [done|].
  destruct (H2 t eq_refl) as (Ht & Htm & H2'). assert (path ≠ t) by (intros ->; by rewrite <- H1 in Hf).
  pose proof (append_files t (encode (lit "v1" ++ [c_lf])) w2) as H3.
  destruct (append_all t _ w2) as [[e|u3] w3]; [done|]. destruct H3 as [H3 _].
  pose proof (persist_files t marker w3) as H4.
  destruct (persist_noclobber t marker w3) as [[e|u4] w4]; destruct H4 as [H4 H5].
  - unfold kind_is. case_bool_decide as Hk; [|done]. intros [= <-].
    destruct (H5 Hk) as [H6 H7]; [done|]. split; [by rewrite H7|].
    by rewrite H4, H3, H2', H1 by done.
  - intros [= <-]. destruct H5 as [_ H5]. split; [done|]. by rewrite H4, H3, H2', H1 by done.
Qed.

(** A migration that succeeds leaves its marker and the policy file with
    exactly the banned allow rules removed; where the marker was there before it
    does nothing, so it changes the policy at most once. *)
Theorem migration_once home path banned w w' bs :
  let marker := join_path home MIGRATION_MARKER_FILENAME in
  path ≠ marker → file_at path w = Some bs →
  prefix_rule_migration home path banned w = (Ok tt, w') →
  file_at marker w' ≠ None
  ∧ (file_at marker w ≠ None → w' = w)
  ∧ (file_at marker w = None → ∃ text, from_utf8 bs = Ok text
       ∧ file_at path w' = Some (encode (strip_banned_allow_rules text banned)))
  ∧ (prefix_rule_migration home path banned w').2 = w'.
Proof.
  intros marker Hne Hf H.
  assert (Hlater : ∀ v, file_at marker v ≠ None → (prefix_rule_migration home path banned v).2 = v).
  { intros v Hv. unfold prefix_rule_migration, fm_bind, fm_io. fold marker.
    destruct (try_exists marker v) as [e|b] eqn:Et; [done|]. apply try_exists_files in Et.
    rewrite bool_decide_eq_true_2 in Et by done. by subst. }
  enough (file_at marker w' ≠ None ∧ (file_at marker w ≠ None → w' = w)
    ∧ (file_at marker w = None → ∃ text, from_utf8 bs = Ok text
       ∧ file_at path w' = Some (encode (strip_banned_allow_rules text banned)))) as (? & ? & ?) by auto.
  revert H. unfold prefix_rule_migration, fm_bind at 1, fm_io at 1. fold marker.
  destruct (try_exists marker w) as [e|b] eqn:Et; [done|]. apply try_exists_files in Et.
  case_bool_decide as Hm; subst b.
  - intros [= <-]. done.
  - unfold fm_bind. destruct (clean_rules_file path banned w) as [[[]|e|] w1] eqn:Ec; [|done|done].
    destruct (clean_rules_effect _ _ _ _ _ Hf Ec) as (Hs & text & Ht & Hf1). intros Hw.
    destruct (marker_effect home path w1 w') as [Hm' Hp]; [done|by rewrite Hf1|done|].
    split_and!; [done|done|]. intros _. exists text. by rewrite Hp.
Qed.

End Migration.

(** * Policy files in memory

    A concrete file system and a concrete JSON codec that keep the laws of
    [PolicyAmendFacts], and the theorems on amendments and migrations at
    concrete inputs. *)

(** ** Files *)

Abbreviation PolicyDisk := (gmap str bytes).

Definition disk_error (k : IoErrorKind) : IoErr := {| io_kind := k; io_msg := lit "error" |}.

(** A path that is not taken: longer than every other and in a directory. *)
Definition fresh_name (d : str) (w : PolicyDisk) : str :=
  d ++ lit "/.tmp" ++ repeat 120%N (S (length (mjoin (map_to_list w).*1))).

#[global] Instance disk_fs : PolicyFs PolicyDisk := {
  dir_of p := fst <$> rsplit_once 47%N p;
  join_path d n := d ++ lit "/" ++ n;
  create_dir _ w := (inl (disk_error AlreadyExists), w);
  create_dir_all _ w := (inr tt, w);
  open_append p w := (inr tt, <[p := default [] (w !! p)]> w);
  open_read_write p w :=
    (match w !! p with Some _ => inr tt | None => inl (disk_error NotFound) end, w);
  lock_file _ w := (inr tt, w);
  seek_start _ w := (inr tt, w);
  read_from_start p w := match w !! p with Some bs => inr bs | None => inl (disk_error NotFound) end;
  append_all p bs w := (inr tt, <[p := default [] (w !! p) ++ bs]> w);
  write_at_start p bs w :=
    (inr tt, <[p := bs ++ drop (length bs) (default [] (w !! p))]> w);
  set_len p n w := (inr tt, <[p := take n (default [] (w !! p))]> w);
  try_exists p w := inr (bool_decide (w !! p ≠ None));
  temp_file d w := (inr (fresh_name d w), <[fresh_name d w := []]> w);
  persist_noclobber t p w :=
    match w !! p with
    | Some _ => (inl (disk_error AlreadyExists), w)
    | None => (inr tt, <[p := default [] (w !! t)]> (delete t w))
    end;
}.

Lemma length_elem_join (l : list str) x : x ∈ l → length x ≤ length (mjoin l).
Proof.
  induction l as [|y l IH]; [by intros ?%not_elem_of_nil|].
  change (mjoin (y :: l)) with (y ++ mjoin l). rewrite length_app.
  intros [->|H]%elem_of_cons; [lia|]. specialize (IH H). lia.
Qed.

Lemma fresh_name_free d w : w !! fresh_name d w = None.
Proof.
  destruct (w !! fresh_name d w) as [bs|] eqn:E; [|done]. exfalso.
  assert (H : fresh_name d w ∈ (map_to_list w).*1).
  { apply list_elem_of_fmap. exists (fresh_name d w, bs). split; [done|]. by apply elem_of_map_to_list. }
  apply length_elem_join in H. unfold fresh_name in H at 1.
  rewrite !length_app, repeat_length in H. lia.
Qed.

Lemma fresh_name_not_marker d w : fresh_name d w ≠ d ++ lit "/" ++ MIGRATION_MARKER_FILENAME.
Proof. unfold fresh_name. intros [=]%app_inv_head. Qed.

#[global] Program Instance disk_lawful : LawfulPolicyFs PolicyDisk := {
  file_at p w := w !! p;
}.
Next Obligation. done. Qed.
Next Obligation. done. Qed.
Next Obligation.
  intros p w. simpl. split; [intros q Hq; by rewrite lookup_insert_ne|]. by rewrite lookup_insert_eq.
Qed.
Next Obligation. done. Qed.
Next Obligation. done. Qed.
Next Obligation. done. Qed.
Next Obligation. intros p w bs. simpl. destruct (w !! p); naive_solver. Qed.
Next Obligation. intros p w e. simpl. destruct (w !! p); naive_solver. Qed.
Next Obligation. intros p w e w'. simpl. destruct (w !! p); naive_solver. Qed.
Next Obligation.
  intros p bs w. simpl. split; [intros q Hq; by rewrite lookup_insert_ne|]. by rewrite lookup_insert_eq.
Qed.
Next Obligation.
  intros p bs w old. simpl. intros ->. split; [intros q Hq; by rewrite lookup_insert_ne|].
  intros _ _. by rewrite lookup_insert_eq.
Qed.
Next Obligation.
  intros p n w old. simpl. intros -> _. split; [intros q Hq; by rewrite lookup_insert_ne|].
  intros _ _. by rewrite lookup_insert_eq.
Qed.
Next Obligation. intros p w b. simpl. by intros [= <-]. Qed.
Next Obligation.
  intros d w. simpl. intros t [= <-]. split; [apply fresh_name_free|].
  split; [apply fresh_name_not_marker|]. intros q Hq. by rewrite lookup_insert_ne.
Qed.
Next Obligation.
  intros t p w. simpl. destruct (w !! p) eqn:E.
  - split; [done|]. intros _ _. by rewrite E.
  - split; [|by rewrite lookup_insert_eq].
    intros q Ht Hp. by rewrite lookup_insert_ne, lookup_delete_ne.
Qed.

(** ** JSON of plain text

    Strings without characters that JSON escapes are put in quotes; the others
    are refused. An array is read by taking the text between its quotes. *)

Definition plain_char (c : char) : bool :=
  ((32 <=? c) && (c <? 128) && negb (c =? c_dquote) && negb (c =? 92))%N.

Fixpoint odd_pieces (l : list str) : list str :=
  match l with
  | _ :: x :: l' => x :: odd_pieces l'
  | _ => []
  end.

#[global] Instance plain_json : Json unit := {
  json_to_string s := if forallb plain_char s then inr (dquoted s) else inl tt;
  json_from_str t := Some (odd_pieces (split_char c_dquote t));
}.

Lemma plain_chars s :
  forallb plain_char s = true → Forall (λ c, (32 ≤ c < 128)%N ∧ c ≠ c_dquote) s.
Proof.
  intros H. apply Forall_forall. intros c Hc. apply list_elem_of_In in Hc.
  rewrite forallb_forall in H. specialize (H c Hc). unfold plain_char in H. bdec.
  rewrite N.leb_le, N.ltb_lt in *. rewrite !N.eqb_neq in *. lia.
Qed.

Lemma json_to_string_plain s t :
  json_to_string s = inr t → t = dquoted s ∧ Forall (λ c, (32 ≤ c < 128)%N ∧ c ≠ c_dquote) s.
Proof. simpl. destruct (forallb plain_char s) eqn:E; [|done]. intros [= <-]. by apply plain_chars in E. Qed.

Lemma odd_pieces_quoted front s rest :
  c_dquote ∉ front → c_dquote ∉ s →
  odd_pieces (split_char c_dquote (front ++ dquoted s ++ rest)) = s :: odd_pieces (split_char c_dquote rest).
Proof.
  intros Hf Hs. unfold dquoted. rewrite <- !app_assoc. simpl.
  rewrite split_char_app by done. rewrite split_char_app by done. done.
Qed.

#[global] Instance plain_json_lawful : LawfulJson unit.
Proof.
  assert (Hno : ∀ s, Forall (λ c, (32 ≤ c < 128)%N ∧ c ≠ c_dquote) s → c_dquote ∉ s).
  { intros s H Hc. rewrite Forall_forall in H. by destruct (H _ Hc). }
  split.
  - intros s t [-> H]%json_to_string_plain. unfold dquoted. rewrite Forall_forall in H. split_and!.
    + apply Forall_app. split; [repeat constructor|]. apply Forall_app. split; [|repeat constructor].
      apply Forall_forall. intros c Hc. left. destruct (H c Hc). lia.
    + rewrite !not_elem_of_app. split_and!; [by apply not_elem_of_cons; split; [|apply not_elem_of_nil]| |by apply not_elem_of_cons; split; [|apply not_elem_of_nil]].
      intros Hc. by destruct (H _ Hc) as [[? ?] _].
    + rewrite !not_elem_of_app. split_and!; [by apply not_elem_of_cons; split; [|apply not_elem_of_nil]| |by apply not_elem_of_cons; split; [|apply not_elem_of_nil]].
      intros Hc. by destruct (H _ Hc) as [[? ?] _].
  - intros l ts H. cbn [json_from_str plain_json]. f_equal.
    enough (∀ front, c_dquote ∉ front →
      odd_pieces (split_char c_dquote (front ++ join (lit ", ") ts ++ lit "]")) = l) as Hgen by (apply Hgen; decide_now).
    induction H as [|s t l ts Hs _ IH]; intros front Hf.
    { cbn [join app]. rewrite split_char_none; [done|]. apply not_elem_of_app. split; [done|decide_now]. }
    apply json_to_string_plain in Hs as [-> Hs]. destruct ts as [|t' ts].
    + cbn [join]. rewrite odd_pieces_quoted by auto. f_equal. rewrite <- (IH []); [done|by apply not_elem_of_nil].
    + rewrite join_cons2, <- !app_assoc, odd_pieces_quoted by auto. f_equal.
      rewrite <- (IH (lit ", ")); [by rewrite <- ?app_assoc|decide_now].
Qed.

(** ** The theorems at concrete inputs *)

Definition rules_path : str := lit "home/default.rules".
Definition sample_rules : str := lit "# rules".
Definition sample_disk : PolicyDisk := {[ rules_path := encode sample_rules ]}.
Definition sample_prefix : list str := [lit "git"; lit "status"].
Definition sample_saved : PolicyDisk :=
  (blocking_append_allow_prefix_rule rules_path sample_prefix sample_disk).2.
Definition sample_line : str := prefix_rule_text (map dquoted sample_prefix).

(** A run that saves a rule, and the text it leaves. *)
Lemma amend_prefix_rule_effect_witness :
  (blocking_append_allow_prefix_rule rules_path sample_prefix sample_disk).1 = Ok tt
  ∧ from_utf8 (content rules_path sample_saved)
    = Ok (sample_rules ++ [c_lf] ++ sample_line ++ [c_lf])
  ∧ same_elsewhere rules_path sample_disk sample_saved
  ∧ content rules_path sample_disk `prefix_of` content rules_path sample_saved.
Proof.
  pose proof (amend_prefix_rule_effect rules_path sample_prefix sample_disk) as H.
  split; [vm_compute; reflexivity|]. split; [vm_compute; reflexivity|]. unfold sample_saved.
  destruct (blocking_append_allow_prefix_rule rules_path sample_prefix sample_disk) as [r w'].
  destruct H as (H1 & H2 & _). split; [exact H1|exact H2].
Defined.

Lemma amend_prefix_rule_idempotent_witness :
  ∀ q, content q (blocking_append_allow_prefix_rule rules_path sample_prefix sample_saved).2
       = content q sample_saved.
Proof.
  assert (H1 : (blocking_append_allow_prefix_rule rules_path sample_prefix sample_disk).1 = Ok tt)
    by (vm_compute; reflexivity).
  assert (H2 : (blocking_append_allow_prefix_rule rules_path sample_prefix sample_saved).1 = Ok tt)
    by (vm_compute; reflexivity).
  apply (amend_prefix_rule_idempotent rules_path sample_prefix sample_disk).
  - unfold sample_saved. rewrite <- H1. apply surjective_pairing.
  - rewrite <- H2. apply surjective_pairing.
Defined.

Lemma strip_removes_saved_rules_witness :
  let old := sample_rules ++ [c_lf] in
  strip_banned_allow_rules (old ++ sample_line ++ [c_lf]) [[lit "GIT"; lit "status"]]
  = strip_banned_allow_rules old [[lit "GIT"; lit "status"]]
    ++ (if bool_decide (lower_all sample_prefix ∈ map lower_all [[lit "GIT"; lit "status"]]) then []
        else sample_line ++ [c_lf])
  ∧ split_inclusive (strip_banned_allow_rules old [[lit "GIT"; lit "status"]])
    = filter (kept [[lit "GIT"; lit "status"]]) (split_inclusive old)
  ∧ strip_banned_allow_rules (strip_banned_allow_rules old [[lit "GIT"; lit "status"]])
      [[lit "GIT"; lit "status"]]
    = strip_banned_allow_rules old [[lit "GIT"; lit "status"]].
Proof.
  apply (strip_removes_saved_rules (E := unit) id (sample_rules ++ [c_lf]) sample_prefix);
    vm_compute; reflexivity.
Defined.

Definition sample_home : str := lit "home".
Definition sample_marker : str := join_path sample_home MIGRATION_MARKER_FILENAME.
Definition sample_banned : list (list str) := [sample_prefix].
Definition sample_migrated : PolicyDisk :=
  (prefix_rule_migration sample_home rules_path sample_banned sample_saved).2.

Lemma migration_once_witness :
  let bs := encode (sample_rules ++ [c_lf] ++ sample_line ++ [c_lf]) in
  sample_migrated !! sample_marker ≠ None
  ∧ (sample_saved !! sample_marker ≠ None → sample_migrated = sample_saved)
  ∧ (sample_saved !! sample_marker = None → ∃ text, from_utf8 bs = Ok text
       ∧ sample_migrated !! rules_path = Some (encode (strip_banned_allow_rules text sample_banned)))
  ∧ (prefix_rule_migration sample_home rules_path sample_banned sample_migrated).2 = sample_migrated.
Proof.
  assert (H : (prefix_rule_migration sample_home rules_path sample_banned sample_saved).1 = Ok tt)
    by (vm_compute; reflexivity).
  assert (Hm : prefix_rule_migration sample_home rules_path sample_banned sample_saved
               = (Ok tt, sample_migrated)).
  { unfold sample_migrated. rewrite <- H. apply surjective_pairing. }
  assert (Hne : rules_path ≠ join_path sample_home MIGRATION_MARKER_FILENAME)
    by (vm_compute; discriminate).
  assert (Hf : file_at rules_path sample_saved
               = Some (encode (sample_rules ++ [c_lf] ++ sample_line ++ [c_lf])))
    by (vm_compute; reflexivity).
  exact (migration_once sample_home rules_path sample_banned sample_saved sample_migrated _ Hne Hf Hm).
Defined.

(** After the migration the policy is the one before the rule was saved. *)
Lemma migrated_sample : sample_migrated !! rules_path = Some (encode (sample_rules ++ [c_lf])).
Proof. vm_compute. reflexivity. Qed.
