(* ===== verification/HeadTailBuffer.v ===== *)
(** * The output buffer of executed commands

    Models [core/src/unified_exec/head_tail_buffer.rs]: a buffer that keeps the
    beginning and the end of a stream of bytes within a budget and counts what
    it drops. It is specified by a summary of the whole stream; pushing chunks
    and joining buffers keep to the summary, in whatever pieces the stream
    arrives. *)

From stdpp Require Import pretty.
From S2P Require Import Prelude RustStr Utf8.
Open Scope list_scope.

Section Buffer.
Variable max_bytes : nat.

(** ** The buffer *)

Record HeadTailBuffer := { ht_head : bytes; ht_tail : bytes; ht_omitted : N }.

Definition HEAD_BUDGET : nat := max_bytes / 2.
Definition TAIL_BUDGET : nat := max_bytes - HEAD_BUDGET.

Definition ht_default : HeadTailBuffer := {| ht_head := []; ht_tail := []; ht_omitted := 0 |}.

Definition retained_bytes (b : HeadTailBuffer) : N :=
  sat_add (N.of_nat (length (ht_head b))) (N.of_nat (length (ht_tail b))).

Definition total_bytes (b : HeadTailBuffer) : N := sat_add (retained_bytes b) (ht_omitted b).

(** [fill_head]: the buffer and the bytes that did not fit. [split_at_checked]
    fails when the chunk is shorter than the room that is left. *)
Definition fill_head (b : HeadTailBuffer) (chunk : bytes) : HeadTailBuffer * bytes :=
  let remaining_head := HEAD_BUDGET - length (ht_head b) in
  let '(chunk_head, chunk_tail) :=
    if remaining_head <=? length chunk
    then (take remaining_head chunk, drop remaining_head chunk) else (chunk, []) in
  ({| ht_head := ht_head b ++ chunk_head; ht_tail := ht_tail b; ht_omitted := ht_omitted b |},
   chunk_tail).

(** [push_tail]: the slice of the chunk panics when it starts past the end. *)
Definition push_tail (b : HeadTailBuffer) (chunk : bytes) : res unit HeadTailBuffer :=
  let remaining_tail := TAIL_BUDGET - length (ht_tail b) in
  let excess_tail := length chunk - remaining_tail in
  let omitted := sat_add (ht_omitted b) (N.of_nat excess_tail) in
  if excess_tail <? length (ht_tail b)
  then Ok {| ht_head := ht_head b; ht_tail := drop excess_tail (ht_tail b) ++ chunk;
             ht_omitted := omitted |}
  else
    let? rest := slice (excess_tail - length (ht_tail b)) (length chunk) chunk in
    Ok {| ht_head := ht_head b; ht_tail := rest; ht_omitted := omitted |}.

Definition push_chunk (b : HeadTailBuffer) (chunk : bytes) : res unit HeadTailBuffer :=
  let '(b, chunk) := fill_head b chunk in push_tail b chunk.

Definition to_bytes (b : HeadTailBuffer) : bytes := ht_head b ++ ht_tail b.

(** [format_output_omission_marker] of [core/src/unified_exec/mod.rs]. *)
Definition format_output_omission_marker (omitted : N) : str :=
  lit "... " ++ lit (pretty omitted) ++ lit " bytes omitted ...".

Definition to_bytes_with_omission_marker (b : HeadTailBuffer) : bytes :=
  if (ht_omitted b =? 0)%N then to_bytes b
  else ht_head b ++ [c_lf] ++ encode (format_output_omission_marker (ht_omitted b)) ++ [c_lf]
       ++ ht_tail b.

(** [push_buffer]; [cut] is where the ring buffer of the source's tail wraps,
    so where [as_slices] cuts it. *)
Definition push_buffer (b source : HeadTailBuffer) (cut : nat) : res unit HeadTailBuffer :=
  let b := {| ht_head := ht_head b; ht_tail := ht_tail b;
              ht_omitted := sat_add (ht_omitted b) (ht_omitted source) |} in
  let '(b, overflow) :=
    if bool_decide (ht_head b = [])
    then ({| ht_head := ht_head source; ht_tail := ht_tail b; ht_omitted := ht_omitted b |}, [])
    else fill_head b (ht_head source) in
  if length (ht_tail source) =? TAIL_BUDGET
  then Ok {| ht_head := ht_head b; ht_tail := ht_tail source;
             ht_omitted := sat_add (sat_add (ht_omitted b) (N.of_nat (length (ht_tail b))))
                             (N.of_nat (length overflow)) |}
  else
    let? b := push_tail b overflow in
    if bool_decide (ht_tail b = [])
    then Ok {| ht_head := ht_head b; ht_tail := ht_tail source; ht_omitted := ht_omitted b |}
    else
      let? b := push_tail b (take cut (ht_tail source)) in
      push_tail b (drop cut (ht_tail source)).

(** ** The summary of a stream *)

Definition lastn {A} (n : nat) (l : list A) : list A := drop (length l - n) l.

(** The bytes after the head, and the summary of the whole stream. *)
Definition body (s : bytes) : bytes := drop HEAD_BUDGET s.

Definition clamp (n : nat) : N := N.min (N.of_nat n) USIZE_MAX.

Definition summary (s : bytes) : HeadTailBuffer :=
  {| ht_head := take HEAD_BUDGET s; ht_tail := lastn TAIL_BUDGET (body s);
     ht_omitted := clamp (length (body s) - TAIL_BUDGET) |}.

Lemma length_lastn {A} n (l : list A) : length (lastn n l) = min n (length l).
Proof. unfold lastn. rewrite length_drop. lia. Qed.

Lemma lastn_app {A} n (l k : list A) :
  lastn n (l ++ k) = drop (length l + length k - n) l ++ drop (length k - n) k.
Proof.
  unfold lastn. rewrite length_app, drop_app. f_equal. f_equal. lia.
Qed.

Lemma lastn_all {A} n (l : list A) : length l ≤ n → lastn n l = l.
Proof. intros H. unfold lastn. by replace (length l - n) with 0 by lia. Qed.

Lemma lastn_suffix {A} n (l k : list A) : n ≤ length k → lastn n (l ++ k) = lastn n k.
Proof.
  intros H. rewrite lastn_app. rewrite drop_ge by lia. unfold lastn. done.
Qed.

Lemma sat_add_clamp n k : sat_add (clamp n) (N.of_nat k) = clamp (n + k).
Proof. unfold sat_add, clamp. lia. Qed.

Lemma sat_add_clamp2 n k : sat_add (clamp n) (clamp k) = clamp (n + k).
Proof. unfold sat_add, clamp. lia. Qed.

Lemma clamp_0 : clamp 0 = 0%N.
Proof. done. Qed.

(** A buffer whose tail summarises [m], with [m] the bytes after its head. *)
Definition with_body (h m : bytes) : HeadTailBuffer :=
  {| ht_head := h; ht_tail := lastn TAIL_BUDGET m; ht_omitted := clamp (length m - TAIL_BUDGET) |}.

Lemma summary_alt s : summary s = with_body (take HEAD_BUDGET s) (body s).
Proof. done. Qed.

Lemma push_tail_body h m x : push_tail (with_body h m) x = Ok (with_body h (m ++ x)).
Proof.
  unfold push_tail, with_body. simpl. rewrite length_lastn, sat_add_clamp.
  rewrite length_app. set (T := TAIL_BUDGET).
  replace (length m - T + (length x - (T - min T (length m)))) with (length m + length x - T) by lia.
  destruct (Nat.ltb_spec (length x - (T - min T (length m))) (min T (length m))) as [H|H].
  - do 2 f_equal. rewrite lastn_app. replace (length x - T) with 0 by lia.
    rewrite drop_0. f_equal. unfold lastn. rewrite drop_drop. f_equal. lia.
  - rewrite slice_ok by lia. simpl. do 2 f_equal.
    rewrite lastn_app. rewrite (drop_ge m) by lia. simpl.
    rewrite take_ge by (rewrite length_drop; lia). f_equal. lia.
Qed.

Lemma fill_head_summary h m s x :
  h = take HEAD_BUDGET s →
  fill_head (with_body h m) x
  = (with_body (take HEAD_BUDGET (s ++ x)) m, drop (HEAD_BUDGET - length s) x).
Proof.
  intros ->. unfold fill_head, with_body. simpl. rewrite length_take.
  replace (HEAD_BUDGET - min HEAD_BUDGET (length s)) with (HEAD_BUDGET - length s) by lia.
  rewrite take_app. destruct (Nat.leb_spec (HEAD_BUDGET - length s) (length x)) as [H|H]; [done|].
  rewrite drop_ge by lia. by rewrite (take_ge x) by lia.
Qed.

Lemma body_app s x : body (s ++ x) = body s ++ drop (HEAD_BUDGET - length s) x.
Proof. apply drop_app. Qed.

Lemma push_chunk_summary s c : push_chunk (summary s) c = Ok (summary (s ++ c)).
Proof.
  unfold push_chunk. rewrite summary_alt, (fill_head_summary _ _ s) by done.
  by rewrite push_tail_body, summary_alt, body_app.
Qed.

(** What the head of a source leaves over, and the body of the joined stream. *)
Definition spill (s x : bytes) : bytes := drop (HEAD_BUDGET - length s) (take HEAD_BUDGET x).

Lemma body_join s x : body (s ++ x) = body s ++ spill s x ++ body x.
Proof.
  rewrite body_app. f_equal. unfold spill, body.
  rewrite <- (take_drop HEAD_BUDGET x) at 1. rewrite drop_app. f_equal.
  rewrite length_take. destruct (decide (length x ≤ HEAD_BUDGET)) as [H|H].
  - rewrite (drop_ge x) by lia. by rewrite drop_nil.
  - by replace (HEAD_BUDGET - length s - min HEAD_BUDGET (length x)) with 0 by lia.
Qed.

Lemma join_heads s x m om :
  (if bool_decide (take HEAD_BUDGET s = [])
   then ({| ht_head := take HEAD_BUDGET x; ht_tail := m; ht_omitted := om |}, [])
   else fill_head {| ht_head := take HEAD_BUDGET s; ht_tail := m; ht_omitted := om |}
          (take HEAD_BUDGET x))
  = ({| ht_head := take HEAD_BUDGET (s ++ x); ht_tail := m; ht_omitted := om |}, spill s x).
Proof.
  unfold spill. case_bool_decide as E.
  - apply (f_equal length) in E. rewrite length_take in E. simpl in E. f_equal.
    + f_equal. rewrite take_app. destruct (decide (HEAD_BUDGET = 0)) as [->|]; [done|].
      assert (length s = 0) as Hs by lia. apply length_zero_iff_nil in Hs as ->. simpl.
      by rewrite take_nil, Nat.sub_0_r.
    + rewrite drop_ge; [done|]. rewrite length_take. lia.
  - unfold fill_head. simpl. rewrite length_take.
    replace (HEAD_BUDGET - min HEAD_BUDGET (length s)) with (HEAD_BUDGET - length s) by lia.
    rewrite take_app. destruct (Nat.leb_spec (HEAD_BUDGET - length s) (length (take HEAD_BUDGET x))) as [H|H].
    + rewrite take_take. do 3 f_equal. f_equal. lia.
    + rewrite (drop_ge (take HEAD_BUDGET x)) by lia. rewrite length_take in H.
      do 3 f_equal. rewrite !take_ge by lia. done.
Qed.

(** Joining two buffers is summarising the two streams as one, wherever the
    tail of the second is cut. *)
Lemma push_buffer_summary s x cut :
  push_buffer (summary s) (summary x) cut = Ok (summary (s ++ x)).
Proof.
  unfold push_buffer, summary. cbn [ht_head ht_tail ht_omitted].
  rewrite join_heads, sat_add_clamp2. cbn [ht_head ht_tail ht_omitted].
  rewrite body_join, length_lastn. set (T := TAIL_BUDGET).
  destruct (Nat.eqb_spec (min T (length (body x))) T) as [Hfull|Hpart].
  - do 2 f_equal.
    + rewrite app_assoc, lastn_suffix by lia. done.
    + rewrite length_lastn, !sat_add_clamp, !length_app. f_equal. fold T. lia.
  - assert (Hx : length (body x) < T) by lia.
    assert (Hst : {| ht_head := take HEAD_BUDGET (s ++ x); ht_tail := lastn T (body s);
        ht_omitted := clamp (length (body s) - T + (length (body x) - T)) |}
      = with_body (take HEAD_BUDGET (s ++ x)) (body s)).
    { unfold with_body. f_equal. f_equal. lia. }
    rewrite Hst, push_tail_body. cbn [res_bind].
    rewrite (lastn_all T (body x)) by lia.
    case_bool_decide as Hemp.
    + unfold with_body in *. cbn [ht_tail ht_head ht_omitted] in *.
      apply (f_equal length) in Hemp. rewrite length_lastn in Hemp. simpl in Hemp.
      assert (length (body s ++ spill s x) = 0) as Hz%length_zero_iff_nil by (fold T in Hemp; lia).
      apply app_nil in Hz as [-> ->]. simpl. do 2 f_equal; [by rewrite lastn_all by lia|].
      f_equal. fold T. lia.
    + rewrite push_tail_body. cbn [res_bind]. rewrite push_tail_body.
      unfold with_body. by rewrite <- !app_assoc, (take_drop cut).
Qed.

(** ** Reachable buffers *)

(** [holds b s]: the buffer [b] has been made from the bytes [s], pushed in
    chunks and joined from other such buffers. *)
Inductive holds : HeadTailBuffer → bytes → Prop :=
  | holds_default : holds ht_default []
  | holds_chunk b s c b' : holds b s → push_chunk b c = Ok b' → holds b' (s ++ c)
  | holds_buffer b s source x cut b' :
      holds b s → holds source x → push_buffer b source cut = Ok b' → holds b' (s ++ x).

Lemma summary_nil : summary [] = ht_default.
Proof. unfold summary, body, ht_default. by rewrite take_nil, drop_nil. Qed.

Lemma holds_summary b s : holds b s → b = summary s.
Proof.
  induction 1 as [|b s c b' _ -> Hp|b s source x cut b' _ -> _ -> Hp]; [by rewrite summary_nil|..].
  - rewrite push_chunk_summary in Hp. by injection Hp.
  - rewrite push_buffer_summary in Hp. by injection Hp.
Qed.

Lemma budgets : HEAD_BUDGET + TAIL_BUDGET = max_bytes.
Proof.
  unfold TAIL_BUDGET, HEAD_BUDGET.
  pose proof (Nat.Div0.div_le_upper_bound max_bytes 2 max_bytes ltac:(lia)). lia.
Qed.

(** C37. Whatever chunks a stream is pushed in and however buffers are joined,
    the buffer is the summary of the stream: its first bytes up to the head
    budget, its last ones after the head up to the tail budget, and the number
    of bytes between them; and no push or join panics. *)
Theorem head_tail_refines_summary b s :
  holds b s →
  b = {| ht_head := take HEAD_BUDGET s; ht_tail := lastn TAIL_BUDGET (drop HEAD_BUDGET s);
         ht_omitted := N.min (N.of_nat (length s - max_bytes)) USIZE_MAX |}
  ∧ (∀ c, ∃ b', push_chunk b c = Ok b')
  ∧ (∀ source x cut, holds source x → ∃ b', push_buffer b source cut = Ok b').
Proof.
  intros Hb. pose proof (holds_summary b s Hb) as ->. split_and!.
  - unfold summary, body. f_equal. unfold clamp. rewrite length_drop. do 2 f_equal.
    pose proof budgets. lia.
  - intros c. rewrite push_chunk_summary. eauto.
  - intros source x cut Hx. rewrite (holds_summary _ _ Hx), push_buffer_summary. eauto.
Qed.

(** The buffer never holds more than its budget; a stream within the budget
    is returned whole, without a marker; and the byte count is that of the
    stream, up to the largest [usize]. *)
Theorem head_tail_bounded b s :
  holds b s →
  length (to_bytes b) = min (length s) max_bytes
  ∧ (length s ≤ max_bytes → to_bytes b = s ∧ to_bytes_with_omission_marker b = s)
  ∧ total_bytes b = N.min (N.of_nat (length s)) USIZE_MAX.
Proof.
  intros ->%holds_summary. pose proof budgets. unfold to_bytes, total_bytes, retained_bytes, summary, body.
  cbn [ht_head ht_tail ht_omitted]. split_and!.
  - rewrite length_app, length_lastn, length_take, length_drop. lia.
  - intros Hs. assert (E : take HEAD_BUDGET s ++ lastn TAIL_BUDGET (drop HEAD_BUDGET s) = s).
    { rewrite lastn_all by (rewrite length_drop; lia). apply take_drop. }
    split; [done|]. unfold to_bytes_with_omission_marker, to_bytes. cbn [ht_head ht_tail ht_omitted].
    rewrite length_drop. replace (length s - HEAD_BUDGET - TAIL_BUDGET) with 0 by lia.
    by rewrite clamp_0, N.eqb_refl.
  - rewrite length_lastn, length_take, length_drop. unfold sat_add, clamp. lia.
Qed.

End Buffer.

(** ** A concrete run *)

(** A budget of four bytes: two chunks, and a second buffer joined. *)
Lemma sample_holds :
  holds 4 {| ht_head := [1; 2]%N; ht_tail := [8; 9]%N; ht_omitted := 5%N |}
    (([] ++ [1; 2; 3]%N) ++ ([] ++ [4; 5; 6; 7; 8; 9]%N)).
Proof.
  eapply (holds_buffer 4 {| ht_head := [1; 2]%N; ht_tail := [3]%N; ht_omitted := 0%N |} _
            {| ht_head := [4; 5]%N; ht_tail := [8; 9]%N; ht_omitted := 2%N |} _ 1).
  - eapply holds_chunk; [apply holds_default|]. reflexivity.
  - eapply holds_chunk; [apply holds_default|]. reflexivity.
  - reflexivity.
Defined.

Lemma head_tail_refines_summary_witness :
  let b := {| ht_head := [1; 2]%N; ht_tail := [8; 9]%N; ht_omitted := 5%N |} in
  let s := [1; 2; 3; 4; 5; 6; 7; 8; 9]%N in
  b = {| ht_head := take (HEAD_BUDGET 4) s; ht_tail := lastn (TAIL_BUDGET 4) (drop (HEAD_BUDGET 4) s);
         ht_omitted := N.min (N.of_nat (length s - 4)) USIZE_MAX |}
  ∧ (∀ c, ∃ b', push_chunk 4 b c = Ok b')
  ∧ (∀ source x cut, holds 4 source x → ∃ b', push_buffer 4 b source cut = Ok b').
Proof. exact (head_tail_refines_summary 4 _ _ sample_holds). Defined.

Lemma head_tail_bounded_witness :
  let b := {| ht_head := [1; 2]%N; ht_tail := [8; 9]%N; ht_omitted := 5%N |} in
  let s := [1; 2; 3; 4; 5; 6; 7; 8; 9]%N in
  length (to_bytes b) = min (length s) 4
  ∧ (length s ≤ 4 → to_bytes b = s ∧ to_bytes_with_omission_marker b = s)
  ∧ total_bytes b = N.min (N.of_nat (length s)) USIZE_MAX.
Proof. exact (head_tail_bounded 4 _ _ sample_holds). Defined.
