(* ===== verification/Truncate.v ===== *)
(** * Truncating text to a budget

    Models [utils/string/src/truncate.rs], [take_bytes_at_char_boundary] of
    [utils/string/src/lib.rs] and [utils/output-truncation/src/lib.rs]: text is
    cut in the middle, at character boundaries, and a marker says how much is
    missing. Byte positions and budgets are [N]; slicing a string at a byte
    position panics unless it is a character boundary. *)

From stdpp Require Import pretty.
From S2P Require Import Prelude RustStr.
Open Scope list_scope.

(** [str::len] as a [usize], and the width of a character. *)
Definition blen (s : str) : N := N.of_nat (str_len s).
Definition cwidth (c : char) : N := N.of_nat (len_utf8 c).

(** [&s[..n]] and [&s[n..]]. *)
Fixpoint split_at_byte {E} (n : N) (s : str) : res E (str * str) :=
  if (n =? 0)%N then Ok ([], s)
  else match s with
       | [] => Panic
       | c :: s' =>
           if (cwidth c <=? n)%N
           then let? (a, b) := split_at_byte (n - cwidth c) s' in Ok (c :: a, b)
           else Panic
       end.

(** ** [truncate.rs] *)

Definition APPROX_BYTES_PER_TOKEN : N := 4.

Definition approx_token_count (text : str) : N :=
  (sat_add (blen text) (APPROX_BYTES_PER_TOKEN - 1) / APPROX_BYTES_PER_TOKEN)%N.
Definition approx_bytes_for_tokens (tokens : N) : N := sat_mul tokens APPROX_BYTES_PER_TOKEN.
Definition approx_tokens_from_byte_count (bytes : N) : N :=
  (sat_add bytes (APPROX_BYTES_PER_TOKEN - 1) / APPROX_BYTES_PER_TOKEN)%N.

Record SplitState := {
  sp_idx : N;              (* the offset of the next character *)
  sp_prefix_end : N;
  sp_suffix_start : N;
  sp_removed : N;
  sp_started : bool;
}.

(** One character of the loop of [split_string]. *)
Definition split_step (beginning_bytes tail_start_target : N) (st : SplitState) (c : char) : SplitState :=
  let idx := sp_idx st in
  let char_end := (idx + cwidth c)%N in
  if (char_end <=? beginning_bytes)%N then
    {| sp_idx := char_end; sp_prefix_end := char_end; sp_suffix_start := sp_suffix_start st;
       sp_removed := sp_removed st; sp_started := sp_started st |}
  else if (tail_start_target <=? idx)%N then
    {| sp_idx := char_end; sp_prefix_end := sp_prefix_end st;
       sp_suffix_start := if sp_started st then sp_suffix_start st else idx;
       sp_removed := sp_removed st; sp_started := true |}
  else
    {| sp_idx := char_end; sp_prefix_end := sp_prefix_end st; sp_suffix_start := sp_suffix_start st;
       sp_removed := sat_add (sp_removed st) 1; sp_started := sp_started st |}.

Definition split_string {E} (s : str) (beginning_bytes end_bytes : N) : res E (N * str * str) :=
  if bool_decide (s = []) then Ok (0%N, [], [])
  else
    let len := blen s in
    let tail_start_target := (len - end_bytes)%N in
    let st := foldl (split_step beginning_bytes tail_start_target)
                {| sp_idx := 0; sp_prefix_end := 0; sp_suffix_start := len; sp_removed := 0;
                   sp_started := false |} s in
    let prefix_end := sp_prefix_end st in
    let suffix_start := if (sp_suffix_start st <? prefix_end)%N then prefix_end else sp_suffix_start st in
    let? (before, _) := split_at_byte prefix_end s in
    let? (_, after) := split_at_byte suffix_start s in
    Ok (sp_removed st, before, after).

Definition split_budget (budget : N) : N * N := (budget / 2, budget - budget / 2)%N.

(** The ellipsis of the markers. *)
Definition c_ellipsis : char := 8230%N.

Definition format_truncation_marker (use_tokens : bool) (removed_count : N) : str :=
  [c_ellipsis] ++ lit (pretty removed_count)
  ++ (if use_tokens then lit " tokens truncated" else lit " chars truncated") ++ [c_ellipsis].

Definition removed_units (use_tokens : bool) (removed_bytes removed_chars : N) : N :=
  if use_tokens then approx_tokens_from_byte_count removed_bytes else removed_chars.

Definition assemble_truncated_output (prefix suffix marker : str) : str := prefix ++ marker ++ suffix.

Definition truncate_with_byte_estimate {E} (s : str) (max_bytes : N) (use_tokens : bool) : res E str :=
  if bool_decide (s = []) then Ok []
  else
    let total_chars := N.of_nat (length s) in
    if (max_bytes =? 0)%N
    then Ok (format_truncation_marker use_tokens (removed_units use_tokens (blen s) total_chars))
    else if (blen s <=? max_bytes)%N then Ok s
    else
      let '(left_budget, right_budget) := split_budget max_bytes in
      let? (removed_chars, left_part, right_part) := split_string s left_budget right_budget in
      let marker := format_truncation_marker use_tokens
                      (removed_units use_tokens (blen s - max_bytes) removed_chars) in
      Ok (assemble_truncated_output left_part right_part marker).

Definition truncate_middle_chars {E} (s : str) (max_bytes : N) : res E str :=
  truncate_with_byte_estimate s max_bytes false.

Definition truncate_middle_with_token_budget {E} (s : str) (max_tokens : N) : res E (str * option N) :=
  if bool_decide (s = []) then Ok ([], None)
  else if (0 <? max_tokens)%N && (blen s <=? approx_bytes_for_tokens max_tokens)%N then Ok (s, None)
  else
    let? truncated := truncate_with_byte_estimate s (approx_bytes_for_tokens max_tokens) true in
    let total_tokens := approx_token_count s in
    Ok (if bool_decide (truncated = s) then (truncated, None) else (truncated, Some total_tokens)).

(** ** [take_bytes_at_char_boundary] *)

Fixpoint last_boundary (s : str) (idx maxb : N) : N :=
  match s with
  | [] => idx
  | c :: s' => let nb := (idx + cwidth c)%N in
               if (maxb <? nb)%N then idx else last_boundary s' nb maxb
  end.

Definition take_bytes_at_char_boundary {E} (s : str) (maxb : N) : res E str :=
  if (blen s <=? maxb)%N then Ok s
  else let? (before, _) := split_at_byte (last_boundary s 0 maxb) s in Ok before.

(** ** [output-truncation] *)

(** [TruncationPolicy] of [protocol/src/protocol.rs]. *)
Inductive TruncationPolicy := TBytes (bytes : N) | TTokens (tokens : N).

Definition token_budget (p : TruncationPolicy) : N :=
  match p with TBytes bytes => approx_tokens_from_byte_count bytes | TTokens tokens => tokens end.
Definition byte_budget (p : TruncationPolicy) : N :=
  match p with TBytes bytes => bytes | TTokens tokens => approx_bytes_for_tokens tokens end.

Definition truncate_text {E} (content : str) (p : TruncationPolicy) : res E str :=
  match p with
  | TBytes bytes => truncate_middle_chars content bytes
  | TTokens tokens => let? (t, _) := truncate_middle_with_token_budget content tokens in Ok t
  end.

Definition formatted_truncate_text {E} (content : str) (p : TruncationPolicy) : res E str :=
  if (blen content <=? byte_budget p)%N then Ok content
  else
    let? result := truncate_text content p in
    Ok (lit "Warning: truncated output (original token count: " ++ lit (pretty (approx_token_count content))
        ++ lit ")" ++ [c_lf] ++ lit "Total output lines: "
        ++ lit (pretty (length (str_lines content))) ++ [c_lf; c_lf] ++ result).

(** [FunctionCallOutputContentItem] of [protocol/src/models.rs]; [Img] stands
    for the reference and the detail of an image. *)
Inductive FunctionCallOutputContentItem (Img : Type) :=
  | InputText (text : str)
  | InputImage (image : Img)
  | InputAudio (audio_url : str)
  | EncryptedContent (encrypted_content : str).
Arguments InputText {Img} text.
Arguments InputImage {Img} image.
Arguments InputAudio {Img} audio_url.
Arguments EncryptedContent {Img} encrypted_content.

Section Items.
Context {Img : Type} (estimate_audio_token_count : str → N).
Abbreviation item := (FunctionCallOutputContentItem Img).

(** The loop's state: what is kept, the budget left, and the two counters. *)
Record ItemsState := {
  it_out : list item;
  it_remaining : N;
  it_omitted_text : N;
  it_omitted_audio : N;
}.

Definition text_cost (p : TruncationPolicy) (text : str) : N :=
  match p with TBytes _ => blen text | TTokens _ => approx_token_count text end.
Definition audio_cost (p : TruncationPolicy) (url : str) : N :=
  match p with
  | TBytes _ => approx_bytes_for_tokens (estimate_audio_token_count url)
  | TTokens _ => estimate_audio_token_count url
  end.
Definition snippet_policy (p : TruncationPolicy) (remaining : N) : TruncationPolicy :=
  match p with TBytes _ => TBytes remaining | TTokens _ => TTokens remaining end.

Definition keep (st : ItemsState) (i : item) (remaining : N) : ItemsState :=
  {| it_out := it_out st ++ [i]; it_remaining := remaining;
     it_omitted_text := it_omitted_text st; it_omitted_audio := it_omitted_audio st |}.
Definition omit_text (st : ItemsState) (remaining : N) : ItemsState :=
  {| it_out := it_out st; it_remaining := remaining;
     it_omitted_text := it_omitted_text st + 1; it_omitted_audio := it_omitted_audio st |}.
Definition omit_audio (st : ItemsState) : ItemsState :=
  {| it_out := it_out st; it_remaining := it_remaining st;
     it_omitted_text := it_omitted_text st; it_omitted_audio := it_omitted_audio st + 1 |}.

Definition item_step {E} (p : TruncationPolicy) (st : ItemsState) (i : item) : res E ItemsState :=
  match i with
  | InputText text =>
      if bool_decide (text = []) then Ok st
      else if (it_remaining st =? 0)%N then Ok (omit_text st (it_remaining st))
      else
        let cost := text_cost p text in
        if (cost <=? it_remaining st)%N then Ok (keep st (InputText text) (it_remaining st - cost))
        else
          let? snippet := truncate_text text (snippet_policy p (it_remaining st)) in
          Ok (if bool_decide (snippet = []) then omit_text st 0 else keep st (InputText snippet) 0)
  | InputImage image => Ok (keep st (InputImage image) (it_remaining st))
  | InputAudio url =>
      let cost := audio_cost p url in
      if (cost <=? it_remaining st)%N then Ok (keep st (InputAudio url) (it_remaining st - cost))
      else Ok (omit_audio st)
  | EncryptedContent e => Ok (keep st (EncryptedContent e) (it_remaining st))
  end.

Definition omitted_note (n : N) (what : str) : list item :=
  if (0 <? n)%N then [InputText (lit "[omitted " ++ lit (pretty n) ++ what)] else [].

Definition truncate_function_output_items_with_policy {E} (items : list item) (p : TruncationPolicy)
    : res E (list item) :=
  let remaining_budget := match p with TBytes _ => byte_budget p | TTokens _ => token_budget p end in
  let? st := foldM (item_step p)
               {| it_out := []; it_remaining := remaining_budget; it_omitted_text := 0;
                  it_omitted_audio := 0 |} items in
  Ok (it_out st ++ omitted_note (it_omitted_text st) (lit " text items ...]")
      ++ omitted_note (it_omitted_audio st) (lit " audio items ...]")).

(** [FunctionCallOutputPayload] of [protocol/src/models.rs]. *)
Inductive FunctionCallOutputBody := BodyText (text : str) | BodyItems (items : list item).
Record FunctionCallOutputPayload := { payload_body : FunctionCallOutputBody; payload_success : option bool }.

Definition truncate_function_output_payload {E} (o : FunctionCallOutputPayload) (p : TruncationPolicy)
    : res E FunctionCallOutputPayload :=
  let? body := match payload_body o with
               | BodyText text => let? t := truncate_text text p in Ok (BodyText t)
               | BodyItems items =>
                   let? items := truncate_function_output_items_with_policy items p in Ok (BodyItems items)
               end in
  Ok {| payload_body := body; payload_success := payload_success o |}.

Definition text_of (i : item) : option str := match i with InputText t => Some t | _ => None end.
Definition is_text (i : item) : bool := match i with InputText _ => true | _ => false end.

(** The loop that joins the text segments: a line feed goes before a segment
    unless nothing has been collected. *)
Definition combine_text (combined text : str) : str :=
  (if bool_decide (combined = []) then combined else combined ++ [c_lf]) ++ text.

Definition formatted_truncate_text_content_items_with_policy {E} (items : list item)
    (p : TruncationPolicy) : res E (list item * option N) :=
  let text_segments := omap text_of items in
  if bool_decide (text_segments = []) then Ok (items, None)
  else
    let combined := foldl combine_text [] text_segments in
    if (blen combined <=? byte_budget p)%N then Ok (items, None)
    else
      let? text := formatted_truncate_text combined p in
      Ok (InputText text :: filter (λ i, is_text i = false) items, Some (approx_token_count combined)).

End Items.

(** * Facts about truncation

    Where a text is cut and what is kept; that cutting never panics; and what
    the truncation of content items keeps. *)

(** ** Byte lengths *)

Lemma cwidth_pos c : (0 < cwidth c)%N.
Proof. unfold cwidth, len_utf8. repeat case_match; lia. Qed.

Lemma blen_nil : blen [] = 0%N.
Proof. done. Qed.

Lemma blen_cons c s : blen (c :: s) = (cwidth c + blen s)%N.
Proof. unfold blen, cwidth, str_len. simpl. lia. Qed.

Lemma blen_app a b : blen (a ++ b) = (blen a + blen b)%N.
Proof. unfold blen, str_len. rewrite sum_list_with_app. lia. Qed.

Lemma blen_pos s : s ≠ [] → (0 < blen s)%N.
Proof. destruct s as [|c s]; [done|]. intros _. rewrite blen_cons. pose proof (cwidth_pos c). lia. Qed.

Lemma blen_length s : (N.of_nat (length s) ≤ blen s)%N.
Proof.
  induction s as [|c s IH]; [done|]. rewrite blen_cons. pose proof (cwidth_pos c). simpl. lia.
Qed.

#[local] Hint Rewrite blen_nil blen_cons blen_app : turnrail.

(** Slicing at a character boundary. *)
Lemma split_at_byte_app {E} a b : split_at_byte (E := E) (blen a) (a ++ b) = Ok (a, b).
Proof.
  induction a as [|c a IH]; [by destruct b|]. rewrite blen_cons. pose proof (cwidth_pos c).
  cbn [split_at_byte app]. rewrite (proj2 (N.eqb_neq _ _)) by lia. rewrite (proj2 (N.leb_le _ _)) by lia.
  replace (cwidth c + blen a - cwidth c)%N with (blen a) by lia. by rewrite IH.
Qed.

(** ** The loop of [split_string] *)

(** No further character fits the beginning. *)
Definition past (B i : N) (t : str) : Prop := ∀ c t', t = c :: t' → (B < i + cwidth c)%N.

Lemma past_tail B i c t : past B i (c :: t) → past B (i + cwidth c) t.
Proof. intros H d t' ->. specialize (H c _ eq_refl). pose proof (cwidth_pos d). lia. Qed.

Lemma split_suffix B target t st :
  past B (sp_idx st) t → (target ≤ sp_idx st)%N → sp_started st = true →
  foldl (split_step B target) st t
  = {| sp_idx := sp_idx st + blen t; sp_prefix_end := sp_prefix_end st;
       sp_suffix_start := sp_suffix_start st; sp_removed := sp_removed st; sp_started := true |}.
Proof.
  revert st. induction t as [|c t IH]; intros st Hp Ht Hs; simpl.
  { rewrite blen_nil, N.add_0_r. destruct st; simpl in *. by subst. }
  unfold split_step at 2. rewrite (proj2 (N.leb_gt _ _)) by (by eapply Hp).
  rewrite (proj2 (N.leb_le _ _)) by done. rewrite Hs, IH; simpl.
  - f_equal. rewrite blen_cons. lia.
  - by apply past_tail.
  - lia.
  - done.
Qed.

(** What is left after the beginning: characters that are removed, then the
    suffix. *)
Lemma split_middle B target t st :
  past B (sp_idx st) t → sp_started st = false → (sp_removed st ≤ USIZE_MAX)%N →
  ∃ mid post, t = mid ++ post
    ∧ foldl (split_step B target) st t
      = {| sp_idx := sp_idx st + blen t; sp_prefix_end := sp_prefix_end st;
           sp_suffix_start := if bool_decide (post = []) then sp_suffix_start st else sp_idx st + blen mid;
           sp_removed := N.min (sp_removed st + N.of_nat (length mid)) USIZE_MAX;
           sp_started := negb (bool_decide (post = [])) |}
    ∧ (post ≠ [] → (target ≤ sp_idx st + blen mid)%N)
    ∧ (∀ m c, mid = m ++ [c] → (sp_idx st + blen m < target)%N).
Proof.
  revert st. induction t as [|c t IH]; intros st Hp Hs Hr.
  { exists [], []. split_and!; [done| |done|by intros [] ? ?].
    simpl. rewrite blen_nil, N.add_0_r. destruct st; simpl in *. subst. f_equal. lia. }
  destruct (N.leb_spec target (sp_idx st)) as [Ht|Ht].
  - exists [], (c :: t). split_and!; [done| |by rewrite blen_nil; lia|by intros [] ? ?].
    simpl. unfold split_step at 2. rewrite (proj2 (N.leb_gt _ _)) by (by eapply Hp).
    rewrite (proj2 (N.leb_le _ _)) by done. rewrite Hs, split_suffix; simpl; [|by apply past_tail|lia|done].
    rewrite blen_nil, N.add_0_r, blen_cons. f_equal; lia.
  - set (st' := split_step B target st c).
    assert (E : st' = {| sp_idx := sp_idx st + cwidth c; sp_prefix_end := sp_prefix_end st;
        sp_suffix_start := sp_suffix_start st; sp_removed := sat_add (sp_removed st) 1; sp_started := false |}).
    { unfold st', split_step. rewrite (proj2 (N.leb_gt _ _)) by (by eapply Hp).
      rewrite (proj2 (N.leb_gt _ _)) by done. by rewrite Hs. }
    destruct (IH st') as (mid & post & -> & Hf & Hpost & Hmid); 
      [rewrite E; by apply past_tail|by rewrite E|rewrite E; unfold sat_add; simpl; lia|].
    exists (c :: mid), post. split_and!; [done| | |].
    + simpl. fold st'. rewrite Hf, E. simpl. rewrite !blen_cons. unfold sat_add.
      f_equal; [lia|case_bool_decide; [done|lia]|lia].
    + rewrite blen_cons. intros H%Hpost. rewrite E in H. simpl in H. lia.
    + intros m d Hm. destruct m as [|c' m]; injection Hm as <- Hm; [rewrite blen_nil; lia|].
      specialize (Hmid m d Hm). rewrite E in Hmid. simpl in Hmid. rewrite blen_cons. lia.
Qed.

Lemma split_prefix B s :
  ∃ pre rest, s = pre ++ rest ∧ (blen pre ≤ B)%N ∧ past B (blen pre) rest
    ∧ ∀ target len, foldl (split_step B target)
          {| sp_idx := 0; sp_prefix_end := 0; sp_suffix_start := len; sp_removed := 0; sp_started := false |} pre
        = {| sp_idx := blen pre; sp_prefix_end := blen pre; sp_suffix_start := len; sp_removed := 0;
             sp_started := false |}.
Proof.
  induction s as [|c s IH] using rev_ind.
  { exists [], []. split_and!; [done|rewrite blen_nil; lia|by intros ? ?|done]. }
  destruct IH as (pre & rest & -> & Hb & Hp & Hf). destruct rest as [|d rest].
  - rewrite app_nil_r. destruct (N.leb_spec (blen pre + cwidth c) B) as [Hc|Hc].
    + exists (pre ++ [c]), []. rewrite app_nil_r, blen_app, blen_cons, blen_nil.
      split_and!; [done|lia|by intros ? ?|]. intros target len. rewrite foldl_app, Hf. simpl.
      unfold split_step. simpl. rewrite (proj2 (N.leb_le _ _)) by done. f_equal; lia.
    + exists pre, [c]. split_and!; [done|done| |done]. by intros d t' [= <- <-].
  - exists pre, (d :: rest ++ [c]). rewrite <- app_assoc. split_and!; [done|done| |done].
    intros d' t' [= <- <-]. by eapply Hp.
Qed.

(** [split_string] keeps the longest beginning and the longest end that fit
    their budgets, and counts the characters between them. *)
Lemma split_string_spec {E} s B e :
  (blen s ≤ USIZE_MAX)%N →
  ∃ pre mid post, s = pre ++ mid ++ post
    ∧ split_string (E := E) s B e = Ok (N.of_nat (length mid), pre, post)
    ∧ (blen pre ≤ B)%N ∧ (blen post ≤ e)%N
    ∧ (∀ c t, mid ++ post = c :: t → (B < blen pre + cwidth c)%N)
    ∧ (∀ m c, mid = m ++ [c] → (e < cwidth c + blen post)%N).
Proof.
  intros Hlen. unfold split_string. case_bool_decide as Hs.
  { subst. exists [], [], []. rewrite !blen_nil. split_and!; [done|done|lia|lia|done|by intros []]. }
  destruct (split_prefix B s) as (pre & rest & -> & Hb & Hp & Hf).
  set (target := (blen (pre ++ rest) - e)%N).
  destruct (split_middle B target rest
    {| sp_idx := blen pre; sp_prefix_end := blen pre; sp_suffix_start := blen (pre ++ rest);
       sp_removed := 0; sp_started := false |}) as (mid & post & -> & Hm & Hpost & Hmid); [done|done|done|].
  rewrite foldl_app, Hf, Hm. cbn [sp_prefix_end sp_suffix_start sp_removed sp_idx] in *.
  exists pre, mid, post. split; [done|].
  assert (Hss : (if bool_decide (post = []) then blen (pre ++ mid ++ post) else blen pre + blen mid)%N
    = blen (pre ++ mid)).
  { case_bool_decide as Ep; [subst; by rewrite app_nil_r|]. by rewrite blen_app. }
  rewrite Hss. rewrite (proj2 (N.ltb_ge _ _)) by (rewrite blen_app; lia).
  rewrite split_at_byte_app. cbn [res_bind]. rewrite app_assoc, split_at_byte_app. cbn [res_bind].
  pose proof (blen_length mid). rewrite !blen_app in Hlen.
  split_and!.
  - do 3 f_equal. lia.
  - done.
  - destruct (decide (post = [])) as [->|Hne]; [rewrite blen_nil; lia|].
    specialize (Hpost Hne). unfold target in Hpost. rewrite !blen_app in Hpost. lia.
  - intros c t Ht. by eapply Hp.
  - intros m c ->. specialize (Hmid m c eq_refl). unfold target in Hmid.
    rewrite !blen_app, blen_cons, blen_nil in Hmid. lia.
Qed.

(** ** The truncation of a text *)

(** [out] is [s] with its middle replaced by a marker: the parts kept are the
    longest that fit the two halves of the budget, and the marker states what
    is missing. *)
Definition truncated_middle (s out : str) (max_bytes : N) (use_tokens : bool) : Prop :=
  ∃ pre mid post,
    s = pre ++ mid ++ post ∧ mid ≠ []
    ∧ out = pre ++ format_truncation_marker use_tokens
                     (removed_units use_tokens (blen s - max_bytes) (N.of_nat (length mid))) ++ post
    ∧ (blen pre ≤ max_bytes / 2)%N ∧ (blen post ≤ max_bytes - max_bytes / 2)%N
    ∧ (∀ c t, mid = c :: t → (max_bytes / 2 < blen pre + cwidth c)%N)
    ∧ (∀ m c, mid = m ++ [c] → (max_bytes - max_bytes / 2 < cwidth c + blen post)%N).

Lemma truncate_estimate_spec {E} s max_bytes use_tokens :
  (blen s ≤ USIZE_MAX)%N →
  ∃ out, truncate_with_byte_estimate (E := E) s max_bytes use_tokens = Ok out
    ∧ ((blen s ≤ max_bytes)%N ∧ out = s
       ∨ (max_bytes < blen s)%N ∧ truncated_middle s out max_bytes use_tokens).
Proof.
  intros Hlen. unfold truncate_with_byte_estimate. case_bool_decide as Hs.
  { subst. exists []. split; [done|]. left. rewrite blen_nil. split; [lia|done]. }
  pose proof (blen_pos s Hs). destruct (N.eqb_spec max_bytes 0) as [->|Hm].
  { eexists. split; [done|]. right. split; [done|]. exists [], s, []. simpl. rewrite !app_nil_r, N.sub_0_r.
    split_and!; [done|done|done|done|done|..].
    - intros c t _. rewrite blen_nil. pose proof (cwidth_pos c). change (0 / 2)%N with 0%N. lia.
    - intros m c _. rewrite blen_nil. pose proof (cwidth_pos c). change (0 / 2)%N with 0%N. lia. }
  destruct (N.leb_spec (blen s) max_bytes) as [Hle|Hgt]; [eauto|].
  unfold split_budget.
  destruct (split_string_spec (E := E) s (max_bytes / 2) (max_bytes - max_bytes / 2) Hlen)
    as (pre & mid & post & Hcut & -> & Hpre & Hpost & Hmax1 & Hmax2).
  cbn [res_bind]. eexists. split; [done|]. right. split; [done|]. exists pre, mid, post.
  assert (Hmid : mid ≠ []).
  { intros ->. rewrite Hcut in Hgt. simpl in Hgt. rewrite blen_app in Hgt.
    pose proof (N.Div0.div_le_upper_bound max_bytes 2 max_bytes ltac:(lia)). lia. }
  split_and!; [done|done|done|done|done| |done].
  intros c t ->. by eapply Hmax1.
Qed.

(** C39. Truncating a text by bytes never panics: a text within the budget is
    unchanged, and of any other the longest beginning and end that fit half
    the budget each are kept, cut at characters, around a marker that states
    how many characters are missing. *)
Theorem truncate_middle_spec {E} s max_bytes :
  (blen s ≤ USIZE_MAX)%N →
  ∃ out, truncate_middle_chars (E := E) s max_bytes = Ok out
    ∧ ((blen s ≤ max_bytes)%N ∧ out = s
       ∨ (max_bytes < blen s)%N ∧ truncated_middle s out max_bytes false).
Proof. apply truncate_estimate_spec. Qed.

Lemma truncate_middle_spec_witness :
  (blen (lit "hello, wide world") ≤ USIZE_MAX)%N
  ∧ ∃ out, truncate_middle_chars (E := unit) (lit "hello, wide world") 6 = Ok out
    ∧ ((blen (lit "hello, wide world") ≤ 6)%N ∧ out = lit "hello, wide world"
       ∨ (6 < blen (lit "hello, wide world"))%N
         ∧ truncated_middle (lit "hello, wide world") out 6 false).
Proof.
  split; [vm_compute; discriminate|]. apply (truncate_middle_spec (lit "hello, wide world") 6).
  vm_compute. discriminate.
Defined.

Lemma truncate_tokens_spec {E} s max_tokens :
  (blen s ≤ USIZE_MAX)%N →
  ∃ out total, truncate_middle_with_token_budget (E := E) s max_tokens = Ok (out, total)
    ∧ ((blen s ≤ approx_bytes_for_tokens max_tokens)%N ∧ out = s ∧ total = None
       ∨ (approx_bytes_for_tokens max_tokens < blen s)%N
         ∧ truncated_middle s out (approx_bytes_for_tokens max_tokens) true
         ∧ total = (if bool_decide (out = s) then None else Some (approx_token_count s))).
Proof.
  intros Hlen. unfold truncate_middle_with_token_budget. case_bool_decide as Hs.
  { subst. exists [], None. split; [done|]. left. rewrite blen_nil. split_and!; [lia|done|done]. }
  destruct (_ && _) eqn:Eb.
  { bdec. rewrite N.leb_le in *. exists s, None. naive_solver. }
  destruct (truncate_estimate_spec (E := E) s (approx_bytes_for_tokens max_tokens) true Hlen)
    as (out & -> & [[Hle ->]|[Hgt Htr]]); cbn [res_bind].
  - exists s, None. rewrite bool_decide_eq_true_2 by done. split; [done|]. left. done.
  - exists out, (if bool_decide (out = s) then None else Some (approx_token_count s)).
    split; [by case_bool_decide|]. right. done.
Qed.

Lemma truncate_text_total {E} s p :
  (blen s ≤ USIZE_MAX)%N → ∃ out, truncate_text (E := E) s p = Ok out.
Proof.
  intros H. destruct p as [b|t]; simpl.
  - destruct (truncate_estimate_spec (E := E) s b false H) as (out & Ho & _). by exists out.
  - destruct (truncate_tokens_spec (E := E) s t H) as (out & total & -> & _). simpl. eauto.
Qed.

(** ** [take_bytes_at_char_boundary] *)

Lemma last_boundary_spec s maxb i :
  (i ≤ maxb)%N →
  ∃ pre rest, s = pre ++ rest ∧ last_boundary s i maxb = (i + blen pre)%N ∧ (i + blen pre ≤ maxb)%N
    ∧ ∀ c t, rest = c :: t → (maxb < i + blen pre + cwidth c)%N.
Proof.
  revert i. induction s as [|c s IH]; intros i Hi; simpl.
  { exists [], []. rewrite blen_nil, N.add_0_r. by split_and!. }
  destruct (N.ltb_spec maxb (i + cwidth c)) as [H|H].
  - exists [], (c :: s). rewrite blen_nil, N.add_0_r. split_and!; [done|done|done|]. by intros ? ? [= <- <-].
  - destruct (IH _ H) as (pre & rest & -> & E & Hle & Hm). exists (c :: pre), rest. rewrite blen_cons.
    split_and!; [done|lia|lia|]. intros d t Ht. specialize (Hm d t Ht). lia.
Qed.

Lemma take_bytes_spec {E} s maxb :
  ∃ pre rest, take_bytes_at_char_boundary (E := E) s maxb = Ok pre ∧ s = pre ++ rest
    ∧ (blen pre ≤ maxb)%N ∧ ∀ c t, rest = c :: t → (maxb < blen pre + cwidth c)%N.
Proof.
  unfold take_bytes_at_char_boundary. destruct (N.leb_spec (blen s) maxb) as [H|H].
  - exists s, []. by rewrite app_nil_r.
  - destruct (last_boundary_spec s maxb 0 ltac:(lia)) as (pre & rest & -> & -> & Hle & Hm).
    rewrite N.add_0_l, split_at_byte_app. cbn [res_bind]. exists pre, rest. done.
Qed.

(** ** Content items *)

Section Items.
Context {Img : Type} (estimate : str → N).
Abbreviation item := (FunctionCallOutputContentItem Img).
Implicit Types (items : list item) (p : TruncationPolicy).

(** Images and encrypted content, and audio. *)
Definition opaque_of (i : item) : option item :=
  match i with InputImage _ | EncryptedContent _ => Some i | _ => None end.
Definition audio_of (i : item) : option item :=
  match i with InputAudio _ => Some i | _ => None end.

Definition item_fits (i : item) : Prop :=
  match i with InputText t => (blen t ≤ USIZE_MAX)%N | _ => True end.

Definition item_cost p (i : item) : N :=
  match i with
  | InputText t => text_cost p t
  | InputAudio url => audio_cost estimate p url
  | _ => 0
  end.
Fixpoint items_cost p items : N :=
  match items with [] => 0 | i :: items => item_cost p i + items_cost p items end.

Definition policy_budget p : N := match p with TBytes _ => byte_budget p | TTokens _ => token_budget p end.

Lemma omitted_note_opaque n what : omap opaque_of (omitted_note (Img := Img) n what) = [].
Proof. unfold omitted_note. by destruct (_ <? _)%N. Qed.
Lemma omitted_note_audio n what : omap audio_of (omitted_note (Img := Img) n what) = [].
Proof. unfold omitted_note. by destruct (_ <? _)%N. Qed.

(** One item: the loop goes on, opaque items are kept, audio may be dropped. *)
Lemma item_step_total {E} p st (i : item) :
  item_fits i → ∃ st', item_step (E := E) estimate p st i = Ok st'
    ∧ omap opaque_of (it_out st') = omap opaque_of (it_out st) ++ omap opaque_of [i]
    ∧ ∃ k, omap audio_of (it_out st') = omap audio_of (it_out st) ++ k ∧ k `sublist_of` omap audio_of [i].
Proof.
  intros Hf. unfold item_step. destruct i as [text|img|url|enc]; simpl in Hf.
  - case_bool_decide; [exists st; rewrite !app_nil_r; split_and!; [done|done|exists []; by rewrite app_nil_r]|].
    destruct (_ =? 0)%N; [eexists; split; [done|]; simpl; rewrite app_nil_r; split; [done|]; exists []; by rewrite app_nil_r|].
    destruct (_ <=? _)%N; [eexists; split; [done|]; simpl; rewrite !omap_app, !app_nil_r; split; [done|]; exists []; by rewrite app_nil_r|].
    destruct (truncate_text_total (E := E) text (snippet_policy p (it_remaining st)) Hf) as (out & ->).
    cbn [res_bind]. eexists. split; [done|].
    case_bool_decide; simpl; rewrite ?omap_app, ?app_nil_r; (split; [done|]); exists []; by rewrite app_nil_r.
  - eexists. split; [done|]. simpl. rewrite !omap_app. split; [done|]. exists []. done.
  - destruct (_ <=? _)%N; eexists; (split; [done|]); simpl; rewrite ?omap_app, ?app_nil_r; (split; [done|]).
    + exists [InputAudio url]. done.
    + exists []. rewrite app_nil_r. split; [done|]. apply sublist_nil_l.
  - eexists. split; [done|]. simpl. rewrite !omap_app. split; [done|]. exists []. done.
Qed.

Lemma items_loop_total {E} p items st :
  Forall item_fits items →
  ∃ st', foldM (item_step (E := E) estimate p) st items = Ok st'
    ∧ omap opaque_of (it_out st') = omap opaque_of (it_out st) ++ omap opaque_of items
    ∧ ∃ k, omap audio_of (it_out st') = omap audio_of (it_out st) ++ k ∧ k `sublist_of` omap audio_of items.
Proof.
  intros H. revert st. induction H as [|i items Hi _ IH]; intros st.
  { exists st. rewrite app_nil_r. split_and!; [done|done|]. exists []. by rewrite app_nil_r. }
  destruct (item_step_total (E := E) p st i Hi) as (st1 & E1 & O1 & k1 & A1 & S1).
  destruct (IH st1) as (st2 & E2 & O2 & k2 & A2 & S2). exists st2. cbn [foldM]. rewrite E1. cbn [res_bind].
  split; [done|]. split; [change (i :: items) with ([i] ++ items); by rewrite O2, O1, omap_app, <- app_assoc|].
  exists (k1 ++ k2). rewrite A2, A1, <- app_assoc. split; [done|].
  change (i :: items) with ([i] ++ items). rewrite omap_app. by apply sublist_app.
Qed.

Definition has_content (i : item) : Prop := i ≠ InputText [].
#[export] Instance has_content_dec i : base.Decision (has_content i).
Proof. unfold has_content. destruct i as [[|c t]|?|?|?]; (left; discriminate) || (right; congruence). Defined.

(** Items whose costs fit the budget are all kept. *)
Lemma items_loop_fit {E} p items st :
  (items_cost p items ≤ it_remaining st)%N →
  (∀ text, InputText text ∈ items → text ≠ [] → (0 < text_cost p text)%N) →
  foldM (item_step (E := E) estimate p) st items
  = Ok {| it_out := it_out st ++ filter has_content items;
          it_remaining := it_remaining st - items_cost p (filter has_content items);
          it_omitted_text := it_omitted_text st; it_omitted_audio := it_omitted_audio st |}.
Proof.
  revert st. induction items as [|i items IH]; intros st Hc Hpos; cbn [foldM items_cost] in *.
  { rewrite filter_nil. cbn. rewrite app_nil_r, N.sub_0_r. by destruct st. }
  assert (Hpos' : ∀ text, InputText text ∈ items → text ≠ [] → (0 < text_cost p text)%N) by (intros; apply Hpos; set_solver).
  assert (Hkeep : ∀ st', it_out st' = it_out st ++ [i] → it_remaining st' = (it_remaining st - item_cost p i)%N →
      it_omitted_text st' = it_omitted_text st → it_omitted_audio st' = it_omitted_audio st → has_content i →
      foldM (item_step (E := E) estimate p) st' items
      = Ok {| it_out := it_out st ++ filter has_content (i :: items);
          it_remaining := it_remaining st - items_cost p (filter has_content (i :: items));
          it_omitted_text := it_omitted_text st; it_omitted_audio := it_omitted_audio st |}).
  { intros st' E1 E2 E3 E4 Hh. rewrite IH by (done || lia). rewrite E1, E2, E3, E4.
    rewrite filter_cons_True by done. cbn [items_cost]. rewrite <- app_assoc. do 2 f_equal. lia. }
  destruct i as [text|img|url|enc]; cbn [item_step item_cost] in *.
  - case_bool_decide as Ht.
    + subst. cbn [res_bind]. rewrite IH by (done || lia). by rewrite filter_cons_False by (intros H; by apply H).
    + specialize (Hpos text ltac:(set_solver) Ht). rewrite (proj2 (N.eqb_neq _ _)) by lia.
      rewrite (proj2 (N.leb_le _ _)) by lia. cbn [res_bind]. apply Hkeep; try done. by intros [= ->].
  - cbn [res_bind]. apply Hkeep; try done. simpl. lia.
  - rewrite (proj2 (N.leb_le _ _)) by lia. cbn [res_bind]. by apply Hkeep.
  - cbn [res_bind]. apply Hkeep; try done. simpl. lia.
Qed.

Lemma text_cost_pos p text : text ≠ [] → (0 < text_cost p text)%N.
Proof.
  intros H%blen_pos. destruct p; simpl; [done|]. unfold approx_token_count, sat_add, APPROX_BYTES_PER_TOKEN, USIZE_MAX.
  apply N.div_str_pos. lia.
Qed.

(** Truncating content items never panics, keeps all images and encrypted
    content and a part of the audio in order, and when everything fits the
    budget changes nothing but dropping empty texts. *)
Theorem truncate_items_spec {E} items p :
  Forall item_fits items →
  ∃ out, truncate_function_output_items_with_policy (E := E) estimate items p = Ok out
    ∧ omap opaque_of out = omap opaque_of items
    ∧ omap audio_of out `sublist_of` omap audio_of items
    ∧ ((items_cost p items ≤ policy_budget p)%N → out = filter has_content items).
Proof.
  intros Hf. unfold truncate_function_output_items_with_policy.
  set (st0 := {| it_out := []; it_remaining := _; it_omitted_text := 0; it_omitted_audio := 0 |}).
  destruct (items_loop_total (E := E) p items st0 Hf) as (st & Est & Ho & k & Ha & Hk). rewrite Est. cbn [res_bind].
  eexists. split; [done|]. rewrite !omap_app, !omitted_note_opaque, !omitted_note_audio, !app_nil_r, Ho, Ha.
  split_and!; [done|done|]. intros Hc. rewrite (items_loop_fit (E := E)) in Est.
  - injection Est as <-. simpl. by rewrite !app_nil_r.
  - exact Hc.
  - intros. by apply text_cost_pos.
Qed.

End Items.

Definition sample_items : list (FunctionCallOutputContentItem unit) :=
  [InputText (lit "some text"); InputImage tt; InputText []; InputAudio (lit "data:audio"); InputText (lit "more")].

Lemma truncate_items_spec_witness :
  Forall item_fits sample_items
  ∧ ∃ out, truncate_function_output_items_with_policy (E := unit) (λ _, 3%N) sample_items (TBytes 10) = Ok out
    ∧ omap opaque_of out = omap opaque_of sample_items
    ∧ omap audio_of out `sublist_of` omap audio_of sample_items
    ∧ ((items_cost (λ _, 3%N) (TBytes 10) sample_items ≤ policy_budget (TBytes 10))%N
       → out = filter has_content sample_items).
Proof.
  assert (H : Forall item_fits sample_items) by (repeat constructor; vm_compute; discriminate).
  split; [exact H|]. exact (truncate_items_spec (λ _, 3%N) sample_items (TBytes 10) H).
Defined.
