(* ===== verification/TurnDiff.v ===== *)
(** * The net diff of a turn

    Models [core/src/turn_diff_tracker.rs]: the tracker follows the committed
    changes that [apply_patch] reports in its deltas, keeps for every path the
    content before the turn and the content now, and renders the net change as
    one unified diff, reusing the parts whose contents have not changed.

    The order in which Rust's [HashMap] is traversed is not specified: every
    call that traverses one takes a [HashOrder], which may be another one each
    time. The line diff (crate [similar]), SHA-1 (crate [sha1]) and the paths
    are parameters; the line diff is a function of the texts, as when it ends
    within the 100 ms that the code gives it. *)

From stdpp Require Import gmap pretty.
From stdpp Require Import gmap pretty sorting.
From S2P Require Import Prelude RustStr RustOrd Utf8 PatchParser FileUpdate ApplyPatch.
From S2P Require Import ApplyPatchFacts.
From S2P Require Import MemFs.
Open Scope list_scope.

Definition ZERO_OID : str := lit "0000000000000000000000000000000000000000".
Definition DEV_NULL : str := lit "/dev/null".
Definition REGULAR_FILE_MODE : str := lit "100644".

Record TrackedContent := { content : str; revision : N }.

Record TrackedPath (P : Type) := { environment_id : str; tracked_path : P }.
Arguments environment_id {P} _.
Arguments tracked_path {P} _.
Arguments Build_TrackedPath {P} _ _.

#[global] Instance TrackedPath_eq_dec {P} `{!EqDecision P} : EqDecision (TrackedPath P).
Proof. solve_decision. Defined.
#[global] Instance TrackedPath_countable {P} `{Countable P} : Countable (TrackedPath P).
Proof.
  apply (inj_countable' (λ k, (environment_id k, tracked_path k)) (λ x, Build_TrackedPath x.1 x.2)).
  by intros [].
Defined.

Record DiffCacheKey (P : Type) := {
  left_path : TrackedPath P;
  left_revision : option N;
  right_path : TrackedPath P;
  right_revision : option N;
}.
Arguments left_path {P} _.
Arguments left_revision {P} _.
Arguments right_path {P} _.
Arguments right_revision {P} _.
Arguments Build_DiffCacheKey {P} _ _ _ _.

#[global] Instance DiffCacheKey_eq_dec {P} `{!EqDecision P} : EqDecision (DiffCacheKey P).
Proof. solve_decision. Defined.
#[global] Instance DiffCacheKey_countable {P} `{Countable P} : Countable (DiffCacheKey P).
Proof.
  apply (inj_countable' (λ k, (left_path k, left_revision k, right_path k, right_revision k))
    (λ x, Build_DiffCacheKey x.1.1.1 x.1.1.2 x.1.2 x.2)). by intros [].
Defined.

(** [PathUri::relative_path_from]. *)
Class RelativePaths (P : Type) := relative_path_from : P → P → option str.

(** The order in which hash maps are traversed. *)
Record HashOrder (P : Type) `{Countable P} := {
  iter : gmap (TrackedPath P) (TrackedPath P) → list (TrackedPath P * TrackedPath P);
  keys : gmap (TrackedPath P) TrackedContent → list (TrackedPath P);
  iter_perm m : iter m ≡ₚ map_to_list m;
  keys_perm m : keys m ≡ₚ (map_to_list m).*1;
}.
Arguments iter {P _ _} _ _.
Arguments keys {P _ _} _ _.
Arguments iter_perm {P _ _} _ _.
Arguments keys_perm {P _ _} _ _.

Section Tracker.
Context {P PE : Type} `{Countable P} `{PO : !PathUriOps P PE} `{RP : !RelativePaths P}.
(** [similar]: the unified diff of two texts line by line, with the number of
    context lines and the two headers. *)
Context (unified_text_diff : nat → str → str → str → str → str).
(** [Sha1]'s digest in hexadecimal. *)
Context (sha1_hex : bytes → str).
Abbreviation path := (TrackedPath P).

Record TurnDiffTracker := {
  valid : bool;
  display_roots_by_environment : gmap str P;
  baseline_by_path : gmap path TrackedContent;
  current_by_path : gmap path TrackedContent;
  origin_by_current_path : gmap path path;
  next_revision : N;
  rendered_diffs : gmap (DiffCacheKey P) (option str);
  unified_diff : option str;
}.

(** [Default::default], also [new]. *)
Definition tracker_new : TurnDiffTracker :=
  {| valid := true; display_roots_by_environment := ∅; baseline_by_path := ∅; current_by_path := ∅;
     origin_by_current_path := ∅; next_revision := 0; rendered_diffs := ∅; unified_diff := None |}.

(** Collecting pairs into a [HashMap]: a later pair replaces an earlier one. *)
Definition collect_map {K V} `{Countable K} (l : list (K * V)) : gmap K V :=
  foldl (λ m kv, <[kv.1 := kv.2]> m) ∅ l.

Definition with_environment_display_roots (display_roots : list (str * P)) : TurnDiffTracker :=
  {| valid := true; display_roots_by_environment := collect_map display_roots; baseline_by_path := ∅;
     current_by_path := ∅; origin_by_current_path := ∅; next_revision := 0; rendered_diffs := ∅;
     unified_diff := None |}.

Implicit Types (t : TurnDiffTracker) (k : path).

(** Assignments to the fields of [self]. *)
Definition set_baseline t m : TurnDiffTracker :=
  {| valid := valid t; display_roots_by_environment := display_roots_by_environment t;
     baseline_by_path := m; current_by_path := current_by_path t;
     origin_by_current_path := origin_by_current_path t; next_revision := next_revision t;
     rendered_diffs := rendered_diffs t; unified_diff := unified_diff t |}.
Definition set_current t m : TurnDiffTracker :=
  {| valid := valid t; display_roots_by_environment := display_roots_by_environment t;
     baseline_by_path := baseline_by_path t; current_by_path := m;
     origin_by_current_path := origin_by_current_path t; next_revision := next_revision t;
     rendered_diffs := rendered_diffs t; unified_diff := unified_diff t |}.
Definition set_origin t m : TurnDiffTracker :=
  {| valid := valid t; display_roots_by_environment := display_roots_by_environment t;
     baseline_by_path := baseline_by_path t; current_by_path := current_by_path t;
     origin_by_current_path := m; next_revision := next_revision t;
     rendered_diffs := rendered_diffs t; unified_diff := unified_diff t |}.
Definition set_revision t n : TurnDiffTracker :=
  {| valid := valid t; display_roots_by_environment := display_roots_by_environment t;
     baseline_by_path := baseline_by_path t; current_by_path := current_by_path t;
     origin_by_current_path := origin_by_current_path t; next_revision := n;
     rendered_diffs := rendered_diffs t; unified_diff := unified_diff t |}.
Definition set_diffs t cache out : TurnDiffTracker :=
  {| valid := valid t; display_roots_by_environment := display_roots_by_environment t;
     baseline_by_path := baseline_by_path t; current_by_path := current_by_path t;
     origin_by_current_path := origin_by_current_path t; next_revision := next_revision t;
     rendered_diffs := cache; unified_diff := out |}.

Definition invalidate t : TurnDiffTracker :=
  {| valid := false; display_roots_by_environment := display_roots_by_environment t;
     baseline_by_path := baseline_by_path t; current_by_path := current_by_path t;
     origin_by_current_path := origin_by_current_path t; next_revision := next_revision t;
     rendered_diffs := ∅; unified_diff := None |}.

Definition get_unified_diff t : option str := unified_diff t.
Definition has_unified_diff t : bool := bool_decide (is_Some (unified_diff t)).

(** ** Following the changes *)

(** The counter is a [u64]. *)
Definition REVISIONS : N := (2 ^ 64)%N.

Definition tracked_content t (s : str) : TrackedContent * TurnDiffTracker :=
  ({| content := s; revision := next_revision t |},
   set_revision t ((next_revision t + 1) `mod` REVISIONS)%N).

(** [contains_key] of both maps. *)
Definition untracked t k : bool :=
  negb (bool_decide (is_Some (current_by_path t !! k)))
  && negb (bool_decide (is_Some (baseline_by_path t !! k))).

Definition insert_baseline t k (s : str) : TurnDiffTracker :=
  let '(c, t) := tracked_content t s in set_baseline t (<[k := c]> (baseline_by_path t)).
Definition insert_current t k (s : str) : TurnDiffTracker :=
  let '(c, t) := tracked_content t s in set_current t (<[k := c]> (current_by_path t)).

Definition apply_add t k (s : str) (overwritten_content : option str) : TurnDiffTracker :=
  let t := set_origin t (delete k (origin_by_current_path t)) in
  let t := match overwritten_content with
           | Some old => if untracked t k then insert_baseline t k old else t
           | None => t
           end in
  insert_current t k s.

Definition apply_delete t k (s : str) : TurnDiffTracker :=
  let removed := current_by_path t !! k in
  let t := set_current t (delete k (current_by_path t)) in
  let t := if bool_decide (removed = None) && bool_decide (baseline_by_path t !! k = None)
           then insert_baseline t k s else t in
  set_origin t (delete k (origin_by_current_path t)).

Definition apply_update t (source : path) (move_path : option path) (old_content : str)
    (overwritten_move_content : option str) (new_content : str) : TurnDiffTracker :=
  let t := if untracked t source then insert_baseline t source old_content else t in
  match move_path with
  | Some dest =>
      let t := match overwritten_move_content with
               | Some old => if untracked t dest then insert_baseline t dest old else t
               | None => t
               end in
      let origin := default source (origin_by_current_path t !! source) in
      let t := set_origin t (delete source (origin_by_current_path t)) in
      let t := set_current t (delete source (current_by_path t)) in
      let t := insert_current t dest new_content in
      let t := set_origin t (delete dest (origin_by_current_path t)) in
      if decide (dest = origin) then t else set_origin t (<[dest := origin]> (origin_by_current_path t))
  | None => insert_current t source new_content
  end.

Definition apply_change (env : str) t (c : AppliedPatchChange P) : TurnDiffTracker :=
  let source_path := Build_TrackedPath env (change_path c) in
  match change_of c with
  | ChAdd s overwritten => apply_add t source_path s overwritten
  | ChDelete s => apply_delete t source_path s
  | ChUpdate move_path old overwritten new =>
      apply_update t source_path (Build_TrackedPath env <$> move_path) old overwritten new
  end.

(** ** Rendering *)

Definition git_blob_oid (data : bytes) : str :=
  sha1_hex (encode (lit "blob " ++ lit (pretty (length data)) ++ [0%N]) ++ data).

Definition display_path (roots : gmap str P) k : str :=
  let display := default (inferred_native_path_string (tracked_path k))
                   (root ← roots !! environment_id k; relative_path_from (tracked_path k) root) in
  if bool_decide (1 < size roots) && negb (bool_decide (environment_id k = []))
  then environment_id k ++ lit "/" ++ display else display.


Definition oid_of (s : option str) : str := from_option (λ s, git_blob_oid (encode s)) ZERO_OID s.

Definition render_diff (roots : gmap str P) (l : path) (left_content : option str) (r : path)
    (right_content : option str) : option str :=
  if bool_decide (left_content = right_content) then None
  else
    let left_display := forward_slashes (display_path roots l) in
    let right_display := forward_slashes (display_path roots r) in
    let diff := lit "diff --git a/" ++ left_display ++ lit " b/" ++ right_display ++ [c_lf] in
    let mode := match left_content, right_content with
                | None, Some _ => Some (lit "new file mode " ++ REGULAR_FILE_MODE ++ [c_lf])
                | Some _, None => Some (lit "deleted file mode " ++ REGULAR_FILE_MODE ++ [c_lf])
                | Some _, Some _ => Some []
                | None, None => None
                end in
    mode ← mode;
    let index := lit "index " ++ oid_of left_content ++ lit ".." ++ oid_of right_content ++ [c_lf] in
    let old_header := match left_content with Some _ => lit "a/" ++ left_display | None => DEV_NULL end in
    let new_header := match right_content with Some _ => lit "b/" ++ right_display | None => DEV_NULL end in
    Some (diff ++ mode ++ index
          ++ unified_text_diff 3 (default [] left_content) (default [] right_content) old_header new_header).

(** The pairs of [origin_by_current_path] that are renames: the origin is gone
    and was there, the destination is there and was not. *)
Definition is_rename t (dest origin : path) : bool :=
  negb (bool_decide (dest = origin))
  && bool_decide (current_by_path t !! origin = None)
  && bool_decide (is_Some (current_by_path t !! dest))
  && bool_decide (is_Some (baseline_by_path t !! origin))
  && bool_decide (baseline_by_path t !! dest = None).

Definition rename_pairs (ord : HashOrder P) t : gmap path path :=
  collect_map (omap (λ '(dest, origin), if is_rename t dest origin then Some (origin, dest) else None)
                 (iter ord (origin_by_current_path t))).

(** The state of the loop of [refresh_unified_diff]. *)
Record RefreshState := {
  handled : gset path;
  previous_diffs : gmap (DiffCacheKey P) (option str);
  new_diffs : gmap (DiffCacheKey P) (option str);
  aggregated : str;
}.

Definition push_diff (aggregated diff : str) : str :=
  let aggregated := aggregated ++ diff in
  if ends_with [c_lf] aggregated then aggregated else aggregated ++ [c_lf].

Definition refresh_pair t (l r : path) (handled : gset path) (st : RefreshState) : RefreshState :=
  let left_content := baseline_by_path t !! l in
  let right_content := current_by_path t !! r in
  let key := Build_DiffCacheKey l (revision <$> left_content) r (revision <$> right_content) in
  let rendered := match previous_diffs st !! key with
                  | Some d => d
                  | None => render_diff (display_roots_by_environment t) l (content <$> left_content)
                              r (content <$> right_content)
                  end in
  {| handled := handled;
     previous_diffs := delete key (previous_diffs st);
     new_diffs := <[key := rendered]> (new_diffs st);
     aggregated := match rendered with Some d => push_diff (aggregated st) d | None => aggregated st end |}.

Definition refresh_step t (pairs : gmap path path) (paired_destinations : gset path)
    (st : RefreshState) (k : path) : RefreshState :=
  if bool_decide (k ∈ handled st) then st
  else
    let handled := {[k]} ∪ handled st in
    if bool_decide (k ∈ paired_destinations)
    then {| handled := handled; previous_diffs := previous_diffs st; new_diffs := new_diffs st;
            aggregated := aggregated st |}
    else match pairs !! k with
         | Some dest => refresh_pair t k dest ({[dest]} ∪ handled) st
         | None => refresh_pair t k k handled st
         end.

(** The paths of both maps, sorted by what is displayed. *)
Definition diff_paths (ord : HashOrder P) t : list path :=
  dedup (sort_by_key (display_path (display_roots_by_environment t))
           (keys ord (baseline_by_path t) ++ keys ord (current_by_path t))).

Definition refresh_unified_diff (ord : HashOrder P) t : TurnDiffTracker :=
  let pairs := rename_pairs ord t in
  let paired_destinations := list_to_set (map_to_list pairs).*2 in
  let st := foldl (refresh_step t pairs paired_destinations)
              {| handled := ∅; previous_diffs := rendered_diffs t; new_diffs := ∅; aggregated := [] |}
              (diff_paths ord t) in
  set_diffs t (new_diffs st)
    (if bool_decide (aggregated st = []) then None else Some (aggregated st)).

Definition track_delta (ord : HashOrder P) (env : str) t (d : AppliedPatchDelta P) : TurnDiffTracker :=
  if negb (valid t) then t
  else if negb (exact d) then invalidate t
  else refresh_unified_diff ord (foldl (apply_change env) t (changes d)).

End Tracker.

(** * Facts about the net diff of a turn

    What the tracker knows after any sequence of deltas; that the cache of
    rendered parts never shows; which pairs of paths the diff is made of; and
    the link with [apply_patch], whose deltas the tracker follows. *)

Section Tracker.
Context {P PE : Type} `{Countable P} `{PO : !PathUriOps P PE} `{RP : !RelativePaths P}.
Context (unified_text_diff : nat → str → str → str → str → str) (sha1_hex : bytes → str).
Abbreviation path := (TrackedPath P).
Abbreviation tracker := (TurnDiffTracker (P := P)).
Abbreviation track := (track_delta unified_text_diff sha1_hex).
Abbreviation render := (render_diff unified_text_diff sha1_hex).
Implicit Types (t : tracker) (k l r : path) (ord : HashOrder P).

(** ** The tracker's view of the files *)

(** The text files of every environment. *)
Definition world := str → gmap P str.
Definition at_path (w : world) k : option str := w (environment_id k) !! tracked_path k.
Implicit Types (w : world).

Definition before t k : option str := content <$> baseline_by_path t !! k.
Definition now t k : option str := content <$> current_by_path t !! k.

(** A path with nothing recorded has not changed; what is recorded of any other
    is its content at the start of the turn and now. *)
Definition describes_at (b c x0 x : option str) : Prop :=
  match b, c with
  | None, None => x = x0
  | _, _ => x0 = b ∧ x = c
  end.
Definition describes t w0 w : Prop :=
  ∀ k, describes_at (before t k) (now t k) (at_path w0 k) (at_path w k).

(** The baseline after a change that finds the content [old]. *)
Definition noted (b c old : option str) : option str :=
  match b, c with None, None => old | _, _ => b end.

Lemma describes_at_change b c x0 old x : describes_at b c x0 old → describes_at (noted b c old) x x0 x.
Proof. destruct b, c, old, x; naive_solver. Qed.

Definition upd (f : path → option str) k (x : option str) : path → option str :=
  λ k', if decide (k = k') then x else f k'.

Lemma describes_upd (b c x0 x : path → option str) k y :
  (∀ k', describes_at (b k') (c k') (x0 k') (x k')) →
  ∀ k', describes_at (upd b k (noted (b k) (c k) (x k)) k') (upd c k y k') (x0 k') (upd x k y k').
Proof. intros Hd k'. unfold upd. case_decide; [subst|done]. eapply describes_at_change, Hd. Qed.

Lemma untracked_spec t k : untracked t k = true ↔ before t k = None ∧ now t k = None.
Proof.
  unfold untracked, before, now. rewrite andb_true_iff, !negb_true_iff, !bool_decide_eq_false, !fmap_None.
  rewrite <- !eq_None_not_Some. tauto.
Qed.

Lemma before_insert_baseline t k s k' :
  before (insert_baseline t k s) k' = if decide (k = k') then Some s else before t k'.
Proof. unfold before. simpl. case_decide; subst; [by rewrite lookup_insert_eq|by rewrite lookup_insert_ne]. Qed.
Lemma now_insert_baseline t k s k' : now (insert_baseline t k s) k' = now t k'.
Proof. done. Qed.
Lemma before_insert_current t k s k' : before (insert_current t k s) k' = before t k'.
Proof. done. Qed.
Lemma now_insert_current t k s k' :
  now (insert_current t k s) k' = if decide (k = k') then Some s else now t k'.
Proof. unfold now. simpl. case_decide; subst; [by rewrite lookup_insert_eq|by rewrite lookup_insert_ne]. Qed.
Lemma before_remove_current t k k' : before (set_current t (delete k (current_by_path t))) k' = before t k'.
Proof. done. Qed.
Lemma now_remove_current t k k' :
  now (set_current t (delete k (current_by_path t))) k' = if decide (k = k') then None else now t k'.
Proof. unfold now. simpl. case_decide; subst; [by rewrite lookup_delete_eq|by rewrite lookup_delete_ne]. Qed.
Lemma before_set_origin t m k : before (set_origin t m) k = before t k.
Proof. done. Qed.
Lemma now_set_origin t m k : now (set_origin t m) k = now t k.
Proof. done. Qed.

(** Recording what was there, unless the path is tracked. *)
Definition note t k (old : option str) : tracker :=
  match old with Some s => if untracked t k then insert_baseline t k s else t | None => t end.

Lemma before_note t k old k' :
  before (note t k old) k' = if decide (k = k') then noted (before t k) (now t k) old else before t k'.
Proof.
  unfold note. destruct old as [s|].
  - destruct (untracked t k) eqn:E.
    + rewrite before_insert_baseline. apply untracked_spec in E as [-> ->]. done.
    + case_decide; [subst|done]. destruct (before t k') eqn:Eb, (now t k') eqn:Ec; try done.
      rewrite (proj2 (untracked_spec t k')) in E; done.
  - case_decide; [subst|done]. by destruct (before t k'), (now t k').
Qed.
Lemma now_note t k old k' : now (note t k old) k' = now t k'.
Proof. unfold note. destruct old; [|done]. by destruct (untracked t k). Qed.

Create Rewrite HintDb views.
#[local] Hint Rewrite before_insert_baseline now_insert_baseline before_insert_current now_insert_current
  before_remove_current now_remove_current before_set_origin now_set_origin before_note now_note : views.

Lemma apply_add_views t k s old k' :
  before (apply_add t k s old) k' = upd (before t) k (noted (before t k) (now t k) old) k'
  ∧ now (apply_add t k s old) k' = upd (now t) k (Some s) k'.
Proof.
  unfold apply_add. fold (note (set_origin t (delete k (origin_by_current_path t))) k old).
  by autorewrite with views.
Qed.

Lemma apply_delete_views t k s k' :
  before (apply_delete t k s) k' = upd (before t) k (noted (before t k) (now t k) (Some s)) k'
  ∧ now (apply_delete t k s) k' = upd (now t) k None k'.
Proof.
  unfold apply_delete, upd. autorewrite with views. rewrite <- before_note.
  assert (Hd : bool_decide (current_by_path t !! k = None)
    && bool_decide (baseline_by_path (set_current t (delete k (current_by_path t))) !! k = None)
    = untracked t k).
  { simpl. unfold untracked. by destruct (current_by_path t !! k), (baseline_by_path t !! k). }
  rewrite Hd. unfold note. destruct (untracked t k); by autorewrite with views.
Qed.

Lemma apply_update_views t k old ov new k' :
  before (apply_update t k None old ov new) k' = upd (before t) k (noted (before t k) (now t k) (Some old)) k'
  ∧ now (apply_update t k None old ov new) k' = upd (now t) k (Some new) k'.
Proof. unfold apply_update. fold (note t k (Some old)). by autorewrite with views. Qed.

(** A move is a removal at the source and a write at the destination. *)
Lemma apply_move_views t k dest old ov new k' :
  k ≠ dest →
  let b := upd (before t) k (noted (before t k) (now t k) (Some old)) in
  let c := upd (now t) k None in
  before (apply_update t k (Some dest) old ov new) k' = upd b dest (noted (b dest) (c dest) ov) k'
  ∧ now (apply_update t k (Some dest) old ov new) k' = upd c dest (Some new) k'.
Proof.
  intros Hne b c. unfold apply_update. fold (note t k (Some old)).
  fold (note (note t k (Some old)) dest ov). unfold b, c, upd.
  case_decide; autorewrite with views; rewrite !(decide_False (P := k = dest)) by done; done.
Qed.

(** ** Changes made to the files *)

Definition set_files (env : str) (fm : gmap P str) w : world := λ e, if decide (e = env) then fm else w e.

(** A move onto its own source is left out: [apply_patch] then removes the
    file. *)
Definition not_self_move (c : AppliedPatchChange P) : Prop :=
  match change_of c with ChUpdate (Some dest) _ _ _ => change_path c ≠ dest | _ => True end.

Lemma at_insert env p s w k :
  at_path (set_files env (<[p := s]> (w env)) w) k = upd (at_path w) (Build_TrackedPath env p) (Some s) k.
Proof.
  destruct k as [e q]. unfold at_path, set_files, upd. simpl. case_decide; [subst|by rewrite decide_False by congruence].
  case_decide; simplify_eq; [by rewrite lookup_insert_eq|]. rewrite lookup_insert_ne; [done|congruence].
Qed.
Lemma at_delete env p w k :
  at_path (set_files env (delete p (w env)) w) k = upd (at_path w) (Build_TrackedPath env p) None k.
Proof.
  destruct k as [e q]. unfold at_path, set_files, upd. simpl. case_decide; [subst|by rewrite decide_False by congruence].
  case_decide; simplify_eq; [by rewrite lookup_delete_eq|]. rewrite lookup_delete_ne; [done|congruence].
Qed.
Lemma at_move env p q s w k :
  p ≠ q →
  at_path (set_files env (delete p (<[q := s]> (w env))) w) k
  = upd (upd (at_path w) (Build_TrackedPath env p) None) (Build_TrackedPath env q) (Some s) k.
Proof.
  intros Hne. rewrite delete_insert_ne by done.
  destruct k as [e p']. unfold at_path, set_files, upd. simpl.
  case_decide; [subst|by rewrite !decide_False by congruence].
  case_decide; simplify_eq; [by rewrite lookup_insert_eq|]. rewrite lookup_insert_ne by congruence.
  case_decide; simplify_eq; [by rewrite lookup_delete_eq|]. rewrite lookup_delete_ne; [done|congruence].
Qed.

Lemma apply_change_describes env t w0 w c :
  describes t w0 w → faithful (w env) c → not_self_move c →
  describes (apply_change env t c) w0 (set_files env (replay_change (w env) c) w).
Proof.
  intros Hd Hf Hm k'. destruct c as [q ch]. set (k := Build_TrackedPath env q).
  assert (Hq : ∀ q', at_path w (Build_TrackedPath env q') = w env !! q') by done.
  unfold faithful, not_self_move, replay_change, apply_change in *.
  destruct ch as [s old|s|[dest|] old ov new]; cbn [change_of change_path fmap option_fmap option_map] in *; fold k.
  - destruct (apply_add_views t k s old k') as [-> ->]. rewrite at_insert, <- Hf, <- Hq. by apply describes_upd.
  - destruct (apply_delete_views t k s k') as [-> ->]. rewrite at_delete, <- Hf, <- Hq. by apply describes_upd.
  - destruct Hf as [Hf Hov]. assert (Hk : k ≠ Build_TrackedPath env dest) by (unfold k; congruence).
    destruct (apply_move_views t k _ old ov new k' Hk) as [-> ->]. rewrite at_move, <- Hf, <- Hq by done.
    replace ov with (upd (at_path w) k None (Build_TrackedPath env dest))
      by (unfold upd; by rewrite decide_False, Hq).
    apply describes_upd. intros. by apply describes_upd.
  - destruct (apply_update_views t k old ov new k') as [-> ->]. rewrite at_insert, <- Hf, <- Hq. by apply describes_upd.
Qed.

Lemma describes_ext t w0 w w' : (∀ k, at_path w' k = at_path w k) → describes t w0 w → describes t w0 w'.
Proof. intros He Hd k. rewrite He. apply Hd. Qed.

Lemma set_files_same env fm w : set_files env fm w env = fm.
Proof. unfold set_files. by rewrite decide_True. Qed.

Lemma apply_changes_describes env t w0 w cs :
  describes t w0 w → all_faithful (w env) cs → Forall not_self_move cs →
  describes (foldl (apply_change env) t cs) w0 (set_files env (replay (w env) cs) w).
Proof.
  revert t w. induction cs as [|c cs IH]; intros t w Hd Hf Hm; cbn [foldl].
  { eapply describes_ext; [|exact Hd]. intros k. unfold at_path, set_files. case_decide as E; [by rewrite E|done]. }
  destruct Hf as [Hc Hf]. apply Forall_cons in Hm as [Hmc Hm].
  pose proof (apply_change_describes env t w0 w c Hd Hc Hmc) as Hd1.
  eapply describes_ext; [|apply (IH _ _ Hd1); rewrite ?set_files_same; done].
  intros k. rewrite set_files_same. unfold at_path, set_files. by case_decide.
Qed.

(** ** Reachable trackers *)

(** What can happen in a turn that starts with the files [w0]: deltas are
    tracked, and the tracker is invalidated when something else may have
    changed files. The revision counter does not overflow. *)
Inductive tracked w0 : tracker → world → Prop :=
  | tracked_start roots : tracked w0 (with_environment_display_roots roots) w0
  | tracked_exact ord env t w d :
      tracked w0 t w → exact d = true → all_faithful (w env) (changes d) → Forall not_self_move (changes d) →
      (next_revision t + 3 * N.of_nat (length (changes d)) < REVISIONS)%N →
      tracked w0 (track ord env t d) (set_files env (replay (w env) (changes d)) w)
  | tracked_inexact ord env t w w' d :
      tracked w0 t w → exact d = false → tracked w0 (track ord env t d) w'
  | tracked_invalidate t w w' : tracked w0 t w → tracked w0 (invalidate t) w'
  | tracked_unseen t w w' : tracked w0 t w → valid t = false → tracked w0 t w'.

(** The operations that do not touch the two maps. *)
Lemma note_fields t k old :
  valid (note t k old) = valid t
  ∧ display_roots_by_environment (note t k old) = display_roots_by_environment t.
Proof. unfold note. destruct old; [|done]. by destruct (untracked t k). Qed.

Lemma apply_change_fields env t c :
  valid (apply_change env t c) = valid t
  ∧ display_roots_by_environment (apply_change env t c) = display_roots_by_environment t.
Proof.
  destruct c as [p [s old|s|[dest|] old ov new]]; unfold apply_change; cbn [change_of change_path].
  - unfold apply_add. fold (note (set_origin t (delete (Build_TrackedPath env p) (origin_by_current_path t)))
      (Build_TrackedPath env p) old).
    apply (note_fields (set_origin t _)).
  - unfold apply_delete. by destruct (_ && _).
  - unfold apply_update. cbn [fmap option_fmap option_map].
    fold (note t (Build_TrackedPath env p) (Some old)).
    fold (note (note t (Build_TrackedPath env p) (Some old)) (Build_TrackedPath env dest) ov).
    destruct (decide _).
    all: destruct (note_fields t (Build_TrackedPath env p) (Some old)) as [E1 E2].
    all: destruct (note_fields (note t (Build_TrackedPath env p) (Some old)) (Build_TrackedPath env dest) ov)
      as [E3 E4]; rewrite <- E1, <- E2, <- E3, <- E4; done.
  - unfold apply_update. fold (note t (Build_TrackedPath env p) (Some old)). apply note_fields.
Qed.

Lemma apply_changes_fields env t cs :
  valid (foldl (apply_change env) t cs) = valid t
  ∧ display_roots_by_environment (foldl (apply_change env) t cs) = display_roots_by_environment t.
Proof.
  revert t. induction cs as [|c cs IH]; intros t; cbn [foldl]; [done|].
  destruct (IH (apply_change env t c)) as [-> ->]. apply apply_change_fields.
Qed.

Lemma track_valid ord env t d : valid (track ord env t d) = true → valid t = true ∧ exact d = true.
Proof.
  unfold track_delta. destruct (valid t) eqn:Ev; simpl; [|congruence]. by destruct (exact d).
Qed.

Lemma tracked_describes w0 t w : tracked w0 t w → valid t = true → describes t w0 w.
Proof.
  induction 1 as [roots|ord env t w d _ IH He Hf Hm Hr|ord env t w w' d _ IH He|t w w' _ IH|t w w' _ IH Hv];
    intros Hval.
  - done.
  - apply track_valid in Hval as [Hv _]. unfold track_delta. rewrite Hv, He. specialize (IH Hv).
    exact (apply_changes_describes env t w0 w (changes d) IH Hf Hm).
  - apply track_valid in Hval. naive_solver congruence.
  - done.
  - congruence.
Qed.

(** ** The cache

    A revision is given to one content only: [hist] says which. So a part
    rendered for two revisions is what rendering their contents gives. *)

Definition known (hist : N → str) (next : N) (c : TrackedContent) : Prop :=
  (revision c < next)%N ∧ hist (revision c) = content c.
Definition cached (hist : N → str) (next : N) (roots : gmap str P) (key : DiffCacheKey P) (d : option str) : Prop :=
  (∀ v, left_revision key = Some v ∨ right_revision key = Some v → (v < next)%N)
  ∧ d = render roots (left_path key) (hist <$> left_revision key) (right_path key) (hist <$> right_revision key).

Definition coherent_with (hist : N → str) t : Prop :=
  (∀ k c, baseline_by_path t !! k = Some c → known hist (next_revision t) c)
  ∧ (∀ k c, current_by_path t !! k = Some c → known hist (next_revision t) c)
  ∧ (∀ key d, rendered_diffs t !! key = Some d →
       cached hist (next_revision t) (display_roots_by_environment t) key d).

(** [n] more revisions can be given. *)
Definition coherent t (n : N) : Prop :=
  (∃ hist, coherent_with hist t) ∧ (next_revision t + n < REVISIONS)%N.

Definition extend (hist : N → str) (next : N) (s : str) : N → str :=
  λ v, if (v =? next)%N then s else hist v.

Lemma known_extend hist next s c : known hist next c → known (extend hist next s) (next + 1) c.
Proof.
  intros [Hlt He]. unfold known, extend. rewrite (proj2 (N.eqb_neq _ _)) by lia. split; [lia|done].
Qed.
Lemma known_new hist next s : known (extend hist next s) (next + 1) {| content := s; revision := next |}.
Proof. unfold known, extend. simpl. rewrite N.eqb_refl. split; [lia|done]. Qed.
Lemma cached_extend hist next s roots key d :
  cached hist next roots key d → cached (extend hist next s) (next + 1) roots key d.
Proof.
  intros [Hlt ->]. split; [intros v Hv; specialize (Hlt v Hv); lia|].
  assert (E : ∀ o, (∀ v, o = Some v → (v < next)%N) → extend hist next s <$> o = hist <$> o).
  { intros [v|] Ho; [|done]. simpl. unfold extend. specialize (Ho v eq_refl).
    by rewrite (proj2 (N.eqb_neq _ _)) by lia. }
  rewrite !E by auto. done.
Qed.

Lemma coherent_weaken t m n : coherent t m → (n ≤ m)%N → coherent t n.
Proof. intros [Hc Hm] Hn. split; [done|lia]. Qed.

Lemma next_revision_step t n : coherent t (n + 1) → ((next_revision t + 1) `mod` REVISIONS = next_revision t + 1)%N.
Proof. intros [_ H1]. apply N.mod_small. lia. Qed.

Lemma coherent_insert_baseline t k s n : coherent t (n + 1) → coherent (insert_baseline t k s) n.
Proof.
  intros Hc. pose proof (next_revision_step _ _ Hc) as En. destruct Hc as [(hist & Hb & Hcur & Hd) Hn].
  unfold coherent, coherent_with. simpl. rewrite En. split; [|lia].
  exists (extend hist (next_revision t) s). split_and!.
  - intros k' c [[-> <-]|[_ H']]%lookup_insert_Some; [apply known_new|by eapply known_extend, Hb].
  - intros k' c H'. by eapply known_extend, Hcur.
  - intros key d H'. by apply cached_extend, Hd.
Qed.
Lemma coherent_insert_current t k s n : coherent t (n + 1) → coherent (insert_current t k s) n.
Proof.
  intros Hc. pose proof (next_revision_step _ _ Hc) as En. destruct Hc as [(hist & Hb & Hcur & Hd) Hn].
  unfold coherent, coherent_with. simpl. rewrite En. split; [|lia].
  exists (extend hist (next_revision t) s). split_and!.
  - intros k' c H'. by eapply known_extend, Hb.
  - intros k' c [[-> <-]|[_ H']]%lookup_insert_Some; [apply known_new|by eapply known_extend, Hcur].
  - intros key d H'. by apply cached_extend, Hd.
Qed.
Lemma coherent_set_origin t m n : coherent t n → coherent (set_origin t m) n.
Proof. done. Qed.
Lemma coherent_remove_current t k n : coherent t n → coherent (set_current t (delete k (current_by_path t))) n.
Proof.
  intros [(hist & Hb & Hcur & Hd) Hn]. split; [|done]. exists hist. split_and!; [done| |done].
  intros k' c H'. simpl in H'. apply lookup_delete_Some in H' as [_ H']. by eapply Hcur.
Qed.
Lemma coherent_note t k old n : coherent t (n + 1) → coherent (note t k old) n.
Proof.
  intros Hc. unfold note. destruct old; [|by eapply coherent_weaken; [exact Hc|lia]].
  destruct (untracked t k); [by apply coherent_insert_baseline|eapply coherent_weaken; [exact Hc|lia]].
Qed.

Lemma coherent_change env t c n : coherent t (n + 3) → coherent (apply_change env t c) n.
Proof.
  intros Hc. destruct c as [p [s old|s|[dest|] old ov new]]; unfold apply_change;
    cbn [change_of change_path fmap option_fmap option_map]; set (k := Build_TrackedPath env p).
  - unfold apply_add. fold (note (set_origin t (delete k (origin_by_current_path t))) k old).
    apply coherent_insert_current, coherent_note, coherent_set_origin. eapply coherent_weaken; [exact Hc|lia].
  - unfold apply_delete. apply coherent_set_origin.
    apply (coherent_weaken _ _ (n + 1)) in Hc; [|lia]. apply (coherent_remove_current _ k) in Hc.
    destruct (_ && _); [by apply coherent_insert_baseline|eapply coherent_weaken; [exact Hc|lia]].
  - unfold apply_update. fold (note t k (Some old)). fold (note (note t k (Some old)) (Build_TrackedPath env dest) ov).
    assert (H1 : coherent (note (note t k (Some old)) (Build_TrackedPath env dest) ov) (n + 1)).
    { do 2 apply coherent_note. by replace (n + 1 + 1 + 1)%N with (n + 3)%N by lia. }
    case_decide; repeat apply coherent_set_origin; apply coherent_insert_current, (coherent_remove_current (set_origin _ _));
      by apply coherent_set_origin.
  - unfold apply_update. fold (note t k (Some old)). apply coherent_insert_current, coherent_note.
    eapply coherent_weaken; [exact Hc|lia].
Qed.

Lemma coherent_changes env t cs n :
  coherent t (n + 3 * N.of_nat (length cs)) → coherent (foldl (apply_change env) t cs) n.
Proof.
  revert t. induction cs as [|c cs IH]; intros t Hc; cbn [foldl].
  { eapply coherent_weaken; [exact Hc|lia]. }
  apply IH, coherent_change. eapply coherent_weaken; [exact Hc|]. simpl. lia.
Qed.

(** ** The loop *)

(** The part of a pair, as rendered without the cache. *)
Definition part t (lr : path * path) : option str :=
  render (display_roots_by_environment t) lr.1 (before t lr.1) lr.2 (now t lr.2).
Definition push_part (text : str) (d : option str) : str :=
  match d with Some d => push_diff text d | None => text end.

(** The pairs the loop comes to. *)
Fixpoint scan (pairs : gmap path path) (dests : gset path) (seen : gset path) (ks : list path)
    : list (path * path) :=
  match ks with
  | [] => []
  | k :: ks' =>
      if bool_decide (k ∈ seen) then scan pairs dests seen ks'
      else if bool_decide (k ∈ dests) then scan pairs dests ({[k]} ∪ seen) ks'
      else match pairs !! k with
           | Some dest => (k, dest) :: scan pairs dests ({[dest]} ∪ ({[k]} ∪ seen)) ks'
           | None => (k, k) :: scan pairs dests ({[k]} ∪ seen) ks'
           end
  end.

Definition cache_sound hist t (m : gmap (DiffCacheKey P) (option str)) : Prop :=
  ∀ key d, m !! key = Some d → cached hist (next_revision t) (display_roots_by_environment t) key d.

Abbreviation refresh_with_pair := (refresh_pair unified_text_diff sha1_hex).

Lemma refresh_pair_sound hist t l r seen st :
  coherent_with hist t → cache_sound hist t (previous_diffs st) → cache_sound hist t (new_diffs st) →
  let st' := refresh_with_pair t l r seen st in
  handled st' = seen ∧ cache_sound hist t (previous_diffs st') ∧ cache_sound hist t (new_diffs st')
  ∧ aggregated st' = push_part (aggregated st) (part t (l, r)).
Proof.
  intros (Hb & Hc & _) Hp Hn. set (key := Build_DiffCacheKey l (revision <$> baseline_by_path t !! l) r
    (revision <$> current_by_path t !! r)).
  assert (Hkey : cached hist (next_revision t) (display_roots_by_environment t) key (part t (l, r))).
  { split.
    - simpl. intros v [Hv|Hv]; apply fmap_Some in Hv as (c & Hl & ->); [by eapply Hb|by eapply Hc].
    - unfold part, before, now. simpl. f_equal.
      + destruct (baseline_by_path t !! l) as [c|] eqn:E; [|done]. simpl. f_equal. symmetry. by eapply Hb.
      + destruct (current_by_path t !! r) as [c|] eqn:E; [|done]. simpl. f_equal. symmetry. by eapply Hc. }
  assert (Hr : match previous_diffs st !! key with Some d => d | None => part t (l, r) end = part t (l, r)).
  { destruct (previous_diffs st !! key) as [d|] eqn:E; [|done]. apply Hp in E. destruct E as [_ ->]. symmetry. apply Hkey. }
  unfold refresh_pair. fold key. change (render _ l (content <$> _) r (content <$> _)) with (part t (l, r)).
  rewrite Hr. simpl. split_and!; [done| | |done].
  - intros key' d [_ H']%lookup_delete_Some. by apply Hp.
  - intros key' d [[<- <-]|[_ H']]%lookup_insert_Some; [done|by apply Hn].
Qed.

Lemma refresh_loop hist t pairs dests ks st :
  coherent_with hist t → cache_sound hist t (previous_diffs st) → cache_sound hist t (new_diffs st) →
  let st' := foldl (refresh_step unified_text_diff sha1_hex t pairs dests) st ks in
  cache_sound hist t (new_diffs st')
  ∧ aggregated st' = foldl push_part (aggregated st) (part t <$> scan pairs dests (handled st) ks).
Proof.
  intros Hco. revert st. induction ks as [|k ks IH]; intros st Hp Hn; cbn [foldl scan]; [done|].
  unfold refresh_step at 2 4. case_bool_decide; [by apply IH|]. case_bool_decide; [by apply (IH {| handled := _; previous_diffs := _; new_diffs := _; aggregated := _ |})|].
  destruct (pairs !! k) as [dest|].
  - destruct (refresh_pair_sound hist t k dest ({[dest]} ∪ ({[k]} ∪ handled st)) st Hco Hp Hn) as (Eh & Hp' & Hn' & Ea).
    destruct (IH _ Hp' Hn') as [Hs1 Hs2]. rewrite Eh, Ea in Hs2. done.
  - destruct (refresh_pair_sound hist t k k ({[k]} ∪ handled st) st Hco Hp Hn) as (Eh & Hp' & Hn' & Ea).
    destruct (IH _ Hp' Hn') as [Hs1 Hs2]. rewrite Eh, Ea in Hs2. done.
Qed.

(** ** Renames *)

Lemma collect_map_Some {K V} `{Countable K} (kvs : list (K * V)) a b : collect_map kvs !! a = Some b → (a, b) ∈ kvs.
Proof.
  unfold collect_map. induction kvs as [|[a' b'] kvs IH] using rev_ind; [done|]. rewrite foldl_app. simpl.
  intros [[-> ->]|[_ H']]%lookup_insert_Some; set_solver.
Qed.

Lemma rename_pairs_Some ord t o dest :
  rename_pairs ord t !! o = Some dest → origin_by_current_path t !! dest = Some o ∧ is_rename t dest o = true.
Proof.
  intros Hin%collect_map_Some. apply list_elem_of_omap in Hin as ([d o'] & Hin & Heq).
  rewrite iter_perm in Hin. apply elem_of_map_to_list in Hin.
  destruct (is_rename t d o') eqn:E; simplify_eq. done.
Qed.

Lemma is_rename_spec t dest o :
  is_rename t dest o = true →
  dest ≠ o ∧ now t o = None ∧ is_Some (now t dest) ∧ is_Some (before t o) ∧ before t dest = None.
Proof.
  unfold is_rename, before, now. rewrite !andb_true_iff, negb_true_iff, bool_decide_eq_false, !bool_decide_eq_true.
  intros [[[[? ?] ?] ?] ?]. rewrite !fmap_None, !fmap_is_Some. done.
Qed.

(** No path is the destination of one rename and the origin of another, and no
    two renames have the same destination. *)
Lemma rename_pairs_inj ord t o1 o2 dest :
  rename_pairs ord t !! o1 = Some dest → rename_pairs ord t !! o2 = Some dest → o1 = o2.
Proof. intros [H1 _]%rename_pairs_Some [H2 _]%rename_pairs_Some. congruence. Qed.

Definition rename_dests ord t : gset path := list_to_set (map_to_list (rename_pairs ord t)).*2.

Lemma elem_of_dests ord t dest : dest ∈ rename_dests ord t ↔ ∃ o, rename_pairs ord t !! o = Some dest.
Proof.
  unfold rename_dests. rewrite elem_of_list_to_set, list_elem_of_fmap. split.
  - intros ([o d] & -> & Hin%elem_of_map_to_list). eauto.
  - intros (o & Ho). exists (o, dest). split; [done|]. by apply elem_of_map_to_list.
Qed.

(** ** The pairs of the diff *)

Lemma scan_spec pairs dests seen ks l r :
  (∀ o d, pairs !! o = Some d → d ∈ dests) →
  ((l, r) ∈ scan pairs dests seen ks ↔ l ∈ ks ∧ (l ∉ seen) ∧ (l ∉ dests) ∧ r = default l (pairs !! l)).
Proof.
  intros Hd. revert seen. induction ks as [|k ks IH]; intros seen; cbn [scan]; [set_solver|].
  case_bool_decide as Hs; [rewrite IH; set_solver|]. case_bool_decide as Hk; [rewrite IH; set_solver|].
  destruct (pairs !! k) as [dest|] eqn:E.
  - assert (dest ∈ dests) by by eapply Hd.
    rewrite elem_of_cons, IH. destruct (decide (l = k)) as [->|Hne].
    + rewrite E. simpl. set_solver.
    + set_solver.
  - rewrite elem_of_cons, IH. destruct (decide (l = k)) as [->|Hne].
    + rewrite E. simpl. set_solver.
    + set_solver.
Qed.

Lemma scan_sublist pairs dests seen ks : (scan pairs dests seen ks).*1 `sublist_of` ks.
Proof.
  revert seen. induction ks as [|k ks IH]; intros seen; cbn [scan]; [constructor|].
  repeat case_match; cbn [fmap list_fmap fst]; by constructor.
Qed.

Lemma scan_NoDup pairs dests seen ks :
  (∀ o d, pairs !! o = Some d → d ∈ dests) → NoDup (scan pairs dests seen ks).*1.
Proof.
  intros Hd. revert seen. induction ks as [|k ks IH]; intros seen; cbn [scan]; [constructor|].
  case_bool_decide; [done|]. case_bool_decide; [done|].
  destruct (pairs !! k); cbn [fmap list_fmap fst]; constructor; try apply IH;
    intros ([l r] & -> & Hin)%list_elem_of_fmap; apply scan_spec in Hin; set_solver.
Qed.

Lemma elem_of_keys ord (m : gmap path TrackedContent) k : k ∈ keys ord m ↔ is_Some (content <$> m !! k).
Proof.
  rewrite keys_perm, list_elem_of_fmap, fmap_is_Some. split.
  - intros ([k' c] & -> & Hin%elem_of_map_to_list). eauto.
  - intros [c Hc]. exists (k, c). split; [done|]. by apply elem_of_map_to_list.
Qed.

Lemma elem_of_diff_paths ord t k : k ∈ diff_paths ord t ↔ is_Some (before t k) ∨ is_Some (now t k).
Proof.
  unfold diff_paths. rewrite elem_of_dedup, sort_by_key_perm, elem_of_app, !elem_of_keys. done.
Qed.

(** The pairs of a tracker that describes the change from [w0] to [w]. *)
Definition shown_pairs ord t : list (path * path) :=
  scan (rename_pairs ord t) (rename_dests ord t) ∅ (diff_paths ord t).

Lemma shown_pairs_spec ord t l r :
  (l, r) ∈ shown_pairs ord t ↔
    (is_Some (before t l) ∨ is_Some (now t l)) ∧ (l ∉ rename_dests ord t)
    ∧ r = default l (rename_pairs ord t !! l).
Proof.
  unfold shown_pairs. rewrite scan_spec by (intros; rewrite elem_of_dests; eauto).
  rewrite elem_of_diff_paths. set_solver.
Qed.

Definition rename_or_same w0 w l r : Prop :=
  l = r ∨ is_Some (at_path w0 l) ∧ at_path w l = None ∧ at_path w0 r = None ∧ is_Some (at_path w r).

(** The diff of [w0] and [w]: changed paths are taken one by one, or the removal
    of a file and the creation of another as one rename; each path is on either
    side at most once and none that changed is left out. *)
Definition net_diff (roots : gmap str P) w0 w (out : option str) : Prop :=
  ∃ prs : list (path * path),
    NoDup prs.*1 ∧ NoDup prs.*2 ∧ StronglySorted (key_le (display_path roots)) prs.*1
    ∧ (∀ l r, (l, r) ∈ prs → rename_or_same w0 w l r)
    ∧ (∀ k, at_path w0 k ≠ at_path w k → k ∈ prs.*1 ∨ k ∈ prs.*2)
    ∧ let text := foldl push_part []
                    ((λ lr, render roots lr.1 (at_path w0 lr.1) lr.2 (at_path w lr.2)) <$> prs) in
      out = if bool_decide (text = []) then None else Some text.

Lemma describes_shown ord t w0 w l r :
  describes t w0 w → (l, r) ∈ shown_pairs ord t →
  before t l = at_path w0 l ∧ now t r = at_path w r ∧ rename_or_same w0 w l r.
Proof.
  intros Hd Hin. apply shown_pairs_spec in Hin as (Hl & Hnd & ->).
  pose proof (Hd l) as Hdl. unfold describes_at in Hdl.
  destruct (rename_pairs ord t !! l) as [dest|] eqn:E; simpl.
  - apply rename_pairs_Some in E as [_ (_ & Hn & [x Hx] & [y Hy] & Hb)%is_rename_spec].
    pose proof (Hd dest) as Hdd. unfold describes_at in Hdd. rewrite Hy, Hn in Hdl. rewrite Hb, Hx in Hdd.
    rewrite Hy, Hx. destruct Hdl as [E1 E2], Hdd as [E3 E4].
    split_and!; [done..|]. right. rewrite E1, E2, E3, E4. eauto.
  - unfold rename_or_same. destruct (before t l), (now t l); naive_solver.
Qed.

Lemma changed_shown ord t w0 w k :
  describes t w0 w → at_path w0 k ≠ at_path w k →
  k ∈ (shown_pairs ord t).*1 ∨ k ∈ (shown_pairs ord t).*2.
Proof.
  intros Hd Hne. destruct (decide (k ∈ rename_dests ord t)) as [(o & Ho)%elem_of_dests|Hn].
  - right. apply list_elem_of_fmap. exists (o, k). split; [done|]. apply shown_pairs_spec. rewrite Ho. simpl.
    pose proof (rename_pairs_Some _ _ _ _ Ho) as [_ (_ & Hno & _ & Hb & Hbk)%is_rename_spec].
    split_and!; [by left| |done]. intros (o' & Ho')%elem_of_dests.
    apply rename_pairs_Some in Ho' as [_ (_ & _ & _ & _ & Hb')%is_rename_spec]. rewrite Hb' in Hb. by destruct Hb.
  - left. apply list_elem_of_fmap. exists (k, default k (rename_pairs ord t !! k)). split; [done|].
    apply shown_pairs_spec. split_and!; [|done|done].
    specialize (Hd k). unfold describes_at in Hd. destruct (before t k), (now t k); eauto. congruence.
Qed.

Lemma shown_pairs_inj ord t l1 l2 r :
  (l1, r) ∈ shown_pairs ord t → (l2, r) ∈ shown_pairs ord t → l1 = l2.
Proof.
  intros (_ & Hn1 & Hr1)%shown_pairs_spec (_ & Hn2 & Hr2)%shown_pairs_spec.
  destruct (rename_pairs ord t !! l1) as [d1|] eqn:E1, (rename_pairs ord t !! l2) as [d2|] eqn:E2; simpl in *; subst.
  - by eapply rename_pairs_inj.
  - destruct Hn2. apply elem_of_dests. eauto.
  - destruct Hn1. apply elem_of_dests. eauto.
  - done.
Qed.

Lemma refresh_net_diff ord t w0 w :
  coherent t 0 → describes t w0 w →
  let t' := refresh_unified_diff unified_text_diff sha1_hex ord t in
  coherent t' 0 ∧ net_diff (display_roots_by_environment t') w0 w (unified_diff t').
Proof.
  intros [[hist Hco] Hn] Hd. destruct Hco as (Hb & Hc & Hcache).
  destruct (refresh_loop hist t (rename_pairs ord t) (rename_dests ord t) (diff_paths ord t)
    {| handled := ∅; previous_diffs := rendered_diffs t; new_diffs := ∅; aggregated := [] |})
    as [Hnew Hagg]; [done..|].
  split.
  - split; [|done]. by exists hist.
  - exists (shown_pairs ord t). assert (Hnd : NoDup (shown_pairs ord t).*1).
    { apply scan_NoDup. intros. rewrite elem_of_dests. eauto. }
    split_and!; [done| | | | |].
    + apply NoDup_snd; [done|]. intros. by eapply shown_pairs_inj.
    + eapply StronglySorted_sublist; [apply scan_sublist|].
      eapply StronglySorted_sublist; [apply dedup_sublist|]. apply sort_by_key_sorted.
    + intros l r Hin. by eapply describes_shown.
    + intros k. by apply changed_shown.
    + unfold refresh_unified_diff. fold (rename_dests ord t). simpl. rewrite Hagg. simpl.
      replace (part t <$> _) with ((λ lr, render (display_roots_by_environment t) lr.1 (at_path w0 lr.1)
        lr.2 (at_path w lr.2)) <$> shown_pairs ord t); [done|].
      apply list_fmap_ext. intros i [l r] Hi%list_elem_of_lookup_2. unfold part. simpl.
      destruct (describes_shown ord t w0 w l r Hd Hi) as (-> & -> & _). done.
Qed.

Lemma tracked_net_diff w0 t w :
  tracked w0 t w → valid t = true →
  coherent t 0 ∧ net_diff (display_roots_by_environment t) w0 w (unified_diff t).
Proof.
  induction 1 as [roots|ord env t w d Ht IH He Hf Hm Hr|ord env t w w' d _ IH He|t w w' _ IH|t w w' _ IH Hv];
    intros Hval.
  - split; [split; [|done]; exists (λ _, []); split_and!; intros ? ? He; simpl in He; by rewrite lookup_empty in He|].
    exists []. split_and!; try constructor; [set_solver|done].
  - apply track_valid in Hval as [Hv _]. specialize (IH Hv) as [[Hco _] _]. unfold track_delta. rewrite Hv, He. cbn [negb].
    apply refresh_net_diff; [|by apply apply_changes_describes; [by apply tracked_describes|..]].
    apply coherent_changes. split; [done|]. lia.
  - apply track_valid in Hval. naive_solver congruence.
  - done.
  - congruence.
Qed.

End Tracker.

(** * The diff of a turn: what is promised

    The theorems about the tracker, the link with the runs of [apply_patch],
    and concrete turns on the in-memory file system. *)

Section Turns.
Context {P PE : Type} `{Countable P} `{PO : !PathUriOps P PE} `{RP : !RelativePaths P}.
Context (unified_text_diff : nat → str → str → str → str → str) (sha1_hex : bytes → str).
Implicit Types (w : world (P := P)).

(** After any sequence of deltas of a turn, while the tracker is valid, its
    two maps hold for every path it knows the content at the start of the turn
    and the content now, and a path it does not know has not changed. *)
Theorem turn_diff_describes w0 t w :
  tracked unified_text_diff sha1_hex w0 t w → valid t = true → describes t w0 w.
Proof. apply tracked_describes. Qed.

(** The diff a valid tracker reports is the diff of the files at the start
    of the turn and now, rendered anew from their contents: the cache never
    shows, no changed path is left out or shown twice, and a pair of different
    paths is a file that went and one that came. *)
Theorem turn_diff_text w0 t w :
  tracked unified_text_diff sha1_hex w0 t w → valid t = true →
  net_diff unified_text_diff sha1_hex (display_roots_by_environment t) w0 w (get_unified_diff t).
Proof. apply tracked_net_diff. Qed.

Context {W O : Type} `{FS : !ExecutorFileSystem P W} `{LF : !LawfulFileSystem P W} `{WR : !Writer O}.

(** C29. Handing the delta of a run of [apply_patch], successful or failed, to
    the tracker of the run's environment keeps the diff true, on a lawful file
    system, if the run moved no file onto its own path and the counter of
    revisions does not wrap: while the tracker is valid it describes the change
    from the start of the turn to the files after the run. *)
Theorem turn_diff_apply_patch opts cwd patch (r r' : RunState W O) res d env ord w0 t w :
  apply_patch_with_options opts cwd patch r = (res, r') → outcome_delta res = Some d →
  tracked unified_text_diff sha1_hex w0 t w → w env = files (follow_symlinks opts) (run_fs r) →
  Forall not_self_move (changes d) →
  (next_revision t + 3 * N.of_nat (length (changes d)) < REVISIONS)%N →
  let t' := track_delta unified_text_diff sha1_hex ord env t d in
  let w' := set_files env (files (follow_symlinks opts) (run_fs r')) w in
  valid t' = true →
  describes t' w0 w' ∧ net_diff unified_text_diff sha1_hex (display_roots_by_environment t') w0 w' (unified_diff t').
Proof.
  intros Hrun%apply_patch_run Hd Ht Hw Hm Hr t' w' Hv. rewrite Hd in Hrun.
  pose proof (track_valid _ _ _ _ _ _ Hv) as [_ He]. destruct (Hrun He) as (_ & cs & Hcs & Hrep & Hf).
  simpl in Hcs. subst cs. rewrite <- Hw in Hrep, Hf.
  assert (Ht' : tracked unified_text_diff sha1_hex w0 t' w').
  { unfold w', t'. rewrite <- Hrep. by apply tracked_exact. }
  split; [by eapply tracked_describes|by eapply tracked_net_diff].
Qed.

End Turns.

(** ** Concrete turns *)

#[global] Instance mem_relative : RelativePaths str := λ p base, strip_prefix (base ++ [c_slash]) p.

(** Two orders of traversal. *)
Definition map_order : HashOrder str.
Proof.
  refine {| iter := λ m, map_to_list m; keys := λ m, (map_to_list m).*1 |}; done.
Defined.
Definition rev_order : HashOrder str.
Proof.
  refine {| iter := λ m, rev (map_to_list m); keys := λ m, rev (map_to_list m).*1 |};
    intros; symmetry; apply Permutation_rev.
Defined.

Definition sample_diff (context : nat) (a b old_header new_header : str) : str :=
  lit "--- " ++ old_header ++ [c_lf] ++ lit "+++ " ++ new_header ++ [c_lf].
Definition sample_sha1 (data : bytes) : str := lit "oid".
Abbreviation sample_track := (track_delta sample_diff sample_sha1).

Definition demo_world : world (P := str) := λ _, mem_files demo_fs.
Definition demo_tracker := with_environment_display_roots [(lit "local", lit "r")].
Definition demo_delta : AppliedPatchDelta str :=
  match outcome_delta demo_result.1 with Some d => d | None => delta_empty end.
Definition demo_tracked := sample_track map_order (lit "local") demo_tracker demo_delta.

Lemma demo_outcome : outcome_delta demo_result.1 = Some demo_delta.
Proof. vm_compute. reflexivity. Qed.
Lemma demo_not_self : Forall not_self_move (changes demo_delta).
Proof. vm_compute. repeat constructor; discriminate. Qed.
Lemma demo_valid : valid demo_tracked = true.
Proof. vm_compute. reflexivity. Qed.

(** The sample run is shown as a rename, a new file and a deleted file. *)
Example demo_tracked_diff :
  omap (strip_prefix (lit "diff --git ")) (str_lines (default [] (unified_diff demo_tracked)))
  = [lit "a/a b/b"; lit "a/c b/c"; lit "a/d/new b/d/new"].
Proof. vm_compute. reflexivity. Qed.

Lemma turn_diff_apply_patch_witness :
  valid demo_tracked = true
  ∧ describes demo_tracked demo_world (set_files (lit "local") (mem_files (run_fs demo_result.2)) demo_world)
  ∧ net_diff sample_diff sample_sha1 (display_roots_by_environment demo_tracked) demo_world
      (set_files (lit "local") (mem_files (run_fs demo_result.2)) demo_world) (unified_diff demo_tracked).
Proof.
  split; [exact demo_valid|].
  exact (turn_diff_apply_patch sample_diff sample_sha1 default_options (lit "r") demo_patch demo_run demo_result.2
    demo_result.1 demo_delta (lit "local") map_order demo_world demo_tracker demo_world (surjective_pairing _)
    demo_outcome (tracked_start _ _ _ _) eq_refl demo_not_self eq_refl demo_valid).
Defined.

Lemma demo_reachable :
  tracked sample_diff sample_sha1 demo_world demo_tracked
    (set_files (lit "local") (replay (mem_files demo_fs) (changes demo_delta)) demo_world).
Proof.
  apply (tracked_exact sample_diff sample_sha1 demo_world map_order (lit "local") demo_tracker demo_world demo_delta).
  - apply tracked_start.
  - vm_compute. reflexivity.
  - vm_compute. repeat split.
  - exact demo_not_self.
  - vm_compute. reflexivity.
Qed.

Lemma turn_diff_describes_witness :
  valid demo_tracked = true
  ∧ describes demo_tracked demo_world
      (set_files (lit "local") (replay (mem_files demo_fs) (changes demo_delta)) demo_world).
Proof.
  split; [exact demo_valid|].
  exact (turn_diff_describes sample_diff sample_sha1 demo_world demo_tracked _ demo_reachable demo_valid).
Defined.

Lemma turn_diff_text_witness :
  valid demo_tracked = true
  ∧ net_diff sample_diff sample_sha1 (display_roots_by_environment demo_tracked) demo_world
      (set_files (lit "local") (replay (mem_files demo_fs) (changes demo_delta)) demo_world)
      (get_unified_diff demo_tracked).
Proof.
  split; [exact demo_valid|].
  exact (turn_diff_text sample_diff sample_sha1 demo_world demo_tracked _ demo_reachable demo_valid).
Defined.

(** A file moved away, made anew and moved away again: two files then have the
    same origin, and which of them is shown as the rename depends on the order
    in which a hash map is traversed. *)
Definition twice_moved : AppliedPatchDelta str :=
  {| changes := [Build_AppliedPatchChange (lit "r/a") (ChUpdate (Some (lit "r/b")) (lit "1") None (lit "2"));
                 Build_AppliedPatchChange (lit "r/a") (ChAdd (lit "3") None);
                 Build_AppliedPatchChange (lit "r/a") (ChUpdate (Some (lit "r/c")) (lit "3") None (lit "4"))];
     exact := true |}.
Definition one_file : world (P := str) := λ _, {[ lit "r/a" := lit "1" ]}.

(** The same turn, tracked with two orders of traversal, is reported as two
    different diffs. *)
Theorem turn_diff_depends_on_order :
  ∃ t1 t2 w, tracked sample_diff sample_sha1 one_file t1 w ∧ tracked sample_diff sample_sha1 one_file t2 w
    ∧ t1 = sample_track map_order (lit "local") demo_tracker twice_moved
    ∧ t2 = sample_track rev_order (lit "local") demo_tracker twice_moved
    ∧ valid t1 = true ∧ valid t2 = true ∧ get_unified_diff t1 ≠ get_unified_diff t2.
Proof.
  eexists _, _, (set_files (lit "local") (replay (one_file (lit "local")) (changes twice_moved)) one_file).
  split_and!; [..|reflexivity|reflexivity|reflexivity|reflexivity|vm_compute; discriminate].
  all: apply tracked_exact; [apply tracked_start|done|vm_compute; repeat split| |done].
  all: vm_compute; repeat constructor; discriminate.
Qed.
