(* ===== verification/ResponseItem.v ===== *)
(** * Items of the model's history

    Models the data of [protocol/src/models.rs], [history/src/lib.rs] and
    [context-fragments/src/annotated_content.rs] that the preparation of prompts
    works on. What it only carries along, JSON values, enumerations of other
    packages, is a parameter, gathered in [ItemPayloads]. *)

From S2P Require Import Prelude RustStr Truncate.
Open Scope list_scope.

(** Types whose values are carried along unread: [serde_json::Value] and
    [Number], [MessagePhase], [AgentMessageInputContent],
    [ReasoningItemReasoningSummary], [ReasoningItemContent], [LocalShellStatus],
    [LocalShellAction], [WebSearchAction], [ConfigurationReasoning],
    [ImageDetail] and [ExecutedToolCall]. *)
Class ItemPayloads := {
  Value : Type;
  Number : Type;
  MessagePhase : Type;
  AgentMessageInputContent : Type;
  ReasoningItemReasoningSummary : Type;
  ReasoningItemContent : Type;
  LocalShellStatus : Type;
  LocalShellAction : Type;
  WebSearchAction : Type;
  ConfigurationReasoning : Type;
  ImageDetail : Type;
  ExecutedToolCall : Type;
}.

(** [ResponseItemId] and [ContentItemKind] wrap a string. *)
Definition ResponseItemId := str.
Definition ContentItemKind := str.

(** Metadata of the harness about an item of the history. *)
Record CodexHarnessMetadata := {
  hm_client_authored : bool;
  hm_history_truncation_token_limit : option N;
  hm_harness_authored_configuration : bool;
  hm_compaction_model_hash : option str;
  hm_user_input_order : option N;
  hm_inherited_user_message : bool;
}.

Section Items.
Context `{IP : ItemPayloads}.

Inductive ImageReference := Inline (image_url : str) | File (file_id : str).

Inductive ContentItem :=
  | CiInputText (text : str)
  | CiInputImage (image : ImageReference) (detail : option ImageDetail)
  | CiInputAudio (audio_url : str)
  | CiOutputText (text : str).

Record InternalChatMessageMetadataPassthrough := {
  meta_turn_id : option str;
  create_time : option Number;
  content_item_kinds : option (list ContentItemKind);
  cell_id : option str;
  executed_tool_calls : option (list ExecutedToolCall);
  tool_calls_complete : option bool;
}.
Abbreviation Meta := (option InternalChatMessageMetadataPassthrough).

Definition meta_default : InternalChatMessageMetadataPassthrough :=
  {| meta_turn_id := None; create_time := None; content_item_kinds := None; cell_id := None;
     executed_tool_calls := None; tool_calls_complete := None |}.

(** An image in a tool's output: its reference and its detail. *)
Abbreviation OutputImage := (ImageReference * option ImageDetail)%type.
Abbreviation OutputPayload := (FunctionCallOutputPayload (Img := OutputImage)).
Abbreviation OutputItem := (FunctionCallOutputContentItem OutputImage).

Inductive ResponseItem :=
  | AdditionalTools (id : option ResponseItemId) (role : str) (tools : list Value)
  | Message (id : option ResponseItemId) (role : str) (content : list ContentItem)
      (phase : option MessagePhase) (meta : Meta)
  | AgentMessage (id : option ResponseItemId) (author recipient : str)
      (content : list AgentMessageInputContent) (meta : Meta)
  | Reasoning (id : option ResponseItemId) (summary : list ReasoningItemReasoningSummary)
      (content : option (list ReasoningItemContent)) (encrypted_content : option str) (meta : Meta)
  | LocalShellCall (id : option ResponseItemId) (call_id : option str) (status : LocalShellStatus)
      (action : LocalShellAction) (meta : Meta)
  | FunctionCall (id : option ResponseItemId) (name : str) (namespace : option str) (arguments : str)
      (encrypted_function_args : option (list str)) (call_id : str) (meta : Meta)
  | ToolSearchCall (id : option ResponseItemId) (call_id status : option str) (execution : str)
      (arguments : Value) (meta : Meta)
  | FunctionCallOutput (id : option ResponseItemId) (call_id name namespace : option str)
      (output : OutputPayload) (meta : Meta)
  | CustomToolCall (id : option ResponseItemId) (status : option str) (call_id name : str)
      (namespace : option str) (input : str) (meta : Meta)
  | CustomToolCallOutput (id : option ResponseItemId) (call_id : str) (name : option str)
      (output : OutputPayload) (meta : Meta)
  | ToolSearchOutput (id : option ResponseItemId) (call_id : option str) (status execution : str)
      (tools : list Value) (meta : Meta)
  | WebSearchCall (id : option ResponseItemId) (status : option str) (action : option WebSearchAction)
      (meta : Meta)
  | ImageGenerationCall (id : option ResponseItemId) (status : str) (revised_prompt : option str)
      (result : str) (meta : Meta)
  | Compaction (id : option ResponseItemId) (encrypted_content : str) (meta : Meta)
  | ConfigurationUpdate (reasoning : ConfigurationReasoning)
  | CompactionTrigger
  | ContextCompaction (id : option ResponseItemId) (encrypted_content : option str) (meta : Meta)
  | OtherItem.

Record ResponseItemEnvelope := {
  item : ResponseItem;
  metadata : option CodexHarnessMetadata;
}.

(** [ResponseItemEnvelope::new]. *)
Definition envelope_new (i : ResponseItem) : ResponseItemEnvelope := {| item := i; metadata := None |}.

(** [FunctionCallOutputPayload::from_text]. *)
Definition payload_from_text (content : str) : OutputPayload :=
  {| payload_body := BodyText content; payload_success := None |}.

(** ** Content with its classifications *)

Record AnnotatedContent := { ann_content : ContentItem; ann_kind : ContentItemKind }.

Definition unknown_kind : ContentItemKind := lit "unknown".

(** The [zip] of a message's content with its kinds, continued by unknown ones. *)
Fixpoint annotate (content : list ContentItem) (kinds : list ContentItemKind) : list AnnotatedContent :=
  match content with
  | [] => []
  | c :: content' =>
      match kinds with
      | [] => {| ann_content := c; ann_kind := unknown_kind |} :: annotate content' []
      | k :: kinds' => {| ann_content := c; ann_kind := k |} :: annotate content' kinds'
      end
  end.

Definition set_kinds (m : InternalChatMessageMetadataPassthrough) (kinds : option (list ContentItemKind))
    : InternalChatMessageMetadataPassthrough :=
  {| meta_turn_id := meta_turn_id m; create_time := create_time m; content_item_kinds := kinds;
     cell_id := cell_id m; executed_tool_calls := executed_tool_calls m;
     tool_calls_complete := tool_calls_complete m |}.

(** [to_annotated_content] takes the content and the kinds out of the item. *)
Definition to_annotated_content (i : ResponseItem) : option (list AnnotatedContent) * ResponseItem :=
  match i with
  | Message id role content phase meta =>
      let kinds := default [] (m ← meta; content_item_kinds m) in
      (Some (annotate content kinds), Message id role [] phase ((λ m, set_kinds m None) <$> meta))
  | _ => (None, i)
  end.

(** [set_annotated_content]. *)
Definition set_annotated_content (i : ResponseItem) (annotated : list AnnotatedContent)
    : option unit * ResponseItem :=
  match i with
  | Message id role _ phase meta =>
      (Some tt, Message id role (map ann_content annotated) phase
                  (Some (set_kinds (default meta_default meta) (Some (map ann_kind annotated)))))
  | _ => (None, i)
  end.

End Items.
