(* ===== verification/WorldState.v ===== *)
(** * Snapshots of the world state

    Models the snapshots of [core/src/context/world_state/mod.rs]: the JSON
    snapshot of the persisted sections, the RFC 7386 merge patch that advances one
    snapshot to another, and its application. An object of [serde_json] is a
    finite map, as its equality does not see the order of its fields; a loop over
    the fields of a map, which does one thing to each key, is the map of what it
    does. A patch leads from the earlier snapshot to the later one. *)

From stdpp Require Import gmap.
From S2P Require Import Prelude RustStr.
Open Scope list_scope.
#[local] Set Warnings "-register-all".

Section WorldState.
(** Numbers of [serde_json], compared by [==]. *)
Context {Num : Type} `{!EqDecision Num}.

Inductive Json :=
  | JNull
  | JBool (b : bool)
  | JNumber (n : Num)
  | JString (s : str)
  | JArray (values : list Json)
  | JObject (fields : gmap str Json).

(** [is_null]. *)
Definition is_null (j : Json) : bool := match j with JNull => true | _ => false end.

(** ** Equality *)

(** [==] of values. *)
Fixpoint json_eqb (a b : Json) {struct a} : bool :=
  match a, b with
  | JNull, JNull => true
  | JBool x, JBool y => bool_decide (x = y)
  | JNumber x, JNumber y => bool_decide (x = y)
  | JString x, JString y => bool_decide (x = y)
  | JArray l, JArray l' =>
      (fix go l l' := match l, l' with
                      | [], [] => true
                      | x :: l, y :: l' => json_eqb x y && go l l'
                      | _, _ => false
                      end) l l'
  | JObject m, JObject m' =>
      bool_decide (dom m = dom m')
      && map_fold (λ k v acc, from_option (json_eqb v) false (m' !! k) && acc) true m
  | _, _ => false
  end.

(** ** Snapshots *)

(** [remove_null_object_fields]. *)
Fixpoint remove_null_object_fields (value : Json) : Json :=
  match value with
  | JObject values =>
      JObject (omap (λ v, if is_null v then None else Some (remove_null_object_fields v)) values)
  | _ => value
  end.

(** A section: whether it persists, and its snapshot as JSON, which may fail to
    serialize. *)
Record WorldStateSection := { should_persist : bool; section_value : option Json }.

(** [ErasedWorldStateSection::snapshot]. *)
Definition section_snapshot (s : WorldStateSection) : option Json :=
  if negb (should_persist s) then None
  else
    value ← section_value s;
    let snapshot := remove_null_object_fields value in
    if is_null snapshot then None else Some snapshot.

(** [WorldStateSnapshot], and [WorldState::snapshot] of the sections by id. *)
Abbreviation WorldStateSnapshot := (gmap str Json).
Definition world_snapshot (sections : gmap str WorldStateSection) : WorldStateSnapshot :=
  omap section_snapshot sections.

(** ** Merge patches *)

Definition as_object (j : Json) : gmap str Json := match j with JObject m => m | _ => ∅ end.

(** The fields that are gone, as nulls. *)
Definition removals (previous current : gmap str Json) : gmap str Json :=
  omap (λ _, Some JNull) (filter (λ '(k, _), current !! k = None) previous).

(** [create_merge_patch]. *)
Fixpoint create_merge_patch (previous current : Json) {struct current} : option Json :=
  if json_eqb previous current then None
  else
    match current with
    | JObject current =>
        let previous := as_object previous in
        Some (JObject
          (map_imap (λ key current_value,
             match previous !! key with
             | None => Some current_value
             | Some previous_value => create_merge_patch previous_value current_value
             end) current
           ∪ removals previous current))
    | _ => Some current
    end.

(** [merge_patch_from]. *)
Definition merge_patch_from (current previous : WorldStateSnapshot) : option (gmap str Json) :=
  let patch :=
    map_imap (λ key current_value,
      match previous !! key with
      | Some previous_value => create_merge_patch previous_value current_value
      | None => Some current_value
      end) current
    ∪ removals previous current in
  if bool_decide (patch = ∅) then None else Some patch.

(** The fields of [target] that a patch does not name. *)
Definition unnamed (target patch : gmap str Json) : gmap str Json :=
  filter (λ '(k, _), patch !! k = None) target.

(** [apply_merge_patch_value]; the result is the target's new value. *)
Fixpoint apply_merge_patch_value (target patch : Json) {struct patch} : Json :=
  match patch with
  | JObject patch =>
      let target := as_object target in
      JObject (map_imap (λ key value,
                 if is_null value then None
                 else Some (apply_merge_patch_value (default JNull (target !! key)) value)) patch
               ∪ unnamed target patch)
  | _ => patch
  end.

(** [WorldStateSnapshot::apply_merge_patch]. *)
Definition apply_merge_patch (sections : WorldStateSnapshot) (patch : gmap str Json) : WorldStateSnapshot :=
  map_imap (λ key value,
    if is_null value then None
    else Some (apply_merge_patch_value (default JNull (sections !! key)) value)) patch
  ∪ unnamed sections patch.

(** ** Induction on values *)

Fixpoint json_size (j : Json) : nat :=
  match j with
  | JArray l => S ((fix go l := match l with [] => 0 | x :: l => json_size x + go l end) l)
  | JObject m => S (map_fold (λ _ v n, json_size v + n) 0 m)
  | _ => 0
  end.

Lemma json_size_field (m : gmap str Json) k v : m !! k = Some v → json_size v < json_size (JObject m).
Proof.
  intros Hk. cbn [json_size].
  rewrite (map_fold_delete_L (λ _ v n, json_size v + n) 0 k v m); [lia| |done]. intros; lia.
Qed.

Lemma json_size_element (l : list Json) x : x ∈ l → json_size x < json_size (JArray l).
Proof.
  cbn [json_size]. induction l as [|y l IH]; intros Hx; [by apply not_elem_of_nil in Hx|].
  apply elem_of_cons in Hx as [->|Hx]; [lia|]. specialize (IH Hx). lia.
Qed.

Lemma json_ind_nested (P : Json → Prop) :
  P JNull → (∀ b, P (JBool b)) → (∀ n, P (JNumber n)) → (∀ s, P (JString s)) →
  (∀ l, Forall P l → P (JArray l)) → (∀ m, map_Forall (λ _, P) m → P (JObject m)) → ∀ j, P j.
Proof.
  intros Hnull Hbool Hnum Hstr Harr Hobj j.
  induction (Nat.lt_wf_0_projected json_size j) as [j _ IH].
  destruct j as [| | | |l|m]; auto.
  - apply Harr, Forall_forall. intros x Hx. by apply IH, json_size_element.
  - apply Hobj. intros k v Hk. by apply IH, (json_size_field m k).
Qed.

Lemma fields_eqb_spec (m m' : gmap str Json) :
  map_fold (λ k v acc, from_option (json_eqb v) false (m' !! k) && acc) true m = true ↔
  ∀ k v, m !! k = Some v → ∃ w, m' !! k = Some w ∧ json_eqb v w = true.
Proof.
  induction m as [|k v m Hk IH] using map_ind.
  { rewrite map_fold_empty. split; [intros _ k v; by rewrite lookup_empty|done]. }
  rewrite map_fold_insert_L; [|intros; by rewrite !andb_assoc, (andb_comm (from_option _ _ _))|done].
  rewrite andb_true_iff, IH. clear IH. split.
  - intros [Hv Hm] k' v' [[<- <-]|[_ Hk']]%lookup_insert_Some; [|by apply Hm].
    destruct (m' !! k) as [w|]; [|done]. by exists w.
  - intros Hm. split.
    + destruct (Hm k v) as (w & -> & Hw); [by apply lookup_insert_eq|done].
    + intros k' v' Hk'. apply Hm. rewrite lookup_insert_ne; [done|]. congruence.
Qed.

Lemma json_eqb_eq (a b : Json) : json_eqb a b = true ↔ a = b.
Proof.
  revert b. induction a as [| | | |l Hl|m Hm] using json_ind_nested; intros []; try done;
    try (cbn; rewrite bool_decide_eq_true; naive_solver).
  - transitivity (l = values); [|naive_solver]. revert values.
    induction Hl as [|x l Hx _ IH]; intros [|y l']; cbn; try done. rewrite andb_true_iff.
    change ((fix go (l l'0 : list Json) {struct l} : bool := _) l l') with (json_eqb (JArray l) (JArray l')).
    rewrite Hx, IH. naive_solver.
  - cbn [json_eqb]. rewrite andb_true_iff, bool_decide_eq_true, fields_eqb_spec. split.
    + intros [Hd Hf]. f_equal. apply map_eq. intros k. destruct (m !! k) as [v|] eqn:Hk.
      * destruct (Hf k v Hk) as (w & -> & Hw). f_equal. by apply (Hm k v Hk).
      * symmetry. apply not_elem_of_dom. rewrite <- Hd. by apply not_elem_of_dom.
    + intros [= <-]. split; [done|]. intros k v Hk. exists v. split; [done|]. by apply (Hm k v Hk).
Qed.

(** ** Snapshots have no null fields *)

(** Objects hold no nulls, at any depth outside arrays. *)
Inductive clean : Json → Prop :=
  | clean_object m : (∀ k v, m !! k = Some v → is_null v = false ∧ clean v) → clean (JObject m)
  | clean_other j : (∀ m, j ≠ JObject m) → clean j.

Lemma remove_null_clean j : clean (remove_null_object_fields j).
Proof.
  induction j as [| | | |l _|m Hm] using json_ind_nested; try (by apply clean_other).
  cbn [remove_null_object_fields]. apply clean_object. intros k v.
  rewrite lookup_omap. intros (w & Hw & Hv)%bind_Some. destruct (is_null w) eqn:Hn; [done|]. simplify_eq.
  split; [by destruct w|]. by apply (Hm k w Hw).
Qed.

Definition clean_fields (m : gmap str Json) : Prop := ∀ k v, m !! k = Some v → is_null v = false ∧ clean v.

Lemma world_snapshot_clean sections : clean_fields (world_snapshot sections).
Proof.
  intros k v. unfold world_snapshot. rewrite lookup_omap. intros (s & _ & Hs)%bind_Some.
  unfold section_snapshot in Hs. destruct (negb _); [done|]. apply bind_Some in Hs as (j & _ & Hj).
  destruct (is_null (remove_null_object_fields j)) eqn:Hn; [done|]. simplify_eq.
  split; [done|apply remove_null_clean].
Qed.

(** ** A patch leads to the snapshot it was made for *)

(** One key of an application. *)
Lemma apply_lookup target patch k :
  apply_merge_patch target patch !! k =
    match patch !! k with
    | Some v => if is_null v then None else Some (apply_merge_patch_value (default JNull (target !! k)) v)
    | None => target !! k
    end.
Proof.
  unfold apply_merge_patch, unnamed. rewrite lookup_union, map_lookup_imap.
  destruct (patch !! k) as [v|] eqn:Hp; simpl.
  - assert (Hf : filter (λ '(k, _), patch !! k = None) target !! k = None).
    { apply map_lookup_filter_None. right. intros w _ ?. congruence. }
    rewrite Hf. by case_match.
  - destruct (filter _ target !! k) as [w|] eqn:Hf.
    + apply map_lookup_filter_Some in Hf as [-> _]. done.
    + apply map_lookup_filter_None in Hf as [Hf|Hf]; [by rewrite Hf|].
      destruct (target !! k) as [w|] eqn:Hw; [|done]. by destruct (Hf w).
Qed.

Lemma apply_object target patch :
  apply_merge_patch_value target (JObject patch) = JObject (apply_merge_patch (as_object target) patch).
Proof. done. Qed.

(** A clean value, put where nothing was, is itself. *)
Lemma apply_clean v target : clean v → as_object target = ∅ → apply_merge_patch_value target v = v.
Proof.
  revert target. induction v as [| | | |l _|m Hm] using json_ind_nested; intros target Hc Ht; try done.
  rewrite apply_object, Ht. f_equal. inversion Hc as [? Hf|? Hn]; [|by destruct (Hn m)]. subst.
  apply map_eq. intros k. rewrite apply_lookup, lookup_empty. destruct (m !! k) as [v|] eqn:Hk; [|done].
  destruct (Hf k v Hk) as [-> Hv]. f_equal. by apply (Hm k v Hk).
Qed.

(** The patch between two objects, key by key. *)
Definition fields_patch (previous current : gmap str Json) : gmap str Json :=
  map_imap (λ key current_value,
    match previous !! key with
    | Some previous_value => create_merge_patch previous_value current_value
    | None => Some current_value
    end) current
  ∪ removals previous current.

Lemma removals_lookup previous current k :
  removals previous current !! k =
    match previous !! k, current !! k with Some _, None => Some JNull | _, _ => None end.
Proof.
  unfold removals. rewrite lookup_omap. destruct (filter _ previous !! k) as [v|] eqn:Hf; simpl.
  - apply map_lookup_filter_Some in Hf as [-> ->]. done.
  - apply map_lookup_filter_None in Hf as [Hf|Hf]; [by rewrite Hf|].
    destruct (previous !! k) as [w|] eqn:Hw; [|done]. destruct (current !! k) eqn:Hc; [done|]. by destruct (Hf w).
Qed.

Lemma fields_patch_lookup previous current k :
  fields_patch previous current !! k =
    match current !! k, previous !! k with
    | Some c, Some p => create_merge_patch p c
    | Some c, None => Some c
    | None, Some _ => Some JNull
    | None, None => None
    end.
Proof.
  unfold fields_patch. rewrite lookup_union, map_lookup_imap, removals_lookup.
  destruct (current !! k) as [c|]; simpl; destruct (previous !! k) as [p|]; simpl; try done.
  by destruct (create_merge_patch p c).
Qed.

Lemma create_object previous m :
  json_eqb previous (JObject m) = false →
  create_merge_patch previous (JObject m) = Some (JObject (fields_patch (as_object previous) m)).
Proof. intros H. cbn [create_merge_patch]. rewrite H. done. Qed.

(** No patch: the values are equal. A patch is no null, and leads to the value. *)
Lemma create_apply current previous :
  clean current → is_null current = false →
  match create_merge_patch previous current with
  | None => previous = current
  | Some patch => is_null patch = false ∧ apply_merge_patch_value previous patch = current
  end.
Proof.
  revert previous. induction current as [| | | |l _|m Hm] using json_ind_nested; intros previous Hc Hn;
    try done;
    try (cbn [create_merge_patch]; destruct (json_eqb previous _) eqn:He; [by apply json_eqb_eq|done]).
  destruct (json_eqb previous (JObject m)) eqn:He.
  { cbn [create_merge_patch]. rewrite He. by apply json_eqb_eq. }
  rewrite (create_object _ _ He). split; [done|]. rewrite apply_object. f_equal.
  inversion Hc as [? Hf|? Hno]; [|by destruct (Hno m)]. subst. clear He.
  apply map_eq. intros k. rewrite apply_lookup, fields_patch_lookup.
  destruct (m !! k) as [c|] eqn:Hk; [|by destruct (as_object previous !! k)].
  destruct (Hf k c Hk) as [Hcn Hcc]. destruct (as_object previous !! k) as [p|] eqn:Hp.
  - specialize (Hm k c Hk p Hcc Hcn). destruct (create_merge_patch p c) as [v|]; [|by rewrite Hm].
    destruct Hm as [-> Hm]. simpl. by rewrite Hm.
  - rewrite Hcn. f_equal. by apply apply_clean.
Qed.

(** C22. The merge patch between two world states leads from the earlier snapshot to
    the later one, whatever the earlier snapshot holds, nested objects, removed
    sections and values that change their type included; no patch is made exactly
    when the snapshots are equal. *)
Theorem world_state_patch_roundtrip (previous : WorldStateSnapshot) (sections : gmap str WorldStateSection) :
  let current := world_snapshot sections in
  match merge_patch_from current previous with
  | Some patch => apply_merge_patch previous patch = current ∧ previous ≠ current
  | None => previous = current
  end.
Proof.
  intros current. pose proof (world_snapshot_clean sections) as Hclean. fold current in Hclean.
  unfold merge_patch_from. fold (fields_patch previous current).
  assert (Hkey : ∀ k, match fields_patch previous current !! k with
    | Some v => (if is_null v then None else Some (apply_merge_patch_value (default JNull (previous !! k)) v)) = current !! k
    | None => previous !! k = current !! k
    end).
  { intros k. rewrite fields_patch_lookup. destruct (current !! k) as [c|] eqn:Hk; [|by destruct (previous !! k)].
    destruct (Hclean k c Hk) as [Hn Hc]. destruct (previous !! k) as [p|] eqn:Hp.
    - pose proof (create_apply c p Hc Hn) as H. destruct (create_merge_patch p c); simpl; [|by rewrite H].
      destruct H as [-> H]. by rewrite H.
    - rewrite Hn. f_equal. by apply apply_clean. }
  case_bool_decide as He.
  - apply map_eq. intros k. specialize (Hkey k). by rewrite He, lookup_empty in Hkey.
  - split.
    + apply map_eq. intros k. rewrite apply_lookup. specialize (Hkey k).
      by destruct (fields_patch previous current !! k).
    + intros Heq. apply He, map_empty. intros k. rewrite fields_patch_lookup, Heq.
      destruct (current !! k) as [c|]; [|done].
      destruct c; cbn [create_merge_patch]; by rewrite (proj2 (json_eqb_eq _ _) eq_refl).
Qed.

End WorldState.
Arguments Json Num : clear implicits.
