(* ===== verification/ThreadItem.v ===== *)
(** * Items of a thread and the events they come from

    Models the data of the thread history: the [ThreadItem]s and [Turn]s of
    [app-server-protocol/src/protocol/v2/item.rs], [turn.rs] and
    [thread_data.rs], the events and turn items of [protocol/src/protocol.rs],
    [approvals.rs], [dynamic_tools.rs] and [items.rs], and the conversions
    between them, those of [v2/item.rs] and the builders of
    [protocol/item_builders.rs].

    An event's record holds the fields the history reads. Where a type of the
    core protocol and its copy in the [v2] protocol have the same constructors,
    and the conversion is the constructor by constructor copy, one type stands
    for both. A [PathBuf], an [AbsolutePathBuf], a [LegacyAppPathString], an
    [AgentPath] and a [ThreadId] are their text. *)

From stdpp Require Import gmap pretty.
From S2P Require Import Prelude RustStr RustOrd Truncate ResponseItem WorldState.
Open Scope list_scope.

Inductive ParsedCommand :=
  | PcRead (cmd name path : str)
  | PcListFiles (cmd : str) (path : option str)
  | PcSearch (cmd : str) (query path : option str)
  | PcUnknown (cmd : str).

(** Types whose values are carried along unread ([PathUri], [ReasoningEffort],
    [MisalignmentErrorDetails], [McpAppUi], [ModelInvocationContext] and parts
    of rollout lines), the null of
    [serde_json], the URIs of executors, and the reading of commands by the
    packages [codex-secrets], [codex-shell-command], [shlex] and [quick_xml]. *)
Class ThreadPayloads `{IP : ItemPayloads} := {
  PathUri : Type;
  ReasoningEffort : Type;
  MisalignmentErrorDetails : Type;
  McpAppUi : Type;
  ModelInvocationContext : Type;
  (** What a turn context, a compaction and the remaining rollout lines carry
      besides the fields below. *)
  TurnContextRest : Type;
  CompactedRest : Type;
  RolloutRest : Type;
  json_null : Value;
  (** [PathUri::join], its [LegacyAppPathString], [AbsolutePathBuf::join]. *)
  uri_join : PathUri → str → option PathUri;
  uri_app_path : PathUri → str;
  abs_join : str → str → str;
  redact_secrets : str → str;
  shlex_try_join : list str → option str;
  parse_command : list str → list ParsedCommand;
  (** [from_xml_str::<HookPromptXml>]: the run id and the text. *)
  from_xml_str : str → option (str * str);
}.

Section Items.
Context `{TP : ThreadPayloads}.

(** ** Machine integers *)

Definition I64_MAX : Z := 2 ^ 63 - 1.

(** A [Duration] is its whole milliseconds, [as_millis]. *)
Definition Duration := N.
(** [i64::try_from(duration.as_millis()).ok()]. *)
Definition millis_i64 (d : Duration) : option Z :=
  if bool_decide (Z.of_N d ≤ I64_MAX)%Z then Some (Z.of_N d) else None.

(** ** The types of the items *)

Inductive TurnStatus := TsCompleted | TsInterrupted | TsFailed | TsInProgress.

Inductive NonSteerableTurnKind := NsReview | NsCompact.
Inductive CodexErrorInfo :=
  | ContextWindowExceeded | SessionBudgetExceeded | UsageLimitExceeded | RateLimitExceeded
  | ServerOverloaded | CyberPolicy | MisalignmentPolicyViolation
  | HttpConnectionFailed (http_status_code : option N)
  | ResponseStreamConnectionFailed (http_status_code : option N)
  | InternalServerError | Unauthorized | BadRequest | SandboxError
  | ResponseStreamDisconnected (http_status_code : option N)
  | ResponseTooManyFailedAttempts (http_status_code : option N)
  | ActiveTurnNotSteerable (turn_kind : NonSteerableTurnKind)
  | ThreadRollbackFailed | OtherError.

Definition info_affects_turn_status (i : CodexErrorInfo) : bool :=
  match i with
  | ThreadRollbackFailed | ActiveTurnNotSteerable _ => false
  | _ => true
  end.

Record TurnError := {
  te_message : str;
  te_codex_error_info : option CodexErrorInfo;
  te_additional_details : option str;
  te_misalignment : option MisalignmentErrorDetails;
}.

Record TextElement := { byte_range : N * N; placeholder : option str }.
Inductive UserInput :=
  | UiText (text : str) (text_elements : list TextElement)
  | UiImage (image : ImageReference) (detail : option ImageDetail)
  | UiLocalImage (detail : option ImageDetail) (path : str)
  | UiAudio (url : str)
  | UiLocalAudio (path : str)
  | UiSkill (name path : str)
  | UiMention (name path : str).

Record HookPromptFragment := { hook_text : str; hook_run_id : str }.
Record MemoryCitationEntry := { cite_path : str; line_start : N; line_end : N; cite_note : str }.
Record MemoryCitation := { cite_entries : list MemoryCitationEntry; cite_thread_ids : list str }.
Inductive AgentMessageDelivery := Async.
Record AsyncUserInputQuestion := { question_title : str; question_options : option (list str) }.

Inductive CommandExecutionStatus := CesInProgress | CesCompleted | CesFailed | CesDeclined.
Inductive CommandExecutionSource := CsAgent | CsUserShell | CsUnifiedExecStartup | CsUnifiedExecInteraction.
Inductive CommandAction :=
  | CaRead (command name path : str)
  | CaListFiles (command : str) (path : option str)
  | CaSearch (command : str) (query path : option str)
  | CaUnknown (command : str).

Inductive PatchApplyStatus := PsInProgress | PsCompleted | PsFailed | PsDeclined.
Inductive PatchChangeKind := PkAdd | PkDelete | PkUpdate (move_path : option str).
Record FileUpdateChange := { fuc_path : str; fuc_kind : PatchChangeKind; fuc_diff : str }.
Inductive FileChange :=
  | FcAdd (content : str)
  | FcDelete (content : str)
  | FcUpdate (unified_diff : str) (move_path : option str).

Inductive McpToolCallStatus := MsInProgress | MsCompleted | MsFailed.
Record McpToolCallAppContext := {
  connector_id : str;
  link_id : option str;
  resource_uri : option str;
  app_name : option str;
  action_name : option str;
}.
Record McpToolCallResult := {
  mcp_content : list Value;
  structured_content : option Value;
  mcp_meta : option Value;
}.
Record McpToolCallError := { mcp_message : str }.

Inductive DynamicToolCallStatus := DsInProgress | DsCompleted | DsFailed.
Inductive DynamicToolCallOutputContentItem :=
  | DoInputText (text : str)
  | DoInputImage (image_url : str)
  | DoInputAudio (audio_url : str).

Inductive CollabAgentTool :=
  | SpawnAgent | SendInput | ResumeAgent | Wait | CloseAgent | SendMessage | FollowupTask
  | InterruptAgent | ListAgents.
Inductive CollabAgentToolCallStatus := CtInProgress | CtCompleted | CtFailed | CtInterrupted.
Inductive CollabAgentStatus :=
  | CasPendingInit | CasRunning | CasInterrupted | CasCompleted | CasErrored | CasShutdown | CasNotFound.
Record CollabAgentState := { cas_status : CollabAgentStatus; cas_message : option str }.
Inductive SubAgentActivityKind := SaStarted | SaInteracted | SaInterrupted | SaCompleted.

Record SearchItem := {
  search_id : str;
  search_query : str;
  search_action : option WebSearchAction;
  search_results : option (list Value);
}.
Record SleepItem := { sleep_id : str; sleep_ms : N }.
(** [ImageGenerationFailure::UsageLimitExceeded], the only failure. *)
Record ImageGenerationFailure := { limit_id : str; resets_at : option Z }.
Record ImageGenerationItem := {
  image_id : str;
  image_status : str;
  revised_prompt : option str;
  image_result : str;
  transparent_background : option bool;
  image_failure : option ImageGenerationFailure;
  saved_path : option str;
  imagegen_request_id : option str;
  generation_id : option str;
}.

(** ** Thread items *)

Inductive ThreadItem :=
  | TiUserMessage (id : str) (client_id : option str) (content : list UserInput)
  | TiHookPrompt (id : str) (fragments : list HookPromptFragment)
  | TiAgentMessage (id text : str) (phase : option MessagePhase) (memory_citation : option MemoryCitation)
      (delivery : option AgentMessageDelivery) (questions : option (list AsyncUserInputQuestion))
  | TiFunctionCallOutput (id name : str) (namespace : option str)
      (output : FunctionCallOutputBody (Img:=ImageReference * option ImageDetail))
  | TiPlan (id text : str)
  | TiReasoning (id : str) (summary content : list str)
  | TiCommandExecution (model_context : option ModelInvocationContext) (id : str)
      (plugin_id script_path : option str) (command cwd : str) (process_id : option str)
      (source : CommandExecutionSource) (status : CommandExecutionStatus)
      (command_actions : list CommandAction) (aggregated_output : option str)
      (exit_code duration_ms : option Z)
  | TiFileChange (id : str) (changes : list FileUpdateChange) (status : PatchApplyStatus)
  | TiMcpToolCall (id server tool : str) (status : McpToolCallStatus) (arguments : Value)
      (app_context : option McpToolCallAppContext) (mcp_app_resource_uri : option str)
      (mcp_app_ui : option McpAppUi) (plugin_id : option str) (read_only_hint : option bool)
      (result : option McpToolCallResult) (error : option McpToolCallError) (duration_ms : option Z)
  | TiDynamicToolCall (id : str) (namespace : option str) (tool : str) (arguments : Value)
      (status : DynamicToolCallStatus) (content_items : option (list DynamicToolCallOutputContentItem))
      (success : option bool) (duration_ms : option Z)
  | TiCollabAgentToolCall (id : str) (tool : CollabAgentTool) (status : CollabAgentToolCallStatus)
      (sender_thread_id : str) (receiver_thread_ids : list str) (prompt model : option str)
      (reasoning_effort : option ReasoningEffort) (agents_states : gmap str CollabAgentState)
  | TiSubAgentActivity (id : str) (kind : SubAgentActivityKind) (agent_thread_id agent_path : str)
  | TiWebSearch (search : SearchItem)
  | TiImageView (id path : str)
  | TiSleep (sleep : SleepItem)
  | TiImageGeneration (image : ImageGenerationItem)
  | TiEnteredReviewMode (id review : str)
  | TiExitedReviewMode (id review : str)
  | TiContextCompaction (id : str).

(** [ThreadItem::id]. *)
Definition item_id (i : ThreadItem) : str :=
  match i with
  | TiUserMessage id _ _ | TiHookPrompt id _ | TiAgentMessage id _ _ _ _ _
  | TiFunctionCallOutput id _ _ _ | TiPlan id _ | TiReasoning id _ _
  | TiCommandExecution _ id _ _ _ _ _ _ _ _ _ _ _ | TiFileChange id _ _
  | TiMcpToolCall id _ _ _ _ _ _ _ _ _ _ _ _ | TiDynamicToolCall id _ _ _ _ _ _ _
  | TiCollabAgentToolCall id _ _ _ _ _ _ _ _ | TiSubAgentActivity id _ _ _ | TiImageView id _
  | TiEnteredReviewMode id _ | TiExitedReviewMode id _ | TiContextCompaction id => id
  | TiWebSearch s => search_id s
  | TiSleep s => sleep_id s
  | TiImageGeneration s => image_id s
  end.

Inductive TurnItemsView := NotLoaded | Summary | Full.
Record Turn := {
  turn_id : str;
  turn_items : list ThreadItem;
  turn_items_view : TurnItemsView;
  turn_status : TurnStatus;
  turn_error : option TurnError;
  turn_started_at : option Z;
  turn_completed_at : option Z;
  turn_duration_ms : option Z;
}.

(** ** Events

    An event of an end repeats the fields of the event of the beginning; the
    record of the end holds that one. *)

Inductive UserMessageImageKind := KindInline | KindFile.
Record UserMessageEvent := {
  um_client_id : option str;
  um_message : str;
  um_images : option (list str);
  um_image_details : list (option ImageDetail);
  um_file_ids : option (list str);
  um_file_id_details : list (option ImageDetail);
  um_image_order : list UserMessageImageKind;
  um_local_images : list str;
  um_local_image_details : list (option ImageDetail);
  um_audio : option (list str);
  um_local_audio : list str;
  um_text_elements : list TextElement;
}.

Definition is_inline (k : UserMessageImageKind) : bool := match k with KindInline => true | KindFile => false end.

Definition has_complete_image_order (p : UserMessageEvent) : bool :=
  if bool_decide (um_image_order p = []) then false
  else
    let inline_count := length (List.filter is_inline (um_image_order p)) in
    let file_count := length (List.filter (λ k, negb (is_inline k)) (um_image_order p)) in
    bool_decide (inline_count = from_option length 0 (um_images p))
    && bool_decide (file_count = from_option length 0 (um_file_ids p)).

Record AgentMessageEvent := {
  am_message : str;
  am_phase : option MessagePhase;
  am_memory_citation : option MemoryCitation;
  am_delivery : option AgentMessageDelivery;
  am_questions : option (list AsyncUserInputQuestion);
}.

Record WebSearchEndEvent := {
  ws_call_id : str;
  ws_query : str;
  ws_action : WebSearchAction;
  ws_results : option (list Value);
}.

Inductive ExecCommandStatus := EsCompleted | EsFailed | EsDeclined.
Record ExecCommandBeginEvent := {
  eb_call_id : str;
  eb_plugin_id : option str;
  eb_script_path : option str;
  eb_process_id : option str;
  eb_turn_id : str;
  eb_command : list str;
  eb_cwd : PathUri;
  eb_parsed_cmd : list ParsedCommand;
  eb_source : CommandExecutionSource;
}.
Record ExecCommandEndEvent := {
  ee_begin : ExecCommandBeginEvent;
  ee_aggregated_output : str;
  ee_exit_code : Z;
  ee_duration : Duration;
  ee_status : ExecCommandStatus;
}.

Inductive GuardianAssessmentStatus := GsInProgress | GsApproved | GsDenied | GsTimedOut | GsAborted.
Inductive GuardianAssessmentAction :=
  | GaCommand (command cwd : str)
  | GaExecve (program : str) (argv : list str) (cwd : str)
  | GaWriteStdin | GaApplyPatch | GaNetworkAccess | GaMcpToolCall | GaRequestPermissions.
Record GuardianAssessmentEvent := {
  ga_model_context : option ModelInvocationContext;
  ga_target_item_id : option str;
  ga_plugin_id : option str;
  ga_script_path : option str;
  ga_turn_id : str;
  ga_status : GuardianAssessmentStatus;
  ga_action : GuardianAssessmentAction;
}.

(** [ApplyPatchApprovalRequestEvent] and [PatchApplyBeginEvent], of which the
    same three fields are read. *)
Record PatchEvent := { pe_call_id : str; pe_turn_id : str; pe_changes : gmap str FileChange }.
Inductive CorePatchApplyStatus := CpCompleted | CpFailed | CpDeclined.
Record PatchApplyEndEvent := { pa_patch : PatchEvent; pa_status : CorePatchApplyStatus }.

Record DynamicToolCallRequest := {
  dr_call_id : str;
  dr_turn_id : str;
  dr_namespace : option str;
  dr_tool : str;
  dr_arguments : Value;
}.
Record DynamicToolCallResponseEvent := {
  dp_request : DynamicToolCallRequest;
  dp_content_items : list DynamicToolCallOutputContentItem;
  dp_success : bool;
  dp_duration : Duration;
}.

Record CallToolResult := {
  ct_content : list Value;
  ct_structured_content : option Value;
  ct_is_error : option bool;
  ct_meta : option Value;
}.
Record McpToolCallBeginEvent := {
  mb_call_id : str;
  mb_turn_id : str;
  mb_server : str;
  mb_tool : str;
  mb_arguments : option Value;
  mb_connector_id : option str;
  mb_mcp_app_resource_uri : option str;
  mb_mcp_app_ui : option McpAppUi;
  mb_link_id : option str;
  mb_app_name : option str;
  mb_action_name : option str;
  mb_plugin_id : option str;
  mb_read_only_hint : option bool;
}.
Record McpToolCallEndEvent := {
  me_begin : McpToolCallBeginEvent;
  me_duration : Duration;
  me_result : str + CallToolResult;
}.

(** [McpToolCallEndEvent::is_success]. *)
Definition is_success (e : McpToolCallEndEvent) : bool :=
  match me_result e with
  | inr result => negb (default false (ct_is_error result))
  | inl _ => false
  end.

Record ViewImageToolCallEvent := { vi_call_id : str; vi_path : PathUri }.
Record ImageGenerationEndEvent := {
  ig_call_id : str;
  ig_status : str;
  ig_revised_prompt : option str;
  ig_result : str;
  ig_transparent_background : option bool;
  ig_failure : option ImageGenerationFailure;
  ig_saved_path : option str;
}.

Inductive AgentStatus :=
  | AsPendingInit | AsRunning | AsInterrupted | AsCompleted (message : option str)
  | AsErrored (message : str) | AsShutdown | AsNotFound.

Record CollabAgentSpawnBeginEvent := {
  sb_call_id : str;
  sb_sender_thread_id : str;
  sb_prompt : str;
  sb_model : str;
  sb_reasoning_effort : ReasoningEffort;
}.
Record CollabAgentSpawnEndEvent := {
  se_begin : CollabAgentSpawnBeginEvent;
  se_new_thread_id : option str;
  se_status : AgentStatus;
}.
Record CollabAgentInteractionBeginEvent := {
  ib_call_id : str;
  ib_sender_thread_id : str;
  ib_receiver_thread_id : str;
  ib_prompt : str;
}.
Record CollabAgentInteractionEndEvent := { ie_begin : CollabAgentInteractionBeginEvent; ie_status : AgentStatus }.
Record SubAgentActivityEvent := {
  sa_event_id : str;
  sa_agent_thread_id : str;
  sa_agent_path : str;
  sa_kind : SubAgentActivityKind;
}.
Record CollabWaitingBeginEvent := {
  wb_call_id : str;
  wb_sender_thread_id : str;
  wb_receiver_thread_ids : list str;
}.
Record CollabWaitingEndEvent := {
  we_call_id : str;
  we_sender_thread_id : str;
  we_statuses : gmap str AgentStatus;
}.
(** The events of closing and of resuming an agent. *)
Record CollabAgentBeginEvent := {
  cb_call_id : str;
  cb_sender_thread_id : str;
  cb_receiver_thread_id : str;
}.
Record CollabAgentEndEvent := { ce_begin : CollabAgentBeginEvent; ce_status : AgentStatus }.

Record ReviewFinding := {
  finding_title : str;
  finding_body : str;
  finding_file : str;
  finding_start : N;
  finding_end : N;
}.
Record ReviewOutputEvent := { findings : list ReviewFinding; overall_explanation : str }.
Record EnteredReviewModeEvent := {
  er_user_facing_hint : option str;
  er_turn_id : option str;
  er_item_id : option str;
}.
Record ExitedReviewModeEvent := {
  xr_turn_id : option str;
  xr_item_id : option str;
  xr_review_output : option ReviewOutputEvent;
}.

Record ErrorEvent := {
  err_message : str;
  err_codex_error_info : option CodexErrorInfo;
  err_misalignment : option MisalignmentErrorDetails;
}.

(** [ErrorEvent::affects_turn_status]. *)
Definition affects_turn_status (e : ErrorEvent) : bool :=
  from_option info_affects_turn_status true (err_codex_error_info e).

Record TurnAbortedEvent := {
  ta_turn_id : option str;
  ta_completed_at : option Z;
  ta_duration_ms : option Z;
}.
Record TurnStartedEvent := {
  ts_turn_id : str;
  ts_root_turn_id : option str;
  ts_started_at : option Z;
}.
Record TurnCompleteEvent := {
  tc_turn_id : str;
  tc_error : option ErrorEvent;
  tc_completed_at : option Z;
  tc_duration_ms : option Z;
}.

(** ** Turn items of the core protocol *)

Record CommandExecutionItem := {
  ce_model_context : option ModelInvocationContext;
  ce_id : str;
  ce_plugin_id : option str;
  ce_script_path : option str;
  ce_process_id : option str;
  ce_command : list str;
  ce_cwd : PathUri;
  ce_parsed_cmd : list ParsedCommand;
  ce_source : CommandExecutionSource;
  ce_exec_status : CommandExecutionStatus;
  ce_aggregated_output : option str;
  ce_exit_code : option Z;
  ce_duration : option Duration;
}.
Record McpToolCallItem := {
  mi_id : str;
  mi_server : str;
  mi_tool : str;
  mi_arguments : Value;
  mi_connector_id : option str;
  mi_mcp_app_resource_uri : option str;
  mi_mcp_app_ui : option McpAppUi;
  mi_link_id : option str;
  mi_app_name : option str;
  mi_action_name : option str;
  mi_plugin_id : option str;
  mi_read_only_hint : option bool;
  mi_status : McpToolCallStatus;
  mi_result : option CallToolResult;
  mi_error : option McpToolCallError;
  mi_duration : option Duration;
}.
Inductive ExtensionItem :=
  | ExImageGeneration (image : ImageGenerationItem)
  | ExSleep (sleep : SleepItem)
  | ExWebSearch (search : SearchItem).

(** [AgentMessageContent] has the one constructor [Text]; the contents are texts. *)
Inductive TurnItem :=
  | CoUserMessage (id : str) (client_id : option str) (content : list UserInput)
  | CoFunctionCallOutput (id name : str) (namespace : option str)
      (output : FunctionCallOutputBody (Img:=ImageReference * option ImageDetail))
  | CoHookPrompt (id : str) (fragments : list HookPromptFragment)
  | CoAgentMessage (id : str) (content : list str) (phase : option MessagePhase)
      (memory_citation : option MemoryCitation) (delivery : option AgentMessageDelivery)
      (questions : option (list AsyncUserInputQuestion))
  | CoPlan (id text : str)
  | CoReasoning (id : str) (summary_text raw_content : list str)
  | CoCommandExecution (command : CommandExecutionItem)
  | CoDynamicToolCall (id : str) (namespace : option str) (tool : str) (arguments : Value)
      (status : DynamicToolCallStatus) (content_items : option (list DynamicToolCallOutputContentItem))
      (success : option bool) (duration : option Duration)
  | CoCollabAgentToolCall (id : str) (tool : CollabAgentTool) (status : CollabAgentToolCallStatus)
      (sender_thread_id : str) (receiver_thread_ids : list str) (prompt model : option str)
      (reasoning_effort : option ReasoningEffort) (agents_states : gmap str AgentStatus)
  | CoSubAgentActivity (id : str) (kind : SubAgentActivityKind) (agent_thread_id agent_path : str)
  | CoWebSearch (id query : str) (action : WebSearchAction) (results : option (list Value))
  | CoImageView (id : str) (path : PathUri)
  | CoExtension (extension : ExtensionItem)
  | CoImageGeneration (id status : str) (revised : option str) (result : str) (saved : option str)
  | CoEnteredReviewMode (id user_facing_hint : str)
  | CoExitedReviewMode (id : str) (review_output : option ReviewOutputEvent)
  | CoFileChange (id : str) (changes : gmap str FileChange) (status : option CorePatchApplyStatus)
  | CoMcpToolCall (mcp : McpToolCallItem)
  | CoContextCompaction (id : str).

(** ** Events and rollout lines *)

(** [EventMsg], with [EvOther] for the events no component here reacts to. *)
Inductive EventMsg :=
  | EvUserMessage (p : UserMessageEvent)
  | EvAgentMessage (p : AgentMessageEvent)
  | EvAgentReasoning (text : str)
  | EvAgentReasoningRawContent (text : str)
  | EvWebSearchBegin (call_id : str)
  | EvWebSearchEnd (p : WebSearchEndEvent)
  | EvExecCommandBegin (p : ExecCommandBeginEvent)
  | EvExecCommandEnd (p : ExecCommandEndEvent)
  | EvGuardianAssessment (p : GuardianAssessmentEvent)
  | EvApplyPatchApprovalRequest (p : PatchEvent)
  | EvPatchApplyBegin (p : PatchEvent)
  | EvPatchApplyEnd (p : PatchApplyEndEvent)
  | EvDynamicToolCallRequest (p : DynamicToolCallRequest)
  | EvDynamicToolCallResponse (p : DynamicToolCallResponseEvent)
  | EvMcpToolCallBegin (p : McpToolCallBeginEvent)
  | EvMcpToolCallEnd (p : McpToolCallEndEvent)
  | EvViewImageToolCall (p : ViewImageToolCallEvent)
  | EvImageGenerationBegin (call_id : str)
  | EvImageGenerationEnd (p : ImageGenerationEndEvent)
  | EvCollabAgentSpawnBegin (p : CollabAgentSpawnBeginEvent)
  | EvCollabAgentSpawnEnd (p : CollabAgentSpawnEndEvent)
  | EvCollabAgentInteractionBegin (p : CollabAgentInteractionBeginEvent)
  | EvCollabAgentInteractionEnd (p : CollabAgentInteractionEndEvent)
  | EvSubAgentActivity (p : SubAgentActivityEvent)
  | EvCollabWaitingBegin (p : CollabWaitingBeginEvent)
  | EvCollabWaitingEnd (p : CollabWaitingEndEvent)
  | EvCollabCloseBegin (p : CollabAgentBeginEvent)
  | EvCollabCloseEnd (p : CollabAgentEndEvent)
  | EvCollabResumeBegin (p : CollabAgentBeginEvent)
  | EvCollabResumeEnd (p : CollabAgentEndEvent)
  | EvContextCompacted
  | EvEnteredReviewMode (p : EnteredReviewModeEvent)
  | EvExitedReviewMode (p : ExitedReviewModeEvent)
  | EvItemStarted (turn_id : str) (item : TurnItem)
  | EvItemCompleted (turn_id : str) (item : TurnItem)
  | EvError (p : ErrorEvent)
  | EvThreadRolledBack (num_turns : N)
  | EvTurnAborted (p : TurnAbortedEvent)
  | EvTurnStarted (p : TurnStartedEvent)
  | EvTurnComplete (p : TurnCompleteEvent)
  | EvOther.

Record InterAgentCommunication := {
  iac_id : option ResponseItemId;
  iac_author : str;
  iac_recipient : str;
  iac_other_recipients : list str;
  iac_content : str;
  iac_encrypted_content : option str;
  iac_meta : option InternalChatMessageMetadataPassthrough;
  iac_trigger_turn : bool;
}.

Record CompactedItem := {
  cp_message : str;
  cp_replacement_history : option (list ResponseItemEnvelope);
  cp_window_number : option N;
  cp_first_window_id : option str;
  cp_previous_window_id : option str;
  cp_window_id : option str;
  cp_rest : CompactedRest;
}.

Record TurnContextItem := {
  ctx_turn_id : option str;
  ctx_model : str;
  ctx_comp_hash : option str;
  ctx_realtime_active : option bool;
  ctx_rest : TurnContextRest;
}.

Record WorldStateItem := { ws_full : bool; ws_state : gmap str (Json Number) }.

(** [RolloutItem]; [RiOther] stands for the token usage records, risk scores,
    retained contexts and realtime items, and [RiSessionMeta] holds the window id
    of the session's context window. *)
Inductive RolloutItem :=
  | RiSessionMeta (window_id : option str)
  | RiResponseItem (item : ResponseItemEnvelope)
  | RiInterAgentCommunication (c : InterAgentCommunication)
  | RiInterAgentCommunicationMetadata (trigger_turn : bool)
  | RiCompacted (c : CompactedItem)
  | RiTurnContext (ctx : TurnContextItem)
  | RiWorldState (w : WorldStateItem)
  | RiEventMsg (e : EventMsg)
  | RiOther (r : RolloutRest).

(** ** Conversions *)

(** [From<&CoreExecCommandStatus> for CommandExecutionStatus]. *)
Definition exec_status_from (s : ExecCommandStatus) : CommandExecutionStatus :=
  match s with EsCompleted => CesCompleted | EsFailed => CesFailed | EsDeclined => CesDeclined end.
(** [From<&CorePatchApplyStatus> for PatchApplyStatus]. *)
Definition patch_status_from (s : CorePatchApplyStatus) : PatchApplyStatus :=
  match s with CpCompleted => PsCompleted | CpFailed => PsFailed | CpDeclined => PsDeclined end.
(** [From<CoreAgentStatus> for CollabAgentState]. *)
Definition agent_state_from (s : AgentStatus) : CollabAgentState :=
  match s with
  | AsPendingInit => {| cas_status := CasPendingInit; cas_message := None |}
  | AsRunning => {| cas_status := CasRunning; cas_message := None |}
  | AsInterrupted => {| cas_status := CasInterrupted; cas_message := None |}
  | AsCompleted message => {| cas_status := CasCompleted; cas_message := message |}
  | AsErrored message => {| cas_status := CasErrored; cas_message := Some message |}
  | AsShutdown => {| cas_status := CasShutdown; cas_message := None |}
  | AsNotFound => {| cas_status := CasNotFound; cas_message := None |}
  end.
(** [From<CoreMcpCallToolResult> for McpToolCallResult]. *)
Definition mcp_result_from (r : CallToolResult) : McpToolCallResult :=
  {| mcp_content := ct_content r; structured_content := ct_structured_content r; mcp_meta := ct_meta r |}.
(** The [TurnError] of an [ErrorEvent]. *)
Definition turn_error_from (e : ErrorEvent) : TurnError :=
  {| te_message := err_message e; te_codex_error_info := err_codex_error_info e;
     te_additional_details := None; te_misalignment := err_misalignment e |}.

(** *** Files *)

Definition map_patch_change_kind (c : FileChange) : PatchChangeKind :=
  match c with
  | FcAdd _ => PkAdd
  | FcDelete _ => PkDelete
  | FcUpdate _ move_path => PkUpdate move_path
  end.

Definition format_file_change_diff (c : FileChange) : str :=
  match c with
  | FcAdd content => content
  | FcDelete content => content
  | FcUpdate unified_diff (Some path) => unified_diff ++ [c_lf; c_lf] ++ lit "Moved to: " ++ path
  | FcUpdate unified_diff None => unified_diff
  end.

Definition convert_patch_changes (changes : gmap str FileChange) : list FileUpdateChange :=
  sort_by_key fuc_path
    (map (λ '(path, change), {| fuc_path := path; fuc_kind := map_patch_change_kind change;
                                fuc_diff := format_file_change_diff change |}) (map_to_list changes)).

(** *** Commands *)

Definition shlex_join (tokens : list str) : str :=
  default (lit "<command included NUL byte>") (shlex_try_join tokens).

Definition command_actions_for_path_uri (parsed_cmd : list ParsedCommand) (cwd : PathUri) : list CommandAction :=
  omap (λ parsed,
    match parsed with
    | PcRead cmd name path =>
        match uri_join cwd path with
        | Some path => Some (CaRead (redact_secrets cmd) name (uri_app_path path))
        | None => None
        end
    | PcListFiles cmd path => Some (CaListFiles (redact_secrets cmd) path)
    | PcSearch cmd query path => Some (CaSearch (redact_secrets cmd) (redact_secrets <$> query) path)
    | PcUnknown cmd => Some (CaUnknown (redact_secrets cmd))
    end) parsed_cmd.

Record CommandExecutionPresentation := { pr_command : str; pr_command_actions : list CommandAction }.

(** [CommandExecutionPresentation::from_raw]. *)
Definition presentation_from_raw (command : list str) (parsed_cmd : list ParsedCommand) (cwd : PathUri)
    : CommandExecutionPresentation :=
  {| pr_command := redact_secrets (shlex_join command);
     pr_command_actions := command_actions_for_path_uri parsed_cmd cwd |}.

(** [CommandAction::from_core_with_cwd]. *)
Definition from_core_with_cwd (value : ParsedCommand) (cwd : str) : CommandAction :=
  match value with
  | PcRead cmd name path => CaRead cmd name (abs_join cwd path)
  | PcListFiles cmd path => CaListFiles cmd path
  | PcSearch cmd query path => CaSearch cmd query path
  | PcUnknown cmd => CaUnknown cmd
  end.

(** *** Reviews *)

(** The em dash. *)
Definition c_emdash : char := 8212%N.

Definition format_location (f : ReviewFinding) : str :=
  finding_file f ++ [c_colon] ++ lit (pretty (finding_start f)) ++ [c_minus] ++ lit (pretty (finding_end f)).

(** [format_review_findings_block]; [selection] are the checked items. *)
Definition format_review_findings_block (fs : list ReviewFinding) (selection : option (list bool)) : str :=
  let header := [[]; if bool_decide (1 < length fs) then lit "Full review comments:" else lit "Review comment:"] in
  let block (idx : nat) (f : ReviewFinding) :=
    let marker := match selection with
                  | Some flags => if default true (flags !! idx) then lit "[x] " else lit "[ ] "
                  | None => []
                  end in
    [[]; lit "- " ++ marker ++ finding_title f ++ [c_sp; c_emdash; c_sp] ++ format_location f]
    ++ map (λ l, lit "  " ++ l) (str_lines (finding_body f)) in
  join [c_lf] (header ++ concat (imap block fs)).

Definition REVIEW_FALLBACK_MESSAGE : str := lit "Reviewer failed to output a response.".

Definition render_review_output_text (o : ReviewOutputEvent) : str :=
  let explanation := trim (overall_explanation o) in
  let sections :=
    (if bool_decide (explanation = []) then [] else [explanation])
    ++ (if bool_decide (findings o = []) then []
        else let trimmed := trim (format_review_findings_block (findings o) None) in
             if bool_decide (trimmed = []) then [] else [trimmed]) in
  if bool_decide (sections = []) then REVIEW_FALLBACK_MESSAGE else join [c_lf; c_lf] sections.

Definition review_output_text (output : option ReviewOutputEvent) : str :=
  from_option render_review_output_text REVIEW_FALLBACK_MESSAGE output.

(** ** The builders of [item_builders.rs] *)

Definition build_file_change_approval_request_item (p : PatchEvent) : ThreadItem :=
  TiFileChange (pe_call_id p) (convert_patch_changes (pe_changes p)) PsInProgress.
Definition build_file_change_begin_item (p : PatchEvent) : ThreadItem :=
  TiFileChange (pe_call_id p) (convert_patch_changes (pe_changes p)) PsInProgress.
Definition build_file_change_end_item (p : PatchApplyEndEvent) : ThreadItem :=
  TiFileChange (pe_call_id (pa_patch p)) (convert_patch_changes (pe_changes (pa_patch p)))
    (patch_status_from (pa_status p)).

Definition build_command_execution_begin_item (p : ExecCommandBeginEvent) : ThreadItem :=
  let presentation := presentation_from_raw (eb_command p) (eb_parsed_cmd p) (eb_cwd p) in
  TiCommandExecution None (eb_call_id p) (eb_plugin_id p) (eb_script_path p) (pr_command presentation)
    (uri_app_path (eb_cwd p)) (eb_process_id p) (eb_source p) CesInProgress
    (pr_command_actions presentation) None None None.

Definition build_command_execution_end_item (e : ExecCommandEndEvent) : ThreadItem :=
  let p := ee_begin e in
  let aggregated_output :=
    if bool_decide (ee_aggregated_output e = []) then None else Some (ee_aggregated_output e) in
  let duration_ms := default I64_MAX (millis_i64 (ee_duration e)) in
  let presentation := presentation_from_raw (eb_command p) (eb_parsed_cmd p) (eb_cwd p) in
  TiCommandExecution None (eb_call_id p) (eb_plugin_id p) (eb_script_path p) (pr_command presentation)
    (uri_app_path (eb_cwd p)) (eb_process_id p) (eb_source p) (exec_status_from (ee_status e))
    (pr_command_actions presentation) aggregated_output (Some (ee_exit_code e)) (Some duration_ms).

Definition build_item_from_guardian_event (a : GuardianAssessmentEvent) (status : CommandExecutionStatus)
    : option ThreadItem :=
  match ga_action a with
  | GaCommand command cwd =>
      id ← ga_target_item_id a;
      let command_actions := [CaUnknown command] in
      Some (TiCommandExecution (ga_model_context a) id (ga_plugin_id a) (ga_script_path a) command cwd None
              CsAgent status command_actions None None None)
  | GaExecve program argv cwd =>
      id ← ga_target_item_id a;
      let argv := if bool_decide (argv = []) then [program] else program :: drop 1 argv in
      let command := shlex_join argv in
      let parsed_cmd := parse_command argv in
      let command_actions :=
        match parsed_cmd with
        | [] => [CaUnknown command]
        | _ => map (λ parsed, from_core_with_cwd parsed cwd) parsed_cmd
        end in
      Some (TiCommandExecution (ga_model_context a) id (ga_plugin_id a) (ga_script_path a) command cwd None
              CsAgent status command_actions None None None)
  | GaWriteStdin | GaApplyPatch | GaNetworkAccess | GaMcpToolCall | GaRequestPermissions => None
  end.

(** ** [From<CoreTurnItem> for ThreadItem] *)

Definition thread_item_from (value : TurnItem) : ThreadItem :=
  match value with
  | CoUserMessage id client_id content => TiUserMessage id client_id content
  | CoHookPrompt id fragments => TiHookPrompt id fragments
  | CoAgentMessage id content phase citation delivery questions =>
      TiAgentMessage id (concat content) phase citation delivery questions
  | CoFunctionCallOutput id name namespace output => TiFunctionCallOutput id name namespace output
  | CoPlan id text => TiPlan id text
  | CoReasoning id summary_text raw_content => TiReasoning id summary_text raw_content
  | CoCommandExecution c =>
      let presentation := presentation_from_raw (ce_command c) (ce_parsed_cmd c) (ce_cwd c) in
      TiCommandExecution (ce_model_context c) (ce_id c) (ce_plugin_id c) (ce_script_path c)
        (pr_command presentation) (uri_app_path (ce_cwd c)) (ce_process_id c) (ce_source c)
        (ce_exec_status c) (pr_command_actions presentation)
        (o ← ce_aggregated_output c; if bool_decide (o = []) then None else Some o)
        (ce_exit_code c) (ce_duration c ≫= millis_i64)
  | CoDynamicToolCall id namespace tool arguments status content_items success duration =>
      TiDynamicToolCall id namespace tool arguments status content_items success (duration ≫= millis_i64)
  | CoCollabAgentToolCall id tool status sender receivers prompt model effort states =>
      TiCollabAgentToolCall id tool status sender receivers prompt model effort (agent_state_from <$> states)
  | CoSubAgentActivity id kind thread path => TiSubAgentActivity id kind thread path
  | CoWebSearch id query action results =>
      TiWebSearch {| search_id := id; search_query := query; search_action := Some action;
                     search_results := results |}
  | CoImageView id path => TiImageView id (uri_app_path path)
  | CoExtension (ExImageGeneration item) => TiImageGeneration item
  | CoExtension (ExSleep item) => TiSleep item
  | CoExtension (ExWebSearch item) => TiWebSearch item
  | CoImageGeneration id status revised result saved =>
      TiImageGeneration
        {| image_id := id; image_status := status; revised_prompt := revised; image_result := result;
           transparent_background := None; image_failure := None; saved_path := saved;
           imagegen_request_id := None; generation_id := None |}
  | CoEnteredReviewMode id user_facing_hint => TiEnteredReviewMode id user_facing_hint
  | CoExitedReviewMode id review_output => TiExitedReviewMode id (review_output_text review_output)
  | CoFileChange id changes status =>
      TiFileChange id (convert_patch_changes changes) (from_option patch_status_from PsInProgress status)
  | CoMcpToolCall m =>
      TiMcpToolCall (mi_id m) (mi_server m) (mi_tool m) (mi_status m) (mi_arguments m)
        ((λ c, {| connector_id := c; link_id := mi_link_id m; resource_uri := mi_mcp_app_resource_uri m;
                  app_name := mi_app_name m; action_name := mi_action_name m |}) <$> mi_connector_id m)
        (mi_mcp_app_resource_uri m) (mi_mcp_app_ui m) (mi_plugin_id m) (mi_read_only_hint m)
        (mcp_result_from <$> mi_result m) (mi_error m) (mi_duration m ≫= millis_i64)
  | CoContextCompaction id => TiContextCompaction id
  end.

(** ** Hook prompts *)

Definition parse_hook_prompt_fragment (text : str) : option HookPromptFragment :=
  '(run_id, body) ← from_xml_str (trim text);
  if bool_decide (trim run_id = []) then None else Some {| hook_text := body; hook_run_id := run_id |}.

(** [parse_hook_prompt_message]; [fresh] is the id of [HookPromptItem::from_fragments]
    for a message without one. *)
Definition parse_hook_prompt_message (fresh : str) (id : option str) (content : list ContentItem)
    : option (str * list HookPromptFragment) :=
  fragments ← mapM (λ c, match c with
                         | CiInputText text => parse_hook_prompt_fragment text
                         | _ => None
                         end) content;
  if bool_decide (length fragments = 0) then None else Some (default fresh id, fragments).

End Items.
