(* ===== verification/ThreadHistory.v ===== *)
(** * The history of a thread

    Models [app-server-protocol/src/protocol/thread_history.rs]: the reducer that
    turns persisted rollout lines, or live events, into the turns of a thread.
    [TurnItemIndex] is the lazily built index of a turn's items,
    [ThreadHistoryChangeSet] the record of what one input changed, and
    [ThreadHistoryChangeAccumulator] the change set of a batch.

    [&mut self] is the builder passed along. An id drawn from [Uuid::now_v7] while
    an input is handled is the argument [fresh]; an input draws at most one. The
    item counter, an [i64] that starts at one and grows by one per generated id,
    is not followed to its overflow. *)

From stdpp Require Import gmap pretty.
From S2P Require Import Prelude RustStr RustOrd Truncate ResponseItem ThreadItem.
Open Scope list_scope.

Section History.
Context `{TP : ThreadPayloads}.

(** ** The index of a turn's items *)

Definition TURN_ITEM_INDEX_THRESHOLD : nat := 32.

Record TurnItemIndex := { positions : option (gmap str nat) }.
Definition index_default : TurnItemIndex := {| positions := None |}.

(** [positions.entry(key).or_insert(value)]. *)
Definition entry_or_insert (m : gmap str nat) (key : str) (value : nat) : gmap str nat :=
  match m !! key with Some _ => m | None => <[key := value]> m end.

(** The loop of [upsert] that builds the index; [i] is the position of the first item. *)
Fixpoint index_items (i : nat) (items : list ThreadItem) (m : gmap str nat) : gmap str nat :=
  match items with
  | [] => m
  | existing :: items' => index_items (S i) items' (entry_or_insert m (item_id existing) i)
  end.

(** [TurnItemIndex::push]. *)
Definition index_push (x : TurnItemIndex) (items : list ThreadItem) (item : ThreadItem)
    : TurnItemIndex * list ThreadItem :=
  ({| positions := (λ m, entry_or_insert m (item_id item) (length items)) <$> positions x |}, items ++ [item]).

(** [iter().position]. *)
Fixpoint position {A} (p : A → bool) (l : list A) : option nat :=
  match l with
  | [] => None
  | a :: l' => if p a then Some 0 else S <$> position p l'
  end.

(** [TurnItemIndex::upsert]. The reference it returns is to the item it was given. *)
Definition index_upsert (x : TurnItemIndex) (items : list ThreadItem) (item : ThreadItem)
    : TurnItemIndex * list ThreadItem :=
  let x := if bool_decide (positions x = None) && (TURN_ITEM_INDEX_THRESHOLD <=? length items)
           then {| positions := Some (index_items 0 items ∅) |} else x in
  let existing_index :=
    match positions x with
    | Some positions => positions !! item_id item
    | None => position (λ existing, bool_decide (item_id existing = item_id item)) items
    end in
  match existing_index with
  | Some index => (x, <[index := item]> items)
  | None => index_push x items item
  end.

(** ** Turns being built *)

Record PendingTurn := {
  pt_id : str;
  pt_root_turn_id : option str;
  pt_items : list ThreadItem;
  pt_item_index : TurnItemIndex;
  pt_error : option TurnError;
  pt_status : TurnStatus;
  pt_started_at : option Z;
  pt_completed_at : option Z;
  pt_duration_ms : option Z;
  pt_opened_explicitly : bool;
  pt_saw_compaction : bool;
  pt_rollout_start_index : nat;
}.

Definition set_pt_items (t : PendingTurn) (xi : TurnItemIndex * list ThreadItem) : PendingTurn :=
  {| pt_id := pt_id t; pt_root_turn_id := pt_root_turn_id t; pt_items := xi.2; pt_item_index := xi.1;
     pt_error := pt_error t; pt_status := pt_status t; pt_started_at := pt_started_at t;
     pt_completed_at := pt_completed_at t; pt_duration_ms := pt_duration_ms t;
     pt_opened_explicitly := pt_opened_explicitly t; pt_saw_compaction := pt_saw_compaction t;
     pt_rollout_start_index := pt_rollout_start_index t |}.

Definition set_pt_saw_compaction (t : PendingTurn) : PendingTurn :=
  {| pt_id := pt_id t; pt_root_turn_id := pt_root_turn_id t; pt_items := pt_items t;
     pt_item_index := pt_item_index t; pt_error := pt_error t; pt_status := pt_status t;
     pt_started_at := pt_started_at t; pt_completed_at := pt_completed_at t;
     pt_duration_ms := pt_duration_ms t; pt_opened_explicitly := pt_opened_explicitly t;
     pt_saw_compaction := true; pt_rollout_start_index := pt_rollout_start_index t |}.

(** The metadata of a turn: its status, error, completion and duration. *)
Definition set_pt_outcome (t : PendingTurn) (status : TurnStatus) (error : option TurnError)
    (completed_at duration_ms : option Z) : PendingTurn :=
  {| pt_id := pt_id t; pt_root_turn_id := pt_root_turn_id t; pt_items := pt_items t;
     pt_item_index := pt_item_index t; pt_error := error; pt_status := status;
     pt_started_at := pt_started_at t; pt_completed_at := completed_at; pt_duration_ms := duration_ms;
     pt_opened_explicitly := pt_opened_explicitly t; pt_saw_compaction := pt_saw_compaction t;
     pt_rollout_start_index := pt_rollout_start_index t |}.

(** [From<PendingTurn> for Turn]. *)
Definition turn_from (t : PendingTurn) : Turn :=
  {| turn_id := pt_id t; turn_items := pt_items t; turn_items_view := Full; turn_status := pt_status t;
     turn_error := pt_error t; turn_started_at := pt_started_at t;
     turn_completed_at := pt_completed_at t; turn_duration_ms := pt_duration_ms t |}.

(** ** Changes *)

Record ThreadHistoryItemChange := {
  ic_turn_id : str;
  ic_item : ThreadItem;
  ic_started_at_ms : option Z;
  ic_completed_at_ms : option Z;
}.
Record ThreadHistoryTurnChange := {
  tc_id : str;
  tc_root_turn_id : option str;
  tc_status : TurnStatus;
  tc_turn_error : option TurnError;
  tc_started_at : option Z;
  tc_turn_completed_at : option Z;
  tc_turn_duration_ms : option Z;
}.
Record ThreadHistoryChangeSet := {
  changed_items : list ThreadHistoryItemChange;
  changed_turns : list ThreadHistoryTurnChange;
  removed_turn_ids : list str;
}.

Definition changes_default : ThreadHistoryChangeSet :=
  {| changed_items := []; changed_turns := []; removed_turn_ids := [] |}.

(** [ThreadHistoryChangeSet::is_empty]. *)
Definition changes_is_empty (c : ThreadHistoryChangeSet) : bool :=
  match changed_items c, changed_turns c, removed_turn_ids c with [], [], [] => true | _, _, _ => false end.

Definition from_pending_turn (t : PendingTurn) : ThreadHistoryTurnChange :=
  {| tc_id := pt_id t; tc_root_turn_id := pt_root_turn_id t; tc_status := pt_status t;
     tc_turn_error := pt_error t; tc_started_at := pt_started_at t;
     tc_turn_completed_at := pt_completed_at t; tc_turn_duration_ms := pt_duration_ms t |}.

(** ** The builder *)

Record ThreadHistoryBuilder := {
  turns : list PendingTurn;
  current_turn : option PendingTurn;
  next_item_index : Z;
  current_rollout_index : nat;
  next_rollout_index : nat;
  active_change_set : option ThreadHistoryChangeSet;
}.

Definition builder_new : ThreadHistoryBuilder :=
  {| turns := []; current_turn := None; next_item_index := 1; current_rollout_index := 0;
     next_rollout_index := 0; active_change_set := None |}.

(** [reset]. *)
Definition builder_reset (b : ThreadHistoryBuilder) : ThreadHistoryBuilder := builder_new.

Definition set_turns (b : ThreadHistoryBuilder) (ts : list PendingTurn) : ThreadHistoryBuilder :=
  {| turns := ts; current_turn := current_turn b; next_item_index := next_item_index b;
     current_rollout_index := current_rollout_index b; next_rollout_index := next_rollout_index b;
     active_change_set := active_change_set b |}.
Definition set_current (b : ThreadHistoryBuilder) (t : option PendingTurn) : ThreadHistoryBuilder :=
  {| turns := turns b; current_turn := t; next_item_index := next_item_index b;
     current_rollout_index := current_rollout_index b; next_rollout_index := next_rollout_index b;
     active_change_set := active_change_set b |}.
Definition set_next_item (b : ThreadHistoryBuilder) (n : Z) : ThreadHistoryBuilder :=
  {| turns := turns b; current_turn := current_turn b; next_item_index := n;
     current_rollout_index := current_rollout_index b; next_rollout_index := next_rollout_index b;
     active_change_set := active_change_set b |}.
Definition set_changes (b : ThreadHistoryBuilder) (c : option ThreadHistoryChangeSet) : ThreadHistoryBuilder :=
  {| turns := turns b; current_turn := current_turn b; next_item_index := next_item_index b;
     current_rollout_index := current_rollout_index b; next_rollout_index := next_rollout_index b;
     active_change_set := c |}.

Definition is_tracking_changes (b : ThreadHistoryBuilder) : bool := bool_decide (is_Some (active_change_set b)).

Definition record_changed_item (id : str) (item : ThreadItem) (b : ThreadHistoryBuilder) : ThreadHistoryBuilder :=
  match active_change_set b with
  | Some c =>
      set_changes b (Some
        {| changed_items := changed_items c ++ [{| ic_turn_id := id; ic_item := item;
                                                   ic_started_at_ms := None; ic_completed_at_ms := None |}];
           changed_turns := changed_turns c; removed_turn_ids := removed_turn_ids c |})
  | None => b
  end.

Definition record_changed_turn (t : ThreadHistoryTurnChange) (b : ThreadHistoryBuilder) : ThreadHistoryBuilder :=
  match active_change_set b with
  | Some c =>
      set_changes b (Some {| changed_items := changed_items c; changed_turns := changed_turns c ++ [t];
                             removed_turn_ids := removed_turn_ids c |})
  | None => b
  end.

Definition record_changed_pending_turn (t : PendingTurn) (b : ThreadHistoryBuilder) : ThreadHistoryBuilder :=
  if is_tracking_changes b then record_changed_turn (from_pending_turn t) b else b.

Definition record_removed_turn_ids (ids : list str) (b : ThreadHistoryBuilder) : ThreadHistoryBuilder :=
  match active_change_set b with
  | Some c =>
      set_changes b (Some {| changed_items := changed_items c; changed_turns := changed_turns c;
                             removed_turn_ids := removed_turn_ids c ++ ids |})
  | None => b
  end.

(** [format!("item-{}", self.next_item_index)], then the increment. *)
Definition next_item_id (b : ThreadHistoryBuilder) : str * ThreadHistoryBuilder :=
  (lit "item-" ++ lit (pretty (next_item_index b)), set_next_item b (next_item_index b + 1)%Z).

Definition finish_current_turn (b : ThreadHistoryBuilder) : ThreadHistoryBuilder :=
  match current_turn b with
  | Some t =>
      let b := set_current b None in
      if bool_decide (length (pt_items t) = 0) && negb (pt_opened_explicitly t) && negb (pt_saw_compaction t)
      then b else set_turns b (turns b ++ [t])
  | None => b
  end.

Definition new_turn (fresh : str) (id : option str) (b : ThreadHistoryBuilder) : PendingTurn :=
  {| pt_id := match id with
              | Some id => id
              | None => if bool_decide (next_rollout_index b = 0) then fresh
                        else lit "rollout-" ++ lit (pretty (current_rollout_index b))
              end;
     pt_root_turn_id := None; pt_items := []; pt_item_index := index_default; pt_error := None;
     pt_status := TsCompleted; pt_started_at := None; pt_completed_at := None; pt_duration_ms := None;
     pt_opened_explicitly := false; pt_saw_compaction := false;
     pt_rollout_start_index := current_rollout_index b |}.

(** [ensure_turn]: the current turn, opened when there is none. *)
Definition ensure_turn (fresh : str) (b : ThreadHistoryBuilder) : PendingTurn * ThreadHistoryBuilder :=
  match current_turn b with
  | Some t => (t, b)
  | None =>
      let t := new_turn fresh None b in
      (t, set_current (record_changed_pending_turn t b) (Some t))
  end.

(** [turns.iter_mut().find(p)] with the update of what it finds: the turn as
    updated, and the list. *)
Fixpoint update_first (p : PendingTurn → bool) (f : PendingTurn → PendingTurn) (l : list PendingTurn)
    : option (PendingTurn * list PendingTurn) :=
  match l with
  | [] => None
  | t :: l' => if p t then Some (f t, f t :: l')
               else (λ '(u, l''), (u, t :: l'')) <$> update_first p f l'
  end.

Definition has_id (id : str) (t : PendingTurn) : bool := bool_decide (pt_id t = id).

(** The change is recorded when changes are tracked. *)
Definition record_item_if (tracking : bool) (id : str) (item : ThreadItem) (b : ThreadHistoryBuilder)
    : ThreadHistoryBuilder :=
  if tracking then record_changed_item id item b else b.

Definition push_item_in_current_turn (fresh : str) (item : ThreadItem) (b : ThreadHistoryBuilder)
    : ThreadHistoryBuilder :=
  let tracking := is_tracking_changes b in
  let '(t, b) := ensure_turn fresh b in
  let t' := set_pt_items t (index_push (pt_item_index t) (pt_items t) item) in
  record_item_if tracking (pt_id t) item (set_current b (Some t')).

Definition upsert_in (item : ThreadItem) (t : PendingTurn) : PendingTurn :=
  set_pt_items t (index_upsert (pt_item_index t) (pt_items t) item).

Definition upsert_item_in_current_turn (fresh : str) (item : ThreadItem) (b : ThreadHistoryBuilder)
    : ThreadHistoryBuilder :=
  let tracking := is_tracking_changes b in
  let '(t, b) := ensure_turn fresh b in
  record_item_if tracking (pt_id t) item (set_current b (Some (upsert_in item t))).

(** An item of a turn that is not known is dropped. *)
Definition upsert_item_in_turn_id (id : str) (item : ThreadItem) (b : ThreadHistoryBuilder)
    : ThreadHistoryBuilder :=
  let tracking := is_tracking_changes b in
  let in_finished :=
    match update_first (has_id id) (upsert_in item) (turns b) with
    | Some (t, ts) => record_item_if tracking (pt_id t) item (set_turns b ts)
    | None => b
    end in
  match current_turn b with
  | Some t => if has_id id t
              then record_item_if tracking (pt_id t) item (set_current b (Some (upsert_in item t)))
              else in_finished
  | None => in_finished
  end.

(** The event names its turn, or leaves the name empty. *)
Definition upsert_item_routed (fresh id : str) (item : ThreadItem) (b : ThreadHistoryBuilder)
    : ThreadHistoryBuilder :=
  if bool_decide (id = []) then upsert_item_in_current_turn fresh item b
  else upsert_item_in_turn_id id item b.

(** ** Handlers *)

(** One image of an ordered message: the input it adds, and the counts of inline
    images and of files read. *)
Definition ordered_image_step (p : UserMessageEvent) (st : list UserInput * nat * nat) (kind : UserMessageImageKind)
    : list UserInput * nat * nat :=
  let '(content, inline_index, file_index) := st in
  match kind with
  | KindInline =>
      match um_images p ≫= (λ l, l !! inline_index) with
      | Some image => (content ++ [UiImage (Inline image) (mjoin (um_image_details p !! inline_index))],
                       S inline_index, file_index)
      | None => st
      end
  | KindFile =>
      match um_file_ids p ≫= (λ l, l !! file_index) with
      | Some file_id => (content ++ [UiImage (File file_id) (mjoin (um_file_id_details p !! file_index))],
                         inline_index, S file_index)
      | None => st
      end
  end.

Definition build_user_inputs (p : UserMessageEvent) : list UserInput :=
  let text := if bool_decide (trim (um_message p) = []) then [] else [UiText (um_message p) (um_text_elements p)] in
  let complete := has_complete_image_order p in
  let images :=
    if complete then (foldl (ordered_image_step p) ([], 0, 0) (um_image_order p)).1.1
    else imap (λ idx image, UiImage (Inline image) (mjoin (um_image_details p !! idx))) (default [] (um_images p)) in
  let files :=
    if complete then []
    else imap (λ idx f, UiImage (File f) (mjoin (um_file_id_details p !! idx))) (default [] (um_file_ids p)) in
  text ++ images ++ files
  ++ imap (λ idx path, UiLocalImage (mjoin (um_local_image_details p !! idx)) path) (um_local_images p)
  ++ map UiAudio (default [] (um_audio p)) ++ map UiLocalAudio (um_local_audio p).

Definition handle_user_message (fresh : str) (p : UserMessageEvent) (b : ThreadHistoryBuilder) : ThreadHistoryBuilder :=
  let b := match current_turn b with
           | Some t => if negb (pt_opened_explicitly t)
                          && negb (pt_saw_compaction t && bool_decide (length (pt_items t) = 0))
                       then finish_current_turn b else b
           | None => b
           end in
  let '(id, b) := next_item_id b in
  push_item_in_current_turn fresh (TiUserMessage id (um_client_id p) (build_user_inputs p)) b.

Definition handle_agent_message (fresh : str) (p : AgentMessageEvent) (b : ThreadHistoryBuilder) : ThreadHistoryBuilder :=
  if bool_decide (am_message p = []) then b
  else
    let '(id, b) := next_item_id b in
    push_item_in_current_turn fresh
      (TiAgentMessage id (am_message p) (am_phase p) (am_memory_citation p) (am_delivery p) (am_questions p)) b.

(** The two handlers of reasoning: [extend] adds the text to the last reasoning
    item, [create] is a new item with it. *)
Definition handle_reasoning (fresh : str) (extend : ThreadItem → option ThreadItem) (create : str → ThreadItem)
    (b : ThreadHistoryBuilder) : ThreadHistoryBuilder :=
  let tracking := is_tracking_changes b in
  let '(t, b) := ensure_turn fresh b in
  match last (pt_items t) ≫= extend with
  | Some item =>
      let t' := set_pt_items t (pt_item_index t, update_last (λ _, item) (pt_items t)) in
      record_item_if tracking (pt_id t) item (set_current b (Some t'))
  | None =>
      let '(id, b) := next_item_id b in
      push_item_in_current_turn fresh (create id) b
  end.

Definition handle_agent_reasoning (fresh text : str) (b : ThreadHistoryBuilder) : ThreadHistoryBuilder :=
  if bool_decide (text = []) then b
  else handle_reasoning fresh
         (λ i, match i with
               | TiReasoning id summary content => Some (TiReasoning id (summary ++ [text]) content)
               | _ => None
               end)
         (λ id, TiReasoning id [text] []) b.

Definition handle_agent_reasoning_raw_content (fresh text : str) (b : ThreadHistoryBuilder) : ThreadHistoryBuilder :=
  if bool_decide (text = []) then b
  else handle_reasoning fresh
         (λ i, match i with
               | TiReasoning id summary content => Some (TiReasoning id summary (content ++ [text]))
               | _ => None
               end)
         (λ id, TiReasoning id [] [text]) b.

Definition upsert_review_mode_item (fresh : str) (id : option str) (item : ThreadItem) (b : ThreadHistoryBuilder)
    : ThreadHistoryBuilder :=
  match id with
  | None => upsert_item_in_current_turn fresh item b
  | Some id =>
      let current_turn_matches := from_option (has_id id) false (current_turn b) in
      let b := if negb current_turn_matches && negb (existsb (has_id id) (turns b))
               then let b := finish_current_turn b in
                    let t := new_turn fresh (Some id) b in
                    set_current (record_changed_pending_turn t b) (Some t)
               else b in
      upsert_item_in_turn_id id item b
  end.

Definition should_upsert (item : TurnItem) : bool :=
  match item with
  | CoPlan _ text => negb (bool_decide (text = []))
  | CoHookPrompt _ _ | CoFunctionCallOutput _ _ _ _ | CoCommandExecution _ | CoDynamicToolCall _ _ _ _ _ _ _ _
  | CoCollabAgentToolCall _ _ _ _ _ _ _ _ _ | CoSubAgentActivity _ _ _ _ | CoExtension _
  | CoEnteredReviewMode _ _ | CoExitedReviewMode _ _ => true
  | CoUserMessage _ _ _ | CoAgentMessage _ _ _ _ _ _ | CoReasoning _ _ _ | CoWebSearch _ _ _ _ | CoImageView _ _
  | CoImageGeneration _ _ _ _ _ | CoFileChange _ _ _ | CoMcpToolCall _ | CoContextCompaction _ => false
  end.

Definition handle_materialized_item_lifecycle (fresh id : str) (item : TurnItem) (b : ThreadHistoryBuilder)
    : ThreadHistoryBuilder :=
  let is_review_mode_item := match item with
                             | CoEnteredReviewMode _ _ | CoExitedReviewMode _ _ => true
                             | _ => false
                             end in
  if should_upsert item
  then if is_review_mode_item then upsert_review_mode_item fresh (Some id) (thread_item_from item) b
       else upsert_item_in_turn_id id (thread_item_from item) b
  else b.

Definition handle_web_search_begin (fresh call_id : str) : ThreadHistoryBuilder → ThreadHistoryBuilder :=
  upsert_item_in_current_turn fresh
    (TiWebSearch {| search_id := call_id; search_query := []; search_action := None; search_results := None |}).
Definition handle_web_search_end (fresh : str) (p : WebSearchEndEvent) : ThreadHistoryBuilder → ThreadHistoryBuilder :=
  upsert_item_in_current_turn fresh
    (TiWebSearch {| search_id := ws_call_id p; search_query := ws_query p; search_action := Some (ws_action p);
                    search_results := ws_results p |}).

Definition handle_exec_command_begin (p : ExecCommandBeginEvent) : ThreadHistoryBuilder → ThreadHistoryBuilder :=
  upsert_item_in_turn_id (eb_turn_id p) (build_command_execution_begin_item p).
Definition handle_exec_command_end (p : ExecCommandEndEvent) : ThreadHistoryBuilder → ThreadHistoryBuilder :=
  upsert_item_in_turn_id (eb_turn_id (ee_begin p)) (build_command_execution_end_item p).

Definition handle_guardian_assessment (fresh : str) (p : GuardianAssessmentEvent) (b : ThreadHistoryBuilder)
    : ThreadHistoryBuilder :=
  let assess (status : CommandExecutionStatus) :=
    match build_item_from_guardian_event p status with
    | Some item => upsert_item_routed fresh (ga_turn_id p) item b
    | None => b
    end in
  match ga_status p with
  | GsInProgress => assess CesInProgress
  | GsDenied | GsAborted => assess CesDeclined
  | GsTimedOut => assess CesFailed
  | GsApproved => b
  end.

Definition handle_apply_patch_approval_request (fresh : str) (p : PatchEvent) :
    ThreadHistoryBuilder → ThreadHistoryBuilder :=
  upsert_item_routed fresh (pe_turn_id p) (build_file_change_approval_request_item p).
Definition handle_patch_apply_begin (fresh : str) (p : PatchEvent) : ThreadHistoryBuilder → ThreadHistoryBuilder :=
  upsert_item_routed fresh (pe_turn_id p) (build_file_change_begin_item p).
Definition handle_patch_apply_end (fresh : str) (p : PatchApplyEndEvent) : ThreadHistoryBuilder → ThreadHistoryBuilder :=
  upsert_item_routed fresh (pe_turn_id (pa_patch p)) (build_file_change_end_item p).

Definition handle_dynamic_tool_call_request (fresh : str) (p : DynamicToolCallRequest)
    : ThreadHistoryBuilder → ThreadHistoryBuilder :=
  upsert_item_routed fresh (dr_turn_id p)
    (TiDynamicToolCall (dr_call_id p) (dr_namespace p) (dr_tool p) (dr_arguments p) DsInProgress None None None).
Definition handle_dynamic_tool_call_response (fresh : str) (e : DynamicToolCallResponseEvent)
    : ThreadHistoryBuilder → ThreadHistoryBuilder :=
  let p := dp_request e in
  let status := if dp_success e then DsCompleted else DsFailed in
  upsert_item_routed fresh (dr_turn_id p)
    (TiDynamicToolCall (dr_call_id p) (dr_namespace p) (dr_tool p) (dr_arguments p) status
       (Some (dp_content_items e)) (Some (dp_success e)) (millis_i64 (dp_duration e))).

(** The app context of a call, when it names its connector. *)
Definition mcp_app_context (p : McpToolCallBeginEvent) : option McpToolCallAppContext :=
  (λ c, {| connector_id := c; link_id := mb_link_id p; resource_uri := mb_mcp_app_resource_uri p;
           app_name := mb_app_name p; action_name := mb_action_name p |}) <$> mb_connector_id p.

Definition handle_mcp_tool_call_begin (fresh : str) (p : McpToolCallBeginEvent)
    : ThreadHistoryBuilder → ThreadHistoryBuilder :=
  upsert_item_routed fresh (mb_turn_id p)
    (TiMcpToolCall (mb_call_id p) (mb_server p) (mb_tool p) MsInProgress (default json_null (mb_arguments p))
       (mcp_app_context p) (mb_mcp_app_resource_uri p) (mb_mcp_app_ui p) (mb_plugin_id p)
       (mb_read_only_hint p) None None None).
Definition handle_mcp_tool_call_end (fresh : str) (e : McpToolCallEndEvent)
    : ThreadHistoryBuilder → ThreadHistoryBuilder :=
  let p := me_begin e in
  let status := if is_success e then MsCompleted else MsFailed in
  let '(result, error) := match me_result e with
                          | inr value => (Some (mcp_result_from value), None)
                          | inl message => (None, Some {| mcp_message := message |})
                          end in
  upsert_item_routed fresh (mb_turn_id p)
    (TiMcpToolCall (mb_call_id p) (mb_server p) (mb_tool p) status (default json_null (mb_arguments p))
       (mcp_app_context p) (mb_mcp_app_resource_uri p) (mb_mcp_app_ui p) (mb_plugin_id p)
       (mb_read_only_hint p) result error (millis_i64 (me_duration e))).

Definition handle_view_image_tool_call (fresh : str) (p : ViewImageToolCallEvent)
    : ThreadHistoryBuilder → ThreadHistoryBuilder :=
  upsert_item_in_current_turn fresh (TiImageView (vi_call_id p) (uri_app_path (vi_path p))).

Definition handle_image_generation_begin (fresh call_id : str) : ThreadHistoryBuilder → ThreadHistoryBuilder :=
  upsert_item_in_current_turn fresh
    (TiImageGeneration
       {| image_id := call_id; image_status := []; revised_prompt := None; image_result := [];
          transparent_background := None; image_failure := None; saved_path := None;
          imagegen_request_id := None; generation_id := None |}).
Definition handle_image_generation_end (fresh : str) (p : ImageGenerationEndEvent)
    : ThreadHistoryBuilder → ThreadHistoryBuilder :=
  upsert_item_in_current_turn fresh
    (TiImageGeneration
       {| image_id := ig_call_id p; image_status := ig_status p; revised_prompt := ig_revised_prompt p;
          image_result := ig_result p; transparent_background := ig_transparent_background p;
          image_failure := ig_failure p; saved_path := ig_saved_path p;
          imagegen_request_id := None; generation_id := None |}).

(** *** Calls on other agents *)

Definition agent_failed (s : AgentStatus) : bool :=
  match s with AsErrored _ | AsNotFound => true | _ => false end.
Definition collab_status (s : AgentStatus) : CollabAgentToolCallStatus :=
  if agent_failed s then CtFailed else CtCompleted.

Definition handle_collab_agent_spawn_begin (fresh : str) (p : CollabAgentSpawnBeginEvent)
    : ThreadHistoryBuilder → ThreadHistoryBuilder :=
  upsert_item_in_current_turn fresh
    (TiCollabAgentToolCall (sb_call_id p) SpawnAgent CtInProgress (sb_sender_thread_id p) [] (Some (sb_prompt p))
       (Some (sb_model p)) (Some (sb_reasoning_effort p)) ∅).
Definition handle_collab_agent_spawn_end (fresh : str) (e : CollabAgentSpawnEndEvent)
    : ThreadHistoryBuilder → ThreadHistoryBuilder :=
  let p := se_begin e in
  let has_receiver := bool_decide (is_Some (se_new_thread_id e)) in
  let status := if agent_failed (se_status e) then CtFailed
                else if has_receiver then CtCompleted else CtFailed in
  let '(receiver_thread_ids, agents_states) :=
    match se_new_thread_id e with
    | Some id => ([id], {[ id := agent_state_from (se_status e) ]})
    | None => ([], ∅)
    end in
  upsert_item_in_current_turn fresh
    (TiCollabAgentToolCall (sb_call_id p) SpawnAgent status (sb_sender_thread_id p) receiver_thread_ids
       (Some (sb_prompt p)) (Some (sb_model p)) (Some (sb_reasoning_effort p)) agents_states).

Definition handle_collab_agent_interaction_begin (fresh : str) (p : CollabAgentInteractionBeginEvent)
    : ThreadHistoryBuilder → ThreadHistoryBuilder :=
  upsert_item_in_current_turn fresh
    (TiCollabAgentToolCall (ib_call_id p) SendInput CtInProgress (ib_sender_thread_id p)
       [ib_receiver_thread_id p] (Some (ib_prompt p)) None None ∅).
Definition handle_collab_agent_interaction_end (fresh : str) (e : CollabAgentInteractionEndEvent)
    : ThreadHistoryBuilder → ThreadHistoryBuilder :=
  let p := ie_begin e in
  let receiver_id := ib_receiver_thread_id p in
  upsert_item_in_current_turn fresh
    (TiCollabAgentToolCall (ib_call_id p) SendInput (collab_status (ie_status e)) (ib_sender_thread_id p)
       [receiver_id] (Some (ib_prompt p)) None None {[ receiver_id := agent_state_from (ie_status e) ]}).

Definition handle_sub_agent_activity (fresh : str) (p : SubAgentActivityEvent)
    : ThreadHistoryBuilder → ThreadHistoryBuilder :=
  upsert_item_in_current_turn fresh
    (TiSubAgentActivity (sa_event_id p) (sa_kind p) (sa_agent_thread_id p) (sa_agent_path p)).

Definition handle_collab_waiting_begin (fresh : str) (p : CollabWaitingBeginEvent)
    : ThreadHistoryBuilder → ThreadHistoryBuilder :=
  upsert_item_in_current_turn fresh
    (TiCollabAgentToolCall (wb_call_id p) Wait CtInProgress (wb_sender_thread_id p) (wb_receiver_thread_ids p)
       None None None ∅).
Definition handle_collab_waiting_end (fresh : str) (p : CollabWaitingEndEvent)
    : ThreadHistoryBuilder → ThreadHistoryBuilder :=
  let status := if existsb (λ '(_, s), agent_failed s) (map_to_list (we_statuses p)) then CtFailed
                else CtCompleted in
  let receiver_thread_ids := sort_by_key id (map_to_list (we_statuses p)).*1 in
  upsert_item_in_current_turn fresh
    (TiCollabAgentToolCall (we_call_id p) Wait status (we_sender_thread_id p) receiver_thread_ids
       None None None (agent_state_from <$> we_statuses p)).

(** The beginning and the end of a call that closes or resumes an agent. *)
Definition collab_begin_item (tool : CollabAgentTool) (p : CollabAgentBeginEvent) : ThreadItem :=
  TiCollabAgentToolCall (cb_call_id p) tool CtInProgress (cb_sender_thread_id p) [cb_receiver_thread_id p]
    None None None ∅.
Definition collab_end_item (tool : CollabAgentTool) (e : CollabAgentEndEvent) : ThreadItem :=
  let p := ce_begin e in
  let receiver_id := cb_receiver_thread_id p in
  TiCollabAgentToolCall (cb_call_id p) tool (collab_status (ce_status e)) (cb_sender_thread_id p) [receiver_id]
    None None None {[ receiver_id := agent_state_from (ce_status e) ]}.

Definition handle_collab_close_begin (fresh : str) (p : CollabAgentBeginEvent)
    : ThreadHistoryBuilder → ThreadHistoryBuilder :=
  upsert_item_in_current_turn fresh (collab_begin_item CloseAgent p).
Definition handle_collab_close_end (fresh : str) (p : CollabAgentEndEvent)
    : ThreadHistoryBuilder → ThreadHistoryBuilder :=
  upsert_item_in_current_turn fresh (collab_end_item CloseAgent p).
Definition handle_collab_resume_begin (fresh : str) (p : CollabAgentBeginEvent)
    : ThreadHistoryBuilder → ThreadHistoryBuilder :=
  upsert_item_in_current_turn fresh (collab_begin_item ResumeAgent p).
Definition handle_collab_resume_end (fresh : str) (p : CollabAgentEndEvent)
    : ThreadHistoryBuilder → ThreadHistoryBuilder :=
  upsert_item_in_current_turn fresh (collab_end_item ResumeAgent p).

(** *** Compaction, review mode, errors *)

Definition handle_context_compacted (fresh : str) (b : ThreadHistoryBuilder) : ThreadHistoryBuilder :=
  let '(id, b) := next_item_id b in
  push_item_in_current_turn fresh (TiContextCompaction id) b.

(** [item_id.unwrap_or_else(|| self.next_item_id())]. *)
Definition item_id_or_next (id : option str) (b : ThreadHistoryBuilder) : str * ThreadHistoryBuilder :=
  match id with Some id => (id, b) | None => next_item_id b end.

Definition handle_entered_review_mode (fresh : str) (p : EnteredReviewModeEvent) (b : ThreadHistoryBuilder)
    : ThreadHistoryBuilder :=
  let review := default (lit "Review requested.") (er_user_facing_hint p) in
  let '(id, b) := item_id_or_next (er_item_id p) b in
  upsert_review_mode_item fresh (er_turn_id p) (TiEnteredReviewMode id review) b.
Definition handle_exited_review_mode (fresh : str) (p : ExitedReviewModeEvent) (b : ThreadHistoryBuilder)
    : ThreadHistoryBuilder :=
  let review := review_output_text (xr_review_output p) in
  let '(id, b) := item_id_or_next (xr_item_id p) b in
  upsert_review_mode_item fresh (xr_turn_id p) (TiExitedReviewMode id review) b.

Definition handle_error (p : ErrorEvent) (b : ThreadHistoryBuilder) : ThreadHistoryBuilder :=
  if negb (affects_turn_status p) then b
  else
    match current_turn b with
    | Some t =>
        let t' := set_pt_outcome t TsFailed (Some (turn_error_from p)) (pt_completed_at t) (pt_duration_ms t) in
        let b' := set_current b (Some t') in
        if is_tracking_changes b then record_changed_turn (from_pending_turn t') b' else b'
    | None => b
    end.

(** *** The beginning and the end of turns *)

Definition apply_abort (p : TurnAbortedEvent) (t : PendingTurn) : PendingTurn :=
  set_pt_outcome t TsInterrupted (pt_error t) (ta_completed_at p) (ta_duration_ms p).

Definition handle_turn_aborted (p : TurnAbortedEvent) (b : ThreadHistoryBuilder) : ThreadHistoryBuilder :=
  let abort_current (t : PendingTurn) :=
    record_changed_turn (from_pending_turn (apply_abort p t)) (set_current b (Some (apply_abort p t))) in
  let active := match current_turn b with Some t => abort_current t | None => b end in
  match ta_turn_id p with
  | Some id =>
      let in_finished :=
        match update_first (has_id id) (apply_abort p) (turns b) with
        | Some (t, ts) => record_changed_turn (from_pending_turn t) (set_turns b ts)
        | None => active
        end in
      match current_turn b with
      | Some t => if has_id id t then abort_current t else in_finished
      | None => in_finished
      end
  | None => active
  end.

Definition handle_turn_started (fresh : str) (p : TurnStartedEvent) (b : ThreadHistoryBuilder) : ThreadHistoryBuilder :=
  let b := finish_current_turn b in
  let t0 := new_turn fresh (Some (ts_turn_id p)) b in
  let t := {| pt_id := pt_id t0; pt_root_turn_id := ts_root_turn_id p; pt_items := pt_items t0;
              pt_item_index := pt_item_index t0; pt_error := pt_error t0; pt_status := TsInProgress;
              pt_started_at := ts_started_at p; pt_completed_at := pt_completed_at t0;
              pt_duration_ms := pt_duration_ms t0; pt_opened_explicitly := true;
              pt_saw_compaction := pt_saw_compaction t0; pt_rollout_start_index := pt_rollout_start_index t0 |} in
  set_current (record_changed_pending_turn t b) (Some t).

Definition apply_completion (p : TurnCompleteEvent) (t : PendingTurn) : PendingTurn :=
  let '(status, error) :=
    match tc_error p with
    | Some e => (TsFailed, Some (turn_error_from e))
    | None => (match pt_status t with TsCompleted | TsInProgress => TsCompleted | s => s end, pt_error t)
    end in
  set_pt_outcome t status error (tc_completed_at p) (tc_duration_ms p).

Definition handle_turn_complete (p : TurnCompleteEvent) (b : ThreadHistoryBuilder) : ThreadHistoryBuilder :=
  let complete_current (t : PendingTurn) :=
    finish_current_turn
      (record_changed_turn (from_pending_turn (apply_completion p t)) (set_current b (Some (apply_completion p t)))) in
  let in_finished :=
    match update_first (has_id (tc_turn_id p)) (apply_completion p) (turns b) with
    | Some (t, ts) => record_changed_turn (from_pending_turn t) (set_turns b ts)
    | None => match current_turn b with Some t => complete_current t | None => b end
    end in
  match current_turn b with
  | Some t => if has_id (tc_turn_id p) t then complete_current t else in_finished
  | None => in_finished
  end.

Definition handle_compacted (fresh : str) (b : ThreadHistoryBuilder) : ThreadHistoryBuilder :=
  let '(t, b) := ensure_turn fresh b in set_current b (Some (set_pt_saw_compaction t)).

Definition handle_thread_rollback (num_turns : N) (b : ThreadHistoryBuilder) : ThreadHistoryBuilder :=
  let b := finish_current_turn b in
  let n := N.to_nat num_turns in
  let removed_turn_ids :=
    if bool_decide (length (turns b) ≤ n) then map pt_id (turns b)
    else if bool_decide (n = 0) then []
    else map pt_id (drop (length (turns b) - n) (turns b)) in
  let b := record_removed_turn_ids removed_turn_ids b in
  let kept := if bool_decide (length (turns b) ≤ n) then [] else take (length (turns b) - n) (turns b) in
  let item_count := sum_list_with (λ t, length (pt_items t)) kept in
  set_next_item (set_turns b kept) (Z.min (Z.of_nat (item_count + 1)) I64_MAX).

Definition handle_response_item (fresh : str) (i : ResponseItem) (b : ThreadHistoryBuilder) : ThreadHistoryBuilder :=
  match i with
  | Message id role content _ _ =>
      if bool_decide (role ≠ lit "user") then b
      else match parse_hook_prompt_message fresh id content with
           | Some (id, fragments) => push_item_in_current_turn fresh (TiHookPrompt id fragments) b
           | None => b
           end
  | _ => b
  end.

(** ** The reducer *)

Definition handle_event (fresh : str) (e : EventMsg) (b : ThreadHistoryBuilder) : ThreadHistoryBuilder :=
  match e with
  | EvUserMessage p => handle_user_message fresh p b
  | EvAgentMessage p => handle_agent_message fresh p b
  | EvAgentReasoning text => handle_agent_reasoning fresh text b
  | EvAgentReasoningRawContent text => handle_agent_reasoning_raw_content fresh text b
  | EvWebSearchBegin call_id => handle_web_search_begin fresh call_id b
  | EvWebSearchEnd p => handle_web_search_end fresh p b
  | EvExecCommandBegin p => handle_exec_command_begin p b
  | EvExecCommandEnd p => handle_exec_command_end p b
  | EvGuardianAssessment p => handle_guardian_assessment fresh p b
  | EvApplyPatchApprovalRequest p => handle_apply_patch_approval_request fresh p b
  | EvPatchApplyBegin p => handle_patch_apply_begin fresh p b
  | EvPatchApplyEnd p => handle_patch_apply_end fresh p b
  | EvDynamicToolCallRequest p => handle_dynamic_tool_call_request fresh p b
  | EvDynamicToolCallResponse p => handle_dynamic_tool_call_response fresh p b
  | EvMcpToolCallBegin p => handle_mcp_tool_call_begin fresh p b
  | EvMcpToolCallEnd p => handle_mcp_tool_call_end fresh p b
  | EvViewImageToolCall p => handle_view_image_tool_call fresh p b
  | EvImageGenerationBegin call_id => handle_image_generation_begin fresh call_id b
  | EvImageGenerationEnd p => handle_image_generation_end fresh p b
  | EvCollabAgentSpawnBegin p => handle_collab_agent_spawn_begin fresh p b
  | EvCollabAgentSpawnEnd p => handle_collab_agent_spawn_end fresh p b
  | EvCollabAgentInteractionBegin p => handle_collab_agent_interaction_begin fresh p b
  | EvCollabAgentInteractionEnd p => handle_collab_agent_interaction_end fresh p b
  | EvSubAgentActivity p => handle_sub_agent_activity fresh p b
  | EvCollabWaitingBegin p => handle_collab_waiting_begin fresh p b
  | EvCollabWaitingEnd p => handle_collab_waiting_end fresh p b
  | EvCollabCloseBegin p => handle_collab_close_begin fresh p b
  | EvCollabCloseEnd p => handle_collab_close_end fresh p b
  | EvCollabResumeBegin p => handle_collab_resume_begin fresh p b
  | EvCollabResumeEnd p => handle_collab_resume_end fresh p b
  | EvContextCompacted => handle_context_compacted fresh b
  | EvEnteredReviewMode p => handle_entered_review_mode fresh p b
  | EvExitedReviewMode p => handle_exited_review_mode fresh p b
  | EvItemStarted id item => handle_materialized_item_lifecycle fresh id item b
  | EvItemCompleted id item => handle_materialized_item_lifecycle fresh id item b
  | EvError p => handle_error p b
  | EvThreadRolledBack n => handle_thread_rollback n b
  | EvTurnAborted p => handle_turn_aborted p b
  | EvTurnStarted p => handle_turn_started fresh p b
  | EvTurnComplete p => handle_turn_complete p b
  | EvOther => b
  end.

(** The indices of [handle_rollout_item]. *)
Definition advance_rollout (b : ThreadHistoryBuilder) : ThreadHistoryBuilder :=
  {| turns := turns b; current_turn := current_turn b; next_item_index := next_item_index b;
     current_rollout_index := next_rollout_index b; next_rollout_index := S (next_rollout_index b);
     active_change_set := active_change_set b |}.

Definition handle_rollout_item (fresh : str) (i : RolloutItem) (b : ThreadHistoryBuilder) : ThreadHistoryBuilder :=
  let b := advance_rollout b in
  match i with
  | RiEventMsg e => handle_event fresh e b
  | RiCompacted _ => handle_compacted fresh b
  | RiResponseItem env => handle_response_item fresh (item env) b
  | RiInterAgentCommunication _ | RiInterAgentCommunicationMetadata _ | RiTurnContext _ | RiWorldState _
  | RiSessionMeta _ | RiOther _ => b
  end.

(** [collect_changes]. *)
Definition collect_changes (handle : ThreadHistoryBuilder → ThreadHistoryBuilder) (b : ThreadHistoryBuilder)
    : ThreadHistoryChangeSet * ThreadHistoryBuilder :=
  let b := handle (set_changes b (Some changes_default)) in
  (default changes_default (active_change_set b), set_changes b None).

Definition handle_event_with_changes (fresh : str) (e : EventMsg) :=
  collect_changes (handle_event fresh e).
Definition handle_rollout_item_with_changes (fresh : str) (i : RolloutItem) :=
  collect_changes (handle_rollout_item fresh i).

(** [finish]. *)
Definition builder_finish (b : ThreadHistoryBuilder) : list Turn := map turn_from (turns (finish_current_turn b)).

(** The replay of rollout lines; [fresh n] is the id drawn at line [n]. *)
Definition replay (fresh : nat → str) (items : list RolloutItem) (b : ThreadHistoryBuilder) : ThreadHistoryBuilder :=
  foldl (λ b i, handle_rollout_item (fresh (next_rollout_index b)) i b) b items.

Definition build_turns_from_rollout_items (fresh : nat → str) (items : list RolloutItem) : list Turn :=
  builder_finish (replay fresh items builder_new).

(** ** Snapshots *)

Definition active_turn_snapshot (b : ThreadHistoryBuilder) : option Turn :=
  match current_turn b with
  | Some t => Some (turn_from t)
  | None => turn_from <$> last (turns b)
  end.

Definition active_turn_id (b : ThreadHistoryBuilder) : option str :=
  match current_turn b with
  | Some t => Some (pt_id t)
  | None => pt_id <$> last (turns b)
  end.

Definition turn_snapshot (id : str) (b : ThreadHistoryBuilder) : option Turn :=
  let finished := turn_from <$> List.find (has_id id) (turns b) in
  match current_turn b with
  | Some t => if has_id id t then Some (turn_from t) else finished
  | None => finished
  end.

Definition active_turn_position (b : ThreadHistoryBuilder) : option nat :=
  match current_turn b with
  | Some _ => Some (length (turns b))
  | None => if bool_decide (length (turns b) = 0) then None else Some (length (turns b) - 1)
  end.

Definition has_active_turn (b : ThreadHistoryBuilder) : bool := bool_decide (is_Some (current_turn b)).

Definition active_turn_id_if_explicit (b : ThreadHistoryBuilder) : option str :=
  t ← current_turn b; if pt_opened_explicitly t then Some (pt_id t) else None.

Definition active_turn_start_index (b : ThreadHistoryBuilder) : option nat :=
  pt_rollout_start_index <$> current_turn b.

(** ** The changes of a batch *)

Record ThreadHistoryChangeAccumulator := {
  acc_items : list (option ThreadHistoryItemChange);
  acc_item_indexes : gmap (str * str) nat;
  acc_turns : list (option ThreadHistoryTurnChange);
  acc_turn_indexes : gmap str nat;
  acc_removed : list str;
  acc_removed_indexes : gmap str nat;
}.

Definition accumulator_default : ThreadHistoryChangeAccumulator :=
  {| acc_items := []; acc_item_indexes := ∅; acc_turns := []; acc_turn_indexes := ∅; acc_removed := [];
     acc_removed_indexes := ∅ |}.

Definition item_change_key (c : ThreadHistoryItemChange) : str * str := (ic_turn_id c, item_id (ic_item c)).

Definition push_item_change (c : ThreadHistoryItemChange) (a : ThreadHistoryChangeAccumulator)
    : ThreadHistoryChangeAccumulator :=
  let key := item_change_key c in
  let '(items, indexes) :=
    match acc_item_indexes a !! key with
    | Some index => (<[index := Some c]> (acc_items a), acc_item_indexes a)
    | None => (acc_items a ++ [Some c], <[key := length (acc_items a)]> (acc_item_indexes a))
    end in
  {| acc_items := items; acc_item_indexes := indexes; acc_turns := acc_turns a;
     acc_turn_indexes := acc_turn_indexes a; acc_removed := acc_removed a;
     acc_removed_indexes := acc_removed_indexes a |}.

Definition push_turn_change (c : ThreadHistoryTurnChange) (a : ThreadHistoryChangeAccumulator)
    : ThreadHistoryChangeAccumulator :=
  let '(ts, indexes) :=
    match acc_turn_indexes a !! tc_id c with
    | Some index => (<[index := Some c]> (acc_turns a), acc_turn_indexes a)
    | None => (acc_turns a ++ [Some c], <[tc_id c := length (acc_turns a)]> (acc_turn_indexes a))
    end in
  {| acc_items := acc_items a; acc_item_indexes := acc_item_indexes a; acc_turns := ts;
     acc_turn_indexes := indexes; acc_removed := acc_removed a;
     acc_removed_indexes := acc_removed_indexes a |}.

(** One pass of the loop over the removed keys. *)
Definition remove_item_key (st : list (option ThreadHistoryItemChange) * gmap (str * str) nat) (key : str * str)
    : list (option ThreadHistoryItemChange) * gmap (str * str) nat :=
  match st.2 !! key with
  | Some index => (<[index := None]> st.1, delete key st.2)
  | None => st
  end.

Definition push_removed_turn_id (id : str) (a : ThreadHistoryChangeAccumulator) : ThreadHistoryChangeAccumulator :=
  let '(removed, removed_indexes) :=
    match acc_removed_indexes a !! id with
    | Some _ => (acc_removed a, acc_removed_indexes a)
    | None => (acc_removed a ++ [id], <[id := length (acc_removed a)]> (acc_removed_indexes a))
    end in
  let '(ts, turn_indexes) :=
    match acc_turn_indexes a !! id with
    | Some index => (<[index := None]> (acc_turns a), delete id (acc_turn_indexes a))
    | None => (acc_turns a, acc_turn_indexes a)
    end in
  let removed_item_keys :=
    List.filter (λ key, bool_decide (key.1 = id)) (map_to_list (acc_item_indexes a)).*1 in
  let '(items, item_indexes) :=
    foldl remove_item_key (acc_items a, acc_item_indexes a) removed_item_keys in
  {| acc_items := items; acc_item_indexes := item_indexes; acc_turns := ts; acc_turn_indexes := turn_indexes;
     acc_removed := removed; acc_removed_indexes := removed_indexes |}.

(** [ThreadHistoryChangeAccumulator::push]. *)
Definition acc_push (a : ThreadHistoryChangeAccumulator) (c : ThreadHistoryChangeSet)
    : ThreadHistoryChangeAccumulator :=
  let a := foldl (λ a id, push_removed_turn_id id a) a (removed_turn_ids c) in
  let a := foldl (λ a i, push_item_change i a) a (changed_items c) in
  foldl (λ a t, push_turn_change t a) a (changed_turns c).

(** [ThreadHistoryChangeAccumulator::finish]. *)
Definition acc_finish (a : ThreadHistoryChangeAccumulator) : ThreadHistoryChangeSet :=
  {| changed_items := omap id (acc_items a); changed_turns := omap id (acc_turns a);
     removed_turn_ids := acc_removed a |}.

(** The change sets of the lines of a batch, in order, and the builder after it. *)
Fixpoint replay_with_changes (fresh : nat → str) (items : list RolloutItem) (b : ThreadHistoryBuilder)
    : list ThreadHistoryChangeSet * ThreadHistoryBuilder :=
  match items with
  | [] => ([], b)
  | i :: items' =>
      let '(c, b) := handle_rollout_item_with_changes (fresh (next_rollout_index b)) i b in
      let '(cs, b) := replay_with_changes fresh items' b in
      (c :: cs, b)
  end.

Definition handle_rollout_items_with_changes (fresh : nat → str) (items : list RolloutItem)
    (b : ThreadHistoryBuilder) : ThreadHistoryChangeSet * ThreadHistoryBuilder :=
  let '(cs, b) := replay_with_changes fresh items b in
  (acc_finish (foldl acc_push accumulator_default cs), b).

End History.
