(* ===== verification/ThreadHistoryRuns.v ===== *)
(** * The history of a thread is what its change sets say

    The index of a turn's items agrees with a search of the items; a client that
    applies the change sets of the reducer to an ordered table of turns and items
    has, line by line or batch by batch, the turns the reducer would return. *)

From stdpp Require Import gmap.
From S2P Require Import Prelude RustStr RustOrd Truncate ResponseItem ThreadItem ThreadHistory.
Open Scope list_scope.

(** ** Ordered tables

    A table is a list of entries with a key; an upsert replaces the first entry
    with the key, or appends. *)

Section Upsert.
Context {A K : Type} `{!EqDecision K} (key : A → K).
Implicit Types (x y : A) (l : list A).

Fixpoint upsert_by x l : list A :=
  match l with
  | [] => [x]
  | y :: l' => if decide (key y = key x) then x :: l' else y :: upsert_by x l'
  end.

Lemma upsert_by_fresh x l : key x ∉ map key l → upsert_by x l = l ++ [x].
Proof.
  induction l as [|y l IH]; simpl; [done|]. intros [Hne Hni]%not_elem_of_cons.
  rewrite decide_False by congruence. by rewrite IH.
Qed.

Lemma upsert_by_split x y l1 l2 :
  key y = key x → key x ∉ map key l1 → upsert_by x (l1 ++ y :: l2) = l1 ++ x :: l2.
Proof.
  intros Hk. induction l1 as [|z l1 IH]; simpl; intros Hni; [by rewrite decide_True|].
  apply not_elem_of_cons in Hni as [Hne Hni]. rewrite decide_False by congruence. by rewrite IH.
Qed.

Lemma upsert_by_keys x l k : k ∈ map key (upsert_by x l) ↔ k = key x ∨ k ∈ map key l.
Proof.
  induction l as [|y l IH]; simpl; [set_solver|].
  case_decide as Hk; simpl; rewrite !elem_of_cons; [rewrite Hk; naive_solver|]. rewrite IH. naive_solver.
Qed.

Lemma upsert_by_filter (P : A → Prop) `{!∀ a, Decision (P a)} x l :
  (∀ a b, key a = key b → P a ↔ P b) →
  filter P (upsert_by x l) = if decide (P x) then upsert_by x (filter P l) else filter P l.
Proof.
  intros HP. induction l as [|y l IH]; simpl.
  { rewrite filter_cons, filter_nil. by repeat case_decide. }
  destruct (decide (key y = key x)) as [Hk|Hk]; rewrite !filter_cons.
  - destruct (HP y x Hk). repeat case_decide; simpl; try tauto. by rewrite decide_True.
  - rewrite IH. repeat case_decide; simpl; try done; by rewrite decide_False.
Qed.

(** Two upserts of one key: the later entry, at the place of the first. *)
Lemma upsert_by_twice x y l : key y = key x → upsert_by x (upsert_by y l) = upsert_by x l.
Proof.
  intros Hk. induction l as [|z l IH]; simpl; [by rewrite decide_True|].
  destruct (decide (key z = key y)); simpl.
  - rewrite decide_True by done. rewrite decide_True by congruence. done.
  - rewrite !decide_False by congruence. by rewrite IH.
Qed.

Lemma upsert_by_comm x y l :
  key y ≠ key x → key x ∈ map key l → upsert_by x (upsert_by y l) = upsert_by y (upsert_by x l).
Proof.
  intros Hne. induction l as [|z l IH]; simpl; [by intros ?%not_elem_of_nil|].
  intros Hin%elem_of_cons.
  destruct (decide (key z = key y)) as [Hzy|Hzy], (decide (key z = key x)) as [Hzx|Hzx]; simpl;
    repeat case_decide; try congruence. rewrite IH; [done|]. destruct Hin; congruence.
Qed.

Definition upsert_all l T : list A := foldl (λ T x, upsert_by x T) T l.

Lemma upsert_all_keys l T k : k ∈ map key (upsert_all l T) ↔ k ∈ map key l ∨ k ∈ map key T.
Proof.
  revert T. induction l as [|x l IH]; intros T; simpl; [set_solver|].
  unfold upsert_all in *. simpl. rewrite IH, upsert_by_keys, elem_of_cons. tauto.
Qed.

(** An upsert of a known key moves before the others. *)
Lemma upsert_all_comm x l T :
  key x ∉ map key l → key x ∈ map key T → upsert_by x (upsert_all l T) = upsert_all l (upsert_by x T).
Proof.
  revert T. induction l as [|y l IH]; intros T; [done|]. simpl.
  intros [Hne Hni]%not_elem_of_cons Hin. unfold upsert_all in *. simpl. rewrite IH; [|done|].
  - by rewrite upsert_by_comm by congruence.
  - apply upsert_by_keys. by right.
Qed.

Lemma upsert_all_replace x y l1 l2 T :
  key y = key x → key x ∉ map key l2 →
  upsert_by x (upsert_all (l1 ++ y :: l2) T) = upsert_all (l1 ++ x :: l2) T.
Proof.
  intros Hk Hni. unfold upsert_all. rewrite !foldl_app. simpl.
  fold (upsert_all l2 (upsert_by y (foldl (λ T x, upsert_by x T) T l1))).
  rewrite upsert_all_comm; [by rewrite upsert_by_twice|done|].
  apply upsert_by_keys. left. congruence.
Qed.

Lemma upsert_all_filter (P : A → Prop) `{!∀ a, Decision (P a)} l T :
  (∀ a b, key a = key b → P a ↔ P b) →
  filter P (upsert_all l T) = upsert_all (filter P l) (filter P T).
Proof.
  intros HP. revert T. induction l as [|x l IH]; intros T; [done|]. unfold upsert_all in *. simpl.
  rewrite IH, upsert_by_filter by done. rewrite filter_cons. by case_decide.
Qed.

End Upsert.

(** ** Slots

    The accumulator keeps the entries in slots, emptied by a removal, and an index
    from keys to slots. *)

Section Slots.
Context {A K : Type} `{!EqDecision K} `{!Countable K} (key : A → K).
Implicit Types (l : list (option A)) (m : gmap K nat) (x y : A) (k : K).

Definition indexed l m : Prop :=
  (∀ k i, m !! k = Some i → ∃ x, l !! i = Some (Some x) ∧ key x = k) ∧
  (∀ i x, l !! i = Some (Some x) → m !! key x = Some i).

Definition slot_put x (st : list (option A) * gmap K nat) : list (option A) * gmap K nat :=
  match st.2 !! key x with
  | Some i => (<[i := Some x]> st.1, st.2)
  | None => (st.1 ++ [Some x], <[key x := length st.1]> st.2)
  end.
Definition slot_remove k (st : list (option A) * gmap K nat) : list (option A) * gmap K nat :=
  match st.2 !! k with
  | Some i => (<[i := None]> st.1, delete k st.2)
  | None => st
  end.

Lemma indexed_empty : indexed [] ∅.
Proof. split; [intros k i; by rewrite lookup_empty|intros i x; by rewrite lookup_nil]. Qed.

Lemma indexed_keys l m x : indexed l m → x ∈ omap id l → ∃ i, m !! key x = Some i.
Proof.
  intros [_ H] (o & Ho & Hx)%list_elem_of_omap. simpl in Hx. subst o.
  apply list_elem_of_lookup in Ho as [i Hi]. eauto.
Qed.

Lemma indexed_absent l m k : indexed l m → m !! k = None → k ∉ map key (omap id l).
Proof.
  intros Hm Hk (x & -> & Hx)%list_elem_of_fmap. destruct (indexed_keys l m x) as [i Hi]; congruence.
Qed.

(** The slot of a key, with no other entry of the key around it. *)
Lemma indexed_slot l m k i :
  indexed l m → m !! k = Some i →
  ∃ l1 y l2, l = l1 ++ Some y :: l2 ∧ length l1 = i ∧ key y = k ∧
             (k ∉ map key (omap id l1)) ∧ (k ∉ map key (omap id l2)).
Proof.
  intros [Hm Hl] Hk. destruct (Hm _ _ Hk) as (y & Hy & Hky).
  exists (take i l), y, (drop (S i) l). pose proof (lookup_lt_Some _ _ _ Hy).
  split; [by rewrite take_drop_middle|]. split; [rewrite length_take; lia|]. split; [done|].
  split; intros (x & Hx & Hin)%list_elem_of_fmap; apply list_elem_of_omap in Hin as (o & Ho & Hox);
    simpl in Hox; subst o; apply list_elem_of_lookup in Ho as [j Hj].
  - apply lookup_take_Some in Hj as [Hj ?]. apply Hl in Hj. rewrite <- Hx in Hj. simplify_eq. lia.
  - rewrite lookup_drop in Hj. apply Hl in Hj. rewrite <- Hx in Hj. simplify_eq. lia.
Qed.

Lemma slot_put_indexed x l m : indexed l m → indexed (slot_put x (l, m)).1 (slot_put x (l, m)).2.
Proof.
  intros Hi. unfold slot_put. simpl. destruct (m !! key x) as [i|] eqn:Hk; simpl.
  - destruct Hi as [Hm Hl]. destruct (Hm _ _ Hk) as (y & Hy & Hky). pose proof (lookup_lt_Some _ _ _ Hy).
    split.
    + intros k j Hj. destruct (Hm _ _ Hj) as (z & Hz & Hkz).
      destruct (decide (i = j)) as [<-|Hne].
      * exists x. rewrite list_lookup_insert_eq by done. simplify_eq. done.
      * exists z. by rewrite list_lookup_insert_ne.
    + intros j z [(<- & Hz & _)|[_ Hz]]%list_lookup_insert_Some; [congruence|eauto].
  - pose proof (indexed_absent l m _ Hi Hk) as Hfresh. destruct Hi as [Hm Hl]. split.
    + intros k j [[<- <-]|[Hne Hj]]%lookup_insert_Some.
      * exists x. by rewrite list_lookup_middle.
      * destruct (Hm _ _ Hj) as (z & Hz & Hkz). exists z. split; [|done]. by apply lookup_app_l_Some.
    + intros j z [[_ Hz]|[-> Hz]]%lookup_snoc_Some.
      * rewrite lookup_insert_ne; [eauto|]. intros Heq. apply Hl in Hz. congruence.
      * simplify_eq. apply lookup_insert_eq.
Qed.

Lemma slot_put_entries x l m T :
  indexed l m → upsert_all key (omap id (slot_put x (l, m)).1) T = upsert_by key x (upsert_all key (omap id l) T).
Proof.
  intros Hi. unfold slot_put. simpl. destruct (m !! key x) as [i|] eqn:Hk; simpl.
  - destruct (indexed_slot l m _ i Hi Hk) as (l1 & y & l2 & -> & <- & Hky & _ & H2).
    rewrite insert_app_r_alt, Nat.sub_diag by done. simpl. rewrite !omap_app. simpl.
    symmetry. by apply upsert_all_replace.
  - rewrite omap_app. simpl. unfold upsert_all. by rewrite foldl_app.
Qed.

Lemma slot_remove_indexed k l m : indexed l m → indexed (slot_remove k (l, m)).1 (slot_remove k (l, m)).2.
Proof.
  intros Hi. unfold slot_remove. simpl. destruct (m !! k) as [i|] eqn:Hk; simpl; [|done].
  destruct Hi as [Hm Hl]. split.
  - intros k' j [Hne Hj]%lookup_delete_Some. destruct (Hm _ _ Hj) as (z & Hz & Hkz). exists z.
    split; [|done]. rewrite list_lookup_insert_ne; [done|]. intros ->.
    destruct (Hm _ _ Hk) as (y & Hy & Hky). congruence.
  - intros j z [(_ & [=] & _)|[Hne Hz]]%list_lookup_insert_Some. apply lookup_delete_Some.
    pose proof (Hl _ _ Hz) as Hj. split; [|done]. intros Heq. congruence.
Qed.

Lemma filter_key_ne (l : list A) k : k ∉ map key l → filter (λ x, key x ≠ k) l = l.
Proof.
  intros Hni. apply filter_all, Forall_forall. intros x Hx Heq. apply Hni.
  rewrite <- Heq. by apply list_elem_of_fmap_2.
Qed.

Lemma slot_remove_entries k l m :
  indexed l m → omap id (slot_remove k (l, m)).1 = filter (λ x, key x ≠ k) (omap id l).
Proof.
  intros Hi. unfold slot_remove. simpl. destruct (m !! k) as [i|] eqn:Hk; simpl.
  - destruct (indexed_slot l m _ i Hi Hk) as (l1 & y & l2 & -> & <- & Hky & H1 & H2).
    rewrite insert_app_r_alt, Nat.sub_diag by done. simpl. rewrite !omap_app. simpl.
    rewrite filter_app, filter_cons_False by (intros Hn; by apply Hn). by rewrite !filter_key_ne.
  - symmetry. by apply filter_key_ne, (indexed_absent l m).
Qed.

(** The removal of several keys, one after the other. *)
Lemma slots_removed ks l m :
  indexed l m →
  let st := foldl (λ st k, slot_remove k st) (l, m) ks in
  indexed st.1 st.2 ∧ omap id st.1 = filter (λ x, key x ∉ ks) (omap id l).
Proof.
  revert l m. induction ks as [|k ks IH]; intros l m Hi; simpl.
  - split; [done|]. symmetry. apply filter_all, Forall_forall. intros x _. apply not_elem_of_nil.
  - pose proof (slot_remove_indexed k l m Hi) as Hi'. pose proof (slot_remove_entries k l m Hi) as He.
    destruct (slot_remove k (l, m)) as [l' m']. simpl in *. destruct (IH l' m' Hi') as [Hi'' He''].
    split; [done|]. rewrite He'', He, list_filter_filter. apply list_filter_iff. intros x.
    rewrite not_elem_of_cons. tauto.
Qed.

End Slots.

Lemma filter_ext_in {A} (P Q : A → Prop) `{!∀ a, Decision (P a)} `{!∀ a, Decision (Q a)} (l : list A) :
  (∀ a, a ∈ l → P a ↔ Q a) → filter P l = filter Q l.
Proof.
  induction l as [|a l IH]; intros HPQ; [done|]. rewrite !filter_cons, IH by (intros; apply HPQ; by right).
  destruct (HPQ a); [by left|]. repeat case_decide; tauto.
Qed.

Lemma filter_none {A} (P : A → Prop) `{!∀ a, Decision (P a)} (l : list A) :
  (∀ a, a ∈ l → ¬ P a) → filter P l = [].
Proof.
  induction l as [|a l IH]; intros HP; [done|].
  rewrite filter_cons_False by (apply HP; by left). apply IH. intros x Hx. apply HP. by right.
Qed.

Section Facts.
Context `{TP : ThreadPayloads}.

(** ** The table a client keeps *)

(** The metadata of the turns and the items, each in the order of its first
    change. *)
Record HistoryTable := {
  tb_turns : list ThreadHistoryTurnChange;
  tb_items : list ThreadHistoryItemChange;
}.
Definition empty_table : HistoryTable := {| tb_turns := []; tb_items := [] |}.

Definition remove_turns (ids : list str) (T : HistoryTable) : HistoryTable :=
  {| tb_turns := filter (λ t, tc_id t ∉ ids) (tb_turns T);
     tb_items := filter (λ c, ic_turn_id c ∉ ids) (tb_items T) |}.

(** A change set is applied by removing turns, then replacing or adding turns and
    items. *)
Definition apply_changes (c : ThreadHistoryChangeSet) (T : HistoryTable) : HistoryTable :=
  let T := remove_turns (removed_turn_ids c) T in
  {| tb_turns := upsert_all tc_id (changed_turns c) (tb_turns T);
     tb_items := upsert_all item_change_key (changed_items c) (tb_items T) |}.

Lemma remove_turns_nil T : remove_turns [] T = T.
Proof.
  destruct T as [ts its]. unfold remove_turns. simpl.
  f_equal; apply filter_all, Forall_forall; intros; apply not_elem_of_nil.
Qed.

Lemma apply_changes_default T : apply_changes changes_default T = T.
Proof. unfold apply_changes. cbn [removed_turn_ids changes_default]. rewrite remove_turns_nil. by destruct T. Qed.

(** ** The accumulator coalesces *)

Record acc_ok (a : ThreadHistoryChangeAccumulator) : Prop := {
  ok_items : indexed item_change_key (acc_items a) (acc_item_indexes a);
  ok_turns : indexed tc_id (acc_turns a) (acc_turn_indexes a);
  ok_removed : ∀ id, acc_removed_indexes a !! id = None ↔ id ∉ acc_removed a;
}.

Lemma accumulator_default_ok : acc_ok accumulator_default.
Proof.
  split; try apply indexed_empty. intros id. simpl. rewrite lookup_empty.
  split; [intros _; apply not_elem_of_nil|done].
Qed.

Lemma push_item_change_ok c a :
  acc_ok a → acc_ok (push_item_change c a) ∧
  ∀ T, apply_changes (acc_finish (push_item_change c a)) T
       = {| tb_turns := tb_turns (apply_changes (acc_finish a) T);
            tb_items := upsert_by item_change_key c (tb_items (apply_changes (acc_finish a) T)) |}.
Proof.
  intros [Hi Ht Hr]. pose proof (slot_put_indexed item_change_key c _ _ Hi) as Hi'.
  pose proof (λ T, slot_put_entries item_change_key c _ _ T Hi) as He.
  unfold push_item_change, slot_put in *. simpl in *.
  destruct (acc_item_indexes a !! item_change_key c); simpl in *; (split; [by split|]);
    intros T; unfold apply_changes, acc_finish; simpl; f_equal; apply He.
Qed.

Lemma push_turn_change_ok c a :
  acc_ok a → acc_ok (push_turn_change c a) ∧
  ∀ T, apply_changes (acc_finish (push_turn_change c a)) T
       = {| tb_turns := upsert_by tc_id c (tb_turns (apply_changes (acc_finish a) T));
            tb_items := tb_items (apply_changes (acc_finish a) T) |}.
Proof.
  intros [Hi Ht Hr]. pose proof (slot_put_indexed tc_id c _ _ Ht) as Ht'.
  pose proof (λ T, slot_put_entries tc_id c _ _ T Ht) as He.
  unfold push_turn_change, slot_put in *. simpl in *.
  destruct (acc_turn_indexes a !! tc_id c); simpl in *; (split; [by split|]);
    intros T; unfold apply_changes, acc_finish; simpl; f_equal; apply He.
Qed.

(** The items of a removed turn are emptied one key at a time. *)
Lemma remove_item_keys id a :
  acc_ok a →
  let ks := List.filter (λ key, bool_decide (key.1 = id)) (map_to_list (acc_item_indexes a)).*1 in
  let st := foldl remove_item_key (acc_items a, acc_item_indexes a) ks in
  indexed item_change_key st.1 st.2 ∧
  omap Datatypes.id st.1 = filter (λ c, ic_turn_id c ≠ id) (omap Datatypes.id (acc_items a)).
Proof.
  intros [Hi _ _] ks. pose proof (slots_removed item_change_key ks _ _ Hi) as [H1 H2].
  split; [exact H1|]. etrans; [exact H2|]. apply filter_ext_in. intros c Hc. unfold ks.
  rewrite list_elem_of_In, filter_In, bool_decide_eq_true, <- list_elem_of_In. simpl.
  destruct (indexed_keys item_change_key _ _ c Hi Hc) as [i Hlook].
  assert (Hk : item_change_key c ∈ (map_to_list (acc_item_indexes a)).*1).
  { apply list_elem_of_fmap. exists (item_change_key c, i). split; [done|]. by apply elem_of_map_to_list. }
  tauto.
Qed.

(** Removing one more turn commutes with the entries that remain. *)
Lemma removed_entries {A K} `{!EqDecision K} (key : A → K) (turn : A → str) (R R' : list str) (id : str) l T :
  (∀ a b, key a = key b → turn a = turn b) → (∀ x, x ∈ R' ↔ x = id ∨ x ∈ R) →
  upsert_all key (filter (λ c, turn c ≠ id) l) (filter (λ c, turn c ∉ R') T)
  = filter (λ c, turn c ∉ [id]) (upsert_all key l (filter (λ c, turn c ∉ R) T)).
Proof.
  intros Hk HR. rewrite upsert_all_filter by (intros a b Hab; by rewrite (Hk a b Hab)).
  rewrite list_filter_filter. f_equal; apply list_filter_iff; intros c.
  - by rewrite list_elem_of_singleton.
  - rewrite HR, list_elem_of_singleton. tauto.
Qed.

Lemma push_removed_turn_id_ok id a :
  acc_ok a → acc_ok (push_removed_turn_id id a) ∧
  ∀ T, apply_changes (acc_finish (push_removed_turn_id id a)) T
       = remove_turns [id] (apply_changes (acc_finish a) T).
Proof.
  intros Ha. pose proof (remove_item_keys id a Ha) as [Hi He]. destruct Ha as [_ Ht Hr].
  pose proof (slot_remove_indexed tc_id id _ _ Ht) as Ht'.
  pose proof (slot_remove_entries tc_id id _ _ Ht) as Hte.
  set (rem := match acc_removed_indexes a !! id with
              | Some _ => (acc_removed a, acc_removed_indexes a)
              | None => (acc_removed a ++ [id], <[id:=length (acc_removed a)]> (acc_removed_indexes a))
              end).
  assert (Hrem : (∀ x, x ∈ rem.1 ↔ x = id ∨ x ∈ acc_removed a) ∧ ∀ x, rem.2 !! x = None ↔ x ∉ rem.1).
  { unfold rem. destruct (acc_removed_indexes a !! id) eqn:Hid; simpl.
    - split; [|done]. intros x. split; [by right|]. intros [->|]; [|done].
      destruct (decide (id ∈ acc_removed a)) as [|Hn]; [done|]. apply Hr in Hn. congruence.
    - split; intros x; rewrite ?lookup_insert_None, ?Hr, ?elem_of_app, ?list_elem_of_singleton; [tauto|].
      split; [intros [? ?] [?|?]; congruence|]. intros Hx. split; [tauto|]. intros <-. tauto. }
  destruct Hrem as [Hin Hnone]. unfold push_removed_turn_id. fold rem.
  change (match acc_turn_indexes a !! id with Some index => _ | None => _ end)
    with (slot_remove id (acc_turns a, acc_turn_indexes a)).
  set (its := foldl remove_item_key _ _) in *. set (ts := slot_remove _ _) in *.
  destruct rem as [rem idx], its as [its idx'], ts as [ts idx'']. cbn [fst snd] in *.
  split; [by constructor|]. intros T. unfold apply_changes, acc_finish, remove_turns. cbn.
  rewrite He, Hte. f_equal; apply removed_entries; try done. intros c c' [= ? _]. done.
Qed.

Lemma remove_turns_cons id ids T : remove_turns (id :: ids) T = remove_turns ids (remove_turns [id] T).
Proof.
  unfold remove_turns. simpl. rewrite !list_filter_filter.
  f_equal; apply list_filter_iff; intros c; rewrite not_elem_of_cons, list_elem_of_singleton; tauto.
Qed.

Lemma push_removed_all ids a :
  acc_ok a → let a' := foldl (λ a id, push_removed_turn_id id a) a ids in
  acc_ok a' ∧ ∀ T, apply_changes (acc_finish a') T = remove_turns ids (apply_changes (acc_finish a) T).
Proof.
  revert a. induction ids as [|id ids IH]; intros a Ha; simpl.
  - split; [done|]. intros T. by rewrite remove_turns_nil.
  - destruct (push_removed_turn_id_ok id a Ha) as [Ha' He]. destruct (IH _ Ha') as [Ha'' He'].
    split; [done|]. intros T. by rewrite He', He, <- remove_turns_cons.
Qed.

Lemma push_items_all cs a :
  acc_ok a → let a' := foldl (λ a c, push_item_change c a) a cs in
  acc_ok a' ∧ ∀ T, apply_changes (acc_finish a') T
    = {| tb_turns := tb_turns (apply_changes (acc_finish a) T);
         tb_items := upsert_all item_change_key cs (tb_items (apply_changes (acc_finish a) T)) |}.
Proof.
  revert a. induction cs as [|c cs IH]; intros a Ha; simpl; [done|].
  destruct (push_item_change_ok c a Ha) as [Ha' He]. destruct (IH _ Ha') as [Ha'' He'].
  split; [done|]. intros T. by rewrite He', He.
Qed.

Lemma push_turns_all cs a :
  acc_ok a → let a' := foldl (λ a c, push_turn_change c a) a cs in
  acc_ok a' ∧ ∀ T, apply_changes (acc_finish a') T
    = {| tb_turns := upsert_all tc_id cs (tb_turns (apply_changes (acc_finish a) T));
         tb_items := tb_items (apply_changes (acc_finish a) T) |}.
Proof.
  revert a. induction cs as [|c cs IH]; intros a Ha; simpl; [done|].
  destruct (push_turn_change_ok c a Ha) as [Ha' He]. destruct (IH _ Ha') as [Ha'' He'].
  split; [done|]. intros T. by rewrite He', He.
Qed.

Lemma acc_push_ok c a :
  acc_ok a → acc_ok (acc_push a c) ∧
  ∀ T, apply_changes (acc_finish (acc_push a c)) T = apply_changes c (apply_changes (acc_finish a) T).
Proof.
  intros Ha. unfold acc_push. destruct (push_removed_all (removed_turn_ids c) a Ha) as [H1 E1].
  destruct (push_items_all (changed_items c) _ H1) as [H2 E2].
  destruct (push_turns_all (changed_turns c) _ H2) as [H3 E3].
  split; [done|]. intros T. by rewrite E3, E2, E1.
Qed.

Lemma coalesce cs a T :
  acc_ok a → apply_changes (acc_finish (foldl acc_push a cs)) T
             = foldl (λ T c, apply_changes c T) (apply_changes (acc_finish a) T) cs.
Proof.
  revert a. induction cs as [|c cs IH]; intros a Ha; simpl; [done|].
  destruct (acc_push_ok c a Ha) as [Ha' He]. by rewrite IH, He.
Qed.

Lemma coalesced cs T :
  apply_changes (acc_finish (foldl acc_push accumulator_default cs)) T = foldl (λ T c, apply_changes c T) T cs.
Proof.
  rewrite coalesce by apply accumulator_default_ok. change (acc_finish _) with changes_default.
  by rewrite apply_changes_default.
Qed.

(** ** The index of a turn's items *)

Definition same_id (id : str) (i : ThreadItem) : bool := bool_decide (item_id i = id).

(** The items after an upsert by search: the first item with the id is replaced,
    or the item is appended. *)
Definition upsert_item : ThreadItem → list ThreadItem → list ThreadItem := upsert_by item_id.

Definition index_ok (x : TurnItemIndex) (items : list ThreadItem) : Prop :=
  ∀ m, positions x = Some m → ∀ id, m !! id = position (same_id id) items.

Lemma position_app {A} (p : A → bool) l1 l2 :
  position p (l1 ++ l2) = match position p l1 with
                          | Some i => Some i
                          | None => (λ i, length l1 + i) <$> position p l2
                          end.
Proof.
  induction l1 as [|a l1 IH]; simpl; [by destruct (position p l2)|].
  destruct (p a); [done|]. rewrite IH. destruct (position p l1); [done|]. by destruct (position p l2).
Qed.

Lemma position_upsert item items :
  match position (same_id (item_id item)) items with
  | Some i => <[i := item]> items
  | None => items ++ [item]
  end = upsert_item item items.
Proof.
  unfold upsert_item. induction items as [|i items IH]; simpl; [done|]. unfold same_id at 1.
  case_decide as Hi; [by rewrite bool_decide_true|]. rewrite bool_decide_false by done. rewrite <- IH.
  destruct (position _ items); done.
Qed.

(** A replacement keeps the ids where they are. *)
Lemma position_insert_same item items i id :
  position (same_id (item_id item)) items = Some i →
  position (same_id id) (<[i := item]> items) = position (same_id id) items.
Proof.
  revert i. induction items as [|j items IH]; simpl; intros i; [done|]. unfold same_id at 1.
  case_bool_decide as Hj.
  - intros [= <-]. simpl. unfold same_id. by rewrite Hj.
  - destruct (position _ items) as [k|] eqn:Hk; intros [= <-]. simpl. by rewrite (IH k).
Qed.

Lemma entry_or_insert_lookup m k v k' :
  entry_or_insert m k v !! k' = match m !! k' with
                                | Some w => Some w
                                | None => if decide (k = k') then Some v else None
                                end.
Proof.
  unfold entry_or_insert. destruct (m !! k) eqn:Hk.
  - case_match; [done|]. case_decide; congruence.
  - destruct (decide (k = k')) as [<-|]; [by rewrite lookup_insert_eq, Hk|]. rewrite lookup_insert_ne by done.
    by case_match.
Qed.

Lemma index_items_lookup i items m id :
  index_items i items m !! id = match m !! id with
                                | Some w => Some w
                                | None => (λ j, i + j) <$> position (same_id id) items
                                end.
Proof.
  revert i m. induction items as [|a items IH]; intros i m; simpl; [by case_match|].
  rewrite IH, entry_or_insert_lookup. destruct (m !! id); [done|]. unfold same_id at 2.
  case_decide; case_bool_decide; try congruence; [simpl; f_equal; lia|].
  destruct (position _ items); simpl; [|done]. f_equal. lia.
Qed.

Lemma index_push_ok x items item : index_ok x items → index_ok (index_push x items item).1 (items ++ [item]).
Proof.
  intros Hx m Hm id. simpl in Hm. destruct (positions x) as [m'|] eqn:E; [|done]. simplify_eq/=.
  rewrite entry_or_insert_lookup, (Hx m' E id), position_app. simpl. unfold same_id at 3.
  destruct (position (same_id id) items); [done|].
  case_decide; case_bool_decide; try congruence; simpl; f_equal; lia.
Qed.

(** [upsert] through the index is the upsert by search, and the index stays right. *)
Lemma index_upsert_ok x items item :
  index_ok x items →
  (index_upsert x items item).2 = upsert_item item items ∧
  index_ok (index_upsert x items item).1 (index_upsert x items item).2.
Proof.
  intros Hx. unfold index_upsert.
  set (x' := if bool_decide _ && _ then _ else x).
  assert (Hx' : index_ok x' items).
  { unfold x'. case_match; [|done]. intros m [= <-] id. rewrite index_items_lookup, lookup_empty. simpl.
    by destruct (position _ items). }
  clearbody x'. clear Hx x.
  assert (Hp : match positions x' with Some m => m !! item_id item
               | None => position (λ existing, bool_decide (item_id existing = item_id item)) items end
               = position (same_id (item_id item)) items).
  { destruct (positions x') as [m|] eqn:E; [by apply Hx'|done]. }
  rewrite Hp, <- position_upsert. destruct (position (same_id (item_id item)) items) as [i|] eqn:Hi; simpl.
  - split; [done|]. intros m Hm id. by rewrite position_insert_same, (Hx' m Hm id).
  - split; [done|]. by apply index_push_ok.
Qed.


(** ** What an input does to the turns *)

Definition all_turns (b : ThreadHistoryBuilder) : list PendingTurn := turns b ++ option_list (current_turn b).

Definition item_change (id : str) (i : ThreadItem) : ThreadHistoryItemChange :=
  {| ic_turn_id := id; ic_item := i; ic_started_at_ms := None; ic_completed_at_ms := None |}.

Definition add_item (id : str) (i : ThreadItem) (c : ThreadHistoryChangeSet) : ThreadHistoryChangeSet :=
  {| changed_items := changed_items c ++ [item_change id i]; changed_turns := changed_turns c;
     removed_turn_ids := removed_turn_ids c |}.
Definition add_turn (t : PendingTurn) (c : ThreadHistoryChangeSet) : ThreadHistoryChangeSet :=
  {| changed_items := changed_items c; changed_turns := changed_turns c ++ [from_pending_turn t];
     removed_turn_ids := removed_turn_ids c |}.

(** What a client sees of a turn. *)
Definition same_view (t t' : PendingTurn) : Prop :=
  from_pending_turn t' = from_pending_turn t ∧ pt_items t' = pt_items t.

Definition item_ids (t : PendingTurn) : list str := map item_id (pt_items t).

(** The steps an input is made of: nothing a client sees, an item replaced or
    added, the metadata of a turn changed, a turn opened. *)
Inductive effect (b b' : ThreadHistoryBuilder) : Prop :=
  | effect_quiet :
      Forall2 same_view (all_turns b) (all_turns b') → active_change_set b' = active_change_set b → effect b b'
  | effect_item l1 t t' l2 item :
      all_turns b = l1 ++ t :: l2 → all_turns b' = l1 ++ t' :: l2 →
      from_pending_turn t' = from_pending_turn t → item_ids t `prefix_of` item_ids t' →
      (NoDup (item_ids t') → pt_items t' = upsert_item item (pt_items t)) →
      active_change_set b' = add_item (pt_id t) item <$> active_change_set b → effect b b'
  | effect_turn l1 t t' l2 :
      all_turns b = l1 ++ t :: l2 → all_turns b' = l1 ++ t' :: l2 →
      pt_id t' = pt_id t → pt_items t' = pt_items t →
      active_change_set b' = add_turn t' <$> active_change_set b → effect b b'
  | effect_open t :
      all_turns b' = all_turns b ++ [t] → pt_items t = [] →
      active_change_set b' = add_turn t <$> active_change_set b → effect b b'.

(** Turns have different ids, and the items of a turn have. *)
Definition distinct_ids (b : ThreadHistoryBuilder) : Prop :=
  NoDup (map pt_id (all_turns b)) ∧ Forall (λ t, NoDup (item_ids t)) (all_turns b).

(** The table holds the turns of the builder, and for each its items, in order. *)
Definition shows (T : HistoryTable) (b : ThreadHistoryBuilder) : Prop :=
  tb_turns T = map from_pending_turn (all_turns b) ∧
  (∀ t, t ∈ all_turns b →
     filter (λ c, ic_turn_id c = pt_id t) (tb_items T) = map (item_change (pt_id t)) (pt_items t)) ∧
  (∀ c, c ∈ tb_items T → ic_turn_id c ∈ map pt_id (all_turns b)).

(** The changes recorded so far bring the table up to the builder. *)
Definition tracks (T : HistoryTable) (b : ThreadHistoryBuilder) : Prop :=
  ∃ c, active_change_set b = Some c ∧ shows (apply_changes c T) b.

Lemma pending_id t t' : from_pending_turn t' = from_pending_turn t → pt_id t' = pt_id t.
Proof. by intros [= ->]. Qed.

Lemma same_views_ids l l' : Forall2 same_view l l' → map pt_id l' = map pt_id l.
Proof. induction 1 as [|t t' l l' [Hv _] _ IH]; simpl; [done|]. by rewrite IH, (pending_id _ _ Hv). Qed.

Lemma prefix_NoDup {A} (l k : list A) : l `prefix_of` k → NoDup k → NoDup l.
Proof. intros [m ->]. rewrite NoDup_app. tauto. Qed.

(** Ids that are distinct after a step were distinct before it. *)
Lemma effect_distinct b b' : effect b b' → distinct_ids b' → distinct_ids b.
Proof.
  unfold distinct_ids.
  intros [Hv _|l1 t t' l2 item -> -> Hv Hp _ _|l1 t t' l2 -> -> Hid Hit _|t -> Hit _] [Hids Hits].
  - split; [by rewrite <- (same_views_ids _ _ Hv)|]. clear Hids.
    induction Hv as [|t t' l l' [_ Hi] _ IH]; [done|]. apply Forall_cons in Hits as [Ht Hits].
    constructor; [|by apply IH]. unfold item_ids in *. by rewrite <- Hi.
  - rewrite !map_app in *. simpl in *. rewrite (pending_id _ _ Hv) in Hids. split; [done|].
    apply Forall_app in Hits as [H1 [H2 H3]%Forall_cons]. apply Forall_app. split; [done|].
    constructor; [|done]. by eapply prefix_NoDup.
  - rewrite !map_app in *. simpl in *. rewrite Hid in Hids. split; [done|].
    apply Forall_app in Hits as [H1 [H2 H3]%Forall_cons]. apply Forall_app. split; [done|].
    constructor; [|done]. unfold item_ids in *. by rewrite <- Hit.
  - rewrite map_app, NoDup_app in Hids. apply Forall_app in Hits. tauto.
Qed.

(** *** The table follows a step *)

Lemma upsert_item_changes id item items :
  upsert_by item_change_key (item_change id item) (map (item_change id) items)
  = map (item_change id) (upsert_item item items).
Proof.
  unfold upsert_item. induction items as [|i items IH]; simpl; [done|].
  unfold item_change_key at 1 2. simpl. repeat case_decide; [done| | |by rewrite IH]; congruence.
Qed.

Lemma apply_add_item id i c T :
  apply_changes (add_item id i c) T
  = {| tb_turns := tb_turns (apply_changes c T);
       tb_items := upsert_by item_change_key (item_change id i) (tb_items (apply_changes c T)) |}.
Proof. unfold apply_changes, upsert_all. simpl. by rewrite foldl_app. Qed.

Lemma apply_add_turn t c T :
  apply_changes (add_turn t c) T
  = {| tb_turns := upsert_by tc_id (from_pending_turn t) (tb_turns (apply_changes c T));
       tb_items := tb_items (apply_changes c T) |}.
Proof. unfold apply_changes, upsert_all. simpl. by rewrite foldl_app. Qed.

Lemma map_pending_ids l : map tc_id (map from_pending_turn l) = map pt_id l.
Proof. rewrite map_map. by apply map_ext. Qed.

(** The other turns of a list with distinct ids. *)
Lemma other_turn l1 (t : PendingTurn) l2 u :
  NoDup (map pt_id (l1 ++ t :: l2)) → u ∈ l1 ∨ u ∈ l2 → pt_id u ≠ pt_id t.
Proof.
  rewrite map_app. simpl. intros (_ & Hd & [Hni _]%NoDup_cons)%NoDup_app Hu Heq.
  destruct Hu as [Hu|Hu]; apply (list_elem_of_fmap_2 pt_id) in Hu; rewrite Heq in Hu.
  - apply (Hd _ Hu). by left.
  - done.
Qed.

Lemma shows_quiet U b b' : Forall2 same_view (all_turns b) (all_turns b') → shows U b → shows U b'.
Proof.
  intros Hv (Ht & Hi & Hc). split; [|split].
  - rewrite Ht. clear -Hv. induction Hv as [|t t' l l' [Hv _] _ IH]; simpl; [done|]. by rewrite IH, Hv.
  - intros t' (i & Ht')%list_elem_of_lookup. destruct (Forall2_lookup_r _ _ _ _ _ Hv Ht') as (t & Hl & Hp & His).
    rewrite (pending_id _ _ Hp), His. apply Hi. by apply list_elem_of_lookup_2 in Hl.
  - rewrite (same_views_ids _ _ Hv). done.
Qed.

Lemma shows_item U b b' l1 t t' l2 item :
  all_turns b = l1 ++ t :: l2 → all_turns b' = l1 ++ t' :: l2 → from_pending_turn t' = from_pending_turn t →
  pt_items t' = upsert_item item (pt_items t) → distinct_ids b → shows U b →
  shows {| tb_turns := tb_turns U;
           tb_items := upsert_by item_change_key (item_change (pt_id t) item) (tb_items U) |} b'.
Proof.
  unfold shows, distinct_ids. intros -> -> Hv His [Hids _] (Ht & Hi & Hc). simpl.
  pose proof (pending_id _ _ Hv) as Hid. split; [|split].
  - rewrite Ht, !map_app. simpl. by rewrite Hv.
  - intros u Hu. rewrite upsert_by_filter by (intros a c [= -> _]; done). simpl.
    rewrite elem_of_app, elem_of_cons in Hu. case_decide as Heq.
    + assert (u = t') as ->.
      { destruct Hu as [Hu|[->|Hu]]; [|done|]; exfalso; eapply other_turn; eauto. }
      rewrite Hid, Hi by (rewrite elem_of_app, elem_of_cons; tauto). by rewrite upsert_item_changes, His.
    + destruct Hu as [Hu|[->|Hu]]; [| congruence |]; apply Hi; rewrite elem_of_app, elem_of_cons; tauto.
  - intros c Hc'. apply (list_elem_of_fmap_2 item_change_key), upsert_by_keys in Hc'.
    assert (ic_turn_id c ∈ map pt_id (l1 ++ t :: l2)) as Hin.
    { destruct Hc' as [[= ->]|(c' & [= -> _] & Hc')%list_elem_of_fmap]; [|eauto].
      rewrite map_app, elem_of_app. right. by left. }
    rewrite map_app in *. simpl in *. by rewrite Hid.
Qed.

Lemma shows_turn U b b' l1 t t' l2 :
  all_turns b = l1 ++ t :: l2 → all_turns b' = l1 ++ t' :: l2 → pt_id t' = pt_id t → pt_items t' = pt_items t →
  distinct_ids b → shows U b →
  shows {| tb_turns := upsert_by tc_id (from_pending_turn t') (tb_turns U); tb_items := tb_items U |} b'.
Proof.
  unfold shows, distinct_ids. intros -> -> Hid His [Hids _] (Ht & Hi & Hc). simpl. split; [|split].
  - rewrite Ht, !map_app. simpl. apply upsert_by_split; [done|]. rewrite map_pending_ids. simpl. rewrite Hid.
    rewrite map_app in Hids. apply NoDup_app in Hids as (_ & Hd & _). intros Hin. apply (Hd _ Hin). by left.
  - intros u Hu. rewrite elem_of_app, elem_of_cons in Hu.
    destruct Hu as [Hu|[->|Hu]]; [| rewrite Hid, His |]; apply Hi; rewrite elem_of_app, elem_of_cons; tauto.
  - rewrite map_app in *. simpl in *. by rewrite Hid.
Qed.

Lemma shows_open U b b' t :
  all_turns b' = all_turns b ++ [t] → pt_items t = [] → distinct_ids b' → shows U b →
  shows {| tb_turns := upsert_by tc_id (from_pending_turn t) (tb_turns U); tb_items := tb_items U |} b'.
Proof.
  unfold shows, distinct_ids. intros -> His [Hids _] (Ht & Hi & Hc). simpl.
  rewrite map_app in Hids. apply NoDup_app in Hids as (_ & Hd & _).
  assert (Hnew : pt_id t ∉ map pt_id (all_turns b)) by (intros Hin; apply (Hd _ Hin); by left).
  split; [|split].
  - rewrite Ht, map_app. apply upsert_by_fresh. by rewrite map_pending_ids.
  - intros u [Hu|Hu%list_elem_of_singleton]%elem_of_app; [by apply Hi|]. subst u. rewrite His. simpl.
    apply filter_none. intros c Hcin Heq. apply Hnew. rewrite <- Heq. by apply Hc.
  - intros c Hc'. rewrite map_app, elem_of_app. left. by apply Hc.
Qed.

Lemma effect_tracks T b b' : effect b b' → distinct_ids b' → tracks T b → tracks T b'.
Proof.
  intros He Hd (c & Hc & Hs). pose proof (effect_distinct _ _ He Hd) as Hd0.
  destruct He as [Hv Ha|l1 t t' l2 item Hb Hb' Hv _ Hup Ha|l1 t t' l2 Hb Hb' Hid His Ha|t Hb His Ha];
    rewrite Hc in Ha; simpl in Ha.
  - exists c. split; [done|]. by eapply shows_quiet.
  - exists (add_item (pt_id t) item c). split; [done|]. rewrite apply_add_item.
    apply (shows_item _ b b' l1 t t' l2); try done. apply Hup. destruct Hd as [_ Hits].
    rewrite Hb' in Hits. by apply Forall_app in Hits as [_ [H _]%Forall_cons].
  - exists (add_turn t' c). split; [done|]. rewrite apply_add_turn. by apply (shows_turn _ b b' l1 t t' l2).
  - exists (add_turn t c). split; [done|]. rewrite apply_add_turn. by apply (shows_open _ b b').
Qed.

Lemma effects_track T b b' : rtc effect b b' → distinct_ids b' → tracks T b → tracks T b'.
Proof.
  assert (Hdist : ∀ b b', rtc effect b b' → distinct_ids b' → distinct_ids b).
  { induction 1; eauto using effect_distinct. }
  induction 1; [done|]. eauto using effect_tracks.
Qed.

End Facts.

(** * Runs of the thread history

    Every handler of the reducer is a sequence of the steps of [effect]; along a
    run the index of every turn agrees with its items, and the turn being built is
    one that is kept when it ends. *)

Section Runs.
Context `{TP : ThreadPayloads}.
Implicit Types (b : ThreadHistoryBuilder) (t : PendingTurn) (i : ThreadItem).

(** ** Recording *)

Lemma record_turn_all_turns c b : all_turns (record_changed_turn c b) = all_turns b.
Proof. unfold record_changed_turn. by case_match. Qed.
Lemma record_pending_all_turns t b : all_turns (record_changed_pending_turn t b) = all_turns b.
Proof. unfold record_changed_pending_turn. case_match; [apply record_turn_all_turns|done]. Qed.

Lemma record_turn_active t b :
  active_change_set (record_changed_turn (from_pending_turn t) b) = add_turn t <$> active_change_set b.
Proof. unfold record_changed_turn. by destruct (active_change_set b) eqn:E; simpl; rewrite ?E. Qed.
Lemma record_pending_active t b :
  active_change_set (record_changed_pending_turn t b) = add_turn t <$> active_change_set b.
Proof.
  unfold record_changed_pending_turn, is_tracking_changes. case_bool_decide as E; [apply record_turn_active|].
  destruct (active_change_set b) eqn:Ea; [|done]. exfalso. apply E. eauto.
Qed.

(** A record of an item changes nothing else, and is the addition to what is
    tracked. *)
Lemma record_item_spec tracking id i b :
  tracking = is_tracking_changes b →
  turns (record_item_if tracking id i b) = turns b ∧
  current_turn (record_item_if tracking id i b) = current_turn b ∧
  active_change_set (record_item_if tracking id i b) = add_item id i <$> active_change_set b.
Proof.
  intros ->. unfold record_item_if, record_changed_item, is_tracking_changes.
  destruct (active_change_set b) as [c|] eqn:E.
  - rewrite bool_decide_true by eauto. done.
  - rewrite bool_decide_false by (by intros [? ?]). by rewrite E.
Qed.

Lemma record_pending_tracking t b : is_tracking_changes (record_changed_pending_turn t b) = is_tracking_changes b.
Proof.
  unfold is_tracking_changes. apply bool_decide_ext. rewrite record_pending_active. apply fmap_is_Some.
Qed.

(** ** What holds along a run *)

(** The condition of [finish_current_turn]. *)
Definition kept t : Prop := pt_items t ≠ [] ∨ pt_opened_explicitly t = true ∨ pt_saw_compaction t = true.
Definition indexed_turn t : Prop := index_ok (pt_item_index t) (pt_items t).

Record good b : Prop := {
  good_index : Forall indexed_turn (all_turns b);
  good_kept : ∀ t, current_turn b = Some t → kept t;
}.

Definition evolves b b' : Prop := good b → good b' ∧ rtc effect b b'.

Lemma evolves_refl b : evolves b b.
Proof. intros H. split; [done|]. apply rtc_refl. Qed.
Lemma evolves_trans b1 b2 b3 : evolves b1 b2 → evolves b2 b3 → evolves b1 b3.
Proof. intros H1 H2 Hg. destruct (H1 Hg) as [Hg2 ?]. destruct (H2 Hg2). split; [done|]. by etrans. Qed.

Lemma same_views_refl l : Forall2 same_view l l.
Proof. induction l; constructor; done. Qed.

Lemma effect_same b b' :
  all_turns b' = all_turns b → active_change_set b' = active_change_set b → effect b b'.
Proof. intros H ?. apply effect_quiet; [|done]. rewrite H. apply same_views_refl. Qed.

Lemma evolves_same b b' :
  turns b' = turns b → current_turn b' = current_turn b → active_change_set b' = active_change_set b → evolves b b'.
Proof.
  intros Ht Hc Ha [Hi Hk]. assert (Hall : all_turns b' = all_turns b) by (unfold all_turns; by rewrite Ht, Hc).
  split; [split; [by rewrite Hall|by rewrite Hc]|]. by apply rtc_once, effect_same.
Qed.

Lemma evolves_advance b : evolves b (advance_rollout b).
Proof. by apply evolves_same. Qed.
Lemma evolves_next_item b n : evolves b (set_next_item b n).
Proof. by apply evolves_same. Qed.

(** A turn that is kept is never dropped. *)
Lemma finish_kept b :
  (∀ t, current_turn b = Some t → kept t) →
  turns (finish_current_turn b) = all_turns b ∧ current_turn (finish_current_turn b) = None ∧
  active_change_set (finish_current_turn b) = active_change_set b.
Proof.
  intros Hk. unfold finish_current_turn, all_turns. destruct (current_turn b) as [t|] eqn:Hc; simpl.
  - destruct (Hk t eq_refl) as [H|[H|H]]; rewrite ?H, ?andb_false_r; simpl; try done.
    rewrite bool_decide_false; [done|]. intros Hl. by apply nil_length_inv in Hl.
  - by rewrite app_nil_r.
Qed.

Lemma evolves_finish b : evolves b (finish_current_turn b).
Proof.
  intros [Hi Hk]. destruct (finish_kept b Hk) as (Ht & Hc & Ha).
  assert (Hall : all_turns (finish_current_turn b) = all_turns b) by (unfold all_turns at 1; by rewrite Ht, Hc, app_nil_r).
  split; [split; [by rewrite Hall|by rewrite Hc]|]. by apply rtc_once, effect_same.
Qed.

(** ** Items *)

Lemma all_turns_current b t : current_turn b = Some t → all_turns b = turns b ++ t :: [].
Proof. unfold all_turns. by intros ->. Qed.

Lemma nodup_snoc_upsert items i : NoDup (map item_id (items ++ [i])) → items ++ [i] = upsert_item i items.
Proof.
  rewrite map_app. intros (_ & Hd & _)%NoDup_app. symmetry. apply upsert_by_fresh.
  intros Hin. apply (Hd _ Hin). by left.
Qed.

Lemma upsert_item_ids i items : map item_id items `prefix_of` map item_id (upsert_item i items).
Proof.
  unfold upsert_item. induction items as [|j items IH]; simpl; [apply prefix_nil|].
  case_decide as E; simpl; [by rewrite E|]. by apply prefix_cons.
Qed.

Lemma upsert_item_nonempty i items : upsert_item i items ≠ [].
Proof. unfold upsert_item. destruct items; simpl; [done|]. by case_decide. Qed.

(** [t'] is [t] with new items: an item was replaced or added. *)
Lemma item_effect b b' l1 t t' l2 tracking i :
  all_turns b = l1 ++ t :: l2 → all_turns b' = l1 ++ t' :: l2 → from_pending_turn t' = from_pending_turn t →
  item_ids t `prefix_of` item_ids t' → (NoDup (item_ids t') → pt_items t' = upsert_item i (pt_items t)) →
  active_change_set b' = active_change_set b → tracking = is_tracking_changes b →
  effect b (record_item_if tracking (pt_id t) i b').
Proof.
  intros Hb Hb' Hv Hp Hup Ha Htr.
  destruct (record_item_spec tracking (pt_id t) i b') as (H1 & H2 & H3).
  { unfold is_tracking_changes in *. by rewrite Ha. }
  apply (effect_item _ _ l1 t t' l2 i); try done.
  - unfold all_turns. rewrite H1, H2. exact Hb'.
  - by rewrite H3, Ha.
Qed.

Lemma upsert_in_spec i t :
  indexed_turn t →
  pt_items (upsert_in i t) = upsert_item i (pt_items t) ∧ indexed_turn (upsert_in i t) ∧
  from_pending_turn (upsert_in i t) = from_pending_turn t ∧ kept (upsert_in i t).
Proof.
  intros Hi. destruct (index_upsert_ok _ _ i Hi) as [Hup Hok]. unfold upsert_in, indexed_turn, kept. simpl.
  rewrite Hup in *. split; [done|]. split; [done|]. split; [done|]. left. apply upsert_item_nonempty.
Qed.

Lemma index_default_ok items : index_ok index_default items.
Proof. intros m [=]. Qed.

(** Opening a turn without items. *)
Lemma open_effect b t :
  current_turn b = None → pt_items t = [] → effect b (set_current (record_changed_pending_turn t b) (Some t)).
Proof.
  intros Hc Hi. apply (effect_open _ _ t); [|done|apply record_pending_active].
  pose proof (record_pending_all_turns t b) as H. unfold all_turns in *. simpl. rewrite Hc in *. simpl in *.
  rewrite app_nil_r in *. unfold record_changed_pending_turn, record_changed_turn.
  by repeat case_match.
Qed.

Lemma open_turns t b : turns (set_current (record_changed_pending_turn t b) (Some t)) = turns b.
Proof. unfold record_changed_pending_turn, record_changed_turn. by repeat case_match. Qed.

Lemma ensure_turn_spec fresh b :
  Forall indexed_turn (all_turns b) →
  let '(t, b1) := ensure_turn fresh b in
  current_turn b1 = Some t ∧ Forall indexed_turn (all_turns b1) ∧ rtc effect b b1 ∧
  is_tracking_changes b1 = is_tracking_changes b.
Proof.
  intros Hi. unfold ensure_turn. destruct (current_turn b) as [t|] eqn:Hc.
  - split; [done|]. split; [done|]. split; [apply rtc_refl|done].
  - set (t := new_turn fresh None b). split; [done|]. split; [|split].
    + unfold all_turns in *. rewrite Hc, app_nil_r in Hi. rewrite open_turns. simpl.
      apply Forall_app. split; [done|]. constructor; [|done]. apply index_default_ok.
    + apply rtc_once. by apply open_effect.
    + unfold is_tracking_changes at 1. simpl. apply record_pending_tracking.
Qed.

(** What an operation that puts item [i] into a turn makes of it. *)
Definition takes_item i t t' : Prop :=
  indexed_turn t' ∧ from_pending_turn t' = from_pending_turn t ∧ kept t' ∧
  item_ids t `prefix_of` item_ids t' ∧ (NoDup (item_ids t') → pt_items t' = upsert_item i (pt_items t)).

Lemma current_item b t t' i :
  current_turn b = Some t → Forall indexed_turn (all_turns b) → (indexed_turn t → takes_item i t t') →
  let b' := record_item_if (is_tracking_changes b) (pt_id t) i (set_current b (Some t')) in
  good b' ∧ effect b b'.
Proof.
  intros Hc Hi Hf b'. pose proof (all_turns_current _ _ Hc) as Hall. rewrite Hall in Hi.
  apply Forall_app in Hi as [Hts [Ht _]%Forall_cons]. destruct (Hf Ht) as (Hidx & Hv & Hkept & Hp & Hup).
  destruct (record_item_spec (is_tracking_changes b) (pt_id t) i (set_current b (Some t'))) as (R1 & R2 & R3); [done|].
  split.
  - split; [|intros u Hu; unfold b' in Hu; rewrite R2 in Hu; by simplify_eq/=].
    unfold all_turns, b'. rewrite R1, R2. simpl. apply Forall_app. split; [done|]. by constructor.
  - by apply (item_effect _ _ (turns b) t t' []).
Qed.

(** An operation that puts an item into the current turn. *)
Lemma evolves_current fresh b i (f : PendingTurn → PendingTurn) :
  (∀ t, t = (ensure_turn fresh b).1 → indexed_turn t → takes_item i t (f t)) →
  evolves b (let '(t, b1) := ensure_turn fresh b in
             record_item_if (is_tracking_changes b) (pt_id t) i (set_current b1 (Some (f t)))).
Proof.
  intros Hf [Hi Hk]. pose proof (ensure_turn_spec fresh b Hi) as He.
  destruct (ensure_turn fresh b) as [t b1]. destruct He as (Hc & Hi1 & Heff & Htr).
  destruct (current_item b1 t (f t) i Hc Hi1 (Hf t eq_refl)) as [Hg He]. rewrite <- Htr.
  split; [done|]. etrans; [exact Heff|]. by apply rtc_once.
Qed.

Lemma evolves_push fresh i b : evolves b (push_item_in_current_turn fresh i b).
Proof.
  apply (evolves_current fresh b i (λ t, set_pt_items t (index_push (pt_item_index t) (pt_items t) i))).
  intros t _ Ht. unfold takes_item, indexed_turn, item_ids, kept. simpl. split; [by apply index_push_ok|].
  split; [done|]. split; [left; by destruct (pt_items t)|].
  split; [rewrite map_app; by eexists|apply nodup_snoc_upsert].
Qed.

Lemma upsert_in_evolution i t : indexed_turn t → takes_item i t (upsert_in i t).
Proof.
  intros Ht. destruct (upsert_in_spec i t Ht) as (Hi & Hidx & Hv & Hk). unfold takes_item, item_ids. rewrite Hi.
  split; [done|]. split; [done|]. split; [done|]. split; [apply upsert_item_ids|done].
Qed.

Lemma evolves_upsert_current fresh i b : evolves b (upsert_item_in_current_turn fresh i b).
Proof. apply (evolves_current fresh b i (upsert_in i)). intros t _. apply upsert_in_evolution. Qed.

(** The first turn with an id, replaced. *)
Lemma update_first_split p f l t ts :
  update_first p f l = Some (t, ts) →
  ∃ l1 u l2, l = l1 ++ u :: l2 ∧ ts = l1 ++ t :: l2 ∧ t = f u ∧ p u = true.
Proof.
  revert ts. induction l as [|a l IH]; intros ts; simpl; [done|]. destruct (p a) eqn:Hp.
  - intros [= <- <-]. by exists [], a, l.
  - destruct (update_first p f l) as [[u l']|]; [|done]. intros [= -> <-].
    destruct (IH l' eq_refl) as (l1 & v & l2 & -> & -> & H1 & H2). by exists (a :: l1), v, l2.
Qed.

Lemma evolves_upsert_finished id i b t ts :
  update_first (has_id id) (upsert_in i) (turns b) = Some (t, ts) →
  evolves b (record_item_if (is_tracking_changes b) (pt_id t) i (set_turns b ts)).
Proof.
  intros (l1 & u & l2 & Hl & -> & -> & _)%update_first_split [Hi Hk].
  assert (Hall : all_turns b = l1 ++ u :: (l2 ++ option_list (current_turn b))).
  { unfold all_turns. rewrite Hl. by rewrite <- app_assoc. }
  rewrite Hall in Hi. apply Forall_app in Hi as [H1 [Hu H2]%Forall_cons].
  destruct (upsert_in_evolution i u Hu) as (Hidx & Hv & _ & Hp & Hup).
  assert (Hall' : all_turns (set_turns b (l1 ++ upsert_in i u :: l2))
                  = l1 ++ upsert_in i u :: (l2 ++ option_list (current_turn b))).
  { unfold all_turns. simpl. by rewrite <- app_assoc. }
  destruct (record_item_spec (is_tracking_changes b) (pt_id u) i (set_turns b (l1 ++ upsert_in i u :: l2)))
    as (R1 & R2 & R3); [done|]. change (pt_id (upsert_in i u)) with (pt_id u). split.
  - split; [|by rewrite R2]. unfold all_turns. rewrite R1, R2. fold (all_turns (set_turns b (l1 ++ upsert_in i u :: l2))).
    rewrite Hall'. apply Forall_app. split; [done|]. by constructor.
  - by apply rtc_once, (item_effect _ _ l1 u (upsert_in i u) (l2 ++ option_list (current_turn b))).
Qed.

Lemma evolves_upsert_turn id i b : evolves b (upsert_item_in_turn_id id i b).
Proof.
  unfold upsert_item_in_turn_id.
  assert (Hfin : evolves b (match update_first (has_id id) (upsert_in i) (turns b) with
                            | Some (t, ts) => record_item_if (is_tracking_changes b) (pt_id t) i (set_turns b ts)
                            | None => b
                            end)).
  { destruct (update_first _ _ _) as [[t ts]|] eqn:E; [by eapply evolves_upsert_finished|apply evolves_refl]. }
  destruct (current_turn b) as [t|] eqn:Hc; [|done]. destruct (has_id id t); [|done].
  pose proof (evolves_upsert_current [] i b) as H. unfold upsert_item_in_current_turn, ensure_turn in H.
  by rewrite Hc in H.
Qed.

Lemma evolves_routed fresh id i b : evolves b (upsert_item_routed fresh id i b).
Proof. unfold upsert_item_routed. case_match; [apply evolves_upsert_current|apply evolves_upsert_turn]. Qed.

(** Reasoning added to the last item, or a new item. *)
Lemma update_last_upsert items i j :
  last items = Some j → item_id i = item_id j → NoDup (map item_id items) →
  update_last (λ _, i) items = upsert_item i items.
Proof.
  intros [l ->]%last_Some Hid Hnd. rewrite update_last_snoc. unfold upsert_item.
  rewrite map_app in Hnd. apply NoDup_app in Hnd as (_ & Hd & _).
  rewrite upsert_by_split; [done|done|]. intros Hin. apply (Hd _ Hin). rewrite Hid. by left.
Qed.

Lemma update_last_ids items i j :
  last items = Some j → item_id i = item_id j → map item_id (update_last (λ _, i) items) = map item_id items.
Proof. intros [l ->]%last_Some Hid. rewrite update_last_snoc, !map_app. simpl. by rewrite Hid. Qed.

Lemma position_map_ids items items' id :
  map item_id items' = map item_id items → position (same_id id) items' = position (same_id id) items.
Proof.
  revert items'. induction items as [|j items IH]; intros [|j' items']; simpl; intros [=]; [done|].
  unfold same_id at 1 3. rewrite H0. case_match; [done|]. by rewrite (IH items').
Qed.

(** The id is drawn before or after the turn is opened. *)
Lemma push_after_ensure fresh i n b :
  push_item_in_current_turn fresh i (set_next_item (ensure_turn fresh b).2 n)
  = push_item_in_current_turn fresh i (set_next_item b n).
Proof.
  destruct b as [ts [t|] k r nr [c|]]; unfold ensure_turn; simpl; done.
Qed.

Lemma evolves_extend b t i j :
  current_turn b = Some t → last (pt_items t) = Some j → item_id i = item_id j →
  evolves b (record_item_if (is_tracking_changes b) (pt_id t) i
               (set_current b (Some (set_pt_items t (pt_item_index t, update_last (λ _, i) (pt_items t)))))).
Proof.
  intros Hc Hl Hid.
  pose proof (evolves_current [] b i (λ t, set_pt_items t (pt_item_index t, update_last (λ _, i) (pt_items t)))) as H.
  unfold ensure_turn in H. rewrite Hc in H. simpl in H. apply H. clear H. intros u -> Ht.
  pose proof (update_last_ids _ _ _ Hl Hid) as Hids.
  unfold takes_item, indexed_turn, item_ids, kept in *. simpl. rewrite Hids. split; [|split; [done|split; [|split; [done|]]]].
  - intros m Hm id. rewrite (position_map_ids (pt_items t)) by done. by apply Ht.
  - left. by apply last_Some in Hl as [l ->]; rewrite update_last_snoc; destruct l.
  - intros Hnd. by eapply update_last_upsert.
Qed.

Lemma evolves_reasoning fresh extend create b :
  (∀ i j, extend i = Some j → item_id j = item_id i) → evolves b (handle_reasoning fresh extend create b).
Proof.
  intros Hext. unfold handle_reasoning.
  assert (Hnew : evolves b (let '(id, b') := next_item_id (ensure_turn fresh b).2 in
                            push_item_in_current_turn fresh (create id) b')).
  { simpl. rewrite push_after_ensure. eapply evolves_trans; [apply evolves_next_item|apply evolves_push]. }
  destruct (ensure_turn fresh b) as [t b1] eqn:He. destruct (last (pt_items t) ≫= extend) as [i|] eqn:Hx; [|exact Hnew].
  apply bind_Some in Hx as (j & Hl & Hj). unfold ensure_turn in He. destruct (current_turn b) as [u|] eqn:Hc.
  - simplify_eq. eapply evolves_extend; eauto.
  - by simplify_eq/=.
Qed.

(** ** Turns *)

(** A change of the outcome of a turn. *)
Definition outcome_of t t' : Prop := ∃ status error completed duration, t' = set_pt_outcome t status error completed duration.

Lemma turn_effect b b' l1 t t' l2 :
  all_turns b = l1 ++ t :: l2 → all_turns b' = l1 ++ t' :: l2 → outcome_of t t' →
  active_change_set b' = active_change_set b →
  effect b (record_changed_turn (from_pending_turn t') b').
Proof.
  intros Hb Hb' (s & e & c & d & ->) Ha. apply (effect_turn _ _ l1 t (set_pt_outcome t s e c d) l2); try done.
  - by rewrite record_turn_all_turns.
  - by rewrite record_turn_active, Ha.
Qed.

Lemma record_turn_fields c b :
  turns (record_changed_turn c b) = turns b ∧ current_turn (record_changed_turn c b) = current_turn b.
Proof. unfold record_changed_turn. by case_match. Qed.

Lemma evolves_outcome_current b t t' :
  current_turn b = Some t → outcome_of t t' →
  evolves b (record_changed_turn (from_pending_turn t') (set_current b (Some t'))).
Proof.
  intros Hc Ho [Hi Hk]. destruct (record_turn_fields (from_pending_turn t') (set_current b (Some t'))) as [R1 R2].
  split.
  - rewrite (all_turns_current _ _ Hc) in Hi. apply Forall_app in Hi as [H1 [H2 _]%Forall_cons].
    split.
    + rewrite record_turn_all_turns. unfold all_turns. simpl. apply Forall_app. split; [done|].
      constructor; [|done]. by destruct Ho as (?&?&?&?&->).
    + intros u Hu. rewrite R2 in Hu. simplify_eq/=. specialize (Hk _ Hc). by destruct Ho as (?&?&?&?&->).
  - apply rtc_once. apply (turn_effect _ _ (turns b) t _ []); try done. by apply all_turns_current.
Qed.

Lemma evolves_outcome_finished b id f t ts :
  (∀ u, outcome_of u (f u)) → update_first (has_id id) f (turns b) = Some (t, ts) →
  evolves b (record_changed_turn (from_pending_turn t) (set_turns b ts)).
Proof.
  intros Hf (l1 & u & l2 & Hl & -> & -> & _)%update_first_split [Hi Hk].
  assert (Hall : all_turns b = l1 ++ u :: (l2 ++ option_list (current_turn b))).
  { unfold all_turns. rewrite Hl. by rewrite <- app_assoc. }
  assert (Hall' : all_turns (set_turns b (l1 ++ f u :: l2)) = l1 ++ f u :: (l2 ++ option_list (current_turn b))).
  { unfold all_turns. simpl. by rewrite <- app_assoc. }
  rewrite Hall in Hi. apply Forall_app in Hi as [H1 [H2 H3]%Forall_cons]. split.
  - split.
    + rewrite record_turn_all_turns, Hall'. apply Forall_app. split; [done|]. constructor; [|done].
      by destruct (Hf u) as (?&?&?&?&->).
    + by rewrite (proj2 (record_turn_fields _ _)).
  - by apply rtc_once, (turn_effect _ _ l1 u (f u) (l2 ++ option_list (current_turn b))).
Qed.

Lemma good_opened b t :
  current_turn b = None → Forall indexed_turn (all_turns b) → pt_item_index t = index_default →
  Forall indexed_turn (all_turns (set_current (record_changed_pending_turn t b) (Some t))).
Proof.
  intros Hc Hi Hx. unfold all_turns in *. rewrite Hc, app_nil_r in Hi. rewrite open_turns. simpl.
  apply Forall_app. split; [done|]. constructor; [|done]. unfold indexed_turn. rewrite Hx. apply index_default_ok.
Qed.

Lemma evolves_start b t :
  current_turn b = None → pt_items t = [] → pt_item_index t = index_default → pt_opened_explicitly t = true →
  evolves b (set_current (record_changed_pending_turn t b) (Some t)).
Proof.
  intros Hc Hi Hx Ho [Hidx _]. split; [|apply rtc_once; by apply open_effect].
  split; [by apply good_opened|]. intros u [= <-]. by right; left.
Qed.

Lemma finish_no_current b : current_turn (finish_current_turn b) = None.
Proof. unfold finish_current_turn. destruct (current_turn b) eqn:E; [|done]. by case_match. Qed.

Lemma evolves_turn_started fresh p b : evolves b (handle_turn_started fresh p b).
Proof.
  unfold handle_turn_started. eapply evolves_trans; [apply evolves_finish|].
  apply evolves_start; try done. apply finish_no_current.
Qed.

Lemma evolves_compacted fresh b : evolves b (handle_compacted fresh b).
Proof.
  intros [Hi Hk]. unfold handle_compacted. pose proof (ensure_turn_spec fresh b Hi) as He.
  destruct (ensure_turn fresh b) as [t b1]. destruct He as (Hc & Hi1 & Heff & _).
  rewrite (all_turns_current _ _ Hc) in Hi1. apply Forall_app in Hi1 as [Hts [Ht _]%Forall_cons]. split.
  - split; [|intros u [= <-]; by right; right]. unfold all_turns. simpl. apply Forall_app. split; [done|].
    by constructor.
  - etrans; [exact Heff|]. apply rtc_once, effect_quiet; [|done].
    rewrite (all_turns_current _ _ Hc). unfold all_turns. simpl.
    apply Forall2_app; [apply same_views_refl|]. by repeat constructor.
Qed.

Lemma evolves_review fresh id i b : evolves b (upsert_review_mode_item fresh id i b).
Proof.
  unfold upsert_review_mode_item. destruct id as [id|]; [|apply evolves_upsert_current].
  case_match; [|apply evolves_upsert_turn].
  eapply evolves_trans; [apply evolves_finish|]. pose proof (finish_no_current b) as Hc.
  generalize dependent (finish_current_turn b). clear. intros b Hc [Hi _].
  set (t := new_turn fresh (Some id) b). set (b1 := set_current (record_changed_pending_turn t b) (Some t)).
  assert (Hi1 : Forall indexed_turn (all_turns b1)) by (by apply good_opened).
  destruct (current_item b1 t (upsert_in i t) i eq_refl Hi1 (upsert_in_evolution i t)) as [Hg He].
  assert (Hb : upsert_item_in_turn_id id i b1
               = record_item_if (is_tracking_changes b1) (pt_id t) i (set_current b1 (Some (upsert_in i t)))).
  { assert (Hid : has_id id t = true) by by apply bool_decide_eq_true.
    unfold upsert_item_in_turn_id. change (current_turn b1) with (Some t). cbv beta iota. by rewrite Hid. }
  rewrite Hb. split; [exact Hg|]. apply (rtc_l _ _ b1); [by apply open_effect|]. by apply rtc_once.
Qed.


Lemma evolves_user_message fresh p b : evolves b (handle_user_message fresh p b).
Proof.
  unfold handle_user_message. set (b1 := match current_turn b with Some t => _ | None => b end).
  assert (H1 : evolves b b1).
  { unfold b1. destruct (current_turn b); [|apply evolves_refl]. case_match; [apply evolves_finish|apply evolves_refl]. }
  simpl. eapply evolves_trans; [exact H1|]. eapply evolves_trans; [apply evolves_next_item|apply evolves_push].
Qed.

Lemma evolves_push_next fresh (create : str → ThreadItem) b :
  evolves b (let '(id, b') := next_item_id b in push_item_in_current_turn fresh (create id) b').
Proof. simpl. eapply evolves_trans; [apply evolves_next_item|apply evolves_push]. Qed.

Lemma evolves_error p b : evolves b (handle_error p b).
Proof.
  unfold handle_error. case_match; [apply evolves_refl|]. destruct (current_turn b) as [t|] eqn:Hc; [|apply evolves_refl].
  set (t' := set_pt_outcome t _ _ _ _). assert (Ho : outcome_of t t') by (unfold t'; red; eauto).
  replace (if is_tracking_changes b then _ else _)
    with (record_changed_turn (from_pending_turn t') (set_current b (Some t'))); [by apply evolves_outcome_current with t|].
  unfold is_tracking_changes. case_bool_decide as E; [done|]. unfold record_changed_turn. simpl.
  destruct (active_change_set b); [|done]. exfalso. apply E. eauto.
Qed.

Lemma evolves_turn_aborted p b : evolves b (handle_turn_aborted p b).
Proof.
  unfold handle_turn_aborted. assert (Ho : ∀ t, outcome_of t (apply_abort p t)) by (intros; red; unfold apply_abort; eauto).
  assert (Hcur : ∀ t, current_turn b = Some t →
    evolves b (record_changed_turn (from_pending_turn (apply_abort p t)) (set_current b (Some (apply_abort p t))))).
  { intros t Hc. by apply evolves_outcome_current with t. }
  assert (Hfin : ∀ id, evolves b
    match update_first (has_id id) (apply_abort p) (turns b) with
    | Some (t, ts) => record_changed_turn (from_pending_turn t) (set_turns b ts)
    | None => match current_turn b with
              | Some t => record_changed_turn (from_pending_turn (apply_abort p t)) (set_current b (Some (apply_abort p t)))
              | None => b
              end
    end).
  { intros id. destruct (update_first _ _ _) as [[t ts]|] eqn:E; [by eapply evolves_outcome_finished|].
    destruct (current_turn b) as [t|] eqn:Hc; [by apply Hcur|apply evolves_refl]. }
  destruct (ta_turn_id p) as [id|].
  - specialize (Hfin id). destruct (current_turn b) as [t|] eqn:Hc; [|done].
    destruct (has_id id t); [by apply Hcur|done].
  - destruct (current_turn b) as [t|] eqn:Hc; [by apply Hcur|apply evolves_refl].
Qed.

Lemma apply_completion_outcome p t : outcome_of t (apply_completion p t).
Proof. unfold apply_completion. destruct (tc_error p); red; eauto. Qed.

Lemma evolves_turn_complete p b : evolves b (handle_turn_complete p b).
Proof.
  unfold handle_turn_complete. pose proof (apply_completion_outcome p) as Ho.
  assert (Hcur : ∀ t, current_turn b = Some t →
    evolves b (finish_current_turn (record_changed_turn (from_pending_turn (apply_completion p t))
                                      (set_current b (Some (apply_completion p t)))))).
  { intros t Hc. eapply evolves_trans; [by apply evolves_outcome_current with t|apply evolves_finish]. }
  assert (Hfin : evolves b
    match update_first (has_id (tc_turn_id p)) (apply_completion p) (turns b) with
    | Some (t, ts) => record_changed_turn (from_pending_turn t) (set_turns b ts)
    | None => match current_turn b with
              | Some t => finish_current_turn (record_changed_turn (from_pending_turn (apply_completion p t))
                                      (set_current b (Some (apply_completion p t))))
              | None => b
              end
    end).
  { destruct (update_first _ _ _) as [[t ts]|] eqn:E; [by eapply evolves_outcome_finished|].
    destruct (current_turn b) as [t|] eqn:Hc; [by apply Hcur|apply evolves_refl]. }
  destruct (current_turn b) as [t|] eqn:Hc; [|done].
  destruct (has_id (tc_turn_id p) t); [by apply Hcur|done].
Qed.

Lemma evolves_agent_message fresh p b : evolves b (handle_agent_message fresh p b).
Proof.
  unfold handle_agent_message. case_match; [apply evolves_refl|].
  apply (evolves_push_next fresh (λ id, TiAgentMessage id _ _ _ _ _)).
Qed.

Lemma evolves_agent_reasoning fresh text b : evolves b (handle_agent_reasoning fresh text b).
Proof.
  unfold handle_agent_reasoning. case_match; [apply evolves_refl|]. apply evolves_reasoning.
  by intros [] j [= <-].
Qed.
Lemma evolves_agent_reasoning_raw fresh text b : evolves b (handle_agent_reasoning_raw_content fresh text b).
Proof.
  unfold handle_agent_reasoning_raw_content. case_match; [apply evolves_refl|]. apply evolves_reasoning.
  by intros [] j [= <-].
Qed.

Lemma evolves_guardian fresh p b : evolves b (handle_guardian_assessment fresh p b).
Proof.
  unfold handle_guardian_assessment.
  destruct (ga_status p); try apply evolves_refl; case_match; try apply evolves_refl; apply evolves_routed.
Qed.

Lemma evolves_mcp_end fresh p b : evolves b (handle_mcp_tool_call_end fresh p b).
Proof. unfold handle_mcp_tool_call_end. destruct (me_result p); apply evolves_routed. Qed.
Lemma evolves_spawn_end fresh p b : evolves b (handle_collab_agent_spawn_end fresh p b).
Proof. unfold handle_collab_agent_spawn_end. destruct (se_new_thread_id p); apply evolves_upsert_current. Qed.
Lemma evolves_context_compacted fresh b : evolves b (handle_context_compacted fresh b).
Proof. apply (evolves_push_next fresh (λ id, TiContextCompaction id)). Qed.

Lemma evolves_id_or_next id (k : str → ThreadHistoryBuilder → ThreadHistoryBuilder) b :
  (∀ id b, evolves b (k id b)) → evolves b (let '(id, b) := item_id_or_next id b in k id b).
Proof.
  intros Hk. destruct id; simpl; [apply Hk|]. eapply evolves_trans; [apply evolves_next_item|apply Hk].
Qed.

Lemma evolves_entered_review fresh p b : evolves b (handle_entered_review_mode fresh p b).
Proof. apply (evolves_id_or_next _ (λ id, upsert_review_mode_item _ _ (TiEnteredReviewMode id _))). intros; apply evolves_review. Qed.
Lemma evolves_exited_review fresh p b : evolves b (handle_exited_review_mode fresh p b).
Proof. apply (evolves_id_or_next _ (λ id, upsert_review_mode_item _ _ (TiExitedReviewMode id _))). intros; apply evolves_review. Qed.

Lemma evolves_lifecycle fresh id item b : evolves b (handle_materialized_item_lifecycle fresh id item b).
Proof.
  unfold handle_materialized_item_lifecycle. case_match; [|apply evolves_refl].
  case_match; [apply evolves_review|apply evolves_upsert_turn].
Qed.

Create HintDb evolves.
#[local] Hint Resolve evolves_refl evolves_push evolves_upsert_current evolves_upsert_turn evolves_routed
  evolves_review evolves_user_message evolves_error evolves_turn_aborted evolves_turn_complete
  evolves_turn_started evolves_compacted evolves_agent_message evolves_agent_reasoning
  evolves_agent_reasoning_raw evolves_guardian evolves_mcp_end evolves_spawn_end evolves_context_compacted
  evolves_entered_review evolves_exited_review evolves_lifecycle : evolves.

(** Every event but a rollback is a sequence of steps. *)
Lemma evolves_event fresh e b : (∀ n, e ≠ EvThreadRolledBack n) → evolves b (handle_event fresh e b).
Proof.
  intros Hn. destruct e; simpl; auto with evolves; try apply evolves_routed; try apply evolves_upsert_current;
    try apply evolves_upsert_turn. by destruct (Hn num_turns).
Qed.

Definition is_rollback (i : RolloutItem) : bool :=
  match i with RiEventMsg (EvThreadRolledBack _) => true | _ => false end.

Lemma evolves_item fresh (i : RolloutItem) b : is_rollback i = false → evolves b (handle_rollout_item fresh i b).
Proof.
  intros Hi. unfold handle_rollout_item. eapply evolves_trans; [apply evolves_advance|].
  destruct i; auto with evolves.
  - unfold handle_response_item. case_match; auto with evolves. case_match; auto with evolves.
    case_match; auto with evolves. case_match. apply evolves_push.
  - apply evolves_event. by intros n ->.
Qed.

(** ** Rollback *)

Lemma rollback_spec n b :
  (∀ t, current_turn b = Some t → kept t) →
  let b' := handle_thread_rollback n b in
  let k := length (all_turns b) - N.to_nat n in
  all_turns b' = take k (all_turns b) ∧ current_turn b' = None ∧
  active_change_set b' =
    (λ c, {| changed_items := changed_items c; changed_turns := changed_turns c;
             removed_turn_ids := removed_turn_ids c ++ map pt_id (drop k (all_turns b)) |}) <$> active_change_set b.
Proof.
  intros Hk b' k. destruct (finish_kept b Hk) as (Ht & Hc & Ha). unfold b', handle_thread_rollback.
  set (ids := if bool_decide _ then _ else _).
  assert (Hids : ids = map pt_id (drop k (all_turns b))).
  { unfold ids, k. rewrite Ht. repeat case_bool_decide.
    - by replace (length (all_turns b) - N.to_nat n) with 0 by lia.
    - replace (length (all_turns b) - N.to_nat n) with (length (all_turns b)) by lia. by rewrite drop_all.
    - done. }
  clearbody ids. subst ids. unfold record_removed_turn_ids. rewrite Ha.
  assert (Hkept : (if bool_decide (length (all_turns b) ≤ N.to_nat n) then [] else take k (all_turns b))
                  = take k (all_turns b)).
  { case_bool_decide; [|done]. unfold k. by replace (length (all_turns b) - N.to_nat n) with 0 by lia. }
  destruct (active_change_set b) as [c|] eqn:Hact; unfold all_turns at 1; simpl;
    rewrite ?Ht, ?Hc, app_nil_r; fold k; rewrite Hkept; done.
Qed.

(** ** Tracking changes does not change the turns *)

(** The builder with nothing tracked. *)
Definition without_changes b : ThreadHistoryBuilder := set_changes b None.

(** [h] does the same whether or not its changes are tracked. *)
Definition silent (h : ThreadHistoryBuilder → ThreadHistoryBuilder) : Prop :=
  ∀ b, without_changes (h b) = h (without_changes b).

Lemma silent_compose h k : silent h → silent k → silent (λ b, k (h b)).
Proof. intros Hh Hk b. by rewrite Hk, Hh. Qed.

Lemma untracked_record_item tracking id i b : without_changes (record_item_if tracking id i b) = without_changes b.
Proof. unfold record_item_if, record_changed_item. by repeat case_match. Qed.
Lemma untracked_record_turn c b : without_changes (record_changed_turn c b) = without_changes b.
Proof. unfold record_changed_turn. by case_match. Qed.
Lemma untracked_record_pending t b : without_changes (record_changed_pending_turn t b) = without_changes b.
Proof. unfold record_changed_pending_turn. case_match; [apply untracked_record_turn|done]. Qed.

Ltac silent :=
  intros [?ts [?t|] ?n ?r ?nr [?c|]]; cbn; repeat (case_match; simplify_eq/=); done.

Lemma silent_push fresh i : silent (push_item_in_current_turn fresh i).
Proof. silent. Qed.
Lemma silent_upsert_current fresh i : silent (upsert_item_in_current_turn fresh i).
Proof. silent. Qed.
Lemma silent_upsert_turn id i : silent (upsert_item_in_turn_id id i).
Proof. unfold upsert_item_in_turn_id. silent. Qed.
Lemma silent_finish : silent finish_current_turn.
Proof. unfold finish_current_turn. silent. Qed.
Lemma silent_error p : silent (handle_error p).
Proof. unfold handle_error. silent. Qed.
Lemma silent_aborted p : silent (handle_turn_aborted p).
Proof. unfold handle_turn_aborted. silent. Qed.
Lemma silent_complete p : silent (handle_turn_complete p).
Proof. unfold handle_turn_complete, finish_current_turn. silent. Qed.
Lemma silent_started fresh p : silent (handle_turn_started fresh p).
Proof. unfold handle_turn_started, finish_current_turn. silent. Qed.
Lemma silent_compacted fresh : silent (handle_compacted fresh).
Proof. silent. Qed.
Lemma silent_rollback n : silent (handle_thread_rollback n).
Proof. unfold handle_thread_rollback, finish_current_turn. silent. Qed.
Lemma silent_review fresh id i : silent (upsert_review_mode_item fresh id i).
Proof.
  intros b. unfold upsert_review_mode_item. destruct id as [id|]; [|apply silent_upsert_current].
  change (current_turn (without_changes b)) with (current_turn b). change (turns (without_changes b)) with (turns b).
  case_match; [|apply silent_upsert_turn]. rewrite silent_upsert_turn, <- silent_finish. f_equal.
  generalize (finish_current_turn b). clear. silent.
Qed.
Lemma silent_reasoning fresh extend create : silent (handle_reasoning fresh extend create).
Proof. unfold handle_reasoning. silent. Qed.

Lemma silent_routed fresh id i : silent (upsert_item_routed fresh id i).
Proof. intros b. unfold upsert_item_routed. case_match; [apply silent_upsert_current|apply silent_upsert_turn]. Qed.

Lemma silent_push_next fresh (create : str → ThreadItem) :
  silent (λ b, let '(id, b') := next_item_id b in push_item_in_current_turn fresh (create id) b').
Proof. intros b. simpl. by rewrite silent_push. Qed.

Lemma silent_user_message fresh p : silent (handle_user_message fresh p).
Proof.
  apply (silent_compose (λ b, match current_turn b with
                              | Some t => if negb (pt_opened_explicitly t)
                                             && negb (pt_saw_compaction t && bool_decide (length (pt_items t) = 0))
                                          then finish_current_turn b else b
                              | None => b
                              end)
           (λ b, let '(id, b') := next_item_id b in
                 push_item_in_current_turn fresh (TiUserMessage id (um_client_id p) (build_user_inputs p)) b')).
  - intros b. change (current_turn (without_changes b)) with (current_turn b).
    destruct (current_turn b); [|done]. case_match; [apply silent_finish|done].
  - apply (silent_push_next fresh (λ id, TiUserMessage id (um_client_id p) (build_user_inputs p))).
Qed.

Lemma silent_id_or_next id (k : str → ThreadHistoryBuilder → ThreadHistoryBuilder) :
  (∀ id, silent (k id)) → silent (λ b, let '(id, b) := item_id_or_next id b in k id b).
Proof. intros Hk b. destruct id; simpl; by rewrite Hk. Qed.

Lemma silent_event fresh e : silent (handle_event fresh e).
Proof.
  intros b. destruct e; cbn [handle_event];
    first [ done | apply silent_user_message | apply silent_error | apply silent_rollback | apply silent_aborted
          | apply silent_started | apply silent_complete | apply silent_routed | apply silent_upsert_current
          | apply silent_upsert_turn | idtac ].
  - unfold handle_agent_message. case_match; [done|].
    apply (silent_push_next fresh (λ id, TiAgentMessage id _ _ _ _ _)).
  - unfold handle_agent_reasoning. case_match; [done|]. apply silent_reasoning.
  - unfold handle_agent_reasoning_raw_content. case_match; [done|]. apply silent_reasoning.
  - unfold handle_guardian_assessment. destruct (ga_status p); try done; case_match; try done; apply silent_routed.
  - unfold handle_mcp_tool_call_end. destruct (me_result p); apply silent_routed.
  - unfold handle_collab_agent_spawn_end. destruct (se_new_thread_id p); apply silent_upsert_current.
  - apply (silent_push_next fresh (λ id, TiContextCompaction id)).
  - apply (silent_id_or_next _ (λ id, upsert_review_mode_item _ _ (TiEnteredReviewMode id _))). intros; apply silent_review.
  - apply (silent_id_or_next _ (λ id, upsert_review_mode_item _ _ (TiExitedReviewMode id _))). intros; apply silent_review.
  - unfold handle_materialized_item_lifecycle. repeat case_match; try done; apply silent_review || apply silent_upsert_turn.
  - unfold handle_materialized_item_lifecycle. repeat case_match; try done; apply silent_review || apply silent_upsert_turn.
Qed.

Lemma silent_item fresh (i : RolloutItem) : silent (handle_rollout_item fresh i).
Proof.
  intros b. unfold handle_rollout_item. change (advance_rollout (without_changes b)) with (without_changes (advance_rollout b)).
  destruct i; try done.
  - unfold handle_response_item. repeat case_match; try done. apply silent_push.
  - apply silent_compacted.
  - apply silent_event.
Qed.

(** ** Lines with their changes *)

Lemma with_changes_same fresh (i : RolloutItem) b :
  active_change_set b = None → (handle_rollout_item_with_changes fresh i b).2 = handle_rollout_item fresh i b.
Proof.
  intros Ha. unfold handle_rollout_item_with_changes, collect_changes. simpl.
  fold (without_changes (handle_rollout_item fresh i (set_changes b (Some changes_default)))).
  rewrite silent_item. f_equal. destruct b. simpl in *. by subst.
Qed.

Lemma item_untracked fresh (i : RolloutItem) b :
  active_change_set b = None → active_change_set (handle_rollout_item fresh i b) = None.
Proof. intros Ha. rewrite <- with_changes_same by done. done. Qed.

Lemma elem_of_take_elem {A} (l : list A) k x : x ∈ take k l → x ∈ l.
Proof. intros H. rewrite <- (take_drop k l), elem_of_app. by left. Qed.

Lemma filter_ids_take (l : list PendingTurn) k :
  NoDup (map pt_id l) → ∀ t, t ∈ l → pt_id t ∉ map pt_id (drop k l) ↔ t ∈ take k l.
Proof.
  intros Hnd t Ht. rewrite <- (take_drop k l) in Hnd, Ht. rewrite map_app in Hnd.
  apply NoDup_app in Hnd as (_ & Hd & _). apply elem_of_app in Ht. split.
  - intros Hni. destruct Ht as [?|Ht]; [done|]. destruct Hni. by apply list_elem_of_fmap_2.
  - intros Hin. apply Hd. by apply list_elem_of_fmap_2.
Qed.

Lemma filter_take (l : list PendingTurn) k :
  NoDup (map pt_id l) → filter (λ t, pt_id t ∉ map pt_id (drop k l)) l = take k l.
Proof.
  intros Hnd. pose proof (filter_ids_take l k Hnd) as H.
  transitivity (filter (λ t, pt_id t ∉ map pt_id (drop k l)) (take k l ++ drop k l)); [by rewrite take_drop|].
  rewrite filter_app, filter_all, filter_none, app_nil_r; [done| |].
  - intros t Ht Hn. apply Hn. by apply list_elem_of_fmap_2.
  - apply Forall_forall. intros t Ht. apply H; [|done].
    by eapply elem_of_take_elem.
Qed.

Lemma shows_rollback T b b' k :
  all_turns b' = take k (all_turns b) → distinct_ids b → shows T b →
  shows (remove_turns (map pt_id (drop k (all_turns b))) T) b'.
Proof.
  unfold shows. intros -> [Hnd _] (Ht & Hi & Hc). simpl. split; [|split].
  - rewrite Ht. rewrite <- (filter_take _ k Hnd). clear. generalize (map pt_id (drop k (all_turns b))) as R. intros R.
    induction (all_turns b) as [|t l IH]; [done|]. simpl. rewrite !filter_cons. simpl. by case_decide; simpl; rewrite IH.
  - intros t Htk. assert (Htl : t ∈ all_turns b) by by eapply elem_of_take_elem.
    apply (filter_ids_take _ k Hnd t Htl) in Htk as Hni.
    rewrite list_filter_filter. rewrite <- (Hi t Htl). apply list_filter_iff. intros c.
    split; [tauto|]. intros Heq. by rewrite Heq.
  - intros c [Hn Hcin]%list_elem_of_filter. pose proof (Hc c Hcin) as (t & Heq & Htl)%list_elem_of_fmap.
    rewrite Heq in *. apply list_elem_of_fmap_2. by apply (filter_ids_take _ k Hnd).
Qed.

Lemma good_rollback n b : good b → good (handle_thread_rollback n b).
Proof.
  intros [Hi Hk]. destruct (rollback_spec n b Hk) as (Ht & Hc & _). split; [|by rewrite Hc].
  rewrite Ht. apply Forall_forall. intros t Hin%elem_of_take_elem. by eapply Forall_forall in Hi.
Qed.

Lemma good_item fresh (i : RolloutItem) b : good b → good (handle_rollout_item fresh i b).
Proof.
  intros Hg. destruct (is_rollback i) eqn:Hr; [|by apply (evolves_item fresh i b Hr)].
  destruct i; try done. destruct e; try done. simpl. apply good_rollback. by apply (evolves_advance b).
Qed.

Lemma good_new : good builder_new.
Proof. split; [constructor|done]. Qed.

Lemma good_replay fresh items b : good b → good (replay fresh items b).
Proof. revert b. induction items as [|i items IH]; intros b Hg; [done|]. by apply IH, good_item. Qed.

Lemma replay_untracked fresh items b :
  active_change_set b = None → active_change_set (replay fresh items b) = None.
Proof. revert b. induction items as [|i items IH]; intros b Hg; [done|]. by apply IH, item_untracked. Qed.

(** A line and its change set. *)
Lemma line_tracked fresh (i : RolloutItem) b T :
  good b → distinct_ids b → distinct_ids (handle_rollout_item fresh i b) → shows T b →
  tracks T (handle_rollout_item fresh i (set_changes b (Some changes_default))).
Proof.
  intros Hg Hd Hd' Hs. set (b0 := set_changes b (Some changes_default)).
  assert (Hd1 : distinct_ids (handle_rollout_item fresh i b0)).
  { assert (Hu : without_changes (handle_rollout_item fresh i b0) = without_changes (handle_rollout_item fresh i b)).
    { by rewrite !silent_item. }
    change (distinct_ids (without_changes (handle_rollout_item fresh i b0))). rewrite Hu. exact Hd'. }
  assert (Hg0 : good b0) by (destruct Hg; by split).
  assert (Ht0 : tracks T b0).
  { exists changes_default. split; [done|]. by rewrite apply_changes_default. }
  destruct (is_rollback i) eqn:Hr.
  - destruct i; try done. destruct e; try done. unfold handle_rollout_item. simpl.
    destruct (evolves_advance b0 Hg0) as [[_ Hk] _].
    destruct (rollback_spec num_turns (advance_rollout b0) Hk) as (Ht & _ & Ha).
    eexists. split; [exact Ha|]. by eapply (shows_rollback T b).
  - destruct (evolves_item fresh i b0 Hr Hg0) as [_ He]. by eapply effects_track.
Qed.

Lemma line_with_changes fresh (i : RolloutItem) b T :
  good b → active_change_set b = None → distinct_ids b → distinct_ids (handle_rollout_item fresh i b) → shows T b →
  shows (apply_changes (handle_rollout_item_with_changes fresh i b).1 T) (handle_rollout_item fresh i b).
Proof.
  intros Hg Ha Hd Hd' Hs. destruct (line_tracked fresh i b T Hg Hd Hd' Hs) as (c & Hc & Hsh).
  rewrite <- with_changes_same by done. unfold handle_rollout_item_with_changes, collect_changes. simpl.
  by rewrite Hc.
Qed.

(** The builders along a run, the first included. *)
Fixpoint run_states (fresh : nat → str) (items : list RolloutItem) b : list ThreadHistoryBuilder :=
  b :: match items with
       | [] => []
       | i :: items' => run_states fresh items' (handle_rollout_item (fresh (next_rollout_index b)) i b)
       end.

Lemma replay_with_changes_shows fresh items b T :
  good b → active_change_set b = None → Forall distinct_ids (run_states fresh items b) → shows T b →
  let '(cs, b') := replay_with_changes fresh items b in
  b' = replay fresh items b ∧ shows (foldl (λ T c, apply_changes c T) T cs) b'.
Proof.
  revert b T. induction items as [|i items IH]; intros b T Hg Ha Hd Hs; [done|].
  simpl in Hd. apply Forall_cons in Hd as [Hd Hds]. set (f := fresh (next_rollout_index b)) in *.
  assert (Hd' : distinct_ids (handle_rollout_item f i b)).
  { destruct items; simpl in Hds; by apply Forall_cons in Hds as [? _]. }
  pose proof (line_with_changes f i b T Hg Ha Hd Hd' Hs) as Hs'.
  pose proof (with_changes_same f i b Ha) as Hb. cbn [replay_with_changes]. fold f.
  destruct (handle_rollout_item_with_changes f i b) as [c b1]. cbn [fst snd] in *. subst b1.
  specialize (IH _ (apply_changes c T) (good_item f i b Hg) (item_untracked f i b Ha) Hds Hs').
  destruct (replay_with_changes fresh items _) as [cs b']. exact IH.
Qed.

(** C19. A client that keeps a table of turns and items, and applies to it the change
    set that a batch of rollout lines returns, has the turns of the thread: after
    any earlier lines, if its table shows the builder's turns and items, then with
    the coalesced changes of the batch it shows those of the builder after the
    batch, in order, and the builder is the one the lines alone lead to. Turns,
    and the items of a turn, are taken to have different ids along the batch. *)
Theorem batch_changes_complete (fresh : nat → str) (before items : list RolloutItem) (T : HistoryTable) :
  let b := replay fresh before builder_new in
  Forall distinct_ids (run_states fresh items b) → shows T b →
  let '(c, b') := handle_rollout_items_with_changes fresh items b in
  b' = replay fresh items b ∧ shows (apply_changes c T) b'.
Proof.
  intros b Hd Hs. pose proof (replay_with_changes_shows fresh items b T
    (good_replay _ _ _ good_new) (replay_untracked fresh before builder_new eq_refl) Hd Hs) as H.
  unfold handle_rollout_items_with_changes. destruct (replay_with_changes fresh items b) as [cs b'].
  destruct H as [Hb Hsh]. split; [done|]. by rewrite coalesced.
Qed.

(** In every turn of a replayed thread, the lazily built index of its items says
    what a search of the items would: putting an item in replaces the first item
    with its id, wherever it is and however long the turn has grown, and appends
    the item when there is none. *)
Theorem upsert_is_search (fresh : nat → str) (items : list RolloutItem) (t : PendingTurn) (i : ThreadItem) :
  t ∈ all_turns (replay fresh items builder_new) →
  pt_items (upsert_in i t) = upsert_by item_id i (pt_items t).
Proof.
  intros Ht. destruct (good_replay fresh items _ good_new) as [Hi _].
  eapply Forall_forall in Hi; [|exact Ht]. by destruct (upsert_in_spec i t Hi).
Qed.

(** A rollback drops the last turns: the history of a rollout that ends with the
    rollback of [n] turns is the history before it, less its last [n] turns, with
    the turn still open counted. *)
Theorem rollback_drops_last (fresh : nat → str) (items : list RolloutItem) (n : N) :
  let turns := build_turns_from_rollout_items fresh items in
  build_turns_from_rollout_items fresh (items ++ [RiEventMsg (EvThreadRolledBack n)])
  = take (length turns - N.to_nat n) turns.
Proof.
  simpl. unfold build_turns_from_rollout_items, replay. rewrite foldl_app. simpl.
  pose proof (good_replay fresh items _ good_new) as Hg. unfold replay in Hg.
  set (b := foldl _ builder_new items) in *. unfold handle_rollout_item.
  destruct (evolves_advance b Hg) as [[_ Hk] _]. destruct (rollback_spec n (advance_rollout b) Hk) as (Ht & Hc & _).
  simpl. unfold builder_finish. destruct (finish_kept b (good_kept _ Hg)) as (Hf & _).
  unfold finish_current_turn at 1. rewrite Hc, Hf, length_map, firstn_map.
  unfold all_turns at 1 in Ht. rewrite Hc, app_nil_r in Ht. by rewrite Ht.
Qed.

End Runs.
