(* ===== verification/Rollout.v ===== *)
(** * Rollouts and their truncation

    Models [core/src/thread_rollout_truncation.rs], where a rollout is cut for a
    fork, with what decides which lines are turn boundaries: the classification of
    message contents of [core/src/event_mapping.rs],
    [core/src/context/contextual_user_message.rs] and the fragments they match, the
    tags of media of [protocol/src/models.rs], [is_user_turn_boundary] of
    [core/src/context_manager/history.rs] and the envelopes of inter-agent messages
    of [protocol/src/protocol.rs].

    A marker is ASCII, so that the byte slice [text.get(..marker.len())] equals it
    up to case exactly when the first [marker.len()] chars do. *)

From stdpp Require Import gmap.
From S2P Require Import Prelude RustStr RustOrd Truncate ResponseItem ThreadItem ThreadHistory.
From S2P Require Import ThreadHistoryRuns.
Open Scope list_scope.

(** [serde_json::from_str::<InterAgentCommunication>]. *)
Class EnvelopeReader `{TP : ThreadPayloads} := {
  envelope_from_str : str → option InterAgentCommunication;
}.

Section Rollout.
Context `{ER : EnvelopeReader}.

(** ** Fragments injected into user messages *)

(** [get(..prefix.len()).is_some_and(|c| c.eq_ignore_ascii_case(prefix))]. *)
Definition starts_with_ignore_case (p s : str) : bool := eq_ignore_ascii_case (take (length p) s) p.

Definition matches_marked_text (start_marker end_marker text : str) : bool :=
  if bool_decide (start_marker = []) || bool_decide (end_marker = []) then false
  else
    let trimmed := trim_start text in
    let starts_with_marker := starts_with_ignore_case start_marker trimmed in
    let trimmed := trim_end trimmed in
    let ends_with_marker :=
      eq_ignore_ascii_case (drop (length trimmed - length end_marker) trimmed) end_marker in
    starts_with_marker && ends_with_marker.

(** [UserInstructions], [EnvironmentsState], [SkillInstructions],
    [UserShellCommand], [TurnAborted], [SubagentNotification] and
    [RecommendedPluginsInstructions]. *)
Definition user_instructions_markers : str * str := (lit "# AGENTS.md instructions", lit "</INSTRUCTIONS>").
Definition environment_context_markers : str * str := (lit "<environment_context>", lit "</environment_context>").
Definition skill_markers : str * str := (lit "<skill>", lit "</skill>").
Definition user_shell_command_markers : str * str := (lit "<user_shell_command>", lit "</user_shell_command>").
Definition turn_aborted_markers : str * str := (lit "<turn_aborted>", lit "</turn_aborted>").
Definition subagent_notification_markers : str * str := (lit "<subagent_notification>", lit "</subagent_notification>").
Definition recommended_plugins_markers : str * str := (lit "<recommended_plugins>", lit "</recommended_plugins>").
Definition marked (m : str * str) (text : str) : bool := matches_marked_text m.1 m.2 text.

(** [AdditionalContextUserFragment::matches_text]. *)
Definition additional_context_matches (text : str) : bool :=
  match strip_prefix (lit "<external_") (trim text) with
  | None => false
  | Some rest =>
      match split_once_str (lit ">") rest with
      | None => false
      | Some (key, value_and_close) => ends_with (lit "</external_" ++ key ++ lit ">") value_and_close
      end
  end.

Definition matches_legacy_goal_context (text : str) : bool :=
  starts_with (lit "<goal_context>") text && ends_with (lit "</goal_context>") text.

Definition is_ascii_lowercase (c : char) : bool := ((97 <=? c) && (c <=? 122))%N.

Definition is_valid_source (source : str) : bool :=
  match source with
  | [] => false
  | first :: chars =>
      is_ascii_lowercase first
      && forallb (λ ch, is_ascii_lowercase ch || is_ascii_digit ch || (ch =? 95)%N) chars
  end.

(** [InternalModelContextFragment::matches_text]. *)
Definition internal_context_matches (text : str) : bool :=
  let trimmed := trim text in
  if matches_legacy_goal_context trimmed then true
  else
    match strip_prefix (lit "<codex_internal_context") trimmed with
    | None => false
    | Some rest =>
        match strip_prefix (lit " source=" ++ [c_dquote]) rest with
        | None => false
        | Some rest =>
            match split_once_str (c_dquote :: lit ">") rest with
            | None => false
            | Some (source, body_and_close) =>
                is_valid_source source && ends_with (lit "</codex_internal_context>") body_and_close
            end
        end
    end.

(** The legacy warnings. *)
Definition legacy_exec_limit_matches (text : str) : bool :=
  starts_with (lit "Warning: The maximum number of unified exec processes you can keep open is") (trim text).
Definition legacy_apply_patch_matches (text : str) : bool :=
  starts_with (lit "Warning: apply_patch was requested via ") (trim text)
  && ends_with (lit "Use the apply_patch tool instead of exec_command.") (trim text).
Definition legacy_model_mismatch_matches (text : str) : bool :=
  starts_with (lit "Warning: Your account was flagged for potentially high-risk cyber activity") (trim text).

(** [is_standard_contextual_user_text], over [CONTEXTUAL_USER_FRAGMENT_MATCHERS]. *)
Definition contextual_user_fragment_matchers : list (str → bool) :=
  [ marked user_instructions_markers; marked environment_context_markers; additional_context_matches;
    marked skill_markers; marked user_shell_command_markers; marked turn_aborted_markers;
    marked subagent_notification_markers; internal_context_matches; marked recommended_plugins_markers;
    legacy_exec_limit_matches; legacy_apply_patch_matches; legacy_model_mismatch_matches ].
Definition is_standard_contextual_user_text (text : str) : bool :=
  existsb (λ matches_text, matches_text text) contextual_user_fragment_matchers.

Definition is_contextual_user_fragment (c : ContentItem) : bool :=
  match c with
  | CiInputText text =>
      bool_decide (is_Some (parse_hook_prompt_fragment text)) || is_standard_contextual_user_text text
  | _ => false
  end.

Definition is_contextual_user_message_content (message : list ContentItem) : bool :=
  existsb is_contextual_user_fragment message.

(** The fragments of a visible hook prompt; [None] at the first content that is
    neither one nor injected. *)
Fixpoint visible_hook_fragments (content : list ContentItem) : option (list HookPromptFragment) :=
  match content with
  | [] => Some []
  | CiInputText text :: content' =>
      match parse_hook_prompt_fragment text with
      | Some fragment => cons fragment <$> visible_hook_fragments content'
      | None => if is_standard_contextual_user_text text then visible_hook_fragments content' else None
      end
  | _ :: _ => None
  end.

(** [parse_visible_hook_prompt_message]; [fresh] is the id drawn when there is none. *)
Definition parse_visible_hook_prompt_message (fresh : str) (id : option ResponseItemId) (content : list ContentItem)
    : option TurnItem :=
  fragments ← visible_hook_fragments content;
  if bool_decide (length fragments = 0) then None else Some (CoHookPrompt (default fresh id) fragments).

(** ** Turn items of messages *)

Definition is_image_open_tag_text (text : str) : bool := bool_decide (text = lit "<image>").
Definition is_image_close_tag_text (text : str) : bool := bool_decide (text = lit "</image>").
Definition is_local_image_open_tag_text (text : str) : bool :=
  from_option (ends_with (lit ">")) false (strip_prefix (lit "<image name=") text).
Definition is_local_image_close_tag_text (text : str) : bool := is_image_close_tag_text text.
Definition is_audio_open_tag_text (text : str) : bool := bool_decide (text = lit "<audio>").
Definition is_audio_close_tag_text (text : str) : bool := bool_decide (text = lit "</audio>").
Definition is_local_audio_open_tag_text (text : str) : bool :=
  from_option (ends_with (lit ">")) false (strip_prefix (lit "<audio name=") text).
Definition is_local_audio_close_tag_text (text : str) : bool := is_audio_close_tag_text text.

Definition is_input_image (c : option ContentItem) : bool :=
  match c with Some (CiInputImage _ _) => true | _ => false end.
Definition is_input_audio (c : option ContentItem) : bool :=
  match c with Some (CiInputAudio _) => true | _ => false end.

(** The input of content [idx] of a user message; a label of an image or of a
    recording next to it has none. *)
Definition user_input_of (message : list ContentItem) (idx : nat) (c : ContentItem) : option UserInput :=
  match c with
  | CiInputText text =>
      let before := if (0 <? idx) then message !! (idx - 1) else None in
      let is_image_label :=
        (is_local_image_open_tag_text text || is_image_open_tag_text text)
          && is_input_image (message !! (idx + 1))
        || (is_local_image_close_tag_text text || is_image_close_tag_text text) && is_input_image before in
      let is_audio_label :=
        (is_local_audio_open_tag_text text || is_audio_open_tag_text text)
          && is_input_audio (message !! (idx + 1))
        || (is_local_audio_close_tag_text text || is_audio_close_tag_text text) && is_input_audio before in
      if is_image_label || is_audio_label then None else Some (UiText text [])
  | CiInputImage image detail => Some (UiImage image detail)
  | CiInputAudio audio_url => Some (UiAudio audio_url)
  | CiOutputText _ => None
  end.

Definition parse_user_message (fresh : str) (message : list ContentItem) : option TurnItem :=
  if is_contextual_user_message_content message then None
  else Some (CoUserMessage fresh None (omap id (imap (user_input_of message) message))).

Definition parse_agent_message (fresh : str) (id : option ResponseItemId) (message : list ContentItem)
    (phase : option MessagePhase) : TurnItem :=
  CoAgentMessage (default fresh id)
    (omap (λ c, match c with CiInputText text | CiOutputText text => Some text | _ => None end) message)
    phase None None None.

(** [parse_turn_item] of a message. The other items give no user message. *)
Definition parse_message_item (fresh : str) (id : option ResponseItemId) (role : str) (content : list ContentItem)
    (phase : option MessagePhase) : option TurnItem :=
  if bool_decide (role = lit "user") then
    match parse_visible_hook_prompt_message fresh id content with
    | Some i => Some i
    | None => parse_user_message fresh content
    end
  else if bool_decide (role = lit "assistant") then Some (parse_agent_message fresh id content phase)
  else None.

(** ** Turn boundaries *)

(** [InterAgentCommunication::from_message_content]. *)
Definition from_message_content (content : list ContentItem) : option InterAgentCommunication :=
  match content with
  | [CiInputText text] | [CiOutputText text] => envelope_from_str text
  | _ => None
  end.

Definition is_message_content (content : list ContentItem) : bool :=
  bool_decide (is_Some (from_message_content content)).

Definition is_user_turn_boundary (i : ResponseItem) : bool :=
  match i with
  | AgentMessage _ _ _ _ _ => true
  | Message _ role content _ _ =>
      bool_decide (role = lit "user") && negb (is_contextual_user_message_content content)
      || bool_decide (role = lit "assistant") && is_message_content content
  | _ => false
  end.

(** Whether [parse_turn_item] gives a [UserMessage]; which id it draws is not seen. *)
Definition is_real_user_message_boundary (i : ResponseItem) : bool :=
  match i with
  | Message id role content phase _ =>
      match parse_message_item [] id role content phase with
      | Some (CoUserMessage _ _ _) => true
      | _ => false
      end
  | _ => false
  end.

Definition is_trigger_turn_boundary (i : ResponseItem) : bool :=
  match i with
  | Message _ role content _ _ =>
      bool_decide (role = lit "assistant") && from_option iac_trigger_turn false (from_message_content content)
  | _ => false
  end.

Definition rollout_item_is_user_turn_boundary (i : RolloutItem) : bool :=
  match i with
  | RiResponseItem env => is_user_turn_boundary (item env)
  | RiInterAgentCommunication _ => true
  | _ => false
  end.

(** ** Positions *)

(** [v.truncate(v.len().saturating_sub(n))]. *)
Definition truncate_last (n : nat) (v : list nat) : list nat := take (length v - n) v.

(** One line of [user_message_positions_in_rollout]. *)
Definition user_position_step (user_positions : list nat) (l : nat * RolloutItem) : list nat :=
  match l.2 with
  | RiResponseItem env =>
      if is_real_user_message_boundary (item env) then user_positions ++ [l.1] else user_positions
  | RiEventMsg (EvThreadRolledBack num_turns) => truncate_last (N.to_nat num_turns) user_positions
  | _ => user_positions
  end.

(** [iter().enumerate()], the first line at [i]. *)
Definition enumerate_from (i : nat) (items : list RolloutItem) : list (nat * RolloutItem) :=
  imap (λ k x, (i + k, x)) items.

Definition user_message_positions_in_rollout (items : list RolloutItem) : list nat :=
  foldl user_position_step [] (enumerate_from 0 items).

Record ForkPositions := { rollback_turn_positions : list nat; fork_turn_positions : list nat }.

Definition fork_push (p : ForkPositions) (idx : nat) (turn fork : bool) : ForkPositions :=
  {| rollback_turn_positions := if turn then rollback_turn_positions p ++ [idx] else rollback_turn_positions p;
     fork_turn_positions := if fork then fork_turn_positions p ++ [idx] else fork_turn_positions p |}.

(** [v.len().checked_sub(n).map(|i| v[i]).or_else(|| v.first().copied())]. *)
Definition nth_from_end_or_first (n : nat) (v : list nat) : option nat :=
  if bool_decide (n ≤ length v) then v !! (length v - n) else head v.

Definition fork_rollback (n : nat) (p : ForkPositions) : ForkPositions :=
  if bool_decide (n = 0) then p
  else
    match nth_from_end_or_first n (rollback_turn_positions p) with
    | None => p
    | Some rollback_start_idx =>
        {| rollback_turn_positions := truncate_last n (rollback_turn_positions p);
           fork_turn_positions := List.filter (λ position, position <? rollback_start_idx) (fork_turn_positions p) |}
    end.

Definition is_delivery_metadata (i : option RolloutItem) : bool :=
  match i with Some (RiInterAgentCommunicationMetadata _) => true | _ => false end.
Definition is_agent_message (i : ResponseItem) : bool :=
  match i with AgentMessage _ _ _ _ _ => true | _ => false end.

(** One line of [fork_turn_positions_in_rollout]; [before] is the line before it. *)
Definition fork_position_step (before : option RolloutItem) (p : ForkPositions) (idx : nat) (i : RolloutItem)
    : ForkPositions :=
  match i with
  | RiResponseItem env =>
      let has_delivery_metadata := is_agent_message (item env) && is_delivery_metadata before in
      fork_push p idx (is_user_turn_boundary (item env) && negb has_delivery_metadata)
        (is_real_user_message_boundary (item env) || is_trigger_turn_boundary (item env))
  | RiInterAgentCommunication c => fork_push p idx true (iac_trigger_turn c)
  | RiInterAgentCommunicationMetadata trigger_turn => fork_push p idx true trigger_turn
  | RiEventMsg (EvThreadRolledBack num_turns) => fork_rollback (N.to_nat num_turns) p
  | _ => p
  end.

Fixpoint fork_positions_from (before : option RolloutItem) (idx : nat) (p : ForkPositions) (items : list RolloutItem)
    : ForkPositions :=
  match items with
  | [] => p
  | i :: items' => fork_positions_from (Some i) (S idx) (fork_position_step before p idx i) items'
  end.

Definition fork_turn_positions_in_rollout (items : list RolloutItem) : list nat :=
  fork_turn_positions
    (fork_positions_from None 0 {| rollback_turn_positions := []; fork_turn_positions := [] |} items).

(** ** Truncation *)

(** [usize::MAX] on 64-bit targets. *)
Definition USIZE_MAX : N := (2 ^ 64 - 1)%N.

Definition truncate_rollout_before_nth_user_message_from_start (items : list RolloutItem) (n_from_start : N)
    : list RolloutItem :=
  if bool_decide (n_from_start = USIZE_MAX) then items
  else
    match user_message_positions_in_rollout items !! N.to_nat n_from_start with
    | None => items
    | Some cut_idx => take cut_idx items
    end.

Definition truncate_rollout_to_last_n_fork_turns (items : list RolloutItem) (n_from_end : nat) : list RolloutItem :=
  if bool_decide (n_from_end = 0) then []
  else
    match nth_from_end_or_first n_from_end (fork_turn_positions_in_rollout items) with
    | None => []
    | Some keep_idx => drop keep_idx items
    end.

Inductive TruncateError :=
  | TurnNotFound (id : str)
  | TurnNotCanonical (id : str)
  | TurnInProgress (id : str).

Definition starts_turn (id : str) (i : RolloutItem) : bool :=
  match i with RiEventMsg (EvTurnStarted e) => bool_decide (ts_turn_id e = id) | _ => false end.
Definition starts_any_turn (i : RolloutItem) : bool :=
  match i with RiEventMsg (EvTurnStarted _) => true | _ => false end.
Definition rolls_back (i : RolloutItem) : bool :=
  match i with RiEventMsg (EvThreadRolledBack _) => true | _ => false end.
Definition has_turn (id : str) (ts : list Turn) : bool := existsb (λ t, bool_decide (turn_id t = id)) ts.

(** [fresh n] is the id drawn at line [n] by the replay. *)
Definition truncate_rollout_after_turn_id (fresh : nat → str) (items : list RolloutItem) (last_turn_id : str)
    : res TruncateError (list RolloutItem) :=
  match List.find (λ t, bool_decide (turn_id t = last_turn_id)) (build_turns_from_rollout_items fresh items) with
  | None => Err (TurnNotFound last_turn_id)
  | Some turn =>
      match position (starts_turn last_turn_id) items with
      | None => Err (TurnNotCanonical last_turn_id)
      | Some target_start_index =>
          match turn_status turn with
          | TsInProgress => Err (TurnInProgress last_turn_id)
          | _ =>
            let cut_index :=
              match position starts_any_turn (drop (S target_start_index) items) with
              | Some k => S target_start_index + k
              | None => length items
              end in
            Ok (take cut_index items)
          end
      end
  end.

Definition truncate_rollout_before_turn_id (fresh : nat → str) (items : list RolloutItem) (before_turn_id : str)
    : res TruncateError (list RolloutItem) :=
  match position (starts_turn before_turn_id) items with
  | None =>
      if has_turn before_turn_id (build_turns_from_rollout_items fresh items)
      then Err (TurnNotCanonical before_turn_id) else Err (TurnNotFound before_turn_id)
  | Some cut_index =>
      if existsb rolls_back (drop (cut_index + 1) items)
         && negb (has_turn before_turn_id (build_turns_from_rollout_items fresh items))
      then Err (TurnNotFound before_turn_id)
      else Ok (take cut_index items)
  end.

End Rollout.

(** * What truncation keeps

    The prefix before a user message and the suffix from a fork turn have the
    positions that the whole rollout has for them, whatever rollbacks come later;
    and the lookup of a turn by its start agrees with the turns of the history. *)

Section Facts.
Context `{ER : EnvelopeReader}.
Implicit Types (items : list RolloutItem) (v w : list nat).

(** ** Positions of user messages *)

Lemma enumerate_cons i (x : RolloutItem) items : enumerate_from i (x :: items) = (i, x) :: enumerate_from (S i) items.
Proof.
  unfold enumerate_from. simpl. f_equal; [by rewrite Nat.add_0_r|]. apply imap_ext. intros k y _. simpl.
  by rewrite Nat.add_succ_r.
Qed.

Lemma enumerate_app i items items' :
  enumerate_from i (items ++ items') = enumerate_from i items ++ enumerate_from (i + length items) items'.
Proof.
  revert i. induction items as [|x items IH]; intros i; cbn [app length]; [by rewrite Nat.add_0_r|].
  rewrite !enumerate_cons, IH. cbn [app]. by rewrite Nat.add_succ_r.
Qed.

(** All positions are below [i], and the list has no two equal ones. *)
Definition below (i : nat) v : Prop := NoDup v ∧ ∀ p, p ∈ v → p < i.

Lemma below_weaken i j v : i ≤ j → below i v → below j v.
Proof. intros Hij [Hn Hb]. split; [done|]. intros p Hp. specialize (Hb p Hp). lia. Qed.

Lemma below_prefix i v k : below i v → below i (take k v).
Proof.
  intros [Hn Hb]. split.
  - rewrite <- (take_drop k v), NoDup_app in Hn. tauto.
  - intros p Hp%elem_of_take_elem. auto.
Qed.

Lemma below_snoc i v : below i v → below (S i) (v ++ [i]).
Proof.
  intros [Hn Hb]. split.
  - apply NoDup_app. split; [done|]. split; [|apply NoDup_singleton].
    intros p Hp ->%list_elem_of_singleton. specialize (Hb i Hp). lia.
  - intros p [Hp| ->%list_elem_of_singleton]%elem_of_app; [|lia]. specialize (Hb p Hp). lia.
Qed.

(** A line adds its own position, or cuts the list. *)
Lemma user_step_cases v l :
  user_position_step v l = v ++ [l.1] ∨ ∃ k, user_position_step v l = take k v.
Proof.
  assert (Hv : ∃ k, v = take k v) by (exists (length v); by rewrite firstn_all).
  unfold user_position_step. destruct (l.2); auto.
  - case_match; auto.
  - destruct e; auto. right. unfold truncate_last. eauto.
Qed.

Lemma user_step_below i (x : RolloutItem) v : below i v → below (S i) (user_position_step v (i, x)).
Proof.
  intros H. destruct (user_step_cases v (i, x)) as [-> |[k ->]]; [by apply below_snoc|].
  apply (below_weaken i); [lia|]. by apply below_prefix.
Qed.

Lemma user_run_below i items v :
  below i v → below (i + length items) (foldl user_position_step v (enumerate_from i items)).
Proof.
  revert i v. induction items as [|x items IH]; intros i v H; [by rewrite Nat.add_0_r|].
  rewrite enumerate_cons. simpl. rewrite Nat.add_succ_r. by apply (IH (S i)), user_step_below.
Qed.

(** Of the positions at a line, the final list has a prefix; the rest are from that
    line on. *)
Lemma user_run_prefix i items v :
  ∃ k w, foldl user_position_step v (enumerate_from i items) = take k v ++ w ∧ ∀ p, p ∈ w → i ≤ p.
Proof.
  revert i v. induction items as [|x items IH]; intros i v.
  { exists (length v), []. simpl. rewrite firstn_all, app_nil_r. split; [done|]. by intros p ?%not_elem_of_nil. }
  rewrite enumerate_cons. simpl. destruct (IH (S i) (user_position_step v (i, x))) as (k & w & -> & Hw).
  destruct (user_step_cases v (i, x)) as [-> |[k' ->]].
  - exists k, (take (k - length v) [i] ++ w). rewrite take_app, app_assoc. split; [done|].
    intros p [Hp%elem_of_take_elem|Hp]%elem_of_app; [|specialize (Hw p Hp); lia].
    apply list_elem_of_singleton in Hp. lia.
  - exists (k `min` k'), w. rewrite take_take. split; [done|]. intros p Hp. specialize (Hw p Hp). lia.
Qed.

(** The positions before one that survives are those found when its line comes. *)
Lemma user_positions_split items cut :
  cut ∈ user_message_positions_in_rollout items →
  ∃ w, user_message_positions_in_rollout items = user_message_positions_in_rollout (take cut items) ++ cut :: w.
Proof.
  intros Hin. pose proof (user_run_below 0 items [] ltac:(split; [constructor|intros p ?%not_elem_of_nil; done])) as [_ Hb].
  specialize (Hb cut Hin). simpl in Hb. unfold user_message_positions_in_rollout in *.
  destruct (lookup_lt_is_Some_2 items cut Hb) as [x Hx].
  rewrite <- (take_drop_middle items cut x Hx), enumerate_app, foldl_app in Hin |- *.
  rewrite take_app_le, take_take, Nat.min_id by (rewrite length_take; lia).
  rewrite length_take, Nat.min_l, enumerate_cons in * by lia. simpl in *.
  set (v := foldl user_position_step [] (enumerate_from 0 (take cut items))) in *.
  assert (Hv : below cut v).
  { pose proof (user_run_below 0 (take cut items) []) as H. rewrite length_take, Nat.min_l in H by lia.
    apply H. split; [constructor|]. by intros p ?%not_elem_of_nil. }
  destruct (user_run_prefix (S cut) (drop (S cut) items) (user_position_step v (cut, x))) as (k & w & Hk & Hw).
  rewrite Hk in *. apply elem_of_app in Hin as [Hin|Hin]; [|specialize (Hw _ Hin); lia].
  destruct (user_step_cases v (cut, x)) as [Hs|[k' Hs]]; rewrite Hs in *.
  - rewrite take_app in Hin |- *. apply elem_of_app in Hin as [Hin%elem_of_take_elem|Hin].
    { destruct Hv as [_ Hv]. specialize (Hv _ Hin). lia. }
    destruct (k - length v) as [|m] eqn:Hm; [by apply not_elem_of_nil in Hin|].
    exists w. rewrite take_ge by lia. simpl. by rewrite take_nil, <- app_assoc.
  - do 2 apply elem_of_take_elem in Hin. destruct Hv as [_ Hv]. specialize (Hv _ Hin). lia.
Qed.

(** Cutting a rollout before a user message counts in the effective history: the
    prefix before the [n]th user message has exactly the first [n] user messages
    that survive all rollbacks of the whole rollout, at their positions, even when
    later rollbacks dropped messages in between. A rollout with no such message is
    kept whole. *)
Theorem truncate_before_user_message_exact (items : list RolloutItem) (n : N) :
  n ≠ USIZE_MAX →
  let kept := truncate_rollout_before_nth_user_message_from_start items n in
  user_message_positions_in_rollout kept = take (N.to_nat n) (user_message_positions_in_rollout items) ∧
  kept `prefix_of` items.
Proof.
  intros Hn. unfold truncate_rollout_before_nth_user_message_from_start. rewrite bool_decide_false by done.
  destruct (user_message_positions_in_rollout items !! N.to_nat n) as [cut|] eqn:Hcut; simpl.
  - split; [|by exists (drop cut items); rewrite take_drop].
    destruct (user_positions_split items cut (list_elem_of_lookup_2 _ _ _ Hcut)) as [w Hw].
    assert (Hlen : N.to_nat n = length (user_message_positions_in_rollout (take cut items))).
    { pose proof (user_run_below 0 items [] ltac:(split; [constructor|intros p ?%not_elem_of_nil; done])) as [Hnd _].
      fold (user_message_positions_in_rollout items) in Hnd. eapply NoDup_lookup; [exact Hnd|exact Hcut|].
      rewrite Hw. by apply list_lookup_middle. }
    rewrite Hw, Hlen. by rewrite take_app_length.
  - split; [|done]. rewrite take_ge; [done|]. by apply lookup_ge_None_1.
Qed.

(** ** Positions of fork turns *)

Abbreviation no_positions := {| rollback_turn_positions := []; fork_turn_positions := [] |}.

Lemma fork_from_app before idx p items items' :
  fork_positions_from before idx p (items ++ items') =
  fork_positions_from (match last items with Some x => Some x | None => before end) (idx + length items)
    (fork_positions_from before idx p items) items'.
Proof.
  revert before idx p. induction items as [|x items IH]; intros before idx p; cbn [app fork_positions_from length].
  { simpl. by rewrite Nat.add_0_r. }
  rewrite IH, last_cons, Nat.add_succ_r. by destruct (last items).
Qed.

(** A fork turn is a turn, and it is no agent message. *)
Lemma fork_is_turn (i : ResponseItem) :
  is_real_user_message_boundary i || is_trigger_turn_boundary i = true →
  is_user_turn_boundary i = true ∧ is_agent_message i = false.
Proof.
  destruct i; try done. unfold is_real_user_message_boundary, is_trigger_turn_boundary, parse_message_item,
    is_user_turn_boundary, is_message_content. intros H. split; [|done]. apply orb_true_iff in H as [H|H].
  - case_bool_decide as Hu; [|by case_bool_decide]. apply orb_true_iff. left.
    unfold parse_user_message in H. destruct (is_contextual_user_message_content content) eqn:Hc; [|done].
    unfold parse_visible_hook_prompt_message in H. destruct (visible_hook_fragments content); [|done].
    simpl in H. by case_bool_decide.
  - apply andb_true_iff in H as [H1 H2]. apply orb_true_iff. right. rewrite H1. apply bool_decide_eq_true.
    destruct (from_message_content content); [eauto|done].
Qed.

Lemma fork_push_none p idx : fork_push p idx false false = p.
Proof. by destruct p. Qed.

(** The same step is taken from other positions, and after another line if this one
    is a fork turn. *)
Lemma fork_step_cases before (i : RolloutItem) :
  (∃ turn fork, (∀ idx' p', fork_position_step before p' idx' i = fork_push p' idx' turn fork) ∧
     (fork = true → turn = true ∧ ∀ before' idx' p', fork_position_step before' p' idx' i = fork_push p' idx' true true)) ∨
  (∃ n, ∀ before' idx' p', fork_position_step before' p' idx' i = fork_rollback n p').
Proof.
  assert (Hid : ∃ turn fork, (∀ (idx' : nat) p', p' = fork_push p' idx' turn fork) ∧
     (fork = true → turn = true ∧ ∀ (before' : option RolloutItem) idx' p', p' = fork_push p' idx' true true)).
  { exists false, false. split; [|done]. intros. by rewrite fork_push_none. }
  destruct i; simpl; auto.
  - left. eexists _, _. split; [done|]. intros H. destruct (fork_is_turn _ H) as [H1 H2]. rewrite H1, H2, H. done.
  - left. eexists _, _. split; [done|]. intros ->. done.
  - left. eexists _, _. split; [done|]. intros ->. done.
  - destruct e; auto. right. eauto.
Qed.

Lemma fork_rollback_old n p q : q ∈ fork_turn_positions (fork_rollback n p) → q ∈ fork_turn_positions p.
Proof.
  unfold fork_rollback. case_bool_decide; [done|]. case_match; [|done]. simpl.
  rewrite !list_elem_of_In, filter_In. tauto.
Qed.

(** A position that is not of this line and is there after it was there before. *)
Lemma fork_step_old before idx i p q :
  q ≠ idx → q ∈ fork_turn_positions (fork_position_step before p idx i) → q ∈ fork_turn_positions p.
Proof.
  intros Hq. destruct (fork_step_cases before i) as [(turn & fork & -> & _)|(n & ->)]; simpl.
  - destruct fork; [|done]. by intros [?| ->%list_elem_of_singleton]%elem_of_app.
  - apply fork_rollback_old.
Qed.

Lemma fork_run_old before idx items p q :
  q < idx → q ∈ fork_turn_positions (fork_positions_from before idx p items) → q ∈ fork_turn_positions p.
Proof.
  revert before idx p. induction items as [|x items IH]; intros before idx p Hq Hin; [done|]. simpl in Hin.
  apply IH in Hin; [|lia]. apply fork_step_old in Hin; [done|lia].
Qed.

(** The positions of a run are below its end. *)
Definition fork_below (idx : nat) (p : ForkPositions) : Prop :=
  (∀ q, q ∈ rollback_turn_positions p → q < idx) ∧ (∀ q, q ∈ fork_turn_positions p → q < idx).

Lemma snoc_below idx (b : bool) (l : list nat) :
  (∀ q, q ∈ l → q < idx) → ∀ q, q ∈ (if b then l ++ [idx] else l) → q < S idx.
Proof.
  intros Hl q. destruct b; [intros [Hq| ->%list_elem_of_singleton]%elem_of_app; [|lia]|intros Hq];
    specialize (Hl q Hq); lia.
Qed.

Lemma fork_step_below before idx i p : fork_below idx p → fork_below (S idx) (fork_position_step before p idx i).
Proof.
  intros [Hr Hf]. destruct (fork_step_cases before i) as [(turn & fork & -> & _)|(n & ->)].
  - split; by apply snoc_below.
  - assert (Hp : fork_below (S idx) p) by (split; intros q Hq; [specialize (Hr q Hq)|specialize (Hf q Hq)]; lia).
    unfold fork_rollback. case_bool_decide; [done|]. case_match; [|done]. destruct Hp as [Hr' Hf'].
    split; cbn [rollback_turn_positions fork_turn_positions]; intros q Hq.
    + apply elem_of_take_elem in Hq. auto.
    + apply list_elem_of_In, filter_In in Hq as [Hq%list_elem_of_In _]. auto.
Qed.

Lemma fork_run_below before idx items p :
  fork_below idx p → fork_below (idx + length items) (fork_positions_from before idx p items).
Proof.
  revert before idx p. induction items as [|x items IH]; intros before idx p Hp; cbn [length fork_positions_from].
  { by rewrite Nat.add_0_r. }
  rewrite Nat.add_succ_r. by apply (IH _ (S idx)), fork_step_below.
Qed.

Lemma fork_below_none idx : fork_below idx no_positions.
Proof. split; by intros q ?%not_elem_of_nil. Qed.

(** ** The suffix from a fork turn *)

(** [p] continues the positions [R0], [F0] before [keep] with those of [p'], which
    start with the fork turn at [keep]. *)
Record continues (keep : nat) (R0 F0 : list nat) (p p' : ForkPositions) : Prop := {
  cont_rollback : rollback_turn_positions p = R0 ++ map (Nat.add keep) (rollback_turn_positions p');
  cont_fork : fork_turn_positions p = F0 ++ map (Nat.add keep) (fork_turn_positions p');
  cont_rollback_head : ∃ T, rollback_turn_positions p' = 0 :: T ∧ ∀ q, q ∈ T → 0 < q;
  cont_fork_head : ∃ T, fork_turn_positions p' = 0 :: T ∧ ∀ q, q ∈ T → 0 < q;
}.

Lemma filter_shift keep q (l : list nat) :
  List.filter (λ x, x <? keep + q) (map (Nat.add keep) l) = map (Nat.add keep) (List.filter (λ x, x <? q) l).
Proof.
  induction l as [|x l IH]; simpl; [done|]. rewrite IH.
  destruct (Nat.ltb_spec (keep + x) (keep + q)), (Nat.ltb_spec x q); try lia; done.
Qed.

Lemma filter_all_below b (l : list nat) : (∀ q, q ∈ l → q < b) → List.filter (λ x, x <? b) l = l.
Proof.
  intros H. induction l as [|x l IH]; simpl; [done|]. rewrite IH by (intros q Hq; apply H; by right).
  destruct (Nat.ltb_spec x b); [done|]. specialize (H x ltac:(by left)). lia.
Qed.

(** Where a rollback that leaves [keep] begins. *)
Lemma rollback_start keep R0 n R' T s :
  (∀ q, q ∈ R0 → q < keep) → R' = 0 :: T → n ≠ 0 →
  nth_from_end_or_first n (R0 ++ map (Nat.add keep) R') = Some s → keep < s →
  ∃ q, nth_from_end_or_first n R' = Some q ∧ s = keep + q ∧ n < length R'.
Proof.
  intros HR0 HR' Hn Hs Hk. unfold nth_from_end_or_first in *. rewrite length_app, length_map in Hs.
  case_bool_decide as Hle.
  - destruct (decide (n ≤ length R')) as [Hle'|Hgt].
    + rewrite lookup_app_r in Hs by lia.
      replace (length R0 + length R' - n - length R0) with (length R' - n) in Hs by lia.
      apply list_lookup_fmap_Some in Hs as (q & -> & Hq). exists q. rewrite bool_decide_true by done.
      split; [done|]. split; [done|]. destruct (decide (n = length R')) as [->|]; [|lia].
      rewrite Nat.sub_diag, HR' in Hq. simplify_eq/=. lia.
    + rewrite lookup_app_l in Hs by lia. specialize (HR0 s (list_elem_of_lookup_2 _ _ _ Hs)). lia.
  - destruct R0 as [|r R0]; simpl in Hs.
    + rewrite HR' in Hs. simplify_eq/=. lia.
    + simplify_eq/=. specialize (HR0 s ltac:(by left)). lia.
Qed.

Lemma continues_rollback keep R0 F0 n p p' :
  (∀ q, q ∈ R0 → q < keep) → (∀ q, q ∈ F0 → q < keep) → continues keep R0 F0 p p' →
  keep ∈ fork_turn_positions (fork_rollback n p) → continues keep R0 F0 (fork_rollback n p) (fork_rollback n p').
Proof.
  intros HR0 HF0 Hc Hin. pose proof Hc as [Hr Hf (T & HT & Hpos) (T2 & HT2 & Hpos2)]. unfold fork_rollback in *.
  case_bool_decide as Hn; [done|].
  destruct (nth_from_end_or_first n (rollback_turn_positions p)) as [s|] eqn:Hs.
  2:{ exfalso. rewrite Hr, HT in Hs. unfold nth_from_end_or_first in Hs. case_bool_decide as Hle.
      - apply lookup_ge_None in Hs. rewrite length_app in *. simpl in *. lia.
      - by destruct R0. }
  simpl in Hin. apply list_elem_of_In, filter_In in Hin as [_ Hks%Nat.ltb_lt]. rewrite Hr in Hs.
  destruct (rollback_start keep R0 n _ T s HR0 HT Hn Hs Hks) as (q & -> & -> & Hlen).
  split; cbn [rollback_turn_positions fork_turn_positions].
  - unfold truncate_last. rewrite Hr, length_app, length_map, take_app, firstn_map.
    rewrite take_ge by lia. by replace (length R0 + length (rollback_turn_positions p') - n - length R0)
      with (length (rollback_turn_positions p') - n) by lia.
  - rewrite Hf, List.filter_app, filter_shift. f_equal. apply filter_all_below. intros x Hx.
    specialize (HF0 x Hx). lia.
  - unfold truncate_last. rewrite HT. exists (take (length (0 :: T) - n - 1) T). split.
    + rewrite HT in Hlen. set (k := length (0 :: T) - n) in *.
      assert (k = S (k - 1)) as -> by (unfold k in *; simpl in *; lia). simpl. by rewrite Nat.sub_0_r.
    + intros x Hx%elem_of_take_elem. auto.
  - rewrite HT2. simpl. destruct (Nat.ltb_spec 0 q); [|lia]. eexists. split; [done|].
    intros x [Hx%list_elem_of_In _]%list_elem_of_In%filter_In. auto.
Qed.

Lemma continues_push keep R0 F0 j turn fork p p' :
  0 < j → continues keep R0 F0 p p' → continues keep R0 F0 (fork_push p (keep + j) turn fork) (fork_push p' j turn fork).
Proof.
  intros Hj [Hr Hf (T & HT & Hpos) (T2 & HT2 & Hpos2)]. split; cbn [fork_push rollback_turn_positions fork_turn_positions].
  - destruct turn; [|done]. rewrite Hr, map_app, <- app_assoc. done.
  - destruct fork; [|done]. rewrite Hf, map_app, <- app_assoc. done.
  - rewrite HT. destruct turn; [|eauto]. exists (T ++ [j]). split; [done|].
    intros q [Hq| ->%list_elem_of_singleton]%elem_of_app; auto.
  - rewrite HT2. destruct fork; [|eauto]. exists (T2 ++ [j]). split; [done|].
    intros q [Hq| ->%list_elem_of_singleton]%elem_of_app; auto.
Qed.

Lemma continues_run keep R0 F0 before j items p p' :
  (∀ q, q ∈ R0 → q < keep) → (∀ q, q ∈ F0 → q < keep) → 0 < j → continues keep R0 F0 p p' →
  keep ∈ fork_turn_positions (fork_positions_from before (keep + j) p items) →
  continues keep R0 F0 (fork_positions_from before (keep + j) p items) (fork_positions_from before j p' items).
Proof.
  intros HR0 HF0. revert before j p p'. induction items as [|i items IH]; intros before j p p' Hj Hc Hin; [done|].
  cbn [fork_positions_from] in *. pose proof Hin as Hin1%fork_run_old; [|lia]. rewrite <- Nat.add_succ_r in *.
  apply IH; [lia| |done].
  destruct (fork_step_cases before i) as [(turn & fork & Hs & _)|(n & Hs)]; rewrite !Hs in *.
  - by apply continues_push.
  - by apply continues_rollback.
Qed.

(** The positions around a fork turn that survives are those of the lines before it
    and those of the lines from it on. *)
Lemma fork_positions_split items keep :
  keep ∈ fork_turn_positions_in_rollout items →
  ∃ F0 T, (∀ q, q ∈ F0 → q < keep) ∧ fork_turn_positions_in_rollout (drop keep items) = 0 :: T ∧
    (∀ q, q ∈ T → 0 < q) ∧
    fork_turn_positions_in_rollout items = F0 ++ map (Nat.add keep) (0 :: T) ∧ keep < length items.
Proof.
  intros Hin. destruct (fork_run_below None 0 items _ (fork_below_none 0)) as [_ Hb].
  pose proof (Hb keep Hin) as Hlen. simpl in Hlen. destruct (lookup_lt_is_Some_2 items keep Hlen) as [x Hx].
  unfold fork_turn_positions_in_rollout in *. rewrite (drop_S _ _ _ Hx).
  rewrite <- (take_drop_middle items keep x Hx), fork_from_app in Hin |- *.
  destruct (fork_run_below None 0 (take keep items) _ (fork_below_none 0)) as [HR HF].
  rewrite length_take, Nat.min_l in * by lia. simpl in HR, HF, Hin |- *.
  set (p0 := fork_positions_from None 0 _ (take keep items)) in *.
  set (before := match last (take keep items) with Some x => Some x | None => None end) in *.
  pose proof Hin as Hin1%fork_run_old; [|lia].
  destruct (fork_step_cases before x) as [(turn & fork & Hs & Hfork)|(n & Hs)]; rewrite Hs in *.
  2:{ specialize (HF keep (fork_rollback_old _ _ _ Hin1)). lia. }
  destruct fork; [|specialize (HF keep Hin1); lia]. destruct (Hfork eq_refl) as [-> Hany]. rewrite (Hany None).
  assert (Hc : continues keep (rollback_turn_positions p0) (fork_turn_positions p0) (fork_push p0 keep true true)
                 (fork_push no_positions 0 true true)).
  { split; simpl; rewrite ?Nat.add_0_r; try done; exists []; (split; [done|]); by intros q ?%not_elem_of_nil. }
  destruct (continues_run keep _ _ (Some x) 1 (drop (S keep) items) _ _ HR HF ltac:(lia) Hc) as [_ Hf _ (T & HT & HT0)].
  { by rewrite Nat.add_1_r. }
  rewrite Nat.add_1_r in Hf. exists (fork_turn_positions p0), T.
  rewrite HT in *. rewrite (take_drop_middle items keep x Hx), HT. auto.
Qed.

Lemma lookup_only {A} (l k : list A) i x :
  x ∉ l → x ∉ k → (l ++ x :: k) !! i = Some x → i = length l.
Proof.
  intros Hl Hk Hi. destruct (lt_eq_lt_dec i (length l)) as [[Hlt|Heq]|Hgt]; [|done|].
  - rewrite lookup_app_l in Hi by done. by apply list_elem_of_lookup_2 in Hi.
  - rewrite lookup_app_r in Hi by lia. destruct (i - length l) as [|m] eqn:Hm; [lia|].
    simpl in Hi. by apply list_elem_of_lookup_2 in Hi.
Qed.

Lemma nth_from_end_elem n v k :
  nth_from_end_or_first n v = Some k → v !! (length v - n) = Some k.
Proof.
  unfold nth_from_end_or_first. case_bool_decide; [done|]. replace (length v - n) with 0 by lia. by destruct v.
Qed.

(** C30. Keeping the last [n] fork turns keeps exactly those: the fork turns of the
    suffix, counted from where it begins, are the last [n] of the effective fork
    turns of the whole rollout, whatever rollbacks come after its beginning, and
    the suffix begins with a fork turn, so that what precedes the first one is
    dropped. *)
Theorem fork_truncation_exact (items : list RolloutItem) (n : nat) :
  let positions := fork_turn_positions_in_rollout items in
  let kept := truncate_rollout_to_last_n_fork_turns items n in
  map (Nat.add (length items - length kept)) (fork_turn_positions_in_rollout kept)
    = drop (length positions - n) positions ∧
  (kept = [] ∨ head (fork_turn_positions_in_rollout kept) = Some 0) ∧
  kept `suffix_of` items.
Proof.
  intros P kept. subst kept. unfold truncate_rollout_to_last_n_fork_turns. fold P. case_bool_decide as Hn.
  { subst. split; [|split; [by left|apply suffix_nil]]. by rewrite (Nat.sub_0_r (length P)), drop_all. }
  destruct (nth_from_end_or_first n P) as [keep|] eqn:Hk.
  - apply nth_from_end_elem in Hk. destruct (fork_positions_split items keep) as (F0 & T & HF & HT & HT0 & HP & Hlen).
    { by apply list_elem_of_lookup_2 in Hk. }
    fold P in HP. rewrite HT. split; [|split; [by right|apply suffix_drop]].
    rewrite length_drop. replace (length items - (length items - keep)) with keep by lia.
    assert (length P - n = length F0) as ->; [|by rewrite HP, drop_app_length].
    simpl in HP. rewrite Nat.add_0_r in HP. apply (lookup_only F0 (map (Nat.add keep) T) _ keep); [..|by rewrite <- HP].
    + intros Hin. specialize (HF _ Hin). lia.
    + intros (q & Hq & Hin)%list_elem_of_fmap. specialize (HT0 _ Hin). lia.
  - split; [|split; [by left|apply suffix_nil]]. unfold nth_from_end_or_first in Hk. case_bool_decide.
    + apply lookup_ge_None in Hk. destruct P; [done|]. simpl in *; lia.
    + by destruct P.
Qed.

(** ** Turns that were started *)

Definition turn_ids (b : ThreadHistoryBuilder) : list str := map pt_id (all_turns b).

Lemma effect_keeps_ids b b' : effect b b' → turn_ids b `prefix_of` turn_ids b'.
Proof.
  unfold turn_ids.
  intros [Hv _|l1 t t' l2 it -> -> Hv _ _ _|l1 t t' l2 -> -> Hid _ _|t -> _ _].
  - by rewrite (same_views_ids _ _ Hv).
  - rewrite !map_app. simpl. by rewrite (pending_id _ _ Hv).
  - rewrite !map_app. simpl. by rewrite Hid.
  - rewrite map_app. by apply prefix_app_r.
Qed.

Lemma effects_keep_ids b b' : rtc effect b b' → turn_ids b `prefix_of` turn_ids b'.
Proof. induction 1 as [|b1 b2 b3 H _ IH]; [done|]. etrans; [by apply effect_keeps_ids|done]. Qed.

(** Without a rollback, no turn goes. *)
Lemma replay_keeps_ids fresh items b :
  good b → existsb rolls_back items = false → turn_ids b `prefix_of` turn_ids (replay fresh items b).
Proof.
  revert b. induction items as [|i items IH]; intros b Hg Hr; [done|]. simpl in Hr.
  apply orb_false_iff in Hr as [Hi Hr]. set (b1 := handle_rollout_item (fresh (next_rollout_index b)) i b).
  destruct (evolves_item (fresh (next_rollout_index b)) i b Hi Hg) as [Hg1 He]. fold b1 in Hg1, He.
  change (replay fresh (i :: items) b) with (replay fresh items b1).
  etrans; [by apply effects_keep_ids|by apply IH].
Qed.

Lemma started_in_ids fresh p b : ts_turn_id p ∈ turn_ids (handle_rollout_item fresh (RiEventMsg (EvTurnStarted p)) b).
Proof.
  unfold turn_ids, all_turns. cbn [handle_rollout_item handle_event]. unfold handle_turn_started. simpl.
  rewrite map_app. apply elem_of_app. right. simpl. by left.
Qed.

Lemma has_turn_ids fresh items id :
  has_turn id (build_turns_from_rollout_items fresh items) = true ↔ id ∈ turn_ids (replay fresh items builder_new).
Proof.
  unfold has_turn, build_turns_from_rollout_items, builder_finish, turn_ids.
  destruct (finish_kept _ (good_kept _ (good_replay fresh items _ good_new))) as (-> & _).
  rewrite existsb_exists. split.
  - intros (t & Ht & Heq%bool_decide_eq_true). apply in_map_iff in Ht as (u & <- & Hu). simpl in Heq.
    rewrite <- Heq. apply list_elem_of_In. by apply in_map.
  - intros (t & -> & Ht)%list_elem_of_fmap. exists (turn_from t). split; [|by apply bool_decide_eq_true].
    apply in_map. by apply list_elem_of_In.
Qed.

Lemma position_split {A} (f : A → bool) (l : list A) i :
  position f l = Some i → ∃ x, l = take i l ++ x :: drop (S i) l ∧ f x = true.
Proof.
  revert i. induction l as [|y l IH]; intros i; simpl; [done|]. destruct (f y) eqn:Hf.
  - intros [= <-]. by exists y.
  - intros (j & Hj & ->)%fmap_Some. destruct (IH j Hj) as (x & Hl & Hx). exists x. simpl. by rewrite <- Hl.
Qed.

(** A turn whose start is persisted is in the history, unless a later line rolls back. *)
Lemma started_turn_stays fresh items id cut :
  position (starts_turn id) items = Some cut → existsb rolls_back (drop (cut + 1) items) = false →
  has_turn id (build_turns_from_rollout_items fresh items) = true.
Proof.
  intros (x & Hx & Hs)%position_split Hr. apply has_turn_ids. rewrite Hx. unfold replay. rewrite foldl_app. simpl.
  fold (replay fresh (take cut items) builder_new). set (b := replay fresh (take cut items) builder_new).
  fold (replay fresh (drop (S cut) items) (handle_rollout_item (fresh (next_rollout_index b)) x b)).
  assert (Hg : good b) by apply good_replay, good_new.
  destruct (replay_keeps_ids fresh (drop (S cut) items) (handle_rollout_item (fresh (next_rollout_index b)) x b))
    as [l ->]; [by apply good_item|by rewrite Nat.add_1_r in Hr|].
  apply elem_of_app. left. destruct x; try done. destruct e; try done. apply bool_decide_eq_true in Hs as <-.
  apply started_in_ids.
Qed.

(** C31. A fork before a turn cuts at the turn's start exactly when the start is
    persisted and the turn is in the effective history, although the history is
    only built when a rollback comes after the start; a turn of the history without
    a persisted start, and one that is not there, are the two errors. *)
Theorem truncate_before_turn_exact (fresh : nat → str) (items : list RolloutItem) (id : str) :
  let in_history := has_turn id (build_turns_from_rollout_items fresh items) in
  truncate_rollout_before_turn_id fresh items id =
    match position (starts_turn id) items with
    | Some start => if in_history then Ok (take start items) else Err (TurnNotFound id)
    | None => if in_history then Err (TurnNotCanonical id) else Err (TurnNotFound id)
    end.
Proof.
  intros in_history. unfold truncate_rollout_before_turn_id. fold in_history.
  destruct (position (starts_turn id) items) as [cut|] eqn:Hcut; [|done].
  destruct (existsb rolls_back (drop (cut + 1) items)) eqn:Hr; simpl; [by destruct in_history|].
  unfold in_history. by rewrite (started_turn_stays _ _ _ _ Hcut Hr).
Qed.

End Facts.
