(* ===== verification/Reconstruct.v ===== *)
(** * Reconstruction of a session from its rollout

    Models the replay of [core/src/session/rollout_reconstruction.rs] by which a
    resumed or forked session gets its metadata: the scan of the rollout from its
    newest line to its oldest, in segments that end at the start of a turn, the
    rollbacks that drop segments, the early end of the scan, and the replay of the
    world states. The items of the history itself, which the context manager
    rebuilds from the checkpoint and the lines after it, are not followed here. *)

From stdpp Require Import gmap.
From S2P Require Import Prelude RustStr RustOrd Truncate ResponseItem WorldState ThreadItem ThreadHistory.
From S2P Require Import Rollout.
Open Scope list_scope.

(** The package [uuid]: [Uuid::parse_str] and [get_version_num]. *)
Class UuidReader := {
  Uuid : Type;
  uuid_parse_str : str → option Uuid;
  get_version_num : Uuid → N;
}.

Section Reconstruct.
Context `{ER : EnvelopeReader} `{UR : UuidReader}.

Definition parse_uuid_v7 (value : str) : option Uuid :=
  uuid ← uuid_parse_str value; if (get_version_num uuid =? 7)%N then Some uuid else None.

Record ReconstructedWindow := {
  window_number : N;
  window_first_id : option Uuid;
  window_previous_id : option Uuid;
  window_id : option Uuid;
}.

Record PreviousTurnSettings := {
  pts_model : str;
  pts_comp_hash : option str;
  pts_realtime_active : option bool;
}.

Inductive TurnReferenceContextItem := NeverSet | Cleared | Latest (ctx : TurnContextItem).
Definition never_set (r : TurnReferenceContextItem) : bool := match r with NeverSet => true | _ => false end.
Definition is_cleared (r : TurnReferenceContextItem) : bool := match r with Cleared => true | _ => false end.

(** A checkpoint and the lines after it. *)
Record ReplayCheckpoint := { checkpoint_compacted : CompactedItem; checkpoint_suffix : list RolloutItem }.

Record ActiveReplaySegment := {
  seg_turn_id : option str;
  seg_counts_as_user_turn : bool;
  seg_previous_turn_settings : option PreviousTurnSettings;
  seg_reference_context_item : TurnReferenceContextItem;
  seg_world_state_replay : list RolloutItem;
  seg_base_compaction : option ReplayCheckpoint;
  seg_window : option ReconstructedWindow;
}.

Definition segment_default : ActiveReplaySegment :=
  {| seg_turn_id := None; seg_counts_as_user_turn := false; seg_previous_turn_settings := None;
     seg_reference_context_item := NeverSet; seg_world_state_replay := []; seg_base_compaction := None;
     seg_window := None |}.

Definition turn_ids_are_compatible (active_turn_id item_turn_id : option str) : bool :=
  match active_turn_id, item_turn_id with
  | Some turn_id, Some item_turn_id => bool_decide (item_turn_id = turn_id)
  | _, _ => true
  end.

(** The variables of [reconstruct_history_from_rollout] that the scan sets. *)
Record ReplayState := {
  base_compaction : option ReplayCheckpoint;
  previous_turn_settings : option PreviousTurnSettings;
  reference_context_item : TurnReferenceContextItem;
  world_state_replay : list RolloutItem;
  replay_window : option ReconstructedWindow;
  pending_rollback_turns : N;
  active_segment : option ActiveReplaySegment;
}.

Definition replay_start : ReplayState :=
  {| base_compaction := None; previous_turn_settings := None; reference_context_item := NeverSet;
     world_state_replay := []; replay_window := None; pending_rollback_turns := 0; active_segment := None |}.

Definition set_active (st : ReplayState) (seg : option ActiveReplaySegment) : ReplayState :=
  {| base_compaction := base_compaction st; previous_turn_settings := previous_turn_settings st;
     reference_context_item := reference_context_item st; world_state_replay := world_state_replay st;
     replay_window := replay_window st; pending_rollback_turns := pending_rollback_turns st;
     active_segment := seg |}.
Definition set_pending (st : ReplayState) (n : N) : ReplayState :=
  {| base_compaction := base_compaction st; previous_turn_settings := previous_turn_settings st;
     reference_context_item := reference_context_item st; world_state_replay := world_state_replay st;
     replay_window := replay_window st; pending_rollback_turns := n; active_segment := active_segment st |}.

Definition is_compacted (i : RolloutItem) : bool := match i with RiCompacted _ => true | _ => false end.
Definition is_full_world_state (i : RolloutItem) : bool :=
  match i with RiWorldState w => ws_full w | _ => false end.

(** [take_while(p).any(q)]. *)
Fixpoint any_while {A} (p q : A → bool) (l : list A) : bool :=
  match l with
  | [] => false
  | x :: l' => if p x then q x || any_while p q l' else false
  end.

Definition finalize_active_segment (seg : ActiveReplaySegment) (st : ReplayState) : ReplayState :=
  if (0 <? pending_rollback_turns st)%N then
    if seg_counts_as_user_turn seg then set_pending st (pending_rollback_turns st - 1) else st
  else
    let has_context_baseline :=
      seg_counts_as_user_turn seg
      || any_while (λ i, negb (is_compacted i)) is_full_world_state (seg_world_state_replay seg) in
    {| base_compaction :=
         match base_compaction st with Some c => Some c | None => seg_base_compaction seg end;
       previous_turn_settings :=
         match previous_turn_settings st with
         | Some s => Some s
         | None => if has_context_baseline then seg_previous_turn_settings seg else None
         end;
       reference_context_item :=
         if never_set (reference_context_item st)
            && (has_context_baseline || is_cleared (seg_reference_context_item seg))
         then seg_reference_context_item seg else reference_context_item st;
       world_state_replay := world_state_replay st ++ seg_world_state_replay seg;
       replay_window := match replay_window st with Some w => Some w | None => seg_window seg end;
       pending_rollback_turns := pending_rollback_turns st;
       active_segment := active_segment st |}.

(** ** What a line adds to the active segment *)

Definition set_seg_turn_id (seg : ActiveReplaySegment) (id : option str) : ActiveReplaySegment :=
  {| seg_turn_id := match seg_turn_id seg with Some id => Some id | None => id end;
     seg_counts_as_user_turn := seg_counts_as_user_turn seg;
     seg_previous_turn_settings := seg_previous_turn_settings seg;
     seg_reference_context_item := seg_reference_context_item seg;
     seg_world_state_replay := seg_world_state_replay seg; seg_base_compaction := seg_base_compaction seg;
     seg_window := seg_window seg |}.

Definition set_seg_counts (seg : ActiveReplaySegment) (counts : bool) : ActiveReplaySegment :=
  {| seg_turn_id := seg_turn_id seg; seg_counts_as_user_turn := seg_counts_as_user_turn seg || counts;
     seg_previous_turn_settings := seg_previous_turn_settings seg;
     seg_reference_context_item := seg_reference_context_item seg;
     seg_world_state_replay := seg_world_state_replay seg; seg_base_compaction := seg_base_compaction seg;
     seg_window := seg_window seg |}.

Definition set_seg_world_state (seg : ActiveReplaySegment) (i : RolloutItem) : ActiveReplaySegment :=
  {| seg_turn_id := seg_turn_id seg; seg_counts_as_user_turn := seg_counts_as_user_turn seg;
     seg_previous_turn_settings := seg_previous_turn_settings seg;
     seg_reference_context_item := seg_reference_context_item seg;
     seg_world_state_replay := seg_world_state_replay seg ++ [i];
     seg_base_compaction := seg_base_compaction seg; seg_window := seg_window seg |}.

Definition seg_compacted (compacted : CompactedItem) (suffix : list RolloutItem) (seg : ActiveReplaySegment)
    : ActiveReplaySegment :=
  {| seg_turn_id := seg_turn_id seg; seg_counts_as_user_turn := seg_counts_as_user_turn seg;
     seg_previous_turn_settings := seg_previous_turn_settings seg;
     seg_reference_context_item :=
       if never_set (seg_reference_context_item seg) then Cleared else seg_reference_context_item seg;
     seg_world_state_replay := seg_world_state_replay seg ++ [RiCompacted compacted];
     seg_base_compaction :=
       match seg_base_compaction seg with
       | Some c => Some c
       | None => match cp_replacement_history compacted with
                 | Some _ => Some {| checkpoint_compacted := compacted; checkpoint_suffix := suffix |}
                 | None => None
                 end
       end;
     seg_window :=
       match seg_window seg with
       | Some w => Some w
       | None => (λ number, {| window_number := number;
                               window_first_id := cp_first_window_id compacted ≫= parse_uuid_v7;
                               window_previous_id := cp_previous_window_id compacted ≫= parse_uuid_v7;
                               window_id := cp_window_id compacted ≫= parse_uuid_v7 |})
                 <$> cp_window_number compacted
       end |}.

Definition seg_turn_context (ctx : TurnContextItem) (seg : ActiveReplaySegment) : ActiveReplaySegment :=
  let seg := set_seg_turn_id seg (ctx_turn_id ctx) in
  if turn_ids_are_compatible (seg_turn_id seg) (ctx_turn_id ctx) then
    {| seg_turn_id := seg_turn_id seg; seg_counts_as_user_turn := seg_counts_as_user_turn seg;
       seg_previous_turn_settings :=
         Some {| pts_model := ctx_model ctx; pts_comp_hash := ctx_comp_hash ctx;
                 pts_realtime_active := ctx_realtime_active ctx |};
       seg_reference_context_item :=
         if never_set (seg_reference_context_item seg) then Latest ctx else seg_reference_context_item seg;
       seg_world_state_replay := seg_world_state_replay seg; seg_base_compaction := seg_base_compaction seg;
       seg_window := seg_window seg |}
  else seg.

(** [get_or_insert_with(ActiveReplaySegment::default)] and the update of what it gives. *)
Definition in_segment (f : ActiveReplaySegment → ActiveReplaySegment) (st : ReplayState) : ReplayState :=
  set_active st (Some (f (default segment_default (active_segment st)))).

(** One line of the scan; [suffix] is the lines after it. *)
Definition scan_item (suffix : list RolloutItem) (i : RolloutItem) (st : ReplayState) : ReplayState :=
  match i with
  | RiCompacted compacted => in_segment (seg_compacted compacted suffix) st
  | RiEventMsg (EvThreadRolledBack num_turns) =>
      set_pending st (N.min (pending_rollback_turns st + num_turns) USIZE_MAX)
  | RiEventMsg (EvTurnComplete event) => in_segment (λ seg, set_seg_turn_id seg (Some (tc_turn_id event))) st
  | RiEventMsg (EvTurnAborted event) =>
      match active_segment st, ta_turn_id event with
      | Some seg, id => set_active st (Some (set_seg_turn_id seg id))
      | None, Some id => set_active st (Some (set_seg_turn_id segment_default (Some id)))
      | None, None => st
      end
  | RiEventMsg (EvUserMessage _) => in_segment (λ seg, set_seg_counts seg true) st
  | RiTurnContext ctx => in_segment (seg_turn_context ctx) st
  | RiWorldState _ => in_segment (λ seg, set_seg_world_state seg i) st
  | RiEventMsg (EvTurnStarted event) =>
      match active_segment st with
      | Some seg =>
          if turn_ids_are_compatible (seg_turn_id seg) (Some (ts_turn_id event))
          then finalize_active_segment seg (set_active st None) else st
      | None => st
      end
  | RiResponseItem env => in_segment (λ seg, set_seg_counts seg (is_user_turn_boundary (item env))) st
  | RiInterAgentCommunication _ => in_segment (λ seg, set_seg_counts seg true) st
  | RiEventMsg _ | RiSessionMeta _ | RiInterAgentCommunicationMetadata _ | RiOther _ => st
  end.

(** The checkpoint and the metadata that end the scan. *)
Definition replay_complete (st : ReplayState) : bool :=
  bool_decide (is_Some (base_compaction st)) && bool_decide (is_Some (previous_turn_settings st))
  && negb (never_set (reference_context_item st)).

(** The scan of the lines in [l], newest first, each with the lines after it. *)
Fixpoint scan_lines (l : list (list RolloutItem * RolloutItem)) (st : ReplayState) : ReplayState :=
  match l with
  | [] => st
  | (suffix, i) :: l' =>
      let st := scan_item suffix i st in
      if replay_complete st then st else scan_lines l' st
  end.

(** The lines of a rollout, oldest first, each with the lines after it. *)
Fixpoint with_suffixes (items : list RolloutItem) : list (list RolloutItem * RolloutItem) :=
  match items with
  | [] => []
  | i :: items' => (items', i) :: with_suffixes items'
  end.

(** After the loop. *)
Definition finish_scan (st : ReplayState) : ReplayState :=
  match active_segment st with
  | Some seg => finalize_active_segment seg (set_active st None)
  | None => st
  end.

Definition scan_rollout (items : list RolloutItem) : ReplayState :=
  finish_scan (scan_lines (rev (with_suffixes items)) replay_start).

(** ** What is restored *)

Definition reconstructed_window_from_session_context_window (id : str) : option ReconstructedWindow :=
  id ← parse_uuid_v7 id;
  Some {| window_number := 0; window_first_id := Some id; window_previous_id := None; window_id := Some id |}.

Definition initial_window (items : list RolloutItem) : option ReconstructedWindow :=
  let has_legacy_compaction_without_window_number :=
    existsb (λ i, match i with RiCompacted c => bool_decide (cp_window_number c = None) | _ => false end) items in
  if has_legacy_compaction_without_window_number then None
  else find_map (λ i, match i with
                      | RiSessionMeta window_id => window_id ≫= reconstructed_window_from_session_context_window
                      | _ => None
                      end) items.

Definition fallback_window (items : list RolloutItem) : ReconstructedWindow :=
  {| window_number := N.of_nat (length (List.filter is_compacted items)); window_first_id := None;
     window_previous_id := None; window_id := None |}.

(** One record of the replay of the world states, in their order. *)
Definition world_state_step (baseline : option (gmap str (Json Number))) (i : RolloutItem)
    : option (gmap str (Json Number)) :=
  match i with
  | RiCompacted _ => None
  | RiWorldState w => if ws_full w then Some (ws_state w) else (λ b, apply_merge_patch b (ws_state w)) <$> baseline
  | _ => baseline
  end.

Record ReconstructedMetadata := {
  rm_checkpoint : option CompactedItem;
  rm_rollout_suffix : list RolloutItem;
  rm_previous_turn_settings : option PreviousTurnSettings;
  rm_reference_context_item : option TurnContextItem;
  rm_world_state_baseline : option (gmap str (Json Number));
  rm_window : ReconstructedWindow;
}.

Definition is_legacy_compaction (i : RolloutItem) : bool :=
  match i with
  | RiCompacted c => match cp_replacement_history c with None => true | Some _ => false end
  | _ => false
  end.

(** The metadata of the rollout from what its scan found. *)
Definition metadata_of (items : list RolloutItem) (st : ReplayState) : ReconstructedMetadata :=
  let rollout_suffix := from_option checkpoint_suffix items (base_compaction st) in
  let saw_legacy_compaction_without_replacement_history := existsb is_legacy_compaction rollout_suffix in
  {| rm_checkpoint := checkpoint_compacted <$> base_compaction st;
     rm_rollout_suffix := rollout_suffix;
     rm_previous_turn_settings := previous_turn_settings st;
     rm_reference_context_item :=
       if saw_legacy_compaction_without_replacement_history then None
       else match reference_context_item st with Latest ctx => Some ctx | NeverSet | Cleared => None end;
     rm_world_state_baseline := foldl world_state_step None (rev (world_state_replay st));
     rm_window :=
       match replay_window st with
       | Some w => w
       | None => default (fallback_window items) (initial_window items)
       end |}.

Definition reconstruct_metadata (items : list RolloutItem) : ReconstructedMetadata :=
  metadata_of items (scan_rollout items).

End Reconstruct.

(** * What a reconstruction restores

    Ending the scan early gives what a scan of the whole rollout gives, and turns
    that a rollback dropped leave no trace in what is restored. *)

Section Facts.
Context `{ER : EnvelopeReader} `{UR : UuidReader}.
Implicit Types (st : ReplayState) (seg : ActiveReplaySegment) (items : list RolloutItem).

(** ** The scan of all lines *)

Abbreviation line := (list RolloutItem * RolloutItem)%type.

Definition scan_all (l : list line) st : ReplayState := foldl (λ st p, scan_item p.1 p.2 st) st l.

(** The reference: what the scan of every line restores. *)
Definition reconstruct_all (items : list RolloutItem) : ReconstructedMetadata :=
  metadata_of items (finish_scan (scan_all (rev (with_suffixes items)) replay_start)).

(** What is found stays. *)
Record extends st st' : Prop := {
  ext_base c : base_compaction st = Some c → base_compaction st' = Some c;
  ext_settings s : previous_turn_settings st = Some s → previous_turn_settings st' = Some s;
  ext_reference : never_set (reference_context_item st) = false →
    reference_context_item st' = reference_context_item st;
  ext_window w : replay_window st = Some w → replay_window st' = Some w;
  ext_world : ∃ more, world_state_replay st' = world_state_replay st ++ more;
}.

Lemma scan_extends_refl st : extends st st.
Proof. split; try done. exists []. by rewrite app_nil_r. Qed.

Lemma scan_extends_trans st1 st2 st3 : extends st1 st2 → extends st2 st3 → extends st1 st3.
Proof.
  intros [A1 A2 A3 A4 [m1 A5]] [B1 B2 B3 B4 [m2 B5]]. split; [by auto..| | |].
  - intros H. rewrite B3; [by apply A3|]. by rewrite A3.
  - auto.
  - exists (m1 ++ m2). by rewrite B5, A5, app_assoc.
Qed.

Lemma extends_active st st' (seg : option ActiveReplaySegment) : extends st st' → extends st (set_active st' seg).
Proof. intros []. by split. Qed.
Lemma extends_pending st n : extends st (set_pending st n).
Proof. split; try done. exists []. by rewrite app_nil_r. Qed.
Lemma extends_in_segment f st : extends st (in_segment f st).
Proof. apply extends_active, scan_extends_refl. Qed.

Lemma extends_finalize seg st : extends st (finalize_active_segment seg st).
Proof.
  unfold finalize_active_segment. case_match; [case_match; [apply extends_pending|apply scan_extends_refl]|].
  split; simpl; [by intros c ->|by intros s ->|by intros ->|by intros w ->|by eexists].
Qed.

Lemma extends_finalize_active seg st : extends st (finalize_active_segment seg (set_active st None)).
Proof. apply (scan_extends_trans _ (set_active st None)); [by apply extends_active, scan_extends_refl|apply extends_finalize]. Qed.

Lemma extends_scan_item suffix i st : extends st (scan_item suffix i st).
Proof.
  destruct i; simpl; try apply extends_in_segment; try apply scan_extends_refl.
  destruct e; simpl; try apply extends_in_segment; try apply scan_extends_refl.
  - apply extends_pending.
  - repeat case_match; try apply extends_active; apply scan_extends_refl.
  - case_match; [case_match|]; try apply scan_extends_refl. apply extends_finalize_active.
Qed.

Lemma extends_scan_all l st : extends st (scan_all l st).
Proof.
  revert st. induction l as [|p l IH]; intros st; [apply scan_extends_refl|].
  eapply scan_extends_trans; [apply extends_scan_item|apply IH].
Qed.

Lemma extends_finish st : extends st (finish_scan st).
Proof. unfold finish_scan. case_match; [apply extends_finalize_active|apply scan_extends_refl]. Qed.

(** A scan that ends early ends where the whole scan passes. *)
Lemma scan_early l st :
  extends (scan_lines l st) (scan_all l st) ∧ (replay_complete (scan_lines l st) = true ∨ scan_lines l st = scan_all l st).
Proof.
  revert st. induction l as [|[suffix i] l IH]; intros st; [by split; [apply scan_extends_refl|right]|].
  cbn [scan_lines]. change (scan_all ((suffix, i) :: l) st) with (scan_all l (scan_item suffix i st)).
  destruct (replay_complete (scan_item suffix i st)) eqn:Hc; [|apply IH]. split; [apply extends_scan_all|by left].
Qed.

(** ** Checkpoints and the records they come with *)

(** A checkpoint's compaction is among the records of its segment, and its window is
    found with it. *)
Definition checkpoint_with (c : option ReplayCheckpoint) (w : option ReconstructedWindow) (r : list RolloutItem) : Prop :=
  ∀ k, c = Some k → existsb is_compacted r = true ∧ (is_Some (cp_window_number (checkpoint_compacted k)) → is_Some w).

Record recorded st : Prop := {
  rec_state : checkpoint_with (base_compaction st) (replay_window st) (world_state_replay st);
  rec_segment seg : active_segment st = Some seg →
    checkpoint_with (seg_base_compaction seg) (seg_window seg) (seg_world_state_replay seg);
}.

Lemma checkpoint_more c w r r' : checkpoint_with c w r → checkpoint_with c w (r ++ r').
Proof. intros H k Hk. rewrite existsb_app. destruct (H k Hk) as [-> ?]. done. Qed.

Lemma recorded_segment f st :
  recorded st →
  (∀ seg, checkpoint_with (seg_base_compaction seg) (seg_window seg) (seg_world_state_replay seg) →
     checkpoint_with (seg_base_compaction (f seg)) (seg_window (f seg)) (seg_world_state_replay (f seg))) →
  recorded (in_segment f st).
Proof.
  intros [Hs Hg] Hf. split; [exact Hs|]. intros seg' [= <-]. apply Hf.
  destruct (active_segment st) as [seg|]; simpl; [by apply Hg|]. by intros k.
Qed.

Lemma recorded_finalize seg st :
  recorded st → checkpoint_with (seg_base_compaction seg) (seg_window seg) (seg_world_state_replay seg) →
  recorded (finalize_active_segment seg (set_active st None)).
Proof.
  intros [Hs _] Hseg. unfold finalize_active_segment. simpl. case_match; [by case_match; split|].
  split; [|done]. cbn [base_compaction replay_window world_state_replay]. intros k. rewrite existsb_app.
  destruct (base_compaction st) as [c|].
  - intros [= ->]. destruct (Hs k eq_refl) as [-> Hw]. split; [done|]. intros Hn. destruct (Hw Hn) as [w ->]. eauto.
  - intros Hk. destruct (Hseg k Hk) as [-> Hw]. split; [apply orb_true_r|]. intros Hn.
    destruct (replay_window st); [eauto|auto].
Qed.

Lemma recorded_compacted c suffix seg :
  checkpoint_with (seg_base_compaction seg) (seg_window seg) (seg_world_state_replay seg) →
  let seg' := seg_compacted c suffix seg in
  checkpoint_with (seg_base_compaction seg') (seg_window seg') (seg_world_state_replay seg').
Proof.
  intros H seg' k. unfold seg'. cbn [seg_compacted seg_base_compaction seg_window seg_world_state_replay].
  rewrite existsb_app. cbn. rewrite orb_true_r. destruct (seg_base_compaction seg) as [k'|].
  - intros [= ->]. split; [done|]. intros Hn. destruct (H k eq_refl) as [_ Hw]. destruct (Hw Hn) as [w ->]. eauto.
  - intros Hk. split; [done|]. destruct (cp_replacement_history c); [|done]. simplify_eq/=. intros [n ->].
    destruct (seg_window seg); eauto.
Qed.

Lemma recorded_scan_item suffix i st : recorded st → recorded (scan_item suffix i st).
Proof.
  intros Hr. destruct i; simpl; try exact Hr; try (by apply recorded_segment).
  - apply recorded_segment; [done|]. intros seg Hs. by apply recorded_compacted.
  - apply recorded_segment; [done|]. intros seg Hs. unfold seg_turn_context. by case_match.
  - apply recorded_segment; [done|]. intros seg Hs. by apply checkpoint_more.
  - destruct e; simpl; try exact Hr; try (by apply recorded_segment).
    + destruct Hr. by split.
    + destruct (active_segment st) as [seg|] eqn:Ha; [|case_match; [|done]].
      * split; [apply Hr|]. intros seg' [= <-]. by apply (rec_segment _ Hr seg).
      * split; [apply Hr|]. intros seg' [= <-]. by intros k.
    + destruct (active_segment st) as [seg|] eqn:Ha; [|done]. case_match; [|done].
      apply recorded_finalize; [done|]. by apply (rec_segment _ Hr).
Qed.

Lemma recorded_scan l st : recorded st → recorded (scan_lines l st).
Proof.
  revert st. induction l as [|[suffix i] l IH]; intros st Hr; [done|]. cbn [scan_lines].
  pose proof (recorded_scan_item suffix i _ Hr). case_match; auto.
Qed.

Lemma recorded_start : recorded replay_start.
Proof. split; [by intros k|done]. Qed.

(** What comes before a compaction does not matter to the world state after it. *)
Lemma world_state_after_compaction (r r' : list RolloutItem) b :
  existsb is_compacted r = true → foldl world_state_step b (rev (r ++ r')) = foldl world_state_step None (rev r).
Proof.
  intros (i & (l & l' & ->)%in_split & Hc)%existsb_exists. destruct i; try done.
  rewrite !rev_app_distr. cbn [rev]. by rewrite !foldl_app.
Qed.

(** C21. Stopping the scan at the newest surviving checkpoint with its metadata known
    restores what a scan of the whole rollout would: the checkpoint and the lines
    after it, the settings of the previous turn, the reference context and the
    world state; and the context window as well, if the checkpoint carries the
    number of its window. *)
Theorem early_stop_exact (items : list RolloutItem) :
  let r := reconstruct_metadata items in
  let full := reconstruct_all items in
  rm_checkpoint r = rm_checkpoint full ∧ rm_rollout_suffix r = rm_rollout_suffix full ∧
  rm_previous_turn_settings r = rm_previous_turn_settings full ∧
  rm_reference_context_item r = rm_reference_context_item full ∧
  rm_world_state_baseline r = rm_world_state_baseline full ∧
  (from_option (λ c, is_Some (cp_window_number c)) True (rm_checkpoint r) → rm_window r = rm_window full).
Proof.
  unfold reconstruct_metadata, reconstruct_all, scan_rollout.
  destruct (scan_early (rev (with_suffixes items)) replay_start) as [He [Hc|Heq]]; [|by rewrite Heq].
  pose proof (recorded_scan (rev (with_suffixes items)) _ recorded_start) as Hr.
  set (st := scan_lines _ _) in *. set (st' := scan_all _ _) in *.
  assert (H1 : extends st (finish_scan st)) by apply extends_finish.
  assert (H2 : extends st (finish_scan st')) by (apply (scan_extends_trans _ st'); [done|apply extends_finish]).
  generalize dependent (finish_scan st). generalize dependent (finish_scan st'). intros s2 [A1 A2 A3 A4 [m A5]] s1 [B1 B2 B3 B4 [m' B5]].
  unfold replay_complete in Hc. apply andb_true_iff in Hc as [[Hb%bool_decide_eq_true Hs%bool_decide_eq_true]%andb_true_iff Hn%negb_true_iff].
  destruct Hb as [c Hb]. destruct Hs as [s Hs].
  destruct (rec_state _ Hr c Hb) as [Hcomp Hwin].
  unfold metadata_of. cbn [rm_checkpoint rm_rollout_suffix rm_previous_turn_settings rm_reference_context_item rm_world_state_baseline rm_window].
  rewrite (A1 c Hb), (B1 c Hb), (A2 s Hs), (B2 s Hs), (A3 Hn), (B3 Hn), A5, B5.
  rewrite !world_state_after_compaction by done. do 5 (split; [done|]). simpl. intros Hnum.
  destruct (Hwin Hnum) as [w Hw]. by rewrite (A4 w Hw), (B4 w Hw).
Qed.

(** ** Turns that were rolled back *)

(** The lines of the turn [id] after its start. *)
Definition in_turn (id : str) (i : RolloutItem) : bool :=
  match i with
  | RiEventMsg (EvTurnStarted _) | RiEventMsg (EvThreadRolledBack _) => false
  | RiEventMsg (EvTurnComplete e) => bool_decide (tc_turn_id e = id)
  | RiEventMsg (EvTurnAborted e) => from_option (λ i, bool_decide (i = id)) true (ta_turn_id e)
  | RiTurnContext ctx => from_option (λ i, bool_decide (i = id)) true (ctx_turn_id ctx)
  | _ => true
  end.

(** A line that makes its turn one of the user. *)
Definition counts_line (i : RolloutItem) : bool :=
  match i with
  | RiEventMsg (EvUserMessage _) | RiInterAgentCommunication _ => true
  | RiResponseItem env => is_user_turn_boundary (item env)
  | _ => false
  end.

(** The lines of a turn of the user. *)
Definition user_turn (l : list RolloutItem) : bool :=
  match l with
  | RiEventMsg (EvTurnStarted e) :: body => forallb (in_turn (ts_turn_id e)) body && existsb counts_line body
  | _ => false
  end.

Definition is_session_meta (i : RolloutItem) : bool := match i with RiSessionMeta _ => true | _ => false end.

(** The segment that the lines of turn [id] build. *)
Definition segment_of (id : str) (counts : bool) (a : option ActiveReplaySegment) : Prop :=
  match a with
  | None => counts = false
  | Some seg => (seg_turn_id seg = None ∨ seg_turn_id seg = Some id) ∧ seg_counts_as_user_turn seg = counts
  end.

Lemma segment_insert id counts a :
  segment_of id counts a →
  let seg := default segment_default a in
  (seg_turn_id seg = None ∨ seg_turn_id seg = Some id) ∧ seg_counts_as_user_turn seg = counts.
Proof. destruct a; simpl; [done|]. intros ->. auto. Qed.

Lemma line_in_turn id suffix i counts st a :
  in_turn id i = true → segment_of id counts a →
  ∃ a', scan_item suffix i (set_active st a) = set_active st a' ∧ segment_of id (counts || counts_line i) a'.
Proof.
  intros Hi Ha. pose proof (segment_insert _ _ _ Ha) as [Hid Hc].
  assert (Hin : ∀ f, (let seg := f (default segment_default a) in
      (seg_turn_id seg = None ∨ seg_turn_id seg = Some id) ∧ seg_counts_as_user_turn seg = counts || counts_line i) →
    ∃ a', in_segment f (set_active st a) = set_active st a' ∧ segment_of id (counts || counts_line i) a').
  { intros f Hf. by exists (Some (f (default segment_default a))). }
  assert (Hsame : counts_line i = false → ∃ a', set_active st a = set_active st a' ∧ segment_of id (counts || counts_line i) a').
  { intros ->. rewrite orb_false_r. eauto. }
  assert (Hset : ∀ o, from_option (λ i, bool_decide (i = id)) true o = true →
    let seg := set_seg_turn_id (default segment_default a) o in
    (seg_turn_id seg = None ∨ seg_turn_id seg = Some id) ∧ seg_counts_as_user_turn seg = counts).
  { intros o Ho. simpl. split; [|done]. destruct Hid as [-> | ->]; [|by right]. destruct o; [|by left].
    apply bool_decide_eq_true in Ho as ->. by right. }
  destruct i; cbn [scan_item counts_line] in *; rewrite ?orb_false_r in *; try (by apply Hsame);
    try (apply Hin; simpl; rewrite ?Hc, ?orb_true_r; by split).
  - apply Hin. unfold seg_turn_context. case_match; by apply Hset.
  - destruct e; cbn [scan_item] in *; rewrite ?orb_false_r in *; try done; try (by apply Hsame);
      try (apply Hin; simpl; rewrite ?Hc, ?orb_true_r; by split).
    + simpl. destruct a as [seg|].
      * eexists. split; [done|]. by apply Hset.
      * destruct (ta_turn_id p) as [i|] eqn:Hp; [|eauto]. eexists. split; [done|].
        apply (Hset (Some i)). simpl in Hi. by rewrite Hp in Hi.
    + apply Hin. by apply (Hset (Some (tc_turn_id p))).
Qed.

Lemma lines_in_turn id (l : list line) counts st a :
  forallb (in_turn id) (map snd l) = true → segment_of id counts a →
  ∃ a', scan_all l (set_active st a) = set_active st a' ∧
    segment_of id (counts || existsb counts_line (map snd l)) a'.
Proof.
  revert counts a. induction l as [|[suffix i] l IH]; intros counts a Hl Ha.
  { exists a. by rewrite orb_false_r. }
  simpl in Hl. apply andb_true_iff in Hl as [Hi Hl].
  destruct (line_in_turn id suffix i counts st a Hi Ha) as (a1 & Ha1 & Hc1).
  destruct (IH _ _ Hl Hc1) as (a2 & Ha2 & Hc2). exists a2. simpl. rewrite Ha1, orb_assoc. done.
Qed.

Definition more_after (tail : list RolloutItem) : line → line := λ p, (p.1 ++ tail, p.2).

Lemma with_suffixes_app items items' :
  with_suffixes (items ++ items') = map (more_after items') (with_suffixes items) ++ with_suffixes items'.
Proof. induction items as [|i items IH]; simpl; [done|]. by rewrite IH. Qed.

Lemma with_suffixes_lines items : map snd (with_suffixes items) = items.
Proof. induction items as [|i items IH]; simpl; [done|]. by rewrite IH. Qed.

Lemma existsb_rev {A} (f : A → bool) l : existsb f (rev l) = existsb f l.
Proof.
  induction l as [|x l IH]; simpl; [done|]. rewrite existsb_app, IH. simpl. by rewrite orb_false_r, orb_comm.
Qed.

(** The lines of a turn, wherever they are, take one rollback that is pending. *)
Lemma scan_rolled_back_turn (l : list line) st :
  user_turn (map snd l) = true → active_segment st = None → (0 < pending_rollback_turns st)%N →
  scan_all (rev l) st = set_pending st (pending_rollback_turns st - 1).
Proof.
  intros Hl Ha Hp. destruct l as [|[suffix start] l]; [done|]. simpl in Hl.
  destruct start; try done. destruct e; try done. apply andb_true_iff in Hl as [Hin Hc].
  simpl. unfold scan_all. rewrite foldl_app. fold (scan_all (rev l) st).
  assert (Hst : st = set_active st None) by (destruct st; simpl in *; by rewrite Ha).
  destruct (lines_in_turn (ts_turn_id p) (rev l) false st None) as (a & Hs & Hseg); [|done|].
  { by rewrite map_rev, forallb_rev. }
  rewrite <- Hst in Hs. rewrite Hs. rewrite map_rev, existsb_rev, Hc in Hseg. destruct a as [seg|]; [|done].
  destruct Hseg as [Hid Hcounts]. simpl.
  assert (turn_ids_are_compatible (seg_turn_id seg) (Some (ts_turn_id p)) = true) as ->.
  { destruct Hid as [-> | ->]; [done|]. by apply bool_decide_eq_true. }
  unfold finalize_active_segment. simpl. apply N.ltb_lt in Hp as ->. rewrite Hcounts.
  unfold set_pending, set_active. simpl. by rewrite Ha.
Qed.

Lemma incomplete_scan l l' st : replay_complete (scan_all l st) = false → scan_lines (l ++ l') st = scan_lines l' (scan_all l st).
Proof.
  revert st. induction l as [|[suffix i] l IH]; intros st Hc; [done|]. cbn [app scan_lines].
  destruct (replay_complete (scan_item suffix i st)) eqn:H1; [|by apply IH]. exfalso.
  change (scan_all ((suffix, i) :: l) st) with (scan_all l (scan_item suffix i st)) in Hc.
  destruct (extends_scan_all l (scan_item suffix i st)) as [E1 E2 E3 _ _]. unfold replay_complete in *.
  apply andb_true_iff in H1 as [[[c Hb]%bool_decide_eq_true [s Hs]%bool_decide_eq_true]%andb_true_iff Hn%negb_true_iff].
  rewrite (E1 c Hb), (E2 s Hs), (E3 Hn), Hn in Hc. by rewrite !bool_decide_true in Hc by eauto.
Qed.

Lemma more_after_lines tail (l : list line) : map snd (map (more_after tail) l) = map snd l.
Proof. rewrite map_map. by apply map_ext. Qed.

(** The lines of [ts], newest first, take as many rollbacks. *)
Lemma scan_rolled_back_turns (ts : list (list RolloutItem)) tail m st :
  forallb user_turn ts = true → active_segment st = None →
  scan_all (rev (map (more_after tail) (with_suffixes (concat ts)))) (set_pending st (m + N.of_nat (length ts)))
  = set_pending st m.
Proof.
  revert tail m. induction ts as [|t ts IH]; intros tail m Hts Ha; [by rewrite N.add_0_r|].
  simpl in Hts. apply andb_true_iff in Hts as [Ht Hts]. cbn [concat length].
  rewrite with_suffixes_app, map_app, rev_app_distr. unfold scan_all. rewrite foldl_app.
  replace (m + N.of_nat (S (length ts)))%N with (N.succ m + N.of_nat (length ts))%N by lia.
  rewrite (IH tail (N.succ m) Hts Ha : foldl _ _ _ = _).
  pose proof (scan_rolled_back_turn (map (more_after tail) (map (more_after (concat ts)) (with_suffixes t)))
    (set_pending st (N.succ m))) as H. unfold scan_all in H. rewrite H; [|..].
  - unfold set_pending. simpl. by rewrite N.sub_1_r, N.pred_succ.
  - by rewrite !more_after_lines, with_suffixes_lines.
  - done.
  - simpl. lia.
Qed.

(** ** More lines after a scan *)

Definition checkpoint_more_after (tail : list RolloutItem) (c : ReplayCheckpoint) : ReplayCheckpoint :=
  {| checkpoint_compacted := checkpoint_compacted c; checkpoint_suffix := checkpoint_suffix c ++ tail |}.

Definition segment_more_after (tail : list RolloutItem) seg : ActiveReplaySegment :=
  {| seg_turn_id := seg_turn_id seg; seg_counts_as_user_turn := seg_counts_as_user_turn seg;
     seg_previous_turn_settings := seg_previous_turn_settings seg;
     seg_reference_context_item := seg_reference_context_item seg;
     seg_world_state_replay := seg_world_state_replay seg;
     seg_base_compaction := checkpoint_more_after tail <$> seg_base_compaction seg; seg_window := seg_window seg |}.

Definition state_more_after (tail : list RolloutItem) st : ReplayState :=
  {| base_compaction := checkpoint_more_after tail <$> base_compaction st;
     previous_turn_settings := previous_turn_settings st; reference_context_item := reference_context_item st;
     world_state_replay := world_state_replay st; replay_window := replay_window st;
     pending_rollback_turns := pending_rollback_turns st;
     active_segment := segment_more_after tail <$> active_segment st |}.

Lemma finalize_more_after tail seg st :
  finalize_active_segment (segment_more_after tail seg) (state_more_after tail st)
  = state_more_after tail (finalize_active_segment seg st).
Proof.
  unfold finalize_active_segment. simpl. case_match; [by case_match|]. unfold state_more_after. simpl.
  f_equal. by destruct (base_compaction st).
Qed.

Lemma in_segment_more_after tail (f g : ActiveReplaySegment → ActiveReplaySegment) st :
  (∀ seg, f (segment_more_after tail seg) = segment_more_after tail (g seg)) →
  in_segment f (state_more_after tail st) = state_more_after tail (in_segment g st).
Proof.
  intros H. unfold in_segment, state_more_after, set_active. simpl. f_equal. f_equal.
  destruct (active_segment st); simpl; [apply H|]. by rewrite <- H.
Qed.

Lemma scan_item_more_after tail suffix i st :
  scan_item (suffix ++ tail) i (state_more_after tail st) = state_more_after tail (scan_item suffix i st).
Proof.
  destruct i; simpl; try done; try (by apply in_segment_more_after).
  - apply in_segment_more_after. intros seg. unfold seg_compacted, segment_more_after. simpl. f_equal.
    destruct (seg_base_compaction seg); [done|]. simpl. by destruct (cp_replacement_history c).
  - apply in_segment_more_after. intros seg. unfold seg_turn_context. simpl. by case_match.
  - destruct e; simpl; try done; try (by apply in_segment_more_after).
    + destruct (active_segment st); simpl; [done|]. by case_match.
    + destruct (active_segment st); simpl; [|done]. case_match; [|done].
      apply (finalize_more_after tail _ (set_active st None)).
Qed.

Lemma complete_more_after tail st : replay_complete (state_more_after tail st) = replay_complete st.
Proof. unfold replay_complete. simpl. by destruct (base_compaction st). Qed.

Lemma scan_more_after tail l st :
  scan_lines (map (more_after tail) l) (state_more_after tail st) = state_more_after tail (scan_lines l st).
Proof.
  revert st. induction l as [|[suffix i] l IH]; intros st; [done|]. cbn [map more_after scan_lines fst snd].
  rewrite scan_item_more_after, complete_more_after. case_match; [done|apply IH].
Qed.

Lemma finish_more_after tail st : finish_scan (state_more_after tail st) = state_more_after tail (finish_scan st).
Proof.
  unfold finish_scan. simpl. destruct (active_segment st); simpl; [|done].
  apply (finalize_more_after tail _ (set_active st None)).
Qed.

(** Rolled back turns of the user at the end of a rollout. *)
Lemma scan_rollout_rolled_back items (ts : list (list RolloutItem)) :
  forallb user_turn ts = true → (N.of_nat (length ts) ≤ USIZE_MAX)%N →
  let tail := concat ts ++ [RiEventMsg (EvThreadRolledBack (N.of_nat (length ts)))] in
  scan_rollout (items ++ tail) = state_more_after tail (scan_rollout items).
Proof.
  intros Hts Hn tail. unfold scan_rollout. rewrite with_suffixes_app, rev_app_distr. unfold tail at 1.
  rewrite with_suffixes_app, rev_app_distr. cbn [with_suffixes rev app scan_lines scan_item].
  assert (Hp : set_pending replay_start (N.min (pending_rollback_turns replay_start + N.of_nat (length ts)) USIZE_MAX)
               = set_pending replay_start (0 + N.of_nat (length ts))).
  { f_equal. simpl. lia. }
  rewrite Hp. cbn [replay_complete].
  pose proof (scan_rolled_back_turns ts [RiEventMsg (EvThreadRolledBack (N.of_nat (length ts)))] 0 replay_start Hts eq_refl) as H.
  change (set_pending replay_start 0) with replay_start in H.
  change (replay_complete (set_pending replay_start (0 + N.of_nat (length ts)))) with false. cbn iota.
  rewrite incomplete_scan; fold (more_after [RiEventMsg (EvThreadRolledBack (N.of_nat (length ts)))]);
    rewrite H; [|done].
  rewrite <- finish_more_after, <- scan_more_after, map_rev. done.
Qed.

Lemma existsb_false {A} (f : A → bool) l : existsb f l = false ↔ ∀ x, x ∈ l → f x = false.
Proof.
  induction l as [|x l IH]; simpl; [split; [by intros _ x ?%not_elem_of_nil|done]|].
  rewrite orb_false_iff, IH. split.
  - intros [Hx Hl] y [->|Hy]%elem_of_cons; auto.
  - intros H. split; [apply H; by left|]. intros y Hy. apply H. by right.
Qed.

Lemma find_map_app {A B} (f : A → option B) l l' :
  (∀ x, x ∈ l' → f x = None) → find_map f (l ++ l') = find_map f l.
Proof. intros H. induction l as [|x l IH]; simpl; [by apply find_map_None|]. by destruct (f x). Qed.

(** The window of a rollout without one of its own. *)
Lemma window_more_after items tail :
  existsb (λ i, is_compacted i || is_session_meta i) tail = false →
  default (fallback_window (items ++ tail)) (initial_window (items ++ tail))
  = default (fallback_window items) (initial_window items).
Proof.
  rewrite existsb_false. intros Ht. f_equal.
  - unfold fallback_window. rewrite List.filter_app, length_app.
    assert (List.filter is_compacted tail = []) as ->; [|by rewrite Nat.add_0_r].
    destruct (List.filter is_compacted tail) as [|i l] eqn:Hf; [done|].
    assert (Hi : i ∈ List.filter is_compacted tail) by (rewrite Hf; by left).
    apply list_elem_of_In, filter_In in Hi as [Hi Hc]. apply list_elem_of_In, Ht in Hi. by rewrite Hc in Hi.
  - unfold initial_window. rewrite existsb_app. match goal with |- context [existsb ?g tail] => set (f := g) end.
    assert (existsb f tail = false) as ->.
    { apply existsb_false. intros i Hi. specialize (Ht i Hi). by destruct i. }
    rewrite orb_false_r, find_map_app; [done|]. intros i Hi. specialize (Ht i Hi). by destruct i.
Qed.

(** C20. Turns of the user that are rolled back leave no trace in what a resumed
    session restores: with the lines of [n] such turns and a rollback of [n] at its
    end, a rollout restores the checkpoint, the settings of the previous turn and
    the world state that it restores without them, and the lines to replay are
    those and the dropped ones. The reference context is the same unless a dropped
    turn has a compaction without a replacement, and the window is unless one has
    a compaction or a session's metadata. *)
Theorem rolled_back_turns_leave_no_trace (items : list RolloutItem) (ts : list (list RolloutItem)) :
  forallb user_turn ts = true → (N.of_nat (length ts) ≤ USIZE_MAX)%N →
  let tail := concat ts ++ [RiEventMsg (EvThreadRolledBack (N.of_nat (length ts)))] in
  let before := reconstruct_metadata items in
  let after := reconstruct_metadata (items ++ tail) in
  rm_checkpoint after = rm_checkpoint before ∧
  rm_rollout_suffix after = rm_rollout_suffix before ++ tail ∧
  rm_previous_turn_settings after = rm_previous_turn_settings before ∧
  rm_world_state_baseline after = rm_world_state_baseline before ∧
  (existsb is_legacy_compaction tail = false →
     rm_reference_context_item after = rm_reference_context_item before) ∧
  (existsb (λ i, is_compacted i || is_session_meta i) tail = false → rm_window after = rm_window before).
Proof.
  intros Hts Hn tail before after. unfold after, before, reconstruct_metadata.
  rewrite (scan_rollout_rolled_back items ts Hts Hn : scan_rollout (items ++ tail) = state_more_after tail _). set (st := scan_rollout items).
  unfold metadata_of. cbn [rm_checkpoint rm_rollout_suffix rm_previous_turn_settings rm_reference_context_item
    rm_world_state_baseline rm_window state_more_after base_compaction previous_turn_settings reference_context_item
    world_state_replay replay_window].
  assert (Hsuffix : from_option checkpoint_suffix (items ++ tail) (checkpoint_more_after tail <$> base_compaction st)
    = from_option checkpoint_suffix items (base_compaction st) ++ tail) by (by destruct (base_compaction st)).
  rewrite Hsuffix. split; [by destruct (base_compaction st)|]. do 3 (split; [done|]). split.
  - intros Hl. by rewrite existsb_app, Hl, orb_false_r.
  - intros Hw. destruct (replay_window st); [done|]. by apply window_more_after.
Qed.

End Facts.
