(* ===== verification/Normalize.v ===== *)
(** * Preparing the history for a prompt

    Models [core/src/context_manager/normalize.rs] and its callers
    [normalize_history] and [remove_first_item] of
    [core/src/context_manager/history.rs]: calls without an output get one,
    outputs without a call are dropped, and media the model cannot take are
    replaced. *)

From stdpp Require Import gmap.
From S2P Require Import Prelude RustStr Utf8 Truncate ResponseItem.
Open Scope list_scope.

(** [error_or_panic] of [core/src/util.rs]: it panics in builds with debug
    assertions and logs otherwise. *)
Definition error_or_panic {E} (debug_assertions : bool) : res E unit :=
  if debug_assertions then Panic else Ok tt.

(** [Vec::insert] and [Vec::remove] panic out of range. *)
Definition vec_insert {E A} (i : nat) (x : A) (l : list A) : res E (list A) :=
  if decide (i ≤ length l) then Ok (take i l ++ x :: drop i l) else Panic.

Inductive InputModality := ModText | ModImage | ModAudio.
#[global] Instance InputModality_eq_dec : EqDecision InputModality.
Proof. solve_decision. Defined.

(** The text of [UnsupportedMedia] and its kind. *)
Record UnsupportedMedia := { media_text : str; media_kind : ContentItemKind }.
Definition UnsupportedImage : UnsupportedMedia :=
  {| media_text := lit "image content omitted because you do not support image input";
     media_kind := lit "images.unsupported" |}.
Definition UnsupportedAudio : UnsupportedMedia :=
  {| media_text := lit "audio content omitted because you do not support audio input";
     media_kind := lit "audio.unsupported" |}.

Section Normalize.
Context `{IP : ItemPayloads}.
(** [Uuid::new_v5] (crate [uuid]), displayed. *)
Context (uuid_v5 : N → bytes → str).
Context (debug_assertions : bool).
Abbreviation envelope := ResponseItemEnvelope.

Definition SYNTHETIC_OUTPUT_ID_NAMESPACE : N := 0x90d38d3e6a5b4d52bfe22f1e634bfac4.

(** ** Calls and outputs *)

(** The three sets of ids the functions collect, of the outputs or of the calls. *)
Record IdSets := { function_ids : gset str; tool_search_ids : gset str; custom_tool_ids : gset str }.

Definition add_function (s : IdSets) (c : str) : IdSets :=
  {| function_ids := {[c]} ∪ function_ids s; tool_search_ids := tool_search_ids s; custom_tool_ids := custom_tool_ids s |}.
Definition add_tool_search (s : IdSets) (c : str) : IdSets :=
  {| function_ids := function_ids s; tool_search_ids := {[c]} ∪ tool_search_ids s; custom_tool_ids := custom_tool_ids s |}.
Definition add_custom_tool (s : IdSets) (c : str) : IdSets :=
  {| function_ids := function_ids s; tool_search_ids := tool_search_ids s; custom_tool_ids := {[c]} ∪ custom_tool_ids s |}.
Definition no_ids : IdSets := {| function_ids := ∅; tool_search_ids := ∅; custom_tool_ids := ∅ |}.

Definition note_output (s : IdSets) (e : envelope) : IdSets :=
  match item e with
  | FunctionCallOutput _ (Some call_id) _ _ _ _ => add_function s call_id
  | ToolSearchOutput _ (Some call_id) _ _ _ _ => add_tool_search s call_id
  | CustomToolCallOutput _ call_id _ _ _ => add_custom_tool s call_id
  | _ => s
  end.

Definition note_call (s : IdSets) (e : envelope) : IdSets :=
  match item e with
  | FunctionCall _ _ _ _ _ call_id _ | LocalShellCall _ (Some call_id) _ _ _ => add_function s call_id
  | ToolSearchCall _ (Some call_id) _ _ _ _ => add_tool_search s call_id
  | CustomToolCall _ _ call_id _ _ _ _ => add_custom_tool s call_id
  | _ => s
  end.

Definition synthetic_output_id (prefix : str) (item_id : option str) : option ResponseItemId :=
  source_id ← item_id;
  if bool_decide (source_id = []) then None
  else
    let name := prefix ++ lit ":" ++ source_id in
    Some (prefix ++ lit "_" ++ uuid_v5 SYNTHETIC_OUTPUT_ID_NAMESPACE (encode name)).

Definition aborted_function_output (id : option ResponseItemId) (call_id : str) : envelope :=
  envelope_new (FunctionCallOutput (synthetic_output_id (lit "fco") id) (Some call_id) None None
                  (payload_from_text (lit "aborted")) None).
Definition empty_search_output (id : option ResponseItemId) (call_id : str) : envelope :=
  envelope_new (ToolSearchOutput (synthetic_output_id (lit "tso") id) (Some call_id) (lit "completed")
                  (lit "client") [] None).
Definition aborted_custom_output (id : option ResponseItemId) (call_id : str) : envelope :=
  envelope_new (CustomToolCallOutput (synthetic_output_id (lit "ctco") id) call_id None
                  (payload_from_text (lit "aborted")) None).

(** One turn of the loop that collects the missing outputs. *)
Definition missing_output {E} (outputs : IdSets) (e : envelope) : res E (option envelope) :=
  match item e with
  | FunctionCall id _ _ _ _ call_id _ =>
      if bool_decide (call_id ∈ function_ids outputs) then Ok None
      else Ok (Some (aborted_function_output id call_id))
  | ToolSearchCall id (Some call_id) _ _ _ _ =>
      if bool_decide (call_id ∈ tool_search_ids outputs) then Ok None
      else Ok (Some (empty_search_output id call_id))
  | CustomToolCall id _ call_id _ _ _ _ =>
      if bool_decide (call_id ∈ custom_tool_ids outputs) then Ok None
      else let? _ := error_or_panic debug_assertions in Ok (Some (aborted_custom_output id call_id))
  | LocalShellCall id (Some call_id) _ _ _ =>
      if bool_decide (call_id ∈ function_ids outputs) then Ok None
      else let? _ := error_or_panic debug_assertions in Ok (Some (aborted_function_output id call_id))
  | _ => Ok None
  end.

Fixpoint collect_missing {E} (outputs : IdSets) (idx : nat) (items : list envelope)
    : res E (list (nat * envelope)) :=
  match items with
  | [] => Ok []
  | e :: items' =>
      let? o := missing_output outputs e in
      let? rest := collect_missing outputs (S idx) items' in
      Ok (match o with Some output => (idx, output) :: rest | None => rest end)
  end.

Definition ensure_call_outputs_present {E} (items : list envelope) : res E (list envelope) :=
  let outputs := foldl note_output no_ids items in
  let? missing := collect_missing outputs 0 items in
  foldM (λ items o, vec_insert (o.1 + 1) o.2 items) items (rev missing).

(** One turn of the loop that finds the orphans. *)
Definition is_orphan {E} (calls : IdSets) (e : envelope) : res E bool :=
  match item e with
  | FunctionCallOutput _ (Some call_id) _ _ _ _ =>
      if bool_decide (call_id ∈ function_ids calls) then Ok false
      else let? _ := error_or_panic debug_assertions in Ok true
  | CustomToolCallOutput _ call_id _ _ _ =>
      if bool_decide (call_id ∈ custom_tool_ids calls) then Ok false
      else let? _ := error_or_panic debug_assertions in Ok true
  | ToolSearchOutput _ (Some call_id) _ execution _ _ =>
      if negb (bool_decide (execution = lit "server")) && negb (bool_decide (call_id ∈ tool_search_ids calls))
      then let? _ := error_or_panic debug_assertions in Ok true
      else Ok false
  | _ => Ok false
  end.

Fixpoint orphan_positions {E} (calls : IdSets) (position : nat) (items : list envelope) : res E (list nat) :=
  match items with
  | [] => Ok []
  | e :: items' =>
      let? orphan := is_orphan calls e in
      let? rest := orphan_positions calls (S position) items' in
      Ok (if orphan then position :: rest else rest)
  end.

(** [items.retain] with the peekable iterator over the positions. *)
Fixpoint retain_positions (positions : list nat) (position : nat) (items : list envelope) : list envelope :=
  match items with
  | [] => []
  | e :: items' =>
      match positions with
      | p :: positions' =>
          if p =? position then retain_positions positions' (S position) items'
          else e :: retain_positions positions (S position) items'
      | [] => e :: retain_positions [] (S position) items'
      end
  end.

Definition remove_orphan_outputs {E} (items : list envelope) : res E (list envelope) :=
  let calls := foldl note_call no_ids items in
  let? positions := orphan_positions calls 0 items in
  Ok (if bool_decide (positions = []) then items else retain_positions positions 0 items).

(** ** Removing a counterpart *)

Definition remove_first_matching (predicate : ResponseItem → bool) (items : list envelope) : list envelope :=
  match list_find (λ e, predicate (item e) = true) items with
  | Some (pos, _) => delete pos items
  | None => items
  end.

Definition is_function_output (c : str) (i : ResponseItem) : bool :=
  match i with FunctionCallOutput _ (Some existing) _ _ _ _ => bool_decide (existing = c) | _ => false end.
Definition is_function_call (c : str) (i : ResponseItem) : bool :=
  match i with FunctionCall _ _ _ _ _ existing _ => bool_decide (existing = c) | _ => false end.
Definition is_shell_call (c : str) (i : ResponseItem) : bool :=
  match i with LocalShellCall _ (Some existing) _ _ _ => bool_decide (existing = c) | _ => false end.
Definition is_search_output (c : str) (i : ResponseItem) : bool :=
  match i with ToolSearchOutput _ (Some existing) _ _ _ _ => bool_decide (existing = c) | _ => false end.
Definition is_search_call (c : str) (i : ResponseItem) : bool :=
  match i with ToolSearchCall _ (Some existing) _ _ _ _ => bool_decide (existing = c) | _ => false end.
Definition is_custom_output (c : str) (i : ResponseItem) : bool :=
  match i with CustomToolCallOutput _ existing _ _ _ => bool_decide (existing = c) | _ => false end.
Definition is_custom_call (c : str) (i : ResponseItem) : bool :=
  match i with CustomToolCall _ _ existing _ _ _ _ => bool_decide (existing = c) | _ => false end.

Definition remove_corresponding_for (items : list envelope) (i : ResponseItem) : list envelope :=
  match i with
  | FunctionCall _ _ _ _ _ c _ => remove_first_matching (is_function_output c) items
  | FunctionCallOutput _ (Some c) _ _ _ _ =>
      match list_find (λ e, is_function_call c (item e) = true) items with
      | Some (pos, _) => delete pos items
      | None => remove_first_matching (is_shell_call c) items
      end
  | ToolSearchCall _ (Some c) _ _ _ _ => remove_first_matching (is_search_output c) items
  | ToolSearchOutput _ (Some c) _ _ _ _ => remove_first_matching (is_search_call c) items
  | CustomToolCall _ _ c _ _ _ _ => remove_first_matching (is_custom_output c) items
  | CustomToolCallOutput _ c _ _ _ => remove_first_matching (is_custom_call c) items
  | LocalShellCall _ (Some c) _ _ _ => remove_first_matching (is_function_output c) items
  | _ => items
  end.

(** ** Unsupported media *)

(** [render_fragment().into_parts().1]: the markers are empty. *)
Definition media_content (m : UnsupportedMedia) : AnnotatedContent :=
  {| ann_content := CiInputText (media_text m); ann_kind := media_kind m |}.

(** The arm for messages, common to images and audio. *)
Definition strip_message (is_media : ContentItem → bool) (m : UnsupportedMedia) (i : ResponseItem) : ResponseItem :=
  match to_annotated_content i with
  | (Some content, i') =>
      (set_annotated_content i'
         (map (λ c, if is_media (ann_content c) then media_content m else c) content)).2
  | (None, i') => i'
  end.

Abbreviation OutputItem := (FunctionCallOutputContentItem (ImageReference * option ImageDetail)).

Definition map_content_items (f : OutputItem → OutputItem)
    (o : FunctionCallOutputPayload (Img := ImageReference * option ImageDetail)) :=
  {| payload_body := match payload_body o with
                     | BodyItems items => BodyItems (map f items)
                     | BodyText t => BodyText t
                     end;
     payload_success := payload_success o |}.

Definition is_image (c : ContentItem) : bool := match c with CiInputImage _ _ => true | _ => false end.
Definition is_audio (c : ContentItem) : bool := match c with CiInputAudio _ => true | _ => false end.
Definition strip_output_image (i : OutputItem) : OutputItem :=
  match i with InputImage _ => InputText (media_text UnsupportedImage) | _ => i end.
Definition strip_output_audio (i : OutputItem) : OutputItem :=
  match i with InputAudio _ => InputText (media_text UnsupportedAudio) | _ => i end.

Definition strip_item_images (i : ResponseItem) : ResponseItem :=
  match i with
  | Message _ _ _ _ _ => strip_message is_image UnsupportedImage i
  | FunctionCallOutput id c name ns output meta =>
      FunctionCallOutput id c name ns (map_content_items strip_output_image output) meta
  | CustomToolCallOutput id c name output meta =>
      CustomToolCallOutput id c name (map_content_items strip_output_image output) meta
  | ImageGenerationCall id status prompt _ meta => ImageGenerationCall id status prompt [] meta
  | _ => i
  end.

Definition strip_item_audio (i : ResponseItem) : ResponseItem :=
  match i with
  | Message _ _ _ _ _ => strip_message is_audio UnsupportedAudio i
  | FunctionCallOutput id c name ns output meta =>
      FunctionCallOutput id c name ns (map_content_items strip_output_audio output) meta
  | CustomToolCallOutput id c name output meta =>
      CustomToolCallOutput id c name (map_content_items strip_output_audio output) meta
  | _ => i
  end.

Definition map_item (f : ResponseItem → ResponseItem) (e : envelope) : envelope :=
  {| item := f (item e); metadata := metadata e |}.

Definition strip_images_when_unsupported (input_modalities : list InputModality) (items : list envelope)
    : list envelope :=
  if bool_decide (ModImage ∈ input_modalities) then items else map (map_item strip_item_images) items.

Definition strip_audio_when_unsupported (input_modalities : list InputModality) (items : list envelope)
    : list envelope :=
  if bool_decide (ModAudio ∈ input_modalities) then items else map (map_item strip_item_audio) items.

(** ** The callers in [ContextManager] *)

Definition normalize_history {E} (input_modalities : list InputModality) (items : list envelope)
    : res E (list envelope) :=
  let? items := ensure_call_outputs_present items in
  let? items := remove_orphan_outputs items in
  let items := strip_images_when_unsupported input_modalities items in
  Ok (strip_audio_when_unsupported input_modalities items).

(** [remove_first_item], on the history's items. *)
Definition remove_first_item (items : list envelope) : list envelope :=
  match items with
  | [] => []
  | removed :: items' => remove_corresponding_for items' (item removed)
  end.

End Normalize.

(** * Facts about the preparation of prompts

    The index loops of [normalize.rs] compute list comprehensions; afterwards
    calls and outputs correspond, unsupported media are gone, and preparing
    again changes nothing; removing the oldest item keeps a paired history
    paired. *)

Section Facts.
Context `{IP : ItemPayloads} (uuid_v5 : N → bytes → str).
Abbreviation envelope := ResponseItemEnvelope.
Abbreviation OutputItem := (FunctionCallOutputContentItem (ImageReference * option ImageDetail)).
Implicit Types (e : envelope) (i : ResponseItem) (items : list envelope).

(** ** Calls and outputs *)

(** Shell calls are answered by function call outputs. *)
Inductive CallKind := KFunction | KSearch | KCustom.
#[export] Instance CallKind_eq_dec : EqDecision CallKind.
Proof. solve_decision. Defined.

Definition call_of i : option (CallKind * str) :=
  match i with
  | FunctionCall _ _ _ _ _ c _ | LocalShellCall _ (Some c) _ _ _ => Some (KFunction, c)
  | ToolSearchCall _ (Some c) _ _ _ _ => Some (KSearch, c)
  | CustomToolCall _ _ c _ _ _ _ => Some (KCustom, c)
  | _ => None
  end.
Definition output_of i : option (CallKind * str) :=
  match i with
  | FunctionCallOutput _ (Some c) _ _ _ _ => Some (KFunction, c)
  | ToolSearchOutput _ (Some c) _ _ _ _ => Some (KSearch, c)
  | CustomToolCallOutput _ c _ _ _ => Some (KCustom, c)
  | _ => None
  end.
(** The server's own tool searches stand alone. *)
Definition stands_alone i : bool :=
  match i with ToolSearchOutput _ _ _ execution _ _ => bool_decide (execution = lit "server") | _ => false end.

Definition has_call items kc : Prop := ∃ e, e ∈ items ∧ call_of (item e) = Some kc.
Definition has_output items kc : Prop := ∃ e, e ∈ items ∧ output_of (item e) = Some kc.

Definition complete items : Prop := ∀ kc, has_call items kc → has_output items kc.
Definition no_orphans items : Prop :=
  ∀ e kc, e ∈ items → output_of (item e) = Some kc → stands_alone (item e) = false → has_call items kc.

Definition in_ids (s : IdSets) (kc : CallKind * str) : bool :=
  match kc.1 with
  | KFunction => bool_decide (kc.2 ∈ function_ids s)
  | KSearch => bool_decide (kc.2 ∈ tool_search_ids s)
  | KCustom => bool_decide (kc.2 ∈ custom_tool_ids s)
  end.

Definition add_id (s : IdSets) (o : option (CallKind * str)) : IdSets :=
  match o with
  | Some (KFunction, c) => add_function s c
  | Some (KSearch, c) => add_tool_search s c
  | Some (KCustom, c) => add_custom_tool s c
  | None => s
  end.

(** Case analysis on an item, its optional call id and the conditions. *)
Ltac bool_cases i :=
  destruct i; try done;
  repeat match goal with
    | |- context [match ?o with Some _ => _ | None => _ end] => is_var o; destruct o
    | |- context [bool_decide ?P] => destruct (bool_decide P) eqn:?
    | |- context [if ?b then _ else _] => is_var b; destruct b
    | _ => progress simpl
    end; try done; bdec; try contradiction.

Lemma note_output_eq s e : note_output s e = add_id s (output_of (item e)).
Proof. unfold note_output, output_of. by repeat case_match; simplify_eq. Qed.
Lemma note_call_eq s e : note_call s e = add_id s (call_of (item e)).
Proof. unfold note_call, call_of. by repeat case_match; simplify_eq. Qed.

Lemma in_add_id s o kc : in_ids (add_id s o) kc = true ↔ o = Some kc ∨ in_ids s kc = true.
Proof.
  destruct kc as [k c], o as [[k' c']|]; [|simpl; naive_solver].
  destruct k, k'; unfold in_ids; simpl; rewrite ?bool_decide_eq_true; set_solver.
Qed.

Lemma collected_ids (f : ResponseItem → option (CallKind * str)) s items kc :
  in_ids (foldl (λ s e, add_id s (f (item e))) s items) kc = true
  ↔ in_ids s kc = true ∨ ∃ e, e ∈ items ∧ f (item e) = Some kc.
Proof.
  revert s. induction items as [|e items IH]; intros s; cbn [foldl]; [set_solver|].
  rewrite IH, in_add_id. set_solver.
Qed.

Lemma no_ids_empty kc : in_ids no_ids kc = false.
Proof. destruct kc as [[] c]; unfold in_ids; simpl; apply bool_decide_eq_false; set_solver. Qed.

Definition output_ids items : IdSets := foldl note_output no_ids items.
Definition call_ids items : IdSets := foldl note_call no_ids items.

Lemma output_ids_spec items kc : in_ids (output_ids items) kc = true ↔ has_output items kc.
Proof.
  unfold output_ids. rewrite (foldl_ext _ _ _ _ note_output_eq), collected_ids, no_ids_empty. unfold has_output. naive_solver.
Qed.
Lemma call_ids_spec items kc : in_ids (call_ids items) kc = true ↔ has_call items kc.
Proof.
  unfold call_ids. rewrite (foldl_ext _ _ _ _ note_call_eq), collected_ids, no_ids_empty. unfold has_call. naive_solver.
Qed.

(** ** The two loops *)

(** The output made for a call. *)
Definition synthetic e : option envelope :=
  match item e with
  | FunctionCall id _ _ _ _ c _ | LocalShellCall id (Some c) _ _ _ => Some (aborted_function_output uuid_v5 id c)
  | ToolSearchCall id (Some c) _ _ _ _ => Some (empty_search_output uuid_v5 id c)
  | CustomToolCall id _ c _ _ _ _ => Some (aborted_custom_output uuid_v5 id c)
  | _ => None
  end.
(** The calls whose missing output is reported as an error. *)
Definition loud i : bool :=
  match i with CustomToolCall _ _ _ _ _ _ _ | LocalShellCall _ _ _ _ _ => true | _ => false end.

Definition lacks_output (outputs : IdSets) e : bool :=
  match call_of (item e) with Some kc => negb (in_ids outputs kc) | None => false end.
Definition orphaned (calls : IdSets) e : bool :=
  match output_of (item e) with
  | Some kc => negb (stands_alone (item e)) && negb (in_ids calls kc)
  | None => false
  end.

Lemma missing_output_eq {E} dbg outputs e :
  missing_output (E := E) uuid_v5 dbg outputs e
  = if lacks_output outputs e then if loud (item e) && dbg then Panic else Ok (synthetic e) else Ok None.
Proof.
  unfold missing_output, lacks_output, call_of, synthetic, loud, in_ids, error_or_panic.
  bool_cases (item e).
Qed.

Lemma is_orphan_eq {E} dbg calls e :
  is_orphan (E := E) dbg calls e = if orphaned calls e then if dbg then Panic else Ok true else Ok false.
Proof.
  unfold is_orphan, orphaned, output_of, stands_alone, in_ids, error_or_panic.
  bool_cases (item e).
Qed.

(** Each item, followed by an output when it is a call that lacks one. *)
Definition with_output (outputs : IdSets) e : list envelope :=
  e :: (if lacks_output outputs e then option_list (synthetic e) else []).
Definition completed items : list envelope := items ≫= with_output (output_ids items).
Definition without_orphans items : list envelope :=
  filter (λ e, orphaned (call_ids items) e = false) items.

(** A build with debug assertions panics on these. *)
Definition reported_call outputs e : bool := lacks_output outputs e && loud (item e).

Lemma collect_missing_spec {E} dbg outputs idx items :
  (dbg = true → Forall (λ e, reported_call outputs e = false) items) →
  ∃ missing, collect_missing (E := E) uuid_v5 dbg outputs idx items = Ok missing
    ∧ ∀ pre, length pre = idx →
        foldM (E := E) (λ items o, vec_insert (o.1 + 1) o.2 items) (pre ++ items) (rev missing)
        = Ok (pre ++ (items ≫= with_output outputs)).
Proof.
  revert idx. induction items as [|e items IH]; intros idx Hq; cbn [collect_missing].
  { exists []. split; [done|]. done. }
  destruct (IH (S idx)) as (rest & -> & Hins); [intros Hd; by apply Hq, Forall_cons in Hd as [_ ?]|].
  rewrite missing_output_eq.
  assert (Hpre : ∀ pre, length pre = idx → foldM (E := E) (λ items o, vec_insert (o.1 + 1) o.2 items) (pre ++ e :: items) (rev rest)
    = Ok (pre ++ e :: (items ≫= with_output outputs))).
  { intros pre Hl. rewrite app_cons_middle, Hins by (rewrite length_app; simpl; lia). by rewrite <- app_assoc. }
  destruct (lacks_output outputs e) eqn:El.
  - assert (Hloud : loud (item e) && dbg = false).
    { destruct dbg; [|apply andb_false_r]. specialize (Hq eq_refl). apply Forall_cons in Hq as [Hq _].
      unfold reported_call in Hq. rewrite El in Hq. by rewrite andb_true_r. }
    rewrite Hloud. cbn [res_bind]. destruct (synthetic e) as [o|] eqn:Es.
    + eexists. split; [done|]. intros pre Hl. cbn [rev]. rewrite foldM_app, Hpre by done. cbn [res_bind foldM].
      unfold vec_insert. cbn [fst snd]. rewrite decide_True by (rewrite length_app; simpl; lia). cbn [res_bind].
      rewrite (app_cons_middle pre). rewrite (take_app_length' (pre ++ [e])), (drop_app_length' (pre ++ [e])) by (rewrite length_app; simpl; lia).
      rewrite <- app_assoc. cbn [mbind list_bind]. unfold with_output at 2. by rewrite El, Es.
    + eexists. split; [done|]. intros pre Hl. rewrite Hpre by done. cbn [mbind list_bind]. unfold with_output at 2.
      by rewrite El, Es.
  - cbn [res_bind]. eexists. split; [done|]. intros pre Hl. rewrite Hpre by done. cbn [mbind list_bind].
    unfold with_output at 2. by rewrite El.
Qed.

Lemma ensure_eq {E} dbg items :
  (dbg = true → Forall (λ e, reported_call (output_ids items) e = false) items) →
  ensure_call_outputs_present (E := E) uuid_v5 dbg items = Ok (completed items).
Proof.
  intros Hq. unfold ensure_call_outputs_present. fold (output_ids items).
  destruct (collect_missing_spec (E := E) dbg (output_ids items) 0 items Hq) as (missing & -> & Hins).
  cbn [res_bind]. by apply (Hins []).
Qed.

Lemma orphan_positions_spec {E} dbg calls pos items :
  (dbg = true → Forall (λ e, orphaned calls e = false) items) →
  ∃ positions, orphan_positions (E := E) dbg calls pos items = Ok positions
    ∧ Forall (λ p, pos ≤ p) positions
    ∧ retain_positions positions pos items = filter (λ e, orphaned calls e = false) items
    ∧ (positions = [] → filter (λ e, orphaned calls e = false) items = items).
Proof.
  revert pos. induction items as [|e items IH]; intros pos Hq; cbn [orphan_positions].
  { exists []. split_and!; [done|constructor|done|done]. }
  destruct (IH (S pos)) as (rest & -> & Hge & Hret & Hnil); [intros Hd; by apply Hq, Forall_cons in Hd as [_ ?]|].
  rewrite is_orphan_eq. destruct (orphaned calls e) eqn:Eo.
  - destruct dbg; [specialize (Hq eq_refl); apply Forall_cons in Hq as [Hq _]; congruence|]. cbn [res_bind].
    eexists. split; [done|]. rewrite filter_cons_False by congruence. split_and!; [| |done].
    + constructor; [lia|]. eapply Forall_impl; [exact Hge|]. simpl. lia.
    + cbn [retain_positions]. by rewrite Nat.eqb_refl.
  - cbn [res_bind]. exists rest. split; [done|]. rewrite filter_cons_True by done. split_and!.
    + eapply Forall_impl; [exact Hge|]. simpl. lia.
    + cbn [retain_positions]. destruct rest as [|p rest]; [by rewrite Hret|].
      apply Forall_cons in Hge as [Hp _]. rewrite (proj2 (Nat.eqb_neq _ _)) by lia. by rewrite Hret.
    + intros Hr. by rewrite Hnil.
Qed.

Lemma remove_orphans_eq {E} dbg items :
  (dbg = true → Forall (λ e, orphaned (call_ids items) e = false) items) →
  remove_orphan_outputs (E := E) dbg items = Ok (without_orphans items).
Proof.
  intros Hq. unfold remove_orphan_outputs. fold (call_ids items).
  destruct (orphan_positions_spec (E := E) dbg (call_ids items) 0 items Hq) as (positions & -> & _ & Hret & Hnil).
  cbn [res_bind]. unfold without_orphans. case_bool_decide; [by rewrite Hnil|by rewrite Hret].
Qed.

(** What makes a build with debug assertions panic. *)
Definition reported items : bool :=
  existsb (reported_call (output_ids items)) items
  || existsb (orphaned (call_ids (completed items))) (completed items).

Lemma collect_missing_panics {E} outputs idx items :
  existsb (reported_call outputs) items = true → collect_missing (E := E) uuid_v5 true outputs idx items = Panic.
Proof.
  revert idx. induction items as [|e items IH]; intros idx; cbn [existsb collect_missing]; [done|].
  rewrite missing_output_eq. unfold reported_call at 1. rewrite andb_true_r.
  destruct (lacks_output outputs e), (loud (item e)); simpl; try done; intros Hr; by rewrite IH.
Qed.

Lemma orphan_positions_panics {E} calls idx items :
  existsb (orphaned calls) items = true → orphan_positions (E := E) true calls idx items = Panic.
Proof.
  revert idx. induction items as [|e items IH]; intros idx; cbn [existsb orphan_positions]; [done|].
  rewrite is_orphan_eq. destruct (orphaned calls e); simpl; [done|]. intros Hr. by rewrite IH.
Qed.

(** ** Pairing *)

Lemma synthetic_spec e o : synthetic e = Some o → output_of (item o) = call_of (item e) ∧ call_of (item o) = None.
Proof. unfold synthetic, call_of at 1. intros. by repeat case_match; simplify_eq. Qed.

Lemma call_not_output i kc : call_of i = Some kc → output_of i = None.
Proof. unfold call_of, output_of. by repeat case_match. Qed.

Lemma synthetic_Some e : call_of (item e) ≠ None → is_Some (synthetic e).
Proof. unfold synthetic, call_of. repeat case_match; try done; eauto. Qed.

Lemma elem_of_completed items e :
  e ∈ completed items ↔
    e ∈ items ∨ ∃ c, c ∈ items ∧ lacks_output (output_ids items) c = true ∧ synthetic c = Some e.
Proof.
  unfold completed, with_output. rewrite list_elem_of_bind. split.
  - intros (c & [->|Hin]%elem_of_cons & Hc); [by left|]. destruct (lacks_output _ c) eqn:El; [|by apply not_elem_of_nil in Hin].
    
    destruct (synthetic c) as [o|] eqn:Es; [|by apply not_elem_of_nil in Hin].
    apply list_elem_of_singleton in Hin as ->. eauto.
  - intros [Hin|(c & Hc & El & Es)]; [exists e; split; [by left|done]|].
    exists c. split; [|done]. right. rewrite El, Es. by apply list_elem_of_singleton.
Qed.

Lemma has_call_completed items kc : has_call (completed items) kc ↔ has_call items kc.
Proof.
  unfold has_call. setoid_rewrite elem_of_completed. split; [|naive_solver].
  intros (e & [Hin|(c & _ & _ & [_ Hn]%synthetic_spec)] & He); [eauto|congruence].
Qed.

Lemma completed_complete items : complete (completed items).
Proof.
  intros kc Hc. destruct (proj1 (has_call_completed items kc) Hc) as (e & He & Hk).
  destruct (in_ids (output_ids items) kc) eqn:Ei.
  - apply output_ids_spec in Ei as (o & Ho & Hok). exists o. rewrite elem_of_completed. auto.
  - destruct (synthetic_Some e) as [o Ho]; [congruence|]. exists o.
    split; [|by apply synthetic_spec in Ho as [-> _]].
    apply elem_of_completed. right. exists e. split_and!; [done| |done]. unfold lacks_output. by rewrite Hk, Ei.
Qed.

Lemma orphaned_spec items e kc :
  output_of (item e) = Some kc → has_call items kc → orphaned (call_ids items) e = false.
Proof. intros Ho Hc%call_ids_spec. unfold orphaned. by rewrite Ho, Hc, andb_false_r. Qed.

Lemma has_call_without items kc : has_call (without_orphans items) kc ↔ has_call items kc.
Proof.
  unfold has_call, without_orphans. setoid_rewrite list_elem_of_filter. split; [naive_solver|].
  intros (e & He & Hk). exists e. split_and!; [|done|done]. unfold orphaned. by rewrite (call_not_output _ _ Hk).
Qed.

Lemma without_orphans_spec items : complete items → complete (without_orphans items) ∧ no_orphans (without_orphans items).
Proof.
  intros Hc. split.
  - intros kc Hk. apply (has_call_without items) in Hk. destruct (Hc kc Hk) as (o & Ho & Hok). exists o. split; [|done].
    apply list_elem_of_filter. split; [|done]. by eapply orphaned_spec.
  - intros e kc [Ho He]%list_elem_of_filter Hk Hs. apply has_call_without, call_ids_spec.
    unfold orphaned in Ho. rewrite Hk, Hs in Ho. simpl in Ho. by apply negb_false_iff in Ho.
Qed.

(** A complete history without orphans is left alone. *)
Lemma completed_id items : complete items → completed items = items.
Proof.
  intros Hc. unfold completed. assert (Hl : Forall (λ e, lacks_output (output_ids items) e = false) items).
  { apply Forall_forall. intros e He. unfold lacks_output. destruct (call_of (item e)) as [kc|] eqn:E; [|done].
    apply negb_false_iff, output_ids_spec, Hc. by exists e. }
  clear Hc. generalize dependent (output_ids items). intros outputs Hl.
  induction Hl as [|e l He _ IH]; [done|]. cbn [mbind list_bind] in *. unfold with_output at 1. by rewrite He, IH.
Qed.

Lemma not_orphaned items : no_orphans items → Forall (λ e, orphaned (call_ids items) e = false) items.
Proof.
  intros Hn. apply Forall_forall. intros e He. unfold orphaned.
  destruct (output_of (item e)) as [kc|] eqn:E; [|done]. destruct (stands_alone (item e)) eqn:Es; [done|].
  by apply negb_false_iff, call_ids_spec, (Hn e).
Qed.

Lemma without_orphans_id items : no_orphans items → without_orphans items = items.
Proof. intros Hn%not_orphaned. by apply filter_all. Qed.

(** ** Media *)

Definition payload_items (o : FunctionCallOutputPayload (Img := ImageReference * option ImageDetail)) :=
  match payload_body o with BodyItems l => l | BodyText _ => [] end.
Definition is_output_image (c : OutputItem) : bool := match c with InputImage _ => true | _ => false end.
Definition is_output_audio (c : OutputItem) : bool := match c with InputAudio _ => true | _ => false end.

Definition has_image i : bool :=
  match i with
  | Message _ _ content _ _ => existsb is_image content
  | FunctionCallOutput _ _ _ _ output _ | CustomToolCallOutput _ _ _ output _ =>
      existsb is_output_image (payload_items output)
  | ImageGenerationCall _ _ _ result _ => negb (bool_decide (result = []))
  | _ => false
  end.
Definition has_audio i : bool :=
  match i with
  | Message _ _ content _ _ => existsb is_audio content
  | FunctionCallOutput _ _ _ _ output _ | CustomToolCallOutput _ _ _ output _ =>
      existsb is_output_audio (payload_items output)
  | _ => false
  end.

(** A message whose classifications match its content, one each. *)
Definition annotated i : Prop :=
  match i with
  | Message _ _ content _ meta =>
      ∃ m kinds, meta = Some m ∧ content_item_kinds m = Some kinds ∧ length kinds = length content
  | _ => True
  end.

Lemma annotate_content content kinds : map ann_content (annotate content kinds) = content.
Proof. revert kinds. induction content as [|c l IH]; intros [|k kinds]; simpl; by rewrite ?IH. Qed.
Lemma annotate_kinds content kinds : length kinds = length content → map ann_kind (annotate content kinds) = kinds.
Proof. revert kinds. induction content as [|c l IH]; intros [|k kinds] Hl; simplify_eq/=; by rewrite ?IH. Qed.

Section Strip.
Variables (is_media : ContentItem → bool) (m : UnsupportedMedia).
Hypothesis Hm : is_media (CiInputText (media_text m)) = false.
Abbreviation strip := (λ c, if is_media (ann_content c) then media_content m else c).

Lemma strip_contents_gone cs : existsb is_media (map ann_content (map strip cs)) = false.
Proof. induction cs as [|c cs IH]; simpl; [done|]. rewrite IH. by destruct (is_media (ann_content c)) eqn:E; simpl; rewrite ?E, ?Hm. Qed.

Lemma strip_contents_id cs : existsb is_media (map ann_content cs) = false → map strip cs = cs.
Proof.
  induction cs as [|c cs IH]; simpl; [done|]. intros [Hc Hcs]%orb_false_iff. by rewrite Hc, IH.
Qed.

Lemma strip_message_eq id role content phase meta :
  ∃ cs m', strip_message is_media m (Message id role content phase meta)
      = Message id role (map ann_content (map strip cs)) phase (Some m')
    ∧ map ann_content cs = content ∧ content_item_kinds m' = Some (map ann_kind (map strip cs)).
Proof.
  exists (annotate content (default [] (m ← meta; content_item_kinds m))).
  eexists. split; [reflexivity|]. split; [apply annotate_content|done].
Qed.

Lemma strip_message_annotated i : annotated i → annotated (strip_message is_media m i).
Proof.
  destruct i; try done. intros _. destruct (strip_message_eq id role content phase meta) as (cs & m' & -> & _ & Hk).
  exists m', (map ann_kind (map strip cs)). split_and!; [done|done|by rewrite !length_map].
Qed.

Lemma strip_message_fix id role content phase meta :
  annotated (Message id role content phase meta) → existsb is_media content = false →
  strip_message is_media m (Message id role content phase meta) = Message id role content phase meta.
Proof.
  intros (m' & kinds & -> & Hk & Hl) Hn. unfold strip_message. simpl. rewrite Hk. simpl.
  rewrite strip_contents_id by by rewrite annotate_content. rewrite annotate_content, annotate_kinds by done.
  do 2 f_equal. destruct m'; simpl in *. by rewrite Hk.
Qed.

End Strip.

Lemma map_content_items_fix f (p : OutputItem → bool) o :
  (∀ x, p x = false → f x = x) → existsb p (payload_items o) = false → map_content_items f o = o.
Proof.
  intros Hf. destruct o as [[t|l] s]; unfold map_content_items, payload_items; simpl; [done|].
  intros Hl. by rewrite (map_fix f p).
Qed.
Lemma map_content_items_gone f (p : OutputItem → bool) o :
  (∀ x, p (f x) = false) → existsb p (payload_items (map_content_items f o)) = false.
Proof. intros Hf. destruct o as [[t|l] s]; unfold map_content_items, payload_items; simpl; [done|]. by apply map_gone. Qed.

Lemma strip_images_pairing i :
  call_of (strip_item_images i) = call_of i ∧ output_of (strip_item_images i) = output_of i
  ∧ stands_alone (strip_item_images i) = stands_alone i.
Proof. by destruct i. Qed.
Lemma strip_audio_pairing i :
  call_of (strip_item_audio i) = call_of i ∧ output_of (strip_item_audio i) = output_of i
  ∧ stands_alone (strip_item_audio i) = stands_alone i.
Proof. by destruct i. Qed.

Lemma strip_images_gone i : has_image (strip_item_images i) = false.
Proof.
  destruct i; try done; cbn [strip_item_images has_image].
  - destruct (strip_message_eq is_image UnsupportedImage id role content phase meta) as (cs & m' & -> & _ & _).
    by apply strip_contents_gone.
  - by apply map_content_items_gone; intros [].
  - by apply map_content_items_gone; intros [].
Qed.
Lemma strip_audio_gone i : has_audio (strip_item_audio i) = false.
Proof.
  destruct i; try done; cbn [strip_item_audio has_audio].
  - destruct (strip_message_eq is_audio UnsupportedAudio id role content phase meta) as (cs & m' & -> & _ & _).
    by apply strip_contents_gone.
  - by apply map_content_items_gone; intros [].
  - by apply map_content_items_gone; intros [].
Qed.

Lemma strip_images_annotated i : annotated (strip_item_images i).
Proof.
  destruct i; try done. cbn [strip_item_images].
  destruct (strip_message_eq is_image UnsupportedImage id role content phase meta) as (cs & m' & -> & _ & Hk).
  eexists m', _. split_and!; [done|done|by rewrite !length_map].
Qed.
Lemma strip_audio_annotated i : annotated (strip_item_audio i).
Proof.
  destruct i; try done. cbn [strip_item_audio].
  destruct (strip_message_eq is_audio UnsupportedAudio id role content phase meta) as (cs & m' & -> & _ & Hk).
  eexists m', _. split_and!; [done|done|by rewrite !length_map].
Qed.

Lemma strip_images_fix i : annotated i → has_image i = false → strip_item_images i = i.
Proof.
  destruct i; try done; cbn [strip_item_images has_image]; intros Ha Hi.
  - by apply strip_message_fix.
  - f_equal. apply (map_content_items_fix _ is_output_image); [by intros []|done].
  - f_equal. apply (map_content_items_fix _ is_output_image); [by intros []|done].
  - f_equal. by bdec.
Qed.
Lemma strip_audio_fix i : annotated i → has_audio i = false → strip_item_audio i = i.
Proof.
  destruct i; try done; cbn [strip_item_audio has_audio]; intros Ha Hi.
  - by apply strip_message_fix.
  - f_equal. apply (map_content_items_fix _ is_output_audio); [by intros []|done].
  - f_equal. apply (map_content_items_fix _ is_output_audio); [by intros []|done].
Qed.

(** Replacing audio leaves no new image. *)
Lemma strip_audio_keeps_image i : has_image i = false → has_image (strip_item_audio i) = false.
Proof.
  destruct i; try done; cbn [strip_item_audio has_image]; intros Hi.
  - destruct (strip_message_eq is_audio UnsupportedAudio id role content phase meta) as (cs & m' & -> & <- & _).
    induction cs as [|c cs IH]; [done|]. simpl in *. apply orb_false_iff in Hi as [Hc Hi]. rewrite IH by done.
    by destruct (is_audio (ann_content c)); simpl; rewrite ?Hc.
  - destruct output as [[t|l] s]; [done|]. unfold payload_items, map_content_items in *. simpl in *.
    induction l as [|x l IH]; [done|]. simpl in *. apply orb_false_iff in Hi as [Hx Hi]. rewrite IH by done. by destruct x.
  - destruct output as [[t|l] s]; [done|]. unfold payload_items, map_content_items in *. simpl in *.
    induction l as [|x l IH]; [done|]. simpl in *. apply orb_false_iff in Hi as [Hx Hi]. rewrite IH by done. by destruct x.
Qed.

Lemma strip_audio_keeps_annotated i : annotated i → annotated (strip_item_audio i).
Proof. intros _. apply strip_audio_annotated. Qed.

(** ** The whole preparation *)

Definition stripped (mods : list InputModality) i : ResponseItem :=
  let i := if bool_decide (ModImage ∈ mods) then i else strip_item_images i in
  if bool_decide (ModAudio ∈ mods) then i else strip_item_audio i.

(** What the index loops compute. *)
Definition prepared (mods : list InputModality) items : list envelope :=
  map (map_item (stripped mods)) (without_orphans (completed items)).

Lemma map_item_id items : map (map_item (λ i, i)) items = items.
Proof. induction items as [|[i m] items IH]; simpl; [done|]. by rewrite IH. Qed.

Lemma strip_map mods items :
  strip_audio_when_unsupported mods (strip_images_when_unsupported mods items) = map (map_item (stripped mods)) items.
Proof.
  unfold strip_audio_when_unsupported, strip_images_when_unsupported, stripped.
  do 2 case_bool_decide; rewrite ?map_map; [by rewrite map_item_id|done..].
Qed.

Lemma stripped_pairing mods i :
  call_of (stripped mods i) = call_of i ∧ output_of (stripped mods i) = output_of i
  ∧ stands_alone (stripped mods i) = stands_alone i.
Proof.
  unfold stripped. pose proof (strip_images_pairing i) as (Ci & Oi & Si).
  do 2 case_bool_decide; [done..| |].
  - apply strip_audio_pairing.
  - pose proof (strip_audio_pairing (strip_item_images i)) as (-> & -> & ->). done.
Qed.

Lemma elem_of_map_item f items e : e ∈ map (map_item f) items ↔ ∃ e', e' ∈ items ∧ e = map_item f e'.
Proof. rewrite list_elem_of_fmap. naive_solver. Qed.

Lemma stripped_has_call mods items kc : has_call (map (map_item (stripped mods)) items) kc ↔ has_call items kc.
Proof.
  unfold has_call. setoid_rewrite elem_of_map_item. split.
  - intros (e & (e' & He & ->) & Hk). exists e'. split; [done|]. by rewrite <- (proj1 (stripped_pairing mods (item e'))).
  - intros (e & He & Hk). eexists. split; [by exists e|]. simpl. by rewrite (proj1 (stripped_pairing mods (item e))).
Qed.

Lemma stripped_paired mods items :
  complete items ∧ no_orphans items →
  complete (map (map_item (stripped mods)) items) ∧ no_orphans (map (map_item (stripped mods)) items).
Proof.
  intros [Hc Hn]. split.
  - intros kc Hk. apply stripped_has_call in Hk. destruct (Hc kc Hk) as (o & Ho & Hok).
    exists (map_item (stripped mods) o). split; [by apply elem_of_map_item; exists o|]. simpl.
    by rewrite (proj1 (proj2 (stripped_pairing mods (item o)))).
  - intros e kc (e' & He & ->)%elem_of_map_item. simpl.
    destruct (stripped_pairing mods (item e')) as (_ & -> & ->). intros Hk Hs. apply stripped_has_call. by eapply Hn.
Qed.

Lemma stripped_media mods i :
  (ModImage ∉ mods → has_image (stripped mods i) = false) ∧ (ModAudio ∉ mods → has_audio (stripped mods i) = false).
Proof.
  unfold stripped. split; intros Hn.
  - rewrite (bool_decide_false _ Hn). case_bool_decide; [apply strip_images_gone|].
    apply strip_audio_keeps_image, strip_images_gone.
  - rewrite (bool_decide_false _ Hn). apply strip_audio_gone.
Qed.

Lemma stripped_twice mods i : stripped mods (stripped mods i) = stripped mods i.
Proof.
  destruct (stripped_media mods i) as [Hi Ha]. set (x := stripped mods i) in *.
  assert (Hx : ModImage ∉ mods ∨ ModAudio ∉ mods → annotated x).
  { unfold x, stripped. do 2 case_bool_decide; intros [?|?]; try done;
      auto using strip_images_annotated, strip_audio_annotated. }
  unfold stripped. case_bool_decide; case_bool_decide; try done.
  - apply strip_images_fix; auto.
  - apply strip_audio_fix; auto.
  - rewrite (strip_images_fix x) by auto. apply strip_audio_fix; auto.
Qed.

Lemma prepared_eq {E} dbg mods items :
  normalize_history (E := E) uuid_v5 dbg mods items
  = if dbg && reported items then Panic else Ok (prepared mods items).
Proof.
  unfold normalize_history, reported.
  destruct (existsb (reported_call (output_ids items)) items) eqn:E1.
  { destruct dbg; cbn [andb orb].
    - unfold ensure_call_outputs_present. fold (output_ids items). by rewrite collect_missing_panics.
    - rewrite ensure_eq by done. cbn [res_bind]. rewrite remove_orphans_eq by done. cbn [res_bind]. by rewrite strip_map. }
  apply existsb_false_Forall in E1. rewrite ensure_eq by done. cbn [res_bind orb].
  destruct (existsb (orphaned (call_ids (completed items))) (completed items)) eqn:E2.
  { destruct dbg; cbn [andb orb].
    - unfold remove_orphan_outputs. fold (call_ids (completed items)). by rewrite orphan_positions_panics.
    - rewrite remove_orphans_eq by done. cbn [res_bind]. by rewrite strip_map. }
  apply existsb_false_Forall in E2. rewrite remove_orphans_eq by done. cbn [res_bind].
  rewrite strip_map. by destruct dbg.
Qed.

Lemma prepared_paired mods items : complete (prepared mods items) ∧ no_orphans (prepared mods items).
Proof. apply stripped_paired, without_orphans_spec, completed_complete. Qed.

Lemma paired_not_reported items : complete items → no_orphans items → reported items = false.
Proof.
  intros Hc Hn. unfold reported. rewrite completed_id by done. apply orb_false_iff. split; apply existsb_false_Forall.
  - apply Forall_forall. intros e He. unfold reported_call, lacks_output.
    destruct (call_of (item e)) as [kc|] eqn:E; [|done].
    rewrite (proj2 (output_ids_spec items kc)); [done|]. apply Hc. by exists e.
  - by apply not_orphaned.
Qed.

Lemma prepared_twice mods items : prepared mods (prepared mods items) = prepared mods items.
Proof.
  destruct (prepared_paired mods items) as [Hc Hn]. unfold prepared at 1.
  rewrite completed_id, without_orphans_id by done. unfold prepared. rewrite map_map.
  apply map_ext. intros [i m]. unfold map_item. simpl. by rewrite stripped_twice.
Qed.

(** C32. The index loops, insertion from the end and the positions skipped by
    [retain], compute this: every call that lacks an output is followed by a
    made one, then outputs without a call are left out, then each item's
    unsupported media are replaced; order is kept. A build with debug assertions
    panics instead exactly when a shell or custom call lacks its output or an
    output has no call. *)
Theorem normalize_history_eq {E} dbg mods items :
  normalize_history (E := E) uuid_v5 dbg mods items
  = if dbg && reported items then Panic
    else Ok (map (map_item (stripped mods)) (without_orphans (items ≫= with_output (output_ids items)))).
Proof. apply prepared_eq. Qed.

(** After preparation every call has an output and every output a call,
    server-side tool searches apart; unsupported images and audio are gone; and
    preparing the result again, even in a build with debug assertions, changes
    nothing. *)
Theorem normalize_history_spec {E} mods items :
  ∃ out, normalize_history (E := E) uuid_v5 false mods items = Ok out
    ∧ complete out ∧ no_orphans out
    ∧ (ModImage ∉ mods → Forall (λ e, has_image (item e) = false) out)
    ∧ (ModAudio ∉ mods → Forall (λ e, has_audio (item e) = false) out)
    ∧ ∀ dbg, normalize_history (E := E) uuid_v5 dbg mods out = Ok out.
Proof.
  exists (prepared mods items). destruct (prepared_paired mods items) as [Hc Hn].
  split_and!; [by rewrite prepared_eq|done|done| | |].
  - intros Hm. apply Forall_forall. intros e (e' & _ & ->)%elem_of_map_item. by apply stripped_media.
  - intros Hm. apply Forall_forall. intros e (e' & _ & ->)%elem_of_map_item. by apply stripped_media.
  - intros dbg. rewrite prepared_eq, paired_not_reported, prepared_twice by done. by rewrite andb_false_r.
Qed.

(** ** Removing the oldest item *)

(** Calls and outputs correspond, and no id is used twice. *)
Definition balanced items : Prop :=
  complete items ∧ no_orphans items
  ∧ NoDup (omap (λ e, call_of (item e)) items) ∧ NoDup (omap (λ e, output_of (item e)) items).

Lemma remove_first_matching_cons p e items :
  remove_first_matching p (e :: items) = if p (item e) then items else e :: remove_first_matching p items.
Proof.
  unfold remove_first_matching. simpl. destruct (p (item e)) eqn:E; [by rewrite decide_True|].
  rewrite decide_False by congruence. destruct (list_find _ items) as [[pos x]|]; done.
Qed.

(** With at most one match, it is a filter. *)
Lemma remove_first_filter (f : ResponseItem → option (CallKind * str)) p kc items :
  (∀ e, e ∈ items → p (item e) = true ↔ f (item e) = Some kc) → NoDup (omap (λ e, f (item e)) items) →
  remove_first_matching p items = filter (λ e, f (item e) ≠ Some kc) items.
Proof.
  induction items as [|e items IH]; [done|]. intros Hp. rewrite remove_first_matching_cons. simpl. intros Hnd.
  destruct (p (item e)) eqn:E.
  - apply Hp in E; [|by left]. rewrite filter_cons_False by (intros Hne; by apply Hne).
    rewrite E in Hnd. apply NoDup_cons in Hnd as [Hn _].
    symmetry. apply filter_all, Forall_forall. intros e' He' He. apply Hn, list_elem_of_omap. eauto.
  - assert (f (item e) ≠ Some kc) by (rewrite <- Hp by (by left); congruence). rewrite filter_cons_True by done.
    f_equal. apply IH; [intros; apply Hp; by right|]. destruct (f (item e)); [by apply NoDup_cons in Hnd as [_ ?]|done].
Qed.

(** The counterpart of a function call output is a function call or else a
    shell call. *)
Lemma remove_function_call c items :
  NoDup (omap (λ e, call_of (item e)) items) →
  match list_find (λ e, is_function_call c (item e) = true) items with
  | Some (pos, _) => delete pos items
  | None => remove_first_matching (is_shell_call c) items
  end = filter (λ e, call_of (item e) ≠ Some (KFunction, c)) items.
Proof.
  intros Hnd. destruct (list_find _ items) as [[pos x]|] eqn:E.
  - transitivity (remove_first_matching (is_function_call c) items); [by unfold remove_first_matching; rewrite E|].
    apply list_find_Some in E as (Hx%list_elem_of_lookup_2 & Hc & _).
    assert (Hfc : ∀ i, is_function_call c i = true → call_of i = Some (KFunction, c)).
    { intros []; simpl; try done. by intros ->%bool_decide_eq_true. }
    apply remove_first_filter; [|done]. intros e He. split; [apply Hfc|].
    intros Hk. by rewrite (omap_NoDup_unique _ items e x (KFunction, c) Hnd He Hx Hk (Hfc _ Hc)).
  - apply list_find_None in E. apply remove_first_filter; [|done]. intros e He.
    rewrite Forall_forall in E. specialize (E e He).
    destruct (item e); simpl in *; try done; repeat case_match; simplify_eq/=; rewrite ?bool_decide_eq_true in *;
      naive_solver.
Qed.

Definition untouched (kc : CallKind * str) e : Prop := call_of (item e) ≠ Some kc ∧ output_of (item e) ≠ Some kc.
#[local] Instance untouched_dec kc e : Decision (untouched kc e).
Proof. unfold untouched. apply _. Defined.

Lemma untouched_balanced kc items : balanced items → balanced (filter (untouched kc) items).
Proof.
  intros (Hc & Hn & Hn1 & Hn2). unfold balanced. split_and!; try by apply NoDup_omap_filter.
  - intros kc' (e & [[Hk _] He]%list_elem_of_filter & Hk'). destruct (Hc kc') as (o & Ho & Hok); [by exists e|].
    exists o. split; [|done]. apply list_elem_of_filter. split; [|done]. split; [|congruence].
    intros Hco%call_not_output. congruence.
  - intros e kc' [[_ Hk] He]%list_elem_of_filter Hk' Hs. destruct (Hn e kc' He Hk' Hs) as (o & Ho & Hok).
    exists o. split; [|done]. apply list_elem_of_filter. split; [|done]. split; [congruence|].
    rewrite (call_not_output _ _ Hok). done.
Qed.

Lemma remove_call_filter e items kc :
  NoDup (omap (λ e, call_of (item e)) (e :: items)) → call_of (item e) = Some kc →
  filter (λ e, output_of (item e) ≠ Some kc) items = filter (untouched kc) (e :: items).
Proof.
  simpl. intros Hnd Hk. rewrite filter_cons_False by (intros [Hne _]; done). apply filter_iff_in. intros x Hx.
  unfold untouched. rewrite Hk in Hnd. apply NoDup_cons in Hnd as [Hn _].
  assert (call_of (item x) ≠ Some kc) by (intros Hxk; apply Hn, list_elem_of_omap; eauto). tauto.
Qed.
Lemma remove_output_filter e items kc :
  NoDup (omap (λ e, output_of (item e)) (e :: items)) → output_of (item e) = Some kc →
  filter (λ e, call_of (item e) ≠ Some kc) items = filter (untouched kc) (e :: items).
Proof.
  simpl. intros Hnd Hk. rewrite filter_cons_False by (intros [_ Hne]; done). apply filter_iff_in. intros x Hx.
  unfold untouched. rewrite Hk in Hnd. apply NoDup_cons in Hnd as [Hn _].
  assert (output_of (item x) ≠ Some kc) by (intros Hxk; apply Hn, list_elem_of_omap; eauto). tauto.
Qed.

(** What [remove_corresponding_for] removes, when ids are not used twice. *)
Lemma remove_corresponding_eq e items :
  NoDup (omap (λ e, call_of (item e)) (e :: items)) → NoDup (omap (λ e, output_of (item e)) (e :: items)) →
  remove_corresponding_for items (item e)
  = match call_of (item e), output_of (item e) with
    | Some kc, _ | None, Some kc => filter (untouched kc) (e :: items)
    | None, None => items
    end.
Proof.
  intros Hc Ho. pose proof (NoDup_omap_tail _ _ _ Hc) as Hc'. pose proof (NoDup_omap_tail _ _ _ Ho) as Ho'.
  pose proof (λ kc, remove_call_filter e items kc Hc) as Fc. pose proof (λ kc, remove_output_filter e items kc Ho) as Fo.
  clear Hc Ho. destruct (item e); try done.
  all: try match type of call_id with option _ => destruct call_id as [c|] end; try done; cbn [remove_corresponding_for call_of output_of];
    first [rewrite <- (Fc _ eq_refl)|rewrite <- (Fo _ eq_refl)]; clear Fc Fo.
  all: try (by apply remove_function_call).
  all: apply remove_first_filter; [|done]; intros x _; destruct (item x); simpl; try done;
    repeat case_match; rewrite ?bool_decide_eq_true; naive_solver.
Qed.

(** Dropping the oldest item together with its counterpart keeps a history
    in which calls and outputs correspond one to one in that state. *)
Theorem remove_first_item_balanced items : balanced items → balanced (remove_first_item items).
Proof.
  intros Hb. destruct items as [|e items]; [done|]. cbn [remove_first_item].
  pose proof Hb as (Hc & Hn & Hn1 & Hn2). rewrite remove_corresponding_eq by done.
  destruct (call_of (item e)) as [kc|] eqn:Ek; [by apply untouched_balanced|].
  destruct (output_of (item e)) as [kc|] eqn:Eo; [by apply untouched_balanced|].
  unfold balanced. split_and!.
  - intros kc (x & Hx & Hk). destruct (Hc kc) as (o & [->|Ho]%elem_of_cons & Hok); [exists x; set_solver|congruence|by exists o].
  - intros x kc Hx Hk Hs. destruct (Hn x kc) as (o & [->|Ho]%elem_of_cons & Hok); [set_solver|done|done|congruence|by exists o].
  - by eapply NoDup_omap_tail.
  - by eapply NoDup_omap_tail.
Qed.

End Facts.

(** ** Concrete histories *)

#[export] Instance unit_payloads : ItemPayloads :=
  {| Value := unit; Number := unit; MessagePhase := unit; AgentMessageInputContent := unit;
     ReasoningItemReasoningSummary := unit; ReasoningItemContent := unit; LocalShellStatus := unit;
     LocalShellAction := unit; WebSearchAction := unit; ConfigurationReasoning := unit; ImageDetail := unit;
     ExecutedToolCall := unit |}.

Definition sample_call (c : str) : ResponseItemEnvelope :=
  envelope_new (FunctionCall (Some (lit "fc_1")) (lit "shell") None (lit "{}") None c None).
Definition sample_output (c : str) : ResponseItemEnvelope :=
  envelope_new (FunctionCallOutput None (Some c) None None (payload_from_text (lit "ok")) None).

(** A call without an output gets one right after it; an output without a call
    goes. *)
Example sample_prepared :
  normalize_history (E := unit) (λ _ _, lit "uuid") false [ModText]
    [sample_call (lit "1"); sample_call (lit "2"); sample_output (lit "2"); sample_output (lit "3")]
  = Ok [sample_call (lit "1"); aborted_function_output (λ _ _, lit "uuid") (Some (lit "fc_1")) (lit "1");
        sample_call (lit "2"); sample_output (lit "2")].
Proof. vm_compute. reflexivity. Qed.

Definition sample_history : list ResponseItemEnvelope :=
  [sample_call (lit "1"); sample_call (lit "2"); sample_output (lit "2"); sample_output (lit "1")].

Lemma sample_balanced : balanced sample_history.
Proof.
  unfold balanced, complete, no_orphans, has_call, has_output, sample_history. split_and!.
  - intros kc (e & He & Hk). repeat (apply elem_of_cons in He as [->|He]); simplify_eq/=; try by apply not_elem_of_nil in He.
    + exists (sample_output (lit "1")). split; [set_solver|done].
    + exists (sample_output (lit "2")). split; [set_solver|done].
  - intros e kc He Hk _. repeat (apply elem_of_cons in He as [->|He]); simplify_eq/=; try by apply not_elem_of_nil in He.
    + exists (sample_call (lit "2")). split; [set_solver|done].
    + exists (sample_call (lit "1")). split; [set_solver|done].
  - apply (bool_decide_unpack _). vm_compute. exact I.
  - apply (bool_decide_unpack _). vm_compute. exact I.
Qed.

Lemma remove_first_item_balanced_witness :
  balanced sample_history ∧ balanced (remove_first_item sample_history)
  ∧ remove_first_item sample_history = [sample_call (lit "2"); sample_output (lit "2")].
Proof.
  split; [exact sample_balanced|]. split; [exact (remove_first_item_balanced sample_history sample_balanced)|].
  vm_compute. reflexivity.
Defined.
