(* ===== verification/RetainedContext.v ===== *)
(** * Facts retained outside of the model's history

    Models [history/src/retained_context.rs] and
    [history/src/reconciled_retained_context.rs]: the bounded record of the user's
    instructions and verified answers that a compaction does not expire, its
    checkpoints and rollbacks, and its completion from the messages of the live
    history. [serde_json], which measures records, is the class [RetainedSizes].
    A [u64] is an [N] with its saturation written out.

    The operations take the function that bounds a family as an argument
    ([Limits]), so that the same operations without a bound are the reference. *)

From stdpp Require Import gmap sorting.
From S2P Require Import Prelude RustStr RustOrd Truncate ResponseItem.
Open Scope list_scope.

(** ** Data *)

Definition MAX_FAMILY_RECORDS : nat := 8.
Definition MAX_RECORD_BYTES : N := 16384.
Definition MAX_FAMILY_BYTES : N := 65536.

Record VerifiedAnswer := { va_turn_id : str; va_call_id : str; va_questions : list (str * str) }.

Record RetainedUserMessage := {
  ru_turn_id : str;
  ru_message_id : option str;
  ru_text : str;
  ru_complete : bool;
}.

#[export] Instance VerifiedAnswer_eq_dec : EqDecision VerifiedAnswer.
Proof. solve_decision. Defined.
#[export] Instance RetainedUserMessage_eq_dec : EqDecision RetainedUserMessage.
Proof. solve_decision. Defined.

Inductive RetainedInputSource := SourceLocal (order : option N) | SourceInherited.
#[export] Instance RetainedInputSource_eq_dec : EqDecision RetainedInputSource.
Proof. solve_decision. Defined.

(** [acceptance_order]. *)
Definition acceptance_order (s : RetainedInputSource) : option N :=
  match s with SourceLocal order => order | SourceInherited => None end.

(** [From<Option<&CodexHarnessMetadata>>]. *)
Definition source_of_metadata (m : option CodexHarnessMetadata) : RetainedInputSource :=
  if from_option hm_inherited_user_message false m then SourceInherited
  else SourceLocal (m ≫= hm_user_input_order).

Record Ordered A := { inherited : bool; order : N; value : A }.
Arguments inherited {A}.
Arguments order {A}.
Arguments value {A}.

Inductive RetainedContextOrder := OrderInherited (order : N) | OrderLocal (order : N).
#[export] Instance RetainedContextOrder_eq_dec : EqDecision RetainedContextOrder.
Proof. solve_decision. Defined.

(** [Ordered::key]. *)
Definition ordered_key {A} (o : Ordered A) : RetainedContextOrder :=
  if inherited o then OrderInherited (order o) else OrderLocal (order o).

(** The derived [Ord]. *)
Definition order_leb (a b : RetainedContextOrder) : bool :=
  match a, b with
  | OrderInherited _, OrderLocal _ => true
  | OrderLocal _, OrderInherited _ => false
  | OrderInherited x, OrderInherited y | OrderLocal x, OrderLocal y => (x <=? y)%N
  end.
Definition order_ltb (a b : RetainedContextOrder) : bool := negb (order_leb b a).

Inductive RetainedContextEntry := UserMessageEntry (m : RetainedUserMessage) | VerifiedAnswerEntry (a : VerifiedAnswer).

(** [RetainedContextEvent], whose only constructor is [VerifiedAnswer]. *)
Record RetainedContextEvent := { event_answer : VerifiedAnswer; event_acceptance_order : option N }.

Record RetainedContext := {
  verified_answers : list (Ordered VerifiedAnswer);
  verified_answers_incomplete : bool;
  user_messages : list (Ordered RetainedUserMessage);
  user_messages_incomplete : bool;
  next_order : N;
}.

(** [RetainedContext::default]. *)
Definition retained_default : RetainedContext :=
  {| verified_answers := []; verified_answers_incomplete := false; user_messages := [];
     user_messages_incomplete := false; next_order := 0 |}.

(** ** Bounds *)

(** [serde_json::to_vec(value).map(|bytes| bytes.len())]. *)
Class RetainedSizes := {
  answer_bytes : VerifiedAnswer → option N;
  message_bytes : RetainedUserMessage → option N;
  answers_bytes : list (Ordered VerifiedAnswer) → option N;
  messages_bytes : list (Ordered RetainedUserMessage) → option N;
}.

(** [map_or(true, |bytes| bytes.len() > limit)]. *)
Definition over (limit : N) (bytes : option N) : bool :=
  match bytes with Some n => (limit <? n)%N | None => true end.

(** [s.truncate(s.floor_char_boundary(n))]: the longest prefix of at most [n] bytes. *)
Fixpoint floor_char_prefix (n : nat) (s : str) : str :=
  match s with
  | [] => []
  | c :: s' => if len_utf8 c <=? n then c :: floor_char_prefix (n - len_utf8 c) s' else []
  end.

(** The loop of [bound_family]; the empty family, the two bytes of [[]], is within
    every limit. *)
Fixpoint pop_excess {A} (bytes : list (Ordered A) → option N) (items : list (Ordered A)) : list (Ordered A) * bool :=
  match items with
  | [] => ([], false)
  | _ :: items' =>
      if (MAX_FAMILY_RECORDS <? length items) || over MAX_FAMILY_BYTES (bytes items)
      then ((pop_excess bytes items').1, true) else (items, false)
  end.

(** [sort_by_key(Ordered::key)]. *)
Definition key_leb {A} (x y : Ordered A) : bool := order_leb (ordered_key x) (ordered_key y).
Definition sort_family {A} (items : list (Ordered A)) : list (Ordered A) := sort_stable key_leb items.

(** [bound_family]: the family, and whether something was dropped. *)
Definition bound_family {A} (bytes : list (Ordered A) → option N) (items : list (Ordered A)) : list (Ordered A) * bool :=
  pop_excess bytes (sort_family items).

(** What is done with each family after a change. *)
Class Limits := {
  limit_answers : list (Ordered VerifiedAnswer) → list (Ordered VerifiedAnswer) * bool;
  limit_messages : list (Ordered RetainedUserMessage) → list (Ordered RetainedUserMessage) * bool;
}.

(** The limits of the code, and the reference that only sorts. *)
Definition code_limits `{RetainedSizes} : Limits :=
  {| limit_answers := bound_family answers_bytes; limit_messages := bound_family messages_bytes |}.
Definition no_limits : Limits :=
  {| limit_answers l := (sort_family l, false); limit_messages l := (sort_family l, false) |}.

(** [RetainedUserMessage::bound]. *)
Definition message_bound `{RetainedSizes} (m : RetainedUserMessage) : RetainedUserMessage :=
  if over MAX_RECORD_BYTES (message_bytes m) then
    {| ru_turn_id := floor_char_prefix 1024 (ru_turn_id m);
       ru_message_id := floor_char_prefix 1024 <$> ru_message_id m; ru_text := []; ru_complete := false |}
  else m.

(** [RetainedContextEvent::bound], on the answer. *)
Definition answer_bound `{RetainedSizes} (a : VerifiedAnswer) : VerifiedAnswer :=
  if over MAX_RECORD_BYTES (answer_bytes a) then
    {| va_turn_id := floor_char_prefix 1024 (va_turn_id a); va_call_id := floor_char_prefix 1024 (va_call_id a);
       va_questions := [] |}
  else a.

Section Operations.
Context `{RS : RetainedSizes} `{L : Limits}.
Implicit Types (c : RetainedContext).

Definition set_next_order c (n : N) : RetainedContext :=
  {| verified_answers := verified_answers c; verified_answers_incomplete := verified_answers_incomplete c;
     user_messages := user_messages c; user_messages_incomplete := user_messages_incomplete c; next_order := n |}.
Definition set_answers c (l : list (Ordered VerifiedAnswer)) (incomplete : bool) : RetainedContext :=
  {| verified_answers := l; verified_answers_incomplete := incomplete; user_messages := user_messages c;
     user_messages_incomplete := user_messages_incomplete c; next_order := next_order c |}.
Definition set_messages c (l : list (Ordered RetainedUserMessage)) (incomplete : bool) : RetainedContext :=
  {| verified_answers := verified_answers c; verified_answers_incomplete := verified_answers_incomplete c;
     user_messages := l; user_messages_incomplete := incomplete; next_order := next_order c |}.

(** [bound_family(&mut self.verified_answers, ...)] and of the messages. *)
Definition bound_answers c : RetainedContext :=
  let '(l, dropped) := limit_answers (verified_answers c) in
  set_answers c l (verified_answers_incomplete c || dropped).
Definition bound_messages c : RetainedContext :=
  let '(l, dropped) := limit_messages (user_messages c) in
  set_messages c l (user_messages_incomplete c || dropped).

Definition reserve_order c : N * RetainedContext := (next_order c, set_next_order c (u64_succ (next_order c))).

Definition record_order (acceptance : option N) c : N * RetainedContext :=
  let order := default (next_order c) acceptance in
  (order, set_next_order c (N.max (next_order c) (u64_succ order))).

Definition verified_answers_complete c : bool :=
  negb (verified_answers_incomplete c)
  && forallb (λ a, negb (bool_decide (va_questions (value a) = []))) (verified_answers c).

Definition has_missing_user_messages c : bool := user_messages_incomplete c.

Definition user_messages_complete c : bool :=
  negb (has_missing_user_messages c) && forallb (λ m, ru_complete (value m)) (user_messages c).

Definition mark_user_messages_incomplete c : RetainedContext := set_messages c (user_messages c) true.

Definition has_inherited_user_messages c : bool := existsb inherited (user_messages c).

(** [ordered_entries]. *)
Definition ordered_entries c : list (RetainedContextOrder * RetainedContextEntry) :=
  sort_stable (λ x y, order_leb x.1 y.1)
    (map (λ a, (ordered_key a, VerifiedAnswerEntry (value a))) (verified_answers c)
     ++ map (λ m, (ordered_key m, UserMessageEntry (value m))) (user_messages c)).

(** The first record that [p] holds of, and the records without it. *)
Fixpoint take_out {A} (p : A → bool) (l : list A) : option (A * list A) :=
  match l with
  | [] => None
  | x :: l' => if p x then Some (x, l') else (λ '(y, l''), (y, x :: l'')) <$> take_out p l'
  end.

Definition same_message (m : RetainedUserMessage) (e : Ordered RetainedUserMessage) : bool :=
  bool_decide (is_Some (ru_message_id m)) && bool_decide (ru_message_id (value e) = ru_message_id m).

(** The order of an inherited message: after the inherited ones there are. *)
Definition inherited_order (l : list (Ordered RetainedUserMessage)) : N :=
  foldr (λ e n, if inherited e then N.max (u64_succ (order e)) n else n) 0%N l.

(** The part of [record_user_message] after the lookup of the same message. *)
Definition push_user_message (message : RetainedUserMessage) (source : RetainedInputSource) c : RetainedContext :=
  let is_inherited := bool_decide (source = SourceInherited) in
  let '(order, c) :=
    if is_inherited then (inherited_order (user_messages c), c) else record_order (acceptance_order source) c in
  bound_messages
    (set_messages c (user_messages c ++ [{| inherited := is_inherited; order := order; value := message |}])
       (user_messages_incomplete c)).

Definition record_user_message (message : RetainedUserMessage) (source : RetainedInputSource) c : RetainedContext :=
  let message := message_bound message in
  let is_inherited := bool_decide (source = SourceInherited) in
  let c := set_answers c (verified_answers c) (verified_answers_incomplete c || is_inherited) in
  match take_out (same_message message) (user_messages c) with
  | Some (e, l) =>
      if bool_decide (value e = message) && bool_decide (inherited e = is_inherited) then c
      else push_user_message message source (set_messages c l (user_messages_incomplete c))
  | None => push_user_message message source c
  end.

(** One message of [recover_user_message_excerpts]. *)
Definition recover_excerpt (excerpt_for_id : str → option str) (e : Ordered RetainedUserMessage)
    : Ordered RetainedUserMessage :=
  let m := value e in
  if bool_decide (ru_text m = []) && negb (ru_complete m) then
    match ru_message_id m ≫= excerpt_for_id with
    | Some text =>
        {| inherited := inherited e; order := order e;
           value := message_bound {| ru_turn_id := ru_turn_id m; ru_message_id := ru_message_id m; ru_text := text;
                                     ru_complete := ru_complete m |} |}
    | None => e
    end
  else e.

Definition recover_user_message_excerpts (excerpt_for_id : str → option str) c : RetainedContext :=
  bound_messages (set_messages c (map (recover_excerpt excerpt_for_id) (user_messages c)) (user_messages_incomplete c)).

Definition same_answer (a : VerifiedAnswer) (e : Ordered VerifiedAnswer) : bool :=
  bool_decide (va_turn_id (value e) = va_turn_id a) && bool_decide (va_call_id (value e) = va_call_id a).

(** The part of [record] after the lookup of the same answer. *)
Definition push_answer (answer : VerifiedAnswer) (acceptance : option N) c : RetainedContext :=
  let '(order, c) := record_order acceptance c in
  bound_answers
    (set_answers c (verified_answers c ++ [{| inherited := false; order := order; value := answer |}])
       (verified_answers_incomplete c)).

(** [record]: whether the context changed. *)
Definition record (event : RetainedContextEvent) c : bool * RetainedContext :=
  let answer := answer_bound (event_answer event) in
  match take_out (same_answer answer) (verified_answers c) with
  | Some (e, l) =>
      if bool_decide (value e = answer) then (false, c)
      else (true, push_answer answer (event_acceptance_order event) (set_answers c l (verified_answers_incomplete c)))
  | None => (true, push_answer answer (event_acceptance_order event) c)
  end.

(** [self.next_order = self.next_order.max(order.saturating_add(1))]. *)
Definition advance_order c (order : N) : RetainedContext := set_next_order c (N.max (next_order c) (u64_succ order)).

Definition bound_value {A} (f : A → A) (e : Ordered A) : Ordered A :=
  {| inherited := inherited e; order := order e; value := f (value e) |}.

Definition restore_checkpoint (checkpoint : option RetainedContext) `{IP : ItemPayloads}
    (surviving_items : list ResponseItemEnvelope) : RetainedContext :=
  let c := default (set_messages retained_default [] true) checkpoint in
  let c := foldl advance_order c (map order (verified_answers c)) in
  let c := set_answers c (map (bound_value answer_bound) (verified_answers c)) (verified_answers_incomplete c) in
  let c := foldl advance_order c (map order (List.filter (λ e, negb (inherited e)) (user_messages c))) in
  let c := set_answers c (verified_answers c) (verified_answers_incomplete c || existsb inherited (user_messages c)) in
  let c := set_messages c (map (bound_value message_bound) (user_messages c)) (user_messages_incomplete c) in
  let orders :=
    omap (λ i, m ← metadata i; if hm_inherited_user_message m then None else hm_user_input_order m) surviving_items in
  bound_messages (bound_answers (foldl advance_order c orders)).

Definition retain_answers (keep : VerifiedAnswer → bool) c : RetainedContext :=
  set_answers c (List.filter (λ a, keep (value a)) (verified_answers c)) (verified_answers_incomplete c).

(** The boundary that [rollback] finds. *)
Definition rollback_boundary (first_removed_message_id : option str) (source : RetainedInputSource) c
    : option RetainedContextOrder :=
  match acceptance_order source with
  | Some n => Some (OrderLocal n)
  | None =>
      id ← first_removed_message_id;
      ordered_key <$> List.find (λ m, bool_decide (ru_message_id (value m) = Some id)) (user_messages c)
  end.

Definition rollback (turn_ids : list str) (first_removed_message_id : option str) (source : RetainedInputSource) c
    : RetainedContext :=
  match rollback_boundary first_removed_message_id source c with
  | Some boundary =>
      let before {A} (e : Ordered A) := order_ltb (ordered_key e) boundary in
      set_messages (set_answers c (List.filter before (verified_answers c)) (verified_answers_incomplete c))
        (List.filter before (user_messages c)) (user_messages_incomplete c)
  | None =>
      let in_turns (id : str) := bool_decide (id ∈ turn_ids) in
      let is_inherited := bool_decide (source = SourceInherited) in
      let incomplete :=
        user_messages_incomplete c || bool_decide (is_Some first_removed_message_id)
        || existsb (λ m, in_turns (ru_turn_id (value m))) (user_messages c) in
      set_messages
        (set_answers c (List.filter (λ a, negb is_inherited && negb (in_turns (va_turn_id (value a)))) (verified_answers c))
           (verified_answers_incomplete c))
        (List.filter (λ m, (negb is_inherited || inherited m) && negb (in_turns (ru_turn_id (value m)))) (user_messages c))
        incomplete
  end.

End Operations.

(** ** Completion from the live history *)

Section Reconcile.
Implicit Types (m : RetainedUserMessage).

Definition matches_source (message : RetainedUserMessage) (entry : RetainedContextEntry) : bool :=
  match entry with
  | UserMessageEntry retained =>
      match ru_message_id retained with
      | Some id => bool_decide (ru_message_id message = Some id)
      | None => bool_decide (ru_turn_id message = ru_turn_id retained) && bool_decide (ru_text message = ru_text retained)
      end
  | VerifiedAnswerEntry _ => false
  end.

(** The first entry with the message's source that no earlier message has matched. *)
Fixpoint find_unmatched (message : RetainedUserMessage) (matched : list nat) (i : nat)
    (entries : list (RetainedContextOrder * RetainedContextEntry)) : option nat :=
  match entries with
  | [] => None
  | e :: entries' =>
      if matches_source message e.2 && negb (bool_decide (i ∈ matched)) then Some i
      else find_unmatched message matched (S i) entries'
  end.

Record ReconcileState := {
  matched_entries : list nat;
  used_orders : list RetainedContextOrder;
  recovered : list (RetainedContextOrder * RetainedUserMessage);
  missing_user_messages : bool;
}.

(** One live message. *)
Definition reconcile_step (entries : list (RetainedContextOrder * RetainedContextEntry)) (st : ReconcileState)
    (live : option N * RetainedUserMessage) : ReconcileState :=
  let '(order, message) := live in
  match find_unmatched message (matched_entries st) 0 entries with
  | Some i => {| matched_entries := i :: matched_entries st; used_orders := used_orders st;
                 recovered := recovered st; missing_user_messages := missing_user_messages st |}
  | None =>
      match order with
      | Some n =>
          if bool_decide (OrderLocal n ∈ used_orders st) then
            {| matched_entries := matched_entries st; used_orders := used_orders st; recovered := recovered st;
               missing_user_messages := true |}
          else
            {| matched_entries := matched_entries st; used_orders := OrderLocal n :: used_orders st;
               recovered := recovered st ++ [(OrderLocal n, message)];
               missing_user_messages := missing_user_messages st |}
      | None => {| matched_entries := matched_entries st; used_orders := used_orders st; recovered := recovered st;
                   missing_user_messages := true |}
      end
  end.

(** The entries of a checkpoint that may be missing. *)
Definition context_entries (c : option RetainedContext) : list (RetainedContextOrder * RetainedContextEntry) :=
  from_option ordered_entries [] c.

(** [ReconciledRetainedContext::new]. *)
Definition reconcile (c : option RetainedContext) (live_messages : list (option N * RetainedUserMessage))
    : ReconcileState :=
  let entries := context_entries c in
  let st := {| matched_entries := []; used_orders := map fst entries; recovered := [];
               missing_user_messages := from_option has_missing_user_messages true c |} in
  if from_option (λ c, negb (user_messages_complete c)) true c then foldl (reconcile_step entries) st live_messages
  else st.

(** [ReconciledRetainedContext::ordered_entries]. *)
Definition reconciled_entries (c : option RetainedContext) (st : ReconcileState)
    : list (RetainedContextOrder * RetainedContextEntry) :=
  sort_stable (λ x y, order_leb x.1 y.1)
    (context_entries c ++ map (λ '(order, message), (order, UserMessageEntry message)) (recovered st)).

End Reconcile.

(** ** Changes of a context *)

Inductive RetainedOp `{IP : ItemPayloads} :=
  | OpReserve
  | OpMessage (m : RetainedUserMessage) (source : RetainedInputSource)
  | OpAnswer (event : RetainedContextEvent)
  | OpMarkIncomplete
  | OpRecover (excerpt_for_id : str → option str)
  | OpRetain (keep : VerifiedAnswer → bool)
  | OpRollback (turn_ids : list str) (first_removed : option str) (source : RetainedInputSource)
  | OpRestore (checkpoint : option RetainedContext) (surviving : list ResponseItemEnvelope).

Definition retained_step `{RetainedSizes} `{IP : ItemPayloads} (L : Limits) (op : RetainedOp) (c : RetainedContext)
    : RetainedContext :=
  match op with
  | OpReserve => (reserve_order c).2
  | OpMessage m source => record_user_message m source c
  | OpAnswer event => (record event c).2
  | OpMarkIncomplete => mark_user_messages_incomplete c
  | OpRecover f => recover_user_message_excerpts f c
  | OpRetain keep => retain_answers keep c
  | OpRollback ids first source => rollback ids first source c
  | OpRestore checkpoint surviving => restore_checkpoint checkpoint surviving
  end.

Definition retained_run `{RetainedSizes} `{IP : ItemPayloads} (L : Limits) (ops : list RetainedOp) (c : RetainedContext)
    : RetainedContext := foldl (λ c op, retained_step L op c) c ops.

(** ** Facts *)

Section Facts.
Context `{RS : RetainedSizes} `{IP : ItemPayloads}.
Implicit Types (c : RetainedContext).

Lemma order_leb_total a b : order_leb a b = true ∨ order_leb b a = true.
Proof. destruct a, b; simpl; auto; rewrite !N.leb_le; lia. Qed.
Lemma order_leb_trans a b d : order_leb a b = true → order_leb b d = true → order_leb a d = true.
Proof. destruct a, b, d; simpl; try done; rewrite !N.leb_le; lia. Qed.
Lemma order_ltb_leb a b : order_ltb a b = true → order_leb a b = true.
Proof. unfold order_ltb. destruct (order_leb_total a b) as [|H]; [done|]. by rewrite H. Qed.

Definition sorted_family {A} (l : list (Ordered A)) : Prop := StronglySorted (le_rel key_leb) l.

Lemma sort_family_sorted {A} (l : list (Ordered A)) : sorted_family (sort_family l).
Proof. apply sort_stable_sorted; intros; [apply order_leb_total|by eapply order_leb_trans]. Qed.

Lemma StronglySorted_filter {A} (R : relation A) (f : A → bool) l :
  StronglySorted R l → StronglySorted R (List.filter f l).
Proof.
  induction 1 as [|x l Hs IH Hx]; simpl; [constructor|]. destruct (f x); [|done]. constructor; [done|].
  apply Forall_forall. intros y [Hy _]%list_elem_of_In%filter_In. rewrite Forall_forall in Hx.
  apply Hx. by apply list_elem_of_In.
Qed.

Lemma StronglySorted_drop {A} (R : relation A) n l : StronglySorted R l → StronglySorted R (drop n l).
Proof. intros H. rewrite <- (take_drop n l) in H. by apply StronglySorted_app_1_r in H. Qed.

(** What is dropped comes first, and is marked. *)
Lemma pop_excess_drop {A} (bytes : list (Ordered A) → option N) l :
  ∃ n, pop_excess bytes l = (drop n l, bool_decide (n ≠ 0)) ∧ (n = 0 ∨ n ≤ length l).
Proof.
  induction l as [|x l (n & Hn & Hl)]; simpl; [exists 0; by split; [|left]|]. case_match.
  - exists (S n). simpl. rewrite Hn. split; [done|]. right. lia.
  - exists 0. by split; [|left].
Qed.

(** What is left is within the limits. *)
Definition within {A} (bytes : list (Ordered A) → option N) (l : list (Ordered A)) : Prop :=
  length l ≤ MAX_FAMILY_RECORDS ∧ (l = [] ∨ ∃ n, bytes l = Some n ∧ (n ≤ MAX_FAMILY_BYTES)%N).

Lemma pop_excess_within {A} (bytes : list (Ordered A) → option N) l : within bytes (pop_excess bytes l).1.
Proof.
  induction l as [|x l IH]; simpl; [split; [simpl; lia|by left]|]. case_match eqn:H; [done|].
  apply orb_false_iff in H as [H1%Nat.ltb_ge H2]. cbn [fst]. split; [done|]. right. unfold over in H2.
  destruct (bytes (x :: l)) as [n|]; [|done]. exists n. split; [done|]. by apply N.ltb_ge.
Qed.

Lemma bound_family_sorted {A} (bytes : list (Ordered A) → option N) l : sorted_family (bound_family bytes l).1.
Proof.
  unfold bound_family. destruct (pop_excess_drop bytes (sort_family l)) as (n & -> & _).
  apply StronglySorted_drop, sort_family_sorted.
Qed.

Lemma bound_family_elem {A} (bytes : list (Ordered A) → option N) l e : e ∈ (bound_family bytes l).1 → e ∈ l.
Proof.
  unfold bound_family. destruct (pop_excess_drop bytes (sort_family l)) as (n & -> & _). simpl. intros He.
  assert (H : e ∈ sort_family l) by (rewrite <- (take_drop n); apply elem_of_app; by right).
  unfold sort_family in H. by rewrite sort_stable_perm in H.
Qed.

(** *** Every context is within its limits *)

(** A record within the limit of one record, or stripped of its contents. *)
Class RecordLimit A := record_ok : A → Prop.
#[local] Instance answer_limit : RecordLimit VerifiedAnswer := λ a,
  over MAX_RECORD_BYTES (answer_bytes a) = true → va_questions a = [].
#[local] Instance message_limit : RecordLimit RetainedUserMessage := λ m,
  over MAX_RECORD_BYTES (message_bytes m) = true → ru_text m = [] ∧ ru_complete m = false.

Lemma answer_bound_ok a : record_ok (answer_bound a).
Proof. unfold record_ok, answer_limit, answer_bound. destruct (over _ (answer_bytes a)) eqn:H; [done|congruence]. Qed.
Lemma message_bound_ok m : record_ok (message_bound m).
Proof. unfold record_ok, message_limit, message_bound. destruct (over _ (message_bytes m)) eqn:H; [done|congruence]. Qed.

(** The records are within their limit, and [n] is beyond every local order, until the
    counter is at its end. *)
Definition records_ok `{!RecordLimit A} (n : N) (l : list (Ordered A)) : Prop :=
  ∀ e, e ∈ l → record_ok (value e) ∧ (inherited e = false → (u64_succ (order e) ≤ n)%N).

(** A family is sorted and within its limits. *)
Definition family_ok `{!RecordLimit A} (bytes : list (Ordered A) → option N) (n : N) (l : list (Ordered A)) : Prop :=
  sorted_family l ∧ within bytes l ∧ records_ok n l.

Record retained_ok c : Prop := {
  ok_answers : family_ok answers_bytes (next_order c) (verified_answers c);
  ok_messages : family_ok messages_bytes (next_order c) (user_messages c);
}.

(** Fewer records are not longer. *)
Class LawfulSizes : Prop := {
  answers_bytes_fewer l l' n : l' `sublist_of` l → answers_bytes l = Some n → ∃ m, answers_bytes l' = Some m ∧ (m ≤ n)%N;
  messages_bytes_fewer l l' n : l' `sublist_of` l → messages_bytes l = Some n → ∃ m, messages_bytes l' = Some m ∧ (m ≤ n)%N;
}.

Lemma filter_all_true {A} l : List.filter (λ _ : A, true) l = l.
Proof. induction l as [|x l IH]; simpl; [done|]. by rewrite IH. Qed.
Lemma filter_sublist {A} (f : A → bool) l : List.filter f l `sublist_of` l.
Proof. induction l as [|x l IH]; simpl; [constructor|]. destruct (f x); by constructor. Qed.

Lemma within_fewer {A} (bytes : list (Ordered A) → option N) l l' :
  (∀ l l' n, l' `sublist_of` l → bytes l = Some n → ∃ m, bytes l' = Some m ∧ (m ≤ n)%N) →
  l' `sublist_of` l → within bytes l → within bytes l'.
Proof.
  intros Hf Hs [Hl Hb]. split; [apply sublist_length in Hs; lia|]. destruct Hb as [->|(n & Hn & Hle)].
  - left. by apply sublist_nil_r in Hs.
  - right. destruct (Hf _ _ _ Hs Hn) as (m & Hm & ?). exists m. split; [done|lia].
Qed.

Lemma family_ok_filter `{!RecordLimit A} (bytes : list (Ordered A) → option N) (f : Ordered A → bool) n l :
  (∀ l l' n, l' `sublist_of` l → bytes l = Some n → ∃ m, bytes l' = Some m ∧ (m ≤ n)%N) →
  family_ok bytes n l → family_ok bytes n (List.filter f l).
Proof.
  intros Hf (H1 & H2 & H3). split; [by apply StronglySorted_filter|]. split.
  - eapply within_fewer; [exact Hf|apply filter_sublist|done].
  - intros e He%list_elem_of_In%filter_In. apply H3. apply list_elem_of_In. tauto.
Qed.

Lemma bound_family_ok `{!RecordLimit A} (bytes : list (Ordered A) → option N) n l :
  records_ok n l → family_ok bytes n (bound_family bytes l).1.
Proof.
  intros Hn. split; [apply bound_family_sorted|]. split; [apply pop_excess_within|].
  intros e He. by apply Hn, (bound_family_elem bytes).
Qed.

Lemma records_ok_more `{!RecordLimit A} n n' (l : list (Ordered A)) : (n ≤ n')%N → records_ok n l → records_ok n' l.
Proof. intros Hn H e He. destruct (H e He) as [? Ho]. split; [done|]. intros Hi. specialize (Ho Hi). lia. Qed.
Lemma family_ok_more `{!RecordLimit A} (bytes : list (Ordered A) → option N) n n' l :
  (n ≤ n')%N → family_ok bytes n l → family_ok bytes n' l.
Proof. intros Hn (H1 & H2 & H3). split; [done|]. split; [done|]. by eapply records_ok_more. Qed.

Lemma records_ok_snoc `{!RecordLimit A} n (l : list (Ordered A)) e :
  records_ok n l → record_ok (value e) → (inherited e = false → (u64_succ (order e) ≤ n)%N) → records_ok n (l ++ [e]).
Proof. intros H He Ho e' [He'| ->%list_elem_of_singleton]%elem_of_app; auto. Qed.

Lemma bound_messages_ok c :
  family_ok answers_bytes (next_order c) (verified_answers c) → records_ok (next_order c) (user_messages c) →
  retained_ok (bound_messages (L := code_limits) c).
Proof.
  intros Ha Hm%(bound_family_ok messages_bytes). unfold bound_messages. cbn [limit_messages code_limits].
  destruct (bound_family messages_bytes (user_messages c)) as [l d]. by split.
Qed.

Lemma bound_answers_ok c :
  family_ok messages_bytes (next_order c) (user_messages c) → records_ok (next_order c) (verified_answers c) →
  retained_ok (bound_answers (L := code_limits) c).
Proof.
  intros Hm Ha%(bound_family_ok answers_bytes). unfold bound_answers. cbn [limit_answers code_limits].
  destruct (bound_family answers_bytes (verified_answers c)) as [l d]. by split.
Qed.

Lemma take_out_spec {A} (p : A → bool) l x l' : take_out p l = Some (x, l') → ∃ l1 l2, l = l1 ++ x :: l2 ∧ l' = l1 ++ l2 ∧ p x = true.
Proof.
  revert l'. induction l as [|y l IH]; intros l'; simpl; [done|]. destruct (p y) eqn:Hp.
  - intros [= -> ->]. by exists [], l'.
  - destruct (take_out p l) as [[z l'']|]; [|done]. intros [= -> <-]. destruct (IH _ eq_refl) as (l1 & l2 & -> & -> & ?).
    by exists (y :: l1), l2.
Qed.

Lemma records_ok_take_out `{!RecordLimit A} (p : Ordered A → bool) n l x l' :
  take_out p l = Some (x, l') → records_ok n l → records_ok n l'.
Proof.
  intros (l1 & l2 & -> & -> & _)%take_out_spec H e He. apply H. apply elem_of_app in He as [He|He]; apply elem_of_app; [by left|].
  right. by right.
Qed.

Lemma push_message_ok m source c :
  record_ok m → family_ok answers_bytes (next_order c) (verified_answers c) → records_ok (next_order c) (user_messages c) →
  retained_ok (push_user_message (L := code_limits) m source c).
Proof.
  intros Hok Ha Hm. unfold push_user_message. case_bool_decide as Hs; [|unfold record_order]; apply bound_messages_ok; cbn.
  - done.
  - by apply records_ok_snoc.
  - eapply family_ok_more; [|done]. lia.
  - apply records_ok_snoc; [eapply records_ok_more; [|done]|done|intros _; cbn]; lia.
Qed.

Lemma push_answer_ok a acceptance c :
  record_ok a → family_ok messages_bytes (next_order c) (user_messages c) → records_ok (next_order c) (verified_answers c) →
  retained_ok (push_answer (L := code_limits) a acceptance c).
Proof.
  intros Hok Hm Ha. unfold push_answer, record_order. apply bound_answers_ok; cbn.
  - eapply family_ok_more; [|done]. lia.
  - apply records_ok_snoc; [eapply records_ok_more; [|done]|done|intros _; cbn]; lia.
Qed.

Lemma advance_all orders c :
  let c' := foldl advance_order c orders in
  verified_answers c' = verified_answers c ∧ user_messages c' = user_messages c ∧
  verified_answers_incomplete c' = verified_answers_incomplete c ∧
  user_messages_incomplete c' = user_messages_incomplete c ∧
  (next_order c ≤ next_order c')%N ∧ ∀ o, o ∈ orders → (u64_succ o ≤ next_order c')%N.
Proof.
  revert c. induction orders as [|o orders IH]; intros c; simpl.
  { do 4 (split; [done|]). split; [lia|]. by intros o ?%not_elem_of_nil. }
  destruct (IH (advance_order c o)) as (-> & -> & -> & -> & Hn & Ho). do 4 (split; [done|]). simpl in Hn. split; [lia|].
  intros o' [->|Ho']%elem_of_cons; [lia|auto].
Qed.

Lemma restore_ok checkpoint (surviving : list ResponseItemEnvelope) :
  retained_ok (restore_checkpoint (L := code_limits) checkpoint surviving).
Proof.
  unfold restore_checkpoint. set (c0 := default _ checkpoint). cbv zeta.
  destruct (advance_all (map order (verified_answers c0)) c0) as (A1 & A2 & _ & _ & A5 & A6).
  set (c1 := foldl advance_order c0 _) in *. set (c2 := set_answers c1 _ _). 
  destruct (advance_all (map order (List.filter (λ e, negb (inherited e)) (user_messages c2))) c2) as (B1 & B2 & _ & _ & B5 & B6).
  set (c3 := foldl advance_order c2 _) in *. set (c4 := set_answers c3 _ _). set (c5 := set_messages c4 _ _).
  match goal with |- context [foldl advance_order c5 ?l] => set (orders := l) end.
  destruct (advance_all orders c5) as (C1 & C2 & _ & _ & C5 & _).
  set (c6 := foldl advance_order c5 orders) in *. simpl in *.
  assert (Ha : records_ok (next_order c6) (verified_answers c6)).
  { rewrite C1, B1, A1. intros e (e0 & -> & He0)%list_elem_of_fmap. split; [apply answer_bound_ok|]. intros _. cbn.
    assert (H : order e0 ∈ map order (verified_answers c0)) by (by apply list_elem_of_fmap_2). specialize (A6 _ H). lia. }
  assert (Hm : records_ok (next_order c6) (user_messages c6)).
  { rewrite C2, B2. intros e (e0 & -> & He0)%list_elem_of_fmap. split; [apply message_bound_ok|]. intros Hi. cbn in *.
    assert (H : order e0 ∈ map order (List.filter (λ e, negb (inherited e)) (user_messages c1))).
    { apply list_elem_of_fmap_2, list_elem_of_In, filter_In. rewrite Hi. split; [by apply list_elem_of_In|done]. }
    specialize (B6 _ H). lia. }
  apply (bound_family_ok answers_bytes) in Ha. apply bound_messages_ok; unfold bound_answers; cbn [limit_answers code_limits];
    by destruct (bound_family answers_bytes (verified_answers c6)).
Qed.

Lemma record_message_ok m source c : retained_ok c → retained_ok (record_user_message (L := code_limits) m source c).
Proof.
  intros [Ha Hm]. unfold record_user_message. cbv zeta.
  destruct (take_out _ _) as [[e l]|] eqn:E; [case_match; [done|]|]; apply push_message_ok; try done.
  all: try apply message_bound_ok; try apply Hm.
  eapply records_ok_take_out; [exact E|apply Hm].
Qed.

Lemma record_answer_ok event c : retained_ok c → retained_ok (record (L := code_limits) event c).2.
Proof.
  intros [Ha Hm]. unfold record. cbv zeta.
  destruct (take_out _ _) as [[e l]|] eqn:E; [case_match; [done|]|]; cbn [snd]; apply push_answer_ok; try done.
  all: try apply answer_bound_ok; try apply Ha.
  eapply records_ok_take_out; [exact E|apply Ha].
Qed.

Lemma recover_excerpt_ok f e :
  record_ok (value e) →
  record_ok (value (recover_excerpt f e)) ∧ inherited (recover_excerpt f e) = inherited e ∧
  order (recover_excerpt f e) = order e.
Proof. intros He. unfold recover_excerpt. case_match; [|done]. case_match; [|done]. split; [apply message_bound_ok|done]. Qed.

Lemma recover_ok f c : retained_ok c → retained_ok (recover_user_message_excerpts (L := code_limits) f c).
Proof.
  intros [Ha (_ & _ & Hm)]. apply bound_messages_ok; [done|]. intros e (e0 & -> & He0)%list_elem_of_fmap.
  destruct (Hm e0 He0) as [Hok Ho]. destruct (recover_excerpt_ok f e0 Hok) as (H1 & -> & ->). by split.
Qed.

Lemma retained_step_ok `{!LawfulSizes} op c : retained_ok c → retained_ok (retained_step code_limits op c).
Proof.
  intros Hok. pose proof Hok as [Ha Hm]. destruct op; simpl.
  - split; (eapply family_ok_more; [|done]); apply u64_succ_ge.
  - by apply record_message_ok.
  - by apply record_answer_ok.
  - by split.
  - by apply recover_ok.
  - split; [|done]. apply family_ok_filter; [apply answers_bytes_fewer|done].
  - unfold rollback. cbv zeta.
    case_match; (split; apply family_ok_filter; [apply answers_bytes_fewer|done|apply messages_bytes_fewer|done]).
  - apply restore_ok.
Qed.

(** *** A context without a mark has lost nothing *)

Definition unmarked c : bool := negb (verified_answers_incomplete c) && negb (user_messages_incomplete c).

Lemma unmarked_spec c : unmarked c = true ↔ verified_answers_incomplete c = false ∧ user_messages_incomplete c = false.
Proof. unfold unmarked. by rewrite andb_true_iff, !negb_true_iff. Qed.

(** Nothing is dropped without a mark. *)
Lemma bound_family_unmarked {A} (bytes : list (Ordered A) → option N) l :
  (bound_family bytes l).2 = false → bound_family bytes l = (sort_family l, false).
Proof.
  unfold bound_family. destruct (pop_excess_drop bytes (sort_family l)) as (n & -> & _). simpl.
  case_bool_decide as H; [done|]. assert (n = 0) as -> by lia. done.
Qed.

Lemma bound_messages_unmarked c :
  unmarked (bound_messages (L := code_limits) c) = true →
  unmarked c = true ∧ bound_messages (L := code_limits) c = bound_messages (L := no_limits) c.
Proof.
  unfold bound_messages. cbn [limit_messages code_limits no_limits]. pose proof (bound_family_unmarked messages_bytes (user_messages c)) as H.
  destruct (bound_family messages_bytes (user_messages c)) as [l d]. rewrite !unmarked_spec. cbn in *.
  intros [H1 [H2 H3]%orb_false_iff]. split; [done|]. by injection (H H3) as -> ->.
Qed.

Lemma bound_answers_unmarked c :
  unmarked (bound_answers (L := code_limits) c) = true →
  unmarked c = true ∧ bound_answers (L := code_limits) c = bound_answers (L := no_limits) c.
Proof.
  unfold bound_answers. cbn [limit_answers code_limits no_limits]. pose proof (bound_family_unmarked answers_bytes (verified_answers c)) as H.
  destruct (bound_family answers_bytes (verified_answers c)) as [l d]. rewrite !unmarked_spec. cbn in *.
  intros [[H1 H3]%orb_false_iff H2]. split; [done|]. by injection (H H3) as -> ->.
Qed.

Lemma push_message_unmarked m source c :
  unmarked (push_user_message (L := code_limits) m source c) = true →
  unmarked c = true ∧ push_user_message (L := code_limits) m source c = push_user_message (L := no_limits) m source c.
Proof.
  unfold push_user_message. case_bool_decide; [|unfold record_order]; intros [Hu E]%bound_messages_unmarked;
    (split; [exact Hu|exact E]).
Qed.

Lemma push_answer_unmarked a acceptance c :
  unmarked (push_answer (L := code_limits) a acceptance c) = true →
  unmarked c = true ∧ push_answer (L := code_limits) a acceptance c = push_answer (L := no_limits) a acceptance c.
Proof. unfold push_answer, record_order. intros [Hu E]%bound_answers_unmarked. split; [exact Hu|exact E]. Qed.

Lemma restore_unmarked checkpoint (surviving : list ResponseItemEnvelope) :
  unmarked (restore_checkpoint (L := code_limits) checkpoint surviving) = true →
  restore_checkpoint (L := code_limits) checkpoint surviving = restore_checkpoint (L := no_limits) checkpoint surviving.
Proof. unfold restore_checkpoint. cbv zeta. intros [[_ <-]%bound_answers_unmarked E]%bound_messages_unmarked. exact E. Qed.

Definition is_restore (op : RetainedOp) : bool := match op with OpRestore _ _ => true | _ => false end.

Lemma unmarked_set_answers c l b : unmarked (set_answers c l (verified_answers_incomplete c || b)) = true → unmarked c = true.
Proof. rewrite !unmarked_spec. cbn. by intros [[? _]%orb_false_iff ?]. Qed.

Lemma retained_step_unmarked op c :
  unmarked (retained_step code_limits op c) = true →
  (is_restore op = false → unmarked c = true) ∧ retained_step code_limits op c = retained_step no_limits op c.
Proof.
  destruct op; cbn [retained_step is_restore]; intros H.
  - done.
  - revert H. unfold record_user_message. cbv zeta.
    destruct (take_out _ _) as [[e l]|]; [case_match|].
    + intros Hu%unmarked_set_answers. done.
    + intros [Hu E]%push_message_unmarked. split; [|exact E]. intros _. exact (unmarked_set_answers c (verified_answers c) _ Hu).
    + intros [Hu E]%push_message_unmarked. split; [|exact E]. intros _. exact (unmarked_set_answers c (verified_answers c) _ Hu).
  - revert H. unfold record. cbv zeta. destruct (take_out _ _) as [[e l]|]; [case_match|]; cbn [snd].
    + done.
    + intros [Hu E]%push_answer_unmarked. split; [|exact E]. done.
    + intros [Hu E]%push_answer_unmarked. split; [|exact E]. done.
  - by apply unmarked_spec in H as [_ H].
  - revert H. unfold recover_user_message_excerpts. intros [Hu E]%bound_messages_unmarked. by split.
  - done.
  - split; [|done]. intros _. revert H. unfold rollback. cbv zeta. case_match; [done|]. rewrite !unmarked_spec. cbn.
    by intros [? [[? _]%orb_false_iff _]%orb_false_iff].
  - split; [done|]. by apply restore_unmarked.
Qed.

Lemma retained_run_snoc L ops op c : retained_run L (ops ++ [op]) c = retained_step L op (retained_run L ops c).
Proof. unfold retained_run. by rewrite foldl_app. Qed.

(** *** A rollback to an order that was reserved *)

(** Keys of the owning thread from [n] on. *)
Definition from_order {A} (n : N) (e : Ordered A) : Prop := order_ltb (ordered_key e) (OrderLocal n) = false.
Definition before_order {A} (n : N) (e : Ordered A) : Prop := order_ltb (ordered_key e) (OrderLocal n) = true.

Lemma before_from_le {A} n (x y : Ordered A) : before_order n x → from_order n y → key_leb x y = true.
Proof.
  unfold before_order, from_order, key_leb. intros Hx%order_ltb_leb Hy%negb_false_iff. by eapply order_leb_trans.
Qed.

(** A family that holds what is left of [old], and newer records. *)
Definition grown {A} (n : N) (old l : list (Ordered A)) (incomplete : bool) : Prop :=
  ∃ k new, l = drop k old ++ new ∧ Forall (from_order n) new ∧ (k ≠ 0 → incomplete = true).

(** [old] is sorted and before [n]. *)
Definition settled {A} (n : N) (old : list (Ordered A)) : Prop := sorted_family old ∧ Forall (before_order n) old.

Lemma grown_refl {A} n (old : list (Ordered A)) b : grown n old old b.
Proof. exists 0, []. rewrite app_nil_r. by split. Qed.

Lemma grown_snoc {A} n (old l : list (Ordered A)) b e : grown n old l b → from_order n e → grown n old (l ++ [e]) b.
Proof.
  intros (k & new & -> & Hnew & Hb) He. exists k, (new ++ [e]). rewrite (assoc_L (++)). split; [done|]. split; [|done].
  apply Forall_app. by split; [|constructor].
Qed.

Lemma grown_mark {A} n (old l : list (Ordered A)) b b' : grown n old l b → grown n old l (b || b').
Proof. intros (k & new & ? & ? & Hb). exists k, new. split; [done|]. split; [done|]. intros Hk. by rewrite Hb. Qed.

Lemma grown_bound {A} (bytes : list (Ordered A) → option N) n old l b :
  settled n old → grown n old l b → grown n old (bound_family bytes l).1 (b || (bound_family bytes l).2).
Proof.
  intros [Hs Ho] (k & new & -> & Hnew & Hb). unfold bound_family.
  assert (Hsort : sort_family (drop k old ++ new) = drop k old ++ sort_family new).
  { apply sort_stable_app; [by apply StronglySorted_drop|]. intros x y Hx Hy. apply (before_from_le n).
    - rewrite Forall_forall in Ho. apply Ho. rewrite <- (take_drop k). apply elem_of_app. by right.
    - rewrite Forall_forall in Hnew. by apply Hnew. }
  rewrite Hsort. destruct (pop_excess_drop bytes (drop k old ++ sort_family new)) as (j & -> & _). cbn [fst snd].
  exists (k + j), (drop (j - length (drop k old)) (sort_family new)). rewrite drop_app, drop_drop. split; [done|]. split.
  - apply Forall_drop. unfold sort_family. by rewrite sort_stable_perm.
  - intros Hkj. destruct (decide (k = 0)) as [->|Hk]; [|by rewrite Hb]. apply orb_true_iff. right.
    apply bool_decide_eq_true. lia.
Qed.

(** No record of [old] is taken out. *)
Lemma take_out_app {A} (p : A → bool) l l' :
  Forall (λ x, p x = false) l → take_out p (l ++ l') = (λ '(x, l''), (x, l ++ l'')) <$> take_out p l'.
Proof.
  induction 1 as [|x l Hx Hl IH]; simpl; [by destruct (take_out p l') as [[]|]|]. rewrite Hx, IH.
  by destruct (take_out p l') as [[]|].
Qed.

Lemma grown_take_out {A} (p : Ordered A → bool) n old l b x l' :
  Forall (λ e, p e = false) old → grown n old l b → take_out p l = Some (x, l') → grown n old l' b.
Proof.
  intros Hp (k & new & -> & Hnew & Hb). rewrite take_out_app by (by apply Forall_drop).
  destruct (take_out p new) as [[y new']|] eqn:E; [|done]. intros [= -> <-]. exists k, new'. split; [done|]. split; [|done].
  apply take_out_spec in E as (l1 & l2 & -> & -> & _). apply Forall_app in Hnew as [H1 [_ H2]%Forall_cons]. by apply Forall_app.
Qed.

Lemma grown_rollback {A} n (old l : list (Ordered A)) b :
  settled n old → grown n old l b →
  ∃ k, List.filter (λ e, order_ltb (ordered_key e) (OrderLocal n)) l = drop k old ∧ (k ≠ 0 → b = true).
Proof.
  intros [_ Ho] (k & new & -> & Hnew & Hb). exists k. split; [|done]. rewrite List.filter_app.
  assert (H1 : List.filter (λ e, order_ltb (ordered_key e) (OrderLocal n)) new = []).
  { induction Hnew as [|x new Hx _ IH]; simpl; [done|]. by rewrite Hx. }
  rewrite H1, app_nil_r. apply (Forall_drop _ k) in Ho. induction Ho as [|x l Hx _ IH]; simpl; [done|].
  by rewrite Hx, IH.
Qed.

(** A recording, from any source and of anything. *)
Definition is_recording (op : RetainedOp) : bool :=
  match op with OpReserve | OpMessage _ _ | OpAnswer _ | OpMarkIncomplete => true | _ => false end.

(** A recording of the owning thread, of something that [c] does not hold, and that was
    not accepted before [n]: the common case, of which more can be said. *)
Definition not_before (n : N) (o : option N) : bool := match o with Some x => (n <=? x)%N | None => true end.
Definition later_op (n : N) c (op : RetainedOp) : bool :=
  match op with
  | OpReserve | OpMarkIncomplete => true
  | OpMessage m (SourceLocal o) => not_before n o && forallb (λ e, negb (same_message (message_bound m) e)) (user_messages c)
  | OpAnswer event =>
      not_before n (event_acceptance_order event)
      && forallb (λ e, negb (same_answer (answer_bound (event_answer event)) e)) (verified_answers c)
  | _ => false
  end.

Lemma forallb_negb {A} (p : A → bool) l : forallb (λ x, negb (p x)) l = true → Forall (λ x, p x = false) l.
Proof. rewrite forallb_forall, Forall_forall. intros H x Hx%list_elem_of_In. by apply negb_true_iff, H. Qed.

(** What the recordings since [c] leave of it. *)
Definition grown_context (n : N) c c' : Prop :=
  (n ≤ next_order c')%N ∧
  grown n (verified_answers c) (verified_answers c') (verified_answers_incomplete c') ∧
  grown n (user_messages c) (user_messages c') (user_messages_incomplete c').

Lemma record_order_from n o c {A} (v : A) :
  (n ≤ next_order c)%N → not_before n o = true →
  from_order n {| inherited := false; order := (record_order o c).1; value := v |} ∧ (n ≤ next_order (record_order o c).2)%N.
Proof.
  intros Hc Ho. unfold from_order, order_ltb. cbn. split; [|lia]. apply negb_false_iff, N.leb_le.
  destruct o as [x|]; simpl in *; [by apply N.leb_le|done].
Qed.

Lemma grown_bound_messages n c c' :
  settled n (user_messages c) → grown_context n c c' → grown_context n c (bound_messages (L := code_limits) c').
Proof.
  intros Hs (Hn & Ha & Hm%(grown_bound messages_bytes _ _ _ _ Hs)). unfold bound_messages. cbn [limit_messages code_limits].
  by destruct (bound_family messages_bytes (user_messages c')) as [l d].
Qed.

Lemma grown_bound_answers n c c' :
  settled n (verified_answers c) → grown_context n c c' → grown_context n c (bound_answers (L := code_limits) c').
Proof.
  intros Hs (Hn & Ha%(grown_bound answers_bytes _ _ _ _ Hs) & Hm). unfold bound_answers. cbn [limit_answers code_limits].
  by destruct (bound_family answers_bytes (verified_answers c')) as [l d].
Qed.

Lemma grown_push_message n c m o c' :
  settled n (user_messages c) → not_before n o = true → grown_context n c c' →
  grown_context n c (push_user_message (L := code_limits) m (SourceLocal o) c').
Proof.
  intros Hs Ho (Hn & Ha & Hm). unfold push_user_message. rewrite bool_decide_eq_false_2 by done. cbn [acceptance_order].
  destruct (record_order_from n o c' m Hn Ho) as [Hf Hn']. apply grown_bound_messages; [done|].
  split; [exact Hn'|]. split; [exact Ha|]. by apply grown_snoc.
Qed.

Lemma grown_push_answer n c a o c' :
  settled n (verified_answers c) → not_before n o = true → grown_context n c c' →
  grown_context n c (push_answer (L := code_limits) a o c').
Proof.
  intros Hs Ho (Hn & Ha & Hm). unfold push_answer.
  destruct (record_order_from n o c' a Hn Ho) as [Hf Hn']. apply grown_bound_answers; [done|].
  split; [exact Hn'|]. split; [|exact Hm]. by apply grown_snoc.
Qed.

Lemma grown_step n c op c' :
  settled n (verified_answers c) → settled n (user_messages c) → later_op n c op = true → grown_context n c c' →
  grown_context n c (retained_step code_limits op c').
Proof.
  intros Hsa Hsm Hop Hc. pose proof Hc as (Hn & Ha & Hm). destruct op as [|m source|event| | | | |]; try done; cbn [later_op retained_step] in *.
  - split; [|done]. cbn. pose proof (u64_succ_ge (next_order c')). lia.
  - destruct source as [o|]; [|done]. apply andb_true_iff in Hop as [Ho Hf%forallb_negb].
    unfold record_user_message. cbv zeta. rewrite bool_decide_eq_false_2, orb_false_r by done.
    destruct (take_out _ _) as [[e l]|] eqn:E; [case_match; [done|]|]; apply grown_push_message; try done.
    split; [done|]. split; [done|]. by eapply grown_take_out.
  - apply andb_true_iff in Hop as [Ho Hf%forallb_negb]. unfold record. cbv zeta.
    destruct (take_out _ _) as [[e l]|] eqn:E; [case_match; [done|]|]; cbn [snd]; apply grown_push_answer; try done.
    split; [done|]. split; [|done]. by eapply grown_take_out.
  - split; [done|]. split; [done|]. cbn. destruct Hm as (k & new & ? & ? & _). by exists k, new.
Qed.

Lemma grown_run n c ops c' :
  settled n (verified_answers c) → settled n (user_messages c) → forallb (later_op n c) ops = true →
  grown_context n c c' → grown_context n c (retained_run code_limits ops c').
Proof.
  intros Hsa Hsm. revert c'. induction ops as [|op ops IH]; intros c'; [done|]. intros [H1 H2]%andb_true_iff Hc.
  apply (IH (retained_step code_limits op c')); [done|]. by apply grown_step.
Qed.

Lemma family_settled `{!RecordLimit A} (bytes : list (Ordered A) → option N) n l :
  (n < USIZE_MAX)%N → family_ok bytes n l → settled n l.
Proof.
  intros Hn (Hs & _ & Ho). split; [done|]. apply Forall_forall. intros e He. unfold before_order, order_ltb, ordered_key.
  destruct (Ho e He) as [_ Hoe]. destruct (inherited e) eqn:Hi; [done|]. specialize (Hoe eq_refl). unfold u64_succ in Hoe.
  apply negb_true_iff. cbn. apply N.leb_gt. case_match eqn:Hlt; [lia|]. apply N.ltb_ge in Hlt. lia.
Qed.

Lemma retained_run_ok `{!LawfulSizes} ops c : retained_ok c → retained_ok (retained_run code_limits ops c).
Proof.
  revert c. induction ops as [|op ops IH]; intros c Hc; [done|].
  apply (IH (retained_step code_limits op c)), retained_step_ok, Hc.
Qed.

Lemma family_ok_nil `{!RecordLimit A} (bytes : list (Ordered A) → option N) n : family_ok bytes n [].
Proof. split; [constructor|]. split; [split; [simpl; lia|by left]|]. by intros e ?%not_elem_of_nil. Qed.
Lemma default_ok : retained_ok retained_default.
Proof. split; apply family_ok_nil. Qed.

(** *** A rollback after any recordings *)

(** What the recordings [ops] bring from before [n]: a message or an answer that was
    accepted under an earlier order, and an inherited message. *)
Definition recorded_early (n : N) (ops : list RetainedOp) (e : Ordered RetainedUserMessage) : Prop :=
  ∃ m source, OpMessage m source ∈ ops ∧ value e = message_bound m
    ∧ match source with
      | SourceInherited => inherited e = true
      | SourceLocal o => inherited e = false ∧ o = Some (order e) ∧ (order e < n)%N
      end.
Definition answered_early (n : N) (ops : list RetainedOp) (e : Ordered VerifiedAnswer) : Prop :=
  ∃ event, OpAnswer event ∈ ops ∧ value e = answer_bound (event_answer event)
    ∧ inherited e = false ∧ event_acceptance_order event = Some (order e) ∧ (order e < n)%N.

(** The recordings [ops] have the source of the record, with another content. *)
Definition recorded_again (ops : list RetainedOp) (e : Ordered RetainedUserMessage) : Prop :=
  ∃ m source, OpMessage m source ∈ ops ∧ same_message (message_bound m) e = true
    ∧ (value e ≠ message_bound m ∨ inherited e ≠ bool_decide (source = SourceInherited)).
Definition answered_again (ops : list RetainedOp) (e : Ordered VerifiedAnswer) : Prop :=
  ∃ event, OpAnswer event ∈ ops ∧ same_answer (answer_bound (event_answer event)) e = true
    ∧ value e ≠ answer_bound (event_answer event).

(** What became of the family [old]: each record there is comes from it, is from [n]
    on or is [early]; each one of it is there, unless the family is marked or the
    record was made [again]. *)
Record recorded {A} (n : N) (early again : Ordered A → Prop) (old l : list (Ordered A)) (incomplete : bool) : Prop := {
  recorded_new e : e ∈ l → from_order n e ∨ e ∈ old ∨ early e;
  recorded_old e : e ∈ old → e ∈ l ∨ incomplete = true ∨ again e;
}.

(** The same after the rollback to [n], which leaves nothing from [n] on. *)
Record rolled_back {A} (n : N) (early again : Ordered A → Prop) (old l : list (Ordered A)) (incomplete : bool) : Prop := {
  rolled_back_before : Forall (before_order n) l;
  rolled_back_new e : e ∈ l → e ∈ old ∨ early e;
  rolled_back_old e : e ∈ old → e ∈ l ∨ incomplete = true ∨ again e;
}.

Lemma recorded_refl {A} n early again (old : list (Ordered A)) b : recorded n early again old old b.
Proof. split; auto. Qed.

Lemma recorded_rollback {A} n early again (old l : list (Ordered A)) b :
  settled n old → recorded n early again old l b →
  rolled_back n early again old (List.filter (λ e, order_ltb (ordered_key e) (OrderLocal n)) l) b.
Proof.
  intros [_ Ho] [Hn Hold]. rewrite Forall_forall in Ho. split.
  - apply Forall_forall. by intros e [_ He]%list_elem_of_In%filter_In.
  - intros e [He%list_elem_of_In Hb]%list_elem_of_In%filter_In. destruct (Hn e He) as [Hf|]; [|done].
    unfold from_order in Hf. congruence.
  - intros e He. destruct (Hold e He) as [Hl|]; [left|by right]. apply list_elem_of_In, filter_In.
    split; [by apply list_elem_of_In|by apply Ho].
Qed.

Lemma recorded_bound {A} (bytes : list (Ordered A) → option N) n early again old l b :
  recorded n early again old l b →
  recorded n early again old (bound_family bytes l).1 (b || (bound_family bytes l).2).
Proof.
  intros [Hn Hold]. split.
  - intros e He%bound_family_elem. auto.
  - intros e He. destruct (Hold e He) as [Hl|[->|]]; [|by auto..].
    destruct (bound_family bytes l).2 eqn:Hd; [rewrite orb_true_r; auto|].
    apply bound_family_unmarked in Hd as ->. left. cbn. unfold sort_family. by rewrite sort_stable_perm.
Qed.

Lemma recorded_snoc {A} n early again (old l : list (Ordered A)) b e :
  recorded n early again old l b → from_order n e ∨ early e → recorded n early again old (l ++ [e]) b.
Proof.
  intros [Hn Hold] He. split.
  - intros x [Hx| ->%list_elem_of_singleton]%elem_of_app; [auto|]. tauto.
  - intros x Hx. destruct (Hold x Hx) as [Hl|]; [|by right]. left. apply elem_of_app. by left.
Qed.

Lemma recorded_take_out {A} (p : Ordered A → bool) n early again (old l : list (Ordered A)) b x l' :
  recorded n early again old l b → take_out p l = Some (x, l') → (p x = true → again x) → recorded n early again old l' b.
Proof.
  intros [Hn Hold] (l1 & l2 & -> & -> & Hp)%take_out_spec Ha. split.
  - intros e He. apply Hn. rewrite elem_of_app in *. rewrite elem_of_cons. tauto.
  - intros e He. destruct (Hold e He) as [Hl|]; [|by auto]. rewrite elem_of_app, elem_of_cons in Hl. rewrite elem_of_app.
    destruct Hl as [?|[->|?]]; auto.
Qed.

(** The two families, and the counter beyond [n]. *)
Definition recorded_context (n : N) (ops : list RetainedOp) c c' : Prop :=
  (n ≤ next_order c')%N
  ∧ recorded n (answered_early n ops) (answered_again ops) (verified_answers c) (verified_answers c') (verified_answers_incomplete c')
  ∧ recorded n (recorded_early n ops) (recorded_again ops) (user_messages c) (user_messages c') (user_messages_incomplete c').

Lemma recorded_bound_messages n ops c c' :
  recorded_context n ops c c' → recorded_context n ops c (bound_messages (L := code_limits) c').
Proof.
  intros (Hn & Ha & Hm%(recorded_bound messages_bytes)). unfold bound_messages. cbn [limit_messages code_limits].
  by destruct (bound_family messages_bytes (user_messages c')) as [l d].
Qed.

Lemma recorded_bound_answers n ops c c' :
  recorded_context n ops c c' → recorded_context n ops c (bound_answers (L := code_limits) c').
Proof.
  intros (Hn & Ha%(recorded_bound answers_bytes) & Hm). unfold bound_answers. cbn [limit_answers code_limits].
  by destruct (bound_family answers_bytes (verified_answers c')) as [l d].
Qed.

Lemma local_from_order {A} n o (v : A) :
  (n ≤ o)%N → from_order n {| inherited := false; order := o; value := v |}.
Proof. intros H. unfold from_order, order_ltb. cbn. by apply negb_false_iff, N.leb_le. Qed.

Lemma recorded_push_message n ops c c' m source :
  OpMessage m source ∈ ops → recorded_context n ops c c' →
  recorded_context n ops c (push_user_message (L := code_limits) (message_bound m) source c').
Proof.
  intros Hop (Hn & Ha & Hm). unfold push_user_message.
  case_bool_decide as Hs; [subst source|unfold record_order]; apply recorded_bound_messages.
  - split; [exact Hn|]. split; [exact Ha|]. apply recorded_snoc; [exact Hm|]. right. by exists m, SourceInherited.
  - destruct source as [o|]; [|done]. cbn [acceptance_order]. split; [cbn; lia|]. split; [exact Ha|].
    apply recorded_snoc; [exact Hm|]. destruct (decide (n ≤ default (next_order c') o)%N) as [Hle|Hlt];
      [left; by apply local_from_order|right]. exists m, (SourceLocal o). split; [done|]. split; [done|].
    destruct o as [x|]; cbn in *; [|lia]. split; [done|]. split; [done|lia].
Qed.

Lemma recorded_push_answer n ops c c' event :
  OpAnswer event ∈ ops → recorded_context n ops c c' →
  recorded_context n ops c
    (push_answer (L := code_limits) (answer_bound (event_answer event)) (event_acceptance_order event) c').
Proof.
  intros Hop (Hn & Ha & Hm). unfold push_answer, record_order. apply recorded_bound_answers.
  split; [cbn; lia|]. split; [|exact Hm]. apply recorded_snoc; [exact Ha|].
  destruct (decide (n ≤ default (next_order c') (event_acceptance_order event))%N) as [Hle|Hlt];
    [left; by apply local_from_order|right]. exists event. split; [done|]. split; [done|].
  destruct (event_acceptance_order event) as [x|]; cbn in *; [|lia]. split; [done|]. split; [done|lia].
Qed.

Lemma recorded_step n ops c op c' :
  op ∈ ops → is_recording op = true → recorded_context n ops c c' → recorded_context n ops c (retained_step code_limits op c').
Proof.
  intros Hop Hr Hc. pose proof Hc as (Hn & Ha & Hm). destruct op as [|m source|event| | | | |]; try done; cbn [retained_step].
  - split; [|done]. cbn. pose proof (u64_succ_ge (next_order c')). lia.
  - unfold record_user_message. cbv zeta.
    assert (Hc' : recorded_context n ops c
      (set_answers c' (verified_answers c') (verified_answers_incomplete c' || bool_decide (source = SourceInherited)))).
    { split; [done|]. split; [|done]. destruct Ha as [H1 H2]. split; [done|]. intros e He.
      destruct (H2 e He) as [?|[->|?]]; auto. }
    destruct (take_out _ _) as [[e l]|] eqn:E; [case_match eqn:Hsame; [done|]|]; apply recorded_push_message; try done.
    destruct Hc' as (Hn' & Ha' & _). split; [done|]. split; [done|]. eapply recorded_take_out; [exact Hm|exact E|].
    intros Hp. exists m, source. split; [done|]. split; [done|].
    apply andb_false_iff in Hsame as [H%bool_decide_eq_false|H%bool_decide_eq_false]; auto.
  - unfold record. cbv zeta.
    destruct (take_out _ _) as [[e l]|] eqn:E; [case_match eqn:Hsame; [done|]|]; cbn [snd]; apply recorded_push_answer; try done.
    apply bool_decide_eq_false in Hsame. split; [done|]. split; [|done]. eapply recorded_take_out; [exact Ha|exact E|].
    intros Hp. by exists event.
  - split; [done|]. split; [done|]. cbn. destruct Hm as [H1 H2]. split; [done|]. auto.
Qed.

Lemma recorded_run n all ops c c' :
  (∀ op, op ∈ ops → op ∈ all) → forallb is_recording ops = true →
  recorded_context n all c c' → recorded_context n all c (retained_run code_limits ops c').
Proof.
  revert c'. induction ops as [|op ops IH]; intros c' Hin; [done|]. intros [H1 H2]%andb_true_iff Hc.
  apply (IH (retained_step code_limits op c')); [intros x Hx; apply Hin; by right|done|].
  apply recorded_step; [apply Hin; by left|done|done].
Qed.

(** *** A completed reconciliation *)

Lemma find_unmatched_some message matched i entries j :
  find_unmatched message matched i entries = Some j →
  (j ∉ matched) ∧ ∃ k e, j = (i + k)%nat ∧ entries !! k = Some e ∧ matches_source message e.2 = true.
Proof.
  revert i. induction entries as [|e entries IH]; intros i; simpl; [done|]. case_match eqn:H.
  - apply andb_true_iff in H as [H1 H2%negb_true_iff%bool_decide_eq_false]. intros [= <-]. split; [done|].
    exists 0, e. split; [lia|]. by split.
  - intros (Hj & k & e' & -> & ? & ?)%IH. split; [done|]. exists (S k), e'. split; [lia|]. by split.
Qed.

(** The live messages [ml] match the entries of the indices, each its own, and the
    live messages [rl] are recovered under orders of their own. *)
Record accounted (entries : list (RetainedContextOrder * RetainedContextEntry)) (lives : list (option N * RetainedUserMessage))
    (st : ReconcileState) (ml : list (option N * RetainedUserMessage)) (rl : list (N * RetainedUserMessage)) : Prop := {
  acc_lives : lives ≡ₚ ml ++ map (λ '(n, m), (Some n, m)) rl;
  acc_matched : Forall2 (λ i l, ∃ e, entries !! i = Some e ∧ matches_source l.2 e.2 = true) (matched_entries st) ml;
  acc_once : NoDup (matched_entries st);
  acc_recovered : recovered st = map (λ '(n, m), (OrderLocal n, m)) rl;
  acc_orders : NoDup (map fst rl);
  acc_free : Forall (λ n, OrderLocal n ∉ map fst entries) (map fst rl);
}.

Lemma reconcile_missing entries lives st :
  missing_user_messages st = true → missing_user_messages (foldl (reconcile_step entries) st lives) = true.
Proof.
  revert st. induction lives as [|[o m] lives IH]; intros st Hst; simpl; [done|]. apply IH. repeat case_match; done.
Qed.

Lemma reconcile_step_accounted entries lives st ml rl o m :
  accounted entries lives st ml rl →
  (∀ x, x ∈ used_orders st ↔ x ∈ map fst entries ∨ ∃ n, x = OrderLocal n ∧ n ∈ map fst rl) →
  missing_user_messages (reconcile_step entries st (o, m)) = false →
  ∃ ml' rl', accounted entries (lives ++ [(o, m)]) (reconcile_step entries st (o, m)) ml' rl' ∧
    (∀ x, x ∈ used_orders (reconcile_step entries st (o, m)) ↔ x ∈ map fst entries ∨ ∃ n, x = OrderLocal n ∧ n ∈ map fst rl').
Proof.
  intros [A1 A2 A3 A4 A5 A6] Hu. unfold reconcile_step. destruct (find_unmatched _ _ _ _) as [i|] eqn:Hi.
  - intros _. apply find_unmatched_some in Hi as (Hni & k & e & -> & He & Hm). exists ((o, m) :: ml), rl.
    split; [|done]. split; cbn; try done.
    + rewrite A1. by rewrite (comm (++)).
    + constructor; [by exists e|done].
    + by constructor.
  - destruct o as [n|]; [|done]. case_bool_decide as Hn; [done|]. cbn. intros Hmiss.
    assert (Hfree : (OrderLocal n ∉ map fst entries) ∧ (n ∉ map fst rl)).
    { split; intros H; apply Hn, Hu; [by left|right; by exists n]. }
    exists ml, (rl ++ [(n, m)]). split.
    + split; cbn; rewrite ?map_app; cbn; try done.
      * by rewrite A1, (assoc_L (++)).
      * by rewrite A4.
      * apply NoDup_app. split; [done|]. split; [|apply NoDup_singleton]. intros x Hx ->%list_elem_of_singleton. by apply Hfree.
      * apply Forall_app. split; [done|]. constructor; [apply Hfree|constructor].
    + intros x. rewrite elem_of_cons, Hu, map_app. setoid_rewrite elem_of_app. cbn. setoid_rewrite list_elem_of_singleton.
      naive_solver.
Qed.

Lemma reconcile_accounted entries lives st :
  used_orders st = map fst entries → matched_entries st = [] → recovered st = [] →
  missing_user_messages (foldl (reconcile_step entries) st lives) = false →
  ∃ ml rl, accounted entries lives (foldl (reconcile_step entries) st lives) ml rl ∧
    ∀ x, x ∈ used_orders (foldl (reconcile_step entries) st lives) ↔
         x ∈ map fst entries ∨ ∃ n, x = OrderLocal n ∧ n ∈ map fst rl.
Proof.
  intros Hu Hm Hr. induction lives as [|[o m] lives IH] using rev_ind; intros Hmiss.
  - exists [], []. simpl. split; [|rewrite Hu; intros x; split; [by left|intros [?|(? & _ & []%not_elem_of_nil)]; done]].
    split; simpl; rewrite ?Hm, ?Hr; try done; constructor.
  - rewrite foldl_app in *. cbn [foldl] in *. set (st' := foldl _ st lives) in *.
    destruct (missing_user_messages st') eqn:Hst.
    { pose proof (reconcile_missing entries [(o, m)] st' Hst) as H. cbn [foldl] in H. congruence. }
    destruct (IH eq_refl) as (ml & rl & Hacc & Hus). by eapply reconcile_step_accounted.
Qed.

End Facts.

(** ** Properties *)

Section Properties.
Context `{RS : RetainedSizes} `{IP : ItemPayloads}.

(** C27. Whatever is recorded, recovered, rolled back or restored, every context is
    bounded: each family has at most eight records, is within its limit in bytes and is
    in the order of acceptance, a record over the limit of one record holds no contents,
    and the next order is beyond every order of the thread's own (until the
    counter is at its end, where it stays). *)
Theorem retained_context_bounded `{!LawfulSizes} (ops : list RetainedOp) :
  retained_ok (retained_run code_limits ops retained_default).
Proof. apply retained_run_ok, default_ok. Qed.

(** C24. A context without a mark has lost nothing: after any operations, restores
    included, a context marked incomplete in neither family is exactly the one that the
    same operations build without any limit on the families. *)
Theorem unmarked_context_lost_nothing (ops : list RetainedOp) (c : RetainedContext) :
  unmarked (retained_run code_limits ops c) = true →
  retained_run code_limits ops c = retained_run no_limits ops c.
Proof.
  induction ops as [|op ops IH] using rev_ind; [done|]. rewrite !retained_run_snoc.
  intros [Hu ->]%retained_step_unmarked. destruct (is_restore op) eqn:Hr.
  - by destruct op.
  - by rewrite (IH (Hu eq_refl)).
Qed.

(** C23. A rollback to an order that the thread reserved, before the end of the
    counter, forgets what was accepted from then on, whatever messages and answers were recorded since. Nothing from this order
    on is left. What is left was held when the order was reserved, or was recorded since
    as accepted before it (a late delivery) or as inherited. What was held then is still
    held, unless its source was recorded again with another content, or records were
    evicted, in which case the family is marked. When the recordings since are new ones
    of the thread itself, accepted from the order on, what is left is exactly what was
    held, less the oldest records that were evicted. *)
Theorem rollback_forgets_later_facts `{!LawfulSizes} (before after : list RetainedOp)
    (turn_ids : list str) (first_removed : option str) :
  let c := retained_run code_limits before retained_default in
  let '(n, c1) := reserve_order c in
  (n < USIZE_MAX)%N → forallb is_recording after = true →
  let r := rollback turn_ids first_removed (SourceLocal (Some n)) (retained_run code_limits after c1) in
  rolled_back n (answered_early n after) (answered_again after)
    (verified_answers c) (verified_answers r) (verified_answers_incomplete r) ∧
  rolled_back n (recorded_early n after) (recorded_again after)
    (user_messages c) (user_messages r) (user_messages_incomplete r) ∧
  (forallb (later_op n c) after = true →
   (∃ i, verified_answers r = drop i (verified_answers c) ∧ (i ≠ 0 → verified_answers_incomplete r = true)) ∧
   (∃ j, user_messages r = drop j (user_messages c) ∧ (j ≠ 0 → user_messages_incomplete r = true))).
Proof.
  cbv zeta. set (c := retained_run _ before _). unfold reserve_order. intros Hn Hops.
  destruct (retained_run_ok before _ default_ok) as [Ha%(family_settled _ _ _ Hn) Hm%(family_settled _ _ _ Hn)].
  set (c1 := set_next_order c _).
  assert (Hr : recorded_context (next_order c) after c c1).
  { split; [apply u64_succ_ge|]. split; apply recorded_refl. }
  destruct (recorded_run _ after after c c1 (λ _ H, H) Hops Hr) as (_ & Ra & Rm).
  split; [by apply recorded_rollback|]. split; [by apply recorded_rollback|]. intros Hlater.
  assert (Hc : grown_context (next_order c) c c1) by (split; [apply u64_succ_ge|]; split; apply grown_refl).
  destruct (grown_run _ _ _ _ Ha Hm Hlater Hc) as (_ & Ga & Gm). split; by apply grown_rollback.
Qed.

(** When a reconciliation of incomplete instructions reports none missing, every
    live message is accounted for once: it has the source of a retained message that no
    other live message was matched to, or it was recovered under an order of its own that no
    retained record has; and nothing else was recovered. *)
Theorem reconciled_messages_accounted (c : option RetainedContext) (live : list (option N * RetainedUserMessage)) :
  from_option (λ c, negb (user_messages_complete c)) true c = true →
  missing_user_messages (reconcile c live) = false →
  from_option has_missing_user_messages true c = false ∧
  ∃ ml rl, accounted (context_entries c) live (reconcile c live) ml rl.
Proof.
  unfold reconcile. intros -> Hmiss. split.
  - apply not_true_is_false. intros H. rewrite reconcile_missing in Hmiss; [done|exact H].
  - apply reconcile_accounted in Hmiss as (ml & rl & H & _); [|done..]. eauto.
Qed.
End Properties.

(** ** A thread *)

(** A size for each record, from its text, and two bytes for the brackets. *)
#[local] Instance text_sizes : RetainedSizes :=
  {| answer_bytes a := Some (N.of_nat (length (va_questions a)));
     message_bytes m := Some (N.of_nat (length (ru_text m)));
     answers_bytes l := Some (2 + N.of_nat (length l))%N;
     messages_bytes l := Some (2 + foldr (λ e n, N.of_nat (length (ru_text (value e))) + n) 0 l)%N |}.

#[local] Instance text_sizes_lawful : LawfulSizes.
Proof.
  split; intros l l' n Hs; cbn; intros [= <-]; (eexists; split; [done|]).
  - apply sublist_length in Hs. lia.
  - apply N.add_le_mono_l. induction Hs; cbn [foldr]; lia.
Qed.

#[local] Instance no_payloads : ItemPayloads :=
  {| Value := unit; Number := unit; MessagePhase := unit; AgentMessageInputContent := unit;
     ReasoningItemReasoningSummary := unit; ReasoningItemContent := unit; LocalShellStatus := unit;
     LocalShellAction := unit; WebSearchAction := unit; ConfigurationReasoning := unit; ImageDetail := unit;
     ExecutedToolCall := unit |}.

Definition sample_message (id text : str) : RetainedUserMessage :=
  {| ru_turn_id := lit "turn"; ru_message_id := Some id; ru_text := text; ru_complete := true |}.
Definition sample_answer (call : str) : RetainedContextEvent :=
  {| event_answer := {| va_turn_id := lit "turn"; va_call_id := call; va_questions := [(lit "deploy?", lit "yes")] |};
     event_acceptance_order := None |}.

(** Two instructions with an answer between them. *)
Definition sample_ops : list RetainedOp :=
  [OpMessage (sample_message (lit "m1") (lit "fix")) (SourceLocal None); OpAnswer (sample_answer (lit "c1"));
   OpMessage (sample_message (lit "m2") (lit "test")) (SourceLocal None)].

(** Nine more, of which the oldest is evicted. *)
Definition sample_more : list RetainedOp :=
  map (λ i, OpMessage (sample_message (repeat 97%N (S i)) (lit "more")) (SourceLocal None)) (seq 0 9).

Example sample_evicted :
  map order (user_messages (retained_run code_limits (sample_ops ++ sample_more) retained_default)) =
    [4; 5; 6; 7; 8; 9; 10; 11]%N ∧
  unmarked (retained_run code_limits (sample_ops ++ sample_more) retained_default) = false.
Proof. vm_compute. by split. Qed.

Lemma retained_context_bounded_witness :
  retained_ok (retained_run code_limits (sample_ops ++ sample_more) retained_default) ∧
  length (user_messages (retained_run code_limits (sample_ops ++ sample_more) retained_default)) = 8.
Proof. split; [apply retained_context_bounded|vm_compute; reflexivity]. Defined.

Lemma unmarked_context_lost_nothing_witness :
  unmarked (retained_run code_limits sample_ops retained_default) = true ∧
  retained_run code_limits sample_ops retained_default = retained_run no_limits sample_ops retained_default.
Proof. split; [vm_compute; reflexivity|]. apply unmarked_context_lost_nothing. vm_compute. reflexivity. Defined.

(** After the order is reserved: nine messages of the thread, one that was accepted
    under the order 0 and is delivered late, and the second instruction again with
    another text. *)
Definition sample_since : list RetainedOp :=
  sample_more ++ [OpMessage (sample_message (lit "late") (lit "wait")) (SourceLocal (Some 0%N));
                  OpMessage (sample_message (lit "m2") (lit "test all")) (SourceLocal None)].

Lemma rollback_forgets_later_facts_witness :
  let c := retained_run code_limits sample_ops retained_default in
  let '(n, c1) := reserve_order c in
  let r := rollback [] None (SourceLocal (Some n)) (retained_run code_limits sample_since c1) in
  rolled_back n (answered_early n sample_since) (answered_again sample_since)
    (verified_answers c) (verified_answers r) (verified_answers_incomplete r) ∧
  rolled_back n (recorded_early n sample_since) (recorded_again sample_since)
    (user_messages c) (user_messages r) (user_messages_incomplete r).
Proof.
  pose proof (rollback_forgets_later_facts sample_ops sample_since [] None) as H. cbv zeta in *. unfold reserve_order in *.
  destruct H as (H1 & H2 & _); [vm_compute; reflexivity..|]. split; [exact H1|exact H2].
Defined.

(** A late delivery outlives the rollback, though nothing of it was held when the order
    was reserved; a record made again with another text is lost without a mark. *)
Example late_delivery_survives :
  let c := retained_run code_limits sample_ops retained_default in
  let '(n, c1) := reserve_order c in
  let run ops := rollback [] None (SourceLocal (Some n)) (retained_run code_limits ops c1) in
  let late := run [OpMessage (sample_message (lit "late") (lit "wait")) (SourceLocal (Some 0%N))] in
  let again := run [OpMessage (sample_message (lit "m2") (lit "test all")) (SourceLocal None)] in
  map (λ e, ru_message_id (value e)) (user_messages late) = [Some (lit "m1"); Some (lit "late"); Some (lit "m2")]
  ∧ map (λ e, ru_message_id (value e)) (user_messages again) = [Some (lit "m1")] ∧ unmarked again = true.
Proof. vm_compute. by split_and!. Qed.

(** A checkpoint whose first instruction was stripped, and a live one after it. *)
Definition sample_stripped : RetainedContext :=
  retained_run code_limits
    [OpMessage {| ru_turn_id := lit "turn"; ru_message_id := Some (lit "m1"); ru_text := []; ru_complete := false |}
       (SourceLocal (Some 0%N))] retained_default.

Lemma reconciled_messages_accounted_witness :
  let live := [(Some 0%N, sample_message (lit "m1") (lit "fix")); (Some 1%N, sample_message (lit "m2") (lit "test"))] in
  from_option has_missing_user_messages true (Some sample_stripped) = false ∧
  ∃ ml rl, accounted (context_entries (Some sample_stripped)) live (reconcile (Some sample_stripped) live) ml rl.
Proof. apply reconciled_messages_accounted; vm_compute; reflexivity. Defined.
