(* ===== verification/Guardian.v ===== *)
(** * Evidence for the guardian

    Models [guardian-context/src/history.rs], [cursor.rs], [profile.rs] and
    [profile/window.rs]: the bounded history that a reviewer of actions sees, the
    cursor that lets it continue from what it has reviewed, and the selection of the
    entries of a transcript. [serde_json], which writes an item in pieces, is the class
    [Serialization]; a counter of bytes or tokens is an [N]. *)

From stdpp Require Import pretty.
From S2P Require Import Prelude RustStr Truncate ResponseItem.
Open Scope list_scope.

(** ** [history.rs] *)

Definition MAX_ITEMS_PER_KIND : nat := 128.
Definition MAX_BYTES_PER_KIND : N := 4194304.
Definition EXECUTED_TOOL_CALL_METADATA_FIELD_BYTES : N := blen ([34%N] ++ lit "executed_tool_calls" ++ [34%N; 58%N]).
Definition INTERNAL_CHAT_MESSAGE_METADATA_PASSTHROUGH_FIELD_BYTES : N :=
  blen ([34%N] ++ lit "internal_chat_message_metadata_passthrough" ++ [34%N; 58%N]).

(** The lengths of the pieces that [serde_json::to_writer] writes; [None] when it fails
    by itself. [item_size] is [size_of::<ResponseItem>()], and [item_eqb] the derived
    [PartialEq]. *)
Class Serialization `{IP : ItemPayloads} := {
  item_size : N;
  item_eqb : ResponseItem → ResponseItem → bool;
  item_writes : ResponseItem → option (list N);
  reasoning_writes : option (list ReasoningItemContent) → option (list N);
  header_writes : option ResponseItemId → str → option MessagePhase →
                  option InternalChatMessageMetadataPassthrough → option (list N);
  content_writes : ContentItem → option (list N);
  calls_writes : list ExecutedToolCall → option (list N);
  metadata_writes : InternalChatMessageMetadataPassthrough → option (list N);
}.

Section History.
Context `{IP : ItemPayloads} `{SZ : !Serialization}.
Implicit Types (i : ResponseItem).

(** [serde_json::to_vec(..).map(|v| v.len())]. *)
Definition written_bytes (writes : option (list N)) : option N := foldr N.add 0%N <$> writes.

(** [ResponseItem::internal_chat_message_metadata_passthrough]. *)
Definition item_metadata (i : ResponseItem) : option InternalChatMessageMetadataPassthrough :=
  match i with
  | Message _ _ _ _ m | AgentMessage _ _ _ _ m | Reasoning _ _ _ _ m | LocalShellCall _ _ _ _ m
  | FunctionCall _ _ _ _ _ _ m | ToolSearchCall _ _ _ _ _ m | FunctionCallOutput _ _ _ _ _ m
  | CustomToolCall _ _ _ _ _ _ m | CustomToolCallOutput _ _ _ _ m | ToolSearchOutput _ _ _ _ _ m
  | WebSearchCall _ _ _ m | ImageGenerationCall _ _ _ _ m | Compaction _ _ m | ContextCompaction _ _ m => m
  | AdditionalTools _ _ _ | ConfigurationUpdate _ | CompactionTrigger | OtherItem => None
  end.

(** [ResponseItem::id] and [is_user_message]. *)
Definition response_item_id (i : ResponseItem) : option ResponseItemId :=
  match i with
  | AdditionalTools id _ _ | Message id _ _ _ _ | AgentMessage id _ _ _ _ | LocalShellCall id _ _ _ _
  | FunctionCall id _ _ _ _ _ _ | ToolSearchCall id _ _ _ _ _ | FunctionCallOutput id _ _ _ _ _
  | CustomToolCall id _ _ _ _ _ _ | CustomToolCallOutput id _ _ _ _ | ToolSearchOutput id _ _ _ _ _
  | WebSearchCall id _ _ _ | Reasoning id _ _ _ _ | ImageGenerationCall id _ _ _ _ | Compaction id _ _
  | ContextCompaction id _ _ => id
  | ConfigurationUpdate _ | CompactionTrigger | OtherItem => None
  end.
Definition is_user_message (i : ResponseItem) : bool :=
  match i with Message _ role _ _ _ => bool_decide (role = lit "user") | _ => false end.

(** [executed_tool_call_metadata_field_bytes]. *)
Definition executed_tool_call_metadata_field_bytes (m : InternalChatMessageMetadataPassthrough) : N :=
  let fields := {| meta_turn_id := None; create_time := None; content_item_kinds := None; cell_id := cell_id m;
                   executed_tool_calls := None; tool_calls_complete := tool_calls_complete m |} in
  let bytes := from_option (λ n, (n - 2)%N) USIZE_MAX (written_bytes (metadata_writes fields)) in
  let bytes :=
    if bool_decide (is_Some (executed_tool_calls m)) then
      sat_add (sat_add bytes (if (0 <? bytes)%N then 1 else 0)) EXECUTED_TOOL_CALL_METADATA_FIELD_BYTES
    else bytes in
  if (bytes =? 0)%N then 0%N
  else if bool_decide (is_Some (meta_turn_id m)) || bool_decide (is_Some (create_time m))
          || bool_decide (is_Some (content_item_kinds m)) then (bytes + 1)%N
  else (bytes + INTERNAL_CHAT_MESSAGE_METADATA_PASSTHROUGH_FIELD_BYTES + 3)%N.

Definition executed_tool_call_metadata_bytes (i : ResponseItem) : N :=
  match item_metadata i with
  | None => 0%N
  | Some m =>
      sat_add (from_option (λ calls, default USIZE_MAX (written_bytes (calls_writes calls))) 0%N (executed_tool_calls m))
        (executed_tool_call_metadata_field_bytes m)
  end.

(** [BoundedSize::write], and a serialization into it: the bytes after it, or an error. *)
Definition bounded_write (max_bytes bytes n : N) : option N :=
  if (max_bytes - bytes <? n)%N then None else Some (bytes + n)%N.
Fixpoint bounded_writes (max_bytes : N) (writes : list N) (bytes : N) : option N :=
  match writes with
  | [] => Some bytes
  | n :: writes' => b ← bounded_write max_bytes bytes n; bounded_writes max_bytes writes' b
  end.
Definition to_writer (max_bytes : N) (writes : option (list N)) (bytes : N) : option N :=
  w ← writes; bounded_writes max_bytes w bytes.

Record TranscriptHistory := { items : list (ResponseItem * N); generation : N }.

(** [TranscriptHistory::new]. *)
Definition history_new (g : N) : TranscriptHistory := {| items := []; generation := g |}.

(** The measurement of [record]. *)
Definition measure (i : ResponseItem) : option N :=
  let max_bytes := sat_add MAX_BYTES_PER_KIND (executed_tool_call_metadata_bytes i) in
  b ← to_writer max_bytes (item_writes i) item_size;
  match i with
  | Reasoning _ _ content _ _ => to_writer max_bytes (reasoning_writes content) b
  | _ => Some b
  end.

(** Whether content is an image, and whether it is text. *)
Definition is_image_content (c : ContentItem) : bool := match c with CiInputImage _ _ => true | _ => false end.
Definition is_text_content (c : ContentItem) : bool := match c with CiInputText _ | CiOutputText _ => true | _ => false end.

(** The text of an oversized user message with images, when it fits. *)
Definition text_only (i : ResponseItem) : option ResponseItem :=
  match i with
  | Message id role content phase meta =>
      if bool_decide (role = lit "user") && existsb is_image_content content then
        let max_bytes := sat_add MAX_BYTES_PER_KIND (executed_tool_call_metadata_bytes i) in
        let text := List.filter is_text_content content in
        b ← to_writer max_bytes (header_writes id role phase meta) item_size;
        _ ← foldl (λ b c, n ← b; to_writer max_bytes (content_writes c) n) (Some b) text;
        if bool_decide (text = []) then None else Some (Message id role text phase meta)
      else None
  | _ => None
  end.

(** The [retain] of [record], for the items of one kind: [count] and [bytes] are
    what is left of it, [bytes] with the new item. *)
Fixpoint evict (kind : bool) (retained_count : nat) (count : nat) (bytes : N) (l : list (ResponseItem * N))
    : list (ResponseItem * N) :=
  match l with
  | [] => []
  | (i, size) :: l' =>
      if eqb (is_user_message i) kind && ((retained_count <? count) || (MAX_BYTES_PER_KIND <? bytes)%N)
      then evict kind retained_count (count - 1) (bytes - size) l'
      else (i, size) :: evict kind retained_count count bytes l'
  end.

(** The items of a kind, and their bytes. *)
Definition of_kind (kind : bool) (l : list (ResponseItem * N)) : list (ResponseItem * N) :=
  List.filter (λ e, eqb (is_user_message e.1) kind) l.
Definition bytes_of (l : list (ResponseItem * N)) : N := foldr (λ e n, (e.2 + n)%N) 0%N l.

(** The part of [record] after the measurement. *)
Definition keep_item (i : ResponseItem) (measured : N) (h : TranscriptHistory) : TranscriptHistory :=
  let size := (measured - executed_tool_call_metadata_bytes i)%N in
  let is_user := is_user_message i in
  let count := length (of_kind is_user (items h)) in
  let bytes := (size + bytes_of (of_kind is_user (items h)))%N in
  let h :=
    if (MAX_ITEMS_PER_KIND <=? count) || (MAX_BYTES_PER_KIND <? bytes)%N then
      let retained_count := if is_user then MAX_ITEMS_PER_KIND - 1 else count / 2 in
      {| items := evict is_user retained_count count bytes (items h); generation := u64_succ (generation h) |}
    else h in
  {| items := items h ++ [(i, size)]; generation := generation h |}.

(** [record], which calls itself with the text of an oversized message. *)
Fixpoint record_fuel (fuel : nat) (i : ResponseItem) (h : TranscriptHistory) : TranscriptHistory :=
  match fuel with
  | 0 => h
  | S fuel' =>
      match measure i with
      | Some n => keep_item i n h
      | None => from_option (λ i', record_fuel fuel' i' h) h (text_only i)
      end
  end.
Definition history_record (i : ResponseItem) (h : TranscriptHistory) : TranscriptHistory := record_fuel 2 i h.

(** [reset]. *)
Definition history_reset (new_items : list ResponseItem) (h : TranscriptHistory) : TranscriptHistory :=
  foldl (λ h i, history_record i h) {| items := []; generation := u64_succ (generation h) |} new_items.

(** [truncate_before]. *)
Definition is_boundary (boundary i : ResponseItem) : bool :=
  match response_item_id i, response_item_id boundary with
  | Some a, Some b => bool_decide (a = b)
  | _, _ => false
  end || item_eqb i boundary.
Fixpoint position_of {A} (p : A → bool) (l : list A) : option nat :=
  match l with [] => None | x :: l' => if p x then Some 0 else S <$> position_of p l' end.
Definition truncate_before (boundary : ResponseItem) (h : TranscriptHistory) : TranscriptHistory :=
  {| items := take (default 0 (position_of (λ e, is_boundary boundary e.1) (items h))) (items h);
     generation := u64_succ (generation h) |}.

(** Changes of a history. *)
Inductive HistoryOp := HRecord (i : ResponseItem) | HReset (new_items : list ResponseItem) | HTruncate (boundary : ResponseItem).
Definition history_step (op : HistoryOp) (h : TranscriptHistory) : TranscriptHistory :=
  match op with
  | HRecord i => history_record i h
  | HReset l => history_reset l h
  | HTruncate boundary => truncate_before boundary h
  end.
Definition history_run (ops : list HistoryOp) (h : TranscriptHistory) : TranscriptHistory :=
  foldl (λ h op, history_step op h) h ops.

End History.

(** ** [cursor.rs] *)

Section Cursor.
Context {Entry : Type}.

Record TranscriptCursor := { parent_history_version : N; transcript_entry_count : nat }.
Inductive TranscriptMode := FullMode | DeltaMode (cursor : TranscriptCursor).
Inductive TranscriptSelection := FullSelection (entries : list Entry) | DeltaSelection (entries : list Entry) (offset : nat).

Definition select (mode : TranscriptMode) (entries : list Entry) (version : N) : TranscriptSelection * TranscriptCursor :=
  let next_cursor := {| parent_history_version := version; transcript_entry_count := length entries |} in
  let selection :=
    match mode with
    | DeltaMode cursor =>
        if (parent_history_version cursor =? version)%N && (transcript_entry_count cursor <=? length entries)
        then DeltaSelection (drop (transcript_entry_count cursor) entries) (transcript_entry_count cursor)
        else FullSelection entries
    | FullMode => FullSelection entries
    end in
  (selection, next_cursor).
End Cursor.
Arguments TranscriptSelection : clear implicits.

(** ** Facts about the history *)

Section HistoryFacts.
Context `{IP : ItemPayloads} `{SZ : !Serialization}.
Implicit Types (i : ResponseItem) (l : list (ResponseItem * N)).

Lemma bounded_writes_le max_bytes writes bytes n :
  bounded_writes max_bytes writes bytes = Some n → (bytes ≤ max_bytes)%N → (n ≤ max_bytes)%N.
Proof.
  revert bytes. induction writes as [|w writes IH]; intros bytes; simpl; [by intros [= ->]|].
  unfold bounded_write. destruct (N.ltb_spec (max_bytes - bytes) w); simpl; [done|]. intros H' Hb. apply (IH _ H'). lia.
Qed.

Lemma to_writer_le max_bytes writes bytes n :
  to_writer max_bytes writes bytes = Some n → (bytes ≤ max_bytes)%N → (n ≤ max_bytes)%N.
Proof. unfold to_writer. destruct writes as [w|]; simpl; [apply bounded_writes_le|done]. Qed.

Lemma measure_le i n :
  (item_size ≤ MAX_BYTES_PER_KIND)%N → measure i = Some n → (n - executed_tool_call_metadata_bytes i ≤ MAX_BYTES_PER_KIND)%N.
Proof.
  intros Hs. unfold measure. set (m := sat_add _ _).
  assert (Hm : (item_size ≤ m ∧ m - executed_tool_call_metadata_bytes i ≤ MAX_BYTES_PER_KIND)%N).
  { unfold m, sat_add, MAX_BYTES_PER_KIND, USIZE_MAX in *. lia. }
  destruct (to_writer m (item_writes i) item_size) as [b|] eqn:Hb; simpl; [|done].
  apply to_writer_le in Hb; [|lia]. intros Hn.
  assert (n ≤ m)%N; [|lia]. destruct i; (injection Hn as <- || apply to_writer_le in Hn); done.
Qed.

(** [own], of one kind, with a new item of the size [size]. *)
Definition fits (count : nat) (size : N) (own : list (ResponseItem * N)) : Prop :=
  length own ≤ count ∧ (size + bytes_of own ≤ MAX_BYTES_PER_KIND)%N.

Lemma evict_fits k rc size l :
  fits rc size (of_kind k l) → evict k rc (length (of_kind k l)) (size + bytes_of (of_kind k l)) l = l.
Proof.
  intros [H1 H2]. generalize dependent (length (of_kind k l)). intros c Hc.
  generalize dependent (size + bytes_of (of_kind k l))%N. intros b Hb.
  induction l as [|[i s] l IH]; simpl; [done|].
  assert ((rc <? c) || (MAX_BYTES_PER_KIND <? b)%N = false) as ->.
  { apply orb_false_iff. split; [by apply Nat.ltb_ge|by apply N.ltb_ge]. }
  by rewrite andb_false_r, IH.
Qed.

Lemma of_kind_cons k i s l :
  of_kind k ((i, s) :: l) = if eqb (is_user_message i) k then (i, s) :: of_kind k l else of_kind k l.
Proof. done. Qed.

(** As few of the oldest items of the kind as need to go, and none of the other. *)
Lemma evict_spec k rc size l :
  (size ≤ MAX_BYTES_PER_KIND)%N →
  let r := evict k rc (length (of_kind k l)) (size + bytes_of (of_kind k l)) l in
  of_kind (negb k) r = of_kind (negb k) l ∧
  ∃ d, of_kind k r = drop d (of_kind k l) ∧ fits rc size (of_kind k r) ∧
       ∀ d', d' < d → ¬ fits rc size (drop d' (of_kind k l)).
Proof.
  intros Hs. cbv zeta. induction l as [|[i s] l (IH1 & d & IH2 & IH3 & IH4)].
  { split; [done|]. exists 0. split; [done|]. split; [|lia]. split; simpl; [lia|]. by rewrite N.add_0_r. }
  rewrite !of_kind_cons. destruct (eqb (is_user_message i) k) eqn:Hk.
  - apply eqb_prop in Hk. assert (Hnk : eqb (is_user_message i) (negb k) = false) by (rewrite Hk; by destruct k).
    rewrite Hnk. destruct ((rc <? length ((i, s) :: of_kind k l)) || (MAX_BYTES_PER_KIND <? size + bytes_of ((i, s) :: of_kind k l))%N) eqn:Hc.
    + assert (Hnf : ¬ fits rc size ((i, s) :: of_kind k l)).
      { intros [F1 F2]. apply orb_true_iff in Hc as [Hc%Nat.ltb_lt|Hc%N.ltb_lt]; lia. }
      cbn [evict]. rewrite Hk, eqb_reflx, Hc. cbn [andb length bytes_of foldr snd].
      replace (S (length (of_kind k l)) - 1) with (length (of_kind k l)) by lia.
      replace (size + (s + foldr (λ (e : ResponseItem * N) n, (e.2 + n)%N) 0%N (of_kind k l)) - s)%N
        with (size + bytes_of (of_kind k l))%N by (unfold bytes_of; lia).
      split; [exact IH1|]. exists (S d). split; [exact IH2|]. split; [exact IH3|].
      intros [|d'] Hd'; [exact Hnf|]. apply IH4. lia.
    + apply orb_false_iff in Hc as [C1%Nat.ltb_ge C2%N.ltb_ge].
      pose proof (evict_fits k rc size ((i, s) :: l)) as He. rewrite of_kind_cons, Hk, eqb_reflx in He.
      rewrite He by done. rewrite !of_kind_cons, Hk, eqb_reflx. rewrite <- Hk at 1. rewrite Hnk.
      split; [done|]. exists 0. split; [done|]. split; [done|lia].
  - assert (Hnk : eqb (is_user_message i) (negb k) = true) by (destruct (is_user_message i), k; done).
    cbn [evict]. rewrite Hk. cbn [andb]. rewrite !of_kind_cons, Hk, Hnk. split; [by f_equal|]. by exists d.
Qed.

Lemma of_kind_app k l l' : of_kind k (l ++ l') = of_kind k l ++ of_kind k l'.
Proof. apply List.filter_app. Qed.
Lemma bytes_of_app l l' : bytes_of (l ++ l') = (bytes_of l + bytes_of l')%N.
Proof. unfold bytes_of. induction l as [|e l IH]; simpl; [done|]. rewrite IH. lia. Qed.

(** How many items of a kind stay when there is no room for a new one. *)
Definition retained_count (is_user : bool) (own : list (ResponseItem * N)) : nat :=
  if is_user then MAX_ITEMS_PER_KIND - 1 else length own / 2.

(** What a kept item does to the items of its kind: nothing when there is room, and
    else the oldest go, as few as make room. *)
Definition kept_own (is_user : bool) (i : ResponseItem) (size : N) (own own' : list (ResponseItem * N)) (evicted : bool) : Prop :=
  ∃ d, own' = drop d own ++ [(i, size)] ∧
       (fits (MAX_ITEMS_PER_KIND - 1) size own → d = 0 ∧ evicted = false) ∧
       (¬ fits (MAX_ITEMS_PER_KIND - 1) size own →
          evicted = true ∧ fits (retained_count is_user own) size (drop d own) ∧
          ∀ d', d' < d → ¬ fits (retained_count is_user own) size (drop d' own)).

Lemma keep_exact i n h :
  (n - executed_tool_call_metadata_bytes i ≤ MAX_BYTES_PER_KIND)%N →
  let k := is_user_message i in
  of_kind (negb k) (items (keep_item i n h)) = of_kind (negb k) (items h) ∧
  ∃ evicted, kept_own k i (n - executed_tool_call_metadata_bytes i) (of_kind k (items h)) (of_kind k (items (keep_item i n h))) evicted ∧
    generation (keep_item i n h) = (if evicted then u64_succ (generation h) else generation h) ∧
    (evicted = false → items (keep_item i n h) = items h ++ [(i, (n - executed_tool_call_metadata_bytes i)%N)]).
Proof.
  intros Hs. cbv zeta. unfold keep_item. set (size := (n - _)%N) in *. set (k := is_user_message i). set (own := of_kind k (items h)).
  assert (Hnew : of_kind (negb k) [(i, size)] = [] ∧ of_kind k [(i, size)] = [(i, size)]).
  { unfold of_kind, k; simpl. by destruct (is_user_message i). }
  destruct Hnew as [N1 N2]. destruct ((MAX_ITEMS_PER_KIND <=? length own) || (MAX_BYTES_PER_KIND <? size + bytes_of own)%N) eqn:Hc;
    cbn [items generation]; rewrite !of_kind_app, N1, N2, app_nil_r.
  - assert (Hnf : ¬ fits (MAX_ITEMS_PER_KIND - 1) size own).
    { intros [F1 F2]. apply orb_true_iff in Hc as [Hc%Nat.leb_le|Hc%N.ltb_lt]; [unfold MAX_ITEMS_PER_KIND in *|]; lia. }
    destruct (evict_spec k (retained_count k own) size (items h) Hs) as (E1 & d & E2 & E3 & E4).
    fold own in E1, E2, E3, E4. unfold retained_count in *.
    split; [exact E1|]. exists true. split; [|done]. exists d. rewrite E2 in E3 |- *. split; [done|].
    split; [done|]. intros _. split; [done|]. by split.
  - apply orb_false_iff in Hc as [C1%Nat.leb_gt C2%N.ltb_ge]. split; [done|]. exists false. split; [|done].
    exists 0. split; [done|]. split; [done|]. intros []. split; [unfold MAX_ITEMS_PER_KIND in *; lia|done].
Qed.

(** What is recorded for an item: itself, its text, or nothing. *)
Lemma text_only_user i i' : text_only i = Some i' → is_user_message i = true ∧ is_user_message i' = true ∧ text_only i' = None.
Proof.
  destruct i; try done. cbn [text_only]. destruct (bool_decide (role = lit "user")) eqn:Hr; [|done]. cbn [andb].
  destruct (existsb is_image_content content); [|done]. destruct (to_writer _ _ _) as [b|]; [|done]. cbn [mbind option_bind].
  destruct (foldl _ _ _) as [b'|]; [|done]. cbn [mbind option_bind]. destruct (bool_decide (List.filter is_text_content content = [])); [done|]. intros [= <-].
  cbn [is_user_message text_only]. rewrite Hr. split; [done|]. split; [done|].
  assert (Hf : existsb is_image_content (List.filter is_text_content content) = false).
  { apply not_true_is_false. intros (c & [_ Hc]%filter_In & Hi)%existsb_exists. by destruct c. }
  by rewrite Hf.
Qed.

Lemma record_cases i h :
  history_record i h = h ∨
  ∃ i' n, measure i' = Some n ∧ is_user_message i' = is_user_message i ∧ history_record i h = keep_item i' n h ∧
          (i' = i ∨ measure i = None ∧ text_only i = Some i').
Proof.
  unfold history_record. simpl. destruct (measure i) as [n|] eqn:Hn.
  { right. exists i, n. auto. }
  destruct (text_only i) as [i'|] eqn:Ht; [|by left]. simpl. pose proof (text_only_user i i' Ht) as (U1 & U2 & U3).
  destruct (measure i') as [n'|] eqn:Hn'; [|rewrite U3; by left]. right. exists i', n'. rewrite U1, U2. auto 6.
Qed.

(** One recursion is enough. *)
Lemma record_fuel_enough fuel i h : 2 ≤ fuel → record_fuel fuel i h = history_record i h.
Proof.
  intros Hf. unfold history_record. destruct fuel as [|[|fuel]]; [lia..|]. simpl. destruct (measure i); [done|].
  destruct (text_only i) as [i'|] eqn:Ht; [|done]. simpl. destruct (measure i'); [done|].
  by apply text_only_user in Ht as (_ & _ & ->).
Qed.

(** *** The bounds of a history *)

Definition history_ok (h : TranscriptHistory) : Prop :=
  ∀ k, length (of_kind k (items h)) ≤ MAX_ITEMS_PER_KIND ∧ (bytes_of (of_kind k (items h)) ≤ MAX_BYTES_PER_KIND)%N.

Lemma keep_ok i n h :
  (item_size ≤ MAX_BYTES_PER_KIND)%N → measure i = Some n → history_ok h → history_ok (keep_item i n h).
Proof.
  intros Hsz Hn Hok k. apply measure_le in Hn; [|done]. destruct (keep_exact i n h Hn) as (K1 & ev & (d & K2 & K3 & K4) & _).
  destruct (Bool.bool_dec k (is_user_message i)) as [->|Hk].
  2:{ replace k with (negb (is_user_message i)) by (destruct k, (is_user_message i); done). rewrite K1. apply Hok. }
  rewrite K2, length_app, bytes_of_app. cbn [length bytes_of foldr snd].
  destruct (Hok (is_user_message i)) as [O1 O2]. set (own := of_kind (is_user_message i) (items h)) in *. set (size := (n - _)%N) in *.
  assert (Hd : fits (MAX_ITEMS_PER_KIND - 1) size (drop d own)).
  { destruct (decide (length own ≤ MAX_ITEMS_PER_KIND - 1)) as [H1|H1]; destruct (decide (size + bytes_of own ≤ MAX_BYTES_PER_KIND)%N) as [H2|H2].
    1:{ destruct (K3 (conj H1 H2)) as [-> _]. by split. }
    all: destruct K4 as (_ & [F1 F2] & _); [by intros []|]; split; [|done].
    all: etrans; [exact F1|]; unfold retained_count; destruct (is_user_message i); [done|].
    all: pose proof (Nat.Div0.div_le_upper_bound (length own) 2 64); unfold MAX_ITEMS_PER_KIND in *; lia. }
  destruct Hd as [D1 D2]. split; [unfold MAX_ITEMS_PER_KIND in *; lia|]. lia.
Qed.

Lemma record_ok i h : (item_size ≤ MAX_BYTES_PER_KIND)%N → history_ok h → history_ok (history_record i h).
Proof. intros Hsz Hok. destruct (record_cases i h) as [-> |(i' & n & Hn & _ & -> & _)]; [done|]. by apply keep_ok. Qed.

Lemma history_nil_ok g : history_ok {| items := []; generation := g |}.
Proof. intros k. simpl. unfold MAX_ITEMS_PER_KIND. split; [lia|done]. Qed.

Lemma take_ok m h g : history_ok h → history_ok {| items := take m (items h); generation := g |}.
Proof.
  intros Hok k. destruct (Hok k) as [H1 H2]. rewrite <- (take_drop m (items h)) in H1, H2.
  rewrite of_kind_app, ?length_app, ?bytes_of_app in *. simpl. lia.
Qed.

Lemma history_step_ok op h : (item_size ≤ MAX_BYTES_PER_KIND)%N → history_ok h → history_ok (history_step op h).
Proof.
  intros Hsz Hok. destruct op as [i|l|b]; simpl.
  - by apply record_ok.
  - unfold history_reset. generalize (history_nil_ok (u64_succ (generation h))). generalize {| items := []; generation := u64_succ (generation h) |}.
    induction l as [|i l IH]; intros h' Hh'; simpl; [done|]. apply IH. by apply record_ok.
  - by apply take_ok.
Qed.

(** *** Readers that continue *)

Lemma record_prefix i h :
  (generation h ≤ generation (history_record i h))%N ∧
  (generation (history_record i h) = generation h → (generation h < USIZE_MAX)%N →
   items h `prefix_of` items (history_record i h)).
Proof.
  destruct (record_cases i h) as [-> |(i' & n & _ & _ & -> & _)]; [done|]. unfold keep_item. case_match; cbn [generation items].
  - split; [apply u64_succ_ge|]. unfold u64_succ. intros H' Hlt. case_match eqn:E; [lia|]. apply N.ltb_ge in E. lia.
  - split; [done|]. intros _ _. by apply prefix_app_r.
Qed.

Lemma history_step_prefix op h :
  (generation h ≤ generation (history_step op h))%N ∧
  (generation (history_step op h) = generation h → (generation h < USIZE_MAX)%N →
   items h `prefix_of` items (history_step op h)).
Proof.
  assert (Hbump : ∀ g, (u64_succ (generation h) ≤ g)%N → (generation h ≤ g)%N ∧
    (g = generation h → (generation h < USIZE_MAX)%N → False)).
  { intros g Hg. pose proof (u64_succ_ge (generation h)). split; [lia|]. intros ->. unfold u64_succ in Hg.
    case_match eqn:E; [lia|]. apply N.ltb_ge in E. lia. }
  destruct op as [i|l|b]; cbn [history_step].
  - apply record_prefix.
  - assert (Hg : (u64_succ (generation h) ≤ generation (history_reset l h))%N).
    { unfold history_reset. set (h0 := {| items := [] |}). change (u64_succ (generation h)) with (generation h0).
      generalize h0. induction l as [|i l IH]; intros h'; simpl; [done|]. etrans; [apply record_prefix|apply IH]. }
    destruct (Hbump _ Hg) as [H1 H2]. split; [done|]. intros H3 H4. by destruct (H2 H3 H4).
  - destruct (Hbump (u64_succ (generation h)) (N.le_refl _)) as [H1 H2]. split; [done|]. intros H3 H4. by destruct (H2 H3 H4).
Qed.

Lemma history_run_prefix ops h :
  (generation h ≤ generation (history_run ops h))%N ∧
  (generation (history_run ops h) = generation h → (generation h < USIZE_MAX)%N →
   items h `prefix_of` items (history_run ops h)).
Proof.
  revert h. induction ops as [|op ops IH]; intros h; [done|]. change (history_run (op :: ops) h) with (history_run ops (history_step op h)).
  destruct (IH (history_step op h)) as [I1 I2], (history_step_prefix op h) as [S1 S2]. split; [lia|]. intros H1 H2.
  assert (generation (history_step op h) = generation h) as Hg by lia.
  etrans; [by apply S2|]. apply I2; rewrite Hg; done.
Qed.

End HistoryFacts.

(** ** [profile.rs] and [profile/window.rs] *)

Definition MIN_RECENT_TOOL_ENTRIES : nat := 5.

(** [entry.rs]. *)
Inductive ConversationTranscriptEntryKind :=
  | CkUser | CkDeveloper | CkAssistant | CkProtectedAssistant
  | CkToolCall (role : str) | CkToolOutput (role : str) | CkNodeReplToolOutput (role : str) | CkReasoning.

Definition kind_role (k : ConversationTranscriptEntryKind) : str :=
  match k with
  | CkUser => lit "user"
  | CkDeveloper => lit "developer"
  | CkAssistant | CkProtectedAssistant => lit "assistant"
  | CkToolCall role | CkToolOutput role | CkNodeReplToolOutput role => role
  | CkReasoning => lit "reasoning"
  end.

Record ConversationTranscriptEntry := {
  ce_kind : ConversationTranscriptEntryKind;
  ce_text : str;
  ce_original_bytes : N;
}.

Inductive ContextTarget := SyncTarget | AsyncTarget.

(** [TranscriptRetentionConfig]. *)
Record RetentionConfig := {
  max_message_transcript_tokens : N;
  max_tool_transcript_tokens : N;
  max_recent_non_user_entries : nat;
}.

Inductive TranscriptEntryKind := EkUser | EkManualApproval | EkProtectedMessage | EkMessage | EkTool.
#[export] Instance TranscriptEntryKind_eq_dec : EqDecision TranscriptEntryKind.
Proof. solve_decision. Defined.

Record TranscriptEntry := {
  te_kind : TranscriptEntryKind;
  te_text : str;
  te_tokens : N;
  te_original_bytes : N;
  te_retained_bytes : N;
}.

(** The entries that are always selected. *)
Definition is_authorization (k : TranscriptEntryKind) : bool :=
  match k with EkUser | EkManualApproval => true | _ => false end.

Section Window.
Context {E : Type} (entries : list TranscriptEntry).
Implicit Types (k : TranscriptEntryKind).

(** [entries[index].tokens] and [.kind], of an index in range. *)
Definition entry_tokens_at (index : nat) : N := from_option te_tokens 0%N (entries !! index).
Definition entry_kind_at (index : nat) : TranscriptEntryKind := from_option te_kind EkUser (entries !! index).

Record EntryPool := { indices : list nat; pool_tokens : N }.
Definition pool_default : EntryPool := {| indices := []; pool_tokens := 0 |}.

Definition pool_push (index : nat) (tokens : N) (p : EntryPool) : EntryPool :=
  {| indices := indices p ++ [index]; pool_tokens := pool_tokens p + tokens |}.
Definition pop_oldest (p : EntryPool) : EntryPool :=
  match indices p with
  | [] => p
  | i :: l => {| indices := l; pool_tokens := pool_tokens p - entry_tokens_at i |}
  end.
Definition evict_oldest (count : nat) (p : EntryPool) : EntryPool :=
  Nat.iter (count `min` length (indices p)) pop_oldest p.

Record TranscriptWindow := {
  message_token_budget : N;
  tool_token_budget : N;
  max_entries : nat;
  protected_messages : EntryPool;
  ordinary_messages : EntryPool;
  tools : EntryPool;
}.

(** [TranscriptWindow::new]. *)
Definition window_new (config : RetentionConfig) (budget : N) : TranscriptWindow :=
  {| message_token_budget := budget; tool_token_budget := max_tool_transcript_tokens config;
     max_entries := max_recent_non_user_entries config; protected_messages := pool_default;
     ordinary_messages := pool_default; tools := pool_default |}.

(** [pool], and a change through [pool_mut]; the code has no pool for the entries that
    are always selected. *)
Definition pool k (w : TranscriptWindow) : res E EntryPool :=
  match k with
  | EkProtectedMessage => Ok (protected_messages w)
  | EkMessage => Ok (ordinary_messages w)
  | EkTool => Ok (tools w)
  | EkUser | EkManualApproval => Panic
  end.
Definition pool_mut k (f : EntryPool → EntryPool) (w : TranscriptWindow) : res E TranscriptWindow :=
  let with_pools p o t :=
    {| message_token_budget := message_token_budget w; tool_token_budget := tool_token_budget w;
       max_entries := max_entries w; protected_messages := p; ordinary_messages := o; tools := t |} in
  match k with
  | EkProtectedMessage => Ok (with_pools (f (protected_messages w)) (ordinary_messages w) (tools w))
  | EkMessage => Ok (with_pools (protected_messages w) (f (ordinary_messages w)) (tools w))
  | EkTool => Ok (with_pools (protected_messages w) (ordinary_messages w) (f (tools w)))
  | EkUser | EkManualApproval => Panic
  end.

Definition has_token_capacity k (tokens token_budget : N) (w : TranscriptWindow) : res E bool :=
  let? retained_tokens :=
    match k with
    | EkProtectedMessage | EkMessage => Ok (sat_add (pool_tokens (protected_messages w)) (pool_tokens (ordinary_messages w)))
    | EkTool => Ok (pool_tokens (tools w))
    | EkUser | EkManualApproval => Panic
    end in
  Ok (sat_add retained_tokens tokens <=? token_budget)%N.

(** The inner loop, for as many rounds as the pool has entries. *)
Fixpoint pop_for_capacity (fuel : nat) k (tokens token_budget : N) (eviction_kind : TranscriptEntryKind)
    (w : TranscriptWindow) : res E TranscriptWindow :=
  match fuel with
  | 0 => Ok w
  | S fuel' =>
      let? capacity := has_token_capacity k tokens token_budget w in
      let? p := pool eviction_kind w in
      if negb capacity && negb (bool_decide (indices p = [])) then
        let? w := pool_mut eviction_kind pop_oldest w in
        pop_for_capacity fuel' k tokens token_budget eviction_kind w
      else Ok w
  end.

(** The loop over the kinds to evict. *)
Fixpoint evict_kinds k (tokens token_budget : N) (order : list TranscriptEntryKind) (w : TranscriptWindow)
    : res E TranscriptWindow :=
  match order with
  | [] => Ok w
  | eviction_kind :: order' =>
      let? capacity := has_token_capacity k tokens token_budget w in
      if capacity then Ok w
      else
        let? p := pool eviction_kind w in
        let pool_len := length (indices p) in
        if (pool_len =? 0)%nat then evict_kinds k tokens token_budget order' w
        else
          let? w := pool_mut eviction_kind (evict_oldest ((pool_len + 1) / 2)) w in
          let? w := pop_for_capacity pool_len k tokens token_budget eviction_kind w in
          evict_kinds k tokens token_budget order' w
  end.

Definition make_room_for_token_budget k (tokens : N) (w : TranscriptWindow) : res E (bool * TranscriptWindow) :=
  let? token_budget :=
    match k with
    | EkProtectedMessage | EkMessage => Ok (message_token_budget w)
    | EkTool => Ok (tool_token_budget w)
    | EkUser | EkManualApproval => Panic
    end in
  let protected_tokens := if bool_decide (k = EkMessage) then pool_tokens (protected_messages w) else 0%N in
  if (token_budget <? sat_add protected_tokens tokens)%N then Ok (false, w)
  else
    let? order :=
      match k with
      | EkProtectedMessage => Ok [EkMessage; EkProtectedMessage]
      | EkMessage => Ok [EkMessage]
      | EkTool => Ok [EkTool]
      | EkUser | EkManualApproval => Panic
      end in
    let? w := evict_kinds k tokens token_budget order w in
    let? capacity := has_token_capacity k tokens token_budget w in
    Ok (capacity, w).

(** One round of the eviction by age. *)
Definition evict_older (minimum_existing_tools : nat) (w : TranscriptWindow) : res E TranscriptWindow :=
  let oldest_tool := if minimum_existing_tools <? length (indices (tools w)) then head (indices (tools w)) else None in
  match head (indices (ordinary_messages w)), oldest_tool with
  | Some message, Some tool => if message <? tool then pool_mut EkMessage pop_oldest w else pool_mut EkTool pop_oldest w
  | None, Some _ => pool_mut EkTool pop_oldest w
  | Some _, None => pool_mut EkMessage pop_oldest w
  | None, None => Panic
  end.
Fixpoint evict_rounds (n minimum_existing_tools : nat) (w : TranscriptWindow) : res E TranscriptWindow :=
  match n with
  | 0 => Ok w
  | S n' => let? w := evict_older minimum_existing_tools w in evict_rounds n' minimum_existing_tools w
  end.

(** The entries of a window. *)
Definition retained_entries (w : TranscriptWindow) : list nat :=
  indices (protected_messages w) ++ indices (ordinary_messages w) ++ indices (tools w).

Definition make_room_for_entry_limit k (w : TranscriptWindow) : res E (bool * TranscriptWindow) :=
  if length (retained_entries w) <? max_entries w then Ok (true, w)
  else
    let minimum_existing_tools :=
      MIN_RECENT_TOOL_ENTRIES `min` (max_entries w - 1) - (if bool_decide (k = EkTool) then 1 else 0) in
    let removable_tools := length (indices (tools w)) - minimum_existing_tools in
    let removable_count := length (indices (ordinary_messages w)) + removable_tools in
    if 0 <? removable_count then
      let evidence_count := length (indices (ordinary_messages w)) + length (indices (tools w)) in
      let? w := evict_rounds (((evidence_count + 1) / 2) `min` removable_count) minimum_existing_tools w in
      Ok (true, w)
    else if bool_decide (k = EkProtectedMessage) || bool_decide (k = EkTool) then
      let? w := pool_mut EkProtectedMessage (evict_oldest ((length (indices (protected_messages w)) + 1) / 2)) w in
      Ok (true, w)
    else Ok (false, w).

(** [insert]. *)
Definition window_insert (index : nat) (w : TranscriptWindow) : res E TranscriptWindow :=
  let k := entry_kind_at index in
  let tokens := entry_tokens_at index in
  if is_authorization k || (max_entries w =? 0)%nat then Ok w
  else
    let? (room, w) := make_room_for_token_budget k tokens w in
    if negb room then Ok w
    else
      let? (room, w) := make_room_for_entry_limit k w in
      if negb room then Ok w else pool_mut k (pool_push index tokens) w.

Definition window_inserts (l : list nat) (w : TranscriptWindow) : res E TranscriptWindow :=
  foldM (λ w i, window_insert i w) w l.

End Window.

(** *** The profile *)

Record TranscriptOptions := { include_tool_calls : bool; include_tool_outputs : bool; include_reasoning : bool }.
Record TranscriptEntryLimits := { message_token_cap : N; tool_token_cap : N; node_repl_output_token_cap : N }.

Record ContextProfile := {
  profile_target : ContextTarget;
  profile_options : TranscriptOptions;
  profile_entry_limits : TranscriptEntryLimits;
  profile_retention : RetentionConfig;
  profile_include_images : bool;
}.

(** [ContextProfile::synchronous] and [ContextProfile::asynchronous]. *)
Definition profile_synchronous : ContextProfile :=
  {| profile_target := SyncTarget;
     profile_options := {| include_tool_calls := true; include_tool_outputs := true; include_reasoning := false |};
     profile_entry_limits := {| message_token_cap := 5000; tool_token_cap := 1000; node_repl_output_token_cap := 1000 |};
     profile_retention := {| max_message_transcript_tokens := 20000; max_tool_transcript_tokens := 10000;
                             max_recent_non_user_entries := 40 |};
     profile_include_images := false |}.
Definition profile_asynchronous : ContextProfile :=
  {| profile_target := AsyncTarget;
     profile_options := {| include_tool_calls := true; include_tool_outputs := true; include_reasoning := false |};
     profile_entry_limits := {| message_token_cap := 2000; tool_token_cap := 1000; node_repl_output_token_cap := 1000 |};
     profile_retention := {| max_message_transcript_tokens := 10000; max_tool_transcript_tokens := 10000;
                             max_recent_non_user_entries := 40 |};
     profile_include_images := true |}.

(** [BudgetPriority], [Retention] and [Budgeted] of [enforcement.rs]. *)
Inductive BudgetPriority := ToolDescriptionPriority | CommentaryPriority | ToolPriority | ImagePriority.
Inductive Retention := RetainRequired | RetainHistorical | RetainOptional (priority : BudgetPriority).
Record Budgeted (T : Type) := { content : T; retention : Retention }.
Arguments content {T}.
Arguments retention {T}.

Record TruncationObservation := { component : str; original_bytes : N; retained_bytes : N }.
Record RenderedTranscript := {
  rt_items : list (Budgeted str);
  omission_note : option str;
  rt_truncations : list TruncationObservation;
}.

Definition entry_kind (k : ConversationTranscriptEntryKind) : TranscriptEntryKind :=
  match k with
  | CkUser => EkUser
  | CkDeveloper => EkManualApproval
  | CkProtectedAssistant => EkProtectedMessage
  | CkAssistant | CkReasoning => EkMessage
  | CkToolCall _ | CkToolOutput _ | CkNodeReplToolOutput _ => EkTool
  end.

(** The entry of a number. *)
Definition numbered_entry (target : ContextTarget) (number : N) (e : ConversationTranscriptEntry) : TranscriptEntry :=
  let suffix := match target with SyncTarget => [] | AsyncTarget => [c_lf] end in
  let text := lit "[" ++ lit (pretty number) ++ lit "] " ++ kind_role (ce_kind e) ++ lit ": " ++ ce_text e ++ suffix in
  {| te_kind := entry_kind (ce_kind e); te_text := text; te_tokens := token_budget (TBytes (blen text));
     te_original_bytes := ce_original_bytes e; te_retained_bytes := blen (ce_text e) |}.
Definition numbered_entries (target : ContextTarget) (offset : N) (l : list ConversationTranscriptEntry)
    : list TranscriptEntry :=
  imap (λ index e, numbered_entry target (N.of_nat index + offset + 1) e) l.

Section Select.
Context {E : Type} (entries : list TranscriptEntry) (config : RetentionConfig).

(** The entries that are always selected, and their tokens. *)
Definition authorization_included : list bool := map (λ e, is_authorization (te_kind e)) entries.
Definition authorization_tokens : N :=
  foldl (λ n e, if is_authorization (te_kind e) then sat_add n (te_tokens e) else n) 0%N entries.

(** The synchronous selection, from the newest entry on. *)
Record SyncState := {
  message_tokens : N;
  tool_tokens : N;
  retained_non_user_entries : nat;
  included : list bool;
}.

Definition sync_step (st : SyncState) (index : nat) : SyncState :=
  let k := entry_kind_at entries index in
  let tokens := entry_tokens_at entries index in
  if is_authorization k || (max_recent_non_user_entries config <=? retained_non_user_entries st) then st
  else if bool_decide (k = EkTool) then
    if (sat_add (tool_tokens st) tokens <=? max_tool_transcript_tokens config)%N then
      {| message_tokens := message_tokens st; tool_tokens := tool_tokens st + tokens;
         retained_non_user_entries := S (retained_non_user_entries st); included := <[index := true]> (included st) |}
    else st
  else
    if (sat_add (message_tokens st) tokens <=? max_message_transcript_tokens config)%N then
      {| message_tokens := message_tokens st + tokens; tool_tokens := tool_tokens st;
         retained_non_user_entries := S (retained_non_user_entries st); included := <[index := true]> (included st) |}
    else st.

Definition sync_included : list bool :=
  included (foldl sync_step
    {| message_tokens := authorization_tokens; tool_tokens := 0; retained_non_user_entries := 0;
       included := authorization_included |} (rev (seq 0 (length entries)))).

(** The asynchronous selection. *)
Definition include_all (l : list nat) (inc : list bool) : list bool := foldl (λ inc i, <[i := true]> inc) inc l.
Definition async_included : res E (list bool) :=
  let available := (max_message_transcript_tokens config - authorization_tokens)%N in
  let? w := window_inserts entries (seq 0 (length entries)) (window_new config available) in
  Ok (include_all (retained_entries w) authorization_included).

Definition included_entries (target : ContextTarget) : res E (list bool) :=
  match target with SyncTarget => Ok sync_included | AsyncTarget => async_included end.

(** The items of the selection, each under its policy. *)
Definition component_of (k : TranscriptEntryKind) : str :=
  match k with
  | EkUser => lit "transcript_user"
  | EkManualApproval | EkProtectedMessage | EkMessage => lit "transcript_message"
  | EkTool => lit "transcript_tool"
  end.
Definition retention_of (k : TranscriptEntryKind) : Retention :=
  match k with
  | EkUser | EkManualApproval => RetainHistorical
  | EkProtectedMessage => RetainRequired
  | EkMessage => RetainOptional CommentaryPriority
  | EkTool => RetainOptional ToolPriority
  end.
Definition rendered_items (inc : list bool) : list (Budgeted str) :=
  omap (λ '(e, b), if b : bool then Some {| content := te_text e; retention := retention_of (te_kind e) |} else None)
    (zip entries inc).
Definition observed_truncations (target : ContextTarget) (inc : list bool) : list TruncationObservation :=
  omap (λ '(e, b),
    let retained := if b : bool then te_retained_bytes e else 0%N in
    match target with
    | AsyncTarget =>
        if (retained <? te_original_bytes e)%N then
          Some {| component := component_of (te_kind e); original_bytes := te_original_bytes e; retained_bytes := retained |}
        else None
    | SyncTarget => None
    end) (zip entries inc).
End Select.

(** The newest tool items become required; the items come newest first. *)
Fixpoint require_newest {T} (n : nat) (l : list (Budgeted T)) : list (Budgeted T) :=
  match n, l with
  | 0, _ | _, [] => l
  | S n', b :: l' =>
      match retention b with
      | RetainOptional ToolPriority => {| content := content b; retention := RetainRequired |} :: require_newest n' l'
      | _ => b :: require_newest n l'
      end
  end.

(** [render_transcript]. *)
Definition render_transcript {E} (p : ContextProfile) (transcript_entries : list ConversationTranscriptEntry)
    (entry_number_offset : N) : res E RenderedTranscript :=
  let target := profile_target p in
  let entries := numbered_entries target entry_number_offset transcript_entries in
  let? inc := included_entries entries (profile_retention p) target in
  Ok {| rt_items := rev (require_newest MIN_RECENT_TOOL_ENTRIES (rev (rendered_items entries inc)));
        omission_note :=
          match target with
          | SyncTarget => if existsb negb inc then Some (lit "Some conversation entries were omitted.") else None
          | AsyncTarget => None
          end;
        rt_truncations := observed_truncations entries target inc |}.

(** ** Facts about the window *)

Section WindowFacts.
Context {E : Type} (entries : list TranscriptEntry).
Implicit Types (k : TranscriptEntryKind) (w : TranscriptWindow) (p : EntryPool).

Abbreviation tokens_at := (entry_tokens_at entries).
Abbreviation kind_at := (entry_kind_at entries).

Definition tokens_of (l : list nat) : N := foldr (λ i n, (tokens_at i + n)%N) 0%N l.

Lemma tokens_of_app l l' : tokens_of (l ++ l') = (tokens_of l + tokens_of l')%N.
Proof. induction l as [|i l IH]; simpl; [done|]. rewrite IH. lia. Qed.
Lemma tokens_of_drop d l : (tokens_of (drop d l) ≤ tokens_of l)%N.
Proof. rewrite <- (take_drop d l) at 2. rewrite tokens_of_app. lia. Qed.
#[global] Instance tokens_of_perm : Proper ((≡ₚ) ==> (=)) tokens_of.
Proof. induction 1; simpl; lia. Qed.

(** A pool counts the tokens of its entries. *)
Definition pool_ok p : Prop := pool_tokens p = tokens_of (indices p).

(** A pool after the oldest of its entries have gone. *)
Definition pool_after p p' : Prop := ∃ d, p' = {| indices := drop d (indices p); pool_tokens := tokens_of (drop d (indices p)) |}.

Lemma pool_after_refl p : pool_ok p → pool_after p p.
Proof. intros H. exists 0. rewrite drop_0, <- H. by destruct p. Qed.
Lemma pool_after_trans p1 p2 p3 : pool_after p1 p2 → pool_after p2 p3 → pool_after p1 p3.
Proof. intros [d ->] [d' ->]. exists (d + d'). simpl. by rewrite drop_drop. Qed.
Lemma pool_after_ok p p' : pool_after p p' → pool_ok p'.
Proof. by intros [d ->]. Qed.
Lemma pool_after_tokens p p' : pool_ok p → pool_after p p' → (pool_tokens p' ≤ pool_tokens p)%N.
Proof. intros H [d ->]. simpl. rewrite H. apply tokens_of_drop. Qed.
Lemma pool_after_length p p' : pool_ok p → pool_after p p' → p' = p ∨ length (indices p') < length (indices p).
Proof.
  intros H [d ->]. destruct (decide (d = 0 ∨ indices p = [])) as [[-> | Hn]|Hn].
  - left. rewrite drop_0, <- H. by destruct p.
  - left. rewrite Hn, drop_nil. destruct p as [l t]. unfold pool_ok in H. simpl in *. by subst.
  - right. simpl. rewrite length_drop. destruct (indices p); simpl; [naive_solver|]. assert (d ≠ 0) by naive_solver. lia.
Qed.

Lemma pop_oldest_after p : pool_ok p → pool_after p (pop_oldest entries p).
Proof.
  intros H. unfold pop_oldest. destruct (indices p) as [|i l] eqn:Hl; [by apply pool_after_refl|].
  exists 1. rewrite Hl. change (drop 1 (i :: l)) with l. f_equal. rewrite H, Hl. unfold tokens_of. cbn [foldr]. lia.
Qed.

Lemma pop_oldest_length p : length (indices (pop_oldest entries p)) = length (indices p) - 1.
Proof. unfold pop_oldest. destruct (indices p) eqn:Hl; simpl; [by rewrite Hl|lia]. Qed.

Lemma evict_oldest_after n p : pool_ok p → pool_after p (evict_oldest entries n p).
Proof.
  intros H. unfold evict_oldest. induction (n `min` length (indices p)) as [|m IH]; simpl; [by apply pool_after_refl|].
  eapply pool_after_trans; [exact IH|]. apply pop_oldest_after. by eapply pool_after_ok.
Qed.

Lemma evict_oldest_length n p : length (indices (evict_oldest entries n p)) = length (indices p) - n.
Proof.
  unfold evict_oldest. assert (Hm : ∀ m, length (indices (Nat.iter m (pop_oldest entries) p)) = length (indices p) - m).
  { induction m as [|m IH]; simpl; [lia|]. rewrite pop_oldest_length, IH. lia. }
  rewrite Hm. lia.
Qed.

(** *** A window after evictions *)

Definition window_pools_ok w : Prop := pool_ok (protected_messages w) ∧ pool_ok (ordinary_messages w) ∧ pool_ok (tools w).

Record window_after w w' : Prop := {
  wa_message_budget : message_token_budget w' = message_token_budget w;
  wa_tool_budget : tool_token_budget w' = tool_token_budget w;
  wa_max_entries : max_entries w' = max_entries w;
  wa_protected : pool_after (protected_messages w) (protected_messages w');
  wa_ordinary : pool_after (ordinary_messages w) (ordinary_messages w');
  wa_tools : pool_after (tools w) (tools w');
}.

Lemma window_after_refl w : window_pools_ok w → window_after w w.
Proof. intros (H1 & H2 & H3). split; try done; by apply pool_after_refl. Qed.
Lemma window_after_trans w1 w2 w3 : window_after w1 w2 → window_after w2 w3 → window_after w1 w3.
Proof. intros [] []. split; try congruence; by eapply pool_after_trans. Qed.
Lemma window_after_ok w w' : window_after w w' → window_pools_ok w'.
Proof. intros []. split; [|split]; by eapply pool_after_ok. Qed.

Lemma window_after_smaller w w' :
  window_pools_ok w → window_after w w' → w' = w ∨ length (retained_entries w') < length (retained_entries w).
Proof.
  intros (H1 & H2 & H3) [A1 A2 A3 A4 A5 A6]. unfold retained_entries. rewrite !length_app.
  destruct (pool_after_length _ _ H1 A4) as [E1|E1], (pool_after_length _ _ H2 A5) as [E2|E2], (pool_after_length _ _ H3 A6) as [E3|E3];
    rewrite ?E1, ?E2, ?E3; try (right; lia).
  left. destruct w, w'; simpl in *. by subst.
Qed.

(** A change of one pool that only evicts. *)
Lemma pool_mut_after k f w :
  is_authorization k = false → window_pools_ok w → (∀ p, pool_ok p → pool_after p (f p)) →
  ∃ w', pool_mut (E := E) k f w = Ok w' ∧ window_after w w'.
Proof.
  intros Hk (H1 & H2 & H3) Hf. destruct k; try done; (eexists; split; [reflexivity|]); split; try done; cbn;
    try (by apply Hf); by apply pool_after_refl.
Qed.

(** The pool of a kind that has one. *)
Definition pool_of k w : EntryPool :=
  match k with EkProtectedMessage => protected_messages w | EkMessage => ordinary_messages w | _ => tools w end.

Lemma pool_ok_eq k w : is_authorization k = false → pool (E := E) k w = Ok (pool_of k w).
Proof. by destruct k. Qed.

Definition capacity k (tokens budget : N) w : bool :=
  (sat_add (match k with EkTool => pool_tokens (tools w)
                       | _ => sat_add (pool_tokens (protected_messages w)) (pool_tokens (ordinary_messages w)) end) tokens <=? budget)%N.

Lemma has_token_capacity_eq k tokens budget w :
  is_authorization k = false → has_token_capacity (E := E) k tokens budget w = Ok (capacity k tokens budget w).
Proof. by destruct k. Qed.

Lemma window_after_pool k w w' : window_after w w' → pool_after (pool_of k w) (pool_of k w').
Proof. by intros []; destruct k. Qed.
Lemma window_after_empty k w w' : window_after w w' → indices (pool_of k w) = [] → indices (pool_of k w') = [].
Proof. intros [d ->]%(window_after_pool k) H. simpl. by rewrite H, drop_nil. Qed.

Lemma pool_mut_pool k f w w' : is_authorization k = false → pool_mut (E := E) k f w = Ok w' → pool_of k w' = f (pool_of k w).
Proof. destruct k; try done; by intros _ [= <-]. Qed.

Lemma pop_for_capacity_spec fuel k tokens budget ek w :
  is_authorization k = false → is_authorization ek = false → window_pools_ok w → length (indices (pool_of ek w)) ≤ fuel →
  ∃ w', pop_for_capacity (E := E) entries fuel k tokens budget ek w = Ok w' ∧ window_after w w' ∧
        (capacity k tokens budget w' = true ∨ indices (pool_of ek w') = []).
Proof.
  intros Hk Hek. revert w. induction fuel as [|fuel IH]; intros w Hw Hl; simpl.
  { exists w. split; [done|]. split; [by apply window_after_refl|]. right. by apply nil_length_inv; lia. }
  rewrite has_token_capacity_eq, pool_ok_eq by done. cbn [res_bind].
  destruct (capacity k tokens budget w) eqn:Hc; cbn [negb andb].
  { exists w. split; [done|]. split; [by apply window_after_refl|by left]. }
  case_bool_decide as He; cbn [negb].
  { exists w. split; [done|]. split; [by apply window_after_refl|by right]. }
  destruct (pool_mut_after ek (pop_oldest entries) w Hek Hw) as (w1 & Hm & Ha); [apply pop_oldest_after|].
  rewrite Hm. cbn [res_bind]. apply pool_mut_pool in Hm; [|done].
  destruct (IH w1) as (w' & -> & Ha' & Hc'); [by eapply window_after_ok| |].
  - rewrite Hm, pop_oldest_length. destruct (indices (pool_of ek w)); simpl in *; [done|lia].
  - exists w'. split; [done|]. split; [by eapply window_after_trans|done].
Qed.

Lemma evict_kinds_spec k tokens budget order w :
  is_authorization k = false → Forall (λ ek, is_authorization ek = false) order → window_pools_ok w →
  ∃ w', evict_kinds (E := E) entries k tokens budget order w = Ok w' ∧ window_after w w' ∧
        (capacity k tokens budget w' = true ∨ Forall (λ ek, indices (pool_of ek w') = []) order).
Proof.
  intros Hk Ho. revert w. induction Ho as [|ek order Hek Ho IH]; intros w Hw; cbn [evict_kinds].
  { exists w. split; [done|]. split; [by apply window_after_refl|by right]. }
  rewrite has_token_capacity_eq by done. cbn [res_bind]. destruct (capacity k tokens budget w) eqn:Hc.
  { exists w. split; [done|]. split; [by apply window_after_refl|by left]. }
  rewrite pool_ok_eq by done. cbn [res_bind]. cbv zeta. destruct (Nat.eqb_spec (length (indices (pool_of ek w))) 0) as [Hz|Hz].
  { destruct (IH w Hw) as (w' & -> & Ha & Hc'). exists w'. split; [done|]. split; [done|]. destruct Hc' as [?|Hf]; [by left|right].
    constructor; [|done]. eapply window_after_empty; [done|]. by apply nil_length_inv. }
  destruct (pool_mut_after ek (evict_oldest entries ((length (indices (pool_of ek w)) + 1) / 2)) w Hek Hw) as (w1 & Hm & Ha1);
    [by intros; apply evict_oldest_after|].
  rewrite Hm. cbn [res_bind]. apply pool_mut_pool in Hm; [|done].
  destruct (pop_for_capacity_spec (length (indices (pool_of ek w))) k tokens budget ek w1 Hk Hek) as (w2 & -> & Ha2 & Hc2).
  { by eapply window_after_ok. } { rewrite Hm, evict_oldest_length. lia. }
  cbn [res_bind]. destruct (IH w2) as (w' & -> & Ha & Hc'); [by eapply window_after_ok|].
  exists w'. split; [done|]. split; [by do 2 (eapply window_after_trans; [done|])|].
  destruct Hc' as [?|Hf]; [by left|]. destruct Hc2 as [Hc2|Hc2]; [|right; constructor; [by eapply window_after_empty|done]].
  left. revert Hc2. unfold capacity. rewrite !N.leb_le. intros Hc2. etrans; [|exact Hc2]. unfold sat_add.
  destruct (window_after_ok _ _ Ha2) as (P1 & P2 & P3), Ha as [_ _ _ A1%(pool_after_tokens _ _ P1) A2%(pool_after_tokens _ _ P2) A3%(pool_after_tokens _ _ P3)].
  destruct k; lia.
Qed.

(** The budget of a kind. *)
Definition budget_of k w : N := match k with EkTool => tool_token_budget w | _ => message_token_budget w end.

(** Room for the tokens is either refused, and nothing evicted, or made. *)
Lemma token_room k tokens w :
  is_authorization k = false → window_pools_ok w →
  make_room_for_token_budget (E := E) entries k tokens w = Ok (false, w) ∨
  ∃ w', make_room_for_token_budget (E := E) entries k tokens w = Ok (true, w') ∧ window_after w w' ∧
        capacity k tokens (budget_of k w) w' = true.
Proof.
  intros Hk Hw. unfold make_room_for_token_budget.
  assert (Hb : (match k with EkProtectedMessage | EkMessage => Ok (message_token_budget w)
    | EkTool => Ok (tool_token_budget w) | _ => Panic end : res E N) = Ok (budget_of k w)) by (by destruct k).
  rewrite Hb. cbn [res_bind]. clear Hb. case_match eqn:Hearly; [by left|right]. apply N.ltb_ge in Hearly.
  set (order := match k with EkProtectedMessage => [EkMessage; EkProtectedMessage] | EkMessage => [EkMessage] | _ => [EkTool] end).
  assert (Ho : (match k with EkProtectedMessage => Ok [EkMessage; EkProtectedMessage] | EkMessage => Ok [EkMessage]
    | EkTool => Ok [EkTool] | _ => Panic end : res E _) = Ok order) by (by destruct k).
  rewrite Ho. cbn [res_bind]. clear Ho.
  destruct (evict_kinds_spec k tokens (budget_of k w) order w Hk) as (w' & -> & Ha & Hc); [by destruct k; repeat constructor|done|].
  cbn [res_bind]. rewrite has_token_capacity_eq by done. cbn [res_bind].
  assert (Hcap : capacity k tokens (budget_of k w) w' = true); [|rewrite Hcap; by exists w'].
  destruct Hc as [?|Hempty]; [done|]. unfold capacity. apply N.leb_le. etrans; [|exact Hearly].
  destruct (window_after_ok _ _ Ha) as (P1 & P2 & P3). destruct Hw as (W1 & _).
  pose proof (pool_after_tokens _ _ W1 (wa_protected _ _ Ha)) as Hp.
  destruct k; try done; unfold order in Hempty; rewrite !Forall_cons in Hempty; cbn [pool_of] in Hempty.
  - destruct Hempty as (E1 & E2 & _). rewrite P1, P2, E1, E2, bool_decide_eq_false_2 by done. unfold sat_add. cbn. lia.
  - destruct Hempty as (E1 & _). rewrite P2, E1, bool_decide_eq_true_2 by done. unfold sat_add. cbn. lia.
  - destruct Hempty as (E1 & _). rewrite P3, E1, bool_decide_eq_false_2 by done. unfold sat_add. cbn. lia.
Qed.

(** *** Room for one more entry *)

Abbreviation count w := (length (retained_entries w)).
Definition removable (minimum : nat) w : nat :=
  length (indices (ordinary_messages w)) + (length (indices (tools w)) - minimum).

Lemma count_eq w :
  count w = length (indices (protected_messages w)) + length (indices (ordinary_messages w)) + length (indices (tools w)).
Proof. unfold retained_entries. rewrite !length_app. lia. Qed.

Lemma pool_mut_eq k f w w' :
  is_authorization k = false → pool_mut (E := E) k f w = Ok w' →
  protected_messages w' = match k with EkProtectedMessage => f (protected_messages w) | _ => protected_messages w end ∧
  ordinary_messages w' = match k with EkMessage => f (ordinary_messages w) | _ => ordinary_messages w end ∧
  tools w' = match k with EkTool => f (tools w) | _ => tools w end.
Proof. destruct k; try done; by intros _ [= <-]. Qed.

Lemma evict_older_spec minimum w :
  window_pools_ok w → 0 < removable minimum w →
  ∃ w', evict_older (E := E) entries minimum w = Ok w' ∧ window_after w w' ∧
        count w' = count w - 1 ∧ removable minimum w' = removable minimum w - 1.
Proof.
  intros Hw Hr.
  assert (Hpop : ∀ k, k = EkMessage ∧ indices (ordinary_messages w) ≠ [] ∨ k = EkTool ∧ minimum < length (indices (tools w)) →
    ∃ w', pool_mut (E := E) k (pop_oldest entries) w = Ok w' ∧ window_after w w' ∧
          count w' = count w - 1 ∧ removable minimum w' = removable minimum w - 1).
  { intros k Hk. assert (is_authorization k = false) as Ha by (by destruct Hk as [[-> _]|[-> _]]).
    destruct (pool_mut_after k (pop_oldest entries) w Ha Hw) as (w' & Hm & Hw'); [apply pop_oldest_after|].
    exists w'. split; [done|]. split; [done|]. destruct (pool_mut_eq _ _ _ _ Ha Hm) as (E1 & E2 & E3).
    rewrite !count_eq. unfold removable. rewrite E1, E2, E3. destruct Hk as [[-> Hk]|[-> Hk]]; cbn iota; rewrite pop_oldest_length; [|lia].
    destruct (indices (ordinary_messages w)); [done|]. simpl. lia. }
  unfold evict_older. destruct (Nat.ltb_spec minimum (length (indices (tools w)))) as [Ht|Ht].
  - destruct (indices (tools w)) as [|t lt] eqn:Et; [simpl in Ht; lia|]. cbn [head].
    destruct (indices (ordinary_messages w)) as [|m lm] eqn:Em; cbn [head].
    + apply Hpop. right. by split.
    + case_match; apply Hpop; [left|right]; by split.
  - unfold removable in Hr. destruct (indices (ordinary_messages w)) as [|m lm] eqn:Em; [simpl in Hr; lia|]. cbn [head].
    apply Hpop. left. by split.
Qed.

Lemma evict_rounds_spec n minimum w :
  window_pools_ok w → n ≤ removable minimum w →
  ∃ w', evict_rounds (E := E) entries n minimum w = Ok w' ∧ window_after w w' ∧ count w' = count w - n.
Proof.
  revert w. induction n as [|n IH]; intros w Hw Hn; cbn [evict_rounds].
  { exists w. split; [done|]. split; [by apply window_after_refl|lia]. }
  destruct (evict_older_spec minimum w Hw) as (w1 & -> & Ha & Hc & Hr); [lia|]. cbn [res_bind].
  destruct (IH w1) as (w' & -> & Ha' & Hc'); [by eapply window_after_ok|lia|].
  exists w'. split; [done|]. split; [by eapply window_after_trans|lia].
Qed.

(** Room for the entry is either refused to a full window, and nothing evicted, or made. *)
Lemma entry_room k w :
  is_authorization k = false → window_pools_ok w → max_entries w ≠ 0 → count w ≤ max_entries w →
  (make_room_for_entry_limit (E := E) entries k w = Ok (false, w) ∧ count w = max_entries w) ∨
  ∃ w', make_room_for_entry_limit (E := E) entries k w = Ok (true, w') ∧ window_after w w' ∧ count w' < max_entries w.
Proof.
  intros Hk Hw Hmax Hcount. unfold make_room_for_entry_limit. destruct (Nat.ltb_spec (count w) (max_entries w)) as [Hlt|Hge].
  { right. exists w. split; [done|]. split; [by apply window_after_refl|done]. }
  set (minimum := MIN_RECENT_TOOL_ENTRIES `min` (max_entries w - 1) - _). cbv zeta.
  change (length (indices (ordinary_messages w)) + (length (indices (tools w)) - minimum)) with (removable minimum w).
  destruct (Nat.ltb_spec 0 (removable minimum w)) as [Hr|Hr].
  - set (n := _ `min` removable minimum w).
    destruct (evict_rounds_spec n minimum w Hw) as (w' & -> & Ha & Hc); [unfold n; lia|]. right. exists w'.
    split; [done|]. split; [done|]. assert (0 < n); [|lia].
    unfold n, removable in *. apply Nat.min_glb_lt; [|done]. apply Nat.div_str_pos. lia.
  - destruct (bool_decide (k = EkProtectedMessage) || bool_decide (k = EkTool)) eqn:Hkind; [|left; split; [done|lia]].
    destruct (pool_mut_after EkProtectedMessage (evict_oldest entries ((length (indices (protected_messages w)) + 1) / 2)) w eq_refl Hw)
      as (w' & Hm & Ha); [by intros; apply evict_oldest_after|].
    rewrite Hm. right. exists w'. split; [done|]. split; [done|]. destruct (pool_mut_eq EkProtectedMessage _ _ _ eq_refl Hm) as (E1 & E2 & E3). cbn iota in E1, E2, E3.
    rewrite count_eq in *. rewrite E1, E2, E3, evict_oldest_length. unfold removable, minimum, MIN_RECENT_TOOL_ENTRIES in *.
    destruct (decide (length (indices (protected_messages w)) = 0)) as [Hz|Hz]; [lia|].
    assert (0 < (length (indices (protected_messages w)) + 1) / 2) by (apply Nat.div_str_pos; lia). lia.
Qed.

(** *** The invariant of a window *)

(** Within its budgets, and made of different entries before [n] that are in the pool
    of their kind. *)
Record window_ok (n : nat) w : Prop := {
  wk_pools : window_pools_ok w;
  wk_count : count w ≤ max_entries w;
  wk_message_tokens : (pool_tokens (protected_messages w) + pool_tokens (ordinary_messages w) ≤ message_token_budget w)%N;
  wk_tool_tokens : (pool_tokens (tools w) ≤ tool_token_budget w)%N;
  wk_entries : NoDup (retained_entries w);
  wk_before : Forall (λ i, i < n) (retained_entries w);
  wk_protected : Forall (λ i, kind_at i = EkProtectedMessage) (indices (protected_messages w));
  wk_ordinary : Forall (λ i, kind_at i = EkMessage) (indices (ordinary_messages w));
  wk_tools : Forall (λ i, kind_at i = EkTool) (indices (tools w));
}.

Lemma window_ok_more n n' w : n ≤ n' → window_ok n w → window_ok n' w.
Proof. intros Hn []. split; try done. eapply Forall_impl; [done|]. simpl. lia. Qed.

Lemma window_after_entries w w' : window_after w w' → retained_entries w' `sublist_of` retained_entries w.
Proof.
  intros [_ _ _ [d1 E1] [d2 E2] [d3 E3]]. unfold retained_entries. rewrite E1, E2, E3. simpl.
  repeat apply sublist_app; apply sublist_drop.
Qed.

Lemma Forall_after (P : nat → Prop) p p' : pool_after p p' → Forall P (indices p) → Forall P (indices p').
Proof. intros [d ->]. apply Forall_drop. Qed.

Lemma window_after_keeps n w w' : window_ok n w → window_after w w' → window_ok n w'.
Proof.
  intros [W1 W2 W3 W4 W5 W6 W7 W8 W9] Ha. pose proof (window_after_entries _ _ Ha) as Hs. destruct W1 as (P1 & P2 & P3).
  split.
  - by eapply window_after_ok.
  - destruct Ha as [_ _ -> _ _ _]. apply sublist_length in Hs. lia.
  - destruct Ha as [-> _ _ A1%(pool_after_tokens _ _ P1) A2%(pool_after_tokens _ _ P2) _]. lia.
  - destruct Ha as [_ -> _ _ _ A3%(pool_after_tokens _ _ P3)]. lia.
  - by eapply sublist_NoDup.
  - rewrite Forall_forall in W6 |- *. intros i Hi. apply W6. eapply elem_of_submseteq; [exact Hi|by apply sublist_submseteq].
  - by eapply Forall_after; [apply Ha|].
  - by eapply Forall_after; [apply Ha|].
  - by eapply Forall_after; [apply Ha|].
Qed.

Lemma push_ok n w w' :
  is_authorization (kind_at n) = false → window_ok n w → count w < max_entries w →
  (budget_of (kind_at n) w < USIZE_MAX)%N → capacity (kind_at n) (tokens_at n) (budget_of (kind_at n) w) w = true →
  pool_mut (E := E) (kind_at n) (pool_push n (tokens_at n)) w = Ok w' → window_ok (S n) w'.
Proof.
  intros Hk [(P1 & P2 & P3) W2 W3 W4 W5 W6 W7 W8 W9] Hc Hb Hcap%N.leb_le Hm. unfold sat_add, budget_of in *.
  assert (Hperm : retained_entries w' ≡ₚ n :: retained_entries w).
  { destruct (kind_at n); try done; injection Hm as <-; unfold retained_entries; cbn; solve_Permutation. }
  assert (Hnew : n ∉ retained_entries w).
  { intros Hin. rewrite Forall_forall in W6. specialize (W6 n Hin). simpl in W6. lia. }
  assert (Hpush : ∀ p, pool_ok p → pool_ok (pool_push n (tokens_at n) p)).
  { unfold pool_ok. intros p Hp. cbn. rewrite tokens_of_app, Hp. cbn. lia. }
  assert (Hkinds : ∀ k p, kind_at n = k → Forall (λ i, kind_at i = k) (indices p) →
    Forall (λ i, kind_at i = k) (indices (pool_push n (tokens_at n) p))).
  { intros k p Hn Hp. apply Forall_app. by split; [|constructor]. }
  split.
  - destruct (kind_at n); try done; injection Hm as <-; (split; [|split]); (exact P1 || exact P2 || exact P3 || by apply Hpush).
  - rewrite Hperm. cbn [length]. destruct (kind_at n); try done; by injection Hm as <-.
  - destruct (kind_at n); try done; injection Hm as <-; cbn in *; lia.
  - destruct (kind_at n); try done; injection Hm as <-; cbn in *; lia.
  - rewrite Hperm. by constructor.
  - rewrite Hperm. constructor; [lia|]. eapply Forall_impl; [exact W6|]. simpl. lia.
  - destruct (kind_at n); try done; injection Hm as <-; (done || by apply Hkinds).
  - destruct (kind_at n); try done; injection Hm as <-; (done || by apply Hkinds).
  - destruct (kind_at n); try done; injection Hm as <-; (done || by apply Hkinds).
Qed.

(** An entry is either not kept, and then nothing is evicted for it, or kept, and then
    what went was old. *)
Lemma insert_spec n w :
  window_ok n w → (message_token_budget w < USIZE_MAX)%N → (tool_token_budget w < USIZE_MAX)%N →
  ∃ w', window_insert (E := E) entries n w = Ok w' ∧ window_ok (S n) w' ∧
        (w' = w ∨ ∃ w1, window_after w w1 ∧ pool_mut (E := E) (kind_at n) (pool_push n (tokens_at n)) w1 = Ok w').
Proof.
  intros Hw Hb1 Hb2. unfold window_insert. cbv zeta.
  assert (Hsame : window_ok (S n) w) by (by eapply window_ok_more; [|exact Hw]; lia).
  destruct (is_authorization (kind_at n)) eqn:Hk; [by eauto|]. destruct (Nat.eqb_spec (max_entries w) 0) as [Hz|Hz]; [by eauto|].
  cbn [orb]. destruct (token_room (kind_at n) (tokens_at n) w Hk (wk_pools _ _ Hw)) as [-> |(w1 & -> & Ha1 & Hcap)]; cbn [res_bind negb]; [by eauto|].
  pose proof (window_after_keeps _ _ _ Hw Ha1) as Hw1. pose proof (wa_max_entries _ _ Ha1) as Hm1.
  destruct (entry_room (kind_at n) w1 Hk (wk_pools _ _ Hw1)) as [[-> Hfull]|(w2 & -> & Ha2 & Hlt)]; cbn [res_bind negb].
  { by rewrite Hm1. } { apply Hw1. }
  - exists w1. destruct (window_after_smaller w w1 (wk_pools _ _ Hw) Ha1) as [-> |Hs]; [by eauto|].
    destruct Hw as [_ Hc _ _ _ _ _ _ _]. lia.
  - assert (Ha : window_after w w2) by (by eapply window_after_trans).
    pose proof (window_after_keeps _ _ _ Hw Ha) as Hw2.
    assert (Hpush : ∃ w', pool_mut (E := E) (kind_at n) (pool_push n (tokens_at n)) w2 = Ok w') by (destruct (kind_at n); try done; by eexists).
    destruct Hpush as [w' Hpush]. rewrite Hpush. exists w'. split; [done|]. split; [|right; by exists w2].
    assert (Hbud : budget_of (kind_at n) w2 = budget_of (kind_at n) w).
    { unfold budget_of. by rewrite (wa_message_budget _ _ Ha), (wa_tool_budget _ _ Ha). }
    apply (push_ok n w2); try done.
    + by rewrite (wa_max_entries _ _ Ha), <- Hm1.
    + rewrite Hbud. unfold budget_of. by case_match.
    + rewrite Hbud. revert Hcap. unfold capacity. rewrite !N.leb_le. intros Hcap. etrans; [|exact Hcap]. unfold sat_add.
      destruct (wk_pools _ _ Hw1) as (P1 & P2 & P3).
      destruct Ha2 as [_ _ _ A1%(pool_after_tokens _ _ P1) A2%(pool_after_tokens _ _ P2) A3%(pool_after_tokens _ _ P3)].
      destruct (kind_at n); lia.
Qed.

Lemma pool_mut_params k f w w' : pool_mut (E := E) k f w = Ok w' →
  message_token_budget w' = message_token_budget w ∧ tool_token_budget w' = tool_token_budget w ∧ max_entries w' = max_entries w.
Proof. by destruct k; intros [= <-]. Qed.

Lemma inserts_spec n w :
  window_ok 0 w → (message_token_budget w < USIZE_MAX)%N → (tool_token_budget w < USIZE_MAX)%N →
  ∃ w', window_inserts (E := E) entries (seq 0 n) w = Ok w' ∧ window_ok n w' ∧ message_token_budget w' = message_token_budget w ∧
        tool_token_budget w' = tool_token_budget w ∧ max_entries w' = max_entries w.
Proof.
  intros Hw Hb1 Hb2. unfold window_inserts. induction n as [|n (w1 & Hi & Hw1 & M1 & M2 & M3)]; [by exists w|].
  rewrite seq_S, foldM_app, Hi. cbn [res_bind Nat.add foldM].
  destruct (insert_spec n w1 Hw1) as (w' & -> & Hw' & Hcase); [congruence..|]. exists w'. split; [done|]. split; [done|].
  destruct Hcase as [-> |(w2 & Ha & (-> & -> & ->)%pool_mut_params)]; [done|]. destruct Ha. repeat split; congruence.
Qed.

Lemma window_new_ok config budget : window_ok 0 (window_new config budget).
Proof. split; try (by constructor); try done; cbn; lia. Qed.

End WindowFacts.

(** ** Facts about the selection *)

Section SelectFacts.
Context {E : Type} (entries : list TranscriptEntry) (config : RetentionConfig).
Implicit Types (p : TranscriptEntryKind → bool) (inc : list bool).

Abbreviation kind_at := (entry_kind_at entries).
Abbreviation tokens_of := (tokens_of entries).

(** The selected entries of some kinds. *)
Definition chosen p inc : list nat :=
  List.filter (λ i, bool_decide (inc !! i = Some true) && p (kind_at i)) (seq 0 (length entries)).

Lemma elem_of_chosen p inc i :
  i ∈ chosen p inc ↔ i < length entries ∧ inc !! i = Some true ∧ p (kind_at i) = true.
Proof.
  unfold chosen. rewrite list_elem_of_In, filter_In, <- list_elem_of_In, elem_of_seq, andb_true_iff, bool_decide_eq_true.
  split; intros; naive_solver lia.
Qed.
Lemma NoDup_chosen p inc : NoDup (chosen p inc).
Proof. apply NoDup_ListNoDup, List.NoDup_filter, seq_NoDup. Qed.

Lemma chosen_insert p inc i :
  i < length entries → inc !! i = Some false →
  chosen p (<[i := true]> inc) ≡ₚ (if p (kind_at i) then [i] else []) ++ chosen p inc.
Proof.
  intros Hi Hinc. assert (Hl : i < length inc) by (by apply lookup_lt_Some in Hinc).
  apply NoDup_Permutation.
  - apply NoDup_chosen.
  - destruct (p (kind_at i)); [|apply NoDup_chosen]. constructor; [|apply NoDup_chosen].
    rewrite elem_of_chosen, Hinc. naive_solver.
  - intros j. rewrite elem_of_app, !elem_of_chosen. destruct (decide (j = i)) as [->|Hj].
    + rewrite list_lookup_insert_eq, Hinc by done. destruct (p (kind_at i)); rewrite ?list_elem_of_singleton, ?elem_of_nil; naive_solver.
    + rewrite list_lookup_insert_ne by done. destruct (p (kind_at i)); rewrite ?list_elem_of_singleton, ?elem_of_nil; naive_solver.
Qed.

(** The kinds that are counted against the message budget, the tool budget, and the
    number of entries. *)
Definition is_tool k : bool := bool_decide (k = EkTool).
Definition is_message k : bool := negb (is_authorization k) && negb (is_tool k).
Definition is_evidence k : bool := negb (is_authorization k).

(** A selection with every authorization, and the rest within the limits. *)
Record selection_ok inc : Prop := {
  so_length : length inc = length entries;
  so_authorization i : i < length entries → is_authorization (kind_at i) = true → inc !! i = Some true;
  so_count : length (chosen is_evidence inc) ≤ max_recent_non_user_entries config;
  so_tool_tokens : (tokens_of (chosen is_tool inc) ≤ max_tool_transcript_tokens config)%N;
  so_message_tokens :
    (tokens_of (chosen is_message inc) ≤ max_message_transcript_tokens config - authorization_tokens entries)%N;
}.

Lemma kind_at_lookup i e : entries !! i = Some e → kind_at i = te_kind e.
Proof. intros H. unfold entry_kind_at. by rewrite H. Qed.

Lemma authorization_lookup i : i < length entries → authorization_included entries !! i = Some (is_authorization (kind_at i)).
Proof.
  intros Hi. destruct (lookup_lt_is_Some_2 entries i Hi) as [e He]. unfold authorization_included.
  rewrite list_lookup_fmap, He. cbn. by rewrite (kind_at_lookup i e He).
Qed.

Lemma chosen_authorization p : (∀ k, p k = true → is_authorization k = false) → chosen p (authorization_included entries) = [].
Proof.
  intros Hp. apply elem_of_nil_inv. intros i (Hi & Ha & Hk)%elem_of_chosen. rewrite authorization_lookup in Ha by done.
  injection Ha as Ha. rewrite (Hp _ Hk) in Ha. done.
Qed.

Lemma tool_evidence k : is_tool k = true → is_authorization k = false.
Proof. unfold is_tool. by intros ->%bool_decide_eq_true. Qed.
Lemma message_evidence k : is_message k = true → is_authorization k = false.
Proof. unfold is_message. by intros [?%negb_true_iff _]%andb_true_iff. Qed.
Lemma evidence_evidence k : is_evidence k = true → is_authorization k = false.
Proof. apply negb_true_iff. Qed.

(** *** The synchronous selection *)

Record sync_ok (todo : list nat) (st : SyncState) : Prop := {
  sy_length : length (included st) = length entries;
  sy_authorization i : i < length entries → is_authorization (kind_at i) = true → included st !! i = Some true;
  sy_todo i : i ∈ todo → i < length entries ∧ (is_authorization (kind_at i) = false → included st !! i = Some false);
  sy_count : retained_non_user_entries st = length (chosen is_evidence (included st));
  sy_count_le : retained_non_user_entries st ≤ max_recent_non_user_entries config;
  sy_tools : tool_tokens st = tokens_of (chosen is_tool (included st));
  sy_tools_le : (tool_tokens st ≤ max_tool_transcript_tokens config)%N;
  sy_messages : message_tokens st = (authorization_tokens entries + tokens_of (chosen is_message (included st)))%N;
  sy_messages_le : chosen is_message (included st) = [] ∨ (message_tokens st ≤ max_message_transcript_tokens config)%N;
}.

Context (Hmsg : (max_message_transcript_tokens config < USIZE_MAX)%N) (Htool : (max_tool_transcript_tokens config < USIZE_MAX)%N).

Lemma sync_step_ok i todo st : NoDup (i :: todo) → sync_ok (i :: todo) st → sync_ok todo (sync_step entries config st i).
Proof.
  intros [Hni _]%NoDup_cons Hst. pose proof Hst as [S1 S2 S3 S4 S5 S6 S7 S8 S9].
  assert (Hskip : sync_ok todo st) by (split; try done; intros j Hj; apply S3; by right).
  unfold sync_step. cbv zeta. destruct (S3 i) as [Hi Hfalse]; [by left|].
  destruct (is_authorization (kind_at i)) eqn:Hauth; [done|]. specialize (Hfalse eq_refl). cbn [orb].
  destruct (Nat.leb_spec (max_recent_non_user_entries config) (retained_non_user_entries st)) as [Hfull|Hroom]; [done|].
  pose proof (λ p, chosen_insert p _ _ Hi Hfalse) as Hins.
  assert (Hlook : ∀ j, j ≠ i → <[i:=true]> (included st) !! j = included st !! j) by (intros; by apply list_lookup_insert_ne).
  assert (Htodo : ∀ j, j ∈ todo → j < length entries ∧ (is_authorization (kind_at j) = false → <[i:=true]> (included st) !! j = Some false)).
  { intros j Hj. rewrite Hlook by (intros ->; done). apply S3. by right. }
  assert (Hau : ∀ j, j < length entries → is_authorization (kind_at j) = true → <[i:=true]> (included st) !! j = Some true).
  { intros j Hj Ha. rewrite Hlook by congruence. by apply S2. }
  assert (Hev : is_evidence (kind_at i) = true) by (unfold is_evidence; by rewrite Hauth).
  case_bool_decide as Hk; case_match eqn:Hfit; try done; apply N.leb_le in Hfit; unfold sat_add in Hfit.
  - assert (Ht : is_tool (kind_at i) = true ∧ is_message (kind_at i) = false) by (unfold is_message, is_tool; by rewrite Hk).
    destruct Ht as [Ht Hm]. split; cbn -[Guardian.tokens_of]; rewrite ?length_insert, ?Hins, ?Hev, ?Ht, ?Hm, ?tokens_of_app; try done.
    + cbn [length app]. lia.
    + cbn. lia.
    + lia.
    + destruct S9 as [S9|S9]; [left|by right]. apply Permutation_nil_r. rewrite Hins, Hm. by rewrite S9.
  - assert (Ht : is_tool (kind_at i) = false ∧ is_message (kind_at i) = true).
    { unfold is_message, is_tool. rewrite Hauth, bool_decide_eq_false_2 by done. done. }
    destruct Ht as [Ht Hm]. split; cbn -[Guardian.tokens_of]; rewrite ?length_insert, ?Hins, ?Hev, ?Ht, ?Hm, ?tokens_of_app; try done.
    + cbn [length app]. lia.
    + cbn. lia.
    + right. lia.
Qed.

Lemma sync_fold_ok todo st : NoDup todo → sync_ok todo st → sync_ok [] (foldl (sync_step entries config) st todo).
Proof.
  revert st. induction todo as [|i todo IH]; intros st Hd Hst; [done|]. apply IH; [by apply NoDup_cons in Hd as [_ ?]|].
  by apply sync_step_ok.
Qed.

Lemma sync_included_ok : selection_ok (sync_included entries config).
Proof.
  unfold sync_included. set (st0 := {| included := _ |}). set (todo := rev _).
  assert (Hd : NoDup todo) by (unfold todo; rewrite <- Permutation_rev; apply NoDup_ListNoDup, seq_NoDup).
  assert (H0 : sync_ok todo st0).
  { split; cbn [st0 included message_tokens tool_tokens retained_non_user_entries].
    - unfold authorization_included. by rewrite length_fmap.
    - intros i Hi Ha. by rewrite authorization_lookup, Ha.
    - intros i Hi. unfold todo in Hi. rewrite <- Permutation_rev, elem_of_seq in Hi. split; [lia|]. intros Ha.
      by rewrite authorization_lookup, Ha by lia.
    - by rewrite chosen_authorization by apply evidence_evidence.
    - lia.
    - by rewrite chosen_authorization by apply tool_evidence.
    - lia.
    - rewrite chosen_authorization by apply message_evidence. cbn. lia.
    - left. apply chosen_authorization, message_evidence. }
  destruct (sync_fold_ok todo st0 Hd H0) as [S1 S2 S3 S4 S5 S6 S7 S8 S9]. split; try done; [congruence..|].
  destruct S9 as [-> |S9]; [cbn|]; lia.
Qed.

(** *** The asynchronous selection *)

Lemma include_all_spec l inc p :
  length inc = length entries → NoDup l → (∀ i, i ∈ l → i < length entries ∧ inc !! i = Some false) →
  length (include_all l inc) = length entries ∧
  (∀ i, inc !! i = Some true → include_all l inc !! i = Some true) ∧
  chosen p (include_all l inc) ≡ₚ List.filter (λ i, p (kind_at i)) l ++ chosen p inc.
Proof.
  revert inc. induction l as [|i l IH]; intros inc Hlen Hd Hl; [done|]. apply NoDup_cons in Hd as [Hni Hd].
  destruct (Hl i) as [Hi Hf]; [by left|].
  destruct (IH (<[i := true]> inc)) as (I1 & I2 & I3); [by rewrite length_insert|done| |].
  { intros j Hj. rewrite list_lookup_insert_ne by (intros ->; done). apply Hl. by right. }
  change (include_all (i :: l) inc) with (include_all l (<[i:=true]> inc)). split; [done|]. split.
  - intros j Hj. apply I2. destruct (decide (j = i)) as [->|]; [congruence|]. by rewrite list_lookup_insert_ne.
  - rewrite I3, chosen_insert by done. cbn [List.filter]. destruct (p (kind_at i)); cbn [app]; [|done].
    by rewrite Permutation_middle.
Qed.

Lemma filter_kind_all p k l : Forall (λ i, kind_at i = k) l → List.filter (λ i, p (kind_at i)) l = if p k then l else [].
Proof.
  induction 1 as [|i l Hi Hl IH]; simpl; [by destruct (p k)|]. rewrite Hi, IH. by destruct (p k).
Qed.

Lemma chosen_window p n w inc :
  length entries = n → window_ok entries n w → (∀ k, p k = true → is_authorization k = false) →
  inc = include_all (retained_entries w) (authorization_included entries) →
  length inc = length entries ∧
  (∀ i, i < length entries → is_authorization (kind_at i) = true → inc !! i = Some true) ∧
  chosen p inc ≡ₚ (if p EkProtectedMessage then indices (protected_messages w) else []) ++
                  (if p EkMessage then indices (ordinary_messages w) else []) ++ (if p EkTool then indices (tools w) else []).
Proof.
  intros Hn [W1 W2 W3 W4 W5 W6 W7 W8 W9] Hp ->.
  assert (Hev : ∀ i, i ∈ retained_entries w → is_authorization (kind_at i) = false).
  { intros i. unfold retained_entries. rewrite !elem_of_app. rewrite !Forall_forall in W7, W8, W9.
    by intros [H|[H|H]]; [rewrite (W7 i H)|rewrite (W8 i H)|rewrite (W9 i H)]. }
  destruct (include_all_spec (retained_entries w) (authorization_included entries) p) as (I1 & I2 & I3).
  { unfold authorization_included. by rewrite length_fmap. } { done. }
  { intros i Hi. rewrite Forall_forall in W6. specialize (W6 i Hi). cbn in W6. split; [lia|].
    rewrite authorization_lookup by lia. f_equal. by apply Hev. }
  split; [done|]. split.
  - intros i Hi Ha. apply I2. by rewrite authorization_lookup, Ha.
  - rewrite I3, chosen_authorization by done. rewrite app_nil_r. unfold retained_entries. rewrite !List.filter_app.
    by rewrite (filter_kind_all p _ _ W7), (filter_kind_all p _ _ W8), (filter_kind_all p _ _ W9).
Qed.

Lemma async_included_ok : ∃ inc, async_included (E := E) entries config = Ok inc ∧ selection_ok inc.
Proof.
  unfold async_included. set (w0 := window_new config _). cbv zeta.
  destruct (inserts_spec (E := E) entries (length entries) w0) as (w & -> & Hw & M1 & M2 & M3); [apply window_new_ok|cbn; lia|done|].
  cbn [res_bind]. eexists. split; [reflexivity|]. set (inc := include_all _ _).
  pose proof (λ p Hp, chosen_window p _ w inc eq_refl Hw Hp eq_refl) as Hc.
  destruct (Hc is_evidence evidence_evidence) as (C1 & C2 & C3). destruct (Hc is_tool tool_evidence) as (_ & _ & C4).
  destruct (Hc is_message message_evidence) as (_ & _ & C5). destruct Hw as [(P1 & P2 & P3) W2 W3 W4 _ _ _ _ _].
  split; [done|done| | |].
  - rewrite C3. cbn -[retained_entries]. unfold retained_entries in W2. rewrite M3 in W2. exact W2.
  - rewrite C4. cbn -[Guardian.tokens_of]. rewrite <- P3. by rewrite M2 in W4.
  - rewrite C5. cbn -[Guardian.tokens_of]. rewrite app_nil_r, tokens_of_app, <- P1, <- P2. by rewrite M1 in W3.
Qed.

Lemma included_ok target : ∃ inc, included_entries (E := E) entries config target = Ok inc ∧ selection_ok inc.
Proof. destruct target; [exists (sync_included entries config); split; [done|apply sync_included_ok]|apply async_included_ok]. Qed.

End SelectFacts.

(** *** The rendered items *)

Definition is_historical {T} (b : Budgeted T) : bool := match retention b with RetainHistorical => true | _ => false end.

Lemma require_newest_content {T} n (l : list (Budgeted T)) : map content (require_newest n l) = map content l.
Proof. revert n. induction l as [|b l IH]; intros [|n]; simpl; try done. by destruct (retention b) as [| |[]]; simpl; rewrite IH. Qed.
Lemma require_newest_historical {T} n (l : list (Budgeted T)) :
  List.filter is_historical (require_newest n l) = List.filter is_historical l.
Proof.
  revert n. induction l as [|b l IH]; intros [|n]; simpl; try done. unfold is_historical at 2 3.
  by destruct (retention b) as [| |[]] eqn:Hr; simpl; unfold is_historical; rewrite ?Hr; fold (@is_historical T); rewrite IH.
Qed.

(** The texts of the selected entries. *)
Definition selected_texts (entries : list TranscriptEntry) (inc : list bool) : list str :=
  omap (λ '(e, b), if b : bool then Some (te_text e) else None) (zip entries inc).

Lemma rendered_content entries inc : map content (rendered_items entries inc) = selected_texts entries inc.
Proof.
  unfold rendered_items, selected_texts. revert inc. induction entries as [|e entries IH]; intros [|b inc]; try done.
  cbn. destruct b; cbn; by rewrite <- IH.
Qed.

Lemma rendered_historical entries inc :
  length inc = length entries →
  (∀ i, i < length entries → is_authorization (entry_kind_at entries i) = true → inc !! i = Some true) →
  map content (List.filter is_historical (rendered_items entries inc)) =
  map te_text (List.filter (λ e, is_authorization (te_kind e)) entries).
Proof.
  unfold rendered_items. revert inc. induction entries as [|e entries IH]; intros [|b inc] Hlen Ha; try done.
  injection Hlen as Hlen. assert (IH' := IH inc Hlen ltac:(intros i Hi; apply (Ha (S i)); cbn; lia)).
  pose proof (Ha 0 (Nat.lt_0_succ _)) as Hb. cbn in Hb |- *.
  destruct b, (te_kind e) eqn:Hk; cbn; rewrite ?Hk; cbn; rewrite ?IH'; try done; by specialize (Hb eq_refl).
Qed.

(** ** Properties *)

Section Properties.
Context `{IP : ItemPayloads} `{SZ : !Serialization}.

(** Whatever is recorded, reset and rolled back, the history of a reviewer is
    bounded: at most 128 user messages and 128 other items, and at most four megabytes of
    each. *)
Theorem history_within_limits (ops : list HistoryOp) (g : N) (is_user : bool) :
  (item_size ≤ MAX_BYTES_PER_KIND)%N →
  let own := of_kind is_user (items (history_run ops (history_new g))) in
  length own ≤ MAX_ITEMS_PER_KIND ∧ (bytes_of own ≤ MAX_BYTES_PER_KIND)%N.
Proof.
  intros Hsz. cbv zeta. revert is_user. change (history_ok (history_run ops (history_new g))).
  generalize (history_nil_ok g). unfold history_new. generalize {| items := []; generation := g |}.
  induction ops as [|op ops IH]; intros h Hh; [done|].
  apply (IH (history_step op h)). by apply history_step_ok.
Qed.

(** Recording an item never evicts an item of the other kind: tool traffic cannot
    drop what the user said. Of its own kind, it evicts nothing when there is room, and
    else the oldest and as few as leave the room the kind keeps; an item that is too large is
    recorded by its text, or leaves the history as it was. A change of what was retained
    changes the generation. *)
Theorem record_evicts_own_kind (i : ResponseItem) (h : TranscriptHistory) :
  (item_size ≤ MAX_BYTES_PER_KIND)%N →
  history_record i h = h ∨
  ∃ i' size evicted,
    (i' = i ∨ measure i = None ∧ text_only i = Some i') ∧
    of_kind (negb (is_user_message i)) (items (history_record i h)) = of_kind (negb (is_user_message i)) (items h) ∧
    kept_own (is_user_message i) i' size (of_kind (is_user_message i) (items h))
      (of_kind (is_user_message i) (items (history_record i h))) evicted ∧
    generation (history_record i h) = (if evicted then u64_succ (generation h) else generation h).
Proof.
  intros Hsz. destruct (record_cases i h) as [Hr|(i' & n & Hn & Hu & Hr & Hi)]; [by left|right].
  destruct (keep_exact i' n h) as (K1 & evicted & K2 & K3 & _); [by apply measure_le|]. rewrite Hu in K1, K2. rewrite Hr.
  by exists i', (n - executed_tool_call_metadata_bytes i')%N, evicted.
Qed.

(** C25. A reviewer that continues from its cursor misses nothing: whatever happens to
    the history after a selection, the next selection from the cursor is either the entries
    after all the ones reviewed, in the same history, or, when the retained history has
    changed, the full transcript. *)
Theorem delta_continues_review {Entry : Type} (collect : list ResponseItem → list Entry)
    (Hcollect : ∀ l l', collect l `prefix_of` collect (l ++ l')) (mode : TranscriptMode) (ops : list HistoryOp)
    (h : TranscriptHistory) :
  (generation h < USIZE_MAX)%N →
  let h' := history_run ops h in
  let reviewed := collect (map fst (items h)) in
  let now := collect (map fst (items h')) in
  let cursor := (select mode reviewed (generation h)).2 in
  match (select (DeltaMode cursor) now (generation h')).1 with
  | DeltaSelection new offset => now = reviewed ++ new ∧ offset = length reviewed
  | FullSelection all => all = now ∧ generation h' ≠ generation h
  end.
Proof.
  intros Hg. cbv zeta. destruct (history_run_prefix ops h) as [_ Hp]. cbn. destruct (N.eqb_spec (generation h) (generation (history_run ops h))) as [He|He].
  2:{ by split. }
  destruct (Hp (eq_sym He) Hg) as [new Hnew]. rewrite Hnew, map_app. destruct (Hcollect (map fst (items h)) (map fst new)) as [rest ->].
  rewrite length_app. cbn [andb]. rewrite (proj2 (Nat.leb_le _ _)) by lia. split; [|done]. by rewrite drop_app_length.
Qed.
End Properties.

(** C26. A transcript is always rendered, without a panic, and what is rendered is a
    selection of its entries, in their order, with every message of the user and every manual
    approval complete and kept as history; the other entries are within the limits of
    their number, and of the tokens of messages beside the authorizations and of tools. *)
Theorem rendered_transcript_complete {E} (profile : ContextProfile) (transcript : list ConversationTranscriptEntry)
    (offset : N) :
  (max_message_transcript_tokens (profile_retention profile) < USIZE_MAX)%N →
  (max_tool_transcript_tokens (profile_retention profile) < USIZE_MAX)%N →
  let entries := numbered_entries (profile_target profile) offset transcript in
  ∃ r inc, render_transcript (E := E) profile transcript offset = Ok r ∧
    selection_ok entries (profile_retention profile) inc ∧
    map content (rt_items r) = selected_texts entries inc ∧
    map content (List.filter is_historical (rt_items r)) =
      map te_text (List.filter (λ e, is_authorization (te_kind e)) entries).
Proof.
  intros Hm Ht. cbv zeta. unfold render_transcript. set (entries := numbered_entries _ _ _).
  destruct (included_ok (E := E) entries (profile_retention profile) Hm Ht (profile_target profile)) as (inc & -> & Hok).
  cbn [res_bind]. eexists _, inc. split; [reflexivity|]. split; [done|]. cbn [rt_items]. split.
  - by rewrite map_rev, require_newest_content, map_rev, rev_involutive, rendered_content.
  - rewrite List.filter_rev, require_newest_historical, List.filter_rev, rev_involutive.
    apply rendered_historical; apply Hok.
Qed.

(** Taking the entries in order, the window of the asynchronous profile refuses an
    entry without evicting anything for it, or keeps it, and then only the oldest entries of
    each pool are gone: evidence is never given up for an entry that does not fit beside
    it. *)
Theorem refused_entry_evicts_nothing {E} (entries : list TranscriptEntry) (config : RetentionConfig) (budget : N)
    (n : nat) :
  (budget < USIZE_MAX)%N → (max_tool_transcript_tokens config < USIZE_MAX)%N →
  ∃ w w', window_inserts (E := E) entries (seq 0 n) (window_new config budget) = Ok w ∧
    window_insert (E := E) entries n w = Ok w' ∧
    (w' = w ∨ ∃ w1, window_after entries w w1 ∧ retained_entries w' ≡ₚ n :: retained_entries w1).
Proof.
  intros Hb Ht. destruct (inserts_spec (E := E) entries n (window_new config budget)) as (w & Hi & Hw & M1 & M2 & _);
    [by apply window_ok_more with 0; [lia|apply window_new_ok]|done|done|].
  destruct (insert_spec (E := E) entries n w Hw) as (w' & Hins & _ & Hcase); [by rewrite M1|by rewrite M2|].
  exists w, w'. split; [done|]. split; [done|]. destruct Hcase as [Hsame|(w1 & Ha & Hm)]; [by left|right].
  exists w1. split; [done|]. destruct (entry_kind_at entries n); try done; injection Hm as <-; unfold retained_entries; cbn; solve_Permutation.
Qed.

(** ** A review *)

#[local] Instance bare_payloads : ItemPayloads :=
  {| Value := unit; Number := unit; MessagePhase := unit; AgentMessageInputContent := unit;
     ReasoningItemReasoningSummary := unit; ReasoningItemContent := unit; LocalShellStatus := unit;
     LocalShellAction := unit; WebSearchAction := unit; ConfigurationReasoning := unit; ImageDetail := unit;
     ExecutedToolCall := unit |}.

(** Every piece of content is one write of a hundred bytes, but for images. *)
#[local] Instance hundred_bytes : Serialization :=
  {| item_size := 200;
     item_eqb _ _ := false;
     item_writes i :=
       Some (match i with
             | Message _ _ content _ _ => map (λ c, if is_image_content c then 5000000 else 100)%N content
             | _ => [1500000%N]
             end);
     reasoning_writes _ := Some [];
     header_writes _ _ _ _ := Some [50%N];
     content_writes _ := Some [100%N];
     calls_writes _ := Some [];
     metadata_writes _ := Some [2%N] |}.

Definition sample_user (text : str) : ResponseItem := Message (Some text) (lit "user") [CiInputText text] None None.
Definition sample_image (text : str) : ResponseItem :=
  Message (Some text) (lit "user") [CiInputText text; CiInputImage (File (lit "file-1")) None] None None.
Definition sample_tool : ResponseItem := FunctionCallOutput None (Some (lit "1")) None None (payload_from_text (lit "ok")) None.

Definition sample_reviews : list HistoryOp :=
  [HRecord (sample_user (lit "stay in src")); HRecord sample_tool; HRecord sample_tool; HRecord (sample_image (lit "see this"));
   HRecord sample_tool].

(** The third output evicts the first; the image is replaced with its text. *)
Example sample_history :
  map (λ e, (is_user_message e.1, e.2)) (items (history_run sample_reviews (history_new 0))) =
    [(true, 300%N); (false, 1500200%N); (true, 300%N); (false, 1500200%N)] ∧
  generation (history_run sample_reviews (history_new 0)) = 1%N.
Proof. vm_compute. by split. Qed.

Lemma history_within_limits_witness :
  let own := of_kind true (items (history_run sample_reviews (history_new 0))) in
  length own ≤ MAX_ITEMS_PER_KIND ∧ (bytes_of own ≤ MAX_BYTES_PER_KIND)%N.
Proof. apply history_within_limits. vm_compute. discriminate. Defined.

Lemma record_evicts_own_kind_witness :
  let h := history_run sample_reviews (history_new 0) in
  history_record sample_tool h = h ∨
  ∃ i' size evicted,
    (i' = sample_tool ∨ measure sample_tool = None ∧ text_only sample_tool = Some i') ∧
    of_kind true (items (history_record sample_tool h)) = of_kind true (items h) ∧
    kept_own false i' size (of_kind false (items h)) (of_kind false (items (history_record sample_tool h))) evicted ∧
    generation (history_record sample_tool h) = (if evicted then u64_succ (generation h) else generation h).
Proof. apply (record_evicts_own_kind sample_tool). vm_compute. discriminate. Defined.

Lemma delta_continues_review_witness :
  let h := history_run (take 2 sample_reviews) (history_new 0) in
  let h' := history_run [HRecord (sample_image (lit "see this"))] h in
  (select (DeltaMode (select FullMode (map fst (items h)) (generation h)).2) (map fst (items h')) (generation h')).1 =
    DeltaSelection [sample_user (lit "see this")] 2 ∧
  match (select (DeltaMode (select FullMode (map fst (items h)) (generation h)).2) (map fst (items h')) (generation h')).1 with
  | DeltaSelection new offset => map fst (items h') = map fst (items h) ++ new ∧ offset = length (map fst (items h))
  | FullSelection all => all = map fst (items h') ∧ generation h' ≠ generation h
  end.
Proof.
  split; [vm_compute; reflexivity|].
  apply (delta_continues_review (λ l, l)); [intros l l'; by apply prefix_app_r|vm_compute; reflexivity].
Defined.

Definition sample_transcript : list ConversationTranscriptEntry :=
  [{| ce_kind := CkUser; ce_text := lit "inspect only"; ce_original_bytes := 12 |};
   {| ce_kind := CkProtectedAssistant; ce_text := lit "proposed action"; ce_original_bytes := 15 |};
   {| ce_kind := CkAssistant; ce_text := lit "working"; ce_original_bytes := 7 |}].
Definition one_entry (p : ContextProfile) : ContextProfile :=
  {| profile_target := profile_target p; profile_options := profile_options p; profile_entry_limits := profile_entry_limits p;
     profile_retention :=
       {| max_message_transcript_tokens := max_message_transcript_tokens (profile_retention p);
          max_tool_transcript_tokens := max_tool_transcript_tokens (profile_retention p); max_recent_non_user_entries := 1 |};
     profile_include_images := profile_include_images p |}.

(** The test [profiles_preserve_distinct_retention_and_original_numbering]. *)
Example sample_profiles :
  (rt_items <$> match render_transcript (E := unit) (one_entry profile_synchronous) sample_transcript 7 with Ok r => Some r | _ => None end) =
    Some [{| content := lit "[8] user: inspect only"; retention := RetainHistorical |};
          {| content := lit "[10] assistant: working"; retention := RetainOptional CommentaryPriority |}] ∧
  (rt_items <$> match render_transcript (E := unit) (one_entry profile_asynchronous) sample_transcript 0 with Ok r => Some r | _ => None end) =
    Some [{| content := lit "[1] user: inspect only" ++ [c_lf]; retention := RetainHistorical |};
          {| content := lit "[2] assistant: proposed action" ++ [c_lf]; retention := RetainRequired |}].
Proof. vm_compute. by split. Qed.

Lemma rendered_transcript_complete_witness :
  let entries := numbered_entries SyncTarget 7 sample_transcript in
  ∃ r inc, render_transcript (E := unit) (one_entry profile_synchronous) sample_transcript 7 = Ok r ∧
    selection_ok entries (profile_retention (one_entry profile_synchronous)) inc ∧
    map content (rt_items r) = selected_texts entries inc ∧
    map content (List.filter is_historical (rt_items r)) =
      map te_text (List.filter (λ e, is_authorization (te_kind e)) entries).
Proof. apply (rendered_transcript_complete (one_entry profile_synchronous)); vm_compute; reflexivity. Defined.

Lemma refused_entry_evicts_nothing_witness :
  let entries := numbered_entries AsyncTarget 0 sample_transcript in
  let config := profile_retention (one_entry profile_asynchronous) in
  ∃ w w', window_inserts (E := unit) entries (seq 0 2) (window_new config 100) = Ok w ∧
    window_insert (E := unit) entries 2 w = Ok w' ∧
    (w' = w ∨ ∃ w1, window_after entries w w1 ∧ retained_entries w' ≡ₚ 2 :: retained_entries w1).
Proof. apply refused_entry_evicts_nothing; vm_compute; reflexivity. Defined.
