(* ===== verification/ThreadSample.v ===== *)
(** * Threads by example

    Rollouts of two turns, with a command and a rollback, over sample payloads: the
    theorems at concrete lines, and two behaviours of forks and of resumed
    sessions that the comments of the source do not lead one to expect. *)

From stdpp Require Import gmap.
From S2P Require Import Prelude RustStr RustOrd Truncate ResponseItem WorldState ThreadItem ThreadHistory.
From S2P Require Import ThreadHistoryRuns Rollout Reconstruct Normalize.
Open Scope list_scope.

(** ** Payloads *)

#[local] Instance sample_thread_payloads : ThreadPayloads :=
  {| PathUri := str; ReasoningEffort := unit; MisalignmentErrorDetails := unit; McpAppUi := unit;
     ModelInvocationContext := unit; TurnContextRest := unit; CompactedRest := unit; RolloutRest := unit;
     json_null := tt; uri_join u s := Some (u ++ lit "/" ++ s); uri_app_path := id;
     abs_join u s := u ++ lit "/" ++ s; redact_secrets := id; shlex_try_join l := Some (join [c_sp] l);
     parse_command l := [PcUnknown (join [c_sp] l)]; from_xml_str _ := None |}.

(** Every message content that starts with a brace is an envelope that triggers a turn. *)
#[local] Instance sample_envelopes : EnvelopeReader :=
  {| envelope_from_str s :=
       if starts_with (lit "{") s
       then Some {| iac_id := None; iac_author := lit "a"; iac_recipient := lit "b"; iac_other_recipients := [];
                    iac_content := s; iac_encrypted_content := None; iac_meta := None; iac_trigger_turn := true |}
       else None |}.

#[local] Instance sample_uuids : UuidReader :=
  {| Uuid := str; uuid_parse_str s := Some s; get_version_num _ := 7%N |}.

(** ** Lines *)

Definition s_start (id : str) : RolloutItem :=
  RiEventMsg (EvTurnStarted {| ts_turn_id := id; ts_root_turn_id := None; ts_started_at := None |}).
Definition s_complete (id : str) : RolloutItem :=
  RiEventMsg (EvTurnComplete {| tc_turn_id := id; tc_error := None; tc_completed_at := None; tc_duration_ms := None |}).
Definition s_user (text : str) : RolloutItem :=
  RiEventMsg (EvUserMessage {| um_client_id := None; um_message := text; um_images := None; um_image_details := [];
    um_file_ids := None; um_file_id_details := []; um_image_order := []; um_local_images := [];
    um_local_image_details := []; um_audio := None; um_local_audio := []; um_text_elements := [] |}).
Definition s_message (text : str) : RolloutItem :=
  RiResponseItem (envelope_new (Message None (lit "user") [CiInputText text] None None)).
Definition s_begin : ExecCommandBeginEvent :=
  {| eb_call_id := lit "c1"; eb_plugin_id := None; eb_script_path := None; eb_process_id := None;
     eb_turn_id := lit "t1"; eb_command := [lit "ls"]; eb_cwd := lit "/w"; eb_parsed_cmd := [];
     eb_source := CsAgent |}.
Definition s_end : ExecCommandEndEvent :=
  {| ee_begin := s_begin; ee_aggregated_output := lit "ok"; ee_exit_code := 0; ee_duration := 5%N;
     ee_status := EsCompleted |}.
Definition s_rollback (n : N) : RolloutItem := RiEventMsg (EvThreadRolledBack n).
Definition s_context (id model : str) : RolloutItem :=
  RiTurnContext {| ctx_turn_id := Some id; ctx_model := model; ctx_comp_hash := None; ctx_realtime_active := None;
                   ctx_rest := tt |}.
Definition s_compacted (window : option N) : RolloutItem :=
  RiCompacted {| cp_message := []; cp_replacement_history := Some []; cp_window_number := window;
                 cp_first_window_id := None; cp_previous_window_id := None; cp_window_id := None; cp_rest := tt |}.

Definition t1 : str := lit "t1".
Definition t2 : str := lit "t2".
Definition s_fresh (n : nat) : str := lit "fresh".

Definition s_before : list RolloutItem := [s_start t1; s_user (lit "hi")].
Definition s_batch : list RolloutItem :=
  [RiEventMsg (EvExecCommandBegin s_begin); RiEventMsg (EvExecCommandEnd s_end); s_complete t1; s_start t2;
   s_user (lit "again"); s_rollback 1].

(** ** The history *)

(** The table of a client after the first lines. *)
Definition s_table : HistoryTable := apply_changes (handle_rollout_items_with_changes s_fresh s_before builder_new).1 empty_table.

Lemma s_distinct : Forall distinct_ids (run_states s_fresh s_batch (replay s_fresh s_before builder_new)).
Proof. apply (bool_decide_unpack _). vm_compute. exact I. Qed.

Lemma s_shows : shows s_table (replay s_fresh s_before builder_new).
Proof.
  split; [vm_compute; reflexivity|]. split.
  - apply Forall_forall. vm_compute. repeat constructor.
  - apply Forall_forall. vm_compute. repeat constructor.
Qed.

Lemma batch_changes_complete_witness :
  let b := replay s_fresh s_before builder_new in
  let '(c, b') := handle_rollout_items_with_changes s_fresh s_batch b in
  b' = replay s_fresh s_batch b ∧ shows (apply_changes c s_table) b' ∧
  map ic_turn_id (changed_items c) = [t1] ∧ removed_turn_ids c = [t2] ∧ map turn_id (builder_finish b') = [t1].
Proof.
  pose proof (batch_changes_complete s_fresh s_before s_batch s_table s_distinct s_shows) as H.
  cbv zeta in *. destruct (handle_rollout_items_with_changes _ _ _) as [c b'] eqn:E. destruct H as [H1 H2].
  split; [exact H1|]. split; [exact H2|]. vm_compute in E. injection E as <- <-. vm_compute. auto.
Defined.

(** The open turn after the command began. *)
Definition s_turn : PendingTurn :=
  default (new_turn [] None builder_new)
    (current_turn (replay s_fresh (s_before ++ [RiEventMsg (EvExecCommandBegin s_begin)]) builder_new)).

Lemma upsert_is_search_witness :
  s_turn ∈ all_turns (replay s_fresh (s_before ++ [RiEventMsg (EvExecCommandBegin s_begin)]) builder_new) ∧
  pt_items (upsert_in (build_command_execution_end_item s_end) s_turn)
  = upsert_by item_id (build_command_execution_end_item s_end) (pt_items s_turn) ∧
  length (pt_items (upsert_in (build_command_execution_end_item s_end) s_turn)) = 2.
Proof.
  assert (Hin : s_turn ∈ all_turns (replay s_fresh (s_before ++ [RiEventMsg (EvExecCommandBegin s_begin)]) builder_new)).
  { vm_compute. left. }
  split; [exact Hin|]. split; [exact (upsert_is_search s_fresh _ s_turn _ Hin)|]. vm_compute. reflexivity.
Defined.

(** ** Truncation *)

Definition s_dialogue : list RolloutItem :=
  [s_message (lit "a"); s_message (lit "b"); s_rollback 1; s_message (lit "<skill>x</skill>"); s_message (lit "c");
   s_message (lit "d")].

Lemma truncate_before_user_message_exact_witness :
  user_message_positions_in_rollout s_dialogue = [0; 4; 5] ∧
  user_message_positions_in_rollout (truncate_rollout_before_nth_user_message_from_start s_dialogue 2) = [0; 4].
Proof.
  split; [vm_compute; reflexivity|].
  destruct (truncate_before_user_message_exact s_dialogue 2 ltac:(vm_compute; discriminate)) as [H _].
  rewrite H. vm_compute. reflexivity.
Defined.

(** A turn that ends after the next one started is complete in the history, so that
    a fork after it is accepted; in the fork it is in progress. *)
Lemma fork_after_late_completion :
  let items := [s_start t1; s_start t2; s_complete t1; s_complete t2] in
  truncate_rollout_after_turn_id s_fresh items t1 = Ok [s_start t1] ∧
  map turn_status (build_turns_from_rollout_items s_fresh items) = [TsCompleted; TsCompleted] ∧
  map turn_status (build_turns_from_rollout_items s_fresh [s_start t1]) = [TsInProgress].
Proof. vm_compute. auto. Qed.

(** ** Reconstruction *)

Definition s_session : list RolloutItem :=
  [s_start t1; s_user (lit "hi"); s_context t1 (lit "m1"); s_complete t1].

Definition s_dropped : list RolloutItem :=
  [s_start t2; s_user (lit "no"); s_context t2 (lit "m2"); s_complete t2].

Lemma rolled_back_turns_leave_no_trace_witness :
  rm_previous_turn_settings (reconstruct_metadata (s_session ++ concat [s_dropped] ++ [s_rollback 1]))
  = Some {| pts_model := lit "m1"; pts_comp_hash := None; pts_realtime_active := None |} ∧
  rm_previous_turn_settings (reconstruct_metadata (s_session ++ s_dropped))
  = Some {| pts_model := lit "m2"; pts_comp_hash := None; pts_realtime_active := None |}.
Proof.
  split; [|vm_compute; reflexivity].
  destruct (rolled_back_turns_leave_no_trace s_session [s_dropped] eq_refl ltac:(vm_compute; discriminate))
    as (_ & _ & H & _).
  etrans; [exact H|]. vm_compute. reflexivity.
Defined.

(** A checkpoint without the number of its window, after a compaction with one: the
    scan ends before it sees the number, and restores another. *)
Lemma early_stop_window_differs :
  let items := [s_start t1; s_user (lit "a"); s_compacted (Some 5%N); s_complete t1; s_start t2;
                s_user (lit "b"); s_compacted None; s_context t2 (lit "m"); s_complete t2] in
  window_number (rm_window (reconstruct_metadata items)) = 2%N ∧
  window_number (rm_window (reconstruct_all items)) = 5%N.
Proof. vm_compute. auto. Qed.
