(* ===== verification/IpAddr.v ===== *)
(** * IP addresses

    The [std::net] addresses the network proxy uses: the parser of [IpAddr]
    with its backtracking, the classification predicates, and the proxy's own
    classification of addresses that are not public
    ([network-proxy/src/policy.rs]).  Octets and 16-bit segments are [N]; the
    parser yields values of their width ([ip_parse_wf]). *)

From S2P Require Import Prelude RustStr.
From stdpp Require Import list.

(** ** Addresses *)

Record Ipv4Addr := Ipv4 { o1 : N; o2 : N; o3 : N; o4 : N }.
Record Ipv6Addr := Ipv6 { g1 : N; g2 : N; g3 : N; g4 : N; g5 : N; g6 : N; g7 : N; g8 : N }.
Inductive IpAddr := V4 (a : Ipv4Addr) | V6 (a : Ipv6Addr).

#[export] Instance ipv4_eq_dec : EqDecision Ipv4Addr.
Proof. solve_decision. Defined.
#[export] Instance ipv6_eq_dec : EqDecision Ipv6Addr.
Proof. solve_decision. Defined.
#[export] Instance ipaddr_eq_dec : EqDecision IpAddr.
Proof. solve_decision. Defined.

Definition octet_wf (o : N) : Prop := (o < 256)%N.
Definition segment_wf (g : N) : Prop := (g < 65536)%N.
Definition ipv4_wf (a : Ipv4Addr) : Prop := octet_wf (o1 a) ∧ octet_wf (o2 a) ∧ octet_wf (o3 a) ∧ octet_wf (o4 a).
Definition segments (a : Ipv6Addr) : list N := [g1 a; g2 a; g3 a; g4 a; g5 a; g6 a; g7 a; g8 a].
Definition ipv6_wf (a : Ipv6Addr) : Prop := Forall segment_wf (segments a).
Definition ip_wf (a : IpAddr) : Prop := match a with V4 a => ipv4_wf a | V6 a => ipv6_wf a end.

#[export] Instance ipv4_wf_dec a : Decision (ipv4_wf a).
Proof. unfold ipv4_wf, octet_wf. apply _. Defined.

(** [u32::from(Ipv4Addr)]. *)
Definition ipv4_bits (a : Ipv4Addr) : N := (((o1 a * 256 + o2 a) * 256 + o3 a) * 256 + o4 a)%N.

Definition LOCALHOST_V4 : Ipv4Addr := Ipv4 127 0 0 1.
Definition LOCALHOST_V6 : Ipv6Addr := Ipv6 0 0 0 0 0 0 0 1.
Definition UNSPECIFIED_V6 : Ipv6Addr := Ipv6 0 0 0 0 0 0 0 0.

(** ** The parser of [core::net] *)

Section parser.

(** [char::to_digit]. *)
Definition to_digit (radix : N) (c : char) : option N :=
  let d := if is_ascii_digit c then Some (c - 48)%N
           else if ((97 <=? c) && (c <=? 102))%N then Some (c - 87)%N
           else if ((65 <=? c) && (c <=? 70))%N then Some (c - 55)%N
           else None in
  match d with
  | Some n => if (n <? radix)%N then Some n else None
  | None => None
  end.

(** The digit loop of [read_number] with [max_digits]; [n] counts the digits read. *)
Fixpoint read_digits (radix : N) (max n : nat) (acc : N) (s : str) : option (nat * N * str) :=
  match s with
  | [] => Some (n, acc, [])
  | c :: s' =>
      match to_digit radix c with
      | Some d => if decide (max < S n) then None
                  else read_digits radix max (S n) (acc * radix + d)%N s'
      | None => Some (n, acc, s)
      end
  end.

(** [read_number::<T>] into an integer type with maximum [limit]. *)
Definition read_number (radix : N) (max : nat) (allow_zero_prefix : bool) (limit : N) (s : str)
    : option (N * str) :=
  let has_leading_zero := bool_decide (head s = Some 48%N) in
  match read_digits radix max 0 0 s with
  | None => None
  | Some (n, v, rest) =>
      if decide (n = 0) then None
      else if negb allow_zero_prefix && has_leading_zero && bool_decide (1 < n) then None
      else if (v <=? limit)%N then Some (v, rest) else None
  end.

Definition read_given_char (c : char) (s : str) : option str :=
  match s with
  | d :: s' => if (d =? c)%N then Some s' else None
  | [] => None
  end.

(** [read_separator]: the separator precedes every element but the first. *)
Definition read_separator {A} (sep : char) (index : nat) (inner : str → option (A * str)) (s : str)
    : option (A * str) :=
  match index with
  | 0 => inner s
  | S _ => s' ← read_given_char sep s; inner s'
  end.

Definition read_octet : str → option (N * str) := read_number 10 3 false 255.
Definition read_segment : str → option (N * str) := read_number 16 4 true 65535.

Definition read_ipv4_addr (s : str) : option (Ipv4Addr * str) :=
  '(a, s) ← read_separator c_dot 0 read_octet s;
  '(b, s) ← read_separator c_dot 1 read_octet s;
  '(c, s) ← read_separator c_dot 2 read_octet s;
  '(d, s) ← read_separator c_dot 3 read_octet s;
  Some (Ipv4 a b c d, s).

(** [read_groups]: [left] groups are still free, [i] have been read; the flag
    says whether the last two came from an embedded IPv4 address. *)
Fixpoint read_groups (left i : nat) (s : str) : list N * bool * str :=
  match left with
  | 0 => ([], false, s)
  | S left' =>
      match (if decide (left' = 0) then None else read_separator c_colon i read_ipv4_addr s) with
      | Some (v4, s') => ([(o1 v4 * 256 + o2 v4)%N; (o3 v4 * 256 + o4 v4)%N], true, s')
      | None =>
          match read_separator c_colon i read_segment s with
          | Some (g, s') => let '(gs, b, s'') := read_groups left' (S i) s' in (g :: gs, b, s'')
          | None => ([], false, s)
          end
      end
  end.

Definition ipv6_of_groups (gs : list N) : Ipv6Addr :=
  let g i := default 0%N (gs !! i) in Ipv6 (g 0) (g 1) (g 2) (g 3) (g 4) (g 5) (g 6) (g 7).

Definition read_ipv6_addr (s : str) : option (Ipv6Addr * str) :=
  let '(head, head_ipv4, s1) := read_groups 8 0 s in
  if decide (length head = 8) then Some (ipv6_of_groups head, s1)
  else if head_ipv4 then None
  else
    s2 ← read_given_char c_colon s1;
    s3 ← read_given_char c_colon s2;
    let '(tail, _, s4) := read_groups (8 - (length head + 1)) 0 s3 in
    Some (ipv6_of_groups (head ++ replicate (8 - length head - length tail) 0%N ++ tail), s4).

(** [str::parse::<IpAddr>]: an IPv4 address, or else an IPv6 address, and nothing after it. *)
Definition ip_parse (s : str) : option IpAddr :=
  match (match read_ipv4_addr s with
         | Some (a, r) => Some (V4 a, r)
         | None => match read_ipv6_addr s with Some (a, r) => Some (V6 a, r) | None => None end
         end) with
  | Some (a, []) => Some a
  | _ => None
  end.

End parser.

(** ** Classification in [std::net] *)

Definition ipv4_is_loopback (a : Ipv4Addr) : bool := (o1 a =? 127)%N.
Definition ipv4_is_private (a : Ipv4Addr) : bool :=
  (o1 a =? 10)%N || ((o1 a =? 172) && (16 <=? o2 a) && (o2 a <=? 31))%N || ((o1 a =? 192) && (o2 a =? 168))%N.
Definition ipv4_is_link_local (a : Ipv4Addr) : bool := ((o1 a =? 169) && (o2 a =? 254))%N.
Definition ipv4_is_unspecified (a : Ipv4Addr) : bool := bool_decide (a = Ipv4 0 0 0 0).
Definition ipv4_is_multicast (a : Ipv4Addr) : bool := ((224 <=? o1 a) && (o1 a <=? 239))%N.
Definition ipv4_is_broadcast (a : Ipv4Addr) : bool := bool_decide (a = Ipv4 255 255 255 255).

Definition ipv6_is_loopback (a : Ipv6Addr) : bool := bool_decide (a = LOCALHOST_V6).
Definition ipv6_is_unspecified (a : Ipv6Addr) : bool := bool_decide (a = UNSPECIFIED_V6).
Definition ipv6_is_multicast (a : Ipv6Addr) : bool := (N.land (g1 a) 0xff00 =? 0xff00)%N.
Definition ipv6_is_unique_local (a : Ipv6Addr) : bool := (N.land (g1 a) 0xfe00 =? 0xfc00)%N.
Definition ipv6_is_unicast_link_local (a : Ipv6Addr) : bool := (N.land (g1 a) 0xffc0 =? 0xfe80)%N.

(** [Ipv6Addr::to_ipv4]: IPv4-compatible and IPv4-mapped addresses. *)
Definition to_ipv4 (a : Ipv6Addr) : option Ipv4Addr :=
  if bool_decide (g1 a = 0 ∧ g2 a = 0 ∧ g3 a = 0 ∧ g4 a = 0 ∧ g5 a = 0 ∧ (g6 a = 0 ∨ g6 a = 0xffff))%N
  then Some (Ipv4 (g7 a / 256) (g7 a mod 256) (g8 a / 256) (g8 a mod 256))
  else None.

Definition ip_is_loopback (a : IpAddr) : bool :=
  match a with V4 a => ipv4_is_loopback a | V6 a => ipv6_is_loopback a end.

(** ** Classification in the proxy *)

Definition U32_MAX : N := (2 ^ 32 - 1)%N.

(** Every call passes a [prefix] of at most 32: for a larger one [32 - prefix] underflows. *)
Definition ipv4_in_cidr (ip base : Ipv4Addr) (prefix : N) : bool :=
  let mask := if (prefix =? 0)%N then 0%N else N.land (N.shiftl U32_MAX (32 - prefix)) U32_MAX in
  (N.land (ipv4_bits ip) mask =? N.land (ipv4_bits base) mask)%N.

Definition is_non_public_ipv4 (ip : Ipv4Addr) : bool :=
  ipv4_is_loopback ip
  || ipv4_is_private ip
  || ipv4_is_link_local ip
  || ipv4_is_unspecified ip
  || ipv4_is_multicast ip
  || ipv4_is_broadcast ip
  || ipv4_in_cidr ip (Ipv4 0 0 0 0) 8
  || ipv4_in_cidr ip (Ipv4 100 64 0 0) 10
  || ipv4_in_cidr ip (Ipv4 192 0 0 0) 24
  || ipv4_in_cidr ip (Ipv4 192 0 2 0) 24
  || ipv4_in_cidr ip (Ipv4 198 18 0 0) 15
  || ipv4_in_cidr ip (Ipv4 198 51 100 0) 24
  || ipv4_in_cidr ip (Ipv4 203 0 113 0) 24
  || ipv4_in_cidr ip (Ipv4 240 0 0 0) 4.

Definition is_non_public_ipv6 (ip : Ipv6Addr) : bool :=
  match to_ipv4 ip with
  | Some v4 => is_non_public_ipv4 v4 || ipv6_is_loopback ip
  | None =>
      ipv6_is_loopback ip || ipv6_is_unspecified ip || ipv6_is_multicast ip
      || ipv6_is_unique_local ip || ipv6_is_unicast_link_local ip
  end.

Definition is_non_public_ip (ip : IpAddr) : bool :=
  match ip with V4 ip => is_non_public_ipv4 ip | V6 ip => is_non_public_ipv6 ip end.

(** ** The parser yields addresses of their width *)

Lemma read_number_limit radix max z limit s v r : read_number radix max z limit s = Some (v, r) → (v ≤ limit)%N.
Proof.
  unfold read_number. destruct (read_digits radix max 0 0 s) as [[[n w] t]|]; [|done].
  repeat case_decide; repeat case_match; try done. all: intros [= <- <-]; by apply N.leb_le.
Qed.

Lemma read_separator_inner {A} sep i (inner : str → option (A * str)) s x :
  read_separator sep i inner s = Some x → ∃ s', inner s' = Some x.
Proof. destruct i; simpl; [eauto|]. intros (s' & _ & H)%bind_Some. eauto. Qed.

Lemma read_octet_wf i s a r : read_separator c_dot i read_octet s = Some (a, r) → octet_wf a.
Proof. intros [s' H%read_number_limit]%read_separator_inner. unfold octet_wf. lia. Qed.

Lemma read_ipv4_addr_wf s a r : read_ipv4_addr s = Some (a, r) → ipv4_wf a.
Proof.
  unfold read_ipv4_addr. intros H.
  apply bind_Some in H as ([a1 s1] & H1 & H). apply bind_Some in H as ([a2 s2] & H2 & H).
  apply bind_Some in H as ([a3 s3] & H3 & H). apply bind_Some in H as ([a4 s4] & H4 & [= <- <-]).
  repeat split; simpl; eauto using read_octet_wf.
Qed.

Lemma read_groups_wf left i s gs b r :
  read_groups left i s = (gs, b, r) → Forall segment_wf gs ∧ length gs ≤ left.
Proof.
  revert i s gs b r. induction left as [|left IH]; intros i s gs b r; simpl; [by intros [= <- <- <-]|].
  destruct (if decide (left = 0) then None else read_separator c_colon i read_ipv4_addr s) as [[v4 s']|] eqn:E4.
  - intros [= <- <- <-]. case_decide; [done|]. apply read_separator_inner in E4 as [t Ht%read_ipv4_addr_wf].
    destruct Ht as (Ha & Hb & Hc & Hd). unfold octet_wf, segment_wf in *.
    split; [|simpl; lia]. repeat constructor; lia.
  - destruct (read_separator c_colon i read_segment s) as [[g s']|] eqn:Eg.
    + destruct (read_groups left (S i) s') as [[gs' b'] s''] eqn:Er. intros [= <- <- <-].
      apply IH in Er as [Hgs Hl]. split; [|simpl; lia]. constructor; [|done].
      apply read_separator_inner in Eg as [t Ht%read_number_limit]. unfold segment_wf. lia.
    + intros [= <- <- <-]. split; [done|simpl; lia].
Qed.

Lemma ipv6_of_groups_wf gs : Forall segment_wf gs → ipv6_wf (ipv6_of_groups gs).
Proof.
  intros H. assert (Hi : ∀ i, segment_wf (default 0%N (gs !! i))).
  { intros i. destruct (gs !! i) as [g|] eqn:E; [|done]. by eapply Forall_lookup_1 in E. }
  unfold ipv6_wf, segments, ipv6_of_groups. simpl. repeat constructor; apply Hi.
Qed.

Lemma read_ipv6_addr_wf s a r : read_ipv6_addr s = Some (a, r) → ipv6_wf a.
Proof.
  unfold read_ipv6_addr. destruct (read_groups 8 0 s) as [[head b] s1] eqn:E1.
  apply read_groups_wf in E1 as [Hh Hl]. case_decide; [intros [= <- <-]; by apply ipv6_of_groups_wf|].
  destruct b; [done|]. intros (s2 & _ & (s3 & _ & Hr)%bind_Some)%bind_Some.
  destruct (read_groups _ 0 s3) as [[tail b'] s4] eqn:E2. apply read_groups_wf in E2 as [Ht _].
  injection Hr as <- <-. apply ipv6_of_groups_wf. rewrite !Forall_app. repeat split; try done.
  by apply Forall_replicate.
Qed.

Lemma ip_parse_wf s a : ip_parse s = Some a → ip_wf a.
Proof.
  unfold ip_parse. destruct (read_ipv4_addr s) as [[v4 r]|] eqn:E4.
  - destruct r; [|done]. intros [= <-]. by eapply read_ipv4_addr_wf.
  - destruct (read_ipv6_addr s) as [[v6 r]|] eqn:E6; [|done]. destruct r; [|done].
    intros [= <-]. by eapply read_ipv6_addr_wf.
Qed.

(** ** CIDR blocks are intervals *)

Lemma land_high_mask w x k :
  (k ≤ w)%N → (x < 2 ^ w)%N → N.land x (N.land (N.shiftl (N.ones w) k) (N.ones w)) = (x / 2 ^ k * 2 ^ k)%N.
Proof.
  intros Hk Hx. rewrite <- N.shiftr_div_pow2, <- N.shiftl_mul_pow2. apply N.bits_inj. intros i.
  rewrite !N.land_spec. destruct (N.lt_ge_cases i k) as [Hi|Hi].
  - rewrite !N.shiftl_spec_low by done. by rewrite andb_false_r.
  - rewrite !N.shiftl_spec_high' by done. rewrite N.shiftr_spec by lia. replace (i - k + k)%N with i by lia.
    destruct (N.lt_ge_cases i w) as [H|H].
    + rewrite !N.ones_spec_low by lia. by rewrite !andb_true_r.
    + rewrite (N.ones_spec_high w i) by lia. rewrite !andb_false_r. symmetry.
      destruct (N.eq_dec x 0%N) as [->|]; [apply N.bits_0|]. apply N.bits_above_log2.
      assert (N.log2 x < w)%N by (apply N.log2_lt_pow2; [lia|done]). lia.
Qed.

(** Equality of the high bits with those of an aligned [b] is membership in an interval. *)
Lemma high_bits_interval w x b k :
  (k ≤ w)%N → (x < 2 ^ w)%N → (b mod 2 ^ k = 0)%N →
  N.land x (N.land (N.shiftl (N.ones w) k) (N.ones w)) = b ↔ (b ≤ x < b + 2 ^ k)%N.
Proof.
  intros Hk Hx Hb. rewrite land_high_mask by done. set (p := (2 ^ k)%N) in *.
  assert (0 < p)%N by (apply N.neq_0_lt_0, N.pow_nonzero; lia).
  pose proof (N.div_mod x p ltac:(lia)) as Hq. pose proof (N.mod_lt x p ltac:(lia)).
  pose proof (N.div_mod b p ltac:(lia)) as Hq'. rewrite Hb, N.add_0_r in Hq'.
  generalize dependent (x mod p)%N. generalize dependent (x / p)%N. generalize dependent (b / p)%N.
  intros q' Hb' q r -> Hlt. subst b. rewrite (N.mul_comm q). split.
  - intros ->%N.mul_cancel_l; lia.
  - intros He. f_equal. destruct (N.lt_trichotomy q q') as [Hl|[Hl|Hl]]; [|done|].
    + pose proof (N.mul_le_mono_l (q + 1) q' p ltac:(lia)). lia.
    + pose proof (N.mul_le_mono_l (q' + 1) q p ltac:(lia)). lia.
Qed.

Lemma ipv4_bits_bound a : ipv4_wf a → (ipv4_bits a < 2 ^ 32)%N.
Proof. intros (?&?&?&?). unfold octet_wf, ipv4_bits in *. lia. Qed.

(** An address is in [base/prefix], when [base] is aligned, iff its number is one of the
    [2 ^ (32 - prefix)] from [base] on. *)
Lemma ipv4_in_cidr_interval ip base prefix :
  ipv4_wf ip → ipv4_wf base → (0 < prefix ≤ 32)%N → (ipv4_bits base mod 2 ^ (32 - prefix) = 0)%N →
  ipv4_in_cidr ip base prefix = true ↔
  (ipv4_bits base ≤ ipv4_bits ip < ipv4_bits base + 2 ^ (32 - prefix))%N.
Proof.
  intros Hip Hb Hp Hal. unfold ipv4_in_cidr. destruct (N.eqb_spec prefix 0); [lia|].
  change U32_MAX with (N.ones 32). rewrite N.eqb_eq.
  rewrite (land_high_mask 32 (ipv4_bits base)) by (try lia; by apply ipv4_bits_bound).
  rewrite <- (high_bits_interval 32) by (try done; try lia; by apply ipv4_bits_bound).
  pose proof (N.div_mod (ipv4_bits base) (2 ^ (32 - prefix)) ltac:(apply N.pow_nonzero; lia)) as Hq.
  rewrite Hal, N.add_0_r in Hq. by rewrite (N.mul_comm (_ / _)), <- Hq.
Qed.

(** The IPv4 blocks that are not public, as base address and prefix length. *)
Definition NON_PUBLIC_V4_BLOCKS : list (Ipv4Addr * N) :=
  [(Ipv4 0 0 0 0, 8); (Ipv4 10 0 0 0, 8); (Ipv4 100 64 0 0, 10); (Ipv4 127 0 0 0, 8);
   (Ipv4 169 254 0 0, 16); (Ipv4 172 16 0 0, 12); (Ipv4 192 0 0 0, 24); (Ipv4 192 0 2 0, 24);
   (Ipv4 192 168 0 0, 16); (Ipv4 198 18 0 0, 15); (Ipv4 198 51 100 0, 24); (Ipv4 203 0 113 0, 24);
   (Ipv4 224 0 0 0, 4); (Ipv4 240 0 0 0, 4)]%N.

Definition in_block (a : Ipv4Addr) (b : Ipv4Addr * N) : Prop :=
  (ipv4_bits b.1 ≤ ipv4_bits a < ipv4_bits b.1 + 2 ^ (32 - b.2))%N.

Ltac octets :=
  repeat match goal with
    | H : ipv4_wf _ |- _ => destruct H as (?&?&?&?)
    | a : Ipv4Addr |- _ => destruct a
    end;
  unfold octet_wf, ipv4_bits in *; simpl in *;
  repeat match goal with
    | |- context [(2 ^ ?e)%N] => let v := eval vm_compute in (2 ^ e)%N in change (2 ^ e)%N with v
    end.

Lemma ipv4_in_cidr_block ip base prefix :
  ipv4_wf ip → bool_decide (ipv4_wf base ∧ (0 < prefix ≤ 32 ∧ ipv4_bits base mod 2 ^ (32 - prefix) = 0)%N) = true →
  ipv4_in_cidr ip base prefix = true ↔ in_block ip (base, prefix).
Proof. intros Hip (Hb & Hp & Hm)%bool_decide_eq_true. by apply ipv4_in_cidr_interval. Qed.

Lemma ipv4_is_loopback_block a : ipv4_wf a → ipv4_is_loopback a = true ↔ in_block a (Ipv4 127 0 0 0, 8%N).
Proof. intros H. unfold ipv4_is_loopback, in_block. octets. rewrite N.eqb_eq. lia. Qed.

Lemma ipv4_is_private_block a : ipv4_wf a →
  ipv4_is_private a = true ↔
  in_block a (Ipv4 10 0 0 0, 8%N) ∨ in_block a (Ipv4 172 16 0 0, 12%N) ∨ in_block a (Ipv4 192 168 0 0, 16%N).
Proof.
  intros H. unfold ipv4_is_private, in_block. octets.
  rewrite !orb_true_iff, !andb_true_iff, !N.eqb_eq, !N.leb_le. lia.
Qed.

Lemma ipv4_is_link_local_block a : ipv4_wf a → ipv4_is_link_local a = true ↔ in_block a (Ipv4 169 254 0 0, 16%N).
Proof. intros H. unfold ipv4_is_link_local, in_block. octets. rewrite andb_true_iff, !N.eqb_eq. lia. Qed.

Lemma ipv4_is_multicast_block a : ipv4_wf a → ipv4_is_multicast a = true ↔ in_block a (Ipv4 224 0 0 0, 4%N).
Proof. intros H. unfold ipv4_is_multicast, in_block. octets. rewrite andb_true_iff, !N.leb_le. lia. Qed.

Lemma ipv4_is_unspecified_block a : ipv4_is_unspecified a = true → in_block a (Ipv4 0 0 0 0, 8%N).
Proof. intros ->%bool_decide_eq_true. unfold in_block. octets. lia. Qed.

Lemma ipv4_is_broadcast_block a : ipv4_is_broadcast a = true → in_block a (Ipv4 240 0 0 0, 4%N).
Proof. intros ->%bool_decide_eq_true. unfold in_block. octets. lia. Qed.

Lemma is_non_public_ipv4_blocks a :
  ipv4_wf a → is_non_public_ipv4 a = true ↔ Exists (in_block a) NON_PUBLIC_V4_BLOCKS.
Proof.
  intros H. unfold is_non_public_ipv4, NON_PUBLIC_V4_BLOCKS.
  rewrite !Exists_cons, Exists_nil, !orb_true_iff, !ipv4_in_cidr_block by (done || reflexivity).
  rewrite ipv4_is_loopback_block, ipv4_is_private_block, ipv4_is_link_local_block, ipv4_is_multicast_block by done.
  pose proof (ipv4_is_unspecified_block a). pose proof (ipv4_is_broadcast_block a). tauto.
Qed.

(** What the proxy takes for a local address: an IPv4 address in one of the blocks, also when it is
    carried by an IPv6 address, and otherwise the multicast, unique local and link local IPv6 prefixes. *)
Definition non_public (a : IpAddr) : Prop :=
  match a with
  | V4 a => Exists (in_block a) NON_PUBLIC_V4_BLOCKS
  | V6 a =>
      match to_ipv4 a with
      | Some v4 => Exists (in_block v4) NON_PUBLIC_V4_BLOCKS
      | None => (0xfc00 ≤ g1 a < 0xfe00)%N ∨ (0xfe80 ≤ g1 a < 0xfec0)%N ∨ (0xff00 ≤ g1 a)%N
      end
  end.

Lemma to_ipv4_wf a v : ipv6_wf a → to_ipv4 a = Some v → ipv4_wf v.
Proof.
  unfold ipv6_wf, segments, to_ipv4. intros H. repeat (apply Forall_cons in H as [? H]). unfold segment_wf in *.
  case_bool_decide; [|done]. intros [= <-]. repeat split; simpl; unfold octet_wf;
    (apply N.mod_lt; lia) || apply N.Div0.div_lt_upper_bound; lia.
Qed.

Lemma is_non_public_ip_classified a : ip_wf a → is_non_public_ip a = true ↔ non_public a.
Proof.
  destruct a as [a|a]; simpl; intros Ha; [by apply is_non_public_ipv4_blocks|]. unfold is_non_public_ipv6.
  destruct (to_ipv4 a) as [v|] eqn:E.
  - rewrite orb_true_iff. rewrite <- is_non_public_ipv4_blocks by by eapply to_ipv4_wf. split; [|by left].
    intros [?|Hl%bool_decide_eq_true]; [done|]. subst a. by injection E as <-.
  - assert (Hg : (g1 a < 2 ^ 16)%N) by (unfold ipv6_wf in Ha; apply Forall_cons in Ha as [? _]; done).
    assert (ipv6_is_loopback a = false ∧ ipv6_is_unspecified a = false) as [-> ->].
    { split; apply bool_decide_eq_false; intros ->; done. }
    simpl. rewrite !orb_true_iff. unfold ipv6_is_multicast, ipv6_is_unique_local, ipv6_is_unicast_link_local.
    rewrite !N.eqb_eq. rewrite (high_bits_interval 16 _ 0xff00 8), (high_bits_interval 16 _ 0xfc00 9),
      (high_bits_interval 16 _ 0xfe80 6) by (done || reflexivity || lia). simpl. lia.
Qed.

(** The classification is the one of the table: an address is taken for local exactly when it lies
    in one of the special blocks, for every address the parser can produce. *)
Theorem is_non_public_ip_blocks a : ip_wf a → is_non_public_ip a = true ↔ non_public a.
Proof. apply is_non_public_ip_classified. Qed.

Example is_non_public_ip_blocks_witness :
  ip_parse (lit "::ffff:10.1.2.3") = Some (V6 (Ipv6 0 0 0 0 0 0xffff 0x0a01 0x0203)) ∧
  non_public (V6 (Ipv6 0 0 0 0 0 0xffff 0x0a01 0x0203)).
Proof.
  split; [reflexivity|]. apply (is_non_public_ip_blocks (V6 (Ipv6 0 0 0 0 0 0xffff 0x0a01 0x0203))); [|reflexivity].
  apply (ip_parse_wf (lit "::ffff:10.1.2.3")). reflexivity.
Defined.

(** The comment of [is_non_public_ipv6] promises that whatever is not globally routable is local;
    the documentation prefix [2001:db8::/32], the old site-local prefix and IPv4 addresses behind the
    NAT64 prefix are taken for public, here [2001:db8::1], [fec0::1] and [64:ff9b::127.0.0.1]. *)
Theorem non_routable_ipv6_taken_for_public :
  Forall (λ s, is_non_public_ip <$> ip_parse s = Some false)
    [lit "2001:db8::1"; lit "fec0::1"; lit "64:ff9b::127.0.0.1"].
Proof. repeat constructor. Qed.
