(* ===== verification/NetPolicy.v ===== *)
(** * Hosts and domain patterns of the network proxy

    [network-proxy/src/policy.rs]: the normal form of hosts and patterns, the
    compilation of allow and deny lists to sets of globs, and the comparison of
    patterns with the patterns an administrator allows.  The glob matcher
    ([globset]) and the host parser of URLs ([url]) are other packages: the
    classes [GlobOps] and [UrlHostOps]. *)

From stdpp Require Import list.
From S2P Require Import Prelude RustStr IpAddr.

(** ** Strings *)

Definition c_lbracket : char := 91%N.
Definition c_rbracket : char := 93%N.
Definition c_percent : char := 37%N.
Definition c_star : char := 42%N.
Definition c_question : char := 63%N.

(** ** Hosts *)

Definition unscoped_ip_literal (host : str) : option str :=
  '(ip, _) ← split_once c_percent host;
  _ ← ip_parse ip;
  Some ip.

(** One turn of the loop over the delimiters of [normalize_ip_literal]. *)
Definition scoped_ip_literal (delimiter host : str) : option str :=
  match split_once_str delimiter host with
  | Some (ip, scope) =>
      match ip_parse ip with Some _ => Some (ip ++ [c_percent] ++ scope) | None => None end
  | None => None
  end.

Definition normalize_ip_literal (host : str) : option str :=
  match ip_parse host with
  | Some _ => Some host
  | None =>
      match scoped_ip_literal (lit "%25") host with
      | Some h => Some h
      | None => scoped_ip_literal (lit "%") host
      end
  end.

Definition normalize_dns_host_or_ip_literal (host : str) : str :=
  let host := to_ascii_lowercase host in
  let host := trim_end_matches c_dot host in
  match normalize_ip_literal host with
  | Some ip => ip
  | None => host
  end.

Definition normalize_host (host : str) : str :=
  let host := trim host in
  match (if starts_with [c_lbracket] host then str_find [c_rbracket] host else None) with
  | Some end_ => normalize_dns_host_or_ip_literal (take (end_ - 1) (drop 1 host))
  | None =>
      if bool_decide (count_char c_colon host = 1) then
        normalize_dns_host_or_ip_literal (default [] (head (split_char c_colon host)))
      else normalize_dns_host_or_ip_literal host
  end.

(** [Host]: a string that [Host::parse] returned. *)
Abbreviation Host := str (only parsing).
Inductive HostError := HostEmpty.
Definition host_parse (input : str) : res HostError Host :=
  let normalized := normalize_host input in
  if bool_decide (normalized = []) then Err HostEmpty else Ok normalized.

Definition is_loopback_host (host : Host) : bool :=
  let host := default host (unscoped_ip_literal host) in
  if bool_decide (host = lit "localhost") then true
  else match ip_parse host with
       | Some ip => ip_is_loopback ip
       | None => false
       end.

Definition is_default_proxy_bypass_host (host : str) : bool :=
  let host := normalize_host host in
  match ip_parse host with
  | Some (V4 ip) => bool_decide (ip = LOCALHOST_V4) || ipv4_is_private ip
  | Some (V6 ip) => bool_decide (ip = LOCALHOST_V6)
  | None => bool_decide (host = lit "localhost") || ends_with (lit ".localhost") host
  end.

(** ** Patterns *)

Definition normalize_pattern (pattern : str) : str :=
  let pattern := trim pattern in
  if bool_decide (pattern = lit "*") then lit "*"
  else
    let '(prefix, remainder) :=
      match strip_prefix (lit "**.") pattern with
      | Some domain => (lit "**.", domain)
      | None =>
          match strip_prefix (lit "*.") pattern with
          | Some domain => (lit "*.", domain)
          | None => ([], pattern)
          end
      end in
    let remainder := normalize_host remainder in
    if bool_decide (prefix = []) then remainder else prefix ++ remainder.

Inductive DomainPattern :=
  | ApexAndSubdomains (domain : str)
  | SubdomainsOnly (domain : str)
  | Exact (domain : str).

Definition parse_domain (domain : str) (build : str → DomainPattern) : DomainPattern :=
  let domain := trim domain in
  if bool_decide (domain = []) then Exact [] else build domain.

Definition domain_pattern_parse (input : str) : DomainPattern :=
  let input := trim input in
  if bool_decide (input = []) then Exact []
  else match strip_prefix (lit "**.") input with
       | Some domain => parse_domain domain ApexAndSubdomains
       | None =>
           match strip_prefix (lit "*.") input with
           | Some domain => parse_domain domain SubdomainsOnly
           | None => Exact input
           end
       end.

Definition expand_domain_pattern (pattern : str) : list str :=
  match domain_pattern_parse pattern with
  | Exact domain => [domain]
  | SubdomainsOnly domain => [lit "?*." ++ domain]
  | ApexAndSubdomains domain => [domain; lit "?*." ++ domain]
  end.

Definition is_global_wildcard_domain_pattern (pattern : str) : bool :=
  let normalized := normalize_pattern pattern in
  existsb (λ candidate, bool_decide (candidate = lit "*")) (expand_domain_pattern normalized).

Definition normalize_domain (domain : str) : str := to_ascii_lowercase (trim_end_matches c_dot domain).
Definition domain_eq (left right : str) : bool := bool_decide (normalize_domain left = normalize_domain right).

Definition is_subdomain_or_equal (child parent : str) : bool :=
  let child := normalize_domain child in
  let parent := normalize_domain parent in
  if bool_decide (child = parent) then true else ends_with ([c_dot] ++ parent) child.

Definition is_strict_subdomain (child parent : str) : bool :=
  let child := normalize_domain child in
  let parent := normalize_domain parent in
  negb (bool_decide (child = parent)) && ends_with ([c_dot] ++ parent) child.

Definition allows (self candidate : DomainPattern) : bool :=
  match self, candidate with
  | Exact domain, Exact candidate => domain_eq candidate domain
  | Exact _, _ => false
  | SubdomainsOnly domain, Exact candidate => is_strict_subdomain candidate domain
  | SubdomainsOnly domain, SubdomainsOnly candidate => is_subdomain_or_equal candidate domain
  | SubdomainsOnly domain, ApexAndSubdomains candidate => is_strict_subdomain candidate domain
  | ApexAndSubdomains domain, Exact candidate => is_subdomain_or_equal candidate domain
  | ApexAndSubdomains domain, SubdomainsOnly candidate => is_subdomain_or_equal candidate domain
  | ApexAndSubdomains domain, ApexAndSubdomains candidate => is_subdomain_or_equal candidate domain
  end.

(** ** The host parser of URLs

    [url::Host::parse], with the textual form of its result. *)

Class UrlHostOps := url_host_parse : str → option str.

Section constraints.
Context {UH : UrlHostOps}.

Definition parse_domain_for_constraints (domain : str) : str :=
  let domain := trim_end_matches c_dot (trim domain) in
  if bool_decide (domain = []) then []
  else
    let host :=
      if starts_with [c_lbracket] domain && ends_with [c_rbracket] domain
      then take (length domain - 1 - 1) (drop 1 domain) else domain in
    if contains_char c_star host || contains_char c_question host || contains_char c_percent host
    then domain
    else match url_host_parse host with
         | Some host => host
         | None => []
         end.

Definition parse_for_constraints (input : str) : DomainPattern :=
  let input := trim input in
  if bool_decide (input = []) then Exact []
  else match strip_prefix (lit "**.") input with
       | Some domain => ApexAndSubdomains (parse_domain_for_constraints domain)
       | None =>
           match strip_prefix (lit "*.") input with
           | Some domain => SubdomainsOnly (parse_domain_for_constraints domain)
           | None => Exact (parse_domain_for_constraints input)
           end
       end.

End constraints.

(** ** Sets of globs

    [GlobBuilder] with its three options, [GlobSetBuilder] and [GlobSet].  A
    pattern that is not a glob is an error, as is a set that is too large. *)

Record GlobOptions := { case_insensitive : bool; literal_separator : bool; backslash_escape : bool }.

Class GlobOps := {
  Glob : Type;
  GlobSet : Type;
  glob_build : GlobOptions → str → option Glob;
  glob_is_match : Glob → str → bool;
  globset_build : list Glob → option GlobSet;
  globset_is_match : GlobSet → str → bool;
}.

Inductive GlobalWildcard := WildcardAllow | WildcardReject.
#[export] Instance global_wildcard_eq_dec : EqDecision GlobalWildcard.
Proof. solve_decision. Defined.

Inductive GlobError :=
  | UnsupportedGlobalWildcard
  | InvalidGlobPattern (candidate : str)
  | GlobSetTooLarge.

Section globs.
Context {GO : GlobOps}.

(** [GlobBuilder::new(&candidate).case_insensitive(true)]; the default of the
    other options on platforms whose separator is a slash. *)
Definition domain_glob_options : GlobOptions :=
  {| case_insensitive := true; literal_separator := false; backslash_escape := true |}.

(** The inner loop: [seen] and the globs of the builder. *)
Definition add_candidate (st : list str * list Glob) (candidate : str) : res GlobError (list str * list Glob) :=
  let '(seen, globs) := st in
  if bool_decide (candidate ∈ seen) then Ok (seen, globs)
  else
    let? glob := ok_or (glob_build domain_glob_options candidate) (InvalidGlobPattern candidate) in
    Ok (candidate :: seen, globs ++ [glob]).

(** The outer loop. *)
Definition add_pattern (global_wildcard : GlobalWildcard) (st : list str * list Glob) (pattern : str)
    : res GlobError (list str * list Glob) :=
  if bool_decide (global_wildcard = WildcardReject) && is_global_wildcard_domain_pattern pattern
  then Err UnsupportedGlobalWildcard
  else foldM add_candidate st (expand_domain_pattern (normalize_pattern pattern)).

Definition compile_globset_with_policy (patterns : list str) (global_wildcard : GlobalWildcard)
    : res GlobError GlobSet :=
  let? st := foldM (add_pattern global_wildcard) ([], []) patterns in
  ok_or (globset_build st.2) GlobSetTooLarge.

Definition compile_allowlist_globset (patterns : list str) : res GlobError GlobSet :=
  compile_globset_with_policy patterns WildcardAllow.
Definition compile_denylist_globset (patterns : list str) : res GlobError GlobSet :=
  compile_globset_with_policy patterns WildcardReject.

Definition globset_matches_host_or_unscoped (set : GlobSet) (host : str) : bool :=
  globset_is_match set host
  || match unscoped_ip_literal host with Some ip => globset_is_match set ip | None => false end.

End globs.

(** * Facts about hosts and domain patterns

    Normalising ignores the case of its input and yields lower-case strings
    without a final dot; comparing patterns decides the inclusion of the hosts
    they stand for; a compiled set matches what its patterns' globs match.  The
    laws of the glob matcher are the class [LawfulGlobs], with an instance. *)

(** ** Letter case *)

(** A char that no letter is lowered to. *)
Definition caseless (a : char) : bool :=
  (negb ((65 <=? a) && (a <=? 90)) && negb ((97 <=? a) && (a <=? 122)))%N.

Lemma ascii_lower_caseless a c : caseless a = true → ascii_lower c = a ↔ c = a.
Proof.
  unfold caseless, ascii_lower. rewrite andb_true_iff, !negb_true_iff, !andb_false_iff, !N.leb_gt.
  case_match; [|done]. apply andb_true_iff in H as [H1%N.leb_le H2%N.leb_le]. lia.
Qed.

Lemma ascii_lower_idemp c : ascii_lower (ascii_lower c) = ascii_lower c.
Proof.
  unfold ascii_lower. destruct ((65 <=? c) && (c <=? 90))%N eqn:E; [|by rewrite E].
  apply andb_true_iff in E as [E1%N.leb_le E2%N.leb_le].
  destruct ((65 <=? c + 32) && (c + 32 <=? 90))%N eqn:E'; [|done].
  apply andb_true_iff in E' as [_ E'%N.leb_le]. lia.
Qed.

Lemma is_whitespace_letters c : (33 ≤ c ≤ 132)%N → is_whitespace c = false.
Proof.
  intros Hc. unfold is_whitespace. rewrite !orb_false_iff, !andb_false_iff, !N.leb_gt, !N.eqb_neq. lia.
Qed.

Lemma is_whitespace_lower c : is_whitespace (ascii_lower c) = is_whitespace c.
Proof.
  unfold ascii_lower. destruct ((65 <=? c) && (c <=? 90))%N eqn:E; [|done].
  apply andb_true_iff in E as [E1%N.leb_le E2%N.leb_le]. rewrite !is_whitespace_letters by lia. done.
Qed.

Lemma to_ascii_lowercase_idemp s : to_ascii_lowercase (to_ascii_lowercase s) = to_ascii_lowercase s.
Proof. unfold to_ascii_lowercase. rewrite map_map. apply map_ext, ascii_lower_idemp. Qed.

Lemma to_ascii_lowercase_app a b : to_ascii_lowercase (a ++ b) = to_ascii_lowercase a ++ to_ascii_lowercase b.
Proof. apply map_app. Qed.

Lemma to_ascii_lowercase_caseless a : forallb caseless a = true → to_ascii_lowercase a = a.
Proof.
  induction a as [|c a IH]; simpl; [done|]. intros [Hc Ha]%andb_true_iff. rewrite IH by done. f_equal.
  by apply ascii_lower_caseless.
Qed.

Lemma eqb_lower a c : caseless a = true → (a =? ascii_lower c)%N = (a =? c)%N.
Proof.
  intros Ha. destruct (N.eqb_spec a c) as [->|Hn]; [apply N.eqb_eq; symmetry; by apply ascii_lower_caseless|].
  apply N.eqb_neq. intros E. apply Hn. symmetry. by apply ascii_lower_caseless.
Qed.

Lemma drop_while_lower p s :
  (∀ c, p (ascii_lower c) = p c) → drop_while p (to_ascii_lowercase s) = to_ascii_lowercase (drop_while p s).
Proof. intros Hp. induction s as [|c s IH]; simpl; [done|]. rewrite Hp. by destruct (p c). Qed.

Lemma drop_while_end_lower p s :
  (∀ c, p (ascii_lower c) = p c) → drop_while_end p (to_ascii_lowercase s) = to_ascii_lowercase (drop_while_end p s).
Proof.
  intros Hp. unfold drop_while_end. unfold to_ascii_lowercase at 1. rewrite <- map_rev.
  change (map ascii_lower (rev s)) with (to_ascii_lowercase (rev s)). rewrite drop_while_lower by done.
  unfold to_ascii_lowercase. by rewrite map_rev.
Qed.

Lemma trim_lower s : trim (to_ascii_lowercase s) = to_ascii_lowercase (trim s).
Proof.
  unfold trim, trim_end, trim_start.
  rewrite drop_while_lower, drop_while_end_lower; auto using is_whitespace_lower.
Qed.

Lemma trim_end_matches_lower c s :
  caseless c = true → trim_end_matches c (to_ascii_lowercase s) = to_ascii_lowercase (trim_end_matches c s).
Proof. intros Hc. apply drop_while_end_lower. intros d. by apply eqb_lower. Qed.

Lemma strip_prefix_cons a p c s :
  strip_prefix (a :: p) (c :: s) = if (a =? c)%N then strip_prefix p s else None.
Proof. done. Qed.

Lemma strip_prefix_lower p s :
  forallb caseless p = true → strip_prefix p (to_ascii_lowercase s) = to_ascii_lowercase <$> strip_prefix p s.
Proof.
  revert s. induction p as [|a p IH]; intros s; simpl; [done|]. intros [Ha Hp]%andb_true_iff.
  destruct s as [|c s]; [done|]. cbn [to_ascii_lowercase map].
  rewrite !strip_prefix_cons, eqb_lower by done. destruct (a =? c)%N; [by apply IH|done].
Qed.

Lemma starts_with_lower p s :
  forallb caseless p = true → starts_with p (to_ascii_lowercase s) = starts_with p s.
Proof. intros Hp. unfold starts_with. rewrite strip_prefix_lower by done. by destruct (strip_prefix p s). Qed.

Lemma str_find_lower p s : forallb caseless p = true → str_find p (to_ascii_lowercase s) = str_find p s.
Proof.
  intros Hp. induction s as [|c s IH].
  - cbn [str_find]. change (to_ascii_lowercase []) with (@nil N). done.
  - change (to_ascii_lowercase (c :: s)) with (ascii_lower c :: to_ascii_lowercase s). cbn [str_find].
    change (ascii_lower c :: to_ascii_lowercase s) with (to_ascii_lowercase (c :: s)).
    by rewrite starts_with_lower, IH.
Qed.

Lemma count_char_lower c s : caseless c = true → count_char c (to_ascii_lowercase s) = count_char c s.
Proof.
  intros Hc. unfold count_char. induction s as [|d s IH]; [done|].
  change (to_ascii_lowercase (d :: s)) with (ascii_lower d :: to_ascii_lowercase s).
  rewrite !filter_cons. assert (c = ascii_lower d ↔ c = d) as E.
  { pose proof (ascii_lower_caseless c d Hc). naive_solver. }
  repeat case_decide; simpl; tauto || congruence || auto.
Qed.

Lemma split_char_lower c s :
  caseless c = true → split_char c (to_ascii_lowercase s) = map to_ascii_lowercase (split_char c s).
Proof.
  intros Hc. induction s as [|d s IH]; simpl; [done|]. rewrite (N.eqb_sym (ascii_lower d)), eqb_lower, N.eqb_sym by done.
  destruct (d =? c)%N; simpl; [by rewrite IH|]. rewrite IH. by destruct (split_char c s).
Qed.

Lemma normalize_dns_lower s :
  normalize_dns_host_or_ip_literal (to_ascii_lowercase s) = normalize_dns_host_or_ip_literal s.
Proof. unfold normalize_dns_host_or_ip_literal. by rewrite to_ascii_lowercase_idemp. Qed.

Lemma normalize_host_lower s : normalize_host (to_ascii_lowercase s) = normalize_host s.
Proof.
  unfold normalize_host. rewrite trim_lower. set (h := trim s).
  rewrite starts_with_lower, str_find_lower, count_char_lower, split_char_lower by done.
  destruct (if starts_with _ h then _ else _) as [e|].
  - rewrite <- (normalize_dns_lower (take _ (drop 1 h))). unfold to_ascii_lowercase.
    by rewrite skipn_map, firstn_map.
  - case_bool_decide; [|apply normalize_dns_lower]. rewrite <- normalize_dns_lower at 1.
    rewrite <- (normalize_dns_lower (default [] (head (split_char c_colon h)))). f_equal.
    destruct (split_char c_colon h); [done|]. simpl. apply to_ascii_lowercase_idemp.
Qed.

Lemma map_lower_eq_caseless a s :
  forallb caseless a = true → bool_decide (to_ascii_lowercase s = a) = bool_decide (s = a).
Proof.
  intros Ha. apply bool_decide_ext. split; [|intros ->; by apply to_ascii_lowercase_caseless].
  revert a Ha. induction s as [|c s IH]; intros [|b a]; simpl; try done.
  intros [Hb Ha]%andb_true_iff [= Hc Hs]. apply ascii_lower_caseless in Hc as ->; [|done]. by rewrite (IH a).
Qed.

(** Two patterns that differ in the case of their letters normalise alike. *)
Lemma normalize_pattern_lower s : normalize_pattern (to_ascii_lowercase s) = normalize_pattern s.
Proof.
  unfold normalize_pattern. rewrite trim_lower. set (p := trim s).
  rewrite map_lower_eq_caseless by done. case_bool_decide; [done|].
  rewrite !strip_prefix_lower by done.
  destruct (strip_prefix (lit "**.") p); simpl; [by rewrite normalize_host_lower|].
  destruct (strip_prefix (lit "*.") p); simpl; by rewrite normalize_host_lower.
Qed.

(** ** Normal forms *)

(** Lower case and no final dot. *)
Definition normal (s : str) : Prop := to_ascii_lowercase s = s ∧ last s ≠ Some c_dot.
#[export] Instance normal_dec s : Decision (normal s).
Proof. unfold normal. apply _. Defined.

Lemma trim_end_matches_id c s : last s ≠ Some c → trim_end_matches c s = s.
Proof.
  intros H. destruct (snoc_inv s) as [->|(l & x & ->)]; [done|]. apply drop_while_end_snoc_keep.
  rewrite last_snoc in H. apply N.eqb_neq. congruence.
Qed.

Lemma trim_end_matches_last c s : last (trim_end_matches c s) ≠ Some c.
Proof. intros H%drop_while_end_last. by rewrite N.eqb_refl in H. Qed.

Lemma normalize_domain_normal s : normal (normalize_domain s).
Proof.
  unfold normalize_domain. split; [apply to_ascii_lowercase_idemp|].
  rewrite <- trim_end_matches_lower by done. apply trim_end_matches_last.
Qed.

Lemma normalize_domain_id s : normal s → normalize_domain s = s.
Proof. intros [Hl Hd]. unfold normalize_domain. by rewrite trim_end_matches_id. Qed.

Lemma lower_app a b : to_ascii_lowercase (a ++ b) = a ++ b → to_ascii_lowercase a = a ∧ to_ascii_lowercase b = b.
Proof.
  rewrite to_ascii_lowercase_app. intros H. apply app_inj_1 in H; [done|]. apply length_map.
Qed.

Lemma normal_app_r a b : normal (a ++ b) → b ≠ [] → normal b.
Proof.
  intros [Hl Hd] Hb. apply lower_app in Hl as [_ Hl]. split; [done|].
  destruct (snoc_inv b) as [->|(l & x & ->)]; [done|]. rewrite app_assoc, !last_snoc in *. done.
Qed.

Lemma split_once_str_Some sep s a b : split_once_str sep s = Some (a, b) → s = a ++ sep ++ b.
Proof.
  unfold split_once_str. intros (i & (r & Hr & Hi & _)%str_find_Some & [= <- <-])%bind_Some.
  rewrite Hr at 3. rewrite Hr at 1. do 2 f_equal. rewrite (assoc_L (++)).
  rewrite drop_app_length'; [done|]. rewrite length_app, length_take. lia.
Qed.

Lemma normalize_ip_literal_normal h r : normal h → normalize_ip_literal h = Some r → normal r.
Proof.
  intros Hn. unfold normalize_ip_literal. destruct (ip_parse h); [by intros [= <-]|].
  assert (Hs : ∀ d, d ≠ [] → scoped_ip_literal d h = Some r → normal r).
  { unfold scoped_ip_literal. intros d Hd. destruct (split_once_str d h) as [[ip scope]|] eqn:E; [|done].
    apply split_once_str_Some in E as ->. destruct (ip_parse ip); [|done]. intros [= <-].
    destruct Hn as [Hl Hdot]. apply lower_app in Hl as [H1 [H2 H3]%lower_app]. split.
    - change (c_percent :: scope) with ([c_percent] ++ scope). by rewrite !to_ascii_lowercase_app, H1, H3.
    - change (c_percent :: scope) with ([c_percent] ++ scope).
      destruct (snoc_inv scope) as [->|(l & x & ->)]; [by rewrite app_nil_r, last_snoc|].
      rewrite !app_assoc, !last_snoc in *. done. }
  destruct (scoped_ip_literal (lit "%25") h) eqn:E; [intros [= <-]|]; by apply Hs in E || apply Hs.
Qed.

Lemma normalize_dns_normal s : normal (normalize_dns_host_or_ip_literal s).
Proof.
  unfold normalize_dns_host_or_ip_literal. set (h := trim_end_matches c_dot (to_ascii_lowercase s)).
  assert (Hh : normal h).
  { split; [|apply trim_end_matches_last]. unfold h. rewrite trim_end_matches_lower by done.
    apply to_ascii_lowercase_idemp. }
  destruct (normalize_ip_literal h) eqn:E; [by eapply normalize_ip_literal_normal|done].
Qed.

Lemma normalize_host_normal s : normal (normalize_host s).
Proof.
  unfold normalize_host. destruct (if starts_with _ _ then _ else _); [apply normalize_dns_normal|].
  case_bool_decide; apply normalize_dns_normal.
Qed.

Lemma host_parse_normal s h : host_parse s = Ok h → normal h ∧ h ≠ [].
Proof.
  unfold host_parse. case_bool_decide; [done|]. intros [= <-]. split; [apply normalize_host_normal|done].
Qed.

(** ** What patterns stand for *)

(** The hosts of a pattern, following the comment in [compile_globset_with_policy]: the exact host, any
    subdomain but not the apex, or both.  A subdomain has a non-empty label sequence before the domain. *)
Definition subdomain_of (domain host : str) : Prop := ∃ x, x ≠ [] ∧ host = x ++ [c_dot] ++ domain.
Definition pattern_hosts (p : DomainPattern) (host : str) : Prop :=
  match p with
  | Exact domain => host = domain
  | SubdomainsOnly domain => subdomain_of domain host
  | ApexAndSubdomains domain => host = domain ∨ subdomain_of domain host
  end.

Definition pattern_domain (p : DomainPattern) : str :=
  match p with Exact d | SubdomainsOnly d | ApexAndSubdomains d => d end.

(** Domains in normal form that are not empty and do not start with a dot. *)
Definition proper_domain (d : str) : Prop := normal d ∧ d ≠ [] ∧ head d ≠ Some c_dot.
#[export] Instance proper_domain_dec d : Decision (proper_domain d).
Proof. unfold proper_domain. apply _. Defined.

Lemma ends_with_dot_app x d : ends_with ([c_dot] ++ d) (x ++ [c_dot] ++ d) = true.
Proof. apply ends_with_true. by exists x. Qed.

Lemma ends_with_dot_proper c d :
  proper_domain c → ends_with ([c_dot] ++ d) c = true ↔ subdomain_of d c.
Proof.
  intros (_ & Hne & Hh). rewrite ends_with_true. split; [|intros (x & _ & ->); by exists x].
  intros [x ->]. exists x. split; [|done]. intros ->. done.
Qed.

Lemma subdomain_ne d c : subdomain_of d c → c ≠ d.
Proof. intros (x & _ & ->) H. apply (f_equal length) in H. rewrite !length_app in H. simpl in H. lia. Qed.

Lemma is_subdomain_or_equal_proper c d :
  proper_domain c → proper_domain d → is_subdomain_or_equal c d = true ↔ c = d ∨ subdomain_of d c.
Proof.
  intros Hc Hd. unfold is_subdomain_or_equal. rewrite !normalize_domain_id by apply Hc || apply Hd.
  case_bool_decide; [naive_solver|]. rewrite ends_with_dot_proper by done. naive_solver.
Qed.

Lemma is_strict_subdomain_proper c d :
  proper_domain c → proper_domain d → is_strict_subdomain c d = true ↔ subdomain_of d c.
Proof.
  intros Hc Hd. unfold is_strict_subdomain. rewrite !normalize_domain_id by apply Hc || apply Hd.
  rewrite andb_true_iff, negb_true_iff, bool_decide_eq_false, ends_with_dot_proper by done.
  pose proof (subdomain_ne d c). tauto.
Qed.

Lemma subdomain_trans a b c : subdomain_of a b → subdomain_of b c → subdomain_of a c.
Proof.
  intros (x & Hx & ->) (y & Hy & ->). exists (y ++ [c_dot] ++ x). split; [by destruct y|].
  by rewrite <- !app_assoc.
Qed.

(** A host below [c]. *)
Definition below (l : char) (c : str) : str := [l] ++ [c_dot] ++ c.

Lemma below_hosts l c : subdomain_of c (below l c).
Proof. by exists [l]. Qed.

Lemma below_normal l c : ascii_lower l = l → proper_domain c → normal (below l c).
Proof.
  intros Hl ([Hlow Hd] & Hne & _). unfold below. split.
  - rewrite !to_ascii_lowercase_app, Hlow. simpl. by rewrite Hl.
  - destruct (snoc_inv c) as [->|(c' & x & ->)]; [done|]. rewrite !app_assoc, !last_snoc in *. done.
Qed.

(** What a host below [c] with a letter in front tells about [c]. *)
Lemma below_subdomain l c d : l ≠ c_dot → proper_domain c →
  subdomain_of d (below l c) → c = d ∨ subdomain_of d c.
Proof.
  intros Hl (_ & Hne & Hh) (x & Hx & H). destruct x as [|a x]; [done|]. injection H as <- H.
  destruct x as [|b x]; simpl in H.
  - injection H as ->. by left.
  - injection H as <- H. right. exists x. split; [|done]. intros ->. simpl in H. by subst c.
Qed.

Section allows.
Context (m c : DomainPattern) (Hm : proper_domain (pattern_domain m)) (Hc : proper_domain (pattern_domain c)).

Lemma allows_sound h : allows m c = true → pattern_hosts c h → pattern_hosts m h.
Proof.
  destruct m as [d|d|d], c as [e|e|e]; simpl in *; try done;
    rewrite ?is_subdomain_or_equal_proper, ?is_strict_subdomain_proper by done.
  - intros [->|?] [->|?]; eauto using subdomain_trans.
  - intros [->|?] ?; eauto using subdomain_trans.
  - intros [->|?] ->; eauto.
  - intros ? [->|?]; eauto using subdomain_trans.
  - intros [->|?] ?; eauto using subdomain_trans.
  - intros ? ->; eauto.
  - unfold domain_eq. rewrite !normalize_domain_id by apply Hm || apply Hc.
    rewrite bool_decide_eq_true. congruence.
Qed.

Lemma allows_complete : (∀ h, normal h → pattern_hosts c h → pattern_hosts m h) → allows m c = true.
Proof.
  intros H. pose proof (H (pattern_domain c) (proj1 Hc)) as Hapex.
  pose proof (H (below 97%N (pattern_domain c)) (below_normal 97%N _ eq_refl Hc)) as Ha.
  pose proof (H (below 98%N (pattern_domain c)) (below_normal 98%N _ eq_refl Hc)) as Hb.
  pose proof (below_hosts 97%N (pattern_domain c)). pose proof (below_hosts 98%N (pattern_domain c)).
  pose proof (λ d, below_subdomain 97%N (pattern_domain c) d ltac:(done) Hc) as Hinv.
  assert (Hself : ∀ d, below 97%N (pattern_domain c) = d → subdomain_of (pattern_domain c) d) by naive_solver.
  destruct m as [d|d|d], c as [e|e|e]; simpl in *;
    rewrite ?is_subdomain_or_equal_proper, ?is_strict_subdomain_proper by done.
  - naive_solver.
  - destruct (Ha (below_hosts _ _)) as [He|He]; [|naive_solver].
    destruct (Hb (below_hosts _ _)) as [Hf|Hf]; [rewrite <- Hf in He; discriminate He|].
    destruct (below_subdomain 98%N e d ltac:(done) Hc Hf); naive_solver.
  - naive_solver.
  - naive_solver.
  - naive_solver.
  - naive_solver.
  - destruct (Hapex (or_introl eq_refl)). specialize (Ha (or_intror H0)).
    apply (f_equal length) in Ha. simpl in Ha. lia.
  - specialize (Ha H0). specialize (Hb H1). rewrite <- Hb in Ha. discriminate Ha.
  - unfold domain_eq. rewrite bool_decide_eq_true. by rewrite Hapex.
Qed.

End allows.

(** Comparing a requested pattern with a managed one decides inclusion: the managed pattern allows
    the requested one exactly when every host of the requested one is a host of the managed one. *)
Theorem allows_iff_included m c :
  proper_domain (pattern_domain m) → proper_domain (pattern_domain c) →
  allows m c = true ↔ ∀ h, normal h → pattern_hosts c h → pattern_hosts m h.
Proof.
  intros Hm Hc. split; [|by apply allows_complete]. intros Ha h _. by apply allows_sound.
Qed.

Example allows_iff_included_witness :
  allows (SubdomainsOnly (lit "corp.test")) (ApexAndSubdomains (lit "eu.corp.test")) = true ∧
  pattern_hosts (SubdomainsOnly (lit "corp.test")) (lit "api.eu.corp.test").
Proof.
  split; [reflexivity|].
  apply (proj1 (allows_iff_included (SubdomainsOnly (lit "corp.test")) (ApexAndSubdomains (lit "eu.corp.test"))
    ltac:(decide_now) ltac:(decide_now)) eq_refl).
  - decide_now.
  - right. exists (lit "api"). split; [done|reflexivity].
Defined.
