(* ===== verification/NetGlobs.v ===== *)
(** * Compiled lists of patterns

    The laws of the glob matcher the proxy relies on, an instance that has
    them, what a compiled allow or deny list matches, and the entries for which
    the glob of an entry and the pattern compared with the managed ones stand
    for the same hosts. *)

From stdpp Require Import list.
From S2P Require Import Prelude RustStr IpAddr NetPolicy.

(** Chars of host names: none is special in a glob. *)
Definition plain_char (c : char) : bool :=
  (((97 <=? c) && (c <=? 122)) || is_ascii_digit c || (c =? 45) || (c =? 46) || (c =? 95))%N.
Definition plain (s : str) : bool := forallb plain_char s.

(** The documented behaviour of [globset] that is relied on: a set matches when one of its globs
    does; a glob of host name chars matches itself, up to case; [?*.] and such chars match what has
    at least one char before the dot. *)
Class LawfulGlobs (GO : GlobOps) : Prop := {
  globset_match gs set h :
    globset_build gs = Some set → globset_is_match set h = existsb (λ g, glob_is_match g h) gs;
  glob_literal p g h :
    plain p = true → glob_build domain_glob_options p = Some g →
    glob_is_match g h = true ↔ to_ascii_lowercase h = p;
  glob_subdomains p g h :
    plain p = true → glob_build domain_glob_options (lit "?*." ++ p) = Some g →
    glob_is_match g h = true ↔ subdomain_of p (to_ascii_lowercase h);
}.

(** ** What a compiled set matches *)

Section compiled.
Context {GO : GlobOps}.

(** The string matches a glob of the entry. *)
Definition entry_matches (entry h : str) : Prop :=
  ∃ candidate g, candidate ∈ expand_domain_pattern (normalize_pattern entry) ∧
    glob_build domain_glob_options candidate = Some g ∧ glob_is_match g h = true.

Definition builder_inv (st : list str * list Glob) : Prop :=
  (∀ c, c ∈ st.1 → is_Some (glob_build domain_glob_options c)) ∧
  ∀ g, g ∈ st.2 ↔ ∃ c, c ∈ st.1 ∧ glob_build domain_glob_options c = Some g.

Lemma add_candidate_inv st c st' :
  add_candidate st c = Ok st' → builder_inv st →
  builder_inv st' ∧ ∀ d, d ∈ st'.1 ↔ d ∈ st.1 ∨ d = c.
Proof.
  destruct st as [seen gs]. unfold add_candidate. case_bool_decide as Hc.
  - intros [= <-] Hi. split; [done|]. naive_solver.
  - destruct (glob_build domain_glob_options c) as [g|] eqn:E; [|done]. intros [= <-] [H1 H2]. simpl in *. split.
    + split; simpl.
      * intros d [->|Hd]%elem_of_cons; eauto.
      * intros g'. rewrite elem_of_app, H2, list_elem_of_singleton. setoid_rewrite elem_of_cons. naive_solver.
    + intros d. rewrite elem_of_cons. naive_solver.
Qed.

Lemma add_candidates_inv cs st st' :
  foldM add_candidate st cs = Ok st' → builder_inv st →
  builder_inv st' ∧ ∀ d, d ∈ st'.1 ↔ d ∈ st.1 ∨ d ∈ cs.
Proof.
  revert st. induction cs as [|c cs IH]; intros st; simpl.
  - intros [= <-] Hi. split; [done|]. intros d. rewrite elem_of_nil. tauto.
  - rewrite res_bind_Ok. intros (st1 & H1 & H2) Hi. apply add_candidate_inv in H1 as [Hi1 Hc]; [|done].
    apply IH in H2 as [Hi2 Hd]; [|done]. split; [done|]. intros d. rewrite Hd, Hc, elem_of_cons. tauto.
Qed.

Lemma add_patterns_inv w ps st st' :
  foldM (add_pattern w) st ps = Ok st' → builder_inv st →
  builder_inv st' ∧ (∀ d, d ∈ st'.1 ↔ d ∈ st.1 ∨ ∃ p, p ∈ ps ∧ d ∈ expand_domain_pattern (normalize_pattern p))
  ∧ (w = WildcardReject → Forall (λ p, is_global_wildcard_domain_pattern p = false) ps).
Proof.
  revert st. induction ps as [|p ps IH]; intros st; simpl.
  - intros [= <-] Hi. split; [done|]. split; [|done]. intros d. setoid_rewrite elem_of_nil. naive_solver.
  - rewrite res_bind_Ok. unfold add_pattern at 1. intros (st1 & H1 & H2) Hi.
    destruct (bool_decide (w = WildcardReject) && is_global_wildcard_domain_pattern p) eqn:Ew; [done|].
    apply add_candidates_inv in H1 as [Hi1 Hc]; [|done]. apply IH in H2 as (Hi2 & Hd & Hw); [|done].
    split; [done|]. split.
    + intros d. rewrite Hd, Hc. setoid_rewrite elem_of_cons. naive_solver.
    + intros ->. constructor; [|by apply Hw]. by rewrite bool_decide_eq_true_2 in Ew.
Qed.

Lemma compile_builds ps w set :
  compile_globset_with_policy ps w = Ok set →
  ∃ gs, globset_build gs = Some set ∧
    (∀ g, g ∈ gs ↔ ∃ p c, p ∈ ps ∧ c ∈ expand_domain_pattern (normalize_pattern p) ∧
                           glob_build domain_glob_options c = Some g) ∧
    (∀ p c, p ∈ ps → c ∈ expand_domain_pattern (normalize_pattern p) → is_Some (glob_build domain_glob_options c)) ∧
    (w = WildcardReject → Forall (λ p, is_global_wildcard_domain_pattern p = false) ps).
Proof.
  unfold compile_globset_with_policy. rewrite res_bind_Ok. intros ([seen gs] & H & Hb).
  apply add_patterns_inv in H as ([H1 H2] & Hd & Hw).
  2: { split; simpl; [by intros c ?%not_elem_of_nil|]. intros g. setoid_rewrite elem_of_nil. naive_solver. }
  exists gs. simpl in *. destruct (globset_build gs) as [s|]; [|done]. injection Hb as ->.
  split; [done|]. setoid_rewrite Hd in H1. setoid_rewrite Hd in H2. setoid_rewrite elem_of_nil in H1.
  setoid_rewrite elem_of_nil in H2. split; [|split; [|done]].
  - intros g. rewrite H2. naive_solver.
  - naive_solver.
Qed.

Context `{!LawfulGlobs GO}.

(** A compiled list matches a string exactly when a glob of one of its entries does. *)
Lemma compiled_set_match ps w set h :
  compile_globset_with_policy ps w = Ok set →
  globset_is_match set h = true ↔ ∃ p, p ∈ ps ∧ entry_matches p h.
Proof.
  intros (gs & Hb & Hg & _)%compile_builds. rewrite (globset_match _ _ _ Hb), existsb_exists.
  setoid_rewrite <- list_elem_of_In. setoid_rewrite Hg. unfold entry_matches. naive_solver.
Qed.

(** The set matches the host or the address of a scoped literal. *)
Lemma compiled_set_host ps w set h :
  compile_globset_with_policy ps w = Ok set →
  globset_matches_host_or_unscoped set h = true ↔
  ∃ p, p ∈ ps ∧ (entry_matches p h ∨ ∃ ip, unscoped_ip_literal h = Some ip ∧ entry_matches p ip).
Proof.
  intros Hc. unfold globset_matches_host_or_unscoped. rewrite orb_true_iff, (compiled_set_match _ _ _ _ Hc).
  destruct (unscoped_ip_literal h) as [ip|].
  - rewrite (compiled_set_match _ _ _ _ Hc). naive_solver.
  - naive_solver.
Qed.

End compiled.

(** Entries that differ only in the case of letters match the same strings. *)
Lemma entry_matches_lower {GO : GlobOps} e e' h :
  to_ascii_lowercase e = to_ascii_lowercase e' → entry_matches e h → entry_matches e' h.
Proof.
  intros He. unfold entry_matches.
  by rewrite <- (normalize_pattern_lower e), He, normalize_pattern_lower.
Qed.

(** ** Canonical entries *)

Lemma plain_not_in c s : plain_char c = false → plain s = true → c ∉ s.
Proof.
  intros Hc Hs Hin. unfold plain in Hs. rewrite forallb_forall in Hs.
  apply list_elem_of_In, Hs in Hin. congruence.
Qed.

Lemma plain_no_whitespace s c : plain s = true → c ∈ s → is_whitespace c = false.
Proof.
  intros Hs Hc. unfold plain in Hs. rewrite forallb_forall in Hs. apply list_elem_of_In, Hs in Hc.
  apply is_whitespace_letters. unfold plain_char, is_ascii_digit in Hc.
  rewrite !orb_true_iff, !andb_true_iff, !N.leb_le, !N.eqb_eq in Hc. lia.
Qed.

Lemma no_whitespace_trim s : (∀ c, c ∈ s → is_whitespace c = false) → trim s = s.
Proof.
  intros Hw. apply trim_tight. unfold tight. destruct s as [|c s]; [done|].
  destruct (last (c :: s)) as [d|] eqn:E; [|done].
  rewrite (Hw c) by by left. rewrite (Hw d); [done|]. by apply last_Some_elem_of in E.
Qed.

Lemma plain_tight s : plain s = true → trim s = s.
Proof. intros Hs. apply no_whitespace_trim. eauto using plain_no_whitespace. Qed.

Lemma split_once_none c s : c ∉ s → split_once c s = None.
Proof.
  induction s as [|d s IH]; simpl; [done|]. intros [H1 H2]%not_elem_of_cons.
  destruct (N.eqb_spec d c); [congruence|]. by rewrite IH.
Qed.

Lemma str_find_absent c p s : c ∉ s → str_find (c :: p) s = None.
Proof.
  intros Hc. apply str_find_None. intros j _. unfold starts_with.
  destruct (strip_prefix (c :: p) (drop j s)) eqn:E; [|done]. apply strip_prefix_Some in E. destruct Hc.
  rewrite <- (take_drop j s), E. apply elem_of_app. right. by left.
Qed.

Lemma starts_with_absent c p s : c ∉ s → starts_with (c :: p) s = false.
Proof.
  intros Hc. destruct (starts_with (c :: p) s) eqn:E; [|done]. apply starts_with_true in E as [r ->].
  destruct Hc. by left.
Qed.

Lemma strip_prefix_absent c p s : c ∉ s → strip_prefix (c :: p) s = None.
Proof.
  intros Hc. destruct (strip_prefix (c :: p) s) eqn:E; [|done]. apply strip_prefix_Some in E as ->.
  destruct Hc. by left.
Qed.

Lemma strip_prefix_head_tail d : strip_prefix (lit "**.") (lit "*." ++ d) = None.
Proof. done. Qed.

Lemma normalize_ip_literal_no_scope d :
  c_percent ∉ d → default d (normalize_ip_literal d) = d.
Proof.
  intros Hp. unfold normalize_ip_literal, scoped_ip_literal, split_once_str. destruct (ip_parse d); [done|].
  change (lit "%25") with (c_percent :: lit "25"). change (lit "%") with [c_percent].
  by rewrite !str_find_absent.
Qed.

(** A plain normal host is its own normal form. *)
Lemma normalize_host_plain d : plain d = true → normal d → normalize_host d = d.
Proof.
  intros Hp [Hl Hd]. unfold normalize_host. rewrite plain_tight by done.
  rewrite (starts_with_absent c_lbracket []) by by apply plain_not_in.
  assert (count_char c_colon d = 0) as ->.
  { unfold count_char. apply length_zero_iff_nil. destruct (filter _ d) as [|x l] eqn:E; [done|].
    assert (Hx : x ∈ filter (λ d, c_colon = d) d) by (rewrite E; by left).
    apply list_elem_of_filter in Hx as [<- Hx]. by apply plain_not_in in Hx. }
  simpl. unfold normalize_dns_host_or_ip_literal. rewrite Hl, trim_end_matches_id by done.
  pose proof (normalize_ip_literal_no_scope d (plain_not_in c_percent d eq_refl Hp)) as H.
  destruct (normalize_ip_literal d); done.
Qed.

Definition render_pattern (p : DomainPattern) : str :=
  match p with
  | Exact d => d
  | SubdomainsOnly d => lit "*." ++ d
  | ApexAndSubdomains d => lit "**." ++ d
  end.

(** The entry is a pattern over a plain host name in normal form that the URL parser leaves alone. *)
Definition canonical {UH : UrlHostOps} (p : DomainPattern) : Prop :=
  proper_domain (pattern_domain p) ∧ plain (pattern_domain p) = true ∧
  url_host_parse (pattern_domain p) = Some (pattern_domain p).
#[export] Instance canonical_dec {UH : UrlHostOps} p : Decision (canonical p).
Proof. unfold canonical. apply _. Defined.

Section canonical.
Context {UH : UrlHostOps} (p : DomainPattern) (Hp : canonical p).

Lemma render_trim : trim (render_pattern p) = render_pattern p.
Proof.
  destruct Hp as (_ & Hpl & _). apply no_whitespace_trim. intros c.
  assert (Hl : ∀ s, forallb (λ c, negb (is_whitespace c)) s = true → c ∈ s → is_whitespace c = false).
  { intros s Hs Hc. rewrite forallb_forall in Hs. apply list_elem_of_In, Hs in Hc. by apply negb_true_iff in Hc. }
  destruct p as [d|d|d]; cbn [render_pattern pattern_domain] in *; [| |by apply plain_no_whitespace].
  all: intros [Hc|Hc]%elem_of_app; [by eapply Hl, Hc|by eapply plain_no_whitespace].
Qed.

Lemma domain_star : c_star ∉ pattern_domain p.
Proof. destruct Hp as (_ & Hpl & _). by apply plain_not_in. Qed.

(** The prefix tests of the parsers on a rendered pattern. *)
Lemma render_cases {A} (f g h : str → A) :
  (match strip_prefix (lit "**.") (render_pattern p) with
   | Some d => f d
   | None => match strip_prefix (lit "*.") (render_pattern p) with Some d => g d | None => h (render_pattern p) end
   end) = match p with ApexAndSubdomains d => f d | SubdomainsOnly d => g d | Exact d => h d end.
Proof.
  pose proof domain_star as Hs. destruct p as [d|d|d]; cbn [render_pattern pattern_domain] in *.
  - by rewrite strip_prefix_app.
  - rewrite (strip_prefix_head_tail d), strip_prefix_app. done.
  - change (lit "**.") with (c_star :: lit "*."). change (lit "*.") with [c_star; c_dot].
    by rewrite !strip_prefix_absent.
Qed.

Lemma render_not_nil : render_pattern p ≠ [].
Proof. destruct Hp as ((_ & Hne & _) & _). by destruct p as [d|d|d]; cbn [render_pattern pattern_domain] in *. Qed.

Lemma normalize_pattern_canonical : normalize_pattern (render_pattern p) = render_pattern p.
Proof.
  pose proof domain_star as Hstar. unfold normalize_pattern. rewrite render_trim.
  rewrite (bool_decide_eq_false_2 (render_pattern p = lit "*")).
  2: { destruct p as [d|d|d]; cbn [render_pattern pattern_domain] in *; [by intros [=]..|]. intros ->. apply Hstar. by left. }
  rewrite (render_cases (λ d, (lit "**.", d)) (λ d, (lit "*.", d)) (λ d, ([], d))).
  destruct Hp as ((Hn & _) & Hpl & _). destruct p as [d|d|d]; cbn [render_pattern pattern_domain] in *; by rewrite normalize_host_plain.
Qed.

Lemma domain_pattern_parse_canonical : domain_pattern_parse (render_pattern p) = p.
Proof.
  unfold domain_pattern_parse. rewrite render_trim, bool_decide_eq_false_2 by apply render_not_nil.
  rewrite (render_cases (λ d, parse_domain d ApexAndSubdomains) (λ d, parse_domain d SubdomainsOnly) Exact).
  destruct Hp as ((_ & Hne & _) & Hpl & _). unfold parse_domain.
  destruct p as [d|d|d]; cbn [render_pattern pattern_domain] in *; [| |done]; by rewrite plain_tight, bool_decide_eq_false_2.
Qed.

Lemma parse_domain_for_constraints_canonical :
  parse_domain_for_constraints (pattern_domain p) = pattern_domain p.
Proof.
  destruct Hp as (([_ Hd] & Hne & _) & Hpl & Hu). unfold parse_domain_for_constraints.
  rewrite plain_tight, trim_end_matches_id, bool_decide_eq_false_2 by done.
  rewrite (starts_with_absent c_lbracket []) by by apply plain_not_in. simpl.
  assert (Hc : ∀ c, plain_char c = false → contains_char c (pattern_domain p) = false).
  { intros c Hc. apply existsb_false_Forall, Forall_forall. intros x Hx. apply N.eqb_neq. intros ->.
    by apply plain_not_in in Hx. }
  rewrite !Hc by done. simpl. by rewrite Hu.
Qed.

Lemma parse_for_constraints_canonical : parse_for_constraints (render_pattern p) = p.
Proof.
  unfold parse_for_constraints. rewrite render_trim, bool_decide_eq_false_2 by apply render_not_nil.
  rewrite (render_cases (λ d, ApexAndSubdomains (parse_domain_for_constraints d))
    (λ d, SubdomainsOnly (parse_domain_for_constraints d)) (λ d, Exact (parse_domain_for_constraints d))).
  pose proof parse_domain_for_constraints_canonical as H. destruct p; cbn [render_pattern pattern_domain] in *; by rewrite H.
Qed.

(** The globs of a canonical entry match the hosts of its pattern. *)
Lemma entry_matches_canonical `{GO : GlobOps, !LawfulGlobs GO} h :
  (∀ c, c ∈ expand_domain_pattern (normalize_pattern (render_pattern p)) →
        is_Some (glob_build domain_glob_options c)) →
  entry_matches (render_pattern p) h ↔ pattern_hosts p (to_ascii_lowercase h).
Proof.
  unfold entry_matches, expand_domain_pattern.
  rewrite normalize_pattern_canonical, domain_pattern_parse_canonical. destruct Hp as (_ & Hpl & _).
  intros Hb. destruct p as [d|d|d]; cbn [render_pattern pattern_domain] in *.
  - destruct (Hb d ltac:(by left)) as [g1 H1]. destruct (Hb _ ltac:(right; by left)) as [g2 H2].
    split.
    + intros (c & g & Hc & Hg & Hm). apply elem_of_cons in Hc as [->|Hc%list_elem_of_singleton].
      * left. by apply (glob_literal _ _ _ Hpl Hg).
      * subst c. right. by apply (glob_subdomains _ _ _ Hpl Hg).
    + intros [Hh|Hh].
      * exists d, g1. split; [by left|]. split; [done|]. by apply (glob_literal _ _ _ Hpl H1).
      * exists (lit "?*." ++ d), g2. split; [right; by left|]. split; [done|].
        by apply (glob_subdomains _ _ _ Hpl H2).
  - destruct (Hb _ ltac:(by left)) as [g2 H2]. split.
    + intros (c & g & ->%list_elem_of_singleton & Hg & Hm). by apply (glob_subdomains _ _ _ Hpl Hg).
    + intros Hh. exists (lit "?*." ++ d), g2. split; [by left|]. split; [done|].
      by apply (glob_subdomains _ _ _ Hpl H2).
  - destruct (Hb d ltac:(by left)) as [g1 H1]. split.
    + intros (c & g & ->%list_elem_of_singleton & Hg & Hm). by apply (glob_literal _ _ _ Hpl Hg).
    + intros Hh. exists d, g1. split; [by left|]. split; [done|]. by apply (glob_literal _ _ _ Hpl H1).
Qed.

End canonical.

(** ** Entries without wildcards *)

Lemma normalize_dns_star t : plain (normalize_dns_host_or_ip_literal (c_star :: t)) = false.
Proof.
  apply not_true_iff_false. unfold normalize_dns_host_or_ip_literal.
  change (to_ascii_lowercase (c_star :: t)) with (c_star :: to_ascii_lowercase t).
  destruct (drop_while_end_prefix (N.eqb c_dot) (c_star :: to_ascii_lowercase t)) as (a & Ha & Hdots).
  unfold trim_end_matches. destruct (drop_while_end _ _) as [|d y].
  { simpl in Ha. by rewrite <- Ha in Hdots. }
  simpl in Ha. injection Ha as <- _. intros Hp.
  assert (Hs : c_star ∉ c_star :: y → False) by (intros Hn; apply Hn; by left).
  assert (Hsc : ∀ d r, scoped_ip_literal d (c_star :: y) = Some r → plain r = true → False).
  { intros d r. unfold scoped_ip_literal. destruct (split_once_str d _) as [[ip scope]|]; [|done].
    destruct (ip_parse ip); [|done]. intros [= <-] Hr. apply (plain_not_in c_percent) in Hr; [|done].
    apply Hr, elem_of_app. right. by left. }
  unfold normalize_ip_literal in Hp. destruct (ip_parse (c_star :: y)).
  { by apply Hs, (plain_not_in c_star). }
  destruct (scoped_ip_literal (lit "%25") _) eqn:E1; [by eapply Hsc|].
  destruct (scoped_ip_literal (lit "%") _) eqn:E2; [by eapply Hsc|]. by apply Hs, (plain_not_in c_star).
Qed.

Lemma normalize_host_star t : trim (c_star :: t) = c_star :: t → plain (normalize_host (c_star :: t)) = false.
Proof.
  intros Ht. unfold normalize_host. rewrite Ht. unfold starts_with. cbn -[count_char split_char].
  case_bool_decide; [|apply normalize_dns_star]. cbn [split_char].
  destruct (N.eqb_spec c_star c_colon); [done|]. destruct (split_char c_colon t); apply normalize_dns_star.
Qed.

(** An entry whose normal form as a host has only chars of host names is no pattern. *)
Lemma normalize_pattern_plain e : plain (normalize_host e) = true → normalize_pattern e = normalize_host e.
Proof.
  assert (normalize_host e = normalize_host (trim e)) as -> by (unfold normalize_host; by rewrite trim_idemp).
  intros Hp. unfold normalize_pattern. cbv zeta. destruct (trim e) as [|d t] eqn:Et; [done|].
  assert (Hd : d ≠ c_star).
  { intros ->. assert (trim (c_star :: t) = c_star :: t) as Htt by by rewrite <- Et, trim_idemp.
    by rewrite normalize_host_star in Hp. }
  rewrite bool_decide_eq_false_2 by (by intros [= ->]).
  change (lit "**.") with (c_star :: lit "*."). change (lit "*.") with [c_star; c_dot].
  rewrite !strip_prefix_cons. destruct (N.eqb_spec c_star d); [congruence|]. done.
Qed.

Lemma expand_plain d : plain d = true → d ≠ [] → expand_domain_pattern d = [d].
Proof.
  intros Hp Hd. assert (Hs : c_star ∉ d) by by apply plain_not_in.
  unfold expand_domain_pattern, domain_pattern_parse. rewrite plain_tight, bool_decide_eq_false_2 by done.
  change (lit "**.") with (c_star :: lit "*."). change (lit "*.") with [c_star; c_dot].
  by rewrite !strip_prefix_absent.
Qed.

(** Such an entry matches its normal form, and nothing else but for the case of letters. *)
Lemma entry_matches_plain `{GO : GlobOps, !LawfulGlobs GO} e h :
  plain (normalize_host e) = true → normalize_host e ≠ [] →
  is_Some (glob_build domain_glob_options (normalize_host e)) →
  entry_matches e h ↔ to_ascii_lowercase h = normalize_host e.
Proof.
  intros Hp Hne [g Hg]. unfold entry_matches. rewrite normalize_pattern_plain, expand_plain by done. split.
  - intros (c & g' & ->%list_elem_of_singleton & Hg' & Hm). by eapply glob_literal.
  - intros Hh. exists (normalize_host e), g. split; [by left|]. split; [done|]. by eapply glob_literal.
Qed.

(** ** A glob matcher with the laws

    Literal chars, [?] and [*]; a pattern with other special chars is refused. *)

Module SimpleGlobs.

Section wild.
Context (sep : bool).

(** [?] and [*] match any char, but not a slash when it separates. *)
Definition wild_char (c : char) : bool := negb (sep && (c =? 47)%N).

Fixpoint wild (p : str) : str → bool :=
  match p with
  | [] => λ h, bool_decide (h = [])
  | a :: p' =>
      if (a =? c_star)%N then
        fix star h := wild p' h || match h with c :: h' => wild_char c && star h' | [] => false end
      else λ h, match h with
                | c :: h' => (if (a =? c_question)%N then wild_char c else (a =? c)%N) && wild p' h'
                | [] => false
                end
  end.

Lemma wild_literal p h : forallb (λ c, negb ((c =? c_star) || (c =? c_question))%N) p = true →
  wild p h = true ↔ h = p.
Proof.
  revert h. induction p as [|a p IH]; intros h; cbn [forallb wild]; [by rewrite bool_decide_eq_true|].
  intros [[H1 H2]%negb_true_iff%orb_false_iff Hp]%andb_true_iff. rewrite H1, H2. destruct h as [|c h]; [done|].
  rewrite andb_true_iff, IH, N.eqb_eq by done. naive_solver.
Qed.

End wild.

Lemma wild_star p h : wild false (c_star :: p) h = true ↔ ∃ x r, h = x ++ r ∧ wild false p r = true.
Proof.
  induction h as [|c h IH].
  - cbn. rewrite orb_false_r. split; [by exists [], []|]. by intros ([|] & [|] & ? & ?).
  - transitivity (wild false p (c :: h) = true ∨ wild false (c_star :: p) h = true).
    { cbn. rewrite orb_true_iff. done. }
    rewrite IH. split.
    + intros [Hw|(x & r & -> & Hw)]; [by exists [], (c :: h)|by exists (c :: x), r].
    + intros ([|c' x] & r & H & Hw); [left; simpl in H; by rewrite H|]. injection H as -> ->. right. eauto.
Qed.

Definition allowed_char (c : char) : bool := plain_char c || (c =? c_star)%N || (c =? c_question)%N || (c =? 47)%N.

#[export] Instance simple_globs : GlobOps := {|
  Glob := GlobOptions * str;
  GlobSet := list (GlobOptions * str);
  glob_build o p := if forallb allowed_char p then Some (o, p) else None;
  glob_is_match g h :=
    wild (literal_separator g.1) g.2 (if case_insensitive g.1 then to_ascii_lowercase h else h);
  globset_build gs := Some gs;
  globset_is_match gs h :=
    existsb (λ g, wild (literal_separator g.1) g.2 (if case_insensitive g.1 then to_ascii_lowercase h else h)) gs;
|}.

Lemma plain_literal p : plain p = true → forallb (λ c, negb ((c =? c_star) || (c =? c_question))%N) p = true.
Proof.
  unfold plain. rewrite !forallb_forall. intros H c Hc. specialize (H c Hc). apply negb_true_iff, orb_false_iff.
  split; apply N.eqb_neq; intros ->; done.
Qed.

#[export] Instance simple_globs_lawful : LawfulGlobs simple_globs.
Proof.
  split.
  - intros gs set h [= <-]. done.
  - intros p g h Hp. simpl. case_match; [|done]. intros [= <-]. simpl. by apply wild_literal, plain_literal.
  - intros p g h Hp. cbn [glob_build simple_globs]. case_match; [|done]. intros [= <-]. cbn [fst snd glob_is_match
      simple_globs domain_glob_options literal_separator case_insensitive].
    unfold subdomain_of. generalize (to_ascii_lowercase h). intros s. split.
    + change (lit "?*." ++ p) with (c_question :: c_star :: c_dot :: p). destruct s as [|c s]; [done|].
      intros Hw. assert (wild false (c_star :: c_dot :: p) s = true) as (x & r & -> & Hr)%wild_star by exact Hw.
      exists (c :: x). split; [done|]. simpl. do 2 f_equal.
      apply (wild_literal false (c_dot :: p)) in Hr; [done|]. simpl. by apply plain_literal.
    + intros (x & Hx & ->). destruct x as [|c x]; [done|].
      change (wild false (c_star :: c_dot :: p) (x ++ [c_dot] ++ p) = true). apply wild_star.
      exists x, ([c_dot] ++ p). split; [done|]. apply wild_literal; [|done]. simpl. by apply plain_literal.
Qed.

End SimpleGlobs.
