(* ===== verification/NetConfig.v ===== *)
(** * Configuration of the network proxy

    [network-proxy/src/config.rs] and the data of [mitm_hook.rs],
    [credential_broker/provider_config.rs] and [credential_broker/environment.rs]
    a configuration holds: domain permissions with the precedence of duplicate
    patterns, the setters, listener addresses and their clamping to loopback.
    URLs are parsed by another package: the class [UrlOps]. *)

From stdpp Require Import gmap list.
From stdpp Require Import gmap list sorting pretty.
From S2P Require Import Prelude RustStr RustOrd IpAddr NetPolicy.

(** [BTreeMap]: a finite map that is traversed in the order of its keys. *)
Definition btree_iter {V} (m : gmap str V) : list (str * V) := sort_by_key fst (map_to_list m).

(** [or_insert_with(Vec::new).push(v)]. *)
Definition btree_push {V} (m : gmap str (list V)) (k : str) (v : V) : gmap str (list V) :=
  <[k := default [] (m !! k) ++ [v]]> m.

(** ** Domain and socket permissions *)

Inductive NetworkDomainPermission := PermNone | PermAllow | PermDeny.
#[export] Instance domain_permission_eq_dec : EqDecision NetworkDomainPermission.
Proof. solve_decision. Defined.

(** The derived order of the variants. *)
Definition permission_rank (p : NetworkDomainPermission) : nat :=
  match p with PermNone => 0 | PermAllow => 1 | PermDeny => 2 end.

Record NetworkDomainPermissionEntry := Entry { pattern : str; permission : NetworkDomainPermission }.
#[export] Instance permission_entry_eq_dec : EqDecision NetworkDomainPermissionEntry.
Proof. solve_decision. Defined.

(** [NetworkDomainPermissions]: its [entries]. *)
Abbreviation NetworkDomainPermissions := (list NetworkDomainPermissionEntry).

(** The first loop of [effective_entries]: the patterns in order of appearance and
    the greatest permission of each. *)
Definition effective_step (st : list str * gmap str NetworkDomainPermission) (entry : NetworkDomainPermissionEntry)
    : list str * gmap str NetworkDomainPermission :=
  let '(order, effective_permissions) := st in
  let order := match effective_permissions !! pattern entry with
               | None => order ++ [pattern entry]
               | Some _ => order
               end in
  let current := default (permission entry) (effective_permissions !! pattern entry) in
  let permission :=
    if decide (permission_rank current < permission_rank (permission entry)) then permission entry else current in
  (order, <[pattern entry := permission]> effective_permissions).

(** The second loop, which removes each pattern as it is emitted. *)
Fixpoint take_permissions (order : list str) (m : gmap str NetworkDomainPermission)
    : list NetworkDomainPermissionEntry :=
  match order with
  | [] => []
  | pattern :: order' =>
      match m !! pattern with
      | Some permission => Entry pattern permission :: take_permissions order' (delete pattern m)
      | None => take_permissions order' m
      end
  end.

Definition effective_entries (entries : NetworkDomainPermissions) : list NetworkDomainPermissionEntry :=
  let '(order, effective_permissions) := foldl effective_step ([], ∅) entries in
  take_permissions order effective_permissions.

Inductive NetworkUnixSocketPermission := SocketAllow | SocketDeny.
#[export] Instance socket_permission_eq_dec : EqDecision NetworkUnixSocketPermission.
Proof. solve_decision. Defined.

(** [NetworkUnixSocketPermissions]: its [entries]. *)
Abbreviation NetworkUnixSocketPermissions := (gmap str NetworkUnixSocketPermission).

Inductive NetworkMode := Limited | Full.
#[export] Instance network_mode_eq_dec : EqDecision NetworkMode.
Proof. solve_decision. Defined.

Definition allows_method (self : NetworkMode) (method : str) : bool :=
  match self with
  | Full => true
  | Limited => bool_decide (method = lit "GET" ∨ method = lit "HEAD" ∨ method = lit "OPTIONS")
  end.

(** ** Credential providers and hooks *)

Inductive CredentialAuthMethod := Bearer | Token | Basic | Header.
#[export] Instance auth_method_eq_dec : EqDecision CredentialAuthMethod.
Proof. solve_decision. Defined.

Record CredentialProviderConfig := {
  provider_env : list str;
  provider_patterns : list str;
  url_prefixes : list str;
  url_prefix_from_env : option str;
  provider_auth : list CredentialAuthMethod;
  provider_header : option str;
  provider_prefix : option str;
}.
#[export] Instance provider_config_eq_dec : EqDecision CredentialProviderConfig.
Proof. solve_decision. Defined.

(** [CredentialBrokerContext]: a map of environment variables. *)
Abbreviation CredentialBrokerContext := (gmap str str).

(** JSON values are carried along unread. *)
Class JsonData := { JsonValue : Type; #[global] json_value_eq_dec :: EqDecision JsonValue }.

Record InjectedHeaderConfig := {
  header_name : str;
  secret_env_var : option str;
  secret_file : option str;
  header_prefix : option str;
}.
#[export] Instance injected_header_eq_dec : EqDecision InjectedHeaderConfig.
Proof. solve_decision. Defined.

Record MitmHookActionsConfig := {
  strip_request_headers : list str;
  inject_request_headers : list InjectedHeaderConfig;
}.
#[export] Instance hook_actions_eq_dec : EqDecision MitmHookActionsConfig.
Proof. solve_decision. Defined.

Record MitmHookMatchConfig `{JsonData} := {
  match_methods : list str;
  match_path_prefixes : list str;
  match_query : gmap str (list str);
  match_headers : gmap str (list str);
  match_body : option JsonValue;
}.
#[export] Instance hook_match_eq_dec `{JsonData} : EqDecision MitmHookMatchConfig.
Proof. solve_decision. Defined.

Record MitmHookConfig `{JsonData} := {
  hook_host : str;
  hook_matcher : MitmHookMatchConfig;
  hook_actions : MitmHookActionsConfig;
}.
#[export] Instance hook_config_eq_dec `{JsonData} : EqDecision MitmHookConfig.
Proof. solve_decision. Defined.

(** ** The configuration *)

Record NetworkProxyConfig `{JsonData} := {
  enabled : bool;
  proxy_url : str;
  enable_socks5 : bool;
  socks_url : str;
  enable_socks5_udp : bool;
  allow_upstream_proxy : bool;
  dangerously_allow_non_loopback_proxy : bool;
  dangerously_allow_all_unix_sockets : bool;
  mode : NetworkMode;
  domains : option NetworkDomainPermissions;
  unix_sockets : option NetworkUnixSocketPermissions;
  allow_local_binding : bool;
  mitm : bool;
  credential_broker : bool;
  credential_broker_enabled_mitm : bool;
  credential_providers : gmap str CredentialProviderConfig;
  credential_broker_openai_host : option str;
  credential_broker_context : CredentialBrokerContext;
  dangerously_allow_plaintext_credential_injection : bool;
  mitm_hooks : list MitmHookConfig;
}.
#[export] Instance config_eq_dec `{JsonData} : EqDecision NetworkProxyConfig.
Proof. solve_decision. Defined.

Definition default_proxy_url : str := lit "http://127.0.0.1:3128".
Definition default_socks_url : str := lit "http://127.0.0.1:8081".

Section config.
Context `{JsonData}.
Implicit Types (self cfg : NetworkProxyConfig).

Definition default_config : NetworkProxyConfig := {|
  enabled := false; proxy_url := default_proxy_url; enable_socks5 := true; socks_url := default_socks_url;
  enable_socks5_udp := true; allow_upstream_proxy := true; dangerously_allow_non_loopback_proxy := false;
  dangerously_allow_all_unix_sockets := false; mode := Full; domains := None; unix_sockets := None;
  allow_local_binding := false; mitm := false; credential_broker := false;
  credential_broker_enabled_mitm := false; credential_providers := ∅; credential_broker_openai_host := None;
  credential_broker_context := ∅; dangerously_allow_plaintext_credential_injection := false; mitm_hooks := [];
|}.

(** Assignments to single fields. *)
Definition with_enabled (b : bool) self : NetworkProxyConfig :=
  let 'Build_NetworkProxyConfig _ _ a2 a3 a4 a5 a6 a7 a8 a9 a10 a11 a12 a13 a14 a15 a16 a17 a18 a19 a20 := self in
  Build_NetworkProxyConfig _ b a2 a3 a4 a5 a6 a7 a8 a9 a10 a11 a12 a13 a14 a15 a16 a17 a18 a19 a20.
Definition with_urls (p s : str) self : NetworkProxyConfig :=
  let 'Build_NetworkProxyConfig _ a1 _ a3 _ a5 a6 a7 a8 a9 a10 a11 a12 a13 a14 a15 a16 a17 a18 a19 a20 := self in
  Build_NetworkProxyConfig _ a1 p a3 s a5 a6 a7 a8 a9 a10 a11 a12 a13 a14 a15 a16 a17 a18 a19 a20.
Definition with_allow_upstream_proxy (b : bool) self : NetworkProxyConfig :=
  let 'Build_NetworkProxyConfig _ a1 a2 a3 a4 a5 _ a7 a8 a9 a10 a11 a12 a13 a14 a15 a16 a17 a18 a19 a20 := self in
  Build_NetworkProxyConfig _ a1 a2 a3 a4 a5 b a7 a8 a9 a10 a11 a12 a13 a14 a15 a16 a17 a18 a19 a20.
Definition with_allow_non_loopback_proxy (b : bool) self : NetworkProxyConfig :=
  let 'Build_NetworkProxyConfig _ a1 a2 a3 a4 a5 a6 _ a8 a9 a10 a11 a12 a13 a14 a15 a16 a17 a18 a19 a20 := self in
  Build_NetworkProxyConfig _ a1 a2 a3 a4 a5 a6 b a8 a9 a10 a11 a12 a13 a14 a15 a16 a17 a18 a19 a20.
Definition with_allow_all_unix_sockets (b : bool) self : NetworkProxyConfig :=
  let 'Build_NetworkProxyConfig _ a1 a2 a3 a4 a5 a6 a7 _ a9 a10 a11 a12 a13 a14 a15 a16 a17 a18 a19 a20 := self in
  Build_NetworkProxyConfig _ a1 a2 a3 a4 a5 a6 a7 b a9 a10 a11 a12 a13 a14 a15 a16 a17 a18 a19 a20.
Definition with_mode (m : NetworkMode) self : NetworkProxyConfig :=
  let 'Build_NetworkProxyConfig _ a1 a2 a3 a4 a5 a6 a7 a8 _ a10 a11 a12 a13 a14 a15 a16 a17 a18 a19 a20 := self in
  Build_NetworkProxyConfig _ a1 a2 a3 a4 a5 a6 a7 a8 m a10 a11 a12 a13 a14 a15 a16 a17 a18 a19 a20.
Definition with_domains (d : option NetworkDomainPermissions) self : NetworkProxyConfig :=
  let 'Build_NetworkProxyConfig _ a1 a2 a3 a4 a5 a6 a7 a8 a9 _ a11 a12 a13 a14 a15 a16 a17 a18 a19 a20 := self in
  Build_NetworkProxyConfig _ a1 a2 a3 a4 a5 a6 a7 a8 a9 d a11 a12 a13 a14 a15 a16 a17 a18 a19 a20.
Definition with_unix_sockets (u : option NetworkUnixSocketPermissions) self : NetworkProxyConfig :=
  let 'Build_NetworkProxyConfig _ a1 a2 a3 a4 a5 a6 a7 a8 a9 a10 _ a12 a13 a14 a15 a16 a17 a18 a19 a20 := self in
  Build_NetworkProxyConfig _ a1 a2 a3 a4 a5 a6 a7 a8 a9 a10 u a12 a13 a14 a15 a16 a17 a18 a19 a20.
Definition with_allow_local_binding (b : bool) self : NetworkProxyConfig :=
  let 'Build_NetworkProxyConfig _ a1 a2 a3 a4 a5 a6 a7 a8 a9 a10 a11 _ a13 a14 a15 a16 a17 a18 a19 a20 := self in
  Build_NetworkProxyConfig _ a1 a2 a3 a4 a5 a6 a7 a8 a9 a10 a11 b a13 a14 a15 a16 a17 a18 a19 a20.
Definition with_credential_broker (m b e : bool) self : NetworkProxyConfig :=
  let 'Build_NetworkProxyConfig _ a1 a2 a3 a4 a5 a6 a7 a8 a9 a10 a11 a12 _ _ _ a16 a17 a18 a19 a20 := self in
  Build_NetworkProxyConfig _ a1 a2 a3 a4 a5 a6 a7 a8 a9 a10 a11 a12 m b e a16 a17 a18 a19 a20.
Definition with_openai_host (h : option str) self : NetworkProxyConfig :=
  let 'Build_NetworkProxyConfig _ a1 a2 a3 a4 a5 a6 a7 a8 a9 a10 a11 a12 a13 a14 a15 a16 _ a18 a19 a20 := self in
  Build_NetworkProxyConfig _ a1 a2 a3 a4 a5 a6 a7 a8 a9 a10 a11 a12 a13 a14 a15 a16 h a18 a19 a20.

Definition set_credential_broker_enabled self (on : bool) : NetworkProxyConfig :=
  if on then with_credential_broker true true (credential_broker_enabled_mitm self || negb (mitm self)) self
  else if credential_broker_enabled_mitm self
       then with_credential_broker (negb (bool_decide (mitm_hooks self = []))) false false self
       else with_credential_broker (mitm self) false false self.

Definition domain_entries self (p : NetworkDomainPermission) : option (list str) :=
  match (λ d, pattern <$> filter (λ e, permission e = p) (effective_entries d)) <$> domains self with
  | Some [] => None
  | o => o
  end.
Definition allowed_domains self : option (list str) := domain_entries self PermAllow.
Definition denied_domains self : option (list str) := domain_entries self PermDeny.

Definition allow_unix_sockets self : list str :=
  match unix_sockets self with
  | Some u => (filter (λ e, e.2 = SocketAllow) (btree_iter u)).*1
  | None => []
  end.

(** [(!entries.is_empty()).then_some(..)]. *)
Definition nonempty_domains (d : NetworkDomainPermissions) : option NetworkDomainPermissions :=
  if bool_decide (d = []) then None else Some d.

Definition upsert_domain_permission self (host : str) (p : NetworkDomainPermission) (normalize : str → str)
    : NetworkProxyConfig :=
  let d := default [] (domains self) in
  let normalized_host := normalize host in
  let d := filter (λ e, normalize (pattern e) ≠ normalized_host) d in
  with_domains (nonempty_domains (d ++ [Entry host p])) self.

Definition push_domain_entry (p : NetworkDomainPermission) (d : NetworkDomainPermissions) (entry : str)
    : NetworkDomainPermissions :=
  if existsb (λ e, bool_decide (pattern e = entry ∧ permission e = p)) d then d else d ++ [Entry entry p].

Definition set_domain_entries self (entries : list str) (p : NetworkDomainPermission) : NetworkProxyConfig :=
  let d := filter (λ e, permission e ≠ p) (default [] (domains self)) in
  with_domains (nonempty_domains (foldl (push_domain_entry p) d entries)) self.
Definition set_allowed_domains self (l : list str) : NetworkProxyConfig := set_domain_entries self l PermAllow.
Definition set_denied_domains self (l : list str) : NetworkProxyConfig := set_domain_entries self l PermDeny.

Definition set_unix_socket_entries self (entries : list str) (p : NetworkUnixSocketPermission) : NetworkProxyConfig :=
  let u := filter (λ e, e.2 ≠ p) (default ∅ (unix_sockets self)) in
  let u := foldl (λ u entry, <[entry := p]> u) u entries in
  with_unix_sockets (if bool_decide (u = ∅) then None else Some u) self.
Definition set_allow_unix_sockets self (l : list str) : NetworkProxyConfig :=
  set_unix_socket_entries self l SocketAllow.

End config.

(** * Listener addresses of the network proxy

    The second half of [network-proxy/src/config.rs]: socket paths, the parser
    of listener addresses, their clamping to loopback, the ports of a managed
    proxy.  Whatever a listener URL says, the proxy binds a loopback address
    unless the configuration explicitly allows another and proxies no sockets. *)

(** [std::path] and [codex_utils_absolute_path], which resolves a path against the
    home and the working directory. *)
Class PathOps := {
  AbsPath : Type;
  #[global] abs_path_eq_dec :: EqDecision AbsPath;
  path_is_absolute : str → bool;
  from_absolute_path : str → option AbsPath;
}.

(** The parts of a parsed URL that are read. *)
Record Url := {
  url_scheme : str;
  url_username : str;
  url_password : option str;
  url_host_str : option str;
  url_port : option N;
}.
Class UrlOps := url_parse : str → option Url.

Record SocketAddr := Addr { addr_ip : IpAddr; addr_port : N }.
#[export] Instance socket_addr_eq_dec : EqDecision SocketAddr.
Proof. solve_decision. Defined.

Inductive ConfigError :=
  | NotAnAbsolutePath (path : str)
  | UnnormalizablePath (path : str)
  | InvalidUnixSocket (index : nat) (cause : ConfigError)
  | MissingHost (url : str)
  | InvalidProxyUrl (url : str) (cause : ConfigError)
  | InvalidSocksUrl (url : str) (cause : ConfigError)
  | ProxyPortNotFixed
  | SocksPortNotFixed.

(** [str::parse::<u16>]: an optional plus sign and at least one digit. *)
Definition parse_u16 (s : str) : option N :=
  let digits := match s with c :: s' => if (c =? c_plus)%N then s' else s | [] => s end in
  if bool_decide (digits = []) || negb (forallb is_ascii_digit digits) then None
  else
    let n := foldl (λ n c, n * 10 + (c - 48))%N 0%N digits in
    if (n <? 65536)%N then Some n else None.

(** [trim_matches] on a predicate. *)
Definition trim_matches (p : char → bool) (s : str) : str := drop_while_end p (drop_while p s).

Definition c_at : char := 64%N.

Section listen.
Context `{JsonData} `{PathOps} `{UrlOps}.
Implicit Types cfg : NetworkProxyConfig.

(** ** Unix socket paths *)

Inductive ValidatedUnixSocketPath := Native (path : AbsPath) | UnixStyleAbsolute (path : str).

Definition validated_unix_socket_path_parse (socket_path : str) : res ConfigError ValidatedUnixSocketPath :=
  if path_is_absolute socket_path then
    match from_absolute_path socket_path with
    | Some path => Ok (Native path)
    | None => Err (UnnormalizablePath socket_path)
    end
  else if starts_with [c_slash] socket_path then Ok (UnixStyleAbsolute socket_path)
  else Err (NotAnAbsolutePath socket_path).

Fixpoint validate_socket_paths (index : nat) (paths : list str) : res ConfigError unit :=
  match paths with
  | [] => Ok ()
  | path :: paths' =>
      let? _ := map_err (InvalidUnixSocket index) (validated_unix_socket_path_parse path) in
      validate_socket_paths (S index) paths'
  end.
Definition validate_unix_socket_allowlist_paths cfg : res ConfigError unit :=
  validate_socket_paths 0 (allow_unix_sockets cfg).

(** ** Parsing addresses *)

Record SocketAddressParts := { parts_host : str; parts_port : N }.

Definition parse_host_port_fallback (input : str) (default_port : N) : res ConfigError SocketAddressParts :=
  let without_scheme := match split_once_str (lit "://") input with Some (_, rest) => rest | None => input end in
  let host_port := default without_scheme (head (split_char c_slash without_scheme)) in
  let host_port := match rsplit_once c_at host_port with Some (_, rest) => rest | None => host_port end in
  match (if starts_with [c_lbracket] host_port then str_find [c_rbracket] host_port else None) with
  | Some end_ =>
      let host := take (end_ - 1) (drop 1 host_port) in
      let port := match strip_prefix [c_colon] (drop (end_ + 1) host_port) with
                  | Some port => default default_port (parse_u16 port)
                  | None => default_port
                  end in
      if bool_decide (host = []) then Err (MissingHost input)
      else Ok {| parts_host := host; parts_port := port |}
  | None =>
      match (if bool_decide (count_char c_colon host_port = 1) then rsplit_once c_colon host_port else None) with
      | Some (host, port) =>
          if bool_decide (host = []) then Err (MissingHost input)
          else Ok {| parts_host := host; parts_port := default default_port (parse_u16 port) |}
      | None =>
          if bool_decide (host_port = []) then Err (MissingHost input)
          else Ok {| parts_host := host_port; parts_port := default_port |}
      end
  end.

Definition is_bracket (c : char) : bool := ((c =? c_lbracket) || (c =? c_rbracket))%N.

Definition parse_host_port (url : str) (default_port : N) : res ConfigError SocketAddressParts :=
  let trimmed := trim url in
  if bool_decide (trimmed = []) then Err (MissingHost url)
  else if (match ip_parse trimmed with Some (V6 _) => true | _ => false end)
          && negb (starts_with [c_lbracket] trimmed)
  then Ok {| parts_host := trimmed; parts_port := default_port |}
  else
    let candidate := if str_contains (lit "://") trimmed then trimmed else lit "http://" ++ trimmed in
    match (parsed ← url_parse candidate; host ← url_host_str parsed; Some (parsed, host)) with
    | Some (parsed, host) =>
        let host := trim_matches is_bracket host in
        if bool_decide (host = []) then Err (MissingHost url)
        else Ok {| parts_host := host; parts_port := default default_port (url_port parsed) |}
    | None => parse_host_port_fallback trimmed default_port
    end.

Definition resolve_addr (url : str) (default_port : N) : res ConfigError SocketAddr :=
  let? addr_parts := parse_host_port url default_port in
  let host := if eq_ignore_ascii_case (parts_host addr_parts) (lit "localhost") then lit "127.0.0.1"
              else parts_host addr_parts in
  match ip_parse host with
  | Some ip => Ok (Addr ip (parts_port addr_parts))
  | None => Ok (Addr (V4 LOCALHOST_V4) (parts_port addr_parts))
  end.

Definition format_host_and_port (host : str) (port : N) : str :=
  if contains_char c_colon host then [c_lbracket] ++ host ++ [c_rbracket; c_colon] ++ lit (pretty port)
  else host ++ [c_colon] ++ lit (pretty port).

Definition host_and_port_from_network_addr (value : str) (default_port : N) : str :=
  let trimmed := trim value in
  if bool_decide (trimmed = []) then lit "<missing>"
  else match parse_host_port trimmed default_port with
       | Ok parts => format_host_and_port (parts_host parts) (parts_port parts)
       | _ => format_host_and_port trimmed default_port
       end.

Definition trusted_credential_broker_host (base_url : str) : option str :=
  url ← url_parse base_url;
  if bool_decide (url_scheme url = lit "https" ∧ url_username url = [] ∧ url_password url = None)
  then normalize_host <$> url_host_str url else None.

Definition set_credential_broker_openai_base_url cfg (base_url : option str) : NetworkProxyConfig :=
  with_openai_host (b ← base_url; trusted_credential_broker_host b) cfg.

(** ** Clamping *)

(** The warnings it logs are left out. *)
Definition clamp_non_loopback (addr : SocketAddr) (allow_non_loopback : bool) : SocketAddr :=
  if ip_is_loopback (addr_ip addr) then addr
  else if allow_non_loopback then addr
  else Addr (V4 LOCALHOST_V4) (addr_port addr).

Definition clamp_bind_addrs (http_addr socks_addr : SocketAddr) cfg : SocketAddr * SocketAddr :=
  let http_addr := clamp_non_loopback http_addr (dangerously_allow_non_loopback_proxy cfg) in
  let socks_addr := clamp_non_loopback socks_addr (dangerously_allow_non_loopback_proxy cfg) in
  if bool_decide (allow_unix_sockets cfg = []) && negb (dangerously_allow_all_unix_sockets cfg)
  then (http_addr, socks_addr)
  else (Addr (V4 LOCALHOST_V4) (addr_port http_addr), Addr (V4 LOCALHOST_V4) (addr_port socks_addr)).

Record RuntimeConfig := { http_addr : SocketAddr; socks_addr : SocketAddr }.

Definition resolve_runtime cfg : res ConfigError RuntimeConfig :=
  let? _ := validate_unix_socket_allowlist_paths cfg in
  let? http := map_err (InvalidProxyUrl (proxy_url cfg)) (resolve_addr (proxy_url cfg) 3128) in
  let? socks := map_err (InvalidSocksUrl (socks_url cfg)) (resolve_addr (socks_url cfg) 8081) in
  let '(http, socks) := clamp_bind_addrs http socks cfg in
  Ok {| http_addr := http; socks_addr := socks |}.

(** [sort_unstable] and [dedup] of the at most two ports. *)
Definition sort_ports (l : list N) : list N := dedup (merge_sort N.le l).

Definition managed_proxy_ports cfg : res ConfigError (list N) :=
  let? runtime := resolve_runtime cfg in
  if (addr_port (http_addr runtime) =? 0)%N then Err ProxyPortNotFixed
  else if enable_socks5 cfg then
    if (addr_port (socks_addr runtime) =? 0)%N then Err SocksPortNotFixed
    else Ok (sort_ports [addr_port (http_addr runtime); addr_port (socks_addr runtime)])
  else Ok (sort_ports [addr_port (http_addr runtime)]).

(** ** What is bound *)

Definition exposes_sockets cfg : Prop :=
  allow_unix_sockets cfg ≠ [] ∨ dangerously_allow_all_unix_sockets cfg = true.

Lemma clamp_non_loopback_port a b : addr_port (clamp_non_loopback a b) = addr_port a.
Proof. unfold clamp_non_loopback. by repeat case_match. Qed.

Lemma clamp_non_loopback_ip a b :
  clamp_non_loopback a b = a ∧ (ip_is_loopback (addr_ip a) = true ∨ b = true) ∨
  addr_ip (clamp_non_loopback a b) = V4 LOCALHOST_V4 ∧ b = false.
Proof. unfold clamp_non_loopback. destruct (ip_is_loopback (addr_ip a)), b; auto. Qed.

Lemma clamp_bind_addrs_spec http socks cfg h s :
  clamp_bind_addrs http socks cfg = (h, s) →
  addr_port h = addr_port http ∧ addr_port s = addr_port socks ∧
  ((ip_is_loopback (addr_ip h) = true ∧ ip_is_loopback (addr_ip s) = true) ∨
   dangerously_allow_non_loopback_proxy cfg = true ∧ ¬ exposes_sockets cfg ∧ h = http ∧ s = socks).
Proof.
  unfold clamp_bind_addrs, exposes_sockets. destruct (bool_decide (allow_unix_sockets cfg = []) && _) eqn:E; intros [= <- <-].
  - apply andb_true_iff in E as [E1%bool_decide_eq_true E2%negb_true_iff]. rewrite !clamp_non_loopback_port.
    split; [done|]. split; [done|].
    destruct (dangerously_allow_non_loopback_proxy cfg) eqn:Ed.
    + right. unfold clamp_non_loopback. rewrite E1, E2. repeat case_match; naive_solver.
    + left. destruct (clamp_non_loopback_ip http false) as [[-> [?|?]]|[-> _]],
        (clamp_non_loopback_ip socks false) as [[-> [?|?]]|[-> _]]; done.
  - simpl. rewrite !clamp_non_loopback_port. auto.
Qed.

(** The proxy listens on loopback addresses, with the ports its URLs name; the only exception is a
    configuration that allows other addresses and proxies no Unix sockets. *)
Theorem listeners_loopback cfg rt :
  resolve_runtime cfg = Ok rt →
  ∃ http socks, resolve_addr (proxy_url cfg) 3128 = Ok http ∧ resolve_addr (socks_url cfg) 8081 = Ok socks ∧
    addr_port (http_addr rt) = addr_port http ∧ addr_port (socks_addr rt) = addr_port socks ∧
    (ip_is_loopback (addr_ip (http_addr rt)) = true ∧ ip_is_loopback (addr_ip (socks_addr rt)) = true ∨
     dangerously_allow_non_loopback_proxy cfg = true ∧ ¬ exposes_sockets cfg ∧
     http_addr rt = http ∧ socks_addr rt = socks).
Proof.
  unfold resolve_runtime. rewrite res_bind_Ok. intros (u & _ & Hr). apply res_bind_Ok in Hr as (http & Hh & Hr).
  apply res_bind_Ok in Hr as (socks & Hs & Hr).
  destruct (resolve_addr (proxy_url cfg) 3128) as [a| |]; [|done..]. injection Hh as ->.
  destruct (resolve_addr (socks_url cfg) 8081) as [a| |]; [|done..]. injection Hs as ->.
  destruct (clamp_bind_addrs http socks cfg) as [h s] eqn:E. injection Hr as <-.
  exists http, socks. split; [done|]. split; [done|]. by apply clamp_bind_addrs_spec.
Qed.

Lemma sort_ports_spec l : StronglySorted N.lt (sort_ports l) ∧ ∀ p, p ∈ sort_ports l ↔ p ∈ l.
Proof.
  assert (Hs : StronglySorted N.le (merge_sort N.le l)).
  { apply Sorted_StronglySorted; [apply _|]. apply Sorted_merge_sort. apply _. }
  unfold sort_ports. split.
  - apply dedup_sorted in Hs; [|apply _]. induction Hs as [|x k Hs IH Hx]; constructor; [done|].
    eapply Forall_impl; [exact Hx|]. simpl. lia.
  - intros p. rewrite elem_of_dedup. by rewrite merge_sort_Permutation.
Qed.

(** The ports reserved for a managed proxy are those of its listeners, strictly increasing and
    none of them the wildcard port. *)
Theorem managed_proxy_ports_spec cfg ports :
  managed_proxy_ports cfg = Ok ports →
  ∃ rt, resolve_runtime cfg = Ok rt ∧ StronglySorted N.lt ports ∧ (0%N ∉ ports) ∧
    ∀ p, p ∈ ports ↔ p = addr_port (http_addr rt) ∨ enable_socks5 cfg = true ∧ p = addr_port (socks_addr rt).
Proof.
  unfold managed_proxy_ports. rewrite res_bind_Ok. intros (rt & Hrt & Hp). exists rt. split; [done|].
  destruct (N.eqb_spec (addr_port (http_addr rt)) 0) as [|Hh]; [done|].
  destruct (enable_socks5 cfg).
  - destruct (N.eqb_spec (addr_port (socks_addr rt)) 0) as [|Hs]; [done|]. injection Hp as <-.
    destruct (sort_ports_spec [addr_port (http_addr rt); addr_port (socks_addr rt)]) as [Hst Hin].
    split; [done|]. rewrite Hin. split; [|intros p; rewrite Hin]; rewrite !elem_of_cons, elem_of_nil; naive_solver.
  - injection Hp as <-. destruct (sort_ports_spec [addr_port (http_addr rt)]) as [Hst Hin].
    split; [done|]. rewrite Hin. split; [|intros p; rewrite Hin]; rewrite list_elem_of_singleton; naive_solver.
Qed.

End listen.
