(* ===== verification/AuthPath.v ===== *)
(** * Paths with one interpretation

    [network-proxy/src/authorization_path.rs]: which request paths may be
    matched by a hook.  A path is accepted exactly when percent-decoding each
    of its segments succeeds and gives something that neither a second decoding
    nor the removal of dot segments would change. *)

From stdpp Require Import list.
From S2P Require Import Prelude RustStr Utf8.

Definition b_dot : N := 46%N.
Definition b_slash : N := 47%N.
Definition b_backslash : N := 92%N.
Definition b_percent : N := 37%N.

Definition decode_hex_digit (byte : N) : option N :=
  if ((48 <=? byte) && (byte <=? 57))%N then Some (byte - 48)%N
  else if ((97 <=? byte) && (byte <=? 102))%N then Some (byte - 97 + 10)%N
  else if ((65 <=? byte) && (byte <=? 70))%N then Some (byte - 65 + 10)%N
  else None.

(** The loop of [is_safe_segment_for_authorization]: the number of decoded dots and whether
    something else was seen, or nothing when the function returns [false]. *)
Fixpoint safe_loop (bytes : list N) (decoded_dots : nat) (has_non_dot : bool) : option (nat * bool) :=
  match bytes with
  | [] => Some (decoded_dots, has_non_dot)
  | byte :: rest =>
      if (byte =? b_dot)%N then safe_loop rest (S decoded_dots) has_non_dot
      else if (byte =? b_backslash)%N then None
      else if (byte =? b_percent)%N then
        match rest with
        | high :: low :: rest' =>
            match decode_hex_digit high, decode_hex_digit low with
            | Some high, Some low =>
                let decoded := N.lor (N.shiftl high 4) low in
                if ((decoded =? b_percent) || (decoded =? b_slash) || (decoded =? b_backslash))%N then None
                else if (decoded =? b_dot)%N then safe_loop rest' (S decoded_dots) has_non_dot
                else safe_loop rest' decoded_dots true
            | _, _ => None
            end
        | _ => None
        end
      else safe_loop rest decoded_dots true
  end.

Definition is_safe_segment_for_authorization (segment : str) : bool :=
  match safe_loop (encode segment) 0 false with
  | Some (decoded_dots, has_non_dot) =>
      has_non_dot || negb (bool_decide (decoded_dots = 1 ∨ decoded_dots = 2))
  | None => false
  end.

Definition is_safe_for_authorization (path : str) : bool :=
  forallb is_safe_segment_for_authorization (split_char b_slash path).

(** ** Percent-decoding *)

(** Every escape is replaced by its byte; a malformed escape is an error. *)
Fixpoint percent_decode (bytes : list N) : option (list N) :=
  match bytes with
  | [] => Some []
  | byte :: rest =>
      if (byte =? b_percent)%N then
        match rest with
        | high :: low :: rest' =>
            high ← decode_hex_digit high; low ← decode_hex_digit low; d ← percent_decode rest';
            Some ((high * 16 + low)%N :: d)
        | _ => None
        end
      else d ← percent_decode rest; Some (byte :: d)
  end.

(** Nothing that an upstream would decode, split or resolve further. *)
Definition unambiguous (d : list N) : Prop :=
  (b_percent ∉ d) ∧ (b_slash ∉ d) ∧ (b_backslash ∉ d) ∧ d ≠ [b_dot] ∧ d ≠ [b_dot; b_dot].
#[export] Instance unambiguous_dec d : Decision (unambiguous d).
Proof. unfold unambiguous. apply _. Defined.

Definition clean (d : list N) : bool :=
  forallb (λ b, negb ((b =? b_percent) || (b =? b_slash) || (b =? b_backslash))%N) d.
Definition dots (d : list N) : nat := length (filter (λ b, b = b_dot) d).
Definition non_dot (d : list N) : bool := existsb (λ b, negb (b =? b_dot)%N) d.

Lemma decode_hex_digit_bound b n : decode_hex_digit b = Some n → (n < 16)%N.
Proof.
  unfold decode_hex_digit. repeat case_match; try done; intros [= <-];
    repeat match goal with H : _ && _ = true |- _ => apply andb_true_iff in H as [?%N.leb_le ?%N.leb_le] end; lia.
Qed.

Lemma hex_pair h l : (l < 16)%N → N.lor (N.shiftl h 4) l = (h * 16 + l)%N.
Proof.
  intros Hl. rewrite N.shiftl_mul_pow2. change (2 ^ 4)%N with 16%N.
  assert (Hand : N.land (h * 16) l = 0%N).
  { apply N.bits_inj. intros i. rewrite N.land_spec, N.bits_0. destruct (N.lt_ge_cases i 4) as [Hi|Hi].
    - change 16%N with (2 ^ 4)%N. by rewrite N.mul_pow2_bits_low.
    - replace (N.testbit l i) with false; [by rewrite andb_false_r|]. symmetry.
      destruct (N.eq_dec l 0%N) as [->|]; [apply N.bits_0|]. apply N.bits_above_log2.
      assert (N.log2 l < 4)%N by (apply N.log2_lt_pow2; [lia|done]). lia. }
  rewrite <- N.lxor_lor by done. symmetry. by apply N.add_nocarry_lxor.
Qed.

Lemma clean_cons b d :
  clean (b :: d) = negb ((b =? b_percent) || (b =? b_slash) || (b =? b_backslash))%N && clean d.
Proof. done. Qed.

Lemma dots_cons b d : dots (b :: d) = if (b =? b_dot)%N then S (dots d) else dots d.
Proof. unfold dots. rewrite filter_cons. destruct (N.eqb_spec b b_dot); by case_decide. Qed.

Lemma non_dot_cons b d : non_dot (b :: d) = negb (b =? b_dot)%N || non_dot d.
Proof. done. Qed.

(** The loop decodes, and checks that the result is clean while it counts. *)
Lemma safe_loop_decodes bs n nd :
  b_slash ∉ bs →
  safe_loop bs n nd =
  match percent_decode bs with
  | Some d => if clean d then Some (n + dots d, nd || non_dot d) else None
  | None => None
  end.
Proof.
  revert n nd. induction bs as [bs IH] using (induction_ltof1 _ (@length N)). unfold ltof in IH.
  intros n nd Hs. destruct bs as [|b bs].
  { simpl. by rewrite Nat.add_0_r, orb_false_r. }
  apply not_elem_of_cons in Hs as [Hb Hs]. cbn [safe_loop percent_decode].
  assert (Hplain : b ≠ b_percent → b ≠ b_backslash →
    (if (b =? b_dot)%N then safe_loop bs (S n) nd else safe_loop bs n true) =
    match d ← percent_decode bs; Some (b :: d) with
    | Some d => if clean d then Some (n + dots d, nd || non_dot d) else None
    | None => None
    end).
  { intros Hp Hbs. rewrite !IH by (simpl; lia || done).
    destruct (percent_decode bs) as [d|]; cbn [mbind option_bind]; [|by destruct (b =? b_dot)%N].
    rewrite clean_cons, dots_cons, non_dot_cons.
    rewrite (proj2 (N.eqb_neq b b_percent)), (proj2 (N.eqb_neq b b_slash)), (proj2 (N.eqb_neq b b_backslash)) by done.
    destruct (b =? b_dot)%N, (clean d); simpl; rewrite ?orb_true_r, ?Nat.add_succ_r; done. }
  destruct (N.eqb_spec b b_dot) as [->|Hd]; [by apply Hplain|].
  destruct (N.eqb_spec b b_backslash) as [->|Hbs].
  { change (b_backslash =? b_percent)%N with false. cbn. by destruct (percent_decode bs). }
  destruct (N.eqb_spec b b_percent) as [->|Hp].
  2: { by apply Hplain. }
  destruct bs as [|h [|l bs]]; [done|done|].
  destruct (decode_hex_digit h) as [hi|]; [|done]. cbn [mbind option_bind].
  destruct (decode_hex_digit l) as [lo|] eqn:El; [|done]. cbn [mbind option_bind].
  rewrite hex_pair by by eapply decode_hex_digit_bound.
  set (c := (hi * 16 + lo)%N). apply not_elem_of_cons in Hs as [_ [_ Hs]%not_elem_of_cons].
  rewrite !IH by (simpl; lia || done).
  destruct (percent_decode bs) as [d|]; cbn [mbind option_bind]; [|by repeat case_match].
  rewrite clean_cons, dots_cons, non_dot_cons.
  destruct ((c =? b_percent) || (c =? b_slash) || (c =? b_backslash))%N; [done|].
  destruct (c =? b_dot)%N, (clean d); simpl; rewrite ?orb_true_r, ?Nat.add_succ_r; done.
Qed.

Lemma clean_true d : clean d = true ↔ (b_percent ∉ d) ∧ (b_slash ∉ d) ∧ (b_backslash ∉ d).
Proof.
  induction d as [|b d IH]; [rewrite !elem_of_nil; cbn; tauto|].
  rewrite clean_cons, andb_true_iff, negb_true_iff, !orb_false_iff, !N.eqb_neq, IH, !elem_of_cons. naive_solver.
Qed.

Lemma dots_only d : non_dot d = false → d = replicate (dots d) b_dot.
Proof.
  induction d as [|b d IH]; [done|]. rewrite non_dot_cons, dots_cons. intros [Hb Hd]%orb_false_iff.
  apply negb_false_iff in Hb. rewrite Hb. apply N.eqb_eq in Hb as ->. simpl. by rewrite <- IH.
Qed.

Lemma non_dot_replicate n : non_dot (replicate n b_dot) = false.
Proof. by induction n. Qed.

Lemma encode_ascii b s : (b < 128)%N → b ∈ encode s → b ∈ s.
Proof.
  intros Hb. unfold encode. rewrite list_elem_of_bind. intros (c & Hc & Hin).
  unfold encode_char in Hc. destruct (c <? 128)%N; [by apply list_elem_of_singleton in Hc as ->|].
  exfalso. repeat case_match; rewrite !elem_of_cons, elem_of_nil in Hc;
    repeat destruct Hc as [Hc|Hc]; try done; revert Hb; rewrite Hc; apply N.le_ngt;
    (etransitivity; [|apply N.le_add_r]); lia.
Qed.

Lemma is_safe_segment_iff segment :
  b_slash ∉ segment →
  is_safe_segment_for_authorization segment = true ↔
  ∃ d, percent_decode (encode segment) = Some d ∧ unambiguous d.
Proof.
  intros Hs. unfold is_safe_segment_for_authorization.
  rewrite safe_loop_decodes by (intros H; apply Hs, encode_ascii; done).
  destruct (percent_decode (encode segment)) as [d|]; [|naive_solver].
  assert (Hd : is_Some (Some d)) by done.
  destruct (clean d) eqn:Hc.
  - simpl. rewrite orb_true_iff, negb_true_iff, bool_decide_eq_false. apply clean_true in Hc. unfold unambiguous. split.
    + intros H. exists d. split; [done|]. destruct Hc as (?&?&?). repeat split; try done; intros ->; destruct H; cbn in *; naive_solver.
    + intros (d' & [= <-] & _ & _ & _ & H1 & H2). destruct (non_dot d) eqn:E; [by left|]. right.
      apply dots_only in E. intros [Hn|Hn]; rewrite Hn in E; naive_solver.
  - split; [done|]. intros (d' & [= <-] & Hu). enough (clean d = true) by congruence.
    apply clean_true. destruct Hu as (?&?&?&_). done.
Qed.

(** Decoding what a segment decodes to changes nothing. *)
Lemma percent_decode_clean d : (b_percent ∉ d) → percent_decode d = Some d.
Proof.
  induction d as [|b d IH]; [done|]. intros [Hb Hd]%not_elem_of_cons. cbn [percent_decode].
  destruct (N.eqb_spec b b_percent); [congruence|]. by rewrite IH.
Qed.

Lemma safe_segments ss :
  Forall (λ s, b_slash ∉ s) ss →
  forallb is_safe_segment_for_authorization ss = true ↔
  ∃ ds, Forall2 (λ segment d, percent_decode (encode segment) = Some d) ss ds ∧ Forall unambiguous ds.
Proof.
  induction 1 as [|s ss Hs Hss IH]; simpl.
  - split; [by exists []|done].
  - rewrite andb_true_iff, IH, is_safe_segment_iff by done. split.
    + intros ((d & Hd & Hu) & ds & Hds & Hus). exists (d :: ds). split; by constructor.
    + intros (ds & Hds & Hus). inversion Hds as [|? d ? ds' Hd Hds']; subst.
      apply Forall_cons in Hus as [??]. split; eauto.
Qed.

(** A path is accepted for authorization exactly when each segment decodes and what it decodes to
    contains no percent sign, slash or backslash and is not a dot segment.  The decoded path then has
    the decoded segments as its segments, and decoding them again gives them back: no later decoding,
    splitting or removal of dot segments leads to another resource. *)
Theorem is_safe_for_authorization_iff path :
  is_safe_for_authorization path = true ↔
  ∃ ds, Forall2 (λ segment d, percent_decode (encode segment) = Some d) (split_char b_slash path) ds ∧
        Forall unambiguous ds ∧ split_char b_slash (join [b_slash] ds) = ds ∧
        Forall (λ d, percent_decode d = Some d) ds.
Proof.
  unfold is_safe_for_authorization. rewrite safe_segments by apply split_char_pieces.
  split; [|naive_solver]. intros (ds & Hds & Hu). exists ds. split; [done|]. split; [done|]. split.
  - apply split_join.
    + intros ->. inversion Hds as [Hn|]. by apply (split_char_not_nil b_slash path).
    + eapply Forall_impl; [exact Hu|]. intros d (_ & Hd & _). done.
  - eapply Forall_impl; [exact Hu|]. intros d (Hd & _). by apply percent_decode_clean.
Qed.

Example safe_paths :
  is_safe_for_authorization (lit "/repos/a%2Db/.git") = true ∧
  Forall (λ p, is_safe_for_authorization (lit p) = false)
    ["/repos/%2E./x"; "/a/../b"; "/a%2fb"; "/a%252fb"; "/a\b"; "/a%"; "/."]%string.
Proof. split; [reflexivity|]. repeat (apply Forall_cons; split; [reflexivity|]). constructor. Qed.
