(* ===== verification/MitmHook.v ===== *)
(** * Hooks of the intercepting proxy

    [network-proxy/src/mitm_hook.rs]: validation of the configured hooks, their
    compilation with the secrets they inject, and the evaluation of a request.
    HTTP names and values, globs, query strings and secrets on disk are the work
    of other packages: the classes [HttpOps], [GlobOps], [PathOps] and [SecretOps].
    The configuration that is validated is the one that compiles: apart from
    secrets, compiling a validated configuration cannot fail. *)

From stdpp Require Import gmap list.
From S2P Require Import Prelude RustStr RustOrd Utf8 IpAddr NetPolicy NetConfig AuthPath.

Definition PATTERN_PREFIX : str := lit "pattern:".
Definition LITERAL_PREFIX : str := lit "literal:".

Definition ascii_upper (c : char) : char :=
  if ((97 <=? c) && (c <=? 122))%N then (c - 32)%N else c.
Definition to_ascii_uppercase (s : str) : str := map ascii_upper s.

(** [http]'s header names and values, and [form_urlencoded::parse]. *)
Class HttpOps := {
  HeaderName : Type;
  #[global] header_name_eq_dec :: EqDecision HeaderName;
  HeaderValue : Type;
  header_name_from_bytes : str → option HeaderName;
  header_value_from_str : str → option HeaderValue;
  header_value_to_str : HeaderValue → option str;
  form_urlencoded_parse : str → list (str * str);
}.

(** The environment variables and the files secrets are read from. *)
Class SecretOps `{PathOps} := {
  env_var : str → option str;
  read_to_string : AbsPath → option str;
}.

(** ** Compiled hooks *)

Section compiled.
Context `{JsonData} `{PathOps} `{HttpOps} `{GlobOps}.

Record CompiledGlobMatcher := { glob_pattern : str; glob_matcher : Glob }.
Inductive PathMatcher := PathPrefix (prefix : str) | PathGlob (glob : CompiledGlobMatcher).
Inductive ValueMatcher := ValueExact (value : str) | ValueGlob (glob : CompiledGlobMatcher).

Record QueryConstraint := { query_name : str; query_values : list ValueMatcher }.
Record HeaderConstraint := { constraint_name : HeaderName; constraint_values : list ValueMatcher }.

Inductive SecretSource := EnvVar (name : str) | File (path : AbsPath).
Record ResolvedInjectedHeader := {
  resolved_name : HeaderName;
  resolved_value : HeaderValue;
  resolved_source : SecretSource;
}.

Record MitmHookMatcher := {
  methods : list str;
  path_prefixes : list PathMatcher;
  query : list QueryConstraint;
  headers : list HeaderConstraint;
  body : option JsonValue;
}.
Record MitmHookActions := {
  strip_headers : list HeaderName;
  inject_headers : list ResolvedInjectedHeader;
}.
Record MitmHook := { host : str; matcher : MitmHookMatcher; actions : MitmHookActions }.

Inductive HookEvaluation :=
  | NoHooksForHost
  | Matched (actions : MitmHookActions)
  | HookedHostNoMatch.

(** The parts of a request that are read. *)
Record Request := {
  req_method : str;
  req_path : str;
  req_query : option str;
  req_headers : list (HeaderName * HeaderValue);
}.

End compiled.

(** ** Errors *)

Inductive HookField :=
  | FieldHost | FieldMethods | FieldPathPrefixes | FieldQuery | FieldHeaders | FieldStrip | FieldInject.

Inductive HookError :=
  | HooksRequireMitm
  | InvalidHookField (hook_index : nat) (field : HookField) (cause : HookError)
  | HookFieldEmpty (hook_index : nat) (field : HookField)
  | BodyNotSupported (hook_index : nat)
  | HostEmptyError
  | HostHasWildcard
  | EmptyMethodEntry
  | EmptyPathEntry
  | EmptyGlobPattern
  | InvalidGlob (pattern : str)
  | EmptyQueryKey
  | NoQueryValues (name : str)
  | InvalidQueryMatcher (name : str) (cause : HookError)
  | InvalidHeaderName (name : str)
  | InvalidHeaderMatcher (name : str) (cause : HookError)
  | SecretEnvVarEmpty
  | SecretFileEmpty
  | SecretFileNotAbsolute (path : str)
  | NotExactlyOneSource
  | InvalidInjectedHeader (name : str) (cause : HookError)
  | MissingEnvVar (name : str)
  | UnreadableSecretFile
  | InvalidInjectedValue (name : str).

(** A loop that only checks. *)
Definition for_each {E A} (f : A → res E unit) (l : list A) : res E unit :=
  foldM (λ _ x, f x) () l.

Section hooks.
Context `{JsonData} `{PathOps} `{HttpOps} `{GlobOps}.
Implicit Types config : NetworkProxyConfig.

Abbreviation MitmHooksByHost := (gmap str (list MitmHook)).

(** ** Matchers *)

Inductive MatcherPattern := PatLiteral (s : str) | PatGlob (s : str).

Definition parse_matcher_pattern (pattern : str) : res HookError MatcherPattern :=
  match strip_prefix LITERAL_PREFIX pattern with
  | Some literal => Ok (PatLiteral literal)
  | None =>
      match strip_prefix PATTERN_PREFIX pattern with
      | None => Ok (PatLiteral pattern)
      | Some glob_pattern =>
          if bool_decide (glob_pattern = []) then Err EmptyGlobPattern else Ok (PatGlob glob_pattern)
      end
  end.

Definition compile_glob_matcher (pattern : str) (literal_sep : bool) : res HookError CompiledGlobMatcher :=
  let options := {| case_insensitive := false; literal_separator := literal_sep; backslash_escape := true |} in
  match glob_build options pattern with
  | Some glob => Ok {| glob_pattern := pattern; glob_matcher := glob |}
  | None => Err (InvalidGlob pattern)
  end.

Definition compile_path_matcher (prefix : str) : res HookError PathMatcher :=
  let? p := parse_matcher_pattern prefix in
  match p with
  | PatLiteral prefix => if bool_decide (prefix = []) then Err EmptyPathEntry else Ok (PathPrefix prefix)
  | PatGlob glob_pattern => let? g := compile_glob_matcher glob_pattern true in Ok (PathGlob g)
  end.
Definition compile_path_matchers (l : list str) : res HookError (list PathMatcher) :=
  collect compile_path_matcher l.

Definition compile_value_matcher (value : str) : res HookError ValueMatcher :=
  let? p := parse_matcher_pattern value in
  match p with
  | PatLiteral value => Ok (ValueExact value)
  | PatGlob glob_pattern => let? g := compile_glob_matcher glob_pattern false in Ok (ValueGlob g)
  end.
Definition compile_value_matchers (l : list str) : res HookError (list ValueMatcher) :=
  collect compile_value_matcher l.

Definition normalize_hook_host (host : str) : res HookError str :=
  let normalized := normalize_host host in
  if bool_decide (normalized = []) then Err HostEmptyError
  else if contains_char c_star normalized then Err HostHasWildcard
  else Ok normalized.

Definition normalize_methods (methods : list str) : res HookError (list str) :=
  collect (λ method,
    let normalized := to_ascii_uppercase (trim method) in
    if bool_decide (normalized = []) then Err EmptyMethodEntry else Ok normalized) methods.

Definition normalize_query_name (name : str) : res HookError str :=
  if bool_decide (name = []) then Err EmptyQueryKey else Ok name.

Definition parse_header_name (name : str) : res HookError HeaderName :=
  ok_or (header_name_from_bytes name) (InvalidHeaderName name).

Definition parse_secret_file (path : str) : res HookError AbsPath :=
  if bool_decide (trim path = []) then Err SecretFileEmpty
  else if negb (path_is_absolute path) then Err (SecretFileNotAbsolute path)
  else ok_or (from_absolute_path path) (SecretFileNotAbsolute path).

(** ** Validation *)

Definition validate_query_constraint (c : str * list str) : res HookError unit :=
  let '(name, values) := c in
  let? normalized := normalize_query_name name in
  if bool_decide (normalized = []) then Err EmptyQueryKey
  else if bool_decide (values = []) then Err (NoQueryValues name)
  else let? _ := map_err (InvalidQueryMatcher name) (compile_value_matchers values) in Ok ().
Definition validate_query_constraints (query : gmap str (list str)) : res HookError unit :=
  for_each validate_query_constraint (btree_iter query).

Definition validate_header_constraint (c : str * list str) : res HookError unit :=
  let '(name, values) := c in
  let? _ := parse_header_name name in
  let? _ := map_err (InvalidHeaderMatcher name) (compile_value_matchers values) in Ok ().
Definition validate_header_constraints (headers : gmap str (list str)) : res HookError unit :=
  for_each validate_header_constraint (btree_iter headers).

Definition validate_strip_request_headers (header_names : list str) : res HookError unit :=
  for_each (λ name, let? _ := parse_header_name name in Ok ()) header_names.

Definition validate_injected_header (header : InjectedHeaderConfig) : res HookError unit :=
  let? _ := parse_header_name (header_name header) in
  match secret_env_var header, secret_file header with
  | Some secret_env_var, None =>
      if bool_decide (trim secret_env_var = []) then Err SecretEnvVarEmpty else Ok ()
  | None, Some secret_file => let? _ := parse_secret_file secret_file in Ok ()
  | _, _ => Err NotExactlyOneSource
  end.
Definition validate_injected_headers (headers : list InjectedHeaderConfig) : res HookError unit :=
  for_each validate_injected_header headers.

(** The body of the loop over the hooks. *)
Definition validate_hook (hook_index : nat) (hook : MitmHookConfig) : res HookError unit :=
  let matcher := hook_matcher hook in
  let invalid f := InvalidHookField hook_index f in
  let? host := map_err (invalid FieldHost) (normalize_hook_host (hook_host hook)) in
  let? methods := map_err (invalid FieldMethods) (normalize_methods (match_methods matcher)) in
  if bool_decide (methods = []) then Err (HookFieldEmpty hook_index FieldMethods)
  else
    let? path_prefixes := map_err (invalid FieldPathPrefixes) (compile_path_matchers (match_path_prefixes matcher)) in
    match path_prefixes with
    | [] => Err (HookFieldEmpty hook_index FieldPathPrefixes)
    | _ =>
        match match_body matcher with
        | Some _ => Err (BodyNotSupported hook_index)
        | None =>
            let? _ := map_err (invalid FieldQuery) (validate_query_constraints (match_query matcher)) in
            let? _ := map_err (invalid FieldHeaders) (validate_header_constraints (match_headers matcher)) in
            let? _ := map_err (invalid FieldStrip)
                        (validate_strip_request_headers (strip_request_headers (hook_actions hook))) in
            let? _ := map_err (invalid FieldInject)
                        (validate_injected_headers (inject_request_headers (hook_actions hook))) in
            if bool_decide (host = []) then Err (HookFieldEmpty hook_index FieldHost) else Ok ()
        end
    end.

Fixpoint validate_hooks (hook_index : nat) (hooks : list MitmHookConfig) : res HookError unit :=
  match hooks with
  | [] => Ok ()
  | hook :: hooks' => let? _ := validate_hook hook_index hook in validate_hooks (S hook_index) hooks'
  end.

Definition validate_mitm_hook_config config : res HookError unit :=
  if bool_decide (mitm_hooks config = []) then Ok ()
  else if negb (mitm config) then Err HooksRequireMitm
  else validate_hooks 0 (mitm_hooks config).

(** ** Compilation *)

Definition compile_injected_header (resolve_env_var : str → option str)
    (read_secret_file : AbsPath → res HookError str) (header : InjectedHeaderConfig)
    : res HookError ResolvedInjectedHeader :=
  let? name := parse_header_name (header_name header) in
  let? secret_source :=
    match secret_env_var header, secret_file header with
    | Some env_var, None =>
        let? value := ok_or (resolve_env_var env_var) (MissingEnvVar env_var) in Ok (value, EnvVar env_var)
    | None, Some secret_file =>
        let? path := parse_secret_file secret_file in
        let? value := read_secret_file path in Ok (value, File path)
    | _, _ => Err NotExactlyOneSource
    end in
  let '(secret, source) := secret_source in
  let prefix := default [] (header_prefix header) in
  let? value := ok_or (header_value_from_str (prefix ++ secret)) (InvalidInjectedValue (header_name header)) in
  Ok {| resolved_name := name; resolved_value := value; resolved_source := source |}.

Definition compile_hook (resolve_env_var : str → option str) (read_secret_file : AbsPath → res HookError str)
    (hook : MitmHookConfig) : res HookError MitmHook :=
  let m := hook_matcher hook in
  let? host := normalize_hook_host (hook_host hook) in
  let? methods := normalize_methods (match_methods m) in
  let? path_prefixes := compile_path_matchers (match_path_prefixes m) in
  let? query := collect (λ '(name, values),
    let? name := normalize_query_name name in
    let? values := compile_value_matchers values in
    Ok {| query_name := name; query_values := values |}) (btree_iter (match_query m)) in
  let? headers := collect (λ '(name, values),
    let? name := parse_header_name name in
    let? values := compile_value_matchers values in
    Ok {| constraint_name := name; constraint_values := values |}) (btree_iter (match_headers m)) in
  let? strip := collect parse_header_name (strip_request_headers (hook_actions hook)) in
  let? inject := collect (λ header,
    map_err (InvalidInjectedHeader (header_name header))
      (compile_injected_header resolve_env_var read_secret_file header))
    (inject_request_headers (hook_actions hook)) in
  Ok {| host := host;
        matcher := {| methods := methods; path_prefixes := path_prefixes; query := query;
                      headers := headers; body := None |};
        actions := {| strip_headers := strip; inject_headers := inject |} |}.

Definition compile_mitm_hooks_with_resolvers (resolve_env_var : str → option str)
    (read_secret_file : AbsPath → res HookError str) config : res HookError MitmHooksByHost :=
  let? _ := validate_mitm_hook_config config in
  foldM (λ hooks_by_host hook,
    let? h := compile_hook resolve_env_var read_secret_file hook in
    Ok (btree_push hooks_by_host (host h) h)) ∅ (mitm_hooks config).

(** The closure that reads a secret file. *)
Definition read_secret `{!SecretOps} (path : AbsPath) : res HookError str :=
  let? value := ok_or (read_to_string path) UnreadableSecretFile in Ok (trim value).

Definition compile_mitm_hooks `{!SecretOps} config : res HookError MitmHooksByHost :=
  compile_mitm_hooks_with_resolvers env_var read_secret config.

(** ** Evaluation *)

Definition path_matcher_matches (m : PathMatcher) (candidate : str) : bool :=
  match m with
  | PathPrefix prefix => starts_with prefix candidate
  | PathGlob glob => glob_is_match (glob_matcher glob) candidate
  end.
Definition value_matcher_matches (m : ValueMatcher) (candidate : str) : bool :=
  match m with
  | ValueExact value => bool_decide (value = candidate)
  | ValueGlob glob => glob_is_match (glob_matcher glob) candidate
  end.
Definition path_matches (path_prefixes : list PathMatcher) (path : str) : bool :=
  existsb (λ m, path_matcher_matches m path) path_prefixes.
Definition any_value_matches (allowed : list ValueMatcher) (candidate : str) : bool :=
  existsb (λ m, value_matcher_matches m candidate) allowed.

Definition query_matches (query_constraints : list QueryConstraint) (req : Request) : bool :=
  match query_constraints with
  | [] => true
  | _ =>
      let actual_query := default [] (req_query req) in
      let actual_values := foldl (λ m '(name, value), btree_push m name value) ∅ (form_urlencoded_parse actual_query) in
      forallb (λ c,
        match actual_values !! query_name c with
        | Some actual => existsb (any_value_matches (query_values c)) actual
        | None => false
        end) query_constraints
  end.

Definition headers_match (header_constraints : list HeaderConstraint) (req : Request) : bool :=
  forallb (λ c,
    let actual := (filter (λ h, h.1 = constraint_name c) (req_headers req)).*2 in
    match actual with
    | [] => false
    | _ =>
        match constraint_values c with
        | [] => true
        | allowed =>
            existsb (λ value, match header_value_to_str value with
                              | Some candidate => any_value_matches allowed candidate
                              | None => false
                              end) actual
        end
    end) header_constraints.

Definition hook_matches (hook : MitmHook) (req : Request) : bool :=
  let method := to_ascii_uppercase (req_method req) in
  if negb (existsb (λ allowed, bool_decide (allowed = method)) (methods (matcher hook))) then false
  else
    let path := req_path req in
    if negb (is_safe_for_authorization path) || negb (path_matches (path_prefixes (matcher hook)) path) then false
    else if negb (query_matches (query (matcher hook)) req) then false
    else headers_match (headers (matcher hook)) req.

Definition evaluate_mitm_hooks (hooks_by_host : MitmHooksByHost) (host : str) (req : Request) : HookEvaluation :=
  let normalized_host := normalize_host host in
  match hooks_by_host !! normalized_host with
  | None => NoHooksForHost
  | Some hooks =>
      match head (filter (λ hook, hook_matches hook req = true) hooks) with
      | Some hook => Matched (actions hook)
      | None => HookedHostNoMatch
      end
  end.

End hooks.

(** * Facts about hooks

    A configuration that validates compiles, unless a secret is missing or does
    not fit a header; a request is matched by the first configured hook of its
    host whose conditions it meets, and only when its path is unambiguous. *)

Lemma collect_total {E A B} (f : A → res E B) l :
  (∀ x, x ∈ l → ∃ y, f x = Ok y) → ∃ ys, collect f l = Ok ys.
Proof.
  induction l as [|x l IH]; intros H; simpl; [eauto|]. destruct (H x ltac:(by left)) as [y ->].
  destruct IH as [ys ->]; [|simpl; eauto]. intros z Hz. apply H. by right.
Qed.

Lemma for_each_Ok {E A} (f : A → res E unit) l : for_each f l = Ok () ↔ ∀ x, x ∈ l → f x = Ok ().
Proof.
  unfold for_each. induction l as [|x l IH]; simpl.
  - split; [by intros _ ? ?%not_elem_of_nil|done].
  - rewrite res_bind_Ok. split.
    + intros ([] & Hx & Hl) z [->|Hz]%elem_of_cons; [done|]. by apply IH.
    + intros Hall. exists (). split; [apply Hall; by left|]. apply IH. intros z Hz. apply Hall. by right.
Qed.

(** An error that only the secrets cause. *)
Inductive secret_error : HookError → Prop :=
  | secret_missing name : secret_error (MissingEnvVar name)
  | secret_unreadable : secret_error UnreadableSecretFile
  | secret_value name : secret_error (InvalidInjectedValue name).

Section facts.
Context `{JsonData} `{PathOps} `{HttpOps} `{GlobOps}.

Lemma validate_hooks_Ok i hooks :
  validate_hooks i hooks = Ok () → ∀ hook, hook ∈ hooks → ∃ j, validate_hook j hook = Ok ().
Proof.
  revert i. induction hooks as [|h hooks IH]; intros i; simpl; [by intros _ ? ?%not_elem_of_nil|].
  rewrite res_bind_Ok. intros ([] & Hh & Hr) hook [->|Hin]%elem_of_cons; eauto.
Qed.

Lemma validate_query_matchers m :
  validate_query_constraints m = Ok () → ∀ name values, (name, values) ∈ btree_iter m →
  normalize_query_name name = Ok name ∧ ∃ vs, compile_value_matchers values = Ok vs.
Proof.
  intros Hv name values Hin. apply (proj1 (for_each_Ok _ _)) with (x := (name, values)) in Hv; [|done]. simpl in Hv.
  unfold normalize_query_name in *. case_bool_decide; [done|]. split; [done|]. simpl in Hv.
  rewrite bool_decide_eq_false_2 in Hv by done. case_bool_decide; [done|].
  apply res_bind_Ok in Hv as (vs & Hvs%map_err_Ok & _). eauto.
Qed.

Lemma validate_header_matchers m :
  validate_header_constraints m = Ok () → ∀ name values, (name, values) ∈ btree_iter m →
  (∃ n, parse_header_name name = Ok n) ∧ ∃ vs, compile_value_matchers values = Ok vs.
Proof.
  intros Hv name values Hin. apply (proj1 (for_each_Ok _ _)) with (x := (name, values)) in Hv; [|done]. simpl in Hv.
  apply res_bind_Ok in Hv as (n & Hn & Hv). apply res_bind_Ok in Hv as (vs & Hvs%map_err_Ok & _). eauto.
Qed.

Section resolvers.
Context (resolve_env_var : str → option str) (read_secret_file : AbsPath → res HookError str).
Context (read_ok : ∀ p e, read_secret_file p = Err e → secret_error e) (read_np : ∀ p, read_secret_file p ≠ Panic).

Lemma compile_injected_valid header :
  validate_injected_header header = Ok () →
  (∃ r, compile_injected_header resolve_env_var read_secret_file header = Ok r) ∨
  (∃ e, compile_injected_header resolve_env_var read_secret_file header = Err e ∧ secret_error e).
Proof.
  unfold validate_injected_header, compile_injected_header. intros Hv.
  apply res_bind_Ok in Hv as (n & -> & Hv). cbn [res_bind].
  assert (Hval : ∀ (secret : str) (source : SecretSource),
    (∃ r, (let? value := ok_or (header_value_from_str (default [] (header_prefix header) ++ secret))
                         (InvalidInjectedValue (header_name header)) in
           Ok {| resolved_name := n; resolved_value := value; resolved_source := source |}) = Ok r) ∨
    (∃ e, (let? value := ok_or (header_value_from_str (default [] (header_prefix header) ++ secret))
                         (InvalidInjectedValue (header_name header)) in
           Ok {| resolved_name := n; resolved_value := value; resolved_source := source |}) = Err e ∧ secret_error e)).
  { intros secret source. destruct (header_value_from_str _); simpl; eauto using secret_error. }
  destruct (secret_env_var header) as [v|], (secret_file header) as [p|]; try done.
  - destruct (resolve_env_var v) as [s|]; simpl; [apply Hval|]. right. eauto using secret_error.
  - apply res_bind_Ok in Hv as (path & -> & _). simpl. pose proof (read_ok path). pose proof (read_np path).
    destruct (read_secret_file path); simpl; [apply Hval| |done]. right. eauto.
Qed.

(** A hook that validates compiles, or one of its secrets is at fault. *)
Lemma compile_hook_valid i hook :
  validate_hook i hook = Ok () →
  (∃ h, compile_hook resolve_env_var read_secret_file hook = Ok h) ∨
  (∃ name e, compile_hook resolve_env_var read_secret_file hook = Err (InvalidInjectedHeader name e) ∧ secret_error e).
Proof.
  unfold validate_hook. intros Hv. apply res_bind_Ok in Hv as (hst & Hh%map_err_Ok & Hv).
  apply res_bind_Ok in Hv as (ms & Hm%map_err_Ok & Hv). case_bool_decide; [done|].
  apply res_bind_Ok in Hv as (ps & Hp%map_err_Ok & Hv). destruct ps as [|p ps]; [done|].
  destruct (match_body (hook_matcher hook)); [done|].
  apply res_bind_Ok in Hv as ([] & Hq%map_err_Ok & Hv). apply res_bind_Ok in Hv as ([] & Hd%map_err_Ok & Hv).
  apply res_bind_Ok in Hv as ([] & Hs%map_err_Ok & Hv). apply res_bind_Ok in Hv as ([] & Hi%map_err_Ok & _).
  unfold compile_hook. rewrite Hh, Hm, Hp. cbn [res_bind].
  match goal with |- context [collect ?f (btree_iter (match_query _))] =>
    destruct (collect_total f (btree_iter (match_query (hook_matcher hook)))) as [qs ->] end.
  { intros [name values] Hin. destruct (validate_query_matchers _ Hq _ _ Hin) as (-> & vs & Hvs).
    simpl. rewrite Hvs. simpl. eauto. }
  cbn [res_bind].
  match goal with |- context [collect ?f (btree_iter (match_headers _))] =>
    destruct (collect_total f (btree_iter (match_headers (hook_matcher hook)))) as [hs ->] end.
  { intros [name values] Hin. destruct (validate_header_matchers _ Hd _ _ Hin) as ((n & ->) & vs & Hvs).
    simpl. rewrite Hvs. simpl. eauto. }
  cbn [res_bind].
  destruct (collect_total parse_header_name (strip_request_headers (hook_actions hook))) as [ss ->].
  { intros name Hin. apply (proj1 (for_each_Ok _ _) Hs) in Hin. apply res_bind_Ok in Hin as (n & ? & _). eauto. }
  cbn [res_bind]. pose proof (proj1 (for_each_Ok _ _) Hi) as Hinj. clear Hi.
  induction (inject_request_headers (hook_actions hook)) as [|header l IH]; [simpl; eauto|].
  cbn [collect]. destruct (compile_injected_valid header (Hinj header ltac:(by left))) as [[r ->]|(e & -> & He)].
  - cbn [res_bind map_err]. destruct IH as [[h Hok]|(name & e & Herr & He)]; [intros; apply Hinj; by right|..].
    + left. apply res_bind_Ok in Hok as (inj & -> & _). simpl. eauto.
    + right. destruct (collect _ l); [done| |done]. simpl in *. eauto.
  - simpl. right. eauto.
Qed.

(** The compiled hooks, grouped by host in the order of the configuration. *)
Definition hooks_for (hs : list MitmHook) (h : str) : option (list MitmHook) :=
  match filter (λ hook, host hook = h) hs with [] => None | l => Some l end.

Lemma hooks_for_snoc hs hook h :
  hooks_for (hs ++ [hook]) h =
  if decide (host hook = h) then Some (default [] (hooks_for hs h) ++ [hook]) else hooks_for hs h.
Proof.
  unfold hooks_for. rewrite filter_app, filter_cons, filter_nil. case_decide; [|by rewrite app_nil_r].
  by destruct (filter _ hs).
Qed.

Lemma compile_fold_Ok hooks m hs m' :
  (∀ h, m !! h = hooks_for hs h) →
  foldM (λ hooks_by_host hook, let? h := compile_hook resolve_env_var read_secret_file hook in
         Ok (btree_push hooks_by_host (host h) h)) m hooks = Ok m' →
  ∃ hs', Forall2 (λ c h, compile_hook resolve_env_var read_secret_file c = Ok h) hooks hs' ∧
         ∀ h, m' !! h = hooks_for (hs ++ hs') h.
Proof.
  revert m hs. induction hooks as [|c hooks IH]; intros m hs Hm; simpl.
  - intros [= <-]. exists []. rewrite app_nil_r. by split; [constructor|].
  - rewrite res_bind_Ok. intros (m1 & Hc & Hf). apply res_bind_Ok in Hc as (hk & Hk & [= <-]).
    apply (IH _ (hs ++ [hk])) in Hf as (hs' & Hall & Hm').
    + exists (hk :: hs'). split; [by constructor|]. intros h. by rewrite Hm', <- app_assoc.
    + intros h. unfold btree_push. rewrite hooks_for_snoc. case_decide as Hd.
      * subst h. by rewrite lookup_insert_eq, Hm.
      * by rewrite lookup_insert_ne.
Qed.

Lemma compile_mitm_hooks_Ok config m :
  compile_mitm_hooks_with_resolvers resolve_env_var read_secret_file config = Ok m →
  validate_mitm_hook_config config = Ok () ∧
  ∃ hs, Forall2 (λ c h, compile_hook resolve_env_var read_secret_file c = Ok h) (mitm_hooks config) hs ∧
        ∀ h, m !! h = hooks_for hs h.
Proof.
  unfold compile_mitm_hooks_with_resolvers. rewrite res_bind_Ok. intros ([] & Hv & Hf). split; [done|].
  by apply (compile_fold_Ok _ _ []) in Hf.
Qed.

(** Validation decides, apart from the secrets, whether the hooks compile. *)
Lemma compile_valid_hooks config :
  validate_mitm_hook_config config = Ok () →
  (∃ m, compile_mitm_hooks_with_resolvers resolve_env_var read_secret_file config = Ok m) ∨
  (∃ name e, compile_mitm_hooks_with_resolvers resolve_env_var read_secret_file config
             = Err (InvalidInjectedHeader name e) ∧ secret_error e).
Proof.
  intros Hv. unfold compile_mitm_hooks_with_resolvers. rewrite Hv. cbn [res_bind].
  assert (Hall : ∀ hook, hook ∈ mitm_hooks config → ∃ j, validate_hook j hook = Ok ()).
  { unfold validate_mitm_hook_config in Hv. case_bool_decide as Hn; [by rewrite Hn; intros ? ?%not_elem_of_nil|].
    destruct (negb (mitm config)); [done|]. by eapply validate_hooks_Ok. }
  clear Hv. generalize (∅ : gmap str (list MitmHook)).
  induction (mitm_hooks config) as [|c hooks IH]; intros m; [simpl; eauto|]. cbn [foldM].
  destruct (Hall c ltac:(by left)) as [j Hj].
  destruct (compile_hook_valid j c Hj) as [[h ->]|(name & e & -> & He)]; cbn [res_bind].
  - apply IH. intros hook Hin. apply Hall. by right.
  - right. eauto.
Qed.

End resolvers.

(** A configuration of hooks that validates compiles, or compiling it reports a secret: a variable
    that is not set, a file that cannot be read, a value that is not valid in a header.  Conversely only
    configurations that validate compile. *)
Theorem compile_mitm_hooks_errors `{!SecretOps} config :
  match compile_mitm_hooks config with
  | Ok _ => validate_mitm_hook_config config = Ok ()
  | Err e => validate_mitm_hook_config config = Err e ∨
             validate_mitm_hook_config config = Ok () ∧
             ∃ name cause, e = InvalidInjectedHeader name cause ∧ secret_error cause
  | Panic => validate_mitm_hook_config config = Panic
  end.
Proof.
  unfold compile_mitm_hooks. assert (Hrd : ∀ p e, read_secret p = Err e → secret_error e).
  { intros p e. unfold read_secret. destruct (read_to_string p); [done|]. intros [= <-]. constructor. }
  assert (Hnp : ∀ p, read_secret p ≠ Panic) by (intros p; unfold read_secret; by destruct (read_to_string p)).
  destruct (validate_mitm_hook_config config) as [[]|e|] eqn:Hv.
  - destruct (compile_valid_hooks env_var read_secret Hrd Hnp config Hv) as [[m ->]|(name & e & -> & He)]; [done|].
    right. eauto.
  - unfold compile_mitm_hooks_with_resolvers. rewrite Hv. by left.
  - unfold compile_mitm_hooks_with_resolvers. by rewrite Hv.
Qed.

(** A request is given the actions of the first configured hook for its host that matches it; a hook
    matches only a method it lists and a path that is unambiguous. *)
Theorem evaluate_mitm_hooks_first `{!SecretOps} config m hst req :
  compile_mitm_hooks config = Ok m →
  ∃ hs, Forall2 (λ c h, compile_hook env_var read_secret c = Ok h) (mitm_hooks config) hs ∧
    evaluate_mitm_hooks m hst req =
      (if decide (Exists (λ hook, host hook = normalize_host hst) hs) then
         match filter (λ hook, host hook = normalize_host hst ∧ hook_matches hook req = true) hs with
         | hook :: _ => Matched (actions hook)
         | [] => HookedHostNoMatch
         end
       else NoHooksForHost) ∧
    ∀ hook, hook ∈ hs → hook_matches hook req = true →
      to_ascii_uppercase (req_method req) ∈ methods (matcher hook) ∧
      is_safe_for_authorization (req_path req) = true ∧ path_matches (path_prefixes (matcher hook)) (req_path req) = true.
Proof.
  intros (_ & hs & Hall & Hm)%compile_mitm_hooks_Ok. exists hs. split; [done|]. split.
  - unfold evaluate_mitm_hooks. rewrite Hm. unfold hooks_for. set (n := normalize_host hst).
    assert (Hf : filter (λ hook, host hook = n ∧ hook_matches hook req = true) hs =
                 filter (λ hook, hook_matches hook req = true) (filter (λ hook, host hook = n) hs)).
    { rewrite list_filter_filter. apply list_filter_iff. tauto. }
    rewrite Hf. destruct (filter (λ hook, host hook = n) hs) as [|k l] eqn:E.
    + rewrite decide_False; [done|]. intros (x & Hx & Hn)%Exists_exists.
      assert (x ∈ []) as []%not_elem_of_nil by (rewrite <- E; by apply list_elem_of_filter).
    + rewrite decide_True.
      * by destruct (filter (λ hook, hook_matches hook req = true) (k :: l)).
      * apply Exists_exists. assert (Hk : k ∈ k :: l) by by left. rewrite <- E in Hk.
        apply list_elem_of_filter in Hk as [??]. eauto.
  - intros hook _. unfold hook_matches. destruct (existsb _ _) eqn:Em; [|done]. cbn [negb].
    destruct (is_safe_for_authorization (req_path req)); [|done].
    destruct (path_matches _ _); [|done]. intros _. split; [|done].
    apply existsb_exists in Em as (x & Hx & ->%bool_decide_eq_true). by apply list_elem_of_In.
Qed.

End facts.
