(* ===== verification/NetConfigFacts.v ===== *)
(** * Facts about proxy configurations

    Deny wins over allow for a pattern that is listed twice; what the setters
    and [upsert_domain_permission] leave in the two lists. *)

From stdpp Require Import gmap list.
From S2P Require Import Prelude RustStr RustOrd NetPolicy NetConfig.

Lemma elem_of_btree_iter {V} (m : gmap str V) k v : (k, v) ∈ btree_iter m ↔ m !! k = Some v.
Proof. unfold btree_iter. by rewrite sort_by_key_perm, elem_of_map_to_list. Qed.

(** ** Effective permissions *)

Definition effective_inv (d : NetworkDomainPermissions) (st : list str * gmap str NetworkDomainPermission) : Prop :=
  NoDup st.1 ∧ (∀ p, p ∈ st.1 ↔ is_Some (st.2 !! p)) ∧ (∀ p, is_Some (st.2 !! p) ↔ p ∈ pattern <$> d) ∧
  ∀ p q, st.2 !! p = Some q →
    Entry p q ∈ d ∧ ∀ q', Entry p q' ∈ d → permission_rank q' ≤ permission_rank q.

Lemma effective_step_inv d st e : effective_inv d st → effective_inv (d ++ [e]) (effective_step st e).
Proof.
  destruct st as [order m], e as [p q]. unfold effective_inv. cbn [fst snd]. intros (Hnd & Ho & Hm & Hq).
  unfold effective_step. cbn [pattern permission fst snd]. set (cur := default q (m !! p)).
  set (q1 := if decide _ then q else cur).
  assert (Hq1 : (q1 = q ∧ permission_rank cur ≤ permission_rank q) ∨
                (q1 = cur ∧ permission_rank q ≤ permission_rank cur)).
  { unfold q1. case_decide; [left|right]; split; auto with lia. }
  split; [|split; [|split]].
  - destruct (m !! p) eqn:E; [done|]. apply NoDup_app. split; [done|]. split; [|apply NoDup_singleton].
    intros x Hx ->%list_elem_of_singleton. apply Ho in Hx. rewrite E in Hx. by destruct Hx.
  - intros x. destruct (decide (p = x)) as [<-|Hne].
    + rewrite lookup_insert_eq. split; [eauto|]. intros _. destruct (m !! p) eqn:E; [by apply Ho; rewrite E|].
      apply elem_of_app. right. by left.
    + rewrite lookup_insert_ne by done. rewrite <- Ho. destruct (m !! p); [done|].
      rewrite elem_of_app, list_elem_of_singleton. naive_solver.
  - intros x. rewrite fmap_app, elem_of_app. cbn [fmap list_fmap pattern]. rewrite list_elem_of_singleton.
    destruct (decide (p = x)) as [<-|Hne].
    + rewrite lookup_insert_eq. split; eauto.
    + rewrite lookup_insert_ne by done. rewrite Hm. naive_solver.
  - intros x y. destruct (decide (p = x)) as [<-|Hne].
    + rewrite lookup_insert_eq. intros [= <-]. destruct (m !! p) as [c|] eqn:E; simpl in cur.
      * destruct (Hq p c E) as [Hin Hmax]. split.
        -- rewrite elem_of_app, list_elem_of_singleton. destruct Hq1 as [[-> _]|[-> _]]; [by right|by left].
        -- intros q' [Hq'|[= ->]%list_elem_of_singleton]%elem_of_app.
           ++ apply Hmax in Hq'. destruct Hq1 as [[-> ?]|[-> ?]]; subst cur; lia.
           ++ destruct Hq1 as [[-> ?]|[-> ?]]; lia.
      * assert (q1 = q) as -> by (destruct Hq1 as [[? _]|[? _]]; done). split; [apply elem_of_app; right; by left|].
        intros q' [Hq'|[= ->]%list_elem_of_singleton]%elem_of_app; [|done].
        assert (Hp : is_Some (m !! p)) by (apply Hm, list_elem_of_fmap; by exists (Entry p q')).
        rewrite E in Hp. by destruct Hp.
    + rewrite lookup_insert_ne by done. intros Hy. destruct (Hq x y Hy) as [Hin Hmax].
      split; [apply elem_of_app; by left|]. intros q' [Hq'|[= -> _]%list_elem_of_singleton]%elem_of_app; auto. done.
Qed.

Lemma effective_fold_inv d : effective_inv d (foldl effective_step ([], ∅) d).
Proof.
  induction d as [|e d IH] using rev_ind.
  - assert (Hn : ∀ p, ¬ is_Some ((∅ : gmap str NetworkDomainPermission) !! p)).
    { intros p [q Hq]. by rewrite lookup_empty in Hq. }
    split; [constructor|]. simpl. setoid_rewrite elem_of_nil. split; [naive_solver|]. split; [naive_solver|].
    intros p q Hq. destruct (Hn p). by exists q.
  - rewrite foldl_app. by apply effective_step_inv.
Qed.

Lemma elem_of_take_permissions order m p q :
  NoDup order → Entry p q ∈ take_permissions order m ↔ p ∈ order ∧ m !! p = Some q.
Proof.
  revert m. induction order as [|x order IH]; intros m Hnd; simpl.
  - rewrite !elem_of_nil. tauto.
  - apply NoDup_cons in Hnd as [Hx Hnd]. destruct (m !! x) as [y|] eqn:E.
    + rewrite !elem_of_cons, IH by done. destruct (decide (p = x)) as [->|Hne].
      * rewrite lookup_delete_eq, E. naive_solver.
      * rewrite lookup_delete_ne by done. naive_solver.
    + rewrite elem_of_cons, IH by done. naive_solver.
Qed.

(** The permission of a pattern is the greatest one listed for it. *)
Lemma elem_of_effective d p q :
  Entry p q ∈ effective_entries d ↔
  Entry p q ∈ d ∧ ∀ q', Entry p q' ∈ d → permission_rank q' ≤ permission_rank q.
Proof.
  unfold effective_entries. pose proof (effective_fold_inv d) as Hi.
  destruct (foldl effective_step ([], ∅) d) as [order m]. destruct Hi as (Hnd & Ho & Hm & Hq). simpl in *.
  rewrite elem_of_take_permissions by done. rewrite Ho. split.
  - intros [_ H]. by apply Hq.
  - intros [Hin Hmax]. assert (Hp : is_Some (m !! p)) by (apply Hm, list_elem_of_fmap; by exists (Entry p q)).
    destruct Hp as [y Hy]. destruct (Hq p y Hy) as [Hyd Hymax]. rewrite Hy. split; [eauto|]. f_equal.
    specialize (Hmax y Hyd). specialize (Hymax q Hin). destruct y, q; simpl in *; try done; lia.
Qed.

Section facts.
Context `{JsonData}.
Implicit Types cfg : NetworkProxyConfig.

Definition entries_of cfg : NetworkDomainPermissions := default [] (domains cfg).
Definition allowed_list cfg : list str := default [] (allowed_domains cfg).
Definition denied_list cfg : list str := default [] (denied_domains cfg).

Lemma elem_of_domain_entries cfg p e :
  e ∈ default [] (domain_entries cfg p) ↔ Entry e p ∈ effective_entries (entries_of cfg).
Proof.
  assert (Hd : default [] (domain_entries cfg p) =
               pattern <$> filter (λ x, permission x = p) (effective_entries (entries_of cfg))).
  { unfold domain_entries, entries_of. destruct (domains cfg); simpl; [by case_match|done]. }
  rewrite Hd, list_elem_of_fmap. split.
  - intros ([e' p'] & -> & [Hp Hin]%list_elem_of_filter). simpl in *. by subst p'.
  - intros Hin. exists (Entry e p). split; [done|]. by apply list_elem_of_filter.
Qed.

(** Deny wins. *)
Lemma elem_of_denied cfg e : e ∈ denied_list cfg ↔ Entry e PermDeny ∈ entries_of cfg.
Proof.
  unfold denied_list, denied_domains. rewrite elem_of_domain_entries, elem_of_effective. split; [tauto|].
  intros Hin. split; [done|]. intros [] _; simpl; lia.
Qed.

Lemma elem_of_allowed cfg e :
  e ∈ allowed_list cfg ↔ Entry e PermAllow ∈ entries_of cfg ∧ Entry e PermDeny ∉ entries_of cfg.
Proof.
  unfold allowed_list, allowed_domains. rewrite elem_of_domain_entries, elem_of_effective. split.
  - intros [Hin Hmax]. split; [done|]. intros Hd. specialize (Hmax PermDeny Hd). simpl in Hmax. lia.
  - intros [Hin Hd]. split; [done|]. intros [] Hq; simpl; try lia. done.
Qed.

Lemma allowed_none_iff cfg : allowed_domains cfg = None ↔ allowed_list cfg = [].
Proof.
  unfold allowed_list, allowed_domains, domain_entries. by destruct (_ <$> domains cfg) as [[|]|].
Qed.

(** No pattern is in both lists. *)
Lemma allowed_denied_disjoint cfg e : e ∈ allowed_list cfg → e ∉ denied_list cfg.
Proof. rewrite elem_of_allowed, elem_of_denied. tauto. Qed.

(** ** Updates *)

Lemma entries_of_with_domains cfg d : entries_of (with_domains (nonempty_domains d) cfg) = d.
Proof. destruct cfg. unfold entries_of, nonempty_domains. simpl. by case_bool_decide. Qed.

Lemma elem_of_upsert_permission cfg h p f e q :
  Entry e q ∈ entries_of (upsert_domain_permission cfg h p f) ↔
  (Entry e q ∈ entries_of cfg ∧ f e ≠ f h) ∨ (e = h ∧ q = p).
Proof.
  unfold upsert_domain_permission. rewrite entries_of_with_domains, elem_of_app, list_elem_of_filter,
    list_elem_of_singleton. simpl. naive_solver.
Qed.

Lemma elem_of_push_domain_entries p d l e q :
  Entry e q ∈ foldl (push_domain_entry p) d l ↔ Entry e q ∈ d ∨ (e ∈ l ∧ q = p).
Proof.
  revert d. induction l as [|x l IH]; intros d; simpl; [rewrite elem_of_nil; tauto|].
  rewrite IH, elem_of_cons. unfold push_domain_entry at 1. destruct (existsb _ d) eqn:E.
  - apply existsb_exists in E as ([x' p'] & Hin%list_elem_of_In & [E1 E2]%bool_decide_eq_true).
    simpl in *. subst x' p'. naive_solver.
  - rewrite elem_of_app, list_elem_of_singleton. naive_solver.
Qed.

Lemma elem_of_set_domain_entries cfg l p e q :
  Entry e q ∈ entries_of (set_domain_entries cfg l p) ↔
  (Entry e q ∈ entries_of cfg ∧ q ≠ p) ∨ (e ∈ l ∧ q = p).
Proof.
  unfold set_domain_entries. rewrite entries_of_with_domains, elem_of_push_domain_entries, list_elem_of_filter.
  simpl. naive_solver.
Qed.

Lemma elem_of_allow_unix_sockets cfg path :
  path ∈ allow_unix_sockets cfg ↔ ∃ u, unix_sockets cfg = Some u ∧ u !! path = Some SocketAllow.
Proof.
  unfold allow_unix_sockets. destruct (unix_sockets cfg) as [u|]; [|rewrite elem_of_nil; naive_solver].
  rewrite list_elem_of_fmap. split.
  - intros ([k v] & -> & [Hv Hin%elem_of_btree_iter]%list_elem_of_filter). simpl in *. subst v. eauto.
  - intros (u' & [= <-] & Hu). exists (path, SocketAllow). split; [done|].
    apply list_elem_of_filter. split; [done|]. by apply elem_of_btree_iter.
Qed.

End facts.
