(* ===== verification/NetState.v ===== *)
(** * State of the network proxy

    [network-proxy/src/state.rs]: the constraints a managed configuration puts
    on the proxy, the check of a configuration against them, and the state that
    is built from a configuration.  The certificate authority of the intercepting
    proxy is created on disk: the class [MitmOps]. *)

From stdpp Require Import gmap list.
From S2P Require Import Prelude RustStr RustOrd IpAddr NetPolicy NetConfig MitmHook.
From S2P Require Import NetPolicy NetGlobs NetConfigFacts.
From S2P Require Import MitmHook.

Class MitmOps := {
  MitmState : Type;
  mitm_state_new : bool → option MitmState;
}.

(** ** Data *)

Record NetworkProxyConstraints := {
  max_enabled : option bool;
  max_mode : option NetworkMode;
  max_allow_upstream_proxy : option bool;
  max_allow_non_loopback_proxy : option bool;
  max_allow_all_unix_sockets : option bool;
  managed_allowed_domains : option (list str);
  allowlist_expansion_enabled : option bool;
  managed_denied_domains : option (list str);
  denylist_expansion_enabled : option bool;
  managed_unix_sockets : option (list str);
  max_allow_local_binding : option bool;
}.
#[export] Instance constraints_eq_dec : EqDecision NetworkProxyConstraints.
Proof. solve_decision. Defined.

Definition default_constraints : NetworkProxyConstraints := {|
  max_enabled := None; max_mode := None; max_allow_upstream_proxy := None;
  max_allow_non_loopback_proxy := None; max_allow_all_unix_sockets := None;
  managed_allowed_domains := None; allowlist_expansion_enabled := None;
  managed_denied_domains := None; denylist_expansion_enabled := None;
  managed_unix_sockets := None; max_allow_local_binding := None;
|}.

(** A text of an error message, before it is formatted. *)
Inductive ErrText :=
  | Text (s : str)
  | DebugStrings (l : list str)
  | DebugSet (s : gset str)
  | HookErrorText (e : HookError).

Inductive NetworkProxyConstraintError :=
  | InvalidValue (field_name : str) (candidate allowed : ErrText).

Record BlockedRequest := {
  blocked_host : str;
  blocked_reason : str;
  blocked_client : option str;
  blocked_method : option str;
  blocked_mode : option NetworkMode;
  blocked_protocol : str;
  blocked_execution_id : option str;
  blocked_decision : option str;
  blocked_source : option str;
  blocked_port : option N;
  blocked_timestamp : Z;
}.

Record ConfigState `{JsonData, PathOps, HttpOps, GlobOps, MitmOps} := {
  config : NetworkProxyConfig;
  brokerage_created_default_allowlist : bool;
  allow_set : GlobSet;
  deny_set : GlobSet;
  mitm_state : option MitmState;
  state_mitm_hooks : gmap str (list MitmHook);
  constraints : NetworkProxyConstraints;
  blocked : list BlockedRequest;
  blocked_total : N;
}.

Inductive BuildError :=
  | BuildUnixSocket (e : ConfigError)
  | BrokerRequiresMitm
  | BuildConstraint (e : NetworkProxyConstraintError)
  | BuildGlob (e : GlobError)
  | BuildHooks (e : HookError)
  | BuildMitm.

(** ** Checking a configuration against the constraints *)

Definition network_mode_rank (m : NetworkMode) : nat := match m with Limited => 0 | Full => 1 end.
Definition mode_debug (m : NetworkMode) : str := match m with Limited => lit "Limited" | Full => lit "Full" end.

(** The set of the entries in lower case. *)
Definition lower_set (l : list str) : gset str := list_to_set (map to_ascii_lowercase l).

Definition validate_non_global_wildcard_domain_patterns (field_name : str) (patterns : list str)
    : res NetworkProxyConstraintError unit :=
  match head (filter (λ p, is_global_wildcard_domain_pattern p = true) patterns) with
  | Some pattern =>
      Err (InvalidValue field_name (Text (trim pattern))
             (Text (lit "exact hosts or scoped wildcards like *.example.com or **.example.com")))
  | None => Ok ()
  end.

(** The checks of flags share one form. *)
Definition check_flag (field_name : str) (candidate allowed : bool) : res NetworkProxyConstraintError unit :=
  if candidate && negb allowed
  then Err (InvalidValue field_name (Text (lit "true")) (Text (lit "false (disabled by managed config)")))
  else Ok ().

Definition check_mode (candidate max : NetworkMode) : res NetworkProxyConstraintError unit :=
  if decide (network_mode_rank max < network_mode_rank candidate)
  then Err (InvalidValue (lit "network.mode") (Text (mode_debug candidate))
              (Text (mode_debug max ++ lit " or more restrictive")))
  else Ok ().

Section validate.
Context `{JsonData, PathOps, HttpOps, GlobOps} {UH : UrlHostOps}.
Implicit Types (config : NetworkProxyConfig) (constraints : NetworkProxyConstraints).

(** The three ways an allowlist can be constrained. *)
Definition check_allowed_domains (managed : list str) (expansion : option bool)
    (candidate : list str) (denied_domain_overrides : gset str) : res NetworkProxyConstraintError unit :=
  let field := lit "network.allowed_domains" in
  match expansion with
  | Some true =>
      let missing := lower_set managed ∖ lower_set candidate ∖ denied_domain_overrides in
      if bool_decide (missing = ∅) then Ok ()
      else Err (InvalidValue field (Text (lit "missing managed allowed_domains entries")) (DebugSet missing))
  | Some false =>
      if bool_decide (lower_set candidate = lower_set managed ∖ denied_domain_overrides) then Ok ()
      else Err (InvalidValue field (DebugStrings candidate) (Text (lit "must match managed allowed_domains")))
  | None =>
      let managed_patterns := map parse_for_constraints managed in
      let invalid := filter (λ entry,
        existsb (λ m, allows m (parse_for_constraints entry)) managed_patterns = false) candidate in
      if bool_decide (invalid = []) then Ok ()
      else Err (InvalidValue field (DebugStrings invalid) (Text (lit "subset of managed allowed_domains")))
  end.

Definition check_denied_domains (managed : list str) (expansion : option bool) (candidate : list str)
    : res NetworkProxyConstraintError unit :=
  let field := lit "network.denied_domains" in
  match expansion with
  | Some false =>
      if bool_decide (lower_set candidate = lower_set managed) then Ok ()
      else Err (InvalidValue field (DebugStrings candidate) (Text (lit "must match managed denied_domains")))
  | Some true | None =>
      let missing := lower_set managed ∖ lower_set candidate in
      if bool_decide (missing = ∅) then Ok ()
      else Err (InvalidValue field (Text (lit "missing managed denied_domains entries")) (DebugSet missing))
  end.

Definition check_unix_sockets (managed candidate : list str) : res NetworkProxyConstraintError unit :=
  let invalid := filter (λ entry, to_ascii_lowercase entry ∉ lower_set managed) candidate in
  if bool_decide (invalid = []) then Ok ()
  else Err (InvalidValue (lit "network.allow_unix_sockets") (DebugStrings invalid)
              (Text (lit "subset of managed allow_unix_sockets"))).

Definition validate_policy_against_constraints config constraints : res NetworkProxyConstraintError unit :=
  let config_allowed_domains := default [] (allowed_domains config) in
  let config_denied_domains := default [] (denied_domains config) in
  let denied_domain_overrides := lower_set config_denied_domains in
  let config_allow_unix_sockets := allow_unix_sockets config in
  let? _ := map_err (λ e, InvalidValue (lit "network.mitm_hooks") (HookErrorText e)
                             (Text (lit "valid MITM hook configuration")))
              (validate_mitm_hook_config config) in
  let? _ := validate_non_global_wildcard_domain_patterns (lit "network.denied_domains") config_denied_domains in
  let? _ := match max_enabled constraints with
            | Some max => check_flag (lit "network.enabled") (enabled config) max
            | None => Ok ()
            end in
  let? _ := match max_mode constraints with
            | Some max => check_mode (mode config) max
            | None => Ok ()
            end in
  let? _ := check_flag (lit "network.allow_upstream_proxy") (allow_upstream_proxy config)
              (default true (max_allow_upstream_proxy constraints)) in
  let? _ := check_flag (lit "network.dangerously_allow_non_loopback_proxy")
              (dangerously_allow_non_loopback_proxy config)
              (default true (max_allow_non_loopback_proxy constraints)) in
  let allow_all_unix_sockets :=
    default (bool_decide (managed_unix_sockets constraints = None)) (max_allow_all_unix_sockets constraints) in
  let? _ := check_flag (lit "network.dangerously_allow_all_unix_sockets")
              (dangerously_allow_all_unix_sockets config) allow_all_unix_sockets in
  let? _ := match max_allow_local_binding constraints with
            | Some max => check_flag (lit "network.allow_local_binding") (allow_local_binding config) max
            | None => Ok ()
            end in
  let? _ := match managed_allowed_domains constraints with
            | Some managed =>
                let? _ := validate_non_global_wildcard_domain_patterns (lit "network.allowed_domains") managed in
                check_allowed_domains managed (allowlist_expansion_enabled constraints)
                  config_allowed_domains denied_domain_overrides
            | None => Ok ()
            end in
  let? _ := match managed_denied_domains constraints with
            | Some managed =>
                let? _ := validate_non_global_wildcard_domain_patterns (lit "network.denied_domains") managed in
                check_denied_domains managed (denylist_expansion_enabled constraints) config_denied_domains
            | None => Ok ()
            end in
  match managed_unix_sockets constraints with
  | Some managed => check_unix_sockets managed config_allow_unix_sockets
  | None => Ok ()
  end.

End validate.

(** ** Building the state *)

Section build.
Context `{JsonData, PathOps, HttpOps, GlobOps, MitmOps, !SecretOps}.

Definition build_config_state (config : NetworkProxyConfig) (constraints : NetworkProxyConstraints)
    : res BuildError ConfigState :=
  let config :=
    if bool_decide (max_enabled constraints = Some false)
    then with_credential_broker (mitm config) false (credential_broker_enabled_mitm config) config else config in
  let brokerage_created_proxy := credential_broker config && negb (enabled config) in
  let brokerage_created_default_allowlist :=
    brokerage_created_proxy && bool_decide (allowed_domains config = None)
    && bool_decide (managed_allowed_domains constraints = None) in
  let config := if brokerage_created_proxy then with_enabled true config else config in
  let config := if brokerage_created_default_allowlist then set_allowed_domains config [lit "*"] else config in
  let? _ := map_err BuildUnixSocket (validate_unix_socket_allowlist_paths config) in
  if credential_broker config && negb (mitm config) then Err BrokerRequiresMitm
  else
    let allowed_domains := default [] (allowed_domains config) in
    let denied_domains := default [] (denied_domains config) in
    let? _ := map_err BuildConstraint
                (validate_non_global_wildcard_domain_patterns (lit "network.denied_domains") denied_domains) in
    let? deny_set := map_err BuildGlob (compile_denylist_globset denied_domains) in
    let? allow_set := map_err BuildGlob (compile_allowlist_globset allowed_domains) in
    let? mitm_hooks := map_err BuildHooks (compile_mitm_hooks config) in
    let? mitm_state :=
      if mitm config then
        let? m := ok_or (mitm_state_new (allow_upstream_proxy config)) BuildMitm in Ok (Some m)
      else Ok None in
    Ok {| config := config;
          brokerage_created_default_allowlist := brokerage_created_default_allowlist;
          allow_set := allow_set; deny_set := deny_set; mitm_state := mitm_state;
          state_mitm_hooks := mitm_hooks; constraints := constraints; blocked := []; blocked_total := 0 |}.

End build.

(** * Facts about constraints and built states

    The check accepts exactly the configurations that satisfy the constraints;
    building a state keeps them satisfied and compiles its two lists; what the
    constraints mean for the sets of globs of such a state. *)

Lemma elem_of_lower_set x l : x ∈ lower_set l ↔ ∃ e, e ∈ l ∧ to_ascii_lowercase e = x.
Proof.
  unfold lower_set. rewrite elem_of_list_to_set, list_elem_of_In, in_map_iff.
  setoid_rewrite <- list_elem_of_In. naive_solver.
Qed.

Definition not_wildcard (p : str) : Prop := is_global_wildcard_domain_pattern p = false.

Lemma validate_wildcards_Ok f l :
  validate_non_global_wildcard_domain_patterns f l = Ok () ↔ Forall not_wildcard l.
Proof.
  unfold validate_non_global_wildcard_domain_patterns, not_wildcard. rewrite Forall_forall.
  destruct (filter _ l) as [|p ps] eqn:E; simpl.
  - split; [|done]. intros _ x Hx. destruct (is_global_wildcard_domain_pattern x) eqn:Ex; [|done].
    assert (x ∈ []) as []%not_elem_of_nil by (rewrite <- E; by apply list_elem_of_filter).
  - split; [done|]. intros Hall. assert (Hp : p ∈ p :: ps) by by left. rewrite <- E in Hp.
    apply list_elem_of_filter in Hp as [Hp Hin]. by rewrite Hall in Hp.
Qed.

Lemma check_flag_Ok f c a : check_flag f c a = Ok () ↔ (a = false → c = false).
Proof. unfold check_flag. destruct c, a; simpl; naive_solver. Qed.

Lemma check_mode_Ok a b : check_mode a b = Ok () ↔ network_mode_rank a ≤ network_mode_rank b.
Proof. unfold check_mode. case_decide; [split; [done|lia]|]. split; [lia|done]. Qed.

Section facts.
Context `{JsonData, PathOps, HttpOps, GlobOps, UH : UrlHostOps}.
Implicit Types (cfg : NetworkProxyConfig) (c : NetworkProxyConstraints).

(** The three policies for the allowlist. *)
Definition allowed_within (managed : list str) (expansion : option bool) cfg : Prop :=
  match expansion with
  | Some true => ∀ e, e ∈ managed → to_ascii_lowercase e ∈ lower_set (allowed_list cfg) ∨
                                     to_ascii_lowercase e ∈ lower_set (denied_list cfg)
  | Some false => lower_set (allowed_list cfg) = lower_set managed ∖ lower_set (denied_list cfg)
  | None => ∀ e, e ∈ allowed_list cfg →
              ∃ m, m ∈ managed ∧ allows (parse_for_constraints m) (parse_for_constraints e) = true
  end.

Definition denied_covers (managed : list str) (expansion : option bool) cfg : Prop :=
  match expansion with
  | Some false => lower_set (denied_list cfg) = lower_set managed
  | Some true | None => lower_set managed ⊆ lower_set (denied_list cfg)
  end.

(** The configuration is within the constraints. *)
Record satisfies cfg c : Prop := {
  sat_hooks : validate_mitm_hook_config cfg = Ok ();
  sat_denied_wildcards : Forall not_wildcard (denied_list cfg);
  sat_enabled : max_enabled c = Some false → enabled cfg = false;
  sat_mode : ∀ m, max_mode c = Some m → network_mode_rank (mode cfg) ≤ network_mode_rank m;
  sat_upstream : max_allow_upstream_proxy c = Some false → allow_upstream_proxy cfg = false;
  sat_non_loopback : max_allow_non_loopback_proxy c = Some false → dangerously_allow_non_loopback_proxy cfg = false;
  sat_all_sockets : dangerously_allow_all_unix_sockets cfg = true →
    max_allow_all_unix_sockets c = Some true ∨ max_allow_all_unix_sockets c = None ∧ managed_unix_sockets c = None;
  sat_local : max_allow_local_binding c = Some false → allow_local_binding cfg = false;
  sat_allowed : ∀ managed, managed_allowed_domains c = Some managed →
    Forall not_wildcard managed ∧ allowed_within managed (allowlist_expansion_enabled c) cfg;
  sat_denied : ∀ managed, managed_denied_domains c = Some managed →
    Forall not_wildcard managed ∧ denied_covers managed (denylist_expansion_enabled c) cfg;
  sat_sockets : ∀ managed, managed_unix_sockets c = Some managed →
    ∀ path, path ∈ allow_unix_sockets cfg → to_ascii_lowercase path ∈ lower_set managed;
}.

Lemma check_allowed_Ok managed e cfg :
  check_allowed_domains managed e (allowed_list cfg) (lower_set (denied_list cfg)) = Ok () ↔
  allowed_within managed e cfg.
Proof.
  unfold check_allowed_domains, allowed_within. destruct e as [[]|].
  - case_bool_decide as Hm; (split; [intros ?; try done|]).
    + intros e He. destruct (decide (to_ascii_lowercase e ∈ lower_set (allowed_list cfg))) as [|Hn]; [by left|].
      destruct (decide (to_ascii_lowercase e ∈ lower_set (denied_list cfg))) as [|Hn']; [by right|].
      assert (to_ascii_lowercase e ∈ lower_set managed) by (apply elem_of_lower_set; eauto). set_solver.
    + done.
    + intros Hall. destruct Hm. apply set_eq. intros x. rewrite !elem_of_difference, elem_of_empty.
      split; [|done]. intros [[(e & He & <-)%elem_of_lower_set ?] ?]. destruct (Hall e He); done.
  - case_bool_decide; naive_solver.
  - case_bool_decide as Hm; (split; [intros ?; try done|done || intros Hall]).
    + intros e He. destruct (existsb (λ m, allows m (parse_for_constraints e)) (map parse_for_constraints managed)) eqn:E.
      * apply existsb_exists in E as (p & (m & <- & Hin)%in_map_iff & Ha). exists m. by rewrite list_elem_of_In.
      * assert (e ∈ []) as []%not_elem_of_nil by (rewrite <- Hm; by apply list_elem_of_filter).
    + destruct Hm. apply elem_of_nil_inv. intros e [Hf He]%list_elem_of_filter.
      destruct (Hall e He) as (m & Hin & Ha). apply existsb_false_Forall in Hf. rewrite Forall_forall in Hf.
      enough (Hin' : parse_for_constraints m ∈ map parse_for_constraints managed) by (apply Hf in Hin'; congruence).
      apply list_elem_of_In, in_map_iff. exists m. by rewrite <- list_elem_of_In.
Qed.

Lemma check_denied_Ok managed e cfg :
  check_denied_domains managed e (denied_list cfg) = Ok () ↔ denied_covers managed e cfg.
Proof.
  assert (Hs : lower_set managed ∖ lower_set (denied_list cfg) = ∅ ↔ lower_set managed ⊆ lower_set (denied_list cfg)).
  { split; [|set_solver]. intros He x Hx. destruct (decide (x ∈ lower_set (denied_list cfg))); [done|]. set_solver. }
  unfold check_denied_domains, denied_covers.
  destruct e as [[]|]; rewrite <- ?Hs; case_bool_decide; split; intros; done.
Qed.

Lemma check_unix_sockets_Ok managed l :
  check_unix_sockets managed l = Ok () ↔ ∀ path, path ∈ l → to_ascii_lowercase path ∈ lower_set managed.
Proof.
  unfold check_unix_sockets. case_bool_decide as Hm; (split; [intros ?; try done|done || intros Hall]).
  - intros path Hp. destruct (decide (to_ascii_lowercase path ∈ lower_set managed)); [done|].
    assert (path ∈ []) as []%not_elem_of_nil by (rewrite <- Hm; by apply list_elem_of_filter).
  - destruct Hm. apply elem_of_nil_inv. intros e [Hf He]%list_elem_of_filter. by apply Hf, Hall.
Qed.

(** A check that is only made when the constraint is set. *)
Lemma check_some_Ok {A} (o : option A) (f : A → res NetworkProxyConstraintError unit) :
  match o with Some a => f a | None => Ok () end = Ok () ↔ ∀ a, o = Some a → f a = Ok ().
Proof. destruct o; naive_solver. Qed.

Lemma bind_unit {E} (m : res E unit) (k : res E unit) : res_bind m (λ _, k) = Ok () ↔ m = Ok () ∧ k = Ok ().
Proof. rewrite res_bind_Ok. split; [intros ([] & ? & ?)|intros [? ?]]; eauto. Qed.

Lemma validate_satisfies cfg c : validate_policy_against_constraints cfg c = Ok () ↔ satisfies cfg c.
Proof.
  unfold validate_policy_against_constraints. cbv zeta.
  change (default [] (allowed_domains cfg)) with (allowed_list cfg).
  change (default [] (denied_domains cfg)) with (denied_list cfg).
  rewrite !bind_unit, !check_some_Ok, map_err_Ok, !check_flag_Ok, validate_wildcards_Ok.
  setoid_rewrite bind_unit. setoid_rewrite check_flag_Ok. setoid_rewrite check_mode_Ok.
  setoid_rewrite validate_wildcards_Ok. setoid_rewrite check_allowed_Ok. setoid_rewrite check_denied_Ok.
  setoid_rewrite check_unix_sockets_Ok.
  assert (Hflag : ∀ (o : option bool) b, (default true o = false → b = false) ↔ (o = Some false → b = false)).
  { intros [[]|] b; naive_solver. }
  assert (Hopt : ∀ (o : option bool) b, (∀ a, o = Some a → a = false → b = false) ↔ (o = Some false → b = false)).
  { intros o b. naive_solver. }
  rewrite !Hflag, !Hopt.
  assert (Hall : (default (bool_decide (managed_unix_sockets c = None)) (max_allow_all_unix_sockets c) = false →
                  dangerously_allow_all_unix_sockets cfg = false) ↔
                 (dangerously_allow_all_unix_sockets cfg = true → max_allow_all_unix_sockets c = Some true ∨
                  max_allow_all_unix_sockets c = None ∧ managed_unix_sockets c = None)).
  { destruct (max_allow_all_unix_sockets c) as [[]|], (dangerously_allow_all_unix_sockets cfg); simpl;
      try case_bool_decide; intuition congruence. }
  rewrite Hall. split.
  - intros (?&?&?&?&?&?&?&?&?&?&?). by constructor.
  - intros []. repeat (split; [done|]). done.
Qed.

(** A configuration is accepted exactly when it is within every constraint: no flag the managed
    configuration switches off is on, the mode is at most the managed one, the managed denials are all
    listed, the allowed domains are the managed ones, cover them or lie within them, and so on. *)
Theorem validate_policy_iff cfg c : validate_policy_against_constraints cfg c = Ok () ↔ satisfies cfg c.
Proof. apply validate_satisfies. Qed.

End facts.

(** ** Built states *)

Section build.
Context `{JsonData, PathOps, HttpOps, GlobOps, MitmOps, UH : UrlHostOps} {SO : SecretOps}.
Implicit Types (cfg : NetworkProxyConfig) (c : NetworkProxyConstraints) (s : ConfigState).

(** The configuration that [build_config_state] stores: brokerage is off when the proxy is disabled by
    the managed configuration, and otherwise enables the proxy, with every host allowed when nothing
    else says what is. *)
Definition broker_off cfg c : NetworkProxyConfig :=
  if bool_decide (max_enabled c = Some false)
  then with_credential_broker (mitm cfg) false (credential_broker_enabled_mitm cfg) cfg else cfg.
Definition creates_proxy cfg : bool := credential_broker cfg && negb (enabled cfg).
Definition creates_allowlist cfg c : bool :=
  creates_proxy cfg && bool_decide (allowed_domains cfg = None) && bool_decide (managed_allowed_domains c = None).
Definition stored_config cfg c : NetworkProxyConfig :=
  let cfg := broker_off cfg c in
  let on := if creates_proxy cfg then with_enabled true cfg else cfg in
  if creates_allowlist cfg c then set_allowed_domains on [lit "*"] else on.

(** What holds of every state that is installed: its configuration satisfies its constraints, and its
    two sets are compiled from its lists. *)
Record state_ok s : Prop := {
  ok_satisfies : satisfies (config s) (constraints s);
  ok_deny_set : compile_denylist_globset (denied_list (config s)) = Ok (deny_set s);
  ok_allow_set : compile_allowlist_globset (allowed_list (config s)) = Ok (allow_set s);
}.

Lemma build_config_state_Ok cfg c s :
  build_config_state cfg c = Ok s →
  config s = stored_config cfg c ∧ constraints s = c ∧ blocked s = [] ∧ blocked_total s = 0%N ∧
  Forall not_wildcard (denied_list (config s)) ∧
  validate_mitm_hook_config (config s) = Ok () ∧
  compile_denylist_globset (denied_list (config s)) = Ok (deny_set s) ∧
  compile_allowlist_globset (allowed_list (config s)) = Ok (allow_set s).
Proof.
  unfold build_config_state. cbv zeta. fold (broker_off cfg c). fold (creates_proxy (broker_off cfg c)).
  fold (creates_allowlist (broker_off cfg c) c).
  set (cfg' := if creates_allowlist (broker_off cfg c) c then _ else _).
  change cfg' with (stored_config cfg c). clearbody cfg'. intros Hb.
  apply res_bind_Ok in Hb as (? & _ & Hb). destruct (credential_broker _ && _); [done|].
  apply res_bind_Ok in Hb as ([] & Hw%map_err_Ok%validate_wildcards_Ok & Hb).
  apply res_bind_Ok in Hb as (ds & Hd%map_err_Ok & Hb). apply res_bind_Ok in Hb as (als & Ha%map_err_Ok & Hb).
  apply res_bind_Ok in Hb as (hs & Hh%map_err_Ok & Hb). apply res_bind_Ok in Hb as (ms & _ & [= <-]). simpl.
  apply compile_mitm_hooks_Ok in Hh as [Hv _]. repeat (split; [done|]). done.
Qed.

Lemma broker_off_fields cfg c :
  domains (broker_off cfg c) = domains cfg ∧ unix_sockets (broker_off cfg c) = unix_sockets cfg ∧
  enabled (broker_off cfg c) = enabled cfg ∧ mode (broker_off cfg c) = mode cfg ∧
  allow_upstream_proxy (broker_off cfg c) = allow_upstream_proxy cfg ∧
  dangerously_allow_non_loopback_proxy (broker_off cfg c) = dangerously_allow_non_loopback_proxy cfg ∧
  dangerously_allow_all_unix_sockets (broker_off cfg c) = dangerously_allow_all_unix_sockets cfg ∧
  allow_local_binding (broker_off cfg c) = allow_local_binding cfg ∧
  (max_enabled c = Some false → credential_broker (broker_off cfg c) = false).
Proof. unfold broker_off. case_bool_decide; destruct cfg; simpl; repeat split; done. Qed.

Lemma stored_config_fields cfg c :
  unix_sockets (stored_config cfg c) = unix_sockets cfg ∧ mode (stored_config cfg c) = mode cfg ∧
  allow_upstream_proxy (stored_config cfg c) = allow_upstream_proxy cfg ∧
  dangerously_allow_non_loopback_proxy (stored_config cfg c) = dangerously_allow_non_loopback_proxy cfg ∧
  dangerously_allow_all_unix_sockets (stored_config cfg c) = dangerously_allow_all_unix_sockets cfg ∧
  allow_local_binding (stored_config cfg c) = allow_local_binding cfg ∧
  (max_enabled c = Some false → enabled (stored_config cfg c) = enabled cfg) ∧
  (managed_allowed_domains c ≠ None → domains (stored_config cfg c) = domains cfg).
Proof.
  destruct (broker_off_fields cfg c) as (F1&F2&F3&F4&F5&F6&F7&F8&F9).
  unfold stored_config, creates_allowlist, creates_proxy.
  set (b := broker_off cfg c) in *. clearbody b.
  rewrite <- F1, <- F2, <- F3, <- F4, <- F5, <- F6, <- F7, <- F8. clear F1 F2 F3 F4 F5 F6 F7 F8.
  destruct (credential_broker b) eqn:Eb, (enabled b) eqn:Ee; simpl;
    try case_bool_decide; try case_bool_decide; destruct b; simpl in *; repeat split; try done; naive_solver.
Qed.

Lemma denied_list_domains cfg cfg' :
  (∀ e, Entry e PermDeny ∈ entries_of cfg ↔ Entry e PermDeny ∈ entries_of cfg') →
  ∀ e, e ∈ denied_list cfg ↔ e ∈ denied_list cfg'.
Proof. intros He e. by rewrite !elem_of_denied. Qed.

Lemma stored_denied cfg c e : e ∈ denied_list (stored_config cfg c) ↔ e ∈ denied_list cfg.
Proof.
  rewrite !elem_of_denied. destruct (broker_off_fields cfg c) as (F1&_).
  assert (Hon : ∀ b, entries_of (with_enabled true b) = entries_of b) by by intros [].
  unfold stored_config. replace (entries_of cfg) with (entries_of (broker_off cfg c)) by (unfold entries_of; by rewrite F1).
  destruct (creates_allowlist _ c); [unfold set_allowed_domains; rewrite elem_of_set_domain_entries|];
    destruct (creates_proxy _); rewrite ?Hon; naive_solver.
Qed.

Lemma lower_set_ext l l' : (∀ e, e ∈ l ↔ e ∈ l') → lower_set l = lower_set l'.
Proof. intros He. apply set_eq. intros x. rewrite !elem_of_lower_set. naive_solver. Qed.

(** Storing a configuration keeps it within its constraints. *)
Lemma build_satisfies cfg c s :
  satisfies cfg c → build_config_state cfg c = Ok s → state_ok s.
Proof.
  intros Hs (Hc & Hcs & _ & _ & Hw & Hv & Hd & Ha)%build_config_state_Ok. split; [|done..].
  rewrite Hcs. rewrite Hc in *. destruct (stored_config_fields cfg c) as (F1&F2&F3&F4&F5&F6&F7&F8).
  pose proof (lower_set_ext _ _ (stored_denied cfg c)) as Hden.
  destruct Hs. constructor; rewrite ?F2, ?F3, ?F4, ?F5, ?F6; try done.
  - intros Hf. rewrite F7 by done. auto.
  - intros managed Hm. destruct (sat_allowed0 managed Hm) as [Hwm Hin]. split; [done|].
    assert (Hdom : domains (stored_config cfg c) = domains cfg) by (apply F8; by rewrite Hm).
    unfold allowed_within, allowed_list, denied_list, allowed_domains, denied_domains, domain_entries in *.
    by rewrite Hdom.
  - intros managed Hm. destruct (sat_denied0 managed Hm) as [Hwm Hin]. split; [done|].
    unfold denied_covers in *. by rewrite Hden.
  - intros managed Hm path. unfold allow_unix_sockets. rewrite F1. by apply sat_sockets0.
Qed.

(** Without constraints, building alone is enough. *)
Lemma build_unconstrained cfg s : build_config_state cfg default_constraints = Ok s → state_ok s.
Proof.
  intros Hb. pose proof Hb as (Hc & Hcs & _ & _ & Hw & Hv & Hd & Ha)%build_config_state_Ok. split; [|done..].
  rewrite Hcs. constructor; try done. naive_solver.
Qed.

End build.
