(* ===== verification/NetRuntime.v ===== *)
(** * The running network proxy

    [network-proxy/src/runtime.rs] and the decision of [network_policy.rs]: the
    shared state behind its lock, the decision about a host, the buffer of
    blocked requests, the operations that change the policy.  Each section the
    code runs under the lock is one function on [Shared]; an operation that
    takes the lock twice is split there, so that other operations can come in
    between.  Logging is left out.  The reloader, the name service and the file
    system answer through arguments; the credential broker, which is told of
    each new configuration, is the class [BrokerOps]. *)

From stdpp Require Import gmap list.
From S2P Require Import Prelude RustStr RustOrd IpAddr NetPolicy NetConfig MitmHook NetState.

Definition MAX_BLOCKED_EVENTS : nat := 200.

Definition REASON_DENIED : str := lit "denied".
Definition REASON_NOT_ALLOWED : str := lit "not_allowed".
Definition REASON_NOT_ALLOWED_LOCAL : str := lit "not_allowed_local".
Definition REASON_POLICY_DENIED : str := lit "policy_denied".

Inductive HostBlockReason := Denied | NotAllowed | NotAllowedLocal.
#[export] Instance host_block_reason_eq_dec : EqDecision HostBlockReason.
Proof. solve_decision. Defined.
Definition reason_str (r : HostBlockReason) : str :=
  match r with
  | Denied => REASON_DENIED
  | NotAllowed => REASON_NOT_ALLOWED
  | NotAllowedLocal => REASON_NOT_ALLOWED_LOCAL
  end.

Inductive HostBlockDecision := Allowed | Blocked (r : HostBlockReason).

(** The outcome of [timeout(lookup_host(..))]. *)
Inductive LookupResult := LookupOk (addrs : list SocketAddr) | LookupErr | LookupTimeout.

(** The credential broker's own state. *)
Class BrokerOps `{JsonData} := {
  Broker : Type;
  broker_configure : Broker → NetworkProxyConfig → Broker;
}.

(** [RELOAD] stands for an error of the reloader. *)
Inductive RuntimeError :=
  | ReloadError
  | InvalidNetworkHost
  | ModeConstrained (e : NetworkProxyConstraintError)
  | DomainConstrained (field : str) (e : NetworkProxyConstraintError)
  | DomainNotCompiled (list_name : str) (e : BuildError).

Section runtime.
Context `{JsonData, PathOps, HttpOps, GlobOps, MitmOps, UrlHostOps} {SO : SecretOps} {BO : BrokerOps}.

Record Shared := { state : ConfigState; broker : Broker }.

Definition with_blocked (b : list BlockedRequest) (t : N) (s : ConfigState) : ConfigState :=
  {| config := config s; brokerage_created_default_allowlist := brokerage_created_default_allowlist s;
     allow_set := allow_set s; deny_set := deny_set s; mitm_state := mitm_state s;
     state_mitm_hooks := state_mitm_hooks s; constraints := constraints s; blocked := b; blocked_total := t |}.
Definition with_config (c : NetworkProxyConfig) (s : ConfigState) : ConfigState :=
  {| config := c; brokerage_created_default_allowlist := brokerage_created_default_allowlist s;
     allow_set := allow_set s; deny_set := deny_set s; mitm_state := mitm_state s;
     state_mitm_hooks := state_mitm_hooks s; constraints := constraints s; blocked := blocked s;
     blocked_total := blocked_total s |}.

(** ** Reloading *)

(** What [maybe_reload] and [reload_now] answer. *)
Abbreviation MaybeReload := (res unit (option ConfigState)).
Abbreviation ReloadNow := (res unit ConfigState).

(** Install a state that keeps the buffer and the total of the old one. *)
Definition install (new_state : ConfigState) (sh : Shared) : Shared :=
  {| state := with_blocked (blocked (state sh)) (blocked_total (state sh)) new_state;
     broker := broker_configure (broker sh) (config new_state) |}.

Definition reload_if_needed (r : MaybeReload) (sh : Shared) : res RuntimeError unit * Shared :=
  match r with
  | Ok None => (Ok (), sh)
  | Ok (Some new_state) => (Ok (), install new_state sh)
  | Err _ => (Err ReloadError, sh)
  | Panic => (Panic, sh)
  end.

Definition force_reload (r : ReloadNow) (sh : Shared) : res RuntimeError unit * Shared :=
  match r with
  | Ok new_state =>
      (Ok (), {| state := with_blocked (blocked (state sh)) (blocked_total new_state) new_state;
                 broker := broker_configure (broker sh) (config new_state) |})
  | Err _ => (Err ReloadError, sh)
  | Panic => (Panic, sh)
  end.

(** Every operation starts with a reload and returns its error. *)
Definition after_reload {A} (r : MaybeReload) (sh : Shared) (k : Shared → res RuntimeError A * Shared)
    : res RuntimeError A * Shared :=
  match reload_if_needed r sh with
  | (Ok _, sh') => k sh'
  | (Err e, sh') => (Err e, sh')
  | (Panic, sh') => (Panic, sh')
  end.

Definition replace_config_state (new_state : ConfigState) (r : MaybeReload) (sh : Shared)
    : res RuntimeError unit * Shared :=
  after_reload r sh (λ sh, (Ok (), install new_state sh)).

Definition reading {A} (f : ConfigState → A) (r : MaybeReload) (sh : Shared) : res RuntimeError A * Shared :=
  after_reload r sh (λ sh, (Ok (f (state sh)), sh)).

Definition state_enabled := reading (λ s, enabled (config s)).
Definition current_cfg := reading config.
Definition current_patterns :=
  reading (λ s, (default [] (allowed_domains (config s)), default [] (denied_domains (config s)))).
Definition method_allowed (method : str) := reading (λ s, allows_method (mode (config s)) method).
Definition network_mode := reading (λ s, mode (config s)).
Definition state_allow_local_binding := reading (λ s, allow_local_binding (config s)).
Definition state_allow_upstream_proxy := reading (λ s, allow_upstream_proxy (config s)).

(** ** Deciding about a host *)

Definition host_resolves_to_non_public_ip (host : str) (port : N) (lookup : str → N → LookupResult) : bool :=
  match ip_parse host with
  | Some ip => is_non_public_ip ip
  | None =>
      match lookup host port with
      | LookupOk addrs => existsb (λ a, is_non_public_ip (addr_ip a)) addrs
      | LookupErr => true
      | LookupTimeout => true
      end
  end.

Definition is_explicit_local_allowlisted (allowed_domains : list str) (host : Host) : bool :=
  let unscoped_host := unscoped_ip_literal host in
  existsb (λ pattern,
    let pattern := trim pattern in
    if bool_decide (pattern = lit "*") || starts_with (lit "*.") pattern || starts_with (lit "**.") pattern
    then false
    else if contains_char c_star pattern || contains_char c_question pattern then false
    else
      let normalized_pattern := normalize_host pattern in
      bool_decide (normalized_pattern = host)
      || match unscoped_host with
         | Some ip => bool_decide (normalized_pattern = ip)
         | None => false
         end) allowed_domains.

(** The local names and addresses, before any lookup. *)
Definition local_literal (host : Host) : bool :=
  let host_no_scope := default host (unscoped_ip_literal host) in
  if is_loopback_host host then true
  else match ip_parse host_no_scope with
       | Some ip => is_non_public_ip ip
       | None => false
       end.

(** The decision on a snapshot of the state. *)
Definition decide_host (s : ConfigState) (host : Host) (port : N) (lookup : str → N → LookupResult)
    : HostBlockDecision :=
  let allowed := allowed_domains (config s) in
  let allowed_domains_empty := bool_decide (allowed = None) in
  let allowed_domains := default [] allowed in
  if globset_matches_host_or_unscoped (deny_set s) host then Blocked Denied
  else
    let is_allowlisted := globset_matches_host_or_unscoped (allow_set s) host in
    let blocked_local :=
      if allow_local_binding (config s) then false
      else if local_literal host then negb (is_explicit_local_allowlisted allowed_domains host)
      else host_resolves_to_non_public_ip host port lookup in
    if blocked_local then Blocked NotAllowedLocal
    else if allowed_domains_empty || negb is_allowlisted then Blocked NotAllowed
    else Allowed.

Definition host_blocked (host : str) (port : N) (lookup : str → N → LookupResult) (r : MaybeReload) (sh : Shared)
    : res RuntimeError HostBlockDecision * Shared :=
  after_reload r sh (λ sh,
    match host_parse host with
    | Ok host => (Ok (decide_host (state sh) host port lookup), sh)
    | _ => (Ok (Blocked NotAllowed), sh)
    end).

(** ** Blocked requests *)

Definition with_execution_id (id : option str) (b : BlockedRequest) : BlockedRequest :=
  {| blocked_host := blocked_host b; blocked_reason := blocked_reason b; blocked_client := blocked_client b;
     blocked_method := blocked_method b; blocked_mode := blocked_mode b; blocked_protocol := blocked_protocol b;
     blocked_execution_id := id; blocked_decision := blocked_decision b; blocked_source := blocked_source b;
     blocked_port := blocked_port b; blocked_timestamp := blocked_timestamp b |}.

(** The loop that pops the front while the buffer is too long. *)
Definition trim_blocked (l : list BlockedRequest) : list BlockedRequest :=
  drop (length l - MAX_BLOCKED_EVENTS) l.

Definition push_blocked (entry : BlockedRequest) (sh : Shared) : Shared :=
  {| state := with_blocked (trim_blocked (blocked (state sh) ++ [entry])) (sat_add (blocked_total (state sh)) 1) (state sh);
     broker := broker sh |}.

(** The observer is given the entry as well. *)
Definition record_blocked (execution_id : option str) (entry : BlockedRequest) (r : MaybeReload) (sh : Shared)
    : res RuntimeError unit * Shared :=
  after_reload r sh (λ sh, (Ok (), push_blocked (with_execution_id execution_id entry) sh)).

Definition blocked_snapshot := reading blocked.

Definition drain_blocked (r : MaybeReload) (sh : Shared) : res RuntimeError (list BlockedRequest) * Shared :=
  after_reload r sh (λ sh,
    (Ok (blocked (state sh)),
     {| state := with_blocked [] (blocked_total (state sh)) (state sh); broker := broker sh |})).

(** ** Unix sockets *)

(** [supported] is [cfg!(target_os = "macos")]; [canonicalize] is [std::fs::canonicalize]. *)
Definition socket_allowed (supported : bool) (canonicalize : AbsPath → option AbsPath) (path : str) (s : ConfigState)
    : bool :=
  if negb supported then false
  else if negb (path_is_absolute path) then false
  else if dangerously_allow_all_unix_sockets (config s) then true
  else match from_absolute_path path with
       | None => false
       | Some requested_abs =>
           let requested_canonical := canonicalize requested_abs in
           existsb (λ allowed,
             match validated_unix_socket_path_parse allowed with
             | Ok (Native allowed_path) =>
                 bool_decide (allowed_path = requested_abs)
                 || match requested_canonical, canonicalize allowed_path with
                    | Some r, Some a => bool_decide (a = r)
                    | _, _ => false
                    end
             | _ => false
             end) (allow_unix_sockets (config s))
       end.
Definition is_unix_socket_allowed (supported : bool) (canonicalize : AbsPath → option AbsPath) (path : str) :=
  reading (socket_allowed supported canonicalize path).

(** ** Changing the mode *)

(** One turn of the loop, up to the write lock: the constraints that were read. *)
Definition set_mode_read (m : NetworkMode) (r : MaybeReload) (sh : Shared)
    : res RuntimeError NetworkProxyConstraints * Shared :=
  after_reload r sh (λ sh,
    let candidate := with_mode m (config (state sh)) in
    let seen := constraints (state sh) in
    (let? _ := map_err ModeConstrained (validate_policy_against_constraints candidate seen) in Ok seen, sh)).

(** The rest of the turn: nothing when the loop has to continue. *)
Definition set_mode_commit (m : NetworkMode) (seen : NetworkProxyConstraints) (sh : Shared) : option Shared :=
  if bool_decide (constraints (state sh) ≠ seen) then None
  else Some {| state := with_config (with_mode m (config (state sh))) (state sh); broker := broker sh |}.

(** ** Changing the lists *)

Inductive DomainListKind := ListAllow | ListDeny.
Definition list_name (k : DomainListKind) : str :=
  match k with ListAllow => lit "allowlist" | ListDeny => lit "denylist" end.
Definition constraint_field (k : DomainListKind) : str :=
  match k with ListAllow => lit "network.allowed_domains" | ListDeny => lit "network.denied_domains" end.
Definition list_permission (k : DomainListKind) : NetworkDomainPermission :=
  match k with ListAllow => PermAllow | ListDeny => PermDeny end.
Definition list_entries (k : DomainListKind) (c : NetworkProxyConfig) : list str :=
  default [] match k with ListAllow => allowed_domains c | ListDeny => denied_domains c end.
Definition opposite_entries (k : DomainListKind) (c : NetworkProxyConfig) : list str :=
  default [] match k with ListAllow => denied_domains c | ListDeny => allowed_domains c end.

(** What a turn of the loop has read, and the state it has built from it. *)
Record DomainUpdate := {
  previous_cfg : NetworkProxyConfig;
  seen_constraints : NetworkProxyConstraints;
  new_state : ConfigState;
}.

(** One turn of [update_domain_list] up to the write lock: nothing when the host is
    listed already. *)
Definition prepare_update (target : DomainListKind) (normalized_host : str) (s : ConfigState)
    : res RuntimeError (option DomainUpdate) :=
  let previous := config s in
  let target_contains :=
    existsb (λ entry, bool_decide (normalize_host entry = normalized_host)) (list_entries target previous) in
  let opposite_contains :=
    existsb (λ entry, bool_decide (normalize_host entry = normalized_host)) (opposite_entries target previous) in
  if target_contains && negb opposite_contains then Ok None
  else
    let candidate := upsert_domain_permission previous normalized_host (list_permission target) normalize_host in
    let? _ := map_err (DomainConstrained (constraint_field target))
                (validate_policy_against_constraints candidate (constraints s)) in
    let? built := map_err (DomainNotCompiled (list_name target)) (build_config_state candidate (constraints s)) in
    Ok (Some {| previous_cfg := previous; seen_constraints := constraints s;
                new_state := with_blocked (blocked s) (blocked_total s) built |}).

Definition update_read (target : DomainListKind) (normalized_host : str) (r : MaybeReload) (sh : Shared)
    : res RuntimeError (option DomainUpdate) * Shared :=
  after_reload r sh (λ sh, (prepare_update target normalized_host (state sh), sh)).

(** The rest of the turn: nothing when the loop has to continue. *)
Definition update_commit (u : DomainUpdate) (sh : Shared) : option Shared :=
  if bool_decide (constraints (state sh) ≠ seen_constraints u) || bool_decide (config (state sh) ≠ previous_cfg u)
  then None
  else Some {| state := new_state u; broker := broker sh |}.

(** The host argument of [update_domain_list]. *)
Definition update_host (host : str) : res RuntimeError str :=
  map_err (λ _, InvalidNetworkHost) (host_parse host).

(** ** The policy decision *)

Inductive NetworkProtocol := ProtoHttp | ProtoHttpsConnect | ProtoSocks5Tcp | ProtoSocks5Udp.
Inductive NetworkPolicyDecision := PolicyDeny | PolicyAsk.
Inductive NetworkDecisionSource := BaselinePolicy | ModeGuard | ProxyState | Decider.

Definition decision_str (d : NetworkPolicyDecision) : str :=
  match d with PolicyDeny => lit "deny" | PolicyAsk => lit "ask" end.
Definition source_str (s : NetworkDecisionSource) : str :=
  match s with
  | BaselinePolicy => lit "baseline_policy"
  | ModeGuard => lit "mode_guard"
  | ProxyState => lit "proxy_state"
  | Decider => lit "decider"
  end.

Inductive NetworkDecision :=
  | DecisionAllow
  | DecisionDeny (reason : str) (source : NetworkDecisionSource) (decision : NetworkPolicyDecision).

Definition deny_with_source (reason : str) (source : NetworkDecisionSource) : NetworkDecision :=
  DecisionDeny (if bool_decide (reason = []) then REASON_POLICY_DENIED else reason) source PolicyDeny.
Definition ask_with_source (reason : str) (source : NetworkDecisionSource) : NetworkDecision :=
  DecisionDeny (if bool_decide (reason = []) then REASON_POLICY_DENIED else reason) source PolicyAsk.

(** The fields of a request a decider sees; those about cancellation are left out. *)
Record NetworkPolicyRequest := {
  request_protocol : NetworkProtocol;
  request_host : str;
  request_port : N;
  request_environment_id : option str;
  request_client_addr : option str;
  request_method : option str;
  request_command : option str;
  request_exec_policy_hint : option str;
  request_execution_id : option str;
}.

Definition map_decider_decision (d : NetworkDecision) : NetworkDecision :=
  match d with
  | DecisionAllow => DecisionAllow
  | DecisionDeny reason _ decision => DecisionDeny reason Decider decision
  end.

(** What an audit event is made of. *)
Record PolicyAuditEventArgs := {
  audit_scope : str;
  audit_decision : str;
  audit_source : str;
  audit_reason : str;
  audit_protocol : NetworkProtocol;
  server_address : str;
  server_port : N;
  audit_method : option str;
  audit_client_addr : option str;
  audit_execution_id : option str;
  audit_override : bool;
}.

Definition for_decider (environment_id execution_id : option str) (q : NetworkPolicyRequest) : NetworkPolicyRequest :=
  {| request_protocol := request_protocol q; request_host := request_host q; request_port := request_port q;
     request_environment_id := match request_environment_id q with Some e => Some e | None => environment_id end;
     request_client_addr := request_client_addr q; request_method := request_method q;
     request_command := request_command q; request_exec_policy_hint := request_exec_policy_hint q;
     request_execution_id := execution_id |}.

(** The answer to a decision about the host, with the flag of an override. *)
Definition decision_for (environment_id execution_id : option str)
    (decider : option (NetworkPolicyRequest → NetworkDecision)) (q : NetworkPolicyRequest) (d : HostBlockDecision)
    : NetworkDecision * bool :=
  match d with
  | Allowed => (DecisionAllow, false)
  | Blocked NotAllowed =>
      match decider with
      | Some decider =>
          let decider_decision := map_decider_decision (decider (for_decider environment_id execution_id q)) in
          (decider_decision, match decider_decision with DecisionAllow => true | _ => false end)
      | None => (deny_with_source (reason_str NotAllowed) BaselinePolicy, false)
      end
  | Blocked reason => (deny_with_source (reason_str reason) BaselinePolicy, false)
  end.

Definition audit_event (execution_id : option str) (q : NetworkPolicyRequest) (decision : NetworkDecision)
    (policy_override : bool) : PolicyAuditEventArgs :=
  let '(policy_decision, source, reason) :=
    match decision with
    | DecisionAllow =>
        (lit "allow", if policy_override then Decider else BaselinePolicy,
         if policy_override then reason_str NotAllowed else lit "allow")
    | DecisionDeny reason source decision => (decision_str decision, source, reason)
    end in
  {| audit_scope := lit "domain"; audit_decision := policy_decision; audit_source := source_str source;
     audit_reason := reason; audit_protocol := request_protocol q; server_address := request_host q;
     server_port := request_port q; audit_method := request_method q; audit_client_addr := request_client_addr q;
     audit_execution_id := execution_id; audit_override := policy_override |}.

Definition evaluate_host_policy (environment_id execution_id : option str)
    (decider : option (NetworkPolicyRequest → NetworkDecision)) (q : NetworkPolicyRequest)
    (lookup : str → N → LookupResult) (r : MaybeReload) (sh : Shared)
    : res RuntimeError (NetworkDecision * PolicyAuditEventArgs) * Shared :=
  let '(d, sh') := host_blocked (request_host q) (request_port q) lookup r sh in
  (let? host_decision := d in
   let '(decision, policy_override) := decision_for environment_id execution_id decider q host_decision in
   Ok (decision, audit_event execution_id q decision policy_override), sh').

End runtime.
