(* ===== verification/NetSample.v ===== *)
(** * A proxy on which the theorems are tried

    Concrete functions for the interfaces of the network proxy, and a managed
    configuration with the state that is built from it.  The instances are only
    active where [Sample] is imported. *)

From stdpp Require Import gmap list.
From S2P Require Import Prelude RustStr RustOrd IpAddr NetPolicy NetGlobs NetConfig NetConfigFacts.
From S2P Require Import NetConfig AuthPath MitmHook NetState NetRuntime.

Module Sample.
Export SimpleGlobs.

#[export] Instance sample_json : JsonData := {| JsonValue := unit |}.

#[export] Instance sample_paths : PathOps := {|
  AbsPath := str;
  path_is_absolute p := starts_with (lit "/") p;
  from_absolute_path p := if starts_with (lit "/") p then Some p else None;
|}.

(** Names and values of headers are texts; names are not empty. *)
#[export] Instance sample_http : HttpOps := {|
  HeaderName := str;
  HeaderValue := str;
  header_name_from_bytes s := if bool_decide (s = []) then None else Some (to_ascii_lowercase s);
  header_value_from_str s := Some s;
  header_value_to_str s := Some s;
  form_urlencoded_parse s := [];
|}.

#[export] Instance sample_secrets : SecretOps := {|
  env_var s := if bool_decide (s = lit "TOKEN") then Some (lit "s3cret") else None;
  read_to_string p := None;
|}.

(** Hosts without a colon, in lower case. *)
#[export] Instance sample_url_hosts : UrlHostOps := λ s,
  if contains_char c_colon s then None else Some (to_ascii_lowercase s).

#[export] Instance sample_mitm : MitmOps := {| MitmState := unit; mitm_state_new _ := Some () |}.

(** The broker counts its configurations. *)
#[export] Instance sample_broker : BrokerOps := {| Broker := nat; broker_configure b _ := S b |}.

(** URLs of the form [scheme://host:port] on hosts without a colon. *)
#[export] Instance sample_urls : UrlOps := λ s,
  match split_once_str (lit "://") s with
  | Some (scheme, rest) =>
      match split_once_str (lit ":") rest with
      | Some (h, p) => Some {| url_scheme := scheme; url_username := []; url_password := None;
                               url_host_str := Some h; url_port := parse_u16 p |}
      | None => Some {| url_scheme := scheme; url_username := []; url_password := None;
                        url_host_str := Some rest; url_port := None |}
      end
  | None => None
  end.

Definition sample_lookup (host : str) (port : N) : LookupResult :=
  if bool_decide (host = lit "intranet.corp.test")
  then LookupOk [Addr (V4 (Ipv4 10 0 0 7)) port] else LookupOk [Addr (V4 (Ipv4 8 8 8 8)) port].

(** ** A managed configuration *)

Definition sample_config : NetworkProxyConfig :=
  with_enabled true (with_domains (Some
    [Entry (lit "**.corp.test") PermAllow; Entry (lit "localhost") PermAllow; Entry (lit "db.corp.test") PermDeny])
    default_config).

Definition sample_constraints (expansion : option bool) : NetworkProxyConstraints := {|
  max_enabled := Some true; max_mode := Some Full;
  max_allow_upstream_proxy := None; max_allow_non_loopback_proxy := Some false; max_allow_all_unix_sockets := Some false;
  managed_allowed_domains := Some [lit "**.corp.test"; lit "localhost"]; allowlist_expansion_enabled := expansion;
  managed_denied_domains := Some [lit "DB.corp.test"]; denylist_expansion_enabled := Some true;
  managed_unix_sockets := None; max_allow_local_binding := Some false;
|}.

Definition empty_state (c : NetworkProxyConstraints) : ConfigState := {|
  config := default_config; brokerage_created_default_allowlist := false; allow_set := []; deny_set := [];
  mitm_state := None; state_mitm_hooks := ∅; constraints := c; blocked := []; blocked_total := 0;
|}.

Definition built_or_empty (cfg : NetworkProxyConfig) (c : NetworkProxyConstraints) : ConfigState :=
  match build_config_state cfg c with Ok s => s | _ => empty_state c end.

Definition sample_state (expansion : option bool) : ConfigState :=
  built_or_empty sample_config (sample_constraints expansion).

Lemma sample_built e : build_config_state sample_config (sample_constraints e) = Ok (sample_state e).
Proof. by destruct e as [[]|]; vm_compute. Qed.

Lemma sample_satisfies e : satisfies sample_config (sample_constraints e).
Proof. apply validate_satisfies. by destruct e as [[]|]; vm_compute. Qed.

Lemma sample_ok e : state_ok (sample_state e).
Proof. eapply build_satisfies; [apply (sample_satisfies e)|apply sample_built]. Qed.

Definition sample_shared : Shared := {| state := sample_state None; broker := 0 |}.

End Sample.

(** ** Hooks of the sample *)

Section hooks.
Import Sample.

Definition sample_hook : MitmHookConfig := {|
  hook_host := lit "api.corp.test";
  hook_matcher := {| match_methods := [lit "get"]; match_path_prefixes := [lit "/v1/"]; match_query := ∅;
                     match_headers := ∅; match_body := None |};
  hook_actions := {| strip_request_headers := [lit "X-Debug"];
                     inject_request_headers := [{| header_name := lit "Authorization"; secret_env_var := Some (lit "TOKEN");
                                                   secret_file := None; header_prefix := Some (lit "Bearer ") |}] |};
|}.

Definition hooked_config : NetworkProxyConfig := {|
  enabled := true; proxy_url := default_proxy_url; enable_socks5 := true; socks_url := default_socks_url;
  enable_socks5_udp := true; allow_upstream_proxy := true; dangerously_allow_non_loopback_proxy := false;
  dangerously_allow_all_unix_sockets := false; mode := Full; domains := None; unix_sockets := None;
  allow_local_binding := false; mitm := true; credential_broker := false;
  credential_broker_enabled_mitm := false; credential_providers := ∅; credential_broker_openai_host := None;
  credential_broker_context := ∅; dangerously_allow_plaintext_credential_injection := false;
  mitm_hooks := [sample_hook];
|}.

Definition get_request (path : str) : Request :=
  {| req_method := lit "GET"; req_path := path; req_query := None; req_headers := [] |}.

Definition sample_hooks : gmap str (list MitmHook) :=
  match compile_mitm_hooks hooked_config with Ok m => m | _ => ∅ end.

(** A path with an encoded slash is not matched, although it begins like the prefix. *)
Example evaluate_mitm_hooks_first_witness :
  ∃ hook,
    compile_mitm_hooks hooked_config = Ok sample_hooks ∧
    evaluate_mitm_hooks sample_hooks (lit "API.corp.test:443") (get_request (lit "/v1/items")) = Matched (actions hook) ∧
    evaluate_mitm_hooks sample_hooks (lit "API.corp.test:443") (get_request (lit "/v1/..%2Fv2")) = HookedHostNoMatch ∧
    compile_hook env_var read_secret sample_hook = Ok hook ∧
    (hook_matches hook (get_request (lit "/v1/items")) = true →
     is_safe_for_authorization (req_path (get_request (lit "/v1/items"))) = true).
Proof.
  assert (Hm : compile_mitm_hooks hooked_config = Ok sample_hooks) by (vm_compute; reflexivity).
  destruct (evaluate_mitm_hooks_first hooked_config _ (lit "API.corp.test:443") (get_request (lit "/v1/items")) Hm)
    as (hs & Hall & _ & Hmatch).
  inversion Hall as [|? hook ? hs' Hc Hrest]; subst. exists hook.
  split; [exact Hm|].
  split; [vm_compute in Hc; injection Hc as <-; vm_compute; reflexivity|].
  split; [vm_compute; reflexivity|]. split; [exact Hc|].
  intros Hh. apply (Hmatch hook); [by left|exact Hh].
Defined.

End hooks.
