(* ===== verification/NetRuntimeFacts.v ===== *)
(** * Facts about the running proxy

    When a host is allowed; that constraints hold for every decision; the
    interleavings of the operations on the shared state as a step relation, with
    the invariant of its reachable states. *)

From stdpp Require Import gmap list.
From S2P Require Import Prelude RustStr RustOrd IpAddr NetPolicy NetGlobs NetConfig NetConfigFacts.
From S2P Require Import NetConfig MitmHook NetState NetRuntime NetSample.

Section decisions.
Context `{JsonData, PathOps, HttpOps, GlobOps, MitmOps, UH : UrlHostOps} {SO : SecretOps} {BO : BrokerOps}.
Context `{!LawfulGlobs _}.
Implicit Types (s : ConfigState) (host : str).

(** An entry matches a host, or the address of a scoped literal. *)
Definition matches_host (entry host : str) : Prop :=
  entry_matches entry host ∨ ∃ ip, unscoped_ip_literal host = Some ip ∧ entry_matches entry ip.

(** The host is an explicit entry: an entry without wildcards with the host's normal form. *)
Definition explicit_entry (entry host : str) : Prop :=
  contains_char c_star (trim entry) = false ∧ contains_char c_question (trim entry) = false ∧
  (normalize_host (trim entry) = host ∨ unscoped_ip_literal host = Some (normalize_host (trim entry))).

Lemma starts_with_star_contains t p : starts_with (c_star :: t) p = true → contains_char c_star p = true.
Proof. intros (r & ->)%starts_with_true. done. Qed.

Lemma is_explicit_iff l host :
  is_explicit_local_allowlisted l host = true ↔ ∃ e, e ∈ l ∧ explicit_entry e host.
Proof.
  unfold is_explicit_local_allowlisted, explicit_entry. rewrite existsb_exists.
  setoid_rewrite <- list_elem_of_In. apply exist_proper. intros e. apply and_iff_compat_l. cbv zeta.
  destruct (contains_char c_star (trim e)) eqn:Es.
  { rewrite orb_true_l. destruct (bool_decide _ || _ || _); naive_solver. }
  assert (bool_decide (trim e = lit "*") = false) as ->.
  { apply bool_decide_eq_false. intros E. by rewrite E in Es. }
  assert (Hs : ∀ t, starts_with (c_star :: t) (trim e) = false).
  { intros t. destruct (starts_with (c_star :: t) (trim e)) eqn:E; [|done].
    apply starts_with_star_contains in E. congruence. }
  change (lit "*.") with (c_star :: lit "."). change (lit "**.") with (c_star :: lit "*.").
  rewrite !Hs. cbn [orb]. destruct (contains_char c_question (trim e)); [naive_solver|].
  rewrite orb_true_iff, bool_decide_eq_true. destruct (unscoped_ip_literal host); [rewrite bool_decide_eq_true|]; naive_solver.
Qed.

(** What the check of local destinations lets through. *)
Definition local_permitted s host (port : N) (lookup : str → N → LookupResult) : Prop :=
  allow_local_binding (config s) = true ∨
  (local_literal host = true ∧ ∃ e, e ∈ allowed_list (config s) ∧ explicit_entry e host) ∨
  (local_literal host = false ∧ host_resolves_to_non_public_ip host port lookup = false).

Lemma decide_host_allowed s host port lookup :
  state_ok s →
  decide_host s host port lookup = Allowed ↔
  (∀ e, e ∈ denied_list (config s) → ¬ matches_host e host) ∧
  (∃ e, e ∈ allowed_list (config s) ∧ matches_host e host) ∧
  local_permitted s host port lookup.
Proof.
  intros [_ Hd Ha]. unfold compile_denylist_globset, compile_allowlist_globset in *.
  pose proof (compiled_set_host _ _ _ host Hd) as Ed. pose proof (compiled_set_host _ _ _ host Ha) as Ea.
  fold (matches_host) in *.
  assert (Ed' : globset_matches_host_or_unscoped (deny_set s) host = false ↔
                ∀ e, e ∈ denied_list (config s) → ¬ matches_host e host).
  { rewrite <- not_true_iff_false, Ed. unfold matches_host. naive_solver. }
  unfold decide_host, local_permitted. cbv zeta. change (default [] (allowed_domains (config s))) with (allowed_list (config s)).
  rewrite <- Ed'. fold (matches_host) in Ea.
  destruct (globset_matches_host_or_unscoped (deny_set s) host); [naive_solver|].
  destruct (globset_matches_host_or_unscoped (allow_set s) host) eqn:Eall.
  2: { assert (Hno : ¬ ∃ e, e ∈ allowed_list (config s) ∧ matches_host e host).
       { intros He. apply Ea in He. congruence. }
       rewrite orb_true_r. destruct (if allow_local_binding (config s) then _ else _); naive_solver. }
  assert (Hyes : ∃ e, e ∈ allowed_list (config s) ∧ matches_host e host) by by apply Ea.
  assert (bool_decide (allowed_domains (config s) = None) = false) as ->.
  { apply bool_decide_eq_false. rewrite allowed_none_iff. intros E. destruct Hyes as (e & He & _).
    rewrite E in He. by apply not_elem_of_nil in He. }
  cbn [orb negb]. destruct (allow_local_binding (config s)); [naive_solver|].
  destruct (local_literal host) eqn:El.
  - rewrite <- is_explicit_iff. destruct (is_explicit_local_allowlisted _ host); naive_solver.
  - destruct (host_resolves_to_non_public_ip host port lookup); naive_solver.
Qed.

(** A host is allowed exactly when no denied entry matches it, an allowed entry does, and local
    destinations are permitted, or it is a local name that an entry lists explicitly, or it is not a
    local name and resolves to public addresses only. *)
Theorem host_allowed_iff s host port lookup :
  state_ok s →
  decide_host s host port lookup = Allowed ↔
  (∀ e, e ∈ denied_list (config s) → ¬ matches_host e host) ∧
  (∃ e, e ∈ allowed_list (config s) ∧ matches_host e host) ∧
  local_permitted s host port lookup.
Proof. apply decide_host_allowed. Qed.

(** With local destinations off, no request reaches one by another name: an allowed host that is no
    explicit entry is neither a local name nor a literal of a non-public address, and every address its
    name resolved to is public; a lookup that fails or times out blocks it. *)
Theorem no_local_access s host port lookup :
  state_ok s → allow_local_binding (config s) = false →
  decide_host s host port lookup = Allowed →
  (∃ e, e ∈ allowed_list (config s) ∧ explicit_entry e host) ∨
  is_loopback_host host = false ∧
  (∀ ip, ip_parse (default host (unscoped_ip_literal host)) = Some ip → ¬ non_public ip) ∧
  (ip_parse host = None → ∃ addrs, lookup host port = LookupOk addrs ∧
     Forall (λ a, is_non_public_ip (addr_ip a) = false) addrs).
Proof.
  intros Hok Hl (_ & _ & Hp)%decide_host_allowed; [|done].
  destruct Hp as [?|[[_ He]|[Hlit Hr]]]; [congruence|by left|]. right. unfold local_literal in Hlit.
  cbv zeta in Hlit. destruct (is_loopback_host host); [done|]. split; [done|]. split.
  - intros ip Hip. rewrite Hip in Hlit. rewrite <- is_non_public_ip_classified by by eapply ip_parse_wf. congruence.
  - unfold host_resolves_to_non_public_ip in Hr. intros Hn. rewrite Hn in Hr.
    destruct (lookup host port) as [addrs| |]; [|done..]. exists addrs. split; [done|].
    by apply existsb_false_Forall.
Qed.

(** ** Constraints bind every decision *)

(** C8. What the managed configuration denies is denied: in a state that satisfies its constraints, a host
    that a managed denied entry matches is blocked as denied, whatever the rest of the configuration. *)
Theorem managed_denials_hold s managed e host port lookup :
  state_ok s → managed_denied_domains (constraints s) = Some managed →
  e ∈ managed → matches_host e host → decide_host s host port lookup = Blocked Denied.
Proof.
  intros [Hs Hd _] Hm He Hmatch. destruct (sat_denied _ _ Hs managed Hm) as [_ Hcov].
  assert (Hin : to_ascii_lowercase e ∈ lower_set (denied_list (config s))).
  { assert (to_ascii_lowercase e ∈ lower_set managed) by (apply elem_of_lower_set; eauto).
    unfold denied_covers in Hcov. destruct (denylist_expansion_enabled (constraints s)) as [[]|]; set_solver. }
  apply elem_of_lower_set in Hin as (e' & He' & Heq).
  assert (Hset : globset_matches_host_or_unscoped (deny_set s) host = true).
  { apply (compiled_set_host _ _ _ host Hd). exists e'. split; [done|].
    destruct Hmatch as [Hmt|(ip & Hip & Hmt)]; [left|right; exists ip; split; [done|]];
      by eapply entry_matches_lower. }
  unfold decide_host. cbv zeta. by rewrite Hset.
Qed.

(** C9. What the managed configuration does not allow is not allowed, in a state that is
    in order.  With a fixed allowlist an allowed
    host matches a managed entry; with a list that may only be narrowed it belongs to a managed pattern,
    as long as the entries of both lists are canonical. *)
Theorem managed_allowlist_holds s managed host port lookup :
  state_ok s → managed_allowed_domains (constraints s) = Some managed →
  decide_host s host port lookup = Allowed →
  (allowlist_expansion_enabled (constraints s) = Some false → ∃ e, e ∈ managed ∧ matches_host e host) ∧
  (allowlist_expansion_enabled (constraints s) = None →
   (∀ e, e ∈ managed ++ allowed_list (config s) → ∃ p, e = render_pattern p ∧ canonical p) →
   ∃ p h, render_pattern p ∈ managed ∧ pattern_hosts p (to_ascii_lowercase h) ∧
          (h = host ∨ unscoped_ip_literal host = Some h)).
Proof.
  intros Hok Hm Hall. pose proof Hall as (_ & (e & He & Hmt) & _)%decide_host_allowed; [|done].
  destruct Hok as [Hs _ Ha]. destruct (sat_allowed _ _ Hs managed Hm) as [_ Hw]. split; intros Hex; rewrite Hex in Hw.
  - simpl in Hw. assert (Hin : to_ascii_lowercase e ∈ lower_set (allowed_list (config s))) by (apply elem_of_lower_set; eauto).
    rewrite Hw in Hin. apply elem_of_difference in Hin as [(e' & He' & Heq)%elem_of_lower_set _].
    exists e'. split; [done|]. destruct Hmt as [Hmt|(ip & Hip & Hmt)]; [left|right; exists ip; split; [done|]];
      by eapply entry_matches_lower.
  - intros Hcan. destruct (Hcan e) as (q & -> & Hq); [apply elem_of_app; by right|].
    destruct (Hw _ He) as (m & Hmm & Hal). destruct (Hcan m) as (p & -> & Hp); [apply elem_of_app; by left|].
    rewrite !parse_for_constraints_canonical in Hal by done.
    apply compile_builds in Ha as (gs & _ & _ & Hb & _). exists p.
    assert (Hh : ∃ h, (h = host ∨ unscoped_ip_literal host = Some h) ∧ entry_matches (render_pattern q) h).
    { destruct Hmt as [Hmt|(ip & Hip & Hmt)]; eauto. }
    destruct Hh as (h & Hh & Hmh). exists h. split; [done|]. split; [|done].
    apply (allows_sound p q); [apply Hp|apply Hq|done|].
    apply (entry_matches_canonical q Hq h); [|done]. intros cand Hcand. by apply (Hb _ cand He).
Qed.

(** ** The policy decision *)

(** A decider can only turn a host that is not on the allowlist into an allowed one: a request is
    allowed when the host is, or when it is merely not listed and the decider allows it, and the audit
    event says which. *)
Theorem decider_overrides_only_misses env exec decider q lookup r (sh sh' : Shared) d ev :
  evaluate_host_policy env exec decider q lookup r sh = (Ok (d, ev), sh') →
  ∃ b, host_blocked (request_host q) (request_port q) lookup r sh = (Ok b, sh') ∧
    (d = DecisionAllow ↔
       b = Allowed ∨
       b = Blocked NotAllowed ∧ ∃ f, decider = Some f ∧ f (for_decider env exec q) = DecisionAllow) ∧
    (audit_override ev = true ↔ d = DecisionAllow ∧ b = Blocked NotAllowed) ∧
    (b = Blocked Denied ∨ b = Blocked NotAllowedLocal → ∃ reason, d = DecisionDeny reason BaselinePolicy PolicyDeny).
Proof.
  unfold evaluate_host_policy. destruct (host_blocked _ _ lookup r sh) as [b sh1] eqn:E.
  destruct b as [b| |]; [|done..]. cbn [res_bind]. intros Hev.
  destruct (decision_for env exec decider q b) as [d1 o] eqn:Ed. injection Hev as <- <- <-.
  exists b. split; [done|]. unfold decision_for in Ed. unfold audit_event.
  assert (Hdeny : ∀ reason o', (deny_with_source reason BaselinePolicy, false) = (d1, o') →
    d1 ≠ DecisionAllow ∧ o' = false ∧ ∃ reason, d1 = DecisionDeny reason BaselinePolicy PolicyDeny).
  { unfold deny_with_source. intros reason o' [= <- <-]. eauto. }
  assert (Ho : audit_override (audit_event exec q d1 o) = o).
  { unfold audit_event. by destruct d1. }
  unfold audit_event in Ho. rewrite Ho. destruct b as [|[]].
  - injection Ed as <- <-. split; [naive_solver|]. split; [naive_solver|]. by intros [?|?].
  - apply Hdeny in Ed as (Hd & -> & Hr). split; [naive_solver|]. split; [naive_solver|done].
  - destruct decider as [f|].
    + injection Ed as <- <-. destruct (f (for_decider env exec q)) eqn:Ef; simpl.
      * split; [split; [intros _; right; split; [done|by exists f]|done]|]. split; [done|by intros [?|?]].
      * split; [|split; [split; [done|by intros [? _]]|by intros [?|?]]].
        split; [done|]. intros [?|[_ (f0 & [= <-] & Hf)]]; congruence.
    + apply Hdeny in Ed as (Hd & -> & Hr). split; [|split; [naive_solver|by intros [?|?]]].
      split; [done|]. intros [?|[_ (f0 & ? & _)]]; done.
  - apply Hdeny in Ed as (Hd & -> & Hr). split; [naive_solver|]. split; [naive_solver|done].
Qed.

(** ** Entries with ports *)

(** The documented behaviour of the host parser of URLs: a colon is a forbidden code point of a domain. *)
Definition rejects_colons : Prop :=
  ∀ x : str, contains_char c_colon x = true → starts_with [c_lbracket] x = false → url_host_parse x = None.

Definition port_entry (d : str) : str := d ++ lit ":443".

Lemma port_entry_absent d c : plain d = true → plain_char c = false → c ∉ lit ":443" → c ∉ port_entry d.
Proof. intros Hd Hc Hp. unfold port_entry. rewrite not_elem_of_app. split; [by apply plain_not_in|done]. Qed.

Lemma port_entry_trim d : plain d = true → trim (port_entry d) = port_entry d.
Proof.
  intros Hd. apply no_whitespace_trim. intros c [Hc|Hc]%elem_of_app; [by eapply plain_no_whitespace|].
  assert (Hl : Forall (λ c, is_whitespace c = false) (lit ":443")) by decide_now. rewrite Forall_forall in Hl. auto.
Qed.

Lemma not_in_contains c (l : str) : c ∉ l → contains_char c l = false.
Proof.
  intros Hc. apply existsb_false_Forall, Forall_forall. intros x Hx. apply N.eqb_neq. by intros ->.
Qed.

Lemma port_entry_constraint d :
  rejects_colons → plain d = true → parse_for_constraints (port_entry d) = Exact [].
Proof.
  intros Hu Hd. unfold parse_for_constraints. rewrite port_entry_trim by done.
  assert (Hne : port_entry d ≠ []) by by destruct d. rewrite bool_decide_eq_false_2 by done.
  assert (Ha : ∀ c, plain_char c = false → c ∉ lit ":443" → c ∉ port_entry d) by (intros; by apply port_entry_absent).
  change (lit "**.") with (c_star :: lit "*."). change (lit "*.") with [c_star; c_dot].
  rewrite !strip_prefix_absent by (apply Ha; decide_now). f_equal. unfold parse_domain_for_constraints.
  rewrite port_entry_trim, trim_end_matches_id, bool_decide_eq_false_2 by
    (done || (unfold port_entry; rewrite last_app; by intros [=])).
  rewrite (starts_with_absent c_lbracket []) by (apply Ha; decide_now). cbn [andb].
  rewrite !not_in_contains by (apply Ha; decide_now). cbn [orb]. rewrite Hu; [done| |].
  - apply existsb_exists. exists c_colon. split; [|done]. apply list_elem_of_In, elem_of_app. right. by left.
  - apply starts_with_absent, Ha; decide_now.
Qed.

Lemma count_char_app c (l t : str) : count_char c (l ++ t) = count_char c l + count_char c t.
Proof. unfold count_char. by rewrite filter_app, length_app. Qed.

Lemma count_char_absent c (t : str) : c ∉ t → count_char c t = 0.
Proof.
  intros Hc. unfold count_char. apply length_zero_iff_nil. destruct (filter _ t) as [|x l] eqn:E; [done|].
  assert (Hx : x ∈ filter (λ d, c = d) t) by (rewrite E; by left). apply list_elem_of_filter in Hx as [<- Hx]. done.
Qed.

Lemma port_entry_host d : plain d = true → normal d → normalize_host (port_entry d) = d.
Proof.
  intros Hd Hn. assert (Hcol : c_colon ∉ d) by by apply plain_not_in.
  unfold normalize_host. rewrite port_entry_trim by done.
  rewrite (starts_with_absent c_lbracket []) by (apply port_entry_absent; [done..|decide_now]).
  unfold port_entry. rewrite count_char_app, count_char_absent by done.
  change (lit ":443") with (c_colon :: lit "443"). rewrite split_char_app by done. rewrite bool_decide_eq_true_2 by done.
  cbn [head default]. pose proof (normalize_host_plain d Hd Hn) as H'. unfold normalize_host in H'.
  rewrite plain_tight, (starts_with_absent c_lbracket []), count_char_absent in H' by (done || by apply plain_not_in).
  exact H'.
Qed.

Lemma satisfies_set_allowed cfg c l :
  satisfies cfg c → (∀ managed, managed_allowed_domains c = Some managed →
    allowed_within managed (allowlist_expansion_enabled c) (set_allowed_domains cfg l)) →
  satisfies (set_allowed_domains cfg l) c.
Proof.
  intros Hs Hal. assert (Hden : ∀ e, e ∈ denied_list (set_allowed_domains cfg l) ↔ e ∈ denied_list cfg).
  { apply denied_list_domains. intros e. unfold set_allowed_domains. rewrite elem_of_set_domain_entries. naive_solver. }
  pose proof (lower_set_ext _ _ Hden) as Hlow.
  assert (∃ d, set_allowed_domains cfg l = with_domains d cfg) as [d Hd] by (unfold set_allowed_domains, set_domain_entries; eauto).
  destruct Hs. constructor; try (rewrite Hd; by destruct cfg).
  - apply Forall_forall. intros e He%Hden. rewrite Forall_forall in sat_denied_wildcards. auto.
  - intros managed Hm. split; [by apply (sat_allowed managed Hm)|auto].
  - intros managed Hm. destruct (sat_denied managed Hm) as [Hw Hc]. split; [done|].
    unfold denied_covers in *. by rewrite Hlow.
Qed.

(** A managed allowlist that may only be narrowed does not bind when an entry names a port: the host
    parser refuses such an entry, every refused entry is compared as the empty name, and so any other host
    with a port passes for it and is then matched without the port. *)
Theorem port_entry_escapes cfg c d s port lookup :
  rejects_colons → plain d = true → normal d → d ≠ [] →
  managed_allowed_domains c = Some [lit "corp.test:8443"] → allowlist_expansion_enabled c = None →
  satisfies cfg c →
  satisfies (set_allowed_domains cfg [port_entry d]) c ∧
  (build_config_state (set_allowed_domains cfg [port_entry d]) c = Ok s →
   (∀ e, e ∈ denied_list (config s) → ¬ matches_host e d) → port_entry d ∉ denied_list (config s) →
   local_permitted s d port lookup → decide_host s d port lookup = Allowed).
Proof.
  intros Hu Hp Hn Hne Hm Hx Hs. assert (Hs' : satisfies (set_allowed_domains cfg [port_entry d]) c).
  { apply satisfies_set_allowed; [done|]. rewrite Hm, Hx. intros managed [= <-] e [He _]%elem_of_allowed.
    apply elem_of_set_domain_entries in He as [[_ []]|[->%list_elem_of_singleton _]]; [done|].
    exists (lit "corp.test:8443"). split; [by left|]. rewrite port_entry_constraint by done.
    assert (parse_for_constraints (lit "corp.test:8443") = Exact []) as ->; [|done].
    unfold parse_for_constraints, parse_domain_for_constraints. cbn. by rewrite Hu. }
  split; [done|]. intros Hb Hden Hnd Hloc. pose proof (build_satisfies _ _ _ Hs' Hb) as Hok.
  apply decide_host_allowed; [done|]. split; [done|]. split; [|done]. exists (port_entry d).
  pose proof Hb as (Hcfg & _)%build_config_state_Ok. destruct Hok as [_ _ Ha].
  assert (Hin : port_entry d ∈ allowed_list (config s)).
  { apply elem_of_allowed. rewrite <- elem_of_denied. split; [|done]. rewrite Hcfg.
    destruct (stored_config_fields (set_allowed_domains cfg [port_entry d]) c) as (_&_&_&_&_&_&_&F).
    unfold entries_of. rewrite F by by rewrite Hm. apply elem_of_set_domain_entries. right. split; [by left|done]. }
  split; [done|]. left. unfold compile_allowlist_globset in Ha. apply compile_builds in Ha as (gs & _ & _ & Hgl & _).
  assert (Hnh : normalize_host (port_entry d) = d) by by apply port_entry_host.
  apply entry_matches_plain; rewrite ?Hnh; [done..| |apply Hn].
  apply (Hgl (port_entry d)); [done|]. rewrite normalize_pattern_plain, Hnh, expand_plain by (done || by rewrite Hnh). by left.
Qed.

End decisions.

(** ** On the sample *)

Section sample.
Import Sample.

Example host_allowed_iff_witness :
  decide_host (sample_state None) (lit "api.corp.test") 443 sample_lookup = Allowed ∧
  ∀ e, e ∈ denied_list (config (sample_state None)) → ¬ matches_host e (lit "api.corp.test").
Proof.
  assert (Hd : decide_host (sample_state None) (lit "api.corp.test") 443 sample_lookup = Allowed) by by vm_compute.
  split; [exact Hd|]. exact (proj1 (proj1 (host_allowed_iff _ _ _ _ (sample_ok None)) Hd)).
Defined.

(** The name of an address of the local network is blocked; the public one is not. *)
Example no_local_access_witness :
  decide_host (sample_state None) (lit "intranet.corp.test") 443 sample_lookup = Blocked NotAllowedLocal ∧
  ((∃ e, e ∈ allowed_list (config (sample_state None)) ∧ explicit_entry e (lit "api.corp.test")) ∨
   is_loopback_host (lit "api.corp.test") = false ∧
   (∀ ip, ip_parse (default (lit "api.corp.test") (unscoped_ip_literal (lit "api.corp.test"))) = Some ip → ¬ non_public ip) ∧
   (ip_parse (lit "api.corp.test") = None → ∃ addrs, sample_lookup (lit "api.corp.test") 443 = LookupOk addrs ∧
      Forall (λ a, is_non_public_ip (addr_ip a) = false) addrs)).
Proof.
  split; [by vm_compute|]. apply (no_local_access _ _ _ _ (sample_ok None)); by vm_compute.
Defined.

Lemma sample_matches_db : matches_host (lit "DB.corp.test") (lit "db.corp.test").
Proof. left. eexists (lit "db.corp.test"), _. split; [by left|]. split; by vm_compute. Qed.

Example managed_denials_hold_witness :
  matches_host (lit "DB.corp.test") (lit "db.corp.test") ∧
  decide_host (sample_state None) (lit "db.corp.test") 5432 sample_lookup = Blocked Denied.
Proof.
  split; [exact sample_matches_db|].
  apply (managed_denials_hold _ [lit "DB.corp.test"] (lit "DB.corp.test") _ _ _ (sample_ok None)).
  - by vm_compute.
  - by left.
  - exact sample_matches_db.
Defined.

Lemma sample_canonical e :
  e ∈ [lit "**.corp.test"; lit "localhost"] ++ allowed_list (config (sample_state None)) →
  ∃ p, e = render_pattern p ∧ canonical p.
Proof.
  intros [->|[->|[->|[->|[]%not_elem_of_nil]%elem_of_cons]%elem_of_cons]%elem_of_cons]%elem_of_cons.
  1,3: by exists (ApexAndSubdomains (lit "corp.test")); split; [|decide_now].
  all: by exists (Exact (lit "localhost")); split; [|decide_now].
Qed.

Example managed_allowlist_holds_witness :
  (∃ e, e ∈ [lit "**.corp.test"; lit "localhost"] ∧ matches_host e (lit "api.corp.test")) ∧
  ∃ p h, render_pattern p ∈ [lit "**.corp.test"; lit "localhost"] ∧ pattern_hosts p (to_ascii_lowercase h) ∧
    (h = lit "api.corp.test" ∨ unscoped_ip_literal (lit "api.corp.test") = Some h).
Proof.
  split.
  - apply (managed_allowlist_holds (sample_state (Some false)) _ (lit "api.corp.test") 443 sample_lookup
      (sample_ok (Some false))); by vm_compute.
  - apply (managed_allowlist_holds (sample_state None) _ (lit "api.corp.test") 443 sample_lookup (sample_ok None)).
    + by vm_compute.
    + by vm_compute.
    + by vm_compute.
    + exact sample_canonical.
Defined.

Definition sample_request (host : str) : NetworkPolicyRequest := {|
  request_protocol := ProtoHttp; request_host := host; request_port := 80; request_environment_id := None;
  request_client_addr := None; request_method := Some (lit "GET"); request_command := None;
  request_exec_policy_hint := None; request_execution_id := None;
|}.

(** The decider allows everything. *)
Example decider_overrides_only_misses_witness :
  ∃ ev ev',
    evaluate_host_policy None None (Some (λ _, DecisionAllow)) (sample_request (lit "other.test")) sample_lookup (Ok None)
      sample_shared = (Ok (DecisionAllow, ev), sample_shared) ∧ audit_override ev = true ∧
    evaluate_host_policy None None (Some (λ _, DecisionAllow)) (sample_request (lit "db.corp.test")) sample_lookup (Ok None)
      sample_shared = (Ok (DecisionDeny (lit "denied") BaselinePolicy PolicyDeny, ev'), sample_shared).
Proof.
  eexists _, _.
  assert (E : evaluate_host_policy None None (Some (λ _, DecisionAllow)) (sample_request (lit "other.test")) sample_lookup
    (Ok None) sample_shared = (Ok (DecisionAllow, _), sample_shared)) by (vm_compute; reflexivity).
  split; [exact E|]. split; [|vm_compute; reflexivity].
  destruct (decider_overrides_only_misses _ _ _ _ _ _ _ _ _ _ E) as (b & Hb & _ & Ho & _).
  apply Ho. split; [done|]. vm_compute in Hb. congruence.
Defined.

(** A list with one entry that names a port. *)
Definition port_constraints : NetworkProxyConstraints := {|
  max_enabled := None; max_mode := None; max_allow_upstream_proxy := None; max_allow_non_loopback_proxy := None;
  max_allow_all_unix_sockets := None; managed_allowed_domains := Some [lit "corp.test:8443"];
  allowlist_expansion_enabled := None; managed_denied_domains := None; denylist_expansion_enabled := None;
  managed_unix_sockets := None; max_allow_local_binding := None;
|}.

Example port_entry_escapes_witness :
  validate_policy_against_constraints (set_allowed_domains default_config [lit "evil.test:443"]) port_constraints = Ok () ∧
  decide_host (built_or_empty (set_allowed_domains default_config [lit "evil.test:443"]) port_constraints)
    (lit "evil.test") 443 sample_lookup = Allowed.
Proof.
  split; [by vm_compute|].
  apply (port_entry_escapes default_config port_constraints (lit "evil.test")).
  - intros x Hx _. unfold url_host_parse, sample_url_hosts. by rewrite Hx.
  - done.
  - decide_now.
  - done.
  - done.
  - done.
  - apply validate_satisfies. by vm_compute.
  - by vm_compute.
  - intros e He. by apply not_elem_of_nil in He.
  - apply not_elem_of_nil.
  - right. right. split; by vm_compute.
Defined.

End sample.
