(* ===== verification/NetConnect.v ===== *)
(** * Connections to targets

    [network-proxy/src/connect_policy.rs]: before the proxy opens a connection
    to an address a name was resolved to, it checks the address again, so that a
    name that resolves differently at that moment gives no access to the local
    network.  How the connector writes a target as a string is an argument. *)

From stdpp Require Import gmap list.
From S2P Require Import Prelude RustStr RustOrd IpAddr NetPolicy NetGlobs NetConfig NetConfigFacts.
From S2P Require Import NetConfig MitmHook NetState NetRuntime NetSample NetRuntimeFacts.

(** [rama_net::address::Host] and [HostWithPort]. *)
Inductive TargetHost := TargetName (name : str) | TargetAddress (ip : IpAddr).
Record HostWithPort := { target_host : TargetHost; target_port : N }.

Definition is_localhost_name (name : str) : bool :=
  eq_ignore_ascii_case (trim_end_matches c_dot name) (lit "localhost").

Lemma is_localhost_name_iff name :
  is_localhost_name name = true ↔ to_ascii_lowercase (trim_end_matches c_dot name) = lit "localhost".
Proof. unfold is_localhost_name, eq_ignore_ascii_case. by rewrite bool_decide_eq_true. Qed.

Definition is_non_public_target (host : TargetHost) : bool :=
  match host with
  | TargetAddress ip => is_non_public_ip ip
  | TargetName name => is_localhost_name name
  end.

Definition target_matches_non_public_addr (host : TargetHost) (addr : IpAddr) : bool :=
  match host with
  | TargetAddress ip => bool_decide (ip = addr)
  | TargetName name => is_localhost_name name && ip_is_loopback addr
  end.

Inductive ConnectError :=
  | TargetRejected
  | TargetCheckFailed (e : RuntimeError)
  | MissingTarget.

Section connect.
Context `{JsonData, PathOps, HttpOps, GlobOps, MitmOps, UH : UrlHostOps} {SO : SecretOps} {BO : BrokerOps}.
Context (target_string : TargetHost → str).
Abbreviation MaybeReload := (res unit (option ConfigState)).

(** The state may be reloaded before each of the two questions. *)
Definition allows_non_public_target (self : HostWithPort) (addr : SocketAddr) (lookup : str → N → LookupResult)
    (r1 r2 : MaybeReload) (sh : Shared) : res RuntimeError bool * Shared :=
  match state_allow_local_binding r1 sh with
  | (Ok true, sh) => (Ok true, sh)
  | (Ok false, sh) =>
      if negb (target_matches_non_public_addr (target_host self) (addr_ip addr)) then (Ok false, sh)
      else
        let '(d, sh) := host_blocked (target_string (target_host self)) (target_port self) lookup r2 sh in
        (let? decision := d in Ok match decision with Allowed => true | Blocked _ => false end, sh)
  | (Err e, sh) => (Err e, sh)
  | (Panic, sh) => (Panic, sh)
  end.

(** [TargetCheckedStreamConnector::connect] up to the system call. *)
Definition connect_check (self : HostWithPort) (addr : SocketAddr) (lookup : str → N → LookupResult)
    (r1 r2 : MaybeReload) (sh : Shared) : res ConnectError unit * Shared :=
  if is_non_public_ip (addr_ip addr) then
    let '(allowed, sh) := allows_non_public_target self addr lookup r1 r2 sh in
    (let? allowed := map_err TargetCheckFailed allowed in if allowed then Ok () else Err TargetRejected, sh)
  else (Ok (), sh).

(** [TargetCheckedTcpConnector::serve]: a connection through another proxy is not checked; otherwise
    the connector is given the target to check addresses against. *)
Definition connector_for (through_proxy : bool) (target : option HostWithPort) : res ConnectError (option HostWithPort) :=
  if through_proxy then Ok None
  else match target with Some t => Ok (Some t) | None => Err MissingTarget end.

(** ** No access by another name *)

Lemma localhost_plain name : is_localhost_name name = true → plain (to_ascii_lowercase name) = true.
Proof.
  rewrite is_localhost_name_iff, <- trim_end_matches_lower by done.
  destruct (drop_while_end_prefix (N.eqb c_dot) (to_ascii_lowercase name)) as (dots & Hs & Hd).
  unfold trim_end_matches. intros Hl. rewrite Hl in Hs. rewrite Hs. unfold plain. rewrite forallb_app.
  apply andb_true_iff. split; [done|]. rewrite forallb_forall in *. intros c Hc. apply Hd, N.eqb_eq in Hc. by subst c.
Qed.

Lemma normalize_localhost name : is_localhost_name name = true → normalize_host name = lit "localhost".
Proof.
  intros Hl. pose proof (localhost_plain _ Hl) as Hp. rewrite <- normalize_host_lower. unfold normalize_host.
  rewrite plain_tight, (starts_with_absent c_lbracket []), count_char_absent by (done || by apply plain_not_in).
  rewrite bool_decide_eq_false_2 by done. unfold normalize_dns_host_or_ip_literal.
  rewrite to_ascii_lowercase_idemp. apply is_localhost_name_iff in Hl.
  rewrite <- trim_end_matches_lower in Hl by done. by rewrite Hl.
Qed.

(** A name is written as it is, and an address so that it is read again as the same address. *)
Definition faithful_string (host : TargetHost) : Prop :=
  match host with
  | TargetName name => target_string host = name
  | TargetAddress ip =>
      ∃ h, host_parse (target_string host) = Ok h ∧ ip_parse (default h (unscoped_ip_literal h)) = Some ip
  end.

(** A target that stands for a local address is a local name to the policy. *)
Lemma matching_target_local host addr h :
  faithful_string host → is_non_public_ip addr = true → target_matches_non_public_addr host addr = true →
  host_parse (target_string host) = Ok h → local_literal h = true.
Proof.
  intros Hs Hnp Hm Hh. destruct host as [name|ip]; cbn in Hs, Hm.
  - apply andb_true_iff in Hm as [Hl _]. rewrite Hs in Hh. unfold host_parse in Hh.
    rewrite normalize_localhost in Hh by done. injection Hh as <-. done.
  - apply bool_decide_eq_true in Hm as ->. destruct Hs as (h' & Hh' & Hp).
    assert (h' = h) as -> by congruence. unfold local_literal. cbv zeta. rewrite Hp, Hnp. by destruct (is_loopback_host h).
Qed.

Context `{!LawfulGlobs _}.

(** No connection reaches a local address by way of a name: whatever the name resolved to before, a
    connection to a non-public address is opened only when local destinations are allowed, or when the
    target is that address or [localhost] itself and an entry lists it explicitly. *)
Theorem no_rebinding target addr lookup r1 r2 sh sh' :
  faithful_string (target_host target) → connect_check target addr lookup r1 r2 sh = (Ok (), sh') → is_non_public_ip (addr_ip addr) = true →
  ∃ sh1, reload_if_needed r1 sh = (Ok (), sh1) ∧
    (allow_local_binding (config (state sh1)) = true ∨
     target_matches_non_public_addr (target_host target) (addr_ip addr) = true ∧
     ∃ h, host_parse (target_string (target_host target)) = Ok h ∧
       decide_host (state sh') h (target_port target) lookup = Allowed ∧
       (state_ok (state sh') →
        allow_local_binding (config (state sh')) = true ∨
        ∃ e, e ∈ allowed_list (config (state sh')) ∧ explicit_entry e h)).
Proof.
  intros Hs Hc Hnp. unfold connect_check in Hc. rewrite Hnp in Hc.
  unfold allows_non_public_target, state_allow_local_binding, reading, after_reload in Hc.
  destruct (reload_if_needed r1 sh) as [[[]|e|] sh1]; [|done..]. exists sh1. split; [done|].
  destruct (allow_local_binding (config (state sh1))) eqn:El; [by left|]. right.
  destruct (target_matches_non_public_addr (target_host target) (addr_ip addr)) eqn:Hm; [|done]. split; [done|].
  cbn [negb] in Hc. unfold host_blocked, after_reload in Hc.
  destruct (reload_if_needed r2 sh1) as [[[]|e|] sh2]; [|done..].
  destruct (host_parse (target_string (target_host target))) as [h|e|] eqn:Hh; [|done..]. exists h. split; [done|].
  destruct (decide_host (state sh2) h (target_port target) lookup) eqn:Hd; [|done]. injection Hc as <-.
  split; [done|]. intros Hok. pose proof (matching_target_local _ _ _ Hs Hnp Hm Hh) as Hloc.
  apply decide_host_allowed in Hd as (_ & _ & Hp); [|done].
  destruct Hp as [?|[[_ He]|[Hn _]]]; [by left|by right|congruence].
Qed.

End connect.

Section sample.
Import Sample.

Definition sample_string (host : TargetHost) : str :=
  match host with TargetName name => name | TargetAddress _ => lit "127.0.0.1" end.

Definition localhost_target : HostWithPort := {| target_host := TargetName (lit "LOCALHOST."); target_port := 3000 |}.
Definition intranet_target : HostWithPort := {| target_host := TargetName (lit "api.corp.test"); target_port := 443 |}.
Definition loopback_addr : SocketAddr := Addr (V4 LOCALHOST_V4) 3000.

(** The sample lists [localhost]; an allowed name that now resolves to the loopback address is rejected. *)
Example no_rebinding_witness :
  (connect_check sample_string intranet_target loopback_addr sample_lookup (Ok None) (Ok None) sample_shared).1
    = Err TargetRejected ∧
  (connect_check sample_string localhost_target loopback_addr sample_lookup (Ok None) (Ok None) sample_shared)
    = (Ok (), sample_shared) ∧
  ∃ e h, e ∈ allowed_list (config (sample_state None)) ∧ explicit_entry e h.
Proof.
  split; [vm_compute; reflexivity|].
  assert (Hc : connect_check sample_string localhost_target loopback_addr sample_lookup (Ok None) (Ok None) sample_shared
    = (Ok (), sample_shared)) by (vm_compute; reflexivity).
  split; [exact Hc|].
  assert (Hl : allow_local_binding (config (sample_state None)) = false) by (vm_compute; reflexivity).
  destruct (no_rebinding sample_string localhost_target loopback_addr sample_lookup (Ok None) (Ok None) sample_shared
    sample_shared eq_refl Hc eq_refl) as (sh1 & Hr & Hor).
  assert (sh1 = sample_shared) as -> by (cbn in Hr; congruence).
  destruct Hor as [Hb|(_ & h & _ & _ & Hok)]; [change (state sample_shared) with (sample_state None) in Hb; congruence|].
  destruct (Hok (sample_ok None)) as [Hb|(e & He & Hx)];
    [change (state sample_shared) with (sample_state None) in Hb; congruence|].
  exists e, h. split; [exact He|exact Hx].
Defined.

End sample.
