(* ===== verification/NetRuns.v ===== *)
(** * Interleavings of the proxy's operations

    Tasks that change the policy read the shared state, compute without the lock
    and commit under it when what they read is still there; meanwhile others
    reload, replace the state, record or drain blocked requests.  The step
    relation has one rule per section under the lock of [network-proxy/src/runtime.rs].
    Every reachable state satisfies its constraints, and an update that commits
    takes effect on the configuration it finds. *)

From stdpp Require Import gmap list.
From S2P Require Import Prelude RustStr RustOrd IpAddr NetPolicy NetGlobs NetConfig NetConfigFacts.
From S2P Require Import NetConfig MitmHook NetState NetRuntime NetSample.

Section runs.
Context `{JsonData, PathOps, HttpOps, GlobOps, MitmOps, UH : UrlHostOps} {SO : SecretOps} {BO : BrokerOps}.
Implicit Types (sh : Shared) (s : ConfigState).

(** A task in one of the two loops: before it reads, or before it commits. *)
Inductive task :=
  | UpdateStart (k : DomainListKind) (host : str)
  | UpdateReady (k : DomainListKind) (host : str) (u : DomainUpdate)
  | ModeStart (m : NetworkMode)
  | ModeReady (m : NetworkMode) (seen : NetworkProxyConstraints).

Record sys := Sys { shared : Shared; tasks : list task }.

(** States from outside, by [maybe_reload], [reload_now] or [replace_config_state], are built from
    configurations within their constraints; [NetSpec] shows it of the callers. *)
Inductive step : sys → sys → Prop :=
  | step_reload s' sh ts : state_ok s' → step (Sys sh ts) (Sys (reload_if_needed (Ok (Some s')) sh).2 ts)
  | step_force_reload s' sh ts : state_ok s' → step (Sys sh ts) (Sys (force_reload (Ok s') sh).2 ts)
  | step_replace s' sh ts : state_ok s' → step (Sys sh ts) (Sys (replace_config_state s' (Ok None) sh).2 ts)
  | step_record id entry sh ts : step (Sys sh ts) (Sys (record_blocked id entry (Ok None) sh).2 ts)
  | step_drain sh ts : step (Sys sh ts) (Sys (drain_blocked (Ok None) sh).2 ts)
  | step_update_start k input host sh ts :
      update_host input = Ok host → step (Sys sh ts) (Sys sh (UpdateStart k host :: ts))
  | step_update_read k host u sh l r :
      update_read k host (Ok None) sh = (Ok (Some u), sh) →
      step (Sys sh (l ++ UpdateStart k host :: r)) (Sys sh (l ++ UpdateReady k host u :: r))
  | step_update_stop k host o sh l r :
      update_read k host (Ok None) sh = (o, sh) → (∀ u, o ≠ Ok (Some u)) →
      step (Sys sh (l ++ UpdateStart k host :: r)) (Sys sh (l ++ r))
  | step_update_commit k host u sh sh' l r :
      update_commit u sh = Some sh' → step (Sys sh (l ++ UpdateReady k host u :: r)) (Sys sh' (l ++ r))
  | step_update_retry k host u sh l r :
      update_commit u sh = None →
      step (Sys sh (l ++ UpdateReady k host u :: r)) (Sys sh (l ++ UpdateStart k host :: r))
  | step_mode_start m sh ts : step (Sys sh ts) (Sys sh (ModeStart m :: ts))
  | step_mode_read m seen sh l r :
      set_mode_read m (Ok None) sh = (Ok seen, sh) →
      step (Sys sh (l ++ ModeStart m :: r)) (Sys sh (l ++ ModeReady m seen :: r))
  | step_mode_stop m e sh l r :
      set_mode_read m (Ok None) sh = (Err e, sh) → step (Sys sh (l ++ ModeStart m :: r)) (Sys sh (l ++ r))
  | step_mode_commit m seen sh sh' l r :
      set_mode_commit m seen sh = Some sh' → step (Sys sh (l ++ ModeReady m seen :: r)) (Sys sh' (l ++ r))
  | step_mode_retry m seen sh l r :
      set_mode_commit m seen sh = None →
      step (Sys sh (l ++ ModeReady m seen :: r)) (Sys sh (l ++ ModeStart m :: r)).

(** A proxy starts from a built state without tasks. *)
Inductive reachable : sys → Prop :=
  | reachable_start s b : state_ok s → blocked s = [] → reachable (Sys {| state := s; broker := b |} [])
  | reachable_step x y : reachable x → step x y → reachable y.

(** ** The invariant *)

(** The update was computed from the configuration it remembers. *)
Definition update_ok (k : DomainListKind) (host : str) (u : DomainUpdate) : Prop :=
  state_ok (new_state u) ∧ length (blocked (new_state u)) ≤ MAX_BLOCKED_EVENTS ∧
  constraints (new_state u) = seen_constraints u ∧
  config (new_state u) =
    stored_config (upsert_domain_permission (previous_cfg u) host (list_permission k) normalize_host) (seen_constraints u).

Definition task_ok (t : task) : Prop :=
  match t with
  | UpdateReady k host u => update_ok k host u
  | ModeReady m seen => ∀ max, max_mode seen = Some max → network_mode_rank m ≤ network_mode_rank max
  | _ => True
  end.

Definition shared_ok sh : Prop := state_ok (state sh) ∧ length (blocked (state sh)) ≤ MAX_BLOCKED_EVENTS.
Definition sys_ok (x : sys) : Prop := shared_ok (shared x) ∧ Forall task_ok (tasks x).

Lemma state_ok_with_blocked b t s : state_ok s → state_ok (with_blocked b t s).
Proof. intros []. by constructor. Qed.

Lemma satisfies_with_mode m (cfg : NetworkProxyConfig) c :
  satisfies cfg c → (∀ max, max_mode c = Some max → network_mode_rank m ≤ network_mode_rank max) →
  satisfies (with_mode m cfg) c.
Proof. intros [] Hm. destruct cfg. by constructor. Qed.

Lemma state_ok_with_mode m s :
  state_ok s → (∀ max, max_mode (constraints s) = Some max → network_mode_rank m ≤ network_mode_rank max) →
  state_ok (with_config (with_mode m (config s)) s).
Proof.
  intros [Hs Hd Ha] Hm. constructor; simpl; [by apply satisfies_with_mode| |].
  - destruct (config s). apply Hd.
  - destruct (config s). apply Ha.
Qed.

Lemma trim_blocked_length l : length (trim_blocked l) ≤ MAX_BLOCKED_EVENTS.
Proof. unfold trim_blocked. rewrite length_drop. lia. Qed.

Lemma prepare_update_ok k host s u :
  length (blocked s) ≤ MAX_BLOCKED_EVENTS → prepare_update k host s = Ok (Some u) →
  update_ok k host u ∧ previous_cfg u = config s ∧ seen_constraints u = constraints s ∧
  blocked (new_state u) = blocked s ∧ blocked_total (new_state u) = blocked_total s.
Proof.
  intros Hl. unfold prepare_update. cbv zeta. destruct (_ && _); [done|]. intros Hp.
  apply res_bind_Ok in Hp as ([] & Hv%map_err_Ok & Hp). apply res_bind_Ok in Hp as (built & Hb%map_err_Ok & [= <-]).
  apply validate_satisfies in Hv. pose proof (build_satisfies _ _ _ Hv Hb) as Hok.
  apply build_config_state_Ok in Hb as (Hc & Hcs & _). simpl. split; [|done]. unfold update_ok. simpl.
  split; [by apply state_ok_with_blocked|]. done.
Qed.

Lemma install_ok s' sh : state_ok s' → shared_ok sh → shared_ok (install s' sh).
Proof. intros Hs [_ Hl]. split; [by apply state_ok_with_blocked|done]. Qed.

Lemma Forall_task l t r : Forall task_ok (l ++ t :: r) ↔ task_ok t ∧ Forall task_ok (l ++ r).
Proof. rewrite !Forall_app, Forall_cons. tauto. Qed.

Lemma set_mode_read_ok m sh seen sh' :
  set_mode_read m (Ok None) sh = (Ok seen, sh') →
  seen = constraints (state sh) ∧ ∀ max, max_mode seen = Some max → network_mode_rank m ≤ network_mode_rank max.
Proof.
  unfold set_mode_read, after_reload. simpl. intros [= Hv <-].
  apply res_bind_Ok in Hv as ([] & Hv%map_err_Ok%validate_satisfies & [= <-]). split; [done|].
  intros max Hm. pose proof (sat_mode _ _ Hv max Hm) as Hr. by destruct (config (state sh)).
Qed.

Lemma step_ok x y : sys_ok x → step x y → sys_ok y.
Proof.
  intros [Hsh Hts] Hstep. pose proof Hsh as [Hok Hlen].
  destruct Hstep; simpl in *; repeat rewrite Forall_task in *; unfold sys_ok; simpl.
  - split; [by apply install_ok|done].
  - split; [|done]. split; [by apply state_ok_with_blocked|done].
  - split; [by apply install_ok|done].
  - split; [|done]. split; [by apply state_ok_with_blocked|apply trim_blocked_length].
  - split; [|done]. split; [by apply state_ok_with_blocked|simpl; lia].
  - split; [done|]. by constructor.
  - split; [done|]. rewrite Forall_task. split; [|tauto]. injection H4 as Hp.
    by eapply prepare_update_ok.
  - tauto.
  - destruct Hts as [Hu Hts]. split; [|done]. unfold update_commit in *. case_match; [done|].
    injection H4 as <-. destruct Hu as (? & ? & _). by split.
  - split; [done|]. rewrite Forall_task. simpl. tauto.
  - split; [done|]. by constructor.
  - split; [done|]. rewrite Forall_task. split; [|tauto]. by apply set_mode_read_ok in H4 as [_ ?].
  - tauto.
  - destruct Hts as [Hu Hts]. split; [|done]. unfold set_mode_commit in *. case_bool_decide as Hc; [done|].
    injection H4 as <-. subst seen. split; [by apply state_ok_with_mode|done].
  - split; [done|]. rewrite Forall_task. simpl. tauto.
Qed.

Lemma reachable_sys_ok x : reachable x → sys_ok x.
Proof.
  induction 1 as [s b Hs Hb|x y _ IH Hstep]; [|by eapply step_ok].
  split; [|constructor]. split; [done|]. simpl. rewrite Hb. simpl. lia.
Qed.

(** C28. However the operations interleave, the configuration in force satisfies the managed constraints,
    its two sets are the ones compiled from its lists, and the buffer of blocked requests is bounded, as
    long as the states that are installed from outside, by a reload or a replacement, are in order. *)
Theorem reachable_within_constraints x :
  reachable x →
  satisfies (config (state (shared x))) (constraints (state (shared x))) ∧
  compile_denylist_globset (denied_list (config (state (shared x)))) = Ok (deny_set (state (shared x))) ∧
  compile_allowlist_globset (allowed_list (config (state (shared x)))) = Ok (allow_set (state (shared x))) ∧
  length (blocked (state (shared x))) ≤ MAX_BLOCKED_EVENTS.
Proof. intros [[[] ?] _]%reachable_sys_ok. done. Qed.

(** ** Updates take effect *)

(** The listed host in the configuration that is stored. *)
Lemma stored_upsert_listed k cfg c h :
  h ∈ list_entries k (stored_config (upsert_domain_permission cfg h (list_permission k) normalize_host) c) ∧
  h ∉ opposite_entries k (stored_config (upsert_domain_permission cfg h (list_permission k) normalize_host) c).
Proof.
  set (up := upsert_domain_permission _ _ _ _).
  assert (Hup : ∀ q, Entry h q ∈ entries_of up ↔ q = list_permission k).
  { intros q. unfold up. rewrite elem_of_upsert_permission. naive_solver. }
  assert (Hd : h ∈ denied_list (stored_config up c) ↔ k = ListDeny).
  { rewrite stored_denied, elem_of_denied, Hup. by destruct k. }
  assert (Ha : h ∈ allowed_list (stored_config up c) ↔ k = ListAllow ∨ h ∈ allowed_list (stored_config up c) ∧ k = ListDeny).
  { split; [destruct k; auto|]. intros [->|[? _]]; [|done].
    assert (Hal : h ∈ allowed_list up).
    { apply elem_of_allowed. rewrite !Hup. done. }
    assert (Hne : allowed_domains (broker_off up c) ≠ None).
    { intros E%allowed_none_iff. destruct (broker_off_fields up c) as (F & _).
      assert (allowed_list (broker_off up c) = allowed_list up) as E'.
      { unfold allowed_list, allowed_domains, domain_entries. by rewrite F. }
      rewrite E' in E. rewrite E in Hal. by apply not_elem_of_nil in Hal. }
    destruct (broker_off_fields up c) as (F & _).
    assert (Hdom : domains (stored_config up c) = domains up).
    { unfold stored_config, creates_allowlist. rewrite (bool_decide_eq_false_2 (allowed_domains _ = None)) by done.
      rewrite andb_false_r. simpl. rewrite <- F. destruct (creates_proxy _); [|done]. by destruct (broker_off up c). }
    unfold allowed_list, allowed_domains, domain_entries in *. by rewrite Hdom. }
  destruct k; simpl.
  - split; [apply Ha; by left|]. intros Hin. by apply Hd in Hin.
  - split; [by apply Hd|]. intros Hin. apply allowed_denied_disjoint in Hin. apply Hin. by apply Hd.
Qed.

(** An update that commits is atomic: it applies to the configuration in force at that moment, not to
    an older one it read, under unchanged constraints, and afterwards the host is in its list and not in
    the other. *)
Theorem update_commit_atomic x k host u l r sh' :
  reachable x → tasks x = l ++ UpdateReady k host u :: r → update_commit u (shared x) = Some sh' →
  config (state sh') =
    stored_config (upsert_domain_permission (config (state (shared x))) host (list_permission k) normalize_host)
                  (constraints (state (shared x))) ∧
  constraints (state sh') = constraints (state (shared x)) ∧
  host ∈ list_entries k (config (state sh')) ∧ host ∉ opposite_entries k (config (state sh')).
Proof.
  intros [_ Hts]%reachable_sys_ok Ht Hc. rewrite Ht in Hts. apply Forall_task in Hts as [Hu _].
  unfold update_commit in Hc. destruct (bool_decide _ || bool_decide _) eqn:E; [done|]. injection Hc as <-.
  apply orb_false_iff in E as [E1%bool_decide_eq_false%dec_stable E2%bool_decide_eq_false%dec_stable].
  destruct Hu as (_ & _ & Hcs & Hcfg). simpl. rewrite Hcs, Hcfg, <- E1, <- E2.
  split; [done|]. split; [done|]. apply stored_upsert_listed.
Qed.

(** The optimistic loop cannot be stuck: a task about to read stops, or can commit in its next step
    as long as nobody changes the configuration in between. *)
Theorem update_progress k host sh l r :
  length (blocked (state sh)) ≤ MAX_BLOCKED_EVENTS →
  step (Sys sh (l ++ UpdateStart k host :: r)) (Sys sh (l ++ r)) ∨
  ∃ u, step (Sys sh (l ++ UpdateStart k host :: r)) (Sys sh (l ++ UpdateReady k host u :: r)) ∧
    ∀ sh1 l1 r1, config (state sh1) = config (state sh) → constraints (state sh1) = constraints (state sh) →
      ∃ sh', step (Sys sh1 (l1 ++ UpdateReady k host u :: r1)) (Sys sh' (l1 ++ r1)).
Proof.
  intros Hlen. destruct (prepare_update k host (state sh)) as [[u|]|e|] eqn:E.
  - right. exists u. split; [apply step_update_read; unfold update_read, after_reload; simpl; by rewrite E|].
    apply prepare_update_ok in E as (_ & Hp & Hs & _); [|done]. intros sh1 l1 r1 Hc1 Hcs1.
    exists {| state := new_state u; broker := broker sh1 |}. apply step_update_commit. unfold update_commit.
    rewrite Hp, Hs, Hc1, Hcs1. by rewrite !bool_decide_eq_false_2 by tauto.
  - left. eapply step_update_stop; [unfold update_read, after_reload; simpl; by rewrite E|done].
  - left. eapply step_update_stop; [unfold update_read, after_reload; simpl; by rewrite E|done].
  - left. eapply step_update_stop; [unfold update_read, after_reload; simpl; by rewrite E|done].
Qed.

(** ** The buffer of blocked requests *)

(** A request that is recorded while an update is between its read and its commit is lost, and the
    total goes back: the commit installs the buffer and the total the update had read. *)
Theorem recorded_request_lost k input host sh u id entry :
  reachable (Sys sh []) → update_host input = Ok host →
  prepare_update k host (state sh) = Ok (Some u) →
  let recorded := (record_blocked id entry (Ok None) sh).2 in
  reachable (Sys recorded [UpdateReady k host u]) ∧
  last (blocked (state recorded)) = Some (with_execution_id id entry) ∧
  ∃ after, step (Sys recorded [UpdateReady k host u]) (Sys after []) ∧
    blocked (state after) = blocked (state sh) ∧ blocked_total (state after) = blocked_total (state sh).
Proof.
  intros Hr Hin Hp recorded. pose proof (reachable_sys_ok _ Hr) as [[_ Hlen] _]. simpl in Hlen.
  pose proof Hp as (_ & Hpc & Hsc & Hbl & Ht)%prepare_update_ok; [|done]. split; [|split].
  - eapply reachable_step; [|apply step_record]. eapply reachable_step.
    + eapply reachable_step; [exact Hr|]. by apply (step_update_start k input).
    + apply (step_update_read k host u sh [] []). unfold update_read, after_reload. simpl. by rewrite Hp.
  - simpl. unfold trim_blocked. rewrite length_app. simpl.
    destruct (decide (length (blocked (state sh)) + 1 ≤ MAX_BLOCKED_EVENTS)).
    + replace (length (blocked (state sh)) + 1 - MAX_BLOCKED_EVENTS) with 0 by lia. apply last_snoc.
    + rewrite drop_app_le by (unfold MAX_BLOCKED_EVENTS in *; lia). apply last_snoc.
  - exists {| state := new_state u; broker := broker sh |}. split; [|simpl; by rewrite Hbl].
    apply (step_update_commit k host u recorded _ [] []). unfold update_commit. simpl.
    rewrite Hpc, Hsc. by rewrite !bool_decide_eq_false_2 by tauto.
Qed.

(** A forced reload keeps the buffer but takes the total of the new state, which is zero for a state
    that was just built, while a reload on demand keeps both. *)
Theorem force_reload_resets_total cfg c s' sh :
  build_config_state cfg c = Ok s' →
  blocked (state (force_reload (Ok s') sh).2) = blocked (state sh) ∧
  blocked_total (state (force_reload (Ok s') sh).2) = 0%N ∧
  blocked_total (state (reload_if_needed (Ok (Some s')) sh).2) = blocked_total (state sh).
Proof. intros (_ & _ & _ & Ht & _)%build_config_state_Ok. simpl. by rewrite Ht. Qed.

End runs.

(** ** On the sample *)

Section sample.
Import Sample.

Lemma sample_nothing_blocked : blocked (sample_state None) = [] ∧ blocked_total (sample_state None) = 0%N.
Proof. pose proof (sample_built None) as (_ & _ & ? & ? & _)%build_config_state_Ok. split; assumption. Qed.

Lemma sample_reachable : reachable (Sys sample_shared []).
Proof.
  apply (reachable_start (BO := sample_broker) (sample_state None) 0); [exact (sample_ok None)|].
  apply sample_nothing_blocked.
Qed.

Definition sample_host : str := lit "api.corp.test".
Definition sample_update : DomainUpdate :=
  match prepare_update ListAllow sample_host (sample_state None) with
  | Ok (Some u) => u
  | _ => {| previous_cfg := default_config; seen_constraints := default_constraints; new_state := sample_state None |}
  end.

Lemma update_prepared : prepare_update ListAllow sample_host (state sample_shared) = Ok (Some sample_update).
Proof. vm_compute. reflexivity. Qed.

Lemma sample_update_reachable : reachable (Sys sample_shared [UpdateReady ListAllow sample_host sample_update]).
Proof.
  eapply reachable_step; [eapply reachable_step; [apply sample_reachable|]|].
  - by apply (step_update_start ListAllow (lit "API.corp.test:443") sample_host).
  - apply (step_update_read ListAllow sample_host sample_update sample_shared [] []).
    unfold update_read, after_reload. cbn [reload_if_needed]. by rewrite update_prepared.
Qed.

Definition sample_committed : Shared := {| state := new_state sample_update; broker := 0 |}.

Lemma sample_commits : update_commit sample_update sample_shared = Some sample_committed.
Proof. by vm_compute. Qed.

Example reachable_within_constraints_witness :
  allowed_domains (config (state sample_committed)) = Some [lit "**.corp.test"; lit "localhost"; lit "api.corp.test"] ∧
  satisfies (config (state sample_committed)) (constraints (state sample_committed)).
Proof.
  split; [by vm_compute|]. apply (reachable_within_constraints (Sys sample_committed [])).
  eapply reachable_step; [apply sample_update_reachable|].
  apply (step_update_commit ListAllow sample_host sample_update sample_shared sample_committed [] []), sample_commits.
Defined.

Example update_commit_atomic_witness :
  update_commit sample_update sample_shared = Some sample_committed ∧
  sample_host ∈ list_entries ListAllow (config (state sample_committed)) ∧
  sample_host ∉ opposite_entries ListAllow (config (state sample_committed)).
Proof.
  split; [exact sample_commits|].
  apply (update_commit_atomic _ ListAllow sample_host sample_update [] [] _ sample_update_reachable eq_refl sample_commits).
Defined.

Example update_progress_witness :
  length (blocked (state sample_shared)) = 0 ∧
  (step (Sys sample_shared [UpdateStart ListAllow sample_host]) (Sys sample_shared []) ∨
   ∃ u, step (Sys sample_shared [UpdateStart ListAllow sample_host])
             (Sys sample_shared [UpdateReady ListAllow sample_host u])).
Proof.
  split; [by vm_compute|].
  destruct (update_progress ListAllow sample_host sample_shared [] []) as [?|(u & Hu & _)]; [vm_compute; lia|by left|].
  right. by exists u.
Defined.

Definition sample_blocked : BlockedRequest := {|
  blocked_host := lit "evil.test"; blocked_reason := REASON_NOT_ALLOWED; blocked_client := None; blocked_method := None;
  blocked_mode := None; blocked_protocol := lit "http"; blocked_execution_id := None; blocked_decision := None;
  blocked_source := None; blocked_port := Some 80%N; blocked_timestamp := 0;
|}.

Example recorded_request_lost_witness :
  let recorded := (record_blocked None sample_blocked (Ok None) sample_shared).2 in
  blocked_total (state recorded) = 1%N ∧
  ∃ after, step (Sys recorded [UpdateReady ListAllow sample_host sample_update]) (Sys after []) ∧
    blocked (state after) = [] ∧ blocked_total (state after) = 0%N.
Proof.
  split; [by vm_compute|].
  destruct (recorded_request_lost ListAllow (lit "API.corp.test:443") sample_host sample_shared sample_update None
    sample_blocked sample_reachable eq_refl update_prepared) as (_ & _ & after & Hs & Hb & Ht).
  exists after. split; [exact Hs|]. rewrite Hb, Ht. exact sample_nothing_blocked.
Defined.

Example force_reload_resets_total_witness :
  let recorded := (record_blocked None sample_blocked (Ok None) sample_shared).2 in
  length (blocked (state (force_reload (Ok (sample_state None)) recorded).2)) = 1 ∧
  blocked_total (state (force_reload (Ok (sample_state None)) recorded).2) = 0%N.
Proof.
  split; [by vm_compute|].
  apply (force_reload_resets_total _ _ (sample_state None) (record_blocked None sample_blocked (Ok None) sample_shared).2
    (sample_built None)).
Defined.

End sample.
