(* ===== verification/NetSpec.v ===== *)
(** * Where proxy configurations come from

    [core/src/config/network_proxy_spec.rs] with the data of
    [config/src/config_requirements.rs]: the configuration of the user under the
    requirements of an administrator, with the saved network rules of the
    execution policy, and for an environment with a policy of its own
    ([network-proxy/src/environment_policy.rs], [remote_config.rs]). *)

From stdpp Require Import gmap list pretty.
From stdpp Require Import gmap list.
From S2P Require Import Prelude RustStr RustOrd ExecPolicy IpAddr NetPolicy NetConfig MitmHook NetState.
From S2P Require Import NetRuntime.
From S2P Require Import ExecPolicyFacts NetPolicy NetGlobs.
From S2P Require Import NetConfigFacts.
From S2P Require Import NetRuntimeFacts NetRuns NetSample.

(** ** Requirements *)

Inductive PermissionToml := TomlAllow | TomlDeny.
#[export] Instance permission_toml_eq_dec : EqDecision PermissionToml.
Proof. solve_decision. Defined.

(** [NetworkDomainPermissionsToml] and [NetworkUnixSocketPermissionsToml]: their [entries]. *)
Definition toml_entries (p : PermissionToml) (m : gmap str PermissionToml) : list str :=
  (filter (λ e, e.2 = p) (btree_iter m)).*1.
Definition some_nonempty (l : list str) : option (list str) := if bool_decide (l = []) then None else Some l.
Definition toml_allowed_domains (m : gmap str PermissionToml) : option (list str) := some_nonempty (toml_entries TomlAllow m).
Definition toml_denied_domains (m : gmap str PermissionToml) : option (list str) := some_nonempty (toml_entries TomlDeny m).
Definition toml_allow_unix_sockets (m : gmap str PermissionToml) : list str := toml_entries TomlAllow m.

Record NetworkHeaderInjectionToml := {
  injection_host : str;
  injection_methods : list str;
  injection_path_prefixes : list str;
  injection_headers : gmap str str;
}.

Record NetworkConstraints := {
  req_enabled : option bool;
  req_http_port : option N;
  req_socks_port : option N;
  req_allow_upstream_proxy : option bool;
  req_allow_non_loopback_proxy : option bool;
  req_allow_all_unix_sockets : option bool;
  req_domains : option (gmap str PermissionToml);
  req_managed_allowed_domains_only : option bool;
  req_unix_sockets : option (gmap str PermissionToml);
  req_allow_local_binding : option bool;
  req_header_injections : option (list NetworkHeaderInjectionToml);
}.

(** The variants of [PermissionProfile]; what they say about files is not read here. *)
Inductive PermissionProfile := ProfileManaged | ProfileDisabled | ProfileExternal.

Definition managed_sandbox_active (p : PermissionProfile) : bool :=
  match p with ProfileManaged => true | _ => false end.

Definition managed_allowed_domains_only (requirements : NetworkConstraints) : bool :=
  default false (req_managed_allowed_domains_only requirements).

Definition merge_domain_lists (managed user_entries : list str) : list str :=
  foldl (λ managed entry, if existsb (λ m, eq_ignore_ascii_case m entry) managed then managed else managed ++ [entry])
    managed user_entries.

Inductive SpecError :=
  | SpecConstraintsInvalid (e : NetworkProxyConstraintError)
  | SpecNeedsEnforcement
  | SpecControllerDisabled
  | SpecEnvironmentViolates (e : NetworkProxyConstraintError)
  | SpecNotBuilt (e : BuildError)
  | RemoteUnsupported.

(** ** Policies of environments *)

Record EnvironmentNetworkPolicy := {
  env_domains : option NetworkDomainPermissions;
  env_unix_sockets : option NetworkUnixSocketPermissions;
  env_allow_upstream_proxy : bool;
  env_allow_all_unix_sockets : bool;
  env_allow_local_binding : bool;
  env_managed_allowed_domains_only : bool;
}.

Definition any_denied (m : NetworkUnixSocketPermissions) : bool :=
  existsb (λ e, bool_decide (e.2 = SocketDeny)) (map_to_list m).

Section env.
Context `{JsonData}.
Implicit Types config : NetworkProxyConfig.

Definition environment_from_config config (managed_only : bool) : EnvironmentNetworkPolicy :=
  {| env_domains := domains config; env_unix_sockets := unix_sockets config;
     env_allow_upstream_proxy := allow_upstream_proxy config;
     env_allow_all_unix_sockets := dangerously_allow_all_unix_sockets config;
     env_allow_local_binding := allow_local_binding config;
     env_managed_allowed_domains_only := managed_only |}.

(** The sockets of [apply_to]: the permissions and the flag that allows all. *)
Definition effective_sockets (inherited_all : bool) (inherited : NetworkUnixSocketPermissions)
    (owner_all : bool) (owner : NetworkUnixSocketPermissions) : NetworkUnixSocketPermissions * bool :=
  let inherited_permits_all := inherited_all && negb (any_denied inherited) in
  let owner_permits_all := owner_all && negb (any_denied owner) in
  let effective := filter (λ '(path, permission),
    permission = SocketDeny ∨ inherited_permits_all = true ∨ inherited !! path = Some SocketAllow) owner in
  let effective := foldl (λ m '(path, permission),
    if owner_permits_all || bool_decide (permission = SocketDeny) then <[path := permission]> m else m)
    effective (btree_iter inherited) in
  (effective, inherited_permits_all && owner_permits_all).

Definition apply_to (self : EnvironmentNetworkPolicy) config : NetworkProxyConfig :=
  let inherited_denials := default [] (denied_domains config) in
  let config := with_domains (env_domains self) config in
  let config := foldl (λ config domain, upsert_domain_permission config domain PermDeny normalize_host)
                  config inherited_denials in
  let inherited_sockets := default ∅ (unix_sockets config) in
  let owner_sockets := default ∅ (env_unix_sockets self) in
  let '(sockets, allow_all) := effective_sockets (dangerously_allow_all_unix_sockets config) inherited_sockets
                                 (env_allow_all_unix_sockets self) owner_sockets in
  let config := with_unix_sockets (if bool_decide (sockets = ∅) then None else Some sockets) config in
  let config := with_allow_all_unix_sockets allow_all config in
  let config := with_allow_upstream_proxy (allow_upstream_proxy config && env_allow_upstream_proxy self) config in
  with_allow_local_binding (allow_local_binding config && env_allow_local_binding self) config.

(** ** Remote executors *)

Record RemoteNetworkProxyConfig := {
  remote_enabled : bool;
  remote_enable_socks5 : bool;
  remote_enable_socks5_udp : bool;
  remote_allow_upstream_proxy : bool;
  remote_allow_all_unix_sockets : bool;
  remote_mode : NetworkMode;
  remote_domains : option NetworkDomainPermissions;
  remote_unix_sockets : option NetworkUnixSocketPermissions;
  remote_allow_local_binding : bool;
}.

Definition from_effective_config config : res SpecError RemoteNetworkProxyConfig :=
  if negb (enabled config)
     || (negb (mitm config) && negb (credential_broker config)
         && negb (dangerously_allow_plaintext_credential_injection config)
         && bool_decide (mitm_hooks config = []))
  then Ok {| remote_enabled := enabled config; remote_enable_socks5 := enable_socks5 config;
             remote_enable_socks5_udp := enable_socks5_udp config;
             remote_allow_upstream_proxy := allow_upstream_proxy config;
             remote_allow_all_unix_sockets := dangerously_allow_all_unix_sockets config;
             remote_mode := mode config; remote_domains := domains config;
             remote_unix_sockets := unix_sockets config; remote_allow_local_binding := allow_local_binding config |}
  else Err RemoteUnsupported.

Definition into_network_proxy_config (self : RemoteNetworkProxyConfig) : NetworkProxyConfig := {|
  enabled := remote_enabled self; proxy_url := default_proxy_url; enable_socks5 := remote_enable_socks5 self;
  socks_url := default_socks_url; enable_socks5_udp := remote_enable_socks5_udp self;
  allow_upstream_proxy := remote_allow_upstream_proxy self; dangerously_allow_non_loopback_proxy := false;
  dangerously_allow_all_unix_sockets := remote_allow_all_unix_sockets self; mode := remote_mode self;
  domains := remote_domains self; unix_sockets := remote_unix_sockets self;
  allow_local_binding := remote_allow_local_binding self; mitm := false; credential_broker := false;
  credential_broker_enabled_mitm := false; credential_providers := ∅; credential_broker_openai_host := None;
  credential_broker_context := ∅; dangerously_allow_plaintext_credential_injection := false; mitm_hooks := [];
|}.

(** ** Upserting lists of hosts *)

(** The set [incoming] only skips repeated hosts. *)
Definition upsert_network_domains config (hosts : list str) (allow : bool) : NetworkProxyConfig :=
  (foldl (λ '(incoming, config) host,
    if bool_decide (host ∈ incoming) then (incoming, config)
    else (host :: incoming,
          upsert_domain_permission config host (if allow then PermAllow else PermDeny) normalize_host))
    ([], config) hosts).2.

Definition apply_exec_policy_network_rules {AP} config (exec_policy : Policy AP) : NetworkProxyConfig :=
  let '(allowed, denied) := compiled_network_domains exec_policy in
  upsert_network_domains (upsert_network_domains config allowed true) denied false.

(** ** The requirements applied *)

(** The parts of [apply_requirements] that set a flag and its constraint. *)
Definition require {A} (o : option A) (set : A → NetworkProxyConfig → NetworkProxyConfig) config : NetworkProxyConfig :=
  match o with Some a => set a config | None => config end.

Definition port_url (port : N) : str := lit "http://127.0.0.1:" ++ lit (pretty port).

Definition apply_requirements config (requirements : NetworkConstraints) (profile : PermissionProfile)
    (hard_deny_allowlist_misses : bool) : NetworkProxyConfig * NetworkProxyConstraints :=
  let allowlist_expansion := managed_sandbox_active profile && negb hard_deny_allowlist_misses in
  let denylist_expansion := managed_sandbox_active profile in
  let config := require (req_enabled requirements) with_enabled config in
  let config := require (req_http_port requirements) (λ p c, with_urls (port_url p) (socks_url c) c) config in
  let config := require (req_socks_port requirements) (λ p c, with_urls (proxy_url c) (port_url p) c) config in
  let config := require (req_allow_upstream_proxy requirements) with_allow_upstream_proxy config in
  let config := require (req_allow_non_loopback_proxy requirements) with_allow_non_loopback_proxy config in
  let config := require (req_allow_all_unix_sockets requirements) with_allow_all_unix_sockets config in
  let required_allowed := d ← req_domains requirements; toml_allowed_domains d in
  let managed_allowed := if hard_deny_allowlist_misses then Some (default [] required_allowed) else required_allowed in
  let config := require managed_allowed (λ managed c,
    set_allowed_domains c
      (if allowlist_expansion then merge_domain_lists managed (default [] (allowed_domains c)) else managed)) config in
  let managed_denied := d ← req_domains requirements; toml_denied_domains d in
  let config := require managed_denied (λ managed c,
    set_denied_domains c
      (if denylist_expansion then merge_domain_lists managed (default [] (denied_domains c)) else managed)) config in
  let sockets := toml_allow_unix_sockets <$> req_unix_sockets requirements in
  let config := require sockets (λ l c, set_allow_unix_sockets c l) config in
  let config := require (req_allow_local_binding requirements) with_allow_local_binding config in
  (config,
   {| max_enabled := req_enabled requirements; max_mode := None;
      max_allow_upstream_proxy := req_allow_upstream_proxy requirements;
      max_allow_non_loopback_proxy := req_allow_non_loopback_proxy requirements;
      max_allow_all_unix_sockets := req_allow_all_unix_sockets requirements;
      managed_allowed_domains := managed_allowed;
      allowlist_expansion_enabled := (λ _, allowlist_expansion) <$> managed_allowed;
      managed_denied_domains := managed_denied;
      denylist_expansion_enabled := (λ _, denylist_expansion) <$> managed_denied;
      managed_unix_sockets := sockets;
      max_allow_local_binding := req_allow_local_binding requirements |}).

End env.

(** ** The specification of a proxy *)

Section spec.
Context `{JsonData, PathOps, HttpOps, GlobOps, MitmOps, UH : UrlHostOps} {SO : SecretOps}.

Record NetworkProxySpec := {
  base_config : NetworkProxyConfig;
  spec_requirements : option NetworkConstraints;
  spec_config : NetworkProxyConfig;
  spec_constraints : NetworkProxyConstraints;
  hard_deny_allowlist_misses : bool;
}.

Definition from_config_and_constraints (config : NetworkProxyConfig) (requirements : option NetworkConstraints)
    (profile : PermissionProfile) : res SpecError NetworkProxySpec :=
  let hard_deny := match requirements with Some r => managed_allowed_domains_only r | None => false end in
  let '(effective, constraints) :=
    match requirements with
    | Some requirements => apply_requirements config requirements profile hard_deny
    | None => (config, default_constraints)
    end in
  let? _ := map_err SpecConstraintsInvalid (validate_policy_against_constraints effective constraints) in
  Ok {| base_config := config; spec_requirements := requirements; spec_config := effective;
        spec_constraints := constraints; hard_deny_allowlist_misses := hard_deny |}.

Definition recompute_for_permission_profile (self : NetworkProxySpec) (profile : PermissionProfile)
    : res SpecError NetworkProxySpec :=
  from_config_and_constraints (base_config self) (spec_requirements self) profile.

Definition with_exec_policy_network_rules {AP} (self : NetworkProxySpec) (exec_policy : Policy AP)
    : res SpecError NetworkProxySpec :=
  let config := apply_exec_policy_network_rules (spec_config self) exec_policy in
  let? _ := map_err SpecConstraintsInvalid (validate_policy_against_constraints config (spec_constraints self)) in
  Ok {| base_config := base_config self; spec_requirements := spec_requirements self; spec_config := config;
        spec_constraints := spec_constraints self; hard_deny_allowlist_misses := hard_deny_allowlist_misses self |}.

(** Without a controller the owner supplies the entire permission ceiling. *)
Definition ceiling_config : NetworkProxyConfig :=
  with_enabled true (with_allow_all_unix_sockets true (with_allow_local_binding true default_config)).

(** The constraints [for_environment] checks against. *)
Definition environment_constraints (c : NetworkProxyConstraints) (fixed_allowlist allow_owner_grants : bool)
    (allowed denied : option (list str)) : NetworkProxyConstraints :=
  {| max_enabled := max_enabled c; max_mode := max_mode c; max_allow_upstream_proxy := max_allow_upstream_proxy c;
     max_allow_non_loopback_proxy := max_allow_non_loopback_proxy c;
     max_allow_all_unix_sockets := max_allow_all_unix_sockets c;
     managed_allowed_domains := if fixed_allowlist then managed_allowed_domains c else Some (default [] allowed);
     allowlist_expansion_enabled := if fixed_allowlist then None else Some allow_owner_grants;
     managed_denied_domains := denied;
     denylist_expansion_enabled := Some true;
     managed_unix_sockets := managed_unix_sockets c;
     max_allow_local_binding := max_allow_local_binding c |}.

Definition for_environment {AP} (controller : option NetworkProxySpec) (policy : EnvironmentNetworkPolicy)
    (profile : PermissionProfile) (exec_policy : Policy AP) : res SpecError NetworkProxySpec :=
  if match profile with ProfileDisabled => true | _ => false end then Err SpecNeedsEnforcement
  else if match controller with Some c => negb (enabled (spec_config c)) | None => false end
  then Err SpecControllerDisabled
  else
    let? spec := match controller with
                 | Some controller => recompute_for_permission_profile controller profile
                 | None => from_config_and_constraints ceiling_config None profile
                 end in
    let config := apply_to policy (spec_config spec) in
    let protected_denials := default [] (denied_domains config) in
    let fixed_allowlist :=
      hard_deny_allowlist_misses spec
      || bool_decide (allowlist_expansion_enabled (spec_constraints spec) = Some false) in
    let hard_deny := hard_deny_allowlist_misses spec || env_managed_allowed_domains_only policy
                     || negb (managed_sandbox_active profile) in
    let allow_owner_grants := negb hard_deny && negb fixed_allowlist in
    let baseline := allowed_domains config in
    let '(allowed, denied) := compiled_network_domains exec_policy in
    let config := if allow_owner_grants then upsert_network_domains config allowed true else config in
    let config := upsert_network_domains config denied false in
    let config := upsert_network_domains config protected_denials false in
    let constraints := environment_constraints (spec_constraints spec) fixed_allowlist allow_owner_grants
                         baseline (denied_domains config) in
    let? _ := map_err SpecEnvironmentViolates (validate_policy_against_constraints config constraints) in
    Ok {| base_config := base_config spec; spec_requirements := spec_requirements spec; spec_config := config;
          spec_constraints := constraints; hard_deny_allowlist_misses := hard_deny |}.

Definition build_config_state_for_spec (self : NetworkProxySpec) : res SpecError ConfigState :=
  map_err SpecNotBuilt (build_config_state (spec_config self) (spec_constraints self)).

(** [StaticNetworkProxyReloader]. *)
Definition static_maybe_reload (s : ConfigState) : res unit (option ConfigState) := Ok None.
Definition static_reload_now (s : ConfigState) : res unit ConfigState := Ok s.

End spec.

(** ** Approvals of network access ([core/src/network_policy_decision.rs]) *)

Inductive NetworkPolicyRuleAction := RuleAllow | RuleDeny.

Record ExecPolicyNetworkRuleAmendment := {
  amendment_protocol : NetworkRuleProtocol;
  amendment_decision : Decision;
  amendment_justification : str;
}.

Definition execpolicy_network_rule_amendment (action : NetworkPolicyRuleAction) (protocol : NetworkRuleProtocol)
    (host : str) : ExecPolicyNetworkRuleAmendment :=
  let '(decision, action_verb) :=
    match action with RuleAllow => (Allow, lit "Allow") | RuleDeny => (Forbidden, lit "Deny") end in
  let protocol_label :=
    match protocol with
    | Http => lit "http"
    | Https => lit "https_connect"
    | Socks5Tcp => lit "socks5_tcp"
    | Socks5Udp => lit "socks5_udp"
    end in
  {| amendment_protocol := protocol; amendment_decision := decision;
     amendment_justification := action_verb ++ lit " " ++ protocol_label ++ lit " access to " ++ host |}.

Definition parse_network_policy_decision (value : str) : option NetworkPolicyDecision :=
  if bool_decide (value = lit "deny") then Some PolicyDeny
  else if bool_decide (value = lit "ask") then Some PolicyAsk
  else None.

Definition denied_network_policy_message (b : BlockedRequest) : option str :=
  match (d ← blocked_decision b; parse_network_policy_decision d) with
  | Some PolicyDeny =>
      let host := trim (blocked_host b) in
      if bool_decide (host = []) then Some (lit "Network access was blocked by policy.")
      else
        let detail :=
          if bool_decide (blocked_reason b = lit "denied")
          then lit "domain is explicitly denied by policy and cannot be approved from this prompt"
          else if bool_decide (blocked_reason b = lit "not_allowed")
          then lit "domain is not on the allowlist for the current sandbox mode"
          else if bool_decide (blocked_reason b = lit "not_allowed_local")
          then lit "local/private network addresses are blocked by the sandbox policy"
          else if bool_decide (blocked_reason b = lit "method_not_allowed")
          then lit "request method is blocked by the current network mode"
          else if bool_decide (blocked_reason b = lit "proxy_disabled") then lit "network proxy is disabled"
          else lit "request is blocked by network policy" in
        Some (lit "Network access to " ++ [c_dquote] ++ host ++ [c_dquote] ++ lit " was blocked: " ++ detail ++ lit ".")
  | _ => None
  end.

(** * Facts about where proxy configurations come from

    Every specification is within its constraints, so that the states built from
    it start and replace the runs of [NetRuns]; an environment's policy never
    widens its controller's; what the execution policy forbids the proxy denies;
    a remote executor decides as the controller does. *)

(** ** Sockets *)

Lemma any_denied_false (m : NetworkUnixSocketPermissions) p : any_denied m = false → m !! p ≠ Some SocketDeny.
Proof.
  unfold any_denied. rewrite existsb_false_Forall, Forall_forall. intros Hall Hp.
  specialize (Hall (p, SocketDeny)). rewrite elem_of_map_to_list in Hall.
  specialize (Hall Hp). done.
Qed.

(** Overwriting a map by the pairs of another that pass a test. *)
Lemma overlay_lookup (f : NetworkUnixSocketPermission → bool) (l : list (str * NetworkUnixSocketPermission))
    (m : NetworkUnixSocketPermissions) (p : str) :
  NoDup l.*1 →
  foldl (λ m '(path, permission), if f permission then <[path := permission]> m else m) m l !! p =
  match (list_to_map l : NetworkUnixSocketPermissions) !! p with
  | Some q => if f q then Some q else m !! p
  | None => m !! p
  end.
Proof.
  revert m. induction l as [|[k v] l IH]; intros m; cbn [foldl fmap list_fmap fst].
  { intros _. change (list_to_map []) with (∅ : NetworkUnixSocketPermissions). by rewrite lookup_empty. }
  intros [Hk Hnd]%NoDup_cons. rewrite IH by done. destruct (decide (k = p)) as [->|Hne].
  - change (list_to_map ((p, v) :: l)) with (<[p := v]> (list_to_map l : NetworkUnixSocketPermissions)).
    rewrite lookup_insert_eq, (not_elem_of_list_to_map_1 _ _ Hk). destruct (f v); [by rewrite lookup_insert_eq|done].
  - change (list_to_map ((k, v) :: l)) with (<[k := v]> (list_to_map l : NetworkUnixSocketPermissions)).
    rewrite (lookup_insert_ne _ k p) by done. destruct (f v); [by rewrite lookup_insert_ne|done].
Qed.

Lemma btree_iter_keys {V} (m : gmap str V) : NoDup (btree_iter m).*1.
Proof. unfold btree_iter. rewrite sort_by_key_perm. apply NoDup_fst_map_to_list. Qed.

Lemma btree_iter_map {V} (m : gmap str V) p : (list_to_map (btree_iter m) : gmap str V) !! p = m !! p.
Proof.
  unfold btree_iter. rewrite (list_to_map_proper _ (map_to_list m)).
  - by rewrite list_to_map_to_list.
  - rewrite sort_by_key_perm. apply NoDup_fst_map_to_list.
  - apply sort_by_key_perm.
Qed.

(** What a policy permits: a listed path, or any path when all are allowed and none is denied. *)
Definition permits_all (all : bool) (m : NetworkUnixSocketPermissions) : bool := all && negb (any_denied m).

(** The owner's entries that are kept. *)
Lemma filter_sockets (all : bool) (i o : NetworkUnixSocketPermissions) p :
  (filter (λ '(path, permission), permission = SocketDeny ∨ all = true ∨ i !! path = Some SocketAllow) o
     : NetworkUnixSocketPermissions) !! p =
  match o !! p with
  | Some q => if bool_decide (q = SocketDeny ∨ all = true ∨ i !! p = Some SocketAllow) then Some q else None
  | None => None
  end.
Proof.
  destruct (o !! p) as [q|] eqn:E.
  - case_bool_decide as Hq; [by apply map_lookup_filter_Some|]. apply map_lookup_filter_None. right.
    intros q' Hq'. by assert (q' = q) as -> by congruence.
  - apply map_lookup_filter_None. by left.
Qed.

(** A socket is permitted to an environment exactly when both its owner and the controller permit it
    and one of them lists it, and everything is permitted only when both permit everything. *)
Lemma effective_sockets_meet (ia : bool) (i : NetworkUnixSocketPermissions) (oa : bool) o m b :
  effective_sockets ia i oa o = (m, b) →
  (∀ p, m !! p = Some SocketAllow ↔
     (i !! p = Some SocketAllow ∨ permits_all ia i = true ∧ i !! p = None) ∧
     (o !! p = Some SocketAllow ∨ permits_all oa o = true ∧ o !! p = None) ∧
     (i !! p = Some SocketAllow ∨ o !! p = Some SocketAllow)) ∧
  b = permits_all ia i && permits_all oa o.
Proof.
  unfold effective_sockets. fold (permits_all ia i). fold (permits_all oa o). intros [= <- <-]. split; [|done].
  intros p. rewrite (overlay_lookup (λ q, permits_all oa o || bool_decide (q = SocketDeny))) by apply btree_iter_keys.
  rewrite btree_iter_map, filter_sockets.
  assert (Hi : permits_all ia i = true → i !! p ≠ Some SocketDeny).
  { unfold permits_all. intros [_ Hn%negb_true_iff]%andb_true_iff. by apply any_denied_false. }
  assert (Ho : permits_all oa o = true → o !! p ≠ Some SocketDeny).
  { unfold permits_all. intros [_ Hn%negb_true_iff]%andb_true_iff. by apply any_denied_false. }
  destruct (permits_all ia i), (permits_all oa o), (i !! p) as [[]|], (o !! p) as [[]|];
    repeat case_bool_decide; naive_solver.
Qed.

(** ** Specifications are within their constraints *)

Section specs.
Context `{JsonData, PathOps, HttpOps, GlobOps, MitmOps, UH : UrlHostOps} {SO : SecretOps} {BO : BrokerOps}.
Context {AP : Type}.
Implicit Types (cfg : NetworkProxyConfig) (spec : NetworkProxySpec) (ep : Policy AP).

(** The ways to obtain a specification. *)
Inductive proxy_spec : NetworkProxySpec → Prop :=
  | spec_from_config cfg requirements profile spec :
      from_config_and_constraints cfg requirements profile = Ok spec → proxy_spec spec
  | spec_recomputed spec profile spec' :
      proxy_spec spec → recompute_for_permission_profile spec profile = Ok spec' → proxy_spec spec'
  | spec_with_rules spec ep spec' :
      proxy_spec spec → with_exec_policy_network_rules spec ep = Ok spec' → proxy_spec spec'
  | spec_for_environment controller policy profile ep spec :
      for_environment controller policy profile ep = Ok spec → proxy_spec spec.

Lemma from_config_Ok cfg requirements profile spec :
  from_config_and_constraints cfg requirements profile = Ok spec →
  base_config spec = cfg ∧ spec_requirements spec = requirements ∧ satisfies (spec_config spec) (spec_constraints spec).
Proof.
  unfold from_config_and_constraints. cbv zeta. destruct (match requirements with Some _ => _ | None => _ end) as [eff c].
  rewrite res_bind_Ok. intros ([] & Hv%map_err_Ok%validate_satisfies & [= <-]). done.
Qed.

Lemma with_rules_Ok spec ep spec' :
  with_exec_policy_network_rules spec ep = Ok spec' →
  spec_config spec' = apply_exec_policy_network_rules (spec_config spec) ep ∧
  spec_constraints spec' = spec_constraints spec ∧ satisfies (spec_config spec') (spec_constraints spec').
Proof.
  unfold with_exec_policy_network_rules. rewrite res_bind_Ok.
  intros ([] & Hv%map_err_Ok%validate_satisfies & [= <-]). done.
Qed.

(** The specification an environment starts from. *)
Definition inherited_spec (controller : option NetworkProxySpec) (profile : PermissionProfile)
    : res SpecError NetworkProxySpec :=
  match controller with
  | Some controller => recompute_for_permission_profile controller profile
  | None => from_config_and_constraints ceiling_config None profile
  end.

(** Whether the saved rules may add to the allowed domains of the environment. *)
Definition owner_grants (inherited : NetworkProxySpec) (policy : EnvironmentNetworkPolicy) (profile : PermissionProfile)
    : bool :=
  negb (hard_deny_allowlist_misses inherited || env_managed_allowed_domains_only policy
        || negb (managed_sandbox_active profile))
  && negb (hard_deny_allowlist_misses inherited
           || bool_decide (allowlist_expansion_enabled (spec_constraints inherited) = Some false)).

Lemma for_environment_Ok controller policy profile ep spec :
  for_environment controller policy profile ep = Ok spec →
  ∃ inherited, inherited_spec controller profile = Ok inherited ∧
    satisfies (spec_config spec) (spec_constraints spec) ∧
    let start := apply_to policy (spec_config inherited) in
    let '(allowed, denied) := compiled_network_domains ep in
    spec_config spec =
      upsert_network_domains
        (upsert_network_domains
           (if owner_grants inherited policy profile then upsert_network_domains start allowed true else start)
           denied false)
        (denied_list start) false.
Proof.
  unfold for_environment. destruct (match profile with ProfileDisabled => true | _ => false end); [done|].
  destruct (match controller with Some _ => _ | None => false end); [done|].
  fold (inherited_spec controller profile). rewrite res_bind_Ok. intros (inherited & Hi & Hb). exists inherited.
  split; [done|]. cbv zeta in *. fold (owner_grants inherited policy profile) in Hb.
  destruct (compiled_network_domains ep) as [allowed denied].
  apply res_bind_Ok in Hb as ([] & Hv%map_err_Ok%validate_satisfies & [= <-]). done.
Qed.

Lemma proxy_spec_satisfies spec : proxy_spec spec → satisfies (spec_config spec) (spec_constraints spec).
Proof.
  destruct 1 as [???? Hs|? ? ? _ Hs|? ? ? _ Hs|????? Hs].
  - by apply from_config_Ok in Hs as (_ & _ & ?).
  - by apply from_config_Ok in Hs as (_ & _ & ?).
  - by apply with_rules_Ok in Hs as (_ & _ & ?).
  - by apply for_environment_Ok in Hs as (? & _ & ? & _).
Qed.

(** C40. However a specification was obtained, from a configuration under requirements, with saved rules, or
    for an environment with a policy of its own, the state built from it satisfies its constraints and is a
    state the proxy can start from, so that all that is shown of reachable states holds of its runs. *)
Theorem spec_state_starts spec s (b : Broker) :
  proxy_spec spec → build_config_state_for_spec spec = Ok s →
  state_ok s ∧ constraints s = spec_constraints spec ∧ reachable (Sys {| state := s; broker := b |} []).
Proof.
  intros Hs%proxy_spec_satisfies Hb%map_err_Ok. pose proof (build_satisfies _ _ _ Hs Hb) as Hok.
  apply build_config_state_Ok in Hb as (_ & Hc & Hbl & _). split; [done|]. split; [done|]. by constructor.
Qed.

(** ** Denials survive *)

(** An entry denies the host, up to the normal form of hosts. *)
Definition denies cfg (h : str) : Prop := ∃ e, e ∈ denied_list cfg ∧ normalize_host e = normalize_host h.

Lemma denies_upsert cfg h p x :
  denies (upsert_domain_permission cfg h p normalize_host) x ↔
  (denies cfg x ∧ normalize_host x ≠ normalize_host h) ∨ (p = PermDeny ∧ normalize_host x = normalize_host h).
Proof.
  unfold denies. setoid_rewrite elem_of_denied. setoid_rewrite elem_of_upsert_permission. split.
  - intros (e & [[He Hne]|[-> <-]] & Hx); [left; rewrite <- Hx; eauto|right; eauto].
  - intros [[(e & He & Hx) Hne]|[-> Hx]]; [|eauto]. exists e. split; [|done]. left. by rewrite Hx.
Qed.

(** The loop over the hosts, with the hosts it has seen. *)
Lemma upsert_deny_fold l seen cfg x :
  (∀ h, h ∈ seen → denies cfg h) →
  denies (foldl (λ '(incoming, config) host,
    if bool_decide (host ∈ incoming) then (incoming, config)
    else (host :: incoming, upsert_domain_permission config host PermDeny normalize_host)) (seen, cfg) l).2 x ↔
  denies cfg x ∨ ∃ h, h ∈ l ∧ normalize_host h = normalize_host x.
Proof.
  revert seen cfg. induction l as [|h l IH]; intros seen cfg Hseen; cbn [foldl].
  { setoid_rewrite elem_of_nil. naive_solver. }
  setoid_rewrite elem_of_cons. case_bool_decide as Hin.
  - rewrite IH by done. split; [naive_solver|]. intros [?|(h' & [->|?] & Hx)]; [by left| |eauto].
    left. destruct (Hseen h Hin) as (e & He & Hee). exists e. split; [done|]. by rewrite Hee.
  - rewrite IH.
    + rewrite denies_upsert. destruct (decide (normalize_host x = normalize_host h)); naive_solver.
    + intros h' [->|Hh']%elem_of_cons; apply denies_upsert; [by right|].
      destruct (decide (normalize_host h' = normalize_host h)); [by right|left; auto].
Qed.

Lemma upsert_network_denied cfg l x :
  denies (upsert_network_domains cfg l false) x ↔ denies cfg x ∨ ∃ h, h ∈ l ∧ normalize_host h = normalize_host x.
Proof. unfold upsert_network_domains. apply upsert_deny_fold. by intros h ?%not_elem_of_nil. Qed.

(** Upserts never remove an allowed entry without need and add only the given hosts. *)
Lemma upsert_fold_allowed p l seen cfg e :
  e ∈ allowed_list (foldl (λ '(incoming, config) host,
    if bool_decide (host ∈ incoming) then (incoming, config)
    else (host :: incoming, upsert_domain_permission config host p normalize_host)) (seen, cfg) l).2 →
  e ∈ allowed_list cfg ∨ p = PermAllow ∧ e ∈ l.
Proof.
  revert seen cfg. induction l as [|h l IH]; intros seen cfg; cbn [foldl]; [by left|]. rewrite elem_of_cons.
  case_bool_decide; [naive_solver|]. intros [Ha|[-> ?]]%IH; [|auto].
  apply elem_of_allowed in Ha as [Ha Hd]. rewrite !elem_of_upsert_permission in *.
  destruct Ha as [[Ha Hne]|[-> <-]]; [|auto]. left. apply elem_of_allowed. tauto.
Qed.

Lemma upsert_network_allowed cfg l allow e :
  e ∈ allowed_list (upsert_network_domains cfg l allow) → e ∈ allowed_list cfg ∨ allow = true ∧ e ∈ l.
Proof. unfold upsert_network_domains. intros [?|[? ?]]%upsert_fold_allowed; [by left|]. destruct allow; [auto|done]. Qed.

Lemma upsert_network_kept cfg l x :
  denies cfg x → (∀ h, h ∈ l → normalize_host h ≠ normalize_host x) → denies (upsert_network_domains cfg l true) x.
Proof.
  unfold upsert_network_domains. generalize (@nil str). revert cfg. induction l as [|h l IH]; intros cfg seen Hd Hl;
    cbn [foldl]; [done|]. case_bool_decide.
  - apply IH; [done|]. intros h' Hh'. apply Hl. by right.
  - apply IH; [|intros h' Hh'; apply Hl; by right]. apply denies_upsert. left. split; [done|].
    intros E. apply (Hl h); [by left|done].
Qed.

(** A host in normal form that a state's configuration denies is blocked. *)
Lemma denies_blocked `{!LawfulGlobs _} s h port lookup :
  compile_denylist_globset (denied_list (config s)) = Ok (deny_set s) →
  plain h = true → normal h → h ≠ [] → denies (config s) h → decide_host s h port lookup = Blocked Denied.
Proof.
  intros Hc Hp Hn Hne (e & He & Heq). rewrite (normalize_host_plain h) in Heq by done.
  unfold decide_host. cbv zeta. unfold compile_denylist_globset in Hc.
  assert (globset_matches_host_or_unscoped (deny_set s) h = true) as ->; [|done].
  apply (compiled_set_host _ _ _ h Hc). exists e. split; [done|]. left.
  pose proof Hc as (gs & _ & _ & Hb & _)%compile_builds.
  apply entry_matches_plain; rewrite ?Heq; [done..| |apply Hn].
  apply (Hb e); [done|]. rewrite normalize_pattern_plain by by rewrite Heq. rewrite Heq, expand_plain by done. by left.
Qed.

Lemma built_denies spec s h :
  build_config_state_for_spec spec = Ok s → denies (spec_config spec) h → denies (config s) h.
Proof.
  intros Hb%map_err_Ok (e & He & Heq). apply build_config_state_Ok in Hb as (-> & _). exists e. split; [|done].
  by apply stored_denied.
Qed.

Lemma compiled_denied ep h : h ∈ (compiled_network_domains ep).2 ↔ last_verdict (network_rules ep) h = Some Forbidden.
Proof.
  pose proof (network_fold (network_rules ep)) as Hf. unfold compiled_network_domains.
  destruct (foldl _ _ _). destruct Hf as (_ & _ & Hf). apply Hf.
Qed.
Lemma compiled_allowed ep h : h ∈ (compiled_network_domains ep).1 ↔ last_verdict (network_rules ep) h = Some Allow.
Proof.
  pose proof (network_fold (network_rules ep)) as Hf. unfold compiled_network_domains.
  destruct (foldl _ _ _). destruct Hf as (_ & _ & Hf). apply Hf.
Qed.

(** A host the last saved rule for it forbids is blocked as denied by the proxy that is built with the
    rules, and a host denied before stays so unless a saved rule allows it; only hosts that saved rules
    allow are added to the allowed domains. *)
Theorem saved_rules_applied `{!LawfulGlobs _} spec ep spec' s :
  with_exec_policy_network_rules spec ep = Ok spec' → build_config_state_for_spec spec' = Ok s →
  (∀ h port lookup, plain h = true → normal h → h ≠ [] →
     last_verdict (network_rules ep) h = Some Forbidden ∨
     denies (spec_config spec) h ∧
       (∀ h', last_verdict (network_rules ep) h' = Some Allow → normalize_host h' ≠ h) →
     decide_host s h port lookup = Blocked Denied) ∧
  ∀ e, e ∈ allowed_list (spec_config spec') →
    e ∈ allowed_list (spec_config spec) ∨ last_verdict (network_rules ep) e = Some Allow.
Proof.
  intros Hw Hb. apply with_rules_Ok in Hw as (Hcfg & _ & _). unfold apply_exec_policy_network_rules in Hcfg.
  pose proof (compiled_denied ep) as Hd. pose proof (compiled_allowed ep) as Ha.
  destruct (compiled_network_domains ep) as [allowed denied]. cbn [fst snd] in Hd, Ha. split.
  - intros h port lookup Hp Hn Hne Hh.
    pose proof Hb as (_ & _ & _ & _ & _ & _ & Hc & _)%map_err_Ok%build_config_state_Ok.
    apply denies_blocked; [done..|]. eapply built_denies; [done|]. rewrite Hcfg, upsert_network_denied.
    destruct Hh as [Hf|[Hden Hna]]; [right; exists h; split; [by apply Hd|done]|left].
    apply upsert_network_kept; [done|]. intros h' Hh'. rewrite (normalize_host_plain h) by done. by apply Hna, Ha.
  - intros e. rewrite Hcfg. intros [He|[? _]]%upsert_network_allowed; [|done].
    apply upsert_network_allowed in He as [?|[_ ?]]; [by left|right; by apply Ha].
Qed.

(** ** Environments *)

Lemma with_domains_twice d d' cfg : with_domains d (with_domains d' cfg) = with_domains d cfg.
Proof. by destruct cfg. Qed.

Lemma upsert_network_with_domains cfg l allow : ∃ d, upsert_network_domains cfg l allow = with_domains d cfg.
Proof.
  unfold upsert_network_domains. generalize (@nil str). revert cfg. induction l as [|h l IH]; intros cfg seen; cbn [foldl].
  { exists (domains cfg). by destruct cfg. }
  case_bool_decide; [apply IH|]. destruct (IH (upsert_domain_permission cfg h (if allow then PermAllow else PermDeny)
    normalize_host) (h :: seen)) as [d ->]. exists d. unfold upsert_domain_permission. by rewrite with_domains_twice.
Qed.

Lemma denies_domains cfg cfg' h : domains cfg = domains cfg' → denies cfg h ↔ denies cfg' h.
Proof. intros Hd. unfold denies, denied_list, denied_domains, domain_entries. by rewrite Hd. Qed.

(** The domains of an environment: its own, with the inherited denials. *)
Definition own_domains (policy : EnvironmentNetworkPolicy) cfg : NetworkProxyConfig :=
  foldl (λ config domain, upsert_domain_permission config domain PermDeny normalize_host)
    (with_domains (env_domains policy) cfg) (denied_list cfg).

Lemma own_domains_with policy cfg : ∃ d, own_domains policy cfg = with_domains d cfg.
Proof.
  unfold own_domains. generalize (denied_list cfg), (env_domains policy). intros l. revert cfg.
  induction l as [|h l IH]; intros cfg d; cbn [foldl]; [by exists d|].
  unfold upsert_domain_permission at 2. rewrite with_domains_twice. apply IH.
Qed.

Lemma own_domains_denies policy cfg x :
  denies (own_domains policy cfg) x ↔ denies (with_domains (env_domains policy) cfg) x ∨ denies cfg x.
Proof.
  unfold own_domains. transitivity (denies (with_domains (env_domains policy) cfg) x ∨
    ∃ h, h ∈ denied_list cfg ∧ normalize_host h = normalize_host x); [|done].
  generalize (with_domains (env_domains policy) cfg) as c. generalize (denied_list cfg) as l.
  induction l as [|h l IH]; intros c; cbn [foldl]; [setoid_rewrite elem_of_nil; naive_solver|].
  rewrite IH, denies_upsert. setoid_rewrite elem_of_cons.
  destruct (decide (normalize_host x = normalize_host h)); naive_solver.
Qed.

Lemma own_domains_allowed policy cfg e :
  e ∈ allowed_list (own_domains policy cfg) → Entry e PermAllow ∈ default [] (env_domains policy).
Proof.
  intros [He _]%elem_of_allowed. revert He. unfold own_domains.
  assert (Hb : Entry e PermAllow ∈ entries_of (with_domains (env_domains policy) cfg) →
               Entry e PermAllow ∈ default [] (env_domains policy)) by by destruct cfg.
  revert Hb. generalize (with_domains (env_domains policy) cfg) as c. generalize (denied_list cfg) as l.
  induction l as [|h l IH]; intros c Hb; cbn [foldl]; [done|]. apply IH. rewrite elem_of_upsert_permission. naive_solver.
Qed.

(** What [apply_to] makes of each field. *)
Lemma apply_to_fields policy cfg :
  let '(sockets, all) := effective_sockets (dangerously_allow_all_unix_sockets cfg) (default ∅ (unix_sockets cfg))
    (env_allow_all_unix_sockets policy) (default ∅ (env_unix_sockets policy)) in
  domains (apply_to policy cfg) = domains (own_domains policy cfg) ∧
  default ∅ (unix_sockets (apply_to policy cfg)) = sockets ∧
  dangerously_allow_all_unix_sockets (apply_to policy cfg) = all ∧
  allow_upstream_proxy (apply_to policy cfg) = allow_upstream_proxy cfg && env_allow_upstream_proxy policy ∧
  allow_local_binding (apply_to policy cfg) = allow_local_binding cfg && env_allow_local_binding policy.
Proof.
  unfold apply_to. cbv zeta. change (default [] (denied_domains cfg)) with (denied_list cfg).
  fold (own_domains policy cfg). destruct (own_domains_with policy cfg) as [d ->].
  assert (dangerously_allow_all_unix_sockets (with_domains d cfg) = dangerously_allow_all_unix_sockets cfg ∧
          unix_sockets (with_domains d cfg) = unix_sockets cfg) as [-> ->] by by destruct cfg.
  destruct (effective_sockets _ _ _ _) as [sockets all]. destruct cfg. simpl. split; [done|]. split; [|done].
  by case_bool_decide.
Qed.

(** The socket is listed as allowed, or everything is allowed and it is not listed. *)
Definition socket_permitted (all : bool) (m : NetworkUnixSocketPermissions) (p : str) : Prop :=
  m !! p = Some SocketAllow ∨ permits_all all m = true ∧ m !! p = None.

(** An environment gets no more than its controller and its own policy both grant: the denials of either
    and of the saved rules hold; its allowed domains are those of its policy and, where it may have them, of
    saved rules; local destinations, the upstream proxy and sockets need the consent of both. *)
Theorem environment_never_widens controller policy profile ep spec :
  for_environment controller policy profile ep = Ok spec →
  ∃ inherited, inherited_spec controller profile = Ok inherited ∧
    (∀ h, denies (spec_config inherited) h ∨ denies (with_domains (env_domains policy) (spec_config inherited)) h ∨
          last_verdict (network_rules ep) h = Some Forbidden → denies (spec_config spec) h) ∧
    (∀ e, e ∈ allowed_list (spec_config spec) →
       Entry e PermAllow ∈ default [] (env_domains policy) ∨
       owner_grants inherited policy profile = true ∧ last_verdict (network_rules ep) e = Some Allow) ∧
    allow_local_binding (spec_config spec) = allow_local_binding (spec_config inherited) && env_allow_local_binding policy ∧
    allow_upstream_proxy (spec_config spec) =
      allow_upstream_proxy (spec_config inherited) && env_allow_upstream_proxy policy ∧
    (∀ path, path ∈ allow_unix_sockets (spec_config spec) →
       socket_permitted (dangerously_allow_all_unix_sockets (spec_config inherited))
         (default ∅ (unix_sockets (spec_config inherited))) path ∧
       socket_permitted (env_allow_all_unix_sockets policy) (default ∅ (env_unix_sockets policy)) path) ∧
    (dangerously_allow_all_unix_sockets (spec_config spec) = true →
       dangerously_allow_all_unix_sockets (spec_config inherited) = true ∧ env_allow_all_unix_sockets policy = true).
Proof.
  intros (inherited & Hi & _ & Hc)%for_environment_Ok. exists inherited. split; [done|].
  pose proof (compiled_denied ep) as Hd. pose proof (compiled_allowed ep) as Ha. cbv zeta in Hc.
  destruct (compiled_network_domains ep) as [allowed denied]. cbn [fst snd] in Hd, Ha.
  pose proof (apply_to_fields policy (spec_config inherited)) as Hf.
  destruct (effective_sockets _ _ _ _) as [sockets all] eqn:Es. destruct Hf as (F1 & F2 & F3 & F4 & F5).
  apply effective_sockets_meet in Es as [Hs ->]. set (start := apply_to policy (spec_config inherited)) in *.
  assert (Hstart : ∀ x, denies start x ↔ denies (with_domains (env_domains policy) (spec_config inherited)) x ∨
                                         denies (spec_config inherited) x).
  { intros x. rewrite <- own_domains_denies. by apply denies_domains. }
  split; [|split].
  - intros h Hh. rewrite Hc, upsert_network_denied. destruct Hh as [Hh|[Hh|Hh]].
    1,2: right; assert (denies start h) as Hsh by (apply Hstart; auto); destruct Hsh as (e & He & Heq); by exists e.
    left. apply upsert_network_denied. right. exists h. split; [by apply Hd|done].
  - intros e. rewrite Hc. intros [[He|[? _]]%upsert_network_allowed|[? _]]%upsert_network_allowed; [|done..].
    assert (Hst : e ∈ allowed_list start → Entry e PermAllow ∈ default [] (env_domains policy)).
    { intros He'. apply (own_domains_allowed policy (spec_config inherited)). revert He'.
      unfold allowed_list, allowed_domains, domain_entries. by rewrite F1. }
    destruct (owner_grants inherited policy profile); [|auto].
    apply upsert_network_allowed in He as [?|[_ ?]]; [auto|right; split; [done|by apply Ha]].
  - assert (∃ d, spec_config spec = with_domains d start) as [d ->].
    { rewrite Hc. destruct (upsert_network_with_domains (upsert_network_domains (if owner_grants inherited policy profile
        then upsert_network_domains start allowed true else start) denied false) (denied_list start) false) as [d1 ->].
      destruct (upsert_network_with_domains (if owner_grants inherited policy profile
        then upsert_network_domains start allowed true else start) denied false) as [d2 ->].
      destruct (owner_grants _ _ _); [destruct (upsert_network_with_domains start allowed true) as [d3 ->]|];
        rewrite !with_domains_twice; eauto. }
    assert (allow_local_binding (with_domains d start) = allow_local_binding start ∧
            allow_upstream_proxy (with_domains d start) = allow_upstream_proxy start ∧
            unix_sockets (with_domains d start) = unix_sockets start ∧
            dangerously_allow_all_unix_sockets (with_domains d start) = dangerously_allow_all_unix_sockets start)
      as (-> & -> & G & ->) by by destruct start.
    split; [done|]. split; [done|]. split.
    + intros path (u & Hu & Hp)%elem_of_allow_unix_sockets. rewrite G in Hu. rewrite Hu in F2. simpl in F2. subst u.
      apply Hs in Hp as (? & ? & _). done.
    + rewrite F3. unfold permits_all. rewrite !andb_true_iff. tauto.
Qed.

(** ** Remote executors *)

(** A remote executor decides about hosts and sockets as the controller does: a configuration that can be
    sent arrives with its mode, lists and flags, and the states built on both sides without further
    constraints agree on every host and every socket. *)
Theorem remote_decides_alike cfg remote s s' host port lookup supported canonicalize path :
  enabled cfg = true → from_effective_config cfg = Ok remote →
  build_config_state cfg default_constraints = Ok s →
  build_config_state (into_network_proxy_config remote) default_constraints = Ok s' →
  decide_host s' host port lookup = decide_host s host port lookup ∧
  socket_allowed supported canonicalize path s' = socket_allowed supported canonicalize path s ∧
  mode (config s') = mode (config s) ∧ allow_upstream_proxy (config s') = allow_upstream_proxy (config s).
Proof.
  unfold from_effective_config. intros He Hr (Hc & _ & _ & _ & _ & _ & Hd & Ha)%build_config_state_Ok
    (Hc' & _ & _ & _ & _ & _ & Hd' & Ha')%build_config_state_Ok.
  destruct (_ || _); [|done]. injection Hr as <-.
  assert (Hstored : ∀ c, enabled c = true → stored_config c default_constraints = c).
  { intros c Hen. unfold stored_config, creates_allowlist, creates_proxy, broker_off. simpl. rewrite Hen.
    by rewrite andb_false_r. }
  rewrite Hstored in Hc, Hc' by done. set (c' := into_network_proxy_config _) in *.
  assert (Hdom : domains c' = domains cfg) by done. assert (Hsock : unix_sockets c' = unix_sockets cfg) by done.
  assert (Hlists : allowed_domains c' = allowed_domains cfg ∧ denied_domains c' = denied_domains cfg).
  { unfold allowed_domains, denied_domains, domain_entries. by rewrite Hdom. }
  destruct Hlists as [Hal Hdl]. rewrite Hc', Hc in *. unfold allowed_list, denied_list in *.
  rewrite Hal, Ha in Ha'. rewrite Hdl, Hd in Hd'. injection Ha' as Ha'. injection Hd' as Hd'.
  split; [|split; [|done]].
  - unfold decide_host. cbv zeta. by rewrite Hc', Hc, Hal, <- Ha', <- Hd'.
  - unfold socket_allowed. rewrite Hc', Hc. unfold allow_unix_sockets. by rewrite Hsock.
Qed.

End specs.

(** ** On the sample *)

Section sample.
Import Sample.

Definition sample_requirements : NetworkConstraints := {|
  req_enabled := Some true; req_http_port := Some 3128%N; req_socks_port := None; req_allow_upstream_proxy := None;
  req_allow_non_loopback_proxy := None; req_allow_all_unix_sockets := None;
  req_domains := Some {[ lit "**.corp.test" := TomlAllow; lit "db.corp.test" := TomlDeny ]};
  req_managed_allowed_domains_only := None; req_unix_sockets := None; req_allow_local_binding := Some false;
  req_header_injections := None;
|}.

(** A rule that allows a host and one that forbids another. *)
Definition sample_rules : Policy str := {|
  rules_by_program := ∅;
  network_rules := [{| net_host := lit "pypi.test"; net_protocol := Https; net_decision := Allow; net_justification := None |};
                    {| net_host := lit "evil.test"; net_protocol := Http; net_decision := Forbidden; net_justification := None |}];
  host_executables_by_name := ∅;
|}.

Definition spec_or_default (m : res SpecError NetworkProxySpec) : NetworkProxySpec :=
  match m with
  | Ok spec => spec
  | _ => {| base_config := default_config; spec_requirements := None; spec_config := default_config;
            spec_constraints := default_constraints; hard_deny_allowlist_misses := false |}
  end.
Definition state_or_empty (m : res SpecError ConfigState) : ConfigState :=
  match m with Ok s => s | _ => empty_state default_constraints end.

Definition sample_spec : NetworkProxySpec :=
  spec_or_default (from_config_and_constraints default_config (Some sample_requirements) ProfileManaged).
Lemma sample_spec_Ok :
  from_config_and_constraints default_config (Some sample_requirements) ProfileManaged = Ok sample_spec.
Proof. vm_compute. reflexivity. Qed.

Definition ruled_spec : NetworkProxySpec := spec_or_default (with_exec_policy_network_rules sample_spec sample_rules).
Lemma ruled_spec_Ok : with_exec_policy_network_rules sample_spec sample_rules = Ok ruled_spec.
Proof. vm_compute. reflexivity. Qed.

Definition ruled_state : ConfigState := state_or_empty (build_config_state_for_spec ruled_spec).
Lemma ruled_state_Ok : build_config_state_for_spec ruled_spec = Ok ruled_state.
Proof. vm_compute. reflexivity. Qed.

Example spec_state_starts_witness :
  build_config_state_for_spec ruled_spec = Ok ruled_state ∧
  reachable (Sys {| state := ruled_state; broker := (0 : @Broker _ sample_broker) |} []).
Proof.
  split; [exact ruled_state_Ok|].
  apply (spec_state_starts (AP := str) ruled_spec ruled_state (0 : @Broker _ sample_broker)); [|exact ruled_state_Ok].
  apply (spec_with_rules sample_spec sample_rules); [|exact ruled_spec_Ok].
  exact (spec_from_config _ _ _ _ sample_spec_Ok).
Defined.

Example saved_rules_applied_witness :
  decide_host ruled_state (lit "evil.test") 443 sample_lookup = Blocked Denied ∧
  decide_host ruled_state (lit "db.corp.test") 443 sample_lookup = Blocked Denied ∧
  decide_host ruled_state (lit "pypi.test") 443 sample_lookup = Allowed.
Proof.
  destruct (saved_rules_applied sample_spec sample_rules ruled_spec ruled_state ruled_spec_Ok ruled_state_Ok) as [Hd _].
  split; [|split].
  - apply Hd; [reflexivity|decide_now|discriminate|]. left. vm_compute. reflexivity.
  - apply Hd; [reflexivity|decide_now|discriminate|]. right. split.
    + exists (lit "db.corp.test"). split; [|reflexivity].
      assert (E : denied_list (spec_config sample_spec) = [lit "db.corp.test"]) by (vm_compute; reflexivity).
      rewrite E. by left.
    + intros h. simpl. case_bool_decide as Hh; [discriminate|]. case_bool_decide as Hh'; [|discriminate].
      rewrite <- Hh'. vm_compute. discriminate.
  - vm_compute. reflexivity.
Defined.

(** The environment asks for the network of another company and for local destinations. *)
Definition sample_environment : EnvironmentNetworkPolicy := {|
  env_domains := Some [Entry (lit "**.corp.test") PermAllow; Entry (lit "api.partner.test") PermAllow;
                       Entry (lit "hr.corp.test") PermDeny];
  env_unix_sockets := Some {[ lit "/run/docker.sock" := SocketAllow ]};
  env_allow_upstream_proxy := true; env_allow_all_unix_sockets := false; env_allow_local_binding := true;
  env_managed_allowed_domains_only := false;
|}.

Definition environment_spec : NetworkProxySpec :=
  spec_or_default (for_environment (Some sample_spec) sample_environment ProfileManaged sample_rules).
Lemma environment_spec_Ok :
  for_environment (Some sample_spec) sample_environment ProfileManaged sample_rules = Ok environment_spec.
Proof. vm_compute. reflexivity. Qed.

Example environment_never_widens_witness :
  denied_list (spec_config environment_spec) = [lit "evil.test"; lit "hr.corp.test"; lit "db.corp.test"] ∧
  allow_local_binding (spec_config environment_spec) = false ∧ allow_unix_sockets (spec_config environment_spec) = [].
Proof.
  split; [vm_compute; reflexivity|].
  destruct (environment_never_widens _ _ _ _ _ environment_spec_Ok) as (inherited & Hi & _ & _ & Hl & _ & _ & _).
  split; [|vm_compute; reflexivity]. rewrite Hl. cbn in Hi.
  assert (E : recompute_for_permission_profile sample_spec ProfileManaged = Ok sample_spec) by (vm_compute; reflexivity).
  assert (inherited = sample_spec) as -> by congruence. vm_compute. reflexivity.
Defined.

Definition remote_or_default (m : res SpecError RemoteNetworkProxyConfig) : RemoteNetworkProxyConfig :=
  match m with
  | Ok r => r
  | _ => {| remote_enabled := false; remote_enable_socks5 := false; remote_enable_socks5_udp := false;
            remote_allow_upstream_proxy := false; remote_allow_all_unix_sockets := false; remote_mode := Limited;
            remote_domains := None; remote_unix_sockets := None; remote_allow_local_binding := false |}
  end.

Example remote_decides_alike_witness :
  let remote := remote_or_default (from_effective_config sample_config) in
  let s := built_or_empty sample_config default_constraints in
  let s' := built_or_empty (into_network_proxy_config remote) default_constraints in
  decide_host s (lit "api.corp.test") 443 sample_lookup = Allowed ∧
  decide_host s' (lit "api.corp.test") 443 sample_lookup = decide_host s (lit "api.corp.test") 443 sample_lookup.
Proof.
  split; [vm_compute; reflexivity|].
  apply (remote_decides_alike sample_config (remote_or_default (from_effective_config sample_config)) _ _
    (lit "api.corp.test") 443 sample_lookup true Some []); vm_compute; reflexivity.
Defined.

End sample.
