(* ===== verification/Orchestrator.v ===== *)
(** * Approvals, sandboxes and retries of a tool call

    Models [core/src/tools/orchestrator.rs] and the rules of
    [core/src/tools/sandboxing.rs]: the approval a call needs, the sandbox of its
    first attempt, and when it is tried again outside of the sandbox. The session
    that asks for approvals, the network approval service and the tool's own run
    are the operations of a [ToolHost] over its state; telemetry is left out, and
    so are the parts of an attempt that do not depend on the sandbox decision. *)

From S2P Require Import Prelude RustStr RustOrd IpAddr NetPolicy NetConfig MitmHook NetState NetRuntime.
From S2P Require Import Utf8 PathConvention PathUri PathText FsPolicy FsDeny FsTransform FsProfile.
From S2P Require Import PatchParser SeekSequence FileUpdate ApplyPatch Invocation PatchSafety.
Open Scope list_scope.

(** ** Network approvals ([core/src/network_policy_decision.rs]) *)

Inductive NetworkApprovalProtocol := ApHttp | ApHttps | ApSocks5Tcp | ApSocks5Udp.

Record NetworkApprovalContext := { na_host : str; na_protocol : NetworkApprovalProtocol }.

Record NetworkPolicyDecisionPayload := {
  pl_decision : NetworkPolicyDecision;
  pl_source : NetworkDecisionSource;
  pl_protocol : option NetworkApprovalProtocol;
  pl_host : option str;
  pl_reason : option str;
  pl_port : option N;
}.

Definition is_ask_from_decider (p : NetworkPolicyDecisionPayload) : bool :=
  match pl_decision p, pl_source p with PolicyAsk, Decider => true | _, _ => false end.

Definition network_approval_context_from_payload (payload : NetworkPolicyDecisionPayload)
    : option NetworkApprovalContext :=
  if negb (is_ask_from_decider payload) then None
  else protocol ← pl_protocol payload;
       host ← trim <$> pl_host payload;
       if bool_decide (host = []) then None else Some {| na_host := host; na_protocol := protocol |}.

(** ** Rules ([core/src/tools/sandboxing.rs]) *)

Inductive SandboxOverride := NoOverride | BypassSandboxFirstAttempt.

Definition default_exec_approval_requirement {U} (policy : AskForApproval) (p : FileSystemSandboxPolicy U)
    : ExecApprovalRequirement :=
  let needs_approval :=
    match policy with
    | Never => false
    | OnRequest | Granular _ => bool_decide (fs_kind p = Restricted)
    | UnlessTrusted => true
    end in
  if needs_approval && match policy with Granular c => negb (sandbox_approval c) | _ => false end
  then Forbidden_ (lit "approval policy disallowed sandbox approval prompt")
  else if needs_approval then NeedsApproval None None
  else Skip_ false None.

Definition unsandboxed_execution_allowed {U} (native : PathConvention) (p : FileSystemSandboxPolicy U) : bool :=
  negb (has_denied_read_restrictions native p).

Definition sandbox_override_for_first_attempt {U} (native : PathConvention)
    (sandbox_permissions : SandboxPermissions) (requirement : ExecApprovalRequirement)
    (p : FileSystemSandboxPolicy U) : SandboxOverride :=
  if negb (unsandboxed_execution_allowed native p) then NoOverride
  else match requirement with
       | Skip_ true _ => BypassSandboxFirstAttempt
       | _ => if requires_escalated_permissions sandbox_permissions then BypassSandboxFirstAttempt
              else NoOverride
       end.

Definition sandbox_permissions_preserving_denied_reads {U} (native : PathConvention)
    (sandbox_permissions : SandboxPermissions) (p : FileSystemSandboxPolicy U) : SandboxPermissions :=
  if requires_escalated_permissions sandbox_permissions && negb (unsandboxed_execution_allowed native p)
  then UseDefault else sandbox_permissions.

(** [managed_network_for_sandbox_permissions]; [N] is the proxy. *)
Definition managed_network_for_sandbox_permissions {N} (network : option N)
    (sandbox_permissions : SandboxPermissions) : option N :=
  if requires_escalated_permissions sandbox_permissions then None else network.

(** The default methods of the trait [Approvable], and those of [ApplyPatchRuntime]. *)
Definition default_should_bypass_approval (policy : AskForApproval) (already_approved : bool) : bool :=
  if already_approved then true else match policy with Never => true | _ => false end.

Definition default_wants_no_sandbox_approval (policy : AskForApproval) : bool :=
  match policy with
  | UnlessTrusted => true
  | Never | OnRequest => false
  | Granular c => sandbox_approval c
  end.

Definition apply_patch_wants_no_sandbox_approval (policy : AskForApproval) : bool :=
  match policy with
  | Never => false
  | Granular c => sandbox_approval c
  | OnRequest | UnlessTrusted => true
  end.

(** ** Errors and attempts *)

(** [CodexErr] as far as its details are looked at; [E] is any other error, [X]
    the output of a command. *)
Inductive CodexErr (E X : Type) :=
  | SandboxDenied (output : X) (network_policy_decision : option NetworkPolicyDecisionPayload)
  | OtherErr (e : E).
Arguments SandboxDenied {E X} output network_policy_decision.
Arguments OtherErr {E X} e.

Inductive ToolError (E X : Type) := Rejected (message : str) | Codex (e : CodexErr E X).
Arguments Rejected {E X} message.
Arguments Codex {E X} e.

Record SandboxAttempt (U : Type) := {
  at_sandbox : SandboxType;
  sandbox_requested : bool;
  at_permissions : PermissionProfile U;
  exec_server_permissions : PermissionProfile U;
  enforce_managed_network : bool;
  at_sandbox_cwd : U;
  sandbox_exe : option str;
}.
Arguments at_sandbox {U} _.
Arguments sandbox_requested {U} _.
Arguments at_permissions {U} _.
Arguments exec_server_permissions {U} _.
Arguments enforce_managed_network {U} _.
Arguments at_sandbox_cwd {U} _.
Arguments sandbox_exe {U} _.

(** The parts of an [ApprovalContext] the orchestrator decides. *)
Record ApprovalContext := {
  ac_strict_auto_review : bool;
  approval_reason : option str;
  retry_reason : option str;
  network_approval_context : option NetworkApprovalContext;
}.

(** The session, the network approvals and the tool's [run]: [A] is an active
    network approval, [D] a deferred one. *)
Class ToolHost (U E X A D Out W : Type) := {
  request_approval : ApprovalContext → W → (ToolError E X + unit) * W;
  begin_network_approval : bool → W → (ToolError E X + option A) * W;
  into_deferred : A → option D;
  tool_run : SandboxAttempt U → option A → W → (ToolError E X + Out) * W;
  finish_deferred_network_approval : option D → W → (ToolError E X + unit) * W;
}.

(** A tool and its request: the methods of [Approvable], [Sandboxable] and
    [ToolRuntime] that the orchestrator calls. *)
Record Tool (U : Type) := {
  tool_sandbox_permissions : SandboxPermissions;
  tool_exec_approval_requirement : option ExecApprovalRequirement;
  should_bypass_approval : AskForApproval → bool → bool;
  wants_no_sandbox_approval : AskForApproval → bool;
  approval_action : str + unit;
  sandbox_preference : SandboxablePreference;
  escalate_on_failure : bool;
  uses_executor_managed_process_sandbox : bool;
  (* [additional_permissions] of the trigger of the specification *)
  network_approval_spec : option (option (AdditionalPermissionProfile U));
  tool_sandbox_cwd : option U;
}.
Arguments tool_sandbox_permissions {U} _.
Arguments tool_exec_approval_requirement {U} _.
Arguments should_bypass_approval {U} _.
Arguments wants_no_sandbox_approval {U} _.
Arguments approval_action {U} _.
Arguments sandbox_preference {U} _.
Arguments escalate_on_failure {U} _.
Arguments uses_executor_managed_process_sandbox {U} _.
Arguments network_approval_spec {U} _.
Arguments tool_sandbox_cwd {U} _.

(** The turn and the environment of the call. *)
Record CallContext (U : Type) := {
  approval_policy : AskForApproval;
  strict_auto_review : bool;
  owner_network_policy : bool;
  permission_profile : PermissionProfile U;
  (* [permission_profile_with_workspace_roots] *)
  profile_with_workspace_roots : PermissionProfile U;
  windows_sandbox_level : WindowsSandboxLevel;
  controller_proxy_enabled : bool;
  turn_has_network : bool;
  env_cwd : U;
  codex_sandbox_exe : option str;
}.
Arguments approval_policy {U} _.
Arguments strict_auto_review {U} _.
Arguments owner_network_policy {U} _.
Arguments permission_profile {U} _.
Arguments profile_with_workspace_roots {U} _.
Arguments windows_sandbox_level {U} _.
Arguments controller_proxy_enabled {U} _.
Arguments turn_has_network {U} _.
Arguments env_cwd {U} _.
Arguments codex_sandbox_exe {U} _.

Section orchestrator.
Context {U UE E X A D Out W : Type} `{UL : !UrlLib U UE} `{TH : !ToolHost U E X A D Out W}.
Context (os : TargetOs).
Implicit Types (tool : Tool U) (c : CallContext U) (attempt : SandboxAttempt U).

Definition is_escalated attempt : bool :=
  negb (sandbox_requested attempt)
  && should_sandbox os (at_permissions attempt) PrefAuto (enforce_managed_network attempt).

(** ** The monad of the host *)

Definition OM (R : Type) : Type := W → (ToolError E X + R) * W.
Definition om_ret {R} (r : R) : OM R := λ w, (inr r, w).
Definition om_throw {R} (e : ToolError E X) : OM R := λ w, (inl e, w).
Definition om_bind {R S} (m : OM R) (k : R → OM S) : OM S := λ w,
  match m w with (inr r, w') => k r w' | (inl e, w') => (inl e, w') end.

Notation "'do*' x := m 'in' k" := (om_bind m (λ x, k))
  (at level 10, x pattern, m at level 100, k at level 200).

(** [run_attempt]: the result and the deferred network approval. *)
Definition run_attempt attempt : W → (ToolError E X + Out) * option D * W := λ w,
  match begin_network_approval (enforce_managed_network attempt) w with
  | (inl err, w) => (inl err, None, w)
  | (inr network_approval, w) =>
      let '(run_result, w) := tool_run attempt network_approval w in
      match network_approval with
      | None => (run_result, None, w)
      | Some network_approval =>
          let deferred := into_deferred network_approval in
          match run_result with
          | inl err =>
              match finish_deferred_network_approval deferred w with
              | (inl err', w) => (inl err', None, w)
              | (inr _, w) => (inl err, None, w)
              end
          | inr out => (inr out, deferred, w)
          end
      end
  end.

(** [approval_action(..)?] and [request_approval(..).await?]. *)
Definition ask tool (ctx : ApprovalContext) : OM unit :=
  match approval_action tool with
  | inl err => om_throw (Rejected (lit "could not prepare approval action: " ++ err))
  | inr _ => request_approval ctx
  end.

(** ** The decisions of a call *)

Definition call_permissions tool c : PermissionProfile U :=
  if uses_executor_managed_process_sandbox tool then permission_profile c
  else profile_with_workspace_roots c.

Definition call_policy tool c : FileSystemSandboxPolicy U :=
  file_system_sandbox_policy (call_permissions tool c).

Definition call_requirement tool c : ExecApprovalRequirement :=
  match tool_exec_approval_requirement tool with
  | Some requirement => requirement
  | None => default_exec_approval_requirement (approval_policy c) (call_policy tool c)
  end.

(** 1) Approval; the result is [already_approved]. *)
Definition approve tool c : OM bool :=
  match call_requirement tool c with
  | Skip_ _ _ =>
      if strict_auto_review c then
        do* _ := ask tool {| ac_strict_auto_review := strict_auto_review c; approval_reason := None;
                             retry_reason := None; network_approval_context := None |} in
        om_ret true
      else om_ret false
  | Forbidden_ reason => om_throw (Rejected reason)
  | NeedsApproval reason _ =>
      do* _ := ask tool {| ac_strict_auto_review := strict_auto_review c; approval_reason := reason;
                           retry_reason := None; network_approval_context := None |} in
      om_ret true
  end.

Definition unsandboxed_allowed tool c : bool :=
  negb (owner_network_policy c)
  && unsandboxed_execution_allowed (native_convention os) (call_policy tool c).

Definition managed_network_active tool c : bool :=
  if owner_network_policy c then
    controller_proxy_enabled c
    || match network_approval_spec tool with
       | Some additional =>
           network_is_enabled
             (effective_network_sandbox_policy (network_sandbox_policy (permission_profile c)) additional)
       | None => false
       end
  else turn_has_network c.

Definition first_override tool c : SandboxOverride :=
  if unsandboxed_allowed tool c
  then sandbox_override_for_first_attempt (native_convention os) (tool_sandbox_permissions tool)
         (call_requirement tool c) (call_policy tool c)
  else NoOverride.

Definition attempt_with tool c (requested : bool) (exe : option str) : SandboxAttempt U :=
  {| at_sandbox :=
       if requested && negb (uses_executor_managed_process_sandbox tool)
       then select_initial os (call_permissions tool c) (sandbox_preference tool)
              (windows_sandbox_level c) (managed_network_active tool c)
       else SbNone;
     sandbox_requested := requested;
     at_permissions := call_permissions tool c;
     exec_server_permissions := permission_profile c;
     enforce_managed_network := managed_network_active tool c;
     at_sandbox_cwd := default (env_cwd c) (tool_sandbox_cwd tool);
     sandbox_exe := exe |}.

(** 2) The first attempt. *)
Definition initial_attempt tool c : SandboxAttempt U :=
  let requested :=
    match first_override tool c with
    | BypassSandboxFirstAttempt => false
    | NoOverride => should_sandbox os (call_permissions tool c) (sandbox_preference tool)
                      (managed_network_active tool c)
    end in
  attempt_with tool c requested (codex_sandbox_exe c).

(** The attempt after a denial by the sandbox. *)
Definition retry_attempt tool c : SandboxAttempt U :=
  let requested :=
    negb (unsandboxed_allowed tool c)
    && should_sandbox os (call_permissions tool c) (sandbox_preference tool)
         (managed_network_active tool c) in
  attempt_with tool c requested (if unsandboxed_allowed tool c then None else codex_sandbox_exe c).

Definition denial_reason (ctx : option NetworkApprovalContext) : str :=
  match ctx with
  | Some ctx => lit "Network access to " ++ [c_dquote] ++ na_host ctx ++ [c_dquote] ++ lit " is blocked by policy."
  | None => lit "command failed; retry without sandbox?"
  end.

(** Whether a denial may lead to a second attempt, and with which network
    approval context. *)
Definition may_retry tool c (decision : option NetworkPolicyDecisionPayload)
    : option (option NetworkApprovalContext) :=
  let network_context :=
    if managed_network_active tool c then decision ≫= network_approval_context_from_payload else None in
  let has_context := match network_context with Some _ => true | None => false end in
  let prompt_allowed :=
    match approval_policy c with OnRequest => true | _ => false end && has_context
    && match default_exec_approval_requirement (approval_policy c) (call_policy tool c) with
       | NeedsApproval _ _ => true | _ => false end in
  if match decision with Some _ => true | None => false end && negb has_context then None
  else if negb (escalate_on_failure tool) then None
  else if negb (wants_no_sandbox_approval tool (approval_policy c)) && negb prompt_allowed then None
  else if negb (unsandboxed_allowed tool c) && negb has_context then None
  else Some network_context.

Definition bypass_retry_approval tool c (already_approved : bool) (ctx : option NetworkApprovalContext) : bool :=
  negb (strict_auto_review c)
  && should_bypass_approval tool (approval_policy c) already_approved
  && match ctx with None => true | Some _ => false end.

Definition retry tool c (already_approved : bool) (ctx : option NetworkApprovalContext) : OM (Out * option D) :=
  do* _ :=
    if bypass_retry_approval tool c already_approved ctx then om_ret ()
    else ask tool {| ac_strict_auto_review := strict_auto_review c;
                     approval_reason := match call_requirement tool c with
                                        | NeedsApproval reason _ => reason
                                        | Skip_ _ _ | Forbidden_ _ => None
                                        end;
                     retry_reason := Some (denial_reason ctx);
                     network_approval_context := ctx |} in
  λ w, let '(result, deferred, w) := run_attempt (retry_attempt tool c) w in
       (match result with inr out => inr (out, deferred) | inl err => inl err end, w).

(** [ToolOrchestrator::run] *)
Definition orchestrate tool c : OM (Out * option D) :=
  if owner_network_policy c && requires_escalated_permissions (tool_sandbox_permissions tool)
  then om_throw (Rejected
         (lit "attachment-owned network policy cannot be bypassed by sandbox escalation"))
  else
    do* already_approved := approve tool c in
    λ w, let '(first_result, deferred, w) := run_attempt (initial_attempt tool c) w in
         match first_result with
         | inr out => (inr (out, deferred), w)
         | inl (Codex (SandboxDenied output decision)) =>
             match may_retry tool c decision with
             | None => (inl (Codex (SandboxDenied output decision)), w)
             | Some ctx => retry tool c already_approved ctx w
             end
         | inl err => (inl err, w)
         end.
End orchestrator.

(** * Tool calls: approvals before escalation

    A host that records what it is asked to do, over any host. Whatever the
    session answers and the tool's runs return: an attempt outside of a sandbox
    that the policy asks for follows a granted approval or a rule that allows it,
    and never happens when the policy denies reads. *)

Inductive Event (U : Type) :=
  | EvApproval (ctx : ApprovalContext) (granted : bool)
  | EvAttempt (attempt : SandboxAttempt U).
Arguments EvApproval {U} ctx granted.
Arguments EvAttempt {U} attempt.

Section facts.
Context {U UE E X A D Out W : Type} `{UL : !UrlLib U UE} `{TH : !ToolHost U E X A D Out W}.
Context (os : TargetOs).
Implicit Types (tool : Tool U) (c : CallContext U) (attempt : SandboxAttempt U).

Abbreviation TW := (W * list (Event U))%type.

(** ** The recording host *)

#[local] Instance recording : ToolHost U E X A D Out TW := {
  request_approval ctx w :=
    let '(r, w') := request_approval ctx w.1 in
    (r, (w', w.2 ++ [EvApproval ctx match r with inr _ => true | inl _ => false end]));
  begin_network_approval b w := let '(r, w') := begin_network_approval b w.1 in (r, (w', w.2));
  into_deferred := into_deferred;
  tool_run attempt a w := let '(r, w') := tool_run attempt a w.1 in (r, (w', w.2 ++ [EvAttempt attempt]));
  finish_deferred_network_approval d w :=
    let '(r, w') := finish_deferred_network_approval d w.1 in (r, (w', w.2));
}.

(** What a run of an attempt records: the attempt, or nothing. *)
Lemma run_attempt_events attempt (w w' : TW) r d :
  run_attempt attempt w = (r, d, w') →
  w'.2 = w.2 ++ [EvAttempt attempt] ∨ (w'.2 = w.2 ∧ ∃ e, r = inl e).
Proof.
  unfold run_attempt. simpl. destruct (begin_network_approval _ w.1) as [[err|na] w1]; simpl.
  { intros [= <- <- <-]. right. eauto. }
  destruct (tool_run attempt na w1) as [rr w2]; simpl. destruct na as [na|].
  - destruct rr as [err|out].
    + destruct (finish_deferred_network_approval (into_deferred na) w2) as [[err'|] w3]; simpl;
        intros [= <- <- <-]; by left.
    + intros [= <- <- <-]. by left.
  - intros [= <- <- <-]. by left.
Qed.

Lemma ask_events tool ctx (w w' : TW) r :
  ask (E:=E) (X:=X) (A:=A) (D:=D) (Out:=Out) tool ctx w = (r, w') →
  (w'.2 = w.2 ∧ ∃ e, r = inl e) ∨ w'.2 = w.2 ++ [EvApproval ctx match r with inr _ => true | inl _ => false end].
Proof.
  unfold ask. destruct (approval_action tool) as [err|]; [intros [= <- <-]; left; eauto|].
  simpl. destruct (request_approval ctx w.1) as [[e|] w1]; intros [= <- <-]; by right.
Qed.

(** ** The protocol of a call *)

Definition first_context c (reason : option str) : ApprovalContext :=
  {| ac_strict_auto_review := strict_auto_review c; approval_reason := reason; retry_reason := None;
     network_approval_context := None |}.

(** The approval phase: refused, approved, or nothing to ask. *)
Inductive approval_phase tool c : list (Event U) → option bool → Prop :=
  | ph_unasked : approval_phase tool c [] None
  | ph_refused reason : approval_phase tool c [EvApproval (first_context c reason) false] None
  | ph_approved reason : approval_phase tool c [EvApproval (first_context c reason) true] (Some true)
  | ph_skipped b am : call_requirement tool c = Skip_ b am → strict_auto_review c = false →
      approval_phase tool c [] (Some false).

(** What follows the first attempt. *)
Inductive retry_phase tool c (approved : bool) : list (Event U) → Prop :=
  | rt_none : retry_phase tool c approved []
  | rt_asked actx granted : retry_reason actx ≠ None → retry_phase tool c approved [EvApproval actx granted]
  | rt_bypass decision ctx :
      may_retry os tool c decision = Some ctx → bypass_retry_approval tool c approved ctx = true →
      retry_phase tool c approved [EvAttempt (retry_attempt os tool c)]
  | rt_approved actx : retry_reason actx ≠ None →
      retry_phase tool c approved [EvApproval actx true; EvAttempt (retry_attempt os tool c)].

Inductive call_log tool c : list (Event U) → Prop :=
  | log_stopped t : approval_phase tool c t None → call_log tool c t
  | log_run t1 approved t2 t3 :
      approval_phase tool c t1 (Some approved) → t2 = [] ∨ t2 = [EvAttempt (initial_attempt os tool c)] →
      retry_phase tool c approved t3 → call_log tool c (t1 ++ t2 ++ t3).

Definition granted_of {R} (r : ToolError E X + R) : bool := match r with inr _ => true | inl _ => false end.

Lemma approve_log tool c (w w' : TW) r :
  approve (E:=E) (X:=X) (A:=A) (D:=D) (Out:=Out) tool c w = (r, w') →
  ∃ t, w'.2 = w.2 ++ t ∧ approval_phase tool c t match r with inr b => Some b | inl _ => None end.
Proof.
  unfold approve.
  assert (Hask : ∀ reason,
    om_bind (ask (E:=E) (X:=X) (A:=A) (D:=D) (Out:=Out) tool (first_context c reason)) (λ _, om_ret true) w = (r, w') →
    ∃ t, w'.2 = w.2 ++ t ∧ approval_phase tool c t match r with inr b => Some b | inl _ => None end).
  { intros reason. unfold om_bind. destruct (ask _ _ w) as [ra wa] eqn:Ea. apply ask_events in Ea.
    destruct ra as [e|[]]; simpl; intros [= <- <-].
    - destruct Ea as [[-> _]| ->]; [exists []; rewrite app_nil_r|]; eauto using approval_phase.
    - destruct Ea as [[_ [e ?]]| ->]; [done|]. eauto using approval_phase. }
  destruct (call_requirement tool c) as [b am|reason am|reason] eqn:Er.
  - destruct (strict_auto_review c) eqn:Es; [rewrite <- Es at 1; apply (Hask None)|].
    intros [= <- <-]. exists []. rewrite app_nil_r. eauto using approval_phase.
  - apply Hask.
  - intros [= <- <-]. exists []. rewrite app_nil_r. eauto using approval_phase.
Qed.

Lemma retry_log tool c approved decision ctx (w w' : TW) r :
  may_retry os tool c decision = Some ctx →
  retry (E:=E) (X:=X) (A:=A) (D:=D) (Out:=Out) os tool c approved ctx w = (r, w') →
  ∃ t, w'.2 = w.2 ++ t ∧ retry_phase tool c approved t.
Proof.
  intros Hm. unfold retry, om_bind. destruct (bypass_retry_approval tool c approved ctx) eqn:Eb.
  - simpl. destruct (run_attempt _ w) as [[rr d] w1] eqn:Er. apply run_attempt_events in Er. intros [= _ <-].
    destruct Er as [-> |[-> _]]; [|exists []; rewrite app_nil_r]; eauto using retry_phase.
  - set (actx := {| ac_strict_auto_review := _ |}). assert (Hr : retry_reason actx ≠ None) by done.
    destruct (ask tool actx w) as [ra wa] eqn:Ea. apply ask_events in Ea. destruct ra as [e|[]].
    + intros [= <- <-]. destruct Ea as [[-> _]| ->]; [exists []; rewrite app_nil_r|]; eauto using retry_phase.
    + destruct Ea as [[_ [e ?]]|Ea]; [done|].
      destruct (run_attempt _ wa) as [[rr d] w1] eqn:Er. apply run_attempt_events in Er. intros [= _ <-].
      destruct Er as [Er|[Er _]]; rewrite Er, Ea, <- ?app_assoc; eauto using retry_phase.
Qed.

(** Every call follows the protocol. *)
Lemma orchestrate_log tool c (w w' : TW) r :
  orchestrate (E:=E) (X:=X) (A:=A) (D:=D) (Out:=Out) os tool c w = (r, w') →
  ∃ t, w'.2 = w.2 ++ t ∧ call_log tool c t.
Proof.
  unfold orchestrate. destruct (_ && _).
  { intros [= _ <-]. exists []. rewrite app_nil_r. split; [done|]. apply log_stopped, ph_unasked. }
  unfold om_bind. destruct (approve tool c w) as [ra wa] eqn:Ea. apply approve_log in Ea as (t1 & Et1 & Ha).
  destruct ra as [e|approved]; [intros [= _ <-]; eauto using call_log|].
  destruct (run_attempt _ wa) as [[fr d] w1] eqn:Er.
  assert (Hw1 : ∃ t2, w1.2 = w.2 ++ t1 ++ t2 ∧ (t2 = [] ∨ t2 = [EvAttempt (initial_attempt os tool c)])).
  { apply run_attempt_events in Er as [->|[-> _]]; rewrite Et1; [|exists []]; rewrite ?app_nil_r, <- ?app_assoc; eauto. }
  destruct Hw1 as (t2 & Et2 & Ht2).
  assert (Hstop : ∀ wx : TW, wx = w1 → ∃ t, wx.2 = w.2 ++ t ∧ call_log tool c t).
  { intros wx ->. exists (t1 ++ t2 ++ []). split; [by rewrite app_nil_r|]. eapply log_run; eauto using retry_phase. }
  destruct fr as [[msg|[out decision|e]]|out]; try (intros [= _ <-]; by apply Hstop).
  destruct (may_retry os tool c decision) as [ctx|] eqn:Em; [|intros [= _ <-]; by apply Hstop].
  intros (t3 & Et3 & Ht3)%(retry_log _ _ _ decision); [|done].
  exists (t1 ++ t2 ++ t3). split; [by rewrite Et3, Et2, <- !app_assoc|]. by eapply log_run.
Qed.

(** ** Attempts and what came before them *)

Definition granted_before (pre : list (Event U)) : Prop := ∃ actx, EvApproval actx true ∈ pre.

Lemma attempt_in_log tool c t pre a post :
  call_log tool c t → t = pre ++ EvAttempt a :: post →
  ∃ approved t1, approval_phase tool c t1 (Some approved)
    ∧ ((a = initial_attempt os tool c ∧ pre = t1)
       ∨ a = retry_attempt os tool c
         ∧ ((∃ pre' actx, pre = pre' ++ [EvApproval actx true] ∧ retry_reason actx ≠ None)
            ∨ ∃ decision ctx t2, may_retry os tool c decision = Some ctx
                ∧ bypass_retry_approval tool c approved ctx = true ∧ pre = t1 ++ t2)).
Proof.
  intros Hl Et. destruct Hl as [t Hp|t1 approved t2 t3 H1 H2 H3].
  { exfalso. inversion Hp; subst; by destruct pre as [|? [|? ?]]. }
  exists approved, t1. split; [done|].
  assert (Hin : ∀ b, b = EvAttempt a → b ∉ t1).
  { intros b -> Hin. inversion H1; subst; [apply list_elem_of_singleton in Hin; done|by apply not_elem_of_nil in Hin]. }
  assert (Hcut : ∃ pre', pre = t1 ++ pre' ∧ t2 ++ t3 = pre' ++ EvAttempt a :: post).
  { clear H1 H2 H3. revert pre Et Hin. induction t1 as [|x t1 IH]; intros pre Et Hin; [by exists pre|].
    destruct pre as [|y pre]; simpl in Et; injection Et as -> Et; [exfalso; apply (Hin _ eq_refl); by left|].
    destruct (IH pre Et) as (pre' & -> & ?); [|by exists pre'].
    intros b Hb Hi. apply (Hin b Hb). by right. }
  destruct Hcut as (pre' & -> & Hcut). destruct H2 as [-> | ->]; simpl in Hcut.
  - inversion H3; subst; [by destruct pre'|by destruct pre' as [|? [|? ?]]|..].
    + destruct pre' as [|? [|? ?]]; simplify_eq/=. right. split; [done|right]. exists decision, ctx, []. done.
    + destruct pre' as [|? [|? [|? ?]]]; simplify_eq/=. right. split; [done|left]. exists t1, actx. done.
  - destruct pre' as [|y pre']; simpl in Hcut; injection Hcut as Hy Hcut.
    { left. subst. split; [done|by rewrite app_nil_r]. }
    subst y. inversion H3; subst; [by destruct pre'|by destruct pre' as [|? [|? ?]]|..].
    + destruct pre' as [|? [|? ?]]; simplify_eq/=. right. split; [done|right]. by exists decision, ctx, [EvAttempt (initial_attempt os tool c)].
    + destruct pre' as [|? [|? [|? ?]]]; simplify_eq/=. right. split; [done|left].
      exists (t1 ++ [EvAttempt (initial_attempt os tool c)]), actx. by rewrite <- app_assoc.
Qed.

Lemma initial_escalated tool c :
  sandbox_preference tool = PrefAuto → is_escalated os (initial_attempt os tool c) = true →
  unsandboxed_allowed os tool c = true
  ∧ ((∃ am, call_requirement tool c = Skip_ true am)
     ∨ requires_escalated_permissions (tool_sandbox_permissions tool) = true).
Proof.
  unfold is_escalated, initial_attempt. cbn [sandbox_requested at_permissions enforce_managed_network attempt_with].
  intros ->. unfold first_override, sandbox_override_for_first_attempt.
  destruct (unsandboxed_allowed os tool c) eqn:Eu; [|by destruct (should_sandbox _ _ _ _)]. intros H. split; [done|].
  destruct (negb (unsandboxed_execution_allowed _ _)); [by destruct (should_sandbox _ _ _ _)|].
  destruct (requires_escalated_permissions _) eqn:Er; [by right|left].
  destruct (call_requirement tool c) as [[] am|?|?]; [eauto|by destruct (should_sandbox _ _ _ _)..].
Qed.

(** An attempt outside of a sandbox that is asked for, and what allows it. *)
Lemma escalated_attempts tool c (w w' : TW) r :
  sandbox_preference tool = PrefAuto →
  should_bypass_approval tool = default_should_bypass_approval →
  wants_no_sandbox_approval tool Never = false →
  orchestrate (E:=E) (X:=X) (A:=A) (D:=D) (Out:=Out) os tool c w = (r, w') →
  ∃ t, w'.2 = w.2 ++ t ∧ ∀ pre a post,
    t = pre ++ EvAttempt a :: post → is_escalated os a = true →
    granted_before pre
    ∨ ∃ bypass am, call_requirement tool c = Skip_ bypass am
        ∧ (bypass = true ∨ requires_escalated_permissions (tool_sandbox_permissions tool) = true).
Proof.
  intros Hpref Hby Hnever (t & Et & Hl)%orchestrate_log. exists t. split; [done|]. intros pre a post Hs Hesc.
  destruct (attempt_in_log _ _ _ _ _ _ Hl Hs) as (approved & t1 & Hp & [[-> ->]|[-> Hr]]).
  - destruct (initial_escalated tool c Hpref Hesc) as [_ Hwhy]. inversion Hp; subst.
    + left. eexists. by left.
    + right. destruct Hwhy as [[am' Hwhy]|Hwhy]; eauto.
  - destruct Hr as [(pre' & actx & -> & _)|(decision & ctx & t2 & Hm & Hb & ->)].
    { left. exists actx. apply elem_of_app. right. by left. }
    unfold bypass_retry_approval in Hb. apply andb_true_iff in Hb as [[_ Hb]%andb_true_iff _]. rewrite Hby in Hb.
    inversion Hp; subst; [left; eexists; apply elem_of_app; left; by left|].
    exfalso. unfold default_should_bypass_approval in Hb. destruct (approval_policy c) eqn:Ep; try done.
    unfold may_retry in Hm. rewrite Ep, Hnever in Hm. simpl in Hm.
    destruct (_ && negb _) in Hm; [done|]. by destruct (negb (escalate_on_failure tool)).
Qed.

(** C5. Leaving the sandbox needs an approval: for a tool that asks before it runs
    without the sandbox, every attempt outside of a sandbox that the policy asks
    for comes after an approval granted in the same call, unless no approval is
    required and either a rule lets the command bypass the sandbox or the request
    itself asks to run outside of it. *)
Theorem escalation_needs_approval tool c (w w' : TW) r :
  sandbox_preference tool = PrefAuto →
  should_bypass_approval tool = default_should_bypass_approval →
  wants_no_sandbox_approval tool Never = false →
  orchestrate (E:=E) (X:=X) (A:=A) (D:=D) (Out:=Out) os tool c w = (r, w') →
  ∃ t, w'.2 = w.2 ++ t ∧ ∀ pre a post,
    t = pre ++ EvAttempt a :: post → is_escalated os a = true →
    granted_before pre
    ∨ ∃ bypass am, call_requirement tool c = Skip_ bypass am
        ∧ (bypass = true ∨ requires_escalated_permissions (tool_sandbox_permissions tool) = true).
Proof. apply escalated_attempts. Qed.

(** C14. Denied reads keep the sandbox: when the policy of a call denies reads, or
    the network policy belongs to the owner of the attachment, no attempt of the
    call leaves a sandbox that the policy asks for, whatever was approved, asked
    for by the request or allowed by a rule. *)
Theorem denied_reads_keep_sandbox tool c (w w' : TW) r :
  sandbox_preference tool = PrefAuto →
  has_denied_read_restrictions (native_convention os) (call_policy tool c) || owner_network_policy c = true →
  orchestrate (E:=E) (X:=X) (A:=A) (D:=D) (Out:=Out) os tool c w = (r, w') →
  ∃ t, w'.2 = w.2 ++ t ∧ ∀ a, EvAttempt a ∈ t → is_escalated os a = false.
Proof.
  intros Hpref Hd (t & Et & Hl)%orchestrate_log. exists t. split; [done|]. intros a Hin.
  assert (Hu : unsandboxed_allowed os tool c = false).
  { unfold unsandboxed_allowed, unsandboxed_execution_allowed. by apply orb_true_iff in Hd as [-> | ->]; rewrite ?andb_false_r. }
  apply list_elem_of_split in Hin as (pre & post & Hs).
  destruct (attempt_in_log _ _ _ _ _ _ Hl Hs) as (approved & t1 & _ & [[-> _]|[-> _]]).
  - destruct (is_escalated os (initial_attempt os tool c)) eqn:Ee; [|done].
    apply initial_escalated in Ee as [Hu' _]; [congruence|done].
  - unfold is_escalated, retry_attempt.
    cbn [sandbox_requested at_permissions enforce_managed_network attempt_with].
    rewrite Hu, Hpref. by destruct (should_sandbox _ _ _ _).
Qed.

(** Under strict review nothing runs unreviewed: every attempt directly
    follows an approval that was granted, the second attempt a fresh one that
    names the reason for trying again. *)
Theorem strict_review_covers_attempts tool c (w w' : TW) r :
  strict_auto_review c = true →
  orchestrate (E:=E) (X:=X) (A:=A) (D:=D) (Out:=Out) os tool c w = (r, w') →
  ∃ t, w'.2 = w.2 ++ t ∧ ∀ pre a post, t = pre ++ EvAttempt a :: post →
    ∃ pre' actx, pre = pre' ++ [EvApproval actx true]
      ∧ (a = initial_attempt os tool c ∨ retry_reason actx ≠ None).
Proof.
  intros Hst (t & Et & Hl)%orchestrate_log. exists t. split; [done|]. intros pre a post Hs.
  destruct (attempt_in_log _ _ _ _ _ _ Hl Hs) as (approved & t1 & Hp & [[-> ->]|[-> Hr]]).
  - inversion Hp; subst; [|congruence]. eexists [], _. split; [done|by left].
  - destruct Hr as [(pre' & actx & -> & Hr)|(decision & ctx & t2 & _ & Hb & _)]; [eauto|].
    unfold bypass_retry_approval in Hb. by rewrite Hst in Hb.
Qed.
End facts.
