(* ===== verification/ShellCommand.v ===== *)
(** * Reading shell commands

    Models [shell-command/src/bash.rs], [powershell.rs] and [detect_shell_type]
    of [shell_detect.rs]: which invocations run a script of a shell, and the
    commands a script consists of. The parsers of Tree-sitter are the class
    [ShellGrammars]; a syntax tree is a value of [Node], with the text
    [Node::utf8_text] gives for it. File names are those of a POSIX host. *)

From stdpp Require Import sorting.
From S2P Require Import Prelude RustStr.
Open Scope list_scope.

(** ** Paths of the host ([std::path], on POSIX) *)

(** Whether a path is absolute, and its components: empty ones and dots are left
    out, but for a dot a relative path starts with. *)
Definition path_components (path : str) : bool * list str :=
  let absolute := starts_with [c_slash] path in
  let pieces := split_char c_slash path in
  let kept := List.filter (λ c, negb (bool_decide (c = []) || bool_decide (c = lit "."))) pieces in
  (absolute,
   match pieces with
   | first :: _ => if bool_decide (first = lit ".") then first :: kept else kept
   | [] => kept
   end).

(** [Path::eq], [Path::parent], [Path::file_name], [Path::file_stem] *)
Definition path_eqb (a b : str) : bool := bool_decide (path_components a = path_components b).

Definition path_parent_components (path : str) : option (bool * list str) :=
  match path_components path with
  | (_, []) => None
  | (absolute, components) => Some (absolute, removelast components)
  end.

Definition path_file_name_of (path : str) : option str :=
  match last (snd (path_components path)) with
  | Some name => if bool_decide (name = lit "..") || bool_decide (name = lit ".") then None else Some name
  | None => None
  end.

Definition path_file_stem (path : str) : option str :=
  name ← path_file_name_of path;
  Some match rsplit_once c_dot name with
       | Some (before, _) => if bool_decide (before = []) then name else before
       | None => name
       end.

(** ** Shells *)

Inductive ShellType := Zsh | Bash | PowerShell | Sh | Cmd.

#[global] Instance ShellType_eq : EqDecision ShellType.
Proof. solve_decision. Defined.

Definition shell_of_name (name : str) : option ShellType :=
  if bool_decide (name = lit "zsh") then Some Zsh
  else if bool_decide (name = lit "sh") then Some Sh
  else if bool_decide (name = lit "cmd") then Some Cmd
  else if bool_decide (name = lit "bash") then Some Bash
  else if bool_decide (name = lit "pwsh") then Some PowerShell
  else if bool_decide (name = lit "powershell") then Some PowerShell
  else None.

(** Every round but the last one makes the name shorter. *)
Fixpoint detect_shell_type_fuel (fuel : nat) (shell_path : str) : option ShellType :=
  match shell_of_name shell_path with
  | Some shell => Some shell
  | None =>
      match fuel with
      | 0 => None
      | S fuel =>
          shell_name ← path_file_stem shell_path;
          if path_eqb shell_name shell_path then None else detect_shell_type_fuel fuel shell_name
      end
  end.
Definition detect_shell_type (shell_path : str) : option ShellType :=
  detect_shell_type_fuel (length shell_path) shell_path.

(** ** Syntax trees *)

Inductive Node := mk_node {
  node_kind : str;
  node_is_named : bool;
  node_has_error : bool;
  node_start_byte : nat;
  utf8_text : option str;
  node_children : list Node;
}.

Class ShellGrammars := {
  try_parse_shell : str → option Node;
  (* [command_safety::try_parse_powershell_commands] *)
  try_parse_powershell_commands : str → option (list (list str));
}.

Definition named_children (n : Node) : list Node := List.filter node_is_named (node_children n).
Definition kind_is (k : string) (n : Node) : bool := bool_decide (node_kind n = lit k).
Definition kind_in (ks : list str) (n : Node) : bool := bool_decide (node_kind n ∈ ks).

Fixpoint node_size (n : Node) : nat := S (sum_list_with node_size (node_children n)).

(** The nodes in the order the loops [while let Some(node) = stack.pop()] see
    them: the last one pushed first. Fuel is the number of nodes. *)
Fixpoint drain (children : Node → list Node) (fuel : nat) (stack : list Node) : list Node :=
  match fuel, stack with
  | S fuel, node :: stack => node :: drain children fuel (rev (children node) ++ stack)
  | _, _ => []
  end.
Definition visited (children : Node → list Node) (root : Node) : list Node :=
  drain children (node_size root) [root].

(** ** Words *)

Definition is_literal_word_or_number (n : Node) : bool :=
  kind_in [lit "word"; lit "number"] n
  && bool_decide (named_children n = [])
  && match utf8_text n with
     | Some word => negb (starts_with [61%N] word) && negb (existsb (λ c, bool_decide (c ∈ lit "{}*?[]\~^#$`")) word)
     | None => false
     end.

Fixpoint has_escape (s : str) : bool :=
  match s with
  | a :: ((b :: _) as s') =>
      (a =? 92)%N && bool_decide (b ∈ [36; 96; 34; 92; 10]%N) || has_escape s'
  | _ => false
  end.

Definition parse_double_quoted_string (n : Node) : option str :=
  if negb (kind_is "string" n) || existsb (λ part, negb (kind_is "string_content" part)) (named_children n)
  then None
  else raw ← utf8_text n;
       stripped ← strip_prefix [c_dquote] raw ≫= strip_suffix [c_dquote];
       if has_escape stripped then None else Some stripped.

Definition parse_raw_string (n : Node) : option str :=
  if negb (kind_is "raw_string" n) then None
  else raw_string ← utf8_text n; strip_prefix [c_quote] raw_string ≫= strip_suffix [c_quote].

Definition non_empty_str (s : str) : option str := if bool_decide (s = []) then None else Some s.

Fixpoint parse_literal_shell_word (n : Node) : option str :=
  if kind_in [lit "word"; lit "number"] n then if is_literal_word_or_number n then utf8_text n else None
  else if kind_is "string" n then parse_double_quoted_string n
  else if kind_is "raw_string" n then parse_raw_string n
  else if kind_is "concatenation" n then
    (fix parts (cs : list Node) (concatenated : str) : option str :=
       match cs with
       | [] => non_empty_str concatenated
       | part :: cs' =>
           if node_is_named part
           then word ← parse_literal_shell_word part; parts cs' (concatenated ++ word)
           else parts cs' concatenated
       end) (node_children n) []
  else None.

(** ** Commands *)

(** One part of a concatenation in a plain command. *)
Definition plain_part (part : Node) : option str :=
  if kind_in [lit "word"; lit "number"] part then utf8_text part
  else if kind_is "string" part then parse_double_quoted_string part
  else if kind_is "raw_string" part then parse_raw_string part
  else None.

Definition plain_word (child : Node) : option str :=
  if kind_is "command_name" child then
    word_node ← head (named_children child);
    if kind_is "word" word_node then utf8_text word_node else None
  else if kind_in [lit "word"; lit "number"] child then utf8_text child
  else if kind_is "string" child then parse_double_quoted_string child
  else if kind_is "raw_string" child then parse_raw_string child
  else if kind_is "concatenation" child then
    parts ← mapM plain_part (named_children child); non_empty_str (concat parts)
  else None.

Definition parse_plain_command_from_node (cmd : Node) : option (list str) :=
  if negb (kind_is "command" cmd) then None else mapM plain_word (named_children cmd).

(** The words collected so far, once the name of the command is found. *)
Definition literal_word (words : option (list str)) (child : Node) : option (option (list str)) :=
  if kind_is "command_name" child then
    word_node ← head (named_children child);
    command_name ← parse_literal_shell_word word_node;
    Some (Some (default [] words ++ [command_name]))
  else Some match words, parse_literal_shell_word child with
            | Some words, Some word => Some (words ++ [word])
            | words, _ => words
            end.

Fixpoint literal_words (words : option (list str)) (children : list Node) : option (option (list str)) :=
  match children with
  | [] => Some words
  | child :: children => words ← literal_word words child; literal_words words children
  end.

Definition parse_literal_command_from_node (cmd : Node) : option (list str) :=
  if negb (kind_is "command" cmd) then None
  else words ← literal_words None (named_children cmd); words.

(** ** Scripts *)

Definition ALLOWED_KINDS : list str :=
  [lit "program"; lit "list"; lit "pipeline"; lit "command"; lit "command_name"; lit "word"; lit "string";
   lit "string_content"; lit "raw_string"; lit "number"; lit "concatenation"].
Definition ALLOWED_PUNCT_TOKENS : list str :=
  [lit "&&"; lit "||"; lit ";"; lit "|"; [c_dquote]; lit "'"].

Definition node_allowed (n : Node) : bool :=
  if node_is_named n
  then kind_in ALLOWED_KINDS n
       && negb (kind_in [lit "word"; lit "number"] n && negb (is_literal_word_or_number n))
  else negb (existsb (λ c, bool_decide (c ∈ lit "&;|")) (node_kind n) && negb (kind_in ALLOWED_PUNCT_TOKENS n))
       && (kind_in ALLOWED_PUNCT_TOKENS n || bool_decide (trim (node_kind n) = [])).

Definition starts_before (a b : Node) : Prop := node_start_byte a ≤ node_start_byte b.
#[global] Instance starts_before_dec : RelDecision starts_before.
Proof. intros a b. unfold starts_before. apply _. Defined.

Definition try_parse_word_only_commands_sequence (root : Node) : option (list (list str)) :=
  if node_has_error root then None
  else
    let nodes := visited node_children root in
    if negb (forallb node_allowed nodes) then None
    else mapM parse_plain_command_from_node
           (merge_sort starts_before (List.filter (λ n, node_is_named n && kind_is "command" n) nodes)).

Section grammars.
Context `{SG : !ShellGrammars}.

Definition parse_shell_script_into_commands (script : str) : option (list (list str)) :=
  tree ← try_parse_shell script; try_parse_word_only_commands_sequence tree.

Definition extract_bash_command (command : list str) : option (str * str) :=
  match command with
  | [shell; flag; script] =>
      if negb (bool_decide (flag ∈ [lit "-lc"; lit "-c"]))
         || negb (bool_decide (detect_shell_type shell ∈ [Some Zsh; Some Bash; Some Sh]))
      then None else Some (shell, script)
  | _ => None
  end.

Definition parse_shell_lc_plain_commands (command : list str) : option (list (list str)) :=
  '(_, script) ← extract_bash_command command; parse_shell_script_into_commands script.

Definition parse_shell_lc_literal_commands (command : list str) : option (list (list str)) :=
  '(_, script) ← extract_bash_command command;
  root ← try_parse_shell script;
  if node_has_error root then None
  else Some (omap parse_literal_command_from_node (visited named_children root)).

(** ** PowerShell *)

Definition POWERSHELL_FLAGS : list str := [lit "-nologo"; lit "-noprofile"; lit "-command"; lit "-c"].

Fixpoint powershell_script (args : list str) : option str :=
  match args with
  | flag :: ((script :: _) as args') =>
      if negb (bool_decide (to_ascii_lowercase flag ∈ POWERSHELL_FLAGS)) then None
      else if eq_ignore_ascii_case flag (lit "-Command") || eq_ignore_ascii_case flag (lit "-c") then Some script
      else powershell_script args'
  | _ => None
  end.

Definition extract_powershell_command (command : list str) : option (str * str) :=
  if bool_decide (length command < 3) then None
  else match command with
       | shell :: args =>
           if negb (bool_decide (detect_shell_type shell = Some PowerShell)) then None
           else script ← powershell_script args; Some (shell, script)
       | [] => None
       end.

Definition parse_powershell_command_into_plain_commands (command : list str) : option (list (list str)) :=
  '(_, script) ← extract_powershell_command command; try_parse_powershell_commands script.

Definition UTF8_OUTPUT_PREFIX : str :=
  lit "try { [Console]::OutputEncoding=[System.Text.Encoding]::UTF8 } catch {}" ++ [c_lf].

Definition prefix_powershell_script_with_utf8 (command : list str) : list str :=
  match extract_powershell_command command with
  | None => command
  | Some (_, script) =>
      let script := if starts_with UTF8_OUTPUT_PREFIX (trim_start script) then script
                    else UTF8_OUTPUT_PREFIX ++ script in
      removelast command ++ [script]
  end.
End grammars.
