(* ===== verification/DangerousCommand.v ===== *)
(** * Dangerous commands

    Models [shell-command/src/command_safety/is_dangerous_command.rs] and
    [windows_dangerous_commands.rs]: the commands that are never run without an
    approval or a rule. The packages [shlex], [regex] and [url] are the class
    [CommandWords]: splitting and joining ([try_join]), the capture of the one regular expression, and
    the scheme of a text that parses as a URL. *)

From S2P Require Import Prelude RustStr ShellCommand.
Open Scope list_scope.

Inductive DangerousCommandPlatform := PlatformPosix | PlatformWindows.

#[global] Instance DangerousCommandPlatform_eq : EqDecision DangerousCommandPlatform.
Proof. solve_decision. Defined.

Inductive DangerousCommandMatch := ForcedRm | OtherDanger.

Definition MAX_DANGEROUS_COMMAND_WRAPPER_DEPTH : nat := 8.

Class CommandWords := {
  command_split : str → option (list str);
  command_join : list str → option str;
  url_capture : str → option str;
  parsed_url_scheme : str → option str;
}.

(** ** Names of executables *)

Definition is_path_separator (c : char) : bool := (c =? 47)%N || (c =? 92)%N.

(** [raw.rsplit(..).next().filter(|name| !name.is_empty())] *)
Definition last_piece (f : char → bool) (raw : str) : option str :=
  name ← last (split_by f raw); non_empty_str name.

(** A name without the drive it may start with. *)
Definition without_drive (name : str) : str :=
  match name with
  | d :: c :: rest => if is_ascii_alphabetic d && (c =? 58)%N then rest else name
  | _ => name
  end.

Definition executable_basename (exe : str) : option str :=
  name ← last_piece is_path_separator exe;
  to_ascii_lowercase <$> non_empty_str (without_drive name).

Definition executable_name_lookup_key (raw : str) (platform : DangerousCommandPlatform) : option str :=
  match platform with
  | PlatformPosix => last_piece (N.eqb c_slash) raw
  | PlatformWindows =>
      name ← last_piece is_path_separator raw;
      let name := to_ascii_lowercase (without_drive name) in
      match find_map (λ suffix, strip_suffix suffix name) [lit ".exe"; lit ".cmd"; lit ".bat"; lit ".com"] with
      | Some stripped => Some stripped
      | None => non_empty_str name
      end
  end.

Section dangerous.
Context `{CW : !CommandWords}.

(** ** Windows *)

Definition looks_like_url (token : str) : bool :=
  let lowercase_token := to_ascii_lowercase token in
  let start := match str_find (lit "https://") lowercase_token with
               | Some idx => Some idx
               | None => str_find (lit "http://") lowercase_token
               end in
  let urlish := from_option (λ idx, drop idx token) token start in
  match parsed_url_scheme (default urlish (url_capture urlish)) with
  | Some scheme => bool_decide (scheme ∈ [lit "http"; lit "https"])
  | None => false
  end.

Definition args_have_url (args : list str) : bool := existsb looks_like_url args.

Definition is_powershell_executable (exe : str) : bool :=
  bool_decide (executable_basename exe
    ∈ [Some (lit "powershell"); Some (lit "powershell.exe"); Some (lit "pwsh"); Some (lit "pwsh.exe")]).

Definition is_browser_executable (name : str) : bool :=
  bool_decide (name ∈ [lit "chrome"; lit "chrome.exe"; lit "msedge"; lit "msedge.exe"; lit "firefox";
                       lit "firefox.exe"; lit "iexplore"; lit "iexplore.exe"]).

Fixpoint parse_powershell_invocation (args : list str) : option (list str) :=
  match args with
  | [] => None
  | arg :: rest =>
      let lower := to_ascii_lowercase arg in
      if bool_decide (lower ∈ [lit "-command"; lit "/command"; lit "-c"]) then
        match rest with [script] => command_split script | _ => None end
      else if starts_with (lit "-command:") lower || starts_with (lit "/command:") lower then
        match rest with
        | [] => '(_, script) ← split_once c_colon arg; command_split script
        | _ => None
        end
      else if starts_with (lit "-") lower then parse_powershell_invocation rest
      else Some args
  end.

Definition trim_matches (c : char) (s : str) : str := trim_end_matches c (drop_while (N.eqb c) s).

(** *** Forced deletions of PowerShell *)

Definition DELETE_CMDLETS : list str :=
  [lit "remove-item"; lit "ri"; lit "rm"; lit "del"; lit "erase"; lit "rd"; lit "rmdir"].
Definition SEG_SEPS : list char := [59; 124; 38; 10; 13; 9]%N.
Definition SOFT_SEPS : list char := lit "{}()[],;".

(** [s.trim()], pushed to the last segment unless it is empty. *)
Definition push_word (segments : list (list str)) (cur : str) : list (list str) :=
  if bool_decide (trim cur = []) then segments else update_last (λ seg, seg ++ [trim cur]) segments.

(** A segment is closed unless it is empty. *)
Definition close_segment (segments : list (list str)) : list (list str) :=
  match last segments with
  | Some (_ :: _) => segments ++ [[]]
  | _ => segments
  end.

Definition segment_char (st : list (list str) * str) (ch : char) : list (list str) * str :=
  let '(segments, cur) := st in
  if bool_decide (ch ∈ SEG_SEPS) then (close_segment (push_word segments cur), [])
  else (segments, cur ++ [ch]).

Definition segment_token (segments : list (list str)) (tok : str) : list (list str) :=
  let '(segments, cur) := foldl segment_char (segments, []) tok in push_word segments cur.

Definition segment_atoms (seg : list str) : list str :=
  List.filter (λ s, negb (bool_decide (s = [])))
    (map trim (seg ≫= split_by (λ c, bool_decide (c ∈ SOFT_SEPS)))).

(** [a.get(..7)] is none when byte 7 is inside of a character; a prefix that
    equals an ASCII text ends at one. *)
Definition is_force_flag (a : str) : bool :=
  eq_ignore_ascii_case a (lit "-force") || eq_ignore_ascii_case (take 7 a) (lit "-force:").

Definition is_delete_cmdlet (a : str) : bool := existsb (eq_ignore_ascii_case a) DELETE_CMDLETS.

Definition has_force_delete_cmdlet (tokens : list str) : bool :=
  existsb (λ seg, existsb is_delete_cmdlet (segment_atoms seg) && existsb is_force_flag (segment_atoms seg))
    (foldl segment_token [[]] tokens).

Definition is_dangerous_powershell_words (words : list str) : bool :=
  let tokens_lc := map (λ t, to_ascii_lowercase (trim_matches c_dquote (trim_matches c_quote t))) words in
  let has_url := args_have_url words in
  has_url && existsb (λ t, bool_decide (t ∈ [lit "start-process"; lit "start"; lit "saps"; lit "invoke-item"; lit "ii"])
                           || str_contains (lit "start-process") t || str_contains (lit "invoke-item") t) tokens_lc
  || has_url && existsb (λ t, str_contains (lit "shellexecute") t || str_contains (lit "shell.application") t) tokens_lc
  || match tokens_lc with
     | first :: _ =>
         bool_decide (first = lit "rundll32")
           && existsb (str_contains (lit "url.dll,fileprotocolhandler")) tokens_lc && has_url
         || bool_decide (first = lit "mshta") && has_url
         || is_browser_executable first && has_url
         || bool_decide (first ∈ [lit "explorer"; lit "explorer.exe"]) && has_url
     | [] => false
     end
  || has_force_delete_cmdlet tokens_lc.

Definition is_dangerous_powershell (command : list str) : bool :=
  match command with
  | exe :: rest =>
      is_powershell_executable exe
      && match parse_powershell_invocation rest with
         | Some tokens => is_dangerous_powershell_words tokens
         | None => false
         end
  | [] => false
  end.

(** *** The command interpreter *)

(** The operators [&], [&&], [|] and [||] of a token as tokens of their own;
    [cur] is the text since the last one. *)
Fixpoint split_operators (cur token : str) : list str :=
  match token with
  | [] => if bool_decide (cur = []) then [] else [cur]
  | ch :: rest =>
      if (ch =? 38)%N || (ch =? 124)%N then
        let before := if bool_decide (cur = []) then [] else [cur] in
        match rest with
        | next :: rest' =>
            if (next =? ch)%N then before ++ [ch; next] :: split_operators [] rest'
            else before ++ [ch] :: split_operators [] rest
        | [] => before ++ [[ch]]
        end
      else split_operators (cur ++ [ch]) rest
  end.
Definition split_embedded_cmd_operators (token : str) : list str :=
  List.filter (λ s, negb (bool_decide (trim s = []))) (split_operators [] token).

Definition CMD_SEPARATORS : list str := [lit "&"; lit "&&"; lit "|"; lit "||"].

(** [tokens.split(..)]: the runs between the tokens that satisfy [f]. *)
Fixpoint split_tokens (f : str → bool) (tokens : list str) : list (list str) :=
  match tokens with
  | [] => [[]]
  | t :: tokens =>
      if f t then [] :: split_tokens f tokens
      else match split_tokens f tokens with
           | segment :: segments => (t :: segment) :: segments
           | [] => [[t]]
           end
  end.

Definition has_flag_cmd (flag : str) (args : list str) : bool := existsb (λ a, eq_ignore_ascii_case a flag) args.

Definition dangerous_cmd_segment (segment : list str) : bool :=
  match segment with
  | [] => false
  | cmd :: _ =>
      eq_ignore_ascii_case cmd (lit "start") && args_have_url segment
      || (eq_ignore_ascii_case cmd (lit "del") || eq_ignore_ascii_case cmd (lit "erase"))
         && has_flag_cmd (lit "/f") segment
      || (eq_ignore_ascii_case cmd (lit "rd") || eq_ignore_ascii_case cmd (lit "rmdir"))
         && has_flag_cmd (lit "/s") segment && has_flag_cmd (lit "/q") segment
  end.

(** The arguments after [/c], [/r] or [-c]; [None] when another word comes first. *)
Fixpoint cmd_body (args : list str) : option (list str) :=
  match args with
  | [] => Some []
  | arg :: args =>
      let lower := to_ascii_lowercase arg in
      if bool_decide (lower ∈ [lit "/c"; lit "/r"; lit "-c"]) then Some args
      else if starts_with (lit "/") lower then cmd_body args
      else None
  end.

Definition is_dangerous_cmd (command : list str) : bool :=
  match command with
  | [] => false
  | exe :: rest =>
      match executable_basename exe with
      | None => false
      | Some base =>
          if negb (bool_decide (base ∈ [lit "cmd"; lit "cmd.exe"])) then false
          else match cmd_body rest with
               | None | Some [] => false
               | Some remaining =>
                   let cmd_tokens := match remaining with
                                     | [only] => default [only] (command_split only)
                                     | _ => remaining
                                     end in
                   let tokens := cmd_tokens ≫= split_embedded_cmd_operators in
                   existsb dangerous_cmd_segment
                     (split_tokens (λ t, bool_decide (t ∈ CMD_SEPARATORS)) tokens)
               end
      end
  end.

Definition is_direct_gui_launch (command : list str) : bool :=
  match command with
  | [] => false
  | exe :: rest =>
      match executable_basename exe with
      | None => false
      | Some base =>
          bool_decide (base ∈ [lit "explorer"; lit "explorer.exe"]) && args_have_url rest
          || bool_decide (base ∈ [lit "mshta"; lit "mshta.exe"]) && args_have_url rest
          || bool_decide (base ∈ [lit "rundll32"; lit "rundll32.exe"])
             && existsb (λ t, str_contains (lit "url.dll,fileprotocolhandler") (to_ascii_lowercase t)) rest
             && args_have_url rest
          || is_browser_executable base && args_have_url rest
      end
  end.

Definition is_dangerous_command_windows (command : list str) : bool :=
  is_dangerous_powershell command || is_dangerous_cmd command || is_direct_gui_launch command.

(** ** Every platform *)

Fixpoint take_until (stop : str) (args : list str) : list str :=
  match args with
  | [] => []
  | arg :: args => if bool_decide (arg = stop) then [] else arg :: take_until stop args
  end.

Definition rm_args_include_force_option (args : list str) : bool :=
  existsb (λ arg, bool_decide (arg = lit "--force")
                  || match strip_prefix (lit "-") arg with
                     | Some flags => negb (starts_with (lit "-") flags) && contains_char 102%N flags
                     | None => false
                     end) (take_until (lit "--") args).

(** An argument of [env] before the command: an option that is skipped or an
    assignment. *)
Definition env_prefix (argument : str) : bool :=
  bool_decide (argument ∈ [lit "-i"; lit "--ignore-environment"])
  || match split_once 61%N argument with
     | Some (name, _) => negb (bool_decide (name = [])) && negb (starts_with (lit "-") name)
     | None => false
     end.

Fixpoint env_command (args : list str) : list str :=
  match args with
  | [] => []
  | argument :: args' =>
      if bool_decide (argument = lit "--") then args'
      else if env_prefix argument then env_command args'
      else args
  end.

Definition trap_command (args : list str) : option (list str) :=
  action ← match args with
           | first :: rest => if bool_decide (first = lit "--") then head rest else Some first
           | [] => None
           end;
  if starts_with (lit "-") action then None else Some [lit "sh"; lit "-c"; action].

Context `{SG : !ShellGrammars}.

(** [dangerous_command_match_with_depth]; [levels] is the number of levels left
    before [wrapper_depth] exceeds the maximum. *)
Fixpoint dangerous_command_match_with_depth (levels : nat) (platform : DangerousCommandPlatform)
    (command : list str) : option DangerousCommandMatch :=
  match levels with
  | 0 => Some OtherDanger
  | S levels =>
      let wrapped := dangerous_command_match_with_depth levels platform in
      (* [dangerous_command_match_for_exec] *)
      let exec_match :=
        match command with
        | [] => None
        | cmd0 :: args =>
            let key := executable_name_lookup_key cmd0 platform in
            if bool_decide (key = Some (lit "rm")) && rm_args_include_force_option args then Some ForcedRm
            else if bool_decide (key = Some (lit "sudo")) then wrapped args
            else if bool_decide (key = Some (lit "env")) then wrapped (env_command args)
            else if bool_decide (key = Some (lit "trap")) then trap_command args ≫= wrapped
            else None
        end in
      match exec_match with
      | Some dangerous_match => Some dangerous_match
      | None =>
          match parse_shell_lc_literal_commands command ≫= find_map wrapped with
          | Some dangerous_match => Some dangerous_match
          | None =>
              if bool_decide (platform = PlatformWindows) && is_dangerous_command_windows command
              then Some OtherDanger else None
          end
      end
  end.

Definition dangerous_command_match_for_platform (command : list str) (platform : DangerousCommandPlatform)
    : option DangerousCommandMatch :=
  dangerous_command_match_with_depth (S MAX_DANGEROUS_COMMAND_WRAPPER_DEPTH) platform command.

Definition dangerous_powershell_words_match (command : list str) (platform : DangerousCommandPlatform)
    : option DangerousCommandMatch :=
  if bool_decide (platform = PlatformWindows) && is_dangerous_powershell_words command
  then Some OtherDanger else None.
End dangerous.
