(* ===== verification/ShellCommandFacts.v ===== *)
(** * Shell commands: what the two readings of a script have in common

    The loops over a syntax tree visit every node; a script that is read as plain
    commands has the same commands among its literal ones; wrapping a dangerous
    command in [sudo], [env], [trap] or a shell, as [wraps] says what these programs
    run, never makes it pass for harmless. *)

From stdpp Require Import sorting relations.
From S2P Require Import Prelude RustStr ShellCommand DangerousCommand.
Open Scope list_scope.

(** ** The names of shells *)

Lemma split_char_piece c s x : x ∈ split_char c s → length x ≤ length s ∧ (length x = length s → x = s).
Proof.
  revert x. induction s as [|d s IH]; intros x; simpl.
  - intros ->%list_elem_of_singleton. done.
  - destruct (d =? c)%N.
    + intros [->|Hx]%elem_of_cons; simpl; [lia|]. apply IH in Hx as [? _]. lia.
    + destruct (split_char c s) as [|p ps] eqn:E; simpl.
      * intros ->%list_elem_of_singleton. simpl. split; [lia|]. intros Hl. by destruct s.
      * intros [->|Hx]%elem_of_cons; simpl.
        -- destruct (IH p ltac:(by left)) as [H1 H2]. split; [lia|]. intros Hl. f_equal. apply H2. lia.
        -- destruct (IH x ltac:(by right)) as [H1 H2]. lia.
Qed.

Lemma rsplit_once_length c s a b : rsplit_once c s = Some (a, b) → length a < length s.
Proof.
  unfold rsplit_once. destruct (split_once c (rev s)) as [[x y]|] eqn:E; [|done]. simpl. intros [= <- <-].
  assert (H : ∀ s x y, split_once c s = Some (x, y) → length y < length s).
  { clear. induction s as [|d s IH]; intros x y; simpl; [done|]. destruct (d =? c)%N; [intros [= <- <-]; simpl; lia|].
    destruct (split_once c s) as [[p q]|] eqn:E; simpl; [|done]. intros [= <- <-]. specialize (IH p q eq_refl). lia. }
  apply H in E. rewrite length_rev in *. lia.
Qed.

Lemma file_stem_shorter path name :
  path_file_stem path = Some name → path_eqb name path = false → length name < length path.
Proof.
  unfold path_file_stem, path_file_name_of. destruct (last (path_components path).2) as [n|] eqn:El; [|done]. simpl.
  destruct (_ || _); [done|]. simpl. intros [= <-] Hne.
  assert (Hn : length n ≤ length path ∧ (length n = length path → n = path)).
  { apply (split_char_piece c_slash). apply last_Some_elem_of in El. unfold path_components in El. simpl in El.
    destruct (split_char c_slash path) as [|first ps] eqn:E; [by apply not_elem_of_nil in El|].
    case_bool_decide; [apply elem_of_cons in El as [->|El]; [by left|]|];
      apply list_elem_of_In, filter_In in El as [El _]; by apply list_elem_of_In. }
  destruct (rsplit_once c_dot n) as [[before rest]|] eqn:E.
  - apply rsplit_once_length in E. case_bool_decide; [|lia].
    destruct Hn as [H1 H2]. destruct (decide (length n = length path)) as [Hl|]; [|lia].
    rewrite (H2 Hl) in Hne. unfold path_eqb in Hne. by rewrite bool_decide_eq_true_2 in Hne.
  - destruct Hn as [H1 H2]. destruct (decide (length n = length path)) as [Hl|]; [|lia].
    rewrite (H2 Hl) in Hne. unfold path_eqb in Hne. by rewrite bool_decide_eq_true_2 in Hne.
Qed.

(** The fuel of [detect_shell_type] is enough. *)
Lemma detect_shell_type_enough fuel path :
  length path ≤ fuel → detect_shell_type_fuel fuel path = detect_shell_type path.
Proof.
  unfold detect_shell_type.
  assert (H : ∀ f g path, length path ≤ f → length path ≤ g →
    detect_shell_type_fuel f path = detect_shell_type_fuel g path).
  { clear. induction f as [|f IH]; intros g path Hf Hg.
    - destruct path; [|simpl in Hf; lia]. by destruct g.
    - destruct g as [|g]; [destruct path; [done|simpl in Hg; lia]|]. simpl.
      destruct (shell_of_name path); [done|]. destruct (path_file_stem path) as [n|] eqn:E; [|done]. simpl.
      destruct (path_eqb n path) eqn:Ee; [done|]. pose proof (file_stem_shorter _ _ E Ee). apply IH; lia. }
  intros Hl. by apply H.
Qed.

(** ** Visiting a tree *)

Lemma elem_of_rev {A} (x : A) l : x ∈ rev l ↔ x ∈ l.
Proof. by rewrite !list_elem_of_In, <- in_rev. Qed.

(** [m] is [n] or below it, along the given children. *)
Inductive below (children : Node → list Node) (n : Node) : Node → Prop :=
  | below_self : below children n n
  | below_child c m : c ∈ children n → below children c m → below children n m.

Definition stack_size (stack : list Node) : nat := sum_list_with node_size stack.

Lemma stack_size_app a b : stack_size (a ++ b) = stack_size a + stack_size b.
Proof. apply sum_list_with_app. Qed.

Lemma stack_size_rev a : stack_size (rev a) = stack_size a.
Proof. induction a as [|n a IH]; [done|]. simpl. rewrite stack_size_app, IH. simpl. lia. Qed.

Lemma stack_size_filter f a : stack_size (List.filter f a) ≤ stack_size a.
Proof. induction a as [|n a IH]; [done|]. simpl. destruct (f n); simpl; lia. Qed.

Lemma node_size_eq n : node_size n = S (stack_size (node_children n)).
Proof. by destruct n. Qed.

(** Children among those of the node. *)
Definition proper_children (children : Node → list Node) : Prop :=
  ∀ n, stack_size (children n) ≤ stack_size (node_children n).

Lemma drain_visits children fuel stack m :
  proper_children children → stack_size stack ≤ fuel →
  m ∈ drain children fuel stack ↔ ∃ n, n ∈ stack ∧ below children n m.
Proof.
  intros Hp. revert stack. induction fuel as [|fuel IH]; intros stack Hf.
  - destruct stack as [|n stack]; simpl.
    + split; [by intros ?%not_elem_of_nil|by intros (n & ?%not_elem_of_nil & _)].
    + simpl in Hf. rewrite node_size_eq in Hf. lia.
  - destruct stack as [|n stack]; simpl.
    { split; [by intros ?%not_elem_of_nil|by intros (n & ?%not_elem_of_nil & _)]. }
    simpl in Hf. rewrite node_size_eq in Hf. specialize (Hp n) as Hn. rewrite elem_of_cons, IH;
      [|rewrite stack_size_app, stack_size_rev; lia].
    setoid_rewrite elem_of_app. setoid_rewrite elem_of_rev. setoid_rewrite elem_of_cons. split.
    + intros [->|(c & [Hc|Hc] & Hb)]; [exists n; split; [by left|constructor]|exists n|exists c]; [|by auto].
      split; [by left|]. by eapply below_child.
    + intros (c & [->|Hc] & Hb); [|right; eauto]. destruct Hb as [|c m Hc Hb]; [by left|right; eauto].
Qed.

Lemma visited_below children root m :
  proper_children children → m ∈ visited children root ↔ below children root m.
Proof.
  intros Hp. unfold visited. rewrite drain_visits by (simpl; lia || done). split.
  - by intros (n & ->%list_elem_of_singleton & Hb).
  - intros Hb. exists root. split; [by left|done].
Qed.

Lemma proper_all : proper_children node_children.
Proof. intros n. reflexivity. Qed.
Lemma proper_named : proper_children named_children.
Proof. intros n. apply stack_size_filter. Qed.

(** ** Literal and plain words *)

(** What Tree-sitter and the grammar of bash promise of a tree: a node without a
    name is a token, and the name of a command comes before its arguments. *)
Definition bash_tree (root : Node) : Prop :=
  ∀ n, below node_children root n →
    (node_is_named n = false → node_children n = [])
    ∧ (kind_is "command" n = true →
       ∃ name args, named_children n = name :: args ∧ kind_is "command_name" name = true
         ∧ Forall (λ c, kind_is "command_name" c = false) args).

Lemma below_trans children a b c : below children a b → below children b c → below children a c.
Proof. induction 1 as [|n m x Hm _ IH]; [done|]. intros Hb. eapply below_child; [done|]. by apply IH. Qed.

Lemma named_child n c : c ∈ named_children n ↔ c ∈ node_children n ∧ node_is_named c = true.
Proof. unfold named_children. by rewrite !list_elem_of_In, filter_In. Qed.

Lemma parse_literal_shell_word_eq n :
  parse_literal_shell_word n =
  if kind_in [lit "word"; lit "number"] n then if is_literal_word_or_number n then utf8_text n else None
  else if kind_is "string" n then parse_double_quoted_string n
  else if kind_is "raw_string" n then parse_raw_string n
  else if kind_is "concatenation" n
  then parts ← mapM parse_literal_shell_word (named_children n); non_empty_str (concat parts)
  else None.
Proof.
  destruct n as [k named err start txt cs]. cbn [parse_literal_shell_word].
  set (n := mk_node k named err start txt cs).
  destruct (kind_in _ n), (kind_is "string" n), (kind_is "raw_string" n), (kind_is "concatenation" n); try done.
  subst n. unfold named_children. cbn [node_children].
  assert (H : ∀ acc, (fix parts cs concatenated := match cs with
      | [] => non_empty_str concatenated
      | part :: cs' => if node_is_named part then word ← parse_literal_shell_word part; parts cs' (concatenated ++ word)
                       else parts cs' concatenated end) cs acc
    = parts ← mapM parse_literal_shell_word (List.filter node_is_named cs); non_empty_str (acc ++ concat parts)).
  { clear. induction cs as [|c cs IH]; intros acc; [simpl; by rewrite app_nil_r|]. cbn [List.filter].
    destruct (node_is_named c); [|apply IH]. cbn [mapM]. destruct (parse_literal_shell_word c) as [w|]; [|done].
    cbn [mbind option_bind]. rewrite IH. destruct (mapM _ (List.filter _ cs)) as [ps|]; [|done]. simpl. by rewrite app_assoc. }
  apply (H []).
Qed.

Lemma allowed_literal n :
  node_allowed n = true → node_is_named n = true → kind_in [lit "word"; lit "number"] n = true →
  is_literal_word_or_number n = true.
Proof.
  unfold node_allowed. intros H Hn Hk. rewrite Hn, Hk in H. simpl in H.
  destruct (is_literal_word_or_number n); [done|]. by rewrite andb_false_r in H.
Qed.

Lemma plain_part_literal n w :
  node_allowed n = true → node_is_named n = true → plain_part n = Some w → parse_literal_shell_word n = Some w.
Proof.
  intros Ha Hn. rewrite parse_literal_shell_word_eq. unfold plain_part.
  destruct (kind_in _ n) eqn:Ek; [by rewrite (allowed_literal n)|].
  destruct (kind_is "string" n), (kind_is "raw_string" n); done.
Qed.

Lemma mapM_weaken {A B} (f g : A → option B) l k :
  (∀ x y, x ∈ l → f x = Some y → g x = Some y) → mapM f l = Some k → mapM g l = Some k.
Proof.
  rewrite !mapM_Some. intros H Hf. induction Hf as [|x y l k Hx Hf IH]; constructor.
  - apply H; [by left|done].
  - apply IH. intros z w Hz. apply H. by right.
Qed.

Lemma plain_word_literal n w :
  (∀ m, m ∈ named_children n → node_allowed m = true) → node_allowed n = true → node_is_named n = true →
  kind_is "command_name" n = false → plain_word n = Some w → parse_literal_shell_word n = Some w.
Proof.
  intros Hc Ha Hn Hk. rewrite parse_literal_shell_word_eq. unfold plain_word. rewrite Hk.
  destruct (kind_in _ n) eqn:Ek; [by rewrite (allowed_literal n)|].
  destruct (kind_is "string" n), (kind_is "raw_string" n), (kind_is "concatenation" n); try done.
  destruct (mapM plain_part (named_children n)) as [parts|] eqn:E; [|done].
  erewrite (mapM_weaken plain_part); [done| |done]. intros m y Hm. apply plain_part_literal; [by apply Hc|].
  by apply named_child in Hm as [_ ?].
Qed.

Lemma plain_name_literal n w :
  (∀ m, m ∈ named_children n → node_allowed m = true) → kind_is "command_name" n = true → plain_word n = Some w →
  ∃ m, head (named_children n) = Some m ∧ parse_literal_shell_word m = Some w.
Proof.
  intros Hc Hk. unfold plain_word. rewrite Hk. destruct (named_children n) as [|m ms] eqn:E; [done|]. simpl.
  destruct (kind_is "word" m) eqn:Ew; [|done]. intros Ht. exists m. split; [done|].
  assert (Hkw : kind_in [lit "word"; lit "number"] m = true).
  { unfold kind_is in Ew. apply bool_decide_eq_true in Ew. unfold kind_in. rewrite Ew. apply bool_decide_eq_true. by left. }
  rewrite parse_literal_shell_word_eq, Hkw, (allowed_literal m); [done|apply Hc; by left| |done].
  assert (Hm : m ∈ named_children n) by (rewrite E; by left). by apply named_child in Hm as [_ ?].
Qed.

Lemma literal_arguments words args ws :
  Forall (λ c, kind_is "command_name" c = false) args → mapM parse_literal_shell_word args = Some ws →
  literal_words (Some words) args = Some (Some (words ++ ws)).
Proof.
  intros Hk. rewrite mapM_Some. intros Hw. revert words. induction Hw as [|c w args ws Hc _ IH]; intros words; simpl.
  - by rewrite app_nil_r.
  - apply Forall_cons in Hk as [Hk Hks]. unfold literal_word. rewrite Hk, Hc. simpl. rewrite IH by done. by rewrite <- app_assoc.
Qed.

(** A command that is read as plain words is read as the same literal words. *)
Lemma plain_command_literal root n ws :
  bash_tree root → (∀ m, below node_children root m → node_allowed m = true) → below node_children root n →
  kind_is "command" n = true → parse_plain_command_from_node n = Some ws → parse_literal_command_from_node n = Some ws.
Proof.
  intros Ht Ha Hn Hk. unfold parse_plain_command_from_node, parse_literal_command_from_node. rewrite Hk. simpl.
  destruct (Ht n Hn) as [_ Hcmd]. destruct (Hcmd Hk) as (name & args & Hnc & Hname & Hargs). rewrite Hnc.
  assert (Hbelow : ∀ c, c ∈ named_children n → below node_children root c).
  { intros c [Hc _]%named_child. eapply below_trans; [done|]. eapply below_child; [done|constructor]. }
  assert (Hbelow2 : ∀ c m, c ∈ named_children n → m ∈ named_children c → node_allowed m = true).
  { intros c m Hc [Hm _]%named_child. apply Ha. eapply below_trans; [by apply Hbelow|]. eapply below_child; [done|constructor]. }
  cbn [mapM]. destruct (plain_word name) as [w|] eqn:Ew; [|done]. cbn [mbind option_bind].
  destruct (mapM plain_word args) as [rest|] eqn:Er; [|done]. simpl. intros [= <-].
  destruct (plain_name_literal name w) as (m & Hm & Hlit); [|done..|].
  { intros m. apply Hbelow2. rewrite Hnc. by left. }
  unfold literal_word. rewrite Hname, Hm. simpl. rewrite Hlit. simpl.
  rewrite (literal_arguments [w] args rest); [done|done|].
  eapply mapM_weaken; [|exact Er]. intros c y Hc. assert (Hcn : c ∈ named_children n) by (rewrite Hnc; by right).
  apply plain_word_literal; [intros m'; by apply Hbelow2|by apply Ha, Hbelow|by apply named_child in Hcn as [_ ?]|].
  rewrite Forall_forall in Hargs. by apply Hargs.
Qed.

Lemma below_named root n :
  bash_tree root → below node_children root n → node_is_named n = true → below named_children root n.
Proof.
  intros Ht Hb Hn. assert (Hall : ∀ m, below node_children root m → node_is_named m = false → node_children m = []) by
    (intros m Hm; apply (proj1 (Ht m Hm))). clear Ht.
  induction Hb as [|root c m Hc Hb IH]; [constructor|]. eapply below_child.
  - apply named_child. split; [done|]. destruct (node_is_named c) eqn:E; [done|].
    destruct Hb as [|d m Hd Hb]; [congruence|]. rewrite (Hall c) in Hd; [by apply not_elem_of_nil in Hd| |done].
    eapply below_child; [done|constructor].
  - apply IH; [done|]. intros x Hx. apply Hall. by eapply below_child.
Qed.

(** ** What wrappers run

    A description of its own, without the code's parsers: how an executable is
    named, how a word of a script is spelled, and which command [sudo], [env],
    [trap] and the shells run. *)

(** A directory in front of a file name. *)
Definition dir_prefix (seps dir : str) : Prop := dir = [] ∨ ∃ d sep, dir = d ++ [sep] ∧ sep ∈ seps.

(** The executable is the program [name]: its file name on POSIX; on Windows also
    after a drive, in any case and with the extension of a program. *)
Inductive names_program (name : str) : DangerousCommandPlatform → str → Prop :=
  | names_posix dir : dir_prefix (lit "/") dir → names_program name PlatformPosix (dir ++ name)
  | names_windows dir drive base extension :
      dir_prefix (lit "/\") dir → drive = [] ∨ (∃ letter, drive = [letter; c_colon] ∧ is_ascii_alphabetic letter = true) →
      to_ascii_lowercase base = name ++ extension → extension ∈ [[]; lit ".exe"; lit ".cmd"; lit ".bat"; lit ".com"] →
      names_program name PlatformWindows (dir ++ drive ++ base).

Definition WRAPPERS : list str := [lit "rm"; lit "sudo"; lit "env"; lit "trap"].

Lemma split_by_not_nil f s : split_by f s ≠ [].
Proof. destruct s as [|d s]; simpl; [done|]. destruct (f d); [done|]. by destruct (split_by f s). Qed.

Lemma split_by_app f a c b : f c = true → split_by f (a ++ c :: b) = split_by f a ++ split_by f b.
Proof.
  intros Hc. induction a as [|d a IH]; simpl; [by rewrite Hc|]. rewrite IH. destruct (f d); [done|].
  pose proof (split_by_not_nil f a). by destruct (split_by f a).
Qed.

Lemma split_by_plain f b : existsb f b = false → split_by f b = [b].
Proof. induction b as [|d b IH]; simpl; [done|]. intros [-> ?]%orb_false_iff. by rewrite IH. Qed.

Lemma last_piece_prefixed f seps dir base :
  dir_prefix seps dir → (∀ c, c ∈ seps → f c = true) → existsb f base = false → base ≠ [] →
  last_piece f (dir ++ base) = Some base.
Proof.
  intros Hd Hf Hb Hne. unfold last_piece. assert (Hl : last (split_by f (dir ++ base)) = Some base).
  { destruct Hd as [->|(d & sep & -> & Hs)]; [simpl; by rewrite split_by_plain|].
    rewrite <- app_assoc. simpl. rewrite split_by_app, (split_by_plain f base), last_snoc by auto. done. }
  rewrite Hl. simpl. unfold non_empty_str. by rewrite bool_decide_eq_false_2.
Qed.

Lemma ascii_lower_separator c : is_path_separator (ascii_lower c) = is_path_separator c.
Proof.
  unfold is_path_separator, ascii_lower. destruct (_ && _)%N eqn:E; [|done]. apply andb_true_iff in E as [?%N.leb_le ?%N.leb_le].
  transitivity false; [|symmetry]; apply orb_false_iff; split; apply N.eqb_neq; lia.
Qed.

Lemma lowercase_separators base : existsb is_path_separator (to_ascii_lowercase base) = existsb is_path_separator base.
Proof. induction base as [|c base IH]; [done|]. simpl. by rewrite ascii_lower_separator, IH. Qed.

Lemma without_drive_lowercase base lower :
  to_ascii_lowercase base = lower → without_drive lower = lower → (∀ c, head lower = Some c → is_ascii_alphabetic c = true) →
  without_drive base = base.
Proof.
  intros <- Hw Hh. destruct base as [|d [|c rest]]; [done..|]. simpl in *.
  destruct (is_ascii_alphabetic d && (c =? 58)%N) eqn:E; [|done]. apply andb_true_iff in E as [_ ->%N.eqb_eq].
  rewrite (Hh (ascii_lower d) eq_refl) in Hw. simpl in Hw. apply (f_equal length) in Hw. simpl in Hw. lia.
Qed.

Lemma names_lookup name platform exe :
  names_program name platform exe → name ∈ WRAPPERS → executable_name_lookup_key exe platform = Some name.
Proof.
  intros Hn Hw. destruct Hn as [dir Hd|dir drive base extension Hd Hdr Hb He]; simpl.
  - apply (last_piece_prefixed _ _ _ _ Hd);
      [by intros c ->%list_elem_of_singleton|..];
      unfold WRAPPERS in Hw; repeat (apply elem_of_cons in Hw as [->|Hw]; [done|]); by apply not_elem_of_nil in Hw.
  - assert (Hlow : existsb is_path_separator base = false ∧ base ≠ []
      ∧ without_drive base = base
      ∧ match find_map (λ suffix, strip_suffix suffix (to_ascii_lowercase base)) [lit ".exe"; lit ".cmd"; lit ".bat"; lit ".com"] with
        | Some stripped => Some stripped
        | None => non_empty_str (to_ascii_lowercase base)
        end = Some name).
    { rewrite <- lowercase_separators, Hb.
      assert (Hne : base ≠ []) by (intros ->; unfold WRAPPERS in Hw; destruct name; [|done];
        repeat (apply elem_of_cons in Hw as [?|Hw]; [done|]); by apply not_elem_of_nil in Hw).
      unfold WRAPPERS in Hw.
      repeat (apply elem_of_cons in Hw as [->|Hw];
        [repeat (apply elem_of_cons in He as [->|He];
           [split_and!; [by vm_compute|done|eapply without_drive_lowercase; [exact Hb|by vm_compute|by intros c [= <-]]|by vm_compute]|]);
         by apply not_elem_of_nil in He|]); by apply not_elem_of_nil in Hw. }
    destruct Hlow as (Hs & Hne & Hwd & Hkey).
    assert (Hsep : ∀ c, c ∈ lit "/\" → is_path_separator c = true).
    { intros c Hc. repeat (apply elem_of_cons in Hc as [->|Hc]; [done|]). by apply not_elem_of_nil in Hc. }
    destruct Hdr as [->|(letter & -> & Hl)].
    + simpl. rewrite (last_piece_prefixed _ _ _ _ Hd) by done. simpl. by rewrite Hwd.
    + rewrite (last_piece_prefixed _ _ _ _ Hd Hsep).
      * simpl. rewrite Hl. simpl. exact Hkey.
      * simpl. rewrite Hs. unfold is_path_separator. unfold is_ascii_alphabetic in Hl.
        apply orb_true_iff in Hl as [Hl|Hl]; apply andb_true_iff in Hl as [?%N.leb_le ?%N.leb_le];
          rewrite !orb_false_r; apply orb_false_iff; split; apply N.eqb_neq; lia.
      * done.
Qed.

(** *** Arguments of [env] and [trap] *)

(** A word [env] takes for itself: one of its two options, or an assignment. *)
Inductive env_word : str → Prop :=
  | env_short : env_word (lit "-i")
  | env_long : env_word (lit "--ignore-environment")
  | env_assignment name value :
      name ≠ [] → 61%N ∉ name → (∀ rest, name ≠ c_minus :: rest) → env_word (name ++ 61%N :: value).

(** [env_runs args inner]: with these arguments [env] runs [inner]. *)
Inductive env_runs : list str → list str → Prop :=
  | env_command_first inner :
      (∀ w rest, inner = w :: rest → ¬ env_word w ∧ w ≠ lit "--") → env_runs inner inner
  | env_dashes inner : env_runs (lit "--" :: inner) inner
  | env_skips w args inner : env_word w → env_runs args inner → env_runs (w :: args) inner.

Lemma split_once_first c a b : c ∉ a → split_once c (a ++ c :: b) = Some (a, b).
Proof.
  induction a as [|d a IH]; simpl; [by rewrite N.eqb_refl|]. intros [Hd Ha]%not_elem_of_cons.
  rewrite (proj2 (N.eqb_neq d c)) by congruence. by rewrite IH.
Qed.

Lemma split_once_parts c s a b : split_once c s = Some (a, b) → s = a ++ c :: b ∧ c ∉ a.
Proof.
  revert a b. induction s as [|d s IH]; intros a b; simpl; [done|]. destruct (N.eqb_spec d c) as [->|Hd].
  - intros [= <- <-]. split; [done|]. apply not_elem_of_nil.
  - destruct (split_once c s) as [[x y]|]; simpl; [|done]. intros [= <- <-]. destruct (IH x y eq_refl) as [-> ?].
    split; [done|]. by apply not_elem_of_cons.
Qed.

Lemma minus_start s : starts_with (lit "-") s = true ↔ ∃ rest, s = c_minus :: rest.
Proof.
  unfold starts_with. split.
  - destruct (strip_prefix _ s) as [r|] eqn:E; [|done]. apply strip_prefix_Some in E as ->. intros _. by exists r.
  - intros [rest ->]. done.
Qed.

Lemma env_word_prefix w : env_word w ↔ env_prefix w = true.
Proof.
  unfold env_prefix. split.
  - intros [| |name value Hn He Hm]; [done..|]. apply orb_true_iff. right. rewrite split_once_first by done.
    rewrite bool_decide_eq_false_2 by done. simpl. apply negb_true_iff.
    destruct (starts_with (lit "-") name) eqn:E; [|done]. apply minus_start in E as [rest ->]. by destruct (Hm rest).
  - intros [H%bool_decide_eq_true|H]%orb_true_iff.
    + apply elem_of_cons in H as [-> | ->%list_elem_of_singleton]; constructor.
    + destruct (split_once 61%N w) as [[name value]|] eqn:E; [|done]. apply split_once_parts in E as [-> He].
      apply andb_true_iff in H as [Hn%negb_true_iff%bool_decide_eq_false Hm%negb_true_iff]. constructor; [done..|].
      intros rest ->. by rewrite (proj2 (minus_start _)) in Hm by eauto.
Qed.

Lemma env_word_dashes : ¬ env_word (lit "--").
Proof. rewrite env_word_prefix. by vm_compute. Qed.

Lemma env_runs_command args inner : env_runs args inner → env_command args = inner.
Proof.
  induction 1 as [inner Hi|inner|w args inner Hw _ IH]; [|done|].
  - destruct inner as [|w rest]; [done|]. simpl. destruct (Hi w rest eq_refl) as [Hw Hd].
    rewrite bool_decide_eq_false_2 by done. destruct (env_prefix w) eqn:E; [|done]. by apply env_word_prefix in E.
  - simpl. rewrite bool_decide_eq_false_2 by (intros ->; by apply env_word_dashes).
    by rewrite (proj1 (env_word_prefix w) Hw).
Qed.

(** [trap_runs args action]: the action [trap] sets. *)
Inductive trap_runs : list str → str → Prop :=
  | trap_first action rest : (∀ x, action ≠ c_minus :: x) → trap_runs (action :: rest) action
  | trap_dashes action rest : (∀ x, action ≠ c_minus :: x) → trap_runs (lit "--" :: action :: rest) action.

Lemma trap_runs_command args action : trap_runs args action → trap_command args = Some [lit "sh"; lit "-c"; action].
Proof.
  assert (H : ∀ a, (∀ x, a ≠ c_minus :: x) → starts_with (lit "-") a = false).
  { intros a Ha. destruct (starts_with (lit "-") a) eqn:E; [|done]. apply minus_start in E as [x ->]. by destruct (Ha x). }
  intros [action' rest Ha|action' rest Ha]; unfold trap_command.
  - rewrite bool_decide_eq_false_2 by (intros ->; by apply (Ha (lit "-"))). simpl. by rewrite (H _ Ha).
  - rewrite bool_decide_eq_true_2 by done. simpl. by rewrite (H _ Ha).
Qed.

(** *** The shell of a script *)

Definition POSIX_SHELLS : list str := [lit "sh"; lit "bash"; lit "zsh"].

Lemma split_char_app_any c a b : split_char c (a ++ c :: b) = split_char c a ++ split_char c b.
Proof.
  induction a as [|d a IH]; simpl; [by rewrite N.eqb_refl|]. rewrite IH. destruct (d =? c)%N; [done|].
  pose proof (split_char_not_nil c a). by destruct (split_char c a).
Qed.

(** The components of a file [name] in the directory [d]. *)
Lemma components_below d name :
  c_slash ∉ name → name ≠ [] → name ≠ lit "." →
  ∃ cs, (path_components (d ++ c_slash :: name)).2 = cs ++ [name]
        ∧ (cs ≠ [] ∨ (path_components (d ++ c_slash :: name)).1 = true).
Proof.
  intros Hs Hn Hd. unfold path_components. rewrite split_char_app_any, (split_char_none c_slash name Hs). simpl.
  rewrite List.filter_app. cbn [List.filter]. rewrite (bool_decide_eq_false_2 (name = [])), (bool_decide_eq_false_2 (name = lit ".")) by done. cbn [orb negb].
  pose proof (split_char_not_nil c_slash d) as Hne. destruct (split_char c_slash d) as [|first ps] eqn:E; [done|]. simpl.
  destruct (bool_decide (first = lit ".")) eqn:Ef.
  - apply bool_decide_eq_true in Ef as ->. eexists (_ :: _). split; [done|]. by left.
  - rewrite orb_false_r. destruct (bool_decide (first = [])) eqn:En; simpl.
    + eexists. split; [done|]. right. apply bool_decide_eq_true in En as ->. destruct d as [|x d]; [done|]. simpl in E.
      destruct (N.eqb_spec x c_slash) as [->|]; [done|]. by destruct (split_char c_slash d).
    + eexists (_ :: _). split; [done|]. by left.
Qed.

Lemma names_shell shell_name shell :
  names_program shell_name PlatformPosix shell → shell_name ∈ POSIX_SHELLS →
  detect_shell_type shell ∈ [Some Zsh; Some Bash; Some Sh].
Proof.
  intros Hn Hs. inversion Hn as [dir Hd Hsh|]; subst shell.
  assert (Hbare : (c_slash ∉ shell_name) ∧ shell_name ≠ [] ∧ shell_name ≠ lit "."
    ∧ ∃ t, shell_of_name shell_name = Some t ∧ Some t ∈ [Some Zsh; Some Bash; Some Sh]
           ∧ path_components shell_name = (false, [shell_name]) ∧ rsplit_once c_dot shell_name = None
           ∧ shell_name ≠ lit "..").
  { unfold POSIX_SHELLS in Hs. repeat (apply elem_of_cons in Hs as [->|Hs];
      [split_and!; [by apply (bool_decide_unpack _); vm_compute|done|done|eexists; split_and!; [reflexivity|by apply (bool_decide_unpack _); vm_compute|by vm_compute|by vm_compute|done]]|]).
    by apply not_elem_of_nil in Hs. }
  destruct Hbare as (Hsl & Hne & Hdot & t & Ht & Hin & Hc & Hr & Hdd).
  unfold detect_shell_type. destruct Hd as [->|(d & sep & -> & ->%list_elem_of_singleton)].
  { simpl. assert (Hf : ∀ f, detect_shell_type_fuel f shell_name = Some t) by (intros [|f]; simpl; by rewrite Ht). by rewrite Hf. }
  rewrite <- app_assoc. set (path := d ++ c_slash :: shell_name). match goal with |- detect_shell_type_fuel (length ?p) ?p ∈ _ => change p with path end.
  destruct (components_below d shell_name Hsl Hne Hdot) as (cs & Hcs & Hor). fold path in Hcs, Hor.
  assert (Hslash : shell_of_name path = None).
  { assert (Hi : c_slash ∈ path) by (unfold path; rewrite elem_of_app; right; by left).
    unfold shell_of_name. repeat (rewrite bool_decide_eq_false_2; [|intros E; rewrite E in Hi; revert Hi; decide_now]). done. }
  assert (Hl : ∃ f, length path = S f) by (unfold path; rewrite length_app; simpl; eexists; by rewrite Nat.add_succ_r).
  destruct Hl as [f ->]. simpl. rewrite Hslash.
  assert (Hstem : path_file_stem path = Some shell_name).
  { unfold path_file_stem, path_file_name_of. rewrite Hcs, last_snoc. rewrite !bool_decide_eq_false_2 by done. simpl. by rewrite Hr. }
  rewrite Hstem. simpl. assert (He : path_eqb shell_name path = false).
  { unfold path_eqb. apply bool_decide_eq_false. rewrite Hc. intros Hx. rewrite <- Hx in Hcs, Hor. simpl in Hcs, Hor.
    destruct Hor as [Hor|]; [|done]. destruct cs as [|x cs]; [done|]. apply (f_equal length) in Hcs.
    simpl in Hcs. rewrite length_app in Hcs. simpl in Hcs. lia. }
  rewrite He. assert (Hf : detect_shell_type_fuel f shell_name = Some t) by (destruct f; simpl; by rewrite Ht). by rewrite Hf.
Qed.

(** *** Words and commands of a script *)

Definition node_of (k : string) (n : Node) : Prop := node_kind n = lit k.

(** A backslash in double quotes takes away the meaning of the next character. *)
Definition no_escape (s : str) : Prop :=
  ∀ a c b, s = a ++ c_backslash :: c :: b → c ∉ [36; 96; 34; 92; 10]%N.

(** [spells n w]: the node spells the word [w] out, whatever the shell's state is. *)
Inductive spells : Node → str → Prop :=
  | spells_bare n w :
      node_of "word" n ∨ node_of "number" n → named_children n = [] → utf8_text n = Some w →
      (∀ rest, w ≠ 61%N :: rest) → Forall (λ c, c ∉ lit "{}*?[]\~^#$`") w → spells n w
  | spells_double n w :
      node_of "string" n → Forall (node_of "string_content") (named_children n) →
      utf8_text n = Some (c_dquote :: w ++ [c_dquote]) → no_escape w → spells n w
  | spells_single n w :
      node_of "raw_string" n → utf8_text n = Some (c_quote :: w ++ [c_quote]) → spells n w
  | spells_joined n ws :
      node_of "concatenation" n → Forall2 spells (named_children n) ws → concat ws ≠ [] → spells n (concat ws).

(** The words the arguments spell; those that are not spelled out are left out. *)
Inductive spelled_args : list Node → list str → Prop :=
  | spelled_nil : spelled_args [] []
  | spelled_word n w ns ws : spells n w → spelled_args ns ws → spelled_args (n :: ns) (w :: ws)
  | spelled_skip n ns ws : (∀ w, ¬ spells n w) → spelled_args ns ws → spelled_args (n :: ns) ws.

(** The command of a node: its name, which comes after assignments and
    redirections, and its arguments. *)
Inductive spelled_command : Node → list str → Prop :=
  | spelled_simple n before name_node first firsts args name words :
      node_of "command" n → named_children n = before ++ name_node :: args →
      Forall (λ c, ¬ node_of "command_name" c) (before ++ args) → node_of "command_name" name_node →
      named_children name_node = first :: firsts → spells first name → spelled_args args words →
      spelled_command n (name :: words).

Lemma node_of_kind k n : kind_is k n = true ↔ node_of k n.
Proof. unfold kind_is. apply bool_decide_eq_true. Qed.

Lemma has_escape_spec s : has_escape s = false ↔ no_escape s.
Proof.
  unfold no_escape. induction s as [|x s IH].
  - split; [|done]. intros _ a c b H. by destruct a.
  - destruct s as [|y s].
    + split; [|done]. intros _ a c b H. destruct a as [|z [|]]; simplify_eq/=.
    + change (has_escape (x :: y :: s)) with ((x =? 92)%N && bool_decide (y ∈ [36; 96; 34; 92; 10]%N) || has_escape (y :: s)).
      rewrite orb_false_iff, IH. split.
      * intros [Hx Hs] a c b Hc. destruct a as [|z a]; simplify_eq/=; [|by eapply (Hs a)].
        by apply bool_decide_eq_false in Hx.
      * intros H. split; [|intros a c b E; apply (H (x :: a) c b); simpl; by rewrite E].
        destruct (N.eqb_spec x 92) as [->|]; [|done]. simpl. apply bool_decide_eq_false. by apply (H [] y s).
Qed.

Lemma quoted_text c s w : strip_prefix [c] s ≫= strip_suffix [c] = Some w ↔ s = c :: w ++ [c].
Proof.
  split.
  - destruct (strip_prefix [c] s) as [r|] eqn:E; [|done]. simpl. intros H%strip_suffix_Some.
    apply strip_prefix_Some in E. by subst.
  - intros ->. rewrite (proj2 (strip_prefix_Some [c] _ (w ++ [c]))) by done. simpl. by apply strip_suffix_Some.
Qed.

Lemma bare_word n w :
  kind_in [lit "word"; lit "number"] n = true →
  (if is_literal_word_or_number n then utf8_text n else None) = Some w
  ↔ named_children n = [] ∧ utf8_text n = Some w ∧ (∀ rest, w ≠ 61%N :: rest) ∧ Forall (λ c, c ∉ lit "{}*?[]\~^#$`") w.
Proof.
  intros Hk. unfold is_literal_word_or_number. rewrite Hk. simpl.
  assert (Hs : ∀ w, starts_with [61%N] w = false ↔ ∀ rest, w ≠ 61%N :: rest).
  { intros v. unfold starts_with. destruct (strip_prefix [61%N] v) as [r|] eqn:E.
    - apply strip_prefix_Some in E as ->. split; [done|]. intros H. by destruct (H r).
    - split; [|done]. intros _ rest ->. done. }
  assert (Hc : ∀ w : str, existsb (λ c, bool_decide (c ∈ lit "{}*?[]\~^#$`")) w = false ↔ Forall (λ c, c ∉ lit "{}*?[]\~^#$`") w).
  { intros v. rewrite existsb_false_Forall. apply Forall_iff. intros c. apply bool_decide_eq_false. }
  destruct (utf8_text n) as [v|]; [|rewrite andb_false_r; naive_solver].
  destruct (bool_decide (named_children n = [])) eqn:En; simpl;
    [apply bool_decide_eq_true in En|apply bool_decide_eq_false in En; naive_solver].
  destruct (starts_with [61%N] v) eqn:Es; simpl.
  { split; [done|]. intros (_ & [= ->] & H & _). apply Hs in H. congruence. }
  destruct (existsb _ v) eqn:Ee; simpl.
  { split; [done|]. intros (_ & [= ->] & _ & H). apply Hc in H. congruence. }
  pose proof (proj1 (Hs v) Es) as Hs'. pose proof (proj1 (Hc v) Ee) as Hc'. clear Hs Hc Es Ee. naive_solver.
Qed.

Lemma double_quoted n w :
  kind_is "string" n = true →
  parse_double_quoted_string n = Some w
  ↔ Forall (node_of "string_content") (named_children n) ∧ utf8_text n = Some (c_dquote :: w ++ [c_dquote]) ∧ no_escape w.
Proof.
  intros Hk. unfold parse_double_quoted_string. rewrite Hk. cbn [negb orb].
  destruct (existsb _ (named_children n)) eqn:Ee.
  { split; [done|]. intros [H _]. apply existsb_exists in Ee as (c & Hc%list_elem_of_In & Hkc).
    rewrite Forall_forall in H. apply H, node_of_kind in Hc. by rewrite Hc in Hkc. }
  assert (Hf : Forall (node_of "string_content") (named_children n)).
  { apply existsb_false_Forall in Ee. eapply Forall_impl; [exact Ee|]. intros c Hc. apply node_of_kind. by apply negb_false_iff. }
  destruct (utf8_text n) as [raw|]; [|naive_solver]. cbn [mbind option_bind].
  destruct (strip_prefix [c_dquote] raw ≫= strip_suffix [c_dquote]) as [v|] eqn:E; cbn [mbind option_bind].
  - apply quoted_text in E as ->. destruct (has_escape v) eqn:Eh.
    + split; [done|]. intros (_ & [= [-> _]%app_inj_2] & H); [|done]. apply has_escape_spec in H. congruence.
    + apply has_escape_spec in Eh. split; [by intros [= <-]|]. intros (_ & [= [-> _]%app_inj_2] & _); done.
  - split; [done|]. intros (_ & [= ->] & _). by rewrite (proj2 (quoted_text c_dquote _ w)) in E.
Qed.

Lemma kinds_apart k k' n : kind_is k n = true → lit k ≠ lit k' → kind_is k' n = false.
Proof. rewrite node_of_kind. unfold node_of, kind_is. intros -> H. by apply bool_decide_eq_false. Qed.

Lemma word_kind n : kind_in [lit "word"; lit "number"] n = true ↔ node_of "word" n ∨ node_of "number" n.
Proof.
  unfold kind_in, node_of. rewrite bool_decide_eq_true, elem_of_cons, list_elem_of_singleton. done.
Qed.

Lemma children_smaller n c : c ∈ node_children n → node_size c < node_size n.
Proof.
  rewrite (node_size_eq n). intros (l & k & ->)%list_elem_of_split. rewrite stack_size_app. simpl. lia.
Qed.

(** A node is of one kind. *)
Ltac kinds_clash :=
  unfold node_of in *;
  repeat match goal with H : _ ∨ _ |- _ => destruct H end;
  match goal with H1 : node_kind ?n = _, H2 : node_kind ?n = _ |- _ => rewrite H1 in H2; discriminate H2 end.

(** The parser of literal words reads exactly the words that are spelled out. *)
Lemma literal_word_spells n w : parse_literal_shell_word n = Some w ↔ spells n w.
Proof.
  remember (node_size n) as k eqn:Hk. revert n Hk w. induction k as [k IH] using lt_wf_ind. intros n -> w.
  assert (Hparts : ∀ ws, mapM parse_literal_shell_word (named_children n) = Some ws ↔ Forall2 spells (named_children n) ws).
  { intros ws. rewrite mapM_Some. assert (Hc : ∀ c, c ∈ named_children n → ∀ v, parse_literal_shell_word c = Some v ↔ spells c v).
    { intros c [Hc _]%named_child v. eapply IH; [by apply children_smaller|done]. }
    clear IH. induction (named_children n) as [|c cs IHc] in ws, Hc |- *; destruct ws as [|v ws];
      rewrite ?Forall2_cons, ?Forall2_cons_nil, ?Forall2_nil_cons; [split; constructor|by split; inversion 1..|].
    rewrite (Hc c ltac:(by left)), IHc; [done|]. intros d Hd. apply Hc. by right. }
  rewrite parse_literal_shell_word_eq. destruct (kind_in [lit "word"; lit "number"] n) eqn:Ek.
  { rewrite bare_word by done. pose proof Ek as Hn. apply word_kind in Hn. split.
    - intros (? & ? & ? & ?). by constructor.
    - intros Hs. destruct Hs as [n w ? ? ? ? ?|n w H|n w H|n ws H]; [done|..]; kinds_clash. }
  assert (Hnk : ¬ (node_of "word" n ∨ node_of "number" n)) by (intros H%word_kind; congruence).
  destruct (kind_is "string" n) eqn:Es.
  { rewrite double_quoted by done. apply node_of_kind in Es. split.
    - intros (? & ? & ?). by apply spells_double.
    - intros Hs. destruct Hs as [n w H|n w ? ? ? ?|n w H|n ws H]; [kinds_clash|done|..]; kinds_clash. }
  destruct (kind_is "raw_string" n) eqn:Er.
  { unfold parse_raw_string. rewrite Er. cbn [negb]. apply node_of_kind in Er. split.
    - destruct (utf8_text n) as [raw|] eqn:Et; [|done]. cbn [mbind option_bind]. intros H%quoted_text.
      apply spells_single; congruence.
    - intros Hs. destruct Hs as [n w H|n w H|n w ? ->|n ws H]; [kinds_clash|kinds_clash| |kinds_clash].
      by apply quoted_text. }
  destruct (kind_is "concatenation" n) eqn:Ec.
  { apply node_of_kind in Ec. split.
    - destruct (mapM _ _) as [ws|] eqn:Em; [|done]. simpl. unfold non_empty_str. case_bool_decide; [done|]. intros [= <-].
      apply spells_joined; [done|by apply Hparts|done].
    - intros Hs. destruct Hs as [n w H|n w H|n w H|n ws H Hws Hne]; [kinds_clash..|].
      rewrite (proj2 (Hparts ws) Hws). simpl. unfold non_empty_str. by rewrite bool_decide_eq_false_2. }
  split; [done|]. intros Hs.
  destruct Hs as [n w H|n w H%node_of_kind|n w H%node_of_kind|n ws H%node_of_kind]; [done|congruence..].
Qed.

Lemma spelled_arguments args words collected :
  Forall (λ c, ¬ node_of "command_name" c) args → spelled_args args words →
  literal_words (Some collected) args = Some (Some (collected ++ words)).
Proof.
  intros Hk Hs. revert collected. induction Hs as [|n w ns ws Hn Hs IH|n ns ws Hn Hs IH]; intros collected; simpl.
  - by rewrite app_nil_r.
  - apply Forall_cons in Hk as [Hk Hks]. unfold literal_word.
    destruct (kind_is "command_name" n) eqn:E; [by apply node_of_kind in E|].
    rewrite (proj2 (literal_word_spells n w) Hn). simpl. rewrite IH by done. by rewrite <- app_assoc.
  - apply Forall_cons in Hk as [Hk Hks]. unfold literal_word.
    destruct (kind_is "command_name" n) eqn:E; [by apply node_of_kind in E|].
    destruct (parse_literal_shell_word n) as [w|] eqn:Ew; [by apply literal_word_spells, Hn in Ew|]. simpl. by rewrite IH.
Qed.

(** A command that is spelled out is read. *)
Lemma spelled_command_read n words : spelled_command n words → parse_literal_command_from_node n = Some words.
Proof.
  intros [n' before name_node first firsts args name words' Hk Hc Hf Hn Hfs Hname Hargs].
  unfold parse_literal_command_from_node. rewrite (proj2 (node_of_kind "command" n') Hk), Hc. cbn [negb].
  apply Forall_app in Hf as [Hb Ha].
  assert (H : literal_words None (before ++ name_node :: args) = literal_words None (name_node :: args)).
  { clear Hc. induction Hb as [|c before Hc _ IH]; [done|]. cbn [app literal_words]. unfold literal_word at 1.
    destruct (kind_is "command_name" c) eqn:E; [by apply node_of_kind in E|]. cbn [mbind option_bind]. by rewrite IH. }
  rewrite H. cbn [literal_words]. unfold literal_word. rewrite (proj2 (node_of_kind _ _) Hn), Hfs. cbn [head mbind option_bind].
  rewrite (proj2 (literal_word_spells first name) Hname). cbn [mbind option_bind]. by rewrite (spelled_arguments args words').
Qed.

(** *** A forced removal *)

(** [rm] with [--force], or with an [f] among its short options, before any [--]. *)
Inductive forced_removal (platform : DangerousCommandPlatform) : list str → Prop :=
  | forced exe before option after :
      names_program (lit "rm") platform exe → lit "--" ∉ before → option ≠ lit "--" →
      (option = lit "--force"
       ∨ ∃ flags, option = c_minus :: flags ∧ (∀ rest, flags ≠ c_minus :: rest) ∧ 102%N ∈ flags) →
      forced_removal platform (exe :: before ++ option :: after).

Lemma forced_option before option after :
  lit "--" ∉ before → option ≠ lit "--" →
  (option = lit "--force" ∨ ∃ flags, option = c_minus :: flags ∧ (∀ rest, flags ≠ c_minus :: rest) ∧ 102%N ∈ flags) →
  rm_args_include_force_option (before ++ option :: after) = true.
Proof.
  intros Hb Ho Hf. unfold rm_args_include_force_option. apply existsb_exists. exists option. split.
  - apply list_elem_of_In. induction before as [|x before IH]; simpl.
    + rewrite bool_decide_eq_false_2 by done. by left.
    + apply not_elem_of_cons in Hb as [Hx Hb]. rewrite bool_decide_eq_false_2 by done. right. auto.
  - destruct Hf as [->|(flags & -> & Hm & Hin)]; [done|]. apply orb_true_iff. right.
    rewrite (proj2 (strip_prefix_Some (lit "-") _ flags)) by done. apply andb_true_iff. split.
    + apply negb_true_iff. destruct (starts_with (lit "-") flags) eqn:E; [|done]. apply minus_start in E as [rest ->]. by destruct (Hm rest).
    + unfold contains_char. apply existsb_exists. exists 102%N. split; [by apply list_elem_of_In|apply N.eqb_refl].
Qed.
Section scripts.
Context `{SG : !ShellGrammars} `{CW : !CommandWords}.

Class LawfulShellGrammars : Prop :=
  shell_tree script root : try_parse_shell script = Some root → bash_tree root.
Context `{LSG : !LawfulShellGrammars}.

(** Every plain command of a script is a literal one. *)
Lemma plain_in_literal command cs :
  parse_shell_lc_plain_commands command = Some cs →
  ∃ ls, parse_shell_lc_literal_commands command = Some ls ∧ ∀ c, c ∈ cs → c ∈ ls.
Proof using LSG.
  unfold parse_shell_lc_plain_commands, parse_shell_lc_literal_commands, parse_shell_script_into_commands.
  destruct (extract_bash_command command) as [[shell script]|]; [|done]. simpl.
  destruct (try_parse_shell script) as [root|] eqn:Et; [|done]. simpl.
  unfold try_parse_word_only_commands_sequence. destruct (node_has_error root); [done|].
  destruct (forallb node_allowed (visited node_children root)) eqn:Ea; [simpl|done]. intros Hm.
  pose proof (shell_tree _ _ Et) as Ht.
  assert (Ha : ∀ m, below node_children root m → node_allowed m = true).
  { intros m Hb. rewrite forallb_forall in Ea. apply Ea, list_elem_of_In.
    apply visited_below; [apply proper_all|done]. }
  eexists. split; [done|]. intros c Hc. rewrite mapM_Some in Hm. apply list_elem_of_lookup in Hc as (i & Hi).
  destruct (Forall2_lookup_r _ _ _ _ _ Hm Hi) as (n & Hn & Hp).
  apply list_elem_of_lookup_2 in Hn. rewrite merge_sort_Permutation in Hn.
  apply list_elem_of_In, filter_In in Hn as [Hn%list_elem_of_In [Hnn Hk]%andb_true_iff].
  apply visited_below in Hn; [|apply proper_all]. apply list_elem_of_omap. exists n. split.
  - apply visited_below; [apply proper_named|]. by apply below_named.
  - by apply (plain_command_literal root).
Qed.

(** ** Danger *)

Abbreviation danger := dangerous_command_match_with_depth.

(** Fewer levels to look into never hide a match. *)
Lemma danger_levels platform l l' command :
  l' ≤ l → is_Some (danger l platform command) → is_Some (danger l' platform command).
Proof.
  revert l' command. induction l as [|l IH]; intros l' command Hl; [by replace l' with 0 by lia|].
  destruct l' as [|l']; [by eexists|]. assert (Hl' : l' ≤ l) by lia.
  assert (Hw : ∀ c, is_Some (danger l platform c) → is_Some (danger l' platform c)) by (intros c; by apply IH).
  cbn [dangerous_command_match_with_depth].
  set (e := match command with [] => _ | _ => _ end). set (e' := match command with [] => _ | _ => _ end).
  assert (He : is_Some e → is_Some e').
  { subst e e'. destruct command as [|cmd0 args]; [done|]. destruct (_ && _); [done|].
    destruct (bool_decide (_ = Some (lit "sudo"))); [by apply Hw|].
    destruct (bool_decide (_ = Some (lit "env"))); [by apply Hw|].
    destruct (bool_decide (_ = Some (lit "trap"))); [|done]. destruct (trap_command args); [by apply Hw|done]. }
  destruct e' as [m'|]; [by eexists|]. destruct e as [m|]; [destruct He as [? ?]; [by eexists|done]|].
  assert (Hf : is_Some (parse_shell_lc_literal_commands command ≫= find_map (danger l platform)) →
               is_Some (parse_shell_lc_literal_commands command ≫= find_map (danger l' platform))).
  { destruct (parse_shell_lc_literal_commands command) as [cs|]; [|done]. simpl. intros [m (c & Hc & Hm)%find_map_Some].
    destruct (find_map (danger l' platform) cs) eqn:E; [by eexists|]. rewrite find_map_None in E.
    destruct (Hw c) as [? H]; [by eexists|]. by rewrite E in H. }
  destruct (_ ≫= find_map (danger l' platform)); [by eexists|].
  destruct (_ ≫= find_map (danger l platform)); [destruct Hf as [? ?]; [by eexists|done]|]. done.
Qed.

(** Decides the comparisons of a known key. *)
Ltac settle_keys :=
  repeat match goal with
         | |- context [bool_decide (Some ?a = Some ?b)] =>
             let b' := eval vm_compute in (bool_decide (Some a = Some b)) in
             change (bool_decide (Some a = Some b)) with b'
         end; cbn [andb].

(** A literal command of a script is looked at. *)
Lemma script_danger platform l inner outer cs :
  parse_shell_lc_literal_commands outer = Some cs → inner ∈ cs →
  is_Some (danger l platform inner) → is_Some (danger (S l) platform outer).
Proof.
  intros Hp Hc Hi. cbn [dangerous_command_match_with_depth].
  destruct (match outer with [] => None | _ => _ end); [by eexists|]. rewrite Hp. simpl.
  destruct (find_map (danger l platform) cs) eqn:E; [by eexists|]. rewrite find_map_None in E.
  destruct Hi as [m Hi]. by rewrite (E inner Hc) in Hi.
Qed.

(** The commands that run another one: [wraps inner outer]. [sudo] is taken without
    options, [env] with its two short ones and with assignments, a shell with [-c]
    or [-lc] and a script the grammar reads. *)
Inductive wraps (platform : DangerousCommandPlatform) : list str → list str → Prop :=
  | wraps_sudo exe inner :
      names_program (lit "sudo") platform exe → wraps platform inner (exe :: inner)
  | wraps_env exe args inner :
      names_program (lit "env") platform exe → env_runs args inner → wraps platform inner (exe :: args)
  | wraps_trap exe args action :
      names_program (lit "trap") platform exe → trap_runs args action →
      wraps platform [lit "sh"; lit "-c"; action] (exe :: args)
  | wraps_script shell shell_name flag script root n inner :
      names_program shell_name PlatformPosix shell → shell_name ∈ POSIX_SHELLS → flag = lit "-c" ∨ flag = lit "-lc" →
      try_parse_shell script = Some root → node_has_error root = false →
      below named_children root n → spelled_command n inner → wraps platform inner [shell; flag; script].

Lemma script_commands_read shell shell_name flag script root n inner :
  names_program shell_name PlatformPosix shell → shell_name ∈ POSIX_SHELLS → flag = lit "-c" ∨ flag = lit "-lc" →
  try_parse_shell script = Some root → node_has_error root = false →
  below named_children root n → spelled_command n inner →
  ∃ cs, parse_shell_lc_literal_commands [shell; flag; script] = Some cs ∧ inner ∈ cs.
Proof.
  intros Hs Hn Hf Ht He Hb Hc. unfold parse_shell_lc_literal_commands, extract_bash_command.
  rewrite (bool_decide_eq_true_2 (flag ∈ _)) by (destruct Hf as [-> | ->]; decide_now).
  rewrite bool_decide_eq_true_2 by (by eapply names_shell). cbn [negb orb mbind option_bind]. rewrite Ht. simpl. rewrite He.
  eexists. split; [done|]. apply list_elem_of_omap. exists n. split; [|by apply spelled_command_read].
  by apply visited_below; [apply proper_named|].
Qed.

Lemma wraps_danger platform l inner outer :
  wraps platform inner outer → is_Some (danger l platform inner) → is_Some (danger (S l) platform outer).
Proof.
  intros Hw Hi. destruct Hw as [exe inner Hk|exe args inner Hk Hr|exe args action Hk Hr|shell name flag script root n inner Hs Hn Hf Ht He Hb Hc].
  - cbn [dangerous_command_match_with_depth]. rewrite (names_lookup _ _ _ Hk) by decide_now.
    cbv beta iota zeta. settle_keys. destruct Hi as [m ->]. by eexists.
  - cbn [dangerous_command_match_with_depth]. rewrite (names_lookup _ _ _ Hk) by decide_now.
    cbv beta iota zeta. settle_keys. rewrite (env_runs_command _ _ Hr). destruct Hi as [m ->]. by eexists.
  - cbn [dangerous_command_match_with_depth]. rewrite (names_lookup _ _ _ Hk) by decide_now.
    cbv beta iota zeta. settle_keys. rewrite (trap_runs_command _ _ Hr). cbn [mbind option_bind]. destruct Hi as [m ->]. by eexists.
  - destruct (script_commands_read shell name flag script root n inner) as (cs & Hp & Hin); [done..|]. by eapply script_danger.
Qed.

Lemma forced_danger platform l command : forced_removal platform command → is_Some (danger (S l) platform command).
Proof.
  intros [exe before option after Hk Hb Ho Hf]. cbn [dangerous_command_match_with_depth].
  rewrite (names_lookup _ _ _ Hk) by decide_now. cbv beta iota zeta. settle_keys.
  rewrite forced_option by done. cbn [andb]. by eexists.
Qed.

(** C15. Wrapping never hides a forced removal: when [n] wrappers stand around a
    command ([sudo] without options, [env] with [-i] or assignments, a [trap], or a
    script that [sh], [bash] or [zsh] run, also inside of its control flow), each
    the one inside of the next, the whole is found dangerous if the command is an
    [rm] with a force option, if it is found dangerous for another reason, or if
    the wrappers are more than the code looks through. *)
Theorem wrappers_never_hide platform n inner outer :
  nsteps (wraps platform) n inner outer →
  forced_removal platform inner ∨ dangerous_command_match_for_platform inner platform ≠ None
  ∨ MAX_DANGEROUS_COMMAND_WRAPPER_DEPTH < n →
  dangerous_command_match_for_platform outer platform ≠ None.
Proof.
  intros Hw Hi. apply not_eq_None_Some. unfold dangerous_command_match_for_platform in *.
  assert (Hup : ∀ l, is_Some (danger l platform inner) → is_Some (danger (n + l) platform outer)).
  { clear Hi. induction Hw as [|n inner mid outer Hw _ IH]; intros l Hl; [done|].
    replace (S n + l) with (n + S l) by lia. apply IH. by eapply wraps_danger. }
  destruct Hi as [Hi|[Hi%not_eq_None_Some|Hn]].
  - eapply danger_levels; [|apply (Hup (S MAX_DANGEROUS_COMMAND_WRAPPER_DEPTH)), forced_danger, Hi]. lia.
  - eapply danger_levels; [|apply Hup, Hi]. lia.
  - eapply danger_levels; [|apply (Hup 0); by eexists]. lia.
Qed.

(** The check for danger sees what the policy sees: each command of a script
    that is read as plain commands is among the literal ones, so that a script
    with a dangerous plain command is dangerous itself. *)
Theorem plain_commands_checked platform command cs c :
  parse_shell_lc_plain_commands command = Some cs → c ∈ cs →
  (∃ ls, parse_shell_lc_literal_commands command = Some ls ∧ c ∈ ls)
  ∧ (dangerous_command_match_for_platform c platform ≠ None →
     dangerous_command_match_for_platform command platform ≠ None).
Proof using LSG.
  intros Hp Hc. destruct (plain_in_literal _ _ Hp) as (ls & Hl & Hin). split; [eauto|].
  intros Hd%not_eq_None_Some. apply not_eq_None_Some.
  eapply danger_levels; [|apply (script_danger platform (S MAX_DANGEROUS_COMMAND_WRAPPER_DEPTH) c command ls)]; [lia|done|by apply Hin|done].
Qed.
End scripts.

(** * A small shell grammar

    Scripts of commands joined by [&&], with words between spaces and no quotes: a
    grammar that keeps the laws of [ShellCommandFacts], and the theorems at
    concrete scripts. *)

(** ** Trees *)

Definition word_node (start : nat) (w : str) : Node := mk_node (lit "word") true false start (Some w) [].
Definition name_node (start : nat) (w : str) : Node :=
  mk_node (lit "command_name") true false start (Some w) [word_node start w].
Definition command_node (start : nat) (name : str) (args : list str) : Node :=
  mk_node (lit "command") true false start (Some (join [c_sp] (name :: args)))
    (name_node start name :: map (word_node (S start)) args).
Definition and_node (start : nat) : Node := mk_node (lit "&&") false false start (Some (lit "&&")) [].

(** The words of a script, cut at [&&]. *)
Fixpoint script_commands (start : nat) (name : str) (args words : list str) : list Node :=
  match words with
  | [] => [command_node start name args]
  | w :: words =>
      if bool_decide (w = lit "&&") then
        match words with
        | [] => [command_node start name args; and_node (S start)]
        | name' :: words' => command_node start name args :: and_node (S start) :: script_commands (S (S start)) name' [] words'
        end
      else script_commands start name (args ++ [w]) words
  end.

Definition script_tree (script : str) : Node :=
  mk_node (lit "program") true false 0 (Some script)
    match filter (λ w, w ≠ []) (split_char c_sp script) with
    | [] => []
    | name :: words => script_commands 0 name [] words
    end.

#[global] Instance sample_grammars : ShellGrammars := {
  try_parse_shell script := Some (script_tree script);
  try_parse_powershell_commands script := Some [split_char c_sp script];
}.

#[global] Instance sample_words : CommandWords := {
  command_split s := Some (split_char c_sp s);
  command_join words := Some (join [c_sp] words);
  url_capture _ := None;
  parsed_url_scheme _ := None;
}.

(** ** The laws *)

Definition script_node (n : Node) : Prop :=
  (∃ start name args, n = command_node start name args) ∨ ∃ start, n = and_node start.

Lemma script_commands_nodes words start name args n :
  n ∈ script_commands start name args words → script_node n.
Proof.
  remember (length words) as k eqn:Hk. revert words Hk start name args.
  induction k as [k IH] using lt_wf_ind. intros words -> start name args. unfold script_node.
  destruct words as [|w words]; simpl; [intros Hn%list_elem_of_singleton; by eauto|].
  case_bool_decide.
  - destruct words as [|name' words'].
    + intros [Hn|Hn%list_elem_of_singleton]%elem_of_cons; eauto.
    + intros [Hn|[Hn|Hn]%elem_of_cons]%elem_of_cons; [by eauto..|]. eapply (IH (length words')); [simpl; lia|done..].
  - intros Hn. eapply (IH (length words)); [simpl; lia|done..].
Qed.

(** A node below is the node itself or below one of its children. *)
Lemma below_children n m :
  below node_children n m → m = n ∨ ∃ c, c ∈ node_children n ∧ below node_children c m.
Proof. destruct 1; eauto. Qed.

Lemma words_named start args : List.filter node_is_named (map (word_node start) args) = map (word_node start) args.
Proof. induction args as [|w args IH]; [done|]. simpl. by f_equal. Qed.

#[global] Instance sample_grammars_lawful : LawfulShellGrammars.
Proof.
  intros script root [= <-] n Hn.
  apply below_children in Hn as [->|(c & Hc & Hn)]; [by split|].
  assert (Hs : script_node c).
  { cbn in Hc. destruct (filter _ _); [by apply not_elem_of_nil in Hc|]. by eapply script_commands_nodes. }
  destruct Hs as [(start & name & args & ->)|[start ->]].
  - apply below_children in Hn as [->|(d & Hd & Hn)].
    + split; [done|]. intros _. exists (name_node start name), (map (word_node (S start)) args). split_and!.
      * unfold named_children. cbn [node_children command_node List.filter node_is_named name_node]. by rewrite words_named.
      * done.
      * apply Forall_forall. by intros x (w & -> & _)%list_elem_of_fmap.
    + cbn in Hd. apply elem_of_cons in Hd as [->|(w & -> & _)%list_elem_of_fmap].
      * apply below_children in Hn as [->|(e & ->%list_elem_of_singleton & Hn)]; [by split|].
        apply below_children in Hn as [->|(? & ?%not_elem_of_nil & _)]; by split.
      * apply below_children in Hn as [->|(? & ?%not_elem_of_nil & _)]; by split.
  - apply below_children in Hn as [->|(? & ?%not_elem_of_nil & _)]; by split.
Qed.

(** ** The theorems at concrete commands *)

Definition forced_rm : list str := [lit "rm"; lit "-f"; lit "x"].
Definition rm_script : list str := [lit "/bin/bash"; lit "-lc"; lit "rm -f x"].
Definition list_script : list str := [lit "/bin/bash"; lit "-lc"; lit "cd w && rm -f x"].

Lemma wrappers_never_hide_witness :
  dangerous_command_match_for_platform (lit "/usr/bin/sudo" :: rm_script) PlatformPosix ≠ None.
Proof.
  apply (wrappers_never_hide PlatformPosix 2 forced_rm).
  - apply nsteps_l with rm_script; [|apply nsteps_once].
    + apply (wraps_script PlatformPosix (lit "/bin/bash") (lit "bash") (lit "-lc") (lit "rm -f x")
               (script_tree (lit "rm -f x")) (command_node 0 (lit "rm") [lit "-f"; lit "x"]) forced_rm).
      * apply (names_posix _ (lit "/bin/")). right. exists (lit "/bin"), c_slash. split; [reflexivity|by left].
      * decide_now.
      * by right.
      * reflexivity.
      * reflexivity.
      * eapply below_child; [|constructor]. vm_compute. left.
      * eapply (spelled_simple _ [] (name_node 0 (lit "rm")) (word_node 0 (lit "rm")) []);
          [reflexivity|reflexivity|repeat constructor; by intros ?|reflexivity|reflexivity|..].
        -- apply literal_word_spells. reflexivity.
        -- apply spelled_word; [apply literal_word_spells; reflexivity|].
           apply spelled_word; [apply literal_word_spells; reflexivity|apply spelled_nil].
    + apply wraps_sudo, (names_posix _ (lit "/usr/bin/")). right. exists (lit "/usr/bin"), c_slash. split; [reflexivity|by left].
  - left. apply (forced _ (lit "rm") [] (lit "-f") [lit "x"]).
    + apply (names_posix _ []). by left.
    + apply not_elem_of_nil.
    + done.
    + right. exists (lit "f"). split_and!; [reflexivity|done|by left].
Defined.

(** Options of [sudo] and of [env] other than these are not skipped, and an
    assignment after [--] is taken for the command: a forced removal behind them is
    not found. *)
Lemma wrapper_options_hide :
  dangerous_command_match_for_platform [lit "sudo"; lit "-u"; lit "root"; lit "rm"; lit "-rf"; lit "/"] PlatformPosix = None
  ∧ dangerous_command_match_for_platform [lit "sudo"; lit "-n"; lit "rm"; lit "-rf"; lit "/"] PlatformPosix = None
  ∧ dangerous_command_match_for_platform [lit "env"; lit "-u"; lit "A"; lit "rm"; lit "-rf"; lit "/"] PlatformPosix = None
  ∧ dangerous_command_match_for_platform [lit "env"; lit "--"; lit "A=b"; lit "rm"; lit "-rf"; lit "/"] PlatformPosix = None.
Proof. split_and!; vm_compute; reflexivity. Qed.

Lemma plain_commands_checked_witness :
  parse_shell_lc_plain_commands list_script = Some [[lit "cd"; lit "w"]; forced_rm]
  ∧ dangerous_command_match_for_platform list_script PlatformPosix ≠ None.
Proof.
  assert (Hp : parse_shell_lc_plain_commands list_script = Some [[lit "cd"; lit "w"]; forced_rm])
    by (vm_compute; reflexivity).
  split; [exact Hp|].
  destruct (plain_commands_checked PlatformPosix list_script _ forced_rm Hp) as [_ H]; [right; left|].
  apply H. vm_compute. discriminate.
Defined.

(** ** PowerShell and arguments after the script *)

Definition trailing_script : list str :=
  [lit "pwsh"; lit "-Command"; lit "Get-Item x"; lit "; Remove-Item y"].

(** The commands the policy is asked about leave out what follows the script, though
    PowerShell joins the remaining arguments to it. *)
Lemma trailing_arguments_unchecked :
  parse_powershell_command_into_plain_commands trailing_script = Some [[lit "Get-Item"; lit "x"]].
Proof. vm_compute. reflexivity. Qed.

(** The prefix is put before the first script but takes the place of the last
    argument: the script runs twice and the argument is lost. *)
Lemma trailing_argument_replaced :
  prefix_powershell_script_with_utf8 trailing_script
  = [lit "pwsh"; lit "-Command"; lit "Get-Item x"; UTF8_OUTPUT_PREFIX ++ lit "Get-Item x"].
Proof. vm_compute. reflexivity. Qed.
