(* ===== verification/ExecApproval.v ===== *)
(** * Whether a command may run: the execution policy at work

    Models [core/src/exec_policy.rs] with [exec_policy/model_policy.rs] and
    [exec_policy/executable_identity.rs] (on a host that is not Windows, for the
    shells the system ships): the decision for commands that no rule covers, the
    approval a command needs, the amendments proposed to the user, and the updates
    of the policy in use. [ExecPolicyManager] is the policy it holds; its semaphore
    has one permit, so an update is one step, and nothing ever closes it. *)

From stdpp Require Import gmap.
From S2P Require Import Prelude RustStr RustIo RustOrd ExecPolicy PolicyParser PolicyAmend ShellCommand DangerousCommand.
From S2P Require Import PathConvention PathUri FsPolicy FsProfile PatchSafety.
Open Scope list_scope.

(** ** Reasons and constants *)

Definition PROMPT_CONFLICT_REASON : str :=
  lit "approval required by policy, but AskForApproval is set to Never".
Definition REJECT_SANDBOX_APPROVAL_REASON : str :=
  lit "approval required by policy, but AskForApproval::Granular.sandbox_approval is false".
Definition REJECT_RULES_APPROVAL_REASON : str :=
  lit "approval required by policy rule, but AskForApproval::Granular.rules is false".
Definition RULES_DIR_NAME : str := lit "rules".
Definition RULE_EXTENSION : str := lit "rules".
Definition DEFAULT_POLICY_FILE : str := lit "default.rules".

Definition BANNED_PREFIX_SUGGESTIONS : list (list str) := map (map lit) [
    ["/bin/bash"]; ["/bin/bash"; "-c"]; ["/bin/bash"; "-lc"]; ["/bin/sh"]; ["/bin/sh"; "-c"];
    ["/bin/sh"; "-lc"]; ["/bin/zsh"]; ["/bin/zsh"; "-c"]; ["/bin/zsh"; "-lc"]; ["Rscript"]; ["bash"];
    ["bash"; "-c"]; ["bash"; "-lc"]; ["bun"]; ["bun"; "-e"]; ["bun"; "run"]; ["cmd"]; ["cmd"; "/c"];
    ["cmd"; "/k"]; ["cmd.exe"]; ["cmd.exe"; "/c"]; ["cmd.exe"; "/k"]; ["dash"]; ["dash"; "-c"]; ["deno"];
    ["deno"; "eval"]; ["env"]; ["fish"]; ["fish"; "-c"]; ["git"]; ["julia"]; ["julia"; "-e"]; ["ksh"];
    ["ksh"; "-c"]; ["lua"]; ["lua"; "-e"]; ["node"]; ["node"; "-e"]; ["nodejs"]; ["nodejs"; "-e"];
    ["npm"; "run"]; ["osascript"]; ["perl"]; ["perl"; "-e"]; ["php"]; ["php"; "-r"]; ["pnpm"; "run"];
    ["powershell"]; ["powershell"; "-Command"]; ["powershell"; "-EncodedCommand"];
    ["powershell"; "-File"]; ["powershell"; "-c"]; ["powershell.exe"]; ["powershell.exe"; "-Command"];
    ["powershell.exe"; "-EncodedCommand"]; ["powershell.exe"; "-File"]; ["powershell.exe"; "-c"];
    ["pwsh"]; ["pwsh"; "-Command"]; ["pwsh"; "-EncodedCommand"]; ["pwsh"; "-File"]; ["pwsh"; "-c"];
    ["pwsh"; "-e"]; ["pwsh"; "-ec"]; ["pwsh"; "-f"]; ["py"]; ["py"; "-3"]; ["pypy"]; ["pypy3"];
    ["python"]; ["python"; "-"]; ["python"; "-c"]; ["python3"]; ["python3"; "-"]; ["python3"; "-c"];
    ["pythonw"]; ["pyw"]; ["rm"]; ["ruby"]; ["ruby"; "-e"]; ["sh"]; ["sh"; "-c"]; ["sh"; "-lc"];
    ["sudo"]; ["yarn"; "run"]; ["zsh"]; ["zsh"; "-c"]; ["zsh"; "-lc"]
  ]%string.

(** ** Data *)

Inductive ExecPolicyCommandOrigin := OriginGeneric | OriginPowerShell.

Inductive AllowPrefixRules := Honor | IgnoreForCyberModel.

Record ExecPolicyCommands := {
  epc_commands : list (list str);
  epc_origin : ExecPolicyCommandOrigin;
}.

Record UnmatchedCommandContext (U : Type) := {
  uc_approval_policy : AskForApproval;
  uc_permission_profile : PermissionProfile U;
  uc_windows_sandbox_level : WindowsSandboxLevel;
  uc_sandbox_permissions : SandboxPermissions;
  uc_command_origin : ExecPolicyCommandOrigin;
}.
Arguments uc_approval_policy {U} _.
Arguments uc_permission_profile {U} _.
Arguments uc_windows_sandbox_level {U} _.
Arguments uc_sandbox_permissions {U} _.
Arguments uc_command_origin {U} _.

Record ExecApprovalRequest (U AP : Type) := {
  rq_command : list str;
  rq_approval_policy : AskForApproval;
  rq_permission_profile : PermissionProfile U;
  rq_environment_policy : option (Policy AP);
  rq_windows_sandbox_level : WindowsSandboxLevel;
  rq_sandbox_permissions : SandboxPermissions;
  rq_prefix_rule : option (list str);
  rq_allow_prefix_rules : AllowPrefixRules;
}.
Arguments rq_command {U AP} _.
Arguments rq_approval_policy {U AP} _.
Arguments rq_permission_profile {U AP} _.
Arguments rq_environment_policy {U AP} _.
Arguments rq_windows_sandbox_level {U AP} _.
Arguments rq_sandbox_permissions {U AP} _.
Arguments rq_prefix_rule {U AP} _.
Arguments rq_allow_prefix_rules {U AP} _.

Definition with_command {U AP} (req : ExecApprovalRequest U AP) (command : list str) : ExecApprovalRequest U AP :=
  {| rq_command := command; rq_approval_policy := rq_approval_policy req;
     rq_permission_profile := rq_permission_profile req; rq_environment_policy := rq_environment_policy req;
     rq_windows_sandbox_level := rq_windows_sandbox_level req;
     rq_sandbox_permissions := rq_sandbox_permissions req; rq_prefix_rule := rq_prefix_rule req;
     rq_allow_prefix_rules := rq_allow_prefix_rules req |}.

Inductive ExecPolicyUpdateError (Loc JE : Type) :=
  | AppendRule (path : str) (source : AmendError JE)
  | JoinBlockingTask
  | AddRule (source : PolicyError Loc).
Arguments AppendRule {Loc JE} path source.
Arguments JoinBlockingTask {Loc JE}.
Arguments AddRule {Loc JE} source.

Record ExecPolicyManager (AP : Type) := { current : Policy AP }.
Arguments current {AP} _.
Arguments Build_ExecPolicyManager {AP} _.

Record Shell := { shell_type : ShellType; shell_path : str }.
Inductive UnifiedExecShellMode := Direct | ZshFork.

(** ** Prompts *)

Definition prompt_is_rejected_by_policy (policy : AskForApproval) (prompt_is_rule : bool) : option str :=
  match policy with
  | Never => Some PROMPT_CONFLICT_REASON
  | OnRequest | UnlessTrusted => None
  | Granular c =>
      if prompt_is_rule then if negb (rules c) then Some REJECT_RULES_APPROVAL_REASON else None
      else if negb (sandbox_approval c) then Some REJECT_SANDBOX_APPROVAL_REASON else None
  end.

Definition is_policy_match {AP} (m : RuleMatch AP) : bool :=
  match m with PrefixRuleMatch _ _ _ _ => true | HeuristicsRuleMatch _ _ => false end.

(** A match of a rule with the given decision. *)
Definition policy_match_with {AP} (d : Decision) (m : RuleMatch AP) : bool :=
  is_policy_match m && bool_decide (match_decision m = d).

Definition dangerous_command_rejection_reason (m : DangerousCommandMatch) : str :=
  match m with
  | ForcedRm => lit "rm -f style commands are not permitted. Use a safer approach"
  | OtherDanger => lit "blocked by policy"
  end.

Definition derive_rejected_prompt_reason (fallback_reason : str) (m : option DangerousCommandMatch) : str :=
  match m with
  | Some ForcedRm => dangerous_command_rejection_reason ForcedRm
  | Some OtherDanger | None => fallback_reason
  end.

(** [Iterator::all] with a predicate that may panic. *)
Fixpoint all_res {E A} (f : A → res E bool) (l : list A) : res E bool :=
  match l with
  | [] => Ok true
  | x :: l' => let? b := f x in if b then all_res f l' else Ok false
  end.

Section approval.
Context {U UE AP Loc : Type} `{UL : !UrlLib U UE} `{HP : !HostPaths AP}.
Context `{SG : !ShellGrammars} `{CW : !CommandWords} (os : TargetOs).
Implicit Types (p : Policy AP) (m : ExecPolicyManager AP) (req : ExecApprovalRequest U AP).

(** [cfg!(windows)] *)
Definition on_windows : bool := match os with OsWindows => true | _ => false end.

Definition match_options : MatchOptions := {| resolve_host_executables := true |}.

(** ** Danger and the decision without a rule *)

Definition dangerous_command_match_for_origin (command : list str) (origin : ExecPolicyCommandOrigin)
    (platform : DangerousCommandPlatform) : option DangerousCommandMatch :=
  match origin with
  | OriginGeneric => dangerous_command_match_for_platform command platform
  | OriginPowerShell => dangerous_powershell_words_match command platform
  end.

Definition dangerous_command_match_for_heuristics (evaluation : Evaluation AP) (d : Decision)
    (origin : ExecPolicyCommandOrigin) (platform : DangerousCommandPlatform) : option DangerousCommandMatch :=
  find_map (λ rule_match,
    match rule_match with
    | HeuristicsRuleMatch command matched_decision =>
        if bool_decide (matched_decision = d)
        then dangerous_command_match_for_origin command origin platform else None
    | _ => None
    end) (matched_rules evaluation).

Definition profile_has_managed_filesystem_restrictions (profile : PermissionProfile U) : bool :=
  let policy := file_system_sandbox_policy profile in
  match profile with Managed _ _ => true | _ => false end
  && bool_decide (fs_kind policy = Restricted)
  && negb (has_full_disk_write_access_for_convention policy (Some (native_convention os))).

Definition render_decision_for_unmatched_command_for_platform (command : list str)
    (ctx : UnmatchedCommandContext U) (platform : DangerousCommandPlatform) : Decision :=
  let dangerous := dangerous_command_match_for_origin command (uc_command_origin ctx) platform in
  let policy := file_system_sandbox_policy (uc_permission_profile ctx) in
  let windows_managed_fs_restrictions_without_sandbox_backend :=
    on_windows && bool_decide (uc_windows_sandbox_level ctx = WsDisabled)
    && profile_has_managed_filesystem_restrictions (uc_permission_profile ctx) in
  let in_sandbox :=
    match fs_kind policy with
    | Unrestricted | ExternalSandbox => Allow
    | Restricted => if requests_sandbox_override (uc_sandbox_permissions ctx) then Prompt else Allow
    end in
  if match dangerous with Some _ => true | None => false end
     || windows_managed_fs_restrictions_without_sandbox_backend
  then match uc_approval_policy ctx with
       | Never => Forbidden
       | OnRequest | UnlessTrusted | Granular _ => Prompt
       end
  else match uc_approval_policy ctx with
       | Never => Allow
       | UnlessTrusted => Prompt
       | OnRequest | Granular _ => in_sandbox
       end.

(** ** The commands of an invocation *)

Definition commands_for_exec_policy_for_platform (command : list str) (platform : DangerousCommandPlatform)
    : ExecPolicyCommands :=
  match parse_shell_lc_plain_commands command with
  | Some ((_ :: _) as commands) => {| epc_commands := commands; epc_origin := OriginGeneric |}
  | _ =>
      match (if bool_decide (platform = PlatformWindows)
             then parse_powershell_command_into_plain_commands command else None) with
      | Some ((_ :: _) as commands) => {| epc_commands := commands; epc_origin := OriginPowerShell |}
      | _ => {| epc_commands := [command]; epc_origin := OriginGeneric |}
      end
  end.

(** ** Amendments *)

Definition try_derive_execpolicy_amendment_for_prompt_rules (ms : list (RuleMatch AP)) : option (list str) :=
  if existsb (policy_match_with Prompt) ms then None
  else find_map (λ rule_match,
         match rule_match with HeuristicsRuleMatch command Prompt => Some command | _ => None end) ms.

Definition try_derive_execpolicy_amendment_for_allow_rules (ms : list (RuleMatch AP)) : option (list str) :=
  if existsb is_policy_match ms then None
  else find_map (λ rule_match,
         match rule_match with HeuristicsRuleMatch command Allow => Some command | _ => None end) ms.

Definition prefix_rule_would_approve_all_commands p (prefix_rule : list str) (commands : list (list str))
    (fallback : list str → Decision) (options : MatchOptions) : res unit bool :=
  match add_prefix_rule (Loc:=Loc) p prefix_rule Allow with
  | Ok policy_with_prefix_rule =>
      all_res (λ command,
        let? e := check_with_options on_windows policy_with_prefix_rule command fallback options in
        Ok (bool_decide (eval_decision e = Allow))) commands
  | Err _ => Ok false
  | Panic => Panic
  end.

Definition derive_requested_execpolicy_amendment_from_prefix_rule (prefix_rule : option (list str))
    (ms : list (RuleMatch AP)) p (commands : list (list str)) (fallback : list str → Decision)
    (options : MatchOptions) : res unit (option (list str)) :=
  match prefix_rule with
  | None => Ok None
  | Some prefix_rule =>
      if bool_decide (prefix_rule = []) then Ok None
      else if existsb (λ banned, bool_decide (prefix_rule = banned)) BANNED_PREFIX_SUGGESTIONS then Ok None
      else if existsb is_policy_match ms then Ok None
      else let? approves := prefix_rule_would_approve_all_commands p prefix_rule commands fallback options in
           Ok (if approves then Some prefix_rule else None)
  end.

(** ** Reasons *)

Definition render_shlex_command (args : list str) : str :=
  default (join (lit " ") args) (command_join args).

Definition quoted (s : str) : str := lit "`" ++ s ++ lit "`".

(** The longest prefixes of the rules with the given decision, and their
    justifications. *)
Definition most_specific (d : Decision) (ms : list (RuleMatch AP)) : option (list str * option str) :=
  max_by (λ a b, length b.1 <? length a.1)
    (omap (λ rule_match,
       match rule_match with
       | PrefixRuleMatch matched_prefix d' _ justification =>
           if bool_decide (d' = d) then Some (matched_prefix, justification) else None
       | _ => None
       end) ms).

Definition derive_prompt_reason (command_args : list str) (evaluation : Evaluation AP) : option str :=
  let command := render_shlex_command command_args in
  match most_specific Prompt (matched_rules evaluation) with
  | Some (_, Some justification) => Some (quoted command ++ lit " requires approval: " ++ justification)
  | Some (_, None) => Some (quoted command ++ lit " requires approval by policy")
  | None => None
  end.

Definition derive_forbidden_reason (command_args : list str) (evaluation : Evaluation AP)
    (dangerous : option DangerousCommandMatch) : str :=
  let command := render_shlex_command command_args in
  match most_specific Forbidden (matched_rules evaluation) with
  | Some (_, Some justification) => quoted command ++ lit " rejected: " ++ justification
  | Some (matched_prefix, None) =>
      quoted command ++ lit " rejected: policy forbids commands starting with "
      ++ quoted (render_shlex_command matched_prefix)
  | None =>
      match dangerous with
      | Some dangerous => quoted command ++ lit " rejected: " ++ dangerous_command_rejection_reason dangerous
      | None => quoted command ++ lit " rejected: blocked by policy"
      end
  end.

(** ** The policy in use *)

Definition manager_new p : ExecPolicyManager AP := Build_ExecPolicyManager p.

Definition current_for_prefix_rules m (allow_prefix_rules : AllowPrefixRules) : Policy AP :=
  match allow_prefix_rules with
  | Honor => current m
  | IgnoreForCyberModel =>
      {| rules_by_program :=
           omap (λ rules, nonempty (Some (List.filter (λ r, negb (bool_decide (rule_decision r = Allow))) rules)))
             (rules_by_program (current m));
         network_rules := network_rules (current m);
         host_executables_by_name := host_executables_by_name (current m) |}
  end.

Definition current_for_environment m (environment_policy : option (Policy AP))
    (allow_prefix_rules : AllowPrefixRules) : Policy AP :=
  let policy := current_for_prefix_rules m allow_prefix_rules in
  match environment_policy with
  | Some environment_policy => merge_overlay policy environment_policy
  | None => policy
  end.

(** ** The approval a command needs *)

(** [exec_policy_fallback] *)
Definition exec_policy_fallback req (origin : ExecPolicyCommandOrigin) (platform : DangerousCommandPlatform)
    (cmd : list str) : Decision :=
  render_decision_for_unmatched_command_for_platform cmd
    {| uc_approval_policy := rq_approval_policy req; uc_permission_profile := rq_permission_profile req;
       uc_windows_sandbox_level := rq_windows_sandbox_level req;
       uc_sandbox_permissions := rq_sandbox_permissions req; uc_command_origin := origin |} platform.

(** Whether a rule allows the command, whatever the heuristics say. *)
Definition allowed_by_rule p (command : list str) : bool :=
  existsb (policy_match_with Allow)
    (matches_for_command_with_options on_windows p command None match_options).

Definition create_exec_approval_requirement_for_parsed_commands m req (cs : ExecPolicyCommands)
    (platform : DangerousCommandPlatform) : res unit ExecApprovalRequirement :=
  let commands := epc_commands cs in
  let origin := epc_origin cs in
  let exec_policy := current_for_environment m (rq_environment_policy req) (rq_allow_prefix_rules req) in
  let auto_amendment_allowed := match rq_allow_prefix_rules req with Honor => true | _ => false end in
  let fallback := exec_policy_fallback req origin platform in
  let? evaluation := check_multiple_with_options on_windows exec_policy commands fallback match_options in
  let ms := matched_rules evaluation in
  let? requested_amendment :=
    if auto_amendment_allowed
    then derive_requested_execpolicy_amendment_from_prefix_rule (rq_prefix_rule req) ms exec_policy commands
           fallback match_options
    else Ok None in
  Ok match eval_decision evaluation with
     | Forbidden =>
         Forbidden_ (derive_forbidden_reason (rq_command req) evaluation
                       (dangerous_command_match_for_heuristics evaluation Forbidden origin platform))
     | Prompt =>
         let prompt_is_rule := existsb (policy_match_with Prompt) ms in
         match prompt_is_rejected_by_policy (rq_approval_policy req) prompt_is_rule with
         | Some reason =>
             if prompt_is_rule then Forbidden_ reason
             else Forbidden_ (derive_rejected_prompt_reason reason
                    (dangerous_command_match_for_heuristics evaluation Prompt origin platform))
         | None =>
             NeedsApproval (derive_prompt_reason (rq_command req) evaluation)
               match requested_amendment with
               | Some amendment => Some amendment
               | None => if auto_amendment_allowed then try_derive_execpolicy_amendment_for_prompt_rules ms
                         else None
               end
         end
     | Allow =>
         Skip_ (forallb (allowed_by_rule exec_policy) commands)
           (if auto_amendment_allowed then try_derive_execpolicy_amendment_for_allow_rules ms else None)
     end.

Definition create_exec_approval_requirement_for_command_platform m req (platform : DangerousCommandPlatform)
    : res unit ExecApprovalRequirement :=
  create_exec_approval_requirement_for_parsed_commands m req
    (commands_for_exec_policy_for_platform (rq_command req) platform) platform.

(** [shell_approval_command] on a host that is not Windows. *)
Definition shell_approval_command (command : list str) (configured_shell : Shell)
    (mode : UnifiedExecShellMode) : list str :=
  match command with
  | [] => command
  | executable :: _ =>
      let is_system_shell :=
        match path_parent_components executable with
        | Some parent => bool_decide (parent = path_components (lit "/bin"))
                         || bool_decide (parent = path_components (lit "/usr/bin"))
        | None => false
        end in
      let is_configured_shell := path_eqb executable (shell_path configured_shell) in
      if is_configured_shell || is_system_shell || match mode with ZshFork => true | Direct => false end
      then command else [executable]
  end.

(** The commands that are checked for an unfamiliar executable: the executable,
    then what its arguments seem to run. *)
Definition unfamiliar_commands (command executable : list str) (platform : DangerousCommandPlatform)
    : ExecPolicyCommands :=
  let policy_commands :=
    match platform with
    | PlatformWindows =>
        match extract_powershell_command command with
        | Some (_, script) =>
            {| epc_commands := default [command] (try_parse_powershell_commands script);
               epc_origin := OriginPowerShell |}
        | None => commands_for_exec_policy_for_platform command platform
        end
    | PlatformPosix => commands_for_exec_policy_for_platform command platform
    end in
  {| epc_commands := executable :: epc_commands policy_commands; epc_origin := epc_origin policy_commands |}.

Definition create_exec_approval_requirement_for_shell m req (configured_shell : Shell)
    (mode : UnifiedExecShellMode) (platform : DangerousCommandPlatform) : res unit ExecApprovalRequirement :=
  let command := rq_command req in
  let executable := shell_approval_command command configured_shell mode in
  if bool_decide (length executable = length command)
  then create_exec_approval_requirement_for_command_platform m req platform
  else create_exec_approval_requirement_for_parsed_commands m (with_command req executable)
         (unfamiliar_commands command executable platform) platform.

(** ** Updates *)

Section updates.
Context {W JE : Type} `{FS : !PolicyFs W} `{JS : !Json JE} (debug_list : list str → str).

Definition default_policy_path (codex_home : str) : str :=
  join_path (join_path codex_home RULES_DIR_NAME) DEFAULT_POLICY_FILE.

(** The result of [spawn_blocking(..).await], with the errors of the two updates. *)
Definition blocking_result (path : str) (r : res (AmendError JE) unit)
    : res (ExecPolicyUpdateError Loc JE) unit :=
  match r with
  | Ok _ => Ok tt
  | Err source => Err (AppendRule path source)
  | Panic => Err JoinBlockingTask
  end.

Definition already_allowed p (command : list str) : res unit bool :=
  let? e := check_multiple_with_options on_windows p [command] (λ _, Forbidden) match_options in
  Ok (bool_decide (eval_decision e = Allow) && existsb (policy_match_with Allow) (matched_rules e)).

Definition append_amendment_and_update (codex_home : str) (amendment : list str)
    : ExecPolicyManager AP * W → res (ExecPolicyUpdateError Loc JE) unit * (ExecPolicyManager AP * W) :=
  λ '(m, w),
  let policy_path := default_policy_path codex_home in
  let '(r, w) := blocking_append_allow_prefix_rule policy_path amendment w in
  match blocking_result policy_path r with
  | Ok _ =>
      match already_allowed (current m) amendment with
      | Ok true => (Ok tt, (m, w))
      | Ok false =>
          match add_prefix_rule (current m) amendment Allow with
          | Ok updated_policy => (Ok tt, (manager_new updated_policy, w))
          | Err source => (Err (AddRule source), (m, w))
          | Panic => (Panic, (m, w))
          end
      | _ => (Panic, (m, w))
      end
  | failed => (failed, (m, w))
  end.

Definition append_network_rule_and_update (codex_home host : str) (protocol : NetworkRuleProtocol)
    (d : Decision) (justification : option str)
    : ExecPolicyManager AP * W → res (ExecPolicyUpdateError Loc JE) unit * (ExecPolicyManager AP * W) :=
  λ '(m, w),
  let policy_path := default_policy_path codex_home in
  let '(r, w) := blocking_append_network_rule debug_list policy_path host protocol d justification w in
  match blocking_result policy_path r with
  | Ok _ =>
      match add_network_rule (current m) host protocol d justification with
      | Ok updated_policy => (Ok tt, (manager_new updated_policy, w))
      | Err source => (Err (AddRule source), (m, w))
      | Panic => (Panic, (m, w))
      end
  | failed => (failed, (m, w))
  end.
End updates.
End approval.
