(* ===== verification/ExecApprovalFacts.v ===== *)
(** * What the approval of a command is decided by

    The requirement of a command is the strictest verdict over the commands it
    runs; a dangerous command is only let through by a rule; an accepted amendment
    has the effect it was proposed for. *)

From stdpp Require Import gmap.
From S2P Require Import Prelude RustStr RustIo RustOrd ExecPolicy ExecPolicyFacts PolicyAmend.
From S2P Require Import ShellCommand DangerousCommand PathConvention PathUri FsPolicy FsProfile PatchSafety ExecApproval.
Open Scope list_scope.

(** ** Strictest decisions *)

Definition strictest_of (ds : list Decision) : Decision := foldr decision_max Allow ds.

Lemma strictest_of_spec d ds : strictest d ds → strictest_of ds = d.
Proof.
  assert (Hup : ∀ ds x, x ∈ ds → severity x ≤ severity (strictest_of ds)).
  { clear. induction ds as [|y ds IH]; intros x; [by intros ?%not_elem_of_nil|]. simpl.
    destruct (decision_max_cases y (strictest_of ds)) as [[-> ?]|[-> ?]]; intros [->|Hx%IH]%elem_of_cons; lia. }
  assert (Hin : ∀ ds, strictest_of ds = Allow ∨ strictest_of ds ∈ ds).
  { clear. induction ds as [|y ds [IH|IH]]; simpl; [by left|..];
      destruct (decision_max_cases y (strictest_of ds)) as [[-> ?]|[-> ?]]; auto; right; by constructor. }
  intros [Hd Hall]. rewrite Forall_forall in Hall. apply severity_inj. pose proof (Hup _ _ Hd).
  destruct (Hin ds) as [E|Hs%Hall]; [rewrite E in *; simpl in *; lia|lia].
Qed.

Lemma strictest_Allow ds : strictest Allow ds → Forall (eq Allow) ds.
Proof.
  intros [_ H]. eapply Forall_impl; [exact H|]. intros [] Hx; simpl in Hx; [done|lia..].
Qed.

Section facts.
Context {U UE AP Loc : Type} `{UL : !UrlLib U UE} `{HP : !HostPaths AP}.
Context `{SG : !ShellGrammars} `{CW : !CommandWords} (os : TargetOs).
Implicit Types (p : Policy AP) (m : ExecPolicyManager AP) (req : ExecApprovalRequest U AP)
  (f : list str → Decision) (cmd : list str).

(** ** The verdict on one command *)

(** The matches of the rules alone. *)
Definition rule_matches_of p cmd : list (RuleMatch AP) :=
  matches_for_command_with_options (on_windows os) p cmd None match_options.

(** What the rules say, or the fallback when they say nothing. *)
Definition verdict p f cmd : Decision :=
  match rule_matches_of p cmd with
  | [] => f cmd
  | ms => strictest_of (map match_decision ms)
  end.

Lemma matches_with_fallback p f cmd :
  matches_for_command_with_options (on_windows os) p cmd (Some f) match_options
  = match rule_matches_of p cmd with [] => [HeuristicsRuleMatch cmd (f cmd)] | ms => ms end.
Proof. unfold rule_matches_of, matches_for_command_with_options. by destruct (match nonempty _ with Some _ => _ | _ => _ end). Qed.

Lemma rule_matches_policy p cmd mt : mt ∈ rule_matches_of p cmd → is_policy_match mt = true.
Proof.
  unfold rule_matches_of.
  destruct (matches_cases (on_windows os) p cmd None match_options) as [[Hex _]|[(_ & _ & -> & _)|(_ & _ & ->)]].
  - intros Hm. eapply (exact_matches p cmd) in Hex. apply Hex in Hm as (r & pre & _ & _ & _ & ->). done.
  - intros Hm. by apply elem_of_host_matches in Hm as (? & ? & ? & ? & ? & ? & _ & _ & _ & _ & _ & _ & _ & ->).
  - by intros ?%not_elem_of_nil.
Qed.

Lemma check_verdict p f cmd :
  ∃ e, check_with_options (on_windows os) p cmd f match_options = Ok e
    ∧ eval_decision e = verdict p f cmd
    ∧ matched_rules e = matches_for_command_with_options (on_windows os) p cmd (Some f) match_options.
Proof.
  destruct (check_total (on_windows os) p cmd f match_options) as (e & E & Hm & Hd). exists e. split_and!; [done| |done].
  rewrite Hm in Hd. rewrite matches_with_fallback in Hd. unfold verdict.
  destruct (rule_matches_of p cmd) as [|mt ms]; [|by apply strictest_of_spec in Hd].
  destruct Hd as [Hd _]. by apply list_elem_of_singleton in Hd.
Qed.

(** All commands together. *)
Lemma check_multiple_verdict p f cmds :
  cmds ≠ [] →
  ∃ e, check_multiple_with_options (on_windows os) p cmds f match_options = Ok e
    ∧ eval_decision e = strictest_of (map (verdict p f) cmds)
    ∧ strictest (eval_decision e) (map (verdict p f) cmds)
    ∧ matched_rules e = cmds ≫= λ cmd, matches_for_command_with_options (on_windows os) p cmd (Some f) match_options.
Proof.
  intros Hne. pose proof (check_multiple_aggregates (on_windows os) p cmds f match_options) as H.
  destruct (check_multiple_with_options _ _ _ _ _) as [e|e|] eqn:E; [|done|done].
  destruct H as (_ & es & Hes & Hm & Hs). exists e.
  assert (Hv : map eval_decision es = map (verdict p f) cmds ∧
    es ≫= matched_rules = cmds ≫= λ cmd, matches_for_command_with_options (on_windows os) p cmd (Some f) match_options).
  { clear -Hes. induction Hes as [|cmd e cmds es He _ [IH1 IH2]]; [done|].
    destruct (check_verdict p f cmd) as (e' & E & Hd & Hm). rewrite He in E. injection E as <-. cbn.
    split; f_equal; [done..|exact IH2]. }
  destruct Hv as [Hv1 Hv2]. rewrite Hv1 in Hs. split_and!; [done|symmetry; by apply strictest_of_spec|done|congruence].
Qed.

Lemma all_res_ok {A E} (g : A → res E bool) (h : A → bool) l :
  (∀ x, g x = Ok (h x)) → all_res g l = Ok (forallb h l).
Proof. intros H. induction l as [|x l IH]; [done|]. simpl. rewrite H. simpl. by destruct (h x). Qed.

Lemma would_approve_eq p prefix cmds f :
  prefix_rule_would_approve_all_commands (Loc:=Loc) os p prefix cmds f match_options
  = Ok match add_prefix_rule (Loc:=Loc) p prefix Allow with
       | Ok p' => forallb (λ cmd, bool_decide (verdict p' f cmd = Allow)) cmds
       | _ => false
       end.
Proof.
  unfold prefix_rule_would_approve_all_commands. destruct prefix as [|first rest]; [done|]. cbn [add_prefix_rule].
  apply all_res_ok. intros cmd.
  match goal with |- context [check_with_options _ ?q] => destruct (check_verdict q f cmd) as (e & E & Hd & _) end.
  rewrite E. simpl. by rewrite Hd.
Qed.

Lemma requested_amendment_total prefix ms p cmds f :
  ∃ a, derive_requested_execpolicy_amendment_from_prefix_rule (Loc:=Loc) os prefix ms p cmds f match_options = Ok a.
Proof.
  unfold derive_requested_execpolicy_amendment_from_prefix_rule. destruct prefix; [|eauto].
  destruct (bool_decide _); [eauto|]. destruct (existsb _ _); [eauto|]. destruct (existsb _ _); [eauto|].
  rewrite would_approve_eq. simpl. eauto.
Qed.

(** ** The requirement of several commands *)

(** The policy a request is checked against. *)
Definition policy_for m req : Policy AP :=
  current_for_environment m (rq_environment_policy req) (rq_allow_prefix_rules req).

(** Some command is put to the user by a rule. *)
Definition prompted_by_rule p (cmds : list (list str)) : bool :=
  existsb (λ cmd, existsb (policy_match_with Prompt) (rule_matches_of p cmd)) cmds.

Lemma existsb_bind {A B} (g : B → bool) (h : A → list B) l :
  existsb g (l ≫= h) = existsb (λ x, existsb g (h x)) l.
Proof. induction l as [|x l IH]; [done|]. rewrite bind_cons, existsb_app. simpl. by rewrite IH. Qed.

Lemma existsb_policy p f cmd d :
  existsb (policy_match_with d) (matches_for_command_with_options (on_windows os) p cmd (Some f) match_options)
  = existsb (policy_match_with d) (rule_matches_of p cmd).
Proof. rewrite matches_with_fallback. by destruct (rule_matches_of p cmd). Qed.

Lemma prompt_is_rule_eq p f cmds :
  existsb (policy_match_with Prompt)
    (cmds ≫= λ cmd, matches_for_command_with_options (on_windows os) p cmd (Some f) match_options)
  = prompted_by_rule p cmds.
Proof. rewrite existsb_bind. induction cmds as [|cmd cmds IH]; [done|]. simpl. by rewrite existsb_policy, IH. Qed.

(** What the verdicts make of a request. *)
Definition requirement_of (policy : AskForApproval) p f (cmds : list (list str)) (r : ExecApprovalRequirement) : Prop :=
  match strictest_of (map (verdict p f) cmds) with
  | Forbidden => ∃ reason, r = Forbidden_ reason
  | Prompt =>
      match prompt_is_rejected_by_policy policy (prompted_by_rule p cmds) with
      | Some _ => ∃ reason, r = Forbidden_ reason
      | None => ∃ reason amendment, r = NeedsApproval reason amendment
      end
  | Allow => ∃ amendment, r = Skip_ (forallb (allowed_by_rule os p) cmds) amendment
  end.

Lemma parsed_requirement m req cs platform :
  epc_commands cs ≠ [] →
  ∃ r, create_exec_approval_requirement_for_parsed_commands (Loc:=Loc) os m req cs platform = Ok r
    ∧ requirement_of (rq_approval_policy req) (policy_for m req)
        (exec_policy_fallback os req (epc_origin cs) platform) (epc_commands cs) r.
Proof.
  intros Hne. unfold create_exec_approval_requirement_for_parsed_commands.
  set (f := exec_policy_fallback os req (epc_origin cs) platform).
  fold (policy_for m req). set (p := policy_for m req).
  destruct (check_multiple_verdict p f (epc_commands cs) Hne) as (e & E & Hd & _ & Hm). rewrite E. cbn [res_bind].
  assert (Ha : ∃ a, (if match rq_allow_prefix_rules req with Honor => true | _ => false end
    then derive_requested_execpolicy_amendment_from_prefix_rule (Loc:=Loc) os (rq_prefix_rule req) (matched_rules e) p
           (epc_commands cs) f match_options else Ok None) = Ok a).
  { destruct (rq_allow_prefix_rules req); [apply requested_amendment_total|eauto]. }
  destruct Ha as [a ->]. cbn [res_bind]. eexists. split; [done|]. unfold requirement_of. rewrite <- Hd.
  destruct (eval_decision e); [eauto| |eauto]. rewrite Hm, prompt_is_rule_eq.
  destruct (prompt_is_rejected_by_policy _ _); [destruct (prompted_by_rule _ _)|]; eauto.
Qed.

(** The commands an invocation is checked for. *)
Definition policy_commands (command : list str) (shell : Shell) (mode : UnifiedExecShellMode)
    (platform : DangerousCommandPlatform) : ExecPolicyCommands :=
  let executable := shell_approval_command command shell mode in
  if bool_decide (length executable = length command)
  then commands_for_exec_policy_for_platform command platform
  else unfamiliar_commands command executable platform.

Lemma commands_nonempty command platform :
  epc_commands (commands_for_exec_policy_for_platform command platform) ≠ [].
Proof.
  unfold commands_for_exec_policy_for_platform.
  destruct (parse_shell_lc_plain_commands command) as [[|]|]; [|done|];
    (destruct (bool_decide _); [|done]); by destruct (parse_powershell_command_into_plain_commands command) as [[|]|].
Qed.

Lemma policy_commands_nonempty command shell mode platform :
  epc_commands (policy_commands command shell mode platform) ≠ [].
Proof. unfold policy_commands. case_bool_decide; [apply commands_nonempty|done]. Qed.

Lemma shell_requirement m req shell mode platform :
  let cs := policy_commands (rq_command req) shell mode platform in
  ∃ r, create_exec_approval_requirement_for_shell (Loc:=Loc) os m req shell mode platform = Ok r
    ∧ requirement_of (rq_approval_policy req) (policy_for m req)
        (exec_policy_fallback os req (epc_origin cs) platform) (epc_commands cs) r.
Proof.
  pose proof (policy_commands_nonempty (rq_command req) shell mode platform) as Hne.
  unfold create_exec_approval_requirement_for_shell, policy_commands in *. case_bool_decide.
  - by apply parsed_requirement.
  - by apply (parsed_requirement m (with_command req _)).
Qed.

Lemma Skip_verdicts policy p f cmds b am :
  cmds ≠ [] → requirement_of policy p f cmds (Skip_ b am) →
  Forall (λ cmd, verdict p f cmd = Allow) cmds ∧ b = forallb (allowed_by_rule os p) cmds.
Proof.
  intros Hne H. unfold requirement_of in H.
  assert (Hs : strictest (strictest_of (map (verdict p f) cmds)) (map (verdict p f) cmds)).
  { destruct (check_multiple_verdict p f cmds Hne) as (e & _ & Hd & Hs & _). by rewrite Hd in Hs. }
  destruct (strictest_of _) eqn:E; [|destruct (prompt_is_rejected_by_policy _ _); naive_solver|naive_solver].
  destruct H as (? & [= -> _]). split; [|done]. apply strictest_Allow in Hs. rewrite Forall_map in Hs.
  by eapply Forall_impl; [exact Hs|].
Qed.

(** A verdict that comes from rules. *)
Lemma verdict_Allow p f cmd :
  verdict p f cmd = Allow → f cmd ≠ Allow → allowed_by_rule os p cmd = true ∧
    Forall (λ mt, match_decision mt = Allow) (rule_matches_of p cmd).
Proof.
  unfold verdict, allowed_by_rule. fold (rule_matches_of p cmd).
  destruct (rule_matches_of p cmd) as [|mt ms] eqn:E; [done|]. intros Hs _.
  assert (Hst : strictest Allow (map match_decision (mt :: ms))).
  { destruct (foldl_decision_max (map match_decision ms) (match_decision mt)) as [Hin Hall].
    assert (H : strictest (foldl decision_max (match_decision mt) (map match_decision ms)) (map match_decision (mt :: ms))) by done.
    by rewrite <- (strictest_of_spec _ _ H), Hs in H. }
  apply strictest_Allow in Hst. rewrite Forall_map in Hst.
  assert (Hall : Forall (λ mt, match_decision mt = Allow) (mt :: ms)) by (eapply Forall_impl; [exact Hst|]; by intros ? <-).
  split; [|done]. simpl. unfold policy_match_with at 1. rewrite (rule_matches_policy p cmd) by (rewrite E; by left).
  apply Forall_cons in Hall as [-> _]. done.
Qed.

Lemma dangerous_fallback req origin platform cmd :
  dangerous_command_match_for_origin cmd origin platform ≠ None → exec_policy_fallback os req origin platform cmd ≠ Allow.
Proof.
  intros Hd. unfold exec_policy_fallback, render_decision_for_unmatched_command_for_platform.
  cbn [uc_command_origin uc_approval_policy]. destruct (dangerous_command_match_for_origin _ _ _); [|done]. simpl.
  by destruct (rq_approval_policy req).
Qed.

(** C11. The approval of a command is the strictest verdict over the commands it
    runs. The check never fails; every command is judged by the strictest rule that
    matches it, and only without a rule by the heuristics. One forbidden command
    forbids all, one that needs a prompt is put to the user unless the approval
    policy refuses that prompt, and without either nothing is asked; then the
    sandbox is left exactly when a rule allows each of the commands. *)
Theorem requirement_strictest m req shell mode platform :
  let cs := policy_commands (rq_command req) shell mode platform in
  ∃ r, create_exec_approval_requirement_for_shell (Loc:=Loc) os m req shell mode platform = Ok r
    ∧ requirement_of (rq_approval_policy req) (policy_for m req)
        (exec_policy_fallback os req (epc_origin cs) platform) (epc_commands cs) r.
Proof. apply shell_requirement. Qed.

(** A dangerous command is never let through by the heuristics: when nothing is
    asked for an invocation, each dangerous command it runs is matched by rules of
    the policy, and all of them allow it; also under the policy that never asks. *)
Theorem dangerous_needs_rule m req shell mode platform b am cmd :
  create_exec_approval_requirement_for_shell (Loc:=Loc) os m req shell mode platform = Ok (Skip_ b am) →
  let cs := policy_commands (rq_command req) shell mode platform in
  cmd ∈ epc_commands cs → dangerous_command_match_for_origin cmd (epc_origin cs) platform ≠ None →
  allowed_by_rule os (policy_for m req) cmd = true
  ∧ Forall (λ mt, match_decision mt = Allow) (rule_matches_of (policy_for m req) cmd).
Proof.
  intros Hr cs Hc Hd. destruct (shell_requirement m req shell mode platform) as (r & E & H).
  rewrite Hr in E. injection E as <-. apply Skip_verdicts in H as [Hv _]; [|apply policy_commands_nonempty].
  rewrite Forall_forall in Hv. eapply verdict_Allow; [by apply Hv|]. by apply dangerous_fallback.
Qed.

(** ** Amendments *)

(** The amendment a request asks for, when it may be offered. *)
Definition requested_amendment m req shell mode platform : option (list str) :=
  let cs := policy_commands (rq_command req) shell mode platform in
  let f := exec_policy_fallback os req (epc_origin cs) platform in
  match rq_allow_prefix_rules req, check_multiple_with_options (on_windows os) (policy_for m req) (epc_commands cs) f match_options with
  | Honor, Ok e =>
      match derive_requested_execpolicy_amendment_from_prefix_rule (Loc:=Loc) os (rq_prefix_rule req) (matched_rules e)
              (policy_for m req) (epc_commands cs) f match_options with
      | Ok a => a
      | _ => None
      end
  | _, _ => None
  end.

(** What [rule_matches_of] finds. *)
Definition host_covers p cmd : Prop :=
  ∃ first args program basename r pre,
    cmd = first :: args ∧ absolute_path first = Some program
    ∧ executable_path_lookup_key (on_windows os) program = Some basename
    ∧ (∀ paths, host_executables_by_name p !! basename = Some paths → program ∈ paths)
    ∧ r ∈ rules_at (rules_by_program p) basename
    ∧ pattern_accepts (pattern r) pre ∧ pre `prefix_of` (basename :: args).

Lemma no_rule_matches p cmd :
  rule_matches_of p cmd = [] ↔ (∀ r, ¬ covers p r cmd) ∧ ¬ host_covers p cmd.
Proof.
  assert (Hh : match_host_executable_rules (on_windows os) p cmd = [] ↔ ¬ host_covers p cmd).
  { split.
    - intros E (first & args & program & basename & r & pre & ? & ? & ? & ? & ? & ? & ?).
      eapply not_elem_of_nil. rewrite <- E. apply elem_of_host_matches. eauto 20.
    - intros Hn. destruct (match_host_executable_rules _ p cmd) as [|mt ms] eqn:E; [done|]. destruct Hn.
      assert (Hm : mt ∈ match_host_executable_rules (on_windows os) p cmd) by (rewrite E; by left).
      apply elem_of_host_matches in Hm as (first & args & program & basename & r & pre & ? & ? & ? & ? & ? & ? & ? & _).
      exists first, args, program, basename, r, pre. done. }
  unfold rule_matches_of.
  destruct (matches_cases (on_windows os) p cmd None match_options) as [[Hex Hne]|[(Hno & _ & E & Hne)|(Hno & Hc & ->)]].
  - split; [done|]. intros [Hno _]. apply no_exact_match in Hno. rewrite Hex in Hno. by apply nonempty_None in Hno as [|[= ->]].
  - rewrite E in *. split; [done|]. by intros [_ ?%Hh].
  - split; [|done]. intros _. split; [done|]. destruct Hc as [|Hc]; [done|]. by apply Hh.
Qed.

Lemma some_rule_matches p cmd : rule_matches_of p cmd ≠ [] → (∃ r, covers p r cmd) ∨ host_covers p cmd.
Proof.
  destruct (rule_matches_of p cmd) as [|mt ms] eqn:E; [done|]. intros _.
  assert (Hm : mt ∈ rule_matches_of p cmd) by (rewrite E; by left). unfold rule_matches_of in Hm.
  destruct (matches_cases (on_windows os) p cmd None match_options) as [[Hex _]|[(_ & _ & E' & _)|(_ & _ & E')]].
  - left. eapply (exact_matches p cmd) in Hex. apply Hex in Hm as (r & pre & ? & _). by exists r.
  - right. rewrite E' in Hm.
    apply elem_of_host_matches in Hm as (first & args & program & basename & r & pre & ? & ? & ? & ? & ? & ? & ? & _).
    exists first, args, program, basename, r, pre. done.
  - rewrite E' in Hm. by apply not_elem_of_nil in Hm.
Qed.

(** The prefix names its program by a name that keeps: when its first word is the
    name under which some path is looked up, and it is itself taken for a path (the
    one it has in the current directory), then that path is looked up under the same
    name. So it is for every bare name but [~], and [x.exe] and the like on Windows,
    where the extension is dropped again. *)
Definition keeps_its_name (a : list str) : Prop :=
  ∀ a0 rest (program q : AP), a = a0 :: rest → executable_path_lookup_key (on_windows os) q = Some a0 →
    absolute_path a0 = Some program → executable_path_lookup_key (on_windows os) program = Some a0.

Lemma covers_prefix p r a cmd : covers p r a → a `prefix_of` cmd → covers p r cmd.
Proof.
  intros (first & args & -> & Hr & pre & Ha & Hp) [k ->]. exists first, (args ++ k).
  split_and!; [done..|]. exists pre. split; [done|]. by etrans; [|apply prefix_app_r].
Qed.

Lemma host_covers_prefix p a cmd : host_covers p a → a `prefix_of` cmd → host_covers p cmd.
Proof.
  intros (first & args & program & basename & r & pre & -> & ? & ? & ? & ? & ? & Hp) [k ->].
  exists first, (args ++ k), program, basename, r, pre. split_and!; try done.
  etrans; [exact Hp|]. exists k. done.
Qed.

(** A prefix that has rules already covers no new command. *)
Lemma covered_prefix p p' a cmd :
  keeps_its_name a → add_prefix_rule (Loc:=Loc) p a Allow = Ok p' → rule_matches_of p a ≠ [] → rule_matches_of p cmd = [] →
  rule_matches_of p' cmd = [].
Proof.
  intros Hk Hadd Ha [Hno Hnh]%no_rule_matches. destruct a as [|a0 rest]; [done|]. injection Hadd as <-.
  pose proof (some_rule_matches p (a0 :: rest) Ha) as Hor.
  apply no_rule_matches. split.
  - intros r (first & args & -> & Hr & pre & Hpa & Hpre). cbn [rules_by_program] in Hr. rewrite rules_at_insert in Hr.
    apply elem_of_app in Hr as [Hr|Hr]; [apply (Hno r); by exists first, args; eauto|].
    destruct (decide (a0 = first)) as [->|]; [|by apply not_elem_of_nil in Hr]. apply list_elem_of_singleton in Hr as ->.
    apply literal_accepts in Hpa as ->. destruct Hor as [[r' Hc]|Hc].
    + apply (Hno r'). by eapply covers_prefix.
    + apply Hnh. by eapply host_covers_prefix.
  - intros (first & args & program & basename & r & pre & -> & Hap & Hkey & Hex & Hr & Hpa & Hpre).
    cbn [rules_by_program host_executables_by_name] in *. rewrite rules_at_insert in Hr.
    apply elem_of_app in Hr as [Hr|Hr]; [apply Hnh; by exists first, args, program, basename, r, pre|].
    destruct (decide (a0 = basename)) as [->|]; [|by apply not_elem_of_nil in Hr]. apply list_elem_of_singleton in Hr as ->.
    apply literal_accepts in Hpa as ->.
    assert (Hr : ∃ r' pre', r' ∈ rules_at (rules_by_program p) basename
                   ∧ pattern_accepts (pattern r') pre' ∧ pre' `prefix_of` (basename :: rest)).
    { destruct Hor as [[r' (? & ? & [= <- <-] & Hr' & pre' & Hpa' & Hpre')]|Hc]; [by exists r', pre'|].
      destruct Hc as (? & ? & program' & ? & r' & pre' & [= <- <-] & Hap' & Hkey' & _ & Hr' & Hpa' & Hpre').
      rewrite (Hk basename rest program' program eq_refl Hkey Hap') in Hkey'. injection Hkey' as <-. by exists r', pre'. }
    destruct Hr as (r' & pre' & Hr' & Hpa' & Hpre'). apply Hnh.
    exists first, args, program, basename, r', pre'. split_and!; try done. by etrans.
Qed.

Lemma already_allowed_matches p a : already_allowed os p a = Ok true → rule_matches_of p a ≠ [].
Proof.
  unfold already_allowed. destruct (check_multiple_verdict p (λ _, Forbidden) [a]) as (e & -> & _ & _ & Hm); [done|].
  simpl. rewrite Hm. simpl. rewrite app_nil_r, existsb_policy. destruct (rule_matches_of p a); [by rewrite andb_false_r|done].
Qed.

Lemma already_allowed_total p a : ∃ b, already_allowed os p a = Ok b.
Proof.
  unfold already_allowed. destruct (check_multiple_verdict p (λ _, Forbidden) [a]) as (e & -> & _); [done|]. simpl. eauto.
Qed.

Lemma no_policy_match p f cmds cmd :
  existsb is_policy_match (cmds ≫= λ c, matches_for_command_with_options (on_windows os) p c (Some f) match_options) = false →
  cmd ∈ cmds → rule_matches_of p cmd = [].
Proof.
  rewrite existsb_bind. intros H Hc. destruct (rule_matches_of p cmd) as [|mt ms] eqn:E; [done|].
  apply Bool.not_true_iff_false in H. destruct H. apply existsb_exists. exists cmd. split; [by apply list_elem_of_In|].
  rewrite matches_with_fallback, E. simpl. rewrite (rule_matches_policy p cmd); [done|]. rewrite E. by left.
Qed.

(** The verdicts that make a requirement without questions. *)
Lemma verdicts_Skip policy p f cmds r :
  Forall (λ cmd, verdict p f cmd = Allow) cmds → requirement_of policy p f cmds r → ∃ b am, r = Skip_ b am.
Proof.
  intros Hall. unfold requirement_of. replace (strictest_of _) with Allow; [naive_solver|].
  induction Hall as [|cmd cmds Hc _ IH]; [done|]. simpl. by rewrite Hc, <- IH.
Qed.

Lemma requested_amendment_approves m req shell mode platform a :
  requested_amendment m req shell mode platform = Some a →
  let cs := policy_commands (rq_command req) shell mode platform in
  let f := exec_policy_fallback os req (epc_origin cs) platform in
  rq_allow_prefix_rules req = Honor
  ∧ (∀ cmd, cmd ∈ epc_commands cs → rule_matches_of (policy_for m req) cmd = [])
  ∧ ∃ p', add_prefix_rule (Loc:=Loc) (policy_for m req) a Allow = Ok p'
      ∧ Forall (λ cmd, verdict p' f cmd = Allow) (epc_commands cs).
Proof.
  intros H cs f. unfold requested_amendment in H. fold cs in H. fold f in H. destruct (rq_allow_prefix_rules req); [|done].
  destruct (check_multiple_verdict (policy_for m req) f (epc_commands cs)) as (e & E & _ & _ & Hm);
    [apply policy_commands_nonempty|]. rewrite E in H.
  unfold derive_requested_execpolicy_amendment_from_prefix_rule in H. destruct (rq_prefix_rule req) as [prefix|]; [|done].
  destruct (bool_decide _); [done|]. destruct (existsb _ BANNED_PREFIX_SUGGESTIONS); [done|].
  destruct (existsb is_policy_match (matched_rules e)) eqn:Ep; [done|]. rewrite would_approve_eq in H. simpl in H.
  destruct (add_prefix_rule _ _ _) as [p'|?|] eqn:Ea; [|done..].
  destruct (forallb _ _) eqn:Ef; [|done]. injection H as ->. split_and!; [done| |].
  - intros cmd Hc. rewrite Hm in Ep. by eapply no_policy_match.
  - exists p'. split; [done|]. apply Forall_forall. intros cmd Hc. rewrite forallb_forall in Ef.
    by eapply bool_decide_eq_true, Ef, list_elem_of_In.
Qed.

(** ** The order of rules *)

Lemma strictest_of_perm ds ds' : ds ≡ₚ ds' → strictest_of ds = strictest_of ds'.
Proof.
  assert (Hc : ∀ a b c, decision_max a (decision_max b c) = decision_max b (decision_max a c)) by by intros [] [] [].
  induction 1 as [|d l k _ IH|a b l|? ? ? _ IH1 _ IH2]; simpl; [done|by rewrite IH|apply Hc|by rewrite IH1].
Qed.

(** The same rules for each program, in any order. *)
Definition same_rules p p' : Prop :=
  host_executables_by_name p = host_executables_by_name p'
  ∧ ∀ k, rules_at (rules_by_program p) k ≡ₚ rules_at (rules_by_program p') k.

Lemma same_exact p p' cmd :
  same_rules p p' → default [] (match_exact_rules p cmd) ≡ₚ default [] (match_exact_rules p' cmd).
Proof.
  intros [_ H]. destruct cmd as [|first args]; [done|]. rewrite !match_exact_rules_alt. simpl. by rewrite (H first).
Qed.

Lemma same_host p p' cmd :
  same_rules p p' →
  match_host_executable_rules (on_windows os) p cmd ≡ₚ match_host_executable_rules (on_windows os) p' cmd.
Proof.
  intros [He H]. unfold match_host_executable_rules. destruct cmd as [|first args]; [done|].
  destruct (absolute_path first) as [program|]; [|done].
  destruct (executable_path_lookup_key _ program) as [basename|]; [|done].
  specialize (H basename). unfold rules_at in H. rewrite He.
  destruct (rules_by_program p !! basename) as [rs|], (rules_by_program p' !! basename) as [rs'|]; simpl in H; [|..|done].
  - destruct (host_executables_by_name p' !! basename) as [paths|]; [destruct (negb _); [done|]|]; by rewrite H.
  - apply Permutation_nil_r in H; subst. destruct (host_executables_by_name p' !! basename) as [paths|]; [by destruct (negb _)|done].
  - apply Permutation_nil_l in H; subst. destruct (host_executables_by_name p' !! basename) as [paths|]; [by destruct (negb _)|done].
Qed.

Lemma nonempty_default {A} (o : option (list A)) : default [] (nonempty o) = default [] o.
Proof. by destruct o as [[]|]. Qed.

Lemma rule_matches_of_alt p cmd :
  rule_matches_of p cmd = match default [] (match_exact_rules p cmd) with
                          | [] => match_host_executable_rules (on_windows os) p cmd
                          | ms => ms
                          end.
Proof.
  unfold rule_matches_of, matches_for_command_with_options. cbn [match_options resolve_host_executables].
  rewrite nonempty_default. simpl.
  destruct (match_exact_rules p cmd) as [[|mt ms]|]; simpl; [|done|]; by destruct (match_host_executable_rules _ p cmd).
Qed.

Lemma same_verdict p p' f cmd : same_rules p p' → verdict p f cmd = verdict p' f cmd.
Proof.
  intros H. assert (Hm : rule_matches_of p cmd ≡ₚ rule_matches_of p' cmd).
  { rewrite !rule_matches_of_alt. pose proof (same_exact p p' cmd H) as He. pose proof (same_host p p' cmd H) as Hh.
    destruct (default [] (match_exact_rules p cmd)) as [|mt ms].
    - by apply Permutation_nil_l in He as <-.
    - destruct (default [] (match_exact_rules p' cmd)); [by apply Permutation_nil_r in He|done]. }
  unfold verdict. destruct (rule_matches_of p cmd) as [|mt ms]; [by apply Permutation_nil_l in Hm as <-|].
  destruct (rule_matches_of p' cmd) as [|mt' ms']; [by apply Permutation_nil_r in Hm|].
  apply strictest_of_perm, fmap_Permutation, Hm.
Qed.

(** Adding a rule below an overlay is adding it to the whole. *)
Lemma add_under_overlay {L} p o prefix d p' pm' :
  add_prefix_rule (Loc:=L) p prefix d = Ok p' → add_prefix_rule (Loc:=L) (merge_overlay p o) prefix d = Ok pm' →
  same_rules pm' (merge_overlay p' o).
Proof.
  destruct prefix as [|first rest]; [done|]. intros [= <-] [= <-]. split; [done|]. intros k.
  cbn [rules_by_program merge_overlay]. rewrite rules_at_merge, !rules_at_insert, !rules_at_merge, <- !app_assoc.
  apply Permutation_app_head, Permutation_app_comm.
Qed.

Section update.
Context {W JE : Type} `{FS : !PolicyFs W} `{JS : !Json JE}.

Lemma append_amendment_cases home a m m' (w w' : W) :
  append_amendment_and_update (Loc:=Loc) (JE:=JE) os home a (m, w) = (Ok tt, (m', w')) →
  (m' = m ∧ already_allowed os (current m) a = Ok true)
  ∨ ∃ p', add_prefix_rule (Loc:=Loc) (current m) a Allow = Ok p' ∧ m' = manager_new p'.
Proof.
  unfold append_amendment_and_update. destruct (blocking_append_allow_prefix_rule _ _ w) as [r w1].
  destruct (blocking_result _ r) as [[]|?|]; [|done..]. destruct (already_allowed_total (current m) a) as [b Hb]. rewrite Hb.
  destruct b; [intros [= <- _]; by left|]. destruct (add_prefix_rule _ _ _) as [p'|?|] eqn:E; [|done..].
  intros [= <- _]. right. eauto.
Qed.

(** A prefix allowed by the rules below an overlay without host executables. *)
Lemma overlay_matches p o a :
  host_executables_by_name o = ∅ → rule_matches_of p a ≠ [] → rule_matches_of (merge_overlay p o) a ≠ [].
Proof.
  intros Ho Ha Hm. apply no_rule_matches in Hm as [Hno Hnh]. apply some_rule_matches in Ha as [[r Hc]|Hc].
  - apply (Hno r), covers_merge. by left.
  - apply Hnh. destruct Hc as (first & args & program & basename & r & pre & -> & ? & ? & Hx & Hr & ? & ?).
    exists first, args, program, basename, r, pre. split_and!; try done.
    + intros paths. cbn [host_executables_by_name merge_overlay]. rewrite Ho, (left_id ∅ (∪)). apply Hx.
    + cbn [rules_by_program merge_overlay]. rewrite rules_at_merge, elem_of_app. by left.
Qed.

(** C12. Accepting an amendment has the effect it was offered for: when the prefix a
    request asks for is offered to the user and added to the policy, the same
    request runs from then on without a question, also under a policy of the
    environment that has prefix rules only. The policy in memory may stay as it is
    only when its rules allow the prefix already. The prefix must name its program
    by a name that keeps, as every bare name does but [~] (and names that end in an
    executable extension on Windows). *)
Theorem accepted_amendment_skips m req shell mode platform home a m' (w w' : W) :
  keeps_its_name a →
  (∀ o, rq_environment_policy req = Some o → host_executables_by_name o = ∅) →
  requested_amendment m req shell mode platform = Some a →
  append_amendment_and_update (Loc:=Loc) (JE:=JE) os home a (m, w) = (Ok tt, (m', w')) →
  ∃ b am, create_exec_approval_requirement_for_shell (Loc:=Loc) os m' req shell mode platform = Ok (Skip_ b am).
Proof.
  intros Hkeep Henv Hreq Hup. destruct (requested_amendment_approves _ _ _ _ _ _ Hreq) as (Hh & Hno & p1 & Hadd & Hv).
  destruct (shell_requirement m' req shell mode platform) as (r & -> & Hr).
  set (cs := policy_commands _ _ _ _) in *. set (f := exec_policy_fallback _ _ _ _) in *.
  enough (Forall (λ cmd, verdict (policy_for m' req) f cmd = Allow) (epc_commands cs)) as Hall.
  { destruct (verdicts_Skip _ _ _ _ _ Hall Hr) as (b & am & ->). eauto. }
  apply append_amendment_cases in Hup as [[-> Hal]|(p' & Hadd' & ->)].
  - apply Forall_forall. intros cmd Hc. rewrite Forall_forall in Hv. specialize (Hv cmd Hc). cbn beta in Hv.
    specialize (Hno cmd Hc). apply already_allowed_matches in Hal.
    assert (Ha : rule_matches_of (policy_for m req) a ≠ []).
    { unfold policy_for in *. rewrite Hh in *. simpl in *. destruct (rq_environment_policy req); [|done].
      apply overlay_matches; auto. }
    unfold verdict in *. rewrite Hno. by rewrite (covered_prefix (policy_for m req) p1 a cmd Hkeep Hadd Ha Hno) in Hv.
  - unfold policy_for in *. rewrite Hh in *. simpl in *. destruct (rq_environment_policy req) as [o|].
    + eapply Forall_impl; [exact Hv|]. intros cmd <-. symmetry. apply same_verdict. by eapply add_under_overlay.
    + assert (p1 = p') as <- by (cbn in Hadd; congruence). done.
Qed.
End update.
End facts.
