(* ===== verification/PolicyLoad.v ===== *)
(** * Loading the execution policy

    Models the loading part of [core/src/exec_policy.rs] with the configuration
    layers it goes through ([config/src/config_layer_source.rs],
    [config/src/state.rs]): the rules files of the enabled layers, in order, then
    the rules required by the administrator on top. Files and directories are read
    through [RulesFs]; the names of a directory's files order its paths. *)

From stdpp Require Import gmap sorting.
From S2P Require Import Prelude RustStr RustIo RustOrd ExecPolicy PolicyParser ShellCommand ExecApproval.
From S2P Require Import ExecPolicyFacts PolicyAmend.
From S2P Require Import DangerousCommand PathConvention PathUri FsPolicy FsProfile PatchSafety.
From S2P Require Import ExecApprovalFacts.
Open Scope list_scope.

(** ** Layers *)

Inductive ConfigLayerSource :=
  | PackagedDefaults (file : str)
  | Mdm (domain key : str)
  | System (file : str)
  | EnterpriseManaged (id name : str)
  | User (file : str) (profile : option str)
  | Project (dot_codex_folder : str)
  | SessionFlags
  | LegacyManagedConfigTomlFromFile (file : str)
  | LegacyManagedConfigTomlFromMdm.

Record ConfigLayerEntry := {
  layer_name : ConfigLayerSource;
  disabled_reason : option str;
}.

(** The parts of a [ConfigLayerStack] the policy depends on. *)
Record ConfigLayerStack (AP : Type) := {
  layers : list ConfigLayerEntry;
  ignore_user_and_project_exec_policy_rules : bool;
  requirements_exec_policy : option (Policy AP);
}.
Arguments layers {AP} _.
Arguments ignore_user_and_project_exec_policy_rules {AP} _.
Arguments requirements_exec_policy {AP} _.

Definition is_disabled (l : ConfigLayerEntry) : bool :=
  match disabled_reason l with Some _ => true | None => false end.

Definition layers_low_to_high {AP} (s : ConfigLayerStack AP) : list ConfigLayerEntry :=
  List.filter (λ l, negb (is_disabled l)) (layers s).

Definition is_user_or_project (source : ConfigLayerSource) : bool :=
  match source with User _ _ | Project _ => true | _ => false end.

(** ** Files *)

Record RulesDirEntry := { entry_name : str; entry_is_file : io_result bool }.

Class RulesFs := {
  rules_parent : str → option str;
  rules_join : str → str → str;
  rules_read_dir : str → io_result (list (io_result RulesDirEntry));
  rules_read_to_string : str → io_result str;
}.

Inductive ExecPolicyError (Loc SE : Type) :=
  | ReadDir (dir : str) (source : IoErr)
  | ReadFile (path : str) (source : IoErr)
  | ParsePolicy (path : str) (source : PolicyParseError Loc SE).
Arguments ReadDir {Loc SE} dir source.
Arguments ReadFile {Loc SE} path source.
Arguments ParsePolicy {Loc SE} path source.

(** [Path::extension] of a file's name. *)
Definition name_extension (name : str) : option str :=
  '(before, after) ← rsplit_once c_dot name;
  if bool_decide (before = []) then None else Some after.

Definition name_le (a b : str) : Prop := str_le a b = true.
#[global] Instance name_le_dec : RelDecision name_le.
Proof. intros a b. unfold name_le. apply _. Defined.

Section load.
Context {AP Loc SE Ast : Type} `{HP : !HostPaths AP} `{PE : !ParserEnv AP} `{RF : !RulesFs} (windows : bool).
Context (ast_parse : str → str → res SE Ast) (ast_calls : Ast → list (Call Loc) * option SE).
Implicit Types (stack : ConfigLayerStack AP).
Abbreviation error := (ExecPolicyError Loc SE).

Definition config_folder (l : ConfigLayerEntry) : option str :=
  match layer_name l with
  | PackagedDefaults _ | Mdm _ _ | EnterpriseManaged _ _ | SessionFlags
  | LegacyManagedConfigTomlFromFile _ | LegacyManagedConfigTomlFromMdm => None
  | System file => rules_parent file
  | User file _ => rules_parent file
  | Project dot_codex_folder => Some dot_codex_folder
  end.

Definition is_rules_file (name : str) : bool := bool_decide (name_extension name = Some RULE_EXTENSION).

(** One turn of the loop over a directory. *)
Definition collect_entry (dir : str) (names : list str) (entry : io_result RulesDirEntry) : res error (list str) :=
  match entry with
  | inl source => Err (ReadDir dir source)
  | inr entry =>
      match entry_is_file entry with
      | inl source => Err (ReadDir dir source)
      | inr is_file => Ok (if is_rules_file (entry_name entry) && is_file then names ++ [entry_name entry] else names)
      end
  end.

Definition collect_policy_files (dir : str) : res error (list str) :=
  match rules_read_dir dir with
  | inl err => if RustIo.kind_is NotFound err then Ok [] else Err (ReadDir dir err)
  | inr entries =>
      let? names := foldM (collect_entry dir) [] entries in
      Ok (map (rules_join dir) (merge_sort name_le names))
  end.

Definition collect_layer stack (paths : list str) (l : ConfigLayerEntry) : res error (list str) :=
  if ignore_user_and_project_exec_policy_rules stack && is_user_or_project (layer_name l) then Ok paths
  else match config_folder l with
       | Some folder =>
           let? layer_paths := collect_policy_files (rules_join folder RULES_DIR_NAME) in
           Ok (paths ++ layer_paths)
       | None => Ok paths
       end.

(** Reading and parsing one file. *)
Definition parse_rules_file (b : PolicyBuilder AP Loc) (path : str) : res error (PolicyBuilder AP Loc) :=
  match rules_read_to_string path with
  | inl source => Err (ReadFile path source)
  | inr contents =>
      match parse windows ast_parse ast_calls b path contents with
      | (b, Ok _) => Ok b
      | (_, Err source) => Err (ParsePolicy path source)
      | (_, Panic) => Panic
      end
  end.

Definition load_exec_policy stack : res error (Policy AP) :=
  let? policy_paths := foldM (collect_layer stack) [] (layers_low_to_high stack) in
  let? parser := foldM parse_rules_file builder_new policy_paths in
  let policy := builder_build parser in
  match requirements_exec_policy stack with
  | None => Ok policy
  | Some requirements_policy => Ok (merge_overlay policy requirements_policy)
  end.

Definition load_exec_policy_with_warning stack : res error (Policy AP * option error) :=
  match load_exec_policy stack with
  | Ok policy => Ok (policy, None)
  | Err (ParsePolicy path source) =>
      Ok (default policy_empty (requirements_exec_policy stack), Some (ParsePolicy path source))
  | Err err => Err err
  | Panic => Panic
  end.

Definition manager_load stack : res error (ExecPolicyManager AP) :=
  let? (policy, _) := load_exec_policy_with_warning stack in
  Ok (manager_new policy).

(** [RequirementsExecPolicy::fingerprint]; the order of the programs of a map does
    not matter, since the texts are sorted. *)
Definition fingerprint (p : Policy AP) : list str :=
  merge_sort name_le
    (map_to_list (rules_by_program p) ≫= λ '(program, rules), map (λ r, program ++ lit ":" ++ rule_debug r) rules).

Definition same_requirements (a b : option (Policy AP)) : bool :=
  bool_decide (fingerprint <$> a = fingerprint <$> b).

Definition child_uses_parent_exec_policy (parent child : ConfigLayerStack AP) : bool :=
  bool_decide (omap config_folder (layers_low_to_high parent) = omap config_folder (layers_low_to_high child))
  && Bool.eqb (ignore_user_and_project_exec_policy_rules parent) (ignore_user_and_project_exec_policy_rules child)
  && same_requirements (requirements_exec_policy parent) (requirements_exec_policy child).
End load.

(** * What an administrator requires stays in force

    The rules of the required policy are part of every policy that is loaded and of
    every one it is updated to; the updates and the environments only add rules, so
    that a command a required rule forbids is never run. *)

Section facts.
Context {AP Loc SE Ast : Type} `{HP : !HostPaths AP} `{PE : !ParserEnv AP} `{RF : !RulesFs} (os : TargetOs).
Context (ast_parse : str → str → res SE Ast) (ast_calls : Ast → list (Call Loc) * option SE).
Context {W JE : Type} `{FS : !PolicyFs W} `{JS : !Json JE} (debug_list : list str → str).
Implicit Types (p o : Policy AP) (m : ExecPolicyManager AP) (stack : ConfigLayerStack AP).

(** Every rule of [o] is one of [p]. *)
Definition includes p o : Prop :=
  ∀ k r, r ∈ rules_at (rules_by_program o) k → r ∈ rules_at (rules_by_program p) k.

Lemma includes_merge p o : includes (merge_overlay p o) o.
Proof. intros k r Hr. simpl. rewrite rules_at_merge, elem_of_app. by right. Qed.

Lemma includes_add {L} p o prefix d p' : includes p o → add_prefix_rule (Loc:=L) p prefix d = Ok p' → includes p' o.
Proof.
  intros Hi. destruct prefix as [|first rest]; [done|]. intros [= <-] k r Hr. simpl. rewrite rules_at_insert, elem_of_app.
  left. by apply Hi.
Qed.

Lemma add_network_rules {L} p host protocol d j p' :
  add_network_rule (Loc:=L) p host protocol d j = Ok p' → rules_by_program p' = rules_by_program p.
Proof.
  unfold add_network_rule. destruct (normalize_network_rule_host host) as [?|?|]; [|done..]. simpl.
  by destruct (blank_justification j); [|intros [= <-]].
Qed.

Lemma load_includes stack p warning o :
  load_exec_policy_with_warning (on_windows os) ast_parse ast_calls stack = Ok (p, warning) →
  requirements_exec_policy stack = Some o → includes p o.
Proof.
  unfold load_exec_policy_with_warning. intros H Ho. destruct (load_exec_policy _ _ _ stack) as [q|[]|] eqn:E; try done.
  - injection H as <- _. unfold load_exec_policy in E. rewrite Ho in E.
    destruct (foldM (collect_layer stack) _ _) as [paths|?|]; [|done..]. simpl in E.
    destruct (foldM _ builder_new paths) as [b|?|]; [|done..]. simpl in E. injection E as <-. apply includes_merge.
  - injection H as <- _. rewrite Ho. by intros k r.
Qed.

(** The managers of a session: loaded, then updated. *)
Inductive reachable stack : ExecPolicyManager AP → Prop :=
  | reachable_load m :
      manager_load (on_windows os) ast_parse ast_calls stack = Ok m → reachable stack m
  | reachable_amendment m home amendment (w w' : W) r m' :
      reachable stack m →
      append_amendment_and_update (Loc:=Loc) (JE:=JE) os home amendment (m, w) = (r, (m', w')) → reachable stack m'
  | reachable_network m home host protocol d j (w w' : W) r m' :
      reachable stack m →
      append_network_rule_and_update (Loc:=Loc) (JE:=JE) debug_list home host protocol d j (m, w) = (r, (m', w')) →
      reachable stack m'.

Lemma reachable_includes stack m o :
  reachable stack m → requirements_exec_policy stack = Some o → includes (current m) o.
Proof.
  intros Hr Ho. induction Hr as [m Hl|m home a w w' r m' _ IH Hu|m home host protocol d j w w' r m' _ IH Hu].
  - unfold manager_load in Hl. destruct (load_exec_policy_with_warning _ _ _ stack) as [[q warning]|?|] eqn:E; [|done..].
    injection Hl as <-. by eapply load_includes.
  - unfold append_amendment_and_update in Hu. destruct (blocking_append_allow_prefix_rule _ _ w) as [x w1].
    destruct (blocking_result _ x); [|by injection Hu as _ <- _..].
    destruct (already_allowed os (current m) a) as [[]|?|]; try by injection Hu as _ <- _.
    destruct (add_prefix_rule _ _ _) as [q|?|] eqn:E; injection Hu as _ <- _; try done. by eapply includes_add.
  - unfold append_network_rule_and_update in Hu. destruct (blocking_append_network_rule _ _ _ _ _ _ w) as [x w1].
    destruct (blocking_result _ x); [|by injection Hu as _ <- _..].
    destruct (add_network_rule _ _ _ _ _) as [q|?|] eqn:E; injection Hu as _ <- _; try done.
    apply add_network_rules in E. intros k s Hs. simpl. rewrite E. by apply IH.
Qed.

Context {U UE : Type} `{UL : !UrlLib U UE} `{SG : !ShellGrammars} `{CW : !CommandWords}.
Implicit Types (req : ExecApprovalRequest U AP).

(** The policy for a request keeps the rules that do not allow. *)
Lemma policy_for_keeps m req r k :
  r ∈ rules_at (rules_by_program (current m)) k → rule_decision r ≠ Allow →
  r ∈ rules_at (rules_by_program (policy_for m req)) k.
Proof.
  intros Hr Hd. unfold policy_for, current_for_environment.
  assert (Hp : r ∈ rules_at (rules_by_program (current_for_prefix_rules m (rq_allow_prefix_rules req))) k).
  { destruct (rq_allow_prefix_rules req); [done|]. unfold rules_at in *. simpl. rewrite lookup_omap.
    destruct (rules_by_program (current m) !! k) as [rs|]; [|by apply not_elem_of_nil in Hr]. simpl in *.
    set (kept := List.filter _ rs). assert (Hk : r ∈ kept).
    { apply list_elem_of_In, filter_In. split; [by apply list_elem_of_In|]. by rewrite bool_decide_eq_false_2. }
    destruct kept as [|x kept]; [by apply not_elem_of_nil in Hk|done]. }
  destruct (rq_environment_policy req); [|done]. simpl. rewrite rules_at_merge, elem_of_app. by left.
Qed.

(** The rules of [p] alone forbid the command. *)
Definition forbids p cmd : Prop := Forbidden ∈ map match_decision (rule_matches_of os p cmd).

Lemma forbids_verdict p f cmd : forbids p cmd → verdict os p f cmd = Forbidden.
Proof.
  intros H. destruct (check_verdict os p f cmd) as (e & E & <- & Hm).
  apply from_matches_Ok_inv in E as [_ [_ Hall]]. rewrite Forall_forall in Hall.
  enough (Forbidden ∈ map match_decision (matches_for_command_with_options (on_windows os) p cmd (Some f) match_options)) as H'.
  { apply Hall in H'. destruct (eval_decision e); simpl in H'; [lia..|done]. }
  rewrite matches_with_fallback. unfold forbids in H.
  destruct (rule_matches_of os p cmd); [by apply not_elem_of_nil in H|done].
Qed.

(** The command names its program by a path, and a rule of [o] for the program's
    file name applies to it. *)
Definition by_file_name o cmd (r : PrefixRule) (program : AP) (basename : str) : Prop :=
  ∃ first args pre, cmd = first :: args ∧ absolute_path first = Some program
    ∧ executable_path_lookup_key (on_windows os) program = Some basename
    ∧ r ∈ rules_at (rules_by_program o) basename
    ∧ pattern_accepts (pattern r) pre ∧ pre `prefix_of` (basename :: args).

Lemma forbids_cases o cmd :
  forbids o cmd →
  (∃ r, covers o r cmd ∧ rule_decision r = Forbidden)
  ∨ ((∀ r, ¬ covers o r cmd) ∧ ∃ r program basename, by_file_name o cmd r program basename ∧ rule_decision r = Forbidden).
Proof.
  unfold forbids, rule_matches_of. intros H.
  destruct (matches_cases (on_windows os) o cmd None match_options) as [[Hex _]|[(Hno & _ & E & _)|(_ & _ & E)]].
  - left. by apply (exact_decisions o cmd _ _ Hex) in H.
  - right. split; [done|]. rewrite E in H. apply list_elem_of_fmap in H as (mt & Hd & Hm).
    apply elem_of_host_matches in Hm as (first & args & program & basename & r & pre & -> & Ea & Eb & _ & Hr & Ha & Hp & ->).
    exists r, program, basename. split; [|by rewrite Hd]. exists first, args, pre. done.
  - rewrite E in H. by apply not_elem_of_nil in H.
Qed.

Lemma covered_forbids p r cmd : covers p r cmd → rule_decision r = Forbidden → forbids p cmd.
Proof.
  intros Hc Hd. unfold forbids, rule_matches_of.
  destruct (matches_cases (on_windows os) p cmd None match_options) as [[Hex _]|[(Hno & _)|(Hno & _)]];
    [|by apply Hno in Hc..]. apply (exact_decisions p cmd _ _ Hex). by exists r.
Qed.

Lemma file_name_forbids p cmd r program basename :
  (∀ r, ¬ covers p r cmd) → by_file_name p cmd r program basename → rule_decision r = Forbidden →
  (∀ paths, host_executables_by_name p !! basename = Some paths → program ∈ paths) → forbids p cmd.
Proof.
  intros Hno (first & args & pre & -> & Ea & Eb & Hr & Ha & Hp) Hd Hpaths.
  assert (Hm : PrefixRuleMatch pre (rule_decision r) (Some program) (rule_justification r)
               ∈ match_host_executable_rules (on_windows os) p (first :: args)).
  { apply elem_of_host_matches. exists first, args, program, basename, r, pre. done. }
  unfold forbids, rule_matches_of.
  destruct (matches_cases (on_windows os) p (first :: args) None match_options) as [[Hex Hne]|[(_ & _ & -> & _)|(_ & Hc & _)]].
  - apply no_exact_match in Hno. rewrite Hex in Hno. by apply nonempty_None in Hno as [|[= ?]].
  - apply list_elem_of_fmap. eexists. split; [|exact Hm]. by rewrite <- Hd.
  - destruct Hc as [|Hc]; [done|]. rewrite Hc in Hm. by apply not_elem_of_nil in Hm.
Qed.

(** The one way around a required rule: it is for the file name of a program that
    the command names by its path, and the policy [p] has a rule for this very
    path, or a list of the program's known places that does not have it. *)
Definition shadowed p o cmd : Prop :=
  (∀ r, ¬ covers o r cmd)
  ∧ ∃ r program basename, by_file_name o cmd r program basename
      ∧ ((∃ r', covers p r' cmd)
         ∨ ∃ paths, host_executables_by_name p !! basename = Some paths ∧ program ∉ paths).

(** C6. A required rule is never relaxed: when the policy an administrator requires
    forbids a command by itself, then whatever rules files the user and the
    projects have, whether they parse or not, whatever amendments and network rules
    were accepted since, whatever policy the environment adds and whatever the
    approval policy is, an invocation that runs this command is refused. There is
    one exception: the required rule is for the file name of a program that the
    command names by its path, and the policy in force has a rule for this path
    or lists other places for the program. *)
Theorem required_rules_hold stack m o cmd req shell mode platform :
  reachable stack m → requirements_exec_policy stack = Some o → forbids o cmd →
  cmd ∈ epc_commands (policy_commands (rq_command req) shell mode platform) →
  (∃ reason, create_exec_approval_requirement_for_shell (Loc:=Loc) os m req shell mode platform = Ok (Forbidden_ reason))
  ∨ shadowed (policy_for m req) o cmd.
Proof.
  intros Hm Ho Hf Hin. destruct (shell_requirement (Loc:=Loc) os m req shell mode platform) as (x & -> & Hx).
  unfold requirement_of in Hx. set (f := exec_policy_fallback _ _ _ _) in Hx. set (p := policy_for m req) in *.
  assert (Hkeep : ∀ r k, r ∈ rules_at (rules_by_program o) k → rule_decision r = Forbidden → r ∈ rules_at (rules_by_program p) k).
  { intros r k Hr Hd. apply policy_for_keeps; [|by rewrite Hd]. by eapply reachable_includes. }
  assert (Hp : forbids p cmd ∨ shadowed p o cmd).
  { apply forbids_cases in Hf as [(r & (first & args & -> & Hr & Hpre) & Hd)|(Hno & r & program & basename & Hb & Hd)].
    - left. eapply covered_forbids; [|done]. exists first, args. auto.
    - destruct (match_exact_rules p cmd) as [[|mt ms]|] eqn:E.
      2: { right. split; [done|]. exists r, program, basename. split; [done|]. left.
           assert (H : match_decision mt ∈ map match_decision (mt :: ms)) by (by left).
           apply (exact_decisions p cmd _ _ E) in H as (r' & Hr' & _). by exists r'. }
      all: assert (Hno' : ∀ r, ¬ covers p r cmd) by (apply no_exact_match; by rewrite E).
      all: assert (Hb' : by_file_name p cmd r program basename)
        by (destruct Hb as (first & args & pre & -> & ? & ? & Hr & ? & ?); exists first, args, pre; split_and!; auto).
      all: destruct (host_executables_by_name p !! basename) as [paths|] eqn:Ep;
        [destruct (decide (program ∈ paths)) as [Hi|Hi]|].
      all: try (left; eapply file_name_forbids; [done..|]; rewrite Ep; naive_solver).
      all: right; split; [done|]; exists r, program, basename; eauto. }
  destruct Hp as [Hp%(forbids_verdict p f)|]; [left|by right].
  set (cmds := epc_commands _) in *. destruct (check_multiple_verdict os p f cmds) as (e & _ & He & [_ Hall] & _).
  { by apply policy_commands_nonempty. }
  rewrite Forall_forall in Hall. specialize (Hall Forbidden). rewrite <- He in Hx.
  destruct (eval_decision e); [..|by destruct Hx as [reason ->]; eauto];
    (assert (H : Forbidden ∈ map (verdict os p f) cmds) by (rewrite <- Hp; by apply list_elem_of_fmap_2));
    apply Hall in H; simpl in H; lia.
Qed.
End facts.
