(* ===== verification/ExecTool.v ===== *)
(** * Running a command for the model

    Models the path of [exec_command] from its arguments to the orchestrator:
    [get_command] ([core/src/tools/handlers/unified_exec.rs]) and
    [derive_exec_args] ([core/src/shell.rs]), the permissions a call runs with
    ([core/src/tools/handlers/mod.rs] and the middle of
    [handlers/unified_exec/exec_command.rs]), the request for an approval
    ([core/src/unified_exec/process_manager.rs]) and the methods of
    [UnifiedExecRuntime]. The environment of the call (its shell, its roots, what
    was granted before) is given; the bookkeeping of processes, the interception of
    patches, hooks and telemetry are left out. *)

From stdpp Require Import gmap.
From S2P Require Import Prelude RustStr RustIo ExecPolicy ShellCommand DangerousCommand.
From S2P Require Import Utf8 PathConvention PathUri PathText FsPolicy FsDeny FsTransform FsProfile.
From S2P Require Import PatchSafety Orchestrator ExecApproval.
From S2P Require Import ExecPolicyFacts.
From S2P Require Import Orchestrator ExecApprovalFacts.
Open Scope list_scope.

(** ** The command line *)

Record ExecCommandArgs (U : Type) := {
  arg_cmd : str;
  arg_shell : option str;
  arg_login : option bool;
  arg_sandbox_permissions : option SandboxPermissions;
  arg_additional_permissions : option (AdditionalPermissionProfile U);
  arg_justification : option str;
  arg_prefix_rule : option (list str);
}.
Arguments arg_cmd {U} _.
Arguments arg_shell {U} _.
Arguments arg_login {U} _.
Arguments arg_sandbox_permissions {U} _.
Arguments arg_additional_permissions {U} _.
Arguments arg_justification {U} _.
Arguments arg_prefix_rule {U} _.

(** [UnifiedExecShellMode] with the path a fork of zsh uses. *)
Inductive ShellMode := ModeDirect | ModeZshFork (shell_zsh_path : str).

Definition mode_kind (mode : ShellMode) : UnifiedExecShellMode :=
  match mode with ModeDirect => Direct | ModeZshFork _ => ZshFork end.

Record ResolvedCommand := { rc_command : list str; rc_shell_type : ShellType }.

Definition derive_exec_args (shell : Shell) (command : str) (use_login_shell : bool) : list str :=
  match shell_type shell with
  | Zsh | Bash | Sh => [shell_path shell; if use_login_shell then lit "-lc" else lit "-c"; command]
  | PowerShell =>
      [shell_path shell] ++ (if use_login_shell then [] else [lit "-NoProfile"]) ++ [lit "-Command"; command]
  | Cmd => [shell_path shell; lit "/c"; command]
  end.

Definition LOGIN_SHELL_DISABLED : str :=
  lit "login shell is disabled by config; omit `login` or set it to false.".
Definition SHELL_NOT_SUPPORTED : str :=
  lit "`shell` is not supported for local zsh-fork exec; omit `shell` to use zsh-fork, or target a remote environment where `shell` is supported.".

(** [get_command]; [shell_by_path] is [get_shell_by_model_provided_path]. *)
Definition get_command {U} (shell_by_path : str → Shell) (args : ExecCommandArgs U) (session_shell : Shell)
    (mode : ShellMode) (allow_login_shell : bool) : res str ResolvedCommand :=
  let? use_login_shell :=
    match arg_login args with
    | Some true => if allow_login_shell then Ok true else Err LOGIN_SHELL_DISABLED
    | Some false => Ok false
    | None => Ok allow_login_shell
    end in
  match mode with
  | ModeDirect =>
      let shell := default session_shell (shell_by_path <$> arg_shell args) in
      Ok {| rc_command := derive_exec_args shell (arg_cmd args) use_login_shell;
            rc_shell_type := shell_type shell |}
  | ModeZshFork shell_zsh_path =>
      match arg_shell args with
      | Some _ => Err SHELL_NOT_SUPPORTED
      | None =>
          Ok {| rc_command := [shell_zsh_path; if use_login_shell then lit "-lc" else lit "-c"; arg_cmd args];
                rc_shell_type := Zsh |}
      end
  end.

(** ** The permissions of a call *)

(** A message for the model, or an error of normalization with its own text. *)
Inductive PermissionError (U : Type) := PeText (message : str) | PeNormalize (e : NormalizeError U).
Arguments PeText {U} message.
Arguments PeNormalize {U} e.

Definition JUSTIFICATION_NEEDS_PERMISSIONS : str :=
  lit "`justification` requires an explicit `sandbox_permissions`; use `sandbox_permissions: " ++ [c_dquote]
  ++ lit "require_escalated" ++ [c_dquote] ++ lit "` for unsandboxed execution, or omit `justification`.".

Definition resolve_sandbox_permissions {U} (sandbox_permissions : option SandboxPermissions)
    (justification : option str) : res (PermissionError U) SandboxPermissions :=
  match justification, sandbox_permissions with
  | Some _, None => Err (PeText JUSTIFICATION_NEEDS_PERMISSIONS)
  | _, _ => Ok (default UseDefault sandbox_permissions)
  end.

Definition debug_bool (b : bool) : str := if b then lit "true" else lit "false".

(** The derived [Debug] of [AskForApproval]. *)
Definition debug_approval_policy (policy : AskForApproval) : str :=
  match policy with
  | UnlessTrusted => lit "UnlessTrusted"
  | OnRequest => lit "OnRequest"
  | Never => lit "Never"
  | Granular c =>
      lit "Granular(GranularApprovalConfig { sandbox_approval: " ++ debug_bool (sandbox_approval c)
      ++ lit ", rules: " ++ debug_bool (PatchSafety.rules c)
      ++ lit ", skill_approval: " ++ debug_bool (skill_approval c)
      ++ lit ", request_permissions: " ++ debug_bool (request_permissions c)
      ++ lit ", mcp_elicitations: " ++ debug_bool (mcp_elicitations c) ++ lit " })"
  end.

Definition ADDITIONAL_PERMISSIONS_DISABLED : str :=
  lit "additional permissions are disabled; enable `features.exec_permission_approvals` before using `with_additional_permissions`".
Definition MISSING_ADDITIONAL_PERMISSIONS : str :=
  lit "missing `additional_permissions`; provide at least one of `network` or `file_system` when using `with_additional_permissions`".
Definition EMPTY_ADDITIONAL_PERMISSIONS : str :=
  lit "`additional_permissions` must include at least one requested permission in `network` or `file_system`".
Definition UNEXPECTED_ADDITIONAL_PERMISSIONS : str :=
  lit "`additional_permissions` requires `sandbox_permissions` set to `with_additional_permissions`".

Record EffectiveAdditionalPermissions (U : Type) := {
  eff_sandbox_permissions : SandboxPermissions;
  eff_additional_permissions : option (AdditionalPermissionProfile U);
  permissions_preapproved : bool;
}.
Arguments eff_sandbox_permissions {U} _.
Arguments eff_additional_permissions {U} _.
Arguments permissions_preapproved {U} _.

Section permissions.
Context {U UE : Type} `{UL : !UrlLib U UE}.
Implicit Types (ap : AdditionalPermissionProfile U) (ctx : FileSystemSandboxPolicyContext U).

Definition normalize_and_validate_additional_permissions (additional_permissions_allowed : bool)
    (policy : AskForApproval) (sandbox_permissions : SandboxPermissions)
    (additional : option (AdditionalPermissionProfile U)) (preapproved : bool) ctx
    : res (PermissionError U) (option (AdditionalPermissionProfile U)) :=
  let uses := uses_additional_permissions sandbox_permissions in
  let present := match additional with Some _ => true | None => false end in
  if negb preapproved && negb additional_permissions_allowed && (uses || present)
  then Err (PeText ADDITIONAL_PERMISSIONS_DISABLED)
  else if uses then
    if negb preapproved && negb match policy with OnRequest => true | _ => false end
    then Err (PeText (lit "approval policy is " ++ debug_approval_policy policy
                      ++ lit "; reject command " ++ [8212%N]
                      ++ lit " you cannot request additional permissions unless the approval policy is OnRequest"))
    else match additional with
         | None => Err (PeText MISSING_ADDITIONAL_PERMISSIONS)
         | Some additional =>
             let? normalized := map_err PeNormalize (normalize_additional_permissions_with_context additional ctx) in
             if profile_is_empty normalized then Err (PeText EMPTY_ADDITIONAL_PERMISSIONS)
             else Ok (Some normalized)
         end
  else if present then Err (PeText UNEXPECTED_ADDITIONAL_PERMISSIONS) else Ok None.

Definition implicit_granted_permissions (sandbox_permissions : SandboxPermissions)
    (additional : option (AdditionalPermissionProfile U)) (effective : EffectiveAdditionalPermissions U)
    : option (AdditionalPermissionProfile U) :=
  match sandbox_permissions, additional with
  | UseDefault, None => eff_additional_permissions effective
  | _, _ => None
  end.

(** An entry that the context cannot resolve. *)
Definition unresolvable_entry ctx (e : FileSystemSandboxEntry U) : bool :=
  match entry_path e with
  | FsSpecial SpTmpdir => match temporary_directories ctx with Some (_ :: _) => false | _ => true end
  | FsSpecial (SpProjectRoots _) => match workspace_roots ctx with [] => true | _ => false end
  | _ => false
  end.

Definition preapproved_permission_profile (effective granted : AdditionalPermissionProfile U) ctx
    : option (AdditionalPermissionProfile U) :=
  if match ap_file_system effective with
     | Some fs => existsb (unresolvable_entry ctx) (perm_entries fs)
     | None => false
     end
  then None
  else match materialize_additional_permissions_with_context effective ctx,
             materialize_additional_permissions_with_context granted ctx with
       | Ok e, Ok g =>
           if negb (bool_decide (ap_network e = ap_network g)) then None
           else
             let unchanged :=
               match ap_file_system e, ap_file_system g with
               | Some e, Some g =>
                   bool_decide (perm_glob_scan_max_depth e = perm_glob_scan_max_depth g)
                   && bool_decide (length (perm_entries e) = length (perm_entries g))
                   && forallb (contains_entry (perm_entries g)) (perm_entries e)
               | None, None => true
               | _, _ => false
               end in
             if unchanged then Some granted else None
       | _, _ => None
       end.

(** [apply_granted_turn_permissions], with the permissions granted to the session
    and to the turn. *)
Definition apply_granted_turn_permissions (session_granted turn_granted : option (AdditionalPermissionProfile U))
    (context : option (FileSystemSandboxPolicyContext U)) (sandbox_permissions : SandboxPermissions)
    (additional : option (AdditionalPermissionProfile U)) : EffectiveAdditionalPermissions U :=
  match sandbox_permissions with
  | RequireEscalated =>
      {| eff_sandbox_permissions := sandbox_permissions; eff_additional_permissions := additional;
         permissions_preapproved := false |}
  | _ =>
      let granted := merge_permission_profiles session_granted turn_granted in
      let effective := merge_permission_profiles additional granted in
      let preapproved :=
        granted ← granted;
        match additional with
        | None => Some granted
        | Some _ => effective ← effective; context ← context;
                    preapproved_permission_profile effective granted context
        end in
      let effective := match preapproved with Some p => Some p | None => effective end in
      {| eff_sandbox_permissions :=
           if match effective with Some _ => true | None => false end
              && negb (uses_additional_permissions sandbox_permissions)
           then WithAdditionalPermissions else sandbox_permissions;
         eff_additional_permissions := effective;
         permissions_preapproved := match preapproved with Some _ => true | None => false end |}
  end.
End permissions.

(** ** The environment of a call and its request *)

Record ExecEnvironment (U AP : Type) := {
  env_id : str;
  env_is_remote : bool;
  env_shell : option Shell;
  session_shell : Shell;
  turn_shell_mode : ShellMode;
  allow_login_shell : bool;
  executor_platform_os : option str;
  env_exec_policy : option (Policy AP);
  (* the context of the sandbox with the working directory of the call *)
  permission_context : option (FileSystemSandboxPolicyContext U);
  session_granted : option (AdditionalPermissionProfile U);
  turn_granted : option (AdditionalPermissionProfile U);
  feature_exec_permission_approvals : bool;
  feature_request_permissions_tool : bool;
  allow_prefix_rules : AllowPrefixRules;
  native_environment_cwd : U;
  has_shell_snapshot : bool;
}.
Arguments env_id {U AP} _.
Arguments env_is_remote {U AP} _.
Arguments env_shell {U AP} _.
Arguments session_shell {U AP} _.
Arguments turn_shell_mode {U AP} _.
Arguments allow_login_shell {U AP} _.
Arguments executor_platform_os {U AP} _.
Arguments env_exec_policy {U AP} _.
Arguments permission_context {U AP} _.
Arguments session_granted {U AP} _.
Arguments turn_granted {U AP} _.
Arguments feature_exec_permission_approvals {U AP} _.
Arguments feature_request_permissions_tool {U AP} _.
Arguments allow_prefix_rules {U AP} _.
Arguments native_environment_cwd {U AP} _.
Arguments has_shell_snapshot {U AP} _.

(** The parts of [ExecCommandRequest] that matter for approvals. *)
Record ExecCommandRequest (U : Type) := {
  xr_command : list str;
  xr_shell_mode : ShellMode;
  xr_sandbox_permissions : SandboxPermissions;
  xr_additional_permissions : option (AdditionalPermissionProfile U);
  xr_preapproved : bool;
  xr_prefix_rule : option (list str);
}.
Arguments xr_command {U} _.
Arguments xr_shell_mode {U} _.
Arguments xr_sandbox_permissions {U} _.
Arguments xr_additional_permissions {U} _.
Arguments xr_preapproved {U} _.
Arguments xr_prefix_rule {U} _.

Definition shell_name (t : ShellType) : str :=
  match t with
  | Zsh => lit "zsh" | Bash => lit "bash" | PowerShell => lit "powershell" | Sh => lit "sh" | Cmd => lit "cmd"
  end.

Section exec.
Context {U UE AP Loc : Type} `{UL : !UrlLib U UE} `{HP : !HostPaths AP}.
Context `{SG : !ShellGrammars} `{CW : !CommandWords} (os : TargetOs) (shell_by_path : str → Shell).
Implicit Types (env : ExecEnvironment U AP) (args : ExecCommandArgs U) (c : CallContext U)
  (xr : ExecCommandRequest U) (m : ExecPolicyManager AP).

Definition shell_mode_for_environment env : ShellMode :=
  if env_is_remote env then ModeDirect else turn_shell_mode env.

Definition configured_shell env : Shell := default (session_shell env) (env_shell env).

(** The shell asked for in a remote environment: it must be of the reported type,
    and the reported shell is used. *)
Definition requested_shell env args : res (PermissionError U) (option str) :=
  match arg_shell args with
  | Some requested =>
      if env_is_remote env then
        match env_shell env with
        | None => Err (PeText (lit "environment `" ++ env_id env ++ lit "` does not report a shell"))
        | Some remote_shell =>
            if bool_decide (detect_shell_type requested = Some (shell_type remote_shell)) then Ok None
            else Err (PeText (lit "environment `" ++ env_id env ++ lit "` only supports `"
                              ++ shell_name (shell_type remote_shell) ++ lit "`"))
        end
      else Ok (Some requested)
  | None => Ok None
  end.

Definition with_shell args (shell : option str) : ExecCommandArgs U :=
  {| arg_cmd := arg_cmd args; arg_shell := shell; arg_login := arg_login args;
     arg_sandbox_permissions := arg_sandbox_permissions args;
     arg_additional_permissions := arg_additional_permissions args;
     arg_justification := arg_justification args; arg_prefix_rule := arg_prefix_rule args |}.

(** [ExecCommandHandler::handle] up to the request. *)
Definition exec_command_request env (policy : AskForApproval) args
    : res (PermissionError U) (ExecCommandRequest U) :=
  let? sandbox_permissions := resolve_sandbox_permissions (arg_sandbox_permissions args) (arg_justification args) in
  let mode := shell_mode_for_environment env in
  let? shell := requested_shell env args in
  let? resolved := map_err PeText (get_command shell_by_path (with_shell args shell) (configured_shell env) mode
                                     (allow_login_shell env)) in
  let additional := arg_additional_permissions args in
  match permission_context env with
  | None => Err (PeText (lit "selected environment sandbox context is missing cwd"))
  | Some context =>
      let effective := apply_granted_turn_permissions (session_granted env) (turn_granted env) (Some context)
                         sandbox_permissions additional in
      let additional_permissions_allowed :=
        feature_exec_permission_approvals env
        || (feature_request_permissions_tool env && permissions_preapproved effective) in
      if requests_sandbox_override (eff_sandbox_permissions effective)
         && negb (permissions_preapproved effective)
         && match prompt_is_rejected_by_policy policy false with Some _ => true | None => false end
      then Err (PeText (lit "approval policy is " ++ debug_approval_policy policy
                        ++ lit "; reject command " ++ [8212%N]
                        ++ lit " you cannot ask for escalated permissions if the approval policy is "
                        ++ debug_approval_policy policy))
      else
        let? normalized :=
          match implicit_granted_permissions sandbox_permissions additional effective with
          | Some permissions => Ok (Some permissions)
          | None => normalize_and_validate_additional_permissions additional_permissions_allowed policy
                      (eff_sandbox_permissions effective) (eff_additional_permissions effective)
                      (permissions_preapproved effective) context
          end in
        Ok {| xr_command := rc_command resolved; xr_shell_mode := mode;
              xr_sandbox_permissions := eff_sandbox_permissions effective;
              xr_additional_permissions := normalized;
              xr_preapproved := permissions_preapproved effective;
              xr_prefix_rule := arg_prefix_rule args |}
  end.

(** ** The tool of a request ([open_session_with_sandbox], [UnifiedExecRuntime]) *)

Definition command_platform env : DangerousCommandPlatform :=
  match executor_platform_os env with
  | Some reported =>
      if bool_decide (reported = lit "linux") || bool_decide (reported = lit "macos")
      then PlatformPosix else PlatformWindows
  | None => if on_windows os then PlatformWindows else PlatformPosix
  end.

Definition exec_approval_request env c xr : ExecApprovalRequest U AP :=
  {| rq_command := xr_command xr; rq_approval_policy := approval_policy c;
     rq_permission_profile := permission_profile c; rq_environment_policy := env_exec_policy env;
     rq_windows_sandbox_level := windows_sandbox_level c;
     rq_sandbox_permissions := if xr_preapproved xr then UseDefault else xr_sandbox_permissions xr;
     rq_prefix_rule := xr_prefix_rule xr; rq_allow_prefix_rules := allow_prefix_rules env |}.

Definition exec_network_approval_spec c xr : option (option (AdditionalPermissionProfile U)) :=
  let sandbox_permissions :=
    sandbox_permissions_preserving_denied_reads (native_convention os) (xr_sandbox_permissions xr)
      (file_system_sandbox_policy (permission_profile c)) in
  let network :=
    managed_network_for_sandbox_permissions (if turn_has_network c then Some () else None) sandbox_permissions in
  match network with
  | None => if owner_network_policy c then Some (xr_additional_permissions xr) else None
  | Some _ => Some (xr_additional_permissions xr)
  end.

Definition exec_tool env c xr (requirement : ExecApprovalRequirement) : Tool U :=
  {| tool_sandbox_permissions := xr_sandbox_permissions xr;
     tool_exec_approval_requirement := Some requirement;
     should_bypass_approval := default_should_bypass_approval;
     wants_no_sandbox_approval := default_wants_no_sandbox_approval;
     approval_action := inr ();
     sandbox_preference := PrefAuto;
     escalate_on_failure := true;
     uses_executor_managed_process_sandbox := env_is_remote env || has_shell_snapshot env;
     network_approval_spec := exec_network_approval_spec c xr;
     tool_sandbox_cwd := Some (native_environment_cwd env) |}.

Definition exec_requirement m env c xr : res unit ExecApprovalRequirement :=
  create_exec_approval_requirement_for_shell (Loc:=Loc) os m (exec_approval_request env c xr)
    (configured_shell env) (mode_kind (xr_shell_mode xr)) (command_platform env).

(** The whole call: rejected for its permissions, or orchestrated. *)
Definition exec_command {E X A D Out W : Type} `{TH : !ToolHost U E X A D Out W} m env c args
    : W → res (PermissionError U + ToolError E X) (Out * option D) * W := λ w,
  match exec_command_request env (approval_policy c) args with
  | Err e => (Err (inl e), w)
  | Panic => (Panic, w)
  | Ok xr =>
      match exec_requirement m env c xr with
      | Ok requirement =>
          let '(r, w) := orchestrate os (exec_tool env c xr requirement) c w in
          (match r with inr out => Ok out | inl e => Err (inr e) end, w)
      | _ => (Panic, w)
      end
  end.
End exec.

(** * Commands and their approvals

    A command of the model leaves the sandbox only with an approval or a rule for
    everything it runs; permissions beyond the turn's come from an earlier grant,
    an approval or a rule; the script of a shell is the one that is checked. *)

(** ** Permissions *)

Section permissions.
Context {U UE : Type} `{UL : !UrlLib U UE}.

(** Earlier grants are used as they are, and never to leave the sandbox. *)
Lemma preapproved_grant session_granted turn_granted context sp additional :
  let eff := apply_granted_turn_permissions session_granted turn_granted context sp additional in
  permissions_preapproved eff = true →
  eff_sandbox_permissions eff = WithAdditionalPermissions
  ∧ ∃ granted, merge_permission_profiles (U:=U) session_granted turn_granted = Some granted
      ∧ eff_additional_permissions eff = Some granted.
Proof.
  unfold apply_granted_turn_permissions. set (granted := merge_permission_profiles session_granted turn_granted).
  set (effective := merge_permission_profiles additional granted).
  assert (Hp : ∀ x, (granted ← granted;
      match additional with
      | None => Some granted
      | Some _ => effective ← effective; context ← context; preapproved_permission_profile effective granted context
      end) = Some x → granted = Some x).
  { intros x. destruct granted as [g|]; [|done]. simpl. destruct additional; [|done].
    destruct effective; [|done]. simpl. destruct context; [|done]. simpl. unfold preapproved_permission_profile.
    destruct (match ap_file_system _ with Some _ => _ | None => _ end); [done|].
    destruct (materialize_additional_permissions_with_context _ _); [|done..].
    destruct (materialize_additional_permissions_with_context _ _); [|done..].
    destruct (negb _); [done|]. by destruct (match ap_file_system _ with Some _ => _ | None => _ end). }
  destruct sp; cbn zeta; try done;
    (destruct (granted ← granted; _) as [x|] eqn:E; [|done]); intros _; (split; [done|]); exists x; eauto.
Qed.

Lemma preapproved_false_escalated session_granted turn_granted context sp additional :
  let eff := apply_granted_turn_permissions (U:=U) session_granted turn_granted context sp additional in
  requires_escalated_permissions (eff_sandbox_permissions eff) = true → permissions_preapproved eff = false.
Proof.
  intros eff He. destruct (permissions_preapproved eff) eqn:E; [|done].
  apply preapproved_grant in E as [E _]. unfold eff in He. by rewrite E in He.
Qed.
End permissions.

Section exec.
Context {U UE AP Loc : Type} `{UL : !UrlLib U UE} `{HP : !HostPaths AP}.
Context `{SG : !ShellGrammars} `{CW : !CommandWords} (os : TargetOs) (shell_by_path : str → Shell).
Implicit Types (env : ExecEnvironment U AP) (args : ExecCommandArgs U) (c : CallContext U)
  (xr : ExecCommandRequest U) (m : ExecPolicyManager AP).

(** What an accepted request promises. *)
Lemma request_override env policy args xr :
  exec_command_request shell_by_path env policy args = Ok xr →
  requests_sandbox_override (xr_sandbox_permissions xr) = true →
  (xr_preapproved xr = false ∧ prompt_is_rejected_by_policy policy false = None)
  ∨ (xr_preapproved xr = true ∧ xr_sandbox_permissions xr = WithAdditionalPermissions
     ∧ ∃ granted context, merge_permission_profiles (session_granted env) (turn_granted env) = Some granted
         ∧ permission_context env = Some context
         ∧ (xr_additional_permissions xr = Some granted
            ∨ ∃ n, normalize_additional_permissions_with_context granted context = Ok n
                ∧ xr_additional_permissions xr = Some n)).
Proof.
  unfold exec_command_request. destruct (resolve_sandbox_permissions _ _) as [sp|?|]; [|done..]. simpl.
  destruct (requested_shell env args) as [shell|?|]; [|done..]. simpl.
  destruct (map_err PeText _) as [resolved|?|]; [|done..]. simpl.
  destruct (permission_context env) as [context|]; [|done].
  set (eff := apply_granted_turn_permissions _ _ _ _ _).
  destruct (_ && _ && _) eqn:Eg; [done|]. destruct (match implicit_granted_permissions _ _ _ with Some _ => _ | None => _ end)
    as [normalized|?|] eqn:En; [|done..]. simpl. intros [= <-]. cbn [xr_sandbox_permissions xr_preapproved xr_additional_permissions].
  intros Ho. rewrite Ho in Eg. destruct (permissions_preapproved eff) eqn:Ep; simpl in Eg.
  - right. destruct (preapproved_grant _ _ _ _ _ Ep) as (Hs & granted & Hg & He). fold eff in Hs, He.
    split_and!; [done..|]. exists granted, context. split_and!; [done..|].
    unfold implicit_granted_permissions in En. rewrite He, Hs in En.
    assert (Hn : normalize_and_validate_additional_permissions
        (feature_exec_permission_approvals env || feature_request_permissions_tool env && true) policy
        WithAdditionalPermissions (Some granted) true context = Ok normalized →
      ∃ n, normalize_additional_permissions_with_context granted context = Ok n ∧ normalized = Some n).
    { unfold normalize_and_validate_additional_permissions. simpl.
      destruct (normalize_additional_permissions_with_context granted context) as [n|?|]; [|done..]. simpl.
      destruct (profile_is_empty n); [done|]. intros [= <-]. eauto. }
    destruct sp, (arg_additional_permissions args); try (by right; apply Hn). left. by injection En.
  - left. split; [done|]. by destruct (prompt_is_rejected_by_policy policy false).
Qed.

(** The commands a request is checked for. *)
Definition checked_commands env xr : ExecPolicyCommands :=
  policy_commands (xr_command xr) (configured_shell env) (mode_kind (xr_shell_mode xr)) (command_platform os env).

(** A rule of the policy for every command. *)
Definition rules_allow m env c xr : Prop :=
  Forall (λ cmd, allowed_by_rule os (policy_for m (exec_approval_request env c xr)) cmd = true)
    (epc_commands (checked_commands env xr)).

Lemma override_fallback env c xr origin platform cmd :
  fs_kind (file_system_sandbox_policy (permission_profile c)) = Restricted →
  requests_sandbox_override (xr_sandbox_permissions xr) = true → xr_preapproved xr = false →
  prompt_is_rejected_by_policy (approval_policy c) false = None →
  exec_policy_fallback os (exec_approval_request env c xr) origin platform cmd ≠ Allow.
Proof.
  intros Hk Ho Hp Hr. unfold exec_policy_fallback, render_decision_for_unmatched_command_for_platform.
  cbn [exec_approval_request uc_approval_policy uc_permission_profile uc_sandbox_permissions uc_windows_sandbox_level
       uc_command_origin rq_approval_policy rq_permission_profile rq_sandbox_permissions rq_windows_sandbox_level].
  rewrite Hp, Ho, Hk. by destruct (_ || _), (approval_policy c).
Qed.

(** A request beyond the sandbox that is not put to the user. *)
Lemma override_rules m env c xr b am :
  fs_kind (file_system_sandbox_policy (permission_profile c)) = Restricted →
  requests_sandbox_override (xr_sandbox_permissions xr) = true → xr_preapproved xr = false →
  prompt_is_rejected_by_policy (approval_policy c) false = None →
  exec_requirement (Loc:=Loc) os m env c xr = Ok (Skip_ b am) → rules_allow m env c xr.
Proof.
  intros Hk Ho Hp Hr. unfold exec_requirement. destruct (shell_requirement (Loc:=Loc) os m (exec_approval_request env c xr)
    (configured_shell env) (mode_kind (xr_shell_mode xr)) (command_platform os env)) as (r & -> & H).
  intros [= ->]. apply Skip_verdicts in H as [Hv _]; [|apply policy_commands_nonempty].
  eapply Forall_impl; [exact Hv|]. intros cmd Hc. eapply verdict_Allow; [exact Hc|]. by apply override_fallback.
Qed.

Lemma bypass_rules m env c xr am :
  exec_requirement (Loc:=Loc) os m env c xr = Ok (Skip_ true am) → rules_allow m env c xr.
Proof.
  unfold exec_requirement. destruct (shell_requirement (Loc:=Loc) os m (exec_approval_request env c xr)
    (configured_shell env) (mode_kind (xr_shell_mode xr)) (command_platform os env)) as (r & -> & H).
  intros [= ->]. apply Skip_verdicts in H as [_ Hb]; [|apply policy_commands_nonempty]. symmetry in Hb.
  rewrite forallb_forall in Hb. apply Forall_forall. intros cmd Hc. by apply Hb, list_elem_of_In.
Qed.

(** C16. Permissions beyond the turn's are never taken without being given: a request
    for more than a restricted sandbox that runs without a question runs either on
    an earlier grant, with exactly the permissions granted then and in the sandbox,
    or because a rule allows every command it runs. *)
Theorem override_granted m env c args xr b am :
  fs_kind (file_system_sandbox_policy (permission_profile c)) = Restricted →
  exec_command_request shell_by_path env (approval_policy c) args = Ok xr →
  exec_requirement (Loc:=Loc) os m env c xr = Ok (Skip_ b am) →
  xr_sandbox_permissions xr ≠ UseDefault →
  rules_allow m env c xr
  ∨ xr_sandbox_permissions xr = WithAdditionalPermissions
    ∧ ∃ granted context, merge_permission_profiles (session_granted env) (turn_granted env) = Some granted
        ∧ permission_context env = Some context
        ∧ (xr_additional_permissions xr = Some granted
           ∨ ∃ n, normalize_additional_permissions_with_context granted context = Ok n
               ∧ xr_additional_permissions xr = Some n).
Proof.
  intros Hk Hx Hr Hs. assert (Ho : requests_sandbox_override (xr_sandbox_permissions xr) = true).
  { by destruct (xr_sandbox_permissions xr). }
  destruct (request_override _ _ _ _ Hx Ho) as [[Hp Hn]|(_ & ? & ?)]; [left|by right]. by eapply override_rules.
Qed.

Section run.
Context {E X A D Out W : Type} `{TH : !ToolHost U E X A D Out W}.
#[local] Existing Instance recording.

(** C4. A command of the model leaves the sandbox only with an approval or with
    rules: in a restricted file system every attempt outside of a sandbox that the
    policy asks for comes after an approval granted in the same call, or each
    command the invocation runs is allowed by a rule of the policy, the executable
    itself included when it is not a known shell. *)
Theorem exec_escalation_covered m env c args (w w' : W * list (Event U)) r :
  fs_kind (file_system_sandbox_policy (permission_profile c)) = Restricted →
  exec_command (Loc:=Loc) (E:=E) (X:=X) (A:=A) (D:=D) (Out:=Out) os shell_by_path m env c args w = (r, w') →
  ∃ t, w'.2 = w.2 ++ t ∧ ∀ pre a post,
    t = pre ++ EvAttempt a :: post → is_escalated os a = true →
    granted_before pre
    ∨ ∃ xr, exec_command_request shell_by_path env (approval_policy c) args = Ok xr ∧ rules_allow m env c xr.
Proof.
  intros Hk. unfold exec_command. destruct (exec_command_request _ _ _ _) as [xr|e|] eqn:Ex.
  2,3: intros [= _ <-]; exists []; rewrite app_nil_r; split; [done|]; by intros [].
  destruct (exec_requirement os m env c xr) as [req|?|] eqn:Er.
  2,3: intros [= _ <-]; exists []; rewrite app_nil_r; split; [done|]; by intros [].
  destruct (orchestrate os _ c w) as [ro wo] eqn:Eo. intros [= _ <-].
  apply (escalated_attempts os) in Eo as (t & Et & Hesc); [|done..]. exists t. split; [done|]. intros pre a post Hs He.
  destruct (Hesc _ _ _ Hs He) as [?|(bypass & am & Hreq & Hwhy)]; [by left|right]. exists xr. split; [done|].
  cbn in Hreq. subst req. destruct bypass; [by eapply bypass_rules|]. destruct Hwhy as [|Hwhy]; [done|].
  cbn [exec_tool tool_sandbox_permissions] in Hwhy.
  assert (Ho : requests_sandbox_override (xr_sandbox_permissions xr) = true) by by destruct (xr_sandbox_permissions xr).
  destruct (request_override _ _ _ _ Ex Ho) as [[Hp Hn]|(_ & Hs' & _)]; [by eapply override_rules|by rewrite Hs' in Hwhy].
Qed.
End run.

(** ** The script that is checked *)

(** The shells that take a script on their command line are asked to run the
    command of the model, and that script is what the checks read. *)
Lemma derived_script shell cmd login :
  detect_shell_type (shell_path shell) = Some (shell_type shell) →
  shell_type shell ≠ PowerShell → shell_type shell ≠ Cmd →
  extract_bash_command (derive_exec_args shell cmd login) = Some (shell_path shell, cmd).
Proof.
  intros Hd Hp Hc. unfold derive_exec_args. destruct (shell_type shell); try done;
    unfold extract_bash_command; rewrite Hd; by destruct login.
Qed.
End exec.
