(* ===== verification/SafetySample.v ===== *)
(** * Approvals by example

    A patch that is verified, approved and applied over the sample URLs, with the
    joins of file URIs, and a tool call whose sandboxed attempt is denied. *)

From stdpp Require Import gmap.
From S2P Require Import Prelude RustStr RustIo RustOrd IpAddr NetPolicy NetConfig MitmHook NetState NetRuntime.
From S2P Require Import Utf8 PathConvention PathUri PathText FsPolicy FsDeny FsTransform FsProfile FsSample.
From S2P Require Import PatchParser SeekSequence FileUpdate ApplyPatch MemFs Invocation.
From S2P Require Import PatchTrace PatchSafety Orchestrator.
From S2P Require Import NetGlobs ExecPolicy ExecPolicyFacts PolicyParser PolicyParserFacts.
From S2P Require Import PolicyAmend PolicyAmendFacts ShellCommand DangerousCommand ShellCommandFacts.
From S2P Require Import ExecApproval ExecApprovalFacts PolicyLoad ExecTool.
Open Scope list_scope.

(** ** A patch *)

#[local] Instance uri_paths : PathUriOps SUrl unit := {
  path_join u s := match path_uri_join u s with Ok v => inr v | _ => inl () end;
  path_parent := parent;
  inferred_native_path_string := su_path;
  path_error_display _ := lit "bad path";
}.

Definition regular : FileMetadata := {| is_directory := false; is_file := true; is_symlink := false |}.

#[local] Instance url_files : ExecutorFileSystem SUrl (gmap SUrl str) := {
  read_file_text _ p w := match w !! p with Some c => inr c | None => inl not_found end;
  get_metadata _ p w := match w !! p with Some _ => inr regular | None => inl not_found end;
  write_file _ p c w := (inr tt, <[p := c]> w);
  create_directory _ _ w := (inr tt, w);
  remove _ p w := (inr tt, delete p w);
}.

Definition s_patch : str := text
  [lit "*** Begin Patch"; lit "*** Add File: a/new"; lit "+hi"; lit "*** Update File: b";
   lit "*** Move to: c"; lit "@@"; lit "-x"; lit "+y"; lit "*** End Patch"].
Definition s_files : gmap SUrl str := {[ at_path [lit "w"; lit "b"] := text [lit "x"; []] ]}.
Definition s_writes : FileSystemSandboxPolicy SUrl := restricted [entry_new (FsSpecial SpRoot) Read; on u_w Write].
Definition s_managed : PermissionProfile SUrl := Managed (MfsRestricted (fs_entries s_writes) None) NetRestricted.

Definition s_run : RunState (gmap SUrl str * list (FsOp SUrl)) (list str) :=
  {| run_fs := (s_files, []); run_stdout := []; run_stderr := [] |}.

Definition ok_or {E A} (d : A) (r : res E A) : A := match r with Ok a => a | _ => d end.
Lemma ok_or_eq {E A} (d : A) (r : res E A) : is_ok r = true → r = Ok (ok_or d r).
Proof. by destruct r. Qed.

Definition s_args : ApplyPatchArgs :=
  ok_or {| args_patch := []; args_hunks := []; args_workdir := None; args_environment_id := None |} (parse_patch s_patch).
Definition s_action : ApplyPatchAction SUrl :=
  ok_or {| action_changes := ∅; action_mode := NormalizeToLf; action_patch := []; action_cwd := u_w |}
    (try_verify_apply_patch_args (PE:=unit) no_diff (with_workdir s_args None) u_w NormalizeToLf s_files).

(** The calls of applying the approved patch. *)
Definition s_calls : list (FsOp SUrl) :=
  (run_fs (apply_patch_with_options (PE:=unit) (FS:=traced) default_options (action_cwd s_action)
             (action_patch s_action) s_run).2).2.

Lemma auto_approved_patch_confined_witness :
  s_calls = [OpWrite (at_path [lit "w"; lit "a"; lit "new"]); OpWrite (at_path [lit "w"; lit "c"]);
             OpRemove (at_path [lit "w"; lit "b"])]
  ∧ Forall (permitted_call (PE:=unit) s_writes s_ctx) s_calls.
Proof.
  split; [evaluate|].
  assert (Ep : parse_patch s_patch = Ok s_args) by (apply ok_or_eq; evaluate).
  assert (Ev : try_verify_apply_patch_args (PE:=unit) no_diff (with_workdir s_args None) u_w NormalizeToLf s_files
               = Ok s_action) by (apply ok_or_eq; evaluate).
  assert (Ha : assess_patch_safety OsLinux s_action Never s_managed s_writes s_ctx ExecutorManaged = AutoApprove) by evaluate.
  destruct (auto_approved_patch_confined (UL:=sample_url) (CU:=SUrl_countable) no_diff OsLinux s_patch s_args None u_w NormalizeToLf s_files s_action Never
              s_managed s_writes s_ctx ExecutorManaged default_options s_run _ _
              Ep Ev Ha (surjective_pairing _))
    as (calls & Hc & Hall).
  change (s_calls = calls) in Hc. rewrite Hc. exact Hall.
Defined.

(** ** A tool call *)

(** The session grants what it is asked; the sandbox denies the first attempt. *)
#[local] Instance s_host : ToolHost SUrl unit unit unit unit unit unit := {
  request_approval _ w := (inr (), w);
  begin_network_approval _ w := (inr None, w);
  into_deferred _ := None;
  tool_run attempt _ w :=
    (if sandbox_requested attempt then inl (Codex (SandboxDenied () None)) else inr (), w);
  finish_deferred_network_approval _ w := (inr (), w);
}.

Definition s_tool : Tool SUrl :=
  {| tool_sandbox_permissions := UseDefault; tool_exec_approval_requirement := Some (Skip_ false None);
     should_bypass_approval := default_should_bypass_approval;
     wants_no_sandbox_approval := apply_patch_wants_no_sandbox_approval;
     approval_action := inr (); sandbox_preference := PrefAuto; escalate_on_failure := true;
     uses_executor_managed_process_sandbox := false; network_approval_spec := None; tool_sandbox_cwd := None |}.

Definition s_call (strict : bool) (profile : PermissionProfile SUrl) : CallContext SUrl :=
  {| approval_policy := OnRequest; strict_auto_review := strict; owner_network_policy := false;
     permission_profile := profile; profile_with_workspace_roots := profile; windows_sandbox_level := WsDisabled;
     controller_proxy_enabled := false; turn_has_network := false; env_cwd := u_w; codex_sandbox_exe := None |}.

Definition s_events (strict : bool) (profile : PermissionProfile SUrl) : list (Event SUrl) :=
  (orchestrate (TH:=recording) OsLinux s_tool (s_call strict profile) ((), [])).2.2.

(** Denied, approved, tried outside of the sandbox. *)
Lemma escalation_needs_approval_witness :
  ∃ a1 actx a2, s_events false s_managed = [EvAttempt a1; EvApproval actx true; EvAttempt a2]
    ∧ is_escalated OsLinux a2 = true ∧ granted_before [EvAttempt a1; EvApproval actx true].
Proof.
  destruct (escalation_needs_approval OsLinux s_tool (s_call false s_managed) ((), [])
              _ _ eq_refl eq_refl eq_refl (surjective_pairing _)) as (t & Ht & H).
  set (a1 := initial_attempt OsLinux s_tool (s_call false s_managed)).
  set (a2 := retry_attempt OsLinux s_tool (s_call false s_managed)).
  assert (Ee : ∃ actx, s_events false s_managed = [EvAttempt a1; EvApproval actx true; EvAttempt a2])
    by (eexists; reflexivity).
  destruct Ee as [actx Ee]. exists a1, actx, a2. split; [exact Ee|]. split; [evaluate|].
  change (s_events false s_managed = t) in Ht. rewrite Ee in Ht. subst t.
  destruct (H [EvAttempt a1; EvApproval actx true] a2 [] eq_refl) as [Hg|(b & am & Hr & Hb)]; [evaluate|exact Hg|].
  exfalso. vm_compute in Hr. injection Hr as <- _. by destruct Hb.
Defined.

Definition s_denying : PermissionProfile SUrl :=
  Managed (MfsRestricted (on u_secret Deny :: fs_entries s_writes) None) NetRestricted.

Lemma denied_reads_keep_sandbox_witness :
  ∃ a, s_events false s_denying = [EvAttempt a] ∧ is_escalated OsLinux a = false.
Proof.
  destruct (denied_reads_keep_sandbox OsLinux s_tool (s_call false s_denying) ((), [])
              _ _ eq_refl eq_refl (surjective_pairing _)) as (t & Ht & H).
  set (a := initial_attempt OsLinux s_tool (s_call false s_denying)). exists a.
  assert (Ee : s_events false s_denying = [EvAttempt a]) by reflexivity. split; [exact Ee|].
  change (s_events false s_denying = t) in Ht. rewrite Ee in Ht. subst t. apply H. by left.
Defined.

Lemma strict_review_covers_attempts_witness :
  ∃ c1 a1 c2 a2, s_events true s_managed = [EvApproval c1 true; EvAttempt a1; EvApproval c2 true; EvAttempt a2]
    ∧ ∃ pre' actx, [EvApproval c1 true; EvAttempt a1; EvApproval c2 true] = pre' ++ [EvApproval actx true].
Proof.
  destruct (strict_review_covers_attempts OsLinux s_tool (s_call true s_managed) ((), [])
              _ _ eq_refl (surjective_pairing _)) as (t & Ht & H).
  set (a1 := initial_attempt OsLinux s_tool (s_call true s_managed)).
  set (a2 := retry_attempt OsLinux s_tool (s_call true s_managed)).
  assert (Ee : ∃ c1 c2, s_events true s_managed = [EvApproval c1 true; EvAttempt a1; EvApproval c2 true; EvAttempt a2])
    by (do 2 eexists; reflexivity).
  destruct Ee as (c1 & c2 & Ee). exists c1, a1, c2, a2. split; [exact Ee|].
  change (s_events true s_managed = t) in Ht. rewrite Ee in Ht. subst t.
  destruct (H [EvApproval c1 true; EvAttempt a1; EvApproval c2 true] a2 [] eq_refl) as (pre' & actx & Hp & _).
  by exists pre', actx.
Defined.

(** * Commands and their approvals by example

    The sample grammar, paths of a Unix host, the sample URLs and files in memory:
    the theorems on approvals at concrete requests. *)

#[local] Existing Instance unix_host_paths.
#[local] Existing Instance sample_env.

(** ** Requests *)

Definition e_policy (rules : list PrefixRule) : Policy str :=
  {| rules_by_program := foldl (λ acc r, multi_insert acc (pattern_first (pattern r)) r) ∅ rules;
     network_rules := []; host_executables_by_name := ∅ |}.

Definition e_shell : Shell := {| shell_type := Bash; shell_path := lit "/bin/bash" |}.

Definition e_request (command : list str) (sp : SandboxPermissions) (prefix : option (list str))
    : ExecApprovalRequest SUrl str :=
  {| rq_command := command; rq_approval_policy := OnRequest; rq_permission_profile := s_managed;
     rq_environment_policy := None; rq_windows_sandbox_level := WsDisabled; rq_sandbox_permissions := sp;
     rq_prefix_rule := prefix; rq_allow_prefix_rules := Honor |}.

Definition e_create (m : ExecPolicyManager str) (req : ExecApprovalRequest SUrl str) : res unit ExecApprovalRequirement :=
  create_exec_approval_requirement_for_shell (Loc:=unit) OsLinux m req e_shell Direct PlatformPosix.

Definition e_allow_rm : ExecPolicyManager str := manager_new (e_policy [literal_rule (lit "rm") [lit "-f"] Allow]).

(** The forced [rm] of a script is let through by a rule alone. *)
Lemma dangerous_needs_rule_witness :
  e_create (manager_new (e_policy [])) (e_request list_script UseDefault None) = Ok (NeedsApproval None (Some forced_rm))
  ∧ allowed_by_rule OsLinux (policy_for e_allow_rm (e_request list_script UseDefault None)) forced_rm = true.
Proof.
  split; [vm_compute; reflexivity|].
  apply (dangerous_needs_rule (Loc:=unit) OsLinux e_allow_rm (e_request list_script UseDefault None) e_shell Direct
           PlatformPosix false None forced_rm).
  - vm_compute. reflexivity.
  - right. left.
  - vm_compute. discriminate.
Defined.

(** ** An amendment *)

Definition make_script : list str := [lit "/bin/bash"; lit "-lc"; lit "make install"].
Definition make_prefix : list str := [lit "make"; lit "install"].
Definition e_make : ExecApprovalRequest SUrl str := e_request make_script RequireEscalated (Some make_prefix).
Definition e_empty : ExecPolicyManager str := manager_new (e_policy []).
Definition e_updated : res (ExecPolicyUpdateError unit unit) unit * (ExecPolicyManager str * PolicyDisk) :=
  append_amendment_and_update (Loc:=unit) (JE:=unit) OsLinux (lit "home") make_prefix (e_empty, ∅).

Lemma accepted_amendment_skips_witness :
  e_create e_empty e_make = Ok (NeedsApproval None (Some make_prefix))
  ∧ ∃ b am, e_create e_updated.2.1 e_make = Ok (Skip_ b am).
Proof.
  split; [vm_compute; reflexivity|].
  apply (accepted_amendment_skips (Loc:=unit) (JE:=unit) OsLinux e_empty e_make e_shell Direct PlatformPosix (lit "home") make_prefix
           _ ∅ e_updated.2.2).
  - intros a0 rest program q [= <- <-] _ [= <-]. vm_compute. reflexivity.
  - intros o Ho. discriminate Ho.
  - vm_compute. reflexivity.
  - assert (Hok : e_updated.1 = Ok tt) by (vm_compute; reflexivity).
    change (e_updated = (Ok tt, (e_updated.2.1, e_updated.2.2))). rewrite <- Hok. by destruct e_updated as [? []].
Defined.

(** ** A call of the model *)

Definition e_env (granted : option (AdditionalPermissionProfile SUrl)) : ExecEnvironment SUrl str :=
  {| env_id := lit "local"; env_is_remote := false; env_shell := None; session_shell := e_shell;
     turn_shell_mode := ModeDirect; allow_login_shell := true; executor_platform_os := Some (lit "linux");
     env_exec_policy := None; permission_context := Some s_ctx; session_granted := granted; turn_granted := None;
     feature_exec_permission_approvals := false; feature_request_permissions_tool := false;
     allow_prefix_rules := Honor; native_environment_cwd := u_w; has_shell_snapshot := false |}.

Definition e_args (cmd : str) (sp : option SandboxPermissions) : ExecCommandArgs SUrl :=
  {| arg_cmd := cmd; arg_shell := None; arg_login := None; arg_sandbox_permissions := sp;
     arg_additional_permissions := None; arg_justification := None; arg_prefix_rule := None |}.

Definition e_by_path (path : str) : Shell := {| shell_type := Sh; shell_path := path |}.

(** Permissions granted before: the call runs with them in the sandbox. *)
Definition e_grant : AdditionalPermissionProfile SUrl :=
  {| ap_network := Some enabled_network; ap_file_system := None |}.
Definition e_granted_request : res (PermissionError SUrl) (ExecCommandRequest SUrl) :=
  exec_command_request e_by_path (e_env (Some e_grant)) OnRequest (e_args (lit "curl x") None).
Definition no_request : ExecCommandRequest SUrl :=
  {| xr_command := []; xr_shell_mode := ModeDirect; xr_sandbox_permissions := UseDefault;
     xr_additional_permissions := None; xr_preapproved := false; xr_prefix_rule := None |}.

Lemma override_granted_witness :
  xr_additional_permissions (ok_or no_request e_granted_request) = Some e_grant
  ∧ (rules_allow OsLinux e_empty (e_env (Some e_grant)) (s_call false s_managed) (ok_or no_request e_granted_request)
     ∨ xr_sandbox_permissions (ok_or no_request e_granted_request) = WithAdditionalPermissions).
Proof.
  split; [vm_compute; reflexivity|].
  destruct (override_granted (Loc:=unit) OsLinux e_by_path e_empty (e_env (Some e_grant)) (s_call false s_managed)
              (e_args (lit "curl x") None) (ok_or no_request e_granted_request) false (Some [lit "curl"; lit "x"]))
    as [H|[H _]].
  - vm_compute. reflexivity.
  - apply ok_or_eq. vm_compute. reflexivity.
  - vm_compute. reflexivity.
  - vm_compute. discriminate.
  - left. exact H.
  - right. exact H.
Defined.

(** The request to leave the sandbox, with a rule for the command: one attempt
    outside of the sandbox, unasked. *)
Definition e_allow_make : ExecPolicyManager str := manager_new (e_policy [literal_rule (lit "make") [lit "install"] Allow]).
Definition e_make_args : ExecCommandArgs SUrl := e_args (lit "make install") (Some RequireEscalated).
Definition e_run :=
  exec_command (Loc:=unit) (TH:=recording (TH:=s_host)) OsLinux e_by_path e_allow_make (e_env None) (s_call false s_managed) e_make_args ((), []).

Lemma exec_escalation_covered_witness :
  ∃ a, e_run.2.2 = [EvAttempt a] ∧ is_escalated OsLinux a = true
    ∧ ∃ xr, exec_command_request e_by_path (e_env None) OnRequest e_make_args = Ok xr
        ∧ rules_allow OsLinux e_allow_make (e_env None) (s_call false s_managed) xr.
Proof.
  destruct (exec_escalation_covered (Loc:=unit) (TH:=s_host) OsLinux e_by_path e_allow_make (e_env None) (s_call false s_managed)
              e_make_args ((), []) e_run.2 e_run.1 eq_refl (surjective_pairing e_run)) as (t & Ht & H).
  assert (Ee : ∃ a, e_run.2.2 = [EvAttempt a]) by (eexists; reflexivity). destruct Ee as [a Ee]. exists a.
  split; [exact Ee|]. assert (He : is_escalated OsLinux a = true).
  { assert (Ha : [EvAttempt a] = e_run.2.2) by done. clear Ee Ht H. injection Ha as ->. vm_compute. reflexivity. }
  split; [exact He|]. change (e_run.2.2 = t) in Ht. rewrite Ee in Ht. subst t.
  destruct (H [] a [] eq_refl He) as [[actx Hg]|Hx]; [|exact Hx]. exfalso. by apply not_elem_of_nil in Hg.
Defined.

(** ** A required rule *)

#[local] Instance no_files : RulesFs := {
  rules_parent := λ _, None;
  rules_join d n := d ++ lit "/" ++ n;
  rules_read_dir _ := inl (disk_error NotFound);
  rules_read_to_string _ := inl (disk_error NotFound);
}.

Definition e_required : Policy str := e_policy [literal_rule (lit "rm") [] Forbidden].
Definition e_stack : ConfigLayerStack str :=
  {| layers := [{| layer_name := Project (lit "/w/.codex"); disabled_reason := None |}];
     ignore_user_and_project_exec_policy_rules := false; requirements_exec_policy := Some e_required |}.
Definition no_parse (_ _ : str) : res unit unit := Ok tt.
Definition no_calls (_ : unit) : list (Call unit) * option unit := ([], None).
Definition e_loaded : ExecPolicyManager str :=
  ok_or e_empty (manager_load (SE:=unit) false no_parse no_calls e_stack).

(** Bans by the name of a program hold for its paths too. *)
Definition rm_by_path : list str := [lit "/bin/rm"; lit "-f"; lit "x"].
Definition path_script : list str := [lit "/bin/bash"; lit "-lc"; lit "/bin/rm -f x"].

Lemma required_rules_hold_witness :
  (∃ reason, e_create e_loaded (e_request path_script UseDefault None) = Ok (Forbidden_ reason))
  ∨ shadowed OsLinux (policy_for e_loaded (e_request path_script UseDefault None)) e_required rm_by_path.
Proof.
  apply (required_rules_hold (Loc:=unit) (SE:=unit) (W:=PolicyDisk) (JE:=unit) OsLinux no_parse no_calls (λ _, []) e_stack e_loaded
           e_required rm_by_path (e_request path_script UseDefault None) e_shell Direct PlatformPosix).
  - apply reachable_load. apply ok_or_eq. vm_compute. reflexivity.
  - reflexivity.
  - vm_compute. left.
  - left.
Defined.

(** ... until a rule names the path: the command that the required policy forbids is
    refused at first, and runs without a question and without a sandbox once an
    amendment for the path is added to the policy. *)
Definition e_shadowed : res (ExecPolicyUpdateError unit unit) unit * (ExecPolicyManager str * PolicyDisk) :=
  append_amendment_and_update (Loc:=unit) (JE:=unit) OsLinux (lit "home") rm_by_path (e_loaded, ∅).

Lemma required_ban_shadowed_by_path :
  (∃ reason, e_create e_loaded (e_request path_script UseDefault None) = Ok (Forbidden_ reason))
  ∧ e_shadowed.1 = Ok tt
  ∧ ∃ am, e_create e_shadowed.2.1 (e_request path_script UseDefault None) = Ok (Skip_ true am).
Proof. split_and!; [eexists|..|eexists]; vm_compute; reflexivity. Qed.

(** ** A PowerShell that is not the configured one *)

(** A grammar that reads no script with a variable. *)
Definition static_grammars : ShellGrammars := {|
  try_parse_shell script := Some (script_tree script);
  try_parse_powershell_commands script :=
    if contains_char 36%N script then None else Some [split_char c_sp script];
|}.

Definition delete_script : list str := [lit "C:/tools/pwsh.exe"; lit "-Command"; lit "Remove-Item -Force $x"].

Definition e_never : ExecApprovalRequest SUrl str :=
  {| rq_command := delete_script; rq_approval_policy := Never; rq_permission_profile := Disabled;
     rq_environment_policy := None; rq_windows_sandbox_level := WsDisabled; rq_sandbox_permissions := UseDefault;
     rq_prefix_rule := None; rq_allow_prefix_rules := Honor |}.

Definition e_create_with (shell : str) : res unit ExecApprovalRequirement :=
  create_exec_approval_requirement_for_shell (SG:=static_grammars) (Loc:=unit) OsLinux e_empty e_never
    {| shell_type := ShellCommand.PowerShell; shell_path := shell |} Direct PlatformWindows.

(** The check for danger is weaker for an unfamiliar executable: a forced delete that
    is refused when the configured PowerShell runs it is let through, without a
    sandbox, when another one does, since the command line that cannot be read is then
    taken for words of a script. *)
Lemma unfamiliar_powershell_weaker :
  (∃ reason, e_create_with (lit "C:/tools/pwsh.exe") = Ok (Forbidden_ reason))
  ∧ ∃ am, e_create_with (lit "C:/other/pwsh.exe") = Ok (Skip_ false am).
Proof. split; eexists; vm_compute; reflexivity. Qed.
